(* ===== verification/_CoqProject ===== *)
-Q . S2P
Prelude.v
StdLibExtras.v
MemMem.v
StringView.v
HashTable.v
Credentials.v
Pledge.v
Unveil.v
Mutex.v
Bitmap.v
BitmapSearch.v
KernelHeap.v
PhysicalZone.v
PhysicalRegion.v
PhysicalMemory.v
RedBlackTree.v
RedBlackTreeRep.v
RedBlackTreeInsert.v
RedBlackTreeSearch.v
RedBlackTreeRemove.v
RedBlackTreeSpec.v
RegionTree.v
RegionTreeImpl.v
AddressSpace.v
Congruence.v
BigIntBase.v
UnsignedBigInteger.v
BigIntDivision.v
StorageOperations.v
UFixedBigInt.v
BigIntBits.v
BigIntSpec.v
BigIntText.v
SignedBigInteger.v
NumberTheory.v
Montgomery.v
Primality.v
EvenModulus.v
Rsa.v
Poly1305.v
ChaCha20.v
ByteBuffer.v
AEAD.v
Prime25519.v
Curve25519.v
X25519.v
