(* ===== verification/Prelude.v ===== *)
(** * SerenityOS: a verification development of the kernel core, of AK and of LibCrypto

    SerenityOS is a Unix-like operating system in C++: a kernel (src/Kernel), a standard
    library of its own that kernel and programs share (src/AK), and a userland
    (src/Userland).  This development models the parts of the kernel on which the
    protection of processes from each other rests, the containers and routines below
    them, and of the cryptography library the integer arithmetic, RSA, ChaCha20-Poly1305 and
    X25519, and proves them correct.  The definitions are functions that run, translated
    statement by statement.  The manifest names the lines that each operation
    translates; a fragment of an operation that is a definition of its own, such as a loop
    body, is covered by the lines of the operation, and the shortest helpers and constants
    have no entry of their own.

    ** How the code is modelled

    - Integers are [Z]; every operation of the code that wraps at a width is written with
      [wrap] or [swrap] (this file).  [size_t] and addresses have 64 bits.
    - [outcome] is the result of code that can fail: [Ok], [Err] with an errno code, or
      [Panic].  [Panic] stands for a failed VERIFY or ASSERT, a null or dangling pointer, an
      access out of bounds, and a loop that used up its fuel, so a theorem that a call
      does not panic says that none of these happens.
    - [M S A] is the state monad over it; [x ← m; k] and [m ;; k] sequence both.  The
      lemmas [wp_...] are the weakest preconditions of its operations.
    - Failure of an allocation is part of the state: [heap] is a script of the outcomes of
      the allocations to come, and the theorems hold for all scripts.
    - What the sources do not contain, such as random numbers or the order in which
      threads run, is a parameter or a nondeterministic step.

    ** The parts and their files

    Process protection:
    - Credentials.v: src/Kernel/Security/Credentials.{h,cpp},
      src/Kernel/Syscalls/setuid.cpp and the protected data of Process.  [PS] is the
      state of a call, [sys_setuid] and the others are the calls.  Theorems: the effect of
      each call on every branch, no sequence of calls gives an unprivileged process an ID
      that it did not hold, and setuid of root cannot be undone.
    - Pledge.v: src/Kernel/Syscalls/pledge.cpp, on the same state.  Theorems: the outcome
      on every branch, and that no sequence of calls gives a promise back.
    - Unveil.v: src/Kernel/Syscalls/unveil.cpp, src/Kernel/FileSystem/UnveilNode.h and
      src/AK/Trie.h, with the check of a path in VirtualFileSystem.  Theorems: a veil
      grants a path what its longest unveiled prefix grants, for every outcome of the
      allocations, and no sequence of calls widens it.

    Locking:
    - Mutex.v: src/Kernel/Locking/Mutex.cpp, as atomic steps of any number of threads
      ([step]).  Theorems, by induction on the steps: no assertion fails, an exclusive
      holder excludes all others, no wakeup is lost, a release hands the lock over.

    Physical memory and the kernel heap, bottom up:
    - Bitmap.v: src/AK/Bitmap.h, src/AK/BitmapView.h; setting, counting and finding bits.
    - BitmapSearch.v: the searches for ranges of unset bits of src/AK/BitmapView.h: first
      fit, best fit and longest range are exact where they end, and an input on which best
      fit does not.
    - KernelHeap.v: src/Kernel/Heap/Heap.h over them, with the bytes of the memory: blocks
      are aligned, inside the heap and disjoint, nobody's bytes are overwritten, a request
      fails only for lack of room, and a wrong free is caught.
    - PhysicalZone.v: src/Kernel/Memory/PhysicalZone.{h,cpp}, the buddy allocator.  The
      zone implements a set of free pages; freed buddies are merged.
    - PhysicalRegion.v: src/Kernel/Memory/PhysicalRegion.{h,cpp}, lists of zones.
      It is an instance of the class [PageAllocator].
    - PhysicalMemory.v: the accounting of src/Kernel/Memory/MemoryManager.cpp, proved
      against [PageAllocator]: the counters add up, and a committed page can be taken.

    Virtual memory, bottom up:
    - RedBlackTree.v: src/AK/RedBlackTree.h and src/AK/IntrusiveRedBlackTree.h on a heap
      of nodes and pointers; RedBlackTreeRep.v (what the heap stands for),
      RedBlackTreeInsert.v, RedBlackTreeSearch.v, RedBlackTreeRemove.v (the proofs) and
      RedBlackTreeSpec.v (the theorems on the public operations, with the invariant [wf]).
    - RegionTree.v: src/Kernel/Memory/VirtualRange.{h,cpp} and
      src/Kernel/Memory/RegionTree.{h,cpp} over the sorted sequence of regions: placing a
      region finds free room when there is any and overlaps nothing.
    - RegionTreeImpl.v: the red-black tree implements that sequence; deleting all regions.
    - AddressSpace.v: src/Kernel/Memory/AddressSpace.cpp and the munmap and mprotect calls
      of src/Kernel/Syscalls/mmap.cpp: which addresses are mapped afterwards, to which part
      of which object and with which access, and which ranges are refused.

    AK:
    - StdLibExtras.v: integer helpers of src/AK/StdLibExtras.h and src/AK/HashFunctions.h.
    - HashTable.v: src/AK/HashTable.h and src/AK/HashMap.h, Robin Hood hashing.  The table
      implements a finite map; no probe runs on for ever.
    - MemMem.v: src/AK/MemMem.h, the two substring searches; both find the first
      occurrence.
    - ByteBuffer.v: src/AK/ByteBuffer.h with the rounding of sizes of
      src/Userland/Libraries/LibC/malloc.cpp behind the class [GoodSize]: the buffer
      refines a list of bytes under all operations and all failing allocations, and grows
      with a logarithmic number of allocations.
    - StringView.v: splitting of src/AK/StringView.h and src/AK/FixedStringBuffer.h.
    - StorageOperations.v: the operations of src/AK/BigIntBase.h on signed and unsigned
      integer storages that BigIntBase.v (below) does not have: comparison, addition with
      carry, bitwise operations and schoolbook multiplication keep the contracts that the
      comments state.
    - UFixedBigInt.v: src/AK/UFixedBigInt.h and src/AK/UFixedBigIntDivision.h over them,
      with 64-bit words: expressions of mixed widths have the value of the integers modulo
      the width, whatever a new storage held; conversions, bit counts and comparisons; and
      three operators that do not have that value.

    LibCrypto (src/Userland/Libraries/LibCrypto), bottom up:
    - Congruence.v: congruence modulo an integer as a setoid, and the facts on primes that
      the proofs need (Fermat, inverses, primality by trial division and by Pocklington's
      criterion).
    - BigIntBase.v: the word operations and storage operations of src/AK/BigIntBase.h for
      every word width, with the proof of Knuth's algorithm D.
    - UnsignedBigInteger.v: BigInt/UnsignedBigInteger.{h,cpp} and the algorithms of
      BigInt/Algorithms/{SimpleOperations,BitwiseOperations,Multiplication,Division}.cpp,
      on a record of the words, the invalid flag and the cached trimmed length.  An
      operation that fills the cache of an operand returns the operand as well.
      [represents u v]: [u] is the integer [v] and its cache is right.  BigIntDivision.v
      and BigIntBits.v hold the proofs on division and on the bitwise operations.
    - BigIntSpec.v: expressions over the operations are computed to the integer they
      denote; the cases in which an operation has no result.
    - BigIntText.v: texts in a base up to 36 and byte strings, with the round trips.
    - SignedBigInteger.v: BigInt/SignedBigInteger.{h,cpp}: the same for sign and magnitude,
      with bitwise operations on infinite two's complement.
    - NumberTheory.v: BigInt/Algorithms/{GCD,ModularInverse,ModularPower}.cpp and
      NumberTheory/ModularFunctions.cpp: GCD and LCM are exact; the classic power loop;
      the modular inverse, and an input on which it is wrong.
    - Montgomery.v: the windowed Montgomery exponentiation; [ModularPower] is exact for
      every modulus.
    - Primality.v: Miller-Rabin, random numbers and random primes, for all random bytes.
    - EvenModulus.v: what the modular inverse returns for an even modulus.
    - Rsa.v: PK/RSA.{h,cpp}: keys, encryption and decryption with the padding of PKCS#1
      v1.5 (a round trip), the sizes of generated keys, and the two faults found there.
    - Poly1305.v: Authentication/Poly1305.{h,cpp}: the tag is that of RFC 8439, however the
      message is cut into updates.
    - ChaCha20.v: Cipher/ChaCha20.{h,cpp}: the output is the input xored with the key
      stream, for every length; the constructor that fails.
    - AEAD.v: AEAD/ChaCha20Poly1305.{h,cpp} put together from these two and ByteBuffer.v:
      the output for all inputs and failing allocations, the round trip, what a verified
      tag means, and the lengths for which the padding is not that of the RFC.
    - Prime25519.v: 2^255 - 19 is prime.
    - Curve25519.v: Curves/Curve25519.{h,cpp}: the operations on eight words are those of
      the field with that many elements; inverse and square root.
    - X25519.v: Curves/X25519.{h,cpp}: the constant-time ladder computes the function of
      RFC 7748, the coordinate of a multiple of a point by doubling and differential
      addition; the formulas of both are justified by tangents and chords of the curve.

    ** Bounds and fuel

    A loop that is not structural recursion has a counter of rounds, the fuel, chosen
    large enough for every state in which the theorems use it; each theorem that an
    operation returns proves that.  A walk through a red-black tree has one round more
    than the heap has nodes; a probe of the hash table one per bucket; the orders of a
    zone are at most 14; the randomized placement tries 1000 addresses, as the code
    does; the searches have a round per byte of their input, those of a bitmap one per
    bit; Poly1305 and ChaCha20 have a round per byte of the message and one more.  The heap of nodes is
    smaller than 2^64 nodes, so that [m_size] does not wrap.  The Euclidean loop and the
    power loops have a round per bit of their operand, which at least halves in each; the
    modular inverse takes its fuel as an argument, and the theorem on it says how much is
    enough.  Drawing a random prime has a number of attempts as an argument, since the
    code draws until it finds one: the theorems say that it stops at the first prime.

    ** Not modelled

    Concurrency other than that of the mutex: the other operations run under locks that
    their callers hold, and are modelled as atomic.  Page tables and TLB: mapping a page
    is a flag of the region.  The ordered variant of the hash table.  The formatting of
    fixed-width integers, which is part of that of AK, and 32-bit hosts.  Of LibCrypto: conversions
    from and to double, hashes of integers, keys in DER and PEM, RSA signatures with
    padding, AES and its modes, hash functions, Ed25519, X448 and the NIST curves.  That
    points of Curve25519 form a group is not proved: the specification of X25519 is the
    sequence of doublings and additions, not a multiple in a group.  That the ladder and the
    comparison of tags take the same time for all secrets is not a property of the values
    computed and is not stated.  The slabs of kmalloc in front of the kernel heap.  File systems,
    scheduling, networking, drivers, the C library and the graphical userland are outside
    the development; the manifest lists them with the reason. *)

From Stdlib Require Export ZArith Lia.
From stdpp Require Export base tactics numbers list gmap sets strings.
From stdpp Require Import options.

#[global] Open Scope Z_scope.
#[global] Set Default Goal Selector "!".

(** ** Machine integers

    A [w]-bit unsigned integer is a [Z] in [0, 2^w); the wrap-around of the
    C++ arithmetic is written out with [wrap].  A signed one is a [Z] in
    [-2^(w-1), 2^(w-1)); [swrap] is the two's complement conversion. *)
Definition wrap (w z : Z) : Z := z mod 2 ^ w.

Definition swrap (w z : Z) : Z :=
  let u := wrap w z in if u <? 2 ^ (w - 1) then u else u - 2 ^ w.

Definition in_width (w z : Z) : Prop := 0 <= z < 2 ^ w.

Lemma wrap_range (w z : Z) : 0 <= w -> in_width w (wrap w z).
Proof. intros Hw. apply Z.mod_pos_bound. lia. Qed.

Lemma wrap_small (w z : Z) : in_width w z -> wrap w z = z.
Proof. apply Z.mod_small. Qed.

Lemma lxor_width w x y : 0 <= w -> in_width w x -> in_width w y -> in_width w (Z.lxor x y).
Proof.
  intros Hw Hx Hy. unfold in_width in *. split; [apply Z.lxor_nonneg; lia|]. rewrite <- (Z.mod_small x (2 ^ w)), <- (Z.mod_small y (2 ^ w)) by done.
  rewrite <- !Z.land_ones by lia. replace (Z.lxor (Z.land x (Z.ones w)) (Z.land y (Z.ones w))) with (Z.land (Z.lxor x y) (Z.ones w)).
  - rewrite Z.land_ones by lia. apply Z.mod_pos_bound. lia.
  - apply Z.bits_inj'. intros i Hi. rewrite Z.land_spec, !Z.lxor_spec, !Z.land_spec. by destruct (Z.testbit x i), (Z.testbit y i), (Z.testbit (Z.ones w) i).
Qed.

Lemma lor_width w x y : 0 <= w -> in_width w x -> in_width w y -> in_width w (Z.lor x y).
Proof.
  intros Hw Hx Hy. unfold in_width in *. split; [apply Z.lor_nonneg; lia|]. rewrite <- (Z.mod_small x (2 ^ w)), <- (Z.mod_small y (2 ^ w)) by done.
  rewrite <- !Z.land_ones, <- Z.land_lor_distr_l, Z.land_ones by lia. apply Z.mod_pos_bound. lia.
Qed.

(** Comparison without branches: the differences are collected with [|]. *)
Lemma foldl_lor_0 l : forall acc, foldl Z.lor acc l = 0 <-> acc = 0 /\ Forall (eq 0) l.
Proof.
  induction l as [|x l IH]; intros acc; cbn [foldl]; [by rewrite Forall_nil; intuition|]. rewrite IH, Z.lor_eq_0_iff, Forall_cons. intuition.
Qed.

Lemma foldl_lor_width w l : 0 <= w -> Forall (in_width w) l -> forall acc, in_width w acc -> in_width w (foldl Z.lor acc l).
Proof. intros Hw. induction 1 as [|x l Hx _ IH]; intros acc Ha; [done|]. cbn [foldl]. apply IH. by apply lor_width. Qed.

Lemma zip_lxor_0 (l k : list Z) : length l = length k -> Forall (eq 0) (zip_with Z.lxor l k) <-> l = k.
Proof.
  revert k. induction l as [|x l IH]; intros [|y k] Hl; try done; cbn [zip_with]. rewrite Forall_cons, IH by (cbn in Hl; lia).
  split; [intros [E ->]; f_equal; by apply Z.lxor_eq|intros [= -> ->]; by rewrite Z.lxor_nilpotent].
Qed.

Lemma zip_lxor_width w l k : 0 <= w -> Forall (in_width w) l -> Forall (in_width w) k -> Forall (in_width w) (zip_with Z.lxor l k).
Proof.
  intros Hw Hl. revert k. induction Hl as [|x l Hx _ IH]; intros [|y k] Hk; try constructor; apply Forall_cons in Hk as [Hy Hk]; [by apply lxor_width|by apply IH].
Qed.

Lemma swrap_small (w z : Z) :
  0 < w -> - 2 ^ (w - 1) <= z < 2 ^ (w - 1) -> swrap w z = z.
Proof.
  intros Hw Hz.
  assert (2 ^ w = 2 * 2 ^ (w - 1)) as E.
  { rewrite <- Z.pow_succ_r by lia. f_equal. lia. }
  unfold swrap, wrap. destruct (Z.ltb_spec z 0).
  - replace (z mod 2 ^ w) with (z + 2 ^ w).
    { rewrite (proj2 (Z.ltb_ge _ _)); lia. }
    rewrite <- (Z.mod_small (z + 2 ^ w) (2 ^ w)) by lia.
    rewrite <- (Z.mul_1_l (2 ^ w)) at 1. by rewrite Z_mod_plus_full.
  - rewrite Z.mod_small by lia. rewrite (proj2 (Z.ltb_lt _ _)); lia.
Qed.

(** Testing one bit with a mask. *)
Lemma land_bit_eqb (x i : Z) : 0 <= i -> (Z.land x (Z.shiftl 1 i) =? 0) = negb (Z.testbit x i).
Proof.
  intros Hi. rewrite Z.shiftl_1_l. destruct (Z.testbit x i) eqn:E; simpl.
  - apply Z.eqb_neq. intros H. apply (f_equal (fun z => Z.testbit z i)) in H.
    rewrite Z.land_spec, Z.pow2_bits_true, E, Z.bits_0 in H by done. done.
  - apply Z.eqb_eq, Z.bits_inj_0. intros n. rewrite Z.land_spec, Z.pow2_bits_eqb by done.
    destruct (Z.eqb_spec i n) as [<-|]; [by rewrite E|apply andb_false_r].
Qed.

(** ** Sums over finite maps *)
Definition map_sum {A} (f : A -> Z) (m : gmap nat A) : Z :=
  map_fold (fun _ x acc => f x + acc) 0 m.

Section map_sum.
Context {A : Type} (f : A -> Z).
Implicit Types m : gmap nat A.

Lemma map_sum_empty : map_sum f ∅ = 0.
Proof. apply map_fold_empty. Qed.

Lemma map_sum_insert_new m i x :
  m !! i = None -> map_sum f (<[i := x]> m) = f x + map_sum f m.
Proof. intros Hi. unfold map_sum. rewrite map_fold_insert_L; [done| |done]. lia. Qed.

Lemma map_sum_delete m i x :
  m !! i = Some x -> map_sum f m = f x + map_sum f (delete i m).
Proof.
  intros Hi. rewrite <- (insert_delete_id m i x Hi) at 1.
  apply map_sum_insert_new, lookup_delete_eq.
Qed.

Lemma map_sum_insert m i x y :
  m !! i = Some x -> map_sum f (<[i := y]> m) = map_sum f m - f x + f y.
Proof.
  intros Hi. rewrite <- insert_delete_eq, map_sum_insert_new by apply lookup_delete_eq.
  rewrite (map_sum_delete m i x Hi). lia.
Qed.

Lemma map_sum_nonneg m : (forall i x, m !! i = Some x -> 0 <= f x) -> 0 <= map_sum f m.
Proof.
  induction m as [|i x m Hi IH] using map_ind; intros H; [by rewrite map_sum_empty|].
  rewrite map_sum_insert_new by done.
  pose proof (H i x ltac:(by rewrite lookup_insert_eq)).
  assert (0 <= map_sum f m); [|lia]. apply IH. intros j y Hj. apply (H j).
  rewrite lookup_insert_ne; [done|]. congruence.
Qed.

Lemma map_sum_elem_le m i x :
  (forall i x, m !! i = Some x -> 0 <= f x) -> m !! i = Some x -> f x <= map_sum f m.
Proof.
  intros H Hi. rewrite (map_sum_delete m i x Hi).
  assert (0 <= map_sum f (delete i m)); [|lia]. apply map_sum_nonneg.
  intros j y [_ Hj]%lookup_delete_Some. eauto.
Qed.

Lemma map_sum_zero m i x :
  (forall i x, m !! i = Some x -> 0 <= f x) -> map_sum f m = 0 -> m !! i = Some x -> f x = 0.
Proof. intros H H0 Hi. pose proof (map_sum_elem_le m i x H Hi). pose proof (H i x Hi). lia. Qed.

Lemma map_sum_all_zero m : (forall i x, m !! i = Some x -> f x = 0) -> map_sum f m = 0.
Proof.
  induction m as [|i x m Hi IH] using map_ind; intros H; [apply map_sum_empty|].
  rewrite map_sum_insert_new by done. rewrite (H i x) by by rewrite lookup_insert_eq.
  rewrite IH; [done|]. intros j y Hj. apply (H j). rewrite lookup_insert_ne; congruence.
Qed.
End map_sum.

Lemma map_sum_le {A} (f g : A -> Z) (m : gmap nat A) :
  (forall i x, m !! i = Some x -> f x <= g x) -> map_sum f m <= map_sum g m.
Proof.
  induction m as [|i x m Hi IH] using map_ind; intros H; [by rewrite !map_sum_empty|].
  rewrite !map_sum_insert_new by done. pose proof (H i x ltac:(by rewrite lookup_insert_eq)).
  assert (map_sum f m <= map_sum g m); [|lia]. apply IH. intros j y Hj. apply (H j).
  rewrite lookup_insert_ne; congruence.
Qed.

(** ** Outcomes of kernel code

    [ErrorOr<T>] either holds a value or an errno.  A failing [VERIFY] halts
    the kernel; it is a third outcome, so that "no assertion fails" is a
    statement about the model. *)
Inductive errno :=
  | EPERM | ESRCH | EINTR | EIO | E2BIG | ENOMEM | EFAULT | EINVAL | ERANGE
  | EOVERFLOW | ENOENT | EAGAIN | ETIMEDOUT | ECONNREFUSED | ENOTCONN
  | EPIPE | ENOBUFS | EISCONN | EINPROGRESS | EPROMISEVIOLATION | ENOEXEC | EACCES | ENAMETOOLONG.

#[export] Instance errno_eq_dec : EqDecision errno.
Proof. solve_decision. Defined.

Inductive outcome (A : Type) :=
  | Ok (a : A)
  | Err (e : errno)
  | Panic.
Arguments Ok {A} a.
Arguments Err {A} e.
Arguments Panic {A}.

(** Code that runs against a mutable state [S].  The state is returned on the
    error paths too: an early return keeps the writes made before it. *)
Definition M (S A : Type) : Type := S -> outcome A * S.

(** Monads, with the computation before the continuation so that the type of
    the bound value is known when the continuation is read.  The notations are
    those of stdpp, reinterpreted in [kernel_scope]. *)
Class KMonad (F : Type -> Type) := {
  kret : forall {A}, A -> F A;
  kbind : forall {A B}, F A -> (A -> F B) -> F B }.

Declare Scope kernel_scope.
Delimit Scope kernel_scope with K.
Notation "x ← y ; z" := (kbind y (fun x => z))
  (at level 20, y at level 100, z at level 200, only parsing) : kernel_scope.
Notation "' x ← y ; z" := (kbind y (fun x => z))
  (at level 20, x pattern, y at level 100, z at level 200, only parsing) : kernel_scope.
Notation "y ;; z" := (kbind y (fun _ => z))
  (at level 100, z at level 200, right associativity, only parsing) : kernel_scope.
#[global] Open Scope kernel_scope.

#[export] Instance M_monad S : KMonad (M S) := {
  kret A a := fun s => (Ok a, s);
  kbind A B m f := fun s =>
    match m s with
    | (Ok a, s') => f a s'
    | (Err e, s') => (Err e, s')
    | (Panic, s') => (Panic, s')
    end }.

Definition fail {S A} (e : errno) : M S A := fun s => (Err e, s).
Definition VERIFY {S} (b : bool) : M S unit := fun s =>
  if b then (Ok tt, s) else (Panic, s).
Definition gets {S A} (f : S -> A) : M S A := fun s => (Ok (f s), s).
Definition modify {S} (f : S -> S) : M S unit := fun s => (Ok tt, f s).
Definition lift {S A} (o : outcome A) : M S A := fun s => (o, s).
(** [(void)expr]: the error of the call is dropped, its effects are not. *)
Definition ignore_error {S A} (m : M S A) : M S unit := fun s =>
  match m s with
  | (Panic, s') => (Panic, s')
  | (_, s') => (Ok tt, s')
  end.

(** Straight-line use of an [ErrorOr] without state. *)
#[export] Instance outcome_monad : KMonad outcome := {
  kret A a := Ok a;
  kbind A B m f :=
    match m with
    | Ok a => f a
    | Err e => Err e
    | Panic => Panic
    end }.
(** Dereferencing a pointer that must not be null. *)
Definition deref {A} (o : option A) : outcome A :=
  match o with Some a => Ok a | None => Panic end.

(** [operator[]] of Vector, Array, Span and StringView: the index is checked. *)
Definition at_index {A} (l : list A) (i : Z) : outcome A :=
  if 0 <=? i then deref (l !! Z.to_nat i) else Panic.
Definition set_at_index {A} (l : list A) (i : Z) (a : A) : outcome (list A) :=
  if (0 <=? i) && (i <? Z.of_nat (length l)) then Ok (<[Z.to_nat i := a]> l) else Panic.

Lemma at_index_Ok {A} (l : list A) (i : nat) a :
  l !! i = Some a -> at_index l (Z.of_nat i) = Ok a.
Proof.
  intros H. unfold at_index. rewrite (proj2 (Z.leb_le _ _)) by lia.
  by rewrite Nat2Z.id, H.
Qed.

Lemma set_at_index_Ok {A} (l : list A) (i : nat) a :
  (i < length l)%nat -> set_at_index l (Z.of_nat i) a = Ok (<[i := a]> l).
Proof.
  intros H. unfold set_at_index. rewrite (proj2 (Z.leb_le _ _)), (proj2 (Z.ltb_lt _ _)) by lia.
  simpl. by rewrite Nat2Z.id.
Qed.

Lemma at_index_Z {A} (l : list A) (i : Z) a :
  0 <= i -> l !! Z.to_nat i = Some a -> at_index l i = Ok a.
Proof. intros Hi H. unfold at_index. by rewrite (proj2 (Z.leb_le _ _)), H. Qed.

Lemma set_at_index_Z {A} (l : list A) (i : Z) a :
  0 <= i < Z.of_nat (length l) -> set_at_index l i a = Ok (<[Z.to_nat i := a]> l).
Proof.
  intros H. unfold set_at_index. by rewrite (proj2 (Z.leb_le _ _)), (proj2 (Z.ltb_lt _ _)) by lia.
Qed.

Lemma set_at_index_Panic {A} (l : list A) (i : Z) a :
  Z.of_nat (length l) <= i -> set_at_index l i a = Panic.
Proof. intros H. unfold set_at_index. by rewrite (proj2 (Z.ltb_ge i _)), andb_false_r. Qed.

Lemma at_index_Panic {A} (l : list A) (i : Z) :
  Z.of_nat (length l) <= i -> at_index l i = Panic.
Proof.
  intros H. unfold at_index. rewrite (lookup_ge_None_2 l) by lia. by destruct (0 <=? i).
Qed.

(** [o] returns a value in [Q]: it neither fails nor panics. *)
Definition runs {A} (o : outcome A) (Q : A -> Prop) : Prop := exists a, o = Ok a /\ Q a.

Lemma runs_bind {A B} (o : outcome A) (f : A -> outcome B) P Q :
  runs o P -> (forall a, P a -> runs (f a) Q) -> runs (kbind o f) Q.
Proof. intros (a & -> & HP) H. by apply H. Qed.

Lemma runs_mono {A} (o : outcome A) (P Q : A -> Prop) :
  runs o P -> (forall a, P a -> Q a) -> runs o Q.
Proof. intros (a & -> & HP) H. exists a. auto. Qed.

Lemma runs_ret {A} (a : A) (Q : A -> Prop) : Q a -> runs (kret a) Q.
Proof. intros H. by exists a. Qed.

(** ** Counting loops

    [for_range lo hi] is [for (i = lo; i < hi; ++i)], [for_range_down lo hi] is
    [for (i = hi; i-- > lo;)]; the variables that the body writes are the state. *)
Fixpoint for_up {T} (n i : nat) (body : nat -> T -> outcome T) (t : T) : outcome T :=
  match n with
  | O => Ok t
  | S n => t ← body i t; for_up n (S i) body t
  end.
Definition for_range {T} (lo hi : nat) (body : nat -> T -> outcome T) (t : T) : outcome T :=
  for_up (hi - lo) lo body t.
Fixpoint for_down {T} (n lo : nat) (body : nat -> T -> outcome T) (t : T) : outcome T :=
  match n with
  | O => Ok t
  | S n => t ← body (lo + n)%nat t; for_down n lo body t
  end.
Definition for_range_down {T} (lo hi : nat) (body : nat -> T -> outcome T) (t : T) : outcome T :=
  for_down (hi - lo) lo body t.

Lemma for_range_runs {T} (I : nat -> T -> Prop) lo hi body t :
  (lo <= hi)%nat -> I lo t ->
  (forall i t, (lo <= i < hi)%nat -> I i t -> runs (body i t) (I (S i))) ->
  runs (for_range lo hi body t) (I hi).
Proof.
  intros Hle Ht Hbody. unfold for_range. remember (hi - lo)%nat as n eqn:E. revert lo t Hle Ht Hbody E.
  induction n as [|n IH]; intros lo t Hle Ht Hbody E; cbn [for_up].
  - replace hi with lo by lia. by apply (runs_ret t).
  - eapply runs_bind; [apply Hbody; [lia|done]|]. intros t' Ht'. apply IH; [lia|done| |lia].
    intros i t2 Hi. apply Hbody. lia.
Qed.

Lemma for_range_down_runs {T} (I : nat -> T -> Prop) lo hi body t :
  (lo <= hi)%nat -> I hi t ->
  (forall i t, (lo <= i < hi)%nat -> I (S i) t -> runs (body i t) (I i)) ->
  runs (for_range_down lo hi body t) (I lo).
Proof.
  intros Hle Ht Hbody. unfold for_range_down. remember (hi - lo)%nat as n eqn:E. revert hi t Hle Ht Hbody E.
  induction n as [|n IH]; intros hi t Hle Ht Hbody E; cbn [for_down].
  - replace lo with hi by lia. by apply (runs_ret t).
  - replace hi with (S (lo + n)) in Ht by lia. eapply runs_bind; [apply Hbody; [lia|done]|]. intros t' Ht'.
    apply (IH (lo + n)%nat); [lia|done| |lia]. intros i t2 Hi. apply Hbody. lia.
Qed.

(** ** Reasoning about stateful code

    [wp m s Q]: running [m] from [s] ends with an outcome and a state in [Q].
    The rules are used by the tactic [wp_step] below, which runs one operation
    at a time; specifications of whole functions are proved in the same form
    and registered in the hint database [wp]. *)
Definition wp {S A} (m : M S A) (s : S) (Q : outcome A -> S -> Prop) : Prop :=
  Q (fst (m s)) (snd (m s)).

Section wp.
Context {S : Type}.
Implicit Types s : S.

Lemma wp_run {A} (m : M S A) s Q r s' : m s = (r, s') -> wp m s Q -> Q r s'.
Proof. unfold wp. by intros ->. Qed.

Lemma run_pair {A} (m : M S A) s r : fst (m s) = r -> m s = (r, snd (m s)).
Proof. intros <-. apply surjective_pairing. Qed.

Lemma wp_intro {A} (m : M S A) s (Q : outcome A -> S -> Prop) :
  (forall r s', m s = (r, s') -> Q r s') -> wp m s Q.
Proof. unfold wp. intros H. apply H. by destruct (m s). Qed.

Lemma wp_mono {A} (m : M S A) s (P Q : outcome A -> S -> Prop) :
  wp m s P -> (forall r s', P r s' -> Q r s') -> wp m s Q.
Proof. unfold wp. eauto. Qed.

Lemma wp_bind {A B} (m : M S A) (f : A -> M S B) s Q :
  wp m s (fun r s1 => match r with
                      | Ok a => wp (f a) s1 Q
                      | Err e => Q (Err e) s1
                      | Panic => Q Panic s1
                      end) ->
  wp (kbind m f) s Q.
Proof. unfold wp. simpl. by destruct (m s) as [[a|e|] s1]. Qed.

Lemma wp_kret {A} (a : A) s Q : Q (Ok a) s -> wp (kret a) s Q.
Proof. done. Qed.
Lemma wp_fail {A} e s (Q : outcome A -> S -> Prop) : Q (Err e) s -> wp (fail e) s Q.
Proof. done. Qed.
Lemma wp_gets {A} (f : S -> A) s Q : Q (Ok (f s)) s -> wp (gets f) s Q.
Proof. done. Qed.
Lemma wp_modify (f : S -> S) s Q : Q (Ok tt) (f s) -> wp (modify f) s Q.
Proof. done. Qed.
Lemma wp_lift {A} (o : outcome A) s Q : Q o s -> wp (lift o) s Q.
Proof. done. Qed.
Lemma wp_VERIFY (b : bool) s Q : b = true -> Q (Ok tt) s -> wp (VERIFY b) s Q.
Proof. by intros ->. Qed.
Lemma wp_if {A} (b : bool) (m1 m2 : M S A) s Q :
  (b = true -> wp m1 s Q) -> (b = false -> wp m2 s Q) -> wp (if b then m1 else m2) s Q.
Proof. destruct b; auto. Qed.
Lemma wp_ignore_error {A} (m : M S A) s Q :
  wp m s (fun r s' => match r with Panic => Q Panic s' | _ => Q (Ok tt) s' end) ->
  wp (ignore_error m) s Q.
Proof. unfold wp, ignore_error. by destruct (m s) as [[| |] s']. Qed.
End wp.

Create HintDb wp.
#[export] Hint Resolve wp_kret wp_fail wp_gets wp_modify wp_lift : wp.

(** Runs the operation at the head of the goal. *)
Ltac wp_step :=
  cbn beta iota zeta;
  lazymatch goal with
  | |- wp (kbind _ _) _ _ => apply wp_bind
  | |- wp (kret _) _ _ => apply wp_kret
  | |- wp (fail _) _ _ => apply wp_fail
  | |- wp (gets _) _ _ => apply wp_gets
  | |- wp (modify _) _ _ => apply wp_modify
  | |- wp (lift _) _ _ => apply wp_lift
  | |- wp (if _ then _ else _) _ _ => apply wp_if; intros ?
  end; cbn beta iota zeta.
Ltac wp_steps := repeat wp_step.

(** Boolean hypotheses of the code, turned into propositions. *)
Ltac bool_hyps :=
  repeat match goal with
    | H : (_ && _) = true |- _ => apply andb_true_iff in H as [? ?]
    | H : (_ && _) = false |- _ => apply andb_false_iff in H as [?|?]
    | H : (_ || _) = true |- _ => apply orb_true_iff in H as [?|?]
    | H : (_ || _) = false |- _ => apply orb_false_iff in H as [? ?]
    | H : negb _ = true |- _ => apply negb_true_iff in H
    | H : negb _ = false |- _ => apply negb_false_iff in H
    | H : (_ =? _) = true |- _ => apply Z.eqb_eq in H
    | H : (_ =? _) = false |- _ => apply Z.eqb_neq in H
    | H : (_ <? _) = true |- _ => apply Z.ltb_lt in H
    | H : (_ <? _) = false |- _ => apply Z.ltb_ge in H
    | H : (_ <=? _) = true |- _ => apply Z.leb_le in H
    | H : (_ <=? _) = false |- _ => apply Z.leb_gt in H
    end.
