(* ===== verification/StdLibExtras.v ===== *)
(** * AK/StdLibExtras.h, AK/HashFunctions.h and the size classes of kmalloc

    The integer helpers the other components use: rounding to a power of two,
    ceiling division, the integer hash, the index of the lowest set bit, and
    [kmalloc_good_size].  [size_t] is 64 bits wide. *)

From S2P Require Import Prelude.

Definition round_up_to_power_of_two (value power_of_two : Z) : Z :=
  wrap 64 (Z.land (wrap 64 (value - 1)) (wrap 64 (Z.lnot (power_of_two - 1))) + power_of_two).

Definition is_power_of_two (value : Z) : bool :=
  (0 <? value) && (Z.land value (value - 1) =? 0).

(** Unsigned arguments, the only ones used here: the sign test is [a > 0]. *)
Definition ceil_div (a b : Z) : Z :=
  let result := a / b in
  if negb (a mod b =? 0) && eqb (0 <? a) (0 <? b) then result + 1 else result.

(** [Kernel/API/POSIX/sys/limits.h] *)
Definition PAGE_SIZE : Z := 4096.

(** [AK/HashFunctions.h]: the argument and every intermediate are [u32]. *)
Definition int_hash (key : Z) : Z :=
  let key := wrap 32 (key + Z.lnot (wrap 32 (Z.shiftl key 15))) in
  let key := Z.lxor key (Z.shiftr key 10) in
  let key := wrap 32 (key + wrap 32 (Z.shiftl key 3)) in
  let key := Z.lxor key (Z.shiftr key 6) in
  let key := wrap 32 (key + Z.lnot (wrap 32 (Z.shiftl key 11))) in
  Z.lxor key (Z.shiftr key 16).

(** [Kernel/Heap/kmalloc.cpp]: the slab sizes, then chunks of 64 bytes with a
    16 byte header. *)
Definition slab_sizes : list Z := [16; 32; 64; 128; 256; 512].
Definition CHUNK_SIZE : Z := 64.
Definition AllocationHeaderSize : Z := 16.

Definition kmalloc_good_size (size : Z) : outcome Z :=
  if negb (0 <? size) then Panic
  else match list_find (fun slab_size => size <= slab_size) slab_sizes with
       | Some (_, slab_size) => Ok slab_size
       | None => Ok (round_up_to_power_of_two (size + AllocationHeaderSize) CHUNK_SIZE
                     - AllocationHeaderSize)
       end.

(** The capacity [HashTable::try_rehash] computes for [n] buckets of
    [bucket_size] bytes.  A bucket array of 2^63 bytes cannot be allocated; the
    model saturates there instead of wrapping. *)
Definition good_capacity (bucket_size : Z) (n : nat) : nat :=
  if Z.of_nat n * bucket_size <=? 2 ^ 63 then
    match kmalloc_good_size (Z.of_nat n * bucket_size) with
    | Ok size => Z.to_nat (size / bucket_size)
    | _ => n
    end
  else n.

(** ** Facts *)

Lemma land_lnot_ones (x k : Z) : 0 <= k -> Z.land x (Z.lnot (2 ^ k - 1)) = x / 2 ^ k * 2 ^ k.
Proof.
  intros Hk.
  replace (2 ^ k - 1) with (Z.ones k) by (rewrite Z.ones_equiv; lia).
  rewrite <- Z.ldiff_land, Z.ldiff_ones_r by done.
  by rewrite Z.shiftl_mul_pow2, Z.shiftr_div_pow2 by done.
Qed.

(** Rounding up gives the least multiple that is not below the value. *)
Lemma round_up_spec (value k : Z) :
  0 <= k < 64 -> 0 < value -> value + 2 ^ k <= 2 ^ 64 ->
  round_up_to_power_of_two value (2 ^ k) = (value - 1) / 2 ^ k * 2 ^ k + 2 ^ k.
Proof.
  intros Hk Hv Hle. unfold round_up_to_power_of_two.
  assert (0 < 2 ^ k) by (apply Z.pow_pos_nonneg; lia).
  assert (wrap 64 (value - 1) = value - 1) as -> by (apply wrap_small; split; lia).
  assert (Z.land (value - 1) (wrap 64 (Z.lnot (2 ^ k - 1))) = (value - 1) / 2 ^ k * 2 ^ k) as ->.
  { unfold wrap. rewrite <- Z.land_ones, (Z.land_comm (Z.lnot _)), Z.land_assoc by lia.
    rewrite (Z.land_ones (value - 1)), Z.mod_small by lia. apply land_lnot_ones. lia. }
  apply wrap_small. split; [apply Z.add_nonneg_nonneg; [|lia]; apply Z.mul_nonneg_nonneg; [|lia]; apply Z.div_pos; lia|].
  pose proof (Z.mul_div_le (value - 1) (2 ^ k)). lia.
Qed.

Lemma round_up_ge (value k : Z) :
  0 <= k < 64 -> 0 < value -> value + 2 ^ k <= 2 ^ 64 ->
  value <= round_up_to_power_of_two value (2 ^ k) < value + 2 ^ k /\
  round_up_to_power_of_two value (2 ^ k) mod 2 ^ k = 0.
Proof.
  intros Hk Hv Hle. rewrite round_up_spec by done.
  assert (0 < 2 ^ k) by (apply Z.pow_pos_nonneg; lia).
  pose proof (Z.mod_pos_bound (value - 1) (2 ^ k)).
  pose proof (Z.div_mod (value - 1) (2 ^ k)).
  split; [lia|].
  replace (_ * _ + _) with (((value - 1) / 2 ^ k + 1) * 2 ^ k) by lia.
  apply Z.mod_mul. lia.
Qed.

Lemma kmalloc_good_size_ge (size : Z) : 0 < size <= 2 ^ 63 ->
  exists s, kmalloc_good_size size = Ok s /\ size <= s.
Proof.
  intros Hs. unfold kmalloc_good_size. rewrite (proj2 (Z.ltb_lt 0 size)) by lia. simpl negb.
  cbv iota. destruct (list_find _ slab_sizes) as [[i s]|] eqn:E.
  - exists s. split; [done|]. by apply list_find_Some in E as (_ & ? & _).
  - eexists. split; [done|]. unfold AllocationHeaderSize, CHUNK_SIZE.
    change 64 with (2 ^ 6) at 1.
    pose proof (round_up_ge (size + 16) 6). lia.
Qed.

(** The rounded capacity is never below the requested one. *)
Lemma good_capacity_ge (bucket_size : Z) (n : nat) :
  0 < bucket_size -> (n <= good_capacity bucket_size n)%nat.
Proof.
  intros Hb. unfold good_capacity.
  destruct (Z.leb_spec (Z.of_nat n * bucket_size) (2 ^ 63)) as [Hle|]; [|done].
  destruct (decide (n = 0%nat)) as [->|Hn]; [lia|].
  destruct (kmalloc_good_size_ge (Z.of_nat n * bucket_size)) as (s & -> & Hs); [nia|].
  apply Nat2Z.inj_le. rewrite Z2Nat.id by (apply Z.div_pos; nia).
  apply Z.div_le_lower_bound; nia.
Qed.
