(* ===== verification/MemMem.v ===== *)
(** * Substring search: AK/MemMem.h and [StringUtils::find]

    [Detail::bitap_bitwise] (the shift-or automaton on a 32-bit word used for
    needles below 32 bytes), the Knuth-Morris-Pratt [memmem] over a chunked
    haystack with its table of strong failure links, and [memmem_optional],
    which chooses between them.  The loops that are not structural run on fuel;
    the theorems show that the fuel the definitions choose is enough and that no
    index is out of range.  All searches are proved to return the first
    occurrence of the needle, or nothing when there is none. *)

From S2P Require Import Prelude.

(** Bytes are [Z]s below 256. *)
Definition is_byte (b : Z) : Prop := in_width 8 b.

(** ** Detail::bitap_bitwise *)

Definition mask_length : nat := 256.

(** [needle_mask[needle[i]] &= ~(0x00000001 << i)] for the needle from [i] on. *)
Fixpoint fill_needle_mask (needle : list Z) (i : Z) (needle_mask : list Z) : outcome (list Z) :=
  match needle with
  | [] => kret needle_mask
  | b :: needle =>
      m ← at_index needle_mask b;
      needle_mask ← set_at_index needle_mask b (Z.land m (wrap 32 (Z.lnot (Z.shiftl 1 i))));
      fill_needle_mask needle (i + 1) needle_mask
  end.

Fixpoint bitap_loop (needle_mask : list Z) (needle_length : Z) (haystack : list Z) (i lookup : Z)
    : outcome (option Z) :=
  match haystack with
  | [] => kret None
  | b :: haystack =>
      m ← at_index needle_mask b;
      let lookup := Z.lor lookup m in
      let lookup := wrap 32 (Z.shiftl lookup 1) in
      if Z.land lookup (wrap 32 (Z.shiftl 1 needle_length)) =? 0
      then kret (Some (i - needle_length + 1))
      else bitap_loop needle_mask needle_length haystack (i + 1) lookup
  end.

(** The result is the offset of the returned pointer, [None] for nullptr. *)
Definition bitap_bitwise (haystack needle : list Z) : outcome (option Z) :=
  let needle_length := Z.of_nat (length needle) in
  if negb (needle_length <? 32) then Panic else
  needle_mask ← fill_needle_mask needle 0 (replicate mask_length (2 ^ 32 - 1));
  bitap_loop needle_mask needle_length haystack 0 (2 ^ 32 - 2).

(** ** memmem over chunks *)

(** [do candidate = table[candidate]; while (candidate >= 0 && needle[candidate] != needle[position])] *)
Fixpoint follow_links (fuel : nat) (needle table : list Z) (position candidate : Z) : outcome Z :=
  match fuel with
  | O => Panic
  | S fuel =>
      candidate ← at_index table candidate;
      if candidate <? 0 then kret candidate else
      a ← at_index needle candidate;
      b ← at_index needle position;
      if negb (a =? b) then follow_links fuel needle table position candidate else kret candidate
  end.

(** [while (position < needle.size())]; [fuel] is [needle.size() - position]. *)
Fixpoint kmp_table_loop (fuel : nat) (needle table : list Z) (position candidate : Z)
    : outcome (list Z) :=
  match fuel with
  | O => kret table
  | S fuel =>
      a ← at_index needle position;
      b ← at_index needle candidate;
      if a =? b then
        t ← at_index table candidate;
        table ← set_at_index table position t;
        kmp_table_loop fuel needle table (position + 1) (swrap 32 (candidate + 1))
      else
        table ← set_at_index table position candidate;
        candidate ← follow_links (S (Z.to_nat candidate)) needle table position candidate;
        kmp_table_loop fuel needle table (position + 1) (swrap 32 (candidate + 1))
  end.

Definition prepare_kmp_partial_table (needle : list Z) : outcome (list Z) :=
  table ← set_at_index (replicate (length needle) 0) 0 (-1);
  kmp_table_loop (length needle - 1) needle table 1 0.

(** [while (haystack_it != haystack_end)]: [chunks] are the chunks from
    [haystack_it] on. *)
Fixpoint kmp_search (fuel : nat) (needle table : list Z) (chunks : list (list Z))
    (total_haystack_index current_haystack_index needle_index : Z) : outcome (option Z) :=
  match fuel with
  | O => Panic
  | S fuel =>
      match chunks with
      | [] => kret None
      | chunk :: rest =>
          if Z.of_nat (length chunk) <=? current_haystack_index then
            kmp_search fuel needle table rest total_haystack_index 0 needle_index
          else
            a ← at_index needle needle_index;
            b ← at_index chunk current_haystack_index;
            if a =? b then
              let needle_index := swrap 32 (needle_index + 1) in
              let total_haystack_index := total_haystack_index + 1 in
              if needle_index =? Z.of_nat (length needle)
              then kret (Some (total_haystack_index - needle_index))
              else kmp_search fuel needle table chunks total_haystack_index
                     (current_haystack_index + 1) needle_index
            else
              needle_index ← at_index table needle_index;
              if needle_index <? 0 then
                kmp_search fuel needle table chunks (total_haystack_index + 1)
                  (current_haystack_index + 1) (swrap 32 (needle_index + 1))
              else
                kmp_search fuel needle table chunks total_haystack_index
                  current_haystack_index needle_index
      end
  end.

(** Every iteration moves to the next chunk, consumes a byte or follows a link,
    and a byte is needed to lengthen the match a link shortens. *)
Definition kmp_fuel (chunks : list (list Z)) : nat :=
  S (length chunks + 2 * length (concat chunks)).

Definition memmem (chunks : list (list Z)) (needle : list Z) : outcome (option Z) :=
  table ← prepare_kmp_partial_table needle;
  kmp_search (kmp_fuel chunks) needle table chunks 0 0 0.

(** ** memmem_optional and StringUtils::find *)

Definition memmem_optional (haystack needle : list Z) : outcome (option Z) :=
  let haystack_length := Z.of_nat (length haystack) in
  let needle_length := Z.of_nat (length needle) in
  if needle_length =? 0 then kret (Some 0) else
  if haystack_length <? needle_length then kret None else
  if haystack_length =? needle_length then
    if bool_decide (haystack = needle) then kret (Some 0) else kret None
  else if needle_length <? 32 then bitap_bitwise haystack needle
  else memmem [haystack] needle.

(** [find(StringView haystack, StringView needle, size_t start)] *)
Definition find_string (haystack needle : list Z) (start : Z) : outcome (option Z) :=
  if Z.of_nat (length haystack) <? start then kret None else
  index ← memmem_optional (drop (Z.to_nat start) haystack) needle;
  kret (match index with Some index => Some (index + start) | None => None end).

(** [find(StringView haystack, char needle, size_t start)] *)
Fixpoint find_char_loop (haystack : list Z) (needle i : Z) : option Z :=
  match haystack with
  | [] => None
  | c :: haystack => if c =? needle then Some i else find_char_loop haystack needle (i + 1)
  end.
Definition find_char (haystack : list Z) (needle start : Z) : option Z :=
  if Z.of_nat (length haystack) <=? start then None
  else find_char_loop (drop (Z.to_nat start) haystack) needle start.

(** ** The specification *)

Definition occurs_at (needle haystack : list Z) (k : nat) : Prop :=
  take (length needle) (drop k haystack) = needle.

(** [r] is the offset of the first occurrence, [None] when there is none. *)
Definition first_occurrence (needle haystack : list Z) (r : option Z) : Prop :=
  match r with
  | Some z => exists k : nat, z = Z.of_nat k /\ occurs_at needle haystack k /\
      forall j, (j < k)%nat -> ~ occurs_at needle haystack j
  | None => forall k, ~ occurs_at needle haystack k
  end.

Section first_occurrence.
Context (needle haystack : list Z).
Notation m := (length needle).

Lemma occurs_at_bound k : (0 < m)%nat -> occurs_at needle haystack k -> (k + m <= length haystack)%nat.
Proof.
  unfold occurs_at. intros Hm H. apply (f_equal length) in H.
  rewrite length_take, length_drop in H. lia.
Qed.

(** An occurrence is a prefix of the haystack that ends with the needle. *)
Lemma occurs_at_suffix k :
  (k + m <= length haystack)%nat ->
  occurs_at needle haystack k <-> needle `suffix_of` take (k + m) haystack.
Proof.
  intros Hk. unfold occurs_at.
  assert (take (k + m) haystack = take k haystack ++ take m (drop k haystack)) as E
    by (symmetry; apply take_take_drop).
  rewrite E. split.
  - intros ->. by exists (take k haystack).
  - intros [l Hl]. symmetry. apply app_inj_2 in Hl as [_ ->]; [done|].
    rewrite length_take, length_drop. lia.
Qed.

Lemma first_occurrence_found k :
  (k + m <= length haystack)%nat -> needle `suffix_of` take (k + m) haystack ->
  (forall l, (l < k + m)%nat -> ~ needle `suffix_of` take l haystack) ->
  first_occurrence needle haystack (Some (Z.of_nat k)).
Proof.
  intros Hk Hs Hno. exists k. split_and!; [done|by apply occurs_at_suffix|].
  intros j Hj Hocc. apply (Hno (j + m)%nat); [lia|]. apply occurs_at_suffix; [lia|done].
Qed.

Lemma first_occurrence_none :
  (0 < m)%nat -> (forall l, (l <= length haystack)%nat -> ~ needle `suffix_of` take l haystack) ->
  first_occurrence needle haystack None.
Proof.
  intros Hm Hno k Hocc. pose proof (occurs_at_bound k Hm Hocc).
  apply (Hno (k + m)%nat); [lia|]. by apply occurs_at_suffix.
Qed.
End first_occurrence.

(** Extending the text by a byte extends a matched prefix of the needle by it. *)
Lemma take_suffix_snoc (p t : list Z) j c :
  (j < length p)%nat ->
  take (S j) p `suffix_of` (t ++ [c]) <-> take j p `suffix_of` t /\ p !! j = Some c.
Proof.
  intros Hj. destruct (lookup_lt_is_Some_2 p j Hj) as [x Hx].
  rewrite (take_S_r _ _ x) by done. split.
  - intros H. split; [by eapply suffix_snoc_inv_2|].
    rewrite Hx. f_equal. by eapply suffix_snoc_inv_1.
  - intros [Hs E]. simplify_eq. destruct Hs as [l ->]. exists l. by rewrite app_assoc.
Qed.

(** ** bitap_bitwise *)

Section bitap.
Context (needle : list Z).
Hypothesis needle_bytes : Forall is_byte needle.
Notation m := (length needle).

(** Bit [j] of the mask of byte [b] is clear exactly when the needle has [b] at [j]. *)
Definition mask_for (mask : list Z) : Prop :=
  forall b, is_byte b -> exists v, at_index mask b = Ok v /\
    forall j : nat, (j < m)%nat -> Z.testbit v (Z.of_nat j) = negb (bool_decide (needle !! j = Some b)).

Lemma land_clear_bit v i j :
  0 <= i < 32 -> 0 <= j < 32 ->
  Z.testbit (Z.land v (wrap 32 (Z.lnot (Z.shiftl 1 i)))) j = Z.testbit v j && negb (j =? i).
Proof.
  intros Hi Hj. rewrite Z.land_spec. f_equal. unfold wrap.
  rewrite Z.mod_pow2_bits_low, Z.lnot_spec, Z.shiftl_1_l, Z.pow2_bits_eqb by lia.
  f_equal. apply Z.eqb_sym.
Qed.

Lemma fill_needle_mask_spec l (i : nat) mask :
  Forall is_byte l -> length mask = mask_length -> (i + length l <= 32)%nat ->
  runs (fill_needle_mask l (Z.of_nat i) mask) (fun mask' =>
    length mask' = mask_length /\
    forall b v, mask !! b = Some v -> exists v', mask' !! b = Some v' /\
      forall j : nat, (j < 32)%nat -> Z.testbit v' (Z.of_nat j) =
        Z.testbit v (Z.of_nat j) &&
        negb (bool_decide ((i <= j)%nat /\ l !! (j - i)%nat = Some (Z.of_nat b)))).
Proof.
  revert i mask. induction l as [|b l IH]; intros i mask Hl Hlen Hi; simpl in *.
  { apply runs_ret. split; [done|]. intros b v Hv. exists v. split; [done|].
    intros j _. rewrite bool_decide_false by naive_solver. by rewrite andb_true_r. }
  apply Forall_cons in Hl as [Hb Hl]. unfold is_byte, in_width in Hb.
  destruct (Z_of_nat_complete b) as [n ->]; [lia|].
  destruct (lookup_lt_is_Some_2 mask n) as [v0 Hv0]; [rewrite Hlen; unfold mask_length; lia|].
  rewrite (at_index_Ok _ _ _ Hv0). simpl.
  rewrite set_at_index_Ok by (rewrite Hlen; unfold mask_length; lia). simpl.
  replace (Z.of_nat i + 1) with (Z.of_nat (S i)) by lia.
  eapply runs_mono; [apply IH; [done|by rewrite length_insert|lia]|].
  intros mask' [Hlen' H]. split; [done|]. intros b v Hv.
  destruct (decide (b = n)) as [->|Hne].
  - simplify_eq. destruct (H n _ (list_lookup_insert_eq _ _ _ ltac:(by eapply lookup_lt_Some)))
      as (v' & Hv' & Hbits).
    exists v'. split; [done|]. intros j Hj. rewrite (Hbits j Hj), land_clear_bit by lia.
    rewrite <- andb_assoc, <- negb_orb. do 2 f_equal. symmetry.
    destruct (Z.eqb_spec (Z.of_nat j) (Z.of_nat i)); simpl.
    + apply bool_decide_true. replace (j - i)%nat with 0%nat by lia. split; [lia|done].
    + apply bool_decide_ext. destruct (decide (i <= j)%nat); [|naive_solver lia].
      replace (j - i)%nat with (S (j - S i))%nat by lia. naive_solver lia.
  - destruct (H b v) as (v' & Hv' & Hbits); [by rewrite list_lookup_insert_ne|].
    exists v'. split; [done|]. intros j Hj. rewrite (Hbits j Hj). do 2 f_equal.
    apply bool_decide_ext. destruct (decide (i <= j)%nat); [|naive_solver lia].
    destruct (decide (j = i)) as [->|].
    + replace (i - i)%nat with 0%nat by lia. simpl. naive_solver lia.
    + replace (j - i)%nat with (S (j - S i))%nat by lia. naive_solver lia.
Qed.

Lemma fill_mask_for :
  (m < 32)%nat ->
  runs (fill_needle_mask needle 0 (replicate mask_length (2 ^ 32 - 1))) mask_for.
Proof.
  intros Hm. eapply runs_mono; [apply (fill_needle_mask_spec needle 0); [done|done|lia]|].
  intros mask [Hlen H] b Hb. unfold is_byte, in_width in Hb.
  destruct (Z_of_nat_complete b) as [n ->]; [lia|].
  destruct (H n (2 ^ 32 - 1)) as (v & Hv & Hbits).
  { apply lookup_replicate_2. unfold mask_length. lia. }
  exists v. split; [by apply at_index_Ok|]. intros j Hj. rewrite Hbits by lia.
  rewrite Nat.sub_0_r. change (2 ^ 32 - 1) with (Z.ones 32).
  rewrite Z.ones_spec_low by lia. simpl. f_equal. apply bool_decide_ext. naive_solver lia.
Qed.

(** Bit [j] of the automaton is clear exactly when the text read so far ends with the
    first [j] bytes of the needle. *)
Definition lookup_for (t : list Z) (lookup : Z) : Prop :=
  forall j : nat, (j <= m)%nat ->
    Z.testbit lookup (Z.of_nat j) = negb (bool_decide (take j needle `suffix_of` t)).

Lemma lookup_for_step t lookup c v :
  (m < 32)%nat -> lookup_for t lookup ->
  (forall j : nat, (j < m)%nat -> Z.testbit v (Z.of_nat j) = negb (bool_decide (needle !! j = Some c))) ->
  lookup_for (t ++ [c]) (wrap 32 (Z.shiftl (Z.lor lookup v) 1)).
Proof.
  intros Hm Ht Hv j Hj. unfold wrap. rewrite Z.mod_pow2_bits_low, Z.shiftl_spec by lia.
  destruct j as [|j].
  - rewrite Z.testbit_neg_r by lia. rewrite bool_decide_true; [done|]. apply suffix_nil.
  - replace (Z.of_nat (S j) - 1) with (Z.of_nat j) by lia.
    rewrite Z.lor_spec, Ht, Hv by lia. rewrite <- negb_andb, <- bool_decide_and. f_equal.
    apply bool_decide_ext. by rewrite take_suffix_snoc.
Qed.

Lemma lookup_for_full t lookup :
  (m < 32)%nat -> lookup_for t lookup ->
  (Z.land lookup (wrap 32 (Z.shiftl 1 (Z.of_nat m))) =? 0) = bool_decide (needle `suffix_of` t).
Proof.
  intros Hm Ht. rewrite Z.shiftl_1_l, wrap_small.
  2: { split; [lia|]. apply Z.pow_lt_mono_r; lia. }
  specialize (Ht m (Nat.le_refl _)). rewrite firstn_all in Ht.
  apply eq_bool_prop_intro. rewrite bool_decide_spec. split.
  - intros H%Is_true_true_1%Z.eqb_eq. apply (f_equal (fun z => Z.testbit z (Z.of_nat m))) in H.
    rewrite Z.land_spec, Z.pow2_bits_true, Ht, Z.bits_0, andb_true_r in H by lia.
    apply negb_false_iff in H. by apply bool_decide_eq_true in H.
  - intros Hs. apply Is_true_true_2, Z.eqb_eq, Z.bits_inj_0. intros n.
    rewrite Z.land_spec, Z.pow2_bits_eqb by lia.
    destruct (Z.eqb_spec (Z.of_nat m) n) as [<-|]; [|apply andb_false_r].
    rewrite Ht, bool_decide_true by done. done.
Qed.

Lemma bitap_loop_spec mask h t lookup :
  (0 < m < 32)%nat -> mask_for mask -> Forall is_byte h -> lookup_for t lookup ->
  (forall l, (l <= length t)%nat -> ~ needle `suffix_of` take l (t ++ h)) ->
  runs (bitap_loop mask (Z.of_nat m) h (Z.of_nat (length t)) lookup)
    (first_occurrence needle (t ++ h)).
Proof.
  intros Hm Hmask. revert t lookup.
  induction h as [|c h IH]; intros t lookup Hh Ht Hno; cbn [bitap_loop].
  { apply runs_ret, first_occurrence_none; [lia|]. intros l Hl. apply Hno.
    rewrite app_nil_r in Hl. done. }
  apply Forall_cons in Hh as [Hc Hh]. destruct (Hmask c Hc) as (v & -> & Hv).
  cbn [kbind outcome_monad]. pose proof (lookup_for_step t lookup c v ltac:(lia) Ht Hv) as Ht'.
  rewrite (lookup_for_full _ _ ltac:(lia) Ht').
  assert (t ++ c :: h = (t ++ [c]) ++ h) as E by by rewrite <- app_assoc. rewrite E in *.
  assert (take (length (t ++ [c])) ((t ++ [c]) ++ h) = t ++ [c]) as Etake by apply take_app_length.
  rewrite length_app in Etake. simpl in Etake.
  case_bool_decide as Hs.
  - pose proof (suffix_length _ _ Hs) as Hlen. rewrite length_app in Hlen. simpl in Hlen.
    replace (Z.of_nat (length t) - Z.of_nat m + 1) with (Z.of_nat (length t + 1 - m)) by lia.
    apply runs_ret, first_occurrence_found.
    + rewrite !length_app. simpl. lia.
    + replace (length t + 1 - m + m)%nat with (length t + 1)%nat by lia. by rewrite Etake.
    + intros l Hl. apply Hno. lia.
  - replace (Z.of_nat (length t) + 1) with (Z.of_nat (length (t ++ [c])))
      by (rewrite length_app; simpl; lia).
    apply IH; [done|done|]. intros l Hl. rewrite length_app in Hl. simpl in Hl.
    destruct (decide (l = length t + 1)%nat) as [->|]; [by rewrite Etake|apply Hno; lia].
Qed.

Lemma bitap_bitwise_spec h :
  (0 < m < 32)%nat -> Forall is_byte h -> runs (bitap_bitwise h needle) (first_occurrence needle h).
Proof.
  intros Hm Hh. unfold bitap_bitwise. rewrite (proj2 (Z.ltb_lt _ _)) by lia. cbn [negb].
  eapply runs_bind; [apply fill_mask_for; lia|]. intros mask Hmask.
  apply (bitap_loop_spec mask h []); [done|done|done| |].
  - intros j Hj. destruct j as [|j].
    + rewrite bool_decide_true; [done|apply suffix_nil].
    + rewrite bool_decide_false.
      2: { intros Hs%suffix_length. rewrite length_take in Hs. cbn [length] in Hs. lia. }
      change (2 ^ 32 - 2) with (Z.shiftl (Z.ones 31) 1).
      rewrite Z.shiftl_spec, Z.ones_spec_low by lia. done.
  - intros l Hl Hs%suffix_length. rewrite length_take in Hs. simpl in *. lia.
Qed.
End bitap.

(** ** The failure links *)

Lemma suffix_shorter (l1 l2 t : list Z) :
  l1 `suffix_of` t -> l2 `suffix_of` t -> (length l1 <= length l2)%nat -> l1 `suffix_of` l2.
Proof.
  intros H1 H2 Hlen. destruct (suffix_weak_total _ _ _ H1 H2) as [|H]; [done|].
  by rewrite (suffix_length_eq _ _ H Hlen).
Qed.

Section kmp.
Context (needle : list Z).
Notation m := (length needle).
Hypothesis needle_nonempty : (0 < m)%nat.
Hypothesis needle_int : Z.of_nat m < 2 ^ 31.

(** The text ends with the first [k] bytes of the needle. *)
Notation matched k t := (take k needle `suffix_of` t).

Lemma matched_shorter j k t :
  (j <= k <= m)%nat -> matched j t -> matched k t -> matched j (take k needle).
Proof.
  intros Hjk Hj Hk. apply (suffix_shorter _ _ t); [done|done|].
  rewrite !length_take. lia.
Qed.

Lemma take_S_snoc q x : needle !! q = Some x -> take (S q) needle = take q needle ++ [x].
Proof. apply take_S_r. Qed.

(** The link of [q]: the longest proper border of the first [q] bytes that is followed by
    another byte than they are, or -1. *)
Record is_link (q : nat) (t : Z) : Prop := {
  link_range : -1 <= t < Z.of_nat q;
  link_border : 0 <= t -> matched (Z.to_nat t) (take q needle) /\ needle !! Z.to_nat t <> needle !! q;
  link_max : forall k : nat, t < Z.of_nat k < Z.of_nat q ->
    matched k (take q needle) -> needle !! k = needle !! q }.

(** The candidate at [q]: its longest proper border. *)
Record is_candidate (q c : nat) : Prop := {
  candidate_lt : (c < q)%nat;
  candidate_border : matched c (take q needle);
  candidate_max : forall k, (c < k < q)%nat -> ~ matched k (take q needle) }.

Definition links_upto (table : list Z) (n : nat) : Prop :=
  length table = m /\ forall q, (q < n)%nat -> exists t, table !! q = Some t /\ is_link q t.

Lemma links_upto_insert table n t :
  (n < m)%nat -> links_upto table n -> is_link n t -> links_upto (<[n := t]> table) (S n).
Proof.
  intros Hn [Hlen H] Ht. split; [by rewrite length_insert|]. intros q Hq.
  destruct (decide (q = n)) as [->|].
  - exists t. split; [|done]. apply list_lookup_insert_eq. lia.
  - rewrite list_lookup_insert_ne by done. apply H. lia.
Qed.

Lemma swrap_index z : -1 <= z <= Z.of_nat m -> swrap 32 z = z.
Proof. intros Hz. apply swrap_small; [lia|]. change (2 ^ (32 - 1)) with (2 ^ 31). lia. Qed.

Lemma needle_at (q : nat) : (q < m)%nat -> exists x, needle !! q = Some x /\ at_index needle (Z.of_nat q) = Ok x.
Proof.
  intros Hq. destruct (lookup_lt_is_Some_2 needle q Hq) as [x Hx]. exists x.
  split; [done|by apply at_index_Ok].
Qed.

(** What [follow_links] leaves: the longest border of the first [pos] bytes that is
    followed by the byte at [pos]. *)
Record extends (pos : nat) (z : Z) : Prop := {
  extends_range : -1 <= z < Z.of_nat pos;
  extends_border : 0 <= z -> matched (Z.to_nat z) (take pos needle) /\ needle !! Z.to_nat z = needle !! pos;
  extends_max : forall k : nat, z < Z.of_nat k < Z.of_nat pos ->
    matched k (take pos needle) -> needle !! k <> needle !! pos }.

Lemma follow_links_spec fuel table pos c :
  (pos < m)%nat -> links_upto table pos -> (c < fuel)%nat -> (c < pos)%nat ->
  matched c (take pos needle) ->
  (forall k, (c <= k < pos)%nat -> matched k (take pos needle) -> needle !! k <> needle !! pos) ->
  runs (follow_links fuel needle table (Z.of_nat pos) (Z.of_nat c)) (extends pos).
Proof.
  intros Hpos [Hlen Htab]. revert c.
  induction fuel as [|fuel IH]; intros c Hfuel Hc Hb Hmax; [lia|]. cbn [follow_links].
  destruct (Htab c Hc) as (t & Ht & [Hr Hlb Hlm]). rewrite (at_index_Ok _ _ _ Ht). cbn [kbind outcome_monad].
  assert (forall k : nat, t < Z.of_nat k < Z.of_nat pos -> matched k (take pos needle) ->
            needle !! k <> needle !! pos) as Hmax'.
  { intros k Hk Hmk. destruct (decide (c <= k)%nat); [apply Hmax; [lia|done]|].
    rewrite (Hlm k ltac:(lia)); [apply Hmax; [lia|done]|].
    apply (matched_shorter _ _ (take pos needle)); [lia|done|done]. }
  destruct (Z.ltb_spec t 0).
  { apply runs_ret. split; [lia|lia|done]. }
  destruct (Hlb ltac:(lia)) as [Hb' Hne].
  destruct (Z_of_nat_complete t) as [n ->]; [lia|]. rewrite Nat2Z.id in *.
  destruct (needle_at n) as (x & Hx & ->); [lia|].
  destruct (needle_at pos) as (y & Hy & ->); [done|]. cbn [kbind outcome_monad].
  assert (matched n (take pos needle)) as Hn by (by etransitivity).
  destruct (Z.eqb_spec x y) as [->|Hxy]; cbn [negb].
  - apply runs_ret. split; [lia| |done]. intros _. rewrite Nat2Z.id. split; [done|congruence].
  - apply IH; [lia|lia|done|]. intros k Hk Hmk.
    destruct (decide (k = n)) as [->|]; [congruence|]. apply Hmax'; [lia|done].
Qed.

Lemma extends_candidate pos z :
  (pos < m)%nat -> extends pos z -> is_candidate (S pos) (Z.to_nat (z + 1)).
Proof.
  intros Hpos [Hr Hb Hmax]. destruct (needle_at pos Hpos) as (y & Hy & _).
  rewrite Hy in *. split; [lia| |].
  - rewrite (take_S_snoc _ _ Hy). destruct (decide (z = -1)) as [->|]; [apply suffix_nil|].
    destruct Hb as [Hb1 Hb2]; [lia|]. replace (Z.to_nat (z + 1)) with (S (Z.to_nat z)) by lia.
    apply take_suffix_snoc; [lia|done].
  - intros [|k] Hk; [lia|]. rewrite (take_S_snoc _ _ Hy), take_suffix_snoc by lia.
    intros [H1 H2]. apply (Hmax k); [lia|done|done].
Qed.

Lemma link_same_byte c pos t :
  (pos < m)%nat -> is_candidate pos c -> needle !! c = needle !! pos -> is_link c t -> is_link pos t.
Proof.
  intros Hpos [Hlt Hb Hmax] E [Hr Hlb Hlm]. rewrite E in *. split; [lia| |].
  - intros H0. destruct (Hlb H0). split; [by etransitivity|done].
  - intros k Hk Hmk. destruct (decide (c < k)%nat); [by destruct (Hmax k); [lia|]|].
    destruct (decide (k = c)) as [->|]; [done|]. apply Hlm; [lia|].
    apply (matched_shorter _ _ (take pos needle)); [lia|done|done].
Qed.

Lemma candidate_same_byte c pos :
  (pos < m)%nat -> is_candidate pos c -> needle !! c = needle !! pos -> is_candidate (S pos) (S c).
Proof.
  intros Hpos [Hlt Hb Hmax] E. destruct (needle_at pos Hpos) as (y & Hy & _). rewrite Hy in E.
  split; [lia| |]; rewrite (take_S_snoc _ _ Hy).
  - by apply take_suffix_snoc; [lia|].
  - intros [|k] Hk; [lia|]. rewrite take_suffix_snoc by lia. intros [H1 _].
    by apply (Hmax k); [lia|].
Qed.

Lemma kmp_table_loop_spec fuel table pos c :
  (pos + fuel = m)%nat -> links_upto table pos -> is_candidate pos c ->
  runs (kmp_table_loop fuel needle table (Z.of_nat pos) (Z.of_nat c)) (fun table => links_upto table m).
Proof.
  revert table pos c. induction fuel as [|fuel IH]; intros table pos c Hf Htab Hc; cbn [kmp_table_loop].
  { apply runs_ret. by replace m with pos by lia. }
  pose proof Hc as [Hlt Hb Hmax].
  destruct (needle_at pos) as (y & Hy & ->); [lia|].
  destruct (needle_at c) as (x & Hx & ->); [lia|]. cbn [kbind outcome_monad].
  replace (Z.of_nat pos + 1) with (Z.of_nat (S pos)) by lia.
  destruct (Z.eqb_spec y x) as [->|Hne].
  - destruct Htab as [Hlen Htab]. destruct (Htab c Hlt) as (t & Ht & Hl).
    rewrite (at_index_Ok _ _ _ Ht). cbn [kbind outcome_monad].
    rewrite set_at_index_Ok by lia. cbn [kbind outcome_monad].
    rewrite swrap_index by lia. replace (Z.of_nat c + 1) with (Z.of_nat (S c)) by lia.
    apply IH; [lia| |].
    + apply links_upto_insert; [lia|done|]. apply (link_same_byte c pos); [lia|done|congruence|done].
    + by apply (candidate_same_byte c pos); [lia| |congruence].
  - destruct Htab as [Hlen Htab]. rewrite set_at_index_Ok by lia. cbn [kbind outcome_monad].
    rewrite Nat2Z.id.
    assert (links_upto (<[pos := Z.of_nat c]> table) (S pos)) as Htab'.
    { apply links_upto_insert; [lia|done|]. split; [lia| |].
      - intros _. rewrite Nat2Z.id, Hx, Hy. split; [done|congruence].
      - intros k Hk Hmk. by destruct (Hmax k); [lia|]. }
    eapply runs_bind.
    { apply follow_links_spec; [lia| |lia|lia|done|].
      - destruct Htab' as [Hl' Ht']. split; [done|]. intros q Hq. apply Ht'. lia.
      - intros k Hk Hmk. destruct (decide (k = c)) as [->|]; [congruence|].
        by destruct (Hmax k); [lia|]. }
    intros z Hz. pose proof (extends_range _ _ Hz). rewrite swrap_index by lia.
    rewrite <- (Z2Nat.id (z + 1)) by lia. apply IH; [lia|done|]. apply extends_candidate; [lia|done].
Qed.

Lemma prepare_kmp_partial_table_spec :
  runs (prepare_kmp_partial_table needle) (fun table => links_upto table m).
Proof.
  unfold prepare_kmp_partial_table. rewrite (set_at_index_Ok _ 0) by (rewrite length_replicate; lia).
  cbn [kbind outcome_monad]. apply (kmp_table_loop_spec _ _ 1 0); [lia| |].
  - split; [by rewrite length_insert, length_replicate|]. intros q Hq.
    replace q with 0%nat by lia. exists (-1). split.
    + apply list_lookup_insert_eq. rewrite length_replicate. lia.
    + split; [lia|lia|]. intros k. lia.
  - split; [lia|apply suffix_nil|lia].
Qed.

(** ** The search

    [t] is the text consumed and [rest] what is left of the haystack. *)
Record search_inv (t rest : list Z) (q : nat) : Prop := {
  search_range : (q < m)%nat;
  search_matched : matched q t;
  search_max : forall k c, (q < k < m)%nat -> matched k t -> head rest = Some c -> needle !! k <> Some c;
  search_none : forall l, (l <= length t)%nat -> ~ needle `suffix_of` take l (t ++ rest) }.

Lemma search_inv_no_match t rest q : search_inv t rest q -> ~ needle `suffix_of` t.
Proof.
  intros [_ _ _ Hno]. specialize (Hno (length t) (Nat.le_refl _)). by rewrite take_app_length in Hno.
Qed.

Lemma search_inv_match t c rest q :
  search_inv t (c :: rest) q -> needle !! q = Some c ->
  if decide (S q = m) then first_occurrence needle (t ++ c :: rest) (Some (Z.of_nat (length t + 1 - m)))
  else search_inv (t ++ [c]) rest (S q).
Proof.
  intros Hinv Hq. pose proof (search_inv_no_match _ _ _ Hinv) as Hnt. destruct Hinv as [Hr Hmt Hmax Hno].
  assert (matched (S q) (t ++ [c])) as HS by by apply take_suffix_snoc.
  assert (t ++ c :: rest = (t ++ [c]) ++ rest) as E by by rewrite <- app_assoc.
  assert (take (length t + 1) ((t ++ [c]) ++ rest) = t ++ [c]) as Etake.
  { rewrite <- (take_app_length (t ++ [c]) rest) at 2. by rewrite length_app. }
  assert (forall k, (S q < k <= m)%nat -> ~ matched k (t ++ [c])) as Hlong.
  { intros [|k] Hk; [lia|]. rewrite take_suffix_snoc by lia. intros [H1 H2].
    by apply (Hmax k c); [lia| | |]. }
  case_decide as Hend.
  - rewrite Hend, firstn_all in HS. pose proof (suffix_length _ _ HS) as Hlen.
    rewrite length_app in Hlen. simpl in Hlen.
    apply first_occurrence_found; replace (length t + 1 - m + m)%nat with (length t + 1)%nat by lia.
    + rewrite length_app. simpl. lia.
    + by rewrite E, Etake.
    + intros l Hl. apply Hno. lia.
  - split; [lia|done| |].
    + intros k c' Hk Hmk. by destruct (Hlong k); [lia|].
    + intros l Hl. rewrite length_app in Hl. simpl in Hl. rewrite <- E.
      destruct (decide (l = length t + 1)%nat) as [->|]; [|apply Hno; lia].
      rewrite E, Etake, <- (firstn_all needle). apply Hlong. lia.
Qed.

Lemma search_inv_link t c rest q z :
  search_inv t (c :: rest) q -> needle !! q <> Some c -> is_link q z ->
  if z <? 0 then search_inv (t ++ [c]) rest 0 else search_inv t (c :: rest) (Z.to_nat z).
Proof.
  intros [Hr Hmt Hmax Hno] Hq [Hzr Hzb Hzm].
  assert (forall k, z < Z.of_nat k -> (k < m)%nat -> matched k t -> needle !! k <> Some c) as Hall.
  { intros k Hz Hk Hmk. destruct (decide (q < k)%nat); [by apply (Hmax k c)|].
    destruct (decide (k = q)) as [->|]; [done|]. rewrite (Hzm k ltac:(lia)); [done|].
    apply (matched_shorter _ _ t); [lia|done|done]. }
  destruct (Z.ltb_spec z 0).
  - assert (forall k, (0 < k <= m)%nat -> ~ matched k (t ++ [c])) as Hlong.
    { intros [|k] Hk; [lia|]. rewrite take_suffix_snoc by lia. intros [H1 H2].
      by apply (Hall k); [lia|lia| |]. }
    assert (t ++ c :: rest = (t ++ [c]) ++ rest) as E by by rewrite <- app_assoc.
    split; [done|apply suffix_nil| |].
    + intros k c' Hk Hmk. by destruct (Hlong k); [lia|].
    + intros l Hl. rewrite length_app in Hl. simpl in Hl.
      destruct (decide (l = length t + 1)%nat) as [->|]; [|rewrite <- E; apply Hno; lia].
      replace (length t + 1)%nat with (length (t ++ [c])) by by rewrite length_app.
      rewrite take_app_length, <- (firstn_all needle). apply Hlong. lia.
  - destruct (Hzb ltac:(lia)) as [Hb _]. split; [lia|by etransitivity| |done].
    intros k c' Hk Hmk E. simplify_eq/=. apply Hall; [lia|lia|done].
Qed.

Lemma concat_drop_step (chunk : list Z) chunks cur :
  (cur < length chunk)%nat -> exists c,
    at_index chunk (Z.of_nat cur) = Ok c /\
    drop cur (concat (chunk :: chunks)) = c :: drop (S cur) (concat (chunk :: chunks)).
Proof.
  intros Hcur. destruct (lookup_lt_is_Some_2 chunk cur Hcur) as [c Hc]. exists c.
  split; [by apply at_index_Ok|]. apply drop_S. simpl. by apply lookup_app_l_Some.
Qed.

Lemma kmp_search_spec fuel table chunks cur t q :
  links_upto table m ->
  match chunks with [] => cur = 0%nat | chunk :: _ => (cur <= length chunk)%nat end ->
  let rest := drop cur (concat chunks) in
  search_inv t rest q -> (length chunks + 2 * length rest + q < fuel)%nat ->
  runs (kmp_search fuel needle table chunks (Z.of_nat (length t)) (Z.of_nat cur) (Z.of_nat q))
    (first_occurrence needle (t ++ rest)).
Proof.
  intros [Hlen Htab]. revert chunks cur t q.
  induction fuel as [|fuel IH]; intros chunks cur t q Hcur rest Hinv Hfuel; [lia|].
  cbn [kmp_search]. destruct chunks as [|chunk chunks].
  { apply runs_ret. subst rest cur. simpl in *.
    apply first_occurrence_none; [done|]. rewrite app_nil_r. intros l Hl.
    pose proof (search_none _ _ _ Hinv l Hl) as H. by rewrite app_nil_r in H. }
  destruct (Z.leb_spec (Z.of_nat (length chunk)) (Z.of_nat cur)).
  { assert (rest = drop 0 (concat chunks)) as ->.
    { subst rest. simpl. rewrite drop_app_length' by lia. done. }
    apply (IH chunks 0%nat); [by destruct chunks; simpl; [|lia]|done|simpl in *; lia]. }
  destruct (concat_drop_step chunk chunks cur) as (c & Hc & E); [lia|].
  pose proof (search_range _ _ _ Hinv) as Hq.
  destruct (needle_at q Hq) as (x & Hx & ->). rewrite Hc. cbn [kbind outcome_monad].
  subst rest. rewrite E in Hinv, Hfuel |- *. cbn [length] in Hfuel.
  assert (forall q', search_inv (t ++ [c]) (drop (S cur) (concat (chunk :: chunks))) q' ->
    (q' <= S q)%nat ->
    runs (kmp_search fuel needle table (chunk :: chunks) (Z.of_nat (length t) + 1)
            (Z.of_nat cur + 1) (Z.of_nat q'))
      (first_occurrence needle (t ++ c :: drop (S cur) (concat (chunk :: chunks))))) as Hconsume.
  { intros q' Hinv' Hq'.
    specialize (IH (chunk :: chunks) (S cur) (t ++ [c]) q' ltac:(simpl; lia) Hinv').
    rewrite length_app in IH. change (length [c]) with 1%nat in IH.
    replace (Z.of_nat (length t) + 1) with (Z.of_nat (length t + 1)) by lia.
    replace (Z.of_nat cur + 1) with (Z.of_nat (S cur)) by lia.
    rewrite <- app_assoc in IH. apply IH. cbn [length] in *. lia. }
  destruct (Z.eqb_spec x c) as [->|Hne].
  - rewrite swrap_index by lia. pose proof (search_inv_match _ _ _ _ Hinv Hx) as Hm.
    case_decide as Hd.
    + rewrite (proj2 (Z.eqb_eq _ _)) by lia. apply runs_ret.
      pose proof (suffix_length _ _ (search_matched _ _ _ Hinv)) as Hl.
      rewrite length_take in Hl.
      by replace (Z.of_nat (length t) + 1 - (Z.of_nat q + 1)) with (Z.of_nat (length t + 1 - m)) by lia.
    + rewrite (proj2 (Z.eqb_neq _ _)) by lia.
      replace (Z.of_nat q + 1) with (Z.of_nat (S q)) by lia. apply Hconsume; [done|lia].
  - destruct (Htab q Hq) as (z & Hz & Hl). rewrite (at_index_Ok _ _ _ Hz). cbn [kbind outcome_monad].
    pose proof (link_range _ _ Hl) as Hzr.
    pose proof (search_inv_link _ _ _ _ z Hinv ltac:(congruence) Hl) as Hm.
    destruct (Z.ltb_spec z 0).
    + rewrite swrap_index by lia. replace (z + 1) with (Z.of_nat 0) by lia.
      apply Hconsume; [done|lia].
    + rewrite <- (Z2Nat.id z) by lia. rewrite <- E in Hm |- *.
      apply IH; [simpl; lia|done|]. rewrite E. cbn [length] in *. lia.
Qed.

Lemma memmem_spec chunks :
  runs (memmem chunks needle) (first_occurrence needle (concat chunks)).
Proof.
  unfold memmem. eapply runs_bind; [apply prepare_kmp_partial_table_spec|].
  intros table Ht.
  apply (kmp_search_spec _ _ chunks 0 [] 0); [done|by destruct chunks; simpl; [|lia]| |].
  - split; [done|apply suffix_nil| |].
    + intros k c Hk Hs%suffix_length. rewrite length_take in Hs. simpl in Hs. lia.
    + intros l Hl Hs%suffix_length. rewrite length_take in Hs. simpl in *. lia.
  - unfold kmp_fuel. rewrite drop_0. lia.
Qed.
End kmp.

(** ** memmem_optional *)

Lemma first_occurrence_equal_length needle haystack :
  (0 < length needle)%nat -> length haystack = length needle ->
  first_occurrence needle haystack (if bool_decide (haystack = needle) then Some 0 else None).
Proof.
  intros Hm Hlen. case_bool_decide as Heq.
  - exists 0%nat. split_and!; [done| |lia]. unfold occurs_at. subst. by rewrite drop_0, firstn_all.
  - intros k Hocc. pose proof (occurs_at_bound _ _ k Hm Hocc). assert (k = 0%nat) as -> by lia.
    unfold occurs_at in Hocc. rewrite drop_0, <- Hlen, firstn_all in Hocc. done.
Qed.

Lemma memmem_optional_spec haystack needle :
  Forall is_byte haystack -> Forall is_byte needle -> Z.of_nat (length needle) < 2 ^ 31 ->
  runs (memmem_optional haystack needle) (first_occurrence needle haystack).
Proof.
  intros Hh Hn Hint. unfold memmem_optional.
  destruct (Z.eqb_spec (Z.of_nat (length needle)) 0).
  { apply runs_ret. exists 0%nat. split_and!; [done| |lia].
    destruct needle; [done|simpl in *; lia]. }
  destruct (Z.ltb_spec (Z.of_nat (length haystack)) (Z.of_nat (length needle))).
  { apply runs_ret. intros k Hocc. pose proof (occurs_at_bound needle haystack k ltac:(lia) Hocc). lia. }
  destruct (Z.eqb_spec (Z.of_nat (length haystack)) (Z.of_nat (length needle))).
  { pose proof (first_occurrence_equal_length needle haystack) as Heq.
    specialize (Heq ltac:(lia) ltac:(lia)). case_bool_decide; by apply runs_ret. }
  destruct (Z.ltb_spec (Z.of_nat (length needle)) 32).
  - apply bitap_bitwise_spec; [done|lia|done].
  - pose proof (memmem_spec needle ltac:(lia) ltac:(lia) [haystack]) as Hk.
    simpl in Hk. by rewrite app_nil_r in Hk.
Qed.

(** ** Properties *)



(** [memmem_optional], whichever of comparison, bitap and KMP the lengths select,
    never fails an assertion and returns exactly the first occurrence of the needle. *)
Theorem memmem_optional_first_occurrence haystack needle :
  Forall is_byte haystack -> Forall is_byte needle -> Z.of_nat (length needle) < 2 ^ 31 ->
  exists r, memmem_optional haystack needle = Ok r /\ first_occurrence needle haystack r.
Proof. apply memmem_optional_spec. Qed.

Lemma memmem_optional_first_occurrence_witness :
  exists r, memmem_optional [120; 97; 98; 97; 98; 99; 97] [97; 98; 99] = Ok r /\
    first_occurrence [97; 98; 99] [120; 97; 98; 97; 98; 99; 97] r.
Proof.
  apply memmem_optional_first_occurrence; [..|simpl; lia];
    repeat (constructor; [unfold is_byte, in_width; lia|]); constructor.
Defined.
