(* ===== verification/StringView.v ===== *)
(** * String views and fixed buffers: AK/StringView.h, AK/FixedStringBuffer.h

    Strings are lists of bytes.  [for_each_split_view] cuts a view at the
    occurrences of a separator and hands the parts to a callback; its loop runs on
    fuel, one more than the length of the view, and is proved to return.
    [FixedStringBuffer] is the bounded buffer the kernel copies system call
    strings into. *)

From S2P Require Import Prelude MemMem.

(** ** Substrings *)

Definition substring_view (view : list Z) (start length_ : Z) : outcome (list Z) :=
  if start + length_ <=? Z.of_nat (length view)
  then kret (take (Z.to_nat length_) (drop (Z.to_nat start) view)) else Panic.

(** [enum class SplitBehavior]: a set of flags. *)
Record SplitBehavior := { KeepEmpty : bool; KeepTrailingSeparator : bool }.
Definition SplitBehavior_Nothing : SplitBehavior :=
  {| KeepEmpty := false; KeepTrailingSeparator := false |}.

(** The [while (maybe_separator_index.has_value())] loop and the call for the rest of
    the view; the callback updates an accumulator.  [part_with_separator] starts the
    view, so the view after it is what [substring_view_starting_after_substring] gives. *)
Fixpoint split_loop {A} (fuel : nat) (separator : list Z) (behavior : SplitBehavior)
    (callback : list Z -> A -> A) (view : list Z) (acc : A) : outcome A :=
  match fuel with
  | O => Panic
  | S fuel =>
      maybe_separator_index ← find_string view separator 0;
      match maybe_separator_index with
      | Some separator_index =>
          part_with_separator ← substring_view view 0 (separator_index + Z.of_nat (length separator));
          acc ← (if KeepEmpty behavior || (0 <? separator_index) then
                   part ← (if KeepTrailingSeparator behavior then kret part_with_separator
                           else substring_view part_with_separator 0 separator_index);
                   kret (callback part acc)
                 else kret acc);
          split_loop fuel separator behavior callback (drop (length part_with_separator) view) acc
      | None =>
          kret (if KeepEmpty behavior || negb (bool_decide (view = [])) then callback view acc else acc)
      end
  end.

Definition for_each_split_view {A} (view separator : list Z) (behavior : SplitBehavior)
    (callback : list Z -> A -> A) (acc : A) : outcome A :=
  if bool_decide (separator = []) then Panic else
  if bool_decide (view = []) then kret acc else
  split_loop (S (length view)) separator behavior callback view acc.

(** [parts.append(view)] for every part. *)
Definition split_view (view separator : list Z) (behavior : SplitBehavior)
    : outcome (list (list Z)) :=
  for_each_split_view view separator behavior (fun part parts => parts ++ [part]) [].

(** ** FixedStringBuffer<Size> *)

Record FixedStringBuffer := mkFixedStringBuffer
  { m_storage : list Z; m_stored_length : nat }.

Definition FixedStringBuffer_new (Size : nat) : FixedStringBuffer :=
  mkFixedStringBuffer (replicate Size 0) 0.

(** The loop that copies up to the first null byte. *)
Fixpoint characters_before_null (characters : list Z) (limit : nat) : list Z :=
  match limit, characters with
  | S limit, c :: characters =>
      if c =? 0 then [] else c :: characters_before_null characters limit
  | _, _ => []
  end.

Definition fill_storage (Size : nat) (characters : list Z) : FixedStringBuffer :=
  mkFixedStringBuffer (characters ++ replicate (Size - length characters) 0) (length characters).

Definition store_characters (Size : nat) (characters : list Z) : FixedStringBuffer :=
  fill_storage Size (characters_before_null characters (Nat.min Size (length characters))).

Definition char_value (c : Ascii.ascii) : Z := Z.of_nat (Ascii.nat_of_ascii c).

(** A string argument of a system call: the user range check and the readable bytes,
    [None] where reading faults. *)
Record UserString := mkUserString
  { user_in_range : bool; user_bytes : nat -> option Ascii.ascii }.

(** [safe_strnlen] followed by [safe_memcpy] of that many bytes; [None] on a fault. *)
Fixpoint read_user_string (user : nat -> option Ascii.ascii) (i limit : nat) : option (list Z) :=
  match limit with
  | O => Some []
  | S limit =>
      match user i with
      | None => None
      | Some c =>
          if char_value c =? 0 then Some []
          else match read_user_string user (S i) limit with
               | Some l => Some (char_value c :: l)
               | None => None
               end
      end
  end.

Definition copy_characters_from_user (Size : nat) (user : UserString) (user_str_size : Z)
    : outcome FixedStringBuffer :=
  if Z.of_nat Size <? user_str_size then Err EFAULT else
  if negb (user_in_range user) then Err EFAULT else
  match read_user_string (user_bytes user) 0 (Z.to_nat user_str_size) with
  | None => Err EFAULT
  | Some characters => kret (fill_storage Size characters)
  end.

Definition representable_view (b : FixedStringBuffer) : list Z :=
  take (m_stored_length b) (m_storage b).

(** Kernel/Library/StdLib.h *)
Definition try_copy_string_from_user_into_fixed_string_buffer (Size : nat) (user : UserString)
    (user_str_size : Z) : outcome FixedStringBuffer :=
  if Z.of_nat Size <? user_str_size then Err E2BIG
  else copy_characters_from_user Size user user_str_size.

(** ** Splitting *)

(** [splits sep view parts]: cutting at the first occurrence of the separator, and
    again behind it. *)
Inductive splits (sep : list Z) : list Z -> list (list Z) -> Prop :=
  | splits_last view :
      first_occurrence sep view None -> splits sep view [view]
  | splits_cut part rest parts :
      first_occurrence sep (part ++ sep ++ rest) (Some (Z.of_nat (length part))) ->
      splits sep rest parts -> splits sep (part ++ sep ++ rest) (part :: parts).

(** The parts the callback sees. *)
Fixpoint emitted (sep : list Z) (b : SplitBehavior) (parts : list (list Z)) : list (list Z) :=
  match parts with
  | [] => []
  | [p] => if KeepEmpty b || negb (bool_decide (p = [])) then [p] else []
  | p :: ps =>
      (if KeepEmpty b || negb (bool_decide (p = []))
       then [if KeepTrailingSeparator b then p ++ sep else p] else []) ++ emitted sep b ps
  end.

Lemma splits_nonempty sep view parts : splits sep view parts -> parts <> [].
Proof. by destruct 1. Qed.

Section split.
Context (sep : list Z).
Hypothesis sep_nonempty : sep <> [].
Hypothesis sep_bytes : Forall is_byte sep.
Hypothesis sep_int : Z.of_nat (length sep) < 2 ^ 31.

Lemma find_string_cut view :
  Forall is_byte view ->
  (first_occurrence sep view None /\ find_string view sep 0 = Ok None) \/
  exists part rest, view = part ++ sep ++ rest /\
    first_occurrence sep view (Some (Z.of_nat (length part))) /\
    find_string view sep 0 = Ok (Some (Z.of_nat (length part))).
Proof.
  intros Hv. unfold find_string. rewrite (proj2 (Z.ltb_ge _ _)) by lia. rewrite drop_0.
  destruct (memmem_optional_spec view sep) as (r & -> & Hr); [done..|]. cbn [kbind outcome_monad kret].
  destruct r as [z|]; [right|by left].
  pose proof Hr as (k & -> & Hocc & _). unfold occurs_at in Hocc.
  assert (0 < length sep)%nat as Hs by (destruct sep; [done|simpl; lia]).
  pose proof (occurs_at_bound sep view k Hs Hocc) as Hk.
  exists (take k view), (drop (length sep) (drop k view)).
  rewrite length_take_le by lia. split_and!; [|done|by rewrite Z.add_0_r].
  rewrite <- (take_drop k view) at 1. f_equal.
  rewrite <- (take_drop (length sep) (drop k view)) at 1. by rewrite Hocc.
Qed.

Lemma split_loop_spec {A} fuel b (callback : list Z -> A -> A) view :
  Forall is_byte view -> (length view < fuel)%nat ->
  exists parts, splits sep view parts /\ forall acc,
    split_loop fuel sep b callback view acc =
      Ok (foldl (fun acc part => callback part acc) acc (emitted sep b parts)).
Proof.
  revert view. induction fuel as [|fuel IH]; intros view Hv Hf; [lia|]. cbn [split_loop].
  destruct (find_string_cut view Hv) as [[Hno ->]|(part & rest & -> & Hocc & ->)].
  - exists [view]. split; [by constructor|]. intros acc. cbn. by destruct (_ || _).
  - apply Forall_app in Hv as [Hp Hv]. apply Forall_app in Hv as [_ Hr].
    rewrite !length_app in Hf.
    assert (0 < length sep)%nat as Hs by (destruct sep; [done|simpl; lia]).
    destruct (IH rest Hr ltac:(lia)) as (parts & Hsp & Hrun).
    exists (part :: parts). split; [by constructor|]. intros acc.
    cbn [kbind outcome_monad]. unfold substring_view at 1.
    rewrite (proj2 (Z.leb_le _ _)) by (rewrite !length_app; lia). cbn [kbind outcome_monad kret].
    rewrite drop_0. replace (Z.to_nat (Z.of_nat (length part) + Z.of_nat (length sep)))
      with (length (part ++ sep)) by (rewrite length_app; lia).
    rewrite app_assoc, take_app_length, drop_app_length.
    pose proof (splits_nonempty _ _ _ Hsp) as Hne.
    assert (emitted sep b (part :: parts) =
      (if KeepEmpty b || negb (bool_decide (part = []))
       then [if KeepTrailingSeparator b then part ++ sep else part] else []) ++ emitted sep b parts) as ->
      by (by destruct parts).
    rewrite foldl_app, <- Hrun.
    assert ((0 <? Z.of_nat (length part)) = negb (bool_decide (part = []))) as ->.
    { by destruct part. }
    destruct (_ || _); [|done]. destruct (KeepTrailingSeparator b); [done|].
    unfold substring_view. rewrite (proj2 (Z.leb_le _ _)) by (rewrite length_app; lia).
    cbn [kbind outcome_monad kret Z.to_nat]. by rewrite drop_0, Nat2Z.id, take_app_length.
Qed.

Lemma for_each_split_view_spec {A} b (callback : list Z -> A -> A) view acc :
  Forall is_byte view -> view <> [] ->
  exists parts, splits sep view parts /\
    for_each_split_view view sep b callback acc =
      Ok (foldl (fun acc part => callback part acc) acc (emitted sep b parts)).
Proof.
  intros Hv Hne. unfold for_each_split_view. rewrite !bool_decide_false by done.
  destruct (split_loop_spec (S (length view)) b callback view Hv ltac:(lia)) as (parts & Hs & Hr).
  exists parts. auto.
Qed.
End split.

(** Joining the parts with the separator gives the view back. *)
Fixpoint join (sep : list Z) (parts : list (list Z)) : list Z :=
  match parts with
  | [] => []
  | [p] => p
  | p :: ps => p ++ sep ++ join sep ps
  end.

Lemma splits_join sep view parts : splits sep view parts -> join sep parts = view.
Proof.
  induction 1 as [|part rest parts _ Hs IH]; [done|]. rewrite <- IH.
  pose proof (splits_nonempty _ _ _ Hs). by destruct parts.
Qed.

Lemma occurs_at_prefix sep l l' k :
  (0 < length sep)%nat -> occurs_at sep l k -> occurs_at sep (l ++ l') k.
Proof.
  intros Hs Hocc. pose proof (occurs_at_bound _ _ _ Hs Hocc). unfold occurs_at in *.
  rewrite drop_app_le by lia. rewrite take_app_le; [done|]. rewrite length_drop. lia.
Qed.

Lemma splits_free sep view parts :
  (0 < length sep)%nat -> splits sep view parts ->
  Forall (fun p => forall k, ~ occurs_at sep p k) parts.
Proof.
  intros Hs. induction 1 as [view Hno|part rest parts (n & E & _ & Hfirst) _ IH]; constructor; try done.
  apply Nat2Z.inj in E as <-. intros k Hocc. pose proof (occurs_at_bound _ _ _ Hs Hocc).
  apply (Hfirst k); [lia|]. by apply occurs_at_prefix.
Qed.

Lemma emitted_all sep parts :
  emitted sep {| KeepEmpty := true; KeepTrailingSeparator := false |} parts = parts.
Proof. induction parts as [|p [|q ps] IH]; [done|done|]. simpl in *. by f_equal. Qed.

Lemma foldl_snoc {A} (l : list A) acc : foldl (fun acc x => acc ++ [x]) acc l = acc ++ l.
Proof.
  revert acc. induction l as [|x l IH]; intros acc; simpl; [by rewrite app_nil_r|].
  by rewrite IH, <- app_assoc.
Qed.

(** Splitting a view while keeping empty parts always succeeds, loses nothing and
    splits completely: joining the parts with the separator gives the view back, and no
    part contains the separator. *)
Theorem split_view_round_trip view sep :
  Forall is_byte view -> Forall is_byte sep -> sep <> [] -> Z.of_nat (length sep) < 2 ^ 31 ->
  view <> [] ->
  exists parts,
    split_view view sep {| KeepEmpty := true; KeepTrailingSeparator := false |} = Ok parts /\
    join sep parts = view /\ Forall (fun p => forall k, ~ occurs_at sep p k) parts.
Proof.
  intros Hv Hs Hne Hint Hnv. unfold split_view.
  destruct (for_each_split_view_spec sep Hne Hs Hint
    {| KeepEmpty := true; KeepTrailingSeparator := false |} (fun part parts => parts ++ [part])
    view [] Hv Hnv) as (parts & Hsp & Hrun).
  exists parts. rewrite Hrun, emitted_all, foldl_snoc. split_and!; [done|by apply splits_join|].
  eapply splits_free; [|done]. destruct sep; [done|simpl; lia].
Qed.

(** [",a,,b"] split at [","]. *)
Lemma split_view_round_trip_witness :
  exists parts,
    split_view [44; 97; 44; 44; 98] [44] {| KeepEmpty := true; KeepTrailingSeparator := false |}
      = Ok parts /\
    join [44] parts = [44; 97; 44; 44; 98] /\
    Forall (fun p => forall k, ~ occurs_at [44] p k) parts.
Proof.
  apply split_view_round_trip; try done;
    repeat (constructor; [unfold is_byte, in_width; lia|]); constructor.
Defined.

(** ** Words

    The parts a split at one byte that drops empty parts yields, by one pass over the
    view; [cur] is the part being read. *)
Fixpoint words_from (c : Z) (cur view : list Z) : list (list Z) :=
  match view with
  | [] => if bool_decide (cur = []) then [] else [cur]
  | x :: view =>
      if x =? c then
        if bool_decide (cur = []) then words_from c [] view else cur :: words_from c [] view
      else words_from c (cur ++ [x]) view
  end.
Definition words (c : Z) (view : list Z) : list (list Z) := words_from c [] view.

Lemma occurs_at_single c view k : occurs_at [c] view k <-> view !! k = Some c.
Proof.
  unfold occurs_at. simpl. rewrite <- (Nat.add_0_r k) at 2. rewrite <- lookup_drop.
  destruct (drop k view) as [|x l]; simpl; [done|]. rewrite take_0. naive_solver.
Qed.

Lemma words_from_free c cur part rest :
  c ∉ part -> words_from c cur (part ++ rest) = words_from c (cur ++ part) rest.
Proof.
  revert cur. induction part as [|x part IH]; intros cur Hc; simpl.
  - by rewrite app_nil_r.
  - apply not_elem_of_cons in Hc as [Hx Hc]. rewrite (proj2 (Z.eqb_neq _ _)) by congruence.
    by rewrite IH, <- app_assoc.
Qed.

Lemma splits_words c view parts :
  splits [c] view parts -> emitted [c] SplitBehavior_Nothing parts = words c view.
Proof.
  unfold words. induction 1 as [view Hno|part rest parts (n & E & _ & Hfirst) Hs IH].
  - assert (c ∉ view) as Hc.
    { intros [k Hk]%list_elem_of_lookup. by apply (Hno k), occurs_at_single. }
    rewrite <- (app_nil_r view) at 2. rewrite words_from_free by done. simpl.
    by destruct (bool_decide (view = [])).
  - apply Nat2Z.inj in E as <-. assert (c ∉ part) as Hc.
    { intros [k Hk]%list_elem_of_lookup. apply (Hfirst k); [by eapply lookup_lt_Some|].
      apply occurs_at_single. by apply lookup_app_l_Some. }
    rewrite words_from_free by done. simpl app. cbn [words_from]. rewrite Z.eqb_refl, <- IH.
    pose proof (splits_nonempty _ _ _ Hs). destruct parts; [done|]. cbn [emitted orb KeepEmpty SplitBehavior_Nothing].
    by destruct (bool_decide (part = [])).
Qed.

Lemma for_each_word {A} c (callback : list Z -> A -> A) view acc :
  is_byte c -> Forall is_byte view ->
  for_each_split_view view [c] SplitBehavior_Nothing callback acc =
    Ok (foldl (fun acc part => callback part acc) acc (words c view)).
Proof.
  intros Hc Hv. destruct (decide (view = [])) as [->|Hne]; [done|].
  destruct (for_each_split_view_spec [c] ltac:(done) ltac:(by constructor) ltac:(simpl; lia)
    SplitBehavior_Nothing callback view acc Hv Hne) as (parts & Hsp & ->).
  by rewrite (splits_words _ _ _ Hsp).
Qed.

(** ** Buffers *)

Lemma representable_fill_storage Size l : representable_view (fill_storage Size l) = l.
Proof. unfold representable_view, fill_storage. simpl. apply take_app_length. Qed.

Lemma char_value_byte c : is_byte (char_value c).
Proof.
  unfold is_byte, in_width, char_value. pose proof (Ascii.nat_ascii_bounded c).
  change (2 ^ 8) with 256. lia.
Qed.

Lemma read_user_string_spec user i limit l :
  read_user_string user i limit = Some l ->
  (length l <= limit)%nat /\ Forall is_byte l /\ Forall (fun c => c <> 0) l.
Proof.
  revert i l. induction limit as [|limit IH]; intros i l H; simpl in *; [by simplify_eq|].
  destruct (user i) as [c|]; [|done]. destruct (Z.eqb_spec (char_value c) 0).
  - simplify_eq. split; [simpl; lia|done].
  - destruct (read_user_string user (S i) limit) eqn:E; [|done]. simplify_eq.
    destruct (IH _ _ E) as (? & ? & ?). split; [simpl; lia|].
    split; constructor; auto using char_value_byte.
Qed.

(** Memory that holds the string [s] at the argument's address. *)
Definition user_memory (s : string) : UserString :=
  mkUserString true (fun i => String.list_ascii_of_string s !! i).

Lemma read_user_memory s limit l pre :
  String.list_ascii_of_string s = pre ++ l -> (length l = limit)%nat ->
  Forall (fun c => char_value c <> 0) l ->
  read_user_string (user_bytes (user_memory s)) (length pre) limit = Some (map char_value l).
Proof.
  intros E. revert pre limit E. induction l as [|c l IH]; intros pre limit E <- Hl; [done|].
  apply Forall_cons in Hl as [Hc Hl]. cbn [read_user_string length user_bytes user_memory].
  assert (String.list_ascii_of_string s !! length pre = Some c) as ->
    by (rewrite E; by apply list_lookup_middle).
  rewrite (proj2 (Z.eqb_neq _ _)) by done.
  specialize (IH (pre ++ [c]) (length l)). rewrite length_app, Nat.add_comm in IH. simpl in IH.
  rewrite IH; [done| |done|done]. by rewrite E, <- app_assoc.
Qed.
