(* ===== verification/HashTable.v ===== *)
(** * AK/HashTable.h and AK/HashMap.h

    The closed-hashing table with Robin Hood probing that backs every
    [HashTable] and [HashMap] of the system (the [IsOrdered = false] variant:
    the ordered one adds an intrusive list of the buckets).

    - [Bucket], [HashTable]: the bucket array with its one-byte states, which
      double as probe lengths, [m_size] and [m_capacity];
    - [used_bucket_probe_length], [bucket_state_for_probe_length],
      [lookup_with_hash], [write_value], [delete_bucket], [try_rehash],
      [try_set], [find], [remove], [values]: the operations, loop by loop;
    - [wf]: the Robin Hood invariant; the operations preserve it, never fail an
      assertion, terminate, and implement a finite set of keyed entries;
    - the [HashMap] operations on top, with the laws of a finite map.

    [TraitsForT] is the template argument of the class: entries are compared
    through a key ([EntryTraits] of HashMap; the identity for HashTable), and
    [hash] is the hash of the key. *)

From S2P Require Import Prelude.
From S2P Require Import StdLibExtras.
#[local] Open Scope nat_scope.

Section HashTable.
Context {T K : Type} `{EqDecision K}.
(** [TraitsForT]: [equals a b] is equality of keys, [hash] a function of the key. *)
Variable key : T -> K.
Variable hash : K -> Z.
(** [kmalloc_good_size(size_in_bytes(n)) / sizeof(BucketType)]. *)
Variable good_capacity : nat -> nat.

(** Bucket states are the [u8] of [BucketState]: 0 is [Free], 255 is
    [CalculateLength], any other value is a probe length plus one. *)
Record Bucket := mkBucket { state : nat; slot : option T }.
Record HashTable := mkHashTable
  { m_buckets : list Bucket; m_size : nat; m_capacity : nat }.

Definition Free := 0.
Definition CalculateLength := 255.
Definition free_bucket : Bucket := mkBucket Free None.
Definition empty_table : HashTable := mkHashTable [] 0 0.

Inductive HashSetResult :=
  InsertedNewEntry | ReplacedExistingEntry | KeptExistingEntry.
Inductive HashSetExistingEntryBehavior := Keep | Replace.

Definition is_empty (t : HashTable) : bool := m_size t =? 0.

Definition should_grow (t : HashTable) : bool :=
  m_capacity t * 80 <=? (m_size t + 1) * 100.

(** [++index == m_capacity ? 0 : index] *)
Definition next_index (cap i : nat) : nat := if S i =? cap then 0 else S i.

(** [TraitsForT::hash(value) % m_capacity] *)
Definition ideal_index (cap : nat) (k : K) : nat :=
  Z.to_nat (hash k mod Z.of_nat cap).

Definition bucket_state_for_probe_length (probe_length : nat) : nat :=
  if 253 <? probe_length then CalculateLength else probe_length + 1.

(** The bucket is given with its index, [&bucket - m_buckets] in the source. *)
Definition used_bucket_probe_length (cap i : nat) (b : Bucket) : outcome nat :=
  if state b =? Free then Panic
  else if state b =? CalculateLength then
    match slot b with
    | None => Panic
    | Some v =>
        let ideal := ideal_index cap (key v) in
        if i <? ideal then Ok (cap + i - ideal) else Ok (i - ideal)
    end
  else Ok (state b - 1).

(** [lookup_with_hash]: the index of the bucket, [None] for [nullptr]. *)
Fixpoint lookup_loop (fuel : nat) (bs : list Bucket) (cap i : nat) (k : K)
    : outcome (option nat) :=
  match fuel with
  | 0 => Panic
  | S fuel =>
      b ← deref (bs !! i);
      if state b =? Free then Ok None
      else v ← deref (slot b);
           if decide (key v = k) then Ok (Some i)
           else lookup_loop fuel bs cap (next_index cap i) k
  end.

Definition lookup_with_hash (t : HashTable) (k : K) : outcome (option nat) :=
  if is_empty t then Ok None
  else lookup_loop (S (m_capacity t)) (m_buckets t) (m_capacity t)
         (ideal_index (m_capacity t) k) k.

(** The second loop of [write_value]: carry [bucket_to_move] to a free bucket,
    swapping with smaller probe lengths along the way. *)
Fixpoint write_shift (fuel : nat) (bs : list Bucket) (cap bucket_index probe_length : nat)
    (bucket_to_move : Bucket) : outcome (list Bucket) :=
  match fuel with
  | 0 => Panic
  | S fuel =>
      let bucket_index := next_index cap bucket_index in
      let probe_length := S probe_length in
      let moved := mkBucket (bucket_state_for_probe_length probe_length)
                            (slot bucket_to_move) in
      bucket ← deref (bs !! bucket_index);
      if state bucket =? Free then Ok (<[bucket_index := moved]> bs)
      else
        target_probe_length ← used_bucket_probe_length cap bucket_index bucket;
        if target_probe_length <? probe_length then
          write_shift fuel (<[bucket_index := moved]> bs) cap bucket_index
            target_probe_length bucket
        else write_shift fuel bs cap bucket_index probe_length bucket_to_move
  end.

(** The first loop of [write_value]. *)
Fixpoint write_loop (fuel : nat) (bs : list Bucket) (size cap bucket_index probe_length : nat)
    (value : T) (existing_entry_behavior : HashSetExistingEntryBehavior)
    : outcome (HashSetResult * HashTable) :=
  match fuel with
  | 0 => Panic
  | S fuel =>
      let written := mkBucket (bucket_state_for_probe_length probe_length) (Some value) in
      bucket ← deref (bs !! bucket_index);
      if state bucket =? Free then
        Ok (InsertedNewEntry, mkHashTable (<[bucket_index := written]> bs) (size + 1) cap)
      else
        v ← deref (slot bucket);
        if decide (key v = key value) then
          match existing_entry_behavior with
          | Replace =>
              Ok (ReplacedExistingEntry,
                  mkHashTable (<[bucket_index := mkBucket (state bucket) (Some value)]> bs)
                    size cap)
          | Keep => Ok (KeptExistingEntry, mkHashTable bs size cap)
          end
        else
          target_probe_length ← used_bucket_probe_length cap bucket_index bucket;
          if target_probe_length <? probe_length then
            bs' ← write_shift (S cap) (<[bucket_index := written]> bs) cap bucket_index
                     target_probe_length bucket;
            Ok (InsertedNewEntry, mkHashTable bs' (size + 1) cap)
          else
            write_loop fuel bs size cap (next_index cap bucket_index)
              (S probe_length) value existing_entry_behavior
  end.

Definition write_value (value : T) (beh : HashSetExistingEntryBehavior) (t : HashTable)
    : outcome (HashSetResult * HashTable) :=
  write_loop (S (m_capacity t)) (m_buckets t) (m_size t) (m_capacity t)
    (ideal_index (m_capacity t) (key value)) 0 value beh.

(** Iteration order: the used buckets by increasing index. *)
Definition entry_of (b : Bucket) : option T := if state b =? Free then None else slot b.
Definition values (t : HashTable) : list T := omap entry_of (m_buckets t).

(** The rehash loop moves the old entries, in iteration order, into the new
    buckets. *)
Fixpoint rehash_loop (vs : list T) (t : HashTable) : outcome HashTable :=
  match vs with
  | [] => Ok t
  | v :: vs => '(_, t') ← write_value v Keep t; rehash_loop vs t'
  end.

(** [alloc_ok] is the result of [kcalloc]. *)
Definition try_rehash (alloc_ok : bool) (new_capacity : nat) (t : HashTable)
    : outcome HashTable :=
  let new_capacity := Nat.max new_capacity (m_capacity t + 8) in
  let new_capacity := good_capacity new_capacity in
  if negb (m_size t <=? new_capacity) then Panic
  else if negb alloc_ok then Err ENOMEM
  else
    let new_buckets := replicate new_capacity free_bucket in
    if m_capacity t =? 0 then Ok (mkHashTable new_buckets (m_size t) new_capacity)
    else rehash_loop (values t) (mkHashTable new_buckets 0 new_capacity).

Definition try_set (alloc_ok : bool) (value : T) (beh : HashSetExistingEntryBehavior)
    (t : HashTable) : outcome (HashSetResult * HashTable) :=
  if should_grow t then
    t' ← try_rehash alloc_ok (m_capacity t * 160 / 100) t;
    write_value value beh t'
  else write_value value beh t.

(** The shift-up loop of [delete_bucket]; [shift_from_index] is the index
    after [shift_to_index] at the head of every iteration. *)
Fixpoint delete_loop (fuel : nat) (bs : list Bucket) (cap shift_to_index : nat)
    : outcome (list Bucket) :=
  match fuel with
  | 0 => Panic
  | S fuel =>
      let shift_from_index := next_index cap shift_to_index in
      from ← deref (bs !! shift_from_index);
      let stop := Ok (alter (fun b => mkBucket Free (slot b)) shift_to_index bs) in
      if state from =? Free then stop
      else
        shift_from_probe_length ← used_bucket_probe_length cap shift_from_index from;
        if shift_from_probe_length =? 0 then stop
        else
          delete_loop fuel
            (<[shift_to_index := mkBucket
                 (bucket_state_for_probe_length (shift_from_probe_length - 1)) (slot from)]> bs)
            cap (next_index cap shift_to_index)
  end.

Definition delete_bucket (i : nat) (t : HashTable) : outcome HashTable :=
  b ← deref (m_buckets t !! i);
  if state b =? Free then Panic
  else
    bs' ← delete_loop (S (m_capacity t)) (m_buckets t) (m_capacity t) i;
    Ok (mkHashTable bs' (m_size t - 1) (m_capacity t)).

(** [find] returns an iterator, here the bucket index or [None] for [end()]. *)
Definition find (t : HashTable) (k : K) : outcome (option nat) :=
  if is_empty t then Ok None else lookup_with_hash t k.

Definition contains (t : HashTable) (k : K) : outcome bool :=
  it ← find t k; Ok (bool_decide (is_Some it)).

Definition remove (t : HashTable) (k : K) : outcome (bool * HashTable) :=
  it ← find t k;
  match it with
  | Some i => t' ← delete_bucket i t; Ok (true, t')
  | None => Ok (false, t)
  end.

(** ** The Robin Hood invariant *)

Definition used (bs : list Bucket) (i : nat) (v : T) : Prop :=
  ∃ b, bs !! i = Some b ∧ state b ≠ Free ∧ slot b = Some v.

(** Distance of index [i] from the ideal index of [k], cyclically. *)
Definition probe (cap i : nat) (k : K) : nat :=
  let d := ideal_index cap k in if i <? d then cap + i - d else i - d.

(** Probe length of the entry at [i]; a free bucket counts as [-1]. *)
Definition pl (cap : nat) (bs : list Bucket) (i : nat) : Z :=
  match bs !! i with
  | Some b => match entry_of b with
              | Some v => Z.of_nat (probe cap i (key v))
              | None => (-1)%Z
              end
  | None => (-1)%Z
  end.

Definition bucket_ok (cap i : nat) (b : Bucket) : Prop :=
  state b ≠ Free → ∃ v, slot b = Some v ∧
    state b = bucket_state_for_probe_length (probe cap i (key v)).

(** Probe lengths grow by at most one from a bucket to the next: the entry in
    a bucket is never poorer than an entry that passed over it. *)
Record wf_core (cap : nat) (bs : list Bucket) : Prop := {
  wf_pos : 0 < cap;
  wf_len : length bs = cap;
  wf_ok : ∀ i b, bs !! i = Some b → bucket_ok cap i b;
  wf_rh : ∀ i, i < cap → (pl cap bs (next_index cap i) <= pl cap bs i + 1)%Z }.

Definition distinct_keys (bs : list Bucket) (P : nat → Prop) : Prop :=
  ∀ i j v w, P i → P j → used bs i v → used bs j w → key v = key w → i = j.

Definition holds (bs : list Bucket) (v : T) : Prop := ∃ i, used bs i v.
Definition has_key (bs : list Bucket) (k : K) : Prop := ∃ v, holds bs v ∧ key v = k.

(** *** Indices *)
Lemma ideal_index_lt cap k : 0 < cap → ideal_index cap k < cap.
Proof.
  intros Hc. unfold ideal_index.
  pose proof (Z.mod_pos_bound (hash k) (Z.of_nat cap)). lia.
Qed.

Lemma next_index_mod cap i : 0 < cap → next_index cap (i mod cap) = S i mod cap.
Proof.
  intros Hc. unfold next_index.
  pose proof (Nat.mod_upper_bound i cap ltac:(lia)).
  destruct (Nat.eqb_spec (S (i mod cap)) cap) as [E|E].
  - replace (S i) with (cap * (i / cap) + cap)
      by (pose proof (Nat.div_mod_eq i cap); lia).
    replace (cap * (i / cap) + cap) with ((i / cap + 1) * cap) by lia.
    by rewrite Nat.Div0.mod_mul.
  - rewrite <- (Nat.mod_small (S (i mod cap)) cap) by lia.
    rewrite <- (Nat.add_1_l (i mod cap)), <- (Nat.add_1_l i).
    by rewrite Nat.Div0.add_mod_idemp_r.
Qed.

Lemma next_index_lt cap i : i < cap → next_index cap i < cap.
Proof. intros. unfold next_index. destruct (Nat.eqb_spec (S i) cap); lia. Qed.

Lemma probe_lt cap i k : i < cap → probe cap i k < cap.
Proof.
  intros Hi. pose proof (ideal_index_lt cap k ltac:(lia)).
  unfold probe. destruct (Nat.ltb_spec i (ideal_index cap k)); lia.
Qed.

Lemma probe_index cap i k : i < cap → (ideal_index cap k + probe cap i k) mod cap = i.
Proof.
  intros Hi. pose proof (ideal_index_lt cap k ltac:(lia)).
  unfold probe. destruct (Nat.ltb_spec i (ideal_index cap k)).
  - replace (_ + _) with (i + 1 * cap) by lia.
    rewrite Nat.Div0.mod_add. by apply Nat.mod_small.
  - replace (_ + _) with i by lia. by apply Nat.mod_small.
Qed.

Lemma probe_ideal cap k j : j < cap → probe cap ((ideal_index cap k + j) mod cap) k = j.
Proof.
  intros Hj. pose proof (ideal_index_lt cap k ltac:(lia)).
  unfold probe. destruct (decide (ideal_index cap k + j < cap)).
  - rewrite Nat.mod_small by lia.
    destruct (Nat.ltb_spec (ideal_index cap k + j) (ideal_index cap k)); lia.
  - replace (ideal_index cap k + j) with (ideal_index cap k + j - cap + 1 * cap) by lia.
    rewrite Nat.Div0.mod_add, Nat.mod_small by lia.
    destruct (Nat.ltb_spec (ideal_index cap k + j - cap) (ideal_index cap k)); lia.
Qed.

Lemma probe_next cap i k : i < cap → S (probe cap i k) < cap →
  probe cap (next_index cap i) k = S (probe cap i k).
Proof.
  intros Hi Hp. rewrite <- (probe_index cap i k) at 1 by done.
  rewrite next_index_mod by lia.
  rewrite <- Nat.add_succ_r. by apply probe_ideal.
Qed.

Lemma state_probe p : bucket_state_for_probe_length p ≠ Free.
Proof.
  unfold bucket_state_for_probe_length, Free, CalculateLength.
  destruct (_ <? _); lia.
Qed.

(** *** Reading the bucket array *)
Lemma entry_of_used b v :
  entry_of b = Some v ↔ state b ≠ Free ∧ slot b = Some v.
Proof.
  unfold entry_of. destruct (Nat.eqb_spec (state b) Free); split; intros; by destruct_and?.
Qed.

Lemma used_entry bs i v : used bs i v ↔ ∃ b, bs !! i = Some b ∧ entry_of b = Some v.
Proof.
  split; intros (b & Hb & H); exists b; split; try done; by apply entry_of_used.
Qed.

Lemma pl_used cap bs i v : used bs i v → pl cap bs i = Z.of_nat (probe cap i (key v)).
Proof.
  intros (b & Hb & He)%used_entry. unfold pl. by rewrite Hb, He.
Qed.

Lemma pl_ge cap bs i : (-1 <= pl cap bs i)%Z.
Proof. unfold pl. destruct (bs !! i); [destruct (entry_of _)|]; lia. Qed.

Lemma used_lt bs i v : used bs i v → i < length bs.
Proof. intros (b & Hb & _). by eapply lookup_lt_Some. Qed.

Lemma used_fun bs i v w : used bs i v → used bs i w → v = w.
Proof. intros (? & ? & ? & ?) (? & ? & ? & ?). congruence. Qed.

Lemma lookup_bucket cap bs i : wf_core cap bs → i < cap →
  ∃ b, bs !! i = Some b ∧
    ((state b = Free ∧ pl cap bs i = (-1)%Z) ∨
     (∃ v, state b ≠ Free ∧ slot b = Some v ∧ used bs i v ∧
           used_bucket_probe_length cap i b = Ok (probe cap i (key v)))).
Proof.
  intros Hwf Hi.
  destruct (lookup_lt_is_Some_2 bs i) as [b Hb]; [by rewrite (wf_len _ _ Hwf)|].
  exists b. split; [done|].
  destruct (decide (state b = Free)) as [E|E].
  - left. split; [done|]. unfold pl, entry_of. by rewrite Hb, E.
  - right. destruct (wf_ok _ _ Hwf _ _ Hb E) as (v & Hv & Hs).
    exists v. split_and!; try done. { by exists b. }
    unfold used_bucket_probe_length. rewrite (proj2 (Nat.eqb_neq _ _) E), Hv, Hs.
    unfold bucket_state_for_probe_length, CalculateLength.
    destruct (Nat.ltb_spec 253 (probe cap i (key v))).
    + simpl. unfold probe. by destruct (_ <? _).
    + rewrite (proj2 (Nat.eqb_neq _ _)) by lia. f_equal. lia.
Qed.

(** Probe lengths along a run of buckets. *)
Lemma pl_chain cap bs i d : wf_core cap bs →
  (pl cap bs ((i + d) mod cap) <= pl cap bs (i mod cap) + Z.of_nat d)%Z.
Proof.
  intros Hwf. pose proof (wf_pos _ _ Hwf).
  induction d as [|d IH]; [rewrite Nat.add_0_r; lia|].
  rewrite Nat.add_succ_r, <- next_index_mod by done.
  assert ((i + d) mod cap < cap) as Hlt by (apply Nat.mod_upper_bound; lia).
  pose proof (wf_rh _ _ Hwf _ Hlt). lia.
Qed.

(** An entry is at least as far down its own probe sequence as every bucket
    it passed over. *)
Lemma pl_before cap bs i v j : wf_core cap bs → used bs i v → j <= probe cap i (key v) →
  (Z.of_nat j <= pl cap bs ((ideal_index cap (key v) + j) mod cap))%Z.
Proof.
  intros Hwf Hu Hj.
  assert (i < cap) by (rewrite <- (wf_len _ _ Hwf); by eapply used_lt).
  pose proof (pl_chain cap bs (ideal_index cap (key v) + j) (probe cap i (key v) - j) Hwf) as Hc.
  replace (ideal_index cap (key v) + j + (probe cap i (key v) - j))
    with (ideal_index cap (key v) + probe cap i (key v)) in Hc by lia.
  rewrite probe_index, (pl_used _ _ _ v) in Hc by done. lia.
Qed.

(** *** Writing one bucket *)
Lemma used_insert bs i s w j v : i < length bs → s ≠ Free →
  used (<[i := mkBucket s (Some w)]> bs) j v ↔
    (j = i ∧ v = w) ∨ (j ≠ i ∧ used bs j v).
Proof.
  intros Hi Hs. unfold used. destruct (decide (j = i)) as [->|Hne].
  - rewrite list_lookup_insert_eq by done. split.
    + intros (b & [= <-] & _ & [= <-]). by left.
    + intros [[_ ->]|[? _]]; [|done]. eauto.
  - rewrite list_lookup_insert_ne by done. naive_solver.
Qed.

Lemma pl_insert cap bs i s w j : i < length bs → s ≠ Free →
  pl cap (<[i := mkBucket s (Some w)]> bs) j =
    if decide (j = i) then Z.of_nat (probe cap i (key w)) else pl cap bs j.
Proof.
  intros Hi Hs. unfold pl. destruct (decide (j = i)) as [->|Hne].
  - rewrite list_lookup_insert_eq by done. unfold entry_of. simpl.
    by rewrite (proj2 (Nat.eqb_neq _ _) Hs).
  - by rewrite list_lookup_insert_ne by done.
Qed.

(** Writing an entry into a bucket that is free or held by a richer entry keeps
    the invariant, provided the bucket before is at most one step richer. *)
Lemma place_core cap bs i w :
  wf_core cap bs → i < cap →
  (pl cap bs i <= Z.of_nat (probe cap i (key w)))%Z →
  (∀ q, q < cap → next_index cap q = i → q ≠ i →
     (Z.of_nat (probe cap i (key w)) <= pl cap bs q + 1)%Z) →
  wf_core cap (<[i := mkBucket (bucket_state_for_probe_length (probe cap i (key w)))
                                (Some w)]> bs).
Proof.
  intros Hwf Hi Hle Hprev. pose proof (wf_len _ _ Hwf) as Hlen.
  pose proof (state_probe (probe cap i (key w))) as Hs.
  split.
  - apply (wf_pos _ _ Hwf).
  - by rewrite length_insert.
  - intros j b. destruct (decide (j = i)) as [->|Hne].
    + rewrite list_lookup_insert_eq by lia. intros [= <-] _. by exists w.
    + rewrite list_lookup_insert_ne by done. apply (wf_ok _ _ Hwf).
  - intros j Hj. rewrite !pl_insert by (lia || done).
    pose proof (wf_rh _ _ Hwf j Hj).
    destruct (decide (next_index cap j = i)), (decide (j = i)); subst; try lia.
    by apply Hprev.
Qed.

(** *** Counting the used buckets *)
Definition count (bs : list Bucket) : nat := length (omap entry_of bs).

Lemma count_split bs i b : bs !! i = Some b → ∀ b',
  count (<[i := b']> bs) + (if entry_of b is Some _ then 1 else 0) =
  count bs + (if entry_of b' is Some _ then 1 else 0).
Proof.
  intros Hb b'. pose proof (lookup_lt_Some _ _ _ Hb).
  rewrite <- (take_drop_middle bs i b Hb) at 2. rewrite insert_take_drop by done.
  unfold count. rewrite !omap_app, !length_app. simpl.
  destruct (entry_of b'), (entry_of b); simpl; lia.
Qed.

Lemma free_exists bs : count bs < length bs → ∃ i b, bs !! i = Some b ∧ entry_of b = None.
Proof.
  unfold count. induction bs as [|b bs IH]; csimpl; [lia|].
  destruct (entry_of b) eqn:E; csimpl.
  - intros H. destruct IH as (i & b' & Hb & He); [lia|]. by exists (S i), b'.
  - intros _. by exists 0, b.
Qed.

Lemma free_pl cap bs i : wf_core cap bs → i < cap → pl cap bs i = (-1)%Z →
  ∃ b, bs !! i = Some b ∧ state b = Free ∧ entry_of b = None.
Proof.
  intros Hwf Hi Hp. destruct (lookup_bucket cap bs i Hwf Hi) as (b & Hb & [[Hs _]|(v & _ & _ & Hu & _)]).
  - exists b. unfold entry_of. by rewrite Hs.
  - rewrite (pl_used _ _ _ _ Hu) in Hp. lia.
Qed.

(** From any index, a free bucket is met within [cap] steps. *)
Lemma free_ahead cap bs q : wf_core cap bs → count bs < cap →
  ∃ d, 1 <= d <= cap ∧ pl cap bs ((q + d) mod cap) = (-1)%Z.
Proof.
  intros Hwf Hc. pose proof (wf_pos _ _ Hwf). pose proof (wf_len _ _ Hwf) as Hlen.
  destruct (free_exists bs ltac:(lia)) as (f & b & Hb & He).
  assert (f < cap) by (rewrite <- Hlen; by eapply lookup_lt_Some).
  assert (pl cap bs f = (-1)%Z) as Hf by (unfold pl; by rewrite Hb, He).
  assert (q mod cap < cap) by (apply Nat.mod_upper_bound; lia).
  destruct (decide (q mod cap < f)).
  - exists (f - q mod cap). split; [lia|].
    rewrite <- Nat.Div0.add_mod_idemp_l.
    by replace (q mod cap + (f - q mod cap)) with f by lia; rewrite Nat.mod_small by lia.
  - exists (cap + f - q mod cap). split; [lia|].
    rewrite <- Nat.Div0.add_mod_idemp_l.
    replace (q mod cap + (cap + f - q mod cap)) with (f + 1 * cap) by lia.
    by rewrite Nat.Div0.mod_add, Nat.mod_small by lia.
Qed.

(** *** [write_value] *)
Definition wf_buckets (cap : nat) (bs : list Bucket) : Prop :=
  wf_core cap bs ∧ distinct_keys bs (fun _ => True).

(** [bs'] holds the entries of [bs] and [w], whose key is new. *)
Definition added (bs bs' : list Bucket) (w : T) : Prop :=
  (∀ v, holds bs' v ↔ holds bs v ∨ v = w) ∧ count bs' = S (count bs).

Lemma place_fresh cap bs i b w p :
  wf_buckets cap bs → i < cap → bs !! i = Some b → entry_of b = None →
  ¬ has_key bs (key w) → probe cap i (key w) = p →
  (∀ q, q < cap → next_index cap q = i → q ≠ i → (Z.of_nat p <= pl cap bs q + 1)%Z) →
  let bs' := <[i := mkBucket (bucket_state_for_probe_length p) (Some w)]> bs in
  wf_buckets cap bs' ∧ added bs bs' w.
Proof.
  intros [Hwf Hd] Hi Hb He Hk <- Hq bs'. pose proof (wf_len _ _ Hwf) as Hlen.
  pose proof (state_probe (probe cap i (key w))) as Hs.
  assert (∀ v, ¬ used bs i v) as Hno.
  { intros v (b' & Hb' & He')%used_entry. congruence. }
  split; [split|split].
  - apply place_core; try done. unfold pl. rewrite Hb, He. lia.
  - intros j1 j2 v1 v2 _ _ H1 H2 Hkey. unfold bs' in *.
    rewrite used_insert in H1, H2 by (lia || done).
    destruct H1 as [[-> ->]|[? H1]], H2 as [[-> ->]|[? H2]]; try done.
    + destruct Hk. exists v2. split; [by exists j2|done].
    + destruct Hk. exists v1. split; [by exists j1|done].
    + by eapply Hd.
  - intros v. unfold holds, bs'. setoid_rewrite used_insert; [|lia|done]. split.
    + intros (j & [[-> ->]|[? Hu]]); eauto.
    + intros [(j & Hu)| ->]; [|eauto]. exists j. right.
      split; [|done]. intros ->. by destruct (Hno v).
  - pose proof (count_split bs i b Hb
      (mkBucket (bucket_state_for_probe_length (probe cap i (key w))) (Some w))) as Hc.
    unfold entry_of in Hc at 2. simpl in Hc.
    rewrite (proj2 (Nat.eqb_neq _ _) Hs), He in Hc. unfold bs'. lia.
Qed.

(** Stealing the bucket of a richer entry [x]: [w] moves in, [x] is carried. *)
Lemma place_steal cap bs i x w p :
  wf_buckets cap bs → i < cap → used bs i x →
  ¬ has_key bs (key w) → probe cap i (key w) = p → probe cap i (key x) < p →
  (∀ q, q < cap → next_index cap q = i → q ≠ i → (Z.of_nat p <= pl cap bs q + 1)%Z) →
  let bs' := <[i := mkBucket (bucket_state_for_probe_length p) (Some w)]> bs in
  wf_buckets cap bs' ∧ ¬ has_key bs' (key x) ∧ count bs' = count bs ∧
  (∀ v, holds bs' v ∨ v = x ↔ holds bs v ∨ v = w) ∧
  pl cap bs' i = Z.of_nat p.
Proof.
  intros [Hwf Hd] Hi Hx Hk <- Hlt Hq bs'. pose proof (wf_len _ _ Hwf) as Hlen.
  pose proof (state_probe (probe cap i (key w))) as Hs.
  assert (key x ≠ key w) as Hne.
  { intros E. destruct Hk. exists x. split; [by exists i|done]. }
  assert (∀ j v, used bs' j v ↔ (j = i ∧ v = w) ∨ (j ≠ i ∧ used bs j v)) as Hu.
  { intros. apply used_insert; [lia|done]. }
  split_and!; [split| | | |].
  - apply place_core; try done. rewrite (pl_used _ _ _ _ Hx). lia.
  - intros j1 j2 v1 v2 _ _ H1%Hu H2%Hu Hkey.
    destruct H1 as [[-> ->]|[? H1]], H2 as [[-> ->]|[? H2]]; try done.
    + destruct Hk. exists v2. split; [by exists j2|done].
    + destruct Hk. exists v1. split; [by exists j1|done].
    + by eapply Hd.
  - intros (v & (j & [[-> ->]|[? Hj]]%Hu) & E); [done|].
    destruct (Hd j i v x); done.
  - destruct Hx as (b & Hb & Hsb & Hxb).
    pose proof (count_split bs i b Hb
      (mkBucket (bucket_state_for_probe_length (probe cap i (key w))) (Some w))) as Hc.
    unfold entry_of in Hc. simpl in Hc.
    rewrite (proj2 (Nat.eqb_neq _ _) Hs), (proj2 (Nat.eqb_neq _ _) Hsb), Hxb in Hc.
    unfold bs'. lia.
  - intros v. split.
    + intros [(j & [[-> ->]|[? Hj]]%Hu)| ->]; [by right|left; by exists j|left; by exists i].
    + intros [(j & Hj)| ->].
      * destruct (decide (j = i)) as [->|]; [right; by eapply used_fun|].
        left. exists j. apply Hu. by right.
      * left. exists i. apply Hu. by left.
  - unfold bs'. rewrite pl_insert by (lia || done). by destruct (decide (i = i)).
Qed.

Lemma added_swap bs bs1 bs2 x w :
  (∀ v, holds bs1 v ∨ v = x ↔ holds bs v ∨ v = w) → count bs1 = count bs →
  added bs1 bs2 x → added bs bs2 w.
Proof. intros Hh Hc [Ha Hn]. split; [|lia]. intros v. by rewrite Ha, Hh. Qed.

Lemma next_inj cap q q' : q < cap → q' < cap →
  next_index cap q = next_index cap q' → q = q'.
Proof.
  unfold next_index. intros.
  destruct (Nat.eqb_spec (S q) cap), (Nat.eqb_spec (S q') cap); lia.
Qed.

(** The carrying loop ends at a free bucket, which is at most [fuel] steps
    ahead, and the carried entry is then part of the table. *)
(** Behind a run of used buckets that ends at a free one there is room for a longer probe. *)
Lemma free_room cap bs q d n :
  wf_core cap bs → q < cap → 1 <= d <= cap → pl cap bs ((q + d) mod cap) = (-1)%Z →
  (Z.of_nat n <= pl cap bs q)%Z → S n < cap.
Proof.
  intros Hc Hq Hd Hf Hn. pose proof (pl_chain cap bs (q + d) (cap - d) Hc) as Hch.
  rewrite Hf in Hch. replace (q + d + (cap - d)) with (q + 1 * cap) in Hch by lia.
  rewrite Nat.Div0.mod_add, Nat.mod_small in Hch by done. lia.
Qed.

Lemma write_shift_spec fuel cap bs q wb w d :
  wf_buckets cap bs → q < cap → slot wb = Some w → ¬ has_key bs (key w) →
  (Z.of_nat (probe cap q (key w)) <= pl cap bs q)%Z →
  1 <= d <= fuel → d <= cap → pl cap bs ((q + d) mod cap) = (-1)%Z →
  ∃ bs', write_shift fuel bs cap q (probe cap q (key w)) wb = Ok bs' ∧
    wf_buckets cap bs' ∧ added bs bs' w.
Proof.
  revert bs q wb w d. induction fuel as [|fuel IH];
    intros bs q wb w d Hwf Hq Hwb Hk Hp Hd Hdc Hf; [lia|].
  destruct Hwf as [Hc Hi]. pose proof (wf_pos _ _ Hc).
  assert (S (probe cap q (key w)) < cap) as HSp by (apply (free_room cap bs q d); done || lia).
  pose proof (probe_next cap q (key w) Hq HSp) as Hpn.
  pose proof (next_index_lt cap q Hq) as Hn.
  assert (∀ q', q' < cap → next_index cap q' = next_index cap q → q' ≠ next_index cap q →
     (Z.of_nat (S (probe cap q (key w))) <= pl cap bs q' + 1)%Z) as Hprev.
  { intros q' Hq' E _. apply next_inj in E as ->; [lia|done|done]. }
  destruct (lookup_bucket cap bs _ Hc Hn) as (b & Hb & Hcase).
  simpl. rewrite Hb. simpl. destruct Hcase as [[Hs Hpl]|(x & Hs & Hx & Hu & Hpr)].
  - rewrite Hs, Hwb. simpl. eexists. split; [done|].
    apply (place_fresh cap bs (next_index cap q) b w); try done.
    unfold entry_of. by rewrite Hs.
  - rewrite (proj2 (Nat.eqb_neq _ _) Hs), Hpr. simpl.
    assert (d ≠ 1) as Hd1.
    { intros ->. rewrite Nat.add_1_r, <- next_index_mod, Nat.mod_small in Hf by done.
      rewrite (pl_used _ _ _ _ Hu) in Hf. lia. }
    assert (∀ bs', (∀ j, j ≠ next_index cap q → pl cap bs' j = pl cap bs j) →
      pl cap bs' ((next_index cap q + (d - 1)) mod cap) = (-1)%Z) as Hfree.
    { intros bs' Hsame.
      assert ((next_index cap q + (d - 1)) mod cap = (q + d) mod cap) as E.
      { rewrite <- (Nat.mod_small q cap) at 1 by done. rewrite next_index_mod by done.
        rewrite Nat.Div0.add_mod_idemp_l. f_equal. lia. }
      rewrite E, Hsame; [done|]. intros E2. rewrite E2, (pl_used _ _ _ _ Hu) in Hf. lia. }
    destruct (Nat.ltb_spec (probe cap (next_index cap q) (key x)) (S (probe cap q (key w)))) as [Hlt|Hge].
    + rewrite Hwb.
      destruct (place_steal cap bs (next_index cap q) x w (S (probe cap q (key w))))
        as (Hwf' & Hk' & Hcnt & Hh & Hpl'); try done.
      destruct (IH _ (next_index cap q) b x (d - 1) Hwf' Hn Hx Hk') as (bs' & Hrun & Hwf2 & Hadd).
      * rewrite Hpl'. lia.
      * lia.
      * lia.
      * apply Hfree. intros j Hj. pose proof (wf_len _ _ Hc).
        rewrite pl_insert by (lia || apply state_probe). by destruct (decide _).
      * exists bs'. split_and!; [done|done|]. by eapply added_swap.
    + rewrite <- Hpn.
      apply (IH bs (next_index cap q) wb w (d - 1)); try done; try lia.
      * rewrite (pl_used _ _ _ _ Hu). lia.
      * by apply Hfree.
Qed.

Lemma distinct_key_unique bs i j v w :
  distinct_keys bs (fun _ => True) → used bs i v → used bs j w → key v = key w → i = j ∧ v = w.
Proof.
  intros Hd Hv Hw E. assert (i = j) as -> by (by eapply Hd). split; [done|]. by eapply used_fun.
Qed.

(** Overwriting an entry by one with the same key. *)
Lemma replace_entry cap bs i b x w :
  wf_buckets cap bs → bs !! i = Some b → state b ≠ Free → slot b = Some x → key x = key w →
  let bs' := <[i := mkBucket (state b) (Some w)]> bs in
  wf_buckets cap bs' ∧ count bs' = count bs ∧
  (∀ v, holds bs' v ↔ v = w ∨ (holds bs v ∧ key v ≠ key w)).
Proof.
  intros [Hwf Hd] Hb Hs Hx Hk bs'. pose proof (wf_len _ _ Hwf) as Hlen.
  assert (i < length bs) as Hi by (by eapply lookup_lt_Some).
  assert (used bs i x) as Hux by (by exists b).
  assert (∀ j v, used bs' j v ↔ (j = i ∧ v = w) ∨ (j ≠ i ∧ used bs j v)) as Hu.
  { intros. by apply used_insert. }
  assert (∀ j, pl cap bs' j = pl cap bs j) as Hpl.
  { intros j. unfold bs'. rewrite pl_insert by done. destruct (decide (j = i)) as [->|]; [|done].
    by rewrite (pl_used _ _ _ _ Hux), Hk. }
  split_and!; [split| |].
  - split; [apply (wf_pos _ _ Hwf)|unfold bs'; by rewrite length_insert| |].
    + intros j b'. unfold bs'. destruct (decide (j = i)) as [->|Hne].
      * rewrite list_lookup_insert_eq by done. intros [= <-] _. exists w. split; [done|].
        destruct (wf_ok _ _ Hwf _ _ Hb Hs) as (x' & Hx' & Hst). simpl.
        rewrite Hst. congruence.
      * rewrite list_lookup_insert_ne by done. apply (wf_ok _ _ Hwf).
    + intros j Hj. rewrite !Hpl. by apply (wf_rh _ _ Hwf).
  - intros j1 j2 v1 v2 _ _ H1%Hu H2%Hu E.
    destruct H1 as [[-> ->]|[? H1]], H2 as [[-> ->]|[? H2]]; try done.
    + symmetry. apply (Hd j2 i v2 x); done || congruence.
    + apply (Hd j1 i v1 x); done || congruence.
    + by eapply Hd.
  - pose proof (count_split bs i b Hb (mkBucket (state b) (Some w))) as Hc.
    unfold entry_of in Hc. simpl in Hc.
    rewrite (proj2 (Nat.eqb_neq _ _) Hs), Hx in Hc. unfold bs'. lia.
  - intros v. split.
    + intros (j & [[-> ->]|[? Hj]]%Hu); [by left|right]. split; [by exists j|].
      intros E. destruct (Hd j i v x); done || congruence.
    + intros [->|[(j & Hj) Hne]]; [exists i; apply Hu; by left|].
      exists j. apply Hu. right. split; [|done]. intros ->.
      assert (v = x) as -> by (by eapply used_fun). congruence.
Qed.

#[local] Arguments write_shift : simpl never.

(** What [write_value] returns: the new bucket array has the entry, and every
    other entry is kept. *)
Definition write_post (bs : list Bucket) (size cap : nat) (value : T)
    (beh : HashSetExistingEntryBehavior) (r : HashSetResult) (t' : HashTable) : Prop :=
  m_capacity t' = cap ∧ wf_buckets cap (m_buckets t') ∧
  match r with
  | InsertedNewEntry =>
      ¬ has_key bs (key value) ∧ added bs (m_buckets t') value ∧ m_size t' = S size
  | ReplacedExistingEntry =>
      beh = Replace ∧ has_key bs (key value) ∧ m_size t' = size ∧
      count (m_buckets t') = count bs ∧
      ∀ v, holds (m_buckets t') v ↔ v = value ∨ (holds bs v ∧ key v ≠ key value)
  | KeptExistingEntry =>
      beh = Keep ∧ has_key bs (key value) ∧ m_size t' = size ∧ m_buckets t' = bs
  end.

(** The state of the search for [k] after [j] buckets from its ideal one: none holds the key, and each
    is at least as far from the ideal bucket of its entry as the search is. *)
Record scanned (cap : nat) (bs : list Bucket) (k : K) (j : nat) : Prop := {
  scanned_keys : ∀ j' v, j' < j → used bs ((ideal_index cap k + j') mod cap) v → key v ≠ k;
  scanned_lengths : ∀ j', j' < j → (Z.of_nat j' <= pl cap bs ((ideal_index cap k + j') mod cap))%Z
}.

Lemma scanned_previous cap bs k j q :
  wf_core cap bs → scanned cap bs k j → q < cap → next_index cap q = (ideal_index cap k + j) mod cap →
  (Z.of_nat j <= pl cap bs q + 1)%Z.
Proof.
  intros Hc Hs Hq E. pose proof (wf_pos _ _ Hc). pose proof (pl_ge cap bs q). destruct j as [|j]; [lia|].
  assert (q = (ideal_index cap k + j) mod cap) as ->.
  { eapply next_inj; [done|apply Nat.mod_upper_bound; lia|].
    rewrite next_index_mod, <- Nat.add_succ_r by done. done. }
  pose proof (scanned_lengths _ _ _ _ Hs j ltac:(lia)). lia.
Qed.

Lemma scanned_fresh cap bs k j :
  wf_core cap bs → scanned cap bs k j → (pl cap bs ((ideal_index cap k + j) mod cap) < Z.of_nat j)%Z →
  ¬ has_key bs k.
Proof.
  intros Hc Hs Hlt (v & (i' & Hu) & E).
  assert (i' < cap) by (rewrite <- (wf_len _ _ Hc); by eapply used_lt).
  destruct (decide (probe cap i' (key v) < j)) as [Hlj|Hge].
  - apply (scanned_keys _ _ _ _ Hs (probe cap i' (key v)) v Hlj); [|done].
    rewrite <- E. by rewrite probe_index.
  - pose proof (pl_before cap bs i' v j Hc Hu ltac:(lia)) as Hb. rewrite E in Hb. lia.
Qed.

Lemma scanned_step cap bs k j x :
  scanned cap bs k j → used bs ((ideal_index cap k + j) mod cap) x → key x ≠ k →
  j <= probe cap ((ideal_index cap k + j) mod cap) (key x) → scanned cap bs k (S j).
Proof.
  intros Hs Hu Hk Hp. split.
  - intros j' v Hj' Hv. destruct (decide (j' = j)) as [->|]; [by assert (v = x) as -> by (by eapply used_fun)|].
    eapply scanned_keys; [done| |done]. lia.
  - intros j' Hj'. destruct (decide (j' = j)) as [->|]; [rewrite (pl_used _ _ _ _ Hu); lia|].
    eapply scanned_lengths; [done|lia].
Qed.

Lemma write_loop_spec fuel cap bs size j value beh :
  wf_buckets cap bs → count bs < cap → j < cap → cap <= fuel + j →
  scanned cap bs (key value) j →
  ∃ r t', write_loop fuel bs size cap ((ideal_index cap (key value) + j) mod cap) j value beh
            = Ok (r, t') ∧ write_post bs size cap value beh r t'.
Proof.
  revert j. induction fuel as [|fuel IH]; intros j Hwf Hcnt Hj Hfuel Hscan; [lia|].
  pose proof Hwf as [Hc Hd]. pose proof (wf_pos _ _ Hc) as Hpos. pose proof (wf_len _ _ Hc).
  set (i := (ideal_index cap (key value) + j) mod cap).
  assert (i < cap) as Hi by (apply Nat.mod_upper_bound; lia).
  assert (probe cap i (key value) = j) as Hpi by (by apply probe_ideal).
  assert (∀ q, q < cap → next_index cap q = i → q ≠ i → (Z.of_nat j <= pl cap bs q + 1)%Z) as Hprev
    by (intros; by eapply scanned_previous).
  assert ((pl cap bs i < Z.of_nat j)%Z → ¬ has_key bs (key value)) as Hfresh by (intros; by eapply scanned_fresh).
  destruct (lookup_bucket cap bs i Hc Hi) as (b & Hb & Hcase).
  simpl. fold i. rewrite Hb. simpl.
  destruct Hcase as [[Hs Hpl]|(x & Hs & Hx & Hu & Hpr)].
  - rewrite Hs. simpl. do 2 eexists. split; [done|].
    assert (¬ has_key bs (key value)) as Hk by (apply Hfresh; lia).
    destruct (place_fresh cap bs i b value j) as [Hwf' Hadd]; try done.
    { unfold entry_of. by rewrite Hs. }
    split_and!; simpl; try done. lia.
  - rewrite (proj2 (Nat.eqb_neq _ _) Hs), Hx. simpl.
    destruct (decide (key x = key value)) as [Hkx|Hkx].
    + assert (has_key bs (key value)) as Hhas by (exists x; split; [by exists i|done]).
      destruct beh; do 2 eexists; (split; [done|]).
      * by split_and!.
      * destruct (replace_entry cap bs i b x value) as (Hwf' & Hcn & Hh); try done.
    + rewrite Hpr. simpl. destruct (Nat.ltb_spec (probe cap i (key x)) j) as [Hlt|Hge].
      * assert (¬ has_key bs (key value)) as Hk.
        { apply Hfresh. rewrite (pl_used _ _ _ _ Hu). lia. }
        destruct (place_steal cap bs i x value j) as (Hwf' & Hk' & Hcn & Hh & Hpl); try done.
        destruct (free_ahead cap _ i (proj1 Hwf') ltac:(lia)) as (d & Hd1 & Hf).
        destruct (write_shift_spec (S cap) cap _ i b x d Hwf' Hi Hx Hk')
          as (bs' & Hrun & Hwf2 & Hadd); try done; try lia.
        rewrite Hrun. simpl. do 2 eexists. split; [done|].
        split_and!; simpl; try done; [by eapply added_swap|lia].
      * assert (S j < cap) as HSj.
        { destruct (free_ahead cap bs i Hc Hcnt) as (d & Hd1 & Hf).
          eapply (free_room cap bs i d); try done. rewrite (pl_used _ _ _ _ Hu). lia. }
        assert (next_index cap i = (ideal_index cap (key value) + S j) mod cap) as ->.
        { unfold i. rewrite next_index_mod by done. by rewrite Nat.add_succ_r. }
        apply IH; try done; try lia. by eapply scanned_step.
Qed.

(** *** Lookup *)
Lemma lookup_loop_spec fuel cap bs k j d :
  wf_buckets cap bs → j <= d → d < fuel + j →
  pl cap bs ((ideal_index cap k + d) mod cap) = (-1)%Z →
  (∀ j' v, j' < j → used bs ((ideal_index cap k + j') mod cap) v → key v ≠ k) →
  match lookup_loop fuel bs cap ((ideal_index cap k + j) mod cap) k with
  | Ok (Some i) => ∃ v, used bs i v ∧ key v = k
  | Ok None => ¬ has_key bs k
  | _ => False
  end.
Proof.
  revert j. induction fuel as [|fuel IH]; intros j Hwf Hjd Hfuel Hfree Hkeys; [lia|].
  pose proof Hwf as [Hc Hd]. pose proof (wf_pos _ _ Hc) as Hpos.
  set (i := (ideal_index cap k + j) mod cap).
  assert (i < cap) as Hi by (apply Nat.mod_upper_bound; lia).
  destruct (lookup_bucket cap bs i Hc Hi) as (b & Hb & Hcase).
  simpl. fold i. rewrite Hb. simpl.
  destruct Hcase as [[Hs Hpl]|(x & Hs & Hx & Hu & Hpr)].
  - rewrite Hs. simpl. intros (v & (i' & Hv) & <-).
    destruct (decide (probe cap i' (key v) < j)) as [Hlj|Hge].
    + apply (Hkeys (probe cap i' (key v)) v Hlj); [|done].
      rewrite probe_index; [done|]. rewrite <- (wf_len _ _ Hc). by eapply used_lt.
    + pose proof (pl_before cap bs i' v j Hc Hv ltac:(lia)) as H. fold i in H. lia.
  - rewrite (proj2 (Nat.eqb_neq _ _) Hs), Hx. simpl.
    destruct (decide (key x = k)) as [Hk|Hk]; [by exists x|].
    assert (j ≠ d) by (intros <-; fold i in Hfree; rewrite (pl_used _ _ _ _ Hu) in Hfree; lia).
    assert (next_index cap i = (ideal_index cap k + S j) mod cap) as ->.
    { unfold i. rewrite next_index_mod by done. by rewrite Nat.add_succ_r. }
    apply IH; try done; try lia.
    intros j' v Hj'. destruct (decide (j' = j)) as [->|]; [|apply Hkeys; lia].
    fold i. intros Hv. by assert (v = x) as -> by (by eapply used_fun).
Qed.

(** *** Deletion *)

(** [bs'] holds the entries of [bs] except the one in bucket [to]. *)
Definition without (bs : list Bucket) (to : nat) (bs' : list Bucket) : Prop :=
  (∀ v, holds bs' v ↔ ∃ i, i ≠ to ∧ used bs i v) ∧ S (count bs') = count bs.

(** Marking a bucket free, when the next one is free or at its ideal index. *)
Lemma free_bucket_spec cap bs to :
  wf_core cap bs → to < cap → distinct_keys bs (fun i => i ≠ to) →
  (0 <= pl cap bs to)%Z → (pl cap bs (next_index cap to) <= 0)%Z →
  let bs' := alter (fun b => mkBucket Free (slot b)) to bs in
  wf_buckets cap bs' ∧ without bs to bs'.
Proof.
  intros Hc Hto Hdk Hpto Hle bs'.
  pose proof (wf_pos _ _ Hc) as Hpos. pose proof (wf_len _ _ Hc) as Hlen.
  destruct (lookup_bucket cap bs to Hc Hto) as (bt & Hbt & [[_ E]|(t & Hst & Hsl & _)]); [lia|].
  assert (∀ j, bs' !! j = if decide (j = to) then Some (mkBucket Free (slot bt)) else bs !! j) as Hl.
  { intros j. unfold bs'. destruct (decide (j = to)) as [->|].
    - by rewrite list_lookup_alter_eq, Hbt.
    - by rewrite list_lookup_alter_ne. }
  assert (∀ j, pl cap bs' j = if decide (j = to) then (-1)%Z else pl cap bs j) as Hpl.
  { intros j. unfold pl. rewrite Hl. by destruct (decide (j = to)). }
  assert (∀ j v, used bs' j v ↔ j ≠ to ∧ used bs j v) as Hu.
  { intros j v. unfold used. rewrite Hl. destruct (decide (j = to)) as [->|]; [|by intuition].
    split; [intros (b & [= <-] & [] & _); done|by intros [? _]]. }
  split; [split; [split|]|split].
  - done.
  - unfold bs'. by rewrite length_alter.
  - intros j b. rewrite Hl. destruct (decide (j = to)); [|apply (wf_ok _ _ Hc)].
    intros [= <-] Hs. by destruct Hs.
  - intros j Hj. rewrite !Hpl. pose proof (wf_rh _ _ Hc j Hj) as Hrh. pose proof (pl_ge cap bs j).
    destruct (decide (next_index cap j = to)), (decide (j = to)); subst; lia.
  - intros j1 j2 v1 v2 _ _ [? ?]%Hu [? ?]%Hu E. by eapply (Hdk j1 j2).
  - intros v. unfold holds. by setoid_rewrite Hu.
  - assert (bs' = <[to := mkBucket Free (slot bt)]> bs) as ->.
    { apply list_eq. intros j. rewrite Hl. destruct (decide (j = to)) as [->|].
      - by rewrite list_lookup_insert_eq by lia.
      - by rewrite list_lookup_insert_ne. }
    pose proof (count_split bs to bt Hbt (mkBucket Free (slot bt))) as Hcs.
    unfold entry_of in Hcs. simpl in Hcs.
    rewrite (proj2 (Nat.eqb_neq _ _) Hst), Hsl in Hcs. rewrite Hsl. lia.
Qed.

(** Moving the entry after the hole [to] into it: the invariant holds again,
    with the hole one bucket further. *)
(** An entry that moves to the bucket before its own is one step closer to its ideal bucket. *)
Lemma probe_previous cap to k p :
  to < cap → probe cap (next_index cap to) k = S p → probe cap to k = p.
Proof.
  intros Hto Ep. assert (next_index cap to < cap) as Hfr by (by apply next_index_lt).
  pose proof (probe_lt cap (next_index cap to) k Hfr).
  assert (to = (ideal_index cap k + p) mod cap) as ->; [|apply probe_ideal; lia].
  eapply next_inj; [done|apply Nat.mod_upper_bound; lia|].
  rewrite next_index_mod by lia. rewrite <- (probe_index cap (next_index cap to) k) by done.
  by rewrite Ep, Nat.add_succ_r.
Qed.

(** Overwriting one entry with another keeps the number of entries. *)
Lemma overwrite_count cap bs to x p :
  wf_core cap bs → to < cap → (0 <= pl cap bs to)%Z →
  count (<[to := mkBucket (bucket_state_for_probe_length p) (Some x)]> bs) = count bs.
Proof.
  intros Hc Hto Hpto. pose proof (state_probe p) as Hsp.
  destruct (lookup_bucket cap bs to Hc Hto) as (bt & Hbt & [[_ E]|(t & Hst & Hsl & _)]); [lia|].
  pose proof (count_split bs to bt Hbt (mkBucket (bucket_state_for_probe_length p) (Some x))) as Hcs.
  unfold entry_of in Hcs. simpl in Hcs.
  rewrite (proj2 (Nat.eqb_neq _ _) Hst), (proj2 (Nat.eqb_neq _ _) Hsp), Hsl in Hcs. lia.
Qed.

Lemma shift_entry cap bs to x p :
  wf_core cap bs → to < cap → distinct_keys bs (fun i => i ≠ to) → (0 <= pl cap bs to)%Z →
  used bs (next_index cap to) x → probe cap (next_index cap to) (key x) = S p →
  let bs1 := <[to := mkBucket (bucket_state_for_probe_length p) (Some x)]> bs in
  next_index cap to ≠ to ∧ wf_core cap bs1 ∧
  distinct_keys bs1 (fun i => i ≠ next_index cap to) ∧
  (∀ j, pl cap bs1 j = if decide (j = to) then Z.of_nat p else pl cap bs j) ∧
  (∀ bs', without bs1 (next_index cap to) bs' → without bs to bs').
Proof.
  intros Hc Hto Hdk Hpto Hu Ep. set (from := next_index cap to) in *. intros bs1.
  pose proof (wf_pos _ _ Hc) as Hpos. pose proof (wf_len _ _ Hc) as Hlen.
  assert (from < cap) as Hfr by (by apply next_index_lt).
  pose proof (pl_used cap _ _ _ Hu) as Hplx. rewrite Ep in Hplx.
  assert (probe cap to (key x) = p) as Ept by (by apply probe_previous).
  assert (from ≠ to) as Hne by (intros E; rewrite E in Ep; lia).
  pose proof (state_probe p) as Hsp.
  assert (∀ j v, used bs1 j v ↔ (j = to ∧ v = x) ∨ (j ≠ to ∧ used bs j v)) as Hu1.
  { intros. apply used_insert; [lia|done]. }
  assert (∀ j, pl cap bs1 j = if decide (j = to) then Z.of_nat p else pl cap bs j) as Hpl1.
  { intros j. unfold bs1. by rewrite pl_insert, Ept by (lia || done). }
  split_and!; [done|split| |done|].
  - done.
  - unfold bs1. by rewrite length_insert.
  - intros j b. unfold bs1. destruct (decide (j = to)) as [->|].
    + rewrite list_lookup_insert_eq by lia. intros [= <-] _. exists x. by rewrite Ept.
    + rewrite list_lookup_insert_ne by done. apply (wf_ok _ _ Hc).
  - intros j Hj. rewrite !Hpl1. pose proof (wf_rh _ _ Hc j Hj).
    pose proof (wf_rh _ _ Hc to Hto) as Hrt. fold from in Hrt.
    destruct (decide (next_index cap j = to)), (decide (j = to)); subst; try lia.
    fold from. lia.
  - intros j1 j2 v1 v2 Hj1 Hj2 H1%Hu1 H2%Hu1 E.
    destruct H1 as [[-> ->]|[? H1]], H2 as [[-> ->]|[? H2]]; try done.
    + destruct (Hdk from j2 x v2); done.
    + destruct (Hdk j1 from v1 x); done.
    + by eapply (Hdk j1 j2).
  - intros bs' [Hh Hcnt]. split.
    + intros v. rewrite Hh. split.
      * intros (i & Hi & [[-> ->]|[? Hui]]%Hu1); [by exists from|by exists i].
      * intros (i & Hi & Hui). destruct (decide (i = from)) as [->|Hif].
        -- exists to. split; [done|]. apply Hu1. left. split; [done|]. by eapply used_fun.
        -- exists i. split; [done|]. apply Hu1. by right.
    + by rewrite Hcnt; unfold bs1; rewrite (overwrite_count cap).
Qed.

(** [delete_loop] keeps the Robin Hood invariant while the bucket at
    [shift_to_index] holds a stale copy of the entry that was moved down. *)
Lemma delete_loop_spec fuel cap bs to d :
  wf_core cap bs → to < cap → distinct_keys bs (fun i => i ≠ to) → (0 <= pl cap bs to)%Z →
  1 <= d <= fuel → pl cap bs ((to + d) mod cap) = (-1)%Z →
  ∃ bs', delete_loop fuel bs cap to = Ok bs' ∧ wf_buckets cap bs' ∧ without bs to bs'.
Proof.
  revert bs to d. induction fuel as [|fuel IH];
    intros bs to d Hc Hto Hdk Hpto Hd Hfree; [lia|].
  pose proof (wf_pos _ _ Hc) as Hpos.
  assert (next_index cap to < cap) as Hfr by (by apply next_index_lt).
  destruct (lookup_bucket cap bs _ Hc Hfr) as (bf & Hbf & Hcase).
  simpl. rewrite Hbf. simpl.
  destruct Hcase as [[Hs Hpl]|(x & Hs & Hx & Hu & Hpr)].
  { rewrite Hs. simpl. eexists. split; [done|]. apply free_bucket_spec; done || lia. }
  rewrite (proj2 (Nat.eqb_neq _ _) Hs), Hpr. simpl.
  pose proof (pl_used cap _ _ _ Hu) as Hplx.
  destruct (probe cap (next_index cap to) (key x)) as [|p] eqn:Ep; simpl.
  { eexists. split; [done|]. apply free_bucket_spec; done || lia. }
  rewrite Nat.sub_0_r, Hx.
  destruct (shift_entry cap bs to x p) as (Hne & Hc1 & Hdk1 & Hpl1 & Hw); try done.
  assert (d ≠ 1) as Hd1.
  { intros ->. rewrite Nat.add_1_r, <- next_index_mod, Nat.mod_small in Hfree by done. lia. }
  destruct (IH _ (next_index cap to) (d - 1) Hc1 Hfr) as (bs' & Hrun & Hwf' & Hwo); try done.
  - rewrite Hpl1. destruct (decide _); [done|lia].
  - lia.
  - assert ((next_index cap to + (d - 1)) mod cap = (to + d) mod cap) as ->.
    { rewrite <- (Nat.mod_small to cap) at 1 by done. rewrite next_index_mod by done.
      rewrite Nat.Div0.add_mod_idemp_l. f_equal. lia. }
    rewrite Hpl1. destruct (decide _) as [E|]; [rewrite E in Hfree; lia|done].
  - exists bs'. split_and!; try done. by apply Hw.
Qed.

#[local] Arguments delete_loop : simpl never.
#[local] Arguments lookup_loop : simpl never.

(** *** Well-formed tables *)

(** The load stays below [grow_at_load_factor_percent]; a default-constructed
    table has no buckets. *)
Definition wf (t : HashTable) : Prop :=
  (t = empty_table) ∨
  (wf_buckets (m_capacity t) (m_buckets t) ∧ m_size t = count (m_buckets t) ∧
   m_size t * 100 < m_capacity t * 80).

Lemma empty_wf : wf empty_table.
Proof. by left. Qed.

Lemma count_values t : length (values t) = count (m_buckets t).
Proof. done. Qed.

Lemma elem_of_values t v : v ∈ values t ↔ holds (m_buckets t) v.
Proof.
  unfold values, holds. rewrite list_elem_of_omap. setoid_rewrite used_entry. split.
  - intros (b & [i Hb]%list_elem_of_lookup & He). eauto.
  - intros (i & b & Hb & He). exists b. split; [|done]. apply list_elem_of_lookup. eauto.
Qed.

Lemma values_NoDup_keys bs :
  distinct_keys bs (fun _ => True) → NoDup (key <$> omap entry_of bs).
Proof using Type.
  clear good_capacity. induction bs as [|b bs IH]; intros Hd; csimpl; [constructor|].
  assert (distinct_keys bs (fun _ => True)) as Hd'.
  { intros i j v w _ _ Hv Hw E. specialize (Hd (S i) (S j) v w). naive_solver. }
  destruct (entry_of b) as [v|] eqn:E; csimpl; [|by apply IH].
  constructor; [|by apply IH]. intros (w & Hw & (b' & [i Hb']%list_elem_of_lookup & He)%list_elem_of_omap)%list_elem_of_fmap.
  assert (0 = S i); [|done]. apply (Hd 0 (S i) v w); try done; apply used_entry; eauto.
Qed.

Lemma empty_buckets_wf cap : 0 < cap →
  wf_buckets cap (replicate cap free_bucket) ∧ (∀ v, ¬ holds (replicate cap free_bucket) v) ∧
  count (replicate cap free_bucket) = 0.
Proof.
  intros Hpos.
  assert (∀ i b, replicate cap free_bucket !! i = Some b → b = free_bucket) as Hb.
  { intros i b [-> _]%lookup_replicate. done. }
  assert (∀ i v, ¬ used (replicate cap free_bucket) i v) as Hu.
  { intros i v (b & ->%Hb & Hs & _). done. }
  split_and!; [split; [split|]| |].
  - done.
  - apply length_replicate.
  - intros i b ->%Hb Hs. done.
  - intros i _.
    assert (∀ j, pl cap (replicate cap free_bucket) j = (-1)%Z) as Hpl.
    { intros j. unfold pl. destruct (_ !! j) eqn:E; [by rewrite (Hb _ _ E)|done]. }
    rewrite !Hpl. lia.
  - intros i j v w _ _ Hv. by destruct (Hu i v).
  - intros v [i Hi]. by apply (Hu i v).
  - unfold count. clear. induction cap; csimpl; [done|]. done.
Qed.

Lemma write_value_spec t value beh :
  wf_buckets (m_capacity t) (m_buckets t) → count (m_buckets t) < m_capacity t →
  ∃ r t', write_value value beh t = Ok (r, t') ∧
    write_post (m_buckets t) (m_size t) (m_capacity t) value beh r t'.
Proof.
  intros Hwf Hc. pose proof (wf_pos _ _ (proj1 Hwf)).
  destruct (write_loop_spec (S (m_capacity t)) (m_capacity t) (m_buckets t) (m_size t) 0 value beh)
    as (r & t' & Hrun & Hpost); try done; try lia.
  { split; lia. }
  exists r, t'. split; [|done]. unfold write_value.
  by rewrite Nat.add_0_r, Nat.mod_small in Hrun by (by apply ideal_index_lt).
Qed.

Lemma rehash_loop_spec vs t :
  wf_buckets (m_capacity t) (m_buckets t) → m_size t = count (m_buckets t) →
  count (m_buckets t) + length vs < m_capacity t →
  NoDup (key <$> vs) → (∀ v, v ∈ vs → ¬ has_key (m_buckets t) (key v)) →
  ∃ t', rehash_loop vs t = Ok t' ∧ wf_buckets (m_capacity t') (m_buckets t') ∧
    m_capacity t' = m_capacity t ∧ m_size t' = count (m_buckets t') ∧
    count (m_buckets t') = count (m_buckets t) + length vs ∧
    (∀ v, holds (m_buckets t') v ↔ holds (m_buckets t) v ∨ v ∈ vs).
Proof.
  revert t. induction vs as [|v vs IH]; intros t Hwf Hs Hc Hnd Hk; csimpl in *.
  { exists t. split_and!; try done; try lia. intros v. set_solver. }
  apply NoDup_cons in Hnd as [Hnv Hnd].
  destruct (write_value_spec t v Keep Hwf ltac:(lia)) as (r & t1 & Hrun & Hcap & Hwf1 & Hr).
  rewrite Hrun. simpl.
  destruct r; [|naive_solver|destruct Hr as (_ & Hhas & _); destruct (Hk v); set_solver].
  destruct Hr as (_ & [Hadd Hcnt] & Hsz).
  destruct (IH t1) as (t' & Hrun' & Hwf' & Hcap' & Hs' & Hc' & Hh'); try done; try congruence.
  - lia.
  - intros w Hw (x & Hx & E). apply Hadd in Hx as [Hx| ->].
    + apply (Hk w); [set_solver|by exists x].
    + apply Hnv. rewrite E. apply list_elem_of_fmap. eauto.
  - exists t'. split_and!; try done; try congruence; [lia|].
    intros w. rewrite Hh', Hadd. set_solver.
Qed.

Lemma wf_lt t : wf t → m_capacity t ≠ 0 →
  wf_buckets (m_capacity t) (m_buckets t) ∧ m_size t = count (m_buckets t) ∧
  m_size t < m_capacity t.
Proof. intros [->|(? & ? & ?)] Hc; [done|]. split_and!; try done. lia. Qed.

Lemma find_spec t k : wf t →
  match find t k with
  | Ok (Some i) => ∃ v, used (m_buckets t) i v ∧ key v = k
  | Ok None => ¬ has_key (m_buckets t) k
  | _ => False
  end.
Proof.
  intros Hwf. unfold find, lookup_with_hash, is_empty.
  destruct (Nat.eqb_spec (m_size t) 0) as [E|E].
  - intros (v & Hv & _). apply elem_of_values in Hv.
    assert (length (values t) = 0) as Hl.
    { rewrite count_values. destruct Hwf as [->|(_ & ? & _)]; [done|lia]. }
    destruct (values t); [by apply elem_of_nil in Hv|done].
  - assert (m_capacity t ≠ 0) as Hc by (destruct Hwf as [->|(_ & _ & ?)]; simpl in *; lia).
    destruct (wf_lt t Hwf Hc) as (Hb & Hs & Hlt).
    destruct (free_ahead (m_capacity t) (m_buckets t) (ideal_index (m_capacity t) k) (proj1 Hb)
                ltac:(lia)) as (d & Hd & Hf).
    assert (ideal_index (m_capacity t) k = (ideal_index (m_capacity t) k + 0) mod m_capacity t) as ->.
    { rewrite Nat.add_0_r, Nat.mod_small; [done|apply ideal_index_lt; lia]. }
    apply lookup_loop_spec with d; try done; lia.
Qed.

(** [remove] deletes the entry with the key and no other. *)
Lemma remove_spec t k : wf t →
  ∃ b t', remove t k = Ok (b, t') ∧ wf t' ∧
    (b = true ↔ has_key (m_buckets t) k) ∧
    m_size t' = m_size t - (if b then 1 else 0) ∧
    (∀ v, holds (m_buckets t') v ↔ holds (m_buckets t) v ∧ key v ≠ k).
Proof.
  intros Hwf. unfold remove. pose proof (find_spec t k Hwf) as Hf.
  destruct (find t k) as [[i|]| |]; try done; simpl.
  - destruct Hf as (v & Hu & <-).
    assert (m_capacity t ≠ 0) as Hc.
    { destruct Hwf as [->|(_ & _ & ?)]; [by destruct Hu as (? & ? & _)|lia]. }
    destruct (wf_lt t Hwf Hc) as ([Hb Hd] & Hs & Hlt).
    assert (i < m_capacity t) as Hi by (rewrite <- (wf_len _ _ Hb); by eapply used_lt).
    destruct (free_ahead _ _ i Hb ltac:(lia)) as (d & Hdb & Hfree).
    destruct (delete_loop_spec (S (m_capacity t)) (m_capacity t) (m_buckets t) i d)
      as (bs' & Hrun & Hwf' & Hh & Hcnt); try done; try lia.
    { intros j1 j2 v1 v2 _ _. by apply Hd. }
    { rewrite (pl_used _ _ _ _ Hu). lia. }
    unfold delete_bucket. destruct Hu as (b & Hbi & Hst & Hsl). rewrite Hbi. simpl.
    rewrite (proj2 (Nat.eqb_neq _ _) Hst). rewrite Hrun. simpl.
    do 2 eexists. split; [done|]. split_and!; simpl.
    + right. simpl. split_and!; [done|lia|].
      destruct Hwf as [->|(_ & _ & ?)]; simpl in *; lia.
    + split; [|done]. intros _. exists v. split; [|done]. by exists i, b.
    + done.
    + intros w. rewrite Hh. split.
      * intros (j & Hj & Hw). split; [by exists j|]. intros E.
        apply Hj. apply (Hd j i w v); try done. by exists b.
      * intros [(j & Hj) Hne]. exists j. split; [|done]. intros ->.
        assert (w = v) as -> by (eapply used_fun; [done|by exists b]). done.
  - do 2 eexists. split; [done|]. split_and!; try done; [lia|].
    intros v. split; [|by intros [? _]]. intros Hv. split; [done|].
    intros <-. apply Hf. by exists v.
Qed.

(** [kmalloc_good_size] rounds up. *)
Hypothesis good_capacity_ge : ∀ n, n <= good_capacity n.

Lemma try_rehash_spec (alloc_ok : bool) n t : wf t →
  if alloc_ok then
    ∃ t', try_rehash alloc_ok n t = Ok t' ∧ wf_buckets (m_capacity t') (m_buckets t') ∧
      m_size t' = count (m_buckets t') ∧ m_size t' = m_size t ∧
      m_capacity t + 8 <= m_capacity t' ∧
      (∀ v, holds (m_buckets t') v ↔ holds (m_buckets t) v)
  else try_rehash alloc_ok n t = Err ENOMEM.
Proof.
  intros Hwf. unfold try_rehash.
  set (c := good_capacity (Nat.max n (m_capacity t + 8))).
  assert (m_capacity t + 8 <= c) as Hc.
  { etrans; [|apply good_capacity_ge]. lia. }
  assert (m_size t <= m_capacity t) as Hle by (destruct Hwf as [->|(_ & _ & ?)]; simpl; lia).
  rewrite (proj2 (Nat.leb_le (m_size t) c)) by lia. simpl.
  destruct alloc_ok; simpl; [|done].
  destruct (empty_buckets_wf c ltac:(lia)) as (Hwf0 & Hno & Hc0).
  destruct (Nat.eqb_spec (m_capacity t) 0) as [E|E].
  - destruct Hwf as [->|(Hb & _ & ?)]; [|lia].
    eexists. split; [done|]. simpl. split_and!; try done; try lia.
    intros v. split; [intros []%Hno|]. intros (i & b & Hb & _). done.
  - destruct (wf_lt t Hwf E) as (Hb & Hs & Hlt).
    destruct (rehash_loop_spec (values t) (mkHashTable (replicate c free_bucket) 0 c))
      as (t' & Hrun & Hwf' & Hcap' & Hs' & Hc' & Hh'); simpl; try done.
    + rewrite count_values. lia.
    + apply values_NoDup_keys, Hb.
    + intros v _ (w & Hw & _). by destruct (Hno w).
    + exists t'. rewrite Hrun. simpl in *. rewrite count_values in Hc'.
      split_and!; try done; try lia.
      intros v. rewrite Hh', elem_of_values. naive_solver.
Qed.

(** [try_set] either fails to grow the bucket array, or stores the entry. *)
Definition set_post (t : HashTable) (value : T) (beh : HashSetExistingEntryBehavior)
    (r : HashSetResult) (t' : HashTable) : Prop :=
  wf t' ∧
  match r with
  | InsertedNewEntry =>
      ¬ has_key (m_buckets t) (key value) ∧ m_size t' = S (m_size t) ∧
      ∀ v, holds (m_buckets t') v ↔ holds (m_buckets t) v ∨ v = value
  | ReplacedExistingEntry =>
      beh = Replace ∧ has_key (m_buckets t) (key value) ∧ m_size t' = m_size t ∧
      ∀ v, holds (m_buckets t') v ↔ v = value ∨ (holds (m_buckets t) v ∧ key v ≠ key value)
  | KeptExistingEntry =>
      beh = Keep ∧ has_key (m_buckets t) (key value) ∧ m_size t' = m_size t ∧
      ∀ v, holds (m_buckets t') v ↔ holds (m_buckets t) v
  end.

Lemma write_post_set t t0 value beh r t' :
  (∀ v, holds (m_buckets t0) v ↔ holds (m_buckets t) v) → m_size t0 = m_size t →
  m_size t0 = count (m_buckets t0) → (m_size t0 + 1) * 100 < m_capacity t0 * 80 →
  write_post (m_buckets t0) (m_size t0) (m_capacity t0) value beh r t' →
  set_post t value beh r t'.
Proof.
  intros Hh Hs Hcnt Hload (Hcap & Hwf' & Hr).
  assert (has_key (m_buckets t0) (key value) ↔ has_key (m_buckets t) (key value)) as Hk.
  { unfold has_key. by setoid_rewrite Hh. }
  destruct r.
  - destruct Hr as (Hn & [Hadd Hc] & Hs'). split.
    + right. split_and!; [by rewrite Hcap|lia|lia].
    + split_and!; [by rewrite <- Hk|lia|]. intros v. by rewrite Hadd, Hh.
  - destruct Hr as (-> & Hn & Hs' & Hc & Hv). split.
    + right. split_and!; [by rewrite Hcap|lia|lia].
    + split_and!; [done|by apply Hk|lia|]. intros v. by rewrite Hv, Hh.
  - destruct Hr as (-> & Hn & Hs' & Hb). split.
    + right. rewrite Hb in *. split_and!; [by rewrite Hcap|lia|lia].
    + split_and!; [done|by apply Hk|lia|]. intros v. by rewrite Hb, Hh.
Qed.

Lemma try_set_spec alloc_ok value beh t : wf t →
  (∃ r t', try_set alloc_ok value beh t = Ok (r, t') ∧ set_post t value beh r t') ∨
  (try_set alloc_ok value beh t = Err ENOMEM ∧ alloc_ok = false ∧ should_grow t = true).
Proof.
  intros Hwf. unfold try_set, should_grow.
  destruct (Nat.leb_spec (m_capacity t * 80) ((m_size t + 1) * 100)) as [Hg|Hg].
  - pose proof (try_rehash_spec alloc_ok (m_capacity t * 160 / 100) t Hwf) as Hre.
    destruct alloc_ok; [|rewrite Hre; by right].
    left. destruct Hre as (t0 & Hrun & Hb & Hs & Hsz & Hcap & Hh). rewrite Hrun. simpl.
    assert ((m_size t0 + 1) * 100 < m_capacity t0 * 80) as Hload.
    { destruct Hwf as [->|(_ & _ & ?)]; simpl in *; lia. }
    destruct (write_value_spec t0 value beh Hb ltac:(lia)) as (r & t' & Hw & Hpost).
    exists r, t'. split; [done|]. by eapply write_post_set.
  - left. destruct (wf_lt t Hwf ltac:(lia)) as (Hb & Hs & _).
    destruct (write_value_spec t value beh Hb ltac:(lia)) as (r & t' & Hw & Hpost).
    exists r, t'. split; [done|]. eapply write_post_set; done || lia.
Qed.

(** ** Refinement of a finite map from keys to entries *)
Context `{!Countable K}.

Definition models (t : HashTable) (m : gmap K T) : Prop :=
  wf t ∧ ∀ k v, m !! k = Some v ↔ holds (m_buckets t) v ∧ key v = k.

Lemma models_has_key t m k : models t m → has_key (m_buckets t) k ↔ is_Some (m !! k).
Proof. intros [_ Hm]. unfold has_key, is_Some. by setoid_rewrite Hm. Qed.

Lemma models_empty : models empty_table ∅.
Proof.
  split; [by left|]. intros k v. rewrite lookup_empty. split; [done|].
  by intros [(i & b & Hb & _) _].
Qed.

Lemma models_size t m : models t m → m_size t = size m.
Proof.
  intros [Hwf Hm].
  assert (m_size t = length (key <$> values t)) as ->.
  { rewrite length_fmap, count_values. by destruct Hwf as [->|(_ & -> & _)]. }
  assert (NoDup (key <$> values t)) as Hnd.
  { destruct Hwf as [->|([_ Hd] & _)]; [constructor|]. by apply values_NoDup_keys. }
  rewrite <- (size_list_to_set (C := gset K)) by done. rewrite <- size_dom. f_equal.
  apply set_eq. intros k. rewrite elem_of_list_to_set, list_elem_of_fmap, elem_of_dom.
  unfold is_Some. setoid_rewrite Hm. setoid_rewrite elem_of_values. naive_solver.
Qed.

(** The operations, their observable results, and the same on a finite map. *)
Inductive op := OpSet (v : T) (beh : HashSetExistingEntryBehavior) | OpRemove (k : K) | OpContains (k : K).
Inductive obs := ObsSet (r : HashSetResult) | ObsBool (b : bool).

Definition run_op (o : op) (t : HashTable) : outcome (obs * HashTable) :=
  match o with
  | OpSet v beh => '(r, t') ← try_set true v beh t; Ok (ObsSet r, t')
  | OpRemove k => '(b, t') ← remove t k; Ok (ObsBool b, t')
  | OpContains k => b ← contains t k; Ok (ObsBool b, t)
  end.

Definition spec_op (o : op) (m : gmap K T) : obs * gmap K T :=
  match o with
  | OpSet v beh =>
      match m !! key v, beh with
      | None, _ => (ObsSet InsertedNewEntry, <[key v := v]> m)
      | Some _, Replace => (ObsSet ReplacedExistingEntry, <[key v := v]> m)
      | Some _, Keep => (ObsSet KeptExistingEntry, m)
      end
  | OpRemove k => (ObsBool (bool_decide (is_Some (m !! k))), delete k m)
  | OpContains k => (ObsBool (bool_decide (is_Some (m !! k))), m)
  end.

Fixpoint run_ops (os : list op) (t : HashTable) : outcome (list obs * HashTable) :=
  match os with
  | [] => Ok ([], t)
  | o :: os => '(r, t1) ← run_op o t; '(rs, t2) ← run_ops os t1; Ok (r :: rs, t2)
  end.

Fixpoint spec_ops (os : list op) (m : gmap K T) : list obs * gmap K T :=
  match os with
  | [] => ([], m)
  | o :: os => let '(r, m1) := spec_op o m in
               let '(rs, m2) := spec_ops os m1 in (r :: rs, m2)
  end.

Lemma models_insert t m v t' : models t m → wf t' →
  (∀ w, holds (m_buckets t') w ↔ w = v ∨ (holds (m_buckets t) w ∧ key w ≠ key v)) →
  models t' (<[key v := v]> m).
Proof.
  intros [_ Hm] Hwf Hh. split; [done|]. intros k w. rewrite Hh.
  rewrite lookup_insert_Some, Hm. naive_solver.
Qed.

Lemma set_refines t m v beh : models t m →
  ∃ r t', try_set true v beh t = Ok (r, t') ∧
    fst (spec_op (OpSet v beh) m) = ObsSet r ∧ models t' (snd (spec_op (OpSet v beh) m)).
Proof.
  intros Hmod. pose proof (models_has_key t m (key v) Hmod) as Hk.
  destruct (try_set_spec true v beh t (proj1 Hmod)) as [(r & t' & Hrun & Hwf & Hpost)|(_ & [=] & _)].
  exists r, t'. split; [done|]. pose proof Hmod as [Hw Hm]. simpl. destruct r.
  - destruct Hpost as (Hn & _ & Hh). rewrite Hk, <- eq_None_not_Some in Hn. rewrite Hn. simpl.
    split; [done|]. eapply models_insert; [done..|]. intros w. rewrite Hh. split.
    + intros [Hw'| ->]; [|by left]. destruct (decide (key w = key v)) as [E|]; [|by right].
      assert (m !! key v = Some w) by (by apply Hm). congruence.
    + naive_solver.
  - destruct Hpost as (-> & [x Hx]%Hk & _ & Hh). rewrite Hx. simpl. split; [done|].
    by eapply models_insert.
  - destruct Hpost as (-> & [x Hx]%Hk & _ & Hh). rewrite Hx. simpl. split; [done|].
    split; [done|]. intros k w. by rewrite Hh.
Qed.

Lemma contains_refines t m k : models t m →
  contains t k = Ok (bool_decide (is_Some (m !! k))).
Proof.
  intros Hmod. pose proof (models_has_key t m k Hmod) as Hk. unfold contains.
  pose proof (find_spec t k (proj1 Hmod)) as Hf.
  destruct (find t k) as [[i|]| |]; try done; simpl; f_equal; symmetry.
  - destruct Hf as (v & Hu & E). apply bool_decide_eq_true. apply Hk. exists v. split; [by exists i|done].
  - apply bool_decide_eq_false. by rewrite <- Hk.
Qed.

Lemma remove_refines t m k : models t m →
  ∃ t', remove t k = Ok (bool_decide (is_Some (m !! k)), t') ∧ models t' (delete k m).
Proof.
  intros Hmod. pose proof (models_has_key t m k Hmod) as Hk.
  destruct (remove_spec t k (proj1 Hmod)) as (b & t' & Hrun & Hwf & Hb & _ & Hh).
  exists t'. rewrite Hrun. split.
  - do 2 f_equal. destruct b; symmetry; [apply bool_decide_eq_true|apply bool_decide_eq_false]; naive_solver.
  - split; [done|]. intros k' v. rewrite lookup_delete_Some, Hh, (proj2 Hmod). naive_solver.
Qed.

Lemma run_op_refines o t m : models t m →
  ∃ t', run_op o t = Ok (fst (spec_op o m), t') ∧ models t' (snd (spec_op o m)).
Proof.
  intros Hmod. destruct o as [v beh|k|k]; unfold run_op.
  - destruct (set_refines t m v beh Hmod) as (r & t' & -> & -> & Hm). by exists t'.
  - destruct (remove_refines t m k Hmod) as (t' & -> & Hm). by exists t'.
  - rewrite (contains_refines t m k Hmod). by exists t.
Qed.

Lemma run_ops_refines os t m : models t m →
  ∃ t', run_ops os t = Ok (fst (spec_ops os m), t') ∧ models t' (snd (spec_ops os m)).
Proof.
  revert t m. induction os as [|o os IH]; intros t m Hmod; simpl; [by exists t|].
  destruct (run_op_refines o t m Hmod) as (t1 & -> & Hm1).
  destruct (spec_op o m) as [r m1]. simpl in *.
  destruct (IH t1 m1 Hm1) as (t2 & -> & Hm2).
  destruct (spec_ops os m1) as [rs m2]. simpl in *. by exists t2.
Qed.

Lemma models_values t m : models t m → values t ≡ₚ (map_to_list m).*2.
Proof.
  intros [Hwf Hm].
  assert (NoDup (key <$> values t)) as Hnd.
  { destruct Hwf as [->|([_ Hd] & _)]; [constructor|]. by apply values_NoDup_keys. }
  apply NoDup_Permutation.
  - by eapply NoDup_fmap_1.
  - apply NoDup_fmap_2_strong; [|apply NoDup_map_to_list].
    intros [k1 v1] [k2 v2] H1%elem_of_map_to_list%Hm H2%elem_of_map_to_list%Hm E.
    naive_solver.
  - intros v. rewrite elem_of_values, list_elem_of_fmap. split.
    + intros Hv. exists (key v, v). split; [done|]. apply elem_of_map_to_list. by apply Hm.
    + intros ([k w] & -> & Hkw%elem_of_map_to_list%Hm). naive_solver.
Qed.

End HashTable.

Arguments Bucket : clear implicits.
Arguments HashTable : clear implicits.
Arguments op : clear implicits.

(** ** AK/HashMap.h

    A [HashMap] is a [HashTable] of entries hashed and compared by their key. *)
Section HashMap.
Context {K V : Type} `{Countable K}.
Variable hash : K -> Z.
Variable good_capacity : nat -> nat.

Definition hashmap_try_set (alloc_ok : bool) (k : K) (v : V) (t : HashTable (K * V)) :=
  try_set fst hash good_capacity alloc_ok (k, v) Replace t.

Definition hashmap_get (k : K) (t : HashTable (K * V)) : outcome (option V) :=
  it ← find fst hash t k;
  match it with
  | None => Ok None
  | Some i => b ← deref (m_buckets t !! i); e ← deref (slot b); Ok (Some (snd e))
  end.

Definition hashmap_remove (k : K) (t : HashTable (K * V)) : outcome (bool * HashTable (K * V)) :=
  remove fst hash t k.

Definition hashmap_take (k : K) (t : HashTable (K * V))
    : outcome (option V * HashTable (K * V)) :=
  it ← find fst hash t k;
  match it with
  | None => Ok (None, t)
  | Some i =>
      b ← deref (m_buckets t !! i); e ← deref (slot b);
      t' ← delete_bucket fst hash i t; Ok (Some (snd e), t')
  end.

(** [ensure(key, initialization_callback)]; [set] is [MUST(try_set(...))], and
    the result is the value found by the second [find]. *)
Definition hashmap_ensure (k : K) (init : V) (t : HashTable (K * V))
    : outcome (V * HashTable (K * V)) :=
  it ← find fst hash t k;
  match it with
  | Some i => b ← deref (m_buckets t !! i); e ← deref (slot b); Ok (snd e, t)
  | None =>
      '(r, t') ← hashmap_try_set true k init t;
      match r with
      | InsertedNewEntry =>
          it' ← find fst hash t' k; i ← deref it';
          b ← deref (m_buckets t' !! i); e ← deref (slot b); Ok (snd e, t')
      | _ => Panic
      end
  end.

(** The map a table stands for: keys to values. *)
Definition map_models (t : HashTable (K * V)) (m : gmap K V) : Prop :=
  wf fst hash t ∧ ∀ k v, m !! k = Some v ↔ holds (m_buckets t) (k, v).

Hypothesis good_capacity_ge : ∀ n, (n <= good_capacity n)%nat.

Lemma map_models_find t m k : map_models t m →
  match find fst hash t k with
  | Ok (Some i) => ∃ b v, m_buckets t !! i = Some b ∧ slot b = Some (k, v) ∧ m !! k = Some v
  | Ok None => m !! k = None
  | _ => False
  end.
Proof.
  intros [Hwf Hm]. pose proof (find_spec fst hash t k Hwf) as Hf.
  destruct (find fst hash t k) as [[i|]| |]; try done.
  - destruct Hf as ([k' v] & (b & Hb & Hs & Hsl) & E). simpl in E. subst k'.
    exists b, v. split_and!; try done. apply Hm. by exists i, b.
  - destruct (m !! k) as [v|] eqn:E; [|done]. destruct Hf.
    exists (k, v). split; [by apply Hm|done].
Qed.

Lemma map_models_has_key t m k : map_models t m →
  has_key fst (m_buckets t) k ↔ is_Some (m !! k).
Proof.
  intros [_ Hm]. split.
  - intros ([k' v] & Hh & <-). exists v. by apply Hm.
  - intros [v Hv]. exists (k, v). split; [by apply Hm|done].
Qed.

Lemma hashmap_set_models t m k v : map_models t m →
  ∃ t', hashmap_try_set true k v t =
          Ok (match m !! k with None => InsertedNewEntry | Some _ => ReplacedExistingEntry end, t')
        ∧ map_models t' (<[k := v]> m).
Proof.
  intros Hmod. pose proof (map_models_has_key t m k Hmod) as Hk. destruct Hmod as [Hwf Hm].
  destruct (try_set_spec fst hash good_capacity good_capacity_ge true (k, v) Replace t Hwf)
    as [(r & t' & Hrun & Hwf' & Hpost)|(_ & [=] & _)].
  exists t'. unfold hashmap_try_set. rewrite Hrun.
  destruct r; [| |by destruct Hpost as ([=] & _)].
  - destruct Hpost as (Hn & _ & Hh). simpl in Hn. rewrite Hk, <- eq_None_not_Some in Hn.
    rewrite Hn. split; [done|]. split; [done|]. intros k' v'.
    rewrite lookup_insert_Some, Hh, Hm. split; [naive_solver|].
    intros [Hx|[= -> ->]]; [|by left]. destruct (decide (k = k')) as [->|]; [|by right].
    apply Hm in Hx. congruence.
  - destruct Hpost as (_ & [x Hx]%Hk & _ & Hh). simpl in Hh, Hx. rewrite Hx. split; [done|].
    split; [done|]. intros k' v'. rewrite lookup_insert_Some, Hh, Hm. simpl. naive_solver.
Qed.

Lemma hashmap_get_models t m k : map_models t m → hashmap_get k t = Ok (m !! k).
Proof.
  intros Hmod. unfold hashmap_get. pose proof (map_models_find t m k Hmod) as Hf.
  destruct (find fst hash t k) as [[i|]| |]; try done; simpl.
  - destruct Hf as (b & v & -> & Hs & ->). simpl. by rewrite Hs.
  - by rewrite Hf.
Qed.

Lemma hashmap_remove_models t m k : map_models t m →
  ∃ t', hashmap_remove k t = Ok (bool_decide (is_Some (m !! k)), t') ∧ map_models t' (delete k m).
Proof.
  intros Hmod. pose proof (map_models_has_key t m k Hmod) as Hk. destruct Hmod as [Hwf Hm].
  destruct (remove_spec fst hash good_capacity t k Hwf) as (b & t' & Hrun & Hwf' & Hb & _ & Hh).
  exists t'. unfold hashmap_remove. rewrite Hrun. split.
  - do 2 f_equal. destruct b; symmetry; [apply bool_decide_eq_true|apply bool_decide_eq_false]; naive_solver.
  - split; [done|]. intros k' v. rewrite lookup_delete_Some, Hh, Hm. naive_solver.
Qed.

Lemma hashmap_take_models t m k : map_models t m →
  ∃ t', hashmap_take k t = Ok (m !! k, t') ∧ map_models t' (delete k m).
Proof.
  intros Hmod. pose proof (map_models_find t m k Hmod) as Hf.
  destruct (hashmap_remove_models t m k Hmod) as (t' & Hrem & Hmod').
  unfold hashmap_remove, remove in Hrem. unfold hashmap_take.
  destruct (find fst hash t k) as [[i|]| |]; try done; simpl in *.
  - destruct Hf as (b & v & Hb & Hs & Hv). rewrite Hb, Hv. simpl. rewrite Hs. simpl.
    destruct (delete_bucket fst hash i t) as [t''| |]; try done. simpl in *.
    exists t'. split; [|done]. by inversion Hrem.
  - inversion Hrem; subst. rewrite Hf. by exists t'.
Qed.

(** The laws of a map.  On a table that stands for the map [m], [set] then [get] returns the
    stored value and leaves every other key alone, [get] returns the value of
    [m], [take] and [remove] delete exactly the key, [ensure] returns the
    stored value or inserts the initial one; each call terminates without a
    failed assertion and leaves a table that stands for the updated map. *)
Theorem hashmap_laws (t : HashTable (K * V)) (m : gmap K V) (k : K) (v : V) :
  map_models t m →
  hashmap_get k t = Ok (m !! k) ∧
  (∃ r t', hashmap_try_set true k v t = Ok (r, t') ∧ map_models t' (<[k := v]> m) ∧
     ∀ k', hashmap_get k' t' = Ok (if decide (k = k') then Some v else m !! k')) ∧
  (∃ t', hashmap_take k t = Ok (m !! k, t') ∧ map_models t' (delete k m)) ∧
  (∃ t', hashmap_remove k t = Ok (bool_decide (is_Some (m !! k)), t') ∧
     map_models t' (delete k m)) ∧
  (∃ t', hashmap_ensure k v t = Ok (default v (m !! k), t') ∧
     map_models t' (match m !! k with Some _ => m | None => <[k := v]> m end)).
Proof.
  intros Hmod. destruct (hashmap_set_models t m k v Hmod) as (t' & Hset & Hmod').
  split_and!.
  - by apply hashmap_get_models.
  - exists (match m !! k with None => InsertedNewEntry | Some _ => ReplacedExistingEntry end), t'.
    split_and!; try done.
    intros k'. rewrite (hashmap_get_models t' _ k' Hmod'), lookup_insert. done.
  - by apply hashmap_take_models.
  - by apply hashmap_remove_models.
  - unfold hashmap_ensure. pose proof (map_models_find t m k Hmod) as Hf.
    destruct (find fst hash t k) as [[i|]| |]; try done; simpl.
    + destruct Hf as (b & x & Hb & Hs & Hx). rewrite Hb, Hx. simpl. rewrite Hs. by exists t.
    + rewrite Hset, Hf. simpl. pose proof (map_models_find t' _ k Hmod') as Hf'.
      destruct (find fst hash t' k) as [[i|]| |]; try done; simpl.
      * destruct Hf' as (b & x & Hb & Hs & Hx). rewrite Hb. simpl. rewrite Hs. simpl.
        rewrite lookup_insert_eq in Hx. injection Hx as ->. by exists t'.
      * by rewrite lookup_insert_eq in Hf'.
Qed.
End HashMap.

(** The kernel's [HashTable<GroupID>]: 8 byte buckets, [int_hash]. *)
Lemma gid_capacity_ge n : (n <= StdLibExtras.good_capacity 8 n)%nat.
Proof. by apply good_capacity_ge. Qed.


Lemma hashmap_laws_witness :
  map_models int_hash (empty_table : HashTable (Z * Z)) ∅ ∧
  hashmap_get int_hash 5%Z (empty_table : HashTable (Z * Z)) = Ok None.
Proof.
  assert (map_models int_hash (empty_table : HashTable (Z * Z)) ∅) as H.
  { split; [by left|]. intros k v. rewrite lookup_empty. split; [done|].
    by intros (i & b & Hb & _). }
  split; [exact H|].
  exact (proj1 (hashmap_laws int_hash (StdLibExtras.good_capacity 24)
    (fun n => good_capacity_ge 24 n eq_refl) empty_table ∅ 5%Z 7%Z H)).
Defined.
