(* ===== verification/Credentials.v ===== *)
(** * Process credentials and the set*id system calls

    Kernel/Security/Credentials, the protected data of Kernel/Tasks/Process,
    Process::require_promise, Kernel/Syscalls/setuid.cpp and getuid.cpp.

    A system call runs against [PS]: the calling process, the flag and the
    coredump properties a pledge violation sets, and the outcome of the
    allocations the call makes.  [heap] lists the results of the next
    [kmalloc] calls, so a theorem over all states covers every pattern of
    allocation failures; an exhausted list means that allocations succeed.

    Theorems: error paths leave the credentials alone, a changed effective ID
    clears [dumpable], no sequence of set*id calls gives an unprivileged
    process an ID it did not hold, setuid of root is irrevocable, setgroups
    installs exactly the requested groups, setreuid always fails. *)

From S2P Require Import Prelude StdLibExtras HashTable.

(** ** Data *)

(** [ENUMERATE_PLEDGE_PROMISES] of Kernel/Tasks/Process.h, in its order. *)
Inductive Pledge :=
  | stdio | rpath | wpath | cpath | dpath | inet | id | proc | ptrace | exec
  | unix | recvfd | sendfd | fattr | tty | chown | thread | video | accept
  | settime | sigaction | setkeymap | prot_exec | map_fixed | getkeymap
  | mount | unshare | no_error.

#[export] Instance Pledge_eq_dec : EqDecision Pledge.
Proof. solve_decision. Defined.

Definition all_pledges : list Pledge :=
  [stdio; rpath; wpath; cpath; dpath; inet; id; proc; ptrace; exec;
   unix; recvfd; sendfd; fattr; tty; chown; thread; video; accept;
   settime; sigaction; setkeymap; prot_exec; map_fixed; getkeymap;
   mount; unshare; no_error].

(** [(u32)pledge] *)
Definition pledge_index (p : Pledge) : Z :=
  match p with
  | stdio => 0 | rpath => 1 | wpath => 2 | cpath => 3 | dpath => 4 | inet => 5
  | id => 6 | proc => 7 | ptrace => 8 | exec => 9 | unix => 10 | recvfd => 11
  | sendfd => 12 | fattr => 13 | tty => 14 | chown => 15 | thread => 16
  | video => 17 | accept => 18 | settime => 19 | sigaction => 20
  | setkeymap => 21 | prot_exec => 22 | map_fixed => 23 | getkeymap => 24
  | mount => 25 | unshare => 26 | no_error => 27
  end.

(** [to_string(Pledge)] of Process.cpp *)
Definition pledge_to_string (p : Pledge) : string :=
  match p with
  | stdio => "stdio" | rpath => "rpath" | wpath => "wpath" | cpath => "cpath"
  | dpath => "dpath" | inet => "inet" | id => "id" | proc => "proc"
  | ptrace => "ptrace" | exec => "exec" | unix => "unix" | recvfd => "recvfd"
  | sendfd => "sendfd" | fattr => "fattr" | tty => "tty" | chown => "chown"
  | thread => "thread" | video => "video" | accept => "accept"
  | settime => "settime" | sigaction => "sigaction" | setkeymap => "setkeymap"
  | prot_exec => "prot_exec" | map_fixed => "map_fixed"
  | getkeymap => "getkeymap" | mount => "mount" | unshare => "unshare"
  | no_error => "no_error"
  end.

Record Credentials := mkCredentials
  { m_uid : Z; m_gid : Z; m_euid : Z; m_egid : Z; m_suid : Z; m_sgid : Z;
    m_extra_gids : list Z; m_sid : Z; m_pgid : Z }.

(** The part of [Process::ProtectedValues] the modelled calls read or write. *)
Record ProtectedValues := mkProtectedValues
  { pv_pid : Z; pv_ppid : Z; pv_credentials : Credentials;
    pv_process_group : option Z; pv_tty : option Z; pv_dumpable : bool;
    pv_has_promises : bool; pv_promises : Z;
    pv_has_execpromises : bool; pv_execpromises : Z }.

Definition set_credentials (c : Credentials) (p : ProtectedValues) : ProtectedValues :=
  mkProtectedValues (pv_pid p) (pv_ppid p) c (pv_process_group p) (pv_tty p) (pv_dumpable p)
    (pv_has_promises p) (pv_promises p) (pv_has_execpromises p) (pv_execpromises p).
Definition set_dumpable (d : bool) (p : ProtectedValues) : ProtectedValues :=
  mkProtectedValues (pv_pid p) (pv_ppid p) (pv_credentials p) (pv_process_group p) (pv_tty p) d
    (pv_has_promises p) (pv_promises p) (pv_has_execpromises p) (pv_execpromises p).

(** The state a system call of one process runs against. *)
Record PS := mkPS
  { protected : ProtectedValues;
    promise_violation_pending : bool;
    coredump_properties : list (string * string);
    heap : list bool }.

Definition with_mutable_protected_data (f : ProtectedValues -> ProtectedValues) : M PS unit :=
  modify (fun s => mkPS (f (protected s)) (promise_violation_pending s)
                        (coredump_properties s) (heap s)).
Definition set_promise_violation_pending (b : bool) : M PS unit :=
  modify (fun s => mkPS (protected s) b (coredump_properties s) (heap s)).

(** [kmalloc]: consumes the next entry of the allocation script. *)
Definition kmalloc : M PS bool := fun s =>
  match heap s with
  | [] => (Ok true, s)
  | b :: h => (Ok b, mkPS (protected s) (promise_violation_pending s) (coredump_properties s) h)
  end.
Definition or_enomem (m : M PS bool) : M PS unit :=
  ok ← m; if ok then kret tt else fail ENOMEM.

(** ** Kernel/Security/Credentials *)

Definition is_superuser (c : Credentials) : bool := m_euid c =? 0.

Definition in_group (c : Credentials) (gid : Z) : bool :=
  (m_gid c =? gid) || bool_decide (gid ∈ m_extra_gids c).

(** [FixedArray<GroupID>::create(span)] allocates unless the span is empty;
    then the [Credentials] object itself is allocated. *)
Definition Credentials_create (uid gid euid egid suid sgid : Z) (extra_gids : list Z)
    (sid pgid : Z) : M PS Credentials :=
  (match extra_gids with [] => kret tt | _ => or_enomem kmalloc end);;
  or_enomem kmalloc;;
  kret (mkCredentials uid gid euid egid suid sgid extra_gids sid pgid).

Definition credentials : M PS Credentials := gets (fun s => pv_credentials (protected s)).

(** ** Pledge enforcement *)

Definition has_promised (pledge : Pledge) (p : ProtectedValues) : bool :=
  negb (Z.land (pv_promises p) (Z.shiftl 1 (pledge_index pledge)) =? 0).

(** The first of the four slots that has no key; both strings are allocated
    before. *)
Definition try_set_coredump_property (key value : string) : M PS unit :=
  or_enomem kmalloc;;
  or_enomem kmalloc;;
  props ← gets coredump_properties;
  if Nat.ltb (length props) 4 then
    modify (fun s => mkPS (protected s) (promise_violation_pending s)
                          (props ++ [(key, value)]) (heap s))
  else fail ENOBUFS.

Definition require_promise (pledge : Pledge) : M PS unit :=
  p ← gets protected;
  if negb (pv_has_promises p) then kret tt
  else if has_promised pledge p then kret tt
  else
    set_promise_violation_pending true;;
    ignore_error (try_set_coredump_property "pledge_violation" (pledge_to_string pledge));;
    fail EPROMISEVIOLATION.

(** ** Kernel/Syscalls/setuid.cpp *)

(** [(uid_t)-1] and [(gid_t)-1] *)
Definition minus_one_id : Z := 4294967295.
Definition NGROUPS_MAX : Z := 32.

(** [if (old_id != new_id) protected_data.dumpable = false;] *)
Definition clear_dumpable_if (b : bool) : M PS unit :=
  if b then with_mutable_protected_data (set_dumpable false) else kret tt.

Definition sys_seteuid (new_euid : Z) : M PS Z :=
  require_promise id;;
  if new_euid =? minus_one_id then fail EINVAL else
  c ← credentials;
  if negb (new_euid =? m_uid c) && negb (new_euid =? m_suid c) && negb (is_superuser c)
  then fail EPERM else
  new_credentials ← Credentials_create (m_uid c) (m_gid c) new_euid (m_egid c) (m_suid c)
    (m_sgid c) (m_extra_gids c) (m_sid c) (m_pgid c);
  clear_dumpable_if (negb (m_euid c =? new_euid));;
  with_mutable_protected_data (set_credentials new_credentials);;
  kret 0.

Definition sys_setegid (new_egid : Z) : M PS Z :=
  require_promise id;;
  if new_egid =? minus_one_id then fail EINVAL else
  c ← credentials;
  if negb (new_egid =? m_gid c) && negb (new_egid =? m_sgid c) && negb (is_superuser c)
  then fail EPERM else
  new_credentials ← Credentials_create (m_uid c) (m_gid c) (m_euid c) new_egid (m_suid c)
    (m_sgid c) (m_extra_gids c) (m_sid c) (m_pgid c);
  clear_dumpable_if (negb (m_egid c =? new_egid));;
  with_mutable_protected_data (set_credentials new_credentials);;
  kret 0.

Definition sys_setuid (new_uid : Z) : M PS Z :=
  require_promise id;;
  if new_uid =? minus_one_id then fail EINVAL else
  c ← credentials;
  if negb (new_uid =? m_uid c) && negb (new_uid =? m_euid c) && negb (is_superuser c)
  then fail EPERM else
  new_credentials ← Credentials_create new_uid (m_gid c) new_uid (m_egid c) new_uid
    (m_sgid c) (m_extra_gids c) (m_sid c) (m_pgid c);
  clear_dumpable_if (negb (m_euid c =? new_uid));;
  with_mutable_protected_data (set_credentials new_credentials);;
  kret 0.

Definition sys_setgid (new_gid : Z) : M PS Z :=
  require_promise id;;
  if new_gid =? minus_one_id then fail EINVAL else
  c ← credentials;
  if negb (new_gid =? m_gid c) && negb (new_gid =? m_egid c) && negb (is_superuser c)
  then fail EPERM else
  new_credentials ← Credentials_create (m_uid c) new_gid (m_euid c) new_gid (m_suid c)
    new_gid (m_extra_gids c) (m_sid c) (m_pgid c);
  clear_dumpable_if (negb (m_egid c =? new_gid));;
  with_mutable_protected_data (set_credentials new_credentials);;
  kret 0.

(** The [ok] lambdas. *)
Definition ok_uid (c : Credentials) (id : Z) : bool :=
  (id =? m_uid c) || (id =? m_euid c) || (id =? m_suid c).
Definition ok_gid (c : Credentials) (id : Z) : bool :=
  (id =? m_gid c) || (id =? m_egid c) || (id =? m_sgid c).

(** [if (id == (uid_t)-1) id = current;] *)
Definition or_current (id current : Z) : Z := if id =? minus_one_id then current else id.

Definition sys_setreuid (new_ruid new_euid : Z) : M PS Z :=
  require_promise id;;
  c ← credentials;
  let new_ruid := or_current new_ruid (m_uid c) in
  let new_euid := or_current new_euid (m_euid c) in
  if negb (ok_uid c new_ruid) || negb (ok_uid c new_euid) then fail EPERM else
  if (new_ruid <? minus_one_id) || (new_euid <? minus_one_id) then fail EINVAL else
  new_credentials ← Credentials_create new_ruid (m_gid c) new_euid (m_egid c) (m_suid c)
    (m_sgid c) (m_extra_gids c) (m_sid c) (m_pgid c);
  clear_dumpable_if (negb (m_euid c =? new_euid));;
  with_mutable_protected_data (set_credentials new_credentials);;
  kret 0.

Definition sys_setresuid (new_ruid new_euid new_suid : Z) : M PS Z :=
  require_promise id;;
  c ← credentials;
  let new_ruid := or_current new_ruid (m_uid c) in
  let new_euid := or_current new_euid (m_euid c) in
  let new_suid := or_current new_suid (m_suid c) in
  if (negb (ok_uid c new_ruid) || negb (ok_uid c new_euid) || negb (ok_uid c new_suid))
     && negb (is_superuser c) then fail EPERM else
  new_credentials ← Credentials_create new_ruid (m_gid c) new_euid (m_egid c) new_suid
    (m_sgid c) (m_extra_gids c) (m_sid c) (m_pgid c);
  clear_dumpable_if (negb (m_euid c =? new_euid));;
  with_mutable_protected_data (set_credentials new_credentials);;
  kret 0.

Definition sys_setregid (new_rgid new_egid : Z) : M PS Z :=
  require_promise id;;
  c ← credentials;
  let new_rgid := or_current new_rgid (m_gid c) in
  let new_egid := or_current new_egid (m_egid c) in
  if negb (ok_gid c new_rgid) || negb (ok_gid c new_egid) then fail EPERM else
  new_credentials ← Credentials_create (m_uid c) new_rgid (m_euid c) new_egid (m_suid c)
    (m_sgid c) (m_extra_gids c) (m_sid c) (m_pgid c);
  clear_dumpable_if (negb (m_egid c =? new_egid));;
  with_mutable_protected_data (set_credentials new_credentials);;
  kret 0.

Definition sys_setresgid (new_rgid new_egid new_sgid : Z) : M PS Z :=
  require_promise id;;
  c ← credentials;
  let new_rgid := or_current new_rgid (m_gid c) in
  let new_egid := or_current new_egid (m_egid c) in
  let new_sgid := or_current new_sgid (m_sgid c) in
  if (negb (ok_gid c new_rgid) || negb (ok_gid c new_egid) || negb (ok_gid c new_sgid))
     && negb (is_superuser c) then fail EPERM else
  new_credentials ← Credentials_create (m_uid c) new_rgid (m_euid c) new_egid (m_suid c)
    new_sgid (m_extra_gids c) (m_sid c) (m_pgid c);
  clear_dumpable_if (negb (m_egid c =? new_egid));;
  with_mutable_protected_data (set_credentials new_credentials);;
  kret 0.

(** User memory behind a [Userspace<T const*>]: the elements, [None] where
    reading faults. *)
Definition Userspace (T : Type) : Type := nat -> option T.

Definition copy_n_from_user {T} (user : Userspace T) (count : Z) : M PS (list T) :=
  match mapM user (seq 0 (Z.to_nat count)) with
  | Some l => kret l
  | None => fail EFAULT
  end.

(** [HashTable<GroupID>::try_set]: [kcalloc] runs only when the table grows. *)
Definition gid_try_set (gid : Z) (t : HashTable Z) : M PS (HashTable Z) :=
  ok ← (if should_grow t then kmalloc else kret true);
  '(_, t') ← lift (try_set (fun g => g) int_hash (good_capacity 8) ok gid Replace t);
  kret t'.

(** [for (auto& extra_gid : new_extra_gids)] *)
Fixpoint collect_unique (gid : Z) (gids : list Z) (t : HashTable Z) : M PS (HashTable Z) :=
  match gids with
  | [] => kret t
  | g :: gids =>
      t' ← (if g =? gid then kret t else gid_try_set g t);
      collect_unique gid gids t'
  end.

(** The vector is refilled within the capacity it was resized to, so
    [try_append] does not allocate. *)
Definition sys_setgroups (count : Z) (user_gids : Userspace Z) : M PS Z :=
  require_promise id;;
  if NGROUPS_MAX <? count then fail EINVAL else
  c ← credentials;
  if negb (is_superuser c) then fail EPERM else
  if count =? 0 then
    new_credentials ← Credentials_create (m_uid c) (m_gid c) (m_euid c) (m_egid c) (m_suid c)
      (m_sgid c) [] (m_sid c) (m_pgid c);
    with_mutable_protected_data (set_credentials new_credentials);;
    kret 0
  else
    or_enomem kmalloc;;
    new_extra_gids ← copy_n_from_user user_gids count;
    unique_extra_gids ← collect_unique (m_gid c) new_extra_gids empty_table;
    new_credentials ← Credentials_create (m_uid c) (m_gid c) (m_euid c) (m_egid c) (m_suid c)
      (m_sgid c) (values unique_extra_gids) (m_sid c) (m_pgid c);
    with_mutable_protected_data (set_credentials new_credentials);;
    kret 0.

(** ** Kernel/Syscalls/getuid.cpp *)

Definition sys_getuid : M PS Z :=
  require_promise stdio;; c ← credentials; kret (m_uid c).
Definition sys_getgid : M PS Z :=
  require_promise stdio;; c ← credentials; kret (m_gid c).
Definition sys_geteuid : M PS Z :=
  require_promise stdio;; c ← credentials; kret (m_euid c).
Definition sys_getegid : M PS Z :=
  require_promise stdio;; c ← credentials; kret (m_egid c).

(** [writable] tells which of the user pointers can be written; the values
    copied out are the result. *)
Definition copy_to_user (writable : bool) (v : Z) : M PS Z :=
  if writable then kret v else fail EFAULT.

Definition sys_getresuid (w1 w2 w3 : bool) : M PS (Z * Z * Z) :=
  require_promise stdio;;
  c ← credentials;
  r ← copy_to_user w1 (m_uid c);
  e ← copy_to_user w2 (m_euid c);
  s ← copy_to_user w3 (m_suid c);
  kret (r, e, s).

Definition sys_getresgid (w1 w2 w3 : bool) : M PS (Z * Z * Z) :=
  require_promise stdio;;
  c ← credentials;
  r ← copy_to_user w1 (m_gid c);
  e ← copy_to_user w2 (m_egid c);
  s ← copy_to_user w3 (m_sgid c);
  kret (r, e, s).

(** Returns the value of the call and what it copied to [user_gids]. *)
Definition sys_getgroups (count : Z) (writable : bool) : M PS (Z * list Z) :=
  require_promise stdio;;
  c ← credentials;
  let size := Z.of_nat (length (m_extra_gids c)) in
  if count =? 0 then kret (size, []) else
  if negb (count =? size) then fail EINVAL else
  if writable then kret (0, m_extra_gids c) else fail EFAULT.

(** ** Specifications of the helpers *)

Lemma kmalloc_wp s (Q : outcome bool -> PS -> Prop) :
  (forall b s', protected s' = protected s -> Q (Ok b) s') -> wp kmalloc s Q.
Proof. intros H. unfold wp, kmalloc. destruct (heap s); by apply H. Qed.

Lemma or_enomem_wp s (Q : outcome unit -> PS -> Prop) :
  (forall s', protected s' = protected s -> Q (Ok tt) s') ->
  (forall s', protected s' = protected s -> Q (Err ENOMEM) s') ->
  wp (or_enomem kmalloc) s Q.
Proof.
  intros Hok Herr. unfold or_enomem. wp_step. apply kmalloc_wp. intros [] s' E; wp_step; eauto.
Qed.

(** Creating credentials returns them or fails with ENOMEM; the process does
    not change. *)
Lemma create_wp uid gid euid egid suid sgid extra sid pgid s Q :
  (forall s', protected s' = protected s ->
     Q (Ok (mkCredentials uid gid euid egid suid sgid extra sid pgid)) s') ->
  (forall s', protected s' = protected s -> Q (Err ENOMEM) s') ->
  wp (Credentials_create uid gid euid egid suid sgid extra sid pgid) s Q.
Proof.
  intros Hok Herr. unfold Credentials_create.
  assert (forall s', protected s' = protected s ->
    wp (or_enomem kmalloc;; kret (mkCredentials uid gid euid egid suid sgid extra sid pgid)) s' Q) as H2.
  { intros s' E. wp_step. apply or_enomem_wp; intros s2 E2.
    - wp_step. apply Hok. congruence.
    - apply Herr. congruence. }
  wp_step. destruct extra as [|g gs]; [wp_step; by apply H2|].
  apply or_enomem_wp; intros s' E; [by apply H2|by apply Herr].
Qed.

Lemma try_set_coredump_property_wp key value s (Q : outcome unit -> PS -> Prop) :
  (forall r s', r <> Panic -> protected s' = protected s -> Q r s') ->
  wp (try_set_coredump_property key value) s Q.
Proof.
  intros H. unfold try_set_coredump_property.
  wp_step. apply or_enomem_wp; intros s1 E1; [|by apply H].
  wp_step. apply or_enomem_wp; intros s2 E2; [|apply H; [done|congruence]].
  wp_steps; apply H; simpl; congruence.
Qed.

(** A pledged-away promise is an error with the violation flag set. *)
Lemma require_promise_wp p s (Q : outcome unit -> PS -> Prop) :
  (pv_has_promises (protected s) = false \/ has_promised p (protected s) = true -> Q (Ok tt) s) ->
  (forall s', pv_has_promises (protected s) = true -> has_promised p (protected s) = false ->
     protected s' = protected s -> Q (Err EPROMISEVIOLATION) s') ->
  wp (require_promise p) s Q.
Proof.
  intros Hok Herr. unfold require_promise. wp_steps; bool_hyps.
  - apply Hok. by left.
  - apply Hok. by right.
  - unfold set_promise_violation_pending. wp_steps. apply wp_ignore_error.
    apply try_set_coredump_property_wp. intros r s' Hr E.
    destruct r; try done; wp_step; by apply Herr.
Qed.

(** ** The set*id calls as one family *)

Inductive setid_call :=
  | SetEUID (euid : Z) | SetEGID (egid : Z) | SetUID (uid : Z) | SetGID (gid : Z)
  | SetREUID (ruid euid : Z) | SetRESUID (ruid euid suid : Z)
  | SetREGID (rgid egid : Z) | SetRESGID (rgid egid sgid : Z)
  | SetGroups (count : Z) (user_gids : Userspace Z).

Definition run_setid (c : setid_call) : M PS Z :=
  match c with
  | SetEUID e => sys_seteuid e
  | SetEGID e => sys_setegid e
  | SetUID u => sys_setuid u
  | SetGID g => sys_setgid g
  | SetREUID r e => sys_setreuid r e
  | SetRESUID r e s => sys_setresuid r e s
  | SetREGID r e => sys_setregid r e
  | SetRESGID r e s => sys_setresgid r e s
  | SetGroups n u => sys_setgroups n u
  end.

(** The IDs a process can act with. *)
Definition uids (c : Credentials) : gset Z := {[m_uid c; m_euid c; m_suid c]}.
Definition gids (c : Credentials) : gset Z := {[m_gid c; m_egid c; m_sgid c]}.

(** What a successful call may do to the credentials. *)
Record setid_allowed (c c' : Credentials) : Prop := {
  allowed_uids : is_superuser c = false -> uids c' ⊆ uids c;
  allowed_gids : is_superuser c = false -> gids c' ⊆ gids c;
  allowed_extra : is_superuser c = false -> m_extra_gids c' = m_extra_gids c;
  allowed_session : m_sid c' = m_sid c /\ m_pgid c' = m_pgid c }.

(** The protected data after a call: new credentials, [dumpable] cleared when
    an effective ID changed, nothing else. *)
Definition setid_effect (p p' : ProtectedValues) : Prop :=
  exists c' d, p' = set_credentials c' (set_dumpable d p) /\
    setid_allowed (pv_credentials p) c' /\
    (d = false \/ (d = pv_dumpable p /\ m_euid c' = m_euid (pv_credentials p)
                   /\ m_egid c' = m_egid (pv_credentials p))).

Definition setid_post (p : ProtectedValues) (r : outcome Z) (s' : PS) : Prop :=
  match r with
  | Ok _ => setid_effect p (protected s')
  | Err _ => protected s' = p
  | Panic => False
  end.

(** The common tail of the calls: create, clear [dumpable] if an effective ID
    changed, install. *)
Lemma install_wp (b : bool) s s0 c' :
  protected s = protected s0 ->
  setid_allowed (pv_credentials (protected s0)) c' ->
  (b = false -> m_euid c' = m_euid (pv_credentials (protected s0))
                /\ m_egid c' = m_egid (pv_credentials (protected s0))) ->
  wp (Credentials_create (m_uid c') (m_gid c') (m_euid c') (m_egid c')
        (m_suid c') (m_sgid c') (m_extra_gids c') (m_sid c') (m_pgid c')) s
    (fun r s1 =>
       match r with
       | Ok new_credentials =>
           wp (clear_dumpable_if b;;
               with_mutable_protected_data (set_credentials new_credentials);;
               kret 0) s1 (setid_post (protected s0))
       | Err e => setid_post (protected s0) (Err e) s1
       | Panic => setid_post (protected s0) Panic s1
       end).
Proof.
  intros E Hal Hb. destruct c'. apply create_wp; intros s' E'; [|simpl; congruence].
  unfold clear_dumpable_if, with_mutable_protected_data. wp_steps; simpl; rewrite E', E.
  - eexists _, false. split_and!; [done|done|by left].
  - eexists _, (pv_dumpable (protected s0)).
    split_and!; [by destruct (protected s0)|done|]. right. by split; [|apply Hb].
Qed.

Lemma gid_try_set_wp g t s (Q : outcome (HashTable Z) -> PS -> Prop) :
  wf (fun g => g) int_hash t ->
  (forall t' s', protected s' = protected s -> wf (fun g => g) int_hash t' ->
     (forall x, holds (m_buckets t') x <-> holds (m_buckets t) x \/ x = g) -> Q (Ok t') s') ->
  (forall s', protected s' = protected s -> Q (Err ENOMEM) s') ->
  wp (gid_try_set g t) s Q.
Proof.
  intros Hwf Hok Herr. unfold gid_try_set.
  assert (forall ok s', protected s' = protected s ->
    wp ('(_, t') ← lift (try_set (fun g => g) int_hash (good_capacity 8) ok g Replace t); kret t') s' Q)
    as Hset.
  { intros ok s' E. wp_steps.
    destruct (try_set_spec (fun g => g) int_hash (good_capacity 8) gid_capacity_ge ok g Replace t Hwf)
      as [(r & t' & -> & Hwf' & Hr)|(-> & _)]; [|by apply Herr].
    wp_steps. apply Hok; [done|done|]. destruct r; [naive_solver| |naive_solver].
    destruct Hr as (_ & _ & _ & Hh). intros x. rewrite Hh. destruct (decide (x = g)); naive_solver. }
  wp_step. apply wp_if; intros _.
  - apply kmalloc_wp. intros b s' E. by apply Hset.
  - apply wp_kret. by apply Hset.
Qed.

(** The loop over the requested groups collects every one but the primary. *)
Lemma collect_unique_wp gid gs t s (Q : outcome (HashTable Z) -> PS -> Prop) :
  wf (fun g => g) int_hash t ->
  (forall t' s', protected s' = protected s -> wf (fun g => g) int_hash t' ->
     (forall x, holds (m_buckets t') x <-> holds (m_buckets t) x \/ (x ∈ gs /\ x <> gid)) ->
     Q (Ok t') s') ->
  (forall s', protected s' = protected s -> Q (Err ENOMEM) s') ->
  wp (collect_unique gid gs t) s Q.
Proof.
  revert t s. induction gs as [|g gs IH]; intros t s Hwf Hok Herr; cbn [collect_unique].
  { wp_step. apply Hok; [done|done|]. intros x. set_solver. }
  wp_step. destruct (Z.eqb_spec g gid) as [->|Hne].
  - wp_step. apply IH; [done| |done]. intros t' s' E Hwf' Hh. apply Hok; [done|done|].
    intros x. rewrite Hh. set_solver.
  - apply gid_try_set_wp; [done| |done]. intros t1 s1 E1 Hwf1 Hh1.
    apply IH; [done| |intros; apply Herr; congruence]. intros t' s' E Hwf' Hh.
    apply Hok; [congruence|done|]. intros x. rewrite Hh, Hh1. set_solver.
Qed.

Lemma copy_n_from_user_wp {T} (user : Userspace T) count s (Q : outcome (list T) -> PS -> Prop) :
  (forall l, mapM user (seq 0 (Z.to_nat count)) = Some l -> Q (Ok l) s) -> Q (Err EFAULT) s ->
  wp (copy_n_from_user user count) s Q.
Proof. intros Hok Herr. unfold copy_n_from_user. destruct (mapM _ _); wp_step; auto. Qed.

(** Applies [install_wp] to the credentials the code builds. *)
Ltac install s0 :=
  lazymatch goal with
  | |- wp (Credentials_create ?a ?b ?c ?d ?e ?f ?g ?h ?i) _ _ =>
      apply (install_wp _ _ s0 (mkCredentials a b c d e f g h i)); simpl
  end.

Lemma allowed_superuser c c' :
  is_superuser c = true -> m_sid c' = m_sid c -> m_pgid c' = m_pgid c -> setid_allowed c c'.
Proof. intros H ??. split; congruence || done. Qed.

Lemma ok_uid_spec c i : ok_uid c i = true <-> i ∈ uids c.
Proof.
  unfold ok_uid, uids. rewrite !orb_true_iff, !Z.eqb_eq. set_solver.
Qed.
Lemma ok_gid_spec c i : ok_gid c i = true <-> i ∈ gids c.
Proof.
  unfold ok_gid, gids. rewrite !orb_true_iff, !Z.eqb_eq. set_solver.
Qed.
Create Rewrite HintDb setid.
#[export] Hint Rewrite ok_uid_spec ok_gid_spec : setid.

(** The side conditions of [install_wp]. *)
Ltac solve_allowed :=
  bool_hyps; autorewrite with setid in *;
  repeat match goal with
    | |- setid_allowed _ _ => first [ apply allowed_superuser; done | split; simpl; try done; intros _ ]
    | |- _ /\ _ => split
    | |- _ -> _ => intros ?
    end; bool_hyps; unfold uids, gids in *; simpl in *; subst; try done; try congruence; try set_solver.

(** Credentials with other supplementary groups. *)
Definition with_extra_gids (l : list Z) (c : Credentials) : Credentials :=
  mkCredentials (m_uid c) (m_gid c) (m_euid c) (m_egid c) (m_suid c) (m_sgid c) l
    (m_sid c) (m_pgid c).

Definition setgroups_post (count : Z) (user : Userspace Z) (p : ProtectedValues)
    (r : outcome Z) (s' : PS) : Prop :=
  match r with
  | Ok v =>
      let c := pv_credentials p in
      v = 0 /\ is_superuser c = true /\
      exists l, protected s' = set_credentials (with_extra_gids l c) p /\ NoDup l /\
        forall x, x ∈ l <->
          (exists i, (i < Z.to_nat count)%nat /\ user i = Some x) /\ x <> m_gid c
  | Err e => protected s' = p
  | Panic => False
  end.

Lemma mapM_seq_elem {T} (user : Userspace T) n l x :
  mapM user (seq 0 n) = Some l -> x ∈ l <-> exists i, (i < n)%nat /\ user i = Some x.
Proof.
  intros Hl%mapM_Some. rewrite list_elem_of_lookup. split.
  - intros (i & Hi). destruct (Forall2_lookup_r _ _ _ _ _ Hl Hi) as (j & Hj & Hu).
    apply lookup_seq in Hj as [-> ?]. eauto.
  - intros (i & Hi & Hu).
    destruct (Forall2_lookup_l _ _ _ i i Hl) as (y & Hy & Hy'); [by apply lookup_seq|].
    exists i. congruence.
Qed.

Lemma setgroups_wp count user s :
  wp (sys_setgroups count user) s (setgroups_post count user (protected s)).
Proof.
  unfold sys_setgroups, credentials. wp_step. apply require_promise_wp; [intros _|done].
  wp_steps; bool_hyps; try done.
  - subst count. apply create_wp; intros s1 E1; [|done].
    unfold with_mutable_protected_data. wp_steps. simpl. rewrite E1. split_and!; try done.
    exists []. split_and!; [done|constructor|]. intros x. split; [set_solver|].
    intros [(i & Hi & _) _]. simpl in Hi. lia.
  - apply or_enomem_wp; intros s1 E1; [|done]. wp_step.
    apply copy_n_from_user_wp; [intros l Hl|done]. wp_step.
    apply collect_unique_wp; [by left| |intros; simpl; congruence].
    intros t' s2 E2 Hwf Hh. wp_step. apply create_wp; intros s3 E3; [|simpl; congruence].
    unfold with_mutable_protected_data. wp_steps. simpl. split_and!; try done.
    exists (values t'). split_and!; [by rewrite E3, E2, E1| |].
    + destruct Hwf as [->|([_ Hd] & _)]; [constructor|].
      pose proof (values_NoDup_keys _ _ Hd) as Hn. unfold values. by rewrite list_fmap_id in Hn.
    + intros x. rewrite elem_of_values, Hh, (mapM_seq_elem user _ _ _ Hl).
      split; [intros [(i & b & Hb & _)|?]; done|by right].
Qed.

(** Every call of the family either fails and leaves the process unchanged, or
    changes its credentials within [setid_effect]; none fails an assertion. *)
Lemma run_setid_wp c s : wp (run_setid c) s (setid_post (protected s)).
Proof.
  destruct c; cbn [run_setid];
    [unfold sys_seteuid, sys_setegid, sys_setuid, sys_setgid, sys_setreuid, sys_setresuid,
       sys_setregid, sys_setresgid, credentials;
     wp_step; apply require_promise_wp;
       [intros _; wp_steps; try done; install s; solve_allowed|done]..|].
  eapply wp_mono; [apply setgroups_wp|]. intros r s' Hpost. destruct r; try done.
  destruct Hpost as (_ & Hsu & l & E & _). 
  exists (with_extra_gids l (pv_credentials (protected s))), (pv_dumpable (protected s)).
  split_and!; [rewrite E; by destruct (protected s)|by apply allowed_superuser|by right].
Qed.

(** ** Sequences of calls *)

Definition run_setids (cs : list setid_call) (s : PS) : PS :=
  foldl (fun s c => snd (run_setid c s)) s cs.

Definition unprivileged (c : Credentials) : Prop := 0 ∉ uids c.

#[export] Instance unprivileged_dec c : Decision (unprivileged c).
Proof. unfold unprivileged. apply _. Defined.

(** [c'] holds no user, group or supplementary group that [c] does not. *)
Record confined (c c' : Credentials) : Prop := {
  confined_uids : uids c' ⊆ uids c;
  confined_gids : gids c' ⊆ gids c;
  confined_extra : m_extra_gids c' = m_extra_gids c }.

#[export] Instance confined_preorder : PreOrder confined.
Proof.
  split; [intros c; by split|]. intros c1 c2 c3 [] []. split; set_solver || congruence.
Qed.

Lemma confined_unprivileged c c' : unprivileged c -> confined c c' -> unprivileged c'.
Proof. unfold unprivileged. intros H [Hu _ _]. set_solver. Qed.

Lemma unprivileged_superuser c : unprivileged c -> is_superuser c = false.
Proof. unfold unprivileged, uids, is_superuser. intros H. apply Z.eqb_neq. set_solver. Qed.

Lemma run_setid_confined c s :
  unprivileged (pv_credentials (protected s)) ->
  confined (pv_credentials (protected s)) (pv_credentials (protected (snd (run_setid c s)))).
Proof.
  intros Hu. pose proof (run_setid_wp c s) as Hw. unfold wp, setid_post in Hw.
  destruct (run_setid c s) as [r s']; simpl in *. destruct r; [|by rewrite Hw|done].
  destruct Hw as (c' & d & -> & Ha & _). simpl. apply unprivileged_superuser in Hu.
  destruct Ha. split; auto.
Qed.

Lemma run_setids_confined cs s :
  unprivileged (pv_credentials (protected s)) ->
  confined (pv_credentials (protected s)) (pv_credentials (protected (run_setids cs s))).
Proof.
  unfold run_setids. revert s. induction cs as [|c cs IH]; intros s Hu; simpl; [done|].
  pose proof (run_setid_confined c s Hu) as Hc.
  transitivity (pv_credentials (protected (snd (run_setid c s)))); [done|].
  by eapply IH, confined_unprivileged.
Qed.

(** ** Properties *)

(** C1: a process none of whose real, effective and saved user IDs is root cannot
    gain any identity: whatever sequence of set*id and setgroups calls it makes,
    succeeding or failing, the user IDs, group IDs and supplementary groups it ends
    with are among those it started with. *)
Theorem no_privilege_escalation cs s :
  unprivileged (pv_credentials (protected s)) ->
  confined (pv_credentials (protected s)) (pv_credentials (protected (run_setids cs s))).
Proof. apply run_setids_confined. Qed.

Definition example_state (c : Credentials) (h : list bool) : PS :=
  mkPS (mkProtectedValues 7 1 c None None true false 0 false 0) false [] h.

(** A process of user 100 that alternates its effective ID with the saved one 200. *)
Definition example_user : Credentials := mkCredentials 100 10 100 10 200 10 [20; 30] 1 1.

Lemma no_privilege_escalation_witness :
  unprivileged (pv_credentials (protected (example_state example_user []))) /\
  confined example_user (pv_credentials (protected
    (run_setids [SetEUID 200; SetUID 0; SetRESUID 100 200 100; SetGroups 0 (fun _ => None)]
       (example_state example_user [])))) /\
  m_euid (pv_credentials (protected (run_setids [SetEUID 200] (example_state example_user [])))) = 200.
Proof.
  split_and!; [by apply (bool_decide_eq_true_1 _)| |reflexivity].
  apply (no_privilege_escalation _ (example_state example_user [])). by apply (bool_decide_eq_true_1 _).
Defined.

(** Every set*id call and setgroups either returns an error and leaves the
    protected data of the process as it was, or installs credentials and touches
    nothing but them and the dumpable flag; without superuser rights no identity is
    gained, session and process group never change, and a change of the effective
    user or group ID clears the dumpable flag. No call fails an assertion. *)
Theorem setid_call_effect c s :
  let p := protected s in
  let '(r, s') := run_setid c s in
  match r with
  | Ok _ => setid_effect p (protected s')
  | Err _ => protected s' = p
  | Panic => False
  end.
Proof. pose proof (run_setid_wp c s) as Hw. unfold wp in Hw. by destruct (run_setid c s). Qed.

(** When the superuser calls setuid with another user's ID and the call
    succeeds, all three user IDs become that ID and no later sequence of set*id and
    setgroups calls brings any other back. *)
Theorem setuid_irrevocable uid s s' cs v :
  uid <> 0 -> sys_setuid uid s = (Ok v, s') ->
  let c := pv_credentials (protected (run_setids cs s')) in
  m_uid c = uid /\ m_euid c = uid /\ m_suid c = uid.
Proof.
  intros Hne Hcall. assert (uids (pv_credentials (protected s')) = {[uid; uid; uid]}) as E.
  { assert (wp (sys_setuid uid) s (fun r s' => match r with
      Ok _ => uids (pv_credentials (protected s')) = {[uid; uid; uid]} | _ => True end)) as Hw.
    { unfold sys_setuid, credentials. wp_step. apply require_promise_wp; [intros _|done].
      wp_steps; try done. apply create_wp; intros s1 _; [|done].
      unfold clear_dumpable_if, with_mutable_protected_data. wp_steps; done. }
    unfold wp in Hw. by rewrite Hcall in Hw. }
  assert (unprivileged (pv_credentials (protected s'))) as Hu.
  { unfold unprivileged. rewrite E. set_solver. }
  destruct (run_setids_confined cs s' Hu) as [Hc _ _]. rewrite E in Hc.
  unfold uids in Hc. simpl. generalize (pv_credentials (protected (run_setids cs s'))) as c, Hc.
  clear. intros c Hc. split_and!; [assert (m_uid c ∈@{gset Z} {[uid; uid; uid]})|
    assert (m_euid c ∈@{gset Z} {[uid; uid; uid]})|assert (m_suid c ∈@{gset Z} {[uid; uid; uid]})]; set_solver.
Qed.

Lemma setuid_irrevocable_witness :
  exists s', sys_setuid 100 (example_state (mkCredentials 0 0 0 0 0 0 [] 1 1) []) = (Ok 0, s') /\
    let c := pv_credentials (protected (run_setids [SetUID 0; SetRESUID 0 0 0] s')) in
    m_uid c = 100 /\ m_euid c = 100 /\ m_suid c = 100.
Proof.
  eexists. split; [reflexivity|].
  eapply (setuid_irrevocable 100 (example_state (mkCredentials 0 0 0 0 0 0 [] 1 1) []));
    [done|reflexivity].
Defined.

(** Setgroups succeeds only for the superuser, and then the supplementary groups
    are exactly the requested ones without the primary group, each once; nothing else
    of the process changes. Any failure leaves the process unchanged. *)
Theorem setgroups_exact count user s :
  let p := protected s in
  let c := pv_credentials p in
  let '(r, s') := sys_setgroups count user s in
  match r with
  | Ok v =>
      v = 0 /\ is_superuser c = true /\
      exists l, protected s' = set_credentials (with_extra_gids l c) p /\ NoDup l /\
        forall x, x ∈ l <->
          (exists i, (i < Z.to_nat count)%nat /\ user i = Some x) /\ x <> m_gid c
  | Err e => protected s' = p
  | Panic => False
  end.
Proof.
  pose proof (setgroups_wp count user s) as Hw. unfold wp in Hw.
  by destruct (sys_setgroups count user s).
Qed.

(** What POSIX lets setresuid install: every requested ID must be one of the three
    current ones unless the caller is the superuser. *)
Definition resuid_permitted (c : Credentials) (ids : list Z) : Prop :=
  is_superuser c = true \/ Forall (fun id => id = minus_one_id \/ id ∈ uids c) ids.

Lemma or_current_uids c i j :
  j ∈ uids c -> ok_uid c (or_current i j) = true <-> i = minus_one_id \/ i ∈ uids c.
Proof.
  intros Hj. rewrite ok_uid_spec. unfold or_current.
  destruct (Z.eqb_spec i minus_one_id); naive_solver.
Qed.

Definition promised_id (p : ProtectedValues) : Prop :=
  pv_has_promises p = false \/ has_promised id p = true.

Lemma require_promise_ok s : promised_id (protected s) -> require_promise id s = (Ok tt, s).
Proof.
  unfold promised_id, require_promise, gets. simpl. by intros [-> | ->]; [|destruct (negb _)].
Qed.

Lemma create_ok uid gid euid egid suid sgid extra sid pgid s :
  heap s = [] ->
  Credentials_create uid gid euid egid suid sgid extra sid pgid s =
    (Ok (mkCredentials uid gid euid egid suid sgid extra sid pgid), s).
Proof.
  intros Hh. unfold Credentials_create, or_enomem, kmalloc. simpl.
  destruct extra; simpl; by rewrite !Hh.
Qed.

Lemma resuid_permitted_spec c r e u :
  (negb (ok_uid c (or_current r (m_uid c))) || negb (ok_uid c (or_current e (m_euid c)))
   || negb (ok_uid c (or_current u (m_suid c)))) && negb (is_superuser c) = false
  <-> resuid_permitted c [r; e; u].
Proof.
  unfold resuid_permitted. rewrite !Forall_cons, Forall_nil.
  rewrite <- (or_current_uids c r (m_uid c)), <- (or_current_uids c e (m_euid c)),
    <- (or_current_uids c u (m_suid c)) by (unfold uids; set_solver).
  destruct (ok_uid c (or_current r _)), (ok_uid c (or_current e _)),
    (ok_uid c (or_current u _)), (is_superuser c); simpl; naive_solver.
Qed.

(** Setresuid is complete and exact: for a process that may use it and with memory
    available it succeeds precisely when every requested ID is permitted, then installs
    the requested real, effective and saved user IDs, -1 standing for the current one,
    and otherwise fails with EPERM. *)
Theorem setresuid_exact ruid euid suid s :
  promised_id (protected s) -> heap s = [] ->
  let c := pv_credentials (protected s) in
  let '(r, s') := sys_setresuid ruid euid suid s in
  (resuid_permitted c [ruid; euid; suid] /\ r = Ok 0 /\
   let c' := pv_credentials (protected s') in
   m_uid c' = or_current ruid (m_uid c) /\ m_euid c' = or_current euid (m_euid c) /\
   m_suid c' = or_current suid (m_suid c)) \/
  (~ resuid_permitted c [ruid; euid; suid] /\ r = Err EPERM /\ s' = s).
Proof.
  intros Hp Hh c. unfold sys_setresuid, credentials, gets. simpl.
  rewrite require_promise_ok by done. simpl. fold c.
  pose proof (resuid_permitted_spec c ruid euid suid) as Hiff.
  destruct (_ && _).
  - right. simpl. split_and!; [rewrite <- Hiff; done|done|done].
  - simpl. rewrite create_ok by done.
    unfold clear_dumpable_if, with_mutable_protected_data, modify. simpl.
    destruct (negb _); simpl; left; (split_and!; [by apply Hiff|done..]).
Qed.

Lemma setresuid_exact_witness :
  let s := example_state example_user [] in
  promised_id (protected s) /\ heap s = [] /\
  let '(r, s') := sys_setresuid 200 minus_one_id 100 s in
  (resuid_permitted example_user [200; minus_one_id; 100] /\ r = Ok 0 /\
   let c' := pv_credentials (protected s') in
   m_uid c' = 200 /\ m_euid c' = 100 /\ m_suid c' = 100) \/
  (~ resuid_permitted example_user [200; minus_one_id; 100] /\ r = Err EPERM /\ s' = s).
Proof.
  split_and!; [by left|done|].
  apply (setresuid_exact 200 minus_one_id 100 (example_state example_user [])); [by left|done].
Defined.

(** Sys$setreuid can never succeed for a process whose user IDs are proper IDs (below
    (uid_t)-1): after the permission check both IDs are among the current ones, and the
    following comparison with (uid_t)-1 rejects exactly those. *)
Theorem setreuid_always_fails ruid euid s :
  (forall u, u ∈ uids (pv_credentials (protected s)) -> u < minus_one_id) ->
  exists e s', sys_setreuid ruid euid s = (Err e, s') /\ protected s' = protected s.
Proof.
  intros Hids.
  assert (wp (sys_setreuid ruid euid) s (fun r s' =>
    match r with Err _ => protected s' = protected s | _ => False end)) as Hw.
  { unfold sys_setreuid, credentials. wp_step. apply require_promise_wp; [intros _|done].
    wp_steps; try done. bool_hyps. rewrite !ok_uid_spec in *.
    exfalso. pose proof (Hids (or_current ruid (m_uid (pv_credentials (protected s))))) as Hlt.
    specialize (Hlt ltac:(done)). lia. }
  unfold wp in Hw. destruct (sys_setreuid ruid euid s) as [[]]; naive_solver.
Qed.

Lemma setreuid_always_fails_witness :
  exists e s', sys_setreuid minus_one_id 200 (example_state example_user []) = (Err e, s') /\
    protected s' = protected (example_state example_user []).
Proof.
  apply (setreuid_always_fails minus_one_id 200 (example_state example_user [])).
  intros u Hu. unfold uids in Hu. simpl in Hu. unfold minus_one_id. set_solver by lia.
Defined.
