(* ===== verification/Pledge.v ===== *)
(** * pledge: Kernel/Syscalls/pledge.cpp

    [sys_pledge] on the protected data of a process ([Credentials.PS]): it copies
    the two promise strings from user memory, parses them into bit masks and
    narrows the promises of the process and those of its next program.  The
    theorems: parsing yields exactly the named promises, the outcome of a call is
    determined on every branch, and no sequence of calls gives a promise back. *)

From S2P Require Import Prelude MemMem StringView HashTable Credentials.

Definition bytes_of (s : string) : list Z :=
  map char_value (String.list_ascii_of_string s).

(** [sizeof(#x) + 1] for every promise, less the last space; [sizeof] counts the
    terminating null byte. *)
Definition all_promises_strings_length_with_spaces : nat :=
  foldr (fun p n => String.length (pledge_to_string p) + 1 + 1 + n)%nat 0%nat all_pledges - 1.

(** [Syscall::StringArgument]: [None] when [characters] is null. *)
Definition StringArgument : Type := option (UserString * Z).
Record SC_pledge_params := mk_SC_pledge_params
  { arg_promises : StringArgument; arg_execpromises : StringArgument }.

(** The [if (part == #x##sv)] chain. *)
Definition pledge_of (part : list Z) : option Pledge :=
  List.find (fun p => bool_decide (part = bytes_of (pledge_to_string p))) all_pledges.

(** The callback of [parse_pledge] on the mask and [found_invalid_pledge], which is
    true as long as every part was valid. *)
Definition parse_part (part : list Z) (acc : Z * bool) : Z * bool :=
  let '(mask, valid) := acc in
  match pledge_of part with
  | Some p => (Z.lor mask (Z.shiftl 1 (pledge_index p)), valid)
  | None => (mask, false)
  end.

Definition parse_pledge (pledge_spec : list Z) (mask : Z) : outcome (Z * bool) :=
  for_each_split_view pledge_spec [32] SplitBehavior_Nothing parse_part (mask, true).

(** [if (params.promises.characters) promises = TRY(get_syscall_string_fixed_buffer(...))] *)
Definition get_promises_string (a : StringArgument) : outcome (option (list Z)) :=
  match a with
  | None => kret None
  | Some (user, length_) =>
      buffer ← try_copy_string_from_user_into_fixed_string_buffer
                 all_promises_strings_length_with_spaces user length_;
      kret (Some (representable_view buffer))
  end.

(** [if (promises_provided) if (!parse_pledge(promises, new_promises)) return EINVAL;] *)
Definition parse_promises (spec : option (list Z)) : outcome Z :=
  match spec with
  | None => kret 0
  | Some spec =>
      '(mask, valid) ← parse_pledge spec 0;
      if valid : bool then kret mask else Err EINVAL
  end.

(** The check that a new mask does not add to the old one. *)
Definition narrow (provided has : bool) (new old promises : Z) : outcome Z :=
  if provided && (has && negb (Z.land new (Z.lnot old) =? 0)) then
    if Z.land promises (Z.shiftl 1 (pledge_index no_error)) =? 0 then Err EPERM
    else kret (Z.land new old)
  else kret new.

Definition set_promises (mask : Z) (p : ProtectedValues) : ProtectedValues :=
  mkProtectedValues (pv_pid p) (pv_ppid p) (pv_credentials p) (pv_process_group p) (pv_tty p)
    (pv_dumpable p) true mask (pv_has_execpromises p) (pv_execpromises p).
Definition set_execpromises (mask : Z) (p : ProtectedValues) : ProtectedValues :=
  mkProtectedValues (pv_pid p) (pv_ppid p) (pv_credentials p) (pv_process_group p) (pv_tty p)
    (pv_dumpable p) (pv_has_promises p) (pv_promises p) true mask.

(** [None] stands for parameters that cannot be read. *)
Definition sys_pledge (user_params : option SC_pledge_params) : M PS Z :=
  params ← lift (match user_params with Some params => kret params | None => Err EFAULT end);
  promises ← lift (get_promises_string (arg_promises params));
  execpromises ← lift (get_promises_string (arg_execpromises params));
  new_promises ← lift (parse_promises promises);
  new_execpromises ← lift (parse_promises execpromises);
  p ← gets protected;
  let promises_provided := negb (bool_decide (promises = None)) in
  let execpromises_provided := negb (bool_decide (execpromises = None)) in
  new_promises ← lift (narrow promises_provided (pv_has_promises p) new_promises
                         (pv_promises p) (pv_promises p));
  new_execpromises ← lift (narrow execpromises_provided (pv_has_execpromises p) new_execpromises
                             (pv_execpromises p) (pv_promises p));
  (if promises_provided then with_mutable_protected_data (set_promises new_promises) else kret tt);;
  (if execpromises_provided then with_mutable_protected_data (set_execpromises new_execpromises)
   else kret tt);;
  kret 0.

(** ** Parsing *)

Definition name (p : Pledge) : list Z := bytes_of (pledge_to_string p).

Lemma pledge_of_Some part p : pledge_of part = Some p <-> part = name p.
Proof.
  split.
  - unfold pledge_of. intros H%List.find_some. destruct H as [_ H].
    by apply bool_decide_eq_true in H.
  - intros ->. by destruct p.
Qed.

#[export] Instance name_inj : Inj (=) (=) name.
Proof.
  intros p q E. assert (pledge_of (name p) = Some p) as Hp by by apply pledge_of_Some.
  apply pledge_of_Some in E. congruence.
Qed.

Lemma pledge_index_range p : 0 <= pledge_index p < 28.
Proof. destruct p; simpl; lia. Qed.

#[export] Instance pledge_index_inj : Inj (=) (=) pledge_index.
Proof. intros p q. by destruct p, q. Qed.

Lemma testbit_set_pledge mask p i :
  0 <= i -> Z.testbit (Z.lor mask (Z.shiftl 1 (pledge_index p))) i =
    Z.testbit mask i || (i =? pledge_index p).
Proof.
  intros Hi. pose proof (pledge_index_range p). rewrite Z.lor_spec, Z.shiftl_1_l, Z.pow2_bits_eqb by lia.
  f_equal. apply Z.eqb_sym.
Qed.

Lemma parse_parts_spec ws mask valid :
  let '(mask', valid') := foldl (fun acc part => parse_part part acc) (mask, valid) ws in
  (valid' = true <-> valid = true /\ forall w, w ∈ ws -> exists p, w = name p) /\
  (forall i, 0 <= i -> Z.testbit mask' i = true <->
     Z.testbit mask i = true \/ exists p, pledge_index p = i /\ name p ∈ ws).
Proof.
  revert mask valid. induction ws as [|w ws IH]; intros mask valid; cbn [foldl].
  { split; [|intros i Hi]; set_solver. }
  unfold parse_part at 2. destruct (pledge_of w) as [p|] eqn:Ep.
  - apply pledge_of_Some in Ep as ->. specialize (IH (Z.lor mask (Z.shiftl 1 (pledge_index p))) valid).
    destruct (foldl _ _ ws) as [mask' valid']. destruct IH as [Hv Hm]. split.
    + rewrite Hv. set_solver.
    + intros i Hi. rewrite Hm, testbit_set_pledge, orb_true_iff, Z.eqb_eq by done. split.
      * intros [[?| ->]|(q & Hq & ?)]; [by left|right; exists p; set_solver|right; exists q; set_solver].
      * intros [?|(q & Hq & [->%(inj name)|Hin]%elem_of_cons)]; [tauto|auto|eauto].
  - specialize (IH mask false). destruct (foldl _ _ ws) as [mask' valid'].
    assert (forall p, w <> name p) as Hw.
    { intros p Hp. apply pledge_of_Some in Hp. congruence. }
    destruct IH as [Hv Hm]. split.
    + rewrite Hv. set_solver.
    + intros i Hi. rewrite Hm by done. set_solver.
Qed.

(** Every word names a promise. *)
Definition valid_spec (spec : list Z) : Prop := forall w, w ∈ words 32 spec -> exists p, w = name p.
(** The words name [p]. *)
Definition requests (spec : list Z) (p : Pledge) : Prop := name p ∈ words 32 spec.

#[export] Instance requests_dec spec p : Decision (requests spec p).
Proof. unfold requests. apply _. Defined.

Definition mask_of (spec : list Z) (mask : Z) : Prop :=
  forall i, 0 <= i -> Z.testbit mask i = true <-> exists p, pledge_index p = i /\ requests spec p.

Lemma parse_promises_spec spec :
  Forall is_byte spec ->
  (exists mask, parse_promises (Some spec) = Ok mask /\ valid_spec spec /\ mask_of spec mask) \/
  (parse_promises (Some spec) = Err EINVAL /\ ~ valid_spec spec).
Proof.
  intros Hb. unfold parse_promises, parse_pledge.
  rewrite for_each_word by (done || (unfold is_byte, in_width; lia)).
  pose proof (parse_parts_spec (words 32 spec) 0 true) as H.
  destruct (foldl _ _ _) as [mask valid]. destruct H as [Hv Hm]. cbn [kbind outcome_monad].
  destruct valid.
  - left. exists mask. split; [done|]. split; [by destruct Hv as [[_ Hv'] _]|]. intros i Hi.
    rewrite (Hm i Hi), Z.bits_0. naive_solver.
  - right. split; [done|]. intros Hvs. apply diff_false_true, Hv. done.
Qed.

Lemma get_promises_string_spec a :
  (exists spec, get_promises_string a = Ok spec /\
     match spec with Some l => a <> None /\ Forall is_byte l | None => a = None end) \/
  exists e, get_promises_string a = Err e.
Proof.
  destruct a as [[user len]|]; [|left; by exists None]. unfold get_promises_string,
    try_copy_string_from_user_into_fixed_string_buffer, copy_characters_from_user.
  destruct (Z.ltb_spec (Z.of_nat all_promises_strings_length_with_spaces) len); [right; by eexists|].
  destruct (negb _); [right; by eexists|].
  destruct (read_user_string _ _ _) as [l|] eqn:E; [|right; by eexists].
  left. exists (Some l). cbn [kbind outcome_monad kret]. rewrite representable_fill_storage.
  apply read_user_string_spec in E. naive_solver.
Qed.

(** ** The narrowing *)

(** Bit by bit, [new] is within [old]. *)
Definition submask (new old : Z) : Prop := forall i, 0 <= i -> Z.testbit new i = true -> Z.testbit old i = true.

Lemma submask_land_lnot new old : Z.land new (Z.lnot old) = 0 <-> submask new old.
Proof.
  split.
  - intros H i Hi Hn. apply (f_equal (fun z => Z.testbit z i)) in H.
    rewrite Z.land_spec, Z.lnot_spec, Hn, Z.bits_0 in H by done. by destruct (Z.testbit old i).
  - intros H. apply Z.bits_inj_0. intros i. destruct (Z.ltb_spec i 0); [by apply Z.testbit_neg_r|].
    rewrite Z.land_spec, Z.lnot_spec by done. specialize (H i).
    destruct (Z.testbit new i), (Z.testbit old i); naive_solver.
Qed.

#[export] Instance submask_preorder : PreOrder submask.
Proof. split; [by intros a i|]. intros a b c H1 H2 i Hi H. auto. Qed.

Lemma submask_land a b : submask (Z.land a b) b.
Proof. intros i _. rewrite Z.land_spec, andb_true_iff. tauto. Qed.

(** Nothing outside the promises changes, and promises once set only shrink. *)
Record narrower (p p' : ProtectedValues) : Prop := {
  narrower_promises : pv_has_promises p = true ->
    pv_has_promises p' = true /\ submask (pv_promises p') (pv_promises p);
  narrower_execpromises : pv_has_execpromises p = true ->
    pv_has_execpromises p' = true /\ submask (pv_execpromises p') (pv_execpromises p);
  narrower_credentials : pv_credentials p' = pv_credentials p;
  narrower_dumpable : pv_dumpable p' = pv_dumpable p }.

#[export] Instance narrower_preorder : PreOrder narrower.
Proof.
  split; [by split|]. intros p1 p2 p3 [H1 H1' E1 D1] [H2 H2' E2 D2].
  split; [| |congruence|congruence].
  - intros [? ?]%H1. destruct H2; [done|]. split; [done|by etransitivity].
  - intros [? ?]%H1'. destruct H2'; [done|]. split; [done|by etransitivity].
Qed.

Lemma narrow_spec provided has new old promises :
  (exists new', narrow provided has new old promises = Ok new' /\
     (provided = true -> has = true -> submask new' old)) \/
  narrow provided has new old promises = Err EPERM.
Proof.
  unfold narrow. destruct provided, has; cbn [andb]; try (left; by eexists).
  destruct (Z.eqb_spec (Z.land new (Z.lnot old)) 0) as [E|]; cbn [negb].
  - left. exists new. split; [done|]. intros _ _. by apply submask_land_lnot.
  - destruct (_ =? 0); [by right|left]. eexists. split; [done|]. intros _ _. apply submask_land.
Qed.

Lemma sys_pledge_wp params s :
  wp (sys_pledge params) s (fun r s' =>
    match r with
    | Ok _ => narrower (protected s) (protected s')
    | Err _ => s' = s
    | Panic => False
    end).
Proof.
  unfold sys_pledge. wp_step. apply wp_lift. destruct params as [[a x]|]; [|done].
  cbn [kret outcome_monad arg_promises arg_execpromises].
  wp_step. apply wp_lift. destruct (get_promises_string_spec a) as [(spec & -> & Hs)|(e & ->)]; [|done].
  wp_step. apply wp_lift. destruct (get_promises_string_spec x) as [(xspec & -> & Hx)|(e & ->)]; [|done].
  assert (forall spec', match spec' with Some l => Forall is_byte l | None => True end ->
    (exists mask, parse_promises spec' = Ok mask) \/ exists e, parse_promises spec' = Err e) as Hparse.
  { intros [l|] Hl; [|left; by eexists].
    destruct (parse_promises_spec l Hl) as [(mask & -> & _)|[-> _]]; [left|right]; by eexists. }
  wp_step. apply wp_lift. destruct (Hparse spec) as [(m & ->)|(e & ->)]; [by destruct spec; [apply Hs|]| |done].
  wp_step. apply wp_lift. destruct (Hparse xspec) as [(mx & ->)|(e & ->)]; [by destruct xspec; [apply Hx|]| |done].
  do 2 wp_step. wp_step. apply wp_lift.
  destruct (narrow_spec (negb (bool_decide (spec = None))) (pv_has_promises (protected s)) m
    (pv_promises (protected s)) (pv_promises (protected s))) as [(m' & -> & Hm)| ->]; [|done].
  wp_step. apply wp_lift.
  destruct (narrow_spec (negb (bool_decide (xspec = None))) (pv_has_execpromises (protected s)) mx
    (pv_execpromises (protected s)) (pv_promises (protected s))) as [(mx' & -> & Hmx)| ->]; [|done].
  unfold with_mutable_protected_data. wp_steps;
    split; simpl; try done; intros Hhas; split; auto; done.
Qed.

(** ** Sequences of calls *)

Definition run_pledges (calls : list (option SC_pledge_params)) (s : PS) : PS :=
  foldl (fun s c => snd (sys_pledge c s)) s calls.

Lemma run_pledges_narrower calls s : narrower (protected s) (protected (run_pledges calls s)).
Proof.
  unfold run_pledges. revert s. induction calls as [|c calls IH]; intros s; simpl; [done|].
  transitivity (protected (snd (sys_pledge c s))); [|apply IH].
  pose proof (sys_pledge_wp c s) as Hw. unfold wp in Hw.
  destruct (sys_pledge c s) as [[]]; simpl in *; [done|by subst|done].
Qed.

Lemma has_promised_testbit q p : has_promised q p = Z.testbit (pv_promises p) (pledge_index q).
Proof.
  unfold has_promised. rewrite land_bit_eqb by (pose proof (pledge_index_range q); lia).
  apply negb_involutive.
Qed.

Lemma narrower_has_promised q p p' :
  narrower p p' -> pv_has_promises p = true -> has_promised q p = false ->
  pv_has_promises p' = true /\ has_promised q p' = false.
Proof.
  intros [H _ _ _] Hhas Hq. destruct (H Hhas) as [Hhas' Hsub]. split; [done|].
  rewrite has_promised_testbit in *. apply not_true_iff_false. intros Ht.
  apply Hsub in Ht; [congruence|]. pose proof (pledge_index_range q). lia.
Qed.

Lemma submask_mask_of spec mask p :
  mask_of spec mask ->
  submask mask (pv_promises p) <-> forall q, requests spec q -> has_promised q p = true.
Proof.
  intros Hm. split.
  - intros Hs q Hq. rewrite has_promised_testbit. pose proof (pledge_index_range q).
    apply Hs; [lia|]. apply Hm; [lia|]. eauto.
  - intros H i Hi Ht. apply Hm in Ht as (q & <- & Hq); [|done].
    apply H in Hq. by rewrite has_promised_testbit in Hq.
Qed.

(** ** Properties *)

(** C2: promises only shrink. Whatever sequence of pledge calls a process that has
    pledged makes, a promise it does not hold it never holds again, so every later
    [require_promise] for it fails; the promises for the next program shrink as well,
    and pledge touches no other protected data. *)
Theorem pledge_only_narrows calls s q :
  pv_has_promises (protected s) = true -> has_promised q (protected s) = false ->
  let s' := run_pledges calls s in
  narrower (protected s) (protected s') /\
  fst (require_promise q s') = Err EPROMISEVIOLATION.
Proof.
  intros Hhas Hq s'. pose proof (run_pledges_narrower calls s) as Hn. fold s' in Hn.
  split; [done|]. destruct (narrower_has_promised q _ _ Hn Hhas Hq) as [Hhas' Hq'].
  assert (wp (require_promise q) s' (fun r _ => r = Err EPROMISEVIOLATION)) as Hw.
  { apply require_promise_wp; [|done]. intros [?|?]; congruence. }
  unfold wp in Hw. done.
Qed.

Definition pledge_call (spec : string) : option SC_pledge_params :=
  Some (mk_SC_pledge_params (Some (user_memory spec, Z.of_nat (String.length spec))) None).

Definition pledged_state : PS :=
  run_pledges [pledge_call "stdio rpath no_error"] (example_state example_user []).

Lemma pledge_only_narrows_witness :
  pv_has_promises (protected pledged_state) = true /\
  has_promised exec (protected pledged_state) = false /\
  fst (require_promise exec (run_pledges [pledge_call "stdio exec"; pledge_call "exec"] pledged_state))
    = Err EPROMISEVIOLATION.
Proof.
  split_and!; [reflexivity|reflexivity|].
  apply (pledge_only_narrows [pledge_call "stdio exec"; pledge_call "exec"] pledged_state exec);
    reflexivity.
Defined.

Lemma get_promises_string_memory spec :
  Forall (fun c => char_value c <> 0) (String.list_ascii_of_string spec) ->
  (String.length spec <= all_promises_strings_length_with_spaces)%nat ->
  get_promises_string (Some (user_memory spec, Z.of_nat (String.length spec))) = Ok (Some (bytes_of spec)).
Proof.
  intros Hz Hlen. unfold get_promises_string, try_copy_string_from_user_into_fixed_string_buffer,
    copy_characters_from_user.
  rewrite (proj2 (Z.ltb_ge _ _)) by lia. cbn [negb user_in_range user_memory].
  rewrite Nat2Z.id, (read_user_memory spec _ (String.list_ascii_of_string spec) []);
    [|done|by induction spec as [|c spec IH]; simpl; [|rewrite IH; [|inversion Hz; auto|simpl in *; lia]]|done].
  cbn [kbind outcome_monad kret]. by rewrite representable_fill_storage.
Qed.

(** The outcome of pledging [spec], without promises for the next program. *)
Inductive pledge_result (spec : list Z) (s : PS) : outcome Z -> PS -> Prop :=
  | pledge_invalid :
      ~ valid_spec spec -> pledge_result spec s (Err EINVAL) s
  | pledge_elevation q :
      valid_spec spec -> pv_has_promises (protected s) = true ->
      requests spec q -> has_promised q (protected s) = false ->
      has_promised no_error (protected s) = false -> pledge_result spec s (Err EPERM) s
  | pledge_granted s' :
      valid_spec spec ->
      pv_has_promises (protected s) = false \/ has_promised no_error (protected s) = true \/
        (forall q, requests spec q -> has_promised q (protected s) = true) ->
      pv_has_promises (protected s') = true ->
      (forall q, has_promised q (protected s') = true <->
         requests spec q /\ (pv_has_promises (protected s) = true -> has_promised q (protected s) = true)) ->
      pledge_result spec s (Ok 0) s'.

Lemma requests_promised_dec spec p :
  (forall q, requests spec q -> has_promised q p = true) \/
  exists q, requests spec q /\ has_promised q p = false.
Proof.
  destruct (decide (Exists (fun q => requests spec q /\ has_promised q p = false) all_pledges)) as [H|H].
  - apply Exists_exists in H as (q & _ & Hq). eauto.
  - left. intros q Hq. destruct (has_promised q p) eqn:E; [done|]. destruct H.
    apply Exists_exists. exists q. split; [|done]. destruct q; set_solver.
Qed.

Lemma mask_of_promised spec mask p q :
  mask_of spec mask -> has_promised q (set_promises mask p) = true <-> requests spec q.
Proof.
  intros Hm. rewrite has_promised_testbit. simpl. pose proof (pledge_index_range q).
  pose proof (Hm (pledge_index q) ltac:(lia)) as ->.
  split; [intros (q' & E & ?)|eauto]. by apply (inj pledge_index) in E as ->.
Qed.

Lemma narrow_pledge_result spec mask s :
  valid_spec spec -> mask_of spec mask ->
  let p := protected s in
  match narrow true (pv_has_promises p) mask (pv_promises p) (pv_promises p) with
  | Ok mask' => forall s', protected s' = set_promises mask' p -> pledge_result spec s (Ok 0) s'
  | Err e => pledge_result spec s (Err e) s
  | Panic => False
  end.
Proof.
  intros Hv Hm p. unfold narrow. rewrite land_bit_eqb by (simpl; lia).
  fold (negb (has_promised no_error p)). rewrite <- has_promised_testbit.
  destruct (pv_has_promises p) eqn:Hhas; cbn [andb].
  - pose proof (submask_land_lnot mask (pv_promises p)) as Hsub.
    rewrite (submask_mask_of spec mask p Hm) in Hsub.
    destruct (Z.eqb_spec (Z.land mask (Z.lnot (pv_promises p))) 0) as [E|E]; cbn [negb].
    + intros s' Es. apply pledge_granted; [done|right; right; by apply Hsub|by rewrite Es|].
      intros q. rewrite Es, (mask_of_promised spec) by done. split; [|by intros []].
      intros Hq. split; [done|]. intros _. by apply Hsub.
    + destruct (has_promised no_error p) eqn:Hne; cbn [negb].
      * intros s' Es. apply pledge_granted; [done|by right; left|by rewrite Es|].
        intros q. rewrite Es, <- (mask_of_promised spec mask p) by done.
        rewrite !has_promised_testbit. simpl. rewrite Z.land_spec, andb_true_iff. naive_solver.
      * destruct (requests_promised_dec spec p) as [H|(q & Hq & Hnq)].
        { by destruct E; apply Hsub. }
        by apply (pledge_elevation _ _ q).
  - intros s' Es. apply pledge_granted; [done|by left|by rewrite Es|].
    intros q. rewrite Es, (mask_of_promised spec) by done. fold p. rewrite Hhas.
    split; [|by intros []]. by intros ?.
Qed.

(** The outcome of pledging a promise string is determined: EINVAL exactly when
    it has a word that names no promise; EPERM exactly when it asks for a promise the
    process has given up and [no_error] is not among those it holds; otherwise the
    process holds afterwards precisely the named promises it was still allowed to have.
    Failing calls change nothing. *)
Theorem pledge_exact spec s :
  Forall (fun c => char_value c <> 0) (String.list_ascii_of_string spec) ->
  (String.length spec <= all_promises_strings_length_with_spaces)%nat ->
  let '(r, s') := sys_pledge (pledge_call spec) s in pledge_result (bytes_of spec) s r s'.
Proof.
  intros Hz Hlen. assert (wp (sys_pledge (pledge_call spec)) s (pledge_result (bytes_of spec) s)) as Hw.
  { unfold sys_pledge. wp_step. apply wp_lift. cbn [pledge_call kret outcome_monad arg_promises arg_execpromises].
    wp_step. apply wp_lift. rewrite get_promises_string_memory by done.
    wp_step. apply wp_lift. cbn [get_promises_string kret outcome_monad].
    wp_step. apply wp_lift.
    destruct (parse_promises_spec (bytes_of spec)) as [(mask & -> & Hv & Hm)|[-> Hv]].
    - unfold bytes_of. apply Forall_map, Forall_true, char_value_byte.
    - wp_step. apply wp_lift. cbn [parse_promises kret outcome_monad]. do 2 wp_step. wp_step. apply wp_lift.
      pose proof (narrow_pledge_result _ _ s Hv Hm) as Hn. cbn zeta in Hn.
      rewrite bool_decide_false by done. cbn [negb].
      destruct (narrow true _ _ _ _); [|done|done]. wp_step. apply wp_lift.
      cbn. apply Hn. done.
    - by constructor. }
  unfold wp in Hw. by destruct (sys_pledge (pledge_call spec) s).
Qed.

Lemma pledge_exact_witness :
  let '(r, s') := sys_pledge (pledge_call "stdio exec") pledged_state in
  pledge_result (bytes_of "stdio exec") pledged_state r s'.
Proof. apply pledge_exact; [repeat (constructor; [done|]); constructor|vm_compute; lia]. Defined.

