(* ===== verification/Unveil.v ===== *)
(** * unveil: Kernel/Syscalls/unveil.cpp, Kernel/FileSystem/UnveilNode.h, AK/Trie.h

    A process that has called unveil sees the file system through its veil: a trie of path
    components ([UnveilNode]) whose nodes carry permissions.  The node that matches a path
    furthest decides ([find_matching_unveiled_path], [validate_path_against_process_veil]).
    A node is explicit when its own path was unveiled; the nodes on the way to it, which
    the trie needs, repeat the permissions of the node above.

    The abstract state of a veil is the function from unveiled paths to permissions
    ([explicit]), and what the trie grants for a path is the permission of its longest
    unveiled prefix ([granted]).  The theorems: the trie implements this, for every outcome
    of the allocations; a call unveils its path and no other, or changes nothing; a locked veil does
    not change any more; what was unveiled once is never given more permissions; and no
    call fails an assertion.

    What the call needs from the file system, the absolute path of the file or of its
    parent directory, is an argument ([resolution]).  The log messages and the locks are left
    out; every node of this trie has metadata. *)

From S2P Require Import Prelude MemMem StringView Credentials Pledge.

(** ** Kernel/Library/KLexicalPath.cpp *)
Definition slash : Z := 47.
Definition dot : Z := 46.

Definition starts_with (view prefix : list Z) : bool := bool_decide (take (length prefix) view = prefix).
Definition ends_with (view suffix : list Z) : bool :=
  (length suffix <=? length view)%nat && bool_decide (drop (length view - length suffix) view = suffix).
Definition contains (view needle : list Z) : outcome bool :=
  index ← find_string view needle 0; kret (negb (bool_decide (index = None))).

Definition is_absolute (path : list Z) : bool := starts_with path [slash].

Definition is_canonical (path : list Z) : outcome bool :=
  if bool_decide (path = []) then kret false else
  if ends_with path [slash] && negb (length path =? 1)%nat then kret false else
  dot_inside ← contains path [slash; dot; slash];
  if starts_with path [dot; slash] || dot_inside || ends_with path [slash; dot] then kret false else
  dots_inside ← contains path [slash; dot; dot; slash];
  if starts_with path [dot; dot; slash] || dots_inside || ends_with path [slash; dot; dot] then kret false else
  empty_inside ← contains path [slash; slash];
  kret (negb empty_inside).

(** [trim("/"sv, TrimMode::Right)] *)
Fixpoint trim_left (view : list Z) : list Z :=
  match view with
  | x :: view' => if x =? slash then trim_left view' else view
  | [] => []
  end.
Definition trim_right (view : list Z) : list Z := rev (trim_left (rev view)).

(** What is behind the last slash *)
Fixpoint after_last_slash (view rest : list Z) : list Z :=
  match view with
  | [] => rest
  | x :: view => after_last_slash view (if x =? slash then view else rest)
  end.

Definition basename (a_path : list Z) : list Z :=
  if bool_decide (a_path = [slash]) then a_path else
  if bool_decide (a_path = []) then [dot] else
  let path := trim_right a_path in
  if bool_decide (path = []) then take 1 a_path else after_last_slash path path.

Definition parts (path : list Z) : outcome (list (list Z)) :=
  canonical ← is_canonical path;
  if canonical : bool then split_view path [slash] SplitBehavior_Nothing else Panic.

(** The joined string; its allocation is made by the caller. *)
Definition joined (first second : list Z) : outcome (list Z) :=
  canonical1 ← is_canonical first;
  canonical2 ← is_canonical second;
  if (canonical1 : bool) && canonical2 && negb (is_absolute second) then
    kret (if bool_decide (first = [slash]) then slash :: second else first ++ slash :: second)
  else Panic.

(** ** Kernel/FileSystem/UnveilNode.h *)
Definition Read : Z := 1.
Definition Write : Z := 2.
Definition Execute : Z := 4.
Definition CreateOrRemove : Z := 8.
Definition Browse : Z := 16.

Record UnveilMetadata := mk_metadata { full_path : list Z; permissions : Z; explicitly_unveiled : bool }.

(** A node of the trie; the children are a map from components to nodes. *)
#[local] Unset Elimination Schemes.
Inductive UnveilNode := mk_node (metadata_value : UnveilMetadata) (children : list (list Z * UnveilNode)).
#[local] Set Elimination Schemes.
Definition metadata_value (n : UnveilNode) : UnveilMetadata := let '(mk_node m _) := n in m.
Definition children (n : UnveilNode) : list (list Z * UnveilNode) := let '(mk_node _ c) := n in c.
Definition set_metadata (m : UnveilMetadata) (n : UnveilNode) : UnveilNode := mk_node m (children n).
Definition was_explicitly_unveiled (n : UnveilNode) : bool := explicitly_unveiled (metadata_value n).
Definition node_permissions (n : UnveilNode) : Z := permissions (metadata_value n).
Definition node_path (n : UnveilNode) : list Z := full_path (metadata_value n).

(** ** AK/Trie.h *)
Fixpoint find_child (part : list Z) (cs : list (list Z * UnveilNode)) : option UnveilNode :=
  match cs with
  | [] => None
  | (k, c) :: cs => if bool_decide (k = part) then Some c else find_child part cs
  end.

(** Writing through the reference to a child that [find] returned *)
Fixpoint replace_child (part : list Z) (c' : UnveilNode) (cs : list (list Z * UnveilNode)) : list (list Z * UnveilNode) :=
  match cs with
  | [] => []
  | (k, c) :: cs => if bool_decide (k = part) then (k, c') :: cs else (k, c) :: replace_child part c' cs
  end.

(** The components that were walked, the node they lead to, and the components that [it] has still ahead *)
Fixpoint traverse_until_last_accessible_node (node : UnveilNode) (it : list (list Z)) : list (list Z) * UnveilNode * list (list Z) :=
  match it with
  | [] => ([], node, [])
  | part :: rest =>
      match find_child part (children node) with
      | None => ([], node, it)
      | Some c => let '(walked, last, it) := traverse_until_last_accessible_node c rest in (part :: walked, last, it)
      end
  end.

(** A call that can fail with ENOMEM takes the next entry of the allocation script. *)
Fixpoint allocations (n : nat) (heap : list bool) : bool * list bool :=
  match n, heap with
  | O, _ => (true, heap)
  | S n, [] => (true, [])
  | S n, b :: heap => if b : bool then allocations n heap else (false, heap)
  end.

(** [ensure_child] for the component of a node, and the assignment through the reference that it returns: [f] is
    what happens to the child next.  The key, the node and the place in the map are allocated. *)
Definition ensure_child (node : UnveilNode) (part : list Z) (metadata : UnveilMetadata) (heap : list bool)
    (f : UnveilNode -> list bool -> outcome unit * UnveilNode * list bool) : outcome unit * UnveilNode * list bool :=
  match find_child part (children node) with
  | None =>
      let '(ok, heap) := allocations 3 heap in
      if ok : bool then
        let '(result, c, heap) := f (mk_node metadata []) heap in
        (result, mk_node (metadata_value node) (children node ++ [(part, c)]), heap)
      else (Err ENOMEM, node, heap)
  | Some c =>
      let '(result, c, heap) := f (set_metadata metadata c) heap in
      (result, mk_node (metadata_value node) (replace_child part c (children node)), heap)
  end.

(** The loop of [insert]: a new node for every component, with the metadata of its parent, marked as not explicit.
    The strings of the component and of the path are allocated first. *)
Fixpoint insert_loop (it : list (list Z)) (metadata : UnveilMetadata) (node : UnveilNode) (heap : list bool)
    : outcome unit * UnveilNode * list bool :=
  match it with
  | [] => (Ok tt, set_metadata metadata node, heap)
  | part :: it =>
      let '(ok, heap) := allocations 2 heap in
      if ok : bool then ensure_child node part (mk_metadata (node_path node ++ slash :: part) (node_permissions node) false) heap (insert_loop it metadata)
      else (Err ENOMEM, node, heap)
  end.

(** Work on the node that a traversal has returned a reference to *)
Fixpoint at_node (walked : list (list Z)) (f : UnveilNode -> list bool -> outcome unit * UnveilNode * list bool)
    (node : UnveilNode) (heap : list bool) : outcome unit * UnveilNode * list bool :=
  match walked with
  | [] => f node heap
  | part :: walked =>
      match find_child part (children node) with
      | None => (Panic, node, heap)
      | Some c =>
          let '(result, c, heap) := at_node walked f c heap in
          (result, mk_node (metadata_value node) (replace_child part c (children node)), heap)
      end
  end.

Definition insert (it : list (list Z)) (metadata : UnveilMetadata) (node : UnveilNode) (heap : list bool) : outcome unit * UnveilNode * list bool :=
  let '(walked, _, it) := traverse_until_last_accessible_node node it in
  at_node walked (insert_loop it metadata) node heap.

(** [deep_copy]: the key, the metadata, the node and the place in the map of every node are allocated. *)
Fixpoint deep_copy (node : UnveilNode) (heap : list bool) : outcome UnveilNode * list bool :=
  let '(mk_node m cs) := node in
  let '(ok, heap) := allocations 2 heap in
  if ok : bool then
    let '(copied, heap) := (fix copy_children (cs : list (list Z * UnveilNode)) (done : list (list Z * UnveilNode)) (heap : list bool) :=
      match cs with
      | [] => (Ok done, heap)
      | (k, c) :: cs =>
          match deep_copy c heap with
          | (Ok c, heap) =>
              let '(ok, heap) := allocations 3 heap in
              if ok : bool then copy_children cs (done ++ [(k, c)]) heap else (Err ENOMEM, heap)
          | (Err e, heap) => (Err e, heap)
          | (Panic, heap) => (Panic, heap)
          end
      end) cs [] heap in
    (copied ← copied; Ok (mk_node m copied), heap)
  else (Err ENOMEM, heap).

(** ** Kernel/Tasks/Process.h *)
Inductive VeilState := Veil_None | Veil_Dropped | Veil_Locked | Veil_LockedInherited.
#[export] Instance VeilState_eq_dec : EqDecision VeilState.
Proof. solve_decision. Defined.

Record UnveilData := mk_unveil_data { state : VeilState; paths : UnveilNode }.

(** The veil of a process, the one prepared for its next program, and the allocations to come *)
Record VS := mk_VS { unveil_data : UnveilData; exec_unveil_data : UnveilData; veil_heap : list bool }.

(** ** Kernel/Syscalls/unveil.cpp *)
Definition set_permissions (new_permissions : Z) (n : UnveilNode) : UnveilNode :=
  set_metadata (mk_metadata (node_path n) new_permissions (was_explicitly_unveiled n)) n.

Fixpoint update_intermediate_node_permissions (new_permissions : Z) (root_node : UnveilNode) : UnveilNode :=
  let '(mk_node m cs) := root_node in
  mk_node m (map (fun '(k, node) =>
    (k, if was_explicitly_unveiled node then node
        else set_permissions new_permissions (update_intermediate_node_permissions new_permissions node))) cs).

(** The branch for a path that has a node *)
Definition unveil_node (new_permissions : Z) (node : UnveilNode) (heap : list bool) : outcome unit * UnveilNode * list bool :=
  if was_explicitly_unveiled node && negb (Z.land new_permissions (Z.lnot (node_permissions node)) =? 0) then (Err EPERM, node, heap)
  else
    let node := if node_permissions node =? new_permissions then node else update_intermediate_node_permissions new_permissions node in
    (Ok tt, set_metadata (mk_metadata (node_path node) new_permissions true) node, heap).

Definition update_unveil_data (data : UnveilData) (unveiled_path : list Z) (new_permissions : Z) (heap : list bool)
    : outcome unit * UnveilData * list bool :=
  match parts unveiled_path with
  | Ok path_parts =>
      match state data with
      | Veil_LockedInherited => (Ok tt, data, heap)
      | Veil_Locked => (Err EPERM, data, heap)
      | _ =>
          let '(walked, _, it) := traverse_until_last_accessible_node (paths data) path_parts in
          let '(result, node, heap) :=
            match it with
            | [] => at_node walked (unveil_node new_permissions) (paths data) heap
            | _ =>
                let '(ok, heap) := allocations 1 heap in
                if ok : bool then at_node walked (insert it (mk_metadata unveiled_path new_permissions true)) (paths data) heap
                else (Err ENOMEM, paths data, heap)
            end in
          (result, mk_unveil_data (match result with Ok _ => Veil_Dropped | _ => state data end) node, heap)
      end
  | Err e => (Err e, data, heap)
  | Panic => (Panic, data, heap)
  end.

Definition CurrentProgram : Z := 1.
Definition AfterExec : Z := 2.
Definition PATH_MAX : Z := 4096.

Record SC_unveil_params := mk_SC_unveil_params { arg_flags : Z; arg_path : StringArgument; arg_permissions : StringArgument }.

(** What [resolve_path_without_veil] and [try_serialize_absolute_path] make of a path: the absolute path of the file,
    or an error and the absolute path of the directory when only the last component is missing *)
Inductive resolution := Resolved (absolute_path : list Z) | Unresolved (e : errno) (parent : option (list Z)).

Definition allocate : M VS unit := fun s =>
  let '(ok, heap) := allocations 1 (veil_heap s) in
  (if ok : bool then Ok tt else Err ENOMEM, mk_VS (unveil_data s) (exec_unveil_data s) heap).

Definition try_copy_kstring_from_user (user : UserString) (user_str_size : Z) : M VS (list Z) :=
  if negb (user_in_range user) then fail EFAULT else
  match read_user_string (user_bytes user) 0 (Z.to_nat user_str_size) with
  | None => fail EFAULT
  | Some l => allocate;; kret l
  end.

Definition get_syscall_path_argument (user : UserString) (path_length : Z) : M VS (list Z) :=
  if path_length =? 0 then fail EINVAL else
  if PATH_MAX <? path_length then fail ENAMETOOLONG else
  try_copy_kstring_from_user user path_length.

(** The [switch] over the characters of the permissions *)
Fixpoint parse_permissions (characters : list Z) (new_permissions : Z) : outcome Z :=
  match characters with
  | [] => kret new_permissions
  | c :: characters =>
      if c =? 114 then parse_permissions characters (Z.lor new_permissions Read)
      else if c =? 119 then parse_permissions characters (Z.lor new_permissions Write)
      else if c =? 120 then parse_permissions characters (Z.lor new_permissions Execute)
      else if c =? 99 then parse_permissions characters (Z.lor new_permissions CreateOrRemove)
      else if c =? 98 then parse_permissions characters (Z.lor new_permissions Browse)
      else Err EINVAL
  end.

Definition set_state (st : VeilState) (data : UnveilData) : UnveilData := mk_unveil_data st (paths data).

Definition update_current (new_unveiled_path : list Z) (new_permissions : Z) : M VS unit := fun s =>
  let '(result, data, heap) := update_unveil_data (unveil_data s) new_unveiled_path new_permissions (veil_heap s) in
  (result, mk_VS data (exec_unveil_data s) heap).
Definition update_exec (new_unveiled_path : list Z) (new_permissions : Z) : M VS unit := fun s =>
  let '(result, data, heap) := update_unveil_data (exec_unveil_data s) new_unveiled_path new_permissions (veil_heap s) in
  (result, mk_VS (unveil_data s) data heap).

(** The path that is unveiled: that of the file, or the missing file in its directory when it may be created *)
Definition resolved_path (resolve : list Z -> resolution) (path : list Z) (new_permissions : Z) : M VS (list Z) :=
  match resolve path with
  | Resolved absolute_path => allocate;; kret absolute_path
  | Unresolved e parent =>
      match parent with
      | Some directory =>
          if bool_decide (e = ENOENT) && negb (Z.land new_permissions CreateOrRemove =? 0) then
            allocate;;
            path ← lift (joined directory (basename path));
            allocate;;
            kret path
          else fail e
      | None => fail e
      end
  end.

Definition sys_unveil (resolve : list Z -> resolution) (user_params : option SC_unveil_params) : M VS Z :=
  params ← lift (match user_params with Some params => kret params | None => Err EFAULT end);
  if bool_decide (arg_path params = None) && bool_decide (arg_permissions params = None) then
    modify (fun s => mk_VS (set_state Veil_Locked (unveil_data s)) (exec_unveil_data s) (veil_heap s));;
    kret 0
  else
  let current := negb (Z.land (arg_flags params) CurrentProgram =? 0) in
  let after_exec := negb (Z.land (arg_flags params) AfterExec =? 0) in
  if negb (current || after_exec) then fail EINVAL else
  veil_state ← gets (fun s => state (unveil_data s));
  if current && bool_decide (veil_state = Veil_LockedInherited) then kret 0 else
  if current && bool_decide (veil_state = Veil_Locked) then fail EPERM else
  match arg_path params, arg_permissions params with
  | Some (user_path, path_length), Some (user_permissions, permissions_length) =>
      path ← get_syscall_path_argument user_path path_length;
      if bool_decide (path = []) || negb (is_absolute path) then fail EINVAL else
      buffer ← lift (try_copy_string_from_user_into_fixed_string_buffer 5 user_permissions permissions_length);
      new_permissions ← lift (parse_permissions (representable_view buffer) 0);
      new_unveiled_path ← resolved_path resolve path new_permissions;
      (if current then update_current new_unveiled_path new_permissions else kret tt);;
      (if after_exec then
         exec_state ← gets (fun s => state (exec_unveil_data s));
         VERIFY (negb (bool_decide (exec_state = Veil_LockedInherited)));;
         update_exec new_unveiled_path new_permissions
       else kret tt);;
      kret 0
  | _, _ => fail EINVAL
  end.

(** ** Kernel/Syscalls/execve.cpp and fork.cpp *)
Definition empty_root : UnveilNode := mk_node (mk_metadata [slash] 0 false) [].

(** [clear] and [set_metadata] of the prepared veil *)
Definition clear_exec_veil : M VS unit :=
  modify (fun s => mk_VS (unveil_data s) (mk_unveil_data (state (exec_unveil_data s)) (mk_node (metadata_value (paths (exec_unveil_data s))) []))
                         (veil_heap s));;
  allocate;;
  modify (fun s => mk_VS (unveil_data s)
    (mk_unveil_data (state (exec_unveil_data s)) (set_metadata (mk_metadata [slash] 0 false) (paths (exec_unveil_data s)))) (veil_heap s)).

(** What execve does to the veils, with the writes made before an allocation fails *)
Definition execve_veil : M VS unit :=
  exec ← gets exec_unveil_data;
  (if bool_decide (state exec = Veil_Dropped) then
     modify (fun s => mk_VS (set_state Veil_LockedInherited (unveil_data s)) (set_state Veil_None (exec_unveil_data s)) (veil_heap s));;
     (fun s =>
        let '(copied, heap) := deep_copy (paths (exec_unveil_data s)) (veil_heap s) in
        match copied with
        | Ok node => (Ok tt, mk_VS (mk_unveil_data (state (unveil_data s)) node) (exec_unveil_data s) heap)
        | Err e => (Err e, mk_VS (unveil_data s) (exec_unveil_data s) heap)
        | Panic => (Panic, mk_VS (unveil_data s) (exec_unveil_data s) heap)
        end)
   else
     modify (fun s => mk_VS (mk_unveil_data Veil_None (mk_node (metadata_value (paths (unveil_data s))) []))
                            (set_state Veil_None (exec_unveil_data s)) (veil_heap s));;
     allocate;;
     modify (fun s => mk_VS (mk_unveil_data (state (unveil_data s)) (set_metadata (mk_metadata [slash] 0 false) (paths (unveil_data s))))
                            (exec_unveil_data s) (veil_heap s)));;
  clear_exec_veil.

(** The child's copy of a veil *)
Definition fork_veil (data : UnveilData) (heap : list bool) : outcome UnveilData * list bool :=
  let '(copied, heap) := deep_copy (paths data) heap in
  (node ← copied; Ok (mk_unveil_data (state data) node), heap).

(** ** Kernel/FileSystem/VirtualFileSystem.cpp *)
Definition O_RDONLY : Z := 1.
Definition O_WRONLY : Z := 2.
Definition O_EXEC : Z := 4.
Definition O_CREAT : Z := 8.
Definition O_DIRECTORY : Z := 512.
Definition O_UNLINK_INTERNAL : Z := 2 ^ 30.

Definition find_matching_unveiled_path (data : UnveilData) (path : list Z) : outcome UnveilNode :=
  if bool_decide (state data = Veil_None) then Panic else
  path_parts ← parts path;
  let '(_, node, _) := traverse_until_last_accessible_node (paths data) path_parts in kret node.

Definition has (set flag : Z) : bool := negb (Z.land set flag =? 0).

Definition validate_path_against_process_veil (data : UnveilData) (path : list Z) (options : Z) : outcome unit :=
  if bool_decide (state data = Veil_None) then kret tt else
  if negb (starts_with path [slash]) then Panic else
  dots_inside ← contains path [slash; dot; dot; slash];
  if dots_inside || ends_with path [slash; dot; dot] then Panic else
  dot_inside ← contains path [slash; dot; slash];
  if dot_inside || ends_with path [slash; dot] then Panic else
  unveiled_path ← find_matching_unveiled_path data path;
  let p := node_permissions unveiled_path in
  if p =? 0 then Err ENOENT else
  if has options O_CREAT && negb (has p CreateOrRemove) then Err EACCES else
  if has options O_UNLINK_INTERNAL then (if has p CreateOrRemove then kret tt else Err EACCES) else
  if has options O_RDONLY && negb (has p (if has options O_DIRECTORY then Z.lor Read Browse else Read)) then Err EACCES else
  if has options O_WRONLY && negb (has p Write) then Err EACCES else
  if has options O_EXEC && negb (has p Execute) then Err EACCES else
  kret tt.


(** ** The trie as a function from paths *)
Notation path := (list (list Z)).

Fixpoint get_node (n : UnveilNode) (p : path) : option UnveilNode :=
  match p with
  | [] => Some n
  | k :: p => match find_child k (children n) with Some c => get_node c p | None => None end
  end.

(** The permissions with which a path was unveiled *)
Definition explicit (n : UnveilNode) (p : path) : option Z :=
  match get_node n p with
  | Some c => if was_explicitly_unveiled c then Some (node_permissions c) else None
  | None => None
  end.

(** A node that was not unveiled repeats the permissions of the node above. *)
Definition inherits (n : UnveilNode) : Prop :=
  forall p k c d, get_node n p = Some c -> find_child k (children c) = Some d -> was_explicitly_unveiled d = false -> node_permissions d = node_permissions c.

(** [v] is the permission of the longest unveiled prefix of [p], and nothing when there is none. *)
Definition granted (e : path -> option Z) (p : path) (v : Z) : Prop :=
  (exists q r, p = q ++ r /\ e q = Some v /\ forall q' r', p = q' ++ r' -> (length q < length q')%nat -> e q' = None)
  \/ (v = 0 /\ forall q r, p = q ++ r -> e q = None).

Lemma inherits_child n : inherits n <-> forall k d, find_child k (children n) = Some d -> (was_explicitly_unveiled d = false -> node_permissions d = node_permissions n) /\ inherits d.
Proof.
  split.
  - intros H k d Hd. split; [by apply (H [] k n d)|]. intros p k' c c' Hc. apply (H (k :: p)). cbn. by rewrite Hd.
  - intros H [|k' p] k c d Hc Hd; cbn in Hc; [injection Hc as <-; by apply (H k)|]. destruct (find_child k' (children n)) as [c0|] eqn:E; [|done].
    by apply (proj2 (H k' c0 E) p k).
Qed.

Lemma get_node_app n p q : get_node n (p ++ q) = match get_node n p with Some c => get_node c q | None => None end.
Proof. revert n. induction p as [|k p IH]; intros n; [done|]. cbn. destruct (find_child k (children n)); [apply IH|done]. Qed.

Lemma explicit_cons n k p : explicit n (k :: p) = match find_child k (children n) with Some c => explicit c p | None => None end.
Proof. unfold explicit. cbn. by destruct (find_child k (children n)). Qed.

Lemma explicit_app n p c q : get_node n p = Some c -> explicit n (p ++ q) = explicit c q.
Proof. intros H. unfold explicit. by rewrite get_node_app, H. Qed.

Lemma find_replace k k' c' cs : is_Some (find_child k cs) -> find_child k' (replace_child k c' cs) = if decide (k' = k) then Some c' else find_child k' cs.
Proof.
  intros [c H]. induction cs as [|[k0 c0] cs IH]; [done|]. cbn in *. destruct (bool_decide_reflect (k0 = k)) as [->|Hne]; cbn.
  - destruct (decide (k' = k)) as [->|Hk]; [by rewrite bool_decide_eq_true_2|by rewrite bool_decide_eq_false_2 by congruence].
  - destruct (bool_decide_reflect (k0 = k')) as [->|Hne']; [by rewrite decide_False by congruence|]. by apply IH.
Qed.

Lemma find_app k cs cs' : find_child k (cs ++ cs') = match find_child k cs with Some c => Some c | None => find_child k cs' end.
Proof. induction cs as [|[k0 c0] cs IH]; [done|]. cbn. by destruct (bool_decide (k0 = k)). Qed.

Lemma find_map (f : UnveilNode -> UnveilNode) k cs : find_child k (map (fun '(k, c) => (k, f c)) cs) = f <$> find_child k cs.
Proof. induction cs as [|[k0 c0] cs IH]; [done|]. cbn. by destruct (bool_decide (k0 = k)). Qed.

(** ** Traversal *)
Lemma traverse_spec n p walked last rest :
  traverse_until_last_accessible_node n p = (walked, last, rest) ->
  p = walked ++ rest /\ get_node n walked = Some last /\ match rest with [] => True | k :: _ => find_child k (children last) = None end.
Proof.
  revert n walked. induction p as [|k p IH]; intros n walked H; cbn in H; [by simplify_eq|].
  destruct (find_child k (children n)) as [c|] eqn:E; [|by simplify_eq/=].
  destruct (traverse_until_last_accessible_node c p) as [[w l] r] eqn:Et. simplify_eq. destruct (IH _ _ Et) as (-> & Hg & Hr). cbn. by rewrite E.
Qed.

Lemma granted_snoc e p k v v' :
  granted e p v -> match e (p ++ [k]) with Some x => v' = x | None => v' = v end -> granted e (p ++ [k]) v'.
Proof.
  intros Hg Hv. destruct (e (p ++ [k])) as [x|] eqn:E.
  { left. exists (p ++ [k]), []. subst. rewrite app_nil_r. split; [done|]. split; [done|]. intros q' r' Eq Hl. apply (f_equal length) in Eq. rewrite !length_app in *. lia. }
  subst v'. assert (Hsplit : forall q r, p ++ [k] = q ++ r -> q = p ++ [k] \/ exists r', p = q ++ r').
  { intros q r Eq. destruct r as [|y r _] using rev_ind; [left; by rewrite app_nil_r in Eq|]. right. rewrite app_assoc in Eq. apply app_inj_tail in Eq as [-> _]. by exists r. }
  destruct Hg as [(q & r & -> & Hq & Hlong)|[-> Hnone]].
  - left. exists q, (r ++ [k]). split; [by rewrite app_assoc|]. split; [done|]. intros q' r' Eq Hl. destruct (Hsplit q' r' Eq) as [->|[r'' Er]]; [done|]. by apply (Hlong q' r'').
  - right. split; [done|]. intros q r Eq. destruct (Hsplit q r Eq) as [->|[r' Er]]; [done|]. by apply (Hnone q r').
Qed.

(** Beyond the last node nothing is unveiled. *)
Lemma explicit_beyond n walked last k rest q r :
  get_node n walked = Some last -> find_child k (children last) = None -> walked ++ k :: rest = q ++ r -> (length walked < length q)%nat -> explicit n q = None.
Proof.
  intros Hg Hk Eq Hl. assert (exists q', q = walked ++ k :: q') as [q' ->].
  { apply (f_equal (take (length q))) in Eq. rewrite take_app_length in Eq. rewrite <- Eq, take_app_ge by lia.
    destruct (length q - length walked)%nat eqn:El; [lia|]. cbn. by eexists. }
  unfold explicit. rewrite get_node_app, Hg. cbn. by rewrite Hk.
Qed.

Section root.
Context (n : UnveilNode) (Hinh : inherits n) (Hroot : was_explicitly_unveiled n = false -> node_permissions n = 0).

Lemma granted_at_node walked c : get_node n walked = Some c -> granted (explicit n) walked (node_permissions c).
Proof using Hinh Hroot.
  revert c. induction walked as [|k walked IH] using rev_ind; intros c Hc.
  - cbn in Hc. injection Hc as <-. destruct (was_explicitly_unveiled n) eqn:E.
    + left. exists [], []. split; [done|]. split; [unfold explicit; cbn; by rewrite E|]. intros q' r' Eq Hl. symmetry in Eq. apply app_nil in Eq as [-> _]. cbn in Hl. lia.
    + right. split; [by apply Hroot|]. intros q r Eq. symmetry in Eq. apply app_nil in Eq as [-> _]. unfold explicit. cbn. by rewrite E.
  - rewrite get_node_app in Hc. destruct (get_node n walked) as [d|] eqn:Ed; [|done]. cbn in Hc. destruct (find_child k (children d)) as [c0|] eqn:Ec; [|done]. injection Hc as ->.
    apply granted_snoc with (node_permissions d); [by apply IH|]. unfold explicit. rewrite get_node_app, Ed. cbn. rewrite Ec.
    destruct (was_explicitly_unveiled c) eqn:Ex; [done|]. by apply (Hinh walked k).
Qed.

(** The trie grants a path the permission of its longest unveiled prefix. *)
Lemma traverse_granted p walked last rest :
  traverse_until_last_accessible_node n p = (walked, last, rest) -> granted (explicit n) p (node_permissions last).
Proof using Hinh Hroot.
  intros H. destruct (traverse_spec _ _ _ _ _ H) as (-> & Hg & Hr). pose proof (granted_at_node walked last Hg) as Hgr.
  destruct rest as [|k rest]; [by rewrite app_nil_r|]. destruct Hgr as [(q & r & -> & Hq & Hlong)|[Hv Hnone]].
  - left. exists q, (r ++ k :: rest). split; [by rewrite app_assoc|]. split; [done|]. intros q' r' Eq Hl.
    destruct (Nat.le_gt_cases (length q') (length (q ++ r))) as [Hle|Hgt]; [|by eapply explicit_beyond].
    apply (Hlong q' (drop (length q') (q ++ r))); [|done]. apply (f_equal (take (length q'))) in Eq. rewrite take_app_length, take_app_le in Eq by done.
    rewrite <- Eq at 1. by rewrite take_drop.
  - right. split; [done|]. intros q' r' Eq. destruct (Nat.le_gt_cases (length q') (length walked)) as [Hle|Hgt]; [|by eapply explicit_beyond].
    apply (Hnone q' (drop (length q') walked)). apply (f_equal (take (length q'))) in Eq. rewrite take_app_length, take_app_le in Eq by done. rewrite <- Eq at 1. by rewrite take_drop.
Qed.
End root.

(** ** Updates

    [updated n n' p v]: in [n'] the path [p] is unveiled with [v], or nothing is unveiled that was not in [n] when [v]
    is [None]. *)
Definition with_path (e : path -> option Z) (p : path) (v : option Z) (q : path) : option Z :=
  match v with Some _ => if decide (q = p) then v else e q | None => e q end.
Definition updated (n n' : UnveilNode) (p : path) (v : option Z) : Prop :=
  inherits n' /\ (was_explicitly_unveiled n' = true \/ metadata_value n' = metadata_value n)
  /\ forall q, explicit n' q = with_path (explicit n) p v q.

Lemma updated_refl n p : inherits n -> updated n n p None.
Proof. intros H. split; [done|]. split; [by right|done]. Qed.

Lemma with_path_cons e k p v q : with_path e (k :: p) v (k :: q) = with_path (fun q => e (k :: q)) p v q.
Proof. destruct v; [|done]. cbn. destruct (decide (q = p)) as [->|]; [by rewrite decide_True|by rewrite decide_False by congruence]. Qed.

Lemma with_path_other e k p v q : (match q with k' :: _ => k' <> k | [] => True end) -> with_path e (k :: p) v q = e q.
Proof. intros H. destruct v; [|done]. cbn. destruct (decide (q = k :: p)) as [->|]; done. Qed.


(** A changed child changes the paths below it, and no others. *)
Lemma updated_child m cs cs' k c c' p v :
  inherits (mk_node m cs) -> updated c c' p v ->
  (forall k', find_child k' cs' = if decide (k' = k) then Some c' else find_child k' cs) ->
  (forall q, explicit (mk_node m cs) (k :: q) = explicit c q) ->
  (was_explicitly_unveiled c = false -> node_permissions c = permissions m) ->
  updated (mk_node m cs) (mk_node m cs') (k :: p) v.
Proof.
  intros Hinh (Hc & Hmeta & Hexp) Hfind Hbelow Hperm. split; [|split; [by right|]].
  - apply inherits_child. cbn [children]. intros k' d. rewrite Hfind. destruct (decide (k' = k)) as [->|Hne].
    + intros [= <-]. split; [|done]. intros Hd. destruct Hmeta as [|E]; [congruence|]. unfold was_explicitly_unveiled, node_permissions in *. rewrite E in *. by apply Hperm.
    + intros Hd. by apply (proj1 (inherits_child _) Hinh k').
  - intros [|k' q]; [by rewrite with_path_other|]. rewrite explicit_cons. cbn [children]. rewrite Hfind. destruct (decide (k' = k)) as [->|Hne].
    + rewrite with_path_cons, Hexp. destruct v; cbn; [by rewrite Hbelow|by rewrite Hbelow].
    + rewrite with_path_other by done. by rewrite explicit_cons.
Qed.

Lemma at_node_spec walked f p v : forall n c h r c' h',
  inherits n -> get_node n walked = Some c -> f c h = (r, c', h') -> updated c c' p v ->
  exists n', at_node walked f n h = (r, n', h') /\ updated n n' (walked ++ p) v.
Proof.
  induction walked as [|k walked IH]; intros n c h r c' h' Hinh Hg Hf Hu; cbn [at_node get_node app] in *.
  { injection Hg as ->. by exists c'. }
  destruct (find_child k (children n)) as [d|] eqn:Ed; [|done]. destruct (proj1 (inherits_child n) Hinh k d Ed) as [Hperm Hd].
  destruct (IH d c h r c' h' Hd Hg Hf Hu) as (d' & -> & Hu'). eexists. split; [done|]. destruct n as [m cs]. cbn [metadata_value children] in *.
  eapply updated_child; [done|exact Hu'| |intros q; rewrite explicit_cons; cbn; by rewrite Ed|exact Hperm].
  intros k'. by apply find_replace.
Qed.

(** ** Insertion *)
Lemma fresh_inherits m : inherits (mk_node m []).
Proof. by apply inherits_child. Qed.

Lemma fresh_explicit m k q : explicit (mk_node m []) (k :: q) = None.
Proof. done. Qed.

Definition inserted (n n' : UnveilNode) (p : path) (metadata : UnveilMetadata) (r : outcome unit) : Prop :=
  (r = Ok tt /\ updated n n' p (Some (permissions metadata))) \/ (r = Err ENOMEM /\ updated n n' p None).

Lemma insert_loop_spec metadata : explicitly_unveiled metadata = true -> forall it node h,
  inherits node -> match it with [] => children node = [] | k :: _ => find_child k (children node) = None end ->
  exists r node' h', insert_loop it metadata node h = (r, node', h') /\ inserted node node' it metadata r.
Proof.
  intros Hm. induction it as [|k it IH]; intros [m cs] h Hinh Hfree; cbn [insert_loop].
  { cbn in Hfree. subst cs. do 3 eexists. split; [done|]. left. split; [done|]. split; [apply fresh_inherits|]. split; [by left|].
    intros [|k q]; [change (explicit (set_metadata metadata (mk_node m [])) []) with (if explicitly_unveiled metadata then Some (permissions metadata) else None); by rewrite Hm|done]. }
  destruct (allocations 2 h) as [[] h1]; [|do 3 eexists; split; [done|]; right; split; [done|]; by apply updated_refl].
  unfold ensure_child. cbn [children metadata_value] in *. rewrite Hfree.
  destruct (allocations 3 h1) as [[] h2]; [|do 3 eexists; split; [done|]; right; split; [done|]; by apply updated_refl].
  set (fresh := mk_node _ []). destruct (IH fresh h2) as (r & c' & h' & -> & Hins); [apply fresh_inherits|by destruct it|].
  do 3 eexists. split; [done|].
  assert (Hup : forall v, updated fresh c' it v -> updated (mk_node m cs) (mk_node m (cs ++ [(k, c')])) (k :: it) v).
  { intros v Hv. eapply updated_child; [done|exact Hv| | |done].
    - intros k'. rewrite find_app. cbn. destruct (decide (k' = k)) as [->|]; [by rewrite Hfree, bool_decide_eq_true_2|].
      rewrite bool_decide_eq_false_2 by congruence. by destruct (find_child k' cs).
    - intros q. rewrite explicit_cons. cbn [children]. rewrite Hfree. by destruct q. }
  destruct Hins as [[-> Hu]|[-> Hu]]; [left|right]; (split; [done|by apply Hup]).
Qed.

Lemma insert_spec metadata it node h :
  explicitly_unveiled metadata = true -> inherits node -> match it with [] => False | k :: _ => find_child k (children node) = None end ->
  exists r node' h', insert it metadata node h = (r, node', h') /\ inserted node node' it metadata r.
Proof.
  intros Hm Hinh Hfree. destruct it as [|k it]; [done|]. unfold insert. cbn [traverse_until_last_accessible_node]. rewrite Hfree. cbn [at_node].
  by apply insert_loop_spec.
Qed.

(** ** A node that exists *)
Section update_intermediate.
Context (v : Z).
Local Notation update := (update_intermediate_node_permissions v).

Lemma update_children n k : find_child k (children (update n)) = (fun c => if was_explicitly_unveiled c then c else set_permissions v (update c)) <$> find_child k (children n).
Proof. destruct n as [m cs]. cbn [update_intermediate_node_permissions children]. by rewrite (find_map (fun c => if was_explicitly_unveiled c then c else set_permissions v (update c))). Qed.

Lemma update_metadata n : metadata_value (update n) = metadata_value n.
Proof. by destruct n. Qed.

Lemma explicit_set_metadata m n k q : explicit (set_metadata m n) (k :: q) = explicit n (k :: q).
Proof. done. Qed.

Lemma update_explicit q n : explicit (update n) q = explicit n q.
Proof.
  revert n. induction q as [|k q IH]; intros n.
  - unfold explicit. cbn. unfold was_explicitly_unveiled, node_permissions. by rewrite update_metadata.
  - rewrite !explicit_cons, update_children. destruct (find_child k (children n)) as [c|]; [|done]. cbn.
    destruct (was_explicitly_unveiled c) eqn:E; [done|]. destruct q as [|k' q].
    + unfold explicit, set_permissions. cbn. unfold was_explicitly_unveiled in *. cbn. by rewrite update_metadata, E.
    + unfold set_permissions. rewrite explicit_set_metadata. apply IH.
Qed.

Lemma update_inherits n : inherits n -> inherits (set_permissions v (update n)).
Proof.
  intros Hinh p. revert n Hinh. induction p as [|k' p IH]; intros n Hinh k c d Hc Hd Hex; cbn in Hc.
  - injection Hc as <-. unfold set_permissions in Hd. cbn [children set_metadata] in Hd. rewrite update_children in Hd.
    destruct (find_child k (children n)) as [d0|] eqn:E; [|done]. cbn in Hd. injection Hd as <-. destruct (was_explicitly_unveiled d0) eqn:E0; [congruence|done].
  - rewrite update_children in Hc. destruct (find_child k' (children n)) as [c0|] eqn:E; [|done]. cbn in Hc.
    destruct (proj1 (inherits_child n) Hinh k' c0 E) as [_ Hc0]. destruct (was_explicitly_unveiled c0); [by apply (Hc0 p k)|by apply (IH c0 Hc0 k)].
Qed.
End update_intermediate.

Lemma unveil_node_spec v node h : inherits node ->
  if was_explicitly_unveiled node && negb (Z.land v (Z.lnot (node_permissions node)) =? 0)
  then unveil_node v node h = (Err EPERM, node, h)
  else exists node', unveil_node v node h = (Ok tt, node', h) /\ updated node node' [] (Some v).
Proof.
  intros Hinh. unfold unveil_node. destruct (was_explicitly_unveiled node && _); [done|]. eexists. split; [done|]. split; [|split; [by left|]].
  - destruct (Z.eqb_spec (node_permissions node) v) as [<-|Hne].
    + apply inherits_child. intros k d Hd. exact (proj1 (inherits_child node) Hinh k d Hd).
    + apply inherits_child. intros k d Hd. by apply (proj1 (inherits_child _) (update_inherits v node Hinh) k).
  - intros [|k q]; [done|]. rewrite explicit_set_metadata. cbn [with_path]. rewrite decide_False by done.
    destruct (node_permissions node =? v); [done|apply update_explicit].
Qed.

(** ** Paths *)
Lemma split_at_slash p : Forall is_byte p -> split_view p [slash] SplitBehavior_Nothing = Ok (words slash p).
Proof. intros H. unfold split_view. rewrite for_each_word; [|by compute|done]. by rewrite foldl_snoc. Qed.

Definition absolute_path (p : list Z) : Prop := Forall is_byte p /\ is_canonical p = Ok true.

Lemma parts_Ok p : absolute_path p -> parts p = Ok (words slash p).
Proof. intros [Hb Hc]. unfold parts. rewrite Hc. cbn [kbind outcome_monad]. by apply split_at_slash. Qed.

(** The assertions of the validation hold for a canonical path. *)
Lemma canonical_no_dots p : is_canonical p = Ok true ->
  (exists d1, contains p [slash; dot; dot; slash] = Ok d1 /\ d1 || ends_with p [slash; dot; dot] = false)
  /\ exists d2, contains p [slash; dot; slash] = Ok d2 /\ d2 || ends_with p [slash; dot] = false.
Proof.
  unfold is_canonical. destruct (bool_decide (p = [])); [done|]. destruct (ends_with p [slash] && _); [done|].
  destruct (contains p [slash; dot; slash]) as [d2| |]; cbn [kbind outcome_monad]; try done. destruct (starts_with p [dot; slash] || d2 || ends_with p [slash; dot]) eqn:E2; [done|].
  destruct (contains p [slash; dot; dot; slash]) as [d1| |]; cbn [kbind outcome_monad]; try done. destruct (starts_with p [dot; dot; slash] || d1 || ends_with p [slash; dot; dot]) eqn:E1; [done|].
  intros _. bool_hyps. split; [exists d1|exists d2]; (split; [done|]); by apply orb_false_iff.
Qed.

(** ** One veil *)
Definition subset (v v' : Z) : Prop := Z.land v (Z.lnot v') = 0.
Definition veil_ok (d : UnveilData) : Prop := inherits (paths d) /\ (was_explicitly_unveiled (paths d) = false -> node_permissions (paths d) = 0).
Definition locked (d : UnveilData) : Prop := state d = Veil_Locked \/ state d = Veil_LockedInherited.

Definition unveils (d d' : UnveilData) (ps : path) (v : Z) (r : outcome unit) : Prop :=
  match r with
  | Ok _ => state d' = Veil_Dropped /\ updated (paths d) (paths d') ps (Some v) /\ (forall v0, explicit (paths d) ps = Some v0 -> subset v v0)
  | Err EPERM => state d' = state d /\ updated (paths d) (paths d') ps None /\ exists v0, explicit (paths d) ps = Some v0 /\ ~ subset v v0
  | Err ENOMEM => state d' = state d /\ updated (paths d) (paths d') ps None /\ explicit (paths d) ps = None
  | _ => False
  end.

Lemma update_unveil_data_locked d p v h : absolute_path p -> locked d -> exists r, update_unveil_data d p v h = (r, d, h) /\ r <> Panic.
Proof.
  intros Hp Hl. unfold update_unveil_data. rewrite (parts_Ok p Hp). destruct Hl as [-> | ->]; by eexists.
Qed.

Lemma update_unveil_data_open d p v h :
  absolute_path p -> ~ locked d -> inherits (paths d) ->
  exists r d' h', update_unveil_data d p v h = (r, d', h') /\ unveils d d' (words slash p) v r.
Proof.
  intros Hp Hl Hinh. unfold update_unveil_data. rewrite (parts_Ok p Hp). set (ps := words slash p).
  destruct (traverse_until_last_accessible_node (paths d) ps) as [[walked last] rest] eqn:Et. destruct (traverse_spec _ _ _ _ _ Et) as (Hps & Hg & Hrest).
  assert (Hlast : inherits last). { intros q k c c' Hc. apply (Hinh (walked ++ q)). by rewrite get_node_app, Hg. }
  assert (Hgo : exists r n' h', (match rest with [] => at_node walked (unveil_node v) (paths d) h
      | _ => let '(ok, heap) := allocations 1 h in if ok : bool then at_node walked (insert rest (mk_metadata p v true)) (paths d) heap else (Err ENOMEM, paths d, heap) end) = (r, n', h')
      /\ unveils d (mk_unveil_data (match r with Ok _ => Veil_Dropped | _ => state d end) n') ps v r).
  { destruct rest as [|k rest].
    - rewrite app_nil_r in Hps. subst walked. assert (He : explicit (paths d) ps = if was_explicitly_unveiled last then Some (node_permissions last) else None) by (unfold explicit; by rewrite Hg).
      pose proof (unveil_node_spec v last h Hlast) as Hu. destruct (was_explicitly_unveiled last && _) eqn:Eb.
      + destruct (at_node_spec ps (unveil_node v) [] None (paths d) last h _ _ _ Hinh Hg Hu (updated_refl last [] Hlast)) as (n' & -> & Hup). rewrite app_nil_r in Hup.
        do 3 eexists. split; [done|]. split; [done|]. split; [done|]. bool_hyps. rewrite He, H. eexists. split; [done|]. done.
      + destruct Hu as (c' & Hu & Hc'). destruct (at_node_spec ps (unveil_node v) [] (Some v) (paths d) last h _ _ _ Hinh Hg Hu Hc') as (n' & -> & Hup). rewrite app_nil_r in Hup.
        do 3 eexists. split; [done|]. split; [done|]. split; [done|]. intros v0. rewrite He. destruct (was_explicitly_unveiled last); [|done]. intros [= <-].
        cbn in Eb. apply negb_false_iff, Z.eqb_eq in Eb. done.
    - assert (He : explicit (paths d) ps = None) by (unfold explicit; rewrite Hps, get_node_app, Hg; cbn; by rewrite Hrest).
      destruct (allocations 1 h) as [[] h1].
      + destruct (insert_spec (mk_metadata p v true) (k :: rest) last h1) as (r & c' & h2 & Hi & Hins); [done|done|done|].
        destruct Hins as [[-> Hc']|[-> Hc']]; destruct (at_node_spec walked (insert (k :: rest) (mk_metadata p v true)) _ _ (paths d) last h1 _ _ _ Hinh Hg Hi Hc') as (n' & -> & Hup); rewrite <- Hps in Hup;
          do 3 eexists; (split; [done|]); (split; [done|]); (split; [done|]); [|done]. intros v0. by rewrite He.
      + do 3 eexists. split; [done|]. split; [done|]. split; [by apply updated_refl|done]. }
  destruct Hgo as (r & n' & h' & E & Hu). exists r, (mk_unveil_data (match r with Ok _ => Veil_Dropped | _ => state d end) n'), h'. split; [|done].
  unfold locked in Hl. destruct (state d) eqn:Es; try (exfalso; tauto); by rewrite E.
Qed.

(** ** What calls do to a veil *)
Record evolves (d d' : UnveilData) : Prop := {
  ev_ok : veil_ok d -> veil_ok d';
  ev_locked : locked d -> locked d' /\ paths d' = paths d;
  ev_open : state d <> Veil_None -> state d' <> Veil_None;
  ev_shrinks : inherits (paths d) -> forall p v, explicit (paths d) p = Some v -> exists v', explicit (paths d') p = Some v' /\ subset v' v }.

Lemma subset_refl v : subset v v.
Proof. apply Z.land_lnot_diag. Qed.

Lemma subset_bits v v' : subset v v' <-> forall i, 0 <= i -> Z.testbit v i = true -> Z.testbit v' i = true.
Proof.
  unfold subset. split.
  - intros H i Hi Hv. apply (f_equal (fun z => Z.testbit z i)) in H. rewrite Z.land_spec, Z.lnot_spec, Z.bits_0, Hv in H by done. by destruct (Z.testbit v' i).
  - intros H. apply Z.bits_inj_0. intros i. rewrite Z.land_spec. destruct (Z.testbit v i) eqn:E; [|done].
    destruct (Z.le_gt_cases 0 i) as [Hi|Hi]; [by rewrite Z.lnot_spec, H|by rewrite Z.testbit_neg_r in E].
Qed.

Lemma subset_trans v1 v2 v3 : subset v1 v2 -> subset v2 v3 -> subset v1 v3.
Proof. rewrite !subset_bits. eauto. Qed.

Lemma evolves_refl d : evolves d d.
Proof. split; [done|done|done|]. intros _ p v H. exists v. split; [done|apply subset_refl]. Qed.

Lemma evolves_trans d1 d2 d3 : veil_ok d1 -> evolves d1 d2 -> evolves d2 d3 -> evolves d1 d3.
Proof.
  intros H1 [A1 A2 A3 A4] [B1 B2 B3 B4]. split; [auto| |auto|].
  - intros Hl. destruct (A2 Hl) as [Hl2 E]. destruct (B2 Hl2) as [Hl3 E']. split; [done|congruence].
  - intros Hi p v Hv. destruct (A4 Hi p v Hv) as (v2 & Hv2 & Hs). destruct (B4 (proj1 (A1 H1)) p v2 Hv2) as (v3 & Hv3 & Hs'). exists v3. split; [done|]. by eapply subset_trans.
Qed.

Lemma updated_root n n' p v : updated n n' p v -> (was_explicitly_unveiled n = false -> node_permissions n = 0) -> was_explicitly_unveiled n' = false -> node_permissions n' = 0.
Proof. intros (_ & [Hx|Hm] & _) H Hn; [congruence|]. unfold was_explicitly_unveiled, node_permissions in *. rewrite Hm in *. auto. Qed.

Lemma unveils_evolves d d' ps v r : ~ locked d -> unveils d d' ps v r -> evolves d d'.
Proof.
  intros Hl Hu. destruct r as [[]|e|]; [destruct Hu as (Es & Hup & Hsub)| |done].
  - split; [intros [_ Hr]; split; [apply Hup|by eapply updated_root]|done|by rewrite Es|].
    intros _ p v0 Hv0. destruct Hup as (_ & _ & ->). cbn. destruct (decide (p = ps)) as [->|]; [exists v; split; [done|by apply Hsub]|exists v0; split; [done|apply subset_refl]].
  - assert (Hc : state d' = state d /\ updated (paths d) (paths d') ps None) by (destruct e; try done; by destruct Hu as (? & ? & _)). destruct Hc as [Es Hup].
    split; [intros [_ Hr]; split; [apply Hup|by eapply updated_root]|by intros|by rewrite Es|].
    intros _ p v0 Hv0. destruct Hup as (_ & _ & ->). cbn. exists v0. split; [done|apply subset_refl].
Qed.

Lemma update_unveil_data_evolves d p v h :
  absolute_path p -> veil_ok d -> exists r d' h', update_unveil_data d p v h = (r, d', h') /\ r <> Panic /\ evolves d d' /\ (state d' = state d \/ state d' = Veil_Dropped).
Proof.
  intros Hp [Hinh _]. assert (Hdec : locked d \/ ~ locked d) by (unfold locked; destruct (state d); naive_solver). destruct Hdec as [Hl|Hl].
  - destruct (update_unveil_data_locked d p v h Hp Hl) as (r & E & Hr). exists r, d, h. split; [done|]. split; [done|]. split; [apply evolves_refl|by left].
  - destruct (update_unveil_data_open d p v h Hp Hl Hinh) as (r & d' & h' & E & Hu). exists r, d', h'. split; [done|]. split; [by intros ->|]. split; [by eapply unveils_evolves|].
    destruct r as [|e|]; [right; apply Hu| |done]. left. destruct e; try done; apply Hu.
Qed.

(** ** The process *)
Definition resolver_ok (resolve : list Z -> resolution) : Prop := forall p,
  match resolve p with
  | Resolved a => absolute_path a
  | Unresolved _ (Some d) => exists a, joined d (basename p) = Ok a /\ absolute_path a
  | Unresolved _ None => True
  end.

Record process_ok (s : VS) : Prop := {
  po_current : veil_ok (unveil_data s);
  po_exec : veil_ok (exec_unveil_data s);
  po_exec_state : state (exec_unveil_data s) = Veil_None \/ state (exec_unveil_data s) = Veil_Dropped }.

(** Only the allocation script has changed. *)
Definition same_veils (s s' : VS) : Prop := unveil_data s' = unveil_data s /\ exec_unveil_data s' = exec_unveil_data s.

Lemma allocate_wp s Q : (forall s' r, same_veils s s' -> r = Ok tt \/ r = Err ENOMEM -> Q r s') -> wp allocate s Q.
Proof. intros H. unfold wp, allocate. destruct (allocations 1 (veil_heap s)) as [[] h]; (apply H; [by split|auto]). Qed.

(** The path argument, when it has an acceptable length and can be read *)
Definition read_user_path (user : UserString) (len : Z) : option (list Z) :=
  if (len =? 0) || (PATH_MAX <? len) || negb (user_in_range user) then None else read_user_string (user_bytes user) 0 (Z.to_nat len).

Lemma get_syscall_path_argument_wp user len s :
  wp (get_syscall_path_argument user len) s (fun r s' => same_veils s s' /\
    match r with
    | Ok p => read_user_path user len = Some p
    | Err _ => True
    | Panic => False
    end).
Proof.
  unfold get_syscall_path_argument, try_copy_kstring_from_user, read_user_path. destruct (len =? 0); [by wp_step|]. destruct (PATH_MAX <? len); [by wp_step|].
  destruct (user_in_range user); [|by wp_step]. cbn [negb orb].
  destruct (read_user_string _ _ _) as [l|] eqn:E; [|by wp_step]. wp_step. apply allocate_wp. intros s' r Hs [-> | ->]; [|done]. by wp_step.
Qed.

(** The path and the permissions that a call asks for *)
Definition resolves (resolve : list Z -> resolution) (p : list Z) (v : Z) (a : list Z) : Prop :=
  resolve p = Resolved a \/ exists d, resolve p = Unresolved ENOENT (Some d) /\ has v CreateOrRemove = true /\ joined d (basename p) = Ok a.

Lemma resolved_path_wp resolve p v s : resolver_ok resolve ->
  wp (resolved_path resolve p v) s (fun r s' => same_veils s s' /\
    match r with Ok a => resolves resolve p v a /\ absolute_path a | Err _ => True | Panic => False end).
Proof.
  intros Hres. specialize (Hres p). unfold resolved_path, resolves. destruct (resolve p) as [a|e [d|]].
  - wp_step. apply allocate_wp. intros s' r Hs [-> | ->]; [|done]. wp_step. split; [done|]. split; [by left|done].
  - destruct Hres as (a & Ej & Ha). wp_step; [|by wp_step]. bool_hyps. wp_step. apply allocate_wp. intros s1 r Hs1 [-> | ->]; [|done].
    wp_step. apply wp_lift. rewrite Ej. wp_step. apply allocate_wp. intros s2 r Hs2 [-> | ->]; [|split; [by unfold same_veils in *; intuition congruence|done]]. wp_step.
    split; [unfold same_veils in *; intuition congruence|]. split; [|done]. right. exists d. apply bool_decide_eq_true in H as ->. split; [done|]. split; [|done].
    unfold has. by rewrite (proj2 (Z.eqb_neq _ _)).
  - by wp_step.
Qed.

Lemma parse_permissions_spec l acc : (exists v, parse_permissions l acc = Ok v) \/ parse_permissions l acc = Err EINVAL.
Proof.
  revert acc. induction l as [|c l IH]; intros acc; cbn [parse_permissions]; [left; by eexists|].
  repeat (match goal with |- context [if ?b then _ else _] => destruct b end); auto.
Qed.

Lemma permissions_buffer_spec user len : (exists b, try_copy_string_from_user_into_fixed_string_buffer 5 user len = Ok b) \/ exists e, try_copy_string_from_user_into_fixed_string_buffer 5 user len = Err e.
Proof.
  unfold try_copy_string_from_user_into_fixed_string_buffer, copy_characters_from_user. repeat (match goal with |- context [if ?b then _ else _] => destruct b end); eauto.
  destruct (read_user_string _ _ _); eauto.
Qed.

(** The arguments of a call that is neither refused nor ignored *)
Definition requested (resolve : list Z -> resolution) (params : SC_unveil_params) (a : list Z) (v : Z) : Prop :=
  exists user_path path_length user_permissions permissions_length p b,
    arg_path params = Some (user_path, path_length) /\ arg_permissions params = Some (user_permissions, permissions_length)
    /\ read_user_path user_path path_length = Some p /\ is_absolute p = true
    /\ try_copy_string_from_user_into_fixed_string_buffer 5 user_permissions permissions_length = Ok b
    /\ parse_permissions (representable_view b) 0 = Ok v /\ resolves resolve p v a.

(** The veil [d] becomes [d'], when the flag [b] of the call names it. *)
Definition touched (b : bool) (d d' : UnveilData) (a : list Z) (v : Z) (r : outcome unit) : Prop :=
  if b then exists h h', update_unveil_data d a v h = (r, d', h') else r = Ok tt /\ d' = d.

(** The two updates of a call with the flags [f]: first the veil of the process, then that of its next program *)
Definition updates (f : Z) (a : list Z) (v : Z) (s : VS) (r : outcome Z) (s' : VS) : Prop :=
  exists r1, touched (has f CurrentProgram) (unveil_data s) (unveil_data s') a v r1
    /\ match r1 with
       | Ok _ => exists r2, touched (has f AfterExec) (exec_unveil_data s) (exec_unveil_data s') a v r2 /\ r = (_ ← r2; Ok 0)
       | _ => exec_unveil_data s' = exec_unveil_data s /\ r = (_ ← r1; Ok 0)
       end.

(** A call locks the veil, does nothing, or updates the veils that its flags name with the requested path. *)
Definition call_effect (resolve : list Z -> resolution) (params : option SC_unveil_params) (s : VS) (r : outcome Z) (s' : VS) : Prop :=
  (r = Ok 0 /\ (exists q, params = Some q /\ arg_path q = None /\ arg_permissions q = None)
    /\ unveil_data s' = set_state Veil_Locked (unveil_data s) /\ exec_unveil_data s' = exec_unveil_data s)
  \/ (same_veils s s' /\ ((exists e, r = Err e) \/ (r = Ok 0 /\ state (unveil_data s) = Veil_LockedInherited)))
  \/ (exists q a v, params = Some q /\ requested resolve q a v /\ absolute_path a /\ updates (arg_flags q) a v s r s').

Lemma same_veils_trans s1 s2 s3 : same_veils s1 s2 -> same_veils s2 s3 -> same_veils s1 s3.
Proof. unfold same_veils. intuition congruence. Qed.

Lemma update_current_wp a v s Q :
  (forall r d h, update_unveil_data (unveil_data s) a v (veil_heap s) = (r, d, h) -> Q r (mk_VS d (exec_unveil_data s) h)) -> wp (update_current a v) s Q.
Proof. intros H. unfold wp, update_current. destruct (update_unveil_data _ _ _ _) as [[r d] h]. by apply H. Qed.

Lemma update_exec_wp a v s Q :
  (forall r d h, update_unveil_data (exec_unveil_data s) a v (veil_heap s) = (r, d, h) -> Q r (mk_VS (unveil_data s) d h)) -> wp (update_exec a v) s Q.
Proof. intros H. unfold wp, update_exec. destruct (update_unveil_data _ _ _ _) as [[r d] h]. by apply H. Qed.

Lemma updates_wp f a v s :
  state (exec_unveil_data s) <> Veil_LockedInherited ->
  wp ((if has f CurrentProgram then update_current a v else kret tt);;
      (if has f AfterExec then
         exec_state ← gets (fun s => state (exec_unveil_data s));
         VERIFY (negb (bool_decide (exec_state = Veil_LockedInherited)));;
         update_exec a v
       else kret tt);;
      kret 0) s (updates f a v s).
Proof.
  intros He.
  assert (Hexec : forall s1, exec_unveil_data s1 = exec_unveil_data s -> touched (has f CurrentProgram) (unveil_data s) (unveil_data s1) a v (Ok tt) ->
    wp ((if has f AfterExec then exec_state ← gets (fun s => state (exec_unveil_data s)); VERIFY (negb (bool_decide (exec_state = Veil_LockedInherited)));; update_exec a v else kret tt);; kret 0) s1 (updates f a v s)).
  { intros s1 E1 Ht. wp_step. destruct (has f AfterExec) eqn:Ea.
    - wp_step. wp_step. wp_step. apply wp_VERIFY; [by rewrite E1, bool_decide_eq_false_2|]. apply update_exec_wp. intros r d h Hu.
      assert (Ht2 : touched (has f AfterExec) (exec_unveil_data s) d a v r) by (rewrite Ea, <- E1; by eexists _, _).
      destruct r as [[]| |]; [wp_step|..]; exists (Ok tt); (split; [exact Ht|]); eexists; (split; [exact Ht2|done]).
    - wp_step. wp_step. exists (Ok tt). split; [exact Ht|]. exists (Ok tt). by rewrite Ea. }
  wp_step. destruct (has f CurrentProgram) eqn:Ec; [|wp_step; by apply Hexec]. apply update_current_wp. intros r d h Hu.
  assert (Ht : touched (has f CurrentProgram) (unveil_data s) d a v r) by (rewrite Ec; by eexists _, _).
  destruct r as [[]| |]; [apply Hexec; [done|by rewrite <- Ec]|..]; eexists; (split; [exact Ht|done]).
Qed.

Lemma sys_unveil_wp resolve params s : process_ok s -> resolver_ok resolve -> wp (sys_unveil resolve params) s (call_effect resolve params s).
Proof.
  intros [_ _ Hx] Hres. assert (Hsame : forall r s', same_veils s s' -> (exists e, r = Err e) -> call_effect resolve params s r s') by (intros r s' Hs Hr; right; left; auto).
  unfold sys_unveil. wp_step. apply wp_lift. destruct params as [q|]; [cbn [kret outcome_monad]|apply Hsame; [done|by eexists]].
  wp_step.
  { wp_step. wp_step. wp_step. left. bool_hyps. split; [done|]. split; [exists q; split; [done|]; split; by eapply bool_decide_eq_true_1|done]. }
  fold (has (arg_flags q) CurrentProgram) (has (arg_flags q) AfterExec). wp_step; [wp_step; apply Hsame; [done|by eexists]|].
  repeat match goal with X : _ = false |- _ => clear X end. wp_step. wp_step. wp_step.
  { wp_step. bool_hyps. right; left. split; [done|]. right. split; [done|]. by eapply bool_decide_eq_true_1. }
  repeat match goal with X : _ = false |- _ => clear X end. wp_step; [wp_step; apply Hsame; [done|by eexists]|]. match goal with X : _ = false |- _ => clear X end.
  destruct (arg_path q) as [[up pl]|] eqn:Ep; [|wp_step; apply Hsame; [done|by eexists]].
  destruct (arg_permissions q) as [[um ml]|] eqn:Em; [|wp_step; apply Hsame; [done|by eexists]].
  wp_step. eapply wp_mono; [apply get_syscall_path_argument_wp|]. intros [p|e|] s1 [Hs1 Hread]; [|apply Hsame; [done|by eexists]|done].
  wp_step; [wp_step; apply Hsame; [done|by eexists]|]. bool_hyps. wp_step. apply wp_lift.
  destruct (permissions_buffer_spec um ml) as [[b Eb]|[e Eb]]; rewrite Eb; [|apply Hsame; [done|by eexists]].
  wp_step. apply wp_lift. destruct (parse_permissions_spec (representable_view b) 0) as [[v Ev]|Ev]; rewrite Ev; [|apply Hsame; [done|by eexists]].
  wp_step. eapply wp_mono; [by apply resolved_path_wp|]. intros [a|e|] s2 [Hs2 Ha]; [|apply Hsame; [by eapply same_veils_trans|by eexists]|done].
  destruct Ha as [Hrs Ha]. pose proof (same_veils_trans _ _ _ Hs1 Hs2) as [E1 E2]. eapply wp_mono; [apply updates_wp; rewrite E2; by destruct Hx as [-> | ->]|].
  intros r s' Hup. right; right. unfold updates in *. rewrite E1, E2 in Hup. exists q, a, v. split; [done|]. split; [|done].
  exists up, pl, um, ml, p, b. done.
Qed.

(** ** execve and fork *)
Lemma deep_copy_spec : forall n h, (exists h', deep_copy n h = (Ok n, h')) \/ exists h', deep_copy n h = (Err ENOMEM, h').
Proof.
  fix IH 1. intros [m cs] h. cbn [deep_copy]. destruct (allocations 2 h) as [[] h1]; [|right; by eexists].
  set (copy := fix copy_children (cs : list (list Z * UnveilNode)) (done : list (list Z * UnveilNode)) (heap : list bool) := _).
  assert (Hc : forall dn h, (exists h', copy cs dn h = (Ok (dn ++ cs), h')) \/ exists h', copy cs dn h = (Err ENOMEM, h')).
  { induction cs as [|[k c] cs IHcs]; intros dn h2; [left; rewrite app_nil_r; by eexists|]. cbn -[allocations].
    destruct (IH c h2) as [[h3 ->]|[h3 ->]]; [|right; by eexists]. destruct (allocations 3 h3) as [[] h4]; [|right; by eexists].
    destruct (IHcs (dn ++ [(k, c)]) h4) as [[h5 ->]|[h5 ->]]; [left|right; by eexists]. eexists. by rewrite <- app_assoc. }
  destruct (Hc [] h1) as [[h2 E]|[h2 E]]; rewrite E; [left|right]; eexists; reflexivity.
Qed.

Lemma empty_root_ok st : veil_ok (mk_unveil_data st empty_root).
Proof. split; [apply fresh_inherits|done]. Qed.

(** What the next program gets *)
Definition next_veil (s : VS) : UnveilData :=
  if bool_decide (state (exec_unveil_data s) = Veil_Dropped) then mk_unveil_data Veil_LockedInherited (paths (exec_unveil_data s)) else mk_unveil_data Veil_None empty_root.

Definition after_execve (s : VS) (r : outcome unit) (s' : VS) : Prop :=
  process_ok s' /\ (r = Err ENOMEM \/ (r = Ok tt /\ unveil_data s' = next_veil s /\ exec_unveil_data s' = mk_unveil_data Veil_None empty_root)).

Lemma clear_exec_veil_wp s s1 :
  veil_ok (unveil_data s1) -> veil_ok (exec_unveil_data s1) -> state (exec_unveil_data s1) = Veil_None -> unveil_data s1 = next_veil s -> wp clear_exec_veil s1 (after_execve s).
Proof.
  intros H1 H2 E Hn. unfold clear_exec_veil. wp_step. wp_step. wp_step. apply allocate_wp. intros s2 r [E1 E2] [-> | ->]; cbn in E1, E2.
  - wp_step. split; [|right; cbn; rewrite E1, E2; cbn; by rewrite E]. split; cbn; [by rewrite E1|rewrite E2; apply empty_root_ok|left; by rewrite E2].
  - split; [|by left]. split; [by rewrite E1|rewrite E2; split; [apply fresh_inherits|apply H2]|left; by rewrite E2].
Qed.

Lemma execve_veil_wp s : process_ok s -> wp execve_veil s (after_execve s).
Proof.
  intros [Hc Hx _]. unfold execve_veil. pose proof (clear_exec_veil_wp s) as Hclear. unfold next_veil in Hclear.
  wp_step. wp_step. wp_step. destruct (bool_decide _) eqn:Eb.
  - wp_step. wp_step. unfold wp at 1. cbn [unveil_data exec_unveil_data paths state set_state veil_heap].
    destruct (deep_copy_spec (paths (exec_unveil_data s)) (veil_heap s)) as [[h ->]|[h ->]]; cbn [fst snd].
    + apply Hclear; cbn; [apply Hx|apply Hx|done|done].
    + split; [|by left]. split; [apply Hc|apply Hx|by left].
  - wp_step. wp_step. wp_step. apply allocate_wp. intros s2 r [E1 E2] [-> | ->]; cbn in E1, E2.
    + wp_step. apply Hclear; cbn; rewrite ?E1, ?E2; [apply empty_root_ok|apply Hx|done|done].
    + split; [|by left]. split; [rewrite E1; split; [apply fresh_inherits|apply Hc]|rewrite E2; apply Hx|rewrite E2; by left].
Qed.

Lemma fork_veil_spec d h d' h' : fork_veil d h = (Ok d', h') -> d' = d.
Proof.
  unfold fork_veil. destruct (deep_copy_spec (paths d) h) as [[h1 ->]|[h1 ->]]; cbn; [|done]. intros [= <- _]. by destruct d.
Qed.

(** ** The processes of the system *)
Inductive reachable : VS -> Prop :=
| reach_start h : reachable (mk_VS (mk_unveil_data Veil_None empty_root) (mk_unveil_data Veil_None empty_root) h)
| reach_unveil resolve params s : reachable s -> resolver_ok resolve -> reachable (sys_unveil resolve params s).2
| reach_execve s : reachable s -> reachable (execve_veil s).2
| reach_fork s d1 d2 h1 h2 : reachable s -> fork_veil (unveil_data s) (veil_heap s) = (Ok d1, h1) -> fork_veil (exec_unveil_data s) h1 = (Ok d2, h2) -> reachable (mk_VS d1 d2 h2)
| reach_heap s h : reachable s -> reachable (mk_VS (unveil_data s) (exec_unveil_data s) h).

Lemma touched_evolves b d d' a v r : absolute_path a -> veil_ok d -> touched b d d' a v r -> r <> Panic /\ evolves d d' /\ (state d' = state d \/ state d' = Veil_Dropped).
Proof.
  intros Ha Hd. destruct b; [|intros [-> ->]; split; [done|]; split; [apply evolves_refl|by left]].
  intros (h & h' & E). destruct (update_unveil_data_evolves d a v h Ha Hd) as (r' & d0 & h0 & E' & H). rewrite E in E'. by simplify_eq.
Qed.

Lemma set_locked_evolves d : evolves d (set_state Veil_Locked d).
Proof. split; [done|by intros; split; [left|]|done|]. intros _ p v H. exists v. split; [done|apply subset_refl]. Qed.

Lemma call_effect_evolves resolve params s r s' : process_ok s -> call_effect resolve params s r s' ->
  r <> Panic /\ evolves (unveil_data s) (unveil_data s') /\ process_ok s'.
Proof.
  intros Hs. pose proof Hs as [Hc Hx Hst]. intros [(-> & _ & E1 & E2)|[[[E1 E2] Hr]|(q & a & v & _ & _ & Ha & r1 & Ht & Hr)]].
  - split; [done|]. rewrite E1. split; [apply set_locked_evolves|]. split; rewrite ?E1, ?E2; done.
  - split; [destruct Hr as [[e ->]|[-> _]]; done|]. rewrite E1. split; [apply evolves_refl|]. split; by rewrite ?E1, ?E2.
  - destruct (touched_evolves _ _ _ _ _ _ Ha Hc Ht) as (Hr1 & Hev & _).
    assert (Hexec : exists r2, touched (has (arg_flags q) AfterExec) (exec_unveil_data s) (exec_unveil_data s') a v r2 \/ exec_unveil_data s' = exec_unveil_data s).
    { destruct r1; [destruct Hr as (r2 & H & _); exists r2; by left|exists (Ok tt); right; apply Hr|done]. }
    destruct Hexec as [r2 [Ht2|E2]].
    + destruct (touched_evolves _ _ _ _ _ _ Ha Hx Ht2) as (Hr2 & Hev2 & Hst2). split; [|split; [done|]].
      * destruct r1; [|by destruct Hr as [_ ->]|done]. destruct Hr as (r3 & Ht3 & ->). destruct (touched_evolves _ _ _ _ _ _ Ha Hx Ht3) as (Hr3 & _ & _). by destruct r3.
      * split; [by apply Hev|by apply Hev2|]. destruct Hst2 as [-> | ->]; auto.
    + split; [|split; [done|]].
      * destruct r1; [|by destruct Hr as [_ ->]|done]. destruct Hr as (r3 & Ht3 & ->). destruct (touched_evolves _ _ _ _ _ _ Ha Hx Ht3) as (Hr3 & _ & _). by destruct r3.
      * split; [by apply Hev|by rewrite E2|by rewrite E2].
Qed.

Lemma reachable_ok s : reachable s -> process_ok s.
Proof.
  induction 1 as [h|resolve params s _ IH Hres|s _ IH|s d1 d2 h1 h2 _ IH E1 E2|s h _ IH].
  - split; [apply empty_root_ok|apply empty_root_ok|by left].
  - pose proof (sys_unveil_wp resolve params s IH Hres) as H. unfold wp in H. by apply call_effect_evolves in H as (_ & _ & H).
  - apply (execve_veil_wp s IH).
  - apply fork_veil_spec in E1 as ->. apply fork_veil_spec in E2 as ->. destruct IH. by split.
  - destruct IH. by split.
Qed.

(** ** What the veil grants *)
Lemma granted_unique e p v v' : granted e p v -> granted e p v' -> v = v'.
Proof.
  assert (Hlt : forall q r q' r', p = q ++ r -> p = q' ++ r' -> length q = length q' -> q = q').
  { intros q r q' r' -> E El. by apply app_inj_1 in E as [-> _]. }
  intros [(q & r & Ep & Eq & Hl)|[-> Hn]] [(q' & r' & Ep' & Eq' & Hl')|[-> Hn']]; [|by rewrite (Hn' q r Ep) in Eq|by rewrite (Hn q' r' Ep') in Eq'|done].
  destruct (lt_eq_lt_dec (length q) (length q')) as [[H|H]|H].
  - by rewrite (Hl q' r' Ep' H) in Eq'.
  - rewrite (Hlt q r q' r' Ep Ep' H) in Eq. congruence.
  - by rewrite (Hl' q r Ep H) in Eq.
Qed.

(** The permissions [v] allow opening a path with the given options. *)
Definition allows (v options : Z) : Prop :=
  (has options O_CREAT = true -> has v CreateOrRemove = true)
  /\ if has options O_UNLINK_INTERNAL then has v CreateOrRemove = true else
     (has options O_RDONLY = true -> has v Read = true \/ (has options O_DIRECTORY = true /\ has v Browse = true))
     /\ (has options O_WRONLY = true -> has v Write = true) /\ (has options O_EXEC = true -> has v Execute = true).

(** The answer of the veil for a path when [v] is granted for it *)
Definition answers (v options : Z) (r : outcome unit) : Prop :=
  (r = Ok tt /\ v <> 0 /\ allows v options) \/ (r = Err ENOENT /\ v = 0) \/ (r = Err EACCES /\ v <> 0 /\ ~ allows v options).

Lemma has_lor v a b : has v (Z.lor a b) = has v a || has v b.
Proof.
  unfold has. rewrite Z.land_lor_distr_r. destruct (Z.eqb_spec (Z.land v a) 0) as [->|Ha]; [by rewrite Z.lor_0_l|].
  rewrite (proj2 (Z.eqb_neq _ _)); [done|]. by intros [E _]%Z.lor_eq_0_iff.
Qed.

Definition allowed (v options : Z) : bool :=
  implb (has options O_CREAT) (has v CreateOrRemove)
  && if has options O_UNLINK_INTERNAL then has v CreateOrRemove else
     implb (has options O_RDONLY) (has v Read || (has options O_DIRECTORY && has v Browse))
     && (implb (has options O_WRONLY) (has v Write) && implb (has options O_EXEC) (has v Execute)).

Lemma implb_spec a b : (a = true -> b = true) <-> implb a b = true.
Proof. destruct a, b; naive_solver. Qed.

Lemma allowed_spec v options : allows v options <-> allowed v options = true.
Proof.
  unfold allows, allowed. rewrite andb_true_iff, <- implb_spec. destruct (has options O_UNLINK_INTERNAL); [done|].
  rewrite !andb_true_iff, <- !implb_spec, orb_true_iff, andb_true_iff. done.
Qed.

Lemma answers_exact p options :
  answers p options (if p =? 0 then Err ENOENT else
  if has options O_CREAT && negb (has p CreateOrRemove) then Err EACCES else
  if has options O_UNLINK_INTERNAL then (if has p CreateOrRemove then kret tt else Err EACCES) else
  if has options O_RDONLY && negb (has p (if has options O_DIRECTORY then Z.lor Read Browse else Read)) then Err EACCES else
  if has options O_WRONLY && negb (has p Write) then Err EACCES else
  if has options O_EXEC && negb (has p Execute) then Err EACCES else
  kret tt).
Proof.
  assert (Hd : has p (if has options O_DIRECTORY then Z.lor Read Browse else Read) = has p Read || (has options O_DIRECTORY && has p Browse)).
  { destruct (has options O_DIRECTORY); [apply has_lor|by rewrite orb_false_r]. }
  rewrite Hd. clear Hd. unfold answers. destruct (Z.eqb_spec p 0) as [Hp|Hp]; [by right; left|]. rewrite allowed_spec. match goal with |- context [?x = Ok tt] => assert (Hr : x = if allowed p options then Ok tt else Err EACCES) end.
  { unfold allowed. destruct (has options O_CREAT), (has p CreateOrRemove); try done; destruct (has options O_UNLINK_INTERNAL); try done;
      destruct (has options O_RDONLY), (has p Read || _); try done; destruct (has options O_WRONLY), (has p Write); try done; destruct (has options O_EXEC), (has p Execute); done. }
  rewrite Hr. destruct (allowed p options); [by left|]. right; right. done.
Qed.

Lemma validate_spec d p options : veil_ok d -> absolute_path p -> is_absolute p = true -> state d <> Veil_None ->
  exists v, granted (explicit (paths d)) (words slash p) v /\ answers v options (validate_path_against_process_veil d p options).
Proof.
  intros [Hinh Hroot] Hp Habs Hst. unfold validate_path_against_process_veil, find_matching_unveiled_path. rewrite (bool_decide_eq_false_2 _ Hst).
  unfold is_absolute in Habs. rewrite Habs. cbn [negb]. destruct (canonical_no_dots p (proj2 Hp)) as [(d1 & -> & E1) (d2 & -> & E2)]. cbn [kbind outcome_monad]. rewrite E1. rewrite E2.
  rewrite (parts_Ok p Hp). cbn [kbind outcome_monad]. destruct (traverse_until_last_accessible_node (paths d) (words slash p)) as [[walked last] rest] eqn:Et.
  exists (node_permissions last). split; [by eapply traverse_granted|]. cbn [kret outcome_monad kbind]. apply answers_exact.
Qed.

(** ** Properties *)
(** C3: In every process that unveil, execve and fork lead to, with any allocation failing, the veil answers for every
    canonical absolute path exactly by the longest unveiled prefix of the path: it lets the access pass when the
    permissions of that prefix allow it, hides the path (ENOENT) when they are empty or nothing above is unveiled, and
    refuses (EACCES) otherwise; without a veil everything passes.  No assertion of the lookup fails. *)
Theorem unveil_grants_longest_prefix s p options :
  reachable s -> absolute_path p -> is_absolute p = true ->
  if bool_decide (state (unveil_data s) = Veil_None) then validate_path_against_process_veil (unveil_data s) p options = Ok tt
  else exists v, (forall v', granted (explicit (paths (unveil_data s))) (words slash p) v' <-> v' = v)
    /\ answers v options (validate_path_against_process_veil (unveil_data s) p options).
Proof.
  intros Hs Hp Habs. destruct (reachable_ok s Hs) as [Hc _ _]. destruct (bool_decide_reflect (state (unveil_data s) = Veil_None)) as [E|E].
  - unfold validate_path_against_process_veil. by rewrite E.
  - destruct (validate_spec _ p options Hc Hp Habs E) as (v & Hg & Ha). exists v. split; [|done]. intros v'. split; [intros Hv'; by eapply granted_unique|by intros ->].
Qed.

(** What unveiling the path [a] with [v] does to a veil when the result is [r] *)
Definition unveil_effect (d : UnveilData) (a : list Z) (v : Z) (r : outcome unit) (d' : UnveilData) : Prop :=
  let old := explicit (paths d) in
  match r with
  | Ok _ => (state d = Veil_LockedInherited /\ d' = d)
      \/ (~ locked d /\ state d' = Veil_Dropped /\ (forall v0, old (words slash a) = Some v0 -> subset v v0)
          /\ forall q, explicit (paths d') q = if decide (q = words slash a) then Some v else old q)
  | Err e => state d' = state d /\ (forall q, explicit (paths d') q = old q)
      /\ ((e = EPERM /\ (state d = Veil_Locked \/ exists v0, old (words slash a) = Some v0 /\ ~ subset v v0)) \/ (e = ENOMEM /\ ~ locked d))
  | Panic => False
  end.

Lemma update_unveil_data_effect d a v h r d' h' : absolute_path a -> veil_ok d -> update_unveil_data d a v h = (r, d', h') -> unveil_effect d a v r d'.
Proof.
  intros Ha [Hinh _] E. assert (Hdec : locked d \/ ~ locked d) by (unfold locked; destruct (state d); naive_solver). destruct Hdec as [Hl|Hl].
  - unfold update_unveil_data in E. rewrite (parts_Ok a Ha) in E. destruct Hl as [Hl|Hl]; rewrite Hl in E; simplify_eq; cbn; [|by left]. split; [done|]. split; [done|]. left. auto.
  - destruct (update_unveil_data_open d a v h Ha Hl Hinh) as (r0 & d0 & h0 & E0 & Hu). rewrite E0 in E. simplify_eq. destruct r as [[]|e|]; [|destruct e; try done|done]; cbn.
    + right. destruct Hu as (? & (_ & _ & Hex) & ?). split; [done|]. split; [done|]. split; [done|]. intros q. rewrite Hex. done.
    + destruct Hu as (? & (_ & _ & Hex) & v0 & ?). split; [done|]. split; [intros q; by rewrite Hex|]. left. split; [done|]. right. by exists v0.
    + destruct Hu as (? & (_ & _ & Hex) & ?). split; [done|]. split; [intros q; by rewrite Hex|]. by right.
Qed.

(** ** Without failing allocations *)
Definition succeeds (f : UnveilNode -> list bool -> outcome unit * UnveilNode * list bool) : Prop :=
  forall n, exists n', f n [] = (Ok tt, n', []).

Lemma insert_loop_succeeds metadata it : succeeds (insert_loop it metadata).
Proof.
  induction it as [|k it IH]; intros n; cbn [insert_loop allocations]; [by eexists|]. unfold ensure_child. destruct (find_child k (children n)) as [c|]; cbn [allocations].
  - destruct (IH (set_metadata (mk_metadata (node_path n ++ slash :: k) (node_permissions n) false) c)) as [c' ->]. by eexists.
  - destruct (IH (mk_node (mk_metadata (node_path n ++ slash :: k) (node_permissions n) false) [])) as [c' ->]. by eexists.
Qed.

Lemma at_node_result walked f r : forall n c, get_node n walked = Some c -> (exists c', f c [] = (r, c', [])) -> exists n', at_node walked f n [] = (r, n', []).
Proof.
  induction walked as [|k walked IH]; intros n c Hc Hf; cbn in Hc |- *; [by simplify_eq|]. destruct (find_child k (children n)) as [d|]; [|done].
  destruct (IH d c Hc Hf) as [d' ->]. by eexists.
Qed.

Lemma insert_succeeds metadata it : succeeds (insert it metadata).
Proof.
  intros n. unfold insert. destruct (traverse_until_last_accessible_node n it) as [[walked last] rest] eqn:Et. destruct (traverse_spec _ _ _ _ _ Et) as (_ & Hg & _).
  eapply at_node_result; [exact Hg|]. apply insert_loop_succeeds.
Qed.

Lemma update_unveil_data_memory d a v : absolute_path a -> exists r d', update_unveil_data d a v [] = (r, d', []) /\ r <> Err ENOMEM.
Proof.
  intros Ha. unfold update_unveil_data. rewrite (parts_Ok a Ha). set (ps := words slash a).
  assert (Hgo : exists r d', (let '(walked, _, it) := traverse_until_last_accessible_node (paths d) ps in
     let '(result, node, heap) := match it with [] => at_node walked (unveil_node v) (paths d) []
       | _ => let '(ok, heap) := allocations 1 [] in if ok : bool then at_node walked (insert it (mk_metadata a v true)) (paths d) heap else (Err ENOMEM, paths d, heap) end in
     (result, mk_unveil_data (match result with Ok _ => Veil_Dropped | _ => state d end) node, heap)) = (r, d', []) /\ r <> Err ENOMEM).
  { destruct (traverse_until_last_accessible_node (paths d) ps) as [[walked last] rest] eqn:Et. destruct (traverse_spec _ _ _ _ _ Et) as (_ & Hg & _).
    destruct rest as [|k rest]; cbn [allocations].
    - destruct (at_node_result walked (unveil_node v) (unveil_node v last []).1.1 (paths d) last Hg) as [n' ->].
      { unfold unveil_node. destruct (was_explicitly_unveiled last && _); by eexists. }
      do 2 eexists. split; [done|]. unfold unveil_node. by destruct (was_explicitly_unveiled last && _).
    - destruct (at_node_result walked _ (Ok tt) (paths d) last Hg (insert_succeeds (mk_metadata a v true) (k :: rest) last)) as [n' ->]. by do 2 eexists. }
  destruct (state d); [exact Hgo|exact Hgo|by do 2 eexists|by do 2 eexists].
Qed.

(** ** The effect of a call *)
(** The effects on the veil of the process and, when this succeeds, on that of its next program *)
Definition unveil_effects (f : Z) (a : list Z) (v : Z) (s : VS) (r : outcome Z) (s' : VS) : Prop :=
  exists r1, (if has f CurrentProgram then unveil_effect (unveil_data s) a v r1 (unveil_data s') else r1 = Ok tt /\ unveil_data s' = unveil_data s)
    /\ match r1 with
       | Ok _ => exists r2, (if has f AfterExec then unveil_effect (exec_unveil_data s) a v r2 (exec_unveil_data s') else r2 = Ok tt /\ exec_unveil_data s' = exec_unveil_data s)
           /\ r = (_ ← r2; Ok 0)
       | _ => exec_unveil_data s' = exec_unveil_data s /\ r = (_ ← r1; Ok 0)
       end.

Lemma touched_effect b d d' a v r : absolute_path a -> veil_ok d -> touched b d d' a v r -> if b then unveil_effect d a v r d' else r = Ok tt /\ d' = d.
Proof. intros Ha Hd. destruct b; [|done]. intros (h & h' & E). by eapply update_unveil_data_effect. Qed.

Lemma updates_effects f a v s r s' : absolute_path a -> process_ok s -> updates f a v s r s' -> unveil_effects f a v s r s'.
Proof.
  intros Ha [Hc Hx _] (r1 & Ht & Hr). exists r1. split; [by apply touched_effect|]. destruct r1; [|done|done]. destruct Hr as (r2 & Ht2 & ->). exists r2. split; [|done]. by apply touched_effect.
Qed.

(** A process whose allocations succeed *)
Lemma allocate_memory s : veil_heap s = [] -> allocate s = (Ok tt, s).
Proof. intros H. unfold allocate. rewrite H. destruct s. cbn in *. by subst. Qed.

Definition not_refused (f : Z) (d : UnveilData) : Prop := has f CurrentProgram || has f AfterExec = true /\ (has f CurrentProgram = true -> ~ locked d).

Lemma updates_memory f a v s : absolute_path a -> state (exec_unveil_data s) <> Veil_LockedInherited -> veil_heap s = [] ->
  wp ((if has f CurrentProgram then update_current a v else kret tt);;
      (if has f AfterExec then
         exec_state ← gets (fun s => state (exec_unveil_data s));
         VERIFY (negb (bool_decide (exec_state = Veil_LockedInherited)));;
         update_exec a v
       else kret tt);;
      kret 0) s (fun r _ => r <> Err ENOMEM).
Proof.
  intros Ha Hx Hh.
  assert (Hexec : forall s1, exec_unveil_data s1 = exec_unveil_data s -> veil_heap s1 = [] ->
    wp ((if has f AfterExec then exec_state ← gets (fun s => state (exec_unveil_data s)); VERIFY (negb (bool_decide (exec_state = Veil_LockedInherited)));; update_exec a v else kret tt);; kret 0) s1 (fun r _ => r <> Err ENOMEM)).
  { intros s1 E1 H1. wp_step. destruct (has f AfterExec); [|by wp_step; wp_step]. wp_step. wp_step. wp_step. apply wp_VERIFY; [by rewrite E1, bool_decide_eq_false_2|]. apply update_exec_wp.
    intros r d h. rewrite H1. destruct (update_unveil_data_memory (exec_unveil_data s1) a v Ha) as (r' & d' & -> & Hr). intros [= <- <- <-]. by destruct r'; [wp_step|by intros [= ->]|]. }
  wp_step. destruct (has f CurrentProgram); [|wp_step; by apply Hexec]. apply update_current_wp. intros r d h. rewrite Hh.
  destruct (update_unveil_data_memory (unveil_data s) a v Ha) as (r' & d' & -> & Hr). intros [= <- <- <-]. destruct r'; [by apply Hexec|by intros [= ->]|done].
Qed.

Lemma resolves_ok resolve p v a : resolver_ok resolve -> resolves resolve p v a -> absolute_path a.
Proof. intros Hres. specialize (Hres p). intros [E|(d & E & _ & Ej)]; rewrite E in Hres; [done|]. destruct Hres as (a' & Ej' & Ha). congruence. Qed.

Lemma resolved_path_memory resolve p v a s : veil_heap s = [] -> resolves resolve p v a -> wp (resolved_path resolve p v) s (fun r s' => r = Ok a /\ s' = s).
Proof.
  intros Hh Hr. assert (Hal : forall Q, Q (Ok tt) s -> wp allocate s Q) by (intros Q HQ; unfold wp; by rewrite (allocate_memory s Hh)).
  unfold resolved_path. destruct Hr as [->|(d & -> & Hv & Ej)]; [wp_step; apply Hal; by wp_step|]. fold (has v CreateOrRemove). rewrite Hv, bool_decide_eq_true_2 by done.
  cbn [andb]. wp_step. apply Hal. wp_step. apply wp_lift. rewrite Ej. wp_step. apply Hal. by wp_step.
Qed.

Lemma path_memory user len p s : veil_heap s = [] -> read_user_path user len = Some p -> wp (get_syscall_path_argument user len) s (fun r s' => r = Ok p /\ s' = s).
Proof.
  intros Hh. unfold read_user_path, get_syscall_path_argument, try_copy_kstring_from_user. destruct (len =? 0); [done|]. destruct (PATH_MAX <? len); [done|]. destruct (user_in_range user); [|done]. cbn [negb orb]. intros ->.
  wp_step. unfold wp. rewrite (allocate_memory s Hh). done.
Qed.

Lemma sys_unveil_requested resolve q a v s :
  process_ok s -> resolver_ok resolve -> requested resolve q a v -> not_refused (arg_flags q) (unveil_data s) -> veil_heap s = [] ->
  wp (sys_unveil resolve (Some q)) s (fun r s' => r <> Err ENOMEM /\ updates (arg_flags q) a v s r s').
Proof.
  intros [_ _ Hx] Hres (up & pl & um & ml & p & b & Ep & Em & Hp & Habs & Eb & Ev & Hr) [Hf Hl] Hh. pose proof (resolves_ok _ _ _ _ Hres Hr) as Ha.
  unfold sys_unveil. wp_step. apply wp_lift. cbn [kret outcome_monad]. rewrite Ep, Em.
  rewrite (bool_decide_eq_false_2 (Some (up, pl) = None)) by done. cbn [andb]. fold (has (arg_flags q) CurrentProgram) (has (arg_flags q) AfterExec). rewrite Hf. cbn [negb]. wp_step. wp_step.
  assert (Hst : forall st, st = Veil_Locked \/ st = Veil_LockedInherited -> has (arg_flags q) CurrentProgram && bool_decide (state (unveil_data s) = st) = false).
  { intros st Hst. destruct (has (arg_flags q) CurrentProgram); [|done]. apply bool_decide_eq_false_2. intros E. apply (Hl eq_refl). unfold locked. destruct Hst; subst; auto. }
  rewrite !Hst by auto. wp_step. eapply wp_mono; [by apply path_memory|]. intros r s0 [-> ->].
  rewrite Habs, bool_decide_eq_false_2 by (by intros ->). cbn [negb orb]. wp_step. apply wp_lift. rewrite Eb. wp_step. apply wp_lift. rewrite Ev. wp_step.
  eapply wp_mono; [by apply resolved_path_memory|]. intros r s0 [-> ->]. assert (Hne : state (exec_unveil_data s) <> Veil_LockedInherited) by (by destruct Hx as [-> | ->]).
  split; [by apply updates_memory|by apply updates_wp].
Qed.

(** Every unveil call returns, without failing an assertion.  A call without arguments locks the veil of the
    process; any other call either changes nothing, or unveils the path that the arguments resolve to: the path gets
    the requested permissions and every other path keeps its own, unless the veil is locked, the request asks for more
    than the path has, or memory runs out, and then no unveiled path changes.  A well-formed request that is not
    refused takes effect when no allocation fails. *)
Theorem unveil_call_exact resolve params s : reachable s -> resolver_ok resolve ->
  exists r s', sys_unveil resolve params s = (r, s') /\ r <> Panic
  /\ ((r = Ok 0 /\ (exists q, params = Some q /\ arg_path q = None /\ arg_permissions q = None)
        /\ unveil_data s' = set_state Veil_Locked (unveil_data s) /\ exec_unveil_data s' = exec_unveil_data s)
      \/ (same_veils s s' /\ ((exists e, r = Err e) \/ (r = Ok 0 /\ state (unveil_data s) = Veil_LockedInherited)))
      \/ (exists q a v, params = Some q /\ requested resolve q a v /\ unveil_effects (arg_flags q) a v s r s'))
  /\ (forall q a v, params = Some q -> requested resolve q a v -> not_refused (arg_flags q) (unveil_data s) -> veil_heap s = [] ->
        r <> Err ENOMEM /\ unveil_effects (arg_flags q) a v s r s').
Proof.
  intros Hs Hres. apply reachable_ok in Hs. destruct (sys_unveil resolve params s) as [r s'] eqn:E. exists r, s'. split; [done|].
  pose proof (sys_unveil_wp resolve params s Hs Hres) as Hw. unfold wp in Hw. rewrite E in Hw. cbn in Hw. pose proof (call_effect_evolves _ _ _ _ _ Hs Hw) as (Hr & _ & _).
  split; [done|]. split.
  - destruct Hw as [Hw|[Hw|(q & a & v & Hq & Hreq & Ha & Hu)]]; [by left|by right; left|]. right; right. exists q, a, v. split; [done|]. split; [done|]. by apply updates_effects.
  - intros q a v -> Hreq Hn Hh. pose proof (sys_unveil_requested resolve q a v s Hs Hres Hreq Hn Hh) as Hw2. unfold wp in Hw2. rewrite E in Hw2. destruct Hw2 as [Hm Hu].
    split; [done|]. apply updates_effects; [|done|done]. destruct Hreq as (? & ? & ? & ? & ? & ? & _ & _ & _ & _ & _ & _ & Hrs). by eapply resolves_ok.
Qed.

(** Calls of one process, with anything happening to the memory in between *)
Inductive unveil_calls : VS -> VS -> Prop :=
| calls_none s : unveil_calls s s
| calls_more resolve params s s' h : unveil_calls s s' -> resolver_ok resolve ->
    unveil_calls s (sys_unveil resolve params (mk_VS (unveil_data s') (exec_unveil_data s') h)).2.

Lemma calls_evolve s s' : process_ok s -> unveil_calls s s' -> process_ok s' /\ evolves (unveil_data s) (unveil_data s').
Proof.
  intros Hs. induction 1 as [s|resolve params s s' h _ IH Hres]; [split; [done|apply evolves_refl]|]. destruct (IH Hs) as [[H1 H2 H3] Hev].
  set (s1 := mk_VS (unveil_data s') (exec_unveil_data s') h). assert (Hs1 : process_ok s1) by done.
  pose proof (sys_unveil_wp resolve params s1 Hs1 Hres) as Hw. unfold wp in Hw. apply call_effect_evolves in Hw as (_ & Hw & Hok); [|done].
  split; [done|]. eapply evolves_trans; [apply Hs|done|done].
Qed.

(** C4: Whatever a process does with unveil, its view only narrows.  Once it has a veil it keeps one; a path that was
    unveiled stays unveiled with a subset of its permissions; and once the veil is locked (by the process or by the
    program that started it) it stays locked and the answer for every path and every access remains the same. *)
Theorem veil_never_widens s s' : reachable s -> unveil_calls s s' ->
  (state (unveil_data s) <> Veil_None -> state (unveil_data s') <> Veil_None)
  /\ (forall p v, explicit (paths (unveil_data s)) p = Some v -> exists v', explicit (paths (unveil_data s')) p = Some v' /\ subset v' v)
  /\ (locked (unveil_data s) -> locked (unveil_data s') /\ forall p options,
        validate_path_against_process_veil (unveil_data s') p options = validate_path_against_process_veil (unveil_data s) p options).
Proof.
  intros Hs Hc. apply reachable_ok in Hs. destruct (calls_evolve s s' Hs Hc) as [_ [_ E2 E3 E4]]. destruct Hs as [[Hinh _] _ _]. split; [done|]. split; [by apply E4|].
  intros Hl. destruct (E2 Hl) as [Hl' Ep]. split; [done|]. intros p options. unfold validate_path_against_process_veil, find_matching_unveiled_path. rewrite Ep.
  rewrite !bool_decide_eq_false_2; [done|..]; unfold locked in *; destruct (state (unveil_data s)), (state (unveil_data s')); naive_solver.
Qed.

(** ** A process that unveils a directory *)
Definition user_text (text : string) : StringArgument :=
  Some (mkUserString true (fun i => Some (nth i (String.list_ascii_of_string text) Ascii.zero)), Z.of_nat (String.length text)).
Definition one_directory (p : list Z) : resolution := if bool_decide (p = bytes_of "/a") then Resolved p else Unresolved ENOENT None.
Definition first_process : VS := mk_VS (mk_unveil_data Veil_None empty_root) (mk_unveil_data Veil_None empty_root) [].
Definition read_directory : SC_unveil_params := mk_SC_unveil_params CurrentProgram (user_text "/a") (user_text "r").
Definition veiled_process : VS := (sys_unveil one_directory (Some read_directory) first_process).2.
Definition locked_process : VS := (sys_unveil one_directory (Some (mk_SC_unveil_params 0 None None)) veiled_process).2.

Lemma one_directory_ok : resolver_ok one_directory.
Proof.
  intros p. unfold one_directory. destruct (bool_decide_reflect (p = bytes_of "/a")) as [->|]; [|done]. split; [|by vm_compute].
  repeat constructor; vm_compute; intuition discriminate.
Qed.

Lemma veiled_process_reachable : reachable veiled_process.
Proof. apply reach_unveil; [apply reach_start|apply one_directory_ok]. Qed.

Lemma unveil_grants_longest_prefix_witness :
  validate_path_against_process_veil (unveil_data veiled_process) (bytes_of "/a/b") O_RDONLY = Ok tt
  /\ if bool_decide (state (unveil_data veiled_process) = Veil_None) then validate_path_against_process_veil (unveil_data veiled_process) (bytes_of "/a/b") O_WRONLY = Ok tt
     else exists v, (forall v', granted (explicit (paths (unveil_data veiled_process))) (words slash (bytes_of "/a/b")) v' <-> v' = v)
       /\ answers v O_WRONLY (validate_path_against_process_veil (unveil_data veiled_process) (bytes_of "/a/b") O_WRONLY).
Proof.
  split; [by vm_compute|]. apply (unveil_grants_longest_prefix veiled_process (bytes_of "/a/b") O_WRONLY).
  - apply veiled_process_reachable.
  - split; [|by vm_compute]. repeat constructor; vm_compute; intuition discriminate.
  - by vm_compute.
Defined.

Lemma unveil_call_exact_witness : exists r s', sys_unveil one_directory (Some read_directory) first_process = (r, s') /\ r <> Panic.
Proof.
  destruct (unveil_call_exact one_directory (Some read_directory) first_process (reach_start []) one_directory_ok) as (r & s' & E & Hr & _).
  exists r, s'. split; [exact E|exact Hr].
Defined.

Lemma veil_never_widens_witness : locked (unveil_data locked_process)
  /\ validate_path_against_process_veil (unveil_data (sys_unveil one_directory (Some read_directory) locked_process).2) (bytes_of "/a/b") O_RDONLY
     = validate_path_against_process_veil (unveil_data locked_process) (bytes_of "/a/b") O_RDONLY.
Proof.
  assert (Hl : locked (unveil_data locked_process)) by (left; by vm_compute). split; [exact Hl|].
  apply (veil_never_widens locked_process (sys_unveil one_directory (Some read_directory) locked_process).2).
  - apply reach_unveil; [apply veiled_process_reachable|apply one_directory_ok].
  - exact (calls_more one_directory (Some read_directory) locked_process locked_process (veil_heap locked_process) (calls_none _) one_directory_ok).
  - exact Hl.
Defined.
