(* ===== verification/Mutex.v ===== *)
(** * Mutex: Kernel/Locking/Mutex.cpp

    One mutex and the threads that use it.  Every operation runs under the
    mutex's spinlock, so it is one atomic step, except that a thread that has to
    wait gives the spinlock up inside [Mutex::block]: such a call is two steps, the
    part before the wait ([lock], [restore_exclusive_lock]) and the part after the
    thread has been given the lock ([resume]).  Between the two the thread is
    [granted]: it already counts as a holder but is still in the waiting list it
    removes itself from.  [step] interleaves these steps for any number of threads
    that release only locks they hold.  The theorems: no assertion of the code fails
    in any interleaving, an exclusive holder excludes everybody else, no wakeup is
    lost, and a released lock is handed over as the code intends. *)

From S2P Require Import Prelude.

Inductive LockMode := Unlocked | Shared | Exclusive.
Inductive MutexBehavior := Regular | BigLock.

#[export] Instance LockMode_eq_dec : EqDecision LockMode.
Proof. solve_decision. Defined.
#[export] Instance MutexBehavior_eq_dec : EqDecision MutexBehavior.
Proof. solve_decision. Defined.

(** Where a blocked thread continues. *)
Inductive resume_point := LockWasExclusive | LockWasShared | RestoreLock.

(** A thread inside [Thread::block]: [granted] is [m_blocking_mutex == nullptr]. *)
Record Wait := mkWait
  { w_mode : LockMode; m_lock_requested_count : Z; w_point : resume_point; granted : bool }.

(** [t_held]: the modes of the locks the thread has acquired and not yet released. *)
Record Thread := mkThread { t_wait : option Wait; t_held : list LockMode }.

Definition tid := nat.

Record MS := mkMS
  { m_behavior : MutexBehavior;
    m_mode : LockMode;
    m_times_locked : Z;
    m_holder : option tid;
    m_shared_holders : Z;
    list_exclusive : list tid;
    list_shared : list tid;
    list_exclusive_big_lock : list tid;
    threads : gmap tid Thread }.

Definition set_mode (v : LockMode) : M MS unit := modify (fun s =>
  mkMS (m_behavior s) v (m_times_locked s) (m_holder s) (m_shared_holders s)
    (list_exclusive s) (list_shared s) (list_exclusive_big_lock s) (threads s)).
Definition set_times_locked (v : Z) : M MS unit := modify (fun s =>
  mkMS (m_behavior s) (m_mode s) v (m_holder s) (m_shared_holders s)
    (list_exclusive s) (list_shared s) (list_exclusive_big_lock s) (threads s)).
Definition set_holder (v : option tid) : M MS unit := modify (fun s =>
  mkMS (m_behavior s) (m_mode s) (m_times_locked s) v (m_shared_holders s)
    (list_exclusive s) (list_shared s) (list_exclusive_big_lock s) (threads s)).
Definition set_shared_holders (v : Z) : M MS unit := modify (fun s =>
  mkMS (m_behavior s) (m_mode s) (m_times_locked s) (m_holder s) v
    (list_exclusive s) (list_shared s) (list_exclusive_big_lock s) (threads s)).
Definition with_thread (t : tid) (th : Thread) (s : MS) : MS :=
  mkMS (m_behavior s) (m_mode s) (m_times_locked s) (m_holder s) (m_shared_holders s)
    (list_exclusive s) (list_shared s) (list_exclusive_big_lock s) (<[t := th]> (threads s)).
Definition set_thread (t : tid) (th : Thread) : M MS unit := modify (with_thread t th).

(** The list a thread waits in. *)
Inductive which_list := ListExclusive | ListShared | ListBigLock.
#[export] Instance which_list_eq_dec : EqDecision which_list.
Proof. solve_decision. Defined.
Definition list_for (s : MS) (w : which_list) : list tid :=
  match w with
  | ListExclusive => list_exclusive s
  | ListShared => list_shared s
  | ListBigLock => list_exclusive_big_lock s
  end.
Definition set_list (w : which_list) (l : list tid) : M MS unit := modify (fun s =>
  mkMS (m_behavior s) (m_mode s) (m_times_locked s) (m_holder s) (m_shared_holders s)
    (match w with ListExclusive => l | _ => list_exclusive s end)
    (match w with ListShared => l | _ => list_shared s end)
    (match w with ListBigLock => l | _ => list_exclusive_big_lock s end) (threads s)).
Definition waiting_list (b : MutexBehavior) (mode : LockMode) : which_list :=
  if decide (b = BigLock) then ListBigLock
  else if decide (mode = Exclusive) then ListExclusive else ListShared.

Definition get_thread (t : tid) : M MS Thread := fun s => (deref (threads s !! t), s).

(** ** Mutex::block and Thread::block *)

Definition append_to_list (current : tid) (w : which_list) : M MS unit :=
  list ← gets (fun s => list_for s w);
  VERIFY (negb (bool_decide (current ∈ list)));;
  set_list w (list ++ [current]).
Definition remove_from_list (current : tid) (w : which_list) : M MS unit :=
  list ← gets (fun s => list_for s w);
  VERIFY (bool_decide (current ∈ list));;
  set_list w (filter (fun t => t <> current) list).

(** [Thread::block] up to the point where the thread has yielded ... *)
Definition thread_block (current : tid) (mode : LockMode) (lock_count : Z) (point : resume_point)
    : M MS unit :=
  th ← get_thread current;
  VERIFY (bool_decide (t_wait th = None));;
  set_thread current (mkThread (Some (mkWait mode lock_count point false)) (t_held th)).
(** ... and from the point where it runs again. *)
Definition thread_unblocked (current : tid) : M MS unit :=
  th ← get_thread current;
  VERIFY (match t_wait th with Some w => granted w | None => false end);;
  set_thread current (mkThread None (t_held th)).

(** [Mutex::block], cut at the same point. *)
Definition block (current : tid) (mode : LockMode) (requested_locks : Z) (point : resume_point)
    : M MS unit :=
  behavior ← gets m_behavior;
  append_to_list current (waiting_list behavior mode);;
  thread_block current mode requested_locks point.
Definition block_end (current : tid) (mode : LockMode) : M MS unit :=
  thread_unblocked current;;
  behavior ← gets m_behavior;
  remove_from_list current (waiting_list behavior mode).

(** [Thread::unblock_from_mutex] *)
Definition unblock_from_mutex (t : tid) : M MS Z :=
  th ← get_thread t;
  match t_wait th with
  | Some w =>
      VERIFY (negb (granted w));;
      set_thread t (mkThread (Some (mkWait (w_mode w) (m_lock_requested_count w) (w_point w) true))
                      (t_held th));;
      kret (m_lock_requested_count w)
  | None => VERIFY false;; kret 0
  end.

(** ** Mutex::unblock_waiters *)

(** [for (auto& thread : lists.shared)] *)
Fixpoint unblock_shared_loop (l : list tid) : M MS unit :=
  match l with
  | [] => kret tt
  | t :: l =>
      requested_locks ← unblock_from_mutex t;
      shared_holders ← gets m_shared_holders;
      set_shared_holders (wrap 64 (shared_holders + requested_locks));;
      times_locked ← gets m_times_locked;
      set_times_locked (wrap 32 (times_locked + requested_locks));;
      unblock_shared_loop l
  end.

Definition unblock_shared : M MS bool :=
  s ← gets (fun s => s);
  if bool_decide (list_shared s = []) then kret false else
  VERIFY (bool_decide (m_behavior s = Regular));;
  set_mode Shared;;
  unblock_shared_loop (list_shared s);;
  kret true.

Definition unblock_exclusive (l : list tid) : M MS bool :=
  match l with
  | next :: _ =>
      set_mode Exclusive;;
      requested ← unblock_from_mutex next;
      set_times_locked requested;;
      set_holder (Some next);;
      kret true
  | [] => kret false
  end.

Definition unblock_waiters (previous_mode : LockMode) : M MS unit :=
  s ← gets (fun s => s);
  VERIFY (m_times_locked s =? 0);;
  VERIFY (bool_decide (m_mode s = Unlocked));;
  if decide (m_behavior s = BigLock) then
    unblock_exclusive (list_exclusive_big_lock s);; kret tt
  else if decide (previous_mode = Exclusive) then
    unblocked ← unblock_shared;
    if unblocked : bool then kret tt else unblock_exclusive (list_exclusive s);; kret tt
  else
    unblocked ← unblock_exclusive (list_exclusive s);
    if unblocked : bool then kret tt else unblock_shared;; kret tt.

(** ** Mutex::lock *)

Definition lock_unlocked (current : tid) (mode : LockMode) : M MS unit :=
  set_mode mode;;
  s ← gets (fun s => s);
  VERIFY (bool_decide (m_holder s = None));;
  VERIFY (m_shared_holders s =? 0);;
  (if decide (mode = Exclusive) then set_holder (Some current)
   else VERIFY (bool_decide (mode = Shared));;
        set_shared_holders (wrap 64 (m_shared_holders s + 1)));;
  VERIFY (m_times_locked s =? 0);;
  set_times_locked (wrap 32 (m_times_locked s + 1)).

(** [case Mode::Exclusive] after the possible block. *)
Definition lock_was_exclusive (current : tid) (mode : LockMode) (did_block : bool) : M MS unit :=
  s ← gets (fun s => s);
  (if decide (m_mode s = Exclusive) then
     VERIFY (bool_decide (m_holder s = Some current));; VERIFY (m_shared_holders s =? 0)
   else if did_block && bool_decide (mode = Shared) then
     VERIFY (bool_decide (m_holder s = None));; VERIFY (0 <? m_shared_holders s)
   else kret tt);;
  VERIFY (0 <? m_times_locked s);;
  if did_block then kret tt else
  VERIFY (bool_decide (m_mode s = Exclusive));;
  set_times_locked (wrap 32 (m_times_locked s + 1)).

(** [case Mode::Shared] after the possible block. *)
Definition lock_was_shared (current : tid) (mode : LockMode) (did_block : bool) : M MS unit :=
  s ← gets (fun s => s);
  VERIFY (0 <? m_times_locked s);;
  (if decide (m_mode s = Shared) then
     VERIFY (bool_decide (m_holder s = None));; VERIFY (negb did_block)
   else if did_block then
     VERIFY (bool_decide (mode = Exclusive));; VERIFY (bool_decide (m_holder s = Some current));;
     VERIFY (m_shared_holders s =? 0)
   else kret tt);;
  if did_block then kret tt else
  VERIFY (bool_decide (m_mode s = Shared));;
  set_times_locked (wrap 32 (m_times_locked s + 1));;
  VERIFY (0 <? m_shared_holders s);;
  set_shared_holders (wrap 64 (m_shared_holders s + 1)).

(** Returns whether the thread blocked; a thread that did finishes with [resume]. *)
Definition lock (current : tid) (mode : LockMode) : M MS bool :=
  VERIFY (negb (bool_decide (mode = Unlocked)));;
  s ← gets (fun s => s);
  match m_mode s with
  | Unlocked => lock_unlocked current mode;; kret false
  | Exclusive =>
      VERIFY (negb (bool_decide (m_holder s = None)));;
      if decide (m_holder s = Some current) then lock_was_exclusive current mode false;; kret false
      else block current mode 1 LockWasExclusive;; kret true
  | Shared =>
      VERIFY (bool_decide (m_behavior s = Regular));;
      VERIFY (bool_decide (m_holder s = None));;
      if decide (mode = Exclusive) then block current mode 1 LockWasShared;; kret true
      else lock_was_shared current mode false;; kret false
  end.

(** ** Mutex::unlock *)

Definition unlock (current : tid) : M MS unit :=
  s ← gets (fun s => s);
  VERIFY (negb (bool_decide (m_mode s = Unlocked)));;
  VERIFY (0 <? m_times_locked s);;
  let times_locked := m_times_locked s - 1 in
  set_times_locked times_locked;;
  (if decide (m_mode s = Exclusive) then
     VERIFY (bool_decide (m_holder s = Some current));;
     VERIFY (m_shared_holders s =? 0);;
     (if times_locked =? 0 then set_holder None else kret tt)
   else
     VERIFY (bool_decide (m_holder s = None));;
     VERIFY (0 <? m_shared_holders s);;
     set_shared_holders (m_shared_holders s - 1));;
  if times_locked =? 0 then
    s' ← gets (fun s => s);
    VERIFY (if decide (m_mode s = Exclusive) then bool_decide (m_holder s' = None)
            else m_shared_holders s' =? 0);;
    set_mode Unlocked;;
    unblock_waiters (m_mode s)
  else kret tt.

(** ** The big lock: force_unlock_exclusive_if_locked, restore_exclusive_lock *)

Definition force_unlock_exclusive_if_locked (current : tid) : M MS (LockMode * Z) :=
  s ← gets (fun s => s);
  VERIFY (bool_decide (m_behavior s = BigLock));;
  match m_mode s with
  | Exclusive =>
      if decide (m_holder s = Some current) then
        set_holder None;;
        VERIFY (0 <? m_times_locked s);;
        set_times_locked 0;;
        set_mode Unlocked;;
        unblock_waiters Exclusive;;
        kret (Exclusive, m_times_locked s)
      else kret (Unlocked, 0)
  | Unlocked => kret (Unlocked, 0)
  | Shared => VERIFY false;; kret (Unlocked, 0)
  end.

Definition restore_tail (current : tid) (lock_count : Z) (did_block : bool) : M MS unit :=
  s ← gets (fun s => s);
  VERIFY (negb (bool_decide (m_mode s = Shared)));;
  VERIFY (m_shared_holders s =? 0);;
  if did_block then
    VERIFY (0 <? m_times_locked s);;
    VERIFY (bool_decide (m_holder s = Some current))
  else if decide (m_mode s = Unlocked) then
    set_mode Exclusive;;
    VERIFY (m_times_locked s =? 0);;
    set_times_locked lock_count;;
    VERIFY (bool_decide (m_holder s = None));;
    set_holder (Some current)
  else
    VERIFY (bool_decide (m_mode s = Exclusive));;
    VERIFY (bool_decide (m_holder s = Some current));;
    VERIFY (0 <? m_times_locked s);;
    set_times_locked (wrap 32 (m_times_locked s + lock_count)).

Definition restore_exclusive_lock (current : tid) (lock_count : Z) : M MS bool :=
  s ← gets (fun s => s);
  VERIFY (bool_decide (m_behavior s = BigLock));;
  VERIFY (0 <? lock_count);;
  if bool_decide (m_mode s = Exclusive) && negb (bool_decide (m_holder s = Some current)) then
    block current Exclusive lock_count RestoreLock;; kret true
  else restore_tail current lock_count false;; kret false.

(** The rest of a call that blocked, once the lock has been granted. *)
Definition resume (current : tid) : M MS unit :=
  th ← get_thread current;
  match t_wait th with
  | None => VERIFY false
  | Some w =>
      block_end current (w_mode w);;
      s ← gets (fun s => s);
      VERIFY (bool_decide (m_mode s = w_mode w));;
      match w_point w with
      | LockWasExclusive => lock_was_exclusive current (w_mode w) true
      | LockWasShared => lock_was_shared current (w_mode w) true
      | RestoreLock => restore_tail current (m_lock_requested_count w) true
      end
  end.

(** ** Threads using the mutex *)

(** The caller's bookkeeping: [n] more locks of [mode], one lock less. *)
Definition acquire (t : tid) (mode : LockMode) (n : Z) : M MS unit :=
  th ← get_thread t; set_thread t (mkThread (t_wait th) (replicate (Z.to_nat n) mode ++ t_held th)).
Definition release (t : tid) (i : nat) : M MS unit :=
  th ← get_thread t; set_thread t (mkThread (t_wait th) (delete i (t_held th))).
Definition release_all (t : tid) : M MS unit :=
  th ← get_thread t; set_thread t (mkThread (t_wait th) []).

Inductive op :=
  | OpSpawn (t : tid)
  | OpLock (t : tid) (mode : LockMode)
  | OpUnlock (t : tid) (i : nat)
  | OpForceUnlock (t : tid)
  | OpRestore (t : tid) (n : Z)
  | OpResume (t : tid).

Definition exec (o : op) : M MS unit :=
  match o with
  | OpSpawn t => set_thread t (mkThread None [])
  | OpLock t mode =>
      blocked ← lock t mode;
      if blocked : bool then kret tt else acquire t mode 1
  | OpUnlock t i => release t i;; unlock t
  | OpForceUnlock t =>
      s ← gets (fun s => s);
      (if decide (m_holder s = Some t) then release_all t else kret tt);;
      force_unlock_exclusive_if_locked t;; kret tt
  | OpRestore t n =>
      blocked ← restore_exclusive_lock t n;
      if blocked : bool then kret tt else acquire t Exclusive n
  | OpResume t =>
      th ← get_thread t;
      resume t;;
      match t_wait th with
      | Some w => acquire t (w_mode w) (m_lock_requested_count w)
      | None => kret tt
      end
  end.

(** The locks a thread holds or has been granted, and those it may come to hold. *)
Definition occupied (th : Thread) : Z :=
  Z.of_nat (length (t_held th)) +
  match t_wait th with Some w => if granted w then m_lock_requested_count w else 0 | None => 0 end.
Definition potential (th : Thread) : Z :=
  Z.of_nat (length (t_held th)) +
  match t_wait th with Some w => m_lock_requested_count w | None => 0 end.
Definition demand (s : MS) : Z := map_sum potential (threads s).

(** What the callers guarantee: a thread inside the mutex's code calls nothing else, it
    releases only what it holds, the big lock is never taken in shared mode, only the big
    lock is force-unlocked and restored, and fewer than 2^32 locks are requested at once. *)
Definition running (s : MS) (t : tid) (held : list LockMode) : Prop :=
  threads s !! t = Some (mkThread None held).

Definition allowed (s : MS) (o : op) : Prop :=
  match o with
  | OpSpawn t => threads s !! t = None
  | OpLock t mode =>
      (exists held, running s t held) /\ mode <> Unlocked /\
      (m_behavior s = BigLock -> mode = Exclusive) /\ demand s + 1 < 2 ^ 32
  | OpUnlock t i => exists held, running s t held /\ (i < length held)%nat
  | OpForceUnlock t => m_behavior s = BigLock /\ exists held, running s t held
  | OpRestore t n =>
      m_behavior s = BigLock /\ 0 < n /\ demand s + n < 2 ^ 32 /\ exists held, running s t held
  | OpResume t => exists th w, threads s !! t = Some th /\ t_wait th = Some w /\ granted w = true
  end.

Definition initial (b : MutexBehavior) : MS := mkMS b Unlocked 0 None 0 [] [] [] ∅.

Inductive reachable (b : MutexBehavior) : MS -> Prop :=
  | reachable_init : reachable b (initial b)
  | reachable_step s o : reachable b s -> allowed s o -> reachable b (snd (exec o s)).

(** ** The invariant *)

Record wait_ok (b : MutexBehavior) (mode : LockMode) (w : Wait) : Prop := {
  wait_count : 0 < m_lock_requested_count w;
  wait_mode : w_mode w <> Unlocked;
  wait_big_lock : b = BigLock -> w_mode w = Exclusive;
  wait_point : w_point w <> LockWasExclusive -> w_mode w = Exclusive;
  wait_granted : granted w = true -> mode = w_mode w }.

Definition waits_in (s : MS) (w : which_list) (t : tid) : Prop :=
  exists th wt, threads s !! t = Some th /\ t_wait th = Some wt /\
    waiting_list (m_behavior s) (w_mode wt) = w.

Record core (s : MS) : Prop := {
  core_sum : m_times_locked s = map_sum occupied (threads s);
  core_demand : demand s < 2 ^ 32;
  core_lists : forall w, NoDup (list_for s w) /\ forall t, t ∈ list_for s w <-> waits_in s w t;
  core_wait : forall t th w, threads s !! t = Some th -> t_wait th = Some w ->
    wait_ok (m_behavior s) (m_mode s) w }.

Definition mode_ok (s : MS) : Prop :=
  match m_mode s with
  | Unlocked =>
      m_holder s = None /\ m_shared_holders s = 0 /\ m_times_locked s = 0 /\
      forall t th, threads s !! t = Some th -> t_wait th = None
  | Shared =>
      m_holder s = None /\ m_shared_holders s = m_times_locked s /\ 0 < m_times_locked s /\
      m_behavior s = Regular /\
      forall t th, threads s !! t = Some th -> Forall (fun m => m = Shared) (t_held th)
  | Exclusive =>
      m_shared_holders s = 0 /\ 0 < m_times_locked s /\
      exists h, m_holder s = Some h /\
        forall t th, t <> h -> threads s !! t = Some th -> occupied th = 0
  end.

Definition inv (s : MS) : Prop := core s /\ mode_ok s.

(** ** Updating one thread *)

Lemma occupied_nonneg s : core s -> forall t th, threads s !! t = Some th -> 0 <= occupied th.
Proof.
  intros Hc t th Ht. unfold occupied. destruct (t_wait th) as [w|] eqn:Hw; [|lia].
  pose proof (wait_count _ _ _ (core_wait _ Hc _ _ _ Ht Hw)). destruct (granted w); lia.
Qed.

Lemma occupied_le_potential s : core s -> forall t th, threads s !! t = Some th -> occupied th <= potential th.
Proof.
  intros Hc t th Ht. unfold occupied, potential. destruct (t_wait th) as [w|] eqn:Hw; [|lia].
  pose proof (wait_count _ _ _ (core_wait _ Hc _ _ _ Ht Hw)). destruct (granted w); lia.
Qed.

Lemma times_locked_bound s : core s -> 0 <= m_times_locked s <= demand s.
Proof.
  intros Hc. rewrite (core_sum _ Hc). split.
  - apply map_sum_nonneg. by apply occupied_nonneg.
  - apply map_sum_le. by apply occupied_le_potential.
Qed.

Lemma core_update s s' t th th' :
  core s -> threads s !! t = Some th -> threads s' = <[t := th']> (threads s) ->
  m_behavior s' = m_behavior s ->
  m_times_locked s' = m_times_locked s - occupied th + occupied th' ->
  demand s - potential th + potential th' < 2 ^ 32 ->
  (forall w, t_wait th' = Some w -> wait_ok (m_behavior s') (m_mode s') w) ->
  (forall u thu w, u <> t -> threads s !! u = Some thu -> t_wait thu = Some w ->
     granted w = true -> m_mode s' = w_mode w) ->
  (forall w, NoDup (list_for s' w) /\ (forall u, u <> t -> u ∈ list_for s' w <-> u ∈ list_for s w) /\
     (t ∈ list_for s' w <-> exists wt, t_wait th' = Some wt /\ waiting_list (m_behavior s) (w_mode wt) = w)) ->
  core s'.
Proof.
  intros [Hsum Hdem Hlists Hwait] Ht Eth Eb Etimes Hdem' Hw' Hgr Hl. split.
  - rewrite Etimes, Hsum, Eth. by rewrite (map_sum_insert _ _ _ th).
  - unfold demand in *. rewrite Eth. by rewrite (map_sum_insert _ _ _ th).
  - intros w. destruct (Hl w) as (Hnd & Hu & Htl). split; [done|]. intros u. unfold waits_in.
    rewrite Eth, Eb. destruct (decide (u = t)) as [->|Hne].
    + rewrite Htl, lookup_insert_eq. naive_solver.
    + rewrite Hu, lookup_insert_ne by done. apply Hlists.
  - intros u thu w. rewrite Eth. destruct (decide (u = t)) as [->|Hne].
    + rewrite lookup_insert_eq. intros ? Hw. simplify_eq. auto.
    + rewrite lookup_insert_ne by done. intros Hu Hw. rewrite Eb.
      destruct (Hwait _ _ _ Hu Hw). split; [done..|]. intros Hg. by eapply Hgr.
Qed.

(** The lists when the thread's wait, or its absence, is as before. *)
Lemma core_lists_same s s' t th th' :
  core s -> threads s !! t = Some th -> (forall w, list_for s' w = list_for s w) ->
  (t_wait th' = None <-> t_wait th = None) ->
  (forall wt wt', t_wait th = Some wt -> t_wait th' = Some wt' -> w_mode wt' = w_mode wt) ->
  forall w, NoDup (list_for s' w) /\ (forall u, u <> t -> u ∈ list_for s' w <-> u ∈ list_for s w) /\
     (t ∈ list_for s' w <-> exists wt, t_wait th' = Some wt /\ waiting_list (m_behavior s) (w_mode wt) = w).
Proof.
  intros Hc Ht El Hn Hm w. destruct (core_lists _ Hc w) as [Hnd Hin]. rewrite El.
  split_and!; [done|done|]. rewrite Hin. unfold waits_in. split.
  - intros (th0 & wt & ? & Hw & ?). simplify_eq. destruct (t_wait th') as [wt'|] eqn:Hw'.
    + exists wt'. split; [done|]. by rewrite (Hm wt wt').
    + destruct Hn as [Hn _]. by rewrite Hn in Hw.
  - intros (wt' & Hw' & ?). destruct (t_wait th) as [wt|] eqn:Hw.
    + exists th, wt. split_and!; [done|done|]. by rewrite <- (Hm wt wt').
    + destruct Hn as [_ Hn]. by rewrite Hn in Hw'.
Qed.

(** ** Running the code *)

Lemma wp_get_thread t s th (Q : outcome Thread -> MS -> Prop) :
  threads s !! t = Some th -> Q (Ok th) s -> wp (get_thread t) s Q.
Proof. intros Ht HQ. unfold wp, get_thread. by rewrite Ht. Qed.

(** Discharges an assertion from the context. *)
Ltac verify :=
  apply wp_VERIFY;
  [ simpl; first
      [ done
      | apply bool_decide_eq_true_2; first [done|congruence]
      | apply negb_true_iff, bool_decide_eq_false_2; first [done|congruence]
      | apply Z.eqb_eq; lia
      | apply Z.ltb_lt; lia ]
  | ].
Ltac msteps := repeat first [wp_step | verify].

Definition grant (w : Wait) : Wait := mkWait (w_mode w) (m_lock_requested_count w) (w_point w) true.

Lemma unblock_from_mutex_wp t s th w (Q : outcome Z -> MS -> Prop) :
  threads s !! t = Some th -> t_wait th = Some w -> granted w = false ->
  Q (Ok (m_lock_requested_count w)) (with_thread t (mkThread (Some (grant w)) (t_held th)) s) ->
  wp (unblock_from_mutex t) s Q.
Proof.
  intros Ht Hw Hg HQ. unfold unblock_from_mutex. wp_step. eapply wp_get_thread; [done|].
  rewrite Hw. wp_step. apply wp_VERIFY; [by rewrite Hg|]. unfold set_thread. wp_steps. done.
Qed.

(** A state in which the lock has just been given up. *)
Record released (s : MS) : Prop := {
  released_core : core s;
  released_mode : m_mode s = Unlocked;
  released_holder : m_holder s = None;
  released_shared : m_shared_holders s = 0;
  released_times : m_times_locked s = 0 }.

Lemma released_occupied s t th : released s -> threads s !! t = Some th -> occupied th = 0.
Proof.
  intros [Hc _ _ _ E] Ht. rewrite (core_sum _ Hc) in E. eapply map_sum_zero; [|done|done].
  by apply occupied_nonneg.
Qed.

Lemma occupied_zero b mode th :
  (forall w, t_wait th = Some w -> wait_ok b mode w) -> occupied th = 0 ->
  t_held th = [] /\ forall w, t_wait th = Some w -> granted w = false.
Proof.
  unfold occupied. intros Hok H. destruct (t_wait th) as [w|].
  - pose proof (wait_count _ _ _ (Hok w eq_refl)). destruct (granted w) eqn:Hg; [lia|].
    split; [apply length_zero_iff_nil; lia|]. by intros ? [= <-].
  - split; [apply length_zero_iff_nil; lia|done].
Qed.

Lemma released_idle s t th :
  released s -> threads s !! t = Some th ->
  t_held th = [] /\ forall w, t_wait th = Some w -> granted w = false.
Proof.
  intros Hr Ht. eapply occupied_zero; [|by eapply released_occupied].
  intros w. apply (core_wait _ (released_core _ Hr) _ _ _ Ht).
Qed.

Lemma waiting_list_exclusive b mode w :
  waiting_list b mode = w -> w <> ListShared -> mode <> Unlocked -> (b = BigLock -> mode = Exclusive) ->
  mode = Exclusive.
Proof.
  unfold waiting_list. intros <- Hw Hm Hb. destruct (decide (b = BigLock)); [auto|].
  by destruct (decide (mode = Exclusive)).
Qed.

(** Handing an exclusive lock to the first thread of a list. *)
Lemma unblock_exclusive_wp s w (Q : outcome bool -> MS -> Prop) :
  released s -> w <> ListShared ->
  (list_for s w = [] -> Q (Ok false) s) ->
  (forall next l s', list_for s w = next :: l -> inv s' -> m_holder s' = Some next ->
     m_mode s' = Exclusive -> Q (Ok true) s') ->
  wp (unblock_exclusive (list_for s w)) s Q.
Proof.
  intros Hr Hw Hnone Hsome. pose proof (released_core _ Hr) as Hc. unfold unblock_exclusive.
  destruct (list_for s w) as [|next l] eqn:El; [wp_step; auto|].
  assert (next ∈ list_for s w) as (th & wt & Ht & Hwt & Hlist)%(core_lists _ Hc) by (rewrite El; set_solver).
  destruct (released_idle s _ _ Hr Ht) as [Hheld Hg]. specialize (Hg _ Hwt).
  pose proof (core_wait _ Hc _ _ _ Ht Hwt) as [Hcount Hmode Hbig Hpoint _].
  pose proof (waiting_list_exclusive _ _ _ Hlist Hw Hmode Hbig) as Hex.
  unfold set_mode, set_times_locked, set_holder. wp_steps.
  eapply unblock_from_mutex_wp; [done|done|done|]. wp_steps.
  eapply Hsome; [done| |done|done]. split.
  - eapply (core_update s _ next th (mkThread (Some (grant wt)) (t_held th))); simpl; try done.
    + rewrite (released_times _ Hr). unfold occupied. simpl. rewrite Hheld, Hwt, Hg. simpl. lia.
    + pose proof (core_demand _ Hc). unfold potential. simpl. rewrite Hwt. lia.
    + intros ? [= <-]. by split.
    + intros u thu wu _ Hu Hwu. destruct (released_idle s _ _ Hr Hu) as [_ H]. by rewrite (H _ Hwu).
    + apply (core_lists_same s _ next th (mkThread (Some (grant wt)) (t_held th)));
        [done|done|by intros []| |]; simpl; rewrite Hwt; naive_solver.
  - unfold mode_ok. simpl. split_and!; [apply (released_shared _ Hr)|done|].
    exists next. split; [done|]. intros t th' Hne. rewrite lookup_insert_ne by done.
    by apply released_occupied.
Qed.

(** While the waiting readers are let in. *)
Record sharing (s : MS) : Prop := {
  sharing_core : core s;
  sharing_mode : m_mode s = Shared;
  sharing_holder : m_holder s = None;
  sharing_count : m_shared_holders s = m_times_locked s;
  sharing_regular : m_behavior s = Regular;
  sharing_held : forall t th, threads s !! t = Some th -> Forall (fun m => m = Shared) (t_held th) }.

Definition ungranted_reader (s : MS) (t : tid) : Prop :=
  exists th w, threads s !! t = Some th /\ t_wait th = Some w /\ granted w = false /\ w_mode w = Shared.

Lemma sharing_grant s t th w :
  sharing s -> threads s !! t = Some th -> t_wait th = Some w -> granted w = false -> w_mode w = Shared ->
  let n := m_lock_requested_count w in
  let s' := with_thread t (mkThread (Some (grant w)) (t_held th)) s in
  0 < n /\ wrap 64 (m_shared_holders s + n) = m_times_locked s + n /\
  wrap 32 (m_times_locked s + n) = m_times_locked s + n /\
  sharing (mkMS (m_behavior s) (m_mode s) (m_times_locked s + n) (m_holder s) (m_times_locked s + n)
             (list_exclusive s) (list_shared s) (list_exclusive_big_lock s) (threads s')).
Proof.
  intros Hs Ht Hw Hg Hm n s'. destruct Hs as [Hc Hmode Hh Hn Hb Hheld].
  pose proof (core_wait _ Hc _ _ _ Ht Hw) as [Hcount _ _ Hpoint _]. fold n in Hcount.
  assert (core (mkMS (m_behavior s) (m_mode s) (m_times_locked s + n) (m_holder s)
    (m_times_locked s + n) (list_exclusive s) (list_shared s) (list_exclusive_big_lock s) (threads s')))
    as Hc'.
  { eapply (core_update s _ t th (mkThread (Some (grant w)) (t_held th))); simpl; try done.
    - unfold occupied. simpl. rewrite Hw, Hg. fold n. lia.
    - pose proof (core_demand _ Hc). unfold potential. simpl. rewrite Hw. lia.
    - intros ? [= <-]. split; simpl; try done; try congruence.
    - intros u thu wu _ Hu Hwu. apply (core_wait _ Hc _ _ _ Hu Hwu).
    - apply (core_lists_same s _ t th (mkThread (Some (grant w)) (t_held th)));
        [done|done|by intros []| |]; simpl; rewrite Hw; naive_solver. }
  pose proof (times_locked_bound _ Hc') as Hb1. pose proof (core_demand _ Hc') as Hb2. cbn [m_times_locked] in Hb1.
  pose proof (times_locked_bound _ Hc).
  split_and!; [done|rewrite Hn; apply wrap_small; unfold in_width; lia|apply wrap_small; unfold in_width; lia|].
  split; simpl; try done. intros u thu. destruct (decide (u = t)) as [->|].
  - rewrite lookup_insert_eq. intros [= <-]. simpl. eauto.
  - rewrite lookup_insert_ne by done. eauto.
Qed.

Lemma unblock_shared_loop_wp l s :
  sharing s -> NoDup l -> (forall t, t ∈ l -> ungranted_reader s t) ->
  wp (unblock_shared_loop l) s (fun r s' =>
    r = Ok tt /\ sharing s' /\ m_times_locked s + Z.of_nat (length l) <= m_times_locked s' /\
    forall t, threads s' !! t =
      (fun th => if decide (t ∈ l) then mkThread (grant <$> t_wait th) (t_held th) else th) <$> threads s !! t).
Proof.
  revert s. induction l as [|t l IH]; intros s Hs Hnd Hl; cbn [unblock_shared_loop].
  { wp_step. split_and!; [done|done|simpl; lia|]. intros t.
    by destruct (threads s !! t). }
  apply NoDup_cons in Hnd as [Hnin Hnd].
  destruct (Hl t) as (th & w & Ht & Hw & Hg & Hm); [set_solver|].
  destruct (sharing_grant s t th w Hs Ht Hw Hg Hm) as (Hpos & E1 & E2 & Hs').
  wp_step. eapply unblock_from_mutex_wp; [done..|]. unfold set_shared_holders, set_times_locked.
  wp_steps. cbn [with_thread m_shared_holders m_times_locked m_behavior m_mode m_holder list_exclusive
    list_shared list_exclusive_big_lock threads] in *. rewrite E1, E2.
  eapply wp_mono; [apply IH; [done|done|]|].
  - intros u Hu. destruct (Hl u) as (thu & wu & ? & ? & ? & ?); [set_solver|]. exists thu, wu.
    simpl. rewrite lookup_insert_ne by set_solver. done.
  - intros r s' (-> & Hs'' & Hle & Hth). split_and!; [done|done|simpl in *; lia|]. intros u.
    rewrite Hth. cbn [threads with_thread]. destruct (decide (u = t)) as [->|Hne].
    + rewrite lookup_insert_eq, Ht. cbn [fmap option_fmap option_map]. f_equal.
      rewrite decide_False, decide_True by set_solver. by rewrite Hw.
    + rewrite lookup_insert_ne by done. destruct (threads s !! u); [|done].
      cbn [fmap option_fmap option_map]. f_equal.
      destruct (decide (u ∈ l)), (decide (u ∈ t :: l)); set_solver.
Qed.

(** Who gets a lock that becomes free. *)
Inductive handover := Nobody | Writer (t : tid) | Readers (l : list tid).

Definition first_writer (l : list tid) (otherwise : handover) : handover :=
  match l with t :: _ => Writer t | [] => otherwise end.
Definition all_readers (l : list tid) (otherwise : handover) : handover :=
  match l with [] => otherwise | _ => Readers l end.

Definition next_owner (s : MS) (previous_mode : LockMode) : handover :=
  if decide (m_behavior s = BigLock) then first_writer (list_exclusive_big_lock s) Nobody
  else if decide (previous_mode = Exclusive)
  then all_readers (list_shared s) (first_writer (list_exclusive s) Nobody)
  else first_writer (list_exclusive s) (all_readers (list_shared s) Nobody).

Definition is_granted (s : MS) (t : tid) : Prop :=
  exists th w, threads s !! t = Some th /\ t_wait th = Some w /\ granted w = true.

Definition handed (h : handover) (s' : MS) : Prop :=
  match h with
  | Nobody => m_mode s' = Unlocked
  | Writer t => m_mode s' = Exclusive /\ m_holder s' = Some t
  | Readers l => m_mode s' = Shared /\ forall t, t ∈ l -> is_granted s' t
  end.

Lemma waiting_list_shared mode : waiting_list Regular mode = ListShared -> mode <> Unlocked -> mode = Shared.
Proof. unfold waiting_list. simpl. by destruct mode. Qed.

Lemma unblock_shared_wp s (Q : outcome bool -> MS -> Prop) :
  released s -> m_behavior s = Regular ->
  (list_shared s = [] -> Q (Ok false) s) ->
  (forall s', list_shared s <> [] -> inv s' -> handed (Readers (list_shared s)) s' -> Q (Ok true) s') ->
  wp unblock_shared s Q.
Proof.
  intros Hr Hb Hnone Hsome. pose proof (released_core _ Hr) as Hc. unfold unblock_shared.
  do 2 wp_step. case_bool_decide as El; [wp_step; auto|]. wp_step. verify.
  unfold set_mode. do 3 wp_step.
  destruct (core_lists _ Hc ListShared) as [Hnd Hin]. simpl in Hnd, Hin.
  assert (forall t, t ∈ list_shared s -> ungranted_reader s t) as Hl.
  { intros t (th & w & Ht & Hw & Hlist)%Hin. exists th, w. destruct (released_idle s _ _ Hr Ht) as [_ Hg].
    split_and!; auto. rewrite Hb in Hlist. apply waiting_list_shared; [done|].
    apply (core_wait _ Hc _ _ _ Ht Hw). }
  eapply wp_mono; [apply unblock_shared_loop_wp; [|done|]|].
  - split; simpl; try done; try apply Hr.
    + destruct Hc as [H1 H2 H3 H4]. split; try done. intros t th w Ht Hw. simpl in *.
      destruct (released_idle s _ _ Hr Ht) as [_ Hg]. specialize (Hg _ Hw).
      destruct (H4 _ _ _ Ht Hw). split; try done. congruence.
    + rewrite (released_shared _ Hr), (released_times _ Hr). done.
    + intros t th Ht. destruct (released_idle s _ _ Hr Ht) as [-> _]. constructor.
  - intros t Ht. apply Hl in Ht. destruct Ht as (th & w & ?). exists th, w. done.
  - intros r s' (-> & Hs' & Hle & Hth). cbn in Hle, Hth. wp_step. apply Hsome; [done| |].
    + destruct Hs' as [H1 H2 H3 H4 H5 H6]. split; [done|]. unfold mode_ok. rewrite H2.
      split_and!; try done. rewrite (released_times _ Hr) in Hle.
      destruct (list_shared s); [done|simpl in Hle; lia].
    + split; [apply Hs'|]. intros t Ht. destruct (Hl t Ht) as (th & w & E & Hw & _).
      exists (mkThread (grant <$> t_wait th) (t_held th)), (grant w). rewrite Hth, E. simpl.
      rewrite decide_True by done. by rewrite Hw.
Qed.

Lemma released_nobody s :
  released s -> (forall w, list_for s w = []) -> inv s.
Proof.
  intros Hr Hl. split; [apply Hr|]. unfold mode_ok. rewrite (released_mode _ Hr).
  split_and!; try apply Hr. intros t th Ht. destruct (t_wait th) as [w|] eqn:Hw; [|done].
  exfalso. eapply (not_elem_of_nil t). rewrite <- (Hl (waiting_list (m_behavior s) (w_mode w))).
  apply (core_lists _ (released_core _ Hr)). by exists th, w.
Qed.

(** Which lists can be populated depends on the kind of mutex. *)
Lemma core_big_lock_lists s :
  core s -> match m_behavior s with
            | BigLock => list_exclusive s = [] /\ list_shared s = []
            | Regular => list_exclusive_big_lock s = []
            end.
Proof.
  intros Hc. assert (forall w, (forall mode, waiting_list (m_behavior s) mode <> w) -> list_for s w = []) as H.
  { intros w Hw. apply elem_of_nil_inv. intros t Ht. apply (core_lists _ Hc) in Ht as (? & ? & _ & _ & E).
    by apply Hw in E. }
  unfold waiting_list in H. destruct (m_behavior s); simpl in H.
  - apply (H ListBigLock). by intros [].
  - split; [apply (H ListExclusive)|apply (H ListShared)]; done.
Qed.

Lemma unblock_waiters_wp s previous_mode :
  released s ->
  wp (unblock_waiters previous_mode) s (fun r s' =>
    r = Ok tt /\ inv s' /\ handed (next_owner s previous_mode) s').
Proof.
  intros Hr. pose proof (core_big_lock_lists s (released_core _ Hr)) as Hlists.
  unfold unblock_waiters, next_owner. destruct Hr as [Hc E1 E2 E3 E4] eqn:Er. clear Er.
  assert (released s) as Hr' by (by split). do 2 wp_step. wp_step. verify. wp_step. verify.
  destruct (m_behavior s) eqn:Hb.
  2: { rewrite !(decide_True (P := BigLock = BigLock)) by done. destruct Hlists as [H1 H2].
    wp_step. apply (unblock_exclusive_wp s ListBigLock); [done|done|intros El|intros next l s' El Hi Hh Hm];
      cbn [list_for] in El; wp_step; rewrite El; [|done].
    split_and!; [done| |done]. apply released_nobody; [done|]. by intros []. }
  rewrite !(decide_False (P := Regular = BigLock)) by done.
  destruct (decide (previous_mode = Exclusive)).
  - wp_step. apply unblock_shared_wp; [done|done|intros El|intros s' El Hi Hh].
    + wp_step. apply (unblock_exclusive_wp s ListExclusive); [done|done|intros El'|intros next l s' El' Hi Hh Hm];
        cbn [list_for] in El'; wp_step; rewrite El, El'; [|done].
      split_and!; [done| |done]. apply released_nobody; [done|]. by intros [].
    + wp_step. split_and!; [done|done|]. by destruct (list_shared s).
  - wp_step. apply (unblock_exclusive_wp s ListExclusive); [done|done|intros El'|intros next l s' El' Hi Hh Hm];
      cbn [list_for] in El'; wp_step; rewrite El'; [|done].
    apply unblock_shared_wp; [done|done|intros El|intros s' El Hi Hh]; wp_step.
    + rewrite El. split_and!; [done| |done]. apply released_nobody; [done|]. by intros [].
    + split_and!; [done|done|]. by destruct (list_shared s).
Qed.

(** ** Every step keeps the invariant *)

Definition safe (s : MS) (m : M MS unit) : Prop :=
  wp m s (fun r s' => r = Ok tt /\ inv s').

Lemma running_occupied s t held : running s t held -> occupied (mkThread None held) = Z.of_nat (length held).
Proof. intros _. unfold occupied. simpl. lia. Qed.

(** A thread that holds something keeps the mutex locked, in a mode that fits. *)
Lemma inv_held s t th m :
  inv s -> threads s !! t = Some th -> m ∈ t_held th ->
  match m_mode s with
  | Unlocked => False
  | Shared => m = Shared
  | Exclusive => m_holder s = Some t
  end.
Proof.
  intros [Hc Hm] Ht Hin. unfold mode_ok in Hm. destruct (m_mode s).
  - destruct Hm as (_ & _ & E & _). rewrite (core_sum _ Hc) in E.
    apply (map_sum_zero _ _ t th) in E; [|by apply occupied_nonneg|done].
    eapply occupied_zero in E as [E _]; [rewrite E in Hin; set_solver|].
    intros w. by apply (core_wait _ Hc t).
  - destruct Hm as (_ & _ & _ & _ & Hheld). specialize (Hheld t th Ht).
    by rewrite Forall_forall in Hheld; apply Hheld.
  - destruct Hm as (_ & _ & h & Hh & Hother). destruct (decide (t = h)) as [->|Hne]; [done|].
    pose proof (Hother _ _ Hne Ht) as E. eapply occupied_zero in E as [E _]; [rewrite E in Hin; set_solver|].
    intros w. by apply (core_wait _ Hc t).
Qed.

Lemma block_safe s t held mode n point :
  inv s -> running s t held -> m_mode s <> Unlocked -> mode <> Unlocked ->
  (m_behavior s = BigLock -> mode = Exclusive) -> (point <> LockWasExclusive -> mode = Exclusive) ->
  0 < n -> demand s + n < 2 ^ 32 -> safe s (block t mode n point).
Proof.
  intros [Hc Hm] Ht Hlocked Hmode Hbig Hpoint Hn Hdem. unfold running in Ht. unfold safe, block, append_to_list, thread_block.
  set (w := waiting_list (m_behavior s) mode).
  assert (forall w', t ∉ list_for s w') as Hnin.
  { intros w' (th & wt & Ht' & Hw & _)%(core_lists _ Hc). rewrite Ht in Ht'. by simplify_eq. }
  do 5 wp_step. wp_step. apply wp_VERIFY; [by apply negb_true_iff, bool_decide_eq_false_2|].
  unfold set_list, set_thread. do 2 wp_step. eapply wp_get_thread; [done|]. wp_step. verify.
  wp_steps. split; [done|]. split.
  - eapply (core_update s _ t (mkThread None held) (mkThread (Some (mkWait mode n point false)) held));
      simpl; try done.
    + unfold occupied. simpl. lia.
    + unfold potential. simpl. lia.
    + intros ? [= <-]. by split.
    + intros u thu wu _ Hu Hwu. apply (core_wait _ Hc _ _ _ Hu Hwu).
    + intros w'. assert (NoDup (list_for s w')) as Hnd by apply (core_lists _ Hc).
      specialize (Hnin w'). destruct (decide (w = w')) as [<-|Hne].
      * subst w. destruct (waiting_list (m_behavior s) mode) eqn:Ew; simpl in *; (split_and!;
          [apply NoDup_app; split_and!; [done|set_solver|apply NoDup_singleton]|set_solver|]);
          (split; [eauto|set_solver]).
      * subst w. destruct w', (waiting_list (m_behavior s) mode) eqn:Ew; try done; simpl in *;
          (split_and!; [done|done|split; [done|intros (? & [= <-] & E'); simpl in E'; congruence]]).
  - unfold mode_ok in *. simpl. destruct (m_mode s) eqn:Emode; [done| |].
    + destruct Hm as (? & ? & ? & ? & Hheld). split_and!; try done. intros u thu.
      destruct (decide (u = t)) as [->|]; [rewrite lookup_insert_eq|rewrite lookup_insert_ne by done; eauto].
      intros [= <-]. apply (Hheld t _ Ht).
    + destruct Hm as (? & ? & h & ? & Hother). split_and!; try done. exists h. split; [done|].
      intros u thu Hne. destruct (decide (u = t)) as [->|].
      * rewrite lookup_insert_eq. intros [= <-]. pose proof (Hother _ _ Hne Ht) as E.
        unfold occupied in *. simpl in *. lia.
      * rewrite lookup_insert_ne by done. eauto.
Qed.

Definition after_acquire (s : MS) (t : tid) (held : list LockMode) (how : LockMode) (n : Z)
    (mode : LockMode) (times : Z) (holder : option tid) (shared : Z) : MS :=
  mkMS (m_behavior s) mode times holder shared (list_exclusive s) (list_shared s)
    (list_exclusive_big_lock s)
    (<[t := mkThread None (replicate (Z.to_nat n) how ++ held)]> (threads s)).

Lemma core_acquire s t held how n mode holder shared :
  core s -> running s t held -> 0 <= n -> demand s + n < 2 ^ 32 ->
  (forall u thu w, threads s !! u = Some thu -> t_wait thu = Some w -> granted w = true -> mode = w_mode w) ->
  core (after_acquire s t held how n mode (m_times_locked s + n) holder shared).
Proof.
  intros Hc Ht Hn Hdem Hg.
  eapply (core_update s _ t (mkThread None held) (mkThread None (replicate (Z.to_nat n) how ++ held)));
    simpl; try done.
  - unfold occupied. simpl. rewrite length_app, length_replicate. lia.
  - unfold potential. simpl. rewrite length_app, length_replicate. lia.
  - intros u thu w _. eauto.
  - by apply (core_lists_same s _ t (mkThread None held)
      (mkThread None (replicate (Z.to_nat n) how ++ held))); [done|done|intros []|..].
Qed.

Lemma inv_acquire_unlocked s t held n mode :
  inv s -> m_mode s = Unlocked -> running s t held -> 0 < n -> demand s + n < 2 ^ 32 ->
  mode <> Unlocked -> (m_behavior s = BigLock -> mode = Exclusive) ->
  inv (after_acquire s t held mode n mode n
         (if decide (mode = Exclusive) then Some t else None) (if decide (mode = Exclusive) then 0 else n)).
Proof.
  intros [Hc Hm] Emode Ht Hn Hdem Hne Hbig. unfold mode_ok in Hm. rewrite Emode in Hm.
  destruct Hm as (Eh & Es & Et & Hnowait).
  assert (forall u thu, threads s !! u = Some thu -> occupied thu = 0) as Hocc.
  { intros u thu Hu. apply (released_occupied s u thu); [by split|done]. }
  split.
  - replace n with (m_times_locked s + n) at 2 by lia. apply core_acquire; [done|done|lia|done|].
    intros u thu w Hu Hw. by rewrite (Hnowait _ _ Hu) in Hw.
  - assert (forall u thu, threads s !! u = Some thu -> t_held thu = []) as Hheld.
    { intros u thu Hu. apply (occupied_zero (m_behavior s) (m_mode s)); [|by eapply Hocc].
      intros w Hw. by rewrite (Hnowait _ _ Hu) in Hw. }
    unfold mode_ok, after_acquire. simpl. destruct mode; [done| |].
    + split_and!; try done; [by destruct (m_behavior s); [|specialize (Hbig eq_refl)]|].
      intros u thu. destruct (decide (u = t)) as [->|].
      * rewrite lookup_insert_eq. intros [= <-]. simpl. apply Forall_app. split; [by apply Forall_replicate|].
        pose proof (Hheld _ _ Ht) as E. simpl in E. by rewrite E.
      * rewrite lookup_insert_ne by done. intros Hu. by rewrite (Hheld _ _ Hu).
    + split_and!; try done. exists t. split; [done|]. intros u thu Hut.
      rewrite lookup_insert_ne by done. apply Hocc.
Qed.

Lemma inv_acquire_again s t held n how :
  inv s -> m_mode s = Exclusive -> m_holder s = Some t -> running s t held ->
  0 < n -> demand s + n < 2 ^ 32 ->
  inv (after_acquire s t held how n Exclusive (m_times_locked s + n) (Some t) 0).
Proof.
  intros [Hc Hm] Emode Eh Ht Hn Hdem. unfold mode_ok in Hm. rewrite Emode in Hm.
  destruct Hm as (Es & Htimes & h & Eh' & Hother). simplify_eq. split.
  - apply core_acquire; [done|done|lia|done|]. intros u thu w Hu Hw. rewrite <- Emode.
    apply (core_wait _ Hc _ _ _ Hu Hw).
  - unfold mode_ok, after_acquire. simpl. split_and!; [done|lia|]. exists h. split; [done|].
    intros u thu Hut. rewrite lookup_insert_ne by done. by apply Hother.
Qed.

Lemma inv_acquire_shared s t held :
  inv s -> m_mode s = Shared -> running s t held -> demand s + 1 < 2 ^ 32 ->
  inv (after_acquire s t held Shared 1 Shared (m_times_locked s + 1) None (m_times_locked s + 1)).
Proof.
  intros [Hc Hm] Emode Ht Hdem. unfold mode_ok in Hm. rewrite Emode in Hm.
  destruct Hm as (Eh & Es & Htimes & Hb & Hheld). split.
  - apply core_acquire; [done|done|lia|done|]. intros u thu w Hu Hw. rewrite <- Emode.
    apply (core_wait _ Hc _ _ _ Hu Hw).
  - unfold mode_ok, after_acquire. simpl. split_and!; [done|done|lia|done|].
    intros u thu. destruct (decide (u = t)) as [->|].
    + rewrite lookup_insert_eq. intros [= <-]. simpl. constructor; [done|]. apply (Hheld _ _ Ht).
    + rewrite lookup_insert_ne by done. apply Hheld.
Qed.

Lemma acquire_wp s t held mode n (Q : outcome unit -> MS -> Prop) :
  running s t held -> Q (Ok tt) (with_thread t (mkThread None (replicate (Z.to_nat n) mode ++ held)) s) ->
  wp (acquire t mode n) s Q.
Proof.
  intros Ht HQ. unfold acquire, set_thread. wp_step. eapply wp_get_thread; [done|]. by wp_steps.
Qed.

Ltac mfields :=
  unfold with_thread, after_acquire in *;
  cbn [m_behavior m_mode m_times_locked m_holder m_shared_holders list_exclusive list_shared
       list_exclusive_big_lock threads] in *.

Ltac mode_hyps :=
  bool_hyps;
  repeat match goal with
    | H : bool_decide _ = true |- _ => apply bool_decide_eq_true in H
    | H : bool_decide _ = false |- _ => apply bool_decide_eq_false in H
    end.

Lemma exec_lock_safe s t mode : inv s -> allowed s (OpLock t mode) -> safe s (exec (OpLock t mode)).
Proof.
  intros Hi ((held & Ht) & Hne & Hbig & Hdem). pose proof Hi as [Hc Hm].
  pose proof (times_locked_bound _ Hc) as Hbound. unfold safe, exec, lock, mode_ok in *.
  wp_step. wp_step. verify. do 2 wp_step. destruct (m_mode s) eqn:Emode.
  - destruct Hm as (Eh & Es & Et & _). unfold lock_unlocked, set_mode, set_holder, set_shared_holders, set_times_locked.
    wp_step. wp_step. wp_step. do 2 wp_step. wp_step. verify. wp_step. verify.
    pose proof (inv_acquire_unlocked s t held 1 mode Hi Emode Ht ltac:(lia) Hdem Hne Hbig) as Hpost.
    mfields. rewrite Es, Et. change (wrap 32 (0 + 1)) with 1. change (wrap 64 (0 + 1)) with 1.
    wp_step. destruct (decide (mode = Exclusive)) as [->|Hs].
    + wp_step. wp_step. verify. wp_steps. eapply acquire_wp; [done|].
      split; [done|]. mfields. by rewrite ?Es, ?Eh.
    + assert (mode = Shared) as -> by (by destruct mode). wp_step. verify. wp_step. wp_step. verify.
      wp_steps. eapply acquire_wp; [done|]. split; [done|]. mfields. by rewrite ?Es, ?Eh.
  - destruct Hm as (Eh & Es & Et & Hb & _). wp_step. verify. wp_step. verify.
    destruct (decide (mode = Exclusive)) as [->|Hs].
    + wp_step. eapply wp_mono; [apply (block_safe s t held Exclusive 1 LockWasShared); (done || lia || congruence)|].
      intros r s' [-> ?]. by wp_steps.
    + assert (mode = Shared) as -> by (by destruct mode). unfold lock_was_shared, set_times_locked, set_shared_holders.
      msteps. rewrite Emode. rewrite !(decide_True (P := Shared = Shared)) by done. msteps.
      eapply acquire_wp; [done|]. split; [done|]. mfields. rewrite Es.
      rewrite !wrap_small by (unfold in_width; lia). rewrite Emode, Eh.
      apply inv_acquire_shared; done.
  - destruct Hm as (Es & Et & h & Eh & _). wp_step. verify.
    destruct (decide (m_holder s = Some t)) as [Eh'|Hother].
    + unfold lock_was_exclusive, set_times_locked. msteps. rewrite Emode.
      rewrite !(decide_True (P := Exclusive = Exclusive)) by done. msteps.
      eapply acquire_wp; [done|]. split; [done|]. mfields.
      rewrite Emode, Es, Eh', wrap_small by (unfold in_width; lia).
      apply inv_acquire_again; try done; lia.
    + wp_step. eapply wp_mono; [apply (block_safe s t held mode 1 LockWasExclusive); (done || lia || congruence)|].
      intros r s' [-> ?]. by wp_steps.
Qed.

(** The thread leaves the list it waited in and owns what it was granted. *)
Definition after_resume (s : MS) (t : tid) (th : Thread) (w : Wait) : MS :=
  let l := filter (fun u => u <> t) (list_for s (waiting_list (m_behavior s) (w_mode w))) in
  let upd which old := if decide (waiting_list (m_behavior s) (w_mode w) = which) then l else old in
  mkMS (m_behavior s) (m_mode s) (m_times_locked s) (m_holder s) (m_shared_holders s)
    (upd ListExclusive (list_exclusive s)) (upd ListShared (list_shared s))
    (upd ListBigLock (list_exclusive_big_lock s))
    (<[t := mkThread None (replicate (Z.to_nat (m_lock_requested_count w)) (w_mode w) ++ t_held th)]>
       (threads s)).

Lemma after_resume_list s t th w which :
  list_for (after_resume s t th w) which =
    if decide (waiting_list (m_behavior s) (w_mode w) = which)
    then filter (fun u => u <> t) (list_for s which) else list_for s which.
Proof. destruct which; simpl; by case_decide as E; rewrite ?E. Qed.

Lemma inv_resume s t th w :
  inv s -> threads s !! t = Some th -> t_wait th = Some w -> granted w = true ->
  inv (after_resume s t th w).
Proof.
  intros [Hc Hm] Ht Hw Hg. pose proof (core_wait _ Hc _ _ _ Ht Hw) as [Hcount Hmode _ _ Hmm].
  specialize (Hmm Hg). split.
  - eapply (core_update s _ t th (mkThread None (replicate _ _ ++ t_held th))); try done.
    + unfold occupied. simpl. rewrite Hw, Hg, length_app, length_replicate. lia.
    + pose proof (core_demand _ Hc). unfold potential. simpl. rewrite Hw, length_app, length_replicate. lia.
    + intros u thu wu _ Hu Hwu. apply (core_wait _ Hc _ _ _ Hu Hwu).
    + intros which. rewrite after_resume_list. destruct (core_lists _ Hc which) as [Hnd Hin].
      case_decide as E.
      * split_and!; [by apply NoDup_filter| |].
        { intros u Hu. rewrite list_elem_of_filter. tauto. }
        { rewrite list_elem_of_filter. split; [by intros [? _]|naive_solver]. }
      * split_and!; [done|done|]. split; [|naive_solver]. intros (th' & w' & ? & ? & ?)%Hin. simplify_eq.
  - unfold mode_ok in *. unfold after_resume. simpl. destruct (m_mode s) eqn:Emode; [congruence| |].
    + destruct Hm as (? & ? & ? & ? & Hheld). split_and!; try done. intros u thu.
      destruct (decide (u = t)) as [->|]; [rewrite lookup_insert_eq|rewrite lookup_insert_ne by done; eauto].
      intros [= <-]. simpl. apply Forall_app. split; [|eauto]. by apply Forall_replicate.
    + destruct Hm as (? & ? & h & ? & Hother). split_and!; try done. exists h. split; [done|].
      intros u thu Hne. destruct (decide (u = t)) as [->|].
      * specialize (Hother _ _ Hne Ht). unfold occupied in Hother. rewrite Hw, Hg in Hother. lia.
      * rewrite lookup_insert_ne by done. eauto.
Qed.

Lemma block_end_wp s t th w (Q : outcome unit -> MS -> Prop) :
  core s -> threads s !! t = Some th -> t_wait th = Some w -> granted w = true ->
  Q (Ok tt) (with_thread t (mkThread None (t_held th)) (after_resume s t th w)) ->
  wp (block_end t (w_mode w)) s Q.
Proof.
  intros Hc Ht Hw Hg HQ. unfold block_end, thread_unblocked, remove_from_list, set_thread, set_list. do 2 wp_step. eapply wp_get_thread; [done|].
  rewrite Hw. msteps. apply wp_VERIFY.
  { apply bool_decide_eq_true_2. mfields.
    assert (t ∈ list_for s (waiting_list (m_behavior s) (w_mode w))) as Hin.
    { apply (core_lists _ Hc). by exists th, w. }
    by destruct (waiting_list _ _). }
  msteps. unfold after_resume in HQ. mfields. rewrite insert_insert_eq in HQ.
  by destruct (waiting_list (m_behavior s) (w_mode w)).
Qed.

Lemma resume_tail_wp s t w (Q : outcome unit -> MS -> Prop) :
  m_mode s = w_mode w -> w_mode w <> Unlocked ->
  (w_point w <> LockWasExclusive -> w_mode w = Exclusive) ->
  (m_mode s = Exclusive -> m_holder s = Some t /\ m_shared_holders s = 0) ->
  (m_mode s = Shared -> m_holder s = None /\ 0 < m_shared_holders s) ->
  0 < m_times_locked s -> Q (Ok tt) s ->
  wp (match w_point w with
      | LockWasExclusive => lock_was_exclusive t (w_mode w) true
      | LockWasShared => lock_was_shared t (w_mode w) true
      | RestoreLock => restore_tail t (m_lock_requested_count w) true
      end) s Q.
Proof.
  intros Emode Hmode Hpoint Hex Hsh Ht HQ.
  destruct (decide (w_mode w = Exclusive)) as [E|E].
  - rewrite E in *. destruct (Hex Emode) as [Eh Es].
    destruct (w_point w); unfold lock_was_exclusive, lock_was_shared, restore_tail; msteps;
      rewrite ?Emode; [rewrite decide_True by done|rewrite decide_False by done|]; msteps; done.
  - assert (w_mode w = Shared) as E' by (by destruct (w_mode w)). rewrite E' in *.
    destruct (Hsh Emode) as [Eh Es].
    destruct (w_point w); try (by destruct E; apply Hpoint).
    unfold lock_was_exclusive. msteps. rewrite Emode, decide_False by done.
    rewrite bool_decide_eq_true_2 by done. cbn [andb]. msteps. done.
Qed.

Lemma exec_resume_safe s t : inv s -> allowed s (OpResume t) -> safe s (exec (OpResume t)).
Proof.
  intros Hi (th & w & Ht & Hw & Hg). pose proof Hi as [Hc Hm].
  pose proof (core_wait _ Hc _ _ _ Ht Hw) as [Hcount Hmode _ Hpoint Hmm]. specialize (Hmm Hg).
  unfold safe, exec, resume. wp_step. eapply wp_get_thread; [done|].
  wp_step. wp_step. eapply wp_get_thread; [done|]. rewrite Hw. wp_step.
  eapply (block_end_wp s); [done..|]. do 3 wp_step. verify. unfold mode_ok in Hm.
  apply resume_tail_wp; unfold after_resume; mfields; try done.
  - intros E. rewrite E in Hm. destruct Hm as (Es & _ & h & -> & Hother). split; [|done].
    f_equal. destruct (decide (t = h)) as [|Hne]; [done|]. specialize (Hother _ _ Hne Ht).
    unfold occupied in Hother. rewrite Hw, Hg in Hother. lia.
  - intros E. rewrite E in Hm. destruct Hm as (? & -> & ? & _). done.
  - destruct (m_mode s); [congruence|apply Hm|apply Hm].
  - eapply acquire_wp; [unfold running; simpl; apply lookup_insert_eq|].
    split; [done|]. pose proof (inv_resume s t th w Hi Ht Hw Hg) as Hpost.
    unfold after_resume in *. mfields. by rewrite !insert_insert_eq.
Qed.

(** Nobody is granted a lock that counts zero, so the mode can be reset. *)
Lemma core_released s b holder shared :
  core s -> m_times_locked s = 0 -> m_behavior s = b -> holder = None -> shared = 0 ->
  released (mkMS b Unlocked 0 holder shared (list_exclusive s) (list_shared s)
              (list_exclusive_big_lock s) (threads s)).
Proof.
  intros Hc Et <- -> ->. split; try done. destruct Hc as [H1 H2 H3 H4].
  assert (core s) as Hc by by split. split; simpl; try done.
  - by rewrite <- H1.
  - intros t th w Ht Hw. destruct (H4 _ _ _ Ht Hw). split; try done.
    intros Hg. exfalso. rewrite H1 in Et.
    pose proof (map_sum_zero _ _ t th (occupied_nonneg _ Hc) Et Ht) as E.
    unfold occupied in E. rewrite Hw, Hg in E. lia.
Qed.

Lemma core_release s t held held' holder shared mode :
  core s -> running s t held -> m_mode s = mode -> (length held' <= length held)%nat ->
  core (mkMS (m_behavior s) mode
          (m_times_locked s - Z.of_nat (length held) + Z.of_nat (length held')) holder shared
          (list_exclusive s) (list_shared s) (list_exclusive_big_lock s)
          (<[t := mkThread None held']> (threads s))).
Proof.
  intros Hc Ht <- Hlen. eapply (core_update s _ t (mkThread None held) (mkThread None held')); try done; simpl.
  - unfold occupied. simpl. lia.
  - pose proof (core_demand _ Hc). unfold potential. simpl. lia.
  - intros u thu wu _ Hu Hwu. apply (core_wait _ Hc _ _ _ Hu Hwu).
  - by apply (core_lists_same s _ t (mkThread None held) (mkThread None held')); [done|done|intros []|..].
Qed.

Lemma core_release_one s t held i holder shared mode :
  core s -> running s t held -> m_mode s = mode -> (i < length held)%nat ->
  core (mkMS (m_behavior s) mode (m_times_locked s - 1) holder shared
          (list_exclusive s) (list_shared s) (list_exclusive_big_lock s)
          (<[t := mkThread None (delete i held)]> (threads s))).
Proof.
  intros Hc Ht Em Hlen. pose proof (core_release s t held (delete i held) holder shared mode Hc Ht Em) as Hrel.
  rewrite length_delete in Hrel by (by apply lookup_lt_is_Some_2).
  replace (m_times_locked s - Z.of_nat (length held) + Z.of_nat (length held - 1))
    with (m_times_locked s - 1) in Hrel by lia. apply Hrel. lia.
Qed.

(** The last holder hands the lock over. *)
Lemma unblock_after_release s t held i mode :
  core s -> running s t held -> m_mode s = mode -> (i < length held)%nat -> m_times_locked s = 1 ->
  wp (unblock_waiters mode)
    (mkMS (m_behavior s) Unlocked 0 None 0 (list_exclusive s) (list_shared s) (list_exclusive_big_lock s)
       (<[t := mkThread None (delete i held)]> (threads s)))
    (fun r s' => r = Ok tt /\ inv s' /\ handed (next_owner s mode) s').
Proof.
  intros Hc Ht Em Hlen E1.
  pose proof (core_release_one s t held i None 0 mode Hc Ht Em Hlen) as Hrel.
  eapply wp_mono; [apply unblock_waiters_wp|].
  - eapply (core_released _ (m_behavior s) None 0) in Hrel; [exact Hrel|simpl; lia|done..].
  - done.
Qed.

Lemma mode_ok_release s t held held' h :
  running s t held -> m_mode s = Exclusive -> m_holder s = Some h -> h = t -> mode_ok s ->
  forall u thu, u <> h -> <[t := mkThread None held']> (threads s) !! u = Some thu -> occupied thu = 0.
Proof.
  intros Ht Em Eh -> Hm u thu Hne. rewrite lookup_insert_ne by done. unfold mode_ok in Hm.
  rewrite Em in Hm. destruct Hm as (_ & _ & h & Eh' & Hother). simplify_eq. by apply Hother.
Qed.

Lemma unlock_wp s t held i :
  inv s -> running s t held -> (i < length held)%nat ->
  wp (release t i;; unlock t) s (fun r s' =>
    r = Ok tt /\ inv s' /\
    if m_times_locked s =? 1 then handed (next_owner s (m_mode s)) s'
    else m_mode s' = m_mode s /\ m_holder s' = m_holder s).
Proof.
  intros Hi Ht Hlen. pose proof Hi as [Hc Hm].
  destruct (lookup_lt_is_Some_2 held i Hlen) as [m Hmi].
  assert (m ∈ held) as Hin by (by eapply list_elem_of_lookup_2).
  pose proof (inv_held s t _ m Hi Ht Hin) as Hheld. simpl in Hheld.
  unfold release, unlock, set_thread, set_times_locked, set_holder, set_shared_holders, set_mode.
  wp_step. wp_step. eapply wp_get_thread; [done|]. do 3 wp_step. mfields. cbn [t_wait t_held].
  assert (m_mode s <> Unlocked) as Hne by (by destruct (m_mode s)).
  assert (0 < m_times_locked s) as Hpos by (unfold mode_ok in Hm; destruct (m_mode s); [done|apply Hm..]).
  msteps. mfields.
  destruct (Z.eqb_spec (m_times_locked s) 1) as [E1|E1].
  - replace (m_times_locked s - 1) with 0 by lia.
    destruct (m_mode s) eqn:Emode; [done| |]; unfold mode_ok in Hm; rewrite Emode in Hm.
    + destruct Hm as (Eh & Es & _). rewrite !decide_False by done.
      change (0 =? 0) with true. msteps. mfields.
      replace (m_shared_holders s - 1) with 0 by lia. rewrite Eh. by apply (unblock_after_release s).
    + destruct Hm as (Es & _ & h & Eh & _). rewrite !decide_True by done.
      change (0 =? 0) with true. msteps. mfields. rewrite Es. by apply (unblock_after_release s).
  - assert ((m_times_locked s - 1 =? 0) = false) as -> by (apply Z.eqb_neq; lia).
    destruct (m_mode s) eqn:Emode; [done| |]; pose proof Hm as Hm'; unfold mode_ok in Hm'; rewrite Emode in Hm'.
    + destruct Hm' as (Eh & Es & _ & Hb & Hall). rewrite !decide_False by done. msteps. mfields.
      split_and!; [done| |done|done]. split; [by apply core_release_one|]. unfold mode_ok. mfields.
      split_and!; [done|lia|lia|done|]. intros u thu. destruct (decide (u = t)) as [->|].
      * rewrite lookup_insert_eq. intros [= <-]. apply Forall_delete. apply (Hall _ _ Ht).
      * rewrite lookup_insert_ne by done. apply Hall.
    + destruct Hm' as (Es & _ & h & Eh & Hother). rewrite !decide_True by done. msteps. mfields.
      split_and!; [done| |done|done]. split; [by apply core_release_one|]. unfold mode_ok. mfields.
      split_and!; [done|lia|]. exists h. split; [done|]. eapply mode_ok_release; try done. congruence.
Qed.

Lemma exclusive_count s t held :
  inv s -> m_mode s = Exclusive -> m_holder s = Some t -> running s t held ->
  m_times_locked s = Z.of_nat (length held).
Proof.
  intros [Hc Hm] Em Eh Ht. unfold mode_ok in Hm. rewrite Em in Hm.
  destruct Hm as (_ & _ & h & Eh' & Hother). simplify_eq.
  rewrite (core_sum _ Hc), (map_sum_delete _ _ _ _ Ht), map_sum_all_zero.
  - unfold occupied. simpl. lia.
  - intros u thu [Hne Hu]%lookup_delete_Some. by apply (Hother u).
Qed.

Lemma exec_force_unlock_safe s t :
  inv s -> allowed s (OpForceUnlock t) -> safe s (exec (OpForceUnlock t)).
Proof.
  intros Hi (Hb & held & Ht). pose proof Hi as [Hc Hm]. unfold mode_ok in Hm.
  unfold safe, exec, release_all, force_unlock_exclusive_if_locked, set_thread, set_holder,
    set_times_locked, set_mode. wp_step. wp_step. wp_step. destruct (decide (m_holder s = Some t)) as [Eh|Eh].
  - destruct (m_mode s) eqn:Em; [destruct Hm; congruence|destruct Hm; congruence|]. clear Hm.
    pose proof (exclusive_count s t held Hi Em Eh Ht) as Hcount.
    assert (0 < m_times_locked s /\ m_shared_holders s = 0) as [Hpos Es].
    { destruct Hi as [_ Hm]. unfold mode_ok in Hm. rewrite Em in Hm. tauto. }
    wp_step. eapply wp_get_thread; [done|]. do 4 wp_step. mfields. cbn [t_wait t_held]. wp_step. verify.
    rewrite Em. rewrite decide_True by done. msteps. mfields.
    pose proof (core_release s t held [] None 0 Exclusive Hc Ht Em ltac:(simpl; lia)) as Hrel.
    eapply (core_released _ (m_behavior s) None 0) in Hrel; [|simpl; lia|done..]. mfields.
    rewrite Es. eapply wp_mono; [by apply unblock_waiters_wp|].
    intros r s' (-> & ? & _). by msteps.
  - msteps. destruct (m_mode s) eqn:Em; [by msteps|destruct Hm as (_ & _ & _ & ? & _); congruence|].
    rewrite decide_False by done. by msteps.
Qed.

Lemma exec_restore_safe s t n : inv s -> allowed s (OpRestore t n) -> safe s (exec (OpRestore t n)).
Proof.
  intros Hi (Hb & Hn & Hdem & held & Ht). pose proof Hi as [Hc Hm]. unfold mode_ok in Hm.
  pose proof (times_locked_bound _ Hc) as Hbound.
  unfold safe, exec, restore_exclusive_lock. wp_step. msteps.
  - mode_hyps.
    eapply wp_mono; [apply (block_safe s t held Exclusive n RestoreLock); (done || lia || congruence)|].
    intros r s' [-> ?]. by wp_steps.
  - unfold restore_tail, set_mode, set_times_locked, set_holder.
    assert (m_mode s <> Shared /\ m_shared_holders s = 0) as [Hns Es].
    { destruct (m_mode s); [by destruct Hm as (_ & ? & _)|destruct Hm as (_ & _ & _ & ? & _); congruence|by destruct Hm]. }
    msteps. destruct (m_mode s) eqn:Em; [| done|].
    + destruct Hm as (Eh & _ & Et & _). rewrite decide_True by done. msteps. mfields.
      eapply acquire_wp; [done|]. split; [done|]. mfields.
      rewrite Es. by apply (inv_acquire_unlocked s t held n Exclusive).
    + destruct Hm as (_ & Hpos & h & Eh & _). mode_hyps; [done|]. rewrite decide_False by done. msteps. mfields.
      eapply acquire_wp; [done|]. split; [done|]. mfields.
      rewrite Em, Es, wrap_small by (unfold in_width; lia).
      replace (m_holder s) with (Some t). by apply inv_acquire_again.
Qed.

Lemma exec_spawn_safe s t : inv s -> allowed s (OpSpawn t) -> safe s (exec (OpSpawn t)).
Proof.
  intros [Hc Hm] Ht. unfold safe, exec, set_thread. wp_step. split; [done|].
  simpl in Ht. destruct Hc as [H1 H2 H3 H4]. split.
  - split; mfields.
    + rewrite map_sum_insert_new by done. unfold occupied at 1. simpl. lia.
    + unfold demand in *. simpl. rewrite map_sum_insert_new by done. unfold potential at 1. simpl. lia.
    + intros w. destruct (H3 w) as [Hnd Hin]. split; [by destruct w|]. intros u.
      transitivity (u ∈ list_for s w); [by destruct w|]. rewrite Hin. unfold waits_in. mfields.
      destruct (decide (u = t)) as [->|]; [rewrite lookup_insert_eq, Ht|by rewrite lookup_insert_ne].
      naive_solver.
    + intros u thu w. destruct (decide (u = t)) as [->|]; [rewrite lookup_insert_eq|rewrite lookup_insert_ne by done; eauto].
      intros [= <-]. done.
  - unfold mode_ok in *. mfields. destruct (m_mode s).
    + destruct Hm as (? & ? & ? & Hw). split_and!; try done. intros u thu.
      destruct (decide (u = t)) as [->|]; [rewrite lookup_insert_eq|rewrite lookup_insert_ne by done; eauto].
      by intros [= <-].
    + destruct Hm as (? & ? & ? & ? & Hw). split_and!; try done. intros u thu.
      destruct (decide (u = t)) as [->|]; [rewrite lookup_insert_eq|rewrite lookup_insert_ne by done; eauto].
      by intros [= <-].
    + destruct Hm as (? & ? & h & ? & Hw). split_and!; try done. exists h. split; [done|]. intros u thu Hne.
      destruct (decide (u = t)) as [->|]; [rewrite lookup_insert_eq|rewrite lookup_insert_ne by done; eauto].
      by intros [= <-].
Qed.

Lemma exec_safe s o : inv s -> allowed s o -> safe s (exec o).
Proof.
  intros Hi Ha. destruct o.
  - by apply exec_spawn_safe.
  - by apply exec_lock_safe.
  - destruct Ha as (held & Ht & Hlen). eapply wp_mono; [by apply (unlock_wp s t held)|]. by intros r s' (-> & ? & _).
  - by apply exec_force_unlock_safe.
  - by apply exec_restore_safe.
  - by apply exec_resume_safe.
Qed.

Lemma reachable_inv b s : reachable b s -> inv s.
Proof.
  induction 1 as [|s o _ IH Ha].
  - split; [|done]. split.
    + change (0 = map_sum occupied ∅). by rewrite map_sum_empty.
    + change (map_sum potential ∅ < 2 ^ 32). by rewrite map_sum_empty.
    + intros w. split; [destruct w; constructor|]. intros t. split; [by destruct w; intros ?%not_elem_of_nil|].
      intros (th & w' & Ht & _). simpl in Ht. by rewrite lookup_empty in Ht.
    + intros t th w Ht. simpl in Ht. by rewrite lookup_empty in Ht.
  - by apply (exec_safe s o).
Qed.

(** ** Properties *)

(** C19: in every interleaving of locks, unlocks, forced unlocks, restores and resumptions by
    any number of threads, whatever step the callers may take next runs to its end: no
    assertion in the mutex code, in the blocking of threads or in their wakeup fails. *)
Theorem mutex_no_assertion_fails b s o :
  reachable b s -> allowed s o -> fst (exec o s) = Ok tt.
Proof. intros Hr Ha. by apply (exec_safe s o (reachable_inv b s Hr) Ha). Qed.

(** Two threads: the first holds the lock, the second waits for it. *)
Definition contended (b : MutexBehavior) : MS :=
  let s := snd (exec (OpSpawn 2%nat) (snd (exec (OpSpawn 1%nat) (initial b)))) in
  snd (exec (OpLock 2%nat Exclusive) (snd (exec (OpLock 1%nat Exclusive) s))).

Lemma contended_reachable : reachable Regular (contended Regular).
Proof.
  unfold contended. apply reachable_step; [apply reachable_step; [apply reachable_step;
    [apply reachable_step; [apply reachable_init|]|]|]|]; vm_compute; try done.
  all: split_and!; eauto; done.
Qed.

Lemma mutex_no_assertion_fails_witness :
  fst (exec (OpUnlock 1%nat 0%nat) (contended Regular)) = Ok tt.
Proof.
  apply (mutex_no_assertion_fails Regular).
  - apply contended_reachable.
  - exists [Exclusive]. split; [reflexivity|simpl; lia].
Defined.

(** C5: mutual exclusion. In every reachable state, a thread that has acquired the lock
    exclusively and not yet released it is the only one that holds the lock in any mode. *)
Theorem mutex_mutual_exclusion b s t u held_t held_u wait_t wait_u :
  reachable b s ->
  threads s !! t = Some (mkThread wait_t held_t) -> threads s !! u = Some (mkThread wait_u held_u) ->
  Exclusive ∈ held_t -> t <> u -> held_u = [].
Proof.
  intros Hr Ht Hu Hex Hne. pose proof (reachable_inv b s Hr) as Hi.
  pose proof (inv_held s t _ _ Hi Ht Hex) as Hm. destruct held_u as [|m l]; [done|].
  pose proof (inv_held s u _ m Hi Hu ltac:(simpl; set_solver)) as Hm'. simpl in *.
  destruct (m_mode s); [done|done|congruence].
Qed.

(** C26: no wakeup is lost. Whenever a thread waits without having been granted the lock, the
    mutex is locked and some thread holds it or has been granted it. *)
Theorem mutex_no_lost_wakeup b s t th w :
  reachable b s -> threads s !! t = Some th -> t_wait th = Some w -> granted w = false ->
  m_mode s <> Unlocked /\ exists u thu, threads s !! u = Some thu /\ 0 < occupied thu.
Proof.
  intros Hr Ht Hw Hg. destruct (reachable_inv b s Hr) as [Hc Hm].
  assert (m_mode s <> Unlocked /\ 0 < m_times_locked s) as [Hne Hpos].
  { unfold mode_ok in Hm. destruct (m_mode s); [|by destruct Hm as (_ & _ & ? & _)|by destruct Hm as (_ & ? & _)].
    destruct Hm as (_ & _ & _ & Hno). by rewrite (Hno _ _ Ht) in Hw. }
  split; [done|]. destruct (decide (map_Exists (fun _ thu => 0 < occupied thu) (threads s))) as [H|H].
  - destruct H as (u & thu & Hu & Hpos'). eauto.
  - rewrite (core_sum _ Hc), map_sum_all_zero in Hpos; [lia|]. intros u thu Hu.
    pose proof (occupied_nonneg _ Hc _ _ Hu). destruct (decide (0 < occupied thu)); [|lia].
    destruct H. by exists u, thu.
Qed.

(** Handing over. When the last lock is released it passes, without the mutex ever being
    free in between, to all waiting readers after a writer, to the first waiting writer after
    readers, and otherwise to whoever waits; only if nobody waits the mutex becomes unlocked.
    Releasing one of several locks changes neither mode nor holder. *)
Theorem mutex_unlock_hands_over b s t held i :
  reachable b s -> running s t held -> (i < length held)%nat ->
  let s' := snd (exec (OpUnlock t i) s) in
  if m_times_locked s =? 1 then handed (next_owner s (m_mode s)) s'
  else m_mode s' = m_mode s /\ m_holder s' = m_holder s.
Proof.
  intros Hr Ht Hlen. pose proof (unlock_wp s t held i (reachable_inv b s Hr) Ht Hlen) as Hw.
  unfold wp in Hw. by destruct Hw as (_ & _ & Hw).
Qed.

Lemma mutex_mutual_exclusion_witness :
  exists held_2, threads (contended Regular) !! 2%nat = Some (mkThread (Some (mkWait Exclusive 1 LockWasExclusive false)) held_2)
    /\ held_2 = [].
Proof.
  exists []. split; [reflexivity|].
  apply (mutex_mutual_exclusion Regular (contended Regular) 1%nat 2%nat [Exclusive] [] None
    (Some (mkWait Exclusive 1 LockWasExclusive false))); [|reflexivity|reflexivity|set_solver|done].
  apply contended_reachable.
Defined.

Lemma mutex_no_lost_wakeup_witness :
  m_mode (contended Regular) <> Unlocked /\
  exists u thu, threads (contended Regular) !! u = Some thu /\ 0 < occupied thu.
Proof.
  eapply (mutex_no_lost_wakeup Regular (contended Regular) 2%nat); [|reflexivity|reflexivity|reflexivity].
  apply contended_reachable.
Defined.

Lemma mutex_unlock_hands_over_witness :
  handed (Writer 2%nat) (snd (exec (OpUnlock 1%nat 0%nat) (contended Regular))).
Proof.
  apply (mutex_unlock_hands_over Regular (contended Regular) 1%nat [Exclusive] 0%nat);
    [apply contended_reachable|reflexivity|simpl; lia].
Defined.
