(* ===== verification/Bitmap.v ===== *)
(** * Bitmaps: AK/Bitmap.h, AK/BitmapView.h, AK/BuiltinWrappers.h

    A bitmap is an array of bytes and a number of bits.  [at_index] and
    [set_at_index] on the bytes stand for the raw pointer accesses of the code: an
    access outside the allocation is a [Panic] here, so that "no access is out of
    bounds" is part of what is proved, and the accesses that are out of bounds can be
    exhibited.  Every operation is specified by its effect on single bits; the
    counting routine, which reads words where the addresses are aligned, is proved to
    count bit by bit for every alignment of the data. *)

From S2P Require Import Prelude StdLibExtras MemMem.

(** ** AK/BuiltinWrappers.h *)

(** The number of set bits among the bits from [i] on, [n] of them. *)
Fixpoint popcount_loop (n : nat) (value i : Z) : Z :=
  match n with
  | O => 0
  | S n => (if Z.land (Z.shiftr value i) 1 =? 0 then 0 else 1) + popcount_loop n value (i + 1)
  end.
Definition popcount (width : nat) (value : Z) : Z := popcount_loop width value 0.

Fixpoint count_trailing_zeroes_loop (n : nat) (width value i : Z) : Z :=
  match n with
  | O => width
  | S n =>
      if negb (Z.land (Z.shiftr value i) 1 =? 0) then i
      else count_trailing_zeroes_loop n width value (i + 1)
  end.
Definition count_trailing_zeroes (width : nat) (value : Z) : Z :=
  count_trailing_zeroes_loop width (Z.of_nat width) value 0.

Definition bit_scan_forward (width : nat) (value : Z) : Z :=
  if value =? 0 then 0 else 1 + count_trailing_zeroes width value.

(** ** BitmapView *)

Record Bitmap := mkBitmap { m_data : list Z; m_size : Z }.

Definition bitmask_first_byte : list Z := [255; 254; 252; 248; 240; 224; 192; 128].
Definition bitmask_last_byte : list Z := [0; 1; 3; 7; 15; 31; 63; 127].

Definition size_in_bytes (b : Bitmap) : Z := ceil_div (m_size b) 8.

Definition get (b : Bitmap) (index : Z) : outcome bool :=
  if negb (index <? m_size b) then Panic else
  byte ← at_index (m_data b) (index / 8);
  kret (negb (Z.land byte (Z.shiftl 1 (index mod 8)) =? 0)).

Fixpoint count_bytes (n : nat) (data : list Z) (first : Z) : outcome Z :=
  match n with
  | O => kret 0
  | S n =>
      byte ← at_index data first;
      rest ← count_bytes n data (first + 1);
      kret (popcount 8 byte + rest)
  end.

(** The word at byte offset [i], little-endian. *)
Fixpoint load_word (n : nat) (data : list Z) (i : Z) : outcome Z :=
  match n with
  | O => kret 0
  | S n =>
      byte ← at_index data i;
      rest ← load_word n data (i + 1);
      kret (byte + 256 * rest)
  end.

Fixpoint count_words (n : nat) (data : list Z) (ptr_large : Z) : outcome Z :=
  match n with
  | O => kret 0
  | S n =>
      word ← load_word 8 data ptr_large;
      rest ← count_words n data (ptr_large + 8);
      kret (popcount 64 word + rest)
  end.

(** Don't access *last if it's out of bounds. *)
Definition count_last_byte (b : Bitmap) (last last_mask : Z) : outcome Z :=
  if last <? size_in_bytes b then
    last_byte ← at_index (m_data b) last;
    kret (popcount 8 (Z.land last_byte last_mask))
  else kret 0.

(** The bytes from [first] to [last]: up to an aligned address byte by byte, then by
    words, then the rest.  [address] is the address of [m_data]; the pointers of the code
    are offsets from it. *)
Definition count_middle (address : Z) (b : Bitmap) (first last : Z) : outcome Z :=
  if first <? last then
    let ptr_large := (address + first + 7) / 8 * 8 - address in
    let ptr_large := if last <? ptr_large then last else ptr_large in
    head ← count_bytes (Z.to_nat (ptr_large - first)) (m_data b) first;
    let last_large := (address + last) / 8 * 8 - address in
    let words := if ptr_large <? last_large then (last_large - ptr_large) / 8 else 0 in
    body ← count_words (Z.to_nat words) (m_data b) ptr_large;
    let first := ptr_large + 8 * words in
    tail ← count_bytes (Z.to_nat (last - first)) (m_data b) first;
    kret (head + body + tail)
  else kret 0.

(** The set bits of a range that is not empty. *)
Definition count_set (address : Z) (b : Bitmap) (start len : Z) : outcome Z :=
  let first := start / 8 in
  let last := (start + len) / 8 in
  first_byte ← at_index (m_data b) first;
  first_mask ← at_index bitmask_first_byte (start mod 8);
  let byte := Z.land first_byte first_mask in
  last_mask ← at_index bitmask_last_byte ((start + len) mod 8);
  if first =? last then kret (popcount 8 (Z.land byte last_mask)) else
  last_count ← count_last_byte b last last_mask;
  middle ← count_middle address b (first + 1) last;
  kret (popcount 8 byte + last_count + middle).

Definition count_in_range (address : Z) (b : Bitmap) (start len : Z) (value : bool) : outcome Z :=
  if negb (start <? m_size b) then Panic else
  if negb (start + len <=? m_size b) then Panic else
  if len =? 0 then kret 0 else
  count ← count_set address b start len;
  kret (if value then count else len - count).

(** [while (i < byte_count && m_data[i] == byte) i++;] *)
Fixpoint skip_bytes (n : nat) (data : list Z) (byte i : Z) : outcome Z :=
  match n with
  | O => kret i
  | S n =>
      d ← at_index data i;
      if d =? byte then skip_bytes n data byte (i + 1) else kret i
  end.

Definition find_first (VALUE : bool) (b : Bitmap) : outcome (option Z) :=
  let byte_count := size_in_bytes b in
  i ← skip_bytes (Z.to_nat byte_count) (m_data b) (if VALUE then 0 else 255) 0;
  if i =? byte_count then kret None else
  d ← at_index (m_data b) i;
  let byte := if VALUE then d else wrap 8 (Z.lnot d) in
  if byte =? 0 then Panic else
  kret (Some (i * 8 + bit_scan_forward 8 byte - 1)).

(** ** Bitmap *)

Definition set (b : Bitmap) (index : Z) (value : bool) : outcome Bitmap :=
  if negb (index <? m_size b) then Panic else
  byte ← at_index (m_data b) (index / 8);
  data ← set_at_index (m_data b) (index / 8)
           (if value then Z.lor byte (Z.shiftl 1 (index mod 8))
            else Z.land byte (wrap 8 (Z.lnot (Z.shiftl 1 (index mod 8)))));
  kret (mkBitmap data (m_size b)).

Definition fill (b : Bitmap) (value : bool) : Bitmap :=
  mkBitmap (replicate (Z.to_nat (size_in_bytes b)) (if value then 255 else 0)) (m_size b).

(** [*p |= mask] or [*p &= ~mask], with the check of the verifying variant. *)
Definition update_byte (VALUE verify_that_all_bits_flip : bool) (data : list Z) (p byte_mask : Z)
    : outcome (list Z) :=
  byte ← at_index data p;
  if verify_that_all_bits_flip
     && negb (Z.land byte byte_mask =? (if VALUE then 0 else byte_mask)) then Panic else
  set_at_index data p
    (if VALUE then Z.lor byte byte_mask else Z.land byte (wrap 8 (Z.lnot byte_mask))).

(** [__builtin_memset(first, v, n)] *)
Fixpoint memset (n : nat) (data : list Z) (first v : Z) : outcome (list Z) :=
  match n with
  | O => kret data
  | S n => data ← set_at_index data first v; memset n data (first + 1) v
  end.

(** A range that does not end in the byte it starts in. *)
Definition set_across (VALUE verify_that_all_bits_flip : bool) (data : list Z)
    (first byte_mask last last_mask : Z) : outcome (list Z) :=
  data ← update_byte VALUE verify_that_all_bits_flip data first byte_mask;
  data ← update_byte VALUE verify_that_all_bits_flip data last last_mask;
  let first := first + 1 in
  if first <? last then memset (Z.to_nat (last - first)) data first (if VALUE then 255 else 0)
  else kret data.

Definition set_range (VALUE verify_that_all_bits_flip : bool) (b : Bitmap) (start len : Z)
    : outcome Bitmap :=
  if negb (start <? m_size b) then Panic else
  if negb (start + len <=? m_size b) then Panic else
  if len =? 0 then kret b else
  let first := start / 8 in
  let last := (start + len) / 8 in
  byte_mask ← at_index bitmask_first_byte (start mod 8);
  last_mask ← at_index bitmask_last_byte ((start + len) mod 8);
  data ←
    (if first =? last then
       update_byte VALUE verify_that_all_bits_flip (m_data b) first (Z.land byte_mask last_mask)
     else set_across VALUE verify_that_all_bits_flip (m_data b) first byte_mask last last_mask);
  kret (mkBitmap data (m_size b)).

(** [memcpy] of the previous bytes over the new ones. *)
Definition overwrite (data previous : list Z) : list Z :=
  previous ++ drop (length previous) data.

Definition grow (b : Bitmap) (size : Z) (default_value : bool) : outcome Bitmap :=
  if negb (m_size b <? size) then Panic else
  let filled := fill (mkBitmap (m_data b) size) default_value in
  if bool_decide (m_data b = []) then kret filled else
  let copied := mkBitmap (overwrite (m_data filled) (m_data b)) size in
  if negb (m_size b mod 8 =? 0)
  then set_range default_value false copied (m_size b) (8 - m_size b mod 8)
  else kret copied.

(** ** Counting bits *)

(** How many of the [n] positions from [a] on satisfy [f]. *)
Fixpoint csum (f : Z -> bool) (a : Z) (n : nat) : Z :=
  match n with
  | O => 0
  | S n => (if f a then 1 else 0) + csum f (a + 1) n
  end.

Lemma csum_ext f g a n :
  (forall i, a <= i < a + Z.of_nat n -> f i = g i) -> csum f a n = csum g a n.
Proof.
  revert a. induction n as [|n IH]; intros a H; simpl; [done|].
  rewrite (H a) by lia. f_equal. apply IH. intros i Hi. apply H. lia.
Qed.

Lemma csum_app f a n m : csum f a (n + m) = csum f a n + csum f (a + Z.of_nat n) m.
Proof.
  revert a. induction n as [|n IH]; intros a; simpl.
  - by rewrite Z.add_0_r.
  - rewrite IH. replace (a + 1 + Z.of_nat n) with (a + Z.of_nat (S n)) by lia. lia.
Qed.

Lemma csum_shift f d a n : csum (fun i => f (i + d)) a n = csum f (a + d) n.
Proof.
  revert a. induction n as [|n IH]; intros a; simpl; [done|].
  rewrite IH. do 2 f_equal. lia.
Qed.

Lemma csum_none f a n : (forall i, a <= i < a + Z.of_nat n -> f i = false) -> csum f a n = 0.
Proof.
  revert a. induction n as [|n IH]; intros a H; simpl; [done|].
  rewrite (H a) by lia. rewrite IH; [done|]. intros i Hi. apply H. lia.
Qed.

Lemma csum_bound f a n : 0 <= csum f a n <= Z.of_nat n.
Proof. revert a. induction n as [|n IH]; intros a; simpl; [lia|]. specialize (IH (a + 1)). destruct (f a); lia. Qed.

Lemma csum_negb f a n : csum (fun i => negb (f i)) a n = Z.of_nat n - csum f a n.
Proof. revert a. induction n as [|n IH]; intros a; simpl; [done|]. rewrite IH. destruct (f a); simpl; lia. Qed.

(** Counting within a window. *)
Lemma csum_window f (s e n : nat) :
  (s <= e <= n)%nat ->
  csum (fun j => f j && (Z.of_nat s <=? j) && (j <? Z.of_nat e)) 0 n = csum f (Z.of_nat s) (e - s).
Proof.
  intros H. replace n with (s + ((e - s) + (n - e)))%nat by lia. rewrite !csum_app.
  rewrite (csum_none _ 0 s).
  2: { intros i Hi. rewrite (proj2 (Z.leb_gt _ i)) by lia. by rewrite andb_false_r. }
  rewrite (csum_none _ _ (n - e)).
  2: { intros i Hi. rewrite (proj2 (Z.ltb_ge i _)) by lia. apply andb_false_r. }
  rewrite (csum_ext _ f); [replace (0 + Z.of_nat s) with (Z.of_nat s) by lia; lia|]. intros i Hi.
  rewrite (proj2 (Z.leb_le _ _)), (proj2 (Z.ltb_lt _ _)) by lia. by rewrite !andb_true_r.
Qed.

Lemma land_shiftr_1 v i : 0 <= i -> (Z.land (Z.shiftr v i) 1 =? 0) = negb (Z.testbit v i).
Proof.
  intros Hi. change 1 with (Z.shiftl 1 0) at 1. rewrite land_bit_eqb by lia.
  by rewrite Z.shiftr_spec by lia.
Qed.

Lemma popcount_loop_csum n v i : 0 <= i -> popcount_loop n v i = csum (Z.testbit v) i n.
Proof.
  revert i. induction n as [|n IH]; intros i Hi; simpl; [done|].
  rewrite land_shiftr_1, IH by lia. by destruct (Z.testbit v i).
Qed.

Lemma popcount_csum n v : popcount n v = csum (Z.testbit v) 0 n.
Proof. by apply popcount_loop_csum. Qed.

Lemma count_trailing_zeroes_loop_spec n w v i :
  0 <= i ->
  let r := count_trailing_zeroes_loop n w v i in
  (r = w /\ forall j, i <= j < i + Z.of_nat n -> Z.testbit v j = false) \/
  (i <= r < i + Z.of_nat n /\ Z.testbit v r = true /\ forall j, i <= j < r -> Z.testbit v j = false).
Proof.
  revert i. induction n as [|n IH]; intros i Hi; simpl; [left; split; [done|lia]|].
  rewrite land_shiftr_1 by done. destruct (Z.testbit v i) eqn:E; simpl.
  - right. split_and!; [lia|lia|done|]. intros j. lia.
  - destruct (IH (i + 1)) as [[Hr Hz]|(Hr & Ht & Hz)]; [lia| |].
    + left. split; [done|]. intros j Hj. destruct (decide (j = i)) as [->|]; [done|apply Hz; lia].
    + right. split_and!; [lia|lia|done|]. intros j Hj. destruct (decide (j = i)) as [->|]; [done|apply Hz; lia].
Qed.

Lemma count_trailing_zeroes_spec n v :
  0 < v < 2 ^ Z.of_nat n ->
  let r := count_trailing_zeroes n v in
  0 <= r < Z.of_nat n /\ Z.testbit v r = true /\ forall j, 0 <= j < r -> Z.testbit v j = false.
Proof.
  intros Hv. destruct (count_trailing_zeroes_loop_spec n (Z.of_nat n) v 0 ltac:(lia)) as [[_ Hz]|H].
  - exfalso. assert (v = 0); [|lia]. apply Z.bits_inj_0. intros j.
    destruct (Z.ltb_spec j 0); [by apply Z.testbit_neg_r|].
    destruct (Z.ltb_spec j (Z.of_nat n)); [apply Hz; lia|]. apply Z.bits_above_log2; [lia|].
    apply (Z.lt_le_trans _ (Z.of_nat n)); [|lia]. apply Z.log2_lt_pow2; lia.
  - destruct H as (H1 & H2 & H3). unfold count_trailing_zeroes. cbv zeta. split_and!; [lia|lia|exact H2|exact H3].
Qed.

Lemma count_trailing_zeroes_pow2 n k : 0 <= k < Z.of_nat n -> count_trailing_zeroes n (2 ^ k) = k.
Proof.
  intros Hk. destruct (count_trailing_zeroes_spec n (2 ^ k)) as (H0 & H1 & _).
  { split; [lia|]. apply Z.pow_lt_mono_r; lia. }
  rewrite Z.pow2_bits_eqb in H1 by lia. apply Z.eqb_eq in H1. lia.
Qed.

(** ** Bits *)

Definition bit (b : Bitmap) (i : Z) : bool :=
  match m_data b !! Z.to_nat (i / 8) with Some byte => Z.testbit byte (i mod 8) | None => false end.

Record wf (b : Bitmap) : Prop := {
  wf_size : 0 <= m_size b;
  wf_length : Z.of_nat (length (m_data b)) = size_in_bytes b;
  wf_bytes : Forall is_byte (m_data b) }.

Lemma size_in_bytes_bounds b :
  0 <= m_size b -> m_size b <= 8 * size_in_bytes b < m_size b + 8.
Proof.
  intros H. unfold size_in_bytes, ceil_div. pose proof (Z.div_mod (m_size b) 8 ltac:(lia)).
  pose proof (Z.mod_pos_bound (m_size b) 8 ltac:(lia)).
  destruct (Z.eqb_spec (m_size b mod 8) 0); simpl; [lia|].
  rewrite (proj2 (Z.ltb_lt 0 (m_size b))) by lia. simpl. lia.
Qed.

Lemma byte_index b i : wf b -> 0 <= i < m_size b -> (Z.to_nat (i / 8) < length (m_data b))%nat.
Proof.
  intros [Hs Hl _] Hi. pose proof (size_in_bytes_bounds b Hs). rewrite <- Hl in *.
  pose proof (Z.div_mod i 8 ltac:(lia)). pose proof (Z.mod_pos_bound i 8 ltac:(lia)). lia.
Qed.

Lemma byte_at b i :
  wf b -> 0 <= i < m_size b ->
  exists v, m_data b !! Z.to_nat (i / 8) = Some v /\ at_index (m_data b) (i / 8) = Ok v /\ is_byte v.
Proof.
  intros Hwf Hi. destruct (lookup_lt_is_Some_2 _ _ (byte_index b i Hwf Hi)) as [v Hv].
  exists v. split_and!; [done| |by eapply Forall_lookup_1; [apply Hwf|]].
  rewrite <- (Z2Nat.id (i / 8)) by (apply Z.div_pos; lia). by apply at_index_Ok.
Qed.

Lemma get_spec b i : wf b -> 0 <= i < m_size b -> get b i = Ok (bit b i).
Proof.
  intros Hwf Hi. unfold get, bit. rewrite (proj2 (Z.ltb_lt _ _)) by lia. cbn [negb].
  destruct (byte_at b i Hwf Hi) as (v & Hv & -> & _). rewrite Hv. cbn [kbind outcome_monad kret].
  rewrite land_bit_eqb by (apply Z.mod_pos_bound; lia). by rewrite negb_involutive.
Qed.

(** Replacing one byte by another of which the bits are known. *)
Definition with_byte (b : Bitmap) (p v : Z) : Bitmap := mkBitmap (<[Z.to_nat p := v]> (m_data b)) (m_size b).

Lemma with_byte_wf b p v : wf b -> is_byte v -> wf (with_byte b p v).
Proof.
  intros [Hs Hl Hb] Hv. split; simpl; [done|by rewrite length_insert|]. by apply Forall_insert.
Qed.

Lemma bit_with_byte b p v i :
  0 <= p < Z.of_nat (length (m_data b)) -> 0 <= i ->
  bit (with_byte b p v) i = if i / 8 =? p then Z.testbit v (i mod 8) else bit b i.
Proof.
  intros Hp Hi. unfold bit, with_byte. simpl. destruct (Z.eqb_spec (i / 8) p) as [->|Hne].
  - by rewrite list_lookup_insert_eq by lia.
  - pose proof (Z.div_pos i 8). rewrite list_lookup_insert_ne by lia. done.
Qed.

Lemma is_byte_bits v : is_byte v <-> 0 <= v /\ forall j, 8 <= j -> Z.testbit v j = false.
Proof.
  unfold is_byte, in_width. split.
  - intros [H0 H]. split; [done|]. by apply Z.bounded_iff_bits_nonneg.
  - intros [H0 H]. split; [done|]. by apply Z.bounded_iff_bits_nonneg.
Qed.

Lemma is_byte_land v w : is_byte v -> 0 <= w -> is_byte (Z.land v w).
Proof.
  rewrite !is_byte_bits. intros [H0 H] Hw. split; [apply Z.land_nonneg; by left|].
  intros j Hj. by rewrite Z.land_spec, H.
Qed.

Lemma is_byte_lor v w : is_byte v -> is_byte w -> is_byte (Z.lor v w).
Proof.
  rewrite !is_byte_bits. intros [H0 H] [H0' H']. split; [by apply Z.lor_nonneg|].
  intros j Hj. by rewrite Z.lor_spec, H, H'.
Qed.

Lemma is_byte_wrap v : is_byte (wrap 8 v).
Proof. by apply wrap_range. Qed.

Lemma testbit_lnot8 v j : 0 <= j < 8 -> Z.testbit (wrap 8 (Z.lnot v)) j = negb (Z.testbit v j).
Proof. intros Hj. unfold wrap. by rewrite Z.mod_pow2_bits_low, Z.lnot_spec by lia. Qed.

Lemma mod8_range i : 0 <= i mod 8 < 8.
Proof. apply Z.mod_pos_bound. lia. Qed.

Lemma set_spec b i v :
  wf b -> 0 <= i < m_size b ->
  exists b', set b i v = Ok b' /\ wf b' /\ m_size b' = m_size b /\
    forall j, 0 <= j -> bit b' j = if j =? i then v else bit b j.
Proof.
  intros Hwf Hi. unfold set. rewrite (proj2 (Z.ltb_lt _ _)) by lia. cbn [negb].
  destruct (byte_at b i Hwf Hi) as (w & Hw & -> & Hbyte). cbn [kbind outcome_monad].
  pose proof (byte_index b i Hwf Hi) as Hlt. pose proof (Z.div_pos i 8 ltac:(lia) ltac:(lia)).
  rewrite set_at_index_Z by lia.
  cbn [kbind outcome_monad kret]. eexists. split; [done|].
  set (x := if v then _ else _).
  change (mkBitmap _ _) with (with_byte b (i / 8) x).
  assert (forall j, 0 <= j < 8 -> Z.testbit x j = if j =? i mod 8 then v else Z.testbit w j) as Hx.
  { intros j Hj. pose proof (mod8_range i). subst x. destruct v.
    - rewrite Z.lor_spec, Z.shiftl_1_l, Z.pow2_bits_eqb, Z.eqb_sym by lia.
      destruct (j =? i mod 8); [apply orb_true_r|apply orb_false_r].
    - rewrite Z.land_spec, testbit_lnot8, Z.shiftl_1_l, Z.pow2_bits_eqb, Z.eqb_sym by lia.
      destruct (j =? i mod 8); [apply andb_false_r|apply andb_true_r]. }
  assert (is_byte x) as Hbx.
  { subst x. destruct v; [apply is_byte_lor; [done|]|apply is_byte_land; [done|apply is_byte_wrap]].
    rewrite Z.shiftl_1_l. pose proof (mod8_range i). split; [lia|]. apply Z.pow_lt_mono_r; lia. }
  split_and!; [by apply with_byte_wf|done|]. intros j Hj. rewrite bit_with_byte by lia.
  destruct (Z.eqb_spec (j / 8) (i / 8)) as [E|E].
  - rewrite Hx by apply mod8_range. unfold bit. rewrite E, Hw.
    pose proof (Z.div_mod i 8 ltac:(lia)). pose proof (Z.div_mod j 8 ltac:(lia)).
    destruct (Z.eqb_spec (j mod 8) (i mod 8)), (Z.eqb_spec j i); (done || lia).
  - destruct (Z.eqb_spec j i) as [->|]; done.
Qed.

Lemma fill_spec b v :
  0 <= m_size b -> wf (fill b v) /\ m_size (fill b v) = m_size b /\
    forall j, 0 <= j < m_size b -> bit (fill b v) j = v.
Proof.
  intros Hs. pose proof (size_in_bytes_bounds b Hs). split_and!; [|done|].
  - split; simpl; [done|rewrite length_replicate; unfold size_in_bytes in *; simpl in *; lia|].
    apply Forall_replicate. unfold is_byte, in_width. destruct v; lia.
  - intros j Hj. unfold bit, fill. simpl. rewrite lookup_replicate_2.
    + pose proof (mod8_range j). destruct v; [|apply Z.bits_0].
      change 255 with (Z.ones 8). apply Z.ones_spec_low. lia.
    + pose proof (Z.div_mod j 8 ltac:(lia)). pose proof (mod8_range j). lia.
Qed.

(** ** Ranges *)

Lemma first_mask k :
  0 <= k < 8 -> exists m, at_index bitmask_first_byte k = Ok m /\ is_byte m /\
    forall j, 0 <= j < 8 -> Z.testbit m j = (k <=? j).
Proof.
  intros Hk. assert (k = 0 \/ k = 1 \/ k = 2 \/ k = 3 \/ k = 4 \/ k = 5 \/ k = 6 \/ k = 7) as H by lia.
  destruct_or! H; subst; eexists; (split_and!; [reflexivity|unfold is_byte, in_width; lia|]); intros j Hj;
    (assert (j = 0 \/ j = 1 \/ j = 2 \/ j = 3 \/ j = 4 \/ j = 5 \/ j = 6 \/ j = 7) as H' by lia);
    destruct_or! H'; subst; reflexivity.
Qed.

Lemma last_mask k :
  0 <= k < 8 -> exists m, at_index bitmask_last_byte k = Ok m /\ is_byte m /\
    forall j, 0 <= j < 8 -> Z.testbit m j = (j <? k).
Proof.
  intros Hk. assert (k = 0 \/ k = 1 \/ k = 2 \/ k = 3 \/ k = 4 \/ k = 5 \/ k = 6 \/ k = 7) as H by lia.
  destruct_or! H; subst; eexists; (split_and!; [reflexivity|unfold is_byte, in_width; lia|]); intros j Hj;
    (assert (j = 0 \/ j = 1 \/ j = 2 \/ j = 3 \/ j = 4 \/ j = 5 \/ j = 6 \/ j = 7) as H' by lia);
    destruct_or! H'; subst; reflexivity.
Qed.

(** [b'] has the bits of [b] with those selected by [p] set to [V]. *)
Definition changed (b b' : Bitmap) (V : bool) (p : Z -> bool) : Prop :=
  wf b' /\ m_size b' = m_size b /\ forall j, 0 <= j -> bit b' j = if p j then V else bit b j.

Lemma changed_trans b1 b2 b3 V p q :
  changed b1 b2 V p -> changed b2 b3 V q -> changed b1 b3 V (fun j => p j || q j).
Proof.
  intros (_ & E1 & H1) (Hw & E2 & H2). split_and!; [done|congruence|]. intros j Hj.
  rewrite H2, H1 by done. by destruct (p j), (q j).
Qed.

Lemma changed_ext b b' V p q :
  (forall j, 0 <= j -> p j = q j) -> changed b b' V p -> changed b b' V q.
Proof. intros E (Hw & Es & H). split_and!; [done..|]. intros j Hj. by rewrite H, E. Qed.

Lemma update_byte_spec V b p mask :
  wf b -> 0 <= p < Z.of_nat (length (m_data b)) -> is_byte mask ->
  exists b', update_byte V false (m_data b) p mask = Ok (m_data b') /\
    changed b b' V (fun j => (j / 8 =? p) && Z.testbit mask (j mod 8)).
Proof.
  intros Hwf Hp Hmask. unfold update_byte.
  destruct (lookup_lt_is_Some_2 (m_data b) (Z.to_nat p)) as [w Hw]; [lia|].
  assert (is_byte w) as Hbw by (by eapply Forall_lookup_1; [apply Hwf|]).
  rewrite (at_index_Z _ p _ ltac:(lia) Hw). cbn [kbind outcome_monad andb].
  rewrite set_at_index_Z by done. set (x := if V then _ else _).
  assert (is_byte x) as Hbx.
  { subst x. destruct V; [by apply is_byte_lor|apply is_byte_land; [done|apply is_byte_wrap]]. }
  exists (with_byte b p x). split; [done|]. split_and!; [by apply with_byte_wf|done|].
  intros j Hj. rewrite bit_with_byte by done. destruct (Z.eqb_spec (j / 8) p) as [E|]; [|done].
  unfold bit. rewrite E, Hw. pose proof (mod8_range j). subst x. cbn [andb]. destruct V.
  - rewrite Z.lor_spec. destruct (Z.testbit mask (j mod 8)); [apply orb_true_r|apply orb_false_r].
  - rewrite Z.land_spec, testbit_lnot8 by lia.
    destruct (Z.testbit mask (j mod 8)); [apply andb_false_r|apply andb_true_r].
Qed.

Lemma memset_spec (V : bool) n b first :
  wf b -> 0 <= first -> first + Z.of_nat n <= Z.of_nat (length (m_data b)) ->
  exists b', memset n (m_data b) first (if V then 255 else 0) = Ok (m_data b') /\
    changed b b' V (fun j => (first <=? j / 8) && (j / 8 <? first + Z.of_nat n)).
Proof.
  revert b first. induction n as [|n IH]; intros b first Hwf Hf Hn; cbn [memset].
  { exists b. split; [done|]. split_and!; [done|done|]. intros j Hj.
    destruct (Z.leb_spec first (j / 8)), (Z.ltb_spec (j / 8) (first + Z.of_nat 0)); (done || lia). }
  rewrite set_at_index_Z by lia. cbn [kbind outcome_monad].
  assert (is_byte (if V then 255 else 0)) as Hv by (unfold is_byte, in_width; destruct V; lia).
  set (b1 := with_byte b first (if V then 255 else 0)).
  assert (changed b b1 V (fun j => j / 8 =? first)) as H1.
  { split_and!; [by apply with_byte_wf|done|]. intros j Hj. subst b1. rewrite bit_with_byte by lia.
    destruct (j / 8 =? first); [|done]. pose proof (mod8_range j). destruct V; [|apply Z.bits_0].
    change 255 with (Z.ones 8). apply Z.ones_spec_low. lia. }
  destruct (IH b1 (first + 1)) as (b' & E & H2); [apply H1|lia|subst b1; simpl; rewrite length_insert; lia|].
  exists b'. split; [done|]. eapply changed_ext; [|by eapply changed_trans].
  intros j Hj. cbn beta. destruct (Z.eqb_spec (j / 8) first), (Z.leb_spec (first + 1) (j / 8)),
    (Z.ltb_spec (j / 8) (first + 1 + Z.of_nat n)), (Z.leb_spec first (j / 8)),
    (Z.ltb_spec (j / 8) (first + Z.of_nat (S n))); simpl; (done || lia).
Qed.

Lemma changed_length b b' V p : wf b -> changed b b' V p -> length (m_data b') = length (m_data b).
Proof.
  intros Hwf (Hwf' & E & _). apply Nat2Z.inj. rewrite (wf_length b'), (wf_length b) by done.
  unfold size_in_bytes. by rewrite E.
Qed.

(** A range over several bytes: its ends, then what lies between. *)
Lemma set_across_spec (V : bool) b first last m1 m2 :
  wf b -> 0 <= first < last /\ last < Z.of_nat (length (m_data b)) -> is_byte m1 -> is_byte m2 ->
  exists b', set_across V false (m_data b) first m1 last m2 = Ok (m_data b') /\
    changed b b' V (fun j => ((j / 8 =? first) && Z.testbit m1 (j mod 8))
      || ((j / 8 =? last) && Z.testbit m2 (j mod 8)) || ((first + 1 <=? j / 8) && (j / 8 <? last))).
Proof.
  intros Hwf Hr Hm1 Hm2. unfold set_across.
  destruct (update_byte_spec V b first m1) as (b1 & -> & H1); [done|lia|done|]. cbn [kbind outcome_monad].
  pose proof (changed_length _ _ _ _ Hwf H1) as L1.
  destruct (update_byte_spec V b1 last m2) as (b2 & -> & H2); [apply H1|lia|done|]. cbn [kbind outcome_monad].
  pose proof (changed_length _ _ _ _ ltac:(apply H1) H2) as L2.
  destruct (memset_spec V (Z.to_nat (last - (first + 1))) b2 (first + 1)) as (b3 & E3 & H3); [apply H2|lia|lia|].
  exists b3. split.
  - destruct (Z.ltb_spec (first + 1) last); [done|].
    by replace (Z.to_nat _) with 0%nat in E3 by lia.
  - eapply changed_ext; [|exact (changed_trans _ _ _ _ _ _ (changed_trans _ _ _ _ _ _ H1 H2) H3)].
    intros j Hj. cbn beta. f_equal. f_equal.
    destruct (Z.ltb_spec (j / 8) last), (Z.leb_spec (first + 1) (j / 8)),
      (Z.ltb_spec (j / 8) (first + 1 + Z.of_nat (Z.to_nat (last - (first + 1))))); (done || lia).
Qed.

(** The byte behind the range must exist unless the range ends inside its first byte. *)
Definition range_in_bounds (b : Bitmap) (start len : Z) : Prop :=
  (start + len) / 8 < size_in_bytes b.

Lemma set_range_spec V b start len :
  wf b -> 0 <= start < m_size b -> 0 < len -> start + len <= m_size b -> range_in_bounds b start len ->
  exists b', set_range V false b start len = Ok b' /\
    changed b b' V (fun j => (start <=? j) && (j <? start + len)).
Proof.
  intros Hwf Hs Hlen Hend Hb. unfold set_range, range_in_bounds in *.
  rewrite (proj2 (Z.ltb_lt start _)), (proj2 (Z.leb_le _ (m_size b))), (proj2 (Z.eqb_neq len 0)) by lia.
  cbn [negb]. destruct (first_mask (start mod 8) (mod8_range _)) as (m1 & -> & Hm1 & Hbits1).
  destruct (last_mask ((start + len) mod 8) (mod8_range _)) as (m2 & -> & Hm2 & Hbits2).
  cbn [kbind outcome_monad]. rewrite <- (wf_length b Hwf) in Hb.
  pose proof (Z.div_mod start 8 ltac:(lia)). pose proof (Z.div_mod (start + len) 8 ltac:(lia)).
  pose proof (mod8_range start). pose proof (mod8_range (start + len)).
  destruct (Z.eqb_spec (start / 8) ((start + len) / 8)) as [E|E].
  - destruct (update_byte_spec V b (start / 8) (Z.land m1 m2)) as (b' & -> & Hch);
      [done|lia|by apply is_byte_land; [|apply Hm2]|]. cbn [kbind outcome_monad kret].
    exists b'. split; [f_equal; destruct b', Hch as (_ & ? & _); simpl in *; congruence|].
    eapply changed_ext; [|done]. intros j Hj. cbn beta.
    rewrite Z.land_spec, Hbits1, Hbits2 by apply mod8_range.
    pose proof (Z.div_mod j 8 ltac:(lia)). pose proof (mod8_range j).
    destruct (Z.eqb_spec (j / 8) (start / 8)), (Z.leb_spec (start mod 8) (j mod 8)),
      (Z.ltb_spec (j mod 8) ((start + len) mod 8)), (Z.leb_spec start j), (Z.ltb_spec j (start + len));
      simpl; (done || lia).
  - destruct (set_across_spec V b (start / 8) ((start + len) / 8) m1 m2) as (b' & E' & Hch); [done|lia|done|done|].
    rewrite E'. cbn [kbind outcome_monad kret]. exists b'.
    split; [f_equal; destruct b', Hch as (_ & ? & _); simpl in *; congruence|].
    eapply changed_ext; [|exact Hch]. intros j Hj. cbn beta. rewrite Hbits1, Hbits2 by apply mod8_range.
    pose proof (Z.div_mod j 8 ltac:(lia)). pose proof (mod8_range j).
    destruct (Z.eqb_spec (j / 8) (start / 8)), (Z.leb_spec (start mod 8) (j mod 8)),
      (Z.eqb_spec (j / 8) ((start + len) / 8)),
      (Z.ltb_spec (j mod 8) ((start + len) mod 8)), (Z.leb_spec (start / 8 + 1) (j / 8)),
      (Z.ltb_spec (j / 8) ((start + len) / 8)),
      (Z.leb_spec start j), (Z.ltb_spec j (start + len)); simpl; (done || lia).
Qed.

(** ** count_in_range *)

Lemma csum_byte b p v :
  0 <= p -> m_data b !! Z.to_nat p = Some v -> csum (bit b) (8 * p) 8 = popcount 8 v.
Proof.
  intros Hp Hv. rewrite popcount_csum. rewrite <- (Z.add_0_l (8 * p)) at 1.
  rewrite <- csum_shift. apply csum_ext. intros i Hi. unfold bit.
  replace ((i + 8 * p) / 8) with p by (apply Z.div_unique with i; lia).
  replace ((i + 8 * p) mod 8) with i by (apply Z.mod_unique with p; lia). by rewrite Hv.
Qed.

(** The window [s, e) of one byte. *)
Lemma csum_byte_window b p v mask (s e : nat) :
  0 <= p -> m_data b !! Z.to_nat p = Some v -> (s <= e <= 8)%nat ->
  (forall j, 0 <= j < 8 -> Z.testbit mask j = (Z.of_nat s <=? j) && (j <? Z.of_nat e)) ->
  popcount 8 (Z.land v mask) = csum (bit b) (8 * p + Z.of_nat s) (e - s).
Proof.
  intros Hp Hv Hse Hm. rewrite popcount_csum.
  rewrite (csum_ext _ (fun j => Z.testbit v j && (Z.of_nat s <=? j) && (j <? Z.of_nat e))).
  2: { intros j Hj. rewrite Z.land_spec, Hm by lia. by rewrite andb_assoc. }
  rewrite csum_window by done. rewrite (Z.add_comm (8 * p)), <- csum_shift. apply csum_ext.
  intros i Hi. unfold bit. replace ((i + 8 * p) / 8) with p by (apply Z.div_unique with i; lia).
  replace ((i + 8 * p) mod 8) with i by (apply Z.mod_unique with p; lia). by rewrite Hv.
Qed.

Lemma count_bytes_spec b n p :
  0 <= p -> p + Z.of_nat n <= Z.of_nat (length (m_data b)) ->
  count_bytes n (m_data b) p = Ok (csum (bit b) (8 * p) (8 * n)).
Proof.
  revert p. induction n as [|n IH]; intros p Hp Hn; cbn [count_bytes]; [done|].
  destruct (lookup_lt_is_Some_2 (m_data b) (Z.to_nat p)) as [v Hv]; [lia|].
  rewrite (at_index_Z _ p _ Hp Hv). cbn [kbind outcome_monad]. rewrite IH by lia.
  cbn [kbind outcome_monad kret]. f_equal. replace (8 * S n)%nat with (8 + 8 * n)%nat by lia.
  rewrite csum_app, (csum_byte b p v Hp Hv). do 2 f_equal. lia.
Qed.

Lemma testbit_load byte rest j :
  is_byte byte -> 0 <= j ->
  Z.testbit (byte + 256 * rest) j = if j <? 8 then Z.testbit byte j else Z.testbit rest (j - 8).
Proof.
  intros Hb Hj. unfold is_byte, in_width in Hb. destruct (Z.ltb_spec j 8).
  - rewrite <- (Z.mod_pow2_bits_low (byte + 256 * rest) 8) by lia. change (2 ^ 8) with 256.
    replace ((byte + 256 * rest) mod 256) with byte; [done|]. apply Z.mod_unique with rest; lia.
  - replace j with (j - 8 + 8) at 1 by lia. rewrite <- Z.div_pow2_bits by lia. f_equal.
    change (2 ^ 8) with 256 in *. symmetry. apply Z.div_unique with byte; lia.
Qed.

Lemma load_word_spec b n p :
  wf b -> 0 <= p -> p + Z.of_nat n <= Z.of_nat (length (m_data b)) ->
  exists w, load_word n (m_data b) p = Ok w /\ csum (Z.testbit w) 0 (8 * n) = csum (bit b) (8 * p) (8 * n).
Proof.
  intros Hwf. revert p. induction n as [|n IH]; intros p Hp Hn; cbn [load_word]; [by exists 0|].
  destruct (lookup_lt_is_Some_2 (m_data b) (Z.to_nat p)) as [v Hv]; [lia|].
  assert (is_byte v) as Hb by (by eapply Forall_lookup_1; [apply Hwf|]).
  rewrite (at_index_Z _ p _ Hp Hv). cbn [kbind outcome_monad].
  destruct (IH (p + 1)) as (w & -> & E); [lia|lia|]. cbn [kbind outcome_monad kret].
  eexists. split; [done|]. replace (8 * S n)%nat with (8 + 8 * n)%nat by lia.
  rewrite !csum_app, (csum_byte b p v Hp Hv), popcount_csum. f_equal.
  - apply csum_ext. intros j Hj. rewrite testbit_load by (done || lia).
    by rewrite (proj2 (Z.ltb_lt _ _)) by lia.
  - replace (8 * p + Z.of_nat 8) with (8 * (p + 1)) by lia. rewrite <- E.
    rewrite <- (csum_shift _ (Z.of_nat 8)). apply csum_ext. intros j Hj.
    rewrite testbit_load by (done || lia). rewrite (proj2 (Z.ltb_ge _ _)) by lia. f_equal. lia.
Qed.

Lemma count_words_spec b n p :
  wf b -> 0 <= p -> p + 8 * Z.of_nat n <= Z.of_nat (length (m_data b)) ->
  count_words n (m_data b) p = Ok (csum (bit b) (8 * p) (64 * n)).
Proof.
  intros Hwf. revert p. induction n as [|n IH]; intros p Hp Hn; cbn [count_words]; [done|].
  destruct (load_word_spec b 8 p) as (w & -> & E); [done|lia|lia|]. cbn [kbind outcome_monad].
  rewrite IH by lia. cbn [kbind outcome_monad kret]. f_equal.
  replace (64 * S n)%nat with (8 * 8 + 64 * n)%nat by lia. rewrite csum_app, <- E, popcount_csum.
  do 2 f_equal. lia.
Qed.

Lemma count_middle_spec address b first last :
  wf b -> 0 <= first <= last -> last <= Z.of_nat (length (m_data b)) ->
  count_middle address b first last = Ok (csum (bit b) (8 * first) (Z.to_nat (8 * (last - first)))).
Proof.
  intros Hwf Hf Hl. unfold count_middle. destruct (Z.ltb_spec first last) as [Hlt|].
  2: { by replace (Z.to_nat _) with 0%nat by lia. }
  pose proof (Z.div_mod (address + first + 7) 8 ltac:(lia)). pose proof (mod8_range (address + first + 7)).
  pose proof (Z.div_mod (address + last) 8 ltac:(lia)). pose proof (mod8_range (address + last)).
  set (p0 := (address + first + 7) / 8 * 8 - address). set (p := if last <? p0 then last else p0).
  set (ll := (address + last) / 8 * 8 - address). set (words := if p <? ll then (ll - p) / 8 else 0).
  assert (first <= p <= last) as Hp by (subst p p0; destruct (Z.ltb_spec last ((address + first + 7) / 8 * 8 - address)); lia).
  assert (0 <= words /\ p + 8 * words <= last) as [Hw Hpw].
  { subst words. destruct (Z.ltb_spec p ll); [|lia]. pose proof (Z.div_mod (ll - p) 8 ltac:(lia)).
    pose proof (mod8_range (ll - p)). pose proof (Z.div_pos (ll - p) 8). lia. }
  rewrite count_bytes_spec by lia. cbn [kbind outcome_monad].
  rewrite count_words_spec by (done || lia). cbn [kbind outcome_monad].
  rewrite count_bytes_spec by lia. cbn [kbind outcome_monad kret]. f_equal.
  replace (Z.to_nat (8 * (last - first))) with
    (8 * Z.to_nat (p - first) + (64 * Z.to_nat words + 8 * Z.to_nat (last - (p + 8 * words))))%nat by lia.
  rewrite !csum_app. rewrite Z.add_assoc. do 2 f_equal; [f_equal; lia|f_equal; lia].
Qed.

Lemma count_last_byte_spec b last m k :
  wf b -> 0 <= last -> 0 <= k < 8 -> (Z.of_nat (length (m_data b)) <= last -> k = 0) ->
  (forall j, 0 <= j < 8 -> Z.testbit m j = (j <? k)) ->
  count_last_byte b last m = Ok (csum (bit b) (8 * last) (Z.to_nat k)).
Proof.
  intros Hwf Hl Hk Hend Hbits. unfold count_last_byte. rewrite <- (wf_length b Hwf).
  destruct (Z.ltb_spec last (Z.of_nat (length (m_data b)))) as [Hlt|Hge]; [|by rewrite Hend].
  destruct (lookup_lt_is_Some_2 (m_data b) (Z.to_nat last)) as [w Hw]; [lia|].
  rewrite (at_index_Z _ last _ Hl Hw). cbn [kbind outcome_monad kret]. f_equal.
  rewrite (csum_byte_window b last w m 0 (Z.to_nat k)); [f_equal; lia|lia|done|lia|].
  intros j Hj. rewrite Hbits by lia. rewrite (proj2 (Z.leb_le _ j)) by lia. cbn [andb]. f_equal. lia.
Qed.

Lemma count_set_spec address b start len :
  wf b -> 0 <= start < m_size b -> 0 < len -> start + len <= m_size b ->
  count_set address b start len = Ok (csum (bit b) start (Z.to_nat len)).
Proof.
  intros Hwf Hs Hlen Hend. unfold count_set.
  pose proof (size_in_bytes_bounds b (wf_size b Hwf)) as Hbytes. rewrite <- (wf_length b Hwf) in *.
  pose proof (Z.div_mod start 8 ltac:(lia)) as Ds. pose proof (Z.div_mod (start + len) 8 ltac:(lia)) as De.
  pose proof (mod8_range start) as Rs. pose proof (mod8_range (start + len)) as Re.
  destruct (byte_at b start Hwf Hs) as (v & Hv & -> & _).
  destruct (first_mask (start mod 8) Rs) as (m1 & -> & Hm1 & Hbits1).
  destruct (last_mask ((start + len) mod 8) Re) as (m2 & -> & Hm2 & Hbits2). cbn [kbind outcome_monad].
  destruct (Z.eqb_spec (start / 8) ((start + len) / 8)) as [E|E].
  - cbn [kret outcome_monad]. f_equal. rewrite <- Z.land_assoc.
    rewrite (csum_byte_window b (start / 8) v (Z.land m1 m2) (Z.to_nat (start mod 8)) (Z.to_nat ((start + len) mod 8)));
      [|lia|done|lia|].
    + f_equal; lia.
    + intros j Hj. rewrite Z.land_spec, Hbits1, Hbits2 by lia. f_equal; f_equal; lia.
  - rewrite (count_last_byte_spec b _ m2 ((start + len) mod 8)) by (done || lia).
    cbn [kbind outcome_monad]. rewrite count_middle_spec by (done || lia). cbn [kbind outcome_monad kret]. f_equal.
    rewrite (csum_byte_window b (start / 8) v m1 (Z.to_nat (start mod 8)) 8); [|lia|done|lia|].
    2: { intros j Hj. rewrite Hbits1 by lia. rewrite (proj2 (Z.ltb_lt j _)) by lia.
         rewrite andb_true_r. f_equal. lia. }
    replace (8 * (start / 8) + Z.of_nat (Z.to_nat (start mod 8))) with start by lia.
    replace (8 - Z.to_nat (start mod 8))%nat with (Z.to_nat (8 - start mod 8)) by lia.
    replace (Z.to_nat len) with (Z.to_nat (8 - start mod 8) +
      (Z.to_nat (8 * ((start + len) / 8 - (start / 8 + 1))) + Z.to_nat ((start + len) mod 8)))%nat by lia.
    rewrite !csum_app.
    replace (start + Z.of_nat (Z.to_nat (8 - start mod 8))) with (8 * (start / 8 + 1)) by lia.
    replace (8 * (start / 8 + 1) + Z.of_nat (Z.to_nat (8 * ((start + len) / 8 - (start / 8 + 1)))))
      with (8 * ((start + len) / 8)) by lia. lia.
Qed.

Lemma count_in_range_spec address b start len value :
  wf b -> 0 <= start < m_size b -> 0 <= len -> start + len <= m_size b ->
  count_in_range address b start len value =
    Ok (csum (fun i => eqb (bit b i) value) start (Z.to_nat len)).
Proof.
  intros Hwf Hs Hlen Hend. unfold count_in_range.
  rewrite (proj2 (Z.ltb_lt start _)), (proj2 (Z.leb_le _ (m_size b))) by lia. cbn [negb].
  destruct (Z.eqb_spec len 0) as [->|Hne]; [done|].
  rewrite count_set_spec by (done || lia). cbn [kbind outcome_monad kret]. f_equal. destruct value.
  - apply csum_ext. intros i _. by destruct (bit b i).
  - rewrite (csum_ext (fun i => eqb (bit b i) false) (fun i => negb (bit b i))).
    + rewrite csum_negb. lia.
    + intros i _. by destruct (bit b i).
Qed.

(** ** find_first *)

Lemma skip_bytes_spec n data v i :
  0 <= i -> i + Z.of_nat n = Z.of_nat (length data) ->
  exists r, skip_bytes n data v i = Ok r /\ i <= r <= i + Z.of_nat n /\
    (forall p, i <= p < r -> data !! Z.to_nat p = Some v) /\
    (r < i + Z.of_nat n -> exists w, data !! Z.to_nat r = Some w /\ w <> v).
Proof.
  revert i. induction n as [|n IH]; intros i Hi Hn; cbn [skip_bytes].
  { exists i. split_and!; [done|lia|lia|lia|lia]. }
  destruct (lookup_lt_is_Some_2 data (Z.to_nat i)) as [d Hd]; [lia|].
  rewrite (at_index_Z _ i _ Hi Hd). cbn [kbind outcome_monad]. destruct (Z.eqb_spec d v) as [->|Hne].
  - destruct (IH (i + 1)) as (r & -> & Hr & Hskip & Hstop); [lia|lia|]. exists r.
    split_and!; [done|lia|lia| |].
    + intros p Hp. destruct (decide (p = i)) as [->|]; [done|apply Hskip; lia].
    + intros H. apply Hstop. lia.
  - exists i. split_and!; [done|lia|lia|lia|]. intros _. eauto.
Qed.

(** The byte in which the bits with the value are the set ones. *)
Lemma selected_byte (VALUE : bool) w :
  is_byte w -> w <> (if VALUE then 0 else 255) ->
  let x := if VALUE then w else wrap 8 (Z.lnot w) in
  0 < x < 2 ^ Z.of_nat 8 /\ forall j, 0 <= j < 8 -> Z.testbit x j = eqb (Z.testbit w j) VALUE.
Proof.
  intros Hbyte Hwv x.
  assert (forall j, 0 <= j < 8 -> Z.testbit x j = eqb (Z.testbit w j) VALUE) as Hx.
  { intros j Hj. subst x. destruct VALUE; [by destruct (Z.testbit w j)|].
    rewrite testbit_lnot8 by done. by destruct (Z.testbit w j). }
  split; [|done].
  assert (is_byte x) as [Hx0 Hx1] by (subst x; destruct VALUE; [done|apply is_byte_wrap]).
  assert (x <> 0); [|simpl in *; lia]. intros E. apply Hwv. destruct VALUE; [done|].
  apply Z.bits_inj. intros j. change 255 with (Z.ones 8).
  destruct (Z.ltb_spec j 0); [by rewrite !Z.testbit_neg_r|]. destruct (Z.ltb_spec j 8).
  - specialize (Hx j ltac:(lia)). rewrite E, Z.bits_0 in Hx. rewrite Z.ones_spec_low by lia.
    by destruct (Z.testbit w j).
  - apply is_byte_bits in Hbyte as [_ Hb]. rewrite Hb by lia. symmetry. apply Z.ones_spec_high. lia.
Qed.

(** The first bit with the value among all bits of the bytes, those behind the end
    included. *)
Lemma find_first_spec VALUE b :
  wf b ->
  exists r, find_first VALUE b = Ok r /\
    match r with
    | Some i => 0 <= i < 8 * size_in_bytes b /\ bit b i = VALUE /\ forall j, 0 <= j < i -> bit b j = negb VALUE
    | None => forall j, 0 <= j < 8 * size_in_bytes b -> bit b j = negb VALUE
    end.
Proof.
  intros Hwf. unfold find_first. pose proof (size_in_bytes_bounds b (wf_size b Hwf)).
  rewrite <- (wf_length b Hwf) in *. set (v := if VALUE then 0 else 255).
  destruct (skip_bytes_spec (Z.to_nat (Z.of_nat (length (m_data b)))) (m_data b) v 0)
    as (r & -> & Hr & Hskip & Hstop); [lia|lia|]. cbn [kbind outcome_monad].
  assert (forall j, 0 <= j < 8 * r -> bit b j = negb VALUE) as Hbefore.
  { intros j Hj. unfold bit. pose proof (Z.div_mod j 8 ltac:(lia)). pose proof (mod8_range j).
    rewrite Hskip by lia. subst v. destruct VALUE; [apply Z.bits_0|].
    change 255 with (Z.ones 8). apply Z.ones_spec_low. lia. }
  destruct (Z.eqb_spec r (Z.of_nat (length (m_data b)))) as [->|Hne].
  { exists None. split; [done|]. apply Hbefore. }
  destruct Hstop as (w & Hw & Hwv); [lia|]. rewrite (at_index_Z _ r _ ltac:(lia) Hw). cbn [kbind outcome_monad].
  assert (is_byte w) as Hbyte by (by eapply Forall_lookup_1; [apply Hwf|]).
  destruct (selected_byte VALUE w Hbyte Hwv) as [Hxr Hx].
  set (x := if VALUE then w else wrap 8 (Z.lnot w)) in *.
  destruct (count_trailing_zeroes_spec 8 x Hxr) as (Hz & Ht & Hlow). set (z := count_trailing_zeroes 8 x) in *.
  rewrite (proj2 (Z.eqb_neq x 0)) by lia. unfold bit_scan_forward. rewrite (proj2 (Z.eqb_neq x 0)) by lia.
  fold z. replace (r * 8 + (1 + z) - 1) with (z + 8 * r) by lia. exists (Some (z + 8 * r)). split; [done|].
  assert (forall j, 0 <= j < 8 -> bit b (j + 8 * r) = Z.testbit w j) as Hbit.
  { intros j Hj. unfold bit. replace ((j + 8 * r) / 8) with r by (apply Z.div_unique with j; lia).
    replace ((j + 8 * r) mod 8) with j by (apply Z.mod_unique with r; lia). by rewrite Hw. }
  split_and!; [lia|lia| |].
  - rewrite Hbit by lia. rewrite Hx in Ht by lia. by destruct (Z.testbit w z), VALUE.
  - intros j Hj. destruct (Z.ltb_spec j (8 * r)); [apply Hbefore; lia|].
    replace j with (j - 8 * r + 8 * r) by lia. rewrite Hbit by lia.
    specialize (Hlow (j - 8 * r) ltac:(lia)). rewrite Hx in Hlow by lia.
    by destruct (Z.testbit w (j - 8 * r)), VALUE.
Qed.


(** ** Properties *)

(** [set_range] sets exactly the bits of the range, for either value and any position of
    the range in its bytes, as long as the byte behind the range is part of the bitmap. *)
Theorem bitmap_set_range_exact V b start len :
  wf b -> 0 <= start < m_size b -> 0 < len -> start + len <= m_size b -> range_in_bounds b start len ->
  exists b', set_range V false b start len = Ok b' /\ wf b' /\ m_size b' = m_size b /\
    forall j, 0 <= j < m_size b -> get b' j = Ok (if (start <=? j) && (j <? start + len) then V else bit b j).
Proof.
  intros Hwf Hs Hlen Hend Hb. destruct (set_range_spec V b start len) as (b' & E & Hw & Es & H); [done..|].
  exists b'. split_and!; try done. intros j Hj. rewrite get_spec by (done || lia). f_equal. apply H. lia.
Qed.

Definition example_bitmap (n : nat) : Bitmap := fill (mkBitmap [] (Z.of_nat n)) false.

Lemma bitmap_set_range_exact_witness :
  exists b', set_range true false (example_bitmap 30) 3 22 = Ok b' /\ wf b' /\ m_size b' = 30 /\
    forall j, 0 <= j < 30 ->
      get b' j = Ok (if (3 <=? j) && (j <? 25) then true else bit (example_bitmap 30) j).
Proof.
  apply (bitmap_set_range_exact true (example_bitmap 30) 3 22); [|vm_compute..]; try done.
  apply fill_spec. done.
Defined.

(** [count_in_range], which reads whole words where the data happens to be aligned, counts
    exactly the bits of the range that have the value, wherever the bitmap lies in memory, and
    reads no byte outside it. *)
Theorem bitmap_count_exact address b start len value :
  wf b -> 0 <= start < m_size b -> 0 <= len -> start + len <= m_size b ->
  count_in_range address b start len value =
    Ok (csum (fun i => eqb (bit b i) value) start (Z.to_nat len)).
Proof. apply count_in_range_spec. Qed.

Lemma bitmap_count_exact_witness :
  count_in_range 4099 (mkBitmap (replicate 32 170) 256) 5 250 true
    = Ok (csum (fun i => eqb (bit (mkBitmap (replicate 32 170) 256) i) true) 5 250).
Proof.
  apply (bitmap_count_exact 4099 (mkBitmap (replicate 32 170) 256) 5 250 true); simpl; try lia.
  split; simpl; [lia|done|]. repeat (constructor; [unfold is_byte, in_width; lia|]). constructor.
Defined.

(** [find_first] returns the first bit with the value, or nothing when there is none, for
    bitmaps whose size is a multiple of eight. *)
Theorem bitmap_find_first_exact VALUE b :
  wf b -> m_size b mod 8 = 0 ->
  exists r, find_first VALUE b = Ok r /\
    match r with
    | Some i => 0 <= i < m_size b /\ bit b i = VALUE /\ forall j, 0 <= j < i -> bit b j = negb VALUE
    | None => forall j, 0 <= j < m_size b -> bit b j = negb VALUE
    end.
Proof.
  intros Hwf Hmod. destruct (find_first_spec VALUE b Hwf) as (r & E & H). exists r. split; [done|].
  assert (8 * size_in_bytes b = m_size b) as E8; [|by rewrite E8 in H].
  unfold size_in_bytes, ceil_div. rewrite Hmod. simpl. pose proof (Z.div_mod (m_size b) 8 ltac:(lia)). lia.
Qed.

Lemma bitmap_find_first_exact_witness :
  exists r, find_first false (mkBitmap [255; 255; 191] 24) = Ok r /\
    match r with
    | Some i => 0 <= i < 24 /\ bit (mkBitmap [255; 255; 191] 24) i = false /\
        forall j, 0 <= j < i -> bit (mkBitmap [255; 255; 191] 24) j = negb false
    | None => forall j, 0 <= j < 24 -> bit (mkBitmap [255; 255; 191] 24) j = negb false
    end.
Proof.
  apply (bitmap_find_first_exact false (mkBitmap [255; 255; 191] 24)); [|done].
  split; simpl; [lia|done|]. repeat (constructor; [unfold is_byte, in_width; lia|]). constructor.
Defined.

(** Setting a range that reaches the end of a bitmap whose size is a multiple of eight
    reads and writes the byte behind the allocation: the mask for the last byte is empty, but
    the byte is accessed all the same. *)
Theorem bitmap_set_range_past_end V flip b start len :
  wf b -> 0 <= start -> 0 < len -> start + len = m_size b -> m_size b mod 8 = 0 ->
  set_range V flip b start len = Panic.
Proof.
  intros Hwf Hs Hlen Hend Hmod. unfold set_range.
  rewrite (proj2 (Z.ltb_lt start _)), (proj2 (Z.leb_le _ (m_size b))), (proj2 (Z.eqb_neq len 0)) by lia.
  cbn [negb]. destruct (first_mask (start mod 8) (mod8_range _)) as (m1 & -> & _).
  destruct (last_mask ((start + len) mod 8) (mod8_range _)) as (m2 & -> & _). cbn [kbind outcome_monad].
  pose proof (Z.div_mod start 8 ltac:(lia)). pose proof (Z.div_mod (start + len) 8 ltac:(lia)).
  pose proof (mod8_range start). rewrite Hend in *.
  rewrite (proj2 (Z.eqb_neq (start / 8) _)) by lia.
  pose proof (wf_length b Hwf) as Hl. unfold size_in_bytes, ceil_div in Hl. rewrite Hmod in Hl. simpl in Hl.
  destruct (byte_at b start Hwf) as (v & _ & Hv & _); [lia|]. unfold set_across, update_byte at 1. rewrite Hv.
  cbn [kbind outcome_monad]. destruct (flip && _); [done|].
  rewrite set_at_index_Z by lia. cbn [kbind outcome_monad]. unfold update_byte.
  rewrite at_index_Panic; [done|]. rewrite length_insert. lia.
Qed.

Lemma bitmap_set_range_past_end_witness : set_range true false (example_bitmap 64) 0 64 = Panic.
Proof.
  apply (bitmap_set_range_past_end true false (example_bitmap 64) 0 64); [|lia|lia|done|done].
  apply fill_spec. done.
Defined.

(** Growing a bitmap within its last byte fails the range assertion of [set_range]. *)
Lemma bitmap_grow_within_byte :
  grow (mkBitmap [5] 3) 5 false = Panic /\ grow (mkBitmap [5] 3) 12 false = Ok (mkBitmap [5; 0] 12).
Proof. split; reflexivity. Qed.

(** [find_first_unset] on a bitmap of four set bits returns the position behind them. *)
Lemma bitmap_find_first_past_end : find_first false (mkBitmap [15] 4) = Ok (Some 4).
Proof. reflexivity. Qed.

(** The verifying variant accepts a range whose middle bytes do not flip. *)
Lemma bitmap_flip_not_verified :
  set_range true true (mkBitmap [0; 255; 0; 0] 32) 0 24 = Ok (mkBitmap [255; 255; 255; 0] 32).
Proof. reflexivity. Qed.
