(* ===== verification/BitmapSearch.v ===== *)
(** * Searching a bitmap for free ranges: AK/BitmapView.h

    [find_next_range_of_unset_bits] looks for a range of unset bits word by word: full and
    empty words are skipped at once, a mixed word is taken apart by counting trailing zeroes
    and ones.  The kernel heap ([find_first_fit], [find_best_fit]) and the block allocation
    of Ext2FS ([find_longest_range_of_unset_bits]) are built on it.

    The search is proved to return the first range of unset bits that is long enough,
    counted from the place it really starts at ([search_start]: when the first word is
    empty it goes back to the start of that word, and in the bits behind the last word it
    goes back to the first of them).  From this follow the exactness of the first fit, and
    of the longest range for bitmaps that are a whole number of words.  Going back makes the
    best fit loop forever for some short ranges and is harmless for ranges of at least 64
    bits, which is what the heap asks for.  In all of this reads stay inside the bitmap. *)

From S2P Require Import Prelude StdLibExtras MemMem Bitmap.

(** ** find_next_range_of_unset_bits *)
Definition max_size : Z := 4294967295.
Definition bit_size : Z := 64.

(** How a part of the search ends: by returning a length, with the start of the range, or with the start and the
    length of the range so far *)
Inductive scan := Found (length from : Z) | Scanning (from free_chunks : Z).

(** The [while] over a mixed word; 65 rounds are enough, each looks at one more bit at least. *)
Fixpoint scan_bucket (fuel : nat) (bucket_start bucket viewed_bits from free_chunks min_length max_length : Z) : outcome scan :=
  match fuel with
  | O => Panic
  | S fuel =>
      if viewed_bits <? bit_size then
        let from := if free_chunks =? 0 then bucket_start + viewed_bits else from in
        if bucket =? 0 then
          scan_bucket fuel bucket_start bucket bit_size from (free_chunks + (bit_size - viewed_bits)) min_length max_length
        else
          let trailing_zeroes := count_trailing_zeroes 64 bucket in
          let bucket := Z.shiftr bucket trailing_zeroes in
          let free_chunks := free_chunks + trailing_zeroes in
          let viewed_bits := wrap 8 (viewed_bits + trailing_zeroes) in
          if min_length <=? free_chunks then kret (Found (Z.min free_chunks max_length) from) else
          let trailing_ones := count_trailing_zeroes 64 (wrap 64 (Z.lnot bucket)) in
          scan_bucket fuel bucket_start (Z.shiftr bucket trailing_ones) (wrap 8 (viewed_bits + trailing_ones)) from 0 min_length max_length
      else kret (Scanning from free_chunks)
  end.

(** The [for] over the words, [n] of them *)
Fixpoint scan_buckets (n : nat) (b : Bitmap) (bucket_index start_bucket_bit from free_chunks min_length max_length : Z) : outcome scan :=
  match n with
  | O => kret (Scanning from free_chunks)
  | S n =>
      bucket ← load_word 8 (m_data b) (8 * bucket_index);
      if bucket =? 2 ^ 64 - 1 then
        if min_length <=? free_chunks then kret (Found (Z.min free_chunks max_length) from)
        else scan_buckets n b (bucket_index + 1) 0 from 0 min_length max_length
      else if bucket =? 0 then
        let from := if free_chunks =? 0 then bucket_index * bit_size else from in
        let free_chunks := free_chunks + bit_size in
        if max_length <=? free_chunks then kret (Found max_length from)
        else scan_buckets n b (bucket_index + 1) 0 from free_chunks min_length max_length
      else
        scanned ← scan_bucket 65 (bucket_index * bit_size) (Z.shiftr bucket start_bucket_bit) start_bucket_bit from free_chunks min_length max_length;
        match scanned with
        | Found length from => kret (Found length from)
        | Scanning from free_chunks => scan_buckets n b (bucket_index + 1) 0 from free_chunks min_length max_length
        end
  end.

(** The bits behind the last word, [n] of them *)
Fixpoint scan_tail (n : nat) (b : Bitmap) (position from free_chunks min_length max_length : Z) : outcome (option Z * Z) :=
  match n with
  | O => kret (None, from)
  | S n =>
      used ← get b position;
      if negb used then
        let from := if free_chunks =? 0 then position else from in
        let free_chunks := free_chunks + 1 in
        if min_length <=? free_chunks then kret (Some (Z.min free_chunks max_length), from)
        else scan_tail n b (position + 1) from free_chunks min_length max_length
      else scan_tail n b (position + 1) from 0 min_length max_length
  end.

(** The length of the range, if any, and the new value of [from] *)
Definition find_next_range_of_unset_bits (b : Bitmap) (from min_length max_length : Z) : outcome (option Z * Z) :=
  if max_length <? min_length then kret (None, from) else
  let start_bucket_index := from / bit_size in
  scanned ← scan_buckets (Z.to_nat (m_size b / bit_size - start_bucket_index)) b start_bucket_index (from mod bit_size) from 0 min_length max_length;
  match scanned with
  | Found length from => kret (Some length, from)
  | Scanning from free_chunks =>
      if free_chunks <? min_length then
        scan_tail (Z.to_nat (m_size b mod bit_size)) b (m_size b / bit_size * bit_size) from free_chunks min_length max_length
      else kret (Some (Z.min free_chunks max_length), from)
  end.

(** ** The searches built on it *)
Fixpoint longest_loop (fuel : nat) (b : Bitmap) (max_length start max_region_start max_region_size : Z) : outcome (Z * Z) :=
  match fuel with
  | O => Panic
  | S fuel =>
      ' (length_of_found_range, start) ← find_next_range_of_unset_bits b start (max_region_size + 1) max_length;
      match length_of_found_range with
      | Some length => longest_loop fuel b max_length (start + length) start length
      | None => kret (max_region_start, max_region_size)
      end
  end.

(** The start of the range and [found_range_size]; every round finds a longer range. *)
Definition find_longest_range_of_unset_bits (b : Bitmap) (max_length : Z) : outcome (option Z * Z) :=
  ' (max_region_start, max_region_size) ← longest_loop (S (Z.to_nat (m_size b))) b max_length 0 0 0;
  kret (if negb (max_region_size =? 0) then Some max_region_start else None, max_region_size).

Definition find_first_fit (b : Bitmap) (minimum_length : Z) : outcome (option Z) :=
  ' (length_of_found_range, start) ← find_next_range_of_unset_bits b 0 minimum_length minimum_length;
  kret (match length_of_found_range with Some _ => Some start | None => None end).

Fixpoint best_fit_loop (fuel : nat) (b : Bitmap) (minimum_length start best_region_start best_region_size : Z) (found : bool) : outcome (option Z) :=
  match fuel with
  | O => Panic
  | S fuel =>
      ' (length_of_found_range, start) ← find_next_range_of_unset_bits b start minimum_length best_region_size;
      match length_of_found_range with
      | Some length =>
          if (length <? best_region_size) || negb found then best_fit_loop fuel b minimum_length (start + length) start length true
          else best_fit_loop fuel b minimum_length (start + length) best_region_start best_region_size found
      | None => kret (if found then Some best_region_start else None)
      end
  end.

(** Every round that does not go back takes the search forward; [m_size + 1] rounds are enough when it never does. *)
Definition find_best_fit (b : Bitmap) (minimum_length : Z) : outcome (option Z) :=
  best_fit_loop (S (Z.to_nat (m_size b))) b minimum_length 0 0 max_size false.

(** ** find_one_anywhere *)
(** The offset in the data of the start of the word that contains a byte; [address] is where the data lies in memory. *)
Definition word_floor (address byte_index : Z) : Z := (address + byte_index) / 8 * 8 - address.

Fixpoint skip_words (n : nat) (data : list Z) (val_large ptr_large : Z) : outcome Z :=
  match n with
  | O => kret ptr_large
  | S n =>
      w ← load_word 8 data ptr_large;
      if w =? val_large then skip_words n data val_large (ptr_large + 8) else kret ptr_large
  end.

(** The first bit of byte [i] that has the value *)
Definition bit_in_byte (VALUE : bool) (data : list Z) (i : Z) : outcome (option Z) :=
  d ← at_index data i;
  let byte := if VALUE then d else wrap 8 (Z.lnot d) in
  if byte =? 0 then Panic else kret (Some (i * 8 + bit_scan_forward 8 byte - 1)).

Definition bit_in_word (VALUE : bool) (data : list Z) (ptr_large : Z) : outcome (option Z) :=
  w ← load_word 8 data ptr_large;
  let val_large := if VALUE then w else wrap 64 (Z.lnot w) in
  if val_large =? 0 then Panic else kret (Some (ptr_large * 8 + bit_scan_forward 64 val_large - 1)).

(** The [for (;;)], from the words on that follow the unaligned first bytes; the second round is the last. *)
Fixpoint find_one_loop (fuel : nat) (VALUE : bool) (address : Z) (b : Bitmap) (hint end_ : Z) : outcome (option Z) :=
  match fuel with
  | O => Panic
  | S fuel =>
      let byte := if VALUE then 0 else 255 in
      let ptr_large := word_floor address (hint / 8) in
      let unaligned := ptr_large <? 0 in
      let ptr_large := if unaligned then ptr_large + 8 else ptr_large in
      i ← (if unaligned then skip_bytes (Z.to_nat ptr_large) (m_data b) byte 0 else kret 0);
      if unaligned && (i <? ptr_large) then bit_in_byte VALUE (m_data b) i else
      let end_large := word_floor address end_ in
      ptr_large ← skip_words (Z.to_nat ((end_large - ptr_large) / 8)) (m_data b) (if VALUE then 0 else 2 ^ 64 - 1) ptr_large;
      if ptr_large =? end_large then
        let byte_count := size_in_bytes b in
        if byte_count <? ptr_large then Panic else
        i ← skip_bytes (Z.to_nat (byte_count - ptr_large)) (m_data b) byte ptr_large;
        if i =? byte_count then
          if hint <=? 8 then kret None else find_one_loop fuel VALUE address b 0 (word_floor address (hint / 8))
        else bit_in_byte VALUE (m_data b) i
      else bit_in_word VALUE (m_data b) ptr_large
  end.

Definition find_one_anywhere (VALUE : bool) (address : Z) (b : Bitmap) (hint : Z) : outcome (option Z) :=
  if negb (hint <? m_size b) then Panic else find_one_loop 2 VALUE address b hint (size_in_bytes b).


(** ** Words *)
Lemma load_word_bits b n p :
  wf b -> 0 <= p -> p + Z.of_nat n <= Z.of_nat (length (m_data b)) ->
  exists w, load_word n (m_data b) p = Ok w /\ 0 <= w < 2 ^ (8 * Z.of_nat n) /\ forall j, 0 <= j < 8 * Z.of_nat n -> Z.testbit w j = bit b (8 * p + j).
Proof.
  intros Hwf. revert p. induction n as [|n IH]; intros p Hp Hn; cbn [load_word]; [exists 0; split; [done|]; split; [done|]; lia|].
  destruct (lookup_lt_is_Some_2 (m_data b) (Z.to_nat p)) as [v Hv]; [lia|].
  assert (is_byte v) as Hb by (by eapply Forall_lookup_1; [apply Hwf|]).
  rewrite (at_index_Z _ p _ Hp Hv). cbn [kbind outcome_monad].
  destruct (IH (p + 1)) as (w & -> & Hw & E); [lia|lia|]. cbn [kbind outcome_monad kret].
  eexists. split; [done|]. replace (8 * Z.of_nat (S n)) with (8 + 8 * Z.of_nat n) by lia. rewrite Z.pow_add_r by lia. change (2 ^ 8) with 256.
  split; [unfold is_byte, in_width in Hb; lia|]. intros j Hj. rewrite testbit_load by (done || lia). destruct (Z.ltb_spec j 8).
  - unfold bit. rewrite (Z.mul_comm 8 p), Z.div_add_l, (Z.div_small j), Z.add_0_r, Hv by lia. by rewrite Z.add_comm, Z.mod_add, Z.mod_small by lia.
  - rewrite E by lia. f_equal. lia.
Qed.

(** ** The invariant of the search *)
Section search.
Context (b : Bitmap) (G min_length max_length : Z).

Definition unset (i j : Z) : Prop := forall k, i <= k < j -> bit b k = false.

(** No range of the wanted length starts between [G] and [r]. *)
Definition blocked (r : Z) : Prop := forall a, G <= a < r -> exists i, a <= i < a + min_length /\ i < r /\ bit b i = true.

(** The bits from [G] to [position] have been seen; the last [free_chunks] are unset. *)
Record searched (position free_chunks from : Z) : Prop := {
  se_free : 0 <= free_chunks;
  se_start : G <= position - free_chunks;
  se_unset : unset (position - free_chunks) position;
  se_from : free_chunks = 0 \/ from = position - free_chunks;
  se_blocked : blocked (position - free_chunks) }.

Lemma searched_start from : searched G 0 from.
Proof. split; [lia|lia|intros k; lia|by left|intros a; lia]. Qed.

Lemma searched_zeroes position free_chunks from k :
  searched position free_chunks from -> 0 <= k -> unset position (position + k) ->
  searched (position + k) (free_chunks + k) (if free_chunks =? 0 then position else from).
Proof.
  intros [H1 H2 H3 H4 H5] Hk Hu. replace (position + k - (free_chunks + k)) with (position - free_chunks) in * by lia.
  split; replace (position + k - (free_chunks + k)) with (position - free_chunks) in * by lia; [lia|lia| | |done].
  - intros i Hi. destruct (Z.lt_ge_cases i position); [apply H3; lia|apply Hu; lia].
  - right. destruct (Z.eqb_spec free_chunks 0); [lia|]. destruct H4; [lia|done].
Qed.

Lemma searched_ones position free_chunks from from' k :
  searched position free_chunks from -> free_chunks < min_length -> 0 < k -> (forall i, position <= i < position + k -> bit b i = true) ->
  searched (position + k) 0 from'.
Proof.
  intros [H1 H2 H3 H4 H5] Hm Hk Hb. split; [lia|lia|intros i; lia|by left|]. rewrite Z.sub_0_r. intros a Ha.
  destruct (Z.lt_ge_cases a (position - free_chunks)) as [Hlt|Hge]; [destruct (H5 a) as (i & Hi & Hi' & Hib); [lia|]; exists i; split; [lia|]; split; [lia|done]|].
  destruct (Z.lt_ge_cases a position); [exists position|exists a]; (split; [lia|]); (split; [lia|]); apply Hb; lia.
Qed.

(** What a search has found, and that there is nothing to find *)
Definition first_range (length from : Z) : Prop :=
  G <= from /\ min_length <= length <= max_length /\ from + length <= m_size b /\ unset from (from + length)
  /\ forall a, G <= a < from -> ~ unset a (a + min_length).
Definition no_range : Prop := forall a, G <= a -> a + min_length <= m_size b -> ~ unset a (a + min_length).

(** The range ends because the next bit is set, the bitmap ends, or it is as long as was wanted. *)
Definition maximal (length from : Z) : Prop := length = max_length \/ from + length = m_size b \/ bit b (from + length) = true.

Lemma blocked_no_window r a : blocked r -> G <= a < r -> ~ unset a (a + min_length).
Proof. intros Hb Ha Hu. destruct (Hb a Ha) as (i & Hi & _ & E). rewrite Hu in E by lia. done. Qed.

Hypothesis Hmin : 1 <= min_length <= max_length.

Lemma searched_found position free_chunks from :
  searched position free_chunks from -> min_length <= free_chunks -> position <= m_size b -> first_range (Z.min free_chunks max_length) from.
Proof using Hmin.
  intros [H1 H2 H3 H4 H5] Hf Hp. destruct H4 as [|E]; [lia|]. split; [lia|]. split; [lia|]. split; [lia|]. split.
  - intros i Hi. apply H3. lia.
  - intros a Ha. apply (blocked_no_window (position - free_chunks)); [done|lia].
Qed.

Lemma searched_maximal position free_chunks from :
  searched position free_chunks from -> min_length <= free_chunks -> position = m_size b \/ bit b position = true -> maximal (Z.min free_chunks max_length) from.
Proof using Hmin.
  intros [H1 H2 H3 H4 H5] Hf Hp. destruct H4 as [|E]; [lia|]. unfold maximal. destruct (Z.min_spec free_chunks max_length) as [[_ ->]|[_ ->]]; [right|by left].
  replace (from + free_chunks) with position by lia. done.
Qed.

Lemma searched_none free_chunks from : searched (m_size b) free_chunks from -> free_chunks < min_length -> no_range.
Proof using Hmin. intros [H1 H2 H3 H4 H5] Hf a Ha Hw. apply (blocked_no_window (m_size b - free_chunks)); [exact H5|split; [exact Ha|lia]]. Qed.

(** What a part of the search leaves behind when it has seen the bits up to [position] *)
Definition scanned_to (position : Z) (s : scan) : Prop :=
  match s with
  | Found length from => first_range length from /\ maximal length from
  | Scanning from free_chunks => searched position free_chunks from
  end.
End search.

Lemma lnot_bits w j : 0 <= j < 64 -> Z.testbit (wrap 64 (Z.lnot w)) j = negb (Z.testbit w j).
Proof. intros Hj. unfold wrap. rewrite Z.mod_pow2_bits_low by lia. apply Z.lnot_spec. lia. Qed.

Section bucket.
Context (b : Bitmap) (G min_length max_length s w : Z).
Hypothesis Hmin : 1 <= min_length <= max_length.
Hypothesis Hw : 0 <= w < 2 ^ 64.
Hypothesis Hbits : forall j, 0 <= j < 64 -> Z.testbit w j = bit b (s + j).
Hypothesis Hs : s + 64 <= m_size b.

Lemma bucket_above j : 64 <= j -> Z.testbit w j = false.
Proof using Hw. clear Hbits. intros Hj. destruct (decide (w = 0)) as [->|]; [apply Z.bits_0|]. apply Z.bits_above_log2; [lia|]. apply Z.lt_le_trans with 64; [|done]. apply Z.log2_lt_pow2; lia. Qed.

Lemma bucket_shift v j : 0 <= v -> 0 <= j -> Z.testbit (Z.shiftr w v) j = Z.testbit w (v + j).
Proof using Type. clear Hbits. intros Hv Hj. rewrite Z.shiftr_spec by done. f_equal. lia. Qed.

Lemma bucket_range v : 0 <= v -> 0 <= Z.shiftr w v < 2 ^ 64.
Proof using Hw. clear Hbits. intros Hv. rewrite Z.shiftr_div_pow2 by done. split; [apply Z.div_pos; lia|]. apply Z.le_lt_trans with w; [|lia]. apply Z.div_le_upper_bound; [lia|]. nia. Qed.

(** A run of unset bits: how far it is to the next set one *)
Lemma bucket_zeroes v : 0 <= v < 64 -> Z.shiftr w v <> 0 ->
  let t := count_trailing_zeroes 64 (Z.shiftr w v) in
  0 <= t /\ v + t < 64 /\ bit b (s + (v + t)) = true /\ unset b (s + v) (s + v + t).
Proof using Hw Hbits.
  intros Hv Hne t. pose proof (bucket_range v ltac:(lia)) as Hr. destruct (count_trailing_zeroes_spec 64 (Z.shiftr w v)) as (H0 & H1 & H2); [change (2 ^ Z.of_nat 64) with (2 ^ 64); lia|]. fold t in H0, H1, H2.
  rewrite bucket_shift in H1 by lia. assert (Hlt : v + t < 64) by (destruct (Z.lt_ge_cases (v + t) 64); [done|]; rewrite bucket_above in H1 by done; done).
  split; [lia|]. split; [done|]. split; [by rewrite <- Hbits by lia|]. intros k Hk. replace k with (s + (v + (k - s - v))) by lia. rewrite <- Hbits, <- bucket_shift by lia. apply H2. lia.
Qed.

(** A run of set bits *)
Lemma bucket_ones v : 0 <= v < 64 -> bit b (s + v) = true -> Z.shiftr w v <> 2 ^ 64 - 1 ->
  let t := count_trailing_zeroes 64 (wrap 64 (Z.lnot (Z.shiftr w v))) in
  0 < t /\ v + t <= 64 /\ forall i, s + v <= i < s + v + t -> bit b i = true.
Proof using Hw Hbits.
  intros Hv Hset Hne t. pose proof (bucket_range v ltac:(lia)) as Hr.
  assert (E : wrap 64 (Z.lnot (Z.shiftr w v)) = 2 ^ 64 - 1 - Z.shiftr w v) by (unfold wrap, Z.lnot; symmetry; apply Z.mod_unique with (-1); lia).
  destruct (count_trailing_zeroes_spec 64 (wrap 64 (Z.lnot (Z.shiftr w v)))) as (H0 & H1 & H2); [change (2 ^ Z.of_nat 64) with (2 ^ 64); lia|]. fold t in H0, H1, H2.
  change (Z.of_nat 64) with 64 in H0. rewrite lnot_bits, bucket_shift in H1 by lia.
  assert (Hall : forall j, 0 <= j < t -> Z.testbit w (v + j) = true). { intros j Hj. specialize (H2 j Hj). rewrite lnot_bits, bucket_shift in H2 by lia. by destruct (Z.testbit w (v + j)). }
  assert (t <> 0). { intros E0. rewrite E0, Z.add_0_r, Hbits, Hset in H1 by lia. done. }
  assert (v + t <= 64). { destruct (Z.le_gt_cases (v + t) 64); [done|]. specialize (Hall (64 - v) ltac:(lia)). rewrite bucket_above in Hall by lia. done. }
  split; [lia|]. split; [done|]. intros i Hi. replace i with (s + (v + (i - s - v))) by lia. rewrite <- Hbits by lia. apply Hall. lia.
Qed.

Lemma scan_bucket_spec fuel : forall v from free, 0 <= v <= 64 -> 64 - v < Z.of_nat fuel -> (v = 0 -> w <> 2 ^ 64 - 1) ->
  searched b G min_length (s + v) free from ->
  runs (scan_bucket fuel s (Z.shiftr w v) v from free min_length max_length) (scanned_to b G min_length max_length (s + 64)).
Proof using Hmin Hw Hbits Hs.
  induction fuel as [|fuel IH]; intros v from free Hv Hf Hfull Hse; [lia|]. cbn [scan_bucket]. unfold bit_size. destruct (Z.ltb_spec v 64) as [Hlt|Hge].
  2:{ apply runs_ret. cbn. by replace 64 with v by lia. }
  destruct (Z.eqb_spec (Z.shiftr w v) 0) as [E|E].
  - replace (Z.shiftr w v) with (Z.shiftr w 64) by (rewrite E, Z.shiftr_div_pow2 by lia; apply Z.div_small; lia). apply IH; [lia|lia|lia|].
    replace (s + 64) with (s + v + (64 - v)) by lia. apply searched_zeroes; [done|lia|]. intros k Hk. replace k with (s + (v + (k - s - v))) by lia.
    rewrite <- Hbits, <- bucket_shift, E, Z.bits_0 by lia. done.
  - destruct (bucket_zeroes v ltac:(lia) E) as (Ht & Hlt' & Hset & Hun). set (t := count_trailing_zeroes 64 (Z.shiftr w v)) in *. cbv zeta.
    pose proof (searched_zeroes b G min_length _ _ _ t Hse Ht Hun) as Hse'. rewrite (Z.shiftr_shiftr w v t) by lia. replace (wrap 8 (v + t)) with (v + t) by (symmetry; apply Z.mod_small; lia).
    destruct (Z.leb_spec min_length (free + t)) as [Hle|Hgt].
    + apply runs_ret. cbn. replace (s + v + t) with (s + (v + t)) in Hse' by lia. split; [eapply searched_found; [done|exact Hse'|done|lia]|eapply searched_maximal; [done|exact Hse'|done|by right]].
    + destruct (bucket_ones (v + t) ltac:(lia) Hset) as (Ho & Ho' & Hones).
      { destruct (decide (v + t = 0)) as [E0|]; [rewrite E0, Z.shiftr_0_r; apply Hfull; lia|]. intros E1. assert (Z.testbit (Z.shiftr w (v + t)) 63 = true) by (by rewrite E1).
        rewrite bucket_shift, bucket_above in H by lia. done. }
      set (o := count_trailing_zeroes 64 (wrap 64 (Z.lnot (Z.shiftr w (v + t))))) in *. rewrite (Z.shiftr_shiftr w (v + t) o) by lia. replace (wrap 8 (v + t + o)) with (v + t + o) by (symmetry; apply Z.mod_small; lia).
      apply IH; [lia|lia|lia|]. replace (s + (v + t + o)) with (s + v + t + o) by lia. eapply searched_ones; [exact Hse'|done|done|]. intros i Hi. apply Hones. lia.
Qed.
End bucket.

Section words.
Context (b : Bitmap) (G min_length max_length : Z).
Hypothesis Hwf : wf b.
Hypothesis Hmin : 1 <= min_length <= max_length.

Lemma bucket_word i : 0 <= i -> (i + 1) * 64 <= m_size b ->
  exists w, load_word 8 (m_data b) (8 * i) = Ok w /\ 0 <= w < 2 ^ 64 /\ forall j, 0 <= j < 64 -> Z.testbit w j = bit b (i * 64 + j).
Proof using Hwf.
  intros Hi Hs. pose proof (size_in_bytes_bounds b (wf_size b Hwf)) as Hsz. rewrite <- (wf_length b Hwf) in Hsz.
  destruct (load_word_bits b 8 (8 * i)) as (w & E & Hw & Hb); [done|lia|lia|]. exists w. split; [done|]. split; [done|]. intros j Hj. rewrite Hb by lia. f_equal. lia.
Qed.

(** Where the search is when it reaches a word: an empty word is taken from its start. *)
Definition enters (i s free from : Z) : Prop :=
  searched b G min_length (i * 64) free from /\ s = 0
  \/ 0 <= s < 64 /\ free = 0 /\ searched b G min_length (i * 64 + s) 0 from /\ ~ unset b (i * 64) ((i + 1) * 64)
  \/ 0 <= s < 64 /\ free = 0 /\ searched b G min_length (i * 64) 0 from /\ unset b (i * 64) ((i + 1) * 64).

Lemma enters_full i s free from : enters i s free from -> exists p, searched b G min_length p free from /\ i * 64 <= p < (i + 1) * 64.
Proof using Type. intros [[H ->]|[(Hs & -> & H & _)|(Hs & -> & H & _)]]; eexists; (split; [exact H|lia]). Qed.

Lemma enters_empty i s free from : enters i s free from -> unset b (i * 64) ((i + 1) * 64) -> searched b G min_length (i * 64) free from.
Proof using Type. intros [[H _]|[(_ & _ & _ & H)|(_ & -> & H & _)]] Hz; done. Qed.

Lemma enters_mixed i s free from : enters i s free from -> ~ unset b (i * 64) ((i + 1) * 64) -> 0 <= s <= 64 /\ searched b G min_length (i * 64 + s) free from.
Proof using Type. intros [[H ->]|[(Hs & -> & H & _)|(Hs & -> & _ & H)]] Hz; [rewrite Z.add_0_r; split; [lia|done]|split; [lia|done]|done]. Qed.

Lemma full_word i w : w = 2 ^ 64 - 1 -> (forall j, 0 <= j < 64 -> Z.testbit w j = bit b (i * 64 + j)) -> forall k, i * 64 <= k < (i + 1) * 64 -> bit b k = true.
Proof using Type.
  intros -> Hb k Hk. replace k with (i * 64 + (k - i * 64)) by lia. rewrite <- Hb by lia. change (2 ^ 64 - 1) with (Z.ones 64). apply Z.ones_spec_low. lia.
Qed.

Lemma empty_word i w : 0 <= w < 2 ^ 64 -> (forall j, 0 <= j < 64 -> Z.testbit w j = bit b (i * 64 + j)) -> w = 0 <-> unset b (i * 64) ((i + 1) * 64).
Proof using Type.
  intros Hw Hb. split.
  - intros -> k Hk. replace k with (i * 64 + (k - i * 64)) by lia. rewrite <- Hb by lia. apply Z.bits_0.
  - intros Hz. apply Z.bits_inj_0. intros j. destruct (Z.ltb_spec j 0); [by apply Z.testbit_neg_r|]. destruct (Z.lt_ge_cases j 64); [rewrite Hb by lia; apply Hz; lia|by apply (bucket_above w Hw)].
Qed.

Lemma scan_buckets_spec n : forall i s from free, 0 <= i -> (i + Z.of_nat n) * 64 <= m_size b -> (n = 0%nat -> s = 0) -> enters i s free from ->
  runs (scan_buckets n b i s from free min_length max_length) (scanned_to b G min_length max_length ((i + Z.of_nat n) * 64)).
Proof using Hwf Hmin.
  induction n as [|n IH]; intros i s from free Hi Hn Hs0 He; cbn [scan_buckets].
  { apply runs_ret. cbn. rewrite Z.add_0_r. destruct He as [[H _]|[(_ & -> & H & _)|(_ & -> & H & _)]]; [done| |done]. by rewrite Hs0, Z.add_0_r in H. }
  destruct (bucket_word i Hi ltac:(lia)) as (w0 & E & Hw0). apply (runs_bind _ _ (fun w => 0 <= w < 2 ^ 64 /\ forall j, 0 <= j < 64 -> Z.testbit w j = bit b (i * 64 + j))); [by exists w0|]. clear w0 E Hw0. intros w [Hw Hb].
  assert (Hnext : forall from free, searched b G min_length ((i + 1) * 64) free from -> runs (scan_buckets n b (i + 1) 0 from free min_length max_length) (scanned_to b G min_length max_length ((i + Z.of_nat (S n)) * 64))).
  { intros from' free' H. replace (i + Z.of_nat (S n)) with (i + 1 + Z.of_nat n) by lia. apply IH; [lia|lia|done|by left]. }
  unfold bit_size. destruct (Z.eqb_spec w (2 ^ 64 - 1)) as [Efull|Hfull]; [|destruct (Z.eqb_spec w 0) as [E0|Hne]].
  - pose proof (full_word i w Efull Hb) as Hones. destruct (enters_full _ _ _ _ He) as (p & Hse & Hp). destruct (Z.leb_spec min_length free) as [Hle|Hgt].
    + apply runs_ret. split; [eapply searched_found; [done|exact Hse|done|lia]|eapply searched_maximal; [done|exact Hse|done|right; apply Hones; lia]].
    + apply Hnext. replace ((i + 1) * 64) with (p + ((i + 1) * 64 - p)) by lia. eapply searched_ones; [exact Hse|done|lia|]. intros k Hk. apply Hones. lia.
  - apply (empty_word i w Hw Hb) in E0. pose proof (enters_empty _ _ _ _ He E0) as Hse. replace ((i + 1) * 64) with (i * 64 + 64) in * by lia.
    apply (searched_zeroes b G min_length _ _ _ 64) in Hse; [|lia|done]. destruct (Z.leb_spec max_length (free + 64)) as [Hle|Hgt]; [|by apply Hnext].
    apply runs_ret. split; [|by left]. replace max_length with (Z.min (free + 64) max_length) at 2 by lia. eapply searched_found; [done|exact Hse|lia|lia].
  - rewrite (empty_word i w Hw Hb) in Hne. destruct (enters_mixed _ _ _ _ He Hne) as [Hs Hse]. 
    eapply runs_bind; [apply (scan_bucket_spec b G min_length max_length (i * 64) w Hmin Hw Hb ltac:(lia) 65 s); [done|lia|done|done]|].
    intros [len from'|from' free'] H; [by apply runs_ret|]. apply Hnext. by replace ((i + 1) * 64) with (i * 64 + 64) by lia.
Qed.

Definition found_or_none (r : option Z * Z) : Prop :=
  match r with
  | (Some length, from) => first_range b G min_length max_length length from /\ (m_size b mod 64 = 0 -> maximal b max_length length from)
  | (None, _) => no_range b G min_length
  end.

Lemma scan_tail_spec n : forall from free, free < min_length -> Z.of_nat n < 64 -> m_size b mod 64 = Z.of_nat n \/ m_size b mod 64 <> 0 -> 0 <= m_size b - Z.of_nat n ->
  searched b G min_length (m_size b - Z.of_nat n) free from ->
  runs (scan_tail n b (m_size b - Z.of_nat n) from free min_length max_length) found_or_none.
Proof using Hwf Hmin.
  induction n as [|n IH]; intros from free Hf Hn Hm Hp Hse; cbn [scan_tail].
  { apply runs_ret. cbn. eapply searched_none; [done| |done]. by rewrite Z.sub_0_r in Hse. }
  set (p := m_size b - Z.of_nat (S n)) in *. assert (Ep : p + 1 = m_size b - Z.of_nat n) by lia.
  apply (runs_bind _ _ (fun used => used = bit b p)); [exists (bit b p); split; [apply get_spec; [done|lia]|done]|]. intros used ->. destruct (bit b p) eqn:Eb; cbn [negb].
  - rewrite Ep. apply IH; [lia|lia|lia|lia|]. rewrite <- Ep. eapply searched_ones; [exact Hse|done|lia|]. intros i Hi. by replace i with p by lia.
  - apply (searched_zeroes b G min_length _ _ _ 1) in Hse; [|lia|intros i Hi; by replace i with p by lia]. destruct (Z.leb_spec min_length (free + 1)) as [Hle|Hgt].
    + apply runs_ret. split; [|lia]. eapply searched_found; [done|exact Hse|done|lia].
    + rewrite Ep in *. apply IH; (lia || done).
Qed.
End words.

(** Where a search from [from] really starts *)
Definition search_start (b : Bitmap) (from : Z) : Z :=
  if from / 64 <? m_size b / 64 then
    match load_word 8 (m_data b) (8 * (from / 64)) with
    | Ok w => if w =? 0 then from / 64 * 64 else from
    | _ => from
    end
  else m_size b / 64 * 64.

Lemma search_start_bounds b from : 0 <= from -> from <= m_size b -> 0 <= search_start b from <= from /\ from - 63 <= search_start b from.
Proof.
  intros H0 Hs. unfold search_start. pose proof (Z.div_mod from 64 ltac:(lia)). pose proof (Z.mod_pos_bound from 64 ltac:(lia)).
  pose proof (Z.div_mod (m_size b) 64 ltac:(lia)). pose proof (Z.mod_pos_bound (m_size b) 64 ltac:(lia)).
  destruct (Z.ltb_spec (from / 64) (m_size b / 64)); [|lia]. destruct (load_word 8 (m_data b) (8 * (from / 64))) as [w| |]; [destruct (w =? 0); lia|lia|lia].
Qed.

Lemma search_start_0 b : search_start b 0 = 0 \/ m_size b / 64 <= 0.
Proof.
  unfold search_start. change (0 / 64) with 0. destruct (Z.ltb_spec 0 (m_size b / 64)); [left|by right]. destruct (load_word 8 (m_data b) (8 * 0)) as [w| |]; [by destruct (w =? 0)|done|done].
Qed.

(** The search returns the first range that is long enough, or there is none. *)
Lemma find_next_spec b from min_length max_length :
  wf b -> 0 <= from -> 1 <= min_length <= max_length ->
  runs (find_next_range_of_unset_bits b from min_length max_length) (found_or_none b (search_start b from) min_length max_length).
Proof.
  intros Hwf H0 Hmin. unfold find_next_range_of_unset_bits. rewrite (proj2 (Z.ltb_ge _ _)) by lia. unfold bit_size. cbv zeta.
  pose proof (Z.div_mod from 64 ltac:(lia)) as Hd. pose proof (Z.mod_pos_bound from 64 ltac:(lia)) as Hmo.
  pose proof (Z.div_mod (m_size b) 64 ltac:(lia)) as Hd'. pose proof (Z.mod_pos_bound (m_size b) 64 ltac:(lia)) as Hmo'. pose proof (wf_size b Hwf) as Hsz.
  apply (runs_bind _ _ (scanned_to b (search_start b from) min_length max_length (m_size b / 64 * 64))).
  - unfold search_start. destruct (Z.ltb_spec (from / 64) (m_size b / 64)) as [Hlt|Hge].
    + replace (m_size b / 64 * 64) with ((from / 64 + Z.of_nat (Z.to_nat (m_size b / 64 - from / 64))) * 64) by lia.
      assert (0 <= from / 64) by (apply Z.div_pos; lia). apply scan_buckets_spec; [done|done|lia|lia|lia|]. destruct (bucket_word b Hwf (from / 64)) as (w & -> & Hw & Hb); [lia|lia|].
      destruct (Z.eqb_spec w 0) as [E|E]; rewrite (empty_word b (from / 64) w Hw Hb) in E.
      * right; right. split; [done|]. split; [done|]. split; [apply searched_start|done].
      * right; left. split; [done|]. split; [done|]. split; [|done]. replace (from / 64 * 64 + from mod 64) with from by lia. apply searched_start.
    + replace (Z.to_nat (m_size b / 64 - from / 64)) with 0%nat by lia. apply runs_ret. apply searched_start.
  - intros [len s|s free] Hsc; [apply runs_ret; by split; [|intros _]; apply Hsc|]. cbn in Hsc. destruct (Z.ltb_spec free min_length) as [Hlt|Hge].
    + pose proof (scan_tail_spec b (search_start b from) min_length max_length Hwf Hmin (Z.to_nat (m_size b mod 64)) s free Hlt) as Ht. rewrite Z2Nat.id in Ht by lia.
      replace (m_size b - m_size b mod 64) with (m_size b / 64 * 64) in Ht by lia. apply Ht; (lia || done).
    + apply runs_ret. split; [eapply searched_found; [done|exact Hsc|done|lia]|]. intros Hm. eapply searched_maximal; [done|exact Hsc|done|]. left. lia.
Qed.

(** ** First fit *)
Lemma search_from_0 b : wf b -> search_start b 0 = 0.
Proof.
  intros Hwf. destruct (search_start_0 b) as [|H]; [done|]. unfold search_start. change (0 / 64) with 0. rewrite (proj2 (Z.ltb_ge _ _)) by done.
  assert (0 <= m_size b / 64) by (apply Z.div_pos; [apply Hwf|lia]). lia.
Qed.

(** [length] unset bits inside the bitmap from [start] on *)
Definition free_range (b : Bitmap) (start length : Z) : Prop := 0 <= start /\ start + length <= m_size b /\ unset b start (start + length).

Lemma find_first_fit_spec b n : wf b -> 1 <= n ->
  runs (find_first_fit b n) (fun r => match r with
    | Some s => free_range b s n /\ forall a, a < s -> ~ free_range b a n
    | None => forall a, ~ free_range b a n
    end).
Proof.
  intros Hwf Hn. unfold find_first_fit. eapply runs_bind; [apply find_next_spec; [done|lia|lia]|]. rewrite search_from_0 by done. intros [[len|] s] H; apply runs_ret.
  - destruct H as [(H1 & H2 & H3 & H4 & H5) _]. replace len with n in * by lia. split; [done|]. intros a Ha (Ha0 & _ & Hu). apply (H5 a); [lia|done].
  - intros a (Ha0 & Ha & Hu). by apply (H a).
Qed.

(** ** Best fit *)
Lemma best_fit_loop_spec b n : wf b -> 64 <= n -> forall fuel start best_start best_size (found : bool),
  0 <= start <= m_size b -> m_size b - start < Z.of_nat fuel -> n <= best_size -> (if found then free_range b best_start n else start = 0) ->
  runs (best_fit_loop fuel b n start best_start best_size found) (fun r => match r with
    | Some s => free_range b s n
    | None => forall a, ~ free_range b a n
    end).
Proof.
  intros Hwf Hn. induction fuel as [|fuel IH]; intros start bs bz found Hs Hf Hbz Hfound; [lia|]. cbn [best_fit_loop].
  eapply runs_bind; [apply find_next_spec; [done|lia|lia]|]. pose proof (search_start_bounds b start ltac:(lia) ltac:(lia)) as [Hg Hg']. intros [[len|] s] H.
  - destruct H as [(H1 & H2 & H3 & H4 & _) _]. assert (Hfree : free_range b s n) by (split; [lia|]; split; [lia|]; intros i Hi; apply H4; lia).
    destruct ((len <? bz) || negb found) eqn:E; [apply IH; (lia || done)|]. apply orb_false_iff in E as [_ E%negb_false_iff]. subst found. apply IH; (lia || done).
  - apply runs_ret. destruct found; [done|]. subst start. rewrite search_from_0 in H by done. intros a (Ha0 & Ha & Hu). by apply (H a).
Qed.

Lemma find_best_fit_spec b n : wf b -> 64 <= n <= max_size ->
  runs (find_best_fit b n) (fun r => match r with Some s => free_range b s n | None => forall a, ~ free_range b a n end).
Proof. intros Hwf Hn. pose proof (wf_size b Hwf). apply best_fit_loop_spec; (done || lia). Qed.

(** ** The longest range *)
Definition longest_so_far (b : Bitmap) (max_length start region_start region_size : Z) : Prop :=
  0 <= start <= m_size b /\ 0 <= region_size <= max_length /\ (region_size = 0 -> start = 0) /\ (0 < region_size -> free_range b region_start region_size)
  /\ (m_size b mod 64 = 0 -> forall a k, a < start -> k <= max_length -> free_range b a k -> k <= region_size).

Definition longest_found (b : Bitmap) (max_length region_start region_size : Z) : Prop :=
  0 <= region_size <= max_length /\ (region_size = 0 -> 1 <= max_length -> forall i, 0 <= i < m_size b -> bit b i = true)
  /\ (0 < region_size -> free_range b region_start region_size)
  /\ (m_size b mod 64 = 0 -> forall a k, k <= max_length -> free_range b a k -> k <= region_size).

Lemma longest_end b max_length start region_start region_size :
  wf b -> longest_so_far b max_length start region_start region_size -> (max_length <= region_size \/ no_range b (search_start b start) (region_size + 1)) ->
  longest_found b max_length region_start region_size.
Proof.
  intros Hwf (Hs & Hz & H0 & Hr & Hl) Hend. split; [done|]. split; [|split; [done|]].
  - intros E Hm i Hi. destruct Hend as [|Hno]; [lia|]. rewrite (H0 E), search_from_0, E in Hno by done. destruct (bit b i) eqn:Eb; [done|]. exfalso. apply (Hno i); [lia|lia|].
    intros k Hk. by replace k with i by lia.
  - intros Hm a k Hk Hfree. destruct (Z.lt_ge_cases a start) as [Ha|Ha]; [by apply (Hl Hm a)|]. destruct (Z.le_gt_cases k region_size) as [|Hgt]; [done|]. destruct Hend as [|Hno]; [lia|].
    exfalso. destruct Hfree as (_ & Hend & Hu). pose proof (search_start_bounds b start ltac:(lia) ltac:(lia)). apply (Hno a); [lia|lia|]. intros i Hi. apply Hu. lia.
Qed.

Lemma longest_step b max_length start region_start region_size len s :
  wf b -> longest_so_far b max_length start region_start region_size ->
  found_or_none b (search_start b start) (region_size + 1) max_length (Some len, s) ->
  longest_so_far b max_length (s + len) s len /\ region_size < len.
Proof.
  intros Hwf (Hs & Hz & H0 & Hr & Hl) [(H1 & H2 & H3 & H4 & H5) Hmax]. pose proof (search_start_bounds b start ltac:(lia) ltac:(lia)) as [Hg Hg']. split; [|lia].
  split; [lia|]. split; [lia|]. split; [lia|]. split; [intros _; split; [lia|done]|]. intros Hm a k Ha Hk Hfree. destruct (Z.lt_ge_cases a s) as [Has|Has].
  - destruct (Z.lt_ge_cases a (search_start b start)) as [Hlt|Hge]; [pose proof (Hl Hm a k ltac:(lia) Hk Hfree); lia|]. destruct (Z.le_gt_cases k region_size); [lia|]. exfalso.
    apply (H5 a); [lia|]. intros i Hi. apply Hfree. lia.
  - destruct (Hmax Hm) as [E|[E|E]]; [lia|destruct Hfree; lia|]. destruct (Z.le_gt_cases k len) as [|Hgt]; [done|]. destruct Hfree as (_ & _ & Hu). rewrite Hu in E by lia. done.
Qed.

Lemma longest_loop_spec b max_length : wf b -> forall fuel start region_start region_size,
  m_size b - region_size < Z.of_nat fuel -> longest_so_far b max_length start region_start region_size ->
  runs (longest_loop fuel b max_length start region_start region_size) (fun '(s, len) => longest_found b max_length s len).
Proof.
  intros Hwf. induction fuel as [|fuel IH]; intros start rs rz Hf Hso; cbn [longest_loop].
  { exfalso. destruct Hso as (? & ? & ? & Hr & _). destruct (Z.lt_ge_cases 0 rz) as [Hpos|]; [destruct (Hr Hpos)|]; lia. }
  destruct (Z.lt_ge_cases max_length (rz + 1)) as [Hlt|Hge].
  - unfold find_next_range_of_unset_bits. rewrite (proj2 (Z.ltb_lt _ _)) by done. apply runs_ret. eapply longest_end; [done|exact Hso|left; lia].
  - eapply runs_bind; [apply find_next_spec; [done|apply Hso|destruct Hso as (? & ? & _); lia]|]. intros [[len|] s] H.
    + destruct (longest_step b max_length start rs rz len s Hwf Hso H) as [Hso' Hlt]. apply IH; [lia|done].
    + apply runs_ret. eapply longest_end; [done|exact Hso|by right].
Qed.

(** ** Properties *)
(** C35: The searches behind the kernel heap return, without reading outside the bitmap.  [find_first_fit] gives the
    first place where enough bits are unset; [find_best_fit], for ranges of 64 bits or more, a place where enough bits
    are unset; and both fail only when there is no such place.  *)
Theorem bitmap_fit_exact b n : wf b -> 1 <= n ->
  runs (find_first_fit b n) (fun r => match r with
    | Some s => free_range b s n /\ forall a, a < s -> ~ free_range b a n
    | None => forall a, ~ free_range b a n
    end)
  /\ (64 <= n <= max_size -> runs (find_best_fit b n) (fun r => match r with Some s => free_range b s n | None => forall a, ~ free_range b a n end)).
Proof. intros Hwf Hn. split; [by apply find_first_fit_spec|by apply find_best_fit_spec]. Qed.

Lemma bitmap_fit_exact_witness :
  runs (find_first_fit (example_bitmap 200) 70) (fun r => match r with
    | Some s => free_range (example_bitmap 200) s 70 /\ forall a, a < s -> ~ free_range (example_bitmap 200) a 70
    | None => forall a, ~ free_range (example_bitmap 200) a 70
    end).
Proof.
  apply (bitmap_fit_exact (example_bitmap 200) 70); [|lia]. apply fill_spec. done.
Defined.

(** [find_longest_range_of_unset_bits] returns.  What it returns is a range of unset bits, no longer than asked
    for, and there is one when any bit is unset; when the bitmap is a whole number of words, no longer range of that
    limit exists. *)
Theorem bitmap_longest_exact b max_length : wf b -> 0 <= max_length ->
  runs (find_longest_range_of_unset_bits b max_length) (fun '(r, length) =>
    0 <= length <= max_length
    /\ match r with
       | Some s => 0 < length /\ free_range b s length
       | None => length = 0 /\ (1 <= max_length -> forall i, 0 <= i < m_size b -> bit b i = true)
       end
    /\ (m_size b mod 64 = 0 -> forall a k, k <= max_length -> free_range b a k -> k <= length)).
Proof.
  intros Hwf Hm. pose proof (wf_size b Hwf) as Hs. unfold find_longest_range_of_unset_bits.
  eapply runs_bind; [apply (longest_loop_spec b max_length Hwf _ 0 0 0); [lia|]|].
  - split; [lia|]. split; [lia|]. split; [done|]. split; [lia|]. intros _ a k Ha _ [Ha0 _]. lia.
  - intros [s len] (H1 & H2 & H3 & H4). apply runs_ret. split; [done|]. split; [|done]. destruct (Z.eqb_spec len 0) as [E|E]; cbn [negb]; [split; [done|by apply H2]|]. split; [lia|apply H3; lia].
Qed.

Lemma bitmap_longest_exact_witness :
  runs (find_longest_range_of_unset_bits (example_bitmap 128) 100) (fun '(r, length) =>
    0 <= length <= 100
    /\ match r with
       | Some s => 0 < length /\ free_range (example_bitmap 128) s length
       | None => length = 0 /\ (1 <= 100 -> forall i, 0 <= i < m_size (example_bitmap 128) -> bit (example_bitmap 128) i = true)
       end
    /\ (m_size (example_bitmap 128) mod 64 = 0 -> forall a k, k <= 100 -> free_range (example_bitmap 128) a k -> k <= length)).
Proof.
  apply (bitmap_longest_exact (example_bitmap 128) 100); [|lia]. apply fill_spec. done.
Defined.

(** A run that reaches from the last word into the bits behind it is reported without the latter. *)
Lemma longest_range_misses_tail : find_longest_range_of_unset_bits (example_bitmap 70) 70 = Ok (Some 0, 64).
Proof. reflexivity. Qed.

(** Twenty free bits, then 44 used ones, then two free words: the best fit for ten bits never ends. *)
Definition fragmented_bitmap : Bitmap := mkBitmap ([0; 0; 240] ++ replicate 5 255 ++ replicate 16 0) 192.

Lemma best_fit_diverges fuel : best_fit_loop fuel fragmented_bitmap 10 0 0 max_size false = Panic.
Proof.
  assert (Hloop : forall fuel, best_fit_loop fuel fragmented_bitmap 10 84 0 20 true = Panic).
  { clear fuel. intros fuel. induction fuel as [|fuel IH]; [done|]. cbn [best_fit_loop].
    replace (find_next_range_of_unset_bits fragmented_bitmap 84 10 20) with (Ok (Some 20, 64)) by (by vm_compute). exact IH. }
  destruct fuel as [|[|fuel]]; [done|by vm_compute|]. cbn [best_fit_loop].
  replace (find_next_range_of_unset_bits fragmented_bitmap 0 10 max_size) with (Ok (Some 20, 0)) by (by vm_compute). cbn -[find_next_range_of_unset_bits best_fit_loop].
  replace (find_next_range_of_unset_bits fragmented_bitmap 20 10 20) with (Ok (Some 20, 64)) by (by vm_compute). apply Hloop.
Qed.

(** ** One bit anywhere *)
Section anywhere.
Context (b : Bitmap) (VALUE : bool).
Hypothesis Hwf : wf b.

(** None of the bits of the bytes from [i] to [j] has the value. *)
Definition without_value (i j : Z) : Prop := forall k, 8 * i <= k < 8 * j -> bit b k = negb VALUE.
Definition one_found (r : option Z) : Prop := match r with Some i => 0 <= i < 8 * size_in_bytes b /\ bit b i = VALUE | None => without_value 0 (size_in_bytes b) end.

Lemma byte_without p : 0 <= p -> m_data b !! Z.to_nat p = Some (if VALUE then 0 else 255) -> without_value p (p + 1).
Proof using Type.
  intros Hp E k Hk. unfold bit. pose proof (Z.div_mod k 8 ltac:(lia)). pose proof (mod8_range k). replace (k / 8) with p by lia. rewrite E.
  destruct VALUE; [apply Z.bits_0|]. change 255 with (Z.ones 8). apply Z.ones_spec_low. lia.
Qed.

Lemma bit_in_byte_spec i w : 0 <= i < size_in_bytes b -> m_data b !! Z.to_nat i = Some w -> w <> (if VALUE then 0 else 255) ->
  runs (bit_in_byte VALUE (m_data b) i) one_found.
Proof using Hwf.
  intros Hi Hw Hne. unfold bit_in_byte. rewrite (at_index_Z _ i _ ltac:(lia) Hw). assert (is_byte w) as Hbyte by (by eapply Forall_lookup_1; [apply Hwf|]).
  destruct (selected_byte VALUE w Hbyte Hne) as [Hxr Hx]. cbn [kbind outcome_monad]. set (x := if VALUE then w else wrap 8 (Z.lnot w)) in *.
  destruct (count_trailing_zeroes_spec 8 x Hxr) as (Hz & Ht & _). set (z := count_trailing_zeroes 8 x) in *. unfold bit_scan_forward. rewrite (proj2 (Z.eqb_neq x 0)) by lia. fold z.
  apply runs_ret. replace (i * 8 + (1 + z) - 1) with (z + i * 8) by lia. split; [lia|]. unfold bit. rewrite Z.div_add, (Z.div_small z), Z.add_0_l, Hw, Z.mod_add, Z.mod_small by lia.
  rewrite Hx in Ht by lia. by destruct (Z.testbit w z), VALUE.
Qed.

Lemma word_without p w : 0 <= w < 2 ^ 64 -> (forall j, 0 <= j < 64 -> Z.testbit w j = bit b (8 * p + j)) ->
  w = (if VALUE then 0 else 2 ^ 64 - 1) -> without_value p (p + 8).
Proof using Type.
  intros Hw Hb -> k Hk. replace k with (8 * p + (k - 8 * p)) by lia. rewrite <- Hb by lia. destruct VALUE; [apply Z.bits_0|]. change (2 ^ 64 - 1) with (Z.ones 64). apply Z.ones_spec_low. lia.
Qed.

Lemma bit_in_word_spec p w : 0 <= p -> p + 8 <= size_in_bytes b -> load_word 8 (m_data b) p = Ok w -> 0 <= w < 2 ^ 64 -> (forall j, 0 <= j < 64 -> Z.testbit w j = bit b (8 * p + j)) ->
  w <> (if VALUE then 0 else 2 ^ 64 - 1) -> runs (bit_in_word VALUE (m_data b) p) one_found.
Proof using Type.
  intros Hp Hp' E Hw Hb Hne. unfold bit_in_word. rewrite E. cbn [kbind outcome_monad]. set (x := if VALUE then w else wrap 64 (Z.lnot w)).
  assert (Hx : forall j, 0 <= j < 64 -> Z.testbit x j = eqb (Z.testbit w j) VALUE).
  { intros j Hj. subst x. destruct VALUE; [by destruct (Z.testbit w j)|]. rewrite lnot_bits by done. by destruct (Z.testbit w j). }
  assert (Hxr : 0 < x < 2 ^ Z.of_nat 64).
  { subst x. change (2 ^ Z.of_nat 64) with (2 ^ 64). destruct VALUE; [lia|]. assert (El : wrap 64 (Z.lnot w) = 2 ^ 64 - 1 - w) by (unfold wrap, Z.lnot; symmetry; apply Z.mod_unique with (-1); lia). lia. }
  destruct (count_trailing_zeroes_spec 64 x Hxr) as (Hz & Ht & _). set (z := count_trailing_zeroes 64 x) in *. unfold bit_scan_forward. rewrite (proj2 (Z.eqb_neq x 0)) by lia. fold z.
  apply runs_ret. replace (p * 8 + (1 + z) - 1) with (8 * p + z) by lia. change (Z.of_nat 64) with 64 in Hz. split; [lia|]. rewrite <- Hb, Hx in * by lia. by destruct (Z.testbit w z), VALUE.
Qed.

Lemma skip_words_spec n : forall p, 0 <= p -> p + 8 * Z.of_nat n <= size_in_bytes b ->
  runs (skip_words n (m_data b) (if VALUE then 0 else 2 ^ 64 - 1) p) (fun r => p <= r <= p + 8 * Z.of_nat n /\ (r - p) mod 8 = 0 /\ without_value p r
    /\ (r < p + 8 * Z.of_nat n -> r + 8 <= size_in_bytes b /\ runs (bit_in_word VALUE (m_data b) r) one_found)).
Proof using Hwf.
  induction n as [|n IH]; intros p Hp Hn; cbn [skip_words].
  { apply runs_ret. split; [lia|]. split; [by rewrite Z.sub_diag|]. split; [intros k; lia|lia]. }
  destruct (load_word_bits b 8 p Hwf Hp) as (w & E & Hw & Hb); [rewrite (wf_length b Hwf); lia|]. apply (runs_bind _ _ (eq w)); [by exists w|]. intros ? <-. destruct (Z.eqb_spec w (if VALUE then 0 else 2 ^ 64 - 1)) as [Ew|Ew].
  - eapply runs_mono; [apply (IH (p + 8)); lia|]. intros r (H1 & H2 & H3 & H4). pose proof (word_without p w Hw Hb Ew) as H0. split; [lia|]. split.
    { replace (r - p) with (r - (p + 8) + 1 * 8) by lia. by rewrite Z.mod_add. }
    split; [|intros; apply H4; lia]. intros k Hk. destruct (Z.lt_ge_cases k (8 * (p + 8))); [apply H0; lia|apply H3; lia].
  - apply runs_ret. split; [lia|]. split; [by rewrite Z.sub_diag|]. split; [intros k; lia|]. intros _. split; [lia|]. eapply bit_in_word_spec; [done|lia|exact E|exact Hw|exact Hb|done].
Qed.

Lemma skip_bytes_without p : 0 <= p <= size_in_bytes b ->
  runs (skip_bytes (Z.to_nat (size_in_bytes b - p)) (m_data b) (if VALUE then 0 else 255) p) (fun r => p <= r <= size_in_bytes b /\ without_value p r
    /\ (r <> size_in_bytes b -> runs (bit_in_byte VALUE (m_data b) r) one_found)).
Proof using Hwf.
  intros Hp. pose proof (wf_length b Hwf) as Hl. destruct (skip_bytes_spec (Z.to_nat (size_in_bytes b - p)) (m_data b) (if VALUE then 0 else 255) p) as (r & E & Hr & Hskip & Hstop); [lia|lia|].
  exists r. split; [done|]. split; [lia|]. split.
  - intros k Hk. assert (Hk8 : p <= k / 8 < r) by (pose proof (Z.div_mod k 8 ltac:(lia)); pose proof (mod8_range k); lia). apply (byte_without (k / 8)); [lia|by apply Hskip|].
    pose proof (Z.div_mod k 8 ltac:(lia)); pose proof (mod8_range k); lia.
  - intros Hne. destruct Hstop as (w & Hw & Hwv); [lia|]. eapply bit_in_byte_spec; [lia|exact Hw|done].
Qed.

Context (address : Z).
Hypothesis Haligned : address mod 8 = 0.

Lemma word_floor_aligned x : word_floor address x = x / 8 * 8.
Proof using Haligned.
  unfold word_floor. pose proof (Z.div_mod address 8 ltac:(lia)). replace (address + x) with (x + address / 8 * 8) by lia. rewrite Z.div_add by lia. lia.
Qed.

(** One round finds a bit, or there is none in the bytes it looks at. *)
Lemma find_one_round_spec fuel hint end_ : 0 <= hint -> hint / 8 / 8 * 8 <= end_ <= size_in_bytes b ->
  (end_ = size_in_bytes b \/ end_ mod 8 = 0) ->
  (without_value (hint / 8 / 8 * 8) (size_in_bytes b) ->
     runs (if hint <=? 8 then kret None else find_one_loop fuel VALUE address b 0 (hint / 8 / 8 * 8)) one_found) ->
  runs (find_one_loop (S fuel) VALUE address b hint end_) one_found.
Proof using Hwf Haligned.
  intros Hh He He' Hrec. cbn [find_one_loop]. rewrite !word_floor_aligned. set (p := hint / 8 / 8 * 8) in *. assert (Hp : 0 <= p) by (subst p; apply Z.mul_nonneg_nonneg; [|lia]; apply Z.div_pos; [apply Z.div_pos|]; lia).
  rewrite (proj2 (Z.ltb_ge p 0)) by done. apply (runs_bind _ _ (fun _ => True)); [by exists 0|]. intros i _. cbn [andb].
  assert (Hend : p <= end_ / 8 * 8 /\ end_ / 8 * 8 <= size_in_bytes b /\ (end_ / 8 * 8 - p) mod 8 = 0).
  { pose proof (Z.div_mod end_ 8 ltac:(lia)). pose proof (mod8_range end_). split; [subst p; nia|]. split; [lia|]. subst p. rewrite <- Z.mul_sub_distr_r. apply Z.mod_mul. lia. }
  destruct Hend as (H1 & H2 & H3). assert (Hn : 8 * Z.of_nat (Z.to_nat ((end_ / 8 * 8 - p) / 8)) = end_ / 8 * 8 - p).
  { pose proof (Z.div_mod (end_ / 8 * 8 - p) 8 ltac:(lia)). rewrite Z2Nat.id by (apply Z.div_pos; lia). lia. }
  eapply runs_bind; [apply (skip_words_spec _ p Hp); lia|]. cbv beta. rewrite Hn. intros r (Hr & _ & Hwo & Hbit). destruct (Z.eqb_spec r (end_ / 8 * 8)) as [Er|Er].
  - rewrite (proj2 (Z.ltb_ge _ _)) by lia. eapply runs_bind; [apply (skip_bytes_without r); lia|]. intros q (Hq & Hwo' & Hbyte). destruct (Z.eqb_spec q (size_in_bytes b)) as [Eq|Eq]; [|by apply Hbyte].
    apply Hrec. subst q. intros k Hk. destruct (Z.lt_ge_cases k (8 * r)); [apply Hwo|apply Hwo']; lia.
  - apply Hbit. lia.
Qed.

Lemma find_one_anywhere_spec hint : 0 <= hint < m_size b -> runs (find_one_anywhere VALUE address b hint) one_found.
Proof using Hwf Haligned.
  intros Hh. unfold find_one_anywhere. rewrite (proj2 (Z.ltb_lt _ _)) by lia. cbn [negb]. pose proof (size_in_bytes_bounds b ltac:(lia)) as Hs.
  pose proof (Z.div_mod hint 8 ltac:(lia)). pose proof (mod8_range hint). pose proof (Z.div_mod (hint / 8) 8 ltac:(lia)). pose proof (mod8_range (hint / 8)).
  assert (0 <= hint / 8 / 8 * 8 <= size_in_bytes b) by lia.
  apply find_one_round_spec; [lia|lia|by left|]. intros Hafter. destruct (Z.leb_spec hint 8) as [Hle|Hgt].
  - apply runs_ret. intros k Hk. apply Hafter. lia.
  - apply find_one_round_spec; [lia|change (0 / 8 / 8 * 8) with 0; lia|right; apply Z.mod_mul; lia|]. change (0 / 8 / 8 * 8) with 0. intros Hall. by apply runs_ret.
Qed.
End anywhere.

(** [find_one_anywhere], on data that is aligned as the memory of a bitmap is, finds a bit with the wanted value
    wherever the hint lies whenever there is one, looking at whole words first, and reads nothing outside the bitmap.
    The bits that fill up the last byte count as part of the bitmap. *)
Theorem bitmap_find_one_anywhere_exact VALUE address b hint : wf b -> address mod 8 = 0 -> 0 <= hint < m_size b ->
  runs (find_one_anywhere VALUE address b hint) (fun r => match r with
    | Some i => 0 <= i < 8 * size_in_bytes b /\ bit b i = VALUE
    | None => forall k, 0 <= k < 8 * size_in_bytes b -> bit b k = negb VALUE
    end).
Proof. intros Hwf Ha Hh. apply (find_one_anywhere_spec b VALUE Hwf address Ha hint Hh). Qed.

Lemma bitmap_find_one_anywhere_exact_witness :
  runs (find_one_anywhere false 4096 (example_bitmap 200) 100) (fun r => match r with
    | Some i => 0 <= i < 8 * size_in_bytes (example_bitmap 200) /\ bit (example_bitmap 200) i = false
    | None => forall k, 0 <= k < 8 * size_in_bytes (example_bitmap 200) -> bit (example_bitmap 200) k = negb false
    end).
Proof. apply (bitmap_find_one_anywhere_exact false 4096 (example_bitmap 200) 100); [by apply fill_spec|done|done]. Defined.

(** With data just before a word boundary and a hint of eight the first byte is never looked at. *)
Lemma find_one_anywhere_misses_first_byte : find_one_anywhere true 7 (mkBitmap [1; 0] 16) 8 = Ok None /\ bit (mkBitmap [1; 0] 16) 0 = true.
Proof. done. Qed.
