(* ===== verification/KernelHeap.v ===== *)
(** * The kernel heap: Kernel/Heap/Heap.h

    A heap is a piece of memory cut into chunks, with a bitmap of the used ones behind
    them.  A block starts with a header that holds its length in chunks; the pointer that
    the caller gets, 16 bytes further, lies on the grid of the chunks, so that the header
    is at the end of the first chunk of the block and the last bytes of the block are at
    the start of the chunk behind it.

    The state has the chunks' memory as bytes, headers included ([memory]), and the
    theorems keep beside it the live blocks as a finite map from pointers to lengths.  The
    system is closed: the clients may write anything into the blocks they own.  The
    theorems: no assertion fails and no access leaves the bitmap; a new block is aligned,
    large enough, inside the heap and disjoint from every live block; neither operation
    writes to a block of somebody else; a request fails only when there is no room for it
    and its alignment; freeing a pointer that is not allocated is caught; and the counter
    is exact, so that nothing leaks. *)

From S2P Require Import Prelude StdLibExtras MemMem Bitmap BitmapSearch.

(** ** Memory *)
Fixpoint load_bytes (n : nat) (mem : Z -> Z) (a : Z) : Z :=
  match n with
  | O => 0
  | S n => mem a + 256 * load_bytes n mem (a + 1)
  end.
(** A [size_t] in memory *)
Definition load_size (mem : Z -> Z) (a : Z) : Z := load_bytes 8 mem a.
Definition store_size (mem : Z -> Z) (a v : Z) : Z -> Z :=
  fun x => if (a <=? x) && (x <? a + 8) then Z.shiftr v (8 * (x - a)) mod 256 else mem x.
Definition set_memory (mem : Z -> Z) (a v n : Z) : Z -> Z :=
  fun x => if (a <=? x) && (x <? a + n) then v mod 256 else mem x.

(** ** Heap *)
Record Heap := mkHeap { m_total_chunks : Z; m_allocated_chunks : Z; m_chunks : Z; m_bitmap : Bitmap; memory : Z -> Z }.

(** [sizeof(AllocationHeader)] *)
Definition AllocationHeaderSize : Z := 16.

Section heap.
Context (CHUNK_SIZE HEAP_SCRUB_BYTE_ALLOC HEAP_SCRUB_BYTE_FREE : Z).

Definition calculate_chunks (memory_size : Z) : Z := memory_size / (CHUNK_SIZE + 1).

(** [bits] is what the memory behind the chunks holds. *)
Definition Heap_new (mem : Z -> Z) (base memory_size : Z) (bits : list Z) : outcome Heap :=
  let total := calculate_chunks memory_size in
  if negb (total * CHUNK_SIZE + (total + 7) / 8 <=? memory_size) then Panic else
  kret (mkHeap total 0 base (mkBitmap bits total) mem).

Definition free_chunks (h : Heap) : Z := wrap 64 (m_total_chunks h - m_allocated_chunks h).

Definition allocation_header (ptr : Z) : Z := wrap 64 (ptr - AllocationHeaderSize).

Definition best_fit_threshold : Z := 128.

Definition allocate (h : Heap) (size alignment : Z) (caller_will_initialize_memory : bool) : outcome (option Z * Heap) :=
  let alignment := if alignment <? CHUNK_SIZE then CHUNK_SIZE else alignment in
  let real_size := wrap 64 (size + AllocationHeaderSize) in
  let chunks_needed := wrap 64 (real_size + CHUNK_SIZE - 1) / CHUNK_SIZE in
  let chunk_alignment := wrap 64 (alignment + CHUNK_SIZE - 1) / CHUNK_SIZE in
  if free_chunks h <? chunks_needed then kret (None, h) else
  first_chunk ← (if chunks_needed <? best_fit_threshold then find_first_fit (m_bitmap h) (chunks_needed + chunk_alignment)
                 else find_best_fit (m_bitmap h) (chunks_needed + chunk_alignment));
  match first_chunk with
  | None => kret (None, h)
  | Some first_chunk =>
      let a := wrap 64 (m_chunks h + first_chunk * CHUNK_SIZE) in
      let a := wrap 64 (a + alignment - wrap 64 (a + AllocationHeaderSize) mod alignment) in
      let aligned_first_chunk := wrap 64 (a - m_chunks h) / CHUNK_SIZE in
      if negb (first_chunk <=? aligned_first_chunk) then Panic else
      if negb (aligned_first_chunk + chunks_needed <=? first_chunk + chunks_needed + chunk_alignment) then Panic else
      let ptr := wrap 64 (a + AllocationHeaderSize) in
      let mem := store_size (memory h) a chunks_needed in
      bitmap ← set_range true true (m_bitmap h) aligned_first_chunk chunks_needed;
      let mem := if negb caller_will_initialize_memory && negb (HEAP_SCRUB_BYTE_ALLOC =? 0)
                 then set_memory mem ptr HEAP_SCRUB_BYTE_ALLOC (chunks_needed * CHUNK_SIZE - AllocationHeaderSize) else mem in
      if negb (ptr mod alignment =? 0) then Panic else
      kret (Some ptr, mkHeap (m_total_chunks h) (wrap 64 (m_allocated_chunks h + chunks_needed)) (m_chunks h) bitmap mem)
  end.

Definition deallocate (h : Heap) (ptr : Z) : outcome Heap :=
  if ptr =? 0 then kret h else
  let a := allocation_header ptr in
  if negb ((m_chunks h <=? a) && (ptr <? m_chunks h + m_total_chunks h * CHUNK_SIZE)) then Panic else
  let start := wrap 64 (a - m_chunks h) / CHUNK_SIZE in
  used ← get (m_bitmap h) start;
  if negb used then Panic else
  let size_in_chunks := load_size (memory h) a in
  if negb (wrap 64 (a + wrap 64 (size_in_chunks * CHUNK_SIZE)) <=? m_chunks h + m_total_chunks h * CHUNK_SIZE) then Panic else
  bitmap ← set_range false true (m_bitmap h) start size_in_chunks;
  if negb (size_in_chunks <=? m_allocated_chunks h) then Panic else
  let mem := if negb (HEAP_SCRUB_BYTE_FREE =? 0) then set_memory (memory h) a HEAP_SCRUB_BYTE_FREE (size_in_chunks * CHUNK_SIZE) else memory h in
  kret (mkHeap (m_total_chunks h) (m_allocated_chunks h - size_in_chunks) (m_chunks h) bitmap mem).

Definition heap_contains (h : Heap) (ptr : Z) : bool :=
  let a := allocation_header ptr in
  if a <? m_chunks h then false else
  if m_chunks h + m_total_chunks h * CHUNK_SIZE <=? ptr then false else true.
End heap.

(** ** Memory *)
Lemma load_bytes_ext n mem mem' a : (forall x, a <= x < a + Z.of_nat n -> mem' x = mem x) -> load_bytes n mem' a = load_bytes n mem a.
Proof. revert a. induction n as [|n IH]; intros a H; cbn [load_bytes]; [done|]. rewrite H, IH by (try intros; try apply H; lia). done. Qed.

Lemma load_bytes_store n mem a v : forall k, 0 <= k -> (Z.to_nat k + n = 8)%nat -> load_bytes n (store_size mem a v) (a + k) = Z.shiftr v (8 * k) mod 2 ^ (8 * Z.of_nat n).
Proof.
  induction n as [|n IH]; intros k Hk Hn; cbn [load_bytes]; [by rewrite Z.mod_1_r|]. replace (a + k + 1) with (a + (k + 1)) by lia. rewrite IH by lia.
  unfold store_size. rewrite (proj2 (Z.leb_le _ _)), (proj2 (Z.ltb_lt _ _)) by lia. cbn [andb]. replace (a + k - a) with k by lia.
  replace (8 * (k + 1)) with (8 * k + 8) by lia. rewrite <- Z.shiftr_shiftr by lia. set (w := Z.shiftr v (8 * k)). rewrite (Z.shiftr_div_pow2 w) by lia. change (2 ^ 8) with 256.
  replace (8 * Z.of_nat (S n)) with (8 + 8 * Z.of_nat n) by lia. rewrite Z.pow_add_r by lia. change (2 ^ 8) with 256. rewrite Z.rem_mul_r by lia. done.
Qed.

Lemma load_store_size mem a v : 0 <= v < 2 ^ 64 -> load_size (store_size mem a v) a = v.
Proof. intros Hv. pose proof (load_bytes_store 8 mem a v 0 ltac:(lia) eq_refl) as H. rewrite Z.add_0_r in H. unfold load_size. rewrite H. apply Z.mod_small. done. Qed.

(** [mem'] differs from [mem] only in the [n] bytes from [a] on. *)
Definition writes (mem mem' : Z -> Z) (a n : Z) : Prop := forall x, ~ a <= x < a + n -> mem' x = mem x.

Lemma store_size_writes mem a v n : 8 <= n -> writes mem (store_size mem a v) a n.
Proof. intros Hn x Hx. unfold store_size. destruct (Z.leb_spec a x), (Z.ltb_spec x (a + 8)); (done || lia). Qed.

Lemma set_memory_writes mem a v n a' n' : a' <= a -> a + n <= a' + n' -> writes mem (set_memory mem a v n) a' n'.
Proof. intros H1 H2 x Hx. unfold set_memory. destruct (Z.leb_spec a x), (Z.ltb_spec x (a + n)); (done || lia). Qed.

Lemma writes_trans mem1 mem2 mem3 a n : writes mem1 mem2 a n -> writes mem2 mem3 a n -> writes mem1 mem3 a n.
Proof. intros H1 H2 x Hx. by rewrite H2, H1. Qed.

Lemma load_size_writes mem mem' a n a' : writes mem mem' a n -> a' + 8 <= a \/ a + n <= a' -> load_size mem' a' = load_size mem a'.
Proof. intros H Hd. apply load_bytes_ext. intros x Hx. apply H. lia. Qed.

(** ** Ranges of which all bits change *)
Lemma update_byte_flip V b p mask : wf b -> 0 <= p < Z.of_nat (length (m_data b)) -> is_byte mask ->
  (forall j, 0 <= j < 8 -> Z.testbit mask j = true -> bit b (8 * p + j) = negb V) ->
  update_byte V true (m_data b) p mask = update_byte V false (m_data b) p mask.
Proof.
  intros Hwf Hp Hm Hb. unfold update_byte. destruct (lookup_lt_is_Some_2 (m_data b) (Z.to_nat p)) as [w Hw]; [lia|].
  rewrite (at_index_Z _ p _ ltac:(lia) Hw). cbn [kbind outcome_monad andb]. rewrite (proj2 (Z.eqb_eq _ _)); [done|].
  apply Z.bits_inj. intros j. rewrite Z.land_spec. apply is_byte_bits in Hm as [_ Hm]. assert (Hj : (0 <= j < 8) \/ Z.testbit mask j = false).
  { destruct (Z.ltb_spec j 0); [right; by apply Z.testbit_neg_r|]. destruct (Z.ltb_spec j 8); [left; lia|right; by apply Hm]. }
  assert (Hbit : 0 <= j < 8 -> bit b (8 * p + j) = Z.testbit w j).
  { intros Hj'. unfold bit. rewrite (Z.mul_comm 8 p), Z.div_add_l, (Z.div_small j), Z.add_0_r, Hw by lia. by rewrite Z.add_comm, Z.mod_add, Z.mod_small by lia. }
  destruct (Z.testbit mask j) eqn:Em.
  - destruct Hj as [Hj|]; [|done]. rewrite <- Hbit, (Hb j Hj Em) by done. destruct V; [by rewrite Z.bits_0|done].
  - rewrite andb_false_r. destruct V; [by rewrite Z.bits_0|done].
Qed.

Lemma set_range_flip V b start len :
  wf b -> 0 <= start < m_size b -> 0 < len -> start + len <= m_size b -> range_in_bounds b start len ->
  (forall j, start <= j < start + len -> bit b j = negb V) ->
  exists b', set_range V true b start len = Ok b' /\ changed b b' V (fun j => (start <=? j) && (j <? start + len)).
Proof.
  intros Hwf Hs Hlen Hend Hb Hall. destruct (set_range_spec V b start len Hwf Hs Hlen Hend Hb) as (b' & E & Hch). exists b'. split; [|done]. rewrite <- E. unfold set_range, range_in_bounds in *.
  rewrite (proj2 (Z.ltb_lt start _)), (proj2 (Z.leb_le _ (m_size b))), (proj2 (Z.eqb_neq len 0)) by lia. cbn [negb].
  destruct (first_mask (start mod 8) (mod8_range _)) as (m1 & -> & Hm1 & Hbits1). destruct (last_mask ((start + len) mod 8) (mod8_range _)) as (m2 & -> & Hm2 & Hbits2).
  cbn [kbind outcome_monad]. rewrite <- (wf_length b Hwf) in Hb. pose proof (Z.div_mod start 8 ltac:(lia)). pose proof (Z.div_mod (start + len) 8 ltac:(lia)). pose proof (mod8_range start). pose proof (mod8_range (start + len)).
  destruct (Z.eqb_spec (start / 8) ((start + len) / 8)) as [E8|E8].
  - rewrite update_byte_flip; [done|done|lia|by apply is_byte_land; [|apply Hm2]|]. intros j Hj. rewrite Z.land_spec, Hbits1, Hbits2 by done. intros [H3%Z.leb_le H4%Z.ltb_lt]%andb_true_iff. apply Hall. lia.
  - unfold set_across. rewrite update_byte_flip; [|done|lia|done|]. 2:{ intros j Hj. rewrite Hbits1 by done. intros H3%Z.leb_le. apply Hall. lia. }
    destruct (update_byte_spec V b (start / 8) m1) as (b1 & -> & H3 & H4 & H5); [done|lia|done|]. cbn [kbind outcome_monad].
    assert (L1 : length (m_data b1) = length (m_data b)) by (by eapply changed_length; [|split; [exact H3|split; [exact H4|exact H5]]]).
    rewrite update_byte_flip; [done|done|lia|done|]. intros j Hj. rewrite Hbits2 by done. intros H6%Z.ltb_lt. rewrite H5 by lia.
    replace ((8 * ((start + len) / 8) + j) / 8) with ((start + len) / 8) by (apply Z.div_unique with j; lia). rewrite (proj2 (Z.eqb_neq ((start + len) / 8) _)) by lia. cbn [andb]. apply Hall. lia.
Qed.

(** The number of set bits after a range of bits has changed *)
Lemma csum_const f (v : bool) a n : (forall i, a <= i < a + Z.of_nat n -> f i = v) -> csum f a n = if v then Z.of_nat n else 0.
Proof.
  revert a. induction n as [|n IH]; intros a H; cbn [csum]; [by destruct v|]. rewrite H, IH by (try intros; try apply H; lia). destruct v; cbn; lia.
Qed.

Lemma csum_change f g (v : bool) start len total : 0 <= start -> 0 <= len -> start + len <= total ->
  (forall i, 0 <= i -> g i = if (start <=? i) && (i <? start + len) then v else f i) -> (forall i, start <= i < start + len -> f i = negb v) ->
  csum g 0 (Z.to_nat total) = csum f 0 (Z.to_nat total) + (if v then len else - len).
Proof.
  intros Hs Hl Ht Hg Hf. replace (Z.to_nat total) with (Z.to_nat start + (Z.to_nat len + Z.to_nat (total - start - len)))%nat by lia. rewrite !csum_app, !Z.add_0_l, !Z2Nat.id by lia.
  rewrite (csum_ext g f 0), (csum_ext g f (start + len)), (csum_const g v start), (csum_const f (negb v) start).
  - destruct v; cbn; rewrite ?Z2Nat.id by lia; lia.
  - intros i Hi. apply Hf. lia.
  - intros i Hi. rewrite Hg by lia. by rewrite (proj2 (Z.leb_le _ _)), (proj2 (Z.ltb_lt _ _)) by lia.
  - intros i Hi. rewrite Hg by lia. rewrite (proj2 (Z.ltb_ge _ _)) by lia. by rewrite andb_false_r.
  - intros i Hi. rewrite Hg by lia. by rewrite (proj2 (Z.leb_gt _ _)) by lia.
Qed.

(** ** The invariant *)
Section invariant.
Context (CS SA SF : Z).
Hypothesis Hcs : 16 < CS.
Hypothesis Hcs64 : CS <= 2 ^ 32.

#[local] Notation blocks := (gmap Z Z).

(** A block of [n] chunks whose data starts at [ptr], with its header *)
Record block (h : Heap) (ptr n : Z) : Prop := {
  bl_index : exists k, ptr = m_chunks h + (k + 1) * CS /\ 0 <= k /\ k + n < m_total_chunks h /\ forall i, k <= i < k + n -> bit (m_bitmap h) i = true;
  bl_length : 1 <= n;
  bl_header : load_size (memory h) (ptr - 16) = n }.

Definition apart (ptr n ptr' n' : Z) : Prop := ptr + n * CS <= ptr' \/ ptr' + n' * CS <= ptr.

Record geometry (h : Heap) : Prop := {
  ge_base : 0 < m_chunks h /\ m_chunks h mod CS = 0;
  ge_total : 0 <= m_total_chunks h <= max_size;
  ge_end : m_chunks h + m_total_chunks h * CS < 2 ^ 64;
  ge_bitmap : wf (m_bitmap h) /\ m_size (m_bitmap h) = m_total_chunks h }.

Record heap_inv (h : Heap) (live : blocks) : Prop := {
  hi_geometry : geometry h;
  hi_block : forall ptr n, live !! ptr = Some n -> block h ptr n;
  hi_apart : forall ptr n ptr' n', live !! ptr = Some n -> live !! ptr' = Some n' -> ptr <> ptr' -> apart ptr n ptr' n';
  hi_used : forall i, 0 <= i < m_total_chunks h -> bit (m_bitmap h) i = true ->
    exists ptr n, live !! ptr = Some n /\ ptr <= m_chunks h + (i + 1) * CS < ptr + n * CS;
  hi_count : m_allocated_chunks h = csum (bit (m_bitmap h)) 0 (Z.to_nat (m_total_chunks h)) }.

Lemma allocated_bound h live : heap_inv h live -> 0 <= m_allocated_chunks h <= m_total_chunks h.
Proof using Type. intros H. rewrite (hi_count h live H). pose proof (csum_bound (bit (m_bitmap h)) 0 (Z.to_nat (m_total_chunks h))). pose proof (ge_total h (hi_geometry h live H)). lia. Qed.

Lemma free_chunks_exact h live : heap_inv h live -> free_chunks h = m_total_chunks h - m_allocated_chunks h.
Proof using Type.
  intros H. pose proof (allocated_bound h live H). pose proof (ge_total h (hi_geometry h live H)) as Ht. unfold max_size in Ht. unfold free_chunks. apply Z.mod_small. lia.
Qed.

(** The bits of a live block, compared with a range of unset bits *)
Lemma unset_apart h live ptr n k len : heap_inv h live -> live !! ptr = Some n -> unset (m_bitmap h) k (k + len) -> 0 < len ->
  apart (m_chunks h + (k + 1) * CS) len ptr n.
Proof using Hcs.
  intros H Hl Hu Hlen. destruct (hi_block h live H ptr n Hl) as [(k' & -> & Hk' & _ & Hb) Hn _]. unfold apart.
  destruct (Z.le_gt_cases (k + len) k') as [|H1]; [left; nia|]. destruct (Z.le_gt_cases (k' + n) k) as [|H2]; [right; nia|]. exfalso.
  assert (Hset : bit (m_bitmap h) (Z.max k k') = true) by (apply Hb; lia). rewrite Hu in Hset by lia. done.
Qed.

(** What a heap becomes when a block is written and its bits are changed *)
Definition heap_with (h : Heap) (allocated : Z) (bitmap : Bitmap) (mem : Z -> Z) : Heap := mkHeap (m_total_chunks h) allocated (m_chunks h) bitmap mem.

Lemma geometry_with h allocated bitmap mem V p : geometry h -> changed (m_bitmap h) bitmap V p -> geometry (heap_with h allocated bitmap mem).
Proof using Type. intros [H1 H2 H3 [_ H4]] (Hw & Hs & _). split; [done|done|done|]. split; [done|]. cbn. by rewrite Hs. Qed.

Lemma block_kept h bitmap allocated mem ptr n p len V k :
  block h ptr n -> writes (memory h) mem (p - 16) (len * CS) -> apart p len ptr n -> p = m_chunks h + (k + 1) * CS -> 0 <= k -> 1 <= len ->
  changed (m_bitmap h) bitmap V (fun j => (k <=? j) && (j <? k + len)) -> block (heap_with h allocated bitmap mem) ptr n.
Proof using Hcs.
  intros [(k' & -> & Hk' & He & Hb) Hn Hh] Hw Ha -> Hk Hlen (_ & _ & Hch). split; [|done|].
  - exists k'. split; [done|]. split; [done|]. split; [done|]. intros i Hi. cbn. rewrite Hch by lia. rewrite Hb by lia.
    destruct (Z.leb_spec k i), (Z.ltb_spec i (k + len)); try done. exfalso. unfold apart in Ha. destruct Ha as [Ha|Ha]; nia.
  - cbn. transitivity (load_size (memory h) (m_chunks h + (k' + 1) * CS - 16)); [|done]. eapply load_size_writes; [exact Hw|]. unfold apart in Ha. nia.
Qed.

(** ** A new block *)
Lemma insert_block h live k len bitmap mem :
  heap_inv h live -> 0 <= k -> 1 <= len -> k + len < m_total_chunks h -> unset (m_bitmap h) k (k + len) ->
  changed (m_bitmap h) bitmap true (fun j => (k <=? j) && (j <? k + len)) ->
  let ptr := m_chunks h + (k + 1) * CS in
  writes (memory h) mem (ptr - 16) (len * CS) -> load_size mem (ptr - 16) = len ->
  live !! ptr = None /\ heap_inv (heap_with h (m_allocated_chunks h + len) bitmap mem) (<[ptr := len]> live).
Proof using Hcs.
  intros H Hk Hlen He Hu Hch ptr Hw Hh. pose proof (unset_apart h live) as Hap. assert (Hnew : live !! ptr = None).
  { destruct (live !! ptr) as [n|] eqn:E; [|done]. exfalso. pose proof (bl_length h ptr n (hi_block h live H ptr n E)). destruct (Hap ptr n k len H E Hu) as [Ha|Ha]; unfold ptr in *; nia. }
  split; [done|]. pose proof Hch as (Hwf & Hsz & Hbits). split.
  - eapply geometry_with; [apply H|exact Hch].
  - intros p n. rewrite lookup_insert_Some. intros [[<- <-]|[Hne Hl]].
    + split; [|done|done]. exists k. split; [done|]. split; [done|]. split; [done|]. intros i Hi. cbn. rewrite Hbits by lia. by rewrite (proj2 (Z.leb_le _ _)), (proj2 (Z.ltb_lt _ _)) by lia.
    + eapply block_kept; [by apply (hi_block h live H)|exact Hw|apply (Hap p n k len H Hl Hu); lia|done|done|done|exact Hch].
  - intros p n p' n'. rewrite !lookup_insert_Some. intros [[<- <-]|[Hne Hl]] [[<- <-]|[Hne' Hl']] Hpp; [done| | |by apply (hi_apart h live H)].
    + apply (Hap p' n' k len H Hl' Hu); lia.
    + destruct (Hap p n k len H Hl Hu); [lia|by right|by left].
  - intros i Hi. cbn. rewrite Hbits by lia. destruct (Z.leb_spec k i), (Z.ltb_spec i (k + len)); cbn [andb].
    + intros _. exists ptr, len. split; [by rewrite lookup_insert_eq|]. unfold ptr. nia.
    + intros Hb. destruct (hi_used h live H i Hi Hb) as (p & n & Hl & Hp). exists p, n. rewrite lookup_insert_ne by (intros <-; congruence). done.
    + intros Hb. destruct (hi_used h live H i Hi Hb) as (p & n & Hl & Hp). exists p, n. rewrite lookup_insert_ne by (intros <-; congruence). done.
    + intros Hb. destruct (hi_used h live H i Hi Hb) as (p & n & Hl & Hp). exists p, n. rewrite lookup_insert_ne by (intros <-; congruence). done.
  - cbn. rewrite (hi_count h live H). symmetry. apply (csum_change _ _ true k len); [lia|lia|lia|done|]. intros i Hi. by apply Hu.
Qed.

(** ** A block that is given back *)
Lemma delete_block h live ptr n bitmap mem k :
  heap_inv h live -> live !! ptr = Some n -> ptr = m_chunks h + (k + 1) * CS -> 0 <= k ->
  changed (m_bitmap h) bitmap false (fun j => (k <=? j) && (j <? k + n)) -> writes (memory h) mem (ptr - 16) (n * CS) ->
  heap_inv (heap_with h (m_allocated_chunks h - n) bitmap mem) (delete ptr live).
Proof using Hcs.
  intros H Hl Ep Hk Hch Hw. pose proof (hi_block h live H ptr n Hl) as [(k' & Ek & _ & He & Hb) Hn _]. assert (k' = k) as -> by nia. pose proof Hch as (Hwf & Hsz & Hbits). split.
  - eapply geometry_with; [apply H|exact Hch].
  - intros p m [Hne Hp]%lookup_delete_Some. eapply block_kept; [by apply (hi_block h live H)|exact Hw|by apply (hi_apart h live H)|done|done|done|exact Hch].
  - intros p m p' m' [_ Hp]%lookup_delete_Some [_ Hp']%lookup_delete_Some. by apply (hi_apart h live H).
  - intros i Hi. cbn. rewrite Hbits by lia. destruct ((k <=? i) && (i <? k + n)) eqn:Ei; [done|]. intros Hbi. destruct (hi_used h live H i Hi Hbi) as (p & m & Hp & Hr). exists p, m.
    split; [|done]. apply lookup_delete_Some. split; [|done]. intros <-. rewrite Hl in Hp. injection Hp as <-. rewrite Ep in Hr. destruct (Z.leb_spec k i), (Z.ltb_spec i (k + n)); (done || nia).
  - cbn. rewrite (hi_count h live H). symmetry. rewrite (csum_change (bit (m_bitmap h)) (bit bitmap) false k n); [lia|lia|lia|lia|done|done].
Qed.

(** ** allocate *)
(** The chunks and the alignment, in chunks, of a request *)
Definition chunks_for (size : Z) : Z := (size + 16 + CS - 1) / CS.
Definition real_alignment (alignment : Z) : Z := if alignment <? CS then CS else alignment.

Record request (size alignment : Z) : Prop := {
  rq_size : 0 <= size /\ size + 16 + CS <= 2 ^ 64;
  rq_alignment : 1 <= alignment <= 2 ^ 63;
  rq_multiple : alignment < CS \/ alignment mod CS = 0 }.

Lemma chunks_for_bounds size : 0 <= size -> 1 <= chunks_for size /\ size + 16 <= chunks_for size * CS < size + 16 + CS.
Proof using Hcs Hcs64.
  intros Hs. unfold chunks_for. pose proof (Z.div_mod (size + 16 + CS - 1) CS ltac:(lia)). pose proof (Z.mod_pos_bound (size + 16 + CS - 1) CS ltac:(lia)). nia.
Qed.

Lemma real_alignment_multiple size alignment : request size alignment -> exists c, real_alignment alignment = c * CS /\ 1 <= c /\ real_alignment alignment <= 2 ^ 63.
Proof using Hcs Hcs64.
  intros [_ Ha Hm]. unfold real_alignment. destruct (Z.ltb_spec alignment CS); [exists 1; lia|]. destruct Hm as [|Hm]; [lia|]. exists (alignment / CS).
  pose proof (Z.div_mod alignment CS ltac:(lia)). split; [lia|]. split; [|lia]. nia.
Qed.

(** Aligning the header's end: the data starts on the grid of the chunks. *)
Lemma placed base first c : base mod CS = 0 -> 1 <= c ->
  exists k, base + first * CS + c * CS - (base + first * CS + 16) mod (c * CS) = base + (k + 1) * CS - 16
    /\ first <= k < first + c /\ (base + (k + 1) * CS) mod (c * CS) = 0.
Proof using Hcs Hcs64.
  intros Hb Hc. set (x := base + first * CS + 16). set (q := x / (c * CS)). pose proof (Z.div_mod x (c * CS) ltac:(nia)) as Hd. fold q in Hd. pose proof (Z.mod_pos_bound x (c * CS) ltac:(nia)) as Hr.
  pose proof (Z.div_mod base CS ltac:(lia)) as Hbd. rewrite Hb in Hbd. set (bq := base / CS) in *. exists (c * (q + 1) - bq - 1).
  assert (E : base + (c * (q + 1) - bq - 1 + 1) * CS = (q + 1) * (c * CS)) by nia. rewrite E. split; [unfold x in *; nia|]. split; [|apply Z.mod_mul; nia].
  assert (H1 : x < (q + 1) * (c * CS) <= x + c * CS) by nia. rewrite <- E in H1. unfold x in H1. nia.
Qed.

Lemma fit_spec b n m : wf b -> m_size b <= max_size -> 1 <= n <= m ->
  runs (if n <? best_fit_threshold then find_first_fit b m else find_best_fit b m)
    (fun r => match r with Some s => free_range b s m | None => forall a, ~ free_range b a m end).
Proof using Type.
  intros Hwf Hs Hn. unfold best_fit_threshold. destruct (Z.ltb_spec n 128) as [Hlt|Hge].
  - eapply runs_mono; [apply find_first_fit_spec; [done|lia]|]. intros [s|] H; [apply H|done].
  - destruct (Z.le_gt_cases m max_size) as [Hm|Hm]; [apply find_best_fit_spec; [done|lia]|].
    unfold find_best_fit. cbn [best_fit_loop]. unfold find_next_range_of_unset_bits. rewrite (proj2 (Z.ltb_lt _ _)) by done. apply runs_ret.
    intros a (Ha & He & _). lia.
Qed.

(** What a request gets *)
Definition allocated (h : Heap) (live : blocks) (size alignment : Z) (r : option Z * Heap) : Prop :=
  let n := chunks_for size in
  let c := real_alignment alignment / CS in
  match r with
  | (Some ptr, h') =>
      heap_inv h' (<[ptr := n]> live) /\ live !! ptr = None /\ ptr mod real_alignment alignment = 0
      /\ m_chunks h <= ptr - 16 /\ ptr - 16 + n * CS <= m_chunks h + m_total_chunks h * CS /\ m_allocated_chunks h' = m_allocated_chunks h + n
      /\ (forall p m, live !! p = Some m -> apart ptr n p m) /\ writes (memory h) (memory h') (ptr - 16) (n * CS)
  | (None, h') => h' = h /\ (m_total_chunks h < m_allocated_chunks h + n \/ forall a, ~ free_range (m_bitmap h) a (n + c))
  end.

Lemma allocate_numbers size alignment : request size alignment -> forall c, real_alignment alignment = c * CS ->
  wrap 64 (wrap 64 (size + 16) + CS - 1) / CS = chunks_for size /\ wrap 64 (real_alignment alignment + CS - 1) / CS = c /\ real_alignment alignment / CS = c.
Proof using Hcs Hcs64.
  intros Hrq c Ec. destruct Hrq as [Hs Ha Hm]. assert (Hr : real_alignment alignment <= 2 ^ 63) by (unfold real_alignment; destruct (alignment <? CS); lia).
  assert (Hc0 : 0 < c * CS) by (rewrite <- Ec; unfold real_alignment; destruct (Z.ltb_spec alignment CS); lia).
  unfold wrap. rewrite (Z.mod_small (size + 16)) by lia. rewrite !Z.mod_small by lia. split; [done|]. rewrite Ec. split; [|apply Z.div_mul; lia]. symmetry. apply Z.div_unique with (CS - 1); nia.
Qed.

Lemma allocate_spec h live size alignment init : heap_inv h live -> request size alignment ->
  runs (allocate CS SA h size alignment init) (allocated h live size alignment).
Proof using Hcs Hcs64.
  intros H Hrq. pose proof (hi_geometry h live H) as [[Hb0 Hb] Ht He [Hwf Hsz]]. destruct (real_alignment_multiple size alignment Hrq) as (c & Ec & Hc & Hc63). destruct (allocate_numbers size alignment Hrq c Ec) as (En & Eca & Ecd).
  destruct (chunks_for_bounds size) as [Hn1 Hn2]; [apply Hrq|]. pose proof (rq_size _ _ Hrq) as Hsz'.
  unfold allocate. fold (real_alignment alignment). unfold AllocationHeaderSize. cbv zeta. rewrite En, Eca. set (n := chunks_for size) in *. rewrite (free_chunks_exact h live H).
  destruct (Z.ltb_spec (m_total_chunks h - m_allocated_chunks h) n) as [Hlt|Hge]; [apply runs_ret; split; [done|left; fold n; lia]|].
  eapply runs_bind; [apply (fit_spec (m_bitmap h) n (n + c)); [done|lia|lia]|]. intros [first|] Hfit; [|apply runs_ret; split; [done|]; right; fold n; by rewrite Ecd]. cbn beta iota.
  destruct Hfit as (Hf0 & Hfe & Hu). rewrite Hsz in Hfe. destruct (placed (m_chunks h) first c Hb Hc) as (k & Ek & Hk & Hal). rewrite Ec.
  assert (Hspan : (first + n + c) * CS <= m_total_chunks h * CS) by nia. assert (Hkn : (k + 1) * CS <= (first + c) * CS) by nia.
  assert (W0 : wrap 64 (m_chunks h + first * CS) = m_chunks h + first * CS) by (apply Z.mod_small; nia). rewrite W0.
  assert (W1 : wrap 64 (m_chunks h + first * CS + 16) = m_chunks h + first * CS + 16) by (apply Z.mod_small; nia). rewrite W1, Ek.
  assert (W2 : wrap 64 (m_chunks h + (k + 1) * CS - 16) = m_chunks h + (k + 1) * CS - 16) by (apply Z.mod_small; nia). rewrite W2.
  assert (W3 : wrap 64 (m_chunks h + (k + 1) * CS - 16 - m_chunks h) / CS = k).
  { unfold wrap. rewrite Z.mod_small by nia. symmetry. apply Z.div_unique with (CS - 16); nia. }
  rewrite W3. replace (m_chunks h + (k + 1) * CS - 16 + 16) with (m_chunks h + (k + 1) * CS) by lia.
  assert (W4 : wrap 64 (m_chunks h + (k + 1) * CS) = m_chunks h + (k + 1) * CS) by (apply Z.mod_small; nia). rewrite W4.
  rewrite (proj2 (Z.leb_le first k)), (proj2 (Z.leb_le (k + n) _)) by lia. cbn [negb].
  assert (Hun : unset (m_bitmap h) k (k + n)) by (intros i Hi; apply Hu; lia).
  destruct (set_range_flip true (m_bitmap h) k n Hwf) as (bitmap & Eb & Hch); [lia|lia|lia| |done|].
  { unfold range_in_bounds. pose proof (size_in_bytes_bounds (m_bitmap h) ltac:(lia)). apply Z.div_lt_upper_bound; lia. }
  apply (runs_bind _ _ (eq bitmap)); [by exists bitmap|]. intros ? <-. rewrite Hal. cbn [negb Z.eqb]. apply runs_ret.
  set (ptr := m_chunks h + (k + 1) * CS) in *. set (mem := if _ : bool then _ else _).
  assert (Hw : writes (memory h) mem (ptr - 16) (n * CS) /\ load_size mem (ptr - 16) = n).
  { assert (Hst : writes (memory h) (store_size (memory h) (ptr - 16) n) (ptr - 16) (n * CS)) by (apply store_size_writes; nia).
    assert (Hld : load_size (store_size (memory h) (ptr - 16) n) (ptr - 16) = n) by (apply load_store_size; unfold max_size in Ht; lia).
    subst mem. destruct (negb init && _); [|done]. split; [eapply writes_trans; [exact Hst|apply set_memory_writes; lia]|]. etransitivity; [|exact Hld].
    eapply load_size_writes; [apply (set_memory_writes _ _ _ _ ptr (n * CS - 16)); lia|]. left. lia. }
  destruct Hw as [Hw Hld]. destruct (insert_block h live k n bitmap mem H) as [Hnew Hinv]; [lia|lia|nia|done|done|done|done|]. fold ptr in Hnew, Hinv.
  replace (wrap 64 (m_allocated_chunks h + n)) with (m_allocated_chunks h + n) by (symmetry; apply Z.mod_small; pose proof (allocated_bound h live H); unfold max_size in Ht; lia).
  split; [exact Hinv|]. split; [done|]. split; [by rewrite Ec|]. split; [nia|]. split; [nia|]. split; [done|]. split; [|done]. intros p m Hp. apply (unset_apart h live p m k n H Hp Hun). lia.
Qed.

(** ** deallocate *)
Lemma header_index h k : geometry h -> 0 <= k < m_total_chunks h ->
  allocation_header (m_chunks h + (k + 1) * CS) = m_chunks h + (k + 1) * CS - 16 /\ wrap 64 (m_chunks h + (k + 1) * CS - 16 - m_chunks h) / CS = k.
Proof using Hcs Hcs64.
  intros [[Hb0 _] Ht He _] Hk. assert ((k + 1) * CS <= m_total_chunks h * CS) by nia. unfold allocation_header, AllocationHeaderSize, wrap. rewrite !Z.mod_small by nia. split; [done|].
  symmetry. apply Z.div_unique with (CS - 16); nia.
Qed.

Lemma deallocate_spec h live ptr n : heap_inv h live -> live !! ptr = Some n ->
  runs (deallocate CS SF h ptr) (fun h' => heap_inv h' (delete ptr live) /\ writes (memory h) (memory h') (ptr - 16) (n * CS) /\ m_allocated_chunks h' = m_allocated_chunks h - n /\ m_total_chunks h' = m_total_chunks h /\ m_chunks h' = m_chunks h).
Proof using Hcs Hcs64.
  intros H Hl. pose proof (hi_geometry h live H) as Hg. destruct (hi_block h live H ptr n Hl) as [(k & Ek & Hk & Hkn & Hb) Hn Hh]. destruct (header_index h k Hg ltac:(lia)) as [Ea Ei].
  destruct Hg as [[Hb0 _] Ht He [Hwf Hsz]]. assert (Hspan : (k + 1 + n) * CS <= m_total_chunks h * CS) by nia. unfold max_size in Ht.
  unfold deallocate. cbv zeta. rewrite (proj2 (Z.eqb_neq ptr 0)) by nia. rewrite Ek, Ea. rewrite (proj2 (Z.leb_le _ _)), (proj2 (Z.ltb_lt _ _)) by nia. cbn [andb negb]. rewrite Ei.
  apply (runs_bind _ _ (eq true)); [exists true; split; [|done]; rewrite get_spec by (done || lia); f_equal; apply Hb; lia|]. intros ? <-. cbn [negb]. rewrite <- Ek, Hh.
  assert (Hw : wrap 64 (ptr - 16 + wrap 64 (n * CS)) = ptr - 16 + n * CS) by (unfold wrap; rewrite (Z.mod_small (n * CS)) by nia; apply Z.mod_small; nia).
  rewrite Hw, (proj2 (Z.leb_le _ _)) by nia. cbn [negb].
  destruct (set_range_flip false (m_bitmap h) k n Hwf) as (bitmap & Eb & Hch); [lia|lia|lia| |done|].
  { unfold range_in_bounds. pose proof (size_in_bytes_bounds (m_bitmap h) ltac:(lia)). apply Z.div_lt_upper_bound; lia. }
  apply (runs_bind _ _ (eq bitmap)); [by exists bitmap|]. intros ? <-.
  set (mem := if negb (SF =? 0) then _ else _). assert (Hwr : writes (memory h) mem (ptr - 16) (n * CS)) by (subst mem; destruct (negb (SF =? 0)); [apply set_memory_writes; lia|by intros x _]).
  pose proof (delete_block h live ptr n bitmap mem k H Hl Ek Hk Hch Hwr) as Hinv. pose proof (allocated_bound _ _ Hinv) as Hbound. cbn in Hbound.
  rewrite (proj2 (Z.leb_le n _)) by lia. cbn [negb]. apply runs_ret. split; [exact Hinv|]. done.
Qed.

(** A pointer whose header does not lie in a chunk of a live block is refused. *)
Lemma deallocate_unused h live ptr : heap_inv h live -> 16 <= ptr < 2 ^ 64 ->
  (forall p n, live !! p = Some n -> ~ p - 16 <= (ptr - 16 - m_chunks h) / CS * CS + m_chunks h + (CS - 16) < p - 16 + n * CS) -> deallocate CS SF h ptr = Panic.
Proof using Hcs Hcs64.
  intros H Hp Hno. pose proof (hi_geometry h live H) as [[Hb0 _] Ht He [Hwf Hsz]]. unfold deallocate. cbv zeta. rewrite (proj2 (Z.eqb_neq ptr 0)) by lia. unfold allocation_header, AllocationHeaderSize.
  destruct ((m_chunks h <=? wrap 64 (ptr - 16)) && (ptr <? m_chunks h + m_total_chunks h * CS)) eqn:Er; [|done]. cbn [negb]. apply andb_true_iff in Er as [E1%Z.leb_le E2%Z.ltb_lt].
  assert (Ea : wrap 64 (ptr - 16) = ptr - 16) by (apply Z.mod_small; lia).
  rewrite Ea in *. assert (Ew : wrap 64 (ptr - 16 - m_chunks h) = ptr - 16 - m_chunks h) by (apply Z.mod_small; lia). rewrite Ew. set (i := (ptr - 16 - m_chunks h) / CS) in *.
  assert (Hi : 0 <= i < m_total_chunks h) by (subst i; split; [apply Z.div_pos; lia|apply Z.div_lt_upper_bound; lia]).
  rewrite get_spec by (done || lia). cbn [kbind outcome_monad]. destruct (bit (m_bitmap h) i) eqn:Eb; [|done]. exfalso.
  destruct (hi_used h live H i Hi Eb) as (p & n & Hl & Hr). apply (Hno p n Hl). lia.
Qed.

(** ** Heaps and their clients *)
Lemma Heap_new_spec mem base size bits : 0 < base -> base mod CS = 0 -> 0 <= size -> base + size < 2 ^ 64 -> calculate_chunks CS size <= max_size ->
  bits = replicate (Z.to_nat (size_in_bytes (mkBitmap [] (calculate_chunks CS size)))) 0 ->
  runs (Heap_new CS mem base size bits) (fun h => heap_inv h ∅ /\ m_chunks h = base /\ m_total_chunks h = calculate_chunks CS size).
Proof using Hcs Hcs64.
  intros Hb Hbm Hs He Hmax ->. unfold Heap_new. set (t := calculate_chunks CS size) in *. assert (Ht : 0 <= t /\ t * (CS + 1) <= size).
  { subst t. unfold calculate_chunks. split; [apply Z.div_pos; lia|]. pose proof (Z.mul_div_le size (CS + 1) ltac:(lia)). lia. }
  rewrite (proj2 (Z.leb_le _ _)). 2:{ pose proof (Z.div_mod (t + 7) 8 ltac:(lia)). pose proof (Z.mod_pos_bound (t + 7) 8 ltac:(lia)). nia. }
  cbn [negb]. apply runs_ret. change (mkBitmap _ t) with (fill (mkBitmap [] t) false). destruct (fill_spec (mkBitmap [] t) false) as (Hwf & Hsz & Hbits); [cbn; lia|].
  split; [|done]. split; cbn [m_total_chunks m_chunks m_bitmap m_allocated_chunks].
  - split; cbn; [done|lia|nia|]. split; [apply Hwf|done].
  - intros ptr n. by rewrite lookup_empty.
  - intros ptr n ptr' n'. by rewrite lookup_empty.
  - intros i Hi. rewrite Hbits by (cbn; lia). done.
  - symmetry. rewrite (csum_const _ false 0 (Z.to_nat t)); [done|]. intros i Hi. apply Hbits. cbn. lia.
Qed.

Lemma client_write h live ptr n mem : heap_inv h live -> live !! ptr = Some n -> writes (memory h) mem ptr (n * CS - 16) ->
  heap_inv (mkHeap (m_total_chunks h) (m_allocated_chunks h) (m_chunks h) (m_bitmap h) mem) live.
Proof using Hcs.
  intros H Hl Hw. destruct H as [Hg Hbl Hap Hu Hc]. split; [by destruct Hg; split|done || idtac|done|done|done]. intros p m Hp. destruct (Hbl p m Hp) as [Hi Hm Hh]. split; [done|done|]. cbn.
  rewrite <- Hh. eapply load_size_writes; [exact Hw|]. destruct (decide (p = ptr)) as [->|Hne]; [lia|]. pose proof (bl_length _ _ _ (Hbl ptr n Hl)). destruct (Hap p m ptr n Hp Hl Hne); nia.
Qed.

Inductive heap_reachable : Heap -> blocks -> Prop :=
| hr_new mem base size h : 0 < base -> base mod CS = 0 -> 0 <= size -> base + size < 2 ^ 64 -> calculate_chunks CS size <= max_size ->
    Heap_new CS mem base size (replicate (Z.to_nat (size_in_bytes (mkBitmap [] (calculate_chunks CS size)))) 0) = Ok h -> heap_reachable h ∅
| hr_allocate h live size alignment init ptr h' : heap_reachable h live -> request size alignment ->
    allocate CS SA h size alignment init = Ok (Some ptr, h') -> heap_reachable h' (<[ptr := chunks_for size]> live)
| hr_deallocate h live ptr n h' : heap_reachable h live -> live !! ptr = Some n -> deallocate CS SF h ptr = Ok h' -> heap_reachable h' (delete ptr live)
| hr_write h live ptr n mem : heap_reachable h live -> live !! ptr = Some n -> writes (memory h) mem ptr (n * CS - 16) ->
    heap_reachable (mkHeap (m_total_chunks h) (m_allocated_chunks h) (m_chunks h) (m_bitmap h) mem) live.

Lemma heap_reachable_inv h live : heap_reachable h live -> heap_inv h live.
Proof using Hcs Hcs64.
  induction 1 as [mem base size h H1 H2 H3 H4 H5 E|h live size alignment init ptr h' _ IH Hrq E|h live ptr n h' _ IH Hl E|h live ptr n mem _ IH Hl Hw].
  - destruct (Heap_new_spec mem base size _ H1 H2 H3 H4 H5 eq_refl) as (h' & E' & H & _). rewrite E in E'. by injection E' as <-.
  - destruct (allocate_spec h live size alignment init IH Hrq) as (r & E' & H). rewrite E in E'. injection E' as <-. apply H.
  - destruct (deallocate_spec h live ptr n IH Hl) as (r & E' & H & _). rewrite E in E'. by injection E' as <-.
  - by eapply client_write.
Qed.
End invariant.

(** ** Counting *)
Definition live_chunks (live : gmap Z Z) : Z := map_fold (fun _ n sum => n + sum) 0 live.

Lemma live_chunks_insert live p n : live !! p = None -> live_chunks (<[p := n]> live) = n + live_chunks live.
Proof. intros H. unfold live_chunks. rewrite (map_fold_insert_L _ _ p n live); [done| |done]. intros. lia. Qed.

Lemma live_chunks_delete live p n : live !! p = Some n -> live_chunks live = n + live_chunks (delete p live).
Proof. intros H. rewrite <- (live_chunks_insert (delete p live) p n) by apply lookup_delete_eq. by rewrite insert_delete_id. Qed.

Lemma heap_count CS SA SF h live : 16 < CS -> CS <= 2 ^ 32 -> heap_reachable CS SA SF h live -> m_allocated_chunks h = live_chunks live.
Proof.
  intros Hcs Hcs64. induction 1 as [mem base size h H1 H2 H3 H4 H5 E|h live size alignment init ptr h' Hr IH Hrq E|h live ptr n h' Hr IH Hl E|h live ptr n mem _ IH Hl Hw]; [| | |done].
  - unfold Heap_new in E. destruct (negb _); [done|]. by injection E as <-.
  - pose proof (heap_reachable_inv CS SA SF Hcs Hcs64 h live Hr) as Hinv. destruct (allocate_spec CS SA Hcs Hcs64 h live size alignment init Hinv Hrq) as (r & E' & H). rewrite E in E'. injection E' as <-.
    destruct H as (_ & Hnew & _ & _ & _ & Hc & _). rewrite live_chunks_insert by done. lia.
  - pose proof (heap_reachable_inv CS SA SF Hcs Hcs64 h live Hr) as Hinv. destruct (deallocate_spec CS SF Hcs Hcs64 h live ptr n Hinv Hl) as (r & E' & _ & _ & Hc & _). rewrite E in E'. injection E' as <-.
    rewrite (live_chunks_delete live ptr n Hl) in IH. lia.
Qed.


(** C34: Giving back a live block succeeds, writes nothing outside the block, makes its chunks free again and keeps the
    count exact; giving the same pointer back once more is caught by an assertion. *)
Theorem heap_deallocate_exact CS SA SF h live ptr n : 16 < CS -> CS <= 2 ^ 32 ->
  heap_reachable CS SA SF h live -> live !! ptr = Some n ->
  exists h', deallocate CS SF h ptr = Ok h' /\ heap_reachable CS SA SF h' (delete ptr live)
  /\ (forall x, ~ ptr - 16 <= x < ptr - 16 + n * CS -> memory h' x = memory h x)
  /\ free_chunks h' = free_chunks h + n /\ free_range (m_bitmap h') ((ptr - m_chunks h) / CS - 1) n
  /\ deallocate CS SF h' ptr = Panic.
Proof.
  intros Hcs Hcs64 Hr Hl. pose proof (heap_reachable_inv CS SA SF Hcs Hcs64 h live Hr) as Hinv. destruct (deallocate_spec CS SF Hcs Hcs64 h live ptr n Hinv Hl) as (h' & E & Hinv' & Hw & Hc & Et & Eb).
  exists h'. split; [done|]. split; [by eapply hr_deallocate|]. split; [done|]. rewrite (free_chunks_exact CS h live Hinv), (free_chunks_exact CS h' _ Hinv'), Hc, Et. split; [lia|].
  destruct (hi_block CS h live Hinv ptr n Hl) as [(k & Ek & Hk & Hkn & _) Hn _]. pose proof (ge_base CS h (hi_geometry CS h live Hinv)) as [Hb0 _].
  assert (Hk1 : (ptr - m_chunks h) / CS - 1 = k). { rewrite Ek. replace (m_chunks h + (k + 1) * CS - m_chunks h) with ((k + 1) * CS) by lia. rewrite Z.div_mul by lia. lia. }
  assert (Hfree : forall i, k <= i < k + n -> bit (m_bitmap h') i = false).
  { intros i Hi. destruct (bit (m_bitmap h') i) eqn:Ei; [|done]. exfalso. destruct (hi_used CS h' _ Hinv' i) as (p & m & Hp & Hpr); [lia|done|]. apply lookup_delete_Some in Hp as [Hne Hp].
    rewrite Eb in Hpr. destruct (hi_apart CS h live Hinv ptr n p m Hl Hp Hne) as [Ha|Ha]; nia. }
  rewrite Hk1. split; [split; [lia|]; split; [rewrite (proj2 (ge_bitmap CS h' (hi_geometry CS h' _ Hinv'))); lia|done]|].
  apply (deallocate_unused CS SF Hcs Hcs64 h' _ ptr Hinv'); [pose proof (ge_end CS h (hi_geometry CS h live Hinv)); nia|]. intros p m [Hne Hp]%lookup_delete_Some Hin.
  rewrite Eb in Hin. assert (Hq : (ptr - 16 - m_chunks h) / CS = k) by (symmetry; apply Z.div_unique with (CS - 16); [lia|nia]). rewrite Hq in Hin. destruct (hi_apart CS h live Hinv ptr n p m Hl Hp Hne) as [Ha|Ha]; nia.
Qed.

(** C20: In every state that a heap and its clients can reach, each live block lies inside the heap, on the grid of the
    chunks, with its length in its header; live blocks do not overlap, headers included; and the free chunks are
    exactly those of no live block, so that giving everything back leaves the whole heap free. *)
Theorem heap_blocks_disjoint CS SA SF h live : 16 < CS -> CS <= 2 ^ 32 -> heap_reachable CS SA SF h live ->
  (forall ptr n, live !! ptr = Some n -> ptr mod CS = 0 /\ m_chunks h <= ptr - 16 /\ ptr - 16 + n * CS <= m_chunks h + m_total_chunks h * CS /\ load_size (memory h) (ptr - 16) = n /\ heap_contains CS h ptr = true)
  /\ (forall ptr n ptr' n', live !! ptr = Some n -> live !! ptr' = Some n' -> ptr <> ptr' -> ptr - 16 + n * CS <= ptr' - 16 \/ ptr' - 16 + n' * CS <= ptr - 16)
  /\ free_chunks h = m_total_chunks h - live_chunks live
  /\ (live = ∅ -> free_range (m_bitmap h) 0 (m_total_chunks h)).
Proof.
  intros Hcs Hcs64 Hr. pose proof (heap_reachable_inv CS SA SF Hcs Hcs64 h live Hr) as Hinv. pose proof (hi_geometry CS h live Hinv) as [[Hb0 Hb] Ht He [Hwf Hsz]]. split; [|split; [|split]].
  - intros ptr n Hl. destruct (hi_block CS h live Hinv ptr n Hl) as [(k & Ek & Hk & Hkn & _) Hn Hh]. assert (Hspan : (k + 1 + n) * CS <= m_total_chunks h * CS) by nia.
    split; [rewrite Ek; pose proof (Z.div_mod (m_chunks h) CS ltac:(lia)); replace (m_chunks h + (k + 1) * CS) with ((m_chunks h / CS + (k + 1)) * CS) by lia; apply Z.mod_mul; lia|].
    split; [nia|]. split; [nia|]. split; [done|]. unfold heap_contains. cbv zeta. rewrite Ek. destruct (header_index CS Hcs Hcs64 h k (hi_geometry CS h live Hinv) ltac:(lia)) as [-> _].
    rewrite (proj2 (Z.ltb_ge _ _)), (proj2 (Z.leb_gt _ _)) by nia. done.
  - intros ptr n ptr' n' Hl Hl' Hne. destruct (hi_apart CS h live Hinv ptr n ptr' n' Hl Hl' Hne); [left|right]; lia.
  - by rewrite (free_chunks_exact CS h live Hinv), (heap_count CS SA SF h live).
  - intros ->. split; [lia|]. split; [lia|]. intros i Hi. destruct (bit (m_bitmap h) i) eqn:Ei; [|done]. destruct (hi_used CS h ∅ Hinv i) as (p & m & Hp & _); [lia|done|]. by rewrite lookup_empty in Hp.
Qed.

(** ** A heap with one block *)
Definition small_heap : Heap := mkHeap 100 0 4096 (mkBitmap (replicate 13 0) 100) (fun _ => 0).

Lemma small_heap_reachable : heap_reachable 64 187 170 small_heap ∅.
Proof. by apply (hr_new 64 187 170 (fun _ => 0) 4096 6500). Qed.

Lemma small_request : request 64 100 16.
Proof. split; [lia|lia|left; lia]. Qed.

Definition used_heap : Heap := match allocate 64 187 small_heap 100 16 false with Ok (_, h) => h | _ => small_heap end.

Lemma used_heap_reachable : heap_reachable 64 187 170 used_heap {[4160 := 2]}.
Proof.
  change (heap_reachable 64 187 170 used_heap (<[4160 := chunks_for 64 100]> ∅)). eapply (hr_allocate 64 187 170 small_heap ∅ 100 16 false 4160 used_heap small_heap_reachable small_request).
  unfold used_heap. vm_compute. reflexivity.
Qed.


Lemma heap_deallocate_exact_witness : exists h', deallocate 64 170 used_heap 4160 = Ok h' /\ deallocate 64 170 h' 4160 = Panic.
Proof.
  destruct (heap_deallocate_exact 64 187 170 used_heap {[4160 := 2]} 4160 2 ltac:(lia) ltac:(lia) used_heap_reachable (lookup_singleton_eq 4160 2)) as (h' & E & _ & _ & _ & _ & Ep).
  exists h'. split; [exact E|exact Ep].
Defined.

Lemma heap_blocks_disjoint_witness : heap_contains 64 used_heap 4160 = true.
Proof.
  destruct (heap_blocks_disjoint 64 187 170 used_heap {[4160 := 2]} ltac:(lia) ltac:(lia) used_heap_reachable) as (H & _). apply (H 4160 2 (lookup_singleton_eq 4160 2)).
Defined.

(** The sum of size and header wraps around: a request for nearly the whole address space gets a block of one chunk. *)
Lemma allocate_size_wraps : exists ptr h', allocate 64 187 small_heap (2 ^ 64 - 1) 16 false = Ok (Some ptr, h') /\ load_size (memory h') (ptr - 16) = 1.
Proof. eexists _, _. split; [vm_compute; reflexivity|]. by vm_compute. Qed.
