(* ===== verification/PhysicalZone.v ===== *)
(** * The physical page allocator: Kernel/Memory/PhysicalZone.{h,cpp}

    A zone is a run of 2^k physical pages managed by a buddy scheme.  Its free blocks of
    each order are chained through the page entries of their first pages, and one bit per
    pair of buddies records that exactly one of them is free.

    [page_entries] is the part of the array of page entries of the memory manager that
    belongs to the zone: an access to an entry of another zone is a [Panic] of the model.
    An entry is the pair of links of the free list; the entries of pages that are in use
    hold the page objects instead, so nothing is assumed of them and the environment may
    overwrite them at any time (see [zone_step]). *)

From S2P Require Import Prelude StdLibExtras Bitmap.

(** ** State *)

Definition ZONE_CHUNK_SIZE : Z := PAGE_SIZE / 2.
Definition max_order : Z := 12.

(** The [freelist] member of a page entry. *)
Record PhysicalPageEntry := mkEntry { next_index : Z; prev_index : Z }.

Record BuddyBucket := mkBucket { order : Z; freelist : Z; bitmap : Bitmap }.

Record PhysicalZone := mkZone {
  m_base_address : Z;
  m_page_count : Z;
  m_used_chunks : Z;
  m_buckets : list BuddyBucket;
  page_entries : list PhysicalPageEntry }.

Definition with_buckets (z : PhysicalZone) (l : list BuddyBucket) : PhysicalZone :=
  mkZone (m_base_address z) (m_page_count z) (m_used_chunks z) l (page_entries z).
Definition with_entries (z : PhysicalZone) (l : list PhysicalPageEntry) : PhysicalZone :=
  mkZone (m_base_address z) (m_page_count z) (m_used_chunks z) (m_buckets z) l.
Definition with_used (z : PhysicalZone) (n : Z) : PhysicalZone :=
  mkZone (m_base_address z) (m_page_count z) n (m_buckets z) (page_entries z).

(** A chunk index is an [i16]. *)
Definition ChunkIndex (z : Z) : Z := swrap 16 z.

(** ** Buckets *)

Definition buddy_bit_index (b : BuddyBucket) (index : Z) : Z :=
  Z.shiftr (Z.shiftr index 1) (1 + order b).
Definition get_buddy_bit (b : BuddyBucket) (index : Z) : outcome bool :=
  get (bitmap b) (buddy_bit_index b index).
Definition set_buddy_bit (b : BuddyBucket) (index : Z) (value : bool) : outcome BuddyBucket :=
  bits ← set (bitmap b) (buddy_bit_index b index) value;
  kret (mkBucket (order b) (freelist b) bits).
Definition with_freelist (b : BuddyBucket) (i : Z) : BuddyBucket := mkBucket (order b) i (bitmap b).

(** ** Accesses to the zone *)

Definition get_bucket (o : Z) : M PhysicalZone BuddyBucket :=
  l ← gets m_buckets; lift (at_index l o).
Definition put_bucket (o : Z) (b : BuddyBucket) : M PhysicalZone unit :=
  l ← gets m_buckets;
  l ← lift (set_at_index l o b);
  modify (fun z => with_buckets z l).

(** [MM.get_physical_page_entry(m_base_address.offset(index * ZONE_CHUNK_SIZE))], as an
    index into the entries of the zone. *)
Definition entry_index (base index : Z) : Z :=
  Z.shiftr (wrap 64 (base + index * ZONE_CHUNK_SIZE)) 12 - Z.shiftr base 12.
Definition get_freelist_entry (index : Z) : M PhysicalZone PhysicalPageEntry :=
  base ← gets m_base_address;
  l ← gets page_entries;
  lift (at_index l (entry_index base index)).
Definition put_freelist_entry (index : Z) (e : PhysicalPageEntry) : M PhysicalZone unit :=
  base ← gets m_base_address;
  l ← gets page_entries;
  l ← lift (set_at_index l (entry_index base index) e);
  modify (fun z => with_entries z l).
Definition set_next_index (index next : Z) : M PhysicalZone unit :=
  e ← get_freelist_entry index; put_freelist_entry index (mkEntry next (prev_index e)).
Definition set_prev_index (index prev : Z) : M PhysicalZone unit :=
  e ← get_freelist_entry index; put_freelist_entry index (mkEntry (next_index e) prev).

Definition block_size_of (o : Z) : Z := Z.shiftl 2 o.

(** ** Allocation *)

(** Split the block at [index] from the order above: the first half goes into the free
    list of this order, which is empty, the second half is returned. *)
Definition split_block (o index : Z) : M PhysicalZone Z :=
  put_freelist_entry index (mkEntry (-1) (-1)) ;;
  bucket ← get_bucket o;
  let bucket := with_freelist bucket index in
  bit ← lift (get_buddy_bit bucket index);
  VERIFY (Bool.eqb bit false) ;;
  bucket ← lift (set_buddy_bit bucket index true);
  put_bucket o bucket ;;
  kret (ChunkIndex (index + block_size_of o)).

(** Take the first entry of the free list. *)
Definition take_first (o : Z) : M PhysicalZone Z :=
  bucket ← get_bucket o;
  let index := freelist bucket in
  entry ← get_freelist_entry index;
  let bucket := with_freelist bucket (next_index entry) in
  (if negb (freelist bucket =? -1) then set_prev_index (freelist bucket) (-1) else kret tt) ;;
  bit ← lift (get_buddy_bit bucket index);
  VERIFY (Bool.eqb bit true) ;;
  bucket ← lift (set_buddy_bit bucket index false);
  put_bucket o bucket ;;
  kret index.

(** The recursion goes up one order at a time and ends above [max_order]. *)
Fixpoint allocate_block_impl (fuel : nat) (o : Z) : M PhysicalZone (option Z) :=
  match fuel with
  | O => VERIFY false ;; kret None
  | S fuel =>
      if max_order <? o then kret None else
      bucket ← get_bucket o;
      if freelist bucket =? -1 then
        buddies ← allocate_block_impl fuel (o + 1);
        match buddies with
        | None => kret None
        | Some index => i ← split_block o index; kret (Some i)
        end
      else
        i ← take_first o; kret (Some i)
  end.

Definition order_fuel : nat := 14.

Definition allocate_block (o : Z) : M PhysicalZone (option Z) :=
  result ← allocate_block_impl order_fuel o;
  match result with
  | None => kret None
  | Some index =>
      modify (fun z => with_used z (wrap 64 (m_used_chunks z + block_size_of o))) ;;
      VERIFY (Z.land index 1 =? 0) ;;
      base ← gets m_base_address;
      kret (Some (wrap 64 (base + index * ZONE_CHUNK_SIZE)))
  end.

(** ** Deallocation *)

Definition remove_from_freelist (o index : Z) : M PhysicalZone unit :=
  entry ← get_freelist_entry index;
  VERIFY (-1 <=? prev_index entry) ;;
  VERIFY (-1 <=? next_index entry) ;;
  (if negb (prev_index entry =? -1) then set_next_index (prev_index entry) (next_index entry)
   else kret tt) ;;
  (if negb (next_index entry =? -1) then set_prev_index (next_index entry) (prev_index entry)
   else kret tt) ;;
  bucket ← get_bucket o;
  (if freelist bucket =? index then put_bucket o (with_freelist bucket (next_index entry))
   else kret tt) ;;
  put_freelist_entry index (mkEntry (-1) (-1)).

(** The buddy is in use: add the block to the free list and set the buddy bit. *)
Definition add_to_freelist (o index : Z) : M PhysicalZone unit :=
  bucket ← get_bucket o;
  (if negb (freelist bucket =? -1) then set_prev_index (freelist bucket) index else kret tt) ;;
  put_freelist_entry index (mkEntry (freelist bucket) (-1)) ;;
  bucket ← lift (set_buddy_bit (with_freelist bucket index) index true);
  put_bucket o bucket.

(** The buddy is free: take it off the free list; the merged block is returned. *)
Definition merge_with_buddy (o index : Z) : M PhysicalZone Z :=
  bucket ← get_bucket o;
  let buddy_base_index :=
    ChunkIndex (Z.shiftl (Z.shiftl (buddy_bit_index bucket index) 1) (1 + o)) in
  (if index =? buddy_base_index
   then remove_from_freelist o (ChunkIndex (buddy_base_index + block_size_of o))
   else remove_from_freelist o buddy_base_index) ;;
  bucket ← get_bucket o;
  bucket ← lift (set_buddy_bit bucket index false);
  put_bucket o bucket ;;
  kret buddy_base_index.

Fixpoint deallocate_block_impl (fuel : nat) (index o : Z) : M PhysicalZone unit :=
  match fuel with
  | O => VERIFY false
  | S fuel =>
      bucket ← get_bucket o;
      bit ← lift (get_buddy_bit bucket index);
      if bit : bool then
        merged ← merge_with_buddy o index;
        deallocate_block_impl fuel merged (o + 1)
      else add_to_freelist o index
  end.

Definition deallocate_block (address o : Z) : M PhysicalZone unit :=
  base ← gets m_base_address;
  let index := ChunkIndex (wrap 64 (address - base) / ZONE_CHUNK_SIZE) in
  deallocate_block_impl order_fuel index o ;;
  modify (fun z => with_used z (wrap 64 (m_used_chunks z - block_size_of o))).

(** ** Construction and accessors *)

Definition bitmap_size_for_order (chunk_count o : Z) : Z :=
  ceil_div (chunk_count / block_size_of o) 2.

(** The loop over the orders, from [max_order] down. *)
Fixpoint init_buckets (n : nat) (chunk_count : Z) : M PhysicalZone unit :=
  match n with
  | O => kret tt
  | S n =>
      let o := Z.of_nat n in
      bucket ← get_bucket o;
      let size := bitmap_size_for_order chunk_count o in
      bits ← (if negb (size =? 0) then lift (grow (bitmap bucket) size false)
              else kret (bitmap bucket));
      put_bucket o (mkBucket o (freelist bucket) bits) ;;
      init_buckets n chunk_count
  end.

(** The loop over the initial blocks. *)
Fixpoint init_blocks (n : nat) (o i offset : Z) : M PhysicalZone unit :=
  match n with
  | O => kret tt
  | S n =>
      let index := ChunkIndex (offset + i) in
      bucket ← get_bucket o;
      bucket ← lift (set_buddy_bit bucket index true);
      put_freelist_entry index (mkEntry (freelist bucket) (-1)) ;;
      put_bucket o (with_freelist bucket index) ;;
      init_blocks n o (i + 1) (offset + block_size_of o)
  end.

Definition construct : M PhysicalZone unit :=
  page_count ← gets m_page_count;
  let chunk_count := page_count * 2 in
  init_buckets 13 chunk_count ;;
  let first_order := count_trailing_zeroes 64 page_count in
  let initial_bundle_count := chunk_count / block_size_of first_order in
  init_blocks (Z.to_nat initial_bundle_count) first_order 0 0.

(** A zone before its constructor has run. *)
Definition raw_zone (base_address page_count : Z) (entries : list PhysicalPageEntry) : PhysicalZone :=
  mkZone base_address page_count 0 (replicate 13 (mkBucket 0 (-1) (mkBitmap [] 0))) entries.

Definition available (z : PhysicalZone) : Z := m_page_count z - m_used_chunks z / 2.
Definition is_empty (z : PhysicalZone) : bool := available z =? 0.
Definition zone_contains (z : PhysicalZone) (paddr : Z) : bool :=
  (m_base_address z <=? paddr)
  && (paddr <? wrap 64 (m_base_address z + m_page_count z * PAGE_SIZE)).

(** ** Blocks and sets of free blocks

    A block of order [o] at page [q] is the run of pages [q, q + 2^o), aligned to its
    size.  [F o] is the free list of order [o] as a list of first pages. *)

Definition in_block (o q p : Z) : Prop := q <= p < q + 2 ^ o.
Definition is_block (k o q : Z) : Prop := 0 <= o <= k /\ 0 <= q /\ q mod 2 ^ o = 0 /\ q + 2 ^ o <= 2 ^ k.
Definition covers (F : Z -> list Z) (p : Z) : Prop := exists o q, q ∈ F o /\ in_block o q p.
Definition upd (F : Z -> list Z) (o : Z) (l : list Z) : Z -> list Z := fun o' => if o' =? o then l else F o'.

Record fwf (k : Z) (F : Z -> list Z) : Prop := {
  f_block : forall o q, q ∈ F o -> is_block k o q;
  f_nodup : forall o, NoDup (F o);
  f_disj : forall o q o' q' p, q ∈ F o -> q' ∈ F o' -> in_block o q p -> in_block o' q' p -> o = o' /\ q = q';
  f_buddy : forall o q q', q ∈ F o -> q' ∈ F o -> q / 2 ^ (o + 1) = q' / 2 ^ (o + 1) -> q = q' }.

Lemma upd_eq F o l : upd F o l o = l.
Proof. unfold upd. by rewrite Z.eqb_refl. Qed.
Lemma upd_ne F o l o' : o' <> o -> upd F o l o' = F o'.
Proof. unfold upd. by intros ?%Z.eqb_neq; destruct (o' =? o). Qed.
Lemma elem_upd F o l o' q : q ∈ upd F o l o' <-> (o' = o /\ q ∈ l) \/ (o' <> o /\ q ∈ F o').
Proof. unfold upd. destruct (Z.eqb_spec o' o); naive_solver. Qed.

Lemma pow2_pos o : 0 <= o -> 0 < 2 ^ o.
Proof. intros. apply Z.pow_pos_nonneg; lia. Qed.
Lemma pow2_succ o : 0 <= o -> 2 ^ (o + 1) = 2 * 2 ^ o.
Proof. intros. by rewrite Z.pow_add_r, Z.mul_comm by lia. Qed.

Lemma in_block_self o q : 0 <= o -> in_block o q q.
Proof. intros H. pose proof (pow2_pos o H). unfold in_block. lia. Qed.

Lemma in_block_div k o q p : is_block k o q -> in_block o q p <-> p / 2 ^ o = q / 2 ^ o.
Proof.
  intros (Ho & Hq & Hm & _). pose proof (pow2_pos o ltac:(lia)) as Hp. unfold in_block.
  pose proof (Z.div_mod q (2 ^ o) ltac:(lia)). pose proof (Z.div_mod p (2 ^ o) ltac:(lia)).
  pose proof (Z.mod_pos_bound p (2 ^ o) ltac:(lia)). split; [|nia].
  intros Hr. rewrite (Z.div_unique p (2 ^ o) (q / 2 ^ o) (p - q)); [done|lia|lia].
Qed.

Lemma div_pow2_mono o o' p p' : 0 <= o <= o' -> p / 2 ^ o = p' / 2 ^ o -> p / 2 ^ o' = p' / 2 ^ o'.
Proof.
  intros Ho E. replace (2 ^ o') with (2 ^ o * 2 ^ (o' - o)) by (rewrite <- Z.pow_add_r by lia; f_equal; lia).
  pose proof (pow2_pos o ltac:(lia)). pose proof (pow2_pos (o' - o) ltac:(lia)).
  rewrite <- !Z.div_div by lia. by rewrite E.
Qed.

(** Two blocks are nested or disjoint. *)
Lemma block_nested k k' o q o' q' p x :
  is_block k o q -> is_block k' o' q' -> o <= o' -> in_block o q p -> in_block o' q' p ->
  in_block o q x -> in_block o' q' x.
Proof.
  intros B B' Hle. rewrite !(in_block_div _ _ _ _ B), !(in_block_div _ _ _ _ B'). intros Hp Hp' Hx.
  rewrite <- Hp'. apply (div_pow2_mono o); [destruct B; lia|congruence].
Qed.

Lemma block_eq k o q q' p : is_block k o q -> is_block k o q' -> in_block o q p -> in_block o q' p -> q = q'.
Proof.
  intros B B' H H'. assert (in_block o q' q) by (eapply (block_nested _ _ o q); eauto using in_block_self with lia;
    apply in_block_self; destruct B; lia).
  assert (in_block o q q') by (eapply (block_nested _ _ o q'); eauto using in_block_self with lia;
    apply in_block_self; destruct B; lia). unfold in_block in *. lia.
Qed.

(** A block as the half of a block of the next order. *)
Lemma halves k o q :
  is_block k (o + 1) q -> 0 <= o ->
  is_block k o q /\ is_block k o (q + 2 ^ o) /\
  (forall p, in_block (o + 1) q p <-> in_block o q p \/ in_block o (q + 2 ^ o) p) /\
  q / 2 ^ (o + 1) = (q + 2 ^ o) / 2 ^ (o + 1).
Proof.
  intros (Ho & Hq & Hm & Hk) H0. unfold in_block, is_block. pose proof (pow2_pos o H0).
  rewrite pow2_succ in * by done.
  assert (q mod 2 ^ o = 0) as Hm'.
  { rewrite (Z.mul_comm 2), Z.rem_mul_r in Hm by lia. pose proof (Z.mod_pos_bound q (2 ^ o)).
    pose proof (Z.mod_pos_bound (q / 2 ^ o) 2). lia. }
  split_and!; try lia.
  - replace (q + 2 ^ o) with (q + 1 * 2 ^ o) by lia. by rewrite Z.mod_add by lia.
  - pose proof (Z.div_mod q (2 * 2 ^ o) ltac:(lia)).
    apply (Z.div_unique _ _ _ (2 ^ o)); lia.
Qed.

Lemma block_half k o q :
  is_block k o q ->
  q = q / 2 ^ (o + 1) * 2 ^ (o + 1) \/ q = q / 2 ^ (o + 1) * 2 ^ (o + 1) + 2 ^ o.
Proof.
  intros (Ho & Hq & Hm & _). pose proof (pow2_pos o ltac:(lia)) as Hp.
  rewrite pow2_succ, (Z.mul_comm 2) by lia.
  pose proof (Z.div_mod q (2 ^ o * 2) ltac:(lia)) as D. rewrite Z.rem_mul_r, Hm in D by lia.
  pose proof (Z.mod_pos_bound (q / 2 ^ o) 2 ltac:(lia)).
  assert ((q / 2 ^ o) mod 2 = 0 \/ (q / 2 ^ o) mod 2 = 1) as [e|e] by lia; rewrite e in D; lia.
Qed.

(** The buddy of a block: the two make up an aligned block of the next order. *)
Lemma buddies k o q q' :
  is_block k o q -> is_block k o q' -> q <> q' -> q / 2 ^ (o + 1) = q' / 2 ^ (o + 1) ->
  let base := q / 2 ^ (o + 1) * 2 ^ (o + 1) in
  is_block k (o + 1) base /\ ((q = base /\ q' = base + 2 ^ o) \/ (q = base + 2 ^ o /\ q' = base)).
Proof.
  intros B B' Hne E. pose proof (block_half _ _ _ B) as H. pose proof (block_half _ _ _ B') as H'.
  rewrite <- E in H'. destruct B as (Ho & Hq & Hm & Hk), B' as (_ & Hq' & Hm' & Hk'). cbv zeta.
  pose proof (pow2_pos o ltac:(lia)) as Hp. pose proof (pow2_succ o ltac:(lia)) as Hs.
  assert (0 <= q / 2 ^ (o + 1)) by (apply Z.div_pos; lia).
  split; [|lia]. assert (q / 2 ^ (o + 1) * 2 ^ (o + 1) + 2 ^ (o + 1) <= 2 ^ k) by lia.
  assert (o + 1 <= k) by (apply (Z.pow_le_mono_r_iff 2); nia).
  unfold is_block. split_and!; [lia|lia|nia|apply Z.mod_mul; lia|lia].
Qed.

(** Taking a block off its list. *)
Lemma fwf_remove k F o q l :
  fwf k F -> q ∈ F o -> NoDup l -> (forall x, x ∈ l <-> x ∈ F o /\ x <> q) ->
  fwf k (upd F o l) /\
  (forall p, covers F p <-> covers (upd F o l) p \/ in_block o q p) /\
  (forall p, in_block o q p -> ~ covers (upd F o l) p).
Proof.
  intros HF Hq Hl E.
  assert (forall o' x, x ∈ upd F o l o' <-> x ∈ F o' /\ ~ (o' = o /\ x = q)) as E'.
  { intros o' x. rewrite elem_upd, E. destruct (decide (o' = o)) as [->|]; naive_solver. }
  split_and!.
  - split.
    + intros o' x [H _]%E'. by apply HF.
    + intros o'. unfold upd. destruct (o' =? o); [done|apply HF].
    + intros o1 q1 o2 q2 p [H1 _]%E' [H2 _]%E'. by apply (f_disj k F HF).
    + intros o1 q1 q2 [H1 _]%E' [H2 _]%E'. by apply (f_buddy k F HF).
  - intros p. split.
    + intros (o1 & q1 & H1 & Hp). destruct (decide (o1 = o /\ q1 = q)) as [[-> ->]|]; [by right|].
      left. exists o1, q1. by rewrite E'.
    + intros [(o1 & q1 & [H1 _]%E' & Hp)|Hp]; [by exists o1, q1|by exists o, q].
  - intros p Hp (o1 & q1 & [H1 Hn]%E' & Hp1). apply Hn.
    by apply (f_disj k F HF o1 q1 o q p).
Qed.

(** Adding a block of which no page is free and of which the buddy is not free. *)
Lemma fwf_add k F o q l :
  fwf k F -> is_block k o q -> (forall p, in_block o q p -> ~ covers F p) ->
  (forall x, x ∈ F o -> x / 2 ^ (o + 1) <> q / 2 ^ (o + 1)) ->
  NoDup l -> (forall x, x ∈ l <-> x = q \/ x ∈ F o) ->
  fwf k (upd F o l) /\ (forall p, covers (upd F o l) p <-> covers F p \/ in_block o q p).
Proof.
  intros HF Hb Hc Hbud Hl E.
  assert (forall o' x, x ∈ upd F o l o' <-> x ∈ F o' \/ (o' = o /\ x = q)) as E'.
  { intros o' x. rewrite elem_upd, E. destruct (decide (o' = o)) as [->|]; naive_solver. }
  split; [split|].
  - intros o' x [H|[-> ->]]%E'; [by apply HF|done].
  - intros o'. unfold upd. destruct (o' =? o); [done|apply HF].
  - intros o1 q1 o2 q2 p [H1|[-> ->]]%E' [H2|[-> ->]]%E' Hp1 Hp2; [by eapply (f_disj k F HF)| | |done].
    + destruct (Hc p Hp2). by exists o1, q1.
    + destruct (Hc p Hp1). by exists o2, q2.
  - intros o1 q1 q2 [H1|[-> ->]]%E' [H2|[E2 ->]]%E' He; [by eapply (f_buddy k F HF)| | |done].
    + subst o1. by destruct (Hbud q1 H1).
    + by destruct (Hbud q2 H2).
  - intros p. split.
    + intros (o1 & q1 & [H1|[-> ->]]%E' & Hp); [left; by exists o1, q1|by right].
    + intros [(o1 & q1 & H1 & Hp)|Hp]; [exists o1, q1|exists o, q]; rewrite E'; naive_solver.
Qed.

(** Free buddies are always merged, so a free aligned run of pages lies in one free block. *)
Lemma coalesced k F o q :
  fwf k F -> is_block k o q -> (forall p, in_block o q p -> covers F p) ->
  exists o' q', o <= o' /\ q' ∈ F o' /\ in_block o' q' q.
Proof.
  intros HF Hb. assert (0 <= o) as Ho by (destruct Hb; lia). revert q Hb. pattern o.
  apply natlike_ind; [| |done]; clear o Ho.
  - intros q Hb Hc. destruct (Hc q) as (o & q' & Hq & Hp); [by apply in_block_self|].
    exists o, q'. split_and!; [|done|done]. apply (f_block k F HF) in Hq. destruct Hq; lia.
  - intros o Ho IH q Hb Hc. rewrite <- Z.add_1_r in *. destruct (halves k o q Hb Ho) as (B1 & B2 & Hh & E).
    destruct (IH q B1) as (o1 & q1 & Ho1 & Hq1 & Hp1); [intros p Hp; apply Hc, Hh; by left|].
    destruct (decide (o + 1 <= o1)) as [|]; [by exists o1, q1|].
    assert (o1 = o) as -> by lia.
    destruct (IH (q + 2 ^ o) B2) as (o2 & q2 & Ho2 & Hq2 & Hp2); [intros p Hp; apply Hc, Hh; by right|].
    destruct (decide (o + 1 <= o2)) as [|].
    + exists o2, q2. split_and!; [done|done|].
      apply (block_nested k k (o + 1) q o2 q2 (q + 2 ^ o) q); [done|by apply (f_block k F HF)|done| |done|].
      * apply Hh. right. by apply in_block_self.
      * apply Hh. left. by apply in_block_self.
    + assert (o2 = o) as -> by lia.
      pose proof (block_eq k o q1 q q (f_block k F HF _ _ Hq1) B1 Hp1 (in_block_self o q Ho)). subst q1.
      pose proof (block_eq k o q2 _ _ (f_block k F HF _ _ Hq2) B2 Hp2 (in_block_self o _ Ho)). subst q2.
      pose proof (f_buddy k F HF o _ _ Hq1 Hq2 E). pose proof (pow2_pos o Ho). lia.
Qed.

(** ** Free lists in the page entries *)

(** The chunk index of a page, with -1 for the end of a list. *)
Definition enc (x : option Z) : Z := match x with Some q => 2 * q | None => -1 end.

(** The entry of every element links to its neighbours. *)
Definition links (e : list PhysicalPageEntry) (l : list Z) : Prop :=
  forall l1 q l2, l = l1 ++ q :: l2 -> e !! Z.to_nat q = Some (mkEntry (enc (head l2)) (enc (last l1))).

Lemma links_frame e e' l :
  (forall q, q ∈ l -> e' !! Z.to_nat q = e !! Z.to_nat q) -> links e l -> links e' l.
Proof. intros H Hl l1 q l2 ->. rewrite H; [by apply Hl|set_solver]. Qed.

(** [e'] is [e] after the neighbours of the element between [l1] and [l2] are joined. *)
Definition joined (e e' : list PhysicalPageEntry) (l1 l2 : list Z) : Prop :=
  forall y en, y ∈ l1 ++ l2 -> e !! Z.to_nat y = Some en ->
    e' !! Z.to_nat y = Some (mkEntry (if decide (last l1 = Some y) then enc (head l2) else next_index en)
                                     (if decide (head l2 = Some y) then enc (last l1) else prev_index en)).

Lemma links_remove e e' l1 q l2 :
  NoDup (l1 ++ q :: l2) -> links e (l1 ++ q :: l2) -> joined e e' l1 l2 -> links e' (l1 ++ l2).
Proof.
  intros Hnd Hl Hj a y b E. apply NoDup_app in Hnd as (Hn1 & Hd & [Hn2 Hn3]%NoDup_cons).
  apply app_eq_inv in E as [(c & -> & E)|(c & -> & ->)].
  - destruct c as [|z c]; simpl in E.
    + subst l2. assert (links e ((a ++ [q]) ++ y :: b)) as Hl' by by rewrite app_nil_r, <- app_assoc in *.
      rewrite app_nil_r in *. rewrite (Hj y _ ltac:(set_solver) (Hl' _ _ _ eq_refl)). simpl.
      rewrite (decide_False (P := last a = Some y)).
      2: { intros H%last_Some_elem_of. apply (Hd y); set_solver. }
      by rewrite decide_True.
    + injection E as <- ->. rewrite <- app_assoc in *. simpl in *.
      rewrite (Hj y _ ltac:(set_solver) (Hl _ _ _ eq_refl)). simpl.
      rewrite (decide_False (P := head l2 = Some y)).
      2: { intros H%head_Some_elem_of. apply (Hd y); set_solver. }
      do 2 f_equal. destruct c as [|z c]; simpl.
      * by rewrite last_snoc, decide_True by done.
      * rewrite decide_False; [done|]. rewrite last_app_cons, last_cons_cons. intros H%last_Some_elem_of.
        apply NoDup_app in Hn1 as (_ & _ & [Hn1 _]%NoDup_cons). done.
  - assert (links e ((l1 ++ q :: c) ++ y :: b)) as Hl' by by rewrite <- app_assoc in *.
    rewrite (Hj y _ ltac:(set_solver) (Hl' _ _ _ eq_refl)). simpl.
    rewrite (decide_False (P := last l1 = Some y)).
    2: { intros H%last_Some_elem_of. apply (Hd y); set_solver. }
    do 2 f_equal. destruct c as [|z c]; simpl.
    * by rewrite decide_True, app_nil_r by done.
    * rewrite decide_False; [by rewrite !last_app_cons, last_cons_cons|].
      intros [= ->]. apply NoDup_cons in Hn3. set_solver.
Qed.

(** Writing one link of an entry, if there is an entry. *)
Definition upd_next (e : list PhysicalPageEntry) (x : option Z) (v : Z) : list PhysicalPageEntry :=
  match x with Some q => alter (fun en => mkEntry v (prev_index en)) (Z.to_nat q) e | None => e end.
Definition upd_prev (e : list PhysicalPageEntry) (x : option Z) (v : Z) : list PhysicalPageEntry :=
  match x with Some q => alter (fun en => mkEntry (next_index en) v) (Z.to_nat q) e | None => e end.

Lemma length_upd_next e x v : length (upd_next e x v) = length e.
Proof. destruct x; [apply length_alter|done]. Qed.
Lemma length_upd_prev e x v : length (upd_prev e x v) = length e.
Proof. destruct x; [apply length_alter|done]. Qed.

Definition opt_nonneg (x : option Z) : Prop := forall q, x = Some q -> 0 <= q.

Lemma lookup_upd_next e x v y en :
  opt_nonneg x -> 0 <= y -> e !! Z.to_nat y = Some en ->
  upd_next e x v !! Z.to_nat y = Some (mkEntry (if decide (x = Some y) then v else next_index en) (prev_index en)).
Proof.
  intros Hx Hy E. destruct x as [q|]; simpl; [|by destruct en].
  specialize (Hx q eq_refl). destruct (decide (Some q = Some y)) as [[= ->]|].
  - by rewrite list_lookup_alter_eq, E.
  - rewrite list_lookup_alter_ne by (intros ?; apply n; f_equal; lia). by destruct en.
Qed.

Lemma lookup_upd_prev e x v y en :
  opt_nonneg x -> 0 <= y -> e !! Z.to_nat y = Some en ->
  upd_prev e x v !! Z.to_nat y = Some (mkEntry (next_index en) (if decide (x = Some y) then v else prev_index en)).
Proof.
  intros Hx Hy E. destruct x as [q|]; simpl; [|by destruct en].
  specialize (Hx q eq_refl). destruct (decide (Some q = Some y)) as [[= ->]|].
  - by rewrite list_lookup_alter_eq, E.
  - rewrite list_lookup_alter_ne by (intros ?; apply n; f_equal; lia). by destruct en.
Qed.

Lemma lookup_upd_next_ne e x v y :
  opt_nonneg x -> 0 <= y -> x <> Some y -> upd_next e x v !! Z.to_nat y = e !! Z.to_nat y.
Proof.
  intros Hx Hy Hne. destruct x as [q|]; [|done]. specialize (Hx q eq_refl).
  apply list_lookup_alter_ne. intros ?. apply Hne. f_equal. lia.
Qed.
Lemma lookup_upd_prev_ne e x v y :
  opt_nonneg x -> 0 <= y -> x <> Some y -> upd_prev e x v !! Z.to_nat y = e !! Z.to_nat y.
Proof.
  intros Hx Hy Hne. destruct x as [q|]; [|done]. specialize (Hx q eq_refl).
  apply list_lookup_alter_ne. intros ?. apply Hne. f_equal. lia.
Qed.

Lemma head_nonneg l : Forall (Z.le 0) l -> opt_nonneg (head l).
Proof. intros H q Hq%head_Some_elem_of. rewrite Forall_forall in H. by apply H. Qed.
Lemma last_nonneg l : Forall (Z.le 0) l -> opt_nonneg (last l).
Proof. intros H q Hq%last_Some_elem_of. rewrite Forall_forall in H. by apply H. Qed.

(** The writes of [remove_from_freelist]. *)
Definition unlink (e : list PhysicalPageEntry) (l1 : list Z) (q : Z) (l2 : list Z) : list PhysicalPageEntry :=
  <[Z.to_nat q := mkEntry (-1) (-1)]>
    (upd_prev (upd_next e (last l1) (enc (head l2))) (head l2) (enc (last l1))).

Lemma links_unlink e l1 q l2 :
  NoDup (l1 ++ q :: l2) -> Forall (Z.le 0) (l1 ++ q :: l2) -> links e (l1 ++ q :: l2) ->
  links (unlink e l1 q l2) (l1 ++ l2).
Proof.
  intros Hnd Hpos Hl. apply (links_remove e _ l1 q l2); [done|done|].
  intros y en Hy E. apply NoDup_app in Hnd as (Hn1 & Hd & [Hn2 Hn3]%NoDup_cons).
  apply Forall_app in Hpos as [Hp1 [Hpq Hp2]%Forall_cons].
  assert (0 <= y) by (apply elem_of_app in Hy as [Hy|Hy]; rewrite Forall_forall in Hp1, Hp2; auto).
  assert (y <> q) as Hyq.
  { intros ->. apply elem_of_app in Hy as [Hy|Hy]; [|done]. apply (Hd q Hy). by left. }
  unfold unlink. rewrite list_lookup_insert_ne by lia.
  rewrite (lookup_upd_prev _ _ _ _ _ (head_nonneg _ Hp2)
             ltac:(done) (lookup_upd_next _ _ _ _ _ (last_nonneg _ Hp1) ltac:(done) E)). done.
Qed.

Lemma unlink_frame e l1 q l2 y :
  Forall (Z.le 0) (l1 ++ q :: l2) -> 0 <= y -> y ∉ l1 ++ q :: l2 ->
  unlink e l1 q l2 !! Z.to_nat y = e !! Z.to_nat y.
Proof.
  intros Hpos Hy Hn. apply Forall_app in Hpos as [Hp1 [Hpq Hp2]%Forall_cons]. unfold unlink.
  rewrite list_lookup_insert_ne by (intros ?; assert (y = q) by lia; set_solver).
  rewrite lookup_upd_prev_ne, lookup_upd_next_ne; try done.
  - by apply last_nonneg.
  - intros E%last_Some_elem_of. set_solver.
  - by apply head_nonneg.
  - intros E%head_Some_elem_of. set_solver.
Qed.

Lemma length_unlink e l1 q l2 : length (unlink e l1 q l2) = length e.
Proof. unfold unlink. by rewrite length_insert, length_upd_prev, length_upd_next. Qed.

(** The writes that put a block at the head of a list. *)
Definition push (e : list PhysicalPageEntry) (q : Z) (l : list Z) : list PhysicalPageEntry :=
  <[Z.to_nat q := mkEntry (enc (head l)) (-1)]> (upd_prev e (head l) (2 * q)).

Lemma length_push e q l : length (push e q l) = length e.
Proof. unfold push. by rewrite length_insert, length_upd_prev. Qed.

Lemma links_push e q l :
  (Z.to_nat q < length e)%nat -> NoDup (q :: l) -> Forall (Z.le 0) (q :: l) -> links e l ->
  links (push e q l) (q :: l).
Proof.
  intros Hlen [Hq Hnd]%NoDup_cons [Hp Hpl]%Forall_cons Hl l1 y l2 E. unfold push.
  destruct l1 as [|z l1]; simpl in E; injection E as <- ->.
  - rewrite list_lookup_insert_eq by (by rewrite length_upd_prev). done.
  - assert (y <> q) by set_solver. assert (0 <= y) by (rewrite Forall_forall in Hpl; set_solver).
    rewrite list_lookup_insert_ne by lia.
    rewrite (lookup_upd_prev _ _ _ _ _ (head_nonneg _ Hpl) ltac:(done) (Hl _ _ _ eq_refl)). simpl.
    do 2 f_equal. destruct l1 as [|z l1]; simpl.
    + by rewrite decide_True.
    + rewrite decide_False; [done|].
      intros [= ->]. apply NoDup_cons in Hnd. set_solver.
Qed.

Lemma push_frame e q l y :
  Forall (Z.le 0) (q :: l) -> 0 <= y -> y ∉ q :: l -> push e q l !! Z.to_nat y = e !! Z.to_nat y.
Proof.
  intros [Hp Hpl]%Forall_cons Hy Hn. unfold push.
  rewrite list_lookup_insert_ne by (intros ?; assert (y = q) by lia; set_solver).
  rewrite lookup_upd_prev_ne; [done|by apply head_nonneg|done|]. intros E%head_Some_elem_of. set_solver.
Qed.

Lemma links_pop e q l :
  NoDup (q :: l) -> Forall (Z.le 0) (q :: l) -> links e (q :: l) -> links (upd_prev e (head l) (-1)) l.
Proof.
  intros Hnd [Hq Hl]%Forall_cons H. apply (links_remove e _ [] q l); [done|done|].
  intros y en Hy E. simpl in *. assert (0 <= y) by (rewrite Forall_forall in Hl; auto).
  by rewrite (lookup_upd_prev _ _ _ _ _ (head_nonneg _ Hl) ltac:(done) E).
Qed.

(** ** The state and the sets of free blocks *)

Record geom (k : Z) (z : PhysicalZone) : Prop := {
  g_k : 0 <= k <= max_order;
  g_pages : m_page_count z = 2 ^ k;
  g_base : 0 <= m_base_address z;
  g_aligned : m_base_address z mod PAGE_SIZE = 0;
  g_end : m_base_address z + 2 ^ k * PAGE_SIZE < 2 ^ 64;
  g_entries : Z.of_nat (length (page_entries z)) = 2 ^ k;
  g_buckets : length (m_buckets z) = 13%nat }.

Definition bits_ok (k o : Z) (P : Z -> Prop) (b : BuddyBucket) : Prop :=
  order b = o /\ wf (bitmap b) /\ m_size (bitmap b) = bitmap_size_for_order (2 ^ k * 2) o /\
  forall p, 0 <= p < bitmap_size_for_order (2 ^ k * 2) o -> bit (bitmap b) p = true <-> P p.

(** Some block of the pair [p] is in the list. *)
Definition pair_in (o : Z) (l : list Z) (p : Z) : Prop := exists q, q ∈ l /\ q / 2 ^ (o + 1) = p.

Definition bucket_ok (k o : Z) (l : list Z) (b : BuddyBucket) : Prop :=
  freelist b = enc (head l) /\ bits_ok k o (pair_in o l) b.

Record zrep (k : Z) (F : Z -> list Z) (z : PhysicalZone) : Prop := {
  z_geom : geom k z;
  z_bucket : forall o, 0 <= o <= max_order ->
    exists b, m_buckets z !! Z.to_nat o = Some b /\ bucket_ok k o (F o) b;
  z_links : forall o, 0 <= o <= max_order -> links (page_entries z) (F o) }.

(** What the operations on the lists leave alone. *)
Definition same (z z' : PhysicalZone) : Prop :=
  m_base_address z' = m_base_address z /\ m_page_count z' = m_page_count z /\ m_used_chunks z' = m_used_chunks z.

Lemma same_trans z1 z2 z3 : same z1 z2 -> same z2 z3 -> same z1 z3.
Proof. unfold same. intuition congruence. Qed.

Lemma geom_with_entries k z e :
  geom k z -> length e = length (page_entries z) -> geom k (with_entries z e).
Proof. intros [] E. split; simpl; try done. by rewrite E. Qed.
Lemma geom_with_buckets k z l :
  geom k z -> length l = length (m_buckets z) -> geom k (with_buckets z l).
Proof. intros [] E. split; simpl; try done. by rewrite E. Qed.

Lemma zrep_upd k F z o l b e :
  zrep k F z -> 0 <= o <= max_order -> bucket_ok k o l b -> links e l ->
  length e = length (page_entries z) ->
  (forall o' q, o' <> o -> q ∈ F o' -> e !! Z.to_nat q = page_entries z !! Z.to_nat q) ->
  zrep k (upd F o l) (with_buckets (with_entries z e) (<[Z.to_nat o := b]> (m_buckets z))).
Proof.
  intros [Hg Hb Hl] Ho Hok Hlinks Hlen Hframe. unfold max_order in *. split.
  - apply geom_with_buckets; [by apply geom_with_entries|apply length_insert].
  - intros o' Ho'. simpl. destruct (decide (o' = o)) as [->|Hne].
    + rewrite upd_eq, list_lookup_insert_eq by (rewrite (g_buckets _ _ Hg); lia). by exists b.
    + rewrite upd_ne, list_lookup_insert_ne by lia. by apply Hb.
  - intros o' Ho'. simpl. destruct (decide (o' = o)) as [->|Hne]; [by rewrite upd_eq|].
    rewrite upd_ne by done. eapply links_frame; [|by apply Hl]. intros q Hq. by eapply Hframe.
Qed.

Lemma entry_index_page k z q :
  geom k z -> 0 <= q < 2 ^ k -> entry_index (m_base_address z) (2 * q) = q.
Proof.
  intros [? _ ? Ha He _ _] Hq. unfold entry_index, ZONE_CHUNK_SIZE, PAGE_SIZE in *.
  change (4096 / 2) with 2048. rewrite wrap_small by (unfold in_width; lia).
  rewrite !Z.shiftr_div_pow2 by lia. change (2 ^ 12) with 4096.
  replace (m_base_address z + 2 * q * 2048) with (m_base_address z + q * 4096) by lia.
  rewrite Z.div_add by lia. lia.
Qed.

Lemma wp_get_entry k z q en Q :
  geom k z -> 0 <= q < 2 ^ k -> page_entries z !! Z.to_nat q = Some en ->
  Q (Ok en) z -> wp (get_freelist_entry (2 * q)) z Q.
Proof.
  intros Hg Hq He HQ. unfold get_freelist_entry. wp_steps.
  rewrite (entry_index_page k) by done. by rewrite (at_index_Z _ _ en) by (done || lia).
Qed.

Lemma wp_put_entry k z q en Q :
  geom k z -> 0 <= q < 2 ^ k ->
  Q (Ok tt) (with_entries z (<[Z.to_nat q := en]> (page_entries z))) -> wp (put_freelist_entry (2 * q)  en) z Q.
Proof.
  intros Hg Hq HQ. unfold put_freelist_entry. wp_steps.
  rewrite (entry_index_page k) by done. rewrite set_at_index_Z by (rewrite (g_entries _ _ Hg); lia). by wp_steps.
Qed.

Lemma entry_exists k z q : geom k z -> 0 <= q < 2 ^ k -> exists en, page_entries z !! Z.to_nat q = Some en.
Proof. intros Hg Hq. apply lookup_lt_is_Some_2. pose proof (g_entries _ _ Hg). lia. Qed.

Lemma alter_as_insert {A} (f : A -> A) (l : list A) i x : l !! i = Some x -> alter f i l = <[i := f x]> l.
Proof. intros H. rewrite list_insert_alter. apply list_alter_ext; [|done]. intros y Hy. congruence. Qed.

Lemma wp_set_prev k z x v Q :
  geom k z -> (forall q, x = Some q -> 0 <= q < 2 ^ k) ->
  Q (Ok tt) (with_entries z (upd_prev (page_entries z) x v)) ->
  wp (if negb (enc x =? -1) then set_prev_index (enc x) v else kret tt) z Q.
Proof.
  intros Hg Hx HQ. destruct x as [q|]; simpl.
  - specialize (Hx q eq_refl). rewrite (proj2 (Z.eqb_neq _ _)) by lia. simpl. unfold set_prev_index.
    destruct (entry_exists k z q Hg Hx) as [en He].
    wp_step. apply (wp_get_entry k _ _ en); [done..|]. apply (wp_put_entry k); [done..|].
    simpl in HQ. by rewrite (alter_as_insert _ _ _ en He) in HQ.
  - wp_steps. by destruct z.
Qed.

Lemma wp_set_next k z x v Q :
  geom k z -> (forall q, x = Some q -> 0 <= q < 2 ^ k) ->
  Q (Ok tt) (with_entries z (upd_next (page_entries z) x v)) ->
  wp (if negb (enc x =? -1) then set_next_index (enc x) v else kret tt) z Q.
Proof.
  intros Hg Hx HQ. destruct x as [q|]; simpl.
  - specialize (Hx q eq_refl). rewrite (proj2 (Z.eqb_neq _ _)) by lia. simpl. unfold set_next_index.
    destruct (entry_exists k z q Hg Hx) as [en He].
    wp_step. apply (wp_get_entry k _ _ en); [done..|]. apply (wp_put_entry k); [done..|].
    simpl in HQ. by rewrite (alter_as_insert _ _ _ en He) in HQ.
  - wp_steps. by destruct z.
Qed.

Lemma wp_get_bucket z o b Q :
  0 <= o -> m_buckets z !! Z.to_nat o = Some b -> Q (Ok b) z -> wp (get_bucket o) z Q.
Proof. intros Ho Hb HQ. unfold get_bucket. wp_steps. by rewrite (at_index_Z _ _ b). Qed.

Lemma wp_put_bucket k z o b Q :
  geom k z -> 0 <= o <= max_order ->
  Q (Ok tt) (with_buckets z (<[Z.to_nat o := b]> (m_buckets z))) -> wp (put_bucket o b) z Q.
Proof.
  intros Hg Ho HQ. unfold put_bucket, max_order in *. wp_steps.
  rewrite set_at_index_Z by (rewrite (g_buckets _ _ Hg); lia). by wp_steps.
Qed.

Lemma block_size_pow o : 0 <= o -> block_size_of o = 2 * 2 ^ o.
Proof. intros Ho. unfold block_size_of. rewrite Z.shiftl_mul_pow2 by lia. done. Qed.

Lemma pair_index k o q :
  is_block k o q -> 0 <= q / 2 ^ (o + 1) < bitmap_size_for_order (2 ^ k * 2) o.
Proof.
  intros (Ho & Hq & Hm & He). unfold bitmap_size_for_order. rewrite block_size_pow by lia.
  pose proof (pow2_pos o ltac:(lia)) as Hp. rewrite pow2_succ by lia. split; [apply Z.div_pos; lia|].
  rewrite (Z.mul_comm (2 ^ k)), Z.div_mul_cancel_l by lia.
  rewrite (Z.mul_comm 2), <- Z.div_div by lia.
  assert (q / 2 ^ o < 2 ^ k / 2 ^ o) as Hlt.
  { apply Z.div_lt_upper_bound; [lia|].
    replace (2 ^ o * (2 ^ k / 2 ^ o)) with (2 ^ k); [lia|].
    replace k with (o + (k - o)) by lia. rewrite Z.pow_add_r, (Z.mul_comm (2 ^ o)), Z.div_mul by lia. lia. }
  unfold ceil_div. set (n := 2 ^ k / 2 ^ o) in *. pose proof (Z.div_pos q (2 ^ o)).
  pose proof (Z.div_mod n 2 ltac:(lia)). pose proof (Z.mod_pos_bound n 2 ltac:(lia)).
  rewrite (proj2 (Z.ltb_lt 0 n)) by lia. apply Z.div_lt_upper_bound; [lia|].
  destruct (Z.eqb_spec (n mod 2) 0); simpl; lia.
Qed.

Lemma buddy_bit_index_page b q : 0 <= order b -> buddy_bit_index b (2 * q) = q / 2 ^ (order b + 1).
Proof.
  intros Ho. unfold buddy_bit_index. rewrite !Z.shiftr_div_pow2 by lia.
  change (2 ^ 1) with 2. rewrite (Z.mul_comm 2 q), Z.div_mul, Z.add_comm by lia. done.
Qed.

Lemma get_buddy_bit_spec k o P b q :
  bits_ok k o P b -> is_block k o q ->
  exists v : bool, get_buddy_bit b (2 * q) = Ok v /\ (v = true <-> P (q / 2 ^ (o + 1))).
Proof.
  intros (Eo & Hwf & Hs & Hbits) Hb. unfold get_buddy_bit. pose proof (pair_index k o q Hb).
  rewrite buddy_bit_index_page, Eo by (destruct Hb; lia).
  rewrite get_spec by (done || lia). eexists. split; [done|]. by apply Hbits.
Qed.

Lemma set_buddy_bit_spec k o P b q (v : bool) :
  bits_ok k o P b -> is_block k o q ->
  exists b', set_buddy_bit b (2 * q) v = Ok b' /\ freelist b' = freelist b /\
    bits_ok k o (fun p => if p =? q / 2 ^ (o + 1) then v = true else P p) b'.
Proof.
  intros (Eo & Hwf & Hs & Hbits) Hb. unfold set_buddy_bit. pose proof (pair_index k o q Hb).
  rewrite buddy_bit_index_page, Eo by (destruct Hb; lia).
  destruct (set_spec (bitmap b) (q / 2 ^ (o + 1)) v Hwf) as (bm & -> & Hwf' & Hs' & Hbit'); [lia|].
  eexists. split; [done|]. split; [done|]. unfold bits_ok. simpl. split_and!; [done|done|congruence|].
  intros p Hp. rewrite Hbit' by lia. destruct (p =? _); [done|by apply Hbits].
Qed.

Lemma bits_ok_ext k o P P' b : (forall p, P p <-> P' p) -> bits_ok k o P b -> bits_ok k o P' b.
Proof. intros E (H1 & H2 & H3 & H4). split_and!; [done..|]. intros p Hp. rewrite <- E. by apply H4. Qed.

(** ** The list operations *)

Section operations.
Context (k : Z) (F : Z -> list Z) (z : PhysicalZone).
Context (HF : fwf k F) (Hz : zrep k F z).

Lemma free_page o q : q ∈ F o -> 0 <= q < 2 ^ k /\ 0 <= o <= max_order.
Proof.
  intros Hq. destruct (f_block k F HF o q Hq) as (Ho & Hq0 & _ & He).
  pose proof (pow2_pos o ltac:(lia)). pose proof (g_k _ _ (z_geom _ _ _ Hz)). lia.
Qed.

Lemma free_nonneg o : Forall (Z.le 0) (F o).
Proof. apply Forall_forall. intros q Hq%free_page. lia. Qed.

Lemma head_page o l q : F o = l \/ (exists x, F o = x :: l) -> head l = Some q -> 0 <= q < 2 ^ k.
Proof.
  intros Hl Hq%head_Some_elem_of. apply (free_page o). destruct Hl as [->|[x ->]]; [done|by right].
Qed.

Lemma other_order o o' q q' : o' <> o -> q ∈ F o -> q' ∈ F o' -> q' <> q.
Proof.
  intros Hne Hq Hq' ->. pose proof (free_page _ _ Hq). pose proof (free_page _ _ Hq').
  destruct (f_disj k F HF o q o' q q Hq Hq'); [apply in_block_self; lia..|congruence].
Qed.

(** Taking the first block of a list. *)
Lemma take_first_spec o q l :
  F o = q :: l ->
  wp (take_first o) z (fun r z' => r = Ok (2 * q) /\ zrep k (upd F o l) z' /\ same z z').
Proof using HF Hz.
  intros El. assert (q ∈ F o) as Hq by (rewrite El; left).
  destruct (free_page o q Hq) as [Hq2 Ho]. pose proof (f_block k F HF o q Hq) as Hb.
  pose proof (f_nodup k F HF o) as Hnd. rewrite El in Hnd.
  pose proof (free_nonneg o) as Hpos. rewrite El in Hpos.
  destruct (z_bucket k F z Hz o Ho) as (b & Eb & Efl & Hbits). rewrite El in Efl, Hbits. simpl in Efl.
  pose proof (z_geom k F z Hz) as Hg.
  pose proof (z_links k F z Hz o Ho) as Hl. rewrite El in Hl.
  pose proof (Hl [] q l eq_refl) as He. simpl in He.
  unfold take_first. wp_step. apply (wp_get_bucket _ _ b); [lia|done|]. rewrite Efl.
  wp_step. apply (wp_get_entry k _ q _ _ Hg Hq2 He). cbn [next_index prev_index with_freelist freelist].
  wp_step. apply (wp_set_prev k); [done|intros x Hx; apply (head_page o l); eauto|].
  destruct (get_buddy_bit_spec k o _ (with_freelist b (enc (head l))) q Hbits Hb) as (v & Ev & Hv).
  rewrite (proj2 Hv) in Ev by (exists q; split; [left|done]).
  wp_step. apply wp_lift. rewrite Ev. wp_step. apply wp_VERIFY; [done|].
  destruct (set_buddy_bit_spec k o _ (with_freelist b (enc (head l))) q false Hbits Hb) as (b' & Eb' & Efl' & Hbits').
  wp_step. apply wp_lift. rewrite Eb'. wp_step.
  apply (wp_put_bucket k); [apply geom_with_entries; [done|apply length_upd_prev]|done|]. wp_step.
  split_and!; [done| |done]. apply (zrep_upd k F z); try done.
  - split; [done|]. eapply bits_ok_ext; [|exact Hbits']. intros p. simpl.
    destruct (Z.eqb_spec p (q / 2 ^ (o + 1))) as [->|Hne]; unfold pair_in.
    + split; [done|]. intros (x & Hx & Ex). apply NoDup_cons in Hnd as [Hnd _]. destruct Hnd.
      rewrite <- (f_buddy k F HF o x q); [done|rewrite El; by right|done|done].
    + split; intros (x & Hx & Ex); [|exists x; split; [by right|done]].
      apply elem_of_cons in Hx as [->|Hx]; [congruence|by exists x].
  - by apply (links_pop _ q).
  - apply length_upd_prev.
  - intros o' x Hne Hx. pose proof (free_page _ _ Hx). apply Forall_cons in Hpos as [_ Hpos].
    apply lookup_upd_prev_ne; [by apply head_nonneg|lia|]. intros E%head_Some_elem_of.
    apply (other_order o o' x x Hne); [rewrite El; by right|done|done].
Qed.

(** Putting a block at the head of the list whose bucket and entries are given: shared by
    [split_block], where the list is empty, and [add_to_freelist]. *)
Lemma push_zrep o q b' :
  is_block k o q -> (forall p, in_block o q p -> ~ covers F p) ->
  freelist b' = 2 * q ->
  bits_ok k o (fun p => if p =? q / 2 ^ (o + 1) then true = true else pair_in o (F o) p) b' ->
  zrep k (upd F o (q :: F o))
    (with_buckets (with_entries z (push (page_entries z) q (F o))) (<[Z.to_nat o := b']> (m_buckets z))).
Proof using HF Hz.
  intros Hb Hc Efl Hbits. pose proof (z_geom k F z Hz) as Hg. pose proof (g_k _ _ Hg).
  pose proof Hb as (Ho & Hq0 & _ & He). pose proof (pow2_pos o ltac:(lia)).
  assert (forall o' x, x ∈ F o' -> x <> q) as Hfresh.
  { intros o' x Hx ->. apply (Hc q); [apply in_block_self; lia|]. exists o', q. split; [done|].
    apply in_block_self. by apply free_page in Hx as [_ [? _]]. }
  apply (zrep_upd k F z); [done|lia| | | |].
  - split; [done|]. eapply bits_ok_ext; [|exact Hbits]. intros p. simpl. unfold pair_in.
    destruct (Z.eqb_spec p (q / 2 ^ (o + 1))) as [->|Hne].
    + split; [intros _|done]. exists q. split; [left|done].
    + split; intros (x & Hx & Ex); [exists x; split; [by right|done]|].
      apply elem_of_cons in Hx as [->|Hx]; [congruence|by exists x].
  - apply links_push.
    + pose proof (g_entries _ _ Hg). lia.
    + apply NoDup_cons. split; [|apply HF]. intros Hx. by apply (Hfresh o q).
    + apply Forall_cons. split; [done|apply free_nonneg].
    + apply (z_links k F z Hz). lia.
  - apply length_push.
  - intros o' x Hne Hx. apply push_frame.
    + apply Forall_cons. split; [done|apply free_nonneg].
    + by apply free_page in Hx as [[? _] _].
    + intros [->|Hx']%elem_of_cons; [by apply (Hfresh o' q)|]. by apply (other_order o o' x x).
Qed.

(** Splitting a block of which no page is free into an empty list. *)
Lemma split_block_spec o q :
  0 <= o -> is_block k (o + 1) q -> F o = [] -> (forall p, in_block (o + 1) q p -> ~ covers F p) ->
  wp (split_block o (2 * q)) z
    (fun r z' => r = Ok (2 * (q + 2 ^ o)) /\ zrep k (upd F o [q]) z' /\ same z z').
Proof using HF Hz.
  intros Ho Hb1 El Hc. destruct (halves k o q Hb1 Ho) as (Hb & Hb2 & Hh & _).
  pose proof (z_geom k F z Hz) as Hg. pose proof (g_k _ _ Hg) as Hk.
  pose proof Hb1 as (Ho1 & Hq0 & _ & He). pose proof (pow2_pos o Ho). pose proof (pow2_succ o Ho).
  assert (2 ^ k <= 2 ^ 12) by (apply Z.pow_le_mono_r; unfold max_order in *; lia).
  destruct (z_bucket k F z Hz o ltac:(lia)) as (b & Eb & Efl & Hbits). rewrite El in Hbits.
  unfold split_block. wp_step. apply (wp_put_entry k); [done|lia|].
  wp_step. apply (wp_get_bucket _ _ b); [lia|done|].
  destruct (get_buddy_bit_spec k o _ (with_freelist b (2 * q)) q Hbits Hb) as (v & Ev & Hv).
  destruct v. { destruct (proj1 Hv eq_refl) as (x & Hx%not_elem_of_nil & _). done. }
  wp_step. apply wp_lift. rewrite Ev. wp_step. apply wp_VERIFY; [done|].
  destruct (set_buddy_bit_spec k o _ (with_freelist b (2 * q)) q true Hbits Hb) as (b' & Eb' & Efl' & Hbits').
  wp_step. apply wp_lift. rewrite Eb'. wp_step.
  apply (wp_put_bucket k); [apply geom_with_entries; [done|apply length_insert]|lia|]. wp_step.
  split_and!; [| |done].
  - rewrite block_size_pow by done. unfold ChunkIndex. rewrite swrap_small; [f_equal; lia|lia|].
    change (2 ^ 12) with 4096 in *. change (2 ^ (16 - 1)) with 32768. lia.
  - pose proof (push_zrep o q b' Hb (fun p Hp => Hc p (proj2 (Hh p) (or_introl Hp))) Efl') as Hp. rewrite El in Hp. by apply Hp.
Qed.

Lemma add_to_freelist_spec o q :
  is_block k o q -> (forall p, in_block o q p -> ~ covers F p) ->
  wp (add_to_freelist o (2 * q)) z
    (fun r z' => r = Ok tt /\ zrep k (upd F o (q :: F o)) z' /\ same z z').
Proof using HF Hz.
  intros Hb Hc. pose proof (z_geom k F z Hz) as Hg. pose proof (g_k _ _ Hg) as Hk.
  pose proof Hb as (Ho & Hq0 & _ & He). pose proof (pow2_pos o ltac:(lia)).
  destruct (z_bucket k F z Hz o ltac:(lia)) as (b & Eb & Efl & Hbits).
  unfold add_to_freelist. wp_step. apply (wp_get_bucket _ _ b); [lia|done|]. rewrite Efl.
  wp_step. apply (wp_set_prev k); [done|intros x Hx; apply (head_page o (F o)); auto|].
  wp_step. apply (wp_put_entry k); [apply geom_with_entries; [done|apply length_upd_prev]|lia|].
  destruct (set_buddy_bit_spec k o _ (with_freelist b (2 * q)) q true Hbits Hb) as (b' & Eb' & Efl' & Hbits').
  wp_step. apply wp_lift. rewrite Eb'.
  apply (wp_put_bucket k); [|lia|].
  { apply geom_with_entries; [apply geom_with_entries; [done|apply length_upd_prev]|apply length_insert]. }
  split_and!; [done| |done]. by apply (push_zrep o q b').
Qed.

Lemma remove_from_freelist_spec o b l1 q l2 :
  m_buckets z !! Z.to_nat o = Some b -> F o = l1 ++ q :: l2 ->
  wp (remove_from_freelist o (2 * q)) z (fun r z' => r = Ok tt /\
    z' = with_buckets (with_entries z (unlink (page_entries z) l1 q l2))
           (<[Z.to_nat o := with_freelist b (enc (head (l1 ++ l2)))]> (m_buckets z))).
Proof using HF Hz.
  intros Eb El. pose proof (z_geom k F z Hz) as Hg. assert (q ∈ F o) as Hq by (rewrite El; set_solver).
  destruct (free_page o q Hq) as [Hq2 Ho].
  destruct (z_bucket k F z Hz o Ho) as (b0 & Eb0 & Efl & _). assert (b0 = b) as -> by congruence.
  pose proof (z_links k F z Hz o Ho l1 q l2 El) as He.
  assert (forall x, last l1 = Some x -> 0 <= x < 2 ^ k) as Hlast.
  { intros x Hx%last_Some_elem_of. apply (free_page o). rewrite El. set_solver. }
  assert (forall x, head l2 = Some x -> 0 <= x < 2 ^ k) as Hhead.
  { intros x Hx%head_Some_elem_of. apply (free_page o). rewrite El. set_solver. }
  assert (forall x, (forall y, x = Some y -> 0 <= y < 2 ^ k) -> -1 <= enc x) as Henc.
  { intros [y|] H; simpl; [specialize (H y eq_refl)|]; lia. }
  unfold remove_from_freelist. wp_step. apply (wp_get_entry k _ q _ _ Hg Hq2 He). cbn [next_index prev_index].
  wp_step. apply wp_VERIFY; [by apply Z.leb_le, Henc|].
  wp_step. apply wp_VERIFY; [by apply Z.leb_le, Henc|].
  wp_step. apply (wp_set_next k); [done|done|].
  wp_step. apply (wp_set_prev k); [|done|].
  { apply geom_with_entries; [done|apply length_upd_next]. }
  wp_step. apply (wp_get_bucket _ _ b); [lia|done|].
  assert (geom k (with_entries z (upd_prev (upd_next (page_entries z) (last l1) (enc (head l2)))
     (head l2) (enc (last l1))))) as Hg2.
  { apply geom_with_entries; [done|]. by rewrite length_upd_prev, length_upd_next. }
  pose proof (f_nodup k F HF o) as Hnd. rewrite El in Efl, Hnd.
  wp_step. wp_step; bool_hyps.
  - apply (wp_put_bucket k); [done|done|].
    assert (l1 = []) as ->.
    { destruct l1 as [|x l1]; [done|]. simpl in Efl. assert (x = q) as -> by lia.
      apply NoDup_cons in Hnd as [Hnd _]. set_solver. }
    apply (wp_put_entry k); [apply geom_with_buckets; [done|apply length_insert]|lia|]. done.
  - wp_step. apply (wp_put_entry k); [done|lia|]. split; [done|].
    assert (with_freelist b (enc (head (l1 ++ l2))) = b) as ->.
    { destruct l1 as [|x l1]; simpl in *; [congruence|]. rewrite <- Efl. by destruct b. }
    by rewrite (list_insert_id (m_buckets z)).
Qed.

(** The buddy [q'] of the block is free: it is taken off the list and merged. *)
Lemma merge_with_buddy_spec o q q' :
  is_block k o q -> q' ∈ F o -> q <> q' -> q / 2 ^ (o + 1) = q' / 2 ^ (o + 1) ->
  wp (merge_with_buddy o (2 * q)) z (fun r z' =>
    r = Ok (2 * (q / 2 ^ (o + 1) * 2 ^ (o + 1))) /\ same z z' /\
    exists l, zrep k (upd F o l) z' /\ NoDup l /\ (forall x, x ∈ l <-> x ∈ F o /\ x <> q')).
Proof using HF Hz.
  intros Hb Hq' Hne E. pose proof (z_geom k F z Hz) as Hg. destruct (free_page o q' Hq') as [Hp' Ho].
  pose proof (f_block k F HF o q' Hq') as Hb'. pose proof (g_k _ _ Hg) as Hk.
  destruct (buddies k o q q' Hb Hb' Hne E) as [HB Hor]. set (base := q / 2 ^ (o + 1) * 2 ^ (o + 1)) in *.
  destruct (z_bucket k F z Hz o Ho) as (b & Eb & Efl & Hbits).
  pose proof HB as (Ho1 & Hbase & _ & He). pose proof (pow2_pos o ltac:(lia)). pose proof (pow2_succ o ltac:(lia)).
  assert (2 ^ k <= 4096) by (apply (Z.pow_le_mono_r 2 k 12); unfold max_order in *; lia).
  assert (forall x, 0 <= x < 2 ^ k -> ChunkIndex (2 * x) = 2 * x) as Hchunk.
  { intros x Hx. apply swrap_small; [lia|]. change (2 ^ (16 - 1)) with 32768. lia. }
  unfold merge_with_buddy. wp_step. apply (wp_get_bucket _ _ b); [lia|done|].
  rewrite buddy_bit_index_page by (destruct Hbits as [-> _]; lia). destruct Hbits as [Eord Hbits]. rewrite Eord.
  replace (Z.shiftl (Z.shiftl (q / 2 ^ (o + 1)) 1) (1 + o)) with (2 * base).
  2: { subst base. rewrite !Z.shiftl_mul_pow2, (Z.add_comm 1 o) by lia. lia. }
  rewrite Hchunk by lia.
  apply list_elem_of_split in Hq' as (l1 & l2 & El).
  pose proof (f_nodup k F HF o) as Hnd. pose proof (free_nonneg o) as Hpos.
  wp_step. apply (wp_mono _ _ (fun r z' => r = Ok tt /\
    z' = with_buckets (with_entries z (unlink (page_entries z) l1 q' l2))
           (<[Z.to_nat o := with_freelist b (enc (head (l1 ++ l2)))]> (m_buckets z)))).
  { rewrite block_size_pow by lia. replace (2 * base + 2 * 2 ^ o) with (2 * (base + 2 ^ o)) by lia.
    rewrite Hchunk by lia. destruct Hor as [[Hqb Hq'b]|[Hqb Hq'b]].
    - rewrite (proj2 (Z.eqb_eq _ _)), <- Hq'b by lia. by apply remove_from_freelist_spec.
    - rewrite (proj2 (Z.eqb_neq _ _)), <- Hq'b by lia. by apply remove_from_freelist_spec. }
  intros r z' [-> ->]. set (fl := enc (head (l1 ++ l2))). wp_step.
  apply (wp_get_bucket _ _ (with_freelist b fl)); [lia| |].
  { simpl. rewrite list_lookup_insert_eq; [done|]. by apply lookup_lt_Some in Eb. }
  assert (bits_ok k o (pair_in o (F o)) (with_freelist b fl)) as Hbits2 by done.
  destruct (set_buddy_bit_spec k o _ _ q false Hbits2 Hb) as (b' & Eb' & Efl' & Hbits').
  wp_step. apply wp_lift. rewrite Eb'. wp_step. apply (wp_put_bucket k); [|done|].
  { apply geom_with_buckets; [apply geom_with_entries; [done|apply length_unlink]|apply length_insert]. }
  wp_step. split_and!; [done|done|]. exists (l1 ++ l2).
  assert (forall x, x ∈ l1 ++ l2 <-> x ∈ F o /\ x <> q') as Hmem.
  { rewrite El in *. apply NoDup_app in Hnd as (_ & Hd & [Hn _]%NoDup_cons). intros x. specialize (Hd x). set_solver. }
  split_and!; [|rewrite El in Hnd; apply NoDup_app in Hnd as (? & ? & [? ?]%NoDup_cons); apply NoDup_app; set_solver|done].
  simpl. rewrite list_insert_insert_eq. apply (zrep_upd k F z); try done.
  - split; [done|]. eapply bits_ok_ext; [|exact Hbits']. intros p. simpl. unfold pair_in.
    destruct (Z.eqb_spec p (q / 2 ^ (o + 1))) as [->|Hp].
    + split; [done|]. intros (x & [Hx Hxn]%Hmem & Ex). destruct Hxn.
      apply (f_buddy k F HF o); [done|rewrite El; set_solver|congruence].
    + split; intros (x & Hx & Ex).
      * exists x. split; [|done]. apply Hmem. split; [done|]. intros ->. congruence.
      * exists x. by apply Hmem in Hx as [? _].
  - rewrite El in *. apply links_unlink; [done|done|]. rewrite <- El. by apply (z_links k F z Hz).
  - apply length_unlink.
  - intros o' x Hne' Hx. pose proof (free_page _ _ Hx). rewrite El in *. apply unlink_frame; [done|lia|].
    rewrite <- El. intros Hx'. by apply (other_order o o' x x).
Qed.
End operations.

(** ** Allocation and deallocation *)

(** [F'] is [F] without the block. *)
Definition taken (k o q : Z) (F F' : Z -> list Z) : Prop :=
  is_block k o q /\ fwf k F' /\
  (forall p, covers F p <-> covers F' p \/ in_block o q p) /\
  (forall p, in_block o q p -> ~ covers F' p).

Lemma allocate_block_impl_spec k fuel o F z :
  fwf k F -> zrep k F z -> 0 <= o -> max_order + 1 - o < Z.of_nat fuel -> (0 < fuel)%nat ->
  wp (allocate_block_impl fuel o) z (fun r z' =>
    (r = Ok None /\ z' = z /\ forall o', o <= o' -> F o' = []) \/
    (exists q F', r = Ok (Some (2 * q)) /\ zrep k F' z' /\ same z z' /\ taken k o q F F' /\
       forall o', o' < o -> F' o' = F o')).
Proof.
  revert o F z. induction fuel as [|fuel IH]; intros o F z HF Hz Ho Hfuel Hfuel0; [lia|]. cbn [allocate_block_impl].
  pose proof (g_k _ _ (z_geom _ _ _ Hz)) as Hk. wp_step; bool_hyps.
  { wp_step. left. split_and!; [done|done|]. intros o' Ho'. destruct (F o') as [|q l] eqn:El; [done|].
    destruct (f_block k F HF o' q); [rewrite El; left|lia]. }
  destruct (z_bucket k F z Hz o ltac:(lia)) as (b & Eb & Efl & _).
  wp_step. apply (wp_get_bucket _ _ b); [lia|done|]. rewrite Efl. destruct (F o) as [|q l] eqn:El; cbn [head enc].
  - rewrite Z.eqb_refl. wp_step. eapply wp_mono; [apply (IH (o + 1) F z); (done || lia)|].
    intros r z1 [(-> & -> & Hnone)|(q & F1 & -> & Hz1 & Hs1 & (Hb & HF1 & Hcov & Hnc) & Hlow)]; wp_steps.
    { left. split_and!; [done|done|]. intros o' Ho'. destruct (decide (o' = o)) as [->|]; [done|].
      apply Hnone. lia. }
    assert (F1 o = []) as El1 by (rewrite Hlow by lia; done).
    eapply wp_mono; [by apply (split_block_spec k F1 z1 HF1 Hz1); try lia|].
    intros r z2 (-> & Hz2 & Hs2). wp_steps. right.
    destruct (halves k o q Hb ltac:(lia)) as (B1 & B2 & Hh & _).
    destruct (fwf_add k F1 o q [q] HF1 B1) as [HF2 Hcov2].
    { intros p Hp. apply Hnc, Hh. by left. }
    { rewrite El1. set_solver. }
    { apply NoDup_singleton. }
    { rewrite El1. set_solver. }
    exists (q + 2 ^ o), (upd F1 o [q]). split_and!; [done|done|by eapply same_trans| |].
    + split_and!; [done|done| |].
      * intros p. rewrite Hcov, Hcov2, Hh. tauto.
      * intros p Hp [Hc|Hq]%Hcov2; [by apply (Hnc p); [apply Hh; right|]|].
        unfold in_block in *. lia.
    + intros o' Ho'. rewrite upd_ne by lia. apply Hlow. lia.
  - assert (q ∈ F o) as Hq by (rewrite El; left). pose proof (f_block k F HF o q Hq) as Hb.
    rewrite (proj2 (Z.eqb_neq _ _)) by (destruct Hb; lia).
    wp_step. eapply wp_mono; [by apply (take_first_spec k F z HF Hz o q l)|].
    intros r z1 (-> & Hz1 & Hs1). wp_steps. right. exists q, (upd F o l).
    pose proof (f_nodup k F HF o) as Hnd. rewrite El in Hnd. apply NoDup_cons in Hnd as [Hnq Hnd].
    destruct (fwf_remove k F o q l HF Hq Hnd) as (HF1 & Hcov & Hnc).
    { intros x. rewrite El, elem_of_cons. split; [|tauto]. intros Hx. split; [by right|]. by intros ->. }
    split_and!; [done|done|done|done|]. intros o' Ho'. by rewrite upd_ne by lia.
Qed.

Lemma deallocate_block_impl_spec k fuel o q F z :
  fwf k F -> zrep k F z -> is_block k o q -> (forall p, in_block o q p -> ~ covers F p) ->
  k - o < Z.of_nat fuel ->
  wp (deallocate_block_impl fuel (2 * q) o) z (fun r z' =>
    r = Ok tt /\ same z z' /\
    exists F', fwf k F' /\ zrep k F' z' /\ forall p, covers F' p <-> covers F p \/ in_block o q p).
Proof.
  revert o q F z. induction fuel as [|fuel IH]; intros o q F z HF Hz Hb Hc Hfuel; [destruct Hb; lia|].
  cbn [deallocate_block_impl]. pose proof (g_k _ _ (z_geom _ _ _ Hz)) as Hk.
  assert (0 <= o <= k) as Ho by apply Hb.
  destruct (z_bucket k F z Hz o ltac:(lia)) as (b & Eb & Efl & Hbits).
  wp_step. apply (wp_get_bucket _ _ b); [lia|done|].
  destruct (get_buddy_bit_spec k o _ b q Hbits Hb) as (v & Ev & Hv).
  wp_step. apply wp_lift. rewrite Ev. destruct v.
  - destruct (proj1 Hv eq_refl) as (q' & Hq' & Eq').
    assert (q <> q') as Hne.
    { intros <-. apply (Hc q); [apply in_block_self; lia|]. exists o, q. split; [done|apply in_block_self; lia]. }
    pose proof (f_block k F HF o q' Hq') as Hb'.
    wp_step. eapply wp_mono; [by apply (merge_with_buddy_spec k F z HF Hz o q q')|].
    intros r z1 (-> & Hs1 & l & Hz1 & Hnd & Hl).
    destruct (buddies k o q q' Hb Hb' Hne (eq_sym Eq')) as [HB Hor]. set (base := q / 2 ^ (o + 1) * 2 ^ (o + 1)) in *.
    destruct (fwf_remove k F o q' l HF Hq' Hnd Hl) as (HF1 & Hcov & Hnc).
    destruct (halves k o base HB ltac:(lia)) as (_ & _ & Hh & _).
    assert (forall p, in_block (o + 1) base p <-> in_block o q p \/ in_block o q' p) as Hh'.
    { intros p. rewrite Hh. destruct Hor as [[Ea Eb']|[Ea Eb']]; rewrite Eb', <- Ea; tauto. }
    eapply wp_mono; [apply (IH (o + 1) base (upd F o l) z1 HF1 Hz1 HB); [|lia]|].
    { intros p [Hp|Hp]%Hh'; [|by apply Hnc]. intros Hc'. apply (Hc p Hp), Hcov. by left. }
    intros r z2 (-> & Hs2 & F2 & HF2 & Hz2 & Hcov2). split_and!; [done|by eapply same_trans|].
    exists F2. split_and!; [done|done|]. intros p. rewrite Hcov2, Hcov, Hh'. tauto.
  - eapply wp_mono; [by apply (add_to_freelist_spec k F z HF Hz o q)|].
    intros r z1 (-> & Hz1 & Hs1). split_and!; [done|done|]. exists (upd F o (q :: F o)).
    assert (forall x, x ∈ F o -> x / 2 ^ (o + 1) <> q / 2 ^ (o + 1)) as Hbud.
    { intros x Hx E. assert (false = true); [|done]. apply Hv. by exists x. }
    destruct (fwf_add k F o q (q :: F o) HF Hb Hc Hbud) as [HF1 Hcov1]; [|intros x; apply elem_of_cons|done].
    apply NoDup_cons. split; [|apply HF]. intros Hx. by apply (Hbud q Hx).
Qed.

(** ** Zones as sets of free pages *)

Definition block_pages (o q : Z) : gset Z := list_to_set (seqZ q (2 ^ o)).

Lemma elem_block_pages o q p : p ∈ block_pages o q <-> in_block o q p.
Proof. unfold block_pages. rewrite elem_of_list_to_set. apply elem_of_seqZ. Qed.

Lemma size_block_pages o q : 0 <= o -> Z.of_nat (size (block_pages o q)) = 2 ^ o.
Proof.
  intros Ho. unfold block_pages. rewrite size_list_to_set by apply NoDup_seqZ.
  rewrite length_seqZ. pose proof (pow2_pos o Ho). lia.
Qed.

(** [A] is the set of the free pages of the zone. *)
Record zone_ok (k : Z) (A : gset Z) (z : PhysicalZone) : Prop := {
  zo_rep : exists F, fwf k F /\ zrep k F z /\ forall p, p ∈ A <-> covers F p;
  zo_used : m_used_chunks z = 2 * (2 ^ k - Z.of_nat (size A)) }.

Lemma zone_ok_geom k A z : zone_ok k A z -> geom k z.
Proof. intros [(F & _ & Hz & _) _]. by apply (z_geom k F). Qed.

Lemma zone_ok_subset k A z : zone_ok k A z -> A ⊆ block_pages k 0.
Proof.
  intros [(F & HF & _ & HA) _] p (o & q & Hq & Hp)%HA. apply elem_block_pages.
  destruct (f_block k F HF o q Hq) as (? & ? & _ & ?). unfold in_block in *. lia.
Qed.

Lemma zone_ok_size k A z : zone_ok k A z -> Z.of_nat (size A) <= 2 ^ k.
Proof.
  intros H. pose proof (g_k _ _ (zone_ok_geom _ _ _ H)). rewrite <- (size_block_pages k 0) by lia.
  apply inj_le, subseteq_size, (zone_ok_subset _ _ _ H).
Qed.

Lemma zone_ok_available k A z : zone_ok k A z -> available z = Z.of_nat (size A).
Proof.
  intros H. unfold available. rewrite (zo_used _ _ _ H), (g_pages k z (zone_ok_geom _ _ _ H)).
  rewrite Z.mul_comm, Z.div_mul by lia. lia.
Qed.

Lemma zrep_with_used k F z n : zrep k F z -> zrep k F (with_used z n).
Proof. intros [[] Hb Hl]. split; [by split|done|done]. Qed.

Lemma pow_bound k z : geom k z -> 2 ^ k <= 4096.
Proof. intros H. apply (Z.pow_le_mono_r 2 k 12); [lia|]. pose proof (g_k _ _ H). unfold max_order in *. lia. Qed.

Lemma allocate_block_spec k A z o :
  zone_ok k A z -> 0 <= o ->
  wp (allocate_block o) z (fun r z' => m_base_address z' = m_base_address z /\
    ((r = Ok None /\ z' = z /\ forall q, is_block k o q -> ~ block_pages o q ⊆ A) \/
     (exists q, r = Ok (Some (m_base_address z + q * PAGE_SIZE)) /\ is_block k o q /\
        block_pages o q ⊆ A /\ zone_ok k (A ∖ block_pages o q) z'))).
Proof.
  intros Hok Ho. pose proof (zone_ok_size _ _ _ Hok) as Hsize. pose proof (zone_ok_geom _ _ _ Hok) as Hg0.
  destruct Hok as [(F & HF & Hz & HA) Hu]. unfold allocate_block.
  wp_step. eapply wp_mono; [apply (allocate_block_impl_spec k order_fuel o F z HF Hz Ho); unfold max_order, order_fuel; lia|].
  intros r z1 [(-> & -> & Hnone)|(q & F' & -> & Hz1 & (Eb & Ep & Eu) & (Hb & HF' & Hcov & Hnc) & _)]; wp_step.
  { split; [done|]. left. split_and!; [done|done|]. intros q Hq Hsub.
    destruct (coalesced k F o q HF Hq) as (o' & q' & Ho' & Hin & _).
    { intros p Hp. apply HA, Hsub. by apply elem_block_pages. }
    rewrite Hnone in Hin by done. by apply not_elem_of_nil in Hin. }
  wp_step. wp_step. apply wp_VERIFY.
  { apply Z.eqb_eq. change 1 with (Z.ones 1). rewrite Z.land_ones by lia. change (2 ^ 1) with 2.
    rewrite Z.mul_comm. apply Z.mod_mul. lia. }
  pose proof Hb as (Hok & Hq0 & _ & He). pose proof (pow_bound k z Hg0).
  assert (block_pages o q ⊆ A) as Hsub.
  { intros p Hp%elem_block_pages. apply HA, Hcov. by right. }
  wp_steps. simpl. rewrite Eb. split; [done|]. right. exists q. split_and!; [|done|done|].
  - do 2 f_equal. unfold ZONE_CHUNK_SIZE. pose proof (g_base _ _ Hg0). pose proof (g_end _ _ Hg0).
    pose proof (pow2_pos o Ho). unfold PAGE_SIZE in *. change (4096 / 2) with 2048.
    rewrite wrap_small by (unfold in_width; lia). lia.
  - pose proof (size_block_pages o q Ho). pose proof (subseteq_size _ _ Hsub). split.
    + exists F'. split_and!; [done|by apply zrep_with_used|]. intros p.
      rewrite elem_of_difference, elem_block_pages, HA, Hcov. specialize (Hnc p). tauto.
    + simpl. rewrite Eu, Hu, block_size_pow by done. rewrite size_difference by done.
      rewrite wrap_small by (unfold in_width; lia). lia.
Qed.

Lemma deallocate_block_spec k A z o q :
  zone_ok k A z -> is_block k o q -> block_pages o q ## A ->
  wp (deallocate_block (m_base_address z + q * PAGE_SIZE) o) z (fun r z' =>
    r = Ok tt /\ m_base_address z' = m_base_address z /\ zone_ok k (A ∪ block_pages o q) z').
Proof.
  intros Hok Hb Hd. pose proof (zone_ok_subset _ _ _ Hok) as HsubA. pose proof (zone_ok_geom _ _ _ Hok) as Hg0.
  destruct Hok as [(F & HF & Hz & HA) Hu]. pose proof Hb as (Ho & Hq0 & _ & He). pose proof (pow_bound k z Hg0).
  pose proof (pow2_pos o ltac:(lia)). unfold deallocate_block. wp_steps.
  replace (ChunkIndex _) with (2 * q).
  2: { unfold ZONE_CHUNK_SIZE, ChunkIndex, PAGE_SIZE in *. change (4096 / 2) with 2048.
       replace (m_base_address z + q * 4096 - m_base_address z) with (2 * q * 2048) by lia.
       rewrite wrap_small by (unfold in_width; lia). rewrite Z.div_mul by lia. rewrite swrap_small; [done|lia|].
       change (2 ^ (16 - 1)) with 32768. lia. }
  eapply wp_mono; [apply (deallocate_block_impl_spec k order_fuel o q F z HF Hz Hb)|].
  - intros p Hp%elem_block_pages Hc%HA. set_solver.
  - unfold order_fuel. pose proof (g_k _ _ Hg0). unfold max_order in *. lia.
  - intros r z1 (-> & (Eb & Ep & Eu) & F' & HF' & Hz' & Hcov). wp_steps. split_and!; [done|done|].
    assert (Z.of_nat (size (A ∪ block_pages o q)) = Z.of_nat (size A) + 2 ^ o) as Hsize.
    { rewrite size_union by set_solver. rewrite Nat2Z.inj_add, size_block_pages by lia. lia. }
    assert (Z.of_nat (size (A ∪ block_pages o q)) <= 2 ^ k) as Hle.
    { rewrite <- (size_block_pages k 0) by lia. apply inj_le, subseteq_size. intros p.
      rewrite elem_of_union. intros [Hp|Hp]; [by apply HsubA|]. apply elem_block_pages in Hp.
      apply elem_block_pages. unfold in_block in *. lia. }
    split.
    + exists F'. split_and!; [done|by apply zrep_with_used|]. intros p.
      rewrite elem_of_union, elem_block_pages, HA, Hcov. done.
    + simpl. rewrite Eu, Hu, block_size_pow, wrap_small by (unfold in_width; lia). lia.
Qed.

(** ** Construction *)

Definition empty_bucket (k : Z) (o : nat) : BuddyBucket :=
  mkBucket (Z.of_nat o) (-1) (fill (mkBitmap [] (bitmap_size_for_order (2 ^ k * 2) (Z.of_nat o))) false).

Lemma bitmap_size_nonneg k o : 0 <= k -> 0 <= o -> 0 <= bitmap_size_for_order (2 ^ k * 2) o.
Proof.
  intros Hk Ho. unfold bitmap_size_for_order. rewrite block_size_pow by done. pose proof (pow2_pos k Hk). pose proof (pow2_pos o Ho).
  pose proof (Z.div_pos (2 ^ k * 2) (2 * 2 ^ o)). unfold ceil_div.
  pose proof (Z.div_pos (2 ^ k * 2 / (2 * 2 ^ o)) 2). destruct (_ && _); lia.
Qed.

Lemma init_buckets_spec k n z :
  0 <= k -> (n <= 13)%nat -> length (m_buckets z) = 13%nat ->
  (forall i, (i < n)%nat -> m_buckets z !! i = Some (mkBucket 0 (-1) (mkBitmap [] 0))) ->
  wp (init_buckets n (2 ^ k * 2)) z (fun r z' => r = Ok tt /\ exists l,
    z' = with_buckets z l /\ length l = 13%nat /\
    forall i, l !! i = if (i <? n)%nat then Some (empty_bucket k i) else m_buckets z !! i).
Proof.
  intros Hk. revert z. induction n as [|n IH]; intros z Hn Hlen Hraw; cbn [init_buckets].
  { wp_step. split; [done|]. exists (m_buckets z). by destruct z. }
  wp_step. apply (wp_get_bucket _ _ (mkBucket 0 (-1) (mkBitmap [] 0))); [lia|rewrite Nat2Z.id; apply Hraw; lia|].
  cbn [bitmap freelist]. set (sz := bitmap_size_for_order _ _).
  pose proof (bitmap_size_nonneg k (Z.of_nat n) Hk ltac:(lia)) as Hsz. fold sz in Hsz.
  wp_step. apply (wp_mono _ _ (fun r z' => r = Ok (fill (mkBitmap [] sz) false) /\ z' = z)).
  { clearbody sz. destruct (Z.eqb_spec sz 0) as [->|Hne]; [by apply wp_kret|]. cbn [negb]. apply wp_lift. unfold grow. cbn [m_size].
    rewrite (proj2 (Z.ltb_lt _ _)) by lia. done. }
  intros r z' [-> ->]. wp_step. unfold put_bucket. wp_steps.
  rewrite set_at_index_Z by lia. wp_steps. rewrite Nat2Z.id.
  eapply wp_mono; [apply IH|].
  - lia.
  - simpl. by rewrite length_insert.
  - intros i Hi. simpl. rewrite list_lookup_insert_ne by lia. apply Hraw. lia.
  - intros r z' (-> & l & -> & Hl & Hlook). split; [done|]. exists l. split_and!; [done|done|].
    intros i. rewrite Hlook. cbn [with_buckets m_buckets].
    destruct (Nat.ltb_spec i n), (Nat.ltb_spec i (S n)); try lia; [done| |].
    + assert (i = n) as -> by lia. by rewrite list_lookup_insert_eq by lia.
    + by rewrite list_lookup_insert_ne by lia.
Qed.

Definition no_blocks : Z -> list Z := fun _ => [].

Lemma fwf_no_blocks k : fwf k no_blocks.
Proof. split; try (intros; by apply not_elem_of_nil in H). intros o. apply NoDup_nil_2. Qed.

Lemma not_covers_no_blocks p : ~ covers no_blocks p.
Proof. intros (o & q & Hq & _). by apply not_elem_of_nil in Hq. Qed.

Lemma empty_bucket_ok k o : 0 <= k -> bucket_ok k (Z.of_nat o) [] (empty_bucket k o).
Proof.
  intros Hk. split; [done|]. pose proof (bitmap_size_nonneg k (Z.of_nat o) Hk ltac:(lia)) as Hs.
  destruct (fill_spec (mkBitmap [] (bitmap_size_for_order (2 ^ k * 2) (Z.of_nat o))) false Hs) as (Hwf & Hsize & Hbit).
  split_and!; [done|done|done|]. intros p Hp. simpl. simpl in Hbit. rewrite Hbit by done.
  split; [done|]. intros (q & Hq & _). by apply not_elem_of_nil in Hq.
Qed.

Lemma construct_spec k base e :
  0 <= k <= max_order -> 0 <= base -> base mod PAGE_SIZE = 0 -> base + 2 ^ k * PAGE_SIZE < 2 ^ 64 ->
  Z.of_nat (length e) = 2 ^ k ->
  wp construct (raw_zone base (2 ^ k) e) (fun r z => r = Ok tt /\
    m_base_address z = base /\ zone_ok k (block_pages k 0) z).
Proof.
  intros Hk Hbase Hal Hend He. unfold construct. wp_steps. cbn [raw_zone m_page_count].
  pose proof (pow2_pos k ltac:(lia)) as Hpos. unfold max_order in *.
  eapply wp_mono; [apply init_buckets_spec; [lia|lia|done|]|].
  { intros i Hi. by apply lookup_replicate_2. }
  intros r z1 (-> & l & -> & Hlen & Hlook). rewrite count_trailing_zeroes_pow2, block_size_pow by lia.
  replace (2 ^ k * 2 / (2 * 2 ^ k)) with 1 by (rewrite (Z.mul_comm 2), Z.div_same; lia).
  change (Z.to_nat 1) with 1%nat. cbn [init_blocks]. change (ChunkIndex (0 + 0)) with (2 * 0).
  set (z1 := with_buckets _ l).
  assert (geom k z1) as Hg by (by split).
  assert (zrep k no_blocks z1) as Hz.
  { split; [done| |].
    - intros o Ho. unfold max_order in *. exists (empty_bucket k (Z.to_nat o)). simpl. rewrite Hlook.
      rewrite (proj2 (Nat.ltb_lt _ _)) by lia. split; [done|].
      rewrite <- (Z2Nat.id o) at 1 by lia. apply empty_bucket_ok. lia.
    - intros o Ho l1 q l2 E. by destruct l1. }
  destruct (z_bucket k _ z1 Hz k) as (b & Eb & Efl & Hbits); [unfold max_order; lia|].
  assert (is_block k k 0) as Hb by (unfold is_block; rewrite Z.mod_0_l by lia; lia).
  wp_step. apply (wp_get_bucket _ _ b); [lia|done|].
  destruct (set_buddy_bit_spec k k _ b 0 true Hbits Hb) as (b' & Eb' & Efl' & Hbits').
  wp_step. apply wp_lift. rewrite Eb'. wp_step. apply (wp_put_entry k); [done|lia|].
  wp_step. apply (wp_put_bucket k); [apply geom_with_entries; [done|apply length_insert]|unfold max_order; lia|].
  rewrite Efl', Efl. wp_step. split_and!; [done|done|].
  destruct (fwf_add k no_blocks k 0 [0] (fwf_no_blocks k) Hb) as [HF Hcov].
  { intros p _. apply not_covers_no_blocks. }
  { intros x Hx. by apply not_elem_of_nil in Hx. }
  { apply NoDup_singleton. }
  { set_solver. }
  split; [|simpl; rewrite size_block_pages by lia; lia].
  exists (upd no_blocks k [0]). split_and!; [done| |].
  - apply (push_zrep k no_blocks z1 (fwf_no_blocks k) Hz k 0 (with_freelist b' (2 * 0))); try done.
    intros p _. apply not_covers_no_blocks.
  - intros p. rewrite elem_block_pages, Hcov. split; [by right|]. intros [H|]; [by apply not_covers_no_blocks in H|done].
Qed.

(** ** Runs of a zone

    The states a zone goes through, with the set [A] of the pages that are not handed out
    as its clients see it: the pages of an allocated block leave it, those of a returned
    block come back.  A block may be returned in other pieces than it was taken (the
    regions return single pages), and the owner of a page may write its page entry. *)
Inductive zone_run (k base : Z) : gset Z -> PhysicalZone -> Prop :=
  | run_construct e z :
      Z.of_nat (length e) = 2 ^ k ->
      construct (raw_zone base (2 ^ k) e) = (Ok tt, z) ->
      zone_run k base (block_pages k 0) z
  | run_allocate A z o a z' :
      zone_run k base A z -> 0 <= o -> allocate_block o z = (Ok (Some a), z') ->
      zone_run k base (A ∖ block_pages o ((a - base) / PAGE_SIZE)) z'
  | run_allocate_fails A z o z' :
      zone_run k base A z -> 0 <= o -> allocate_block o z = (Ok None, z') ->
      zone_run k base A z'
  | run_deallocate A z o q z' :
      zone_run k base A z -> is_block k o q -> block_pages o q ## A ->
      deallocate_block (base + q * PAGE_SIZE) o z = (Ok tt, z') ->
      zone_run k base (A ∪ block_pages o q) z'
  | run_write A z q en :
      zone_run k base A z -> 0 <= q -> q ∉ A ->
      zone_run k base A (with_entries z (<[Z.to_nat q := en]> (page_entries z))).

Definition zone_place (k base : Z) : Prop :=
  0 <= k <= max_order /\ 0 <= base /\ base mod PAGE_SIZE = 0 /\ base + 2 ^ k * PAGE_SIZE < 2 ^ 64.

Lemma zone_ok_write k A z q en :
  zone_ok k A z -> 0 <= q -> q ∉ A -> zone_ok k A (with_entries z (<[Z.to_nat q := en]> (page_entries z))).
Proof.
  intros [(F & HF & [Hg Hb Hl] & HA) Hu] Hq0 Hq. split; [|done]. exists F. split_and!; [done| |done]. split; [|done|].
  - apply geom_with_entries; [done|apply length_insert].
  - intros o Ho. eapply links_frame; [|by apply Hl]. intros x Hx. simpl.
    destruct (f_block k F HF o x Hx) as (? & ? & _). rewrite list_lookup_insert_ne; [done|].
    intros E. destruct Hq. assert (q = x) as -> by lia. apply HA. exists o, x. split; [done|apply in_block_self; lia].
Qed.

Lemma zone_run_ok k base A z :
  zone_place k base -> zone_run k base A z -> zone_ok k A z /\ m_base_address z = base.
Proof.
  intros (Hk & Hbase & Hal & Hend). induction 1 as [e z He Hr|A z o a z' _ [Hok Eb] Ho Hr|A z o z' _ [Hok Eb] Ho Hr|
    A z o q z' _ [Hok Eb] Hb Hd Hr|A z q en _ [Hok Eb] Hq0 Hq].
  - destruct (wp_run _ _ _ _ _ Hr (construct_spec k base e Hk Hbase Hal Hend He)) as (_ & ? & ?). done.
  - destruct (wp_run _ _ _ _ _ Hr (allocate_block_spec k A z o Hok Ho)) as (E & [(? & _)|(q & [= ->] & _ & _ & Hok')]); [done|].
    rewrite E, Eb. split; [|done]. replace (base + q * PAGE_SIZE - base) with (q * PAGE_SIZE) by lia.
    by rewrite Z.div_mul by done.
  - destruct (wp_run _ _ _ _ _ Hr (allocate_block_spec k A z o Hok Ho)) as (E & [(_ & -> & _)|(q & [=] & _)]). done.
  - rewrite <- Eb in Hr.
    destruct (wp_run _ _ _ _ _ Hr (deallocate_block_spec k A z o q Hok Hb Hd)) as (_ & E & Hok'). by rewrite E.
  - split; [by apply zone_ok_write|done].
Qed.

(** C15: In every reachable state of a zone an allocation of order [o] ends without a failing
    assertion.  If it returns an address, that is the address of an aligned block of 2^o
    pages inside the zone none of which is handed out, and the number of available pages
    drops by 2^o.  If it returns nothing, the state is unchanged and there is no aligned
    run of 2^o pages that are all free: fragmentation below the alignment never makes the
    allocator fail, because free buddies are always merged. *)
Theorem zone_allocate_exact k base A z o :
  zone_place k base -> zone_run k base A z -> 0 <= o ->
  exists r z', allocate_block o z = (Ok r, z') /\
    match r with
    | Some a => exists q, a = base + q * PAGE_SIZE /\ is_block k o q /\ block_pages o q ⊆ A /\
                  available z' = available z - 2 ^ o
    | None => z' = z /\ forall q, is_block k o q -> ~ block_pages o q ⊆ A
    end.
Proof.
  intros Hp Hrun Ho. destruct (zone_run_ok k base A z Hp Hrun) as [Hok Eb].
  destruct (allocate_block o z) as [r z'] eqn:E.
  destruct (wp_run _ _ _ _ _ E (allocate_block_spec k A z o Hok Ho))
    as (_ & [(-> & -> & Hn)|(q & -> & Hb & Hsub & Hok')]).
  - by exists None, z.
  - eexists _, z'. split; [done|]. exists q. rewrite Eb. split_and!; [done|done|done|].
    rewrite (zone_ok_available _ _ _ Hok), (zone_ok_available _ _ _ Hok'), size_difference by done.
    pose proof (subseteq_size _ _ Hsub). pose proof (size_block_pages o q Ho). lia.
Qed.


(** When every page has been returned, in whatever order and pieces, the zone is one
    block again: an allocation of all its pages succeeds and returns its base address. *)
Theorem zone_coalesces k base z :
  zone_place k base -> zone_run k base (block_pages k 0) z ->
  exists z', allocate_block k z = (Ok (Some base), z') /\ available z' = 0.
Proof.
  intros Hp Hrun. destruct (zone_run_ok k base _ z Hp Hrun) as [Hok Eb]. destruct Hp as [Hk _].
  pose proof (pow2_pos k ltac:(lia)).
  destruct (allocate_block k z) as [r z'] eqn:E. exists z'.
  destruct (wp_run _ _ _ _ _ E (allocate_block_spec k _ z k Hok ltac:(lia)))
    as (_ & [(-> & -> & Hn)|(q & -> & (_ & Hq & _ & Hle) & Hsub & Hok')]).
  - destruct (Hn 0); [|done]. unfold is_block. rewrite Z.mod_0_l by lia. lia.
  - assert (q = 0) as -> by lia. rewrite Eb. split; [repeat f_equal; lia|].
    rewrite (zone_ok_available _ _ _ Hok'), difference_diag_L, size_empty. done.
Qed.

(** ** A zone of four pages *)
Definition example_zone : PhysicalZone := snd (construct (raw_zone 8192 4 (replicate 4 (mkEntry 7 7)))).
Definition example_used : PhysicalZone := snd (allocate_block 1 example_zone).

Lemma example_place : zone_place 2 8192.
Proof. unfold zone_place, max_order. by split_and!. Qed.
Lemma example_run : zone_run 2 8192 (block_pages 2 0) example_zone.
Proof. by apply (run_construct 2 8192 (replicate 4 (mkEntry 7 7))). Qed.
Lemma example_run_used : zone_run 2 8192 (block_pages 2 0 ∖ block_pages 1 2) example_used.
Proof. by apply (run_allocate 2 8192 _ example_zone 1 16384 example_used example_run). Qed.

Lemma zone_allocate_exact_witness :
  exists r z', allocate_block 2 example_used = (Ok r, z') /\
    match r with
    | Some a => exists q, a = 8192 + q * PAGE_SIZE /\ is_block 2 2 q /\
                  block_pages 2 q ⊆ block_pages 2 0 ∖ block_pages 1 2 /\
                  available z' = available example_used - 2 ^ 2
    | None => z' = example_used /\
                forall q, is_block 2 2 q -> ~ block_pages 2 q ⊆ block_pages 2 0 ∖ block_pages 1 2
    end.
Proof. exact (zone_allocate_exact 2 8192 _ example_used 2 example_place example_run_used ltac:(lia)). Defined.


Lemma zone_coalesces_witness :
  exists z', allocate_block 2 example_zone = (Ok (Some 8192), z') /\ available z' = 0.
Proof. exact (zone_coalesces 2 8192 example_zone example_place example_run). Defined.
