(* ===== verification/PhysicalRegion.v ===== *)
(** * Regions of physical memory: Kernel/Memory/PhysicalRegion.{h,cpp}

    A region is divided into zones of 16 MiB followed by zones of 1 MiB.  The zones with
    free pages are on one intrusive list, the exhausted ones on another; appending a zone
    to a list takes it off the other one.  The region is specified as a set of free pages
    by address, on top of the specification of zones as sets of free pages. *)

From S2P Require Import Prelude StdLibExtras Bitmap PhysicalZone.

Definition large_zone_size : Z := 16 * 1048576.
Definition small_zone_size : Z := 1048576.

(** The zones are owned by [m_zones]; the intrusive lists hold their positions. *)
Record PhysicalRegion := mkRegion {
  m_zones : list PhysicalZone;
  m_large_zones : Z;
  m_usable_zones : list nat;
  m_full_zones : list nat;
  m_lower : Z;
  m_upper : Z;
  m_pages : Z }.

Definition with_zones (r : PhysicalRegion) (l : list PhysicalZone) : PhysicalRegion :=
  mkRegion l (m_large_zones r) (m_usable_zones r) (m_full_zones r) (m_lower r) (m_upper r) (m_pages r).
Definition with_lists (r : PhysicalRegion) (usable full : list nat) : PhysicalRegion :=
  mkRegion (m_zones r) (m_large_zones r) usable full (m_lower r) (m_upper r) (m_pages r).

(** ** Bit tricks *)

Definition smear (n value : Z) : Z := Z.lor value (Z.shiftr value n).

Definition next_power_of_two (value : Z) : Z :=
  let value := wrap 32 (wrap 32 value - 1) in
  let value := smear 1 value in
  let value := smear 2 value in
  let value := smear 4 value in
  let value := smear 8 value in
  let value := smear 16 value in
  wrap 32 (value + 1).

(** ** Zones of a region *)

Definition get_zone (i : nat) : M PhysicalRegion PhysicalZone :=
  l ← gets m_zones; lift (at_index l (Z.of_nat i)).

(** A call of a method of a zone. *)
Definition on_zone {A} (i : nat) (m : M PhysicalZone A) : M PhysicalRegion A := fun r =>
  match m_zones r !! i with
  | Some z => let '(res, z') := m z in (res, with_zones r (<[i := z']> (m_zones r)))
  | None => (Panic, r)
  end.

(** [IntrusiveList::remove] and [append]: the node is taken off the list it is on. *)
Definition list_remove (i : nat) (l : list nat) : list nat := filter (fun j => j <> i) l.
Definition append_to_full (i : nat) : M PhysicalRegion unit :=
  modify (fun r => with_lists r (list_remove i (m_usable_zones r)) (list_remove i (m_full_zones r) ++ [i])).
Definition append_to_usable (i : nat) : M PhysicalRegion unit :=
  modify (fun r => with_lists r (list_remove i (m_usable_zones r) ++ [i]) (list_remove i (m_full_zones r))).

(** ** Page objects

    [PhysicalRAMPage::create] constructs the object of the page in its page entry, over the
    links of the free list; [page_object] is what the links read as then. *)
Definition write_page_entry (paddr : Z) (en : PhysicalPageEntry) : M PhysicalRegion unit :=
  modify (fun r => with_zones r
    ((fun z => if zone_contains z paddr
               then with_entries z (<[Z.to_nat ((paddr - m_base_address z) / PAGE_SIZE) := en]> (page_entries z))
               else z) <$> m_zones r)).

Section region.
Context (page_object : Z -> PhysicalPageEntry).

Definition create (paddr : Z) : M PhysicalRegion Z :=
  write_page_entry paddr (page_object paddr) ;; kret paddr.

(** If the zone is exhausted, move it to the list of full zones. *)
Definition retire_if_empty (i : nat) : M PhysicalRegion unit :=
  z ← get_zone i;
  if is_empty z then append_to_full i else kret tt.

Definition take_free_page : M PhysicalRegion (option Z) :=
  usable ← gets m_usable_zones;
  match usable with
  | [] => kret None
  | zone :: _ =>
      page ← on_zone zone (allocate_block 0);
      VERIFY (bool_decide (is_Some page)) ;;
      retire_if_empty zone ;;
      match page with
      | Some paddr => p ← create paddr; kret (Some p)
      | None => kret None
      end
  end.

Fixpoint allocate_from_zones (zones : list nat) (o : Z) : M PhysicalRegion (option Z) :=
  match zones with
  | [] => kret None
  | zone :: zones =>
      page_base ← on_zone zone (allocate_block o);
      match page_base with
      | Some a => retire_if_empty zone ;; kret (Some a)
      | None => allocate_from_zones zones o
      end
  end.

Fixpoint create_pages (n : nat) (paddr : Z) : M PhysicalRegion (list Z) :=
  match n with
  | O => kret []
  | S n =>
      p ← create paddr;
      l ← create_pages n (wrap 64 (paddr + PAGE_SIZE));
      kret (p :: l)
  end.

Definition take_contiguous_free_pages (count : Z) : M PhysicalRegion (list Z) :=
  let rounded_page_count := next_power_of_two count in
  let o := count_trailing_zeroes 32 rounded_page_count in
  usable ← gets m_usable_zones;
  page_base ← allocate_from_zones usable o;
  match page_base with
  | None => kret []
  | Some a => create_pages (Z.to_nat count) a
  end.
End region.

Definition return_page (paddr : Z) : M PhysicalRegion unit :=
  r ← gets id;
  let large_zone_base := m_lower r in
  let small_zone_base := wrap 64 (m_lower r + m_large_zones r * large_zone_size) in
  let zone_index :=
    if paddr <? small_zone_base then wrap 64 (paddr - large_zone_base) / large_zone_size
    else m_large_zones r + wrap 64 (paddr - small_zone_base) / small_zone_size in
  z ← lift (at_index (m_zones r) zone_index);
  VERIFY (zone_contains z paddr) ;;
  on_zone (Z.to_nat zone_index) (deallocate_block paddr 0) ;;
  full ← gets m_full_zones;
  if bool_decide (Z.to_nat zone_index ∈ full) then append_to_usable (Z.to_nat zone_index) else kret tt.

Definition region_contains (r : PhysicalRegion) (paddr : Z) : bool :=
  (m_lower r <=? paddr) && (paddr <? m_upper r).

(** ** Construction *)

Definition make_region (lower upper : Z) : PhysicalRegion :=
  mkRegion [] 0 [] [] lower upper (wrap 64 (upper - lower) / PAGE_SIZE).

(** [boot_entries] are the page entries before the zones exist, by page number. *)
Section initialize.
Context (boot_entries : Z -> PhysicalPageEntry).

Definition new_zone (base page_count : Z) : outcome PhysicalZone :=
  match construct (raw_zone base page_count (boot_entries <$> seqZ (base / PAGE_SIZE) page_count)) with
  | (Ok _, z) => Ok z
  | (Err e, _) => Err e
  | (Panic, _) => Panic
  end.

Definition append_zone (z : PhysicalZone) : M PhysicalRegion unit :=
  modify (fun r => mkRegion (m_zones r ++ [z]) (m_large_zones r) (m_usable_zones r ++ [length (m_zones r)])
                     (m_full_zones r) (m_lower r) (m_upper r) (m_pages r)).

(** The loop of [make_zones]; returns the rest of the pages, the next base address and
    the number of zones made. *)
Fixpoint make_zones (fuel : nat) (pages_per_zone remaining_pages base_address zone_count : Z)
    : M PhysicalRegion (Z * Z * Z) :=
  if pages_per_zone <=? remaining_pages then
    match fuel with
    | O => VERIFY false ;; kret (0, 0, 0)
    | S fuel =>
        z ← lift (new_zone base_address pages_per_zone);
        append_zone z ;;
        make_zones fuel pages_per_zone (remaining_pages - pages_per_zone)
          (wrap 64 (base_address + pages_per_zone * PAGE_SIZE)) (zone_count + 1)
    end
  else kret (remaining_pages, base_address, zone_count).

Definition initialize_zones : M PhysicalRegion unit :=
  remaining_pages ← gets m_pages;
  base_address ← gets m_lower;
  let fuel := Z.to_nat remaining_pages in
  ' (remaining_pages, base_address, large) ←
    make_zones fuel (large_zone_size / PAGE_SIZE) remaining_pages base_address 0;
  modify (fun r => mkRegion (m_zones r) large (m_usable_zones r) (m_full_zones r)
                     (m_lower r) (m_upper r) (m_pages r)) ;;
  ' (_, _, _) ← make_zones fuel (small_zone_size / PAGE_SIZE) remaining_pages base_address 0;
  kret tt.
End initialize.

Definition try_take_pages_from_beginning (page_count : Z) : M PhysicalRegion PhysicalRegion :=
  VERIFY (0 <? page_count) ;;
  r ← gets id;
  VERIFY (page_count <? m_pages r) ;;
  let taken_lower := m_lower r in
  let taken_upper := wrap 64 (taken_lower + page_count * PAGE_SIZE) in
  let lower := wrap 64 (m_lower r + page_count * PAGE_SIZE) in
  modify (fun r => mkRegion (m_zones r) (m_large_zones r) (m_usable_zones r) (m_full_zones r)
                     lower (m_upper r) (wrap 64 (m_upper r - lower) / PAGE_SIZE)) ;;
  kret (make_region taken_lower taken_upper).

(** ** Rounding up to a power of two *)

(** The [n] bits from [m] downwards are set and none is above. *)
Definition smeared (m n y : Z) : Prop :=
  0 <= y /\ (forall j, m < j -> Z.testbit y j = false) /\
  (forall j, 0 <= j -> m - n < j <= m -> Z.testbit y j = true).

Lemma smear_twice m n y : 0 < n -> smeared m n y -> smeared m (2 * n) (smear n y).
Proof.
  intros Hn (H0 & Hhi & Hlo). unfold smear. split_and!.
  - apply Z.lor_nonneg. split; [done|]. by apply Z.shiftr_nonneg.
  - intros j Hj. rewrite Z.lor_spec. destruct (Z.leb_spec 0 j); [|by rewrite !Z.testbit_neg_r].
    rewrite Z.shiftr_spec, !Hhi by lia. done.
  - intros j Hj0 Hj. rewrite Z.lor_spec, Z.shiftr_spec by done.
    destruct (Z.ltb_spec (m - n) j); [by rewrite Hlo by lia|].
    rewrite (Hlo (j + n)) by lia. apply orb_true_r.
Qed.

Lemma smeared_ones m n y : 0 <= m < n -> smeared m n y -> y = 2 ^ (m + 1) - 1.
Proof.
  intros Hm (H0 & Hhi & Hlo). replace (2 ^ (m + 1) - 1) with (Z.ones (m + 1)) by (rewrite Z.ones_equiv; lia). apply Z.bits_inj'. intros j Hj.
  destruct (Z.leb_spec j m).
  - rewrite Z.ones_spec_low by lia. apply Hlo; lia.
  - rewrite Z.ones_spec_high by lia. by apply Hhi.
Qed.

Lemma smeared_log2 v : 0 < v -> smeared (Z.log2 v) 1 v.
Proof.
  intros Hv. split_and!; [lia| |].
  - intros j Hj. apply Z.bits_above_log2; lia.
  - intros j _ Hj. assert (j = Z.log2 v) as -> by lia. by apply Z.bit_log2.
Qed.

Lemma next_power_of_two_spec count :
  0 < count <= 2 ^ 31 -> next_power_of_two count = 2 ^ Z.log2_up count.
Proof.
  intros Hc. unfold next_power_of_two. rewrite (wrap_small 32 count) by (unfold in_width; lia).
  rewrite (wrap_small 32 (count - 1)) by (unfold in_width; lia).
  destruct (decide (count = 1)) as [->|]; [done|].
  rewrite Z.log2_up_eqn by lia. set (v := count - 1).
  assert (0 <= Z.log2 v < 31) as Hlog.
  { split; [apply Z.log2_nonneg|]. apply Z.log2_lt_pow2; lia. }
  pose proof (smeared_log2 v ltac:(lia)) as H.
  do 5 (apply smear_twice in H; [|lia]). apply smeared_ones in H; [|lia]. cbv zeta.
  assert (smear 16 (smear 8 (smear 4 (smear 2 (smear 1 v)))) = 2 ^ (Z.log2 v + 1) - 1) as -> by exact H.
  replace (Z.pred count) with v by lia. rewrite Z.sub_add, <- Z.add_1_r. apply wrap_small.
  split; [lia|]. apply Z.pow_lt_mono_r; lia.
Qed.

(** ** The layout of the zones *)

Definition zone_order (large : Z) (i : nat) : Z := if Z.of_nat i <? large then 12 else 8.
Definition zone_start (lower large : Z) (i : nat) : Z :=
  if Z.of_nat i <? large then lower + Z.of_nat i * large_zone_size
  else lower + large * large_zone_size + (Z.of_nat i - large) * small_zone_size.
Definition zone_end (lower large : Z) (i : nat) : Z :=
  zone_start lower large i + 2 ^ zone_order large i * PAGE_SIZE.

Ltac zones :=
  unfold zone_end, zone_start, zone_order, large_zone_size, small_zone_size, PAGE_SIZE in *;
  repeat match goal with |- context [Z.of_nat ?i <? ?l] => destruct (Z.ltb_spec (Z.of_nat i) l)
                       | H : context [Z.of_nat ?i <? ?l] |- _ => destruct (Z.ltb_spec (Z.of_nat i) l) end.

Lemma zone_end_next lower large i : zone_end lower large i = zone_start lower large (S i).
Proof. zones; lia. Qed.

Lemma zone_start_mono lower large i j : (i <= j)%nat -> zone_start lower large i <= zone_start lower large j.
Proof. intros H. zones; lia. Qed.

Lemma zone_order_range large i : 0 <= zone_order large i <= max_order.
Proof. unfold max_order. zones; lia. Qed.

(** The address of page [p] of zone [i]. *)
Definition zone_page (lower large : Z) (i : nat) (p : Z) : Z := zone_start lower large i + p * PAGE_SIZE.

Lemma zone_page_range lower large i p :
  0 <= p < 2 ^ zone_order large i ->
  zone_start lower large i <= zone_page lower large i p < zone_end lower large i.
Proof. unfold zone_end, zone_page, PAGE_SIZE. lia. Qed.

Lemma zone_page_inj lower large i j p q :
  0 <= p < 2 ^ zone_order large i -> 0 <= q < 2 ^ zone_order large j ->
  zone_page lower large i p = zone_page lower large j q -> i = j /\ p = q.
Proof.
  intros Hp Hq E. pose proof (zone_page_range lower large i p Hp). pose proof (zone_page_range lower large j q Hq).
  rewrite !zone_end_next in *. destruct (lt_eq_lt_dec i j) as [[Hlt| ->]|Hlt].
  - pose proof (zone_start_mono lower large (S i) j ltac:(lia)). lia.
  - split; [done|]. unfold zone_page, PAGE_SIZE in E. lia.
  - pose proof (zone_start_mono lower large (S j) i ltac:(lia)). lia.
Qed.

(** ** Regions as sets of free pages *)

(** The usable zones are those with free pages, the full ones those without. *)
Record lists_ok (As : list (gset Z)) (usable full : list nat) : Prop := {
  l_usable : NoDup usable;
  l_full : NoDup full;
  l_in_usable : forall i, i ∈ usable <-> exists A, As !! i = Some A /\ A <> ∅;
  l_in_full : forall i, i ∈ full <-> As !! i = Some ∅ }.

Lemma lists_keep As usable full i A A' :
  lists_ok As usable full -> As !! i = Some A -> (A = ∅ <-> A' = ∅) ->
  lists_ok (<[i := A']> As) usable full.
Proof.
  intros [H1 H2 H3 H4] HA HE. pose proof (lookup_lt_Some _ _ _ HA). split; [done|done| |].
  - intros j. rewrite H3. destruct (decide (j = i)) as [->|]; [|by rewrite list_lookup_insert_ne].
    rewrite list_lookup_insert_eq by done. rewrite HA. naive_solver.
  - intros j. rewrite H4. destruct (decide (j = i)) as [->|]; [|by rewrite list_lookup_insert_ne].
    rewrite list_lookup_insert_eq by done. rewrite HA. naive_solver.
Qed.

Lemma elem_of_list_remove i l j : j ∈ list_remove i l <-> j ∈ l /\ j <> i.
Proof. unfold list_remove. rewrite list_elem_of_filter. tauto. Qed.

Lemma NoDup_list_remove i l : NoDup l -> NoDup (list_remove i l).
Proof. apply NoDup_filter. Qed.

Lemma NoDup_remove_snoc i l : NoDup l -> NoDup (list_remove i l ++ [i]).
Proof.
  intros H. apply NoDup_app. split_and!; [by apply NoDup_list_remove| |apply NoDup_singleton].
  intros j [_ Hj]%elem_of_list_remove ->%list_elem_of_singleton. done.
Qed.

Lemma lists_to_full As usable full i :
  lists_ok As usable full -> (i < length As)%nat ->
  lists_ok (<[i := ∅]> As) (list_remove i usable) (list_remove i full ++ [i]).
Proof.
  intros [H1 H2 H3 H4] Hi. split; [by apply NoDup_list_remove|by apply NoDup_remove_snoc| |].
  - intros j. rewrite elem_of_list_remove, H3. destruct (decide (j = i)) as [->|].
    + rewrite list_lookup_insert_eq by done. naive_solver.
    + rewrite list_lookup_insert_ne by done. tauto.
  - intros j. rewrite elem_of_app, list_elem_of_singleton, elem_of_list_remove, H4.
    destruct (decide (j = i)) as [->|].
    + rewrite list_lookup_insert_eq by done. tauto.
    + rewrite list_lookup_insert_ne by done. tauto.
Qed.

Lemma lists_to_usable As usable full i A :
  lists_ok As usable full -> (i < length As)%nat -> A <> ∅ ->
  lists_ok (<[i := A]> As) (list_remove i usable ++ [i]) (list_remove i full).
Proof.
  intros [H1 H2 H3 H4] Hi HA. split; [by apply NoDup_remove_snoc|by apply NoDup_list_remove| |].
  - intros j. rewrite elem_of_app, list_elem_of_singleton, elem_of_list_remove, H3.
    destruct (decide (j = i)) as [->|].
    + rewrite list_lookup_insert_eq by done. naive_solver.
    + rewrite list_lookup_insert_ne by done. tauto.
  - intros j. rewrite elem_of_list_remove, H4. destruct (decide (j = i)) as [->|].
    + rewrite list_lookup_insert_eq by done. naive_solver.
    + rewrite list_lookup_insert_ne by done. tauto.
Qed.

(** [As] are the free pages of the zones. *)
Record region_at (r : PhysicalRegion) (As : list (gset Z)) : Prop := {
  ra_large : 0 <= m_large_zones r <= Z.of_nat (length (m_zones r));
  ra_lower : 0 <= m_lower r /\ m_lower r mod PAGE_SIZE = 0;
  ra_end : zone_start (m_lower r) (m_large_zones r) (length (m_zones r)) <= m_upper r < 2 ^ 64;
  ra_len : length As = length (m_zones r);
  ra_zone : forall i z A, m_zones r !! i = Some z -> As !! i = Some A ->
    zone_ok (zone_order (m_large_zones r) i) A z /\
    m_base_address z = zone_start (m_lower r) (m_large_zones r) i;
  ra_lists : lists_ok As (m_usable_zones r) (m_full_zones r) }.

Definition fixed (r r' : PhysicalRegion) : Prop :=
  m_lower r' = m_lower r /\ m_upper r' = m_upper r /\ m_large_zones r' = m_large_zones r /\
  length (m_zones r') = length (m_zones r).

Lemma fixed_refl r : fixed r r.
Proof. done. Qed.
Lemma fixed_trans r1 r2 r3 : fixed r1 r2 -> fixed r2 r3 -> fixed r1 r3.
Proof. unfold fixed. intuition congruence. Qed.

Lemma region_zone r As i A :
  region_at r As -> As !! i = Some A ->
  exists z, m_zones r !! i = Some z /\ zone_ok (zone_order (m_large_zones r) i) A z /\
    m_base_address z = zone_start (m_lower r) (m_large_zones r) i.
Proof.
  intros H HA. pose proof (lookup_lt_Some _ _ _ HA) as Hlt. rewrite (ra_len _ _ H) in Hlt.
  destruct (lookup_lt_is_Some_2 _ _ Hlt) as [z Hz]. exists z. split; [done|]. by apply (ra_zone r As H).
Qed.

(** A zone and the lists have changed. *)
Lemma region_update r As i z' A' usable full :
  region_at r As -> (i < length As)%nat ->
  zone_ok (zone_order (m_large_zones r) i) A' z' ->
  m_base_address z' = zone_start (m_lower r) (m_large_zones r) i ->
  lists_ok (<[i := A']> As) usable full ->
  region_at (with_lists (with_zones r (<[i := z']> (m_zones r))) usable full) (<[i := A']> As).
Proof.
  intros [H1 H2 H3 H4 H5 H6] Hi Hok Hb Hl. split; simpl; rewrite ?length_insert; try done.
  intros j z A. destruct (decide (j = i)) as [->|Hne].
  - rewrite !list_lookup_insert_eq by lia. by intros [= <-] [= <-].
  - rewrite !list_lookup_insert_ne by done. apply H5.
Qed.

Lemma wp_on_zone {X} r i z (m : M PhysicalZone X) Q :
  m_zones r !! i = Some z ->
  wp m z (fun res z' => Q res (with_zones r (<[i := z']> (m_zones r)))) -> wp (on_zone i m) r Q.
Proof. intros Hz H. unfold wp, on_zone in *. rewrite Hz. by destruct (m z). Qed.

Lemma wp_get_zone r i z Q : m_zones r !! i = Some z -> Q (Ok z) r -> wp (get_zone i) r Q.
Proof. intros Hz HQ. unfold get_zone. wp_steps. by rewrite (at_index_Ok _ _ z). Qed.

(** Taking pages from one zone and retiring it if none is left. *)
Lemma retire_spec r As i A z' A' :
  region_at r As -> As !! i = Some A -> A <> ∅ ->
  zone_ok (zone_order (m_large_zones r) i) A' z' ->
  m_base_address z' = zone_start (m_lower r) (m_large_zones r) i ->
  wp (retire_if_empty i) (with_zones r (<[i := z']> (m_zones r))) (fun res r' =>
    res = Ok tt /\ region_at r' (<[i := A']> As) /\ fixed r r').
Proof.
  intros Hr HA Hne Hok Hb. pose proof (lookup_lt_Some _ _ _ HA) as Hlt.
  pose proof Hlt as Hlt'. rewrite (ra_len _ _ Hr) in Hlt'. unfold retire_if_empty.
  wp_step. apply (wp_get_zone _ _ z'); [by apply list_lookup_insert_eq|].
  unfold is_empty. rewrite (zone_ok_available _ _ _ Hok).
  assert (fixed r (with_zones r (<[i := z']> (m_zones r)))) as Hf by (unfold fixed; simpl; by rewrite length_insert).
  wp_step; bool_hyps.
  - assert (A' = ∅) as -> by (apply leibniz_equiv, size_empty_inv; lia).
    unfold append_to_full. wp_steps. split_and!; [done| |done].
    apply region_update; [done|done|done|done|]. apply lists_to_full; [apply (ra_lists _ _ Hr)|done].
  - wp_step. split_and!; [done| |done].
    apply (region_update r As i z' A' (m_usable_zones r) (m_full_zones r)); [done|done|done|done|].
    apply (lists_keep _ _ _ i A); [apply (ra_lists _ _ Hr)|done|]. split; [done|]. intros ->. by rewrite size_empty in H.
Qed.

Lemma on_zone_allocate r As i A o :
  region_at r As -> As !! i = Some A -> 0 <= o ->
  wp (on_zone i (allocate_block o)) r (fun res r' =>
    (res = Ok None /\ r' = r /\ forall q, is_block (zone_order (m_large_zones r) i) o q -> ~ block_pages o q ⊆ A) \/
    (exists q z', res = Ok (Some (zone_page (m_lower r) (m_large_zones r) i q)) /\
       is_block (zone_order (m_large_zones r) i) o q /\ block_pages o q ⊆ A /\
       r' = with_zones r (<[i := z']> (m_zones r)) /\
       zone_ok (zone_order (m_large_zones r) i) (A ∖ block_pages o q) z' /\
       m_base_address z' = zone_start (m_lower r) (m_large_zones r) i)).
Proof.
  intros Hr HA Ho. destruct (region_zone r As i A Hr HA) as (z & Hz & Hok & Hb).
  apply (wp_on_zone _ _ z); [done|]. eapply wp_mono; [by apply (allocate_block_spec _ _ _ _ Hok)|].
  intros res z' (Eb & [(-> & -> & Hn)|(q & -> & Hbl & Hsub & Hok')]).
  - left. split_and!; [done| |done]. rewrite list_insert_id by done. by destruct r.
  - right. exists q, z'. split_and!; [|done|done|done|done|congruence]. unfold zone_page. by rewrite Hb.
Qed.

(** ** Page objects do not disturb the free lists *)

Lemma zone_contains_page r As i z p :
  region_at r As -> m_zones r !! i = Some z -> 0 <= p < 2 ^ zone_order (m_large_zones r) i ->
  forall j zj, m_zones r !! j = Some zj ->
  zone_contains zj (zone_page (m_lower r) (m_large_zones r) i p) = bool_decide (j = i).
Proof.
  intros Hr Hz Hp j zj Hj. pose proof (lookup_lt_Some _ _ _ Hz) as Hi. pose proof (lookup_lt_Some _ _ _ Hj) as Hj'.
  destruct (lookup_lt_is_Some_2 As j) as [A HA]; [by rewrite (ra_len _ _ Hr)|].
  destruct (ra_zone r As Hr j zj A Hj HA) as [Hok Hb]. pose proof (zone_ok_geom _ _ _ Hok) as Hg.
  pose proof (ra_lower _ _ Hr) as [Hl _].
  pose proof (zone_page_range (m_lower r) (m_large_zones r) i p Hp) as Hrange.
  unfold zone_contains. rewrite Hb, (g_pages _ _ Hg). fold (zone_end (m_lower r) (m_large_zones r) j).
  pose proof (g_base _ _ Hg). pose proof (g_end _ _ Hg) as He. pose proof (pow2_pos (zone_order (m_large_zones r) j)) as Hpow.
  pose proof (zone_order_range (m_large_zones r) j).
  rewrite wrap_small by (unfold in_width, zone_end; rewrite <- Hb; unfold PAGE_SIZE in *; lia).
  rewrite zone_end_next in *. destruct (bool_decide_reflect (j = i)) as [->|Hne].
  - apply andb_true_intro. split; [apply Z.leb_le|apply Z.ltb_lt]; lia.
  - destruct (lt_eq_lt_dec i j) as [[Hlt| ->]|Hlt]; [|done|].
    + pose proof (zone_start_mono (m_lower r) (m_large_zones r) (S i) j ltac:(lia)).
      apply andb_false_intro1, Z.leb_gt. lia.
    + pose proof (zone_start_mono (m_lower r) (m_large_zones r) (S j) i ltac:(lia)).
      apply andb_false_intro2, Z.ltb_ge. lia.
Qed.

Section region_specs.
Context (page_object : Z -> PhysicalPageEntry).

Lemma write_page_entry_spec r As i A p en :
  region_at r As -> As !! i = Some A -> 0 <= p < 2 ^ zone_order (m_large_zones r) i -> p ∉ A ->
  wp (write_page_entry (zone_page (m_lower r) (m_large_zones r) i p) en) r
    (fun res r' => res = Ok tt /\ region_at r' As /\ fixed r r').
Proof using Type.
  clear page_object. intros Hr HA Hp Hn. destruct (region_zone r As i A Hr HA) as (z & Hz & Hok & Hb).
  unfold write_page_entry. apply wp_modify. split_and!; [done| |unfold fixed; simpl; by rewrite length_fmap].
  pose proof Hr as [H1 H2 H3 H4 H5 H6]. split; simpl; rewrite ?length_fmap; try done.
  intros j z' A'. rewrite list_lookup_fmap. destruct (m_zones r !! j) as [zj|] eqn:Ej; [|done].
  simpl. intros [= <-] HA'. destruct (H5 j zj A' Ej HA') as [Hokj Hbj].
  rewrite (zone_contains_page r As i z p Hr Hz Hp j zj Ej). case_bool_decide; [|done]. subst j.
  split; [|done]. assert (zj = z /\ A' = A) as [-> ->] by (split; congruence).
  replace ((zone_page (m_lower r) (m_large_zones r) i p - m_base_address z) / PAGE_SIZE) with p.
  { apply zone_ok_write; [done|lia|done]. }
  unfold zone_page. rewrite Hb. replace (_ + _ - _) with (p * PAGE_SIZE) by lia. by rewrite Z.div_mul.
Qed.

Lemma create_spec r As i A p :
  region_at r As -> As !! i = Some A -> 0 <= p < 2 ^ zone_order (m_large_zones r) i -> p ∉ A ->
  wp (create page_object (zone_page (m_lower r) (m_large_zones r) i p)) r
    (fun res r' => res = Ok (zone_page (m_lower r) (m_large_zones r) i p) /\ region_at r' As /\ fixed r r').
Proof using Type.
  intros Hr HA Hp Hn. unfold create. wp_step. eapply wp_mono; [by eapply write_page_entry_spec|].
  intros res r' (-> & Hr' & Hf). by wp_step.
Qed.

Lemma zone_page_wrap r As i q :
  region_at r As -> (i < length As)%nat -> 0 <= q <= 2 ^ zone_order (m_large_zones r) i ->
  0 <= zone_page (m_lower r) (m_large_zones r) i q < 2 ^ 64.
Proof using Type.
  intros Hr Hi Hq. rewrite (ra_len _ _ Hr) in Hi. pose proof (ra_end _ _ Hr). pose proof (ra_lower _ _ Hr) as [? _].
  pose proof (ra_large _ _ Hr).
  pose proof (zone_start_mono (m_lower r) (m_large_zones r) (S i) (length (m_zones r)) ltac:(lia)) as Hm.
  rewrite <- zone_end_next in Hm. unfold zone_page, zone_end in *.
  assert (0 <= zone_start (m_lower r) (m_large_zones r) i) by (zones; lia). unfold PAGE_SIZE in *. lia.
Qed.

(** The addresses of [n] pages of a zone from page [q] on. *)
Definition page_run (r : PhysicalRegion) (i : nat) (q : Z) (n : nat) : list Z :=
  (fun p => zone_page (m_lower r) (m_large_zones r) i p) <$> seqZ q (Z.of_nat n).

Lemma create_pages_spec n r As i A q :
  region_at r As -> As !! i = Some A -> 0 <= q -> q + Z.of_nat n <= 2 ^ zone_order (m_large_zones r) i ->
  (forall p, q <= p < q + Z.of_nat n -> p ∉ A) ->
  wp (create_pages page_object n (zone_page (m_lower r) (m_large_zones r) i q)) r
    (fun res r' => res = Ok (page_run r i q n) /\ region_at r' As /\ fixed r r').
Proof using Type.
  revert r q. induction n as [|n IH]; intros r q Hr HA Hq Hn Hfree; cbn [create_pages].
  { wp_step. by split_and!. }
  wp_step. eapply wp_mono; [apply (create_spec r As i A q Hr HA); [lia|apply Hfree; lia]|].
  intros res r1 (-> & Hr1 & Hf1). pose proof Hf1 as (El & _ & Ela & _).
  pose proof (zone_page_wrap r As i (q + 1) Hr (lookup_lt_Some _ _ _ HA) ltac:(lia)) as Hw.
  replace (zone_page (m_lower r) (m_large_zones r) i q + PAGE_SIZE)
    with (zone_page (m_lower r) (m_large_zones r) i (q + 1)) by (unfold zone_page; lia).
  rewrite wrap_small by done. rewrite <- El, <- Ela. wp_step.
  eapply wp_mono; [apply (IH r1 (q + 1) Hr1 HA); [lia|rewrite Ela; lia|intros p Hp; apply Hfree; lia]|].
  intros res r2 (-> & Hr2 & Hf2). wp_step. split_and!; [|done|by eapply fixed_trans].
  f_equal. unfold page_run. rewrite (seqZ_cons q) by lia. rewrite El, Ela, fmap_cons.
  do 3 f_equal; lia.
Qed.
End region_specs.

(** ** The operations on sets of pages *)

Definition free_at (r : PhysicalRegion) (As : list (gset Z)) (a : Z) : Prop :=
  exists i A p, As !! i = Some A /\ p ∈ A /\ a = zone_page (m_lower r) (m_large_zones r) i p.
Definition managed_at (r : PhysicalRegion) (a : Z) : Prop :=
  exists i p, (i < length (m_zones r))%nat /\ 0 <= p < 2 ^ zone_order (m_large_zones r) i /\
    a = zone_page (m_lower r) (m_large_zones r) i p.

(** [U] are the pages of the region, [R] those that are free. *)
Definition region_ok (U R : gset Z) (r : PhysicalRegion) : Prop :=
  (exists As, region_at r As /\ forall a, a ∈ R <-> free_at r As a) /\ forall a, a ∈ U <-> managed_at r a.

(** Some pages of a zone, by address. *)
Definition zone_pages (r : PhysicalRegion) (i : nat) (B : gset Z) : gset Z :=
  set_map (zone_page (m_lower r) (m_large_zones r) i) B.

Lemma zone_page_inj_l lower large i p q : zone_page lower large i p = zone_page lower large i q -> p = q.
Proof. unfold zone_page, PAGE_SIZE. lia. Qed.

Lemma elem_zone_pages r i B a :
  a ∈ zone_pages r i B <-> exists p, a = zone_page (m_lower r) (m_large_zones r) i p /\ p ∈ B.
Proof. unfold zone_pages. rewrite elem_of_map. done. Qed.

Lemma managed_fixed r r' a : fixed r r' -> managed_at r a <-> managed_at r' a.
Proof. intros (E1 & _ & E2 & E3). unfold managed_at. by rewrite E1, E2, E3. Qed.

Lemma free_page_range r As i A p :
  region_at r As -> As !! i = Some A -> p ∈ A -> 0 <= p < 2 ^ zone_order (m_large_zones r) i.
Proof.
  intros Hr HA Hp. destruct (region_zone r As i A Hr HA) as (z & _ & Hok & _).
  apply (zone_ok_subset _ _ _ Hok), elem_block_pages in Hp. unfold in_block in Hp. lia.
Qed.

Lemma region_ok_subset U R r : region_ok U R r -> R ⊆ U.
Proof.
  intros [(As & Hr & HR) HU] a (i & A & p & HA & Hp & ->)%HR. apply HU. exists i, p.
  pose proof (lookup_lt_Some _ _ _ HA). split_and!; [by rewrite <- (ra_len _ _ Hr)| | |done];
    by apply (free_page_range r As i A p Hr HA).
Qed.

Lemma free_remove r r' As i A B R :
  region_at r As -> As !! i = Some A -> (forall a, a ∈ R <-> free_at r As a) -> B ⊆ A -> fixed r r' ->
  forall a, a ∈ R ∖ zone_pages r i B <-> free_at r' (<[i := A ∖ B]> As) a.
Proof.
  intros Hr HA HR HB (E1 & _ & E2 & _) a. pose proof (lookup_lt_Some _ _ _ HA) as Hi.
  rewrite elem_of_difference, HR, elem_zone_pages. unfold free_at. rewrite E1, E2. split.
  - intros [(j & A' & p & HA' & Hp & ->) Hn]. destruct (decide (j = i)) as [->|Hne].
    + exists i, (A ∖ B), p. rewrite list_lookup_insert_eq by done. split_and!; [done| |done].
      assert (A' = A) as -> by congruence. apply elem_of_difference. split; [done|]. intros HpB. apply Hn. by exists p.
    + exists j, A', p. by rewrite list_lookup_insert_ne.
  - intros (j & A' & p & HA' & Hp & ->). destruct (decide (j = i)) as [->|Hne].
    + rewrite list_lookup_insert_eq in HA' by done. injection HA' as <-. apply elem_of_difference in Hp as [Hp Hn].
      split; [by exists i, A, p|]. intros (q & Eq%zone_page_inj_l & Hq). congruence.
    + rewrite list_lookup_insert_ne in HA' by done. split; [by exists j, A', p|]. intros (q & Eq & Hq).
      apply zone_page_inj in Eq as [? _]; [done|by eapply free_page_range|]. eapply free_page_range; [done..|]. by apply HB.
Qed.

Lemma free_add r r' As i A B R :
  region_at r As -> As !! i = Some A -> (forall a, a ∈ R <-> free_at r As a) -> fixed r r' ->
  forall a, a ∈ R ∪ zone_pages r i B <-> free_at r' (<[i := A ∪ B]> As) a.
Proof.
  intros Hr HA HR (E1 & _ & E2 & _) a. pose proof (lookup_lt_Some _ _ _ HA) as Hi.
  rewrite elem_of_union, HR, elem_zone_pages. unfold free_at. rewrite E1, E2. split.
  - intros [(j & A' & p & HA' & Hp & ->)|(p & -> & Hp)].
    + destruct (decide (j = i)) as [->|Hne].
      * exists i, (A ∪ B), p. rewrite list_lookup_insert_eq by done. assert (A' = A) as -> by congruence. set_solver.
      * exists j, A', p. by rewrite list_lookup_insert_ne.
    + exists i, (A ∪ B), p. rewrite list_lookup_insert_eq by done. set_solver.
  - intros (j & A' & p & HA' & Hp & ->). destruct (decide (j = i)) as [->|Hne].
    + rewrite list_lookup_insert_eq in HA' by done. injection HA' as <-. apply elem_of_union in Hp as [Hp|Hp].
      * left. by exists i, A, p.
      * right. by exists p.
    + rewrite list_lookup_insert_ne in HA' by done. left. by exists j, A', p.
Qed.

Lemma block_pages_0 q : block_pages 0 q = {[q]}.
Proof. apply leibniz_equiv. intros p. rewrite elem_block_pages, elem_of_singleton. unfold in_block. lia. Qed.

Section region_ops.
Context (page_object : Z -> PhysicalPageEntry) (U R : gset Z) (r : PhysicalRegion).
Context (Hok : region_ok U R r).

Lemma take_free_page_spec :
  wp (take_free_page page_object) r (fun res r' => fixed r r' /\
    ((res = Ok None /\ r' = r /\ R = ∅) \/
     (exists a, res = Ok (Some a) /\ a ∈ R /\ region_ok U (R ∖ {[a]}) r'))).
Proof using Hok.
  destruct Hok as [(As & Hr & HR) HU]. unfold take_free_page. wp_step. wp_step.
  pose proof (ra_lists _ _ Hr) as Hl. destruct (m_usable_zones r) as [|i rest] eqn:Eu.
  { wp_step. split; [done|]. left. split_and!; [done|done|]. apply leibniz_equiv. intros a.
    rewrite HR. split; [|by intros ?%elem_of_empty]. intros (i & A & p & HA & Hp & _).
    assert (i ∈ []) as []%not_elem_of_nil. apply (l_in_usable _ _ _ Hl). exists A. set_solver. }
  destruct (proj1 (l_in_usable _ _ _ Hl i) ltac:(left)) as (A & HA & Hne).
  wp_step. eapply wp_mono; [by apply (on_zone_allocate r As i A 0)|].
  intros res r1 [(-> & _ & Hn)|(q & z' & -> & Hb & Hsub & -> & Hok' & Hb')].
  { exfalso. apply set_choose_L in Hne as [p Hp]. pose proof (free_page_range r As i A p Hr HA Hp) as Hpr.
    apply (Hn p); [|rewrite block_pages_0; set_solver]. pose proof (zone_order_range (m_large_zones r) i).
    unfold is_block. rewrite Z.mod_1_r. change (2 ^ 0) with 1. lia. }
  wp_step. apply wp_VERIFY; [done|]. wp_step.
  eapply wp_mono; [by apply (retire_spec r As i A z' (A ∖ block_pages 0 q))|].
  intros res r2 (-> & Hr2 & Hf2). rewrite block_pages_0 in *. wp_step.
  assert (q ∈ A) as Hq by set_solver. pose proof (free_page_range r As i A q Hr HA Hq) as Hqr.
  pose proof Hf2 as (E1 & _ & E2 & _). rewrite <- E1, <- E2.
  eapply wp_mono; [apply (create_spec page_object r2 _ i (A ∖ {[q]}) q Hr2)|].
  - apply list_lookup_insert_eq. by eapply lookup_lt_Some.
  - by rewrite E2.
  - set_solver.
  - intros res r3 (-> & Hr3 & Hf3). wp_step. pose proof (fixed_trans _ _ _ Hf2 Hf3) as Hf. split; [done|]. right.
    rewrite E1, E2. eexists. split; [done|]. split; [apply HR; by exists i, A, q|]. split.
    + exists (<[i := A ∖ {[q]}]> As). split; [done|].
      pose proof (free_remove r r3 As i A {[q]} R Hr HA HR ltac:(set_solver) Hf) as Hfree.
      intros a. rewrite <- Hfree. unfold zone_pages. by rewrite set_map_singleton_L.
    + intros a. rewrite HU. by apply managed_fixed.
Qed.

Lemma allocate_from_zones_spec As zones o :
  region_at r As -> 0 <= o -> (forall i, i ∈ zones -> exists A, As !! i = Some A /\ A <> ∅) ->
  wp (allocate_from_zones zones o) r (fun res r' => fixed r r' /\
    ((res = Ok None /\ r' = r /\ forall i A q, i ∈ zones -> As !! i = Some A ->
        is_block (zone_order (m_large_zones r) i) o q -> ~ block_pages o q ⊆ A) \/
     (exists i A q, res = Ok (Some (zone_page (m_lower r) (m_large_zones r) i q)) /\ As !! i = Some A /\
        is_block (zone_order (m_large_zones r) i) o q /\ block_pages o q ⊆ A /\
        region_at r' (<[i := A ∖ block_pages o q]> As)))).
Proof using Type.
  clear Hok. intros Hr Ho. induction zones as [|i zones IH]; intros Hz; cbn [allocate_from_zones].
  { wp_step. split; [done|]. left. split_and!; [done|done|]. intros i A q []%not_elem_of_nil. }
  destruct (Hz i ltac:(left)) as (A & HA & Hne).
  wp_step. eapply wp_mono; [by apply (on_zone_allocate r As i A o)|].
  intros res r1 [(-> & -> & Hn)|(q & z' & -> & Hb & Hsub & -> & Hok' & Hb')].
  - eapply wp_mono; [apply IH; intros j Hj; apply Hz; by right|].
    intros res r2 [Hf [(-> & -> & Hn')|H]]; (split; [done|]); [|by right].
    left. split_and!; [done|done|]. intros j A' q [->|Hj]%elem_of_cons HA' Hb; [|by eapply Hn'].
    assert (A' = A) as -> by congruence. by apply Hn.
  - wp_step. eapply wp_mono; [by apply (retire_spec r As i A z' (A ∖ block_pages o q))|].
    intros res r2 (-> & Hr2 & Hf2). wp_step. split; [done|]. right. by exists i, A, q.
Qed.

(** The addresses of [count] pages from [a] on. *)
Definition contiguous_pages (a count : Z) : list Z := (fun j => a + j * PAGE_SIZE) <$> seqZ 0 count.

Lemma page_run_contiguous i q n :
  page_run r i q n = contiguous_pages (zone_page (m_lower r) (m_large_zones r) i q) (Z.of_nat n).
Proof using Type.
  unfold page_run, contiguous_pages. rewrite <- (Z.add_0_r q) at 1. rewrite <- fmap_add_seqZ, <- list_fmap_compose.
  apply list_fmap_ext. intros _ j _. simpl. unfold zone_page. lia.
Qed.

Lemma zone_pages_block i o q :
  0 <= o ->
  zone_pages r i (block_pages o q) =
  list_to_set (contiguous_pages (zone_page (m_lower r) (m_large_zones r) i q) (2 ^ o)).
Proof using Type.
  clear. intros Ho. pose proof (pow2_pos o Ho). apply leibniz_equiv. intros a.
  rewrite <- (Z2Nat.id (2 ^ o)) by lia. rewrite <- page_run_contiguous.
  rewrite elem_zone_pages, elem_of_list_to_set. unfold page_run. rewrite list_elem_of_fmap, Z2Nat.id by lia.
  unfold block_pages. by setoid_rewrite elem_of_list_to_set.
Qed.

Lemma take_contiguous_free_pages_spec count :
  0 < count <= 2 ^ 31 ->
  wp (take_contiguous_free_pages page_object count) r (fun res r' => fixed r r' /\
    ((res = Ok [] /\ r' = r /\ forall i q, (i < length (m_zones r))%nat ->
        is_block (zone_order (m_large_zones r) i) (Z.log2_up count) q ->
        ~ zone_pages r i (block_pages (Z.log2_up count) q) ⊆ R) \/
     (exists a, let B := list_to_set (contiguous_pages a (2 ^ Z.log2_up count)) in
        res = Ok (contiguous_pages a count) /\ B ⊆ R /\ region_ok U (R ∖ B) r'))).
Proof using Hok.
  intros Hc. destruct Hok as [(As & Hr & HR) HU]. unfold take_contiguous_free_pages.
  assert (0 <= Z.log2_up count <= 31) as Hlog.
  { split; [apply Z.log2_up_nonneg|]. apply Z.log2_up_le_pow2; lia. }
  rewrite next_power_of_two_spec, count_trailing_zeroes_pow2 by lia. set (o := Z.log2_up count) in *.
  assert (count <= 2 ^ o) as Hle by (apply Z.log2_up_le_pow2; lia).
  wp_steps. eapply wp_mono; [apply (allocate_from_zones_spec As _ o Hr ltac:(lia))|].
  { intros i Hi. by apply (l_in_usable _ _ _ (ra_lists _ _ Hr)). }
  intros res r1 [Hf1 [(-> & -> & Hn)|(i & A & q & -> & HA & Hb & Hsub & Hr1)]].
  - wp_step. split; [done|]. left. split_and!; [done|done|]. intros i q Hi Hb Hsub.
    destruct (lookup_lt_is_Some_2 As i) as [A HA]; [by rewrite (ra_len _ _ Hr)|].
    assert (block_pages o q ⊆ A) as HsubA.
    { intros p Hp. assert (zone_page (m_lower r) (m_large_zones r) i p ∈ R) as HpR.
      { apply Hsub, elem_zone_pages. by exists p. }
      apply HR in HpR as (j & A' & p' & HA' & Hp' & E).
      apply elem_block_pages in Hp. destruct Hb as (? & ? & ? & ?). unfold in_block in Hp.
      apply zone_page_inj in E as [<- ->]; [congruence|lia|by eapply free_page_range]. }
    apply (Hn i A q); [|done|done|done]. apply (l_in_usable _ _ _ (ra_lists _ _ Hr)). exists A. split; [done|].
    intros ->. pose proof (size_block_pages o q ltac:(lia)) as Hs.
    assert (block_pages o q = ∅) as E by set_solver. rewrite E, size_empty in Hs. pose proof (pow2_pos o). lia.
  - pose proof Hb as (Hbo & Hq0 & _ & Hqe). pose proof Hf1 as (E1 & _ & E2 & _). rewrite <- E1, <- E2.
    eapply wp_mono; [apply (create_pages_spec page_object (Z.to_nat count) r1 _ i (A ∖ block_pages o q) q Hr1)|].
    + apply list_lookup_insert_eq. by eapply lookup_lt_Some.
    + done.
    + rewrite E2. lia.
    + intros p Hp [_ Hn]%elem_of_difference. apply Hn, elem_block_pages. unfold in_block. lia.
    + intros res r2 (-> & Hr2 & Hf2). pose proof (fixed_trans _ _ _ Hf1 Hf2) as Hf. split; [done|]. right.
      exists (zone_page (m_lower r) (m_large_zones r) i q). cbv zeta. rewrite <- zone_pages_block by lia. split_and!.
      * f_equal. unfold page_run. rewrite E1, E2. rewrite <- (Z2Nat.id count) at 2 by lia. apply page_run_contiguous.
      * intros a (p & -> & Hp)%elem_zone_pages. apply HR. exists i, A, p. split_and!; [done|by apply Hsub|done].
      * split; [|intros a; rewrite HU; by apply managed_fixed]. eexists. split; [exact Hr2|]. by apply free_remove.
Qed.

(** The computation of the zone of a page. *)
Lemma zone_index_page As i p :
  region_at r As -> (i < length (m_zones r))%nat -> 0 <= p < 2 ^ zone_order (m_large_zones r) i ->
  let paddr := zone_page (m_lower r) (m_large_zones r) i p in
  let small_zone_base := wrap 64 (m_lower r + m_large_zones r * large_zone_size) in
  (if paddr <? small_zone_base then wrap 64 (paddr - m_lower r) / large_zone_size
   else m_large_zones r + wrap 64 (paddr - small_zone_base) / small_zone_size) = Z.of_nat i.
Proof using Type.
  clear Hok. intros Hr Hi Hp. cbv zeta. pose proof (ra_large _ _ Hr). pose proof (ra_lower _ _ Hr) as [? _].
  pose proof (ra_end _ _ Hr) as He.
  pose proof (zone_page_wrap r As i p Hr ltac:(rewrite (ra_len _ _ Hr); lia) ltac:(lia)) as Hw.
  pose proof (zone_page_range (m_lower r) (m_large_zones r) i p Hp) as Hrange.
  set (a := zone_page (m_lower r) (m_large_zones r) i p) in *.
  rewrite (wrap_small 64 (m_lower r + _)) by (unfold in_width; zones; lia).
  destruct (Z.ltb_spec a (m_lower r + m_large_zones r * large_zone_size)) as [Hlt|Hge].
  - rewrite wrap_small by (unfold in_width; zones; lia). symmetry.
    apply (Z.div_unique _ _ _ (a - zone_start (m_lower r) (m_large_zones r) i)); zones; lia.
  - rewrite wrap_small by (unfold in_width; zones; lia).
    enough ((a - (m_lower r + m_large_zones r * large_zone_size)) / small_zone_size = Z.of_nat i - m_large_zones r) by lia.
    symmetry. apply (Z.div_unique _ _ _ (a - zone_start (m_lower r) (m_large_zones r) i)); zones; lia.
Qed.

Lemma return_page_spec a :
  a ∈ U -> a ∉ R ->
  wp (return_page a) r (fun res r' => res = Ok tt /\ fixed r r' /\ region_ok U (R ∪ {[a]}) r').
Proof using Hok.
  clear page_object. intros Ha Hn. destruct Hok as [(As & Hr & HR) HU]. apply HU in Ha as (i & p & Hi & Hp & ->).
  destruct (lookup_lt_is_Some_2 As i) as [A HA]; [by rewrite (ra_len _ _ Hr)|].
  destruct (region_zone r As i A Hr HA) as (z & Hz & Hzok & Hb).
  assert (p ∉ A) as HpA by (intros HpA; apply Hn, HR; by exists i, A, p).
  unfold return_page. wp_steps. cbn [id]. rewrite (zone_index_page As i p Hr Hi Hp), (at_index_Ok _ _ z Hz), Nat2Z.id.
  wp_step. apply wp_VERIFY.
  { rewrite (zone_contains_page r As i z p Hr Hz Hp i z Hz). by apply bool_decide_eq_true. }
  wp_step. apply (wp_on_zone _ _ z); [done|].
  assert (is_block (zone_order (m_large_zones r) i) 0 p) as Hblock.
  { pose proof (zone_order_range (m_large_zones r) i). unfold is_block. rewrite Z.mod_1_r. change (2 ^ 0) with 1. lia. }
  unfold zone_page. rewrite <- Hb.
  eapply wp_mono; [apply (deallocate_block_spec _ A z 0 p Hzok Hblock); rewrite block_pages_0; set_solver|].
  intros res z' (-> & Hb' & Hzok'). rewrite block_pages_0 in Hzok'. rewrite Hb.
  fold (zone_page (m_lower r) (m_large_zones r) i p).
  assert (forall u f, lists_ok (<[i := A ∪ {[p]}]> As) u f ->
    let r' := with_lists (with_zones r (<[i := z']> (m_zones r))) u f in
    fixed r r' /\ region_ok U (R ∪ {[zone_page (m_lower r) (m_large_zones r) i p]}) r') as Hfinal.
  { intros u f Hl r'. assert (fixed r r') as Hf by (unfold fixed; simpl; by rewrite length_insert).
    split; [done|]. split; [|intros a; rewrite HU; by apply managed_fixed].
    exists (<[i := A ∪ {[p]}]> As). split.
    - apply region_update; [done|by eapply lookup_lt_Some|done|congruence|done].
    - intros a. rewrite <- (free_add r r' As i A {[p]} R Hr HA HR Hf). unfold zone_pages. by rewrite set_map_singleton_L. }
  wp_steps; bool_hyps.
  - case_bool_decide as Hfull; [|done]. unfold append_to_usable. wp_steps. split; [done|]. apply Hfinal.
    apply lists_to_usable; [apply (ra_lists _ _ Hr)|by eapply lookup_lt_Some|set_solver].
  - case_bool_decide as Hfull; [done|]. wp_steps. split; [done|]. apply (Hfinal (m_usable_zones r) (m_full_zones r)).
    apply (lists_keep _ _ _ i A); [apply (ra_lists _ _ Hr)|done|]. split; [|set_solver].
    intros ->. destruct Hfull. by apply (l_in_full _ _ _ (ra_lists _ _ Hr)).
Qed.

Lemma write_entry_ok a en :
  a ∈ U -> a ∉ R -> wp (write_page_entry a en) r (fun res r' => res = Ok tt /\ fixed r r' /\ region_ok U R r').
Proof using Hok.
  clear page_object. intros Ha Hn. destruct Hok as [(As & Hr & HR) HU]. apply HU in Ha as (i & p & Hi & Hp & ->).
  destruct (lookup_lt_is_Some_2 As i) as [A HA]; [by rewrite (ra_len _ _ Hr)|].
  eapply wp_mono; [apply (write_page_entry_spec r As i A p en Hr HA Hp); intros HpA; apply Hn, HR; by exists i, A, p|].
  intros res r' (-> & Hr' & Hf). split_and!; [done|done|]. split; [|intros a; rewrite HU; by apply managed_fixed].
  exists As. split; [done|]. intros a. rewrite HR. unfold free_at. by destruct Hf as (-> & _ & -> & _).
Qed.
End region_ops.

Lemma region_contains_managed U R r a : region_ok U R r -> a ∈ U -> region_contains r a = true.
Proof.
  intros [(As & Hr & _) HU] (i & p & Hi & Hp & ->)%HU. unfold region_contains.
  pose proof (zone_page_range (m_lower r) (m_large_zones r) i p Hp) as Hrange. rewrite zone_end_next in Hrange.
  pose proof (zone_start_mono (m_lower r) (m_large_zones r) (S i) (length (m_zones r)) ltac:(lia)).
  pose proof (zone_start_mono (m_lower r) (m_large_zones r) 0 i ltac:(lia)).
  pose proof (ra_end _ _ Hr). pose proof (ra_large _ _ Hr).
  assert (m_lower r <= zone_start (m_lower r) (m_large_zones r) 0) by (zones; lia).
  apply andb_true_intro. split; [apply Z.leb_le|apply Z.ltb_lt]; lia.
Qed.

(** ** Construction *)

Section construction.
Context (boot_entries : Z -> PhysicalPageEntry).

Lemma new_zone_spec k base :
  0 <= k <= max_order -> 0 <= base -> base mod PAGE_SIZE = 0 -> base + 2 ^ k * PAGE_SIZE < 2 ^ 64 ->
  exists z, new_zone boot_entries base (2 ^ k) = Ok z /\ zone_ok k (block_pages k 0) z /\ m_base_address z = base.
Proof using Type.
  intros Hk Hb Ha He. unfold new_zone. set (e := _ <$> _).
  destruct (construct (raw_zone base (2 ^ k) e)) as [res z] eqn:E.
  assert (Z.of_nat (length e) = 2 ^ k) as Hlen.
  { subst e. rewrite length_fmap, length_seqZ. pose proof (pow2_pos k). lia. }
  destruct (wp_run _ _ _ _ _ E (construct_spec k base e Hk Hb Ha He Hlen)) as (-> & Hbase & Hok).
  by exists z.
Qed.

(** All the zones made so far, with every page free. *)
Definition made (lower large : Z) (zones : list PhysicalZone) : Prop :=
  forall i z, zones !! i = Some z ->
    zone_ok (zone_order large i) (block_pages (zone_order large i) 0) z /\
    m_base_address z = zone_start lower large i.

Lemma zone_start_aligned lower large i :
  lower mod PAGE_SIZE = 0 -> zone_start lower large i mod PAGE_SIZE = 0.
Proof using Type.
  clear. intros H. apply Z.mod_divide in H as [x ->]; [|done]. apply Z.mod_divide; [done|].
  zones; [exists (x + Z.of_nat i * 4096)|exists (x + large * 4096 + (Z.of_nat i - large) * 256)]; lia.
Qed.

Lemma make_zones_spec k large fuel r remaining count :
  0 <= k <= max_order -> 0 <= remaining -> (Z.to_nat remaining <= fuel)%nat ->
  0 <= m_lower r -> m_lower r mod PAGE_SIZE = 0 -> 0 <= large ->
  let n := length (m_zones r) in
  let m := Z.to_nat (remaining / 2 ^ k) in
  (forall i, (n <= i < n + m)%nat -> zone_order large i = k) ->
  zone_start (m_lower r) large (n + m) < 2 ^ 64 ->
  made (m_lower r) large (m_zones r) -> m_usable_zones r = seq 0 n -> m_full_zones r = [] ->
  wp (make_zones boot_entries fuel (2 ^ k) remaining (zone_start (m_lower r) large n) count) r (fun res r' =>
    res = Ok (remaining mod 2 ^ k, zone_start (m_lower r) large (n + m), count + remaining / 2 ^ k) /\
    made (m_lower r) large (m_zones r') /\ length (m_zones r') = (n + m)%nat /\
    m_usable_zones r' = seq 0 (n + m) /\ m_full_zones r' = [] /\
    m_lower r' = m_lower r /\ m_upper r' = m_upper r /\ m_large_zones r' = m_large_zones r).
Proof using Type.
  intros Hk. revert r remaining count. induction fuel as [|fuel IH];
    intros r remaining count Hrem Hfuel Hl Ha Hlg n m Hord Hend Hmade Hu Hf; pose proof (pow2_pos k ltac:(lia)) as Hpow.
  { assert (remaining = 0) as -> by lia. cbn [make_zones].
    rewrite (proj2 (Z.leb_gt _ _)) by lia. wp_step. subst m. rewrite Z.mod_0_l, Z.div_0_l by lia.
    rewrite !Nat.add_0_r. rewrite Z.add_0_r. by split_and!. }
  cbn [make_zones]. destruct (Z.leb_spec (2 ^ k) remaining) as [Hle|Hgt].
  2: { wp_step. subst m. rewrite Z.div_small, Z.mod_small by lia. rewrite !Nat.add_0_r. rewrite Z.add_0_r. by split_and!. }
  assert (remaining / 2 ^ k = (remaining - 2 ^ k) / 2 ^ k + 1) as Hdiv.
  { rewrite <- (Z.div_add _ 1) by lia. f_equal. lia. }
  assert (0 <= (remaining - 2 ^ k) / 2 ^ k) as Hdiv0 by (apply Z.div_pos; lia).
  assert (remaining mod 2 ^ k = (remaining - 2 ^ k) mod 2 ^ k) as Hmod.
  { rewrite <- (Z.mod_add (remaining - 2 ^ k) 1) by lia. f_equal. lia. }
  set (m1 := Z.to_nat ((remaining - 2 ^ k) / 2 ^ k)). assert (m = S m1) as Em by lia.
  assert (zone_order large n = k) as Hk' by (apply Hord; lia).
  pose proof (zone_end_next (m_lower r) large n) as Hnext. unfold zone_end in Hnext. rewrite Hk' in Hnext.
  pose proof (zone_start_mono (m_lower r) large (S n) (n + m) ltac:(lia)) as Hmono.
  assert (0 <= zone_start (m_lower r) large n) as Hs0 by (clear - Hl Hlg; zones; lia).
  destruct (new_zone_spec k (zone_start (m_lower r) large n)) as (z & Ez & Hzok & Hzb);
    [done|done|by apply zone_start_aligned|lia|].
  wp_step. apply wp_lift. rewrite Ez. unfold append_zone. wp_steps.
  rewrite Hnext, wrap_small by (unfold in_width; unfold PAGE_SIZE in *; lia).
  set (r1 := mkRegion _ _ _ _ _ _ _).
  assert (length (m_zones r1) = S n) as En by (subst r1; simpl; rewrite length_app; simpl; lia).
  pose proof (IH r1 (remaining - 2 ^ k) (count + 1)) as IH1. cbv zeta in IH1. rewrite En in IH1. fold m1 in IH1.
  replace (S n + m1)%nat with (n + m)%nat in IH1 by lia.
  eapply wp_mono; [apply IH1|]; clear IH IH1; try done; try lia.
  - intros i Hi. apply Hord. lia.
  - intros i z'. subst r1. simpl. intros [Hi|[Hi Hz]]%lookup_app_Some; [by apply Hmade|].
    apply list_lookup_singleton_Some in Hz as [Hi0 <-]. fold n in Hi, Hi0. replace i with n by lia. by rewrite Hk'.
  - change (m_usable_zones r ++ [n] = seq 0 (S n)). by rewrite Hu, seq_S.
  - intros res r' (-> & ? & ? & ? & ? & ? & ? & ?). split_and!; try done.
    rewrite Hmod, Hdiv. do 2 f_equal. lia.
Qed.

Definition full_zones (large : Z) (n : nat) : list (gset Z) :=
  (fun i => block_pages (zone_order large i) 0) <$> seq 0 n.

Lemma lookup_full_zones large n i :
  full_zones large n !! i = if (i <? n)%nat then Some (block_pages (zone_order large i) 0) else None.
Proof using Type.
  clear. unfold full_zones. rewrite list_lookup_fmap. destruct (Nat.ltb_spec i n).
  - by rewrite lookup_seq_lt by done.
  - by rewrite lookup_seq_ge by done.
Qed.

Lemma full_zones_lists large n : lists_ok (full_zones large n) (seq 0 n) [].
Proof using Type.
  clear. split; [apply NoDup_seq|apply NoDup_nil_2| |].
  - intros i. rewrite elem_of_seq, lookup_full_zones. destruct (Nat.ltb_spec i n).
    + split; [|lia]. intros _. eexists. split; [done|]. intros E.
      assert (0 ∈ block_pages (zone_order large i) 0) as H0; [|rewrite E in H0; set_solver].
      apply elem_block_pages, in_block_self. pose proof (zone_order_range large i). lia.
    + split; [lia|]. by intros (A & ? & _).
  - intros i. rewrite lookup_full_zones. split; [by intros ?%not_elem_of_nil|].
    destruct (i <? n)%nat; [|done]. intros [= E]. exfalso.
    assert (0 ∈ block_pages (zone_order large i) 0) as H0; [|rewrite E in H0; set_solver].
    apply elem_block_pages, in_block_self. pose proof (zone_order_range large i). lia.
Qed.

Lemma initialize_zones_spec lower upper :
  0 <= lower <= upper -> upper < 2 ^ 64 -> lower mod PAGE_SIZE = 0 ->
  let pages := (upper - lower) / PAGE_SIZE in
  wp (initialize_zones boot_entries) (make_region lower upper) (fun res r' =>
    res = Ok tt /\ m_lower r' = lower /\ m_upper r' = upper /\
    m_large_zones r' = pages / 4096 /\
    Z.of_nat (length (m_zones r')) = pages / 4096 + pages mod 4096 / 256 /\
    region_at r' (full_zones (m_large_zones r') (length (m_zones r')))).
Proof using Type.
  intros Hl Hu Ha pages. pose proof (Z.div_mod (upper - lower) PAGE_SIZE ltac:(done)) as Hdm. fold pages in Hdm.
  assert (0 <= pages) as Hp by (apply Z.div_pos; unfold PAGE_SIZE; lia).
  pose proof (Z.mod_pos_bound (upper - lower) PAGE_SIZE ltac:(done)).
  assert (m_pages (make_region lower upper) = pages) as Hpages.
  { simpl. rewrite wrap_small by (unfold in_width; lia). done. }
  set (large := pages / 4096). assert (0 <= large) by (apply Z.div_pos; lia).
  pose proof (Z.div_mod pages 4096 ltac:(lia)) as Hd1. fold large in Hd1. pose proof (Z.mod_pos_bound pages 4096 ltac:(lia)).
  set (rem := pages mod 4096) in *. assert (0 <= rem / 256) by (apply Z.div_pos; lia).
  pose proof (Z.div_mod rem 256 ltac:(lia)) as Hd2. pose proof (Z.mod_pos_bound rem 256 ltac:(lia)).
  unfold initialize_zones. wp_steps. rewrite Hpages. cbn [m_lower make_region].
  pose proof (make_zones_spec 12 large (Z.to_nat pages) (make_region lower upper) pages 0) as S1. cbv zeta in S1.
  cbn [m_zones make_region length Nat.add] in S1. change (2 ^ 12) with 4096 in S1. fold large rem in S1.
  replace (zone_start (m_lower (make_region lower upper)) large 0) with lower in S1 by (simpl; zones; lia).
  change (large_zone_size / PAGE_SIZE) with 4096. change (small_zone_size / PAGE_SIZE) with 256.
  eapply wp_mono; [apply S1|]; clear S1; try done; try (simpl; lia).
  { intros i Hi. unfold zone_order. rewrite (proj2 (Z.ltb_lt _ _)) by lia. done. }
  { simpl. zones; lia. }
  intros res r1 (-> & Hmade & Hlen & Hus & Hfu & El & Eu & _). cbn [m_lower m_upper make_region] in *.
  wp_steps. set (r2 := mkRegion _ _ _ _ _ _ _).
  pose proof (make_zones_spec 8 large (Z.to_nat pages) r2 rem 0) as S2. cbv zeta in S2. subst r2.
  cbn [m_zones m_lower m_usable_zones m_full_zones m_upper m_large_zones] in S2.
  rewrite Hlen, El in S2. rewrite El. change (2 ^ 8) with 256 in S2.
  eapply wp_mono; [apply S2|]; clear S2; try done; try lia.
  { intros i Hi. unfold zone_order. rewrite (proj2 (Z.ltb_ge _ _)) by lia. done. }
  { zones; lia. }
  intros res r3 (-> & Hmade3 & Hlen3 & Hus3 & Hfu3 & El3 & Eu3 & Elg3). wp_steps.
  split_and!; [done|done|congruence|done|lia|]. rewrite Elg3. split.
  - lia.
  - rewrite El3. split; [lia|done].
  - rewrite El3, Eu3, Elg3, Eu, Hlen3. zones; lia.
  - unfold full_zones. by rewrite length_fmap, length_seq.
  - intros i z A Hz HA. rewrite lookup_full_zones in HA. rewrite (proj2 (Nat.ltb_lt _ _)) in HA by (by eapply lookup_lt_Some).
    injection HA as <-. rewrite El3, Elg3. by apply Hmade3.
  - rewrite Hus3, Hfu3, Hlen3. apply full_zones_lists.
Qed.
End construction.

(** The pages that the zones of a region manage: whole MiBs from the lower end. *)
Definition managed_pages (lower upper : Z) : gset Z :=
  list_to_set (contiguous_pages lower ((upper - lower) / PAGE_SIZE / 256 * 256)).

Lemma elem_contiguous_pages a count x :
  x ∈ contiguous_pages a count <-> exists j, x = a + j * PAGE_SIZE /\ 0 <= j < count.
Proof.
  unfold contiguous_pages. rewrite list_elem_of_fmap. setoid_rewrite elem_of_seqZ.
  split; intros (j & -> & Hj); exists j; (split; [done|lia]).
Qed.

Lemma managed_at_iff r pages a :
  0 <= pages -> m_large_zones r = pages / 4096 ->
  Z.of_nat (length (m_zones r)) = pages / 4096 + pages mod 4096 / 256 ->
  managed_at r a <-> exists j, a = m_lower r + j * PAGE_SIZE /\ 0 <= j < pages / 256 * 256.
Proof.
  intros Hp El En. unfold managed_at. rewrite El. set (large := pages / 4096) in *.
  assert (0 <= large) by (apply Z.div_pos; lia).
  pose proof (Z.div_mod pages 4096 ltac:(lia)) as Hd1. pose proof (Z.mod_pos_bound pages 4096 ltac:(lia)).
  fold large in Hd1. set (rem := pages mod 4096) in *. assert (0 <= rem / 256) by (apply Z.div_pos; lia).
  assert (pages / 256 = 16 * large + rem / 256) as ->.
  { rewrite Hd1. replace (4096 * large + rem) with (rem + 16 * large * 256) by lia. rewrite Z.div_add by lia. lia. }
  split.
  - intros (i & p & Hi & Hpr & ->). unfold zone_page. zones.
    + exists (Z.of_nat i * 4096 + p). change (2 ^ 12) with 4096 in *. lia.
    + exists (large * 4096 + (Z.of_nat i - large) * 256 + p). change (2 ^ 8) with 256 in *. lia.
  - intros (j & -> & Hj). destruct (Z.ltb_spec j (large * 4096)).
    + pose proof (Z.div_mod j 4096 ltac:(lia)). pose proof (Z.mod_pos_bound j 4096 ltac:(lia)).
      pose proof (Z.div_pos j 4096). exists (Z.to_nat (j / 4096)), (j mod 4096). unfold zone_page.
      rewrite <- (Z2Nat.id (j / 4096)) in * by lia. rewrite Nat2Z.id in *.
      zones; change (2 ^ 12) with 4096 in *; lia.
    + pose proof (Z.div_mod (j - large * 4096) 256 ltac:(lia)). pose proof (Z.mod_pos_bound (j - large * 4096) 256 ltac:(lia)).
      pose proof (Z.div_pos (j - large * 4096) 256). set (d := (j - large * 4096) / 256) in *.
      exists (Z.to_nat (large + d)), ((j - large * 4096) mod 256).
      unfold zone_page. zones; change (2 ^ 8) with 256 in *; rewrite ?Z2Nat.id in * by lia; lia.
Qed.

Definition region_place (lower upper : Z) : Prop :=
  0 <= lower <= upper /\ upper < 2 ^ 64 /\ lower mod PAGE_SIZE = 0.

Lemma initialize_zones_ok boot_entries lower upper :
  region_place lower upper ->
  wp (initialize_zones boot_entries) (make_region lower upper) (fun res r =>
    res = Ok tt /\ m_lower r = lower /\ m_upper r = upper /\
    region_ok (managed_pages lower upper) (managed_pages lower upper) r).
Proof.
  intros (Hl & Hu & Ha). eapply wp_mono; [by apply initialize_zones_spec|]. cbv zeta.
  intros res r (-> & El & Eu & Elg & Elen & Hr). split_and!; [done|done|done|].
  assert (forall a, a ∈ managed_pages lower upper <-> managed_at r a) as HU.
  { intros a. unfold managed_pages. rewrite elem_of_list_to_set, elem_contiguous_pages.
    rewrite (managed_at_iff r ((upper - lower) / PAGE_SIZE)), El; [done| |done|done].
    apply Z.div_pos; unfold PAGE_SIZE; lia. }
  split; [|done]. eexists. split; [exact Hr|]. intros a. rewrite HU. unfold managed_at, free_at.
  split.
  - intros (i & p & Hi & Hp & ->). eexists i, _, p. rewrite lookup_full_zones, (proj2 (Nat.ltb_lt _ _)) by done.
    split_and!; [done| |done]. apply elem_block_pages. unfold in_block. lia.
  - intros (i & A & p & HA & Hp & ->). exists i, p. rewrite lookup_full_zones in HA.
    destruct (Nat.ltb_spec i (length (m_zones r))); [|done]. injection HA as <-.
    apply elem_block_pages in Hp. unfold in_block in Hp. split_and!; [done|lia|lia|done].
Qed.

(** ** Runs of a region

    [R] are the pages that are not handed out, as the callers see them. *)
Inductive region_run (page_object : Z -> PhysicalPageEntry) (lower upper : Z)
    : gset Z -> PhysicalRegion -> Prop :=
  | rrun_initialize boot_entries r :
      initialize_zones boot_entries (make_region lower upper) = (Ok tt, r) ->
      region_run page_object lower upper (managed_pages lower upper) r
  | rrun_take R r a r' :
      region_run page_object lower upper R r ->
      take_free_page page_object r = (Ok (Some a), r') ->
      region_run page_object lower upper (R ∖ {[a]}) r'
  | rrun_take_contiguous R r count a l r' :
      region_run page_object lower upper R r -> 0 < count <= 2 ^ 31 ->
      take_contiguous_free_pages page_object count r = (Ok (a :: l), r') ->
      region_run page_object lower upper
        (R ∖ list_to_set (contiguous_pages a (2 ^ Z.log2_up count))) r'
  | rrun_return R r a r' :
      region_run page_object lower upper R r -> a ∈ managed_pages lower upper -> a ∉ R ->
      return_page a r = (Ok tt, r') ->
      region_run page_object lower upper (R ∪ {[a]}) r'
  | rrun_write R r a en r' :
      region_run page_object lower upper R r -> a ∈ managed_pages lower upper -> a ∉ R ->
      write_page_entry a en r = (Ok tt, r') ->
      region_run page_object lower upper R r'.

Lemma region_run_ok page_object lower upper R r :
  region_place lower upper -> region_run page_object lower upper R r ->
  region_ok (managed_pages lower upper) R r /\ m_lower r = lower /\ m_upper r = upper.
Proof.
  intros Hp. induction 1 as [boot r Hr|R r a r' _ (Hok & El & Eu) Hr|R r count a l r' _ (Hok & El & Eu) Hc Hr|
    R r a r' _ (Hok & El & Eu) Ha Hn Hr|R r a en r' _ (Hok & El & Eu) Ha Hn Hr].
  - destruct (wp_run _ _ _ _ _ Hr (initialize_zones_ok boot lower upper Hp)) as (_ & ? & ? & ?). done.
  - destruct (wp_run _ _ _ _ _ Hr (take_free_page_spec page_object _ _ _ Hok))
      as ((E1 & E2 & _) & [(? & _)|(a' & [= <-] & _ & Hok')]); [done|]. split_and!; [done|congruence|congruence].
  - destruct (wp_run _ _ _ _ _ Hr (take_contiguous_free_pages_spec page_object _ _ _ Hok count Hc))
      as ((E1 & E2 & _) & [(? & _)|(a' & E & _ & Hok')]); [done|].
    assert (a' = a) as ->.
    { injection E as E. unfold contiguous_pages in E. rewrite seqZ_cons in E by lia. injection E as ->. lia. }
    split_and!; [done|congruence|congruence].
  - destruct (wp_run _ _ _ _ _ Hr (return_page_spec _ _ _ Hok a Ha Hn)) as (_ & (E1 & E2 & _) & Hok').
    split_and!; [done|congruence|congruence].
  - destruct (wp_run _ _ _ _ _ Hr (write_entry_ok _ _ _ Hok a en Ha Hn)) as (_ & (E1 & E2 & _) & Hok').
    split_and!; [done|congruence|congruence].
Qed.

(** In every reachable state of a region, taking a page never fails an assertion: it
    returns the address of a page of the region that is not handed out, or nothing, and
    then every page that the zones manage is handed out. *)
Theorem region_take_exact page_object lower upper R r :
  region_place lower upper -> region_run page_object lower upper R r ->
  exists res r', take_free_page page_object r = (Ok res, r') /\
    match res with
    | Some a => a ∈ R /\ a ∈ managed_pages lower upper /\ region_contains r a = true
    | None => R = ∅ /\ r' = r
    end.
Proof.
  intros Hp Hrun. destruct (region_run_ok _ _ _ _ _ Hp Hrun) as (Hok & El & Eu).
  destruct (take_free_page page_object r) as [res r'] eqn:E.
  destruct (wp_run _ _ _ _ _ E (take_free_page_spec page_object _ _ _ Hok)) as (_ & [(-> & -> & HR)|(a & -> & Ha & _)]).
  - by exists None, r.
  - exists (Some a), r'. split; [done|]. assert (a ∈ managed_pages lower upper) by (by apply (region_ok_subset _ _ _ Hok)).
    split_and!; [done|done|]. by apply (region_contains_managed _ _ _ _ Hok).
Qed.

(** In every reachable state of a region, asking for [count] contiguous pages returns
    the addresses of [count] consecutive pages that are not handed out, or nothing, and
    then no zone has an aligned run of as many free pages, rounded up to a power of two.
    On success the whole rounded block leaves the free pages of the region, and it can be
    returned only page by page. *)
Theorem region_contiguous_exact page_object lower upper R r count :
  region_place lower upper -> region_run page_object lower upper R r -> 0 < count <= 2 ^ 31 ->
  exists res r', take_contiguous_free_pages page_object count r = (Ok res, r') /\
    ((res = [] /\ r' = r /\ forall i q, (i < length (m_zones r))%nat ->
        is_block (zone_order (m_large_zones r) i) (Z.log2_up count) q ->
        ~ zone_pages r i (block_pages (Z.log2_up count) q) ⊆ R) \/
     (exists a, res = contiguous_pages a count /\
        list_to_set (contiguous_pages a (2 ^ Z.log2_up count)) ⊆ R)).
Proof.
  intros Hp Hrun Hc. destruct (region_run_ok _ _ _ _ _ Hp Hrun) as (Hok & El & Eu).
  destruct (take_contiguous_free_pages page_object count r) as [res r'] eqn:E.
  destruct (wp_run _ _ _ _ _ E (take_contiguous_free_pages_spec page_object _ _ _ Hok count Hc))
    as (_ & [(-> & -> & Hn)|(a & -> & Hsub & _)]).
  - exists [], r. split; [done|]. by left.
  - eexists _, r'. split; [done|]. right. by exists a.
Qed.

(** In every reachable state of a region, returning a page of it that is handed out
    finds the zone of the page and never fails an assertion. *)
Theorem region_return_exact page_object lower upper R r a :
  region_place lower upper -> region_run page_object lower upper R r ->
  a ∈ managed_pages lower upper -> a ∉ R ->
  exists r', return_page a r = (Ok tt, r') /\ region_ok (managed_pages lower upper) (R ∪ {[a]}) r'.
Proof.
  intros Hp Hrun Ha Hn. destruct (region_run_ok _ _ _ _ _ Hp Hrun) as (Hok & _ & _).
  destruct (return_page a r) as [res r'] eqn:E.
  destruct (wp_run _ _ _ _ _ E (return_page_spec _ _ _ Hok a Ha Hn)) as (-> & _ & Hok'). by exists r'.
Qed.

(** ** A region of one MiB *)
Definition example_entry (a : Z) : PhysicalPageEntry := mkEntry a a.
Definition example_lower : Z := 1048576.
Definition example_upper : Z := 2097152.
Definition example_region : PhysicalRegion :=
  snd (initialize_zones example_entry (make_region example_lower example_upper)).
Definition example_page : Z := example_lower + 255 * PAGE_SIZE.
Definition example_taken : PhysicalRegion := snd (take_free_page example_entry example_region).

Lemma example_region_place : region_place example_lower example_upper.
Proof. by unfold region_place, example_lower, example_upper. Qed.

Lemma example_region_run :
  region_run example_entry example_lower example_upper (managed_pages example_lower example_upper) example_region.
Proof. apply (rrun_initialize _ _ _ example_entry). unfold example_region. apply run_pair. by vm_compute. Qed.

Lemma example_taken_run :
  region_run example_entry example_lower example_upper
    (managed_pages example_lower example_upper ∖ {[example_page]}) example_taken.
Proof.
  apply (rrun_take _ _ _ _ example_region); [apply example_region_run|].
  unfold example_taken. apply run_pair. by vm_compute.
Qed.

Lemma region_take_exact_witness :
  exists res r', take_free_page example_entry example_region = (Ok res, r') /\
    match res with
    | Some a => a ∈ managed_pages example_lower example_upper /\
                a ∈ managed_pages example_lower example_upper /\ region_contains example_region a = true
    | None => managed_pages example_lower example_upper = ∅ /\ r' = example_region
    end.
Proof. exact (region_take_exact _ _ _ _ _ example_region_place example_region_run). Defined.

Lemma region_contiguous_exact_witness :
  exists res r', take_contiguous_free_pages example_entry 3 example_region = (Ok res, r') /\
    ((res = [] /\ r' = example_region /\ forall i q, (i < length (m_zones example_region))%nat ->
        is_block (zone_order (m_large_zones example_region) i) (Z.log2_up 3) q ->
        ~ zone_pages example_region i (block_pages (Z.log2_up 3) q) ⊆ managed_pages example_lower example_upper) \/
     (exists a, res = contiguous_pages a 3 /\
        list_to_set (contiguous_pages a (2 ^ Z.log2_up 3)) ⊆ managed_pages example_lower example_upper)).
Proof. exact (region_contiguous_exact _ _ _ _ _ 3 example_region_place example_region_run ltac:(lia)). Defined.

Lemma region_return_exact_witness :
  exists r', return_page example_page example_taken = (Ok tt, r') /\
    region_ok (managed_pages example_lower example_upper)
      (managed_pages example_lower example_upper ∖ {[example_page]} ∪ {[example_page]}) r'.
Proof.
  apply (region_return_exact _ _ _ _ _ example_page example_region_place example_taken_run); [|set_solver].
  apply elem_of_list_to_set, elem_contiguous_pages. exists 255. split; [done|]. by vm_compute.
Defined.
