(* ===== verification/PhysicalMemory.v ===== *)
(** * Accounting of physical memory: Kernel/Memory/MemoryManager.{h,cpp}

    The memory manager hands out single pages and contiguous runs of pages, and lets its
    callers commit pages in advance: a committed page is promised, so taking one must
    never fail.  The manager keeps counters only; whether the promise can be kept depends
    on the regions below it.  The regions are used through the interface
    [PageAllocator], which [PhysicalRegion] implements. *)

From S2P Require Import Prelude StdLibExtras Bitmap PhysicalZone PhysicalRegion.

(** ** The interface to the regions

    [pa_ok U R x]: [x] manages the pages [U], of which [R] are free. *)
Class PageAllocator (X : Type) := {
  pa_take : M X (option Z);
  pa_contiguous : Z -> M X (list Z);
  pa_return : Z -> M X unit;
  pa_write : Z -> PhysicalPageEntry -> M X unit;
  pa_contains : X -> Z -> bool;
  pa_bounds : X -> Z * Z;
  pa_ok : gset Z -> gset Z -> X -> Prop;
  pa_subset : forall U R x, pa_ok U R x -> R ⊆ U;
  pa_contains_bounds : forall x a, pa_contains x a = (fst (pa_bounds x) <=? a) && (a <? snd (pa_bounds x));
  pa_contains_ok : forall U R x a, pa_ok U R x -> a ∈ U -> pa_contains x a = true;
  pa_take_ok : forall U R x, pa_ok U R x ->
    wp pa_take x (fun res x' => pa_bounds x' = pa_bounds x /\
      ((res = Ok None /\ x' = x /\ R = ∅) \/
       (exists a, res = Ok (Some a) /\ a ∈ R /\ pa_ok U (R ∖ {[a]}) x')));
  pa_contiguous_ok : forall U R x count, pa_ok U R x -> 0 < count <= 2 ^ 31 ->
    wp (pa_contiguous count) x (fun res x' => pa_bounds x' = pa_bounds x /\
      ((res = Ok [] /\ x' = x) \/
       (exists a, let B := list_to_set (contiguous_pages a (2 ^ Z.log2_up count)) in
          res = Ok (contiguous_pages a count) /\ B ⊆ R /\ pa_ok U (R ∖ B) x')));
  pa_return_ok : forall U R x a, pa_ok U R x -> a ∈ U -> a ∉ R ->
    wp (pa_return a) x (fun res x' => res = Ok tt /\ pa_bounds x' = pa_bounds x /\ pa_ok U (R ∪ {[a]}) x');
  pa_write_ok : forall U R x a en, pa_ok U R x -> a ∈ U -> a ∉ R ->
    wp (pa_write a en) x (fun res x' => res = Ok tt /\ pa_bounds x' = pa_bounds x /\ pa_ok U R x') }.

Section instance.
Context (page_object : Z -> PhysicalPageEntry).

#[export] Instance region_allocator : PageAllocator PhysicalRegion.
Proof using page_object.
  refine {|
    pa_take := take_free_page page_object;
    pa_contiguous := take_contiguous_free_pages page_object;
    pa_return := return_page;
    pa_write := write_page_entry;
    pa_contains := region_contains;
    pa_bounds := fun r => (m_lower r, m_upper r);
    pa_ok := region_ok |}.
  - apply region_ok_subset.
  - done.
  - intros U R x a H Ha. by apply (region_contains_managed U R).
  - intros U R x H. eapply wp_mono; [by apply (take_free_page_spec page_object U R)|].
    intros res x' [(E1 & E2 & _) H']. split; [by rewrite E1, E2|done].
  - intros U R x count H Hc. eapply wp_mono; [by apply (take_contiguous_free_pages_spec page_object U R)|].
    intros res x' [(E1 & E2 & _) H']. split; [by rewrite E1, E2|]. destruct H' as [(? & ? & _)|?]; [by left|by right].
  - intros U R x a H Ha Hn. eapply wp_mono; [by apply (return_page_spec U R)|].
    intros res x' (-> & (E1 & E2 & _) & H'). split_and!; [done|by rewrite E1, E2|done].
  - intros U R x a en H Ha Hn. eapply wp_mono; [by apply (write_entry_ok U R)|].
    intros res x' (-> & (E1 & E2 & _) & H'). split_and!; [done|by rewrite E1, E2|done].
Defined.
End instance.

(** ** State *)

Record SystemMemoryInfo := mkInfo {
  physical_pages : Z;
  physical_pages_used : Z;
  physical_pages_committed : Z;
  physical_pages_uncommitted : Z }.

Section manager.
Context {X : Type} `{PageAllocator X}.

Record GlobalData := mkGlobal { system_memory_info : SystemMemoryInfo; physical_regions : list X }.

Definition set_info (f : SystemMemoryInfo -> SystemMemoryInfo) : M GlobalData unit :=
  modify (fun g => mkGlobal (f (system_memory_info g)) (physical_regions g)).
Definition add_used (d : Z) (i : SystemMemoryInfo) : SystemMemoryInfo :=
  mkInfo (physical_pages i) (wrap 64 (physical_pages_used i + d)) (physical_pages_committed i) (physical_pages_uncommitted i).
Definition add_committed (d : Z) (i : SystemMemoryInfo) : SystemMemoryInfo :=
  mkInfo (physical_pages i) (physical_pages_used i) (wrap 64 (physical_pages_committed i + d)) (physical_pages_uncommitted i).
Definition add_uncommitted (d : Z) (i : SystemMemoryInfo) : SystemMemoryInfo :=
  mkInfo (physical_pages i) (physical_pages_used i) (physical_pages_committed i) (wrap 64 (physical_pages_uncommitted i + d)).

(** A loop over the regions that stops at the first one for which [f] returns a value. *)
Fixpoint for_regions {R} (f : M X (option R)) (regions : list X) : outcome (option R) * list X :=
  match regions with
  | [] => (Ok None, [])
  | x :: rest =>
      match f x with
      | (Ok (Some a), x') => (Ok (Some a), x' :: rest)
      | (Ok None, x') => let '(res, rest') := for_regions f rest in (res, x' :: rest')
      | (Err e, x') => (Err e, x' :: rest)
      | (Panic, x') => (Panic, x' :: rest)
      end
  end.
Definition on_regions {R} (f : M X (option R)) : M GlobalData (option R) := fun g =>
  let '(res, l) := for_regions f (physical_regions g) in (res, mkGlobal (system_memory_info g) l).

(** ** Committing pages *)

Definition commit_physical_pages (page_count : Z) : M GlobalData Z :=
  VERIFY (0 <? page_count) ;;
  i ← gets system_memory_info;
  if physical_pages_uncommitted i <? page_count then fail ENOMEM else
  set_info (add_uncommitted (- page_count)) ;;
  set_info (add_committed page_count) ;;
  kret page_count.

Definition uncommit_physical_pages (page_count : Z) : M GlobalData unit :=
  VERIFY (0 <? page_count) ;;
  i ← gets system_memory_info;
  VERIFY (page_count <=? physical_pages_committed i) ;;
  set_info (add_uncommitted page_count) ;;
  set_info (add_committed (- page_count)).

(** ** Taking and returning pages *)

(** A page is looked for in the regions that contain its address. *)
Definition return_to (paddr : Z) : M X (option unit) :=
  x ← gets id;
  if negb (pa_contains x paddr) then kret None else
  pa_return paddr ;; kret (Some tt).

Definition deallocate_physical_page (paddr : Z) : M GlobalData unit :=
  found ← on_regions (return_to paddr);
  match found with
  | Some _ =>
      set_info (add_used (-1)) ;;
      set_info (add_uncommitted 1)
  | None => VERIFY false
  end.

(** The page entry of a page, wherever its region is. *)
Definition write_to (paddr : Z) (en : PhysicalPageEntry) : M X (option unit) :=
  x ← gets id;
  if negb (pa_contains x paddr) then kret None else
  pa_write paddr en ;; kret (Some tt).
Definition write_entry (paddr : Z) (en : PhysicalPageEntry) : M GlobalData unit :=
  found ← on_regions (write_to paddr en);
  VERIFY (bool_decide (is_Some found)).

(** The last reference to the page object is gone. *)
Definition free_this (paddr : Z) : M GlobalData unit :=
  write_entry paddr (mkEntry (-1) (-1)) ;;
  deallocate_physical_page paddr.

Definition find_free_physical_page (committed : bool) : M GlobalData (option Z) :=
  i ← gets system_memory_info;
  let search :=
    page ← on_regions pa_take;
    match page with
    | Some a => set_info (add_used 1) ;; kret (Some a)
    | None => kret None
    end in
  if committed then
    VERIFY (0 <? physical_pages_committed i) ;;
    set_info (add_committed (-1)) ;;
    search
  else
    if physical_pages_uncommitted i =? 0 then kret None else
    set_info (add_uncommitted (-1)) ;;
    search.

Definition allocate_committed_physical_page : M GlobalData Z :=
  page ← find_free_physical_page true;
  match page with
  | Some a => kret a
  | None => VERIFY false ;; kret 0
  end.

Definition contiguous_in (page_count : Z) : M X (option (list Z)) :=
  l ← pa_contiguous page_count;
  kret (if bool_decide (l = []) then None else Some l).

Definition allocate_contiguous_physical_pages (size : Z) : M GlobalData (list Z) :=
  VERIFY (size mod PAGE_SIZE =? 0) ;;
  let page_count := ceil_div size PAGE_SIZE in
  i ← gets system_memory_info;
  if physical_pages_uncommitted i <? page_count then fail ENOMEM else
  pages ← on_regions (contiguous_in page_count);
  match pages with
  | Some l =>
      set_info (add_uncommitted (- page_count)) ;;
      set_info (add_used page_count) ;;
      kret l
  | None => fail ENOMEM
  end.

Definition get_system_memory_info : M GlobalData SystemMemoryInfo :=
  i ← gets system_memory_info;
  VERIFY (physical_pages i =? wrap 64 (physical_pages_used i
            + wrap 64 (physical_pages_committed i + physical_pages_uncommitted i))) ;;
  kret i.

(** ** CommittedPhysicalPageSet: a number of committed pages; the methods return what is
    left of it. *)
Definition set_destroy (m_page_count : Z) : M GlobalData unit :=
  if negb (m_page_count =? 0) then uncommit_physical_pages m_page_count else kret tt.
Definition set_take_one (m_page_count : Z) : M GlobalData (Z * Z) :=
  VERIFY (0 <? m_page_count) ;;
  a ← allocate_committed_physical_page;
  kret (a, m_page_count - 1).
Definition set_uncommit_one (m_page_count : Z) : M GlobalData Z :=
  VERIFY (0 <? m_page_count) ;;
  uncommit_physical_pages 1 ;;
  kret (m_page_count - 1).

End manager.
Arguments GlobalData : clear implicits.

(** ** The regions together *)

Section manager_proofs.
Context {X : Type} `{PageAllocator X}.

Definition regions_ok (ghost : list (gset Z * gset Z)) (xs : list X) : Prop :=
  Forall2 (fun g x => pa_ok (fst g) (snd g) x) ghost xs.

(** No address is within the bounds of two regions. *)
Definition apart (xs : list X) : Prop :=
  forall i j x y a, xs !! i = Some x -> xs !! j = Some y ->
    pa_contains x a = true -> pa_contains y a = true -> i = j.

Lemma apart_bounds xs ys : pa_bounds <$> xs = pa_bounds <$> ys -> apart xs -> apart ys.
Proof using Type.
  intros E Ha i j x y a Hx Hy Cx Cy.
  assert (forall k z, ys !! k = Some z -> exists w, xs !! k = Some w /\ pa_bounds w = pa_bounds z) as Hw.
  { intros k z Hz. assert ((pa_bounds <$> xs) !! k = Some (pa_bounds z)) as Hk by (rewrite E, list_lookup_fmap, Hz; done).
    rewrite list_lookup_fmap in Hk. destruct (xs !! k) as [w|]; [|done]. exists w. split; [done|]. simpl in Hk. congruence. }
  destruct (Hw i x Hx) as (w & Hwi & Ew), (Hw j y Hy) as (v & Hvj & Ev).
  apply (Ha i j w v a Hwi Hvj); rewrite pa_contains_bounds in *; by rewrite ?Ew, ?Ev.
Qed.

Lemma for_regions_spec {T} (f : M X (option T)) (N : gset Z -> gset Z -> X -> Prop)
    (S : gset Z -> gset Z -> T -> gset Z -> Prop) ghost xs :
  regions_ok ghost xs ->
  (forall i U R x, ghost !! i = Some (U, R) -> xs !! i = Some x -> pa_ok U R x ->
     wp f x (fun res x' => pa_bounds x' = pa_bounds x /\
       ((res = Ok None /\ x' = x /\ N U R x) \/
        (exists t R', res = Ok (Some t) /\ S U R t R' /\ pa_ok U R' x')))) ->
  let '(res, xs') := for_regions f xs in
  pa_bounds <$> xs' = pa_bounds <$> xs /\
  ((res = Ok None /\ xs' = xs /\ forall i U R x, ghost !! i = Some (U, R) -> xs !! i = Some x -> N U R x) \/
   (exists i U R R' t, ghost !! i = Some (U, R) /\ res = Ok (Some t) /\ S U R t R' /\
      regions_ok (<[i := (U, R')]> ghost) xs')).
Proof using Type.
  intros Hok. induction Hok as [|[U R] x ghost xs Hx Hok IH]; intros Hf; cbn [for_regions].
  { split; [done|]. left. split_and!; [done|done|]. by intros [|i]. }
  pose proof (Hf 0%nat U R x eq_refl eq_refl Hx) as H0. destruct (f x) as [res x'] eqn:E.
  destruct (wp_run _ _ _ _ _ E H0) as (Eb & [(-> & -> & HN)|(t & R' & -> & HS & Hx')]).
  - destruct (for_regions f xs) as [res xs']. destruct IH as [Ebs IH].
    { intros i U' R' y Hg Hy. by apply (Hf (Datatypes.S i)). }
    split; [by rewrite !fmap_cons, Ebs|]. destruct IH as [(-> & -> & HN')|(i & U' & R0 & R' & t & Hg & -> & HS & Hok')].
    + left. split_and!; [done|done|]. intros [|i] U' R' y; simpl; [|apply HN']. by intros [= <- <-] [= <-].
    + right. exists (Datatypes.S i), U', R0, R', t. split_and!; [done|done|done|]. by constructor.
  - split; [by rewrite !fmap_cons, Eb|]. right. exists 0%nat, U, R, R', t. split_and!; [done|done|done|]. by constructor.
Qed.

(** [R] are the free pages of all regions, [U] all their pages. *)
Definition free_in (ghost : list (gset Z * gset Z)) (a : Z) : Prop :=
  exists i U R, ghost !! i = Some (U, R) /\ a ∈ R.
Definition managed_in (ghost : list (gset Z * gset Z)) (a : Z) : Prop :=
  exists i U R, ghost !! i = Some (U, R) /\ a ∈ U.

Record regions_at (U R : gset Z) (xs : list X) : Prop := {
  rs_apart : apart xs;
  rs_ghost : exists ghost, regions_ok ghost xs /\ (forall a, a ∈ R <-> free_in ghost a) /\
    (forall a, a ∈ U <-> managed_in ghost a) }.

Lemma ghost_apart ghost xs i j U R U' R' a :
  apart xs -> regions_ok ghost xs -> ghost !! i = Some (U, R) -> ghost !! j = Some (U', R') ->
  a ∈ U -> a ∈ U' -> i = j.
Proof using Type.
  intros Hap Hok Hi Hj Ha Ha'. destruct (Forall2_lookup_l _ _ _ _ _ Hok Hi) as (x & Hx & Hxok).
  destruct (Forall2_lookup_l _ _ _ _ _ Hok Hj) as (y & Hy & Hyok). simpl in *.
  apply (Hap i j x y a Hx Hy); by eapply pa_contains_ok.
Qed.

(** One region has changed its free pages. *)
Lemma regions_update U R xs xs' ghost i Ui Ri Ri' :
  apart xs -> regions_ok ghost xs -> (forall a, a ∈ R <-> free_in ghost a) ->
  (forall a, a ∈ U <-> managed_in ghost a) ->
  ghost !! i = Some (Ui, Ri) -> regions_ok (<[i := (Ui, Ri')]> ghost) xs' -> pa_bounds <$> xs' = pa_bounds <$> xs ->
  regions_at U (R ∖ Ri ∪ Ri') xs'.
Proof using Type.
  intros Hap Hok HR HU Hi Hok' Eb. assert (apart xs') as Hap' by (by apply (apart_bounds xs)).
  pose proof (lookup_lt_Some _ _ _ Hi) as Hlt. split; [done|].
  exists (<[i := (Ui, Ri')]> ghost). split_and!; [done| |].
  - intros a. rewrite elem_of_union, elem_of_difference, HR. split.
    + intros [[(j & U' & R' & Hj & Ha) Hn]|Ha].
      * exists j, U', R'. rewrite list_lookup_insert_ne; [done|]. intros ->. apply Hn. by simplify_eq.
      * exists i, Ui, Ri'. by rewrite list_lookup_insert_eq.
    + intros (j & U' & R' & Hj & Ha). destruct (decide (j = i)) as [->|Hne].
      * rewrite list_lookup_insert_eq in Hj by done. injection Hj as <- <-. by right.
      * rewrite list_lookup_insert_ne in Hj by done. left. split; [by exists j, U', R'|]. intros HaR. destruct Hne.
        destruct (Forall2_lookup_l _ _ _ _ _ Hok Hj) as (y & _ & Hy). destruct (Forall2_lookup_l _ _ _ _ _ Hok Hi) as (x & _ & Hx).
        apply (ghost_apart ghost xs j i U' R' Ui Ri a Hap Hok Hj Hi); by eapply pa_subset.
  - intros a. rewrite HU. split.
    + intros (j & U' & R' & Hj & Ha). destruct (decide (j = i)) as [->|Hne].
      * rewrite Hi in Hj. injection Hj as <- <-. exists i, Ui, Ri'. by rewrite list_lookup_insert_eq.
      * exists j, U', R'. by rewrite list_lookup_insert_ne.
    + intros (j & U' & R' & Hj & Ha). destruct (decide (j = i)) as [->|Hne].
      * rewrite list_lookup_insert_eq in Hj by done. injection Hj as <- <-. by exists i, Ui, Ri.
      * rewrite list_lookup_insert_ne in Hj by done. by exists j, U', R'.
Qed.

Lemma set_replace_remove (R Ri B : gset Z) : Ri ⊆ R -> B ⊆ Ri -> R ∖ Ri ∪ (Ri ∖ B) = R ∖ B.
Proof using Type.
  intros H1 H2. apply leibniz_equiv. intros x. rewrite elem_of_union, !elem_of_difference.
  destruct (decide (x ∈ Ri)); set_solver.
Qed.
Lemma set_replace_add (R Ri B : gset Z) : Ri ⊆ R -> R ∖ Ri ∪ (Ri ∪ B) = R ∪ B.
Proof using Type.
  intros H1. apply leibniz_equiv. intros x. rewrite !elem_of_union, elem_of_difference.
  destruct (decide (x ∈ Ri)); set_solver.
Qed.

Lemma wp_on_regions {T} (f : M X (option T)) g Q :
  (let '(res, l) := for_regions f (physical_regions g) in Q res (mkGlobal (system_memory_info g) l)) ->
  wp (on_regions f) g Q.
Proof using Type. unfold wp, on_regions. by destruct (for_regions f (physical_regions g)). Qed.

Lemma regions_take U R g :
  regions_at U R (physical_regions g) ->
  wp (on_regions pa_take) g (fun res g' => system_memory_info g' = system_memory_info g /\
    ((res = Ok None /\ g' = g /\ R = ∅) \/
     (exists a, res = Ok (Some a) /\ a ∈ R /\ regions_at U (R ∖ {[a]}) (physical_regions g')))).
Proof using Type.
  intros [Hap (ghost & Hok & HR & HU)]. apply wp_on_regions.
  pose proof (for_regions_spec pa_take (fun _ R _ => R = ∅) (fun _ R a R' => a ∈ R /\ R' = R ∖ {[a]}) ghost _ Hok) as Hs.
  destruct (for_regions pa_take (physical_regions g)) as [res l]. destruct Hs as [Eb Hs].
  { intros i U' R' x _ _ Hx. eapply wp_mono; [by apply (pa_take_ok U' R')|].
    intros r x' [E [?|(a & -> & Ha & Hx')]]; (split; [done|]); [by left|right]. by exists a, (R' ∖ {[a]}). }
  split; [done|]. destruct Hs as [(-> & -> & HN)|(i & Ui & Ri & Ri' & a & Hi & -> & [Ha ->] & Hok')].
  - left. split_and!; [done|by destruct g|]. apply leibniz_equiv. intros a. split; [|by intros ?%elem_of_empty].
    intros (i & Ui & Ri & Hi & Ha)%HR. destruct (Forall2_lookup_l _ _ _ _ _ Hok Hi) as (x & Hx & _).
    by rewrite (HN i Ui Ri x Hi Hx) in Ha.
  - right. exists a. split; [done|]. assert (Ri ⊆ R) as Hsub by (intros y Hy; apply HR; by exists i, Ui, Ri).
    split; [by apply Hsub|]. rewrite <- (set_replace_remove R Ri {[a]}) by set_solver.
    by apply (regions_update U R (physical_regions g) l ghost i Ui).
Qed.

Lemma regions_contiguous U R g count :
  regions_at U R (physical_regions g) -> 0 < count <= 2 ^ 31 ->
  wp (on_regions (contiguous_in count)) g (fun res g' => system_memory_info g' = system_memory_info g /\
    ((res = Ok None /\ g' = g) \/
     (exists a, let B := list_to_set (contiguous_pages a (2 ^ Z.log2_up count)) in
        res = Ok (Some (contiguous_pages a count)) /\ B ⊆ R /\ regions_at U (R ∖ B) (physical_regions g')))).
Proof using Type.
  intros [Hap (ghost & Hok & HR & HU)] Hc. apply wp_on_regions.
  pose proof (for_regions_spec (contiguous_in count) (fun _ _ _ => True)
    (fun _ R l R' => exists a, let B := list_to_set (contiguous_pages a (2 ^ Z.log2_up count)) in
       l = contiguous_pages a count /\ B ⊆ R /\ R' = R ∖ B) ghost _ Hok) as Hs.
  destruct (for_regions (contiguous_in count) (physical_regions g)) as [res l]. destruct Hs as [Eb Hs].
  { intros i U' R' x _ _ Hx. unfold contiguous_in. wp_step.
    eapply wp_mono; [by apply (pa_contiguous_ok U' R' x count)|]. cbv zeta.
    intros r x' [E [[-> ->]|(a & -> & Ha & Hx')]]; wp_step; (split; [done|]); [by left|right].
    rewrite bool_decide_eq_false_2.
    2: { unfold contiguous_pages. rewrite seqZ_cons by lia. done. }
    eexists _, _. split; [done|]. split; [|exact Hx']. by exists a. }
  split; [done|]. destruct Hs as [(-> & -> & _)|(i & Ui & Ri & Ri' & t & Hi & -> & (a & -> & HB & ->) & Hok')].
  - left. split; [done|]. by destruct g.
  - right. exists a. cbv zeta. split; [done|]. assert (Ri ⊆ R) as Hsub by (intros y Hy; apply HR; by exists i, Ui, Ri).
    split; [by etrans|]. rewrite <- (set_replace_remove R Ri) by done.
    by apply (regions_update U R (physical_regions g) l ghost i Ui).
Qed.

Lemma regions_at_page U R g a (f : M X (option unit)) (add : bool) :
  regions_at U R (physical_regions g) -> a ∈ U -> a ∉ R ->
  (forall Ui Ri x, pa_ok Ui Ri x ->
    (pa_contains x a = false -> f x = (Ok None, x)) /\
    (a ∈ Ui -> a ∉ Ri -> wp f x (fun res x' => res = Ok (Some tt) /\ pa_bounds x' = pa_bounds x /\
       pa_ok Ui (if add then Ri ∪ {[a]} else Ri) x'))) ->
  wp (on_regions f) g (fun res g' => res = Ok (Some tt) /\ system_memory_info g' = system_memory_info g /\
    regions_at U (if add then R ∪ {[a]} else R) (physical_regions g')).
Proof using Type.
  intros [Hap (ghost & Hok & HR & HU)] Ha Hn Hf. apply wp_on_regions.
  apply HU in Ha as (k & Uk & Rk & Hk & Hak).
  pose proof (for_regions_spec f (fun _ _ x => pa_contains x a = false)
    (fun Ui Ri _ Ri' => Ri' = if add then Ri ∪ {[a]} else Ri) ghost _ Hok) as Hs.
  destruct (for_regions f (physical_regions g)) as [res l]. destruct Hs as [Eb Hs].
  { intros i Ui Ri x Hi Hx Hxok. destruct (Hf Ui Ri x Hxok) as [Hno Hyes].
    destruct (pa_contains x a) eqn:Ec.
    - destruct (Forall2_lookup_l _ _ _ _ _ Hok Hk) as (y & Hy & Hyok).
      assert (i = k) as -> by (apply (Hap i k x y a); [done|done|done|by eapply pa_contains_ok]).
      rewrite Hk in Hi. injection Hi as <- <-. eapply wp_mono; [apply Hyes; [done|]|].
      { intros HaR. apply Hn, HR. by exists k, Uk, Rk. }
      intros r x' (-> & E & Hx'). split; [done|]. right. by eexists tt, _.
    - unfold wp. rewrite Hno by done. simpl. split; [done|]. by left. }
  destruct Hs as [(-> & -> & HN)|(i & Ui & Ri & Ri' & [] & Hi & -> & -> & Hok')].
  - destruct (Forall2_lookup_l _ _ _ _ _ Hok Hk) as (y & Hy & Hyok). specialize (HN k Uk Rk y Hk Hy).
    pose proof (pa_contains_ok _ _ _ _ Hyok Hak). simpl in *. congruence.
  - split_and!; [done|done|]. assert (Ri ⊆ R) as Hsub by (intros y Hy; apply HR; by exists i, Ui, Ri).
    pose proof (regions_update U R (physical_regions g) l ghost i Ui Ri _ Hap Hok HR HU Hi Hok' Eb) as Hr.
    simpl. destruct add.
    + by rewrite set_replace_add in Hr.
    + replace R with (R ∖ Ri ∪ Ri); [done|]. apply leibniz_equiv. intros y. destruct (decide (y ∈ Ri)); set_solver.
Qed.

Lemma regions_at_subset U R xs : regions_at U R xs -> R ⊆ U.
Proof using Type.
  intros [_ (ghost & Hok & HR & HU)] a (i & Ui & Ri & Hi & Ha)%HR. apply HU. exists i, Ui, Ri.
  split; [done|]. destruct (Forall2_lookup_l _ _ _ _ _ Hok Hi) as (x & _ & Hx). by apply (pa_subset _ _ _ Hx).
Qed.

(** ** The counters *)

Definition sum_sets (C : list Z) : Z := foldr Z.add 0 C.

Lemma sum_sets_insert C i n m : C !! i = Some n -> sum_sets (<[i := m]> C) = sum_sets C - n + m.
Proof using Type.
  revert i. induction C as [|c C IH]; intros [|i] Hi; simplify_eq/=; [lia|]. rewrite IH by done. lia.
Qed.
Lemma sum_sets_nonneg C : Forall (Z.le 0) C -> 0 <= sum_sets C.
Proof using Type. induction 1; simpl; lia. Qed.
Lemma sum_sets_elem C i n : Forall (Z.le 0) C -> C !! i = Some n -> 0 <= n <= sum_sets C.
Proof using Type.
  intros Hp Hi. pose proof (sum_sets_insert C i n 0 Hi) as E.
  pose proof (Forall_lookup_1 _ _ _ _ Hp Hi). assert (0 <= sum_sets (<[i := 0]> C)); [|lia].
  apply sum_sets_nonneg. by apply Forall_insert.
Qed.

(** [U]: the pages of the regions; [R]: the free ones; [Out]: the pages the callers have;
    [leak]: how many pages the counters promise that the regions do not have; [C]: the
    committed page sets. *)
Record mm_ok (U R Out : gset Z) (leak : Z) (C : list Z) (g : GlobalData X) : Prop := {
  mo_regions : regions_at U R (physical_regions g);
  mo_out : Out ⊆ U /\ Out ## R;
  mo_sets : Forall (Z.le 0) C;
  mo_committed : physical_pages_committed (system_memory_info g) = sum_sets C;
  mo_uncommitted : physical_pages_uncommitted (system_memory_info g) = Z.of_nat (size R) + leak - sum_sets C;
  mo_promise : sum_sets C <= Z.of_nat (size R) + leak;
  mo_leak : 0 <= leak;
  mo_used : physical_pages_used (system_memory_info g) = Z.of_nat (size Out);
  mo_total : physical_pages (system_memory_info g) = Z.of_nat (size Out) + Z.of_nat (size R) + leak;
  mo_width : physical_pages (system_memory_info g) < 2 ^ 64 }.

Lemma wp_set_info f (g : GlobalData X) Q :
  Q (Ok tt) (mkGlobal (f (system_memory_info g)) (physical_regions g)) -> wp (set_info f) g Q.
Proof using Type. done. Qed.

Section counters.
Context (U R Out : gset Z) (leak : Z) (C : list Z) (g : GlobalData X).
Context (Hok : mm_ok U R Out leak C g).

Lemma commit_spec n :
  0 < n ->
  wp (commit_physical_pages n) g (fun res g' =>
    (res = Err ENOMEM /\ g' = g /\ physical_pages_uncommitted (system_memory_info g) < n) \/
    (res = Ok n /\ mm_ok U R Out leak (n :: C) g')).
Proof using Hok.
  intros Hn. destruct Hok as [Hr Ho Hs Hc Hu Hp Hl Hus Ht Hw]. unfold commit_physical_pages.
  pose proof (sum_sets_nonneg C Hs).
  wp_step. apply wp_VERIFY; [apply Z.ltb_lt; lia|]. wp_step. wp_step. wp_step; bool_hyps.
  - wp_step. by left.
  - wp_step. apply wp_set_info. wp_step. apply wp_set_info. wp_step. right. split; [done|].
    split; simpl; rewrite ?wrap_small by (unfold in_width; simpl; lia); try done; try lia.
    constructor; [lia|done].
Qed.

Lemma uncommit_spec i n k :
  C !! i = Some n -> 0 < k <= n ->
  wp (uncommit_physical_pages k) g (fun res g' => res = Ok tt /\ mm_ok U R Out leak (<[i := n - k]> C) g').
Proof using Hok.
  intros Hi Hk. destruct Hok as [Hr Ho Hs Hc Hu Hp Hl Hus Ht Hw]. unfold uncommit_physical_pages.
  pose proof (sum_sets_elem C i n Hs Hi). pose proof (sum_sets_insert C i n (n - k) Hi) as E.
  wp_step. apply wp_VERIFY; [apply Z.ltb_lt; lia|]. wp_step. wp_step.
  wp_step. apply wp_VERIFY; [apply Z.leb_le; lia|].
  wp_step. apply wp_set_info. apply wp_set_info. split; [done|].
  split; simpl; rewrite ?E, ?wrap_small by (unfold in_width; simpl; lia); try done; try lia.
  apply Forall_insert; [done|lia].
Qed.

Lemma size_remove (a : Z) : a ∈ R -> Z.of_nat (size (R ∖ {[a]})) = Z.of_nat (size R) - 1 /\ (0 < size R)%nat.
Proof using Type.
  clear. intros Ha. assert ({[a]} ⊆ R) as Hs by set_solver. pose proof (subseteq_size _ _ Hs).
  rewrite size_difference by done. rewrite size_singleton in *. lia.
Qed.

Lemma find_free_committed_spec i n :
  C !! i = Some n -> 0 < n ->
  wp (find_free_physical_page true) g (fun res g' =>
    (res = Ok None /\ R = ∅) \/
    (exists a, res = Ok (Some a) /\ a ∈ R /\ mm_ok U (R ∖ {[a]}) (Out ∪ {[a]}) leak (<[i := n - 1]> C) g')).
Proof using Hok.
  intros Hi Hn. destruct Hok as [Hr Ho Hs Hc Hu Hp Hl Hus Ht Hw]. unfold find_free_physical_page.
  pose proof (sum_sets_elem C i n Hs Hi). pose proof (sum_sets_insert C i n (n - 1) Hi) as E.
  wp_step. wp_step. wp_step. apply wp_VERIFY; [apply Z.ltb_lt; lia|].
  wp_step. apply wp_set_info. wp_step. eapply wp_mono; [by apply (regions_take U R)|].
  intros res g1 (Ei & [(-> & -> & HR)|(a & -> & Ha & Hr1)]); [wp_step; by left|].
  wp_step. apply wp_set_info. wp_step. right. exists a. split_and!; [done|done|].
  destruct (size_remove a Ha) as [Es Hpos]. rewrite Ei.
  assert (Z.of_nat (size (Out ∪ {[a]})) = Z.of_nat (size Out) + 1) as Eo.
  { rewrite size_union by set_solver. rewrite size_singleton. lia. }
  split; simpl; rewrite ?E, ?Es, ?Eo, ?wrap_small by (unfold in_width; simpl; lia); try done; try lia.
  - pose proof (regions_at_subset U R _ Hr). set_solver.
  - apply Forall_insert; [done|lia].
Qed.

Lemma find_free_uncommitted_spec :
  wp (find_free_physical_page false) g (fun res g' =>
    (res = Ok None /\ (R = ∅ \/ physical_pages_uncommitted (system_memory_info g) = 0)) \/
    (exists a, res = Ok (Some a) /\ a ∈ R /\ mm_ok U (R ∖ {[a]}) (Out ∪ {[a]}) leak C g')).
Proof using Hok.
  destruct Hok as [Hr Ho Hs Hc Hu Hp Hl Hus Ht Hw]. unfold find_free_physical_page. pose proof (sum_sets_nonneg C Hs).
  wp_step. wp_step. wp_step; bool_hyps; [wp_step; left; split; [done|by right]|].
  wp_step. apply wp_set_info. wp_step. eapply wp_mono; [by apply (regions_take U R)|].
  intros res g1 (Ei & [(-> & -> & HR)|(a & -> & Ha & Hr1)]); [wp_step; left; split; [done|by left]|].
  wp_step. apply wp_set_info. wp_step. right. exists a. split_and!; [done|done|].
  destruct (size_remove a Ha) as [Es Hpos]. rewrite Ei.
  assert (Z.of_nat (size (Out ∪ {[a]})) = Z.of_nat (size Out) + 1) as Eo.
  { rewrite size_union by set_solver. rewrite size_singleton. lia. }
  split; simpl; rewrite ?Es, ?Eo, ?wrap_small by (unfold in_width; simpl; lia); try done; try lia.
  pose proof (regions_at_subset U R _ Hr). set_solver.
Qed.

Lemma size_contiguous_pages a n : 0 <= n -> Z.of_nat (size (list_to_set (C := gset Z) (contiguous_pages a n))) = n.
Proof using Type.
  clear. intros Hn. rewrite size_list_to_set.
  - unfold contiguous_pages. rewrite length_fmap, length_seqZ. lia.
  - unfold contiguous_pages. apply NoDup_fmap_2; [|apply NoDup_seqZ]. intros x y. unfold PAGE_SIZE. lia.
Qed.

Lemma contiguous_pages_mono a n m : n <= m ->
  list_to_set (C := gset Z) (contiguous_pages a n) ⊆ list_to_set (contiguous_pages a m).
Proof using Type.
  clear. intros Hn x. rewrite !elem_of_list_to_set, !elem_contiguous_pages. intros (j & -> & Hj). exists j. split; [done|lia].
Qed.

Lemma allocate_contiguous_spec n :
  0 < n <= 2 ^ 31 ->
  wp (allocate_contiguous_physical_pages (n * PAGE_SIZE)) g (fun res g' =>
    (res = Err ENOMEM /\ g' = g) \/
    (exists a, let B := list_to_set (contiguous_pages a (2 ^ Z.log2_up n)) in
       res = Ok (contiguous_pages a n) /\ B ⊆ R /\
       mm_ok U (R ∖ B) (Out ∪ list_to_set (contiguous_pages a n)) (leak + (2 ^ Z.log2_up n - n)) C g')).
Proof using Hok.
  intros Hn. destruct Hok as [Hr Ho Hs Hc Hu Hp Hl Hus Ht Hw]. unfold allocate_contiguous_physical_pages.
  pose proof (sum_sets_nonneg C Hs).
  wp_step. apply wp_VERIFY; [by rewrite Z.mod_mul|].
  replace (ceil_div (n * PAGE_SIZE) PAGE_SIZE) with n.
  2: { unfold ceil_div. by rewrite Z.mod_mul, Z.div_mul. }
  wp_step. wp_step. wp_step; bool_hyps; [wp_step; by left|].
  wp_step. eapply wp_mono; [by apply (regions_contiguous U R g n)|]. cbv zeta.
  intros res g1 (Ei & [[-> ->]|(a & -> & HB & Hr1)]); [wp_step; by left|].
  wp_step. apply wp_set_info. wp_step. apply wp_set_info. wp_step. right. exists a. split_and!; [done|done|].
  assert (n <= 2 ^ Z.log2_up n) as Hle by (apply Z.log2_up_le_pow2; lia). rewrite Ei.
  set (B := list_to_set (contiguous_pages a (2 ^ Z.log2_up n))) in *.
  assert (Z.of_nat (size B) = 2 ^ Z.log2_up n) as EB by (apply size_contiguous_pages; lia).
  assert (Z.of_nat (size (R ∖ B)) = Z.of_nat (size R) - 2 ^ Z.log2_up n) as Es.
  { rewrite size_difference by done. pose proof (subseteq_size _ _ HB). lia. }
  pose proof (contiguous_pages_mono a n (2 ^ Z.log2_up n) Hle) as Hsub. fold B in Hsub.
  set (l := list_to_set (contiguous_pages a n)) in *.
  assert (Z.of_nat (size (Out ∪ l)) = Z.of_nat (size Out) + n) as Eo.
  { rewrite size_union by set_solver. rewrite Nat2Z.inj_add. f_equal. apply size_contiguous_pages. lia. }
  split; simpl; rewrite ?Es, ?Eo, ?wrap_small by (unfold in_width; simpl; lia); try done; try lia.
  pose proof (regions_at_subset U R _ Hr). set_solver.
Qed.

Lemma write_entry_spec a en :
  a ∈ Out ->
  wp (write_entry a en) g (fun res g' => res = Ok tt /\ mm_ok U R Out leak C g').
Proof using Hok.
  intros Ha. destruct Hok as [Hr Ho Hs Hc Hu Hp Hl Hus Ht Hw]. unfold write_entry.
  wp_step. eapply wp_mono; [apply (regions_at_page U R g a (write_to a en) false Hr)|].
  - set_solver.
  - set_solver.
  - intros Ui Ri x Hx. split.
    + intros Hno. unfold write_to. simpl. unfold gets. simpl. by rewrite Hno.
    + intros Hau Hnr. unfold write_to. wp_step. wp_step. cbn [id]. rewrite (pa_contains_ok _ _ _ _ Hx Hau). cbn [negb].
      wp_step. eapply wp_mono; [by apply (pa_write_ok Ui Ri)|]. intros r x' (-> & E & Hx'). wp_step. done.
  - intros res g1 (-> & Ei & Hr1). apply wp_VERIFY; [done|]. split; [done|]. by split; rewrite ?Ei.
Qed.

Lemma free_this_spec a :
  a ∈ Out ->
  wp (free_this a) g (fun res g' => res = Ok tt /\ mm_ok U (R ∪ {[a]}) (Out ∖ {[a]}) leak C g').
Proof using Hok.
  intros Ha. unfold free_this. wp_step. eapply wp_mono; [by apply (write_entry_spec a)|].
  clear Hok. intros res g1 [-> [Hr Ho Hs Hc Hu Hp Hl Hus Ht Hw]]. unfold deallocate_physical_page.
  pose proof (sum_sets_nonneg C Hs).
  wp_step. eapply wp_mono; [apply (regions_at_page U R g1 a (return_to a) true Hr)|].
  - set_solver.
  - set_solver.
  - intros Ui Ri x Hx. split.
    + intros Hno. unfold return_to. simpl. unfold gets. simpl. by rewrite Hno.
    + intros Hau Hnr. unfold return_to. wp_step. wp_step. cbn [id]. rewrite (pa_contains_ok _ _ _ _ Hx Hau). cbn [negb].
      wp_step. eapply wp_mono; [by apply (pa_return_ok Ui Ri)|]. intros r x' (-> & E & Hx'). wp_step. done.
  - intros res g2 (-> & Ei & Hr2). wp_step. apply wp_set_info. apply wp_set_info. split; [done|].
    assert (Z.of_nat (size (R ∪ {[a]})) = Z.of_nat (size R) + 1) as Es.
    { rewrite size_union by set_solver. rewrite size_singleton. lia. }
    assert (Z.of_nat (size (Out ∖ {[a]})) = Z.of_nat (size Out) - 1 /\ (0 < size Out)%nat) as [Eo Hpos].
    { assert ({[a]} ⊆ Out) as Hsub by set_solver. pose proof (subseteq_size _ _ Hsub).
      rewrite size_difference by done. rewrite size_singleton in *. lia. }
    split; simpl; rewrite ?Ei, ?Es, ?Eo, ?wrap_small by (rewrite ?Ei; unfold in_width; simpl; lia);
      rewrite ?Ei; try done; try lia. set_solver.
Qed.
End counters.
End manager_proofs.

(** ** Boot *)

Section boot.
Context (boot_entries : Z -> PhysicalPageEntry) (page_object : Z -> PhysicalPageEntry).

Fixpoint initialize_regions (regions : list PhysicalRegion) : outcome (list PhysicalRegion) :=
  match regions with
  | [] => kret []
  | region :: rest =>
      match initialize_zones boot_entries region with
      | (Ok _, region') => rest' ← initialize_regions rest; kret (region' :: rest')
      | (Err e, _) => Err e
      | (Panic, _) => Panic
      end
  end.

Definition boot (ranges : list (Z * Z)) : outcome (GlobalData PhysicalRegion) :=
  let regions := (fun range => make_region (fst range) (snd range)) <$> ranges in
  let total := foldr (fun region n => n + m_pages region) 0 regions in
  if negb (0 <? total) then Panic else
  regions ← initialize_regions regions;
  kret (mkGlobal (mkInfo total 0 0 total) regions).
End boot.

Definition range_pages (range : Z * Z) : Z := (snd range - fst range) / PAGE_SIZE.
Definition total_pages (ranges : list (Z * Z)) : Z := foldr (fun range n => n + range_pages range) 0 ranges.
(** The pages at the ends of the ranges that make up no MiB. *)
Definition tail_pages (ranges : list (Z * Z)) : Z := foldr (fun range n => n + range_pages range mod 256) 0 ranges.
Definition all_managed (ranges : list (Z * Z)) : gset Z :=
  ⋃ ((fun range => managed_pages (fst range) (snd range)) <$> ranges).

(** Usable ranges of physical memory: page aligned and not overlapping. *)
Definition ranges_ok (ranges : list (Z * Z)) : Prop :=
  Forall (fun range => region_place (fst range) (snd range)) ranges /\
  (forall i j r1 r2, ranges !! i = Some r1 -> ranges !! j = Some r2 -> i <> j ->
     snd r1 <= fst r2 \/ snd r2 <= fst r1) /\
  0 < total_pages ranges < 2 ^ 64.

Lemma managed_pages_range lower upper a :
  region_place lower upper -> a ∈ managed_pages lower upper -> lower <= a < upper.
Proof.
  intros (Hl & _ & _) (j & -> & Hj)%elem_of_list_to_set%elem_contiguous_pages.
  pose proof (Z.div_mod (upper - lower) PAGE_SIZE ltac:(done)). pose proof (Z.mod_pos_bound (upper - lower) PAGE_SIZE ltac:(done)).
  set (pages := (upper - lower) / PAGE_SIZE) in *. pose proof (Z.div_mod pages 256 ltac:(lia)).
  pose proof (Z.mod_pos_bound pages 256 ltac:(lia)). unfold PAGE_SIZE in *. lia.
Qed.

Lemma size_managed_pages lower upper :
  region_place lower upper ->
  Z.of_nat (size (managed_pages lower upper)) = range_pages (lower, upper) - range_pages (lower, upper) mod 256.
Proof.
  intros (Hl & _ & _). unfold managed_pages. assert (0 <= (upper - lower) / PAGE_SIZE) by (apply Z.div_pos; unfold PAGE_SIZE; lia).
  rewrite size_contiguous_pages.
  - unfold range_pages. simpl. pose proof (Z.div_mod ((upper - lower) / PAGE_SIZE) 256). lia.
  - pose proof (Z.div_pos ((upper - lower) / PAGE_SIZE) 256). lia.
Qed.

Lemma size_all_managed ranges :
  Forall (fun range => region_place (fst range) (snd range)) ranges ->
  (forall i j r1 r2, ranges !! i = Some r1 -> ranges !! j = Some r2 -> i <> j ->
     snd r1 <= fst r2 \/ snd r2 <= fst r1) ->
  Z.of_nat (size (all_managed ranges)) = total_pages ranges - tail_pages ranges.
Proof.
  unfold all_managed. induction 1 as [|[l u] ranges Hp Hps IH]; intros Hap; [done|].
  rewrite fmap_cons, union_list_cons. simpl. rewrite size_union, Nat2Z.inj_add, size_managed_pages, IH; [lia| |done|].
  - intros i j r1 r2 Hi Hj Hne. apply (Hap (S i) (S j)); [done|done|lia].
  - intros a Ha Hb. apply managed_pages_range in Ha; [|done].
    apply elem_of_union_list in Hb as (Y & HY & Hb). apply list_elem_of_fmap in HY as ([l' u'] & -> & Hin).
    apply list_elem_of_lookup in Hin as [j Hj]. pose proof (Forall_lookup_1 _ _ _ _ Hps Hj) as Hp'.
    apply managed_pages_range in Hb; [|done]. simpl in *.
    destruct (Hap 0%nat (S j) (l, u) (l', u') eq_refl Hj); simpl in *; lia.
Qed.

Lemma elem_all_managed ranges a :
  a ∈ all_managed ranges <-> exists i r, ranges !! i = Some r /\ a ∈ managed_pages (fst r) (snd r).
Proof.
  unfold all_managed. rewrite elem_of_union_list. split.
  - intros (Y & (r & -> & Hr)%list_elem_of_fmap & Ha). apply list_elem_of_lookup in Hr as [i Hi]. by exists i, r.
  - intros (i & r & Hi & Ha). eexists. split; [|exact Ha]. apply list_elem_of_fmap. exists r.
    split; [done|]. by eapply list_elem_of_lookup_2.
Qed.

Lemma total_pages_regions ranges :
  Forall (fun range => region_place (fst range) (snd range)) ranges ->
  foldr (fun region n => n + m_pages region) 0 ((fun range => make_region (fst range) (snd range)) <$> ranges) =
  total_pages ranges.
Proof.
  induction 1 as [|[l u] ranges (Hl & Hu & Ha) Hps IH]; [done|]. rewrite fmap_cons. cbn [foldr total_pages].
  rewrite IH. simpl. rewrite wrap_small by (unfold in_width; simpl in *; lia). done.
Qed.

Lemma initialize_regions_ok boot_entries ranges :
  Forall (fun range => region_place (fst range) (snd range)) ranges ->
  exists xs, initialize_regions boot_entries ((fun range => make_region (fst range) (snd range)) <$> ranges) = Ok xs /\
    Forall2 (fun range x => m_lower x = fst range /\ m_upper x = snd range /\
      region_ok (managed_pages (fst range) (snd range)) (managed_pages (fst range) (snd range)) x) ranges xs.
Proof.
  induction 1 as [|[l u] ranges Hpl Hps (xs & Exs & IH)]; [by exists []|].
  rewrite fmap_cons. cbn [initialize_regions fst snd].
  destruct (initialize_zones boot_entries (make_region l u)) as [res x] eqn:E.
  destruct (wp_run _ _ _ _ _ E (initialize_zones_ok boot_entries l u Hpl)) as (-> & El & Eu & Hok).
  rewrite Exs. eexists. split; [done|]. by constructor.
Qed.

Lemma tail_pages_nonneg ranges : 0 <= tail_pages ranges.
Proof. induction ranges as [|r ranges IH]; simpl; [lia|]. pose proof (Z.mod_pos_bound (range_pages r) 256). lia. Qed.

Lemma boot_ok boot_entries page_object ranges :
  ranges_ok ranges ->
  exists g, boot boot_entries ranges = Ok g /\
    mm_ok (X := PhysicalRegion) (H := region_allocator page_object)
      (all_managed ranges) (all_managed ranges) ∅ (tail_pages ranges) [] g.
Proof.
  intros (Hp & Hap & Ht). unfold boot. rewrite total_pages_regions by done.
  rewrite (proj2 (Z.ltb_lt _ _)) by lia. cbn [negb].
  destruct (initialize_regions_ok boot_entries ranges Hp) as (xs & -> & Hxs).
  cbn [kbind outcome_monad kret]. eexists. split; [done|].
  pose proof (size_all_managed ranges Hp Hap) as Hsize. pose proof (tail_pages_nonneg ranges).
  split; rewrite ?size_empty; try (simpl; lia); try done; try set_solver. split.
  - intros i j x y a Hx Hy Cx Cy. simpl in *. destruct (decide (i = j)) as [|Hne]; [done|].
    destruct (Forall2_lookup_r _ _ _ _ _ Hxs Hx) as (ri & Hri & El & Eu & _).
    destruct (Forall2_lookup_r _ _ _ _ _ Hxs Hy) as (rj & Hrj & El' & Eu' & _).
    unfold region_contains in *. bool_hyps. destruct (Hap i j ri rj Hri Hrj Hne); lia.
  - set (f := fun range => (managed_pages (fst range) (snd range), managed_pages (fst range) (snd range))).
    assert (forall i U R, (f <$> ranges) !! i = Some (U, R) <-> exists r, ranges !! i = Some r /\ (U, R) = f r) as Hf.
    { intros i U R. rewrite list_lookup_fmap. apply fmap_Some. }
    exists (f <$> ranges). split_and!.
    + apply Forall2_fmap_l. eapply Forall2_impl; [exact Hxs|]. by intros r x (_ & _ & ?).
    + intros a. rewrite elem_all_managed. split.
      * intros (i & r & Hi & Ha). eexists i, _, _. split; [apply Hf; by exists r|done].
      * intros (i & U & R & (r & Hr & [= -> ->])%Hf & Ha). by exists i, r.
    + intros a. rewrite elem_all_managed. split.
      * intros (i & r & Hi & Ha). eexists i, _, _. split; [apply Hf; by exists r|done].
      * intros (i & U & R & (r & Hr & [= -> ->])%Hf & Ha). by exists i, r.
Qed.

(** ** Runs of the memory manager

    [R]: the free pages; [Out]: the pages that the callers have; [leak]: the number of
    pages that are neither, although the counters still promise them; [C]: the sets of
    committed pages. *)
Section runs.
Context (page_object : Z -> PhysicalPageEntry) (ranges : list (Z * Z)).
#[local] Instance the_allocator : PageAllocator PhysicalRegion := region_allocator page_object.

Inductive mm_run : gset Z -> gset Z -> Z -> list Z -> GlobalData PhysicalRegion -> Prop :=
  | mm_boot boot_entries g :
      boot boot_entries ranges = Ok g ->
      mm_run (all_managed ranges) ∅ (tail_pages ranges) [] g
  | mm_commit R Out leak C g n g' :
      mm_run R Out leak C g -> 0 < n -> commit_physical_pages n g = (Ok n, g') ->
      mm_run R Out leak (n :: C) g'
  | mm_take_one R Out leak C g i n a n' g' :
      mm_run R Out leak C g -> C !! i = Some n -> set_take_one n g = (Ok (a, n'), g') ->
      mm_run (R ∖ {[a]}) (Out ∪ {[a]}) leak (<[i := n']> C) g'
  | mm_uncommit_one R Out leak C g i n n' g' :
      mm_run R Out leak C g -> C !! i = Some n -> set_uncommit_one n g = (Ok n', g') ->
      mm_run R Out leak (<[i := n']> C) g'
  | mm_destroy R Out leak C g i n g' :
      mm_run R Out leak C g -> C !! i = Some n -> set_destroy n g = (Ok tt, g') ->
      mm_run R Out leak (<[i := 0]> C) g'
  | mm_allocate R Out leak C g a g' :
      mm_run R Out leak C g -> find_free_physical_page false g = (Ok (Some a), g') ->
      mm_run (R ∖ {[a]}) (Out ∪ {[a]}) leak C g'
  | mm_contiguous R Out leak C g n a l g' :
      mm_run R Out leak C g -> 0 < n <= 2 ^ 31 ->
      allocate_contiguous_physical_pages (n * PAGE_SIZE) g = (Ok (a :: l), g') ->
      mm_run (R ∖ list_to_set (contiguous_pages a (2 ^ Z.log2_up n))) (Out ∪ list_to_set (contiguous_pages a n))
        (leak + (2 ^ Z.log2_up n - n)) C g'
  | mm_free R Out leak C g a g' :
      mm_run R Out leak C g -> a ∈ Out -> free_this a g = (Ok tt, g') ->
      mm_run (R ∪ {[a]}) (Out ∖ {[a]}) leak C g'
  | mm_write R Out leak C g a en g' :
      mm_run R Out leak C g -> a ∈ Out -> write_entry a en g = (Ok tt, g') ->
      mm_run R Out leak C g'.

Lemma take_one_spec U R Out leak C (g : GlobalData PhysicalRegion) i n :
  mm_ok U R Out leak C g -> C !! i = Some n -> 0 < n ->
  wp (set_take_one n) g (fun res g' =>
    (res = Panic /\ R = ∅) \/
    (exists a, res = Ok (a, n - 1) /\ a ∈ R /\ mm_ok U (R ∖ {[a]}) (Out ∪ {[a]}) leak (<[i := n - 1]> C) g')).
Proof using Type.
  intros Hok Hi Hn. unfold set_take_one, allocate_committed_physical_page.
  wp_step. apply wp_VERIFY; [by apply Z.ltb_lt|]. wp_step. wp_step.
  eapply wp_mono; [by apply (find_free_committed_spec U R Out leak C g Hok i n)|].
  intros res g1 [[-> HR]|(a & -> & Ha & Hok1)].
  - wp_step. unfold wp. simpl. by left.
  - wp_steps. right. by exists a.
Qed.

Lemma contiguous_pages_head a a' n l : 0 < n -> contiguous_pages a n = a' :: l -> a' = a.
Proof using Type. clear. intros Hn E. unfold contiguous_pages in E. rewrite seqZ_cons in E by lia. injection E as <- _. lia. Qed.

Lemma mm_run_ok R Out leak C g : ranges_ok ranges -> mm_run R Out leak C g -> mm_ok (all_managed ranges) R Out leak C g.
Proof using Type.
  intros Hrs. induction 1 as [boot_e g Hb|R Out leak C g n g' _ Hok Hn Hr|R Out leak C g i n a n' g' _ Hok Hi Hr
    |R Out leak C g i n n' g' _ Hok Hi Hr|R Out leak C g i n g' _ Hok Hi Hr|R Out leak C g a g' _ Hok Hr
    |R Out leak C g n a l g' _ Hok Hn Hr|R Out leak C g a g' _ Hok Ha Hr|R Out leak C g a en g' _ Hok Ha Hr].
  - destruct (boot_ok boot_e page_object ranges Hrs) as (g0 & Eg & Hok).
    rewrite Hb in Eg. injection Eg as <-. exact Hok.
  - by destruct (wp_run _ _ _ _ _ Hr (commit_spec _ _ _ _ _ _ Hok n Hn)) as [(? & _)|[_ ?]].
  - destruct (Z.ltb_spec 0 n).
    + destruct (wp_run _ _ _ _ _ Hr (take_one_spec _ _ _ _ _ _ i n Hok Hi ltac:(lia))) as [[? _]|(a' & [= -> ->] & _ & ?)]; done.
    + unfold set_take_one in Hr. simpl in Hr. unfold VERIFY in Hr. by rewrite (proj2 (Z.ltb_ge _ _)) in Hr by lia.
  - destruct (Z.ltb_spec 0 n).
    2: { unfold set_uncommit_one in Hr. simpl in Hr. unfold VERIFY in Hr. by rewrite (proj2 (Z.ltb_ge _ _)) in Hr by lia. }
    assert (wp (set_uncommit_one n) g (fun res g' => res = Ok (n - 1) /\ mm_ok (all_managed ranges) R Out leak (<[i := n - 1]> C) g')) as Hw.
    { unfold set_uncommit_one. wp_step. apply wp_VERIFY; [by apply Z.ltb_lt|]. wp_step.
      eapply wp_mono; [apply (uncommit_spec _ _ _ _ _ _ Hok i n 1 Hi); lia|]. intros res g1 [-> Hok1]. by wp_step. }
    by destruct (wp_run _ _ _ _ _ Hr Hw) as [[= ->] ?].
  - assert (wp (set_destroy n) g (fun res g' => res = Ok tt /\ mm_ok (all_managed ranges) R Out leak (<[i := 0]> C) g')) as Hw.
    { unfold set_destroy. destruct (Z.eqb_spec n 0) as [->|Hne].
      - apply wp_kret. split; [done|]. by rewrite list_insert_id.
      - cbn [negb]. pose proof (sum_sets_elem C i n (mo_sets _ _ _ _ _ _ Hok) Hi).
        eapply wp_mono; [apply (uncommit_spec _ _ _ _ _ _ Hok i n n Hi); lia|]. intros res g1 [-> Hok1]. by rewrite Z.sub_diag in Hok1. }
    by destruct (wp_run _ _ _ _ _ Hr Hw) as [_ ?].
  - by destruct (wp_run _ _ _ _ _ Hr (find_free_uncommitted_spec _ _ _ _ _ _ Hok)) as [[? _]|(a' & [= ->] & _ & ?)].
  - destruct (wp_run _ _ _ _ _ Hr (allocate_contiguous_spec _ _ _ _ _ _ Hok n Hn)) as [[? _]|(a' & E & _ & Hok')]; [done|].
    injection E as E. symmetry in E. apply contiguous_pages_head in E; [|lia]. by subst a'.
  - by destruct (wp_run _ _ _ _ _ Hr (free_this_spec _ _ _ _ _ _ Hok a Ha)) as [_ ?].
  - by destruct (wp_run _ _ _ _ _ Hr (write_entry_spec _ _ _ _ _ _ Hok a en Ha)) as [_ ?].
Qed.

Context (Hranges : ranges_ok ranges).

(** C32: A committed page is a promise that is kept as long as no page has leaked: in every
    state that is reached with no leak, taking a page from a set of committed pages that
    is not empty returns a page that is free, and never fails an assertion.  No page leaks
    when the ranges of memory are whole MiBs and the contiguous requests are for powers of
    two, since [tail_pages] and the rounding are 0 then. *)
Theorem mm_promise_kept R Out C g i n :
  mm_run R Out 0 C g -> C !! i = Some n -> 0 < n ->
  exists a g', set_take_one n g = (Ok (a, n - 1), g') /\ a ∈ R /\ a ∉ Out.
Proof using Hranges.
  intros Hrun Hi Hn. pose proof (mm_run_ok _ _ _ _ _ Hranges Hrun) as Hok.
  destruct (set_take_one n g) as [res g'] eqn:E.
  destruct (wp_run _ _ _ _ _ E (take_one_spec _ _ _ _ _ _ i n Hok Hi Hn)) as [[-> HR]|(a & -> & Ha & _)].
  - exfalso. pose proof (mo_promise _ _ _ _ _ _ Hok) as Hp. rewrite HR, size_empty in Hp.
    pose proof (sum_sets_elem C i n (mo_sets _ _ _ _ _ _ Hok) Hi). lia.
  - exists a, g'. split_and!; [done|done|]. destruct (mo_out _ _ _ _ _ _ Hok). set_solver.
Qed.

(** In every reachable state, with or without leaks, taking a committed page panics
    exactly when no page is free. *)
Theorem mm_promise_exact R Out leak C g i n :
  mm_run R Out leak C g -> C !! i = Some n -> 0 < n ->
  fst (set_take_one n g) = Panic <-> R = ∅.
Proof using Hranges.
  intros Hrun Hi Hn. pose proof (mm_run_ok _ _ _ _ _ Hranges Hrun) as Hok.
  destruct (set_take_one n g) as [res g'] eqn:E. simpl.
  destruct (wp_run _ _ _ _ _ E (take_one_spec _ _ _ _ _ _ i n Hok Hi Hn)) as [[-> HR]|(a & -> & Ha & _)]; [done|].
  split; [done|]. set_solver.
Qed.

(** The counters are exact in every reachable state: the query of the memory information
    passes its assertion, the used pages are those that the callers have, the committed
    ones those of the open sets, and the rest are the free pages and the leaked ones. *)
Theorem mm_accounting R Out leak C g :
  mm_run R Out leak C g ->
  exists i, get_system_memory_info g = (Ok i, g) /\
    physical_pages_used i = Z.of_nat (size Out) /\ physical_pages_committed i = sum_sets C /\
    physical_pages_committed i + physical_pages_uncommitted i = Z.of_nat (size R) + leak /\
    0 <= physical_pages_uncommitted i.
Proof using Hranges.
  intros Hrun. destruct (mm_run_ok _ _ _ _ _ Hranges Hrun) as [Hr Ho Hs Hc Hu Hp Hl Hus Ht Hw].
  pose proof (sum_sets_nonneg C Hs). exists (system_memory_info g). split_and!; [|done|done|lia|lia].
  unfold get_system_memory_info. simpl. unfold VERIFY. rewrite (proj2 (Z.eqb_eq _ _)); [done|].
  rewrite !wrap_small by (unfold in_width; rewrite ?wrap_small by (unfold in_width; lia); lia). lia.
Qed.

(** Taking pages from one set until no page is free. *)
Lemma exhaust R Out leak n g :
  mm_run R Out leak [n] g -> Z.of_nat (size R) < n ->
  exists Out' n' g', mm_run ∅ Out' leak [n'] g' /\ 0 < n'.
Proof using Hranges.
  remember (size R) as k eqn:Ek. revert R Out n g Ek. induction k as [|k IH]; intros R Out n g Ek Hrun Hlt.
  { assert (R = ∅) as -> by (apply leibniz_equiv, size_empty_inv; done). exists Out, n, g. split; [done|lia]. }
  pose proof (mm_run_ok _ _ _ _ _ Hranges Hrun) as Hok. destruct (set_take_one n g) as [res g'] eqn:E.
  destruct (wp_run _ _ _ _ _ E (take_one_spec _ _ _ _ _ _ 0%nat n Hok eq_refl ltac:(lia))) as [[-> HR]|(a & -> & Ha & _)].
  - by rewrite HR, size_empty in Ek.
  - apply (IH (R ∖ {[a]}) (Out ∪ {[a]}) (n - 1) g').
    + assert ({[a]} ⊆ R) as Hs by set_solver. rewrite size_difference by done. rewrite size_singleton. lia.
    + exact (mm_take_one R Out leak [n] g 0 n a (n - 1) g' Hrun eq_refl E).
    + lia.
Qed.
End runs.

(** ** One MiB of memory *)
Definition example_ranges : list (Z * Z) := [(example_lower, example_upper)].
#[local] Instance example_allocator : PageAllocator PhysicalRegion := region_allocator example_entry.
Definition example_boot : GlobalData PhysicalRegion :=
  match boot example_entry example_ranges with Ok g => g | _ => mkGlobal (mkInfo 0 0 0 0) [] end.
Definition example_committed : GlobalData PhysicalRegion := snd (commit_physical_pages 5 example_boot).

Lemma example_ranges_ok : ranges_ok example_ranges.
Proof.
  unfold ranges_ok, example_ranges. split_and!; [| |by vm_compute|by vm_compute].
  - repeat constructor; by vm_compute.
  - intros [|[|i]] [|[|j]] r1 r2 H1 H2 Hne; simplify_eq/=.
Qed.

Lemma example_boot_run :
  mm_run example_entry example_ranges (all_managed example_ranges) ∅ 0 [] example_boot.
Proof. apply (mm_boot example_entry example_ranges example_entry). by vm_compute. Qed.

Lemma example_committed_run :
  mm_run example_entry example_ranges (all_managed example_ranges) ∅ 0 [5] example_committed.
Proof.
  apply (mm_commit _ _ _ _ _ _ example_boot); [apply example_boot_run|done|].
  unfold example_committed. apply run_pair. by vm_compute.
Qed.

Lemma mm_promise_kept_witness :
  exists a g', set_take_one 5 example_committed = (Ok (a, 5 - 1), g') /\
    a ∈ all_managed example_ranges /\ a ∉ (∅ : gset Z).
Proof.
  exact (mm_promise_kept example_entry example_ranges example_ranges_ok _ _ [5] example_committed 0 5
    example_committed_run eq_refl ltac:(lia)).
Defined.

Lemma mm_promise_exact_witness :
  fst (set_take_one 5 example_committed) = Panic <-> all_managed example_ranges = ∅.
Proof.
  exact (mm_promise_exact example_entry example_ranges example_ranges_ok _ _ 0 [5] example_committed 0 5
    example_committed_run eq_refl ltac:(lia)).
Defined.

Lemma mm_accounting_witness :
  exists i, get_system_memory_info example_committed = (Ok i, example_committed) /\
    physical_pages_used i = Z.of_nat (size (∅ : gset Z)) /\ physical_pages_committed i = sum_sets [5] /\
    physical_pages_committed i + physical_pages_uncommitted i =
      Z.of_nat (size (all_managed example_ranges)) + 0 /\
    0 <= physical_pages_uncommitted i.
Proof. exact (mm_accounting example_entry example_ranges example_ranges_ok _ _ 0 [5] _ example_committed_run). Defined.

(** ** The promise can be broken *)

Definition example_three : GlobalData PhysicalRegion :=
  snd (allocate_contiguous_physical_pages (3 * PAGE_SIZE) example_boot).
Definition example_promised : GlobalData PhysicalRegion := snd (commit_physical_pages 253 example_three).

Lemma example_promised_run : exists R Out, mm_run example_entry example_ranges R Out 1 [253] example_promised.
Proof.
  set (a := example_lower + 252 * PAGE_SIZE).
  assert (allocate_contiguous_physical_pages (3 * PAGE_SIZE) example_boot =
    (Ok [a; a + PAGE_SIZE; a + 2 * PAGE_SIZE], example_three)) as E3.
  { unfold example_three. apply run_pair. by vm_compute. }
  pose proof (mm_contiguous example_entry example_ranges _ _ _ _ example_boot 3 a _ example_three example_boot_run ltac:(lia) E3) as Hrun.
  eexists _, _. apply (mm_commit _ _ _ _ _ _ example_three 253); [exact Hrun|lia|].
  unfold example_promised. apply run_pair. by vm_compute.
Qed.

(** The promise of committed pages can be broken.  A request for three contiguous pages
    takes four pages from the zones, but only three leave the pool of uncommitted pages:
    with 1 MiB of memory, 253 pages can be committed after it although 252 are left, and
    taking the last one of them fails the assertion that a page was found. *)
Theorem mm_promise_broken :
  exists R Out leak C g i n, mm_run example_entry example_ranges R Out leak C g /\
    C !! i = Some n /\ 0 < n /\ fst (set_take_one n g) = Panic.
Proof.
  destruct example_promised_run as (R & Out & Hrun).
  pose proof (mm_run_ok _ _ _ _ _ _ _ example_ranges_ok Hrun) as Hok.
  assert (Z.of_nat (size R) = 252) as Hsize.
  { pose proof (mo_uncommitted _ _ _ _ _ _ Hok) as Hu.
    assert (physical_pages_uncommitted (system_memory_info example_promised) = 0) as E by by vm_compute.
    rewrite E in Hu. simpl in Hu. lia. }
  destruct (exhaust example_entry example_ranges example_ranges_ok R Out 1 253 _ Hrun ltac:(lia))
    as (Out' & n' & g' & Hrun' & Hn').
  exists ∅, Out', 1, [n'], g', 0%nat, n'. split_and!; [done|done|done|].
  pose proof (mm_run_ok _ _ _ _ _ _ _ example_ranges_ok Hrun') as Hok'.
  destruct (set_take_one n' g') as [res g2] eqn:E.
  destruct (wp_run _ _ _ _ _ E (take_one_spec example_entry _ _ _ _ _ _ 0%nat n' Hok' eq_refl Hn')) as [[-> _]|(a & _ & Ha & _)];
    [done|set_solver].
Qed.
