(* ===== verification/RedBlackTree.v ===== *)
(** * Red-black trees: AK/RedBlackTree.h, AK/IntrusiveRedBlackTree.h

    The tree is a graph of nodes with pointers to both children and to the parent.  The
    model keeps the graph: a heap of nodes, null pointers as [None], every field write of
    the code as an update of the heap.  Reading through a null pointer or a pointer to no
    node is a [Panic].

    The loops run with fuel, one more than the number of nodes of the heap; a loop that
    runs out of it would be a [Panic], and the theorems show that none does.  The flag
    [m_in_tree] of the intrusive nodes is the set of the nodes that have it. *)

From S2P Require Import Prelude.

Inductive Color := Red | Black.

#[export] Instance Color_eq_dec : EqDecision Color.
Proof. solve_decision. Defined.

Definition ptr := option nat.

Record Node := mkNode {
  left_child : ptr;
  right_child : ptr;
  parent : ptr;
  color : Color;
  key : Z }.

Record Tree := mkTree {
  nodes : gmap nat Node;
  m_root : ptr;
  m_size : Z;
  m_minimum : ptr;
  m_in_tree : gset nat }.

(** ** Field accesses *)

Definition set_left (v : ptr) (n : Node) : Node := mkNode v (right_child n) (parent n) (color n) (key n).
Definition set_right (v : ptr) (n : Node) : Node := mkNode (left_child n) v (parent n) (color n) (key n).
Definition set_parent (v : ptr) (n : Node) : Node := mkNode (left_child n) (right_child n) v (color n) (key n).
Definition set_color (v : Color) (n : Node) : Node := mkNode (left_child n) (right_child n) (parent n) v (key n).
Definition set_key (v : Z) (n : Node) : Node := mkNode (left_child n) (right_child n) (parent n) (color n) v.

Definition load (p : ptr) : M Tree Node := fun s =>
  (match p with Some a => deref (nodes s !! a) | None => Panic end, s).
Definition store (p : ptr) (f : Node -> Node) : M Tree unit := fun s =>
  match p with
  | Some a =>
      match nodes s !! a with
      | Some n => (Ok tt, mkTree (<[a := f n]> (nodes s)) (m_root s) (m_size s) (m_minimum s) (m_in_tree s))
      | None => (Panic, s)
      end
  | None => (Panic, s)
  end.
Definition set_root (p : ptr) : M Tree unit :=
  modify (fun s => mkTree (nodes s) p (m_size s) (m_minimum s) (m_in_tree s)).
Definition set_size (n : Z) : M Tree unit :=
  modify (fun s => mkTree (nodes s) (m_root s) n (m_minimum s) (m_in_tree s)).
Definition set_minimum (p : ptr) : M Tree unit :=
  modify (fun s => mkTree (nodes s) (m_root s) (m_size s) p (m_in_tree s)).
Definition fuel_of (s : Tree) : nat := S (size (nodes s)).

Definition non_null (p : ptr) : bool := match p with Some _ => true | None => false end.
Definition same_ptr (p q : ptr) : bool := bool_decide (p = q).
(** [p && p->color == Color::Red] *)
Definition is_red (p : ptr) : M Tree bool :=
  match p with
  | None => kret false
  | Some _ => n ← load p; kret (bool_decide (color n = Red))
  end.

(** ** Rotations *)

Definition rotate_left (subtree_root : ptr) : M Tree unit :=
  VERIFY (non_null subtree_root) ;;
  n ← load subtree_root;
  let pivot := right_child n in
  VERIFY (non_null pivot) ;;
  let parent := parent n in
  p ← load pivot;
  store subtree_root (set_right (left_child p)) ;;
  (if non_null (left_child p) then store (left_child p) (set_parent subtree_root) else kret tt) ;;
  store pivot (set_left subtree_root) ;;
  store subtree_root (set_parent pivot) ;;
  store pivot (set_parent parent) ;;
  if negb (non_null parent) then set_root pivot else
  q ← load parent;
  if same_ptr (left_child q) subtree_root then store parent (set_left pivot) else store parent (set_right pivot).

Definition rotate_right (subtree_root : ptr) : M Tree unit :=
  VERIFY (non_null subtree_root) ;;
  n ← load subtree_root;
  let pivot := left_child n in
  VERIFY (non_null pivot) ;;
  let parent := parent n in
  p ← load pivot;
  store subtree_root (set_left (right_child p)) ;;
  (if non_null (right_child p) then store (right_child p) (set_parent subtree_root) else kret tt) ;;
  store pivot (set_right subtree_root) ;;
  store subtree_root (set_parent pivot) ;;
  store pivot (set_parent parent) ;;
  if negb (non_null parent) then set_root pivot else
  q ← load parent;
  if same_ptr (left_child q) subtree_root then store parent (set_left pivot) else store parent (set_right pivot).

(** ** Searching *)

Fixpoint find_loop (fuel : nat) (node : ptr) (k : Z) : M Tree ptr :=
  match fuel with
  | O => lift Panic
  | S fuel =>
      match node with
      | None => kret None
      | Some _ =>
          n ← load node;
          if key n =? k then kret node else
          if k <? key n then find_loop fuel (left_child n) k else find_loop fuel (right_child n) k
      end
  end.
Definition find (k : Z) : M Tree ptr :=
  fuel ← gets fuel_of;
  root ← gets m_root;
  find_loop fuel root k.

Fixpoint find_largest_loop (fuel : nat) (node : ptr) (k : Z) (candidate : ptr) : M Tree ptr :=
  match fuel with
  | O => lift Panic
  | S fuel =>
      match node with
      | None => kret candidate
      | Some _ =>
          n ← load node;
          if k =? key n then kret node else
          if k <? key n then find_largest_loop fuel (left_child n) k candidate
          else find_largest_loop fuel (right_child n) k node
      end
  end.
Definition find_largest_not_above (k : Z) : M Tree ptr :=
  fuel ← gets fuel_of;
  root ← gets m_root;
  find_largest_loop fuel root k None.

Fixpoint find_smallest_loop (fuel : nat) (node : ptr) (k : Z) (candidate : ptr) : M Tree ptr :=
  match fuel with
  | O => lift Panic
  | S fuel =>
      match node with
      | None => kret candidate
      | Some _ =>
          n ← load node;
          if key n =? k then kret node else
          if key n <=? k then find_smallest_loop fuel (right_child n) k candidate
          else find_smallest_loop fuel (left_child n) k node
      end
  end.
Definition find_smallest_not_below (k : Z) : M Tree ptr :=
  fuel ← gets fuel_of;
  root ← gets m_root;
  find_smallest_loop fuel root k None.

(** ** Neighbours *)

Fixpoint leftmost (fuel : nat) (node : ptr) : M Tree ptr :=
  match fuel with
  | O => lift Panic
  | S fuel =>
      n ← load node;
      if non_null (left_child n) then leftmost fuel (left_child n) else kret node
  end.
Fixpoint climb_right (fuel : nat) (node temp : ptr) : M Tree ptr :=
  match fuel with
  | O => lift Panic
  | S fuel =>
      match temp with
      | None => kret None
      | Some _ =>
          t ← load temp;
          if same_ptr node (right_child t) then climb_right fuel temp (parent t) else kret temp
      end
  end.
Definition successor (node : ptr) : M Tree ptr :=
  VERIFY (non_null node) ;;
  fuel ← gets fuel_of;
  n ← load node;
  if non_null (right_child n) then leftmost fuel (right_child n) else climb_right fuel node (parent n).

Fixpoint rightmost (fuel : nat) (node : ptr) : M Tree ptr :=
  match fuel with
  | O => lift Panic
  | S fuel =>
      n ← load node;
      if non_null (right_child n) then rightmost fuel (right_child n) else kret node
  end.
Fixpoint climb_left (fuel : nat) (node temp : ptr) : M Tree ptr :=
  match fuel with
  | O => lift Panic
  | S fuel =>
      match temp with
      | None => kret None
      | Some _ =>
          t ← load temp;
          if same_ptr node (left_child t) then climb_left fuel temp (parent t) else kret temp
      end
  end.
Definition predecessor (node : ptr) : M Tree ptr :=
  VERIFY (non_null node) ;;
  fuel ← gets fuel_of;
  n ← load node;
  if non_null (left_child n) then rightmost fuel (left_child n) else climb_left fuel node (parent n).

(** ** Insertion *)

Fixpoint insert_fixups_loop (fuel : nat) (node : ptr) : M Tree unit :=
  match fuel with
  | O => lift Panic
  | S fuel =>
      n ← load node;
      parent_red ← is_red (parent n);
      if negb parent_red then kret tt else
      p ← load (parent n);
      let grand_parent := parent p in
      g ← load grand_parent;
      if same_ptr (right_child g) (parent n) then
        let uncle := left_child g in
        uncle_red ← is_red uncle;
        if uncle_red : bool then
          store (parent n) (set_color Black) ;;
          store uncle (set_color Black) ;;
          store grand_parent (set_color Red) ;;
          insert_fixups_loop fuel grand_parent
        else
          node ← (if same_ptr (left_child p) node then rotate_right (parent n) ;; kret (parent n) else kret node);
          n ← load node;
          store (parent n) (set_color Black) ;;
          store grand_parent (set_color Red) ;;
          rotate_left grand_parent ;;
          insert_fixups_loop fuel node
      else
        let uncle := right_child g in
        uncle_red ← is_red uncle;
        if uncle_red : bool then
          store (parent n) (set_color Black) ;;
          store uncle (set_color Black) ;;
          store grand_parent (set_color Red) ;;
          insert_fixups_loop fuel grand_parent
        else
          node ← (if same_ptr (right_child p) node then rotate_left (parent n) ;; kret (parent n) else kret node);
          n ← load node;
          store (parent n) (set_color Black) ;;
          store grand_parent (set_color Red) ;;
          rotate_right grand_parent ;;
          insert_fixups_loop fuel node
  end.
Definition insert_fixups (node : ptr) : M Tree unit :=
  n ← load node;
  VERIFY (bool_decide (color n = Red)) ;;
  fuel ← gets fuel_of;
  insert_fixups_loop fuel node ;;
  root ← gets m_root;
  store root (set_color Black).

(** The parent of the place where the key goes. *)
Fixpoint descend (fuel : nat) (k : Z) (parent temp : ptr) : M Tree ptr :=
  match fuel with
  | O => lift Panic
  | S fuel =>
      match temp with
      | None => kret parent
      | Some _ =>
          t ← load temp;
          if k <? key t then descend fuel k temp (left_child t) else descend fuel k temp (right_child t)
      end
  end.

Definition insert_node (node : ptr) : M Tree unit :=
  VERIFY (non_null node) ;;
  fuel ← gets fuel_of;
  root ← gets m_root;
  n ← load node;
  parent_node ← descend fuel (key n) None root;
  if negb (non_null parent_node) then
    store node (set_color Black) ;;
    set_root node ;;
    set_size 1 ;;
    set_minimum node
  else
    p ← load parent_node;
    (if key n <? key p then store parent_node (set_left node) else store parent_node (set_right node)) ;;
    store node (set_parent parent_node) ;;
    p ← load parent_node;
    (if non_null (parent p) then insert_fixups node else kret tt) ;;
    size ← gets m_size;
    set_size (wrap 64 (size + 1)) ;;
    minimum ← gets m_minimum;
    m ← load minimum;
    if same_ptr (left_child m) node then set_minimum node else kret tt.

(** [IntrusiveRedBlackTree::insert] *)
Definition insert (k : Z) (node : ptr) : M Tree unit :=
  s ← gets id;
  VERIFY (match node with Some a => bool_decide (a ∉ m_in_tree s) | None => false end) ;;
  store node (set_key k) ;;
  insert_node node ;;
  modify (fun s => mkTree (nodes s) (m_root s) (m_size s) (m_minimum s)
                     (match node with Some a => {[a]} ∪ m_in_tree s | None => m_in_tree s end)).

(** ** Removal *)

Fixpoint remove_fixups_loop (fuel : nat) (node parent_node : ptr) : M Tree ptr :=
  match fuel with
  | O => lift Panic
  | S fuel =>
      root ← gets m_root;
      node_red ← is_red node;
      if same_ptr node root || node_red then kret node else
      p ← load parent_node;
      node ←
        (if same_ptr (left_child p) node then
           s ← load (right_child p);
           (if decide (color s = Red) then
              store (right_child p) (set_color Black) ;;
              store parent_node (set_color Red) ;;
              rotate_left parent_node
            else kret tt) ;;
           p ← load parent_node;
           let sibling := right_child p in
           s ← load sibling;
           left_red ← is_red (left_child s);
           right_red ← is_red (right_child s);
           if negb left_red && negb right_red then
             store sibling (set_color Red) ;;
             kret parent_node
           else
             (if negb right_red then
                store (left_child s) (set_color Black) ;;
                store sibling (set_color Red) ;;
                rotate_right sibling
              else kret tt) ;;
             p ← load parent_node;
             let sibling := right_child p in
             store sibling (set_color (color p)) ;;
             store parent_node (set_color Black) ;;
             s ← load sibling;
             store (right_child s) (set_color Black) ;;
             rotate_left parent_node ;;
             gets m_root
         else
           s ← load (left_child p);
           (if decide (color s = Red) then
              store (left_child p) (set_color Black) ;;
              store parent_node (set_color Red) ;;
              rotate_right parent_node
            else kret tt) ;;
           p ← load parent_node;
           let sibling := left_child p in
           s ← load sibling;
           left_red ← is_red (left_child s);
           right_red ← is_red (right_child s);
           if negb left_red && negb right_red then
             store sibling (set_color Red) ;;
             kret parent_node
           else
             (if negb left_red then
                store (right_child s) (set_color Black) ;;
                store sibling (set_color Red) ;;
                rotate_left sibling
              else kret tt) ;;
             p ← load parent_node;
             let sibling := left_child p in
             store sibling (set_color (color p)) ;;
             store parent_node (set_color Black) ;;
             s ← load sibling;
             store (left_child s) (set_color Black) ;;
             rotate_right parent_node ;;
             gets m_root);
      n ← load node;
      remove_fixups_loop fuel node (parent n)
  end.
Definition remove_fixups (node parent_node : ptr) : M Tree unit :=
  fuel ← gets fuel_of;
  node ← remove_fixups_loop fuel node parent_node;
  store node (set_color Black).

(** The child of [parent] that is [old] becomes [new]. *)
Definition replace_child (parent old new : ptr) : M Tree unit :=
  p ← load parent;
  if same_ptr (left_child p) old then store parent (set_left new) else store parent (set_right new).

(** The node with two children and its successor change places. *)
Definition relink_with_successor (node successor_node : ptr) : M Tree unit :=
  n ← load node;
  s ← load successor_node;
  let neighbor_swap := same_ptr (parent s) node in
  store (left_child n) (set_parent successor_node) ;;
  n ← load node;
  (if negb neighbor_swap then store (right_child n) (set_parent successor_node) else kret tt) ;;
  n ← load node;
  (if non_null (parent n) then replace_child (parent n) node successor_node else set_root successor_node) ;;
  s ← load successor_node;
  (if non_null (right_child s) then store (right_child s) (set_parent node) else kret tt) ;;
  (if neighbor_swap then
     n ← load node;
     store successor_node (set_parent (parent n)) ;;
     store node (set_parent successor_node)
   else
     s ← load successor_node;
     (if non_null (parent s) then replace_child (parent s) successor_node node else set_root node) ;;
     n ← load node;
     s ← load successor_node;
     store node (set_parent (parent s)) ;;
     store successor_node (set_parent (parent n))) ;;
  n ← load node;
  s ← load successor_node;
  store node (set_left (left_child s)) ;;
  store successor_node (set_left (left_child n)) ;;
  (if neighbor_swap then
     s ← load successor_node;
     store node (set_right (right_child s)) ;;
     store successor_node (set_right node)
   else
     n ← load node;
     s ← load successor_node;
     store node (set_right (right_child s)) ;;
     store successor_node (set_right (right_child n))) ;;
  n ← load node;
  s ← load successor_node;
  store node (set_color (color s)) ;;
  store successor_node (set_color (color n)).

Definition remove_node (node : ptr) : M Tree unit :=
  VERIFY (non_null node) ;;
  size ← gets m_size;
  if size =? 1 then
    set_root None ;;
    set_minimum None ;;
    set_size 0
  else
    minimum ← gets m_minimum;
    (if same_ptr minimum node then next ← successor node; set_minimum next else kret tt) ;;
    n ← load node;
    (if non_null (left_child n) && non_null (right_child n) then
       successor_node ← successor node;
       relink_with_successor node successor_node
     else kret tt) ;;
    n ← load node;
    let child := if non_null (left_child n) then left_child n else right_child n in
    (if non_null child then store child (set_parent (parent n)) else kret tt) ;;
    (if non_null (parent n) then replace_child (parent n) node child else set_root child) ;;
    (if decide (color n = Red) then kret tt else remove_fixups child (parent n)) ;;
    size ← gets m_size;
    set_size (wrap 64 (size - 1)).

(** [IntrusiveRedBlackTree::remove] *)
Definition remove (k : Z) : M Tree bool :=
  node ← find k;
  if negb (non_null node) then kret false else
  remove_node node ;;
  store node (set_right None) ;;
  store node (set_left None) ;;
  modify (fun s => mkTree (nodes s) (m_root s) (m_size s) (m_minimum s)
                     (match node with Some a => m_in_tree s ∖ {[a]} | None => m_in_tree s end)) ;;
  kret true.


Fixpoint clear_nodes (fuel : nat) (node : ptr) : M Tree unit :=
  match fuel with
  | O => lift Panic
  | S fuel =>
      match node with
      | None => kret tt
      | Some a =>
          n ← load node;
          clear_nodes fuel (right_child n) ;;
          store node (set_right None) ;;
          n ← load node;
          clear_nodes fuel (left_child n) ;;
          store node (set_left None) ;;
          modify (fun s => mkTree (nodes s) (m_root s) (m_size s) (m_minimum s) (m_in_tree s ∖ {[a]}))
      end
  end.
(** [IntrusiveRedBlackTree::clear] *)
Definition clear : M Tree unit :=
  fuel ← gets fuel_of;
  root ← gets m_root;
  clear_nodes fuel root ;;
  set_root None ;;
  set_minimum None ;;
  set_size 0.

(** ** Iteration *)

Record BaseIterator := mkIterator { m_node : ptr; m_prev : ptr }.

Definition begin : M Tree BaseIterator :=
  minimum ← gets m_minimum;
  kret (mkIterator minimum None).
Definition begin_from (k : Z) : M Tree BaseIterator :=
  node ← find k;
  kret (mkIterator node None).
(** [operator++] *)
Definition iterator_next (it : BaseIterator) : M Tree BaseIterator :=
  if negb (non_null (m_node it)) then kret it else
  next ← successor (m_node it);
  kret (mkIterator next (m_node it)).
(** [operator--] *)
Definition iterator_prev (it : BaseIterator) : M Tree BaseIterator :=
  if negb (non_null (m_prev it)) then kret it else
  prev ← predecessor (m_prev it);
  kret (mkIterator (m_prev it) prev).
Definition is_end (it : BaseIterator) : bool := negb (non_null (m_node it)).
(** The nodes that a loop over the tree visits. *)
Fixpoint visit (fuel : nat) (it : BaseIterator) : M Tree (list ptr) :=
  match fuel with
  | O => lift Panic
  | S fuel =>
      if is_end it then kret [] else
      it' ← iterator_next it;
      rest ← visit fuel it';
      kret (m_node it :: rest)
  end.
