(* ===== verification/RedBlackTreeRep.v ===== *)
(** * Red-black trees: what the heap represents

    The heap of nodes stands for a tree of the inductive type [tree], and a node somewhere
    in it for a context and a subtree.  [ok m s Q] says that the code [m] returns from [s]
    in a state of [Q].  The rotations and the changes of colours are shown to change the
    tree as they should, for both sides at once, and the red-black conditions are stated
    for trees and for contexts. *)

From stdpp Require Import sorting.
From S2P Require Import Prelude RedBlackTree.

(** ** The tree that the heap represents *)

Inductive tree :=
  | Leaf
  | T (c : Color) (l : tree) (a : nat) (k : Z) (r : tree).

Inductive side := L | R.
#[export] Instance side_eq_dec : EqDecision side.
Proof. solve_decision. Defined.

Definition opp (d : side) : side := match d with L => R | R => L end.

Definition root (t : tree) : ptr := match t with Leaf => None | T _ _ a _ _ => Some a end.
Fixpoint inorder (t : tree) : list (Z * nat) :=
  match t with Leaf => [] | T _ l a k r => inorder l ++ (k, a) :: inorder r end.
Definition addrs (t : tree) : list nat := snd <$> inorder t.

(** The heap holds the nodes of [t], whose root has the parent [p]. *)
Fixpoint rep (h : gmap nat Node) (p : ptr) (t : tree) : Prop :=
  match t with
  | Leaf => True
  | T c l a k r => h !! a = Some (mkNode (root l) (root r) p c k) /\ rep h (Some a) l /\ rep h (Some a) r
  end.

(** Both mirror images at once: [mk d c t a k u] has [t] on the side [d]. *)
Definition mk (d : side) (c : Color) (t : tree) (a : nat) (k : Z) (u : tree) : tree :=
  match d with L => T c t a k u | R => T c u a k t end.
Definition mkN (d : side) (x y p : ptr) (c : Color) (k : Z) : Node :=
  match d with L => mkNode x y p c k | R => mkNode y x p c k end.
Definition child (d : side) (n : Node) : ptr := match d with L => left_child n | R => right_child n end.
Definition set_child (d : side) (v : ptr) (n : Node) : Node :=
  match d with L => set_left v n | R => set_right v n end.

(** A tree with a hole: the way from the hole up to the root. *)
Inductive frame := Frame (d : side) (c : Color) (a : nat) (k : Z) (u : tree).
Definition ctx := list frame.
Definition plug (f : frame) (t : tree) : tree := let '(Frame d c a k u) := f in mk d c t a k u.
Fixpoint zip (z : ctx) (t : tree) : tree := match z with [] => t | f :: z => zip z (plug f t) end.
Definition top (z : ctx) : ptr := match z with [] => None | Frame _ _ a _ _ :: _ => Some a end.

Fixpoint before (z : ctx) : list (Z * nat) :=
  match z with
  | [] => []
  | Frame L _ _ _ _ :: z => before z
  | Frame R _ a k u :: z => before z ++ inorder u ++ [(k, a)]
  end.
Fixpoint after (z : ctx) : list (Z * nat) :=
  match z with
  | [] => []
  | Frame L _ a k u :: z => (k, a) :: inorder u ++ after z
  | Frame R _ _ _ _ :: z => after z
  end.

Lemma inorder_zip z t : inorder (zip z t) = before z ++ inorder t ++ after z.
Proof.
  revert t. induction z as [|[[] c a k u] z IH]; intros t; cbn [zip before after plug mk].
  - by rewrite app_nil_r.
  - rewrite IH. cbn [inorder]. by rewrite <- !app_assoc.
  - rewrite IH. cbn [inorder]. by rewrite <- !app_assoc.
Qed.

Lemma zip_app z1 z2 t : zip (z1 ++ z2) t = zip z2 (zip z1 t).
Proof. revert t. induction z1 as [|f z1 IH]; intros t; [done|]. apply IH. Qed.

(** The nodes of a context; [x] is what its hole holds. *)
Fixpoint crep (h : gmap nat Node) (z : ctx) (x : ptr) : Prop :=
  match z with
  | [] => True
  | Frame d c a k u :: z => h !! a = Some (mkN d x (root u) (top z) c k) /\ rep h (Some a) u /\ crep h z (Some a)
  end.

Lemma rep_mk h p d c t a k u :
  rep h p (mk d c t a k u) <-> h !! a = Some (mkN d (root t) (root u) p c k) /\ rep h (Some a) t /\ rep h (Some a) u.
Proof. destruct d; simpl; tauto. Qed.

Lemma root_mk d c t a k u : root (mk d c t a k u) = Some a.
Proof. by destruct d. Qed.

Lemma rep_zip h z t : rep h None (zip z t) <-> rep h (top z) t /\ crep h z (root t).
Proof.
  revert t. induction z as [|[d c a k u] z IH]; intros t; cbn [zip plug crep top]; [tauto|].
  rewrite IH, rep_mk, root_mk. tauto.
Qed.

(** The address of the root of the whole tree, when the hole holds [x]. *)
Fixpoint zroot (z : ctx) (x : ptr) : ptr := match z with [] => x | Frame _ _ a _ _ :: z => zroot z (Some a) end.

Lemma root_zip z t : root (zip z t) = zroot z (root t).
Proof.
  revert t. induction z as [|[d c a k u] z IH]; intros t; [done|]. cbn [zip plug zroot]. by rewrite IH, root_mk.
Qed.

Definition caddrs (z : ctx) : list nat := (snd <$> before z) ++ (snd <$> after z).

Lemma addrs_T c l a k r : addrs (T c l a k r) = addrs l ++ a :: addrs r.
Proof. unfold addrs. cbn [inorder]. by rewrite fmap_app. Qed.

Lemma addrs_mk d c t a k u x : x ∈ addrs (mk d c t a k u) <-> x = a \/ x ∈ addrs t \/ x ∈ addrs u.
Proof. destruct d; cbn [mk]; rewrite addrs_T, elem_of_app, elem_of_cons; tauto. Qed.

Lemma caddrs_cons d c a k u z x : x ∈ caddrs (Frame d c a k u :: z) <-> x = a \/ x ∈ addrs u \/ x ∈ caddrs z.
Proof.
  unfold caddrs, addrs. destruct d; cbn [before after]; rewrite ?fmap_app, ?fmap_cons, ?fmap_app, ?elem_of_app;
    cbn [fmap list_fmap snd]; rewrite ?elem_of_cons, ?elem_of_app, ?elem_of_nil; tauto.
Qed.

Lemma addrs_zip z t x : x ∈ addrs (zip z t) <-> x ∈ caddrs z \/ x ∈ addrs t.
Proof.
  unfold addrs, caddrs. rewrite inorder_zip, !fmap_app, !elem_of_app. tauto.
Qed.

(** ** Distinct addresses *)

Lemma addrs_mk_perm d c t a k u : addrs (mk d c t a k u) ≡ₚ a :: addrs t ++ addrs u.
Proof.
  destruct d; cbn [mk]; rewrite addrs_T; [by rewrite <- Permutation_middle|].
  by rewrite <- Permutation_middle, (Permutation_app_comm (addrs u)).
Qed.

Lemma NoDup_mk d c t a k u :
  NoDup (addrs (mk d c t a k u)) <->
  a ∉ addrs t /\ a ∉ addrs u /\ NoDup (addrs t) /\ NoDup (addrs u) /\ (forall x, x ∈ addrs t -> x ∉ addrs u).
Proof.
  rewrite addrs_mk_perm, NoDup_cons, NoDup_app, not_elem_of_app. tauto.
Qed.

Lemma addrs_zip_perm z t : addrs (zip z t) ≡ₚ caddrs z ++ addrs t.
Proof.
  unfold addrs, caddrs. rewrite inorder_zip, !fmap_app, <- !app_assoc.
  by rewrite (Permutation_app_comm (snd <$> after z)).
Qed.

Lemma NoDup_zip z t :
  NoDup (addrs (zip z t)) <->
  NoDup (caddrs z) /\ NoDup (addrs t) /\ (forall x, x ∈ caddrs z -> x ∉ addrs t).
Proof. rewrite addrs_zip_perm, NoDup_app. tauto. Qed.

(** Writes to other nodes. *)
Lemma rep_insert h p t a n : a ∉ addrs t -> rep h p t -> rep (<[a := n]> h) p t.
Proof.
  revert p. induction t as [|c l IHl x k r IHr]; intros p; [done|].
  rewrite addrs_T, elem_of_app, elem_of_cons. intros Hn (H1 & H2 & H3). cbn [rep].
  rewrite lookup_insert_ne by (intros ->; tauto). split_and!; [done|apply IHl; tauto|apply IHr; tauto].
Qed.

Lemma crep_insert h z x a n : a ∉ caddrs z -> crep h z x -> crep (<[a := n]> h) z x.
Proof.
  revert x. induction z as [|[d c y k u] z IH]; intros x; [done|]. rewrite caddrs_cons. intros Hn (H1 & H2 & H3). cbn [crep].
  rewrite lookup_insert_ne by (intros ->; tauto). split_and!; [done|apply rep_insert; tauto|apply IH; tauto].
Qed.

(** ** Running the code *)

(** [m] returns from [s], with a value and a state in [Q]. *)
Definition ok {A} (m : M Tree A) (s : Tree) (Q : A -> Tree -> Prop) : Prop := exists a s', m s = (Ok a, s') /\ Q a s'.

Definition upd (a : nat) (n : Node) (s : Tree) : Tree :=
  mkTree (<[a := n]> (nodes s)) (m_root s) (m_size s) (m_minimum s) (m_in_tree s).

Lemma ok_ret {A} (a : A) s (Q : A -> Tree -> Prop) : Q a s -> ok (kret a) s Q.
Proof. by exists a, s. Qed.

Lemma ok_mono {A} (m : M Tree A) s (P Q : A -> Tree -> Prop) : ok m s P -> (forall a s', P a s' -> Q a s') -> ok m s Q.
Proof. intros (a & s' & E & H) HPQ. exists a, s'. auto. Qed.

Lemma ok_bind {A B} (m : M Tree A) (f : A -> M Tree B) s P Q :
  ok m s P -> (forall a s', P a s' -> ok (f a) s' Q) -> ok (kbind m f) s Q.
Proof.
  intros (a & s' & E & H) Hf. destruct (Hf a s' H) as (b & s2 & E2 & H2). exists b, s2. split; [|done]. simpl. by rewrite E.
Qed.

Section sequence.
Context {B : Type} (s : Tree) (Q : B -> Tree -> Prop).

Lemma ok_VERIFY (b : bool) (f : unit -> M Tree B) : b = true -> ok (f tt) s Q -> ok (kbind (VERIFY b) f) s Q.
Proof. by intros ->. Qed.
Lemma ok_load a n (f : Node -> M Tree B) : nodes s !! a = Some n -> ok (f n) s Q -> ok (kbind (load (Some a)) f) s Q.
Proof. intros E (b & s' & E' & H). exists b, s'. split; [|done]. simpl. by rewrite E. Qed.
Lemma ok_store a n g (f : unit -> M Tree B) :
  nodes s !! a = Some n -> ok (f tt) (upd a (g n) s) Q -> ok (kbind (store (Some a) g) f) s Q.
Proof. intros E (b & s' & E' & H). exists b, s'. split; [|done]. simpl. by rewrite E. Qed.
Lemma ok_gets {A} (g : Tree -> A) (f : A -> M Tree B) : ok (f (g s)) s Q -> ok (kbind (gets g) f) s Q.
Proof. done. Qed.
Lemma ok_modify g (f : unit -> M Tree B) : ok (f tt) (g s) Q -> ok (kbind (modify g) f) s Q.
Proof. done. Qed.
End sequence.

Lemma ok_store_last a n g s (Q : unit -> Tree -> Prop) :
  nodes s !! a = Some n -> Q tt (upd a (g n) s) -> ok (store (Some a) g) s Q.
Proof. intros E H. exists tt, (upd a (g n) s). split; [|done]. simpl. by rewrite E. Qed.

(** The heap with the root of [t] hung under [p]. *)
Definition reparent (t : tree) (p : ptr) (s : Tree) : Tree :=
  match t with
  | Leaf => s
  | T c l a k r => upd a (mkNode (root l) (root r) p c k) s
  end.

Lemma reparent_rep t p q s : rep (nodes s) q t -> NoDup (addrs t) -> rep (nodes (reparent t p s)) p t.
Proof.
  destruct t as [|c l a k r]; [done|]. intros (H1 & H2 & H3) Hnd. apply (NoDup_mk L) in Hnd as (? & ? & _).
  cbn [reparent upd nodes rep]. rewrite lookup_insert_eq. split_and!; [done|by apply rep_insert|by apply rep_insert].
Qed.

Lemma reparent_other t u p q s :
  (forall x, x ∈ addrs t -> x ∉ addrs u) -> rep (nodes s) q u -> rep (nodes (reparent t p s)) q u.
Proof.
  destruct t as [|c l a k r]; [done|]. intros Hd Hu. cbn [reparent upd nodes]. apply rep_insert; [|done].
  apply Hd. rewrite addrs_T. set_solver.
Qed.

Lemma reparent_ctx t z p x s :
  (forall a, a ∈ caddrs z -> a ∉ addrs t) -> crep (nodes s) z x -> crep (nodes (reparent t p s)) z x.
Proof.
  destruct t as [|c l a k r]; [done|]. intros Hd Hu. cbn [reparent upd nodes]. apply crep_insert; [|done].
  intros Ha. apply (Hd a Ha). rewrite addrs_T. set_solver.
Qed.

Lemma reparent_lookup t p s a : a ∉ addrs t -> nodes (reparent t p s) !! a = nodes s !! a.
Proof.
  destruct t as [|c l x k r]; [done|]. rewrite addrs_T. intros Hn. cbn [reparent upd nodes].
  apply lookup_insert_ne. set_solver.
Qed.

Lemma reparent_root t p s : m_root (reparent t p s) = m_root s.
Proof. by destruct t. Qed.

Lemma ok_reparent {B} t p q s (f : unit -> M Tree B) Q :
  rep (nodes s) q t -> ok (f tt) (reparent t p s) Q ->
  ok (kbind (if non_null (root t) then store (root t) (set_parent p) else kret tt) f) s Q.
Proof. destruct t as [|c l a k r]; [done|]. intros (H1 & _) H. cbn [root non_null]. by eapply ok_store. Qed.

(** The context with [y] in its hole. *)
Definition hook (z : ctx) (y : ptr) (s : Tree) : Tree :=
  match z with
  | [] => mkTree (nodes s) y (m_size s) (m_minimum s) (m_in_tree s)
  | Frame d c a k u :: z => upd a (mkN d y (root u) (top z) c k) s
  end.

Lemma root_elem t a : root t = Some a -> a ∈ addrs t.
Proof. destruct t; [done|]. intros [= ->]. rewrite addrs_T. set_solver. Qed.

Lemma ok_hook z x y s (Q : unit -> Tree -> Prop) :
  crep (nodes s) z (Some x) -> x ∉ caddrs z -> Q tt (hook z y s) ->
  ok (if negb (non_null (top z)) then set_root y else
      q ← load (top z);
      if same_ptr (left_child q) (Some x) then store (top z) (set_left y) else store (top z) (set_right y)) s Q.
Proof.
  destruct z as [|[d c a k u] z]; intros Hc Hx HQ; cbn [top non_null negb]; [by eexists _, _|].
  destruct Hc as (H1 & _). eapply ok_load; [exact H1|]. rewrite caddrs_cons in Hx.
  assert (same_ptr (left_child (mkN d (Some x) (root u) (top z) c k)) (Some x) = match d with L => true | R => false end) as ->.
  { destruct d; cbn [mkN left_child]; unfold same_ptr; [by apply bool_decide_true|].
    apply bool_decide_false. intros E%root_elem. tauto. }
  destruct d; (eapply ok_store_last; [exact H1|exact HQ]).
Qed.

Lemma hook_ctx z x y s : crep (nodes s) z x -> NoDup (caddrs z) -> crep (nodes (hook z y s)) z y.
Proof.
  destruct z as [|[d c a k u] z]; [done|]. intros (H1 & H2 & H3) Hnd. cbn [hook upd nodes crep].
  assert (a ∉ addrs u /\ a ∉ caddrs z) as [Hu Hz].
  { revert Hnd. unfold caddrs, addrs. destruct d; cbn [before after]; rewrite ?fmap_app, ?fmap_cons; cbn [fmap list_fmap snd];
      rewrite ?fmap_app, NoDup_ListNoDup; intros Hnd%NoDup_ListNoDup.
    - rewrite <- Permutation_middle, NoDup_cons, !elem_of_app in Hnd. rewrite !elem_of_app. tauto.
    - rewrite <- !app_assoc in Hnd. cbn [app] in Hnd.
      rewrite (app_assoc (snd <$> before z)), <- Permutation_middle, NoDup_cons, !elem_of_app in Hnd. rewrite !elem_of_app. tauto. }
  rewrite lookup_insert_eq. split_and!; [done|by apply rep_insert|by apply crep_insert].
Qed.

Lemma hook_other z y s u q : (forall x, x ∈ caddrs z -> x ∉ addrs u) -> rep (nodes s) q u -> rep (nodes (hook z y s)) q u.
Proof.
  destruct z as [|[d c a k w] z]; [done|]. intros Hd Hu. cbn [hook upd nodes]. apply rep_insert; [|done].
  apply Hd, caddrs_cons. by left.
Qed.

(** What an operation on the nodes [A] leaves alone. *)
Record rest (A : list nat) (s0 s : Tree) : Prop := {
  e_other : forall a, a ∉ A -> nodes s !! a = nodes s0 !! a;
  e_dom : dom (nodes s) = dom (nodes s0);
  e_size : m_size s = m_size s0;
  e_minimum : m_minimum s = m_minimum s0;
  e_in_tree : m_in_tree s = m_in_tree s0 }.

(** The state holds the tree [t] over nodes of [A], and is otherwise as [s0]. *)
Record on (A : list nat) (s0 s : Tree) (t : tree) : Prop := {
  o_rep : rep (nodes s) None t;
  o_root : m_root s = root t;
  o_nodup : NoDup (addrs t);
  o_sub : forall a, a ∈ addrs t -> a ∈ A;
  o_rest : rest A s0 s }.

Lemma rest_refl A s : rest A s s.
Proof. by split. Qed.

Lemma rest_upd A s0 s a n : a ∈ A -> is_Some (nodes s !! a) -> rest A s0 s -> rest A s0 (upd a n s).
Proof.
  intros Ha Hs [H1 H2 H3 H4 H5]. split; cbn [upd nodes m_size m_minimum m_in_tree]; try done.
  - intros x Hx. rewrite lookup_insert_ne by (intros ->; done). by apply H1.
  - rewrite dom_insert_L, H2. apply elem_of_dom in Hs. set_solver.
Qed.

Lemma rest_reparent A s0 s t p q :
  (forall a, a ∈ addrs t -> a ∈ A) -> rep (nodes s) q t -> rest A s0 s -> rest A s0 (reparent t p s).
Proof.
  destruct t as [|c l a k r]; [done|]. intros Ht (H1 & _) Hs. apply rest_upd; [|by eexists|done].
  apply Ht. rewrite addrs_T. set_solver.
Qed.

Lemma rest_hook A s0 s z x y :
  (forall a, a ∈ caddrs z -> a ∈ A) -> crep (nodes s) z x -> rest A s0 s -> rest A s0 (hook z y s).
Proof.
  destruct z as [|[d c a k u] z]; [by intros _ _ []|]. intros Hz (H1 & _) Hs. apply rest_upd; [|by eexists|done].
  apply Hz, caddrs_cons. by left.
Qed.

Lemma rep_lookup h p t a : rep h p t -> a ∈ addrs t -> is_Some (h !! a).
Proof.
  revert p. induction t as [|c l IHl x k r IHr]; intros p; [by intros _ ?%not_elem_of_nil|].
  intros (H1 & H2 & H3). rewrite addrs_T, elem_of_app, elem_of_cons. intros [?|[->|?]]; eauto.
Qed.

(** The fuel is enough for a way through the tree. *)
Lemma on_fuel A s0 s t : on A s0 s t -> (length (addrs t) < fuel_of s)%nat.
Proof.
  intros [Hrep _ Hnd _ _]. unfold fuel_of. rewrite <- size_dom.
  assert (list_to_set (C := gset nat) (addrs t) ⊆ dom (nodes s)) as Hsub.
  { intros a Ha%elem_of_list_to_set. apply elem_of_dom. by eapply rep_lookup. }
  apply subseteq_size in Hsub. rewrite size_list_to_set in Hsub by done. lia.
Qed.

Lemma on_lookup A s0 s z d c t a k u :
  on A s0 s (zip z (mk d c t a k u)) -> nodes s !! a = Some (mkN d (root t) (root u) (top z) c k).
Proof. intros [Hrep _ _ _ _]. apply rep_zip in Hrep as [Hrep _]. by apply rep_mk in Hrep as (? & _). Qed.

Lemma on_lookup_T A s0 s z c l a k r :
  on A s0 s (zip z (T c l a k r)) -> nodes s !! a = Some (mkNode (root l) (root r) (top z) c k).
Proof. apply (on_lookup A s0 s z L). Qed.

Lemma addrs_zip_same z t t' : addrs t ≡ₚ addrs t' -> addrs (zip z t) ≡ₚ addrs (zip z t').
Proof. intros E. by rewrite !addrs_zip_perm, E. Qed.

(** Replacing the subtree in a hole, when the heap was written accordingly. *)
Lemma on_zip A s0 s s' z t t' :
  on A s0 s (zip z t) -> addrs t' ≡ₚ addrs t -> rep (nodes s') (top z) t' -> crep (nodes s') z (root t') ->
  m_root s' = zroot z (root t') -> rest A s0 s' -> on A s0 s' (zip z t').
Proof.
  intros [_ _ H3 H4 _] Hp Hr Hc Hm He. pose proof (addrs_zip_same z t' t Hp) as Hp'. split.
  - by apply rep_zip.
  - by rewrite root_zip.
  - by rewrite Hp'.
  - intros a. rewrite Hp'. apply H4.
  - done.
Qed.

Lemma recolor_ok A s0 s z d c c' t a k u :
  on A s0 s (zip z (mk d c t a k u)) ->
  ok (store (Some a) (set_color c')) s (fun _ s' => on A s0 s' (zip z (mk d c' t a k u))).
Proof.
  intros Hon. pose proof (on_lookup _ _ _ _ _ _ _ _ _ _ Hon) as Hl. pose proof Hon as [Hrep Hroot Hnd Hsub Hrest].
  apply rep_zip in Hrep as [Hrep Hcr]. apply NoDup_zip in Hnd as (N1 & N2 & N3). apply NoDup_mk in N2 as (M1 & M2 & _).
  apply rep_mk in Hrep as (_ & R2 & R3). rewrite root_mk in Hcr.
  eapply ok_store_last; [exact Hl|]. apply (on_zip A s0 s _ z (mk d c t a k u)); [done| | | | |].
  - by rewrite !addrs_mk_perm.
  - apply rep_mk. cbn [upd nodes]. rewrite lookup_insert_eq. split_and!; [by destruct d|by apply rep_insert|by apply rep_insert].
  - rewrite root_mk. cbn [upd nodes]. apply crep_insert; [|done]. intros Ha. apply (N3 a Ha), addrs_mk. by left.
  - rewrite root_zip, root_mk in Hroot. by rewrite root_mk.
  - apply rest_upd; [|by eexists|done]. apply Hsub, addrs_zip. right. apply addrs_mk. by left.
Qed.

(** Both rotations. *)
Definition rotate (d : side) (subtree_root : ptr) : M Tree unit :=
  VERIFY (non_null subtree_root) ;;
  n ← load subtree_root;
  let pivot := child (opp d) n in
  VERIFY (non_null pivot) ;;
  let parent := parent n in
  p ← load pivot;
  store subtree_root (set_child (opp d) (child d p)) ;;
  (if non_null (child d p) then store (child d p) (set_parent subtree_root) else kret tt) ;;
  store pivot (set_child d subtree_root) ;;
  store subtree_root (set_parent pivot) ;;
  store pivot (set_parent parent) ;;
  if negb (non_null parent) then set_root pivot else
  q ← load parent;
  if same_ptr (left_child q) subtree_root then store parent (set_left pivot) else store parent (set_right pivot).

Lemma rotate_left_eq : rotate_left = rotate L.
Proof. reflexivity. Qed.
Lemma rotate_right_eq : rotate_right = rotate R.
Proof. reflexivity. Qed.

Lemma child_same d x y p c k : child d (mkN d x y p c k) = x.
Proof. by destruct d. Qed.
Lemma child_opp d x y p c k : child (opp d) (mkN d x y p c k) = y.
Proof. by destruct d. Qed.
Lemma mkN_parent d x y p c k : parent (mkN d x y p c k) = p.
Proof. by destruct d. Qed.
Lemma mkN_color d x y p c k : color (mkN d x y p c k) = c.
Proof. by destruct d. Qed.
Lemma set_child_same d v x y p c k : set_child d v (mkN d x y p c k) = mkN d v y p c k.
Proof. by destruct d. Qed.
Lemma set_child_opp d v x y p c k : set_child (opp d) v (mkN d x y p c k) = mkN d x v p c k.
Proof. by destruct d. Qed.
Lemma mkN_set_parent d v x y p c k : set_parent v (mkN d x y p c k) = mkN d x y v c k.
Proof. by destruct d. Qed.
Lemma mkN_set_color d v x y p c k : set_color v (mkN d x y p c k) = mkN d x y p v k.
Proof. by destruct d. Qed.

Create HintDb mkN.
#[export] Hint Rewrite child_same child_opp mkN_parent mkN_color set_child_same set_child_opp mkN_set_parent mkN_set_color : mkN.

Lemma hook_root z x y s : m_root s = zroot z x -> m_root (hook z y s) = zroot z y.
Proof. by destruct z as [|[d c a k u] z]. Qed.

Lemma hook_lookup z y s a : a ∉ caddrs z -> nodes (hook z y s) !! a = nodes s !! a.
Proof.
  destruct z as [|[d c x k u] z]; [done|]. rewrite caddrs_cons. intros Ha. cbn [hook upd nodes]. apply lookup_insert_ne. intros ->. tauto.
Qed.

Lemma rotation_perm {A} (x y : A) l p r : y :: (x :: l ++ p) ++ r ≡ₚ x :: l ++ y :: p ++ r.
Proof. cbn [app]. rewrite <- (Permutation_middle l (p ++ r) y), <- app_assoc. apply Permutation_swap. Qed.

Section rotation.
Context (A : list nat) (s0 s : Tree) (z : ctx) (d : side) (c : Color) (l : tree) (x : nat) (kx : Z).
Context (cp : Color) (pl : tree) (y : nat) (ky : Z) (pr : tree).
Context (Hon : on A s0 s (zip z (mk d c l x kx (mk d cp pl y ky pr)))).

Definition rotated : Tree :=
  let s1 := upd x (mkN d (root l) (root pl) (top z) c kx) s in
  let s2 := reparent pl (Some x) s1 in
  let s3 := upd y (mkN d (Some x) (root pr) (Some x) cp ky) s2 in
  let s4 := upd x (mkN d (root l) (root pl) (Some y) c kx) s3 in
  upd y (mkN d (Some x) (root pr) (top z) cp ky) s4.

Lemma rotation_distinct :
  x <> y /\ (forall a, a = x \/ a ∈ addrs l \/ a = y \/ a ∈ addrs pl \/ a ∈ addrs pr -> a ∉ caddrs z /\ a ∈ A) /\
  x ∉ addrs l /\ x ∉ addrs pl /\ x ∉ addrs pr /\ y ∉ addrs l /\ y ∉ addrs pl /\ y ∉ addrs pr /\
  (forall a, a ∈ addrs l -> a ∉ addrs pl) /\ (forall a, a ∈ addrs pl -> a ∉ addrs pr) /\ NoDup (addrs pl) /\ NoDup (caddrs z).
Proof using Hon.
  destruct Hon as [_ _ Hnd Hsub _]. apply NoDup_zip in Hnd as (N1 & N2 & N3).
  assert (forall a, a = x \/ a ∈ addrs l \/ a = y \/ a ∈ addrs pl \/ a ∈ addrs pr -> a ∉ caddrs z /\ a ∈ A) as Hin.
  { intros a Ha. assert (a ∈ addrs (mk d c l x kx (mk d cp pl y ky pr))) as H by (rewrite !addrs_mk; tauto).
    split; [by intros Hz; apply (N3 a Hz)|]. apply Hsub, addrs_zip. by right. }
  apply NoDup_mk in N2 as (X1 & X2 & Nl & N2 & Dl). apply NoDup_mk in N2 as (Y1 & Y2 & Npl & Npr & Dp).
  rewrite addrs_mk in X2. split_and!; try tauto.
  - intros Hyl. apply (Dl y Hyl), addrs_mk. by left.
  - intros a Ha Hpl. apply (Dl a Ha), addrs_mk. tauto.
Qed.

Lemma rotation_rep :
  nodes s !! x = Some (mkN d (root l) (Some y) (top z) c kx) /\ nodes s !! y = Some (mkN d (root pl) (root pr) (Some x) cp ky) /\
  rep (nodes s) (Some x) l /\ rep (nodes s) (Some y) pl /\ rep (nodes s) (Some y) pr /\ crep (nodes s) z (Some x) /\
  m_root s = zroot z (Some x).
Proof using Hon.
  destruct Hon as [Hrep Hroot _ _ _]. apply rep_zip in Hrep as [Hrep Hcr]. rewrite root_mk in Hcr. rewrite root_zip, root_mk in Hroot.
  apply rep_mk in Hrep as (Hx & Rl & Hy). rewrite root_mk in Hx. apply rep_mk in Hy as (Hy & Rpl & Rpr). by split_and!.
Qed.

Lemma rotated_ctx : crep (nodes rotated) z (Some x).
Proof using Hon.
  destruct rotation_distinct as (_ & Hin & _). destruct rotation_rep as (_ & _ & _ & _ & _ & Hc & _).
  unfold rotated. cbn zeta. cbn [upd nodes]. repeat (apply crep_insert; [apply Hin; tauto|]). apply reparent_ctx.
  - intros a Ha Hpl. by apply (Hin a ltac:(tauto)).
  - cbn [upd nodes]. apply crep_insert; [apply Hin; tauto|done].
Qed.

Lemma rotated_rep : rep (nodes rotated) (top z) (mk d cp (mk d c l x kx pl) y ky pr).
Proof using Hon.
  destruct rotation_distinct as (Hxy & Hin & X1 & X2 & X3 & Y1 & Y2 & Y3 & D1 & D2 & N & _).
  destruct rotation_rep as (_ & _ & Rl & Rpl & Rpr & _ & _). unfold rotated. cbn zeta.
  apply rep_mk. rewrite root_mk. split_and!.
  - cbn [upd nodes]. by rewrite lookup_insert_eq.
  - apply rep_mk. split_and!.
    + cbn [upd nodes]. by rewrite lookup_insert_ne, lookup_insert_eq by done.
    + cbn [upd nodes]. repeat (apply rep_insert; [done|]). apply reparent_other; [|cbn [upd nodes]; by apply rep_insert].
      intros a Ha Hl. by apply (D1 a).
    + cbn [upd nodes]. repeat (apply rep_insert; [done|]). apply (reparent_rep pl (Some x) (Some y)); [|done].
      cbn [upd nodes]. by apply rep_insert.
  - cbn [upd nodes]. repeat (apply rep_insert; [done|]). apply reparent_other; [done|]. cbn [upd nodes]. by apply rep_insert.
Qed.

Lemma rotated_rest : rest A s0 rotated.
Proof using Hon.
  destruct rotation_distinct as (Hxy & Hin & X1 & X2 & X3 & Y1 & Y2 & Y3 & D1 & D2 & N & _).
  destruct rotation_rep as (Hx & Hy & _ & Rpl & _). unfold rotated. cbn zeta.
  assert (rest A s0 (reparent pl (Some x) (upd x (mkN d (root l) (root pl) (top z) c kx) s))) as Hr.
  { apply (rest_reparent _ _ _ _ _ (Some y)); [intros a Ha; apply Hin; tauto|cbn [upd nodes]; by apply rep_insert|].
    apply rest_upd; [apply Hin; tauto|by eexists|apply Hon]. }
  apply rest_upd; [apply Hin; tauto| |].
  { cbn [upd nodes]. rewrite lookup_insert_ne, lookup_insert_eq by done. by eexists. }
  apply rest_upd; [apply Hin; tauto| |].
  { cbn [upd nodes]. rewrite lookup_insert_ne, reparent_lookup by done. cbn [upd nodes]. rewrite lookup_insert_eq. by eexists. }
  apply rest_upd; [apply Hin; tauto| |done].
  rewrite reparent_lookup by done. cbn [upd nodes]. rewrite lookup_insert_ne by done. by eexists.
Qed.

Lemma rotate_ok : ok (rotate d (Some x)) s (fun _ s' => on A s0 s' (zip z (mk d cp (mk d c l x kx pl) y ky pr))).
Proof using Hon.
  destruct rotation_distinct as (Hxy & Hin & X1 & X2 & X3 & Y1 & Y2 & Y3 & D1 & D2 & N & Nz).
  destruct rotation_rep as (Hx & Hy & Rl & Rpl & Rpr & Hc & Hroot).
  unfold rotate. apply ok_VERIFY; [done|]. eapply ok_load; [exact Hx|]. autorewrite with mkN. cbn zeta.
  apply ok_VERIFY; [done|]. eapply ok_load; [exact Hy|]. autorewrite with mkN.
  eapply ok_store; [exact Hx|]. autorewrite with mkN. eapply ok_reparent; [cbn [upd nodes]; by apply rep_insert|].
  eapply ok_store; [rewrite reparent_lookup by done; cbn [upd nodes]; by rewrite lookup_insert_ne by done|]. autorewrite with mkN.
  eapply ok_store.
  { cbn [upd nodes]. rewrite lookup_insert_ne, reparent_lookup by done. cbn [upd nodes]. by rewrite lookup_insert_eq. }
  autorewrite with mkN. eapply ok_store; [cbn [upd nodes]; by rewrite lookup_insert_ne, lookup_insert_eq by done|].
  autorewrite with mkN. apply (ok_hook z x (Some y) rotated); [apply rotated_ctx|apply Hin; tauto|].
  apply (on_zip A s0 s _ z _ _ Hon).
  - rewrite !addrs_mk_perm. apply rotation_perm.
  - apply hook_other; [|apply rotated_rep]. intros a Ha. rewrite !addrs_mk. intros H. by apply (Hin a ltac:(tauto)).
  - rewrite root_mk. apply (hook_ctx z (Some x)); [apply rotated_ctx|done].
  - rewrite root_mk. apply (hook_root z (Some x)). unfold rotated. cbn [upd m_root]. by rewrite reparent_root.
  - apply (rest_hook _ _ _ _ (Some x)); [|apply rotated_ctx|apply rotated_rest].
    intros a Ha. apply Hon, addrs_zip. by left.
Qed.
End rotation.

(** ** Colours and heights *)

Definition redb (t : tree) : bool := match t with T Red _ _ _ _ => true | _ => false end.

(** Every way down passes [n] black nodes. *)
Fixpoint bal (n : nat) (t : tree) : Prop :=
  match t with
  | Leaf => n = 0%nat
  | T Red l _ _ r => bal n l /\ bal n r
  | T Black l _ _ r => match n with O => False | S n => bal n l /\ bal n r end
  end.
(** No red node has a red child. *)
Fixpoint nrr (t : tree) : Prop :=
  match t with
  | Leaf => True
  | T c l _ _ r => (c = Red -> redb l = false /\ redb r = false) /\ nrr l /\ nrr r
  end.
Definition rb (t : tree) : Prop := redb t = false /\ nrr t /\ exists n, bal n t.

(** The same for a context whose hole has the height [n]. *)
Definition up (c : Color) (n : nat) : nat := match c with Red => n | Black => S n end.
Fixpoint cbal (n : nat) (z : ctx) : Prop :=
  match z with
  | [] => True
  | Frame _ c _ _ u :: z => bal n u /\ cbal (up c n) z
  end.
Definition cred (z : ctx) : bool := match z with Frame _ Red _ _ _ :: _ => true | _ => false end.
Fixpoint cnrr (z : ctx) : Prop :=
  match z with
  | [] => True
  | Frame _ c _ _ u :: z => nrr u /\ (c = Red -> redb u = false /\ cred z = false /\ z <> []) /\ cnrr z
  end.

Lemma bal_mk n d c t a k u : bal (up c n) (mk d c t a k u) <-> bal n t /\ bal n u.
Proof. destruct d, c; simpl; tauto. Qed.
Lemma nrr_mk d c t a k u : nrr (mk d c t a k u) <-> (c = Red -> redb t = false /\ redb u = false) /\ nrr t /\ nrr u.
Proof. destruct d; simpl; tauto. Qed.
Lemma redb_mk d c t a k u : redb (mk d c t a k u) = match c with Red => true | Black => false end.
Proof. by destruct d, c. Qed.

Lemma mk_opp d c t a k u : mk (opp d) c t a k u = mk d c u a k t.
Proof. by destruct d. Qed.
Lemma opp_opp d : opp (opp d) = d.
Proof. by destruct d. Qed.
Lemma mk_side d c l a k r : exists l' r', T c l a k r = mk d c l' a k r'.
Proof. destruct d; [by exists l, r|by exists r, l]. Qed.

Lemma bal_zip m z t : bal m t -> cbal m z -> exists n, bal n (zip z t).
Proof.
  revert m t. induction z as [|[d c a k u] z IH]; intros m t Ht; [by exists m|]. intros [Hu Hz]. cbn [zip plug].
  apply (IH (up c m)); [by apply bal_mk|done].
Qed.

Lemma bal_unzip n z t : bal n (zip z t) -> exists m, bal m t /\ cbal m z.
Proof.
  revert t. induction z as [|[d c a k u] z IH]; intros t H; [by exists n|]. cbn [zip plug] in H.
  destruct (IH _ H) as (m & Hm & Hz). destruct c.
  - apply (bal_mk m d Red) in Hm as [? ?]. by exists m.
  - destruct m as [|m]; [by destruct d|]. apply (bal_mk m d Black) in Hm as [? ?]. by exists m.
Qed.

Lemma nrr_zip z t : nrr t -> cnrr z -> (redb t = true -> cred z = false) -> nrr (zip z t).
Proof.
  revert t. induction z as [|[d c a k u] z IH]; intros t Ht; [done|]. intros (Hu & Hc & Hz) Hr. cbn [zip plug].
  apply IH; [|done|].
  - apply nrr_mk. split_and!; [|done|done]. intros ->. destruct (Hc eq_refl) as (? & _). split; [|done].
    destruct (redb t); [|done]. by specialize (Hr eq_refl).
  - rewrite redb_mk. destruct c; [|done]. intros _. by apply Hc.
Qed.

Lemma redb_zip z t : cnrr z -> z <> [] -> redb (zip z t) = false.
Proof.
  revert t. induction z as [|[d c a k u] z IH]; intros t; [done|]. intros (_ & Hc & Hz) _. cbn [zip plug].
  destruct z as [|f z].
  - cbn [zip]. rewrite redb_mk. destruct c; [|done]. by destruct (Hc eq_refl) as (_ & _ & []).
  - by apply IH.
Qed.

Lemma nrr_unzip z t :
  redb (zip z t) = false -> nrr (zip z t) -> nrr t /\ cnrr z /\ (redb t = true -> cred z = false /\ z <> []).
Proof.
  revert t. induction z as [|[d c a k u] z IH]; intros t Hb Hn.
  - split_and!; [done|done|]. cbn [zip] in Hb. congruence.
  - cbn [zip plug] in *. destruct (IH _ Hb Hn) as (Hn' & Hz & Hr). apply nrr_mk in Hn' as (Hc & Ht & Hu).
    rewrite redb_mk in Hr. cbn [cnrr]. split_and!; [done|done| |done|].
    + intros ->. specialize (Hr eq_refl). destruct (Hc eq_refl). tauto.
    + intros Hred. split; [|done]. cbn [cred]. destruct c; [|done]. destruct (Hc eq_refl). congruence.
Qed.

Lemma inorder_mk_color d c c' t a k u : inorder (mk d c t a k u) = inorder (mk d c' t a k u).
Proof. by destruct d. Qed.
Lemma inorder_rotate d c c1 c2 c3 l x kx pl y ky pr :
  inorder (mk d c (mk d c1 l x kx pl) y ky pr) = inorder (mk d c2 l x kx (mk d c3 pl y ky pr)).
Proof. destruct d; cbn [mk inorder]; by rewrite <- app_assoc. Qed.
Lemma inorder_zip_same z t t' : inorder t = inorder t' -> inorder (zip z t) = inorder (zip z t').
Proof. intros E. by rewrite !inorder_zip, E. Qed.
