(* ===== verification/RedBlackTreeInsert.v ===== *)
(** * Red-black trees: insertion

    The loop of [insert_fixups] ends in a red-black tree with the same in-order sequence.
    [wf s l] is the invariant of the whole structure, for the sequence [l] of keys and
    nodes; [insert] keeps it. *)

From stdpp Require Import sorting.
From S2P Require Import Prelude RedBlackTree RedBlackTreeRep.

(** ** Insertion *)

(** One round of the loop, for the side of the parent below the grandparent. *)
Definition insert_round (loop : ptr -> M Tree unit) (d : side) (node : ptr) (n p : Node) (grand_parent : ptr) (g : Node)
    : M Tree unit :=
  let uncle := child (opp d) g in
  uncle_red ← is_red uncle;
  if uncle_red : bool then
    store (parent n) (set_color Black) ;;
    store uncle (set_color Black) ;;
    store grand_parent (set_color Red) ;;
    loop grand_parent
  else
    node ← (if same_ptr (child (opp d) p) node then rotate d (parent n) ;; kret (parent n) else kret node);
    n ← load node;
    store (parent n) (set_color Black) ;;
    store grand_parent (set_color Red) ;;
    rotate (opp d) grand_parent ;;
    loop node.

Lemma insert_fixups_loop_eq fuel node :
  insert_fixups_loop (S fuel) node =
  (n ← load node;
   parent_red ← is_red (parent n);
   if negb parent_red then kret tt else
   p ← load (parent n);
   g ← load (parent p);
   if same_ptr (right_child g) (parent n)
   then insert_round (insert_fixups_loop fuel) R node n p (parent p) g
   else insert_round (insert_fixups_loop fuel) L node n p (parent p) g).
Proof. reflexivity. Qed.

Lemma ok_is_red {B} q p t s (f : bool -> M Tree B) Q :
  rep (nodes s) q t -> root t = p -> ok (f (redb t)) s Q -> ok (kbind (is_red p) f) s Q.
Proof.
  intros Hr <- (b & s' & E & H). exists b, s'. split; [|done]. destruct t as [|c l a k r]; [exact E|].
  destruct Hr as (H1 & _). simpl. rewrite H1. simpl. by destruct c.
Qed.

Lemma on_subtree A s0 s z t : on A s0 s (zip z t) -> rep (nodes s) (top z) t.
Proof. intros [Hr _ _ _ _]. by apply rep_zip in Hr as [? _]. Qed.

Lemma on_sibling A s0 s d c a k u z t : on A s0 s (zip (Frame d c a k u :: z) t) -> rep (nodes s) (Some a) u.
Proof. intros [Hr _ _ _ _]. apply rep_zip in Hr as [_ Hr]. apply Hr. Qed.

Lemma on_frame A s0 s d c a k u z t :
  on A s0 s (zip (Frame d c a k u :: z) t) -> nodes s !! a = Some (mkN d (root t) (root u) (top z) c k).
Proof. intros [Hr _ _ _ _]. apply rep_zip in Hr as [_ Hr]. apply Hr. Qed.

Lemma on_distinct A s0 s d c a k u z t x y :
  on A s0 s (zip (Frame d c a k u :: z) t) -> root t = Some x -> root u = Some y -> x <> y.
Proof.
  intros [_ _ Hnd _ _] Hx%root_elem Hy%root_elem ->. apply NoDup_zip in Hnd as (_ & _ & Hd).
  apply (Hd y); [|done]. apply caddrs_cons. tauto.
Qed.

(** Which child the subtree in the hole is. *)
Lemma on_side A s0 s d c a k u z t x :
  on A s0 s (zip (Frame d c a k u :: z) t) -> root t = Some x ->
  same_ptr (child L (mkN d (root t) (root u) (top z) c k)) (Some x) = bool_decide (d = L) /\
  same_ptr (child R (mkN d (root t) (root u) (top z) c k)) (Some x) = bool_decide (d = R).
Proof.
  intros Hon Hx. assert (root u <> Some x) as Hu.
  { intros Hu. by apply (on_distinct _ _ _ _ _ _ _ _ _ _ _ _ Hon Hx Hu). }
  unfold same_ptr. rewrite Hx. destruct d; cbn [mkN child left_child right_child]; split.
  all: first [by rewrite (bool_decide_true (Some x = Some x))|by rewrite (bool_decide_false (root u = Some x))].
Qed.

Lemma insert_finish_ok A s0 s z d cx xl x kx xr y ky Y g kg w fuel :
  on A s0 s (zip z (mk d Black (mk d Red (T cx xl x kx xr) y ky Y) g kg w)) ->
  ok (n ← load (Some x);
      store (parent n) (set_color Black) ;;
      store (Some g) (set_color Red) ;;
      rotate (opp d) (Some g) ;;
      insert_fixups_loop (S fuel) (Some x)) s
    (fun _ s' => on A s0 s' (zip z (mk d Black (T cx xl x kx xr) y ky (mk d Red Y g kg w)))).
Proof.
  set (X := T cx xl x kx xr). intros Hon.
  eapply ok_load; [apply (on_lookup_T A s0 s (Frame d Red y ky Y :: Frame d Black g kg w :: z) cx xl x kx xr); exact Hon|].
  cbn [parent top]. eapply ok_bind; [apply (recolor_ok A s0 s (Frame d Black g kg w :: z) d Red Black X y ky Y Hon)|].
  intros ? s1 Hon1. cbn beta in Hon1.
  eapply ok_bind; [apply (recolor_ok A s0 s1 z d Black Red (mk d Black X y ky Y) g kg w Hon1)|].
  intros ? s2 Hon2. cbn beta in Hon2. rewrite <- (mk_opp d Red w), <- (mk_opp d Black Y) in Hon2.
  eapply ok_bind; [apply (rotate_ok A s0 s2 z (opp d) Red w g kg Black Y y ky X Hon2)|].
  intros ? s3 Hon3. cbn beta in Hon3. rewrite mk_opp, (mk_opp d Red w) in Hon3.
  rewrite insert_fixups_loop_eq.
  eapply ok_load; [apply (on_lookup_T A s0 s3 (Frame d Black y ky (mk d Red Y g kg w) :: z) cx xl x kx xr); exact Hon3|].
  cbn [parent top].
  eapply ok_is_red; [apply (on_subtree A s0 s3 z (mk d Black X y ky (mk d Red Y g kg w))); exact Hon3|by rewrite root_mk|].
  rewrite redb_mk. cbn [negb]. by apply ok_ret.
Qed.

(** The first node has no right child. *)
Fixpoint lmr (t : tree) : bool :=
  match t with
  | Leaf => true
  | T _ Leaf _ _ r => match r with Leaf => true | _ => false end
  | T _ l _ _ _ => lmr l
  end.

Lemma lmr_T c l a k r : l <> Leaf -> lmr (T c l a k r) = lmr l.
Proof. by destruct l. Qed.

Lemma mk_Leaf d c t a k u : mk d c t a k u <> Leaf.
Proof. by destruct d. Qed.

Lemma zip_Leaf z t : t <> Leaf -> zip z t <> Leaf.
Proof. revert t. induction z as [|[d c a k u] z IH]; intros t Ht; [done|]. apply IH, mk_Leaf. Qed.

Lemma lmr_zip z t t' :
  t <> Leaf -> t' <> Leaf -> (lmr t = true -> lmr t' = true) -> lmr (zip z t) = true -> lmr (zip z t') = true.
Proof.
  revert t t'. induction z as [|[d c a k u] z IH]; intros t t' Ht Ht' Himp; [done|]. cbn [zip plug].
  apply IH; [apply mk_Leaf|apply mk_Leaf|]. destruct d; cbn [mk]; [by rewrite !lmr_T|].
  destruct u; [|done]. cbn [lmr]. by destruct t, t'.
Qed.

(** The result of the loop: the same sequence of nodes, balanced, no red node below a red
    one; only the root may be red. *)
Definition settled (A : list nat) (s0 : Tree) (t0 : tree) (s' : Tree) : Prop :=
  exists t, on A s0 s' t /\ inorder t = inorder t0 /\ (lmr t0 = true -> lmr t = true) /\ nrr t /\ exists n, bal n t.

(** The node is on the inner side of its parent. *)
Lemma inner_rotate_ok A s0 s z d l a k r p kp u g kg w :
  on A s0 s (zip z (mk d Black (mk (opp d) Red (mk d Red l a k r) p kp u) g kg w)) ->
  ok (rotate d (Some p)) s (fun _ s' =>
    on A s0 s' (zip z (mk d Black (mk d Red (mk d Red u p kp l) a k r) g kg w))).
Proof.
  intros Hon. rewrite mk_opp in Hon.
  exact (rotate_ok A s0 s (Frame d Black g kg w :: z) d Red u p kp Red l a k r Hon).
Qed.

Section insert_round.
Context (A : list nat) (s0 : Tree) (fuel : nat).

(** The uncle is black. *)
Lemma insert_rotations_ok s z d dp l a k r p kp u g kg w m :
  on A s0 s (zip (Frame dp Red p kp u :: Frame d Black g kg w :: z) (T Red l a k r)) ->
  redb w = false -> redb l = false -> redb r = false -> redb u = false ->
  nrr l -> nrr r -> nrr u -> nrr w -> cnrr z -> bal m l -> bal m r -> bal m u -> bal m w -> cbal (S m) z ->
  ok (node ← (if bool_decide (dp = opp d) then rotate d (Some p) ;; kret (Some p) else kret (Some a));
      n ← load node;
      store (parent n) (set_color Black) ;;
      store (Some g) (set_color Red) ;;
      rotate (opp d) (Some g) ;;
      insert_fixups_loop (S fuel) node) s
    (fun _ s' => settled A s0 (zip (Frame dp Red p kp u :: Frame d Black g kg w :: z) (T Red l a k r)) s').
Proof.
  intros Hon Cw Cl Cr Cu Nl Nr Nu Nw Nz Bl Br Bu Bw Bz. destruct (decide (dp = opp d)) as [->|Hdp].
  - rewrite bool_decide_true by done. destruct (mk_side d Red l a k r) as (l' & r' & E).
    assert (redb l' = false /\ redb r' = false /\ nrr l' /\ nrr r' /\ bal m l' /\ bal m r') as (Cl' & Cr' & Nl' & Nr' & Bl' & Br')
      by (destruct d; injection E as <- <-; done).
    rewrite E in *. clear E l r Cl Cr Nl Nr Bl Br. cbn [zip plug] in *.
    apply (ok_bind _ _ _ (fun node s1 => node = Some p /\ on A s0 s1 (zip z (mk d Black (mk d Red (mk d Red u p kp l') a k r') g kg w)))).
    { eapply ok_bind; [by apply inner_rotate_ok|]. intros ? s1 H1. by apply ok_ret. }
    intros ? s1 [-> Hon1].
    assert (exists xl xr, mk d Red u p kp l' = T Red xl p kp xr) as (xl & xr & EX) by (destruct d; eauto).
    rewrite EX in Hon1. eapply ok_mono; [by apply insert_finish_ok|]. cbn beta. rewrite <- EX. intros ? s2 Hon2. eexists. split_and!; [exact Hon2| | | |].
    + apply inorder_zip_same. rewrite mk_opp.
      destruct d; cbn [mk inorder]; rewrite <- ?app_assoc; cbn [app]; rewrite <- ?app_assoc; done.
    + apply lmr_zip; [apply mk_Leaf|apply mk_Leaf|]. rewrite mk_opp. destruct d; cbn [mk]; [by destruct u|by destruct w].
    + apply nrr_zip; [|done|by rewrite redb_mk]. rewrite !nrr_mk. split_and!; try done.
    + apply (bal_zip (S m)); [|done]. apply (bal_mk m d Black). split; [by apply (bal_mk m d Red)|by apply (bal_mk m d Red)].
  - rewrite bool_decide_false by done. assert (dp = d) as -> by (by destruct dp, d).
    eapply ok_bind; [by apply (ok_ret (Some a) s (fun x s1 => x = Some a /\ s1 = s))|]. intros ? ? [-> ->].
    eapply ok_mono; [by apply insert_finish_ok|]. intros ? s2 Hon2. cbn beta in Hon2. eexists. split_and!; [exact Hon2| | | |].
    + cbn [zip plug]. apply inorder_zip_same. destruct d; cbn [mk inorder]; rewrite <- ?app_assoc; cbn [app]; rewrite <- ?app_assoc; done.
    + cbn [zip plug]. apply lmr_zip; [apply mk_Leaf|apply mk_Leaf|]. destruct d; cbn [mk opp]; [by destruct u|by destruct w].
    + apply nrr_zip; [|done|by rewrite redb_mk]. rewrite !nrr_mk. cbn [nrr]. split_and!; try done.
    + apply (bal_zip (S m)); [|done]. apply (bal_mk m d Black). split; [done|by apply (bal_mk m d Red)].
Qed.
End insert_round.

Lemma uncle_red_ok A s0 s z d dp t p kp u g kg wl wa wk wr :
  on A s0 s (zip (Frame dp Red p kp u :: Frame d Black g kg (T Red wl wa wk wr) :: z) t) ->
  ok (store (Some p) (set_color Black) ;;
      store (Some wa) (set_color Black) ;;
      store (Some g) (set_color Red)) s
    (fun _ s' => on A s0 s' (zip z (mk d Red (mk dp Black t p kp u) g kg (T Black wl wa wk wr)))).
Proof.
  intros Hon. set (w := T Red wl wa wk wr) in *.
  eapply ok_bind; [apply (recolor_ok A s0 s (Frame d Black g kg w :: z) dp Red Black t p kp u); exact Hon|].
  intros ? s1 Hon1. cbn beta in Hon1. cbn [zip plug] in Hon1. rewrite <- mk_opp in Hon1.
  eapply ok_bind; [apply (recolor_ok A s0 s1 (Frame (opp d) Black g kg (mk dp Black t p kp u) :: z) L Red Black wl wa wk wr); exact Hon1|].
  intros ? s2 Hon2. cbn beta in Hon2. cbn [zip plug] in Hon2. rewrite mk_opp in Hon2.
  exact (recolor_ok A s0 s2 z d Black Red _ g kg _ Hon2).
Qed.

Lemma ok_seq_assoc {A B C} (m1 : M Tree A) (m2 : M Tree B) (f : B -> M Tree C) s Q :
  ok (b ← (m1 ;; m2); f b) s Q -> ok (m1 ;; b ← m2; f b) s Q.
Proof. unfold ok. simpl. by destruct (m1 s) as [[a|e|] s1]. Qed.

Lemma ok_unbind {A} (m : M Tree A) s Q : ok (a ← m; kret a) s Q -> ok m s Q.
Proof. unfold ok. simpl. by destruct (m s) as [[a|e|] s1]. Qed.

Lemma ok_group {A B C D} (m1 : M Tree A) (m2 : M Tree B) (m3 : M Tree C) (f : C -> M Tree D) s Q :
  ok (c ← (m1 ;; m2 ;; m3); f c) s Q -> ok (m1 ;; m2 ;; c ← m3; f c) s Q.
Proof. unfold ok. simpl. destruct (m1 s) as [[a|e|] s1]; [|done|done]. by destruct (m2 s1) as [[b|e|] s2]. Qed.

Lemma insert_round_ok A s0 s fuel d dp l a k r p kp u g kg w z m :
  let z0 := Frame dp Red p kp u :: Frame d Black g kg w :: z in
  (forall s1 l1 a1 k1 r1, on A s0 s1 (zip z (T Red l1 a1 k1 r1)) -> redb l1 = false -> redb r1 = false -> nrr l1 -> nrr r1 ->
     bal (S m) l1 -> bal (S m) r1 ->
     ok (insert_fixups_loop (S fuel) (Some a1)) s1 (fun _ s' => settled A s0 (zip z (T Red l1 a1 k1 r1)) s')) ->
  on A s0 s (zip z0 (T Red l a k r)) -> redb l = false -> redb r = false -> nrr l -> nrr r ->
  bal m l -> bal m r -> cbal m z0 -> cnrr z0 ->
  ok (insert_round (insert_fixups_loop (S fuel)) d (Some a) (mkNode (root l) (root r) (Some p) Red k)
        (mkN dp (Some a) (root u) (Some g) Red kp) (Some g) (mkN d (Some p) (root w) (top z) Black kg)) s
    (fun _ s' => settled A s0 (zip z0 (T Red l a k r)) s').
Proof.
  cbn zeta. intros IH Hon Cl Cr Nl Nr Bl Br (Bu & Bw & Bz) (Nu & Hu & Nw & _ & Nz). destruct (Hu eq_refl) as (Cu & _).
  unfold insert_round. rewrite child_opp. cbn zeta.
  eapply ok_is_red; [apply (on_sibling A s0 s d Black g kg w z (mk dp Red (T Red l a k r) p kp u)); exact Hon|done|].
  destruct (redb w) eqn:Cw.
  - destruct w as [|[] wl wa wk wr]; try done. cbn [parent root].
    apply ok_group. eapply ok_bind; [apply (uncle_red_ok A s0 s z d dp (T Red l a k r) p kp u g kg wl wa wk wr Hon)|].
    intros ? s1 Hon1. cbn beta in Hon1.
    assert (exists l1 r1, mk d Red (mk dp Black (T Red l a k r) p kp u) g kg (T Black wl wa wk wr) = T Red l1 g kg r1 /\
      redb l1 = false /\ redb r1 = false /\ nrr l1 /\ nrr r1 /\ bal (S m) l1 /\ bal (S m) r1) as (l1 & r1 & E1 & C1 & C2 & N1 & N2 & B1 & B2).
    { cbn [nrr bal] in Nw, Bw. assert (bal (S m) (mk dp Black (T Red l a k r) p kp u)) as HB by by apply (bal_mk m dp Black).
      assert (nrr (mk dp Black (T Red l a k r) p kp u)) as HN by (apply nrr_mk; split_and!; done).
      assert (nrr (T Black wl wa wk wr)) as HW by (cbn [nrr]; split; [done|tauto]).
      destruct d; cbn [mk]; eexists _, _; (split; [done|]); rewrite ?redb_mk; by split_and!. }
    rewrite E1 in Hon1. eapply ok_mono; [apply IH; done|]. intros ? s2 (t & H1 & H2 & H3 & H4). exists t.
    split; [done|]. cbn [zip plug]. split; [|split; [|done]].
    + rewrite H2, <- E1. apply inorder_zip_same. by destruct d, dp.
    + intros Hl. apply H3. rewrite <- E1. revert Hl. apply lmr_zip; [apply mk_Leaf|apply mk_Leaf|]. by destruct d, dp, u.
  - cbn [parent]. assert (same_ptr (child (opp d) (mkN dp (Some a) (root u) (Some g) Red kp)) (Some a) = bool_decide (dp = opp d)) as ->.
    { destruct (on_side _ _ _ _ _ _ _ _ _ _ a Hon eq_refl) as [H1 H2]. cbn [root top] in H1, H2. destruct d; cbn [opp]; done. }
    eapply insert_rotations_ok; try done.
Qed.

Lemma insert_loop_ok A s0 fuel s z l a k r m :
  on A s0 s (zip z (T Red l a k r)) -> redb l = false -> redb r = false -> nrr l -> nrr r ->
  bal m l -> bal m r -> cbal m z -> cnrr z -> (length z < fuel)%nat ->
  ok (insert_fixups_loop fuel (Some a)) s (fun _ s' => settled A s0 (zip z (T Red l a k r)) s').
Proof.
  revert s z l a k r m. induction fuel as [|fuel IH]; intros s z l a k r m Hon Cl Cr Nl Nr Bl Br Bz Nz Hf; [lia|].
  rewrite insert_fixups_loop_eq. eapply ok_load; [by apply on_lookup_T in Hon|]. cbn [parent].
  assert (cred z = false -> settled A s0 (zip z (T Red l a k r)) s) as Hexit.
  { intros Hz. eexists. split_and!; [done|done|done| |by apply (bal_zip m)]. by apply nrr_zip. }
  destruct z as [|[dp c p kp u] z]; [by apply ok_ret, Hexit|].
  eapply ok_is_red; [apply (on_subtree A s0 s z (mk dp c (T Red l a k r) p kp u)); exact Hon|by rewrite root_mk|].
  rewrite redb_mk. destruct c; [|by apply ok_ret, Hexit]. cbn [negb].
  pose proof Nz as (_ & Hu & _). destruct (Hu eq_refl) as (_ & Hcred & Hne).
  destruct z as [|[d [] g kg w] z]; [done|done|].
  eapply ok_load; [by apply on_frame in Hon|]. rewrite mkN_parent. cbn [top].
  eapply ok_load; [apply (on_frame A s0 s d Black g kg w z (mk dp Red (T Red l a k r) p kp u)); exact Hon|].
  rewrite root_mk. destruct (on_side A s0 s d Black g kg w z (mk dp Red (T Red l a k r) p kp u) p Hon (root_mk _ _ _ _ _ _)) as [_ Hside].
  rewrite root_mk in Hside. cbn [child] in Hside. rewrite Hside. cbn [length] in Hf. destruct fuel as [|fuel]; [lia|].
  assert (ok (insert_round (insert_fixups_loop (S fuel)) d (Some a) (mkNode (root l) (root r) (Some p) Red k)
        (mkN dp (Some a) (root u) (Some g) Red kp) (Some g) (mkN d (Some p) (root w) (top z) Black kg)) s
    (fun _ s' => settled A s0 (zip (Frame dp Red p kp u :: Frame d Black g kg w :: z) (T Red l a k r)) s')) as Hround.
  { eapply insert_round_ok; try done. intros s1 l1 a1 k1 r1 ? ? ? ? ? ? ?. destruct Bz as (_ & _ & Bz), Nz as (_ & _ & _ & _ & Nz).
    apply (IH s1 z l1 a1 k1 r1 (S m)); try done. lia. }
  destruct d; [rewrite bool_decide_false by done|rewrite bool_decide_true by done]; exact Hround.
Qed.

Lemma length_zip z t : (length z + length (addrs t) <= length (addrs (zip z t)))%nat.
Proof.
  rewrite addrs_zip_perm, length_app. enough (length z <= length (caddrs z))%nat by lia.
  induction z as [|[d c a k u] z IH]; [done|]. unfold caddrs in *. rewrite length_app in *.
  destruct d; cbn [before after length]; rewrite ?length_fmap, ?length_app in *; cbn [length] in *;
    rewrite ?length_app, ?length_fmap in *; cbn [length]; lia.
Qed.

(** Blackening the root ends it. *)
Lemma blacken_ok A s0 s t0 :
  settled A s0 t0 s -> t0 <> Leaf ->
  ok (root ← gets m_root; store root (set_color Black)) s
    (fun _ s' => exists t, on A s0 s' t /\ inorder t = inorder t0 /\ (lmr t0 = true -> lmr t = true) /\ rb t).
Proof.
  intros (t & Hon & Hin & Hl & Hn & n & Hb) Ht0. apply ok_gets. rewrite (o_root _ _ _ _ Hon).
  destruct t as [|c l a k r]; [destruct t0 as [|? l0 ? ? ?]; [done|]; cbn [inorder] in Hin; by destruct (inorder l0)|].
  eapply ok_mono; [apply (recolor_ok A s0 s [] L c Black l a k r Hon)|]. intros ? s' Hon'. exists (T Black l a k r).
  split_and!; [done|by rewrite <- Hin| |]; [done|].
  cbn [bal nrr] in Hb, Hn. destruct Hn as [_ Hn]. split_and!; [done|by cbn [nrr]|]. destruct c; [by exists (S n)|by exists n].
Qed.

Lemma insert_fixups_ok A s0 s z a k :
  on A s0 s (zip z (T Red Leaf a k Leaf)) -> cbal 0 z -> cnrr z ->
  ok (insert_fixups (Some a)) s (fun _ s' => exists t, on A s0 s' t /\ inorder t = before z ++ (k, a) :: after z /\
    (lmr (zip z (T Red Leaf a k Leaf)) = true -> lmr t = true) /\ rb t).
Proof.
  intros Hon Hb Hn. unfold insert_fixups. eapply ok_load; [by apply on_lookup_T in Hon|]. apply ok_VERIFY; [done|]. apply ok_gets.
  eapply ok_bind.
  { eapply insert_loop_ok; try done. pose proof (on_fuel _ _ _ _ Hon). pose proof (length_zip z (T Red Leaf a k Leaf)). lia. }
  intros ? s1 Hs. eapply ok_mono; [apply blacken_ok in Hs; [exact Hs|]|].
  - by apply zip_Leaf.
  - intros ? s2 (t & H1 & H2 & H3 & H4). exists t. by rewrite inorder_zip in H2.
Qed.

(** ** The place of a new key *)

Definition sorted (l : list (Z * nat)) : Prop := StronglySorted (fun x y => x.1 <= y.1) l.

Lemma sorted_app l1 l2 : sorted (l1 ++ l2) <-> sorted l1 /\ sorted l2 /\ forall x y, x ∈ l1 -> y ∈ l2 -> x.1 <= y.1.
Proof. unfold sorted. rewrite StronglySorted_app. tauto. Qed.

Lemma sorted_cons x l : sorted (x :: l) <-> sorted l /\ forall y, y ∈ l -> x.1 <= y.1.
Proof. unfold sorted. split; [intros H; inversion H; subst; by rewrite <- Forall_forall|]. intros [H1 H2]. constructor; [done|by apply Forall_forall]. Qed.

Lemma sorted_T c l a k r :
  sorted (inorder (T c l a k r)) <->
  sorted (inorder l) /\ sorted (inorder r) /\ (forall x, x ∈ inorder l -> x.1 <= k) /\ (forall x, x ∈ inorder r -> k <= x.1) /\
  (forall x y, x ∈ inorder l -> y ∈ inorder r -> x.1 <= y.1).
Proof.
  cbn [inorder]. rewrite sorted_app, sorted_cons. setoid_rewrite elem_of_cons. split.
  - intros (H1 & (H2 & H3) & H4). split_and!; try done; intros; [by apply (H4 x (k, a)); [|left]|by apply H4; [|right]].
  - intros (H1 & H2 & H3 & H4 & H5). split_and!; try done. intros x y Hx [->|Hy]; [by apply H3|by apply H5].
Qed.

(** All keys up to [k] are before the hole, all greater ones after it. *)
Definition place (k : Z) (z : ctx) : Prop := (forall x, x ∈ before z -> x.1 <= k) /\ (forall x, x ∈ after z -> k < x.1).

Lemma place_cons k d c a ka u z :
  place k z -> (d = L -> k < ka /\ forall x, x ∈ inorder u -> k < x.1) -> (d = R -> ka <= k /\ forall x, x ∈ inorder u -> x.1 <= k) ->
  place k (Frame d c a ka u :: z).
Proof.
  intros [H1 H2] HL HR. split; destruct d; cbn [before after]; intros x; rewrite ?elem_of_app, ?elem_of_cons, ?elem_of_app, ?elem_of_nil.
  - apply H1.
  - destruct (HR eq_refl) as [? ?]. intros [?|[?|[->|[]]]]; auto.
  - destruct (HL eq_refl) as [? ?]. intros [->|[?|?]]; auto.
  - apply H2.
Qed.

Lemma descend_ok A s0 s fuel k z t :
  on A s0 s (zip z t) -> sorted (inorder t) -> (length (addrs t) < fuel)%nat -> place k z ->
  ok (descend fuel k (top z) (root t)) s (fun p s' => s' = s /\ exists z', p = top z' /\ zip z' Leaf = zip z t /\ place k z').
Proof.
  revert fuel z. induction t as [|c l IHl a ka r IHr]; intros fuel z Hon Hs Hf Hp.
  - destruct fuel as [|fuel]; [lia|]. apply ok_ret. split; [done|]. by exists z.
  - destruct fuel as [|fuel]; [lia|]. apply sorted_T in Hs as (Sl & Sr & Hl & Hr & _).
    rewrite addrs_T, length_app in Hf. cbn [length] in Hf. cbn [descend root]. eapply ok_load; [by apply on_lookup_T in Hon|]. cbn [key left_child right_child].
    destruct (Z.ltb_spec k ka).
    + apply (IHl fuel (Frame L c a ka r :: z)); [done|done|lia|]. apply place_cons; [done| |done].
      intros _. split; [done|]. intros x Hx%Hr. lia.
    + apply (IHr fuel (Frame R c a ka l :: z)); [done|done|lia|]. apply place_cons; [done|done|].
      intros _. split; [done|]. intros x Hx%Hl. lia.
Qed.

(** The new node in an empty place. *)
Lemma link_ok A s0 s z d c p kp u a k q :
  on A s0 s (zip (Frame d c p kp u :: z) Leaf) -> a ∈ A -> a ∉ addrs (zip (Frame d c p kp u :: z) Leaf) ->
  nodes s !! a = Some (mkNode None None q Red k) ->
  ok (store (Some p) (set_child d (Some a)) ;; store (Some a) (set_parent (Some p))) s
    (fun _ s' => on A s0 s' (zip (Frame d c p kp u :: z) (T Red Leaf a k Leaf))).
Proof.
  intros Hon HaA Ha Hla. pose proof (on_frame _ _ _ _ _ _ _ _ _ _ Hon) as Hlp. pose proof Hon as [Hrep Hroot Hnd Hsub Hrest].
  apply rep_zip in Hrep as [_ Hcr]. apply NoDup_zip in Hnd as (N1 & _ & _). rewrite addrs_zip in Ha.
  assert (a <> p) as Hap by (intros ->; apply Ha; left; apply caddrs_cons; tauto).
  eapply ok_store; [exact Hlp|]. autorewrite with mkN.
  eapply ok_store_last; [cbn [upd nodes]; by rewrite lookup_insert_ne|].
  change (upd p _ s) with (hook (Frame d c p kp u :: z) (Some a) s). set (z0 := Frame d c p kp u :: z) in *.
  assert (crep (nodes (hook z0 (Some a) s)) z0 (Some a)) as Hcr' by by apply (hook_ctx z0 None).
  split.
  - apply rep_zip. split; [|apply crep_insert; [tauto|done]]. cbn [upd nodes rep]. by rewrite lookup_insert_eq.
  - rewrite root_zip. by rewrite root_zip in Hroot.
  - apply NoDup_zip. unfold addrs at 1 2. cbn [inorder app fmap list_fmap snd]. split_and!; [done|apply NoDup_singleton|].
    intros x Hx ->%list_elem_of_singleton. tauto.
  - intros x. rewrite addrs_zip. intros [Hx|Hx]; [apply Hsub, addrs_zip; by left|]. unfold addrs in Hx. cbn in Hx.
    by apply list_elem_of_singleton in Hx as ->.
  - apply rest_upd; [done|rewrite hook_lookup by tauto; by eexists|]. apply (rest_hook _ _ _ _ None); [|done|done].
    intros x Hx. apply Hsub, addrs_zip. by left.
Qed.

Lemma first_left h p t x l : rep h p t -> inorder t = x :: l -> exists n, h !! x.2 = Some n /\ left_child n = None.
Proof.
  revert p l. induction t as [|c t1 IH a k t2 _]; intros p l; [done|]. intros (H1 & H2 & _). cbn [inorder].
  destruct (inorder t1) as [|y l1] eqn:E.
  - intros [= <- <-]. cbn [snd]. eexists. split; [exact H1|]. cbn [left_child]. destruct t1 as [|? t3 ? ? ?]; [done|].
    cbn [inorder] in E. by destruct (inorder t3).
  - intros [= -> _]. by apply (IH _ l1 H2).
Qed.

Lemma second_left h p t x y l :
  rep h p t -> inorder t = x :: y :: l -> lmr t = true -> exists n, h !! y.2 = Some n /\ left_child n = Some x.2.
Proof.
  revert p l. induction t as [|c t1 IH a k t2 _]; intros p l; [done|]. intros (H1 & H2 & _) E Hl.
  assert (t1 = Leaf \/ t1 <> Leaf) as [->|Ht1] by (destruct t1; [by left|by right]).
  - destruct t2; [|done]. done.
  - rewrite lmr_T in Hl by done. cbn [inorder] in E. destruct (inorder t1) as [|x' [|y' l1]] eqn:E1.
    + destruct t1 as [|? t3 ? ? ?]; [done|]. cbn [inorder] in E1. by destruct (inorder t3).
    + injection E as -> <- _. cbn [snd]. eexists. split; [exact H1|]. cbn [left_child].
      destruct t1 as [|? t3 a3 k3 t4]; [done|]. cbn [root]. cbn [inorder] in E1. destruct (inorder t3) as [|? l3] eqn:E3.
      * by injection E1 as <- _.
      * injection E1 as _ E1. by destruct l3.
    + injection E as -> -> _. by apply (IH _ l1 H2).
Qed.

(** ** The well-formed trees *)

(** The list of keys and nodes that a tree stands for. *)
Record wf (s : Tree) (l : list (Z * nat)) : Prop := {
  w_tree : exists t, rep (nodes s) None t /\ m_root s = root t /\ inorder t = l /\ rb t;
  w_sorted : sorted l;
  w_nodup : NoDup l.*2;
  w_size : m_size s = Z.of_nat (length l);
  w_minimum : m_minimum s = snd <$> head l;
  w_in_tree : m_in_tree s = list_to_set l.*2;
  w_heap : Z.of_nat (size (nodes s)) < 2 ^ 64 }.

(** A new key goes behind the keys equal to it. *)
Fixpoint insert_key (x : Z * nat) (l : list (Z * nat)) : list (Z * nat) :=
  match l with
  | [] => [x]
  | y :: l => if x.1 <? y.1 then x :: y :: l else y :: insert_key x l
  end.

Lemma insert_key_place k a z : place k z -> insert_key (k, a) (before z ++ after z) = before z ++ (k, a) :: after z.
Proof.
  intros [H1 H2]. induction (before z) as [|x l IH]; cbn [app insert_key].
  - destruct (after z) as [|y l]; [done|]. cbn [insert_key fst]. destruct (Z.ltb_spec k y.1); [done|].
    specialize (H2 y ltac:(left)). lia.
  - cbn [fst]. destruct (Z.ltb_spec k x.1); [specialize (H1 x ltac:(left)); lia|]. f_equal. apply IH.
    intros y Hy. apply H1. by right.
Qed.

Lemma insert_key_perm x l : insert_key x l ≡ₚ x :: l.
Proof. induction l as [|y l IH]; [done|]. cbn [insert_key]. destruct (_ <? _); [done|]. rewrite IH. apply Permutation_swap. Qed.

Lemma insert_key_sorted x l : sorted l -> sorted (insert_key x l).
Proof.
  induction l as [|y l IH]; intros Hs; cbn [insert_key].
  - apply sorted_cons. split; [done|]. intros y Hy. by apply elem_of_nil in Hy.
  - destruct (Z.ltb_spec x.1 y.1); apply sorted_cons.
    + split; [done|]. apply sorted_cons in Hs as [_ Hs]. intros w [->|Hw]%elem_of_cons; [lia|]. specialize (Hs w Hw). lia.
    + apply sorted_cons in Hs as [Hs Hy]. split; [by apply IH|]. intros w. rewrite insert_key_perm. intros [->|Hw]%elem_of_cons; [lia|by apply Hy].
Qed.

(** A node that was just made. *)
Definition fresh (a : nat) (s : Tree) : Prop := exists k, nodes s !! a = Some (mkNode None None None Red k).

Lemma before_nil_lmr z t : t <> Leaf -> before z = [] -> lmr (zip z t) = lmr t.
Proof.
  revert t. induction z as [|[[] c a k u] z IH]; intros t Ht Hb; [done| |].
  - cbn [zip plug mk before] in *. by rewrite IH, lmr_T.
  - cbn [before] in Hb. by destruct (before z), (inorder u).
Qed.

(** The last statement of [insert]: the new node is the new minimum when it is the left
    child of the old one. *)
Lemma minimum_ok s t z a k x l :
  rep (nodes s) None t -> inorder t = before z ++ (k, a) :: after z -> (lmr (zip z (T Red Leaf a k Leaf)) = true -> lmr t = true) ->
  m_minimum s = snd <$> head (before z ++ after z) -> before z ++ after z = x :: l ->
  ok (minimum ← gets m_minimum; m ← load minimum; if same_ptr (left_child m) (Some a) then set_minimum (Some a) else kret tt) s
    (fun _ s' => s' = mkTree (nodes s) (m_root s) (m_size s) (snd <$> head (before z ++ (k, a) :: after z)) (m_in_tree s)).
Proof.
  intros Hrep Hin Hl Hm Hx. apply ok_gets. rewrite Hm. rewrite Hx at 1. cbn [head fmap option_fmap option_map].
  destruct (before z) as [|y l1] eqn:E.
  - cbn [app] in *. destruct (second_left _ _ _ _ _ _ Hrep (eq_trans Hin (f_equal (cons (k, a)) Hx))) as (n & Hn & Hc).
    { apply Hl. by rewrite before_nil_lmr. }
    eapply ok_load; [exact Hn|]. rewrite Hc. cbn [snd]. unfold same_ptr. rewrite bool_decide_true by done. by eexists _, _.
  - cbn [app] in *. destruct (first_left _ _ _ _ _ Hrep Hin) as (n & Hn & Hc). injection Hx as -> _.
    eapply ok_load; [exact Hn|]. rewrite Hc. apply ok_ret. destruct s; cbn in *. by rewrite Hm.
Qed.

Lemma wf_on s l A : wf s l -> (forall a, a ∈ l.*2 -> a ∈ A) -> exists t, on A s s t /\ inorder t = l /\ rb t.
Proof.
  intros [(t & H1 & H2 & H3 & H4) _ Hnd _ _ _ _] HA. exists t. split; [|done]. split; try done; unfold addrs; rewrite H3; try done.
Qed.

Lemma wf_length s l : wf s l -> Z.of_nat (length l) < 2 ^ 64.
Proof.
  intros Hwf. destruct (wf_on s l l.*2 Hwf) as (t & Hon & Hin & _); [done|]. pose proof (on_fuel _ _ _ _ Hon) as Hf.
  unfold addrs in Hf. rewrite length_fmap, Hin in Hf. unfold fuel_of in Hf. pose proof (w_heap _ _ Hwf). lia.
Qed.

(** The insertion of a node that is not in the tree, in a heap that has room to count it. *)
Lemma fresh_length s l a : wf s l -> a ∉ l.*2 -> is_Some (nodes s !! a) -> Z.of_nat (S (length l)) < 2 ^ 64.
Proof.
  intros Hwf Ha Hs. pose proof (w_heap _ _ Hwf) as Hh. rewrite <- size_dom in Hh.
  assert (list_to_set (C := gset nat) (a :: l.*2) ⊆ dom (nodes s)) as Hsub.
  { destruct (w_tree _ _ Hwf) as (t & Hrep & _ & Hin & _). intros x Hx%elem_of_list_to_set. apply elem_of_dom.
    apply elem_of_cons in Hx as [->|Hx]; [done|]. apply (rep_lookup _ None t); [done|]. unfold addrs. by rewrite Hin. }
  apply subseteq_size in Hsub. rewrite size_list_to_set in Hsub by (constructor; [done|apply (w_nodup _ _ Hwf)]).
  cbn [length] in Hsub. rewrite length_fmap in Hsub. lia.
Qed.

(** The state after the insertion of the node [a]. *)
Definition inserted (s : Tree) (l : list (Z * nat)) (a : nat) (l' : list (Z * nat)) (s' : Tree) : Prop :=
  exists s1 t, on (a :: l.*2) s s1 t /\ inorder t = l' /\ rb t /\
    s' = mkTree (nodes s1) (m_root s1) (Z.of_nat (length l')) (snd <$> head l') (m_in_tree s1).

Section insert_node.
Context (s : Tree) (l : list (Z * nat)) (a : nat) (k : Z).
Context (Hwf : wf s l) (Ha : a ∉ l.*2) (Hla : nodes s !! a = Some (mkNode None None None Red k)).

Lemma insert_first_ok : l = [] ->
  ok (store (Some a) (set_color Black) ;; set_root (Some a) ;; set_size 1 ;; set_minimum (Some a)) s
    (fun _ s' => inserted s l a [(k, a)] s').
Proof using Hwf Ha Hla.
  intros ->. eapply ok_store; [exact Hla|]. eexists _, _. split; [reflexivity|].
  set (s1 := upd a (set_color Black (mkNode None None None Red k)) s).
  exists (mkTree (nodes s1) (Some a) (m_size s) (m_minimum s) (m_in_tree s)), (T Black Leaf a k Leaf).
  split_and!; [|done|by split_and!; [| |exists 1%nat]|done]. split; try done.
  - cbn. by rewrite lookup_insert_eq.
  - apply NoDup_singleton.
  - destruct (rest_upd [a] s s a (set_color Black (mkNode None None None Red k))) as [H1 H2 H3 H4 H5]; [set_solver|by eexists|apply rest_refl|].
    by split.
Qed.

Definition grown (z : ctx) (s1 : Tree) : Prop :=
  exists t, on (a :: l.*2) s s1 t /\ inorder t = insert_key (k, a) l /\ rb t /\
    (lmr (zip z (T Red Leaf a k Leaf)) = true -> lmr t = true).

Lemma insert_below_ok z d c p kp u (cont : unit -> M Tree unit) Q :
  on (a :: l.*2) s s (zip (Frame d c p kp u :: z) Leaf) -> inorder (zip (Frame d c p kp u :: z) Leaf) = l ->
  rb (zip (Frame d c p kp u :: z) Leaf) -> place k (Frame d c p kp u :: z) ->
  (forall s1, grown (Frame d c p kp u :: z) s1 -> ok (cont tt) s1 Q) ->
  ok (p' ← load (Some p);
      (if k <? key p' then store (Some p) (set_left (Some a)) else store (Some p) (set_right (Some a))) ;;
      store (Some a) (set_parent (Some p)) ;;
      p' ← load (Some p);
      u ← (if non_null (parent p') then insert_fixups (Some a) else kret tt); cont u) s Q.
Proof using Hwf Ha Hla.
  intros Hon Hl (Hred & Hn & n & Hb) Hp Hcont. eapply ok_load; [by apply on_frame in Hon|].
  assert ((if k <? key (mkN d (root Leaf) (root u) (top z) c kp) then store (Some p) (set_left (Some a)) else store (Some p) (set_right (Some a)))
    = store (Some p) (set_child d (Some a))) as ->.
  { destruct Hp as [H1 H2]. destruct d; cbn [mkN key before after] in *.
    - rewrite (proj2 (Z.ltb_lt _ _)); [done|]. apply (H2 (kp, p)). left.
    - rewrite (proj2 (Z.ltb_ge _ _)); [done|]. apply (H1 (kp, p)). set_solver. }
  apply bal_unzip in Hb as (m & Hm & Hcb). cbn [bal] in Hm. subst m. apply nrr_unzip in Hn as (_ & Hcn & _); [|done].
  assert (insert_key (k, a) l = before (Frame d c p kp u :: z) ++ (k, a) :: after (Frame d c p kp u :: z)) as Hkey.
  { rewrite <- Hl, inorder_zip. cbn [inorder app]. by apply insert_key_place. }
  apply (ok_seq_assoc (store (Some p) (set_child d (Some a))) (store (Some a) (set_parent (Some p)))). eapply ok_bind.
  { eapply link_ok; [done|set_solver| |done]. unfold addrs. by rewrite Hl. }
  intros ? s1 Hon1. cbn beta in Hon1. eapply ok_load; [by apply on_frame in Hon1|]. autorewrite with mkN.
  apply (ok_bind _ _ _ (fun _ => grown (Frame d c p kp u :: z))); [|by intros []]. unfold grown. rewrite Hkey. destruct z as [|f z].
  - apply ok_ret. eexists. split; [exact Hon1|]. split; [by rewrite inorder_zip|]. split; [|done]. cbn [zip plug] in *.
    destruct Hcn as (Hnu & Hc & _). destruct c; [by destruct (Hc eq_refl) as (_ & _ & [])|].
    split_and!; [by rewrite redb_mk|by apply nrr_mk; split_and!|]. exists 1%nat. apply (bal_mk 0 d Black). split; [done|apply Hcb].
  - replace (non_null (top (f :: z))) with true by by destruct f. cbn iota.
    eapply ok_mono; [by apply insert_fixups_ok|]. intros ? s2 (t & H1 & H2 & H3 & H4). by exists t.
Qed.

Lemma insert_node_ok : ok (insert_node (Some a)) s (fun _ s' => inserted s l a (insert_key (k, a) l) s').
Proof using Hwf Ha Hla.
  destruct (wf_on s l (a :: l.*2) Hwf) as (t & Hon & Hin & Hrb); [set_solver|].
  unfold insert_node. apply ok_VERIFY; [done|]. do 2 apply ok_gets. eapply ok_load; [exact Hla|]. cbn [key].
  eapply ok_bind.
  { rewrite (o_root _ _ _ _ Hon). apply (descend_ok _ _ _ _ _ [] t Hon); [rewrite Hin; by apply Hwf|by eapply on_fuel|].
    split; intros x Hx; by apply elem_of_nil in Hx. }
  intros ? ? (-> & z & -> & Hz & Hp). cbn [zip] in Hz. rewrite <- Hz in Hon, Hin, Hrb. clear Hz t.
  destruct z as [|[d c p kp u] z]; cbn [top non_null negb].
  { cbn in Hin. replace (insert_key (k, a) l) with [(k, a)] by by rewrite <- Hin. apply insert_first_ok. by rewrite <- Hin. }
  eapply insert_below_ok; try done. intros s1 (t & Hon1 & Hin1 & Hrb1 & Hl). do 1 apply ok_gets. apply ok_modify.
  assert (l = before (Frame d c p kp u :: z) ++ after (Frame d c p kp u :: z)) as Hl' by (rewrite <- Hin; apply inorder_zip).
  assert (insert_key (k, a) l = before (Frame d c p kp u :: z) ++ (k, a) :: after (Frame d c p kp u :: z)) as Hkey.
  { rewrite Hl'. by apply insert_key_place. }
  assert (m_size s1 = Z.of_nat (length l)) as Hsz by (rewrite (e_size _ _ _ (o_rest _ _ _ _ Hon1)); by apply Hwf).
  assert (Z.of_nat (S (length l)) < 2 ^ 64) as Hlen by (by apply (fresh_length s l a); [| |eexists]).
  set (s2 := mkTree _ _ _ _ _).
  assert (m_minimum s2 = snd <$> head l) as Hmin by (subst s2; cbn [m_minimum]; rewrite (e_minimum _ _ _ (o_rest _ _ _ _ Hon1)); by apply Hwf).
  destruct (before (Frame d c p kp u :: z) ++ after (Frame d c p kp u :: z)) as [|x l'] eqn:El.
  { apply app_nil in El as [E1 E2]. destruct d; cbn [before after] in E1, E2; [done|]. by destruct (before z), (inorder u). }
  eapply ok_mono; [apply (minimum_ok s2 t (Frame d c p kp u :: z) a k x l'); [apply Hon1|by rewrite <- Hkey|done|by rewrite El, <- Hl'|done]|].
  intros ? s3 ->. exists s1, t. rewrite <- Hkey. split_and!; [done|done|done|]. subst s2. cbn [nodes m_root m_size m_in_tree]. f_equal.
  rewrite Hsz, (Permutation_length (insert_key_perm _ _)). cbn [length]. rewrite wrap_small; unfold in_width; lia.
Qed.
End insert_node.

Lemma wf_upd s l a n : wf s l -> a ∉ l.*2 -> is_Some (nodes s !! a) -> wf (upd a n s) l.
Proof.
  intros [(t & H1 & H2 & H3 & H4) ? ? ? ? ? Hh] Ha Hs. split; try done.
  - exists t. split_and!; try done. apply rep_insert; [|done]. unfold addrs. by rewrite H3.
  - cbn [upd nodes]. by rewrite map_size_insert_Some.
Qed.

Lemma rest_trans_upd A s0 s a n : a ∈ A -> is_Some (nodes s0 !! a) -> rest A (upd a n s0) s -> rest A s0 s.
Proof.
  intros Ha Hs [H1 H2 H3 H4 H5]. split; try done.
  - intros b Hb. rewrite H1 by done. cbn [upd nodes]. apply lookup_insert_ne. by intros ->.
  - rewrite H2. cbn [upd nodes]. rewrite dom_insert_L. apply elem_of_dom in Hs. set_solver.
Qed.


Lemma insert_ok s l a k :
  wf s l -> a ∉ l.*2 -> fresh a s ->
  ok (insert k (Some a)) s (fun _ s' => wf s' (insert_key (k, a) l) /\
    forall b, b ∉ (a :: l.*2) -> nodes s' !! b = nodes s !! b).
Proof.
  intros Hwf Ha [k0 Hla]. unfold insert. apply ok_gets. apply ok_VERIFY.
  { apply bool_decide_true. cbn [id]. rewrite (w_in_tree _ _ Hwf). by rewrite elem_of_list_to_set. }
  eapply ok_store; [exact Hla|]. cbn [set_key left_child right_child parent color].
  pose proof (wf_upd s l a (mkNode None None None Red k) Hwf Ha ltac:(by eexists)) as Hwf1.
  eapply ok_bind; [apply (insert_node_ok _ l a k Hwf1 Ha); cbn [upd nodes]; by rewrite lookup_insert_eq|].
  intros ? s2 (s1 & t & Hon & Hin & Hrb & ->). eexists _, _. split; [reflexivity|].
  assert (rest (a :: l.*2) s s1) as Hrest by (apply (rest_trans_upd _ _ _ a (mkNode None None None Red k)); [left|by eexists|apply Hon]). split.
  - assert ((insert_key (k, a) l).*2 ≡ₚ a :: l.*2) as Hperm by by rewrite insert_key_perm.
    split; cbn [nodes m_root m_size m_minimum m_in_tree]; try done.
    + exists t. split_and!; [apply Hon|apply Hon|done|done].
    + apply insert_key_sorted, Hwf.
    + rewrite Hperm. constructor; [done|apply Hwf].
    + rewrite (e_in_tree _ _ _ Hrest), (w_in_tree _ _ Hwf). apply set_eq. intros x.
      rewrite elem_of_union, elem_of_singleton, !elem_of_list_to_set, Hperm, elem_of_cons. done.
    + pose proof (w_heap _ _ Hwf) as Hh. by rewrite <- size_dom, (e_dom _ _ _ Hrest), size_dom.
  - intros b Hb. cbn [nodes]. by apply (e_other _ _ _ Hrest).
Qed.
