(* ===== verification/RedBlackTreeSearch.v ===== *)
(** * Red-black trees: searching and neighbours

    The three searches, the height of a red-black tree, [successor] and [predecessor]. *)

From stdpp Require Import sorting.
From S2P Require Import Prelude RedBlackTree RedBlackTreeRep RedBlackTreeInsert.

(** ** Searching *)

Fixpoint depth (t : tree) : nat := match t with Leaf => 0 | T _ l _ _ r => S (Nat.max (depth l) (depth r)) end.

Lemma depth_length t : (depth t <= length (inorder t))%nat.
Proof. induction t as [|c l IHl a k r IHr]; [done|]. cbn [depth inorder]. rewrite length_app. cbn [length]. lia. Qed.

(** The nodes below a black height double with it. *)
Lemma bal_depth n t : bal n t -> nrr t -> (depth t <= 2 * n + (if redb t then 1 else 0))%nat /\ (2 ^ n <= S (length (inorder t)))%nat.
Proof.
  revert n. induction t as [|c l IHl a k r IHr]; intros n Hb Hn; [cbn [bal] in Hb; subst n; split; cbn; lia|]. destruct Hn as (Hc & Hl & Hr).
  cbn [depth inorder redb]. rewrite length_app. cbn [length]. destruct c; cbn [bal] in Hb.
  - destruct Hb as [Bl Br]. destruct (Hc eq_refl) as [Cl Cr]. destruct (IHl n Bl Hl) as [D1 P1], (IHr n Br Hr) as [D2 P2].
    rewrite Cl in D1. rewrite Cr in D2. lia.
  - destruct n as [|n]; [done|]. destruct Hb as [Bl Br]. destruct (IHl n Bl Hl) as [D1 P1], (IHr n Br Hr) as [D2 P2].
    cbn [Nat.pow]. destruct (redb l), (redb r); lia.
Qed.

Lemma rb_depth t : rb t -> (depth t <= 2 * Nat.log2 (S (length (inorder t))))%nat.
Proof.
  intros (Hr & Hn & n & Hb). destruct (bal_depth n t Hb Hn) as [Hd Hp]. rewrite Hr in Hd.
  apply Nat.log2_le_pow2 in Hp; lia.
Qed.

Lemma find_loop_ok s p t fuel k :
  rep (nodes s) p t -> sorted (inorder t) -> (depth t < fuel)%nat ->
  ok (find_loop fuel (root t) k) s (fun q s' => s' = s /\
    match q with Some a => (k, a) ∈ inorder t | None => forall x, x ∈ inorder t -> x.1 <> k end).
Proof.
  revert p fuel. induction t as [|c l IHl a ka r IHr]; intros p fuel Hrep Hs Hf; (destruct fuel as [|fuel]; [lia|]).
  { apply ok_ret. split; [done|]. intros x Hx. by apply elem_of_nil in Hx. }
  destruct Hrep as (H1 & H2 & H3). apply sorted_T in Hs as (Sl & Sr & Hl & Hr & _). cbn [depth] in Hf.
  cbn [find_loop root]. eapply ok_load; [exact H1|]. cbn [key left_child right_child inorder].
  destruct (Z.eqb_spec ka k) as [->|Hne]; [apply ok_ret; split; [done|set_solver]|].
  assert (forall x, x ∈ inorder l ++ (ka, a) :: inorder r <-> x ∈ inorder l \/ x = (ka, a) \/ x ∈ inorder r) as Hin
    by (intros x; by rewrite elem_of_app, elem_of_cons).
  destruct (Z.ltb_spec k ka).
  - eapply ok_mono; [apply (IHl (Some a) fuel); [done|done|lia]|]. intros q ? (-> & Hq). split; [done|].
    destruct q as [b|]; [apply Hin; by left|]. intros x [Hx| [->|Hx]]%Hin; [by apply Hq|done|]. specialize (Hr x Hx). lia.
  - eapply ok_mono; [apply (IHr (Some a) fuel); [done|done|lia]|]. intros q ? (-> & Hq). split; [done|].
    destruct q as [b|]; [apply Hin; by right; right|]. intros x [Hx| [->|Hx]]%Hin; [|done|by apply Hq]. specialize (Hl x Hx). lia.
Qed.

(** [q] is the last of the nodes of [l] with a key up to [k], or [none] when there is no such node. *)
Definition largest_not_above (k : Z) (l : list (Z * nat)) (none q : ptr) : Prop :=
  (q = none /\ forall x, x ∈ l -> k < x.1) \/
  (exists a ka, q = Some a /\ (ka, a) ∈ l /\ ka <= k /\ forall x, x ∈ l -> x.1 <= k -> x.1 <= ka).
Definition smallest_not_below (k : Z) (l : list (Z * nat)) (none q : ptr) : Prop :=
  (q = none /\ forall x, x ∈ l -> x.1 < k) \/
  (exists a ka, q = Some a /\ (ka, a) ∈ l /\ k <= ka /\ forall x, x ∈ l -> k <= x.1 -> ka <= x.1).

Lemma find_largest_loop_ok s p t fuel k cand :
  rep (nodes s) p t -> sorted (inorder t) -> (depth t < fuel)%nat ->
  ok (find_largest_loop fuel (root t) k cand) s (fun q s' => s' = s /\ largest_not_above k (inorder t) cand q).
Proof.
  revert p fuel cand. induction t as [|c l IHl a ka r IHr]; intros p fuel cand Hrep Hs Hf; (destruct fuel as [|fuel]; [lia|]).
  { apply ok_ret. split; [done|]. left. split; [done|]. intros x Hx. by apply elem_of_nil in Hx. }
  destruct Hrep as (H1 & H2 & H3). apply sorted_T in Hs as (Sl & Sr & Hl & Hr & _). cbn [depth] in Hf.
  cbn [find_largest_loop root]. eapply ok_load; [exact H1|]. cbn [key left_child right_child inorder].
  assert (forall x, x ∈ inorder l ++ (ka, a) :: inorder r <-> x ∈ inorder l \/ x = (ka, a) \/ x ∈ inorder r) as Hin
    by (intros x; by rewrite elem_of_app, elem_of_cons).
  destruct (Z.eqb_spec k ka) as [->|Hne]; [|destruct (Z.ltb_spec k ka)].
  - apply ok_ret. split; [done|]. right. exists a, ka. split_and!; [done|apply Hin; tauto|lia|done].
  - eapply ok_mono; [apply (IHl (Some a) fuel); [done|done|lia]|]. intros q ? (-> & [[-> Hq]|(b & kb & -> & Hb & Hle & Hq)]); (split; [done|]).
    + left. split; [done|]. intros x [Hx|[->|Hx]]%Hin; [by apply Hq|done|]. specialize (Hr x Hx). lia.
    + right. exists b, kb. split_and!; [done|apply Hin; tauto|done|]. intros x [Hx|[->|Hx]]%Hin; [by apply Hq|cbn [fst]; lia|]. specialize (Hr x Hx). lia.
  - eapply ok_mono; [apply (IHr (Some a) fuel); [done|done|lia]|]. intros q ? (-> & [[-> Hq]|(b & kb & -> & Hb & Hle & Hq)]); (split; [done|right]).
    + exists a, ka. split_and!; [done|apply Hin; tauto|lia|]. intros x [Hx|[->|Hx]]%Hin ?; [by apply Hl|done|]. specialize (Hq x Hx). lia.
    + exists b, kb. split_and!; [done|apply Hin; tauto|done|]. specialize (Hr _ Hb). cbn [fst] in Hr.
      intros x [Hx|[->|Hx]]%Hin ?; [specialize (Hl x Hx); lia|done|by apply Hq].
Qed.

Lemma find_smallest_loop_ok s p t fuel k cand :
  rep (nodes s) p t -> sorted (inorder t) -> (depth t < fuel)%nat ->
  ok (find_smallest_loop fuel (root t) k cand) s (fun q s' => s' = s /\ smallest_not_below k (inorder t) cand q).
Proof.
  revert p fuel cand. induction t as [|c l IHl a ka r IHr]; intros p fuel cand Hrep Hs Hf; (destruct fuel as [|fuel]; [lia|]).
  { apply ok_ret. split; [done|]. left. split; [done|]. intros x Hx. by apply elem_of_nil in Hx. }
  destruct Hrep as (H1 & H2 & H3). apply sorted_T in Hs as (Sl & Sr & Hl & Hr & _). cbn [depth] in Hf.
  cbn [find_smallest_loop root]. eapply ok_load; [exact H1|]. cbn [key left_child right_child inorder].
  assert (forall x, x ∈ inorder l ++ (ka, a) :: inorder r <-> x ∈ inorder l \/ x = (ka, a) \/ x ∈ inorder r) as Hin
    by (intros x; by rewrite elem_of_app, elem_of_cons).
  destruct (Z.eqb_spec ka k) as [->|Hne]; [|destruct (Z.leb_spec ka k)].
  - apply ok_ret. split; [done|]. right. exists a, k. split_and!; [done|apply Hin; tauto|lia|done].
  - eapply ok_mono; [apply (IHr (Some a) fuel); [done|done|lia]|]. intros q ? (-> & [[-> Hq]|(b & kb & -> & Hb & Hle & Hq)]); (split; [done|]).
    + left. split; [done|]. intros x [Hx|[->|Hx]]%Hin; [|cbn [fst]; lia|by apply Hq]. specialize (Hl x Hx). lia.
    + right. exists b, kb. split_and!; [done|apply Hin; tauto|done|]. intros x [Hx|[->|Hx]]%Hin; [|cbn [fst]; lia|by apply Hq]. specialize (Hl x Hx). lia.
  - eapply ok_mono; [apply (IHl (Some a) fuel); [done|done|lia]|]. intros q ? (-> & [[-> Hq]|(b & kb & -> & Hb & Hle & Hq)]); (split; [done|right]).
    + exists a, ka. split_and!; [done|apply Hin; tauto|lia|]. intros x [Hx|[->|Hx]]%Hin ?; [|done|by apply Hr]. specialize (Hq x Hx). lia.
    + exists b, kb. split_and!; [done|apply Hin; tauto|done|]. specialize (Hl _ Hb). cbn [fst] in Hl.
      intros x [Hx|[->|Hx]]%Hin ?; [by apply Hq|done|specialize (Hr x Hx); lia].
Qed.

(** More fuel than the depth makes no difference. *)
Section fuel.
Context (s : Tree) (k : Z).

Lemma find_loop_fuel p t f1 f2 : rep (nodes s) p t -> (depth t < f1)%nat -> (depth t < f2)%nat -> find_loop f1 (root t) k s = find_loop f2 (root t) k s.
Proof.
  revert p f1 f2. induction t as [|c l IHl a ka r IHr]; intros p f1 f2 Hrep H1 H2; (destruct f1, f2; [lia..|]); [done|].
  destruct Hrep as (E & Rl & Rr). cbn [depth] in *. simpl. rewrite E. simpl.
  destruct (_ =? _); [done|]. destruct (_ <? _); [eapply IHl|eapply IHr]; first [eassumption|lia].
Qed.
Lemma find_largest_loop_fuel p t f1 f2 cand :
  rep (nodes s) p t -> (depth t < f1)%nat -> (depth t < f2)%nat -> find_largest_loop f1 (root t) k cand s = find_largest_loop f2 (root t) k cand s.
Proof.
  revert p f1 f2 cand. induction t as [|c l IHl a ka r IHr]; intros p f1 f2 cand Hrep H1 H2; (destruct f1, f2; [lia..|]); [done|].
  destruct Hrep as (E & Rl & Rr). cbn [depth] in *. simpl. rewrite E. simpl.
  destruct (_ =? _); [done|]. destruct (_ <? _); [eapply IHl|eapply IHr]; first [eassumption|lia].
Qed.
Lemma find_smallest_loop_fuel p t f1 f2 cand :
  rep (nodes s) p t -> (depth t < f1)%nat -> (depth t < f2)%nat -> find_smallest_loop f1 (root t) k cand s = find_smallest_loop f2 (root t) k cand s.
Proof.
  revert p f1 f2 cand. induction t as [|c l IHl a ka r IHr]; intros p f1 f2 cand Hrep H1 H2; (destruct f1, f2; [lia..|]); [done|].
  destruct Hrep as (E & Rl & Rr). cbn [depth] in *. simpl. rewrite E. simpl.
  destruct (_ =? _); [done|]. destruct (_ <=? _); [eapply IHr|eapply IHl]; first [eassumption|lia].
Qed.
Lemma descend_fuel p t f1 f2 q : rep (nodes s) p t -> (depth t < f1)%nat -> (depth t < f2)%nat -> descend f1 k q (root t) s = descend f2 k q (root t) s.
Proof.
  revert p f1 f2 q. induction t as [|c l IHl a ka r IHr]; intros p f1 f2 q Hrep H1 H2; (destruct f1, f2; [lia..|]); [done|].
  destruct Hrep as (E & Rl & Rr). cbn [depth] in *. simpl. rewrite E. simpl.
  destruct (_ <? _); [eapply IHl|eapply IHr]; first [eassumption|lia].
Qed.
Lemma descend_returns p t f q : rep (nodes s) p t -> (depth t < f)%nat -> exists r, descend f k q (root t) s = (Ok r, s).
Proof.
  revert p f q. induction t as [|c l IHl a ka r IHr]; intros p f q Hrep H1; (destruct f; [lia|]); [by exists q|].
  destruct Hrep as (E & Rl & Rr). cbn [depth] in *. simpl. rewrite E. simpl.
  destruct (_ <? _); [eapply IHl|eapply IHr]; first [eassumption|lia].
Qed.
End fuel.

(** ** Neighbours *)

Lemma inorder_nil t : inorder t = [] -> t = Leaf.
Proof. destruct t as [|c l a k r]; [done|]. cbn [inorder]. by destruct (inorder l). Qed.

Lemma leftmost_ok s p t fuel x l :
  rep (nodes s) p t -> inorder t = x :: l -> (depth t <= fuel)%nat ->
  ok (leftmost fuel (root t)) s (fun q s' => s' = s /\ q = Some x.2).
Proof.
  revert p fuel l. induction t as [|c tl IH a k tr _]; intros p fuel l Hrep Hin Hf; [done|]. destruct fuel as [|fuel]; cbn [depth] in Hf; [lia|].
  destruct Hrep as (H1 & H2 & _). cbn [leftmost root]. eapply ok_load; [exact H1|]. cbn [left_child]. cbn [inorder] in Hin.
  destruct (inorder tl) as [|y l1] eqn:E.
  - apply inorder_nil in E as ->. apply ok_ret. by injection Hin as <- _.
  - injection Hin as -> _. destruct tl; [done|]. cbn [root non_null]. apply (IH (Some a) fuel l1); [done|done|lia].
Qed.

Lemma rightmost_ok s p t fuel x l :
  rep (nodes s) p t -> inorder t = l ++ [x] -> (depth t <= fuel)%nat ->
  ok (rightmost fuel (root t)) s (fun q s' => s' = s /\ q = Some x.2).
Proof.
  revert p fuel l. induction t as [|c tl _ a k tr IH]; intros p fuel l Hrep Hin Hf; [by destruct l|]. destruct fuel as [|fuel]; cbn [depth] in Hf; [lia|].
  destruct Hrep as (H1 & _ & H2). cbn [rightmost root]. eapply ok_load; [exact H1|]. cbn [right_child]. cbn [inorder] in Hin.
  assert (inorder tr = [] \/ exists l1 y, inorder tr = l1 ++ [y]) as [E|(l1 & y & E)] by (destruct (inorder tr) using rev_ind; eauto).
  - apply inorder_nil in E as ->. apply ok_ret. by apply app_inj_tail in Hin as [_ <-].
  - rewrite E, app_comm_cons, app_assoc in Hin. apply app_inj_tail in Hin as [_ ->].
    destruct tr; [by destruct l1|]. cbn [root non_null]. apply (IH (Some a) fuel l1); [done|done|lia].
Qed.

Lemma climb_right_ok A s0 s z t fuel a :
  on A s0 s (zip z t) -> root t = Some a -> (length z < fuel)%nat ->
  ok (climb_right fuel (Some a) (top z)) s (fun q s' => s' = s /\ q = snd <$> head (after z)).
Proof.
  revert t fuel a. induction z as [|[d c p kp u] z IH]; intros t fuel a Hon Ha Hf; cbn [length] in Hf; (destruct fuel as [|fuel]; [lia|]).
  { by apply ok_ret. }
  cbn [climb_right top]. eapply ok_load; [by apply on_frame in Hon|].
  destruct (on_side _ _ _ _ _ _ _ _ _ _ a Hon Ha) as [_ Hside]. cbn [child] in Hside. unfold same_ptr in *.
  rewrite (bool_decide_ext (Some a = _) (right_child (mkN d (root t) (root u) (top z) c kp) = Some a)) by (split; congruence).
  rewrite Hside. rewrite mkN_parent. destruct d.
  - rewrite bool_decide_false by done. by apply ok_ret.
  - rewrite bool_decide_true by done. apply (IH (plug (Frame R c p kp u) t)); [done|done|lia].
Qed.

Lemma climb_left_ok A s0 s z t fuel a :
  on A s0 s (zip z t) -> root t = Some a -> (length z < fuel)%nat ->
  ok (climb_left fuel (Some a) (top z)) s (fun q s' => s' = s /\ q = snd <$> last (before z)).
Proof.
  revert t fuel a. induction z as [|[d c p kp u] z IH]; intros t fuel a Hon Ha Hf; cbn [length] in Hf; (destruct fuel as [|fuel]; [lia|]).
  { by apply ok_ret. }
  cbn [climb_left top]. eapply ok_load; [by apply on_frame in Hon|].
  destruct (on_side _ _ _ _ _ _ _ _ _ _ a Hon Ha) as [Hside _]. cbn [child] in Hside. unfold same_ptr in *.
  rewrite (bool_decide_ext (Some a = _) (left_child (mkN d (root t) (root u) (top z) c kp) = Some a)) by (split; congruence).
  rewrite Hside. rewrite mkN_parent. destruct d.
  - rewrite bool_decide_true by done. apply (IH (plug (Frame L c p kp u) t)); [done|done|lia].
  - rewrite bool_decide_false by done. apply ok_ret. split; [done|]. cbn [before]. by rewrite app_assoc, last_snoc.
Qed.

(** The way to a node of the sequence. *)
Lemma focus t l1 k a l2 :
  inorder t = l1 ++ (k, a) :: l2 ->
  exists z c l r, t = zip z (T c l a k r) /\ before z ++ inorder l = l1 /\ inorder r ++ after z = l2.
Proof.
  enough (forall z, inorder t = l1 ++ (k, a) :: l2 -> exists z' c l r, zip z t = zip z' (T c l a k r) /\
    before z' ++ inorder l = before z ++ l1 /\ inorder r ++ after z' = l2 ++ after z) as H.
  { intros E. destruct (H [] E) as (z' & c & l & r & H1 & H2 & H3). exists z', c, l, r. by rewrite app_nil_r in H3. }
  revert l1 l2. induction t as [|c tl IHl b kb tr IHr]; intros l1 l2 z E; [by destruct l1|]. cbn [inorder] in E.
  apply app_eq_app in E as (m & [[E1 E2]|[E1 E2]]).
  - destruct m as [|y m].
    + rewrite app_nil_r in E1. injection E2 as -> -> ->. exists z, c, tl, tr. by subst l1.
    + injection E2 as <- ->. destruct (IHl l1 m (Frame L c b kb tr :: z) E1) as (z' & c' & l & r & H1 & H2 & H3).
      exists z', c', l, r. split_and!; [done|done|]. rewrite H3. cbn [after]. by rewrite <- app_assoc.
  - destruct m as [|y m].
    + injection E2 as <- <- <-. exists z, c, tl, tr. rewrite app_nil_r in E1. by subst l1.
    + injection E2 as <- E2. destruct (IHr m l2 (Frame R c b kb tl :: z) E2) as (z' & c' & l & r & H1 & H2 & H3).
      exists z', c', l, r. split_and!; [done| |done]. rewrite H2, E1. cbn [before]. by rewrite <- !app_assoc.
Qed.

Lemma ctx_length z : (length z <= length (caddrs z))%nat.
Proof. pose proof (length_zip z Leaf) as H. rewrite addrs_zip_perm in H. cbn in H. rewrite length_app in H. cbn [length] in H. lia. Qed.

Lemma depth_zip z t : (depth t + length z <= length (addrs (zip z t)))%nat.
Proof.
  rewrite addrs_zip_perm, length_app. pose proof (depth_length t). pose proof (ctx_length z). unfold addrs. rewrite length_fmap. lia.
Qed.

Lemma successor_ok A s0 s z c l a k r :
  on A s0 s (zip z (T c l a k r)) ->
  ok (successor (Some a)) s (fun q s' => s' = s /\ q = snd <$> head (inorder r ++ after z)).
Proof.
  intros Hon. pose proof (on_fuel _ _ _ _ Hon) as Hf. pose proof (depth_zip z (T c l a k r)) as Hd. cbn [depth] in Hd.
  unfold successor. apply ok_VERIFY; [done|]. apply ok_gets. eapply ok_load; [by apply on_lookup_T in Hon|]. cbn [right_child parent].
  destruct r as [|cr rl b kb rr].
  - apply (climb_right_ok A s0 s z (T c l a k Leaf)); [done|done|lia].
  - cbn [root non_null]. set (r := T cr rl b kb rr) in *. destruct (inorder r) as [|x l1] eqn:E; [by apply inorder_nil in E|].
    eapply ok_mono; [apply (leftmost_ok s (Some a) r _ x l1); [|done|lia]|done].
    apply on_subtree in Hon. apply Hon.
Qed.

Lemma predecessor_ok A s0 s z c l a k r :
  on A s0 s (zip z (T c l a k r)) ->
  ok (predecessor (Some a)) s (fun q s' => s' = s /\ q = snd <$> last (before z ++ inorder l)).
Proof.
  intros Hon. pose proof (on_fuel _ _ _ _ Hon) as Hf. pose proof (depth_zip z (T c l a k r)) as Hd. cbn [depth] in Hd.
  unfold predecessor. apply ok_VERIFY; [done|]. apply ok_gets. eapply ok_load; [by apply on_lookup_T in Hon|]. cbn [left_child parent].
  destruct l as [|cl ll b kb lr].
  - cbn [inorder]. rewrite app_nil_r. apply (climb_left_ok A s0 s z (T c Leaf a k r)); [done|done|lia].
  - cbn [root non_null]. set (l := T cl ll b kb lr) in *.
    assert (inorder l = [] \/ exists l1 y, inorder l = l1 ++ [y]) as [E|(l1 & y & E)] by (destruct (inorder l) using rev_ind; eauto).
    { by apply inorder_nil in E. }
    eapply ok_mono; [apply (rightmost_ok s (Some a) l _ y l1); [|done|lia]|].
    + apply on_subtree in Hon. apply Hon.
    + intros q ? [-> ->]. by rewrite E, app_assoc, last_snoc.
Qed.
