(* ===== verification/RedBlackTreeRemove.v ===== *)
(** * Red-black trees: removal

    [remove] exchanges a node that has two children with its successor by rewriting their
    pointers, takes the node out and repairs the colours.  The two halves, pointers and
    colours, are proved apart. *)

From stdpp Require Import sorting.
From S2P Require Import Prelude RedBlackTree RedBlackTreeRep RedBlackTreeInsert RedBlackTreeSearch.

(** ** Removal: the colours *)

(** One round of the loop, for the side of the node below its parent. *)
Definition remove_round (d : side) (parent_node : ptr) (p : Node) : M Tree ptr :=
  s ← load (child (opp d) p);
  (if decide (color s = Red) then
     store (child (opp d) p) (set_color Black) ;;
     store parent_node (set_color Red) ;;
     rotate d parent_node
   else kret tt) ;;
  p ← load parent_node;
  let sibling := child (opp d) p in
  s ← load sibling;
  left_red ← is_red (left_child s);
  right_red ← is_red (right_child s);
  if negb left_red && negb right_red then
    store sibling (set_color Red) ;;
    kret parent_node
  else
    (if negb (match d with L => right_red | R => left_red end) then
       store (child d s) (set_color Black) ;;
       store sibling (set_color Red) ;;
       rotate (opp d) sibling
     else kret tt) ;;
    p ← load parent_node;
    let sibling := child (opp d) p in
    store sibling (set_color (color p)) ;;
    store parent_node (set_color Black) ;;
    s ← load sibling;
    store (child (opp d) s) (set_color Black) ;;
    rotate d parent_node ;;
    gets m_root.

Lemma remove_fixups_loop_eq fuel node parent_node :
  remove_fixups_loop (S fuel) node parent_node =
  (root ← gets m_root;
   node_red ← is_red node;
   if same_ptr node root || node_red then kret node else
   p ← load parent_node;
   node ← (if same_ptr (left_child p) node then remove_round L parent_node p else remove_round R parent_node p);
   n ← load node;
   remove_fixups_loop fuel node (parent n)).
Proof. reflexivity. Qed.

Section red_sibling.
Context (A : list nat) (s0 : Tree) (d : side) (p : nat) (kp : Z) (t : tree) (z : ctx) (m : nat) (l : list (Z * nat)).

(** A red sibling goes above the parent; the node has a black sibling then. *)
Definition black_sibling (s' : Tree) : Prop :=
  exists c' u' z', on A s0 s' (zip (Frame d c' p kp u' :: z') t) /\ redb u' = false /\
    cbal (S m) (Frame d c' p kp u' :: z') /\ cnrr (Frame d c' p kp u' :: z') /\ (c' = Red \/ z' = z) /\
    inorder (zip (Frame d c' p kp u' :: z') t) = l.

Lemma red_sibling_ok s c u (f : unit -> M Tree ptr) Q w :
  on A s0 s (zip (Frame d c p kp u :: z) t) -> cbal (S m) (Frame d c p kp u :: z) -> cnrr (Frame d c p kp u :: z) ->
  inorder (zip (Frame d c p kp u :: z) t) = l -> root u = Some w -> (forall s', black_sibling s' -> ok (f tt) s' Q) ->
  ok (n ← load (Some w);
      x ← (if decide (color n = Red) then store (Some w) (set_color Black) ;; store (Some p) (set_color Red) ;; rotate d (Some p) else kret tt);
      f x) s Q.
Proof.
  intros Hon Hb Hn Hin Hw Hf. destruct u as [|cu ul w' kw ur]; [done|]. injection Hw as ->. destruct (mk_side d cu ul w kw ur) as (x & y & E).
  rewrite E in *. clear E ul ur.
  eapply ok_load; [pose proof (on_sibling _ _ _ _ _ _ _ _ _ _ Hon) as H; by apply rep_mk in H as [H _]|]. rewrite mkN_color.
  destruct cu; [rewrite decide_True by done|rewrite decide_False by done].
  - destruct Hn as (Hnu & Hc & Hnz). destruct c; [by destruct (Hc eq_refl) as (H & _); rewrite redb_mk in H|].
    destruct Hb as [Hbu Hbz]. apply (bal_mk (S m) d Red) in Hbu as [Bx By]. apply nrr_mk in Hnu as (Hxy & Nx & Ny). destruct (Hxy eq_refl) as [Cx Cy].
    apply (ok_bind _ _ _ (fun _ => black_sibling)); [|intros []; apply Hf]. cbn [zip plug] in Hon. rewrite <- mk_opp in Hon.
    eapply ok_bind; [apply (recolor_ok A s0 s (Frame (opp d) Black p kp t :: z) d Red Black x w kw y); exact Hon|].
    intros ? s1 Hon1. cbn beta in Hon1. cbn [zip plug] in Hon1. rewrite mk_opp in Hon1.
    eapply ok_bind; [apply (recolor_ok A s0 s1 z d Black Red t p kp _ Hon1)|].
    intros ? s2 Hon2. cbn beta in Hon2.
    eapply ok_mono; [apply (rotate_ok A s0 s2 z d Red t p kp Black x w kw y Hon2)|]. intros ? s3 Hon3. cbn beta in Hon3.
    exists Red, x, (Frame d Black w kw y :: z). split_and!; try done.
    + by left.
    + rewrite <- Hin. cbn [zip plug]. apply inorder_zip_same, inorder_rotate.
  - eapply ok_bind; [by apply (ok_ret tt s (fun _ s1 => s1 = s))|]. intros [] ? ->. apply Hf.
    exists c, (mk d Black x w kw y), z. split_and!; try done; [by rewrite redb_mk|by right].
Qed.
End red_sibling.

(** The subtrees below the root have no red node below a red one. *)
Definition weak (t : tree) : Prop := match t with Leaf => True | T _ l _ _ r => nrr l /\ nrr r end.

Lemma weak_black t : weak t -> redb t = false -> nrr t.
Proof. destruct t as [|[] l a k r]; [done|done|]. intros [H1 H2] _. by split. Qed.
Lemma weak_mk d c t a k u : nrr t -> nrr u -> weak (mk d c t a k u).
Proof. by destruct d. Qed.

(** What a round leaves: the missing black node is one level up, or the tree is whole. *)
Definition lifted (A : list nat) (s0 : Tree) (z : ctx) (p : nat) (l : list (Z * nat)) (s' : Tree) : Prop :=
  exists t' z' n, on A s0 s' (zip z' t') /\ root t' = Some p /\ inorder (zip z' t') = l /\ bal n t' /\ cbal (S n) z' /\ weak t' /\
    cnrr z' /\ (redb t' = true \/ z' = z).
Definition whole (A : list nat) (s0 : Tree) (l : list (Z * nat)) (q : ptr) (s' : Tree) : Prop :=
  exists t', on A s0 s' t' /\ q = root t' /\ t' <> Leaf /\ inorder t' = l /\ rb t'.

Section finish.
Context (A : list nat) (s0 : Tree) (d : side) (c : Color) (p : nat) (kp : Z) (t : tree) (z : ctx) (m : nat) (l : list (Z * nat)).
Context (Bt : bal m t) (Nt : nrr t) (Ct : redb t = false).
Context (Bz : cbal (up c (S m)) z) (Nz : cnrr z) (Hcz : c = Red -> cred z = false /\ z <> []).

(** The outer child of the sibling is red: one rotation. *)
Lemma outer_red_ok s x w kw yl y ky yr :
  on A s0 s (zip z (mk d c t p kp (mk d Black x w kw (mk d Red yl y ky yr)))) ->
  inorder (zip z (mk d c t p kp (mk d Black x w kw (mk d Red yl y ky yr)))) = l ->
  bal m x -> bal m yl -> bal m yr -> nrr x -> nrr yl -> nrr yr ->
  ok (n ← load (Some p);
      let sibling := child (opp d) n in
      store sibling (set_color (color n)) ;;
      store (Some p) (set_color Black) ;;
      s ← load sibling;
      store (child (opp d) s) (set_color Black) ;;
      rotate d (Some p) ;;
      gets m_root) s (whole A s0 l).
Proof using All.
  intros Hon Hin Bx Byl Byr Nx Nyl Nyr. eapply ok_load; [by apply on_lookup in Hon|]. autorewrite with mkN. rewrite root_mk. cbn zeta.
  rewrite <- mk_opp in Hon.
  eapply ok_bind; [apply (recolor_ok A s0 s (Frame (opp d) c p kp t :: z) d Black c x w kw (mk d Red yl y ky yr)); exact Hon|].
  intros ? s1 Hon1. cbn beta in Hon1. cbn [zip plug] in Hon1. rewrite mk_opp in Hon1.
  eapply ok_bind; [apply (recolor_ok A s0 s1 z d c Black t p kp _ Hon1)|]. intros ? s2 Hon2. cbn beta in Hon2. rewrite <- mk_opp in Hon2.
  eapply ok_load; [apply (on_lookup A s0 s2 (Frame (opp d) Black p kp t :: z) d c x w kw (mk d Red yl y ky yr)); exact Hon2|].
  autorewrite with mkN. rewrite root_mk. rewrite <- (mk_opp d c (mk d Red yl y ky yr)) in Hon2.
  eapply ok_bind; [apply (recolor_ok A s0 s2 (Frame (opp d) c w kw x :: Frame (opp d) Black p kp t :: z) d Red Black yl y ky yr); exact Hon2|].
  intros ? s3 Hon3. cbn beta in Hon3. cbn [zip plug] in Hon3. rewrite !mk_opp in Hon3.
  eapply ok_bind; [apply (rotate_ok A s0 s3 z d Black t p kp c x w kw (mk d Black yl y ky yr) Hon3)|].
  intros ? s4 Hon4. cbn beta in Hon4. eexists _, _. split; [reflexivity|]. eexists. split_and!; [exact Hon4|by apply Hon4| | |].
  - apply zip_Leaf, mk_Leaf.
  - rewrite <- Hin. apply inorder_zip_same. rewrite (inorder_rotate d c Black c c). destruct d; cbn [mk inorder]; done.
  - split_and!.
    + destruct z as [|f z1]; [|by apply redb_zip]. cbn [zip]. rewrite redb_mk. destruct c; [|done]. by destruct (Hcz eq_refl).
    + apply nrr_zip; [|done|]; [|rewrite redb_mk; destruct c; [intros _; by apply Hcz|done]].
      rewrite !nrr_mk, !redb_mk. by split_and!.
    + apply (bal_zip (up c (S m))); [|done]. apply bal_mk. split; by apply (bal_mk m d Black).
Qed.

(** Only the inner child of the sibling is red: it comes to the outside first. *)
Lemma inner_red_ok s xl x kx xr w kw y :
  on A s0 s (zip z (mk d c t p kp (mk d Black (mk d Red xl x kx xr) w kw y))) ->
  ok (store (Some x) (set_color Black) ;; store (Some w) (set_color Red) ;; rotate (opp d) (Some w)) s
    (fun _ s' => on A s0 s' (zip z (mk d c t p kp (mk d Black xl x kx (mk d Red xr w kw y))))).
Proof.
  intros Hon. rewrite <- mk_opp in Hon.
  eapply ok_bind; [apply (recolor_ok A s0 s (Frame d Black w kw y :: Frame (opp d) c p kp t :: z) d Red Black xl x kx xr); exact Hon|].
  intros ? s1 Hon1. cbn beta in Hon1. cbn [zip plug] in Hon1.
  eapply ok_bind; [apply (recolor_ok A s0 s1 (Frame (opp d) c p kp t :: z) d Black Red (mk d Black xl x kx xr) w kw y); exact Hon1|].
  intros ? s2 Hon2. cbn beta in Hon2. rewrite <- (mk_opp d Red), <- (mk_opp d Black xr) in Hon2.
  eapply ok_mono; [apply (rotate_ok A s0 s2 (Frame (opp d) c p kp t :: z) (opp d) Red y w kw Black xr x kx xl); exact Hon2|].
  intros ? s3 Hon3. cbn beta in Hon3. cbn [zip plug] in Hon3. by rewrite !mk_opp in Hon3.
Qed.
End finish.

Lemma black_tree m u : bal (S m) u -> redb u = false -> forall d, exists x w kw y, u = mk d Black x w kw y /\ bal m x /\ bal m y.
Proof.
  destruct u as [|[] x w kw y]; [done|done|]. intros [Bx By] _ d. destruct d; [by exists x, w, kw, y|by exists y, w, kw, x].
Qed.

Lemma red_tree u : redb u = true -> forall d, exists x w kw y, u = mk d Red x w kw y.
Proof. destruct u as [|[] x w kw y]; [done| |done]. intros _ []; [by exists x, w, kw, y|by exists y, w, kw, x]. Qed.

Lemma red_tree_inv d m x w kw y : bal m (mk d Red x w kw y) -> nrr (mk d Red x w kw y) -> bal m x /\ bal m y /\ nrr x /\ nrr y.
Proof. intros Hb (_ & ? & ?)%nrr_mk. by apply (bal_mk m d Red) in Hb as [? ?]. Qed.

(** The colours of the two children of the sibling. *)
Lemma ok_children_red {B} A s0 s z d c p kp t x w kw y (f : bool -> bool -> M Tree B) Q :
  on A s0 s (zip z (mk d c t p kp (mk d Black x w kw y))) ->
  ok (match d with L => f (redb x) (redb y) | R => f (redb y) (redb x) end) s Q ->
  ok (left_red ← is_red (left_child (mkN d (root x) (root y) (Some p) Black kw));
      right_red ← is_red (right_child (mkN d (root x) (root y) (Some p) Black kw));
      f left_red right_red) s Q.
Proof.
  intros Hon HQ. apply (on_sibling A s0 s d c p kp (mk d Black x w kw y) z t) in Hon. apply rep_mk in Hon as (_ & Rx & Ry).
  destruct d; cbn [mkN left_child right_child].
  - eapply ok_is_red; [exact Rx|done|]. eapply ok_is_red; [exact Ry|done|]. done.
  - eapply ok_is_red; [exact Ry|done|]. eapply ok_is_red; [exact Rx|done|]. done.
Qed.

Lemma remove_round_ok A s0 s d c p kp t u z m l :
  on A s0 s (zip (Frame d c p kp u :: z) t) -> inorder (zip (Frame d c p kp u :: z) t) = l ->
  bal m t -> nrr t -> redb t = false -> cbal (S m) (Frame d c p kp u :: z) -> cnrr (Frame d c p kp u :: z) ->
  ok (remove_round d (Some p) (mkN d (root t) (root u) (top z) c kp)) s
    (fun q s' => (q = Some p /\ lifted A s0 z p l s') \/ whole A s0 l q s').
Proof.
  intros Hon Hin Bt Nt Ct Bz Nz. unfold remove_round. rewrite child_opp.
  destruct (root u) as [w0|] eqn:Hu; [|by destruct u; destruct Bz].
  eapply red_sibling_ok; try done. clear dependent s c u w0. intros s (c & u & z' & Hon & Cu & Hbz & Hnz & Hterm & Hin).
  destruct Hbz as [Bu Bz], Hnz as (Nu & Hcz & Nz). destruct (black_tree m u Bu Cu d) as (x & w & kw & y & -> & Bx & By). apply nrr_mk in Nu as (_ & Nx & Ny).
  cbn [zip plug] in Hon, Hin. eapply ok_load; [by apply on_lookup in Hon|]. autorewrite with mkN. rewrite root_mk. cbn zeta.
  eapply ok_load; [pose proof (on_sibling A s0 s d c p kp (mk d Black x w kw y) z' t Hon) as H; by apply rep_mk in H as [H _]|].
  eapply ok_children_red; [exact Hon|].
  destruct (redb x || redb y) eqn:Cxy.
  - match goal with |- ok ?m _ _ => assert (m = (
      (if negb (redb y) then store (child d (mkN d (root x) (root y) (Some p) Black kw)) (set_color Black) ;; store (Some w) (set_color Red) ;; rotate (opp d) (Some w) else kret tt) ;;
      n ← load (Some p);
      let sibling := child (opp d) n in
      store sibling (set_color (color n)) ;; store (Some p) (set_color Black) ;; s ← load sibling;
      store (child (opp d) s) (set_color Black) ;; rotate d (Some p) ;; gets m_root)) as -> end.
    { destruct d, (redb x), (redb y); done. }
    eapply ok_mono; [|intros q s' H; right; exact H].
    assert (c = Red -> cred z' = false /\ z' <> []) as Hcz' by (intros E; by destruct (Hcz E) as (_ & ? & ?)).
    destruct (redb y) eqn:Cy.
    + destruct (red_tree y Cy d) as (yl & ya & ky & yr & ->). apply red_tree_inv in By as (? & ? & ? & ?); [|done].
      eapply ok_bind; [by apply (ok_ret tt s (fun _ s1 => s1 = s))|]. intros ? ? ->. eapply (outer_red_ok A s0 d c p kp t z' m); [done|done|done|done|done|done|exact Hon|exact Hin|done..].
    + rewrite orb_false_r in Cxy. destruct (red_tree x Cxy d) as (xl & xa & kx & xr & ->). apply red_tree_inv in Bx as (? & ? & ? & ?); [|done].
      cbn [negb]. rewrite child_same, root_mk. eapply ok_bind; [by eapply inner_red_ok|]. intros ? s1 Hon1. cbn beta in Hon1.
      eapply (outer_red_ok A s0 d c p kp t z' m); [done|done|done|done|done|done|exact Hon1| |done..]. rewrite <- Hin. apply inorder_zip_same. destruct d; cbn [mk inorder]; rewrite <- ?app_assoc; cbn [app]; rewrite <- ?app_assoc; done.
  - apply orb_false_iff in Cxy as [Cx Cy]. rewrite Cx, Cy. match goal with |- ok ?m _ _ => assert (m = (store (Some w) (set_color Red) ;; kret (Some p))) as -> by by destruct d end.
    rewrite <- mk_opp in Hon. eapply ok_bind; [apply (recolor_ok A s0 s (Frame (opp d) c p kp t :: z') d Black Red x w kw y); exact Hon|].
    intros ? s1 Hon1. cbn beta in Hon1. cbn [zip plug] in Hon1. rewrite mk_opp in Hon1. apply ok_ret. left. split; [done|].
    eexists _, z', (up c m). split; [exact Hon1|]. split_and!; try done.
    + by rewrite root_mk.
    + rewrite <- Hin. apply inorder_zip_same. by destruct d.
    + apply bal_mk. split; [done|]. by apply (bal_mk m d Red).
    + by destruct c.
    + apply weak_mk; [done|]. apply nrr_mk. by split_and!.
    + rewrite redb_mk. destruct Hterm as [-> | ->]; tauto.
Qed.

Lemma zroot_elem f z x : exists b, zroot (f :: z) x = Some b /\ b ∈ caddrs (f :: z).
Proof.
  revert f x. induction z as [|g z IH]; intros [d c a k u] x.
  - exists a. split; [done|]. apply caddrs_cons. by left.
  - cbn [zroot]. destruct (IH g (Some a)) as (b & Hb & Hin). exists b. split; [done|]. apply caddrs_cons. tauto.
Qed.

Lemma on_not_root A s0 s f z t : on A s0 s (zip (f :: z) t) -> same_ptr (root t) (m_root s) = false.
Proof.
  intros [_ Hroot Hnd _ _]. apply bool_decide_false. rewrite Hroot, root_zip. destruct (zroot_elem f z (root t)) as (b & -> & Hb).
  intros E%root_elem. apply NoDup_zip in Hnd as (_ & _ & Hd). by apply (Hd b).
Qed.

(** The tree is right but for the colour of the node [q]. *)
Definition but_for_colour (A : list nat) (s0 : Tree) (l : list (Z * nat)) (q : ptr) (s' : Tree) : Prop :=
  exists z c tl a k tr, q = Some a /\ on A s0 s' (zip z (T c tl a k tr)) /\ inorder (zip z (T c tl a k tr)) = l /\
    rb (zip z (T Black tl a k tr)).

Lemma whole_but A s0 l q s : whole A s0 l q s -> but_for_colour A s0 l q s.
Proof.
  intros (t & Hon & -> & Ht & Hin & Hrb). destruct t as [|c tl a k tr]; [done|]. exists [], c, tl, a, k, tr.
  split_and!; [done|done|done|]. destruct Hrb as (Hr & ?). destruct c; [done|]. by split.
Qed.

Lemma red_but A s0 l s z t m :
  on A s0 s (zip z t) -> inorder (zip z t) = l -> bal m t -> cbal (S m) z -> weak t -> cnrr z -> redb t = true ->
  but_for_colour A s0 l (root t) s.
Proof.
  intros Hon Hin Hb Hz Ht Nz Hr. destruct t as [|[] tl a k tr]; try done. exists z, Red, tl, a, k, tr. split_and!; [done|done|done|].
  destruct Ht as [N1 N2], Hb as [B1 B2]. split_and!.
  - destruct z; [done|by apply redb_zip].
  - by apply nrr_zip.
  - by apply (bal_zip (S m)).
Qed.

Lemma root_but A s0 l s t m :
  on A s0 s t -> inorder t = l -> t <> Leaf -> bal m t -> weak t -> but_for_colour A s0 l (root t) s.
Proof.
  intros Hon Hin Ht Hb Hw. destruct t as [|c tl a k tr]; [done|]. exists [], c, tl, a, k, tr. split_and!; [done|done|done|].
  destruct Hw as [N1 N2]. split_and!; [done|done|]. cbn [zip]. destruct c; [by exists (S m)|by exists m].
Qed.

Lemma remove_loop_ok A s0 l fuel s z t m :
  on A s0 s (zip z t) -> inorder (zip z t) = l -> zip z t <> Leaf -> bal m t -> cbal (S m) z -> weak t -> cnrr z ->
  (0 < fuel)%nat -> redb t = true \/ (length z < fuel)%nat ->
  ok (remove_fixups_loop fuel (root t) (top z)) s (but_for_colour A s0 l).
Proof.
  revert s z t m. induction fuel as [|fuel IH]; intros s z t m Hon Hin Hne Hb Hz Ht Nz H0 Hf; [lia|].
  rewrite remove_fixups_loop_eq. apply ok_gets. eapply ok_is_red; [by apply on_subtree in Hon|done|].
  destruct (redb t) eqn:Ct.
  { rewrite orb_true_r. apply ok_ret. by eapply red_but. }
  rewrite orb_false_r. destruct Hf as [?|Hf]; [done|]. destruct z as [|[d c p kp u] z].
  { cbn [zip] in *. unfold same_ptr. rewrite (o_root _ _ _ _ Hon), bool_decide_true by done. apply ok_ret. by eapply root_but. }
  rewrite (on_not_root _ _ _ _ _ _ Hon). cbn [top]. eapply ok_load; [by apply on_frame in Hon|].
  apply (ok_bind _ _ _ (fun q s' => (q = Some p /\ lifted A s0 z p l s') \/ whole A s0 l q s')).
  - assert (same_ptr (left_child (mkN d (root t) (root u) (top z) c kp)) (root t) = bool_decide (d = L)) as ->.
    { destruct (root t) as [x|] eqn:Ex; [rewrite <- Ex; rewrite Ex at 2; by apply (on_side _ _ _ _ _ _ _ _ _ _ x Hon)|].
      destruct Hz as [Hz _]. destruct u; [done|]. by destruct d. }
    pose proof (remove_round_ok A s0 s d c p kp t u z m l Hon Hin Hb (weak_black _ Ht Ct) Ct Hz Nz) as Hround.
    destruct d; [rewrite bool_decide_true by done|rewrite bool_decide_false by done]; exact Hround.
  - cbn [length] in Hf. intros q s1 [(-> & t' & z' & n & Hon1 & Hp & Hin1 & Hb1 & Hz1 & Ht1 & Nz1 & Hterm)|Hw].
    + rewrite <- Hp. destruct t' as [|c1 l1 a1 k1 r1]; [done|]. cbn [root]. eapply ok_load; [by apply on_lookup_T in Hon1|]. cbn [parent].
      apply (IH s1 z' (T c1 l1 a1 k1 r1) n); try done; [by apply zip_Leaf|lia|]. destruct Hterm as [?| ->]; [by left|right; lia].
    + pose proof Hw as (t' & Hon1 & -> & Ht' & _). destruct t' as [|c1 l1 a1 k1 r1]; [done|]. cbn [root].
      eapply ok_load; [by apply (on_lookup_T _ _ _ []) in Hon1|]. destruct fuel as [|fuel]; [lia|]. rewrite remove_fixups_loop_eq. apply ok_gets.
      eapply ok_is_red; [apply Hon1|done|]. unfold same_ptr. rewrite (o_root _ _ _ _ Hon1), bool_decide_true by done. apply ok_ret. by apply whole_but.
Qed.

Lemma remove_fixups_ok A s0 l s z t m :
  on A s0 s (zip z t) -> inorder (zip z t) = l -> zip z t <> Leaf -> bal m t -> cbal (S m) z -> nrr t -> cnrr z ->
  ok (remove_fixups (root t) (top z)) s (fun _ s' => exists t', on A s0 s' t' /\ inorder t' = l /\ rb t').
Proof.
  intros Hon Hin Hne Hb Hz Ht Nz. unfold remove_fixups. apply ok_gets. eapply ok_bind.
  { eapply remove_loop_ok; try done; [by destruct t; [|destruct Ht]|unfold fuel_of; lia|]. right.
    pose proof (on_fuel _ _ _ _ Hon). pose proof (length_zip z t). lia. }
  intros q s1 (z' & c & tl & a & k & tr & -> & Hon1 & Hin1 & Hrb).
  eapply ok_mono; [apply (recolor_ok A s0 s1 z' L c Black tl a k tr Hon1)|]. intros ? s2 Hon2. eexists. split; [exact Hon2|].
  split; [|done]. rewrite <- Hin1. by apply inorder_zip_same.
Qed.

(** ** Removal: the pointers *)

(** A context below a node: the parent of its topmost node is [q]. *)
Definition topq (q : ptr) (z : ctx) : ptr := match z with [] => q | Frame _ _ a _ _ :: _ => Some a end.
Fixpoint crepq (h : gmap nat Node) (q : ptr) (z : ctx) (x : ptr) : Prop :=
  match z with
  | [] => True
  | Frame d c a k u :: z => h !! a = Some (mkN d x (root u) (topq q z) c k) /\ rep h (Some a) u /\ crepq h q z (Some a)
  end.

Lemma rep_zipq h q z t : rep h q (zip z t) <-> rep h (topq q z) t /\ crepq h q z (root t).
Proof.
  revert t. induction z as [|[d c a k u] z IH]; intros t; cbn [zip plug crepq topq]; [tauto|].
  rewrite IH, rep_mk, root_mk. tauto.
Qed.

Lemma crepq_insert h q z x a n : a ∉ caddrs z -> crepq h q z x -> crepq (<[a := n]> h) q z x.
Proof.
  revert x. induction z as [|[d c y k u] z IH]; intros x; [done|]. rewrite caddrs_cons. intros Hn (H1 & H2 & H3). cbn [crepq].
  rewrite lookup_insert_ne by (intros ->; tauto). split_and!; [done|apply rep_insert; tauto|apply IH; tauto].
Qed.

Lemma caddrs_cons_perm d c a k u z : caddrs (Frame d c a k u :: z) ≡ₚ a :: addrs u ++ caddrs z.
Proof.
  pose proof (addrs_zip_perm (Frame d c a k u :: z) Leaf) as H1. pose proof (addrs_zip_perm z (mk d c Leaf a k u)) as H2.
  cbn [zip plug] in H1. rewrite H1 in H2. rewrite addrs_mk_perm in H2. cbn in H2. rewrite app_nil_r in H2. rewrite H2.
  by rewrite <- Permutation_middle, Permutation_app_comm.
Qed.

Lemma NoDup_caddrs_cons d c a k u z :
  NoDup (caddrs (Frame d c a k u :: z)) <->
  a ∉ addrs u /\ a ∉ caddrs z /\ NoDup (addrs u) /\ NoDup (caddrs z) /\ (forall x, x ∈ addrs u -> x ∉ caddrs z).
Proof. rewrite caddrs_cons_perm, NoDup_cons, NoDup_app, not_elem_of_app. tauto. Qed.

(** A new node in the hole. *)
Lemma crepq_hole h q d c a k u z x y :
  NoDup (caddrs (Frame d c a k u :: z)) -> crepq h q (Frame d c a k u :: z) x ->
  crepq (<[a := mkN d y (root u) (topq q z) c k]> h) q (Frame d c a k u :: z) y.
Proof.
  intros (H1 & H2 & _)%NoDup_caddrs_cons (E & Hu & Hz). cbn [crepq]. rewrite lookup_insert_eq.
  split_and!; [done|by apply rep_insert|by apply crepq_insert].
Qed.

(** A new parent for the topmost node. *)
Lemma crepq_parent h q q' f z x :
  NoDup (caddrs (f :: z)) -> crepq h q (f :: z) x ->
  exists b n, zroot (f :: z) x = Some b /\ b ∈ caddrs (f :: z) /\ h !! b = Some n /\ crepq (<[b := set_parent q' n]> h) q' (f :: z) x.
Proof.
  revert f x. induction z as [|g z IH]; intros [d c a k u] x (H1 & H2 & _ & Hnz & Hd)%NoDup_caddrs_cons (E & Hu & Hz).
  - exists a. eexists. split_and!; [done|by apply caddrs_cons; left|exact E|]. cbn [crepq]. rewrite lookup_insert_eq.
    split_and!; [by destruct d|by apply rep_insert|done].
  - destruct (IH g (Some a) Hnz Hz) as (b & n & Hb & Hin & En & Hz'). exists b, n. split_and!; [done|by apply caddrs_cons; tauto|done|].
    cbn [crepq]. rewrite lookup_insert_ne by (intros ->; done). split_and!; [by destruct g| |done].
    apply rep_insert; [|done]. intros Hbu. by apply (Hd b).
Qed.

Lemma ok_replace {B} s b d x u q c k y (f : unit -> M Tree B) Q :
  nodes s !! b = Some (mkN d (Some x) (root u) q c k) -> x ∉ addrs u -> ok (f tt) (upd b (mkN d y (root u) q c k) s) Q ->
  ok (kbind (replace_child (Some b) (Some x) y) f) s Q.
Proof.
  intros E Hx HQ. apply (ok_bind _ _ _ (fun _ s' => s' = upd b (mkN d y (root u) q c k) s)); [|by intros [] ? ->].
  unfold replace_child. eapply ok_load; [exact E|].
  assert (same_ptr (left_child (mkN d (Some x) (root u) q c k)) (Some x) = bool_decide (d = L)) as ->.
  { destruct d; cbn [mkN left_child]; unfold same_ptr; [by rewrite !bool_decide_true|]. apply bool_decide_ext. split; [|done]. intros H%root_elem. done. }
  destruct d; [rewrite bool_decide_true by done|rewrite bool_decide_false by done]; by eapply ok_store_last.
Qed.

Section relink.
Context (A : list nat) (s0 : Tree) (z zl : ctx) (l rs : tree) (a x : nat).
Context (Hnd : NoDup (a :: x :: addrs l ++ addrs rs ++ caddrs zl ++ caddrs z)).
Context (HA : forall b, b ∈ (a :: x :: addrs l ++ addrs rs ++ caddrs zl ++ caddrs z) -> b ∈ A).

(** The node [a] with two children and its successor [x], and what hangs on them: the
    left subtree [l] of [a], the right subtree [rs] of [x], the way [zl] between them and
    the way [z] to the root. *)
Record parts (na nx : Node) (ql qs qz hl hz : ptr) (s : Tree) : Prop := {
  p_a : nodes s !! a = Some na;
  p_x : nodes s !! x = Some nx;
  p_l : rep (nodes s) ql l;
  p_rs : rep (nodes s) qs rs;
  p_zl : crepq (nodes s) qz zl hl;
  p_z : crep (nodes s) z hz;
  p_root : m_root s = zroot z hz;
  p_rest : rest A s0 s }.

Lemma apart :
  a <> x /\ (a ∉ addrs l /\ a ∉ addrs rs /\ a ∉ caddrs zl /\ a ∉ caddrs z) /\ (x ∉ addrs l /\ x ∉ addrs rs /\ x ∉ caddrs zl /\ x ∉ caddrs z) /\
  NoDup (addrs l) /\ NoDup (addrs rs) /\ NoDup (caddrs zl) /\ NoDup (caddrs z) /\
  (forall b, b ∈ addrs l -> b ∉ addrs rs /\ b ∉ caddrs zl /\ b ∉ caddrs z) /\
  (forall b, b ∈ addrs rs -> b ∉ caddrs zl /\ b ∉ caddrs z) /\ (forall b, b ∈ caddrs zl -> b ∉ caddrs z).
Proof using Hnd.
  revert Hnd. rewrite !NoDup_cons, !NoDup_app, not_elem_of_cons, !not_elem_of_app.
  intros ((Hax & Ha) & Hx & Nl & Dl & Nr & Dr & Nzl & Dz & Nz). split_and!; try tauto.
  - intros b Hb. specialize (Dl b Hb). rewrite !not_elem_of_app in Dl. tauto.
  - intros b Hb. specialize (Dr b Hb). rewrite !not_elem_of_app in Dr. tauto.
Qed.

Lemma in_A b : b ∈ addrs l \/ b ∈ addrs rs \/ b ∈ caddrs zl \/ b ∈ caddrs z -> b ∈ A.
Proof using HA. intros H. apply HA. rewrite !elem_of_cons, !elem_of_app. tauto. Qed.

Definition alone (b : nat) : Prop := b ∉ addrs l /\ b ∉ addrs rs /\ b ∉ caddrs zl /\ b ∉ caddrs z.

Lemma parts_upd na nx ql qs qz hl hz s b n :
  parts na nx ql qs qz hl hz s -> b ∈ A -> is_Some (nodes s !! b) -> alone b ->
  (nodes (upd b n s) !! a = Some na -> nodes (upd b n s) !! x = Some nx -> parts na nx ql qs qz hl hz (upd b n s)) /\
  rep (nodes (upd b n s)) ql l /\ rep (nodes (upd b n s)) qs rs /\ crepq (nodes (upd b n s)) qz zl hl /\ crep (nodes (upd b n s)) z hz.
Proof.
  intros [H1 H2 H3 H4 H5 H6 H7 H8] Hb Hs (B1 & B2 & B3 & B4).
  assert (rep (nodes (upd b n s)) ql l) by by apply rep_insert. assert (rep (nodes (upd b n s)) qs rs) by by apply rep_insert.
  assert (crepq (nodes (upd b n s)) qz zl hl) by by apply crepq_insert. assert (crep (nodes (upd b n s)) z hz) by by apply crep_insert.
  split_and!; try done. intros E1 E2. split; try done. by apply rest_upd.
Qed.

Section step.
Context (na nx : Node) (ql qs qz hl hz : ptr) (s : Tree) (Hs : parts na nx ql qs qz hl hz s).
Context {B : Type} (f : unit -> M Tree B) (Q : B -> Tree -> Prop).

Lemma store_a g : (forall s', parts (g na) nx ql qs qz hl hz s' -> ok (f tt) s' Q) -> ok (kbind (store (Some a) g) f) s Q.
Proof using All.
  intros Hf. pose proof apart as (Hax & Ha & _). pose proof Hs as [H1 H2 H3 H4 H5 H6 H7 H8]. eapply ok_store; [exact H1|]. apply Hf.
  destruct (parts_upd _ _ _ _ _ _ _ _ a (g na) Hs) as (_ & R1 & R2 & R3 & R4); [apply HA; left|by eexists|done|].
  split; try done; cbn [upd nodes]; [by rewrite lookup_insert_eq|by rewrite lookup_insert_ne|]. apply rest_upd; [apply HA; left|by eexists|done].
Qed.

Lemma store_x g : (forall s', parts na (g nx) ql qs qz hl hz s' -> ok (f tt) s' Q) -> ok (kbind (store (Some x) g) f) s Q.
Proof using All.
  intros Hf. pose proof apart as (Hax & _ & Hx & _). pose proof Hs as [H1 H2 H3 H4 H5 H6 H7 H8]. eapply ok_store; [exact H2|]. apply Hf.
  destruct (parts_upd _ _ _ _ _ _ _ _ x (g nx) Hs) as (_ & R1 & R2 & R3 & R4); [apply HA; right; left|by eexists|done|].
  split; try done; cbn [upd nodes]; [by rewrite lookup_insert_ne|by rewrite lookup_insert_eq|]. apply rest_upd; [apply HA; right; left|by eexists|done].
Qed.

Lemma store_l q : l <> Leaf ->
  (forall s', parts na nx q qs qz hl hz s' -> ok (f tt) s' Q) -> ok (kbind (store (root l) (set_parent q)) f) s Q.
Proof using All.
  intros Hl Hf. pose proof apart as (_ & Ha & Hx & Nl & _ & _ & _ & Dl & _). pose proof Hs as [H1 H2 H3 H4 H5 H6 H7 H8].
  assert (ok (kbind (if non_null (root l) then store (root l) (set_parent q) else kret tt) f) s Q) as H; [|by destruct l].
  eapply ok_reparent; [exact H3|]. apply Hf. split.
  - by rewrite reparent_lookup by tauto.
  - by rewrite reparent_lookup by tauto.
  - by eapply reparent_rep.
  - apply reparent_other; [|done]. intros b Hb. by apply Dl.
  - destruct l as [|cl l1 b kb l2]; [done|]. apply crepq_insert; [|done]. apply Dl. rewrite addrs_T. set_solver.
  - apply reparent_ctx; [|done]. intros b Hb Hl'. by apply (Dl b Hl').
  - by rewrite reparent_root.
  - eapply rest_reparent; [|exact H3|done]. intros b Hb. apply in_A. tauto.
Qed.

Lemma store_rs q :
  (forall s', parts na nx ql q qz hl hz s' -> ok (f tt) s' Q) ->
  ok (kbind (if non_null (root rs) then store (root rs) (set_parent q) else kret tt) f) s Q.
Proof using All.
  intros Hf. pose proof apart as (_ & Ha & Hx & _ & Nr & _ & _ & Dl & Dr & _). pose proof Hs as [H1 H2 H3 H4 H5 H6 H7 H8].
  eapply ok_reparent; [exact H4|]. apply Hf. split.
  - by rewrite reparent_lookup by tauto.
  - by rewrite reparent_lookup by tauto.
  - apply reparent_other; [|done]. intros b Hb Hl'. by destruct (Dl b Hl') as (? & _).
  - by eapply reparent_rep.
  - destruct rs as [|cl l1 b kb l2]; [done|]. apply crepq_insert; [|done]. apply Dr. rewrite addrs_T. set_solver.
  - apply reparent_ctx; [|done]. intros b Hb Hl'. by apply (Dr b Hl').
  - by rewrite reparent_root.
  - eapply rest_reparent; [|exact H4|done]. intros b Hb. apply in_A. tauto.
Qed.

Lemma store_qz q : zl <> [] ->
  (forall s', parts na nx ql qs q hl hz s' -> ok (f tt) s' Q) -> ok (kbind (store (zroot zl hl) (set_parent q)) f) s Q.
Proof using All.
  intros Hne Hf. pose proof apart as (_ & Ha & Hx & _ & _ & Nzl & _ & Dl & Dr & Dz). pose proof Hs as [H1 H2 H3 H4 H5 H6 H7 H8].
  assert (exists fr z', zl = fr :: z') as (fr & z' & E) by (destruct zl; eauto; done). pose proof H5 as H5'. rewrite E in H5', Nzl.
  destruct (crepq_parent (nodes s) qz q fr z' hl Nzl H5') as (b & n & Hb & Hin & En & Hz'). rewrite <- E in *.
  rewrite Hb. eapply ok_store; [exact En|]. apply Hf. split; cbn [upd nodes].
  - rewrite lookup_insert_ne; [done|intros ->; tauto].
  - rewrite lookup_insert_ne; [done|intros ->; tauto].
  - apply rep_insert; [|done]. intros Hbl. by destruct (Dl b Hbl) as (_ & ? & _).
  - apply rep_insert; [|done]. intros Hbl. by destruct (Dr b Hbl) as (? & _).
  - done.
  - apply crep_insert; [by apply Dz|done].
  - done.
  - apply rest_upd; [apply in_A; tauto|by eexists|done].
Qed.

Lemma store_hz y : hz = Some a ->
  (forall s', parts na nx ql qs qz hl y s' -> ok (f tt) s' Q) ->
  ok (kbind (if non_null (top z) then replace_child (top z) (Some a) y else set_root y) f) s Q.
Proof using All.
  intros -> Hf. pose proof apart as (_ & Ha & Hx & _ & _ & _ & Nz & Dl & Dr & Dz). pose proof Hs as [H1 H2 H3 H4 H5 H6 H7 H8].
  apply (ok_bind _ _ _ (fun _ s' => s' = hook z y s)).
  { apply (ok_mono _ _ (fun _ s' => s' = hook z y s)); [|done].
    pose proof (ok_hook z a y s (fun _ s' => s' = hook z y s) H6 ltac:(tauto) eq_refl) as H. by destruct (top z). }
  intros [] ? ->. apply Hf. split.
  - by rewrite hook_lookup by tauto.
  - by rewrite hook_lookup by tauto.
  - apply hook_other; [|done]. intros b Hb Hl. by destruct (Dl b Hl) as (_ & _ & ?).
  - apply hook_other; [|done]. intros b Hb Hl. by destruct (Dr b Hl) as (_ & ?).
  - destruct z as [|[d c b k u] z']; [done|]. apply crepq_insert; [|done]. intros Hb. apply (Dz b Hb), caddrs_cons. by left.
  - by eapply hook_ctx.
  - by eapply hook_root.
  - eapply rest_hook; [|exact H6|done]. intros b Hb. apply in_A. tauto.
Qed.

Lemma store_hl y : zl <> [] -> hl = Some x ->
  (forall s', parts na nx ql qs qz y hz s' -> ok (f tt) s' Q) ->
  ok (kbind (if non_null (topq qz zl) then replace_child (topq qz zl) (Some x) y else set_root y) f) s Q.
Proof using All.
  intros Hne -> Hf. pose proof apart as (_ & Ha & Hx & _ & _ & Nzl & _ & Dl & Dr & Dz). pose proof Hs as [H1 H2 H3 H4 H5 H6 H7 H8].
  assert (exists d c b k u z', zl = Frame d c b k u :: z') as (d & c & b & k & u & z' & E) by (destruct zl as [|[]]; [done|by eexists _, _, _, _, _, _]).
  assert (b ∈ caddrs zl /\ x ∉ addrs u) as [Hb Hxu] by (rewrite E in Hx |- *; rewrite !caddrs_cons in *; tauto).
  pose proof H5 as H5'. rewrite E in H5', Nzl. pose proof (crepq_hole _ _ _ _ _ _ _ _ _ y Nzl H5') as Hz'. destruct H5' as (Eb & _).
  rewrite <- E in Hz'. assert (topq qz zl = Some b) as -> by by rewrite E. cbn [non_null].
  eapply ok_replace; [exact Eb|done|]. apply Hf. split; cbn [upd nodes].
  - rewrite lookup_insert_ne; [done|intros ->; tauto].
  - rewrite lookup_insert_ne; [done|intros ->; tauto].
  - apply rep_insert; [|done]. intros Hbl. by destruct (Dl b Hbl) as (_ & ? & _).
  - apply rep_insert; [|done]. intros Hbl. by destruct (Dr b Hbl) as (? & _).
  - done.
  - apply crep_insert; [by apply Dz|done].
  - done.
  - apply rest_upd; [apply in_A; tauto|by eexists|done].
Qed.
End step.

Lemma load_a na nx ql qs qz hl hz s {B} (f : Node -> M Tree B) Q :
  parts na nx ql qs qz hl hz s -> ok (f na) s Q -> ok (kbind (load (Some a)) f) s Q.
Proof. intros [H1 _ _ _ _ _ _ _]. by apply ok_load. Qed.
Lemma load_x na nx ql qs qz hl hz s {B} (f : Node -> M Tree B) Q :
  parts na nx ql qs qz hl hz s -> ok (f nx) s Q -> ok (kbind (load (Some x)) f) s Q.
Proof. intros [_ H2 _ _ _ _ _ _]. by apply ok_load. Qed.

(** The last writes: children, then colours. *)
Lemma swap_children_ok ra rx pa px c k cs kx s :
  parts (mkNode (root l) ra pa c k) (mkNode None rx px cs kx) (Some x) (Some a) (Some x) (Some a) (Some x) s ->
  ok (n ← load (Some a);
      s ← load (Some x);
      store (Some a) (set_left (left_child s)) ;;
      store (Some x) (set_left (left_child n)) ;;
      (n ← load (Some a);
       s ← load (Some x);
       store (Some a) (set_right (right_child s)) ;;
       store (Some x) (set_right (right_child n))) ;;
      n ← load (Some a);
      s ← load (Some x);
      store (Some a) (set_color (color s)) ;;
      store (Some x) (set_color (color n))) s
    (fun _ s' => parts (mkNode None rx pa cs k) (mkNode (root l) ra px c kx) (Some x) (Some a) (Some x) (Some a) (Some x) s').
Proof using Hnd HA.
  intros H. eapply load_a; [exact H|]. eapply load_x; [exact H|]. cbn [left_child].
  eapply store_a; [exact H|]. clear s H. intros s H. eapply store_x; [exact H|]. clear s H. intros s H.
  apply (ok_bind _ _ _ (fun _ s' => parts (mkNode None rx pa c k) (mkNode (root l) ra px cs kx) (Some x) (Some a) (Some x) (Some a) (Some x) s')).
  { eapply load_a; [exact H|]. eapply load_x; [exact H|]. eapply store_a; [exact H|]. clear s H. intros s H.
    apply ok_unbind. eapply store_x; [exact H|]. clear s H. intros s H. apply ok_ret. exact H. }
  clear s H. intros ? s H. cbn beta in H.
  eapply load_a; [exact H|]. eapply load_x; [exact H|]. eapply store_a; [exact H|]. clear s H. intros s H.
  apply ok_unbind. eapply store_x; [exact H|]. clear s H. intros s H. by apply ok_ret.
Qed.

Lemma swap_neighbours_ok ra rx pa px c k cs kx s :
  parts (mkNode (root l) ra pa c k) (mkNode None rx px cs kx) (Some x) (Some a) (Some x) (Some a) (Some x) s ->
  ok (n ← load (Some a);
      s ← load (Some x);
      store (Some a) (set_left (left_child s)) ;;
      store (Some x) (set_left (left_child n)) ;;
      (s ← load (Some x); store (Some a) (set_right (right_child s)) ;; store (Some x) (set_right (Some a))) ;;
      n ← load (Some a);
      s ← load (Some x);
      store (Some a) (set_color (color s)) ;;
      store (Some x) (set_color (color n))) s
    (fun _ s' => parts (mkNode None rx pa cs k) (mkNode (root l) (Some a) px c kx) (Some x) (Some a) (Some x) (Some a) (Some x) s').
Proof using Hnd HA.
  intros H. eapply load_a; [exact H|]. eapply load_x; [exact H|]. cbn [left_child].
  eapply store_a; [exact H|]. clear s H. intros s H. eapply store_x; [exact H|]. clear s H. intros s H.
  apply (ok_bind _ _ _ (fun _ s' => parts (mkNode None rx pa c k) (mkNode (root l) (Some a) px cs kx) (Some x) (Some a) (Some x) (Some a) (Some x) s')).
  { eapply load_x; [exact H|]. eapply store_a; [exact H|]. clear s H. intros s H. apply ok_unbind. eapply store_x; [exact H|].
    clear s H. intros s H. apply ok_ret. exact H. }
  clear s H. intros ? s H. cbn beta in H.
  eapply load_a; [exact H|]. eapply load_x; [exact H|]. eapply store_a; [exact H|]. clear s H. intros s H.
  apply ok_unbind. eapply store_x; [exact H|]. clear s H. intros s H. by apply ok_ret.
Qed.

Lemma top_between : same_ptr (topq (Some a) zl) (Some a) = bool_decide (zl = []).
Proof using Hnd HA.
  pose proof apart as (_ & (_ & _ & Ha & _) & _). apply bool_decide_ext. destruct zl as [|[d c b k u] z']; [done|].
  split; [|done]. intros [= ->]. destruct Ha. apply caddrs_cons. by left.
Qed.

(** The common first writes. *)
Lemma relink_start_ok s c k cs kx {B} (f : unit -> M Tree B) Q : l <> Leaf ->
  parts (mkNode (root l) (zroot zl (Some x)) (top z) c k) (mkNode None (root rs) (topq (Some a) zl) cs kx) (Some a) (Some x) (Some a) (Some x) (Some a) s ->
  (forall s', parts (mkNode (root l) (zroot zl (Some x)) (top z) c k) (mkNode None (root rs) (topq (Some a) zl) cs kx)
     (Some x) (Some a) (Some x) (Some x) (Some x) s' -> ok (f tt) s' Q) ->
  ok (store (root l) (set_parent (Some x)) ;;
      n ← load (Some a);
      (if negb (bool_decide (zl = [])) then store (right_child n) (set_parent (Some x)) else kret tt) ;;
      n ← load (Some a);
      (if non_null (parent n) then replace_child (parent n) (Some a) (Some x) else set_root (Some x)) ;;
      s ← load (Some x);
      r ← (if non_null (right_child s) then store (right_child s) (set_parent (Some a)) else kret tt); f r) s Q.
Proof using Hnd HA.
  intros Hl H Hf. eapply store_l; [exact H|done|]. clear s H. intros s H. eapply load_a; [exact H|]. cbn [right_child].
  apply (ok_bind _ _ _ (fun _ s' => parts (mkNode (root l) (zroot zl (Some x)) (top z) c k) (mkNode None (root rs) (topq (Some a) zl) cs kx)
     (Some x) (Some x) (Some x) (Some x) (Some a) s')).
  { destruct (decide (zl = [])) as [E|E]; [rewrite bool_decide_true by done|rewrite bool_decide_false by done]; cbn [negb].
    - apply ok_ret. destruct H as [? ? ? ? ? ? ? ?]. split; try done. by rewrite E.
    - apply ok_unbind. eapply store_qz; [exact H|done|]. clear s H. intros s H. by apply ok_ret. }
  clear s H. intros [] s H. eapply load_a; [exact H|]. cbn [parent]. eapply store_hz; [exact H|done|]. clear s H. intros s H.
  eapply load_x; [exact H|]. cbn [right_child]. eapply store_rs; [exact H|]. clear s H. exact Hf.
Qed.

Lemma relink_ok s c k cs kx : l <> Leaf ->
  parts (mkNode (root l) (zroot zl (Some x)) (top z) c k) (mkNode None (root rs) (topq (Some a) zl) cs kx) (Some a) (Some x) (Some a) (Some x) (Some a) s ->
  ok (relink_with_successor (Some a) (Some x)) s (fun _ s' =>
    parts (mkNode None (root rs) (topq (Some x) zl) cs k) (mkNode (root l) (zroot zl (Some a)) (top z) c kx) (Some x) (Some a) (Some x) (Some a) (Some x) s').
Proof using Hnd HA.
  intros Hl H. unfold relink_with_successor. eapply load_a; [exact H|]. eapply load_x; [exact H|]. cbn [parent left_child]. rewrite top_between. cbn zeta.
  eapply relink_start_ok; [done|exact H|]. clear s H. intros s H. destruct (decide (zl = [])) as [E|E].
  - rewrite bool_decide_true by done.
    apply (ok_bind _ _ _ (fun _ s' => parts (mkNode (root l) (zroot zl (Some x)) (Some x) c k) (mkNode None (root rs) (top z) cs kx) (Some x) (Some a) (Some x) (Some x) (Some x) s')).
    { eapply load_a; [exact H|]. cbn [parent]. eapply store_x; [exact H|]. clear s H. intros s H.
      apply ok_unbind. eapply store_a; [exact H|]. clear s H. intros s H. apply ok_ret. exact H. }
    clear s H. intros ? s H. cbn beta in H. assert (topq (Some x) zl = Some x /\ zroot zl (Some a) = Some a) as [-> ->] by by rewrite E.
    eapply swap_neighbours_ok.
    destruct H as [? ? ? ? ? ? ? ?]. split; try done. by rewrite E.
  - rewrite bool_decide_false by done. assert (topq (Some a) zl = topq (Some x) zl /\ zroot zl (Some x) = zroot zl (Some a)) as [E1 E2]
      by (destruct zl as [|[]]; done). rewrite E1, E2 in H.
    apply (ok_bind _ _ _ (fun _ s' => parts (mkNode (root l) (zroot zl (Some a)) (topq (Some x) zl) c k) (mkNode None (root rs) (top z) cs kx) (Some x) (Some a) (Some x) (Some a) (Some x) s')).
    { eapply load_x; [exact H|]. cbn [parent]. eapply store_hl; [exact H|done|done|]. clear s H. intros s H.
      eapply load_a; [exact H|]. eapply load_x; [exact H|]. cbn [parent]. eapply store_a; [exact H|]. clear s H. intros s H.
      apply ok_unbind. eapply store_x; [exact H|]. clear s H. intros s H. apply ok_ret. exact H. }
    clear s H. intros ? s H. cbn beta in H. exact (swap_children_ok _ _ _ _ _ _ _ _ _ H).
Qed.
End relink.

Lemma relink_perm z zl c l a k cs x kx rs :
  addrs (zip z (T c l a k (zip zl (T cs Leaf x kx rs)))) ≡ₚ a :: x :: addrs l ++ addrs rs ++ caddrs zl ++ caddrs z.
Proof.
  rewrite addrs_zip_perm, (addrs_mk_perm L c l a k), addrs_zip_perm, (addrs_mk_perm L cs Leaf x kx). cbn [app].
  change (addrs Leaf) with (@nil nat). cbn [app]. solve_Permutation.
Qed.

(** The node and its successor have changed places. *)
Lemma relink_on A s0 s z zl c l a k cs x kx rs :
  on A s0 s (zip z (T c l a k (zip zl (T cs Leaf x kx rs)))) -> l <> Leaf ->
  ok (relink_with_successor (Some a) (Some x)) s (fun _ s' => on A s0 s' (zip z (T c l x kx (zip zl (T cs Leaf a k rs))))).
Proof.
  intros Hon Hl. pose proof Hon as [Hrep Hroot Hnd Hsub Hrest]. rewrite relink_perm in Hnd.
  assert (forall b, b ∈ (a :: x :: addrs l ++ addrs rs ++ caddrs zl ++ caddrs z) -> b ∈ A) as HA.
  { intros b Hb. apply Hsub. by rewrite relink_perm. }
  apply rep_zip in Hrep as [(Ha & Rl & Rr) Hz]. apply rep_zipq in Rr as [(Hx & _ & Rrs) Hzl]. rewrite root_zip in Ha. rewrite root_zip in Hroot.
  eapply ok_mono; [apply (relink_ok A s0 z zl l rs a x Hnd HA s c k cs kx Hl); by split|].
  intros ? s' [Ea Ex El Ers Ezl Ez Eroot Erest]. split.
  - apply rep_zip. split; [|done]. cbn [rep]. rewrite root_zip. cbn [root]. split_and!; [done|done|].
    apply rep_zipq. split; [|done]. by cbn [rep root].
  - by rewrite root_zip.
  - rewrite relink_perm. by rewrite Permutation_swap.
  - intros b. rewrite relink_perm, Permutation_swap. apply HA.
  - done.
Qed.

(** The node with at most one child goes. *)
Lemma unlink_ok A s0 s z c l a k r t {B} (f : unit -> M Tree B) Q :
  on A s0 s (zip z (T c l a k r)) -> t = l \/ t = r -> (forall s', on A s0 s' (zip z t) -> ok (f tt) s' Q) ->
  ok ((if non_null (root t) then store (root t) (set_parent (top z)) else kret tt) ;;
      u ← (if non_null (top z) then replace_child (top z) (Some a) (root t) else set_root (root t)); f u) s Q.
Proof.
  intros Hon Ht Hf. pose proof Hon as [Hrep Hroot Hnd Hsub Hrest]. apply rep_zip in Hrep as [(Ha & Rl & Rr) Hz]. cbn [root] in Hz.
  rewrite root_zip in Hroot. apply NoDup_zip in Hnd as (Nz & Nt & Hd). apply (NoDup_mk L) in Nt as (N1 & N2 & N3 & N4 & N5).
  assert (rep (nodes s) (Some a) t) as Rt by by destruct Ht as [-> | ->]. assert (NoDup (addrs t)) as Ndt by by destruct Ht as [-> | ->].
  assert (forall b, b = a \/ b ∈ addrs t -> b ∈ addrs (T c l a k r)) as Hin.
  { intros b Hb. apply (addrs_mk L). destruct Ht as [-> | ->]; tauto. }
  assert (forall b, b ∈ caddrs z -> b ∉ addrs t) as Dt by (intros b Hb Hbt; apply (Hd b Hb), Hin; by right).
  eapply ok_reparent; [exact Rt|]. set (s1 := reparent t (top z) s).
  assert (crep (nodes s1) z (Some a)) as Hz1 by (by apply reparent_ctx).
  apply (ok_bind _ _ _ (fun _ s' => s' = hook z (root t) s1)).
  { pose proof (ok_hook z a (root t) s1 (fun _ s' => s' = hook z (root t) s1) Hz1) as H. unfold replace_child.
    destruct (top z); apply H; try done; intros Hb; apply (Hd a Hb), Hin; by left. }
  intros [] ? ->. apply Hf. split.
  - apply rep_zip. split; [|by eapply hook_ctx]. apply hook_other; [done|]. by eapply reparent_rep.
  - rewrite root_zip. apply (hook_root z (Some a)). by subst s1; rewrite reparent_root.
  - by apply NoDup_zip.
  - intros b [Hb|Hb]%addrs_zip; apply Hsub, addrs_zip; [by left|right; apply Hin; by right].
  - eapply rest_hook; [|exact Hz1|]; [intros b Hb; apply Hsub, addrs_zip; by left|].
    eapply rest_reparent; [|exact Rt|done]. intros b Hb. apply Hsub, addrs_zip. right. apply Hin. by right.
Qed.

(** Colours and heights do not depend on the nodes. *)
Fixpoint skel (t : tree) : tree := match t with Leaf => Leaf | T c l _ _ r => T c (skel l) 0 0 (skel r) end.

Lemma redb_skel t : redb (skel t) = redb t.
Proof. by destruct t. Qed.
Lemma bal_skel n t : bal n (skel t) <-> bal n t.
Proof. revert n. induction t as [|[] l IHl a k r IHr]; intros n; [done| |]; cbn [skel bal]; [by rewrite IHl, IHr|]. destruct n; [done|]. by rewrite IHl, IHr. Qed.
Lemma nrr_skel t : nrr (skel t) <-> nrr t.
Proof. induction t as [|c l IHl a k r IHr]; [done|]. cbn [skel nrr]. by rewrite IHl, IHr, !redb_skel. Qed.
Lemma rb_skel t : rb (skel t) <-> rb t.
Proof. unfold rb. rewrite redb_skel, nrr_skel. by setoid_rewrite bal_skel. Qed.
Lemma skel_zip z t t' : skel t = skel t' -> skel (zip z t) = skel (zip z t').
Proof. revert t t'. induction z as [|[d c a k u] z IH]; intros t t' E; [done|]. cbn [zip plug]. apply IH. destruct d; cbn [mk skel]; by rewrite E. Qed.
Lemma rb_same t t' : skel t = skel t' -> rb t -> rb t'.
Proof. intros E. by rewrite <- (rb_skel t), <- (rb_skel t'), E. Qed.

Definition holds (A : list nat) (s0 : Tree) (l : list (Z * nat)) (s' : Tree) : Prop := exists t, on A s0 s' t /\ inorder t = l /\ rb t.

Lemma unlink_fix_ok A s0 s z c tl a k tr l (f : unit -> M Tree unit) Q :
  on A s0 s (zip z (T c tl a k tr)) -> tl = Leaf \/ tr = Leaf -> rb (zip z (T c tl a k tr)) ->
  before z ++ (inorder tl ++ inorder tr) ++ after z = l -> l <> [] ->
  (forall s', holds A s0 l s' -> ok (f tt) s' Q) ->
  ok (n ← load (Some a);
      let child := if non_null (left_child n) then left_child n else right_child n in
      (if non_null child then store child (set_parent (parent n)) else kret tt) ;;
      (if non_null (parent n) then replace_child (parent n) (Some a) child else set_root child) ;;
      u ← (if decide (color n = Red) then kret tt else remove_fixups child (parent n)); f u) s Q.
Proof.
  intros Hon Hone (Hr & Hn & m & Hb) Hl Hne Hf. eapply ok_load; [by apply on_lookup_T in Hon|]. cbn [left_child right_child parent color]. cbn zeta.
  set (t := match tl with Leaf => tr | _ => tl end).
  assert ((if non_null (root tl) then root tl else root tr) = root t) as -> by by destruct tl.
  assert (t = tl \/ t = tr) as Ht by (destruct tl; tauto).
  assert (inorder (zip z t) = l) as Hin.
  { rewrite inorder_zip, <- Hl. do 2 f_equal. destruct Hone as [E|E]; subst; [done|]. destruct tl; [done|]. cbn [inorder]. by rewrite app_nil_r. }
  apply nrr_unzip in Hn as (Hn & Nz & Hred); [|done]. apply bal_unzip in Hb as (n & Hb & Bz).
  assert (nrr t) as Nt by (destruct Hn as (_ & ? & ?); by destruct Ht as [-> | ->]).
  assert (zip z t <> Leaf) as Hzt by (intros E; rewrite E in Hin; by destruct Hne).
  eapply unlink_ok; [exact Hon|done|]. clear s Hon. intros s Hon.
  apply (ok_bind _ _ _ (fun _ => holds A s0 l)); [|intros []; apply Hf].
  destruct c; [rewrite decide_True by done|rewrite decide_False by done].
  - apply ok_ret. exists (zip z t). split; [done|]. split; [done|]. destruct (Hred eq_refl) as [Hcz Hz]. destruct Hn as (Hc & _).
    assert (redb t = false) as Ct by (destruct (Hc eq_refl); by destruct Ht as [-> | ->]).
    split_and!; [by apply redb_zip|apply nrr_zip; [done|done|congruence]|]. apply (bal_zip n); [|done].
    destruct Hb. by destruct Ht as [-> | ->].
  - cbn [bal] in Hb. destruct n as [|n]; [done|]. eapply remove_fixups_ok; try done. destruct Hb. by destruct Ht as [-> | ->].
Qed.

(** The way to the successor in the right subtree. *)
Lemma focus_first r x kx l2 : inorder r = (kx, x) :: l2 -> exists zl cs rs, r = zip zl (T cs Leaf x kx rs) /\ before zl = [] /\ inorder rs ++ after zl = l2.
Proof.
  intros E. destruct (focus r [] kx x l2 E) as (zl & cs & l' & rs & H1 & H2 & H3). apply app_nil in H2 as [H2 H4]. apply inorder_nil in H4 as ->.
  by exists zl, cs, rs.
Qed.

Lemma remove_unlink_ok A s0 s z c tl a k tr (f : unit -> M Tree unit) Q :
  on A s0 s (zip z (T c tl a k tr)) -> rb (zip z (T c tl a k tr)) -> (before z ++ inorder tl) ++ inorder tr ++ after z <> [] ->
  (forall s', holds A s0 ((before z ++ inorder tl) ++ inorder tr ++ after z) s' -> ok (f tt) s' Q) ->
  ok (n ← load (Some a);
      (if non_null (left_child n) && non_null (right_child n) then
         successor_node ← successor (Some a);
         relink_with_successor (Some a) successor_node
       else kret tt) ;;
      n ← load (Some a);
      let child := if non_null (left_child n) then left_child n else right_child n in
      (if non_null child then store child (set_parent (parent n)) else kret tt) ;;
      (if non_null (parent n) then replace_child (parent n) (Some a) child else set_root child) ;;
      u ← (if decide (color n = Red) then kret tt else remove_fixups child (parent n)); f u) s Q.
Proof.
  intros Hon Hrb Hne Hf. eapply ok_load; [by apply on_lookup_T in Hon|]. cbn [left_child right_child].
  destruct (non_null (root tl) && non_null (root tr)) eqn:E.
  - apply andb_true_iff in E as [El Er]. assert (tl <> Leaf) as Hl by by destruct tl.
    destruct (inorder tr) as [|[kx x] l2] eqn:Etr; [apply inorder_nil in Etr as ->; done|].
    destruct (focus_first _ _ _ _ Etr) as (zl & cs & rs & -> & Hzl & Hl2).
    eapply ok_bind.
    { eapply ok_bind; [by apply successor_ok in Hon|]. intros ? ? [-> ->]. rewrite Etr. cbn [app head fmap option_fmap option_map snd].
      by apply relink_on. }
    intros ? s1 Hon1. cbn beta in Hon1. change (T c tl x kx ?t) with (plug (Frame R c x kx tl) t) in Hon1.
    assert (forall t, zip z (plug (Frame R c x kx tl) (zip zl t)) = zip (zl ++ Frame R c x kx tl :: z) t) as Ezip by (intros t; by rewrite zip_app).
    rewrite Ezip in Hon1. eapply unlink_fix_ok; [exact Hon1|by left| | |exact Hne|exact Hf].
    + rewrite <- Ezip. eapply rb_same; [|exact Hrb]. apply skel_zip. cbn [plug mk skel]. f_equal. by apply skel_zip.
    + change (inorder Leaf ++ inorder rs) with (inorder rs). rewrite <- inorder_zip, <- Ezip, inorder_zip. cbn [plug mk inorder].
      rewrite inorder_zip, Hzl. cbn [app]. rewrite Hl2, <- !app_assoc. done.
  - eapply ok_bind; [by apply (ok_ret tt s (fun _ s1 => s1 = s))|]. intros ? ? ->.
    eapply unlink_fix_ok; [exact Hon| |done| |exact Hne|exact Hf].
    + apply andb_false_iff in E as [E|E]; [left; by destruct tl|right; by destruct tr].
    + by rewrite <- !app_assoc.
Qed.

(** The state after the removal of a node, before its flag is reset. *)
Record removed (s : Tree) (l l' : list (Z * nat)) (s' : Tree) : Prop := {
  r_tree : exists t, rep (nodes s') None t /\ m_root s' = root t /\ inorder t = l' /\ rb t;
  r_size : m_size s' = Z.of_nat (length l');
  r_minimum : m_minimum s' = snd <$> head l';
  r_in_tree : m_in_tree s' = m_in_tree s;
  r_dom : dom (nodes s') = dom (nodes s);
  r_other : forall b, b ∉ l.*2 -> nodes s' !! b = nodes s !! b }.

Lemma remove_minimum_ok s l1 k a l2 t (f : unit -> M Tree unit) Q :
  wf s (l1 ++ (k, a) :: l2) -> on (l1 ++ (k, a) :: l2).*2 s s t -> inorder t = l1 ++ (k, a) :: l2 ->
  ok (f tt) (mkTree (nodes s) (m_root s) (m_size s) (snd <$> head (l1 ++ l2)) (m_in_tree s)) Q ->
  ok (minimum ← gets m_minimum;
      u ← (if same_ptr minimum (Some a) then next ← successor (Some a); set_minimum next else kret tt); f u) s Q.
Proof.
  intros Hwf Hon Hin Hf. apply ok_gets. rewrite (w_minimum _ _ Hwf). destruct l1 as [|[k1 a1] l1].
  - cbn [app head fmap option_fmap option_map snd]. unfold same_ptr. rewrite bool_decide_true by done.
    destruct (focus t [] k a l2 Hin) as (z & c & tl & tr & -> & _ & Hl2).
    apply (ok_bind _ _ _ (fun _ s' => s' = mkTree (nodes s) (m_root s) (m_size s) (snd <$> head l2) (m_in_tree s))).
    { eapply ok_bind; [by apply successor_ok in Hon|]. intros ? ? [-> ->]. rewrite Hl2. by eexists _, _. }
    intros [] ? ->. exact Hf.
  - cbn [app head fmap option_fmap option_map snd] in *. unfold same_ptr. rewrite bool_decide_false.
    + eapply ok_bind; [by apply (ok_ret tt s (fun _ s1 => s1 = s))|]. intros [] ? ->.
      replace (Some a1) with (m_minimum s) in Hf by by rewrite (w_minimum _ _ Hwf). by destruct s.
    + intros [= ->]. pose proof (w_nodup _ _ Hwf) as Hnd. rewrite fmap_cons, fmap_app in Hnd. apply NoDup_cons in Hnd as [Hnd _].
      apply Hnd. cbn [fmap list_fmap snd]. set_solver.
Qed.

Lemma remove_node_ok s l1 k a l2 :
  wf s (l1 ++ (k, a) :: l2) ->
  ok (remove_node (Some a)) s (fun _ s' => removed s (l1 ++ (k, a) :: l2) (l1 ++ l2) s').
Proof.
  intros Hwf. pose proof (w_size _ _ Hwf) as Hsz. pose proof (wf_length _ _ Hwf) as Hlen. rewrite length_app in Hsz, Hlen. cbn [length] in Hsz, Hlen.
  unfold remove_node. apply ok_VERIFY; [done|]. apply ok_gets. rewrite Hsz. destruct (Z.eqb_spec (Z.of_nat (length l1 + S (length l2))) 1) as [E|E].
  - assert (l1 = [] /\ l2 = []) as [-> ->] by (destruct l1, l2; cbn [length] in E; try lia; done).
    eexists _, _. split; [reflexivity|]. split; try done. exists Leaf. split_and!; [done|done|done|]. split_and!; [done|done|by exists 0%nat].
  - destruct (wf_on s _ (l1 ++ (k, a) :: l2).*2 Hwf) as (t & Hon & Hin & Hrb); [done|].
    eapply remove_minimum_ok; [exact Hwf|exact Hon|exact Hin|]. set (s1 := mkTree _ _ _ _ _).
    assert (on (l1 ++ (k, a) :: l2).*2 s1 s1 t) as Hon1 by (destruct Hon; split; try done; by split).
    destruct (focus t l1 k a l2 Hin) as (z & c & tl & tr & -> & Hl1 & Hl2).
    eapply remove_unlink_ok; [exact Hon1|done| |].
    + rewrite Hl1, Hl2. intros H%(f_equal length). rewrite length_app in H. cbn [length] in H. lia.
    + rewrite Hl1, Hl2. intros s2 (t & Hon2 & Hin2 & Hrb2). apply ok_gets. eexists _, _. split; [reflexivity|].
      pose proof (o_rest _ _ _ _ Hon2) as [R1 R2 R3 R4 R5]. split; cbn [nodes m_root m_size m_minimum m_in_tree]; try done.
      * exists t. split_and!; [apply Hon2|apply Hon2|done|done].
      * rewrite R3. cbn [m_size s1]. rewrite Hsz, length_app. rewrite wrap_small; unfold in_width; lia.
Qed.

Lemma wf_depth s l : wf s l -> exists t, rep (nodes s) None t /\ m_root s = root t /\ inorder t = l /\
  (depth t < S (2 * Nat.log2 (S (length l))))%nat /\ (depth t < fuel_of s)%nat.
Proof.
  intros Hwf. destruct (wf_on s l l.*2 Hwf) as (t & Hon & Hin & Hrb); [done|]. exists t. split_and!; [apply Hon|apply Hon|done| |].
  - apply rb_depth in Hrb. rewrite Hin in Hrb. lia.
  - pose proof (on_fuel _ _ _ _ Hon). pose proof (depth_length t). unfold addrs in *. rewrite length_fmap in *. lia.
Qed.

Lemma find_ok s l k :
  wf s l -> ok (find k) s (fun q s' => s' = s /\ match q with Some a => (k, a) ∈ l | None => forall x, x ∈ l -> x.1 <> k end).
Proof.
  intros Hwf. destruct (wf_depth s l Hwf) as (t & Hrep & Hroot & <- & _ & Hd). unfold find. do 2 apply ok_gets. rewrite Hroot.
  apply (find_loop_ok s None); [done|by apply Hwf|done].
Qed.

(** A removed node keeps its colour and its parent; its children are reset. *)
Definition detached (a : nat) (s : Tree) : Prop := exists n, nodes s !! a = Some n /\ left_child n = None /\ right_child n = None.

Lemma removed_wf s l1 k a l2 s1 (n : Node) :
  wf s (l1 ++ (k, a) :: l2) -> removed s (l1 ++ (k, a) :: l2) (l1 ++ l2) s1 -> nodes s1 !! a = Some n ->
  wf (mkTree (<[a := set_left None (set_right None n)]> (nodes s1)) (m_root s1) (m_size s1) (m_minimum s1) (m_in_tree s1 ∖ {[a]})) (l1 ++ l2).
Proof.
  intros Hwf [(t & H1 & H2 & H3 & H4) R2 R3 R4 R5 R6] Hn. pose proof (w_nodup _ _ Hwf) as Hnd.
  rewrite fmap_app, fmap_cons in Hnd. cbn [snd] in Hnd. rewrite <- Permutation_middle, NoDup_cons, <- fmap_app in Hnd. destruct Hnd as [Ha Hnd].
  split; cbn [nodes m_root m_size m_minimum m_in_tree]; try done.
  - exists t. split_and!; try done. apply rep_insert; [|done]. unfold addrs. by rewrite H3.
  - pose proof (w_sorted _ _ Hwf) as Hs. apply sorted_app in Hs as (S1 & S2 & S3). apply sorted_cons in S2 as [S2 S4].
    apply sorted_app. split_and!; [done|done|]. intros x y Hx Hy. apply S3; [done|by right].
  - rewrite R4, (w_in_tree _ _ Hwf). apply set_eq. intros x. rewrite elem_of_difference, elem_of_singleton, !elem_of_list_to_set.
    rewrite !fmap_app, fmap_cons, !elem_of_app, elem_of_cons. cbn [snd]. rewrite fmap_app, elem_of_app in Ha.
    split; [tauto|]. intros Hx. split; [tauto|]. intros ->. tauto.
  - pose proof (w_heap _ _ Hwf) as Hh. rewrite map_size_insert_Some by by eexists. by rewrite <- size_dom, R5, size_dom.
Qed.

Lemma remove_ok s l k :
  wf s l ->
  ok (remove k) s (fun b s' => if b : bool
    then exists l1 a l2, l = l1 ++ (k, a) :: l2 /\ wf s' (l1 ++ l2) /\ detached a s' /\ forall c, c ∉ l.*2 -> nodes s' !! c = nodes s !! c
    else s' = s /\ forall x, x ∈ l -> x.1 <> k).
Proof.
  intros Hwf. unfold remove. eapply ok_bind; [by apply find_ok|]. intros [a|] ? [-> Hq]; cbn [non_null negb]; [|by apply ok_ret].
  apply list_elem_of_split in Hq as (l1 & l2 & ->). eapply ok_bind; [by apply remove_node_ok|]. intros ? s1 Hr.
  assert (exists n, nodes s1 !! a = Some n) as [n Hn].
  { apply elem_of_dom. rewrite (r_dom _ _ _ _ Hr). apply elem_of_dom. destruct (w_tree _ _ Hwf) as (t & H1 & _ & H3 & _).
    eapply rep_lookup; [exact H1|]. unfold addrs. rewrite H3, fmap_app. set_solver. }
  eapply ok_store; [exact Hn|]. eapply ok_store; [cbn [upd nodes]; by rewrite lookup_insert_eq|]. apply ok_modify. apply ok_ret.
  exists l1, a, l2. split; [done|]. cbn [upd nodes m_root m_size m_minimum m_in_tree]. rewrite insert_insert_eq. split_and!.
  - by eapply removed_wf.
  - eexists. split; [apply lookup_insert_eq|done].
  - intros c Hc. cbn [nodes]. rewrite lookup_insert_ne; [by apply (r_other _ _ _ _ Hr)|]. intros ->. apply Hc. rewrite fmap_app. set_solver.
Qed.
