(* ===== verification/RedBlackTreeSpec.v ===== *)
(** * Red-black trees: what the operations promise

    The theorems on the public operations of the intrusive tree, stated with the invariant
    [wf] and the in-order sequence only: insertion, removal, searches, iteration, clearing,
    the bound on the way down, and safety of every reachable state. *)

From stdpp Require Import sorting.
From S2P Require Import Prelude RedBlackTree RedBlackTreeRep RedBlackTreeInsert RedBlackTreeSearch RedBlackTreeRemove.

(** ** Iteration and clearing *)

Lemma successor_wf s l1 k a l2 : wf s (l1 ++ (k, a) :: l2) -> successor (Some a) s = (Ok (snd <$> head l2), s).
Proof.
  intros Hwf. destruct (wf_on s _ (l1 ++ (k, a) :: l2).*2 Hwf) as (t & Hon & Hin & _); [done|].
  destruct (focus t l1 k a l2 Hin) as (z & c & tl & tr & -> & _ & <-).
  by destruct (successor_ok _ _ _ _ _ _ _ _ _ Hon) as (q & ? & -> & -> & ->).
Qed.
Lemma predecessor_wf s l1 k a l2 : wf s (l1 ++ (k, a) :: l2) -> predecessor (Some a) s = (Ok (snd <$> last l1), s).
Proof.
  intros Hwf. destruct (wf_on s _ (l1 ++ (k, a) :: l2).*2 Hwf) as (t & Hon & Hin & _); [done|].
  destruct (focus t l1 k a l2 Hin) as (z & c & tl & tr & -> & <- & _).
  by destruct (predecessor_ok _ _ _ _ _ _ _ _ _ Hon) as (q & ? & -> & -> & ->).
Qed.

Lemma ok_eq {A B} (m : M Tree A) (f : A -> M Tree B) s a s' Q : m s = (Ok a, s') -> ok (f a) s' Q -> ok (kbind m f) s Q.
Proof. intros E (b & s2 & E2 & H). exists b, s2. split; [|done]. simpl. by rewrite E. Qed.

Lemma visit_ok s l1 l2 fuel prev :
  wf s (l1 ++ l2) -> (length l2 < fuel)%nat ->
  ok (visit fuel (mkIterator (snd <$> head l2) prev)) s (fun r s' => s' = s /\ r = Some <$> l2.*2).
Proof.
  revert l1 fuel prev. induction l2 as [|[k a] l2 IH]; intros l1 fuel prev Hwf Hf; (destruct fuel as [|fuel]; [lia|]); [by apply ok_ret|].
  cbn [length] in Hf. cbn [visit is_end m_node head fmap option_fmap option_map snd non_null negb].
  eapply ok_bind; [apply (ok_eq _ _ _ _ _ (fun it s' => s' = s /\ it = mkIterator (snd <$> head l2) (Some a)) (successor_wf s l1 k a l2 Hwf)); by apply ok_ret|].
  intros ? ? [-> ->]. rewrite cons_middle, app_assoc in Hwf. eapply ok_bind; [apply (IH _ fuel (Some a) Hwf); lia|]. intros ? ? [-> ->]. by apply ok_ret.
Qed.

(** The nodes [B] are out of the tree. *)
Record cleared (B : list nat) (s s' : Tree) : Prop := {
  c_other : forall b, b ∉ B -> nodes s' !! b = nodes s !! b;
  c_detached : forall b, b ∈ B -> detached b s';
  c_in_tree : forall b, b ∈ m_in_tree s' <-> b ∈ m_in_tree s /\ b ∉ B;
  c_dom : dom (nodes s') = dom (nodes s) }.

Lemma rep_cleared B s s' p t : cleared B s s' -> (forall b, b ∈ addrs t -> b ∉ B) -> rep (nodes s) p t -> rep (nodes s') p t.
Proof.
  intros HB. revert p. induction t as [|c l IHl a k r IHr]; intros p Hd; [done|]. intros (H1 & H2 & H3). rewrite addrs_T in Hd.
  split_and!; [rewrite (c_other _ _ _ HB); [done|apply Hd; set_solver]|apply IHl; [set_solver|done]|apply IHr; [set_solver|done]].
Qed.

Lemma clear_nodes_ok s p t fuel :
  rep (nodes s) p t -> NoDup (addrs t) -> (depth t < fuel)%nat ->
  ok (clear_nodes fuel (root t)) s (fun _ s' => cleared (addrs t) s s').
Proof.
  revert s p fuel. induction t as [|c l IHl a k r IHr]; intros s p fuel Hrep Hnd Hf; (destruct fuel as [|fuel]; [lia|]).
  { apply ok_ret. split; [done| | |done]; set_solver. }
  pose proof Hrep as (Ha & Rl & Rr). cbn [depth] in Hf. apply (NoDup_mk L) in Hnd as (N1 & N2 & N3 & N4 & N5). cbn [clear_nodes root].
  eapply ok_load; [exact Ha|]. cbn [right_child]. eapply ok_bind; [apply (IHr s (Some a) fuel); [done|done|lia]|]. intros ? s1 H1. cbn beta in H1.
  assert (nodes s1 !! a = Some (mkNode (root l) (root r) p c k)) as Ha1 by (by rewrite (c_other _ _ _ H1)).
  eapply ok_store; [exact Ha1|]. eapply ok_load; [cbn [upd nodes]; by rewrite lookup_insert_eq|]. cbn [set_right left_child parent color key].
  set (s2 := upd a _ s1). assert (rep (nodes s2) (Some a) l) as Rl2.
  { apply rep_insert; [done|]. eapply rep_cleared; [exact H1|done|done]. }
  eapply ok_bind; [apply (IHl s2 (Some a) fuel); [done|done|lia]|]. intros ? s3 H3. cbn beta in H3.
  assert (nodes s3 !! a = Some (mkNode (root l) None p c k)) as Ha3.
  { rewrite (c_other _ _ _ H3) by done. subst s2. cbn [upd nodes]. by rewrite lookup_insert_eq. }
  eapply ok_store; [exact Ha3|]. eexists _, _. split; [reflexivity|]. rewrite addrs_T. split; cbn [upd nodes m_in_tree].
  - intros b Hb. apply not_elem_of_app in Hb as [Hb1 Hb2]. apply not_elem_of_cons in Hb2 as [Hba Hb2].
    rewrite lookup_insert_ne, (c_other _ _ _ H3) by done. subst s2. cbn [upd nodes]. by rewrite lookup_insert_ne, (c_other _ _ _ H1) by done.
  - intros b Hb. unfold detached. cbn [nodes]. destruct (decide (b = a)) as [->|Hba]; [eexists; split; [apply lookup_insert_eq|done]|].
    rewrite lookup_insert_ne by done. apply elem_of_app in Hb as [Hb|Hb]; [by apply (c_detached _ _ _ H3)|].
    apply elem_of_cons in Hb as [?|Hb]; [done|]. destruct (c_detached _ _ _ H1 b Hb) as (n & Hn & ?). exists n. split; [|done].
    rewrite (c_other _ _ _ H3) by (intros Hbl; by apply (N5 b)). subst s2. cbn [upd nodes]. by rewrite lookup_insert_ne.
  - intros b. rewrite elem_of_difference, elem_of_singleton, (c_in_tree _ _ _ H3). subst s2. cbn [upd m_in_tree].
    rewrite (c_in_tree _ _ _ H1), not_elem_of_app, not_elem_of_cons. tauto.
  - assert (a ∈ dom (nodes s1)) by (apply elem_of_dom; by eexists). rewrite dom_insert_L, (c_dom _ _ _ H3). subst s2. cbn [upd nodes].
    rewrite dom_insert_L, <- (c_dom _ _ _ H1). set_solver.
Qed.

Lemma remove_run s l k :
  wf s l ->
  let b := existsb (fun x => x.1 =? k) l in
  exists s', remove k s = (Ok b, s') /\
    if b then exists l1 a l2, l = l1 ++ (k, a) :: l2 /\ wf s' (l1 ++ l2) /\ detached a s' /\ forall c, c ∉ l.*2 -> nodes s' !! c = nodes s !! c
    else s' = s.
Proof.
  intros Hwf. destruct (remove_ok s l k Hwf) as (b & s' & E & H). cbn zeta. exists s'.
  replace (existsb (fun x => x.1 =? k) l) with b; [by destruct b; [|destruct H]|]. symmetry. destruct b.
  - destruct H as (l1 & a & l2 & -> & _). apply existsb_exists. exists (k, a).
    rewrite <- list_elem_of_In. split; [set_solver|by apply Z.eqb_refl].
  - destruct H as [_ H]. apply not_true_is_false. intros (x & Hx & Hk)%existsb_exists.
    apply Z.eqb_eq in Hk. apply (H x); [by apply list_elem_of_In|done].
Qed.

Lemma wf_empty h : Z.of_nat (size h) < 2 ^ 64 -> wf (mkTree h None 0 None ∅) [].
Proof.
  intros Hh. split; try done; [|apply SSorted_nil|apply NoDup_nil_2].
  exists Leaf. split_and!; [done|done|done|]. split_and!; [done|done|by exists 0%nat].
Qed.

(** ** The theorems *)

(** C12: inserting a new node into a well-formed red-black tree always succeeds; no pointer
    that the code follows is null and no loop runs on for ever.  The tree is a red-black
    tree again, its in-order sequence is the old one with the node behind all keys up to
    its own, its size and its minimum are right, and no node outside the tree changes. *)
Theorem rbt_insert_exact (s : Tree) (l : list (Z * nat)) (a : nat) (k : Z) :
  wf s l -> a ∉ l.*2 -> fresh a s ->
  exists s', insert k (Some a) s = (Ok tt, s') /\ wf s' (insert_key (k, a) l) /\
    forall b, b ∉ (a :: l.*2) -> nodes s' !! b = nodes s !! b.
Proof. intros Hwf Ha Hf. destruct (insert_ok s l a k Hwf Ha Hf) as ([] & s' & E & H). by exists s'. Qed.

(** C13: [remove] of a key returns false and changes nothing when no node has the key, and
    else takes exactly one node with the key out of the sequence: the tree stays a
    red-black tree with the right size and minimum, and the node has no children left. *)
Theorem rbt_remove_exact (s : Tree) (l : list (Z * nat)) (k : Z) :
  wf s l ->
  exists b s', remove k s = (Ok b, s') /\ b = existsb (fun x => x.1 =? k) l /\
    if b then exists l1 a l2, l = l1 ++ (k, a) :: l2 /\ wf s' (l1 ++ l2) /\ detached a s' /\
                forall c, c ∉ l.*2 -> nodes s' !! c = nodes s !! c
    else s' = s.
Proof.
  intros Hwf. destruct (remove_run s l k Hwf) as (s' & E & H). by exists (existsb (fun x => x.1 =? k) l), s'.
Qed.

(** The three searches return without changing the tree: [find] a node with the key
    when there is one, [find_largest_not_above] a node with the largest key up to the one
    given, [find_smallest_not_below] one with the smallest key from it on. *)
Theorem rbt_search_exact (s : Tree) (l : list (Z * nat)) (k : Z) :
  wf s l ->
  (exists q, find k s = (Ok q, s) /\ match q with Some a => (k, a) ∈ l | None => forall x, x ∈ l -> x.1 <> k end) /\
  (exists q, find_largest_not_above k s = (Ok q, s) /\ largest_not_above k l None q) /\
  (exists q, find_smallest_not_below k s = (Ok q, s) /\ smallest_not_below k l None q).
Proof.
  intros Hwf. split_and!.
  - destruct (find_ok s l k Hwf) as (q & ? & E & -> & H). by exists q.
  - destruct (wf_depth s l Hwf) as (t & Hrep & Hroot & <- & _ & Hd).
    destruct (find_largest_loop_ok s None t (fuel_of s) k None Hrep (w_sorted _ _ Hwf) Hd) as (q & ? & E & -> & H).
    exists q. split; [|done]. unfold find_largest_not_above. simpl. by rewrite Hroot.
  - destruct (wf_depth s l Hwf) as (t & Hrep & Hroot & <- & _ & Hd).
    destruct (find_smallest_loop_ok s None t (fuel_of s) k None Hrep (w_sorted _ _ Hwf) Hd) as (q & ? & E & -> & H).
    exists q. split; [|done]. unfold find_smallest_not_below. simpl. by rewrite Hroot.
Qed.

(** A loop from [begin] visits the nodes of the tree in the order of the sequence and
    then is at the end; [++] goes to the next node, and [--] after it back again. *)
Theorem rbt_iteration_exact (s : Tree) (l : list (Z * nat)) :
  wf s l ->
  (it ← begin; visit (fuel_of s) it) s = (Ok (Some <$> l.*2), s) /\
  forall l1 x y l2 prev, l = l1 ++ x :: y :: l2 ->
    iterator_next (mkIterator (Some x.2) prev) s = (Ok (mkIterator (Some y.2) (Some x.2)), s) /\
    iterator_prev (mkIterator (Some y.2) (Some x.2)) s = (Ok (mkIterator (Some x.2) (snd <$> last l1)), s).
Proof.
  intros Hwf. split.
  - destruct (visit_ok s [] l (fuel_of s) None Hwf) as (r & ? & E & -> & ->).
    { destruct (wf_on s l l.*2 Hwf) as (t & Hon & Hin & _); [done|]. apply on_fuel in Hon. unfold addrs in Hon. by rewrite length_fmap, Hin in Hon. }
    change (visit (fuel_of s) (mkIterator (m_minimum s) None) s = (Ok (Some <$> l.*2), s)). by rewrite (w_minimum _ _ Hwf).
  - intros l1 [kx x] [ky y] l2 prev ->. cbn [snd]. split.
    + destruct (ok_eq _ (fun next => kret (mkIterator next (Some x))) s _ _ (fun it s' => s' = s /\ it = mkIterator (Some y) (Some x))
        (successor_wf s l1 kx x ((ky, y) :: l2) Hwf)) as (it & ? & E & -> & ->); [by apply ok_ret|exact E].
    + destruct (ok_eq _ (fun prev => kret (mkIterator (Some x) prev)) s _ _ (fun it s' => s' = s /\ it = mkIterator (Some x) (snd <$> last l1))
        (predecessor_wf s l1 kx x ((ky, y) :: l2) Hwf)) as (it & ? & E & -> & ->); [by apply ok_ret|exact E].
Qed.

(** [clear] empties the tree and takes every node out of it. *)
Theorem rbt_clear_exact (s : Tree) (l : list (Z * nat)) :
  wf s l ->
  exists s', clear s = (Ok tt, s') /\ wf s' [] /\ (forall a, a ∈ l.*2 -> detached a s') /\
    forall b, b ∉ l.*2 -> nodes s' !! b = nodes s !! b.
Proof.
  intros Hwf. destruct (wf_depth s l Hwf) as (t & Hrep & Hroot & Hin & _ & Hf). assert (l.*2 = addrs t) as Hl by (unfold addrs; by rewrite Hin).
  destruct (clear_nodes_ok s None t (fuel_of s) Hrep) as ([] & s1 & E & [C1 C2 C3 C4]); [rewrite <- Hl; by apply Hwf|done|].
  exists (mkTree (nodes s1) None 0 None (m_in_tree s1)). split; [|split_and!].
  - destruct (ok_eq (clear_nodes (fuel_of s) (m_root s)) (fun _ => set_root None ;; set_minimum None ;; set_size 0) s tt s1
      (fun _ s' => s' = mkTree (nodes s1) None 0 None (m_in_tree s1))) as ([] & ? & E2 & ->); [by rewrite Hroot|by eexists _, _|exact E2].
  - replace (m_in_tree s1) with (∅ : gset nat).
    + apply wf_empty. pose proof (w_heap _ _ Hwf) as Hh. by rewrite <- size_dom, C4, size_dom.
    + apply set_eq. intros b. rewrite C3, (w_in_tree _ _ Hwf), elem_of_list_to_set, Hl. set_solver.
  - intros a. rewrite Hl. apply C2.
  - intros b. rewrite Hl. apply C1.
Qed.

(** C40: the searches are logarithmic.  In a tree of [n] nodes the loops of the searches
    and the descent of [insert] return within [2 * log2 (n + 1)] nodes: cut off one round
    later they give the results of the whole loops. *)
Theorem rbt_search_bounded (s : Tree) (l : list (Z * nat)) (k : Z) :
  wf s l ->
  let rounds := S (2 * Nat.log2 (S (length l))) in
  (exists q, find_loop rounds (m_root s) k s = (Ok q, s) /\ find k s = (Ok q, s)) /\
  (exists q, find_largest_loop rounds (m_root s) k None s = (Ok q, s) /\ find_largest_not_above k s = (Ok q, s)) /\
  (exists q, find_smallest_loop rounds (m_root s) k None s = (Ok q, s) /\ find_smallest_not_below k s = (Ok q, s)) /\
  (exists q, descend rounds k None (m_root s) s = (Ok q, s) /\ descend (fuel_of s) k None (m_root s) s = (Ok q, s)).
Proof.
  intros Hwf. cbn zeta. destruct (wf_depth s l Hwf) as (t & Hrep & Hroot & Hin & Hd & Hf). pose proof (w_sorted _ _ Hwf) as Hs. rewrite <- Hin in Hs.
  change (find k s) with (find_loop (fuel_of s) (m_root s) k s).
  change (find_largest_not_above k s) with (find_largest_loop (fuel_of s) (m_root s) k None s).
  change (find_smallest_not_below k s) with (find_smallest_loop (fuel_of s) (m_root s) k None s). rewrite Hroot. split_and!.
  - destruct (find_loop_ok s None t _ k Hrep Hs Hd) as (q & ? & E & -> & _). exists q. by rewrite (find_loop_fuel s k None t (fuel_of s) _ Hrep Hf Hd).
  - destruct (find_largest_loop_ok s None t _ k None Hrep Hs Hd) as (q & ? & E & -> & _). exists q.
    by rewrite (find_largest_loop_fuel s k None t (fuel_of s) _ None Hrep Hf Hd).
  - destruct (find_smallest_loop_ok s None t _ k None Hrep Hs Hd) as (q & ? & E & -> & _). exists q.
    by rewrite (find_smallest_loop_fuel s k None t (fuel_of s) _ None Hrep Hf Hd).
  - destruct (descend_returns s k None t (fuel_of s) None Hrep Hf) as [q E]. exists q.
    by rewrite <- (descend_fuel s k None t (fuel_of s) _ None Hrep Hf Hd).
Qed.

(** The states of a tree whose nodes start out as they are constructed. *)
Inductive reachable : Tree -> Prop :=
  | reach_start h : (forall a, a ∈ dom h -> exists k, h !! a = Some (mkNode None None None Red k)) -> Z.of_nat (size h) < 2 ^ 64 ->
      reachable (mkTree h None 0 None ∅)
  | reach_insert s a k r s' : reachable s -> fresh a s -> insert k (Some a) s = (r, s') -> reachable s'
  | reach_remove s k r s' : reachable s -> remove k s = (r, s') -> reachable s'
  | reach_clear s r s' : reachable s -> clear s = (r, s') -> reachable s'.


(** C39: in every state that insertions of new nodes, removals and clearings lead to, the
    tree is well-formed, so that every operation on it returns: no assertion of the code
    fails and no null pointer is followed. *)
Theorem rbt_reachable_safe (s : Tree) :
  reachable s ->
  exists l, wf s l /\
    (forall k a, a ∉ m_in_tree s -> fresh a s -> (insert k (Some a) s).1 = Ok tt) /\
    (forall k, (remove k s).1 = Ok (existsb (fun x => x.1 =? k) l)) /\ (clear s).1 = Ok tt.
Proof.
  intros Hr. assert (exists l, wf s l) as [l Hwf].
  { induction Hr as [h _ Hh|s a k r s' _ [l Hwf] Hf E|s k r s' _ [l Hwf] E|s r s' _ [l Hwf] E].
    - exists []. by apply wf_empty.
    - destruct (decide (a ∈ l.*2)) as [Ha|Ha].
      + exists l. unfold insert in E. simpl in E. rewrite (w_in_tree _ _ Hwf), bool_decide_false in E by (rewrite elem_of_list_to_set; tauto).
        by injection E as _ <-.
      + destruct (insert_ok s l a k Hwf Ha Hf) as (? & ? & E' & H & _). rewrite E in E'. injection E' as _ <-. by eexists.
    - destruct (remove_run s l k Hwf) as (? & E' & H). rewrite E in E'. injection E' as _ <-.
      destruct (existsb _ l); [|subst; by exists l]. destruct H as (l1 & a & l2 & _ & H & _). by eexists.
    - destruct (rbt_clear_exact s l Hwf) as (? & E' & H & _). rewrite E in E'. injection E' as _ <-. by eexists. }
  exists l. split; [done|]. split_and!.
  - intros k a Ha Hf. rewrite (w_in_tree _ _ Hwf), elem_of_list_to_set in Ha. by destruct (insert_ok s l a k Hwf Ha Hf) as ([] & ? & -> & _).
  - intros k. by destruct (remove_run s l k Hwf) as (? & -> & _).
  - by destruct (rbt_clear_exact s l Hwf) as (? & -> & _).
Qed.

(** ** Examples *)

Definition new_node : Node := mkNode None None None Red 0.
Definition five_nodes : gmap nat Node :=
  {[0%nat := new_node; 1%nat := new_node; 2%nat := new_node; 3%nat := new_node; 4%nat := new_node]}.
Definition empty_example : Tree := mkTree five_nodes None 0 None ∅.
Definition example : Tree :=
  (insert 40 (Some 3%nat) (insert 20 (Some 2%nat) (insert 10 (Some 1%nat) (insert 30 (Some 0%nat) empty_example).2).2).2).2.

Definition example_keys : list (Z * nat) := [(10, 1%nat); (20, 2%nat); (30, 0%nat); (40, 3%nat)].

Lemma example_wf : wf example example_keys.
Proof.
  split.
  - exists (T Black (T Black Leaf 1 10 Leaf) 2 20 (T Black Leaf 0 30 (T Red Leaf 3 40 Leaf))).
    split; [vm_compute; tauto|]. split; [by vm_compute|]. split; [done|].
    split; [done|]. split; [cbn; by split_and!|]. by exists 2%nat.
  - repeat (apply sorted_cons; split; [|intros y Hy; repeat (apply elem_of_cons in Hy as [->|Hy]; [cbn; lia|]); by apply elem_of_nil in Hy]).
    apply SSorted_nil.
  - apply (bool_decide_unpack _). by vm_compute.
  - by vm_compute.
  - by vm_compute.
  - by vm_compute.
  - by vm_compute.
Qed.

Lemma fresh_example : fresh 4 example.
Proof. exists 0. by vm_compute. Qed.

(** A node that was removed cannot always be inserted again.  [remove] resets the
    children of the node and its flag and leaves its colour: when that is black, the
    assertion of [insert_fixups] on the colour of the new node fails. *)
Theorem rbt_reinsert_fails :
  wf (remove 10 example).2 [(20, 2%nat); (30, 0%nat); (40, 3%nat)] /\ 1%nat ∉ m_in_tree (remove 10 example).2 /\
  (insert 10 (Some 1%nat) (remove 10 example).2).1 = Panic.
Proof.
  split; [|split; [apply (bool_decide_unpack _)|]; by vm_compute].
  destruct (remove_run example example_keys 10 example_wf) as (s' & E & l1 & a & l2 & Hl & Hwf & _). rewrite E. cbn [snd].
  destruct l1 as [|x l1]; [by injection Hl as _ <-|]. injection Hl as <- Hl.
  exfalso. assert ((10, a) ∈ [(20, 2%nat); (30, 0%nat); (40, 3%nat)]) as Hin by (rewrite Hl; apply elem_of_app; right; left).
  repeat (apply elem_of_cons in Hin as [Hin|Hin]; [done|]). by apply elem_of_nil in Hin.
Qed.

Lemma rbt_insert_exact_witness :
  exists s', insert 25 (Some 4%nat) example = (Ok tt, s') /\ wf s' (insert_key (25, 4%nat) example_keys) /\
    forall b, b ∉ (4%nat :: example_keys.*2) -> nodes s' !! b = nodes example !! b.
Proof. apply rbt_insert_exact; [exact example_wf|apply (bool_decide_unpack _); by vm_compute|exact fresh_example]. Defined.

Lemma rbt_remove_exact_witness :
  exists b s', remove 20 example = (Ok b, s') /\ b = existsb (fun x => x.1 =? 20) example_keys /\
    if b then exists l1 a l2, example_keys = l1 ++ (20, a) :: l2 /\ wf s' (l1 ++ l2) /\ detached a s' /\
                forall c, c ∉ example_keys.*2 -> nodes s' !! c = nodes example !! c
    else s' = example.
Proof. apply rbt_remove_exact. exact example_wf. Defined.

Lemma rbt_search_exact_witness :
  (exists q, find 25 example = (Ok q, example) /\
     match q with Some a => (25, a) ∈ example_keys | None => forall x, x ∈ example_keys -> x.1 <> 25 end) /\
  (exists q, find_largest_not_above 25 example = (Ok q, example) /\ largest_not_above 25 example_keys None q) /\
  (exists q, find_smallest_not_below 25 example = (Ok q, example) /\ smallest_not_below 25 example_keys None q).
Proof. apply rbt_search_exact. exact example_wf. Defined.

Lemma rbt_iteration_exact_witness :
  (it ← begin; visit (fuel_of example) it) example = (Ok (Some <$> example_keys.*2), example).
Proof. apply (rbt_iteration_exact example example_keys). exact example_wf. Defined.

Lemma rbt_search_bounded_witness :
  exists q, find_loop 5 (m_root example) 40 example = (Ok q, example) /\ find 40 example = (Ok q, example).
Proof. apply (rbt_search_bounded example example_keys 40 example_wf). Defined.

Lemma reach_insert_next s a k : reachable s -> fresh a s -> reachable (insert k (Some a) s).2.
Proof. intros Hr Hf. eapply (reach_insert s a k _ _ Hr Hf). apply surjective_pairing. Qed.

Lemma example_reachable : reachable example.
Proof.
  repeat (apply reach_insert_next; [|exists 0; by vm_compute]). apply reach_start; [|by vm_compute].
  intros a Ha. exists 0. apply elem_of_dom in Ha as [n Hn]. rewrite Hn. f_equal. unfold five_nodes in Hn.
  repeat (apply lookup_insert_Some in Hn as [[_ <-]|[_ Hn]]; [done|]). by apply lookup_singleton_Some in Hn as [_ <-].
Qed.

Lemma rbt_reachable_safe_witness :
  exists l, wf example l /\
    (forall k a, a ∉ m_in_tree example -> fresh a example -> (insert k (Some a) example).1 = Ok tt) /\
    (forall k, (remove k example).1 = Ok (existsb (fun x => x.1 =? k) l)) /\ (clear example).1 = Ok tt.
Proof. apply rbt_reachable_safe. exact example_reachable. Defined.
