(* ===== verification/RegionTree.v ===== *)
(** * Virtual ranges and the tree of regions: Kernel/Memory/VirtualRange.{h,cpp},
    Kernel/Memory/RegionTree.{h,cpp}, Kernel/Memory/Region.h

    An address space is a set of regions that do not overlap.  The intrusive red-black
    tree that holds them, keyed by start address, is represented by its in-order sequence,
    a list sorted by address: iteration walks the list, [find_largest_not_above] is the
    last element at or below the key.  Addresses are 64 bits wide and every sum of the
    code wraps; that no sum wraps in a well-formed tree is part of what is proved. *)

From S2P Require Import Prelude StdLibExtras.

(** ** Virtual addresses and ranges *)

Definition is_page_aligned (a : Z) : bool := Z.land a 4095 =? 0.
Definition page_base (a : Z) : Z := Z.land a (wrap 64 (Z.lnot 4095)).

Definition page_round_up (x : Z) : outcome Z :=
  if Z.land (2 ^ 64 - 1) (wrap 64 (Z.lnot 4095)) <? x then Err EINVAL
  else Ok (Z.land (wrap 64 (x + PAGE_SIZE - 1)) (wrap 64 (Z.lnot (PAGE_SIZE - 1)))).

Record VirtualRange := mkRange { m_base : Z; m_size : Z }.

#[export] Instance VirtualRange_eq_dec : EqDecision VirtualRange.
Proof. solve_decision. Defined.

Definition range_end (r : VirtualRange) : Z := wrap 64 (m_base r + m_size r).
Definition contains_address (r : VirtualRange) (a : Z) : bool := (m_base r <=? a) && (a <? range_end r).
Definition contains_span (r : VirtualRange) (base size : Z) : bool :=
  if wrap 64 (base + size) <? base then false
  else (m_base r <=? base) && (wrap 64 (base + size) <=? range_end r).
Definition contains (r other : VirtualRange) : bool := contains_span r (m_base other) (m_size other).

Definition carve (r taken : VirtualRange) : outcome (list VirtualRange) :=
  if negb (m_size taken mod PAGE_SIZE =? 0) then Panic else
  if bool_decide (taken = r) then kret [] else
  kret ((if m_base r <? m_base taken then [mkRange (m_base r) (wrap 64 (m_base taken - m_base r))] else [])
        ++ (if range_end taken <? range_end r
            then [mkRange (range_end taken) (wrap 64 (range_end r - range_end taken))] else [])).

Definition intersects (r other : VirtualRange) : bool :=
  let '(a, b) := if m_base other <? m_base r then (other, r) else (r, other) in
  (m_base a <? range_end b) && (m_base b <? range_end a).

Definition intersect (r other : VirtualRange) : outcome VirtualRange :=
  if bool_decide (r = other) then kret r else
  let new_base := Z.max (m_base r) (m_base other) in
  let new_end := Z.min (range_end r) (range_end other) in
  if negb (new_base <? new_end) then Panic else
  kret (mkRange new_base (wrap 64 (new_end - new_base))).

Definition expand_to_page_boundaries (address size : Z) : outcome VirtualRange :=
  if wrap 64 (address + size) <? address then Err EINVAL else
  let base := page_base address in
  end_ ← page_round_up (wrap 64 (address + size));
  kret (mkRange base (wrap 64 (end_ - base))).

(** ** Regions *)

Record VMObject := mkVMObject {
  vm_id : Z;
  vm_is_anonymous : bool;
  vm_is_inode : bool;
  vm_is_shared_inode : bool;
  vm_is_mmio : bool;
  vm_size : Z }.

Record Region := mkRegion {
  m_mapped : bool;
  m_range : VirtualRange;
  m_offset_in_vmobject : Z;
  m_vmobject : VMObject;
  m_name : option string;
  m_access : Z;
  m_shared : bool;
  m_cacheable : bool;
  m_stack : bool;
  m_mmap : bool;
  m_syscall_region : bool;
  m_mmapped_from_readable : bool;
  m_mmapped_from_writable : bool;
  m_immutable : bool;
  m_has_been_readable : bool;
  m_has_been_writable : bool;
  m_has_been_executable : bool }.

Definition vaddr (r : Region) : Z := m_base (m_range r).
Definition region_size (r : Region) : Z := m_size (m_range r).

Definition with_range (r : Region) (range : VirtualRange) : Region :=
  mkRegion (m_mapped r) range (m_offset_in_vmobject r) (m_vmobject r) (m_name r) (m_access r) (m_shared r)
    (m_cacheable r) (m_stack r) (m_mmap r) (m_syscall_region r) (m_mmapped_from_readable r)
    (m_mmapped_from_writable r) (m_immutable r) (m_has_been_readable r) (m_has_been_writable r)
    (m_has_been_executable r).

(** ** The tree *)

Fixpoint insert (region : Region) (regions : list Region) : list Region :=
  match regions with
  | [] => [region]
  | r :: rest => if vaddr region <? vaddr r then region :: r :: rest else r :: insert region rest
  end.
Definition remove (key : Z) (regions : list Region) : bool * list Region :=
  (existsb (fun r => vaddr r =? key) regions, filter (fun r => vaddr r <> key) regions).
Definition find (key : Z) (regions : list Region) : option Region :=
  List.find (fun r => vaddr r =? key) regions.
Definition find_largest_not_above (key : Z) (regions : list Region) : option Region :=
  last (filter (fun r => vaddr r <= key) regions).
(** The iteration from a region of the tree on. *)
Definition begin_from (region : Region) (regions : list Region) : list Region :=
  filter (fun r => vaddr region <= vaddr r) regions.

Record RegionTree := mkTree { m_regions : list Region; m_total_range : VirtualRange }.

(** ** Finding a free range *)

Definition allocate_from_window (size alignment : Z) (window : VirtualRange) : option VirtualRange :=
  if m_size window <? wrap 64 (size + alignment) then None else
  Some (mkRange (round_up_to_power_of_two (m_base window) alignment) size).

Fixpoint scan_windows (size alignment : Z) (total : VirtualRange) (regions : list Region) (window_start : Z)
    : outcome VirtualRange :=
  match regions with
  | [] =>
      let window := mkRange window_start (wrap 64 (range_end total - window_start)) in
      if contains total window then
        match allocate_from_window size alignment window with
        | Some range => kret range
        | None => Err ENOMEM
        end
      else Err ENOMEM
  | region :: rest =>
      if window_start =? vaddr region
      then scan_windows size alignment total rest (range_end (m_range region))
      else
        let window := mkRange window_start (wrap 64 (vaddr region - window_start)) in
        match allocate_from_window size alignment window with
        | Some range => kret range
        | None => scan_windows size alignment total rest (range_end (m_range region))
        end
  end.

Definition allocate_range_anywhere (t : RegionTree) (size alignment : Z) : outcome VirtualRange :=
  if size =? 0 then Err EINVAL else
  if negb (size mod PAGE_SIZE =? 0) then Panic else
  if negb (alignment mod PAGE_SIZE =? 0) then Panic else
  if 2 ^ 64 <=? size + alignment then Err EOVERFLOW else
  scan_windows size alignment (m_total_range t) (m_regions t) (m_base (m_total_range t)).

Definition allocate_range_specific (t : RegionTree) (base size : Z) : outcome VirtualRange :=
  if size =? 0 then Err EINVAL else
  if negb (is_page_aligned base) then Panic else
  if negb (size mod PAGE_SIZE =? 0) then Panic else
  let range := mkRange base size in
  if negb (contains (m_total_range t) range) then Err ENOMEM else
  match find_largest_not_above (wrap 64 (base + (size - 1))) (m_regions t) with
  | None => kret range
  | Some region => if intersects (m_range region) range then Err ENOMEM else kret range
  end.

(** [random] are the values of [get_fast_random] that the attempts draw. *)
Fixpoint randomized_attempts (attempts : nat) (random : nat -> Z) (t : RegionTree) (size alignment : Z)
    : outcome VirtualRange :=
  match attempts with
  | O => allocate_range_anywhere t size alignment
  | S attempts =>
      let random_address :=
        round_up_to_power_of_two (random attempts mod range_end (m_total_range t)) alignment in
      if negb (contains_span (m_total_range t) random_address size)
      then randomized_attempts attempts random t size alignment
      else
        match allocate_range_specific t random_address size with
        | Ok range => kret range
        | Err _ => randomized_attempts attempts random t size alignment
        | Panic => Panic
        end
  end.
Definition allocate_range_randomized (random : nat -> Z) (t : RegionTree) (size alignment : Z)
    : outcome VirtualRange :=
  if size =? 0 then Err EINVAL else
  if negb (size mod PAGE_SIZE =? 0) then Panic else
  if negb (alignment mod PAGE_SIZE =? 0) then Panic else
  randomized_attempts 1000 random t size alignment.

(** ** Placing and removing regions *)

Definition place_anywhere (random : nat -> Z) (t : RegionTree) (region : Region) (randomize : bool)
    (size alignment : Z) : outcome (Region * RegionTree) :=
  range ← (if randomize then allocate_range_randomized random t size alignment
           else allocate_range_anywhere t size alignment);
  let region := with_range region range in
  kret (region, mkTree (insert region (m_regions t)) (m_total_range t)).

Definition place_specifically (t : RegionTree) (region : Region) (range : VirtualRange)
    : outcome (Region * RegionTree) :=
  allocated_range ← allocate_range_specific t (m_base range) (m_size range);
  let region := with_range region allocated_range in
  kret (region, mkTree (insert region (m_regions t)) (m_total_range t)).

Definition remove_region (t : RegionTree) (region : Region) : bool * RegionTree :=
  let '(did_remove, l) := remove (vaddr region) (m_regions t) in
  (did_remove, mkTree l (m_total_range t)).

Definition find_region_containing_address (t : RegionTree) (address : Z) : option Region :=
  match find_largest_not_above address (m_regions t) with
  | None => None
  | Some region => if contains_address (m_range region) address then Some region else None
  end.
Definition find_region_containing (t : RegionTree) (range : VirtualRange) : option Region :=
  match find_largest_not_above (m_base range) (m_regions t) with
  | None => None
  | Some region => if contains (m_range region) range then Some region else None
  end.

(** ** Masks *)

Lemma ldiff_sub x m : Z.ldiff x m = x - Z.land x m.
Proof.
  rewrite Z.sub_nocarry_ldiff.
  - apply Z.bits_inj'. intros j _. rewrite !Z.ldiff_spec, Z.land_spec. by destruct (Z.testbit x j), (Z.testbit m j).
  - apply Z.bits_inj_0. intros j. rewrite Z.ldiff_spec, Z.land_spec. by destruct (Z.testbit x j), (Z.testbit m j).
Qed.

Lemma land_le_r x m : 0 <= m -> 0 <= Z.land x m <= m.
Proof.
  intros Hm. assert (0 <= Z.ldiff m x) as H by (apply Z.ldiff_nonneg; by left).
  rewrite ldiff_sub, Z.land_comm in H. split; [apply Z.land_nonneg; by right|lia].
Qed.

Lemma land_wrap_lnot x m : in_width 64 x -> 0 <= m -> Z.land x (wrap 64 (Z.lnot m)) = x - Z.land x m.
Proof.
  intros Hx Hm. rewrite <- ldiff_sub. apply Z.bits_inj'. intros j Hj. rewrite Z.land_spec, Z.ldiff_spec. unfold wrap.
  destruct (Z.ltb_spec j 64).
  - rewrite Z.mod_pow2_bits_low, Z.lnot_spec by lia. done.
  - rewrite (proj1 (Z.bounded_iff_bits_nonneg 64 x ltac:(lia) ltac:(apply Hx)) ltac:(apply Hx) j) by lia. done.
Qed.

Lemma land_4095 x : Z.land x 4095 = x mod 4096.
Proof. change 4095 with (Z.ones 12). by rewrite Z.land_ones by lia. Qed.

Lemma is_page_aligned_iff x : is_page_aligned x = true <-> x mod PAGE_SIZE = 0.
Proof. unfold is_page_aligned. rewrite land_4095, Z.eqb_eq. done. Qed.

Lemma mask_page x : in_width 64 x -> Z.land x (wrap 64 (Z.lnot 4095)) = x - x mod 4096.
Proof. intros Hx. rewrite land_wrap_lnot, land_4095 by (done || lia). done. Qed.

(** Rounding up: the result is the next multiple for a power of two, and for any multiple
    of the page size it is page aligned and lies less than the alignment above. *)
Lemma round_up_bounds v p :
  0 <= v -> 0 < p -> v + p <= 2 ^ 64 ->
  v <= round_up_to_power_of_two v p <= v + p - 1.
Proof.
  intros Hv Hp Hw. unfold round_up_to_power_of_two.
  destruct (decide (v = 0)) as [->|Hne].
  - rewrite land_wrap_lnot by (try apply wrap_range; lia).
    assert (wrap 64 (0 - 1) = Z.ones 64) as -> by done.
    rewrite (Z.land_comm (Z.ones 64)), Z.land_ones, Z.mod_small by lia.
    replace (Z.ones 64 - (p - 1) + p) with (2 ^ 64) by (change (Z.ones 64) with (2 ^ 64 - 1); lia).
    unfold wrap. rewrite Z.mod_same by lia. lia.
  - rewrite (wrap_small 64 (v - 1)) by (unfold in_width; lia).
    rewrite land_wrap_lnot by (unfold in_width; lia).
    pose proof (land_le_r (v - 1) (p - 1) ltac:(lia)) as Hl.
    destruct (decide (v - 1 - Z.land (v - 1) (p - 1) + p = 2 ^ 64)) as [E|E].
    + exfalso. lia.
    + rewrite wrap_small by (unfold in_width; lia). lia.
Qed.

Lemma round_up_multiple v p q :
  0 <= v -> 0 < p -> v + p <= 2 ^ 64 -> 0 < q -> p mod q = 0 ->
  (forall x, Z.land x (p - 1) mod q = x mod q) -> round_up_to_power_of_two v p mod q = 0.
Proof.
  intros Hv Hp Hw Hq Hpq Hland. unfold round_up_to_power_of_two.
  destruct (decide (v = 0)) as [->|Hne].
  - rewrite land_wrap_lnot by (try apply wrap_range; lia).
    assert (wrap 64 (0 - 1) = Z.ones 64) as -> by done.
    rewrite (Z.land_comm (Z.ones 64)), Z.land_ones, (Z.mod_small (p - 1)) by lia.
    replace (Z.ones 64 - (p - 1) + p) with (2 ^ 64) by (change (Z.ones 64) with (2 ^ 64 - 1); lia).
    unfold wrap. by rewrite Z.mod_same, Z.mod_0_l by lia.
  - rewrite (wrap_small 64 (v - 1)) by (unfold in_width; lia).
    rewrite land_wrap_lnot by (unfold in_width; lia).
    pose proof (land_le_r (v - 1) (p - 1) ltac:(lia)) as Hl.
    rewrite wrap_small by (unfold in_width; lia).
    apply Z.mod_divide in Hpq; [|lia]. apply Z.mod_divide; [lia|]. apply Z.divide_add_r; [|done].
    apply Z.mod_divide; [lia|]. rewrite Zminus_mod, Hland, Z.sub_diag. by apply Z.mod_0_l; lia.
Qed.

Lemma round_up_page v p :
  0 <= v -> 0 < p -> v + p <= 2 ^ 64 -> p mod PAGE_SIZE = 0 ->
  round_up_to_power_of_two v p mod PAGE_SIZE = 0.
Proof.
  intros Hv Hp Hw Ha. apply round_up_multiple; try done. intros x. unfold PAGE_SIZE in *.
  change 4096 with (2 ^ 12). rewrite <- !Z.land_ones, <- Z.land_assoc by lia. f_equal.
  rewrite Z.land_ones by lia. change (Z.ones 12) with 4095.
  apply Z.mod_divide in Ha as [k ->]; [|done]. replace (k * 4096 - 1) with (4095 + (k - 1) * 4096) by lia.
  change (2 ^ 12) with 4096. by rewrite Z.mod_add.
Qed.

Lemma round_up_power v k :
  0 <= v -> 0 <= k -> v + 2 ^ k <= 2 ^ 64 -> round_up_to_power_of_two v (2 ^ k) mod 2 ^ k = 0.
Proof.
  intros Hv Hk Hw. apply round_up_multiple; try lia; [by apply Z.mod_same; lia|].
  intros x. replace (2 ^ k - 1) with (Z.ones k) by (rewrite Z.ones_equiv; lia).
  rewrite Z.land_ones, Z.mod_mod by lia. done.
Qed.

(** ** Well-formed trees *)

(** The regions fit one after the other between [lo] and [hi]. *)
Fixpoint chain (lo : Z) (l : list Region) (hi : Z) : Prop :=
  match l with
  | [] => lo <= hi
  | r :: l => lo <= vaddr r /\ 0 < region_size r /\ vaddr r mod PAGE_SIZE = 0 /\ region_size r mod PAGE_SIZE = 0 /\
              chain (vaddr r + region_size r) l hi
  end.

Record tree_ok (t : RegionTree) : Prop := {
  t_base : 0 <= m_base (m_total_range t);
  t_size : 0 <= m_size (m_total_range t);
  t_end : m_base (m_total_range t) + m_size (m_total_range t) < 2 ^ 64;
  t_chain : chain (m_base (m_total_range t)) (m_regions t)
              (m_base (m_total_range t) + m_size (m_total_range t)) }.

(** Two ranges share no address. *)
Definition apart (r1 r2 : VirtualRange) : Prop :=
  m_base r1 + m_size r1 <= m_base r2 \/ m_base r2 + m_size r2 <= m_base r1.

(** The range is inside the total range and overlaps no region. *)
Definition is_free (t : RegionTree) (range : VirtualRange) : Prop :=
  m_base (m_total_range t) <= m_base range /\
  m_base range + m_size range <= m_base (m_total_range t) + m_size (m_total_range t) /\
  forall r, r ∈ m_regions t -> apart (m_range r) range.

Lemma chain_le lo l hi : chain lo l hi -> lo <= hi.
Proof. revert lo. induction l as [|r l IH]; intros lo; simpl; [done|]. intros (? & ? & _ & _ & H%IH). lia. Qed.

Lemma chain_elem lo l hi r :
  chain lo l hi -> r ∈ l ->
  lo <= vaddr r /\ 0 < region_size r /\ vaddr r + region_size r <= hi /\
  vaddr r mod PAGE_SIZE = 0 /\ region_size r mod PAGE_SIZE = 0.
Proof.
  revert lo. induction l as [|x l IH]; intros lo; simpl; [by intros _ ?%not_elem_of_nil|].
  intros (H1 & H2 & H3 & H4 & Hc) [->|Hr]%elem_of_cons.
  - pose proof (chain_le _ _ _ Hc). split_and!; [lia|lia|lia|done|done].
  - destruct (IH _ Hc Hr) as (? & ? & ? & ? & ?). split_and!; [lia|lia|lia|done|done].
Qed.

Lemma chain_weaken lo lo' l hi hi' : lo' <= lo -> hi <= hi' -> chain lo l hi -> chain lo' l hi'.
Proof.
  revert lo lo'. induction l as [|r l IH]; intros lo lo' Hlo Hhi; simpl; [lia|].
  intros (? & ? & ? & ? & Hc). split_and!; [lia|done|done|done|]. by apply (IH (vaddr r + region_size r)).
Qed.

Lemma chain_app lo l1 r l2 hi :
  chain lo (l1 ++ r :: l2) hi -> chain lo l1 (vaddr r) /\ chain (vaddr r + region_size r) l2 hi.
Proof.
  revert lo. induction l1 as [|x l1 IH]; intros lo; simpl.
  - intros (? & ? & ? & ? & Hc). by split.
  - intros (? & ? & ? & ? & Hc). destruct (IH _ Hc). split; [split_and!; done|done].
Qed.

Lemma range_end_small b s : 0 <= b -> 0 <= s -> b + s < 2 ^ 64 -> range_end (mkRange b s) = b + s.
Proof. intros. unfold range_end. simpl. apply wrap_small. unfold in_width. lia. Qed.

Section tree.
Context (t : RegionTree) (Hok : tree_ok t).

Lemma total_end : range_end (m_total_range t) = m_base (m_total_range t) + m_size (m_total_range t).
Proof using Hok. destruct Hok as [? ? ? _]. unfold range_end. apply wrap_small. unfold in_width. lia. Qed.

Lemma region_facts r :
  r ∈ m_regions t ->
  m_base (m_total_range t) <= vaddr r /\ 0 < region_size r /\
  vaddr r + region_size r <= m_base (m_total_range t) + m_size (m_total_range t) /\
  vaddr r mod PAGE_SIZE = 0 /\ region_size r mod PAGE_SIZE = 0 /\
  range_end (m_range r) = vaddr r + region_size r.
Proof using Hok.
  intros Hr. destruct (chain_elem _ _ _ _ (t_chain _ Hok) Hr) as (H1 & H2 & H3 & H4 & H5).
  split_and!; try done. unfold range_end. apply wrap_small. destruct Hok. unfold in_width, vaddr, region_size in *. lia.
Qed.

Lemma contains_total base size :
  0 <= base < 2 ^ 64 -> 0 <= size < 2 ^ 64 ->
  contains_span (m_total_range t) base size = true <->
  m_base (m_total_range t) <= base /\ base + size <= m_base (m_total_range t) + m_size (m_total_range t).
Proof using Hok.
  intros Hb Hs. unfold contains_span. rewrite total_end. destruct Hok as [H1 H2 H3 _].
  destruct (Z.ltb_spec (base + size) (2 ^ 64)).
  - rewrite wrap_small by (unfold in_width; lia). rewrite (proj2 (Z.ltb_ge _ _)) by lia.
    rewrite andb_true_iff, !Z.leb_le. done.
  - assert (wrap 64 (base + size) = base + size - 2 ^ 64) as ->.
    { unfold wrap. rewrite <- (Z.mod_small (base + size - 2 ^ 64) (2 ^ 64)) by lia.
      replace (base + size) with (base + size - 2 ^ 64 + 1 * 2 ^ 64) at 1 by lia. by rewrite Z.mod_add. }
    rewrite (proj2 (Z.ltb_lt _ _)) by lia. split; [done|lia].
Qed.
End tree.

(** ** Searching *)

Lemma filter_none {A} (P : A -> Prop) `{forall x, Decision (P x)} (l : list A) :
  (forall x, x ∈ l -> ~ P x) -> filter P l = [].
Proof.
  induction l as [|x l IH]; intros Hn; [done|]. rewrite filter_cons, decide_False by (apply Hn; left).
  apply IH. intros y Hy. apply Hn. by right.
Qed.

Lemma find_largest_split lo l hi k :
  chain lo l hi ->
  match find_largest_not_above k l with
  | Some r => exists l1 l2, l = l1 ++ r :: l2 /\ vaddr r <= k /\ forall x, x ∈ l2 -> k < vaddr x
  | None => forall x, x ∈ l -> k < vaddr x
  end.
Proof.
  unfold find_largest_not_above. revert lo. induction l as [|r l IH]; intros lo Hc; simpl.
  { intros x Hx. by apply not_elem_of_nil in Hx. }
  destruct Hc as (H1 & H2 & _ & _ & Hc). specialize (IH _ Hc).
  rewrite filter_cons. destruct (decide (vaddr r <= k)) as [Hle|Hgt].
  - rewrite last_cons. destruct (last (filter (fun r0 => vaddr r0 <= k) l)) as [x|].
    + destruct IH as (l1 & l2 & -> & Hx & Hl2). by exists (r :: l1), l2.
    + exists [], l. by split_and!.
  - assert (forall x, x ∈ l -> k < vaddr x) as Hall.
    { intros x Hx. destruct (chain_elem _ _ _ _ Hc Hx) as (? & _). lia. }
    replace (filter (fun r0 => vaddr r0 <= k) l) with (@nil Region); simpl.
    + intros x [->|Hx]%elem_of_cons; [lia|by apply Hall].
    + symmetry. apply filter_none. intros x Hx. specialize (Hall x Hx). lia.
Qed.

(** ** Finding free ranges *)

Definition aligned_to (alignment base : Z) : Prop :=
  base mod PAGE_SIZE = 0 /\ forall k, 0 <= k -> alignment = 2 ^ k -> base mod alignment = 0.

Lemma allocate_from_window_spec size alignment base wsize :
  0 <= base -> 0 < size -> 0 < alignment -> alignment mod PAGE_SIZE = 0 -> size + alignment < 2 ^ 64 ->
  base + wsize < 2 ^ 64 ->
  match allocate_from_window size alignment (mkRange base wsize) with
  | Some r => m_size r = size /\ base <= m_base r /\ m_base r + size <= base + wsize /\ aligned_to alignment (m_base r)
  | None => wsize < size + alignment
  end.
Proof.
  intros Hb Hs Ha Hap Hov Hw. unfold allocate_from_window. cbn [m_base m_size].
  rewrite wrap_small by (unfold in_width; lia). destruct (Z.ltb_spec wsize (size + alignment)); [done|]. cbn [m_base m_size].
  pose proof (round_up_bounds base alignment Hb Ha ltac:(lia)). split_and!; [done|lia|lia|]. split.
  - apply round_up_page; (done || lia).
  - intros k Hk ->. apply round_up_power; lia.
Qed.

Section scan.
Context (t : RegionTree) (Hok : tree_ok t) (size alignment : Z).
Context (Hs : 0 < size) (Ha : 0 < alignment) (Hap : alignment mod PAGE_SIZE = 0) (Hov : size + alignment < 2 ^ 64).
Notation lo := (m_base (m_total_range t)).
Notation hi := (m_base (m_total_range t) + m_size (m_total_range t)).

Lemma scan_windows_spec l start :
  lo <= start -> chain start l hi ->
  match scan_windows size alignment (m_total_range t) l start with
  | Ok r => m_size r = size /\ start <= m_base r /\ m_base r + size <= hi /\ aligned_to alignment (m_base r) /\
            forall x, x ∈ l -> apart (m_range x) r
  | Err e => e = ENOMEM /\ forall b, start <= b -> b + (size + alignment) <= hi ->
             exists x, x ∈ l /\ ~ apart (m_range x) (mkRange b (size + alignment))
  | Panic => False
  end.
Proof using Hok Hs Ha Hap Hov.
  destruct Hok as [H1 H2 H3 _]. revert start. induction l as [|r l IH]; intros start Hlo Hc; cbn [scan_windows].
  - pose proof (chain_le _ _ _ Hc) as Hle. rewrite (total_end t Hok).
    rewrite (wrap_small 64 (hi - start)) by (unfold in_width; lia).
    unfold contains. cbn [m_base m_size]. rewrite (proj2 (contains_total t Hok start (hi - start) ltac:(lia) ltac:(lia))) by lia.
    pose proof (allocate_from_window_spec size alignment start (hi - start) ltac:(lia) Hs Ha Hap Hov ltac:(lia)) as Hw.
    destruct (allocate_from_window _ _ _) as [w|]; simpl.
    + destruct Hw as (? & ? & ? & ?). split_and!; [done|lia|lia|done|]. intros x Hx. by apply not_elem_of_nil in Hx.
    + split; [done|]. intros b ? ?. lia.
  - pose proof Hc as (Hr1 & Hr2 & Hr3 & Hr4 & Hc'). pose proof (chain_le _ _ _ Hc') as Hle.
    assert (range_end (m_range r) = vaddr r + region_size r) as He.
    { unfold range_end. apply wrap_small. unfold in_width, vaddr, region_size in *. lia. }
    rewrite He. specialize (IH (vaddr r + region_size r) ltac:(lia) Hc').
    assert (forall x, x ∈ l -> vaddr r + region_size r <= vaddr x) as Hafter.
    { intros x Hx. by destruct (chain_elem _ _ _ _ Hc' Hx). }
    (* the rest of the list, when nothing was found before the region *)
    assert (forall w, 0 <= w < size + alignment -> w = vaddr r - start ->
      match scan_windows size alignment (m_total_range t) l (vaddr r + region_size r) with
      | Ok r0 => m_size r0 = size /\ start <= m_base r0 /\ m_base r0 + size <= hi /\ aligned_to alignment (m_base r0) /\
            forall x, x ∈ r :: l -> apart (m_range x) r0
      | Err e => e = ENOMEM /\ forall b, start <= b -> b + (size + alignment) <= hi ->
             exists x, x ∈ r :: l /\ ~ apart (m_range x) (mkRange b (size + alignment))
      | Panic => False
      end) as Hrest.
    { intros w Hw Ew. destruct (scan_windows _ _ _ l _) as [r0|e|]; [| |done].
      - destruct IH as (? & ? & ? & ? & Hap0). split_and!; [done|lia|lia|done|].
        intros x [->|Hx]%elem_of_cons; [|by apply Hap0]. left. unfold vaddr, region_size in *. lia.
      - destruct IH as [-> IH]. split; [done|]. intros b Hb Hbe.
        destruct (Z.leb_spec (vaddr r + region_size r) b).
        + destruct (IH b ltac:(lia) Hbe) as (x & Hx & Hn). exists x. split; [by right|done].
        + exists r. split; [by left|]. unfold apart. simpl. unfold vaddr, region_size in *. lia. }
    destruct (Z.eqb_spec start (vaddr r)) as [E|E].
    + apply (Hrest 0); lia.
    + rewrite (wrap_small 64 (vaddr r - start)) by (unfold in_width; lia).
      pose proof (allocate_from_window_spec size alignment start (vaddr r - start) ltac:(lia) Hs Ha Hap Hov ltac:(lia)) as Hw.
      destruct (allocate_from_window _ _ _) as [w|]; simpl; [|apply (Hrest (vaddr r - start)); lia].
      destruct Hw as (Ew & ? & ? & ?). split_and!; [done|lia|lia|done|].
      intros x [->|Hx]%elem_of_cons; right; rewrite Ew; [unfold vaddr in *; lia|].
      specialize (Hafter x Hx). unfold vaddr, region_size in *. lia.
Qed.
End scan.

Lemma allocate_range_specific_spec t base size :
  tree_ok t -> 0 <= base < 2 ^ 64 -> base mod PAGE_SIZE = 0 -> 0 < size < 2 ^ 64 -> size mod PAGE_SIZE = 0 ->
  (allocate_range_specific t base size = Ok (mkRange base size) /\ is_free t (mkRange base size)) \/
  (allocate_range_specific t base size = Err ENOMEM /\ ~ is_free t (mkRange base size)).
Proof.
  intros Hok Hb Hba Hs Hsa. unfold allocate_range_specific. rewrite (proj2 (Z.eqb_neq _ _)) by lia.
  rewrite (proj2 (is_page_aligned_iff base)), Hsa by done. cbn [negb Z.eqb].
  unfold contains. cbn [m_base m_size].
  destruct (contains_span (m_total_range t) base size) eqn:Ec; cbn [negb].
  2: { right. split; [done|]. intros (H1 & H2 & _). simpl in *.
       rewrite (proj2 (contains_total t Hok base size Hb ltac:(lia))) in Ec by lia. done. }
  apply (contains_total t Hok) in Ec as [H1 H2]; [|lia|lia]. pose proof (t_end _ Hok).
  rewrite wrap_small by (unfold in_width; lia).
  pose proof (find_largest_split _ _ _ (base + (size - 1)) (t_chain _ Hok)) as Hf.
  destruct (find_largest_not_above _ _) as [r|].
  - destruct Hf as (l1 & l2 & El & Hr & Hl2).
    assert (r ∈ m_regions t) as Hin by (rewrite El; set_solver).
    destruct (region_facts t Hok r Hin) as (? & ? & ? & _ & _ & Er).
    assert (range_end (mkRange base size) = base + size) as Eb by (apply range_end_small; lia).
    assert (intersects (m_range r) (mkRange base size) = true <-> base < vaddr r + region_size r) as Hi.
    { unfold intersects. cbn [m_base]. destruct (Z.ltb_spec base (m_base (m_range r))); rewrite Er, Eb; cbn [m_base];
        rewrite andb_true_iff, !Z.ltb_lt; unfold vaddr, region_size in *; lia. }
    destruct (intersects (m_range r) (mkRange base size)).
    + right. split; [done|]. intros (_ & _ & Hap). specialize (Hap r Hin). unfold apart in Hap. simpl in Hap.
      assert (base < vaddr r + region_size r) by by apply Hi. unfold vaddr, region_size in *. lia.
    + left. split; [done|]. split_and!; [done|done|]. intros x Hx. unfold apart. simpl.
      assert (vaddr r + region_size r <= base) as Hle by (destruct (Z.leb_spec (vaddr r + region_size r) base); [done|by apply Hi in H5]).
      destruct (chain_app _ l1 r l2 _ ltac:(rewrite <- El; apply (t_chain _ Hok))) as [C1 C2].
      rewrite El in Hx. apply elem_of_app in Hx as [Hx|[->|Hx]%elem_of_cons].
      * left. destruct (chain_elem _ _ _ _ C1 Hx) as (_ & _ & ? & _). unfold vaddr, region_size in *. lia.
      * left. unfold vaddr, region_size in *. lia.
      * right. specialize (Hl2 x Hx). unfold vaddr in *. lia.
  - left. split; [done|]. split_and!; [done|done|]. intros x Hx. right. specialize (Hf x Hx). unfold vaddr in *. simpl. lia.
Qed.

Lemma randomized_attempts_spec n random t size alignment :
  tree_ok t -> 0 < size -> size mod PAGE_SIZE = 0 -> 0 < alignment -> alignment mod PAGE_SIZE = 0 ->
  size + alignment < 2 ^ 64 -> 0 < m_base (m_total_range t) + m_size (m_total_range t) ->
  m_base (m_total_range t) + m_size (m_total_range t) + alignment <= 2 ^ 64 ->
  match randomized_attempts n random t size alignment with
  | Ok r => m_size r = size /\ is_free t r /\ aligned_to alignment (m_base r)
  | Err e => e = ENOMEM /\ forall b, m_base (m_total_range t) <= b -> ~ is_free t (mkRange b (size + alignment))
  | Panic => False
  end.
Proof.
  intros Hok Hs Hsp Ha Hap Hov Hpos Hroom. pose proof (t_base _ Hok) as Hb0.
  induction n as [|n IH]; cbn [randomized_attempts].
  - unfold allocate_range_anywhere. rewrite (proj2 (Z.eqb_neq _ _)), Hsp, Hap by lia. cbn [negb Z.eqb].
    rewrite (proj2 (Z.leb_gt _ _)) by lia.
    pose proof (scan_windows_spec t Hok size alignment Hs Ha Hap Hov (m_regions t) (m_base (m_total_range t)) ltac:(lia) (t_chain _ Hok)) as Hw.
    destruct (scan_windows _ _ _ _ _) as [r|e|]; [| |done].
    + destruct Hw as (Er & ? & ? & ? & Hap0). split_and!; [done| |done]. rewrite <- Er in *. by split_and!.
    + destruct Hw as [-> Hw]. split; [done|]. intros b Hb (_ & Hbe & Hfree). simpl in *.
      destruct (Hw b Hb Hbe) as (x & Hx & Hn). by apply Hn, Hfree.
  - rewrite (total_end t Hok). set (v := random n mod _).
    assert (0 <= v < m_base (m_total_range t) + m_size (m_total_range t)) as Hv by (apply Z.mod_pos_bound; lia).
    pose proof (round_up_bounds v alignment ltac:(lia) Ha ltac:(lia)) as Hr.
    pose proof (round_up_page v alignment ltac:(lia) Ha ltac:(lia) Hap) as Hrp.
    assert (aligned_to alignment (round_up_to_power_of_two v alignment)) as Hal.
    { split; [done|]. intros k Hk ->. apply round_up_power; lia. }
    set (a := round_up_to_power_of_two v alignment) in *.
    destruct (contains_span _ a size); cbn [negb]; [|exact IH].
    destruct (allocate_range_specific_spec t a size Hok ltac:(lia) Hrp ltac:(lia) Hsp) as [[-> Hf]|[-> _]]; [|exact IH].
    by split_and!.
Qed.

(** ** Inserting and removing *)

Lemma elem_of_insert x r l : x ∈ insert r l <-> x = r \/ x ∈ l.
Proof.
  induction l as [|y l IH]; simpl; [by rewrite list_elem_of_singleton, elem_of_nil; naive_solver|].
  destruct (vaddr r <? vaddr y); rewrite !elem_of_cons, ?IH; tauto.
Qed.

Lemma insert_chain lo l hi r :
  chain lo l hi -> lo <= vaddr r -> 0 < region_size r -> vaddr r + region_size r <= hi ->
  vaddr r mod PAGE_SIZE = 0 -> region_size r mod PAGE_SIZE = 0 ->
  (forall x, x ∈ l -> apart (m_range x) (m_range r)) -> chain lo (insert r l) hi.
Proof.
  intros Hc Hlo Hs Hhi Ha Hsa Hap. revert lo Hc Hlo. induction l as [|y l IH]; intros lo Hc Hlo; simpl in *.
  { split_and!; done || lia. }
  destruct Hc as (H1 & H2 & H3 & H4 & Hc). assert (apart (m_range y) (m_range r)) as Hy by (apply Hap; left).
  unfold apart in Hy. destruct (Z.ltb_spec (vaddr r) (vaddr y)); simpl.
  - split_and!; try done. unfold vaddr, region_size in *. lia.
  - split_and!; try done. apply IH; [|done|unfold vaddr, region_size in *; lia].
    intros x Hx. apply Hap. by right.
Qed.

Lemma tree_ok_insert t r :
  tree_ok t -> is_free t (m_range r) -> 0 < region_size r -> vaddr r mod PAGE_SIZE = 0 ->
  region_size r mod PAGE_SIZE = 0 -> tree_ok (mkTree (insert r (m_regions t)) (m_total_range t)).
Proof.
  intros [H1 H2 H3 H4] (F1 & F2 & F3) Hs Ha Hsa. split; simpl; try done. by apply insert_chain.
Qed.

Lemma chain_filter lo l hi P `{forall x, Decision (P x)} : chain lo l hi -> chain lo (filter P l) hi.
Proof.
  revert lo. induction l as [|y l IH]; intros lo; [done|]. intros (H1 & H2 & H3 & H4 & Hc).
  rewrite filter_cons. destruct (decide (P y)).
  - simpl. split_and!; try done. by apply IH.
  - apply (chain_weaken (vaddr y + region_size y) _ _ hi); [lia|lia|by apply IH].
Qed.

Lemma tree_ok_remove t r : tree_ok t -> tree_ok (snd (remove_region t r)).
Proof. intros [H1 H2 H3 H4]. split; simpl; try done. by apply chain_filter. Qed.

Lemma chain_unique lo l hi x y : chain lo l hi -> x ∈ l -> y ∈ l -> vaddr x = vaddr y -> x = y.
Proof.
  revert lo. induction l as [|z l IH]; intros lo; [by intros _ ?%not_elem_of_nil|].
  intros (H1 & H2 & _ & _ & Hc) [->|Hx]%elem_of_cons [->|Hy]%elem_of_cons E; [done| | |by eapply IH].
  - destruct (chain_elem _ _ _ _ Hc Hy) as (? & _). lia.
  - destruct (chain_elem _ _ _ _ Hc Hx) as (? & _). lia.
Qed.

Lemma remove_region_spec t r :
  tree_ok t -> r ∈ m_regions t ->
  fst (remove_region t r) = true /\ m_total_range (snd (remove_region t r)) = m_total_range t /\
  forall x, x ∈ m_regions (snd (remove_region t r)) <-> x ∈ m_regions t /\ x <> r.
Proof.
  intros Hok Hr. simpl. split_and!; [|done|].
  - apply existsb_exists. exists r. split; [by apply list_elem_of_In|]. by apply Z.eqb_eq.
  - intros x. rewrite list_elem_of_filter. split.
    + intros [Hn Hx]. split; [done|]. by intros ->.
    + intros [Hx Hn]. split; [|done]. intros E. apply Hn. by apply (chain_unique _ _ _ _ _ (t_chain _ Hok)).
Qed.

(** Regions of a tree do not overlap. *)
Lemma chain_apart lo l hi x y : chain lo l hi -> x ∈ l -> y ∈ l -> x <> y -> apart (m_range x) (m_range y).
Proof.
  revert lo. induction l as [|z l IH]; intros lo; [by intros _ ?%not_elem_of_nil|].
  intros (H1 & H2 & _ & _ & Hc) [->|Hx]%elem_of_cons [->|Hy]%elem_of_cons Hne; [done| | |by eapply IH].
  - left. destruct (chain_elem _ _ _ _ Hc Hy) as (? & _). done.
  - right. destruct (chain_elem _ _ _ _ Hc Hx) as (? & _). done.
Qed.

(** The region that contains a range is found if there is one. *)
Lemma find_region_containing_spec t range :
  tree_ok t -> 0 <= m_base range -> 0 < m_size range -> m_base range + m_size range < 2 ^ 64 ->
  match find_region_containing t range with
  | Some r => r ∈ m_regions t /\ vaddr r <= m_base range /\ m_base range + m_size range <= vaddr r + region_size r
  | None => forall r, r ∈ m_regions t ->
      ~ (vaddr r <= m_base range /\ m_base range + m_size range <= vaddr r + region_size r)
  end.
Proof.
  intros Hok Hb Hs He. unfold find_region_containing.
  pose proof (find_largest_split _ _ _ (m_base range) (t_chain _ Hok)) as Hf.
  destruct (find_largest_not_above _ _) as [r|].
  - destruct Hf as (l1 & l2 & El & Hr & Hl2). assert (r ∈ m_regions t) as Hin by (rewrite El; set_solver).
    destruct (region_facts t Hok r Hin) as (? & ? & ? & _ & _ & Er).
    unfold contains, contains_span. rewrite Er, wrap_small by (unfold in_width; lia).
    rewrite (proj2 (Z.ltb_ge _ _)) by lia. fold (vaddr r).
    destruct (Z.leb_spec (vaddr r) (m_base range)), (Z.leb_spec (m_base range + m_size range) (vaddr r + region_size r));
      simpl; try lia; [by split_and!|].
    intros x Hx [Hx1 Hx2]. rewrite El in Hx.
    destruct (chain_app _ l1 r l2 _ ltac:(rewrite <- El; apply (t_chain _ Hok))) as [C1 C2].
    apply elem_of_app in Hx as [Hx|[->|Hx]%elem_of_cons]; [|lia|].
    + destruct (chain_elem _ _ _ _ C1 Hx) as (_ & _ & ? & _). lia.
    + specialize (Hl2 x Hx). lia.
  - intros r Hr [Hx _]. specialize (Hf r Hr). lia.
Qed.

(** ** Placing regions *)

(** A request for memory that can be served at all. *)
Record request_ok (t : RegionTree) (size alignment : Z) : Prop := {
  q_size : 0 < size;
  q_size_pages : size mod PAGE_SIZE = 0;
  q_alignment : 0 < alignment;
  q_alignment_pages : alignment mod PAGE_SIZE = 0;
  q_sum : size + alignment < 2 ^ 64;
  q_room : 0 < m_base (m_total_range t) + m_size (m_total_range t) <= 2 ^ 64 - alignment }.

(** Placing a region anywhere, at a random address or in the first window, never fails an
    assertion.  On success the region lies inside the address space, has the requested
    size, is page aligned and aligned to the requested power of two and overlaps no other
    region; the tree stays well formed and has exactly one region more.  It fails only
    with ENOMEM, and then no run of size + alignment addresses is free. *)
Theorem place_anywhere_exact random t region randomize size alignment :
  tree_ok t -> request_ok t size alignment ->
  match place_anywhere random t region randomize size alignment with
  | Ok (r, t') =>
      region_size r = size /\ is_free t (m_range r) /\ aligned_to alignment (vaddr r) /\ tree_ok t' /\
      forall x, x ∈ m_regions t' <-> x = r \/ x ∈ m_regions t
  | Err e => e = ENOMEM /\ forall b, m_base (m_total_range t) <= b -> ~ is_free t (mkRange b (size + alignment))
  | Panic => False
  end.
Proof.
  intros Hok [Hs Hsp Ha Hap Hov Hroom]. unfold place_anywhere.
  assert (match (if randomize then allocate_range_randomized random t size alignment
                 else allocate_range_anywhere t size alignment) with
    | Ok r => m_size r = size /\ is_free t r /\ aligned_to alignment (m_base r)
    | Err e => e = ENOMEM /\ forall b, m_base (m_total_range t) <= b -> ~ is_free t (mkRange b (size + alignment))
    | Panic => False
    end) as Hres.
  { destruct randomize.
    - unfold allocate_range_randomized. rewrite (proj2 (Z.eqb_neq _ _)), Hsp, Hap by lia. cbn [negb Z.eqb].
      apply randomized_attempts_spec; (done || lia).
    - apply (randomized_attempts_spec 0 random); (done || lia). }
  destruct (if randomize then _ else _) as [r|e|]; [|done|done]. destruct Hres as (Er & Hf & Hal).
  cbn [kbind outcome_monad kret]. split_and!; [done|done|done| |].
  - apply tree_ok_insert; simpl; try done; unfold region_size, vaddr; simpl; [lia|apply Hal|by rewrite Er].
  - intros x. apply elem_of_insert.
Qed.

(** Placing a region at a given range succeeds exactly when the range lies inside the
    address space and overlaps no region; otherwise it fails with ENOMEM and nothing
    changes.  The tree stays well formed. *)
Theorem place_specifically_exact t region range :
  tree_ok t -> 0 <= m_base range < 2 ^ 64 -> m_base range mod PAGE_SIZE = 0 ->
  0 < m_size range < 2 ^ 64 -> m_size range mod PAGE_SIZE = 0 ->
  (is_free t range /\ exists t', place_specifically t region range = Ok (with_range region range, t') /\ tree_ok t' /\
     forall x, x ∈ m_regions t' <-> x = with_range region range \/ x ∈ m_regions t) \/
  (~ is_free t range /\ place_specifically t region range = Err ENOMEM).
Proof.
  destruct range as [b s]. cbn [m_base m_size]. intros Hok Hb Hba Hs Hsa. unfold place_specifically. cbn [m_base m_size].
  destruct (allocate_range_specific_spec t b s Hok Hb Hba Hs Hsa) as [[-> Hf]|[-> Hf]]; [left|by right].
  split; [done|]. cbn [kbind outcome_monad kret]. eexists. split; [done|]. split.
  - apply tree_ok_insert; simpl; try done. unfold region_size. simpl. lia.
  - intros x. apply elem_of_insert.
Qed.

Definition example_region : Region :=
  mkRegion false (mkRange 0 0) 0 (mkVMObject 1 true false false false 65536) None 51 false true false true false false false
    false false false false.
Definition example_tree : RegionTree :=
  mkTree [with_range example_region (mkRange 65536 8192)] (mkRange 65536 1048576).

Lemma example_tree_ok : tree_ok example_tree.
Proof. by split; vm_compute. Qed.

Lemma place_anywhere_exact_witness :
  match place_anywhere (fun _ => 70000) example_tree example_region true 8192 16384 with
  | Ok (r, t') =>
      region_size r = 8192 /\ is_free example_tree (m_range r) /\ aligned_to 16384 (vaddr r) /\ tree_ok t' /\
      forall x, x ∈ m_regions t' <-> x = r \/ x ∈ m_regions example_tree
  | Err e => e = ENOMEM /\ forall b, 65536 <= b -> ~ is_free example_tree (mkRange b (8192 + 16384))
  | Panic => False
  end.
Proof.
  apply (place_anywhere_exact (fun _ => 70000) example_tree example_region true 8192 16384 example_tree_ok).
  by split; vm_compute.
Defined.

Lemma place_specifically_exact_witness :
  (is_free example_tree (mkRange 73728 4096) /\ exists t',
     place_specifically example_tree example_region (mkRange 73728 4096) =
       Ok (with_range example_region (mkRange 73728 4096), t') /\ tree_ok t' /\
     forall x, x ∈ m_regions t' <-> x = with_range example_region (mkRange 73728 4096) \/ x ∈ m_regions example_tree) \/
  (~ is_free example_tree (mkRange 73728 4096) /\
   place_specifically example_tree example_region (mkRange 73728 4096) = Err ENOMEM).
Proof.
  apply (place_specifically_exact example_tree example_region (mkRange 73728 4096) example_tree_ok); by vm_compute.
Defined.
