(* ===== verification/RegionTreeImpl.v ===== *)
(** * The region tree on top of the red-black tree: Kernel/Memory/RegionTree.h,
    AK/IntrusiveRedBlackTree.h

    The region tree is proved correct over the in-order sequence of its regions.  Here the
    red-black tree of the code is shown to implement that sequence: every operation that
    the region tree calls, run on the nodes and pointers, returns what the operation on
    the sequence returns and leaves a tree that stands for the new sequence. *)

From stdpp Require Import sorting.
From S2P Require Import Prelude StdLibExtras RedBlackTree RedBlackTreeRep RedBlackTreeInsert RedBlackTreeSearch.
From S2P Require Import RedBlackTreeRemove RedBlackTreeSpec RegionTree.

(** [delete_all_regions_assuming_they_are_unmapped]: the regions that it deletes, in order.
    The destructor of the node of a region asserts that the node is in no tree. *)
Fixpoint delete_all_loop (fuel : nat) (obj : nat -> Region) : M Tree (list Region) :=
  match fuel with
  | O => lift Panic
  | S fuel =>
      size ← gets RedBlackTree.m_size;
      if size =? 0 then kret [] else
      it ← begin;
      region ← lift (deref (m_node it));
      RedBlackTree.remove (vaddr (obj region)) ;;
      in_tree ← gets m_in_tree;
      VERIFY (bool_decide (region ∉ in_tree)) ;;
      rest ← delete_all_loop fuel obj;
      kret (obj region :: rest)
  end.
Definition delete_all_regions_assuming_they_are_unmapped (obj : nat -> Region) : M Tree (list Region) :=
  fuel ← gets fuel_of;
  delete_all_loop fuel obj.

(** The tree [s] holds the regions, in this order; [obj a] is the region whose member node
    has the address [a], and its key is its start address. *)
Definition represents (s : Tree) (obj : nat -> Region) (regions : list Region) : Prop :=
  exists l, wf s l /\ regions = (fun x => obj x.2) <$> l /\ Forall (fun x => x.1 = vaddr (obj x.2)) l.

(** The addresses of the regions go up. *)
Definition strict (regions : list Region) : Prop := StronglySorted (fun r1 r2 => vaddr r1 < vaddr r2) regions.

Lemma chain_strict lo l hi : chain lo l hi -> strict l.
Proof.
  revert lo. induction l as [|r l IH]; intros lo; [intros _; apply SSorted_nil|]. intros (H1 & H2 & _ & _ & Hc).
  apply SSorted_cons; [by eapply IH|]. apply Forall_forall. intros x Hx. destruct (chain_elem _ _ _ _ Hc Hx) as (? & _). lia.
Qed.

Lemma strict_split l1 r l2 :
  strict (l1 ++ r :: l2) -> (forall x, x ∈ l1 -> vaddr x < vaddr r) /\ (forall x, x ∈ l2 -> vaddr r < vaddr x).
Proof.
  unfold strict. rewrite StronglySorted_app. intros (H1 & _ & H2). inversion H2 as [|? ? _ Hall]; subst.
  rewrite Forall_forall in Hall. split; [|done]. intros x Hx. apply H1; [done|left].
Qed.

Lemma find_none_region key regions : (forall r, r ∈ regions -> vaddr r <> key) -> find key regions = None.
Proof.
  induction regions as [|r l IH]; intros H; [done|]. unfold find. simpl. destruct (Z.eqb_spec (vaddr r) key); [|apply IH; set_solver].
  exfalso. apply (H r); [left|done].
Qed.

Lemma find_some_region l1 r l2 : strict (l1 ++ r :: l2) -> find (vaddr r) (l1 ++ r :: l2) = Some r.
Proof.
  intros [H _]%strict_split. unfold find. induction l1 as [|x l1 IH]; simpl; [by rewrite Z.eqb_refl|].
  destruct (Z.eqb_spec (vaddr x) (vaddr r)); [specialize (H x ltac:(left)); lia|]. apply IH. intros y Hy. apply H. by right.
Qed.

Lemma filter_all_regions (P : Region -> Prop) `{!forall r, Decision (P r)} (l : list Region) : (forall r, r ∈ l -> P r) -> filter P l = l.
Proof. induction l as [|x l IH]; intros Hl; [done|]. rewrite filter_cons_True by (apply Hl; left). f_equal. apply IH. intros y Hy. apply Hl. by right. Qed.
Lemma filter_no_region (P : Region -> Prop) `{!forall r, Decision (P r)} (l : list Region) : (forall r, r ∈ l -> ~ P r) -> filter P l = [].
Proof. induction l as [|x l IH]; intros Hl; [done|]. rewrite filter_cons_False by (apply Hl; left). apply IH. intros y Hy. apply Hl. by right. Qed.

Lemma remove_split l1 r l2 : strict (l1 ++ r :: l2) -> remove (vaddr r) (l1 ++ r :: l2) = (true, l1 ++ l2).
Proof.
  intros [H1 H2]%strict_split. unfold remove. f_equal.
  - apply existsb_exists. exists r. split; [|by apply Z.eqb_refl]. apply in_or_app. right. by left.
  - rewrite filter_app, filter_cons_False by (intros H; by apply H).
    rewrite !filter_all_regions; [done| |]; intros x Hx; [specialize (H2 x Hx)|specialize (H1 x Hx)]; lia.
Qed.

Lemma remove_absent key regions : (forall r, r ∈ regions -> vaddr r <> key) -> remove key regions = (false, regions).
Proof.
  intros H. unfold remove. f_equal; [|by apply filter_all_regions]. apply not_true_is_false. intros (r & Hr & E)%existsb_exists.
  apply Z.eqb_eq in E. apply (H r); [by apply list_elem_of_In|done].
Qed.

Lemma largest_split l1 r l2 key :
  strict (l1 ++ r :: l2) -> vaddr r <= key -> (forall x, x ∈ l2 -> key < vaddr x) ->
  find_largest_not_above key (l1 ++ r :: l2) = Some r.
Proof.
  intros Hs Hr Hl. unfold find_largest_not_above. rewrite filter_app, filter_cons_True by done.
  rewrite (filter_no_region _ l2); [by rewrite last_snoc|]. intros x Hx. specialize (Hl x Hx). lia.
Qed.

Lemma begin_from_region l1 r l2 : strict (l1 ++ r :: l2) -> begin_from r (l1 ++ r :: l2) = r :: l2.
Proof.
  intros [H1 H2]%strict_split. unfold begin_from. rewrite filter_app, filter_cons_True by lia.
  rewrite filter_no_region, filter_all_regions; [done| |]; intros x Hx; [specialize (H2 x Hx)|specialize (H1 x Hx)]; lia.
Qed.

Lemma wf_fuel s l : wf s l -> (length l < fuel_of s)%nat.
Proof.
  intros Hwf. destruct (wf_on s l l.*2 Hwf) as (tr & Hon & Hin & _); [done|]. apply on_fuel in Hon. unfold addrs in Hon.
  by rewrite length_fmap, Hin in Hon.
Qed.

Section implementation.
Context (s : Tree) (obj : nat -> Region) (t : RegionTree).
Context (Hok : tree_ok t) (Hrep : represents s obj (m_regions t)).

Lemma regions_strict : strict (m_regions t).
Proof using Hok. apply (chain_strict _ _ _ (t_chain _ Hok)). Qed.

Lemma insert_key_regions l a :
  Forall (fun x => x.1 = vaddr (obj x.2)) l ->
  (fun x => obj x.2) <$> insert_key (vaddr (obj a), a) l = insert (obj a) ((fun x => obj x.2) <$> l).
Proof.
  induction 1 as [|x l Hx _ IH]; [done|]. rewrite fmap_cons. cbn [insert_key insert fst]. rewrite Hx.
  destruct (_ <? _); [done|]. rewrite fmap_cons. by f_equal.
Qed.

Lemma insert_implemented a :
  a ∉ m_in_tree s -> fresh a s ->
  exists s', RedBlackTree.insert (vaddr (obj a)) (Some a) s = (Ok tt, s') /\ represents s' obj (insert (obj a) (m_regions t)).
Proof using Hrep.
  destruct Hrep as (l & Hwf & -> & Hkeys). intros Ha Hf. rewrite (w_in_tree _ _ Hwf), elem_of_list_to_set in Ha.
  destruct (insert_ok s l a (vaddr (obj a)) Hwf Ha Hf) as ([] & s' & E & Hwf' & _). exists s'. split; [done|].
  eexists. split; [exact Hwf'|]. split; [by rewrite insert_key_regions|]. rewrite insert_key_perm. by constructor.
Qed.

Lemma remove_implemented key :
  exists s', RedBlackTree.remove key s = (Ok (remove key (m_regions t)).1, s') /\ represents s' obj (remove key (m_regions t)).2.
Proof using Hok Hrep.
  pose proof regions_strict as Hs. destruct Hrep as (l & Hwf & E & Hkeys). rewrite E in *.
  destruct (remove_ok s l key Hwf) as (b & s' & Er & H). exists s'. rewrite Er. destruct b.
  - destruct H as (l1 & a & l2 & -> & Hwf' & _). rewrite fmap_app, fmap_cons in *. cbn [snd] in *.
    apply Forall_app in Hkeys as [K1 K2]. apply Forall_cons in K2 as [Ka K2]. cbn [fst snd] in Ka. subst key.
    rewrite remove_split by done. split; [done|]. exists (l1 ++ l2). split; [done|]. split; [by rewrite fmap_app|by apply Forall_app].
  - destruct H as [-> H]. rewrite remove_absent.
    + split; [done|]. by exists l.
    + intros r (x & -> & Hx)%list_elem_of_fmap. rewrite Forall_forall in Hkeys. rewrite <- (Hkeys x Hx). by apply H.
Qed.

Lemma find_implemented key : exists q, RedBlackTree.find key s = (Ok q, s) /\ obj <$> q = find key (m_regions t).
Proof using Hok Hrep.
  pose proof regions_strict as Hs. destruct Hrep as (l & Hwf & E & Hkeys). rewrite E in *.
  destruct (find_ok s l key Hwf) as (q & ? & Er & -> & H). exists q. split; [done|]. rewrite Forall_forall in Hkeys. destruct q as [a|].
  - pose proof (Hkeys _ H) as Ka. cbn [fst snd] in Ka. subst key. apply list_elem_of_split in H as (l1 & l2 & ->).
    rewrite fmap_app, fmap_cons in *. by rewrite find_some_region.
  - rewrite find_none_region; [done|]. intros r (x & -> & Hx)%list_elem_of_fmap. rewrite <- (Hkeys x Hx). by apply H.
Qed.

Lemma largest_implemented key :
  exists q, RedBlackTree.find_largest_not_above key s = (Ok q, s) /\ obj <$> q = find_largest_not_above key (m_regions t).
Proof using Hok Hrep.
  pose proof regions_strict as Hs. destruct Hrep as (l & Hwf & E & Hkeys). rewrite E in *.
  destruct (wf_depth s l Hwf) as (tr & Hr & Hroot & Hin & _ & Hd). pose proof (w_sorted _ _ Hwf) as Hsl. rewrite <- Hin in Hsl.
  destruct (find_largest_loop_ok s None tr (fuel_of s) key None Hr Hsl Hd) as (q & ? & Eq & -> & H). rewrite Hin in H.
  exists q. split; [unfold RedBlackTree.find_largest_not_above; simpl; by rewrite Hroot|]. rewrite Forall_forall in Hkeys.
  destruct H as [[-> H]|(a & ka & -> & Ha & Hle & H)].
  - unfold find_largest_not_above. rewrite filter_no_region; [done|]. intros r (x & -> & Hx)%list_elem_of_fmap. rewrite <- (Hkeys x Hx).
    specialize (H x Hx). lia.
  - pose proof (Hkeys _ Ha) as Ka. cbn [fst snd] in Ka. subst ka. apply list_elem_of_split in Ha as (l1 & l2 & ->).
    rewrite fmap_app, fmap_cons in *. rewrite largest_split; [done|done|done|]. intros r (x & -> & Hx)%list_elem_of_fmap.
    destruct (strict_split _ _ _ Hs) as [_ H2]. specialize (H2 (obj x.2) ltac:(apply list_elem_of_fmap; by exists x)). cbn [snd] in H2.
    assert (x ∈ l1 ++ (vaddr (obj a), a) :: l2) as Hx' by set_solver. specialize (H x Hx'). rewrite (Hkeys x Hx') in H. lia.
Qed.

Lemma iteration_implemented :
  exists nodes, (it ← begin; visit (fuel_of s) it) s = (Ok (Some <$> nodes), s) /\ obj <$> nodes = m_regions t.
Proof using Hrep.
  destruct Hrep as (l & Hwf & -> & Hkeys). exists l.*2. split; [|by rewrite <- list_fmap_compose].
  destruct (visit_ok s [] l (fuel_of s) None Hwf) as (r & ? & E & -> & ->); [by eapply wf_fuel|].
  change (visit (fuel_of s) (mkIterator (m_minimum s) None) s = (Ok (Some <$> l.*2), s)). by rewrite (w_minimum _ _ Hwf).
Qed.

Lemma iteration_from_implemented a :
  a ∈ m_in_tree s ->
  exists nodes, visit (fuel_of s) (mkIterator (Some a) None) s = (Ok (Some <$> nodes), s) /\ obj <$> nodes = begin_from (obj a) (m_regions t).
Proof using Hok Hrep.
  pose proof regions_strict as Hs. destruct Hrep as (l & Hwf & E & Hkeys). rewrite E in *. rewrite (w_in_tree _ _ Hwf), elem_of_list_to_set.
  intros ((k & b) & -> & Hb)%list_elem_of_fmap. cbn [snd]. pose proof (wf_fuel _ _ Hwf) as Hf. apply list_elem_of_split in Hb as (l1 & l2 & ->).
  exists ((k, b) :: l2).*2. rewrite length_app in Hf.
  destruct (visit_ok s l1 ((k, b) :: l2) (fuel_of s) None Hwf) as (r & ? & E' & -> & ->); [lia|]. split; [done|].
  rewrite fmap_app in Hs. rewrite fmap_app. cbn [fmap list_fmap snd] in *. rewrite begin_from_region by done. f_equal. by rewrite <- list_fmap_compose.
Qed.
End implementation.

(** ** Deleting all regions *)

Lemma remove_first_ok s obj k a l :
  wf s ((k, a) :: l) -> Forall (fun x => x.1 = vaddr (obj x.2)) ((k, a) :: l) -> strict ((fun x => obj x.2) <$> (k, a) :: l) ->
  ok (RedBlackTree.remove k) s (fun b s' => b = true /\ wf s' l /\ a ∉ m_in_tree s').
Proof.
  intros Hwf Hkeys Hs. eapply ok_mono; [by apply remove_ok|]. intros b s' H. cbn beta in H. destruct b.
  - destruct H as (l1 & a' & l2 & E & Hwf' & _). split; [done|]. destruct l1 as [|x l1].
    + injection E as -> ->. split; [done|]. rewrite (w_in_tree _ _ Hwf'), elem_of_list_to_set.
      pose proof (w_nodup _ _ Hwf) as Hnd. by apply NoDup_cons in Hnd as [Hnd _].
    + injection E as <- ->. exfalso. apply Forall_cons in Hkeys as [K1 K2]. cbn [fst snd] in K1. rewrite Forall_forall in K2.
      assert ((k, a') ∈ l1 ++ (k, a') :: l2) as Hin by (apply elem_of_app; right; left). specialize (K2 _ Hin). cbn [fst snd] in K2.
      destruct (strict_split [] _ _ Hs) as [_ H]. specialize (H (obj a') ltac:(apply list_elem_of_fmap; by exists (k, a'))). cbn [snd] in H. lia.
  - destruct H as [_ H]. by destruct (H (k, a) ltac:(left)).
Qed.

Lemma delete_all_ok s obj l fuel :
  wf s l -> Forall (fun x => x.1 = vaddr (obj x.2)) l -> strict ((fun x => obj x.2) <$> l) -> (length l < fuel)%nat ->
  ok (delete_all_loop fuel obj) s (fun r s' => r = (fun x => obj x.2) <$> l /\ wf s' []).
Proof.
  revert s fuel. induction l as [|[k a] l IH]; intros s fuel Hwf Hkeys Hs Hf; (destruct fuel as [|fuel]; [cbn in Hf; lia|]).
  { cbn [delete_all_loop]. apply ok_gets. rewrite (w_size _ _ Hwf). by apply ok_ret. }
  cbn [delete_all_loop]. apply ok_gets. rewrite (w_size _ _ Hwf). destruct (Z.eqb_spec (Z.of_nat (length ((k, a) :: l))) 0); [done|].
  unfold begin. apply (ok_eq _ _ s (mkIterator (Some a) None) s); [simpl; by rewrite (w_minimum _ _ Hwf)|].
  apply (ok_eq _ _ s a s); [done|]. pose proof Hkeys as [K1 K2]%Forall_cons. cbn [fst snd] in K1. rewrite <- K1.
  eapply ok_bind; [by eapply remove_first_ok|]. intros ? s1 (_ & Hwf1 & Ha). apply ok_gets. apply ok_VERIFY; [by apply bool_decide_true|].
  cbn [length] in Hf. eapply ok_bind; [apply IH; [done|done|by apply StronglySorted_inv in Hs as [? _]|lia]|].
  intros ? s2 [-> Hwf2]. by apply ok_ret.
Qed.

(** C28: the red-black tree implements the region tree.  When the nodes and pointers stand
    for the regions of a well-formed region tree, every operation that the region tree
    calls returns without a failed assertion: insertion of a region whose node is new,
    removal by address, the two searches by address and the iteration from the first or
    from a given region have the results and the effect that the operations on the sorted
    sequence of regions have. *)
Theorem region_tree_implemented (s : Tree) (obj : nat -> Region) (t : RegionTree) :
  tree_ok t -> represents s obj (m_regions t) ->
  (forall a, a ∉ m_in_tree s -> fresh a s ->
     exists s', RedBlackTree.insert (vaddr (obj a)) (Some a) s = (Ok tt, s') /\ represents s' obj (insert (obj a) (m_regions t))) /\
  (forall key, exists s', RedBlackTree.remove key s = (Ok (remove key (m_regions t)).1, s') /\ represents s' obj (remove key (m_regions t)).2) /\
  (forall key, exists q, RedBlackTree.find key s = (Ok q, s) /\ obj <$> q = find key (m_regions t)) /\
  (forall key, exists q, RedBlackTree.find_largest_not_above key s = (Ok q, s) /\ obj <$> q = find_largest_not_above key (m_regions t)) /\
  (exists nodes, (it ← begin; visit (fuel_of s) it) s = (Ok (Some <$> nodes), s) /\ obj <$> nodes = m_regions t) /\
  (forall a, a ∈ m_in_tree s ->
     exists nodes, visit (fuel_of s) (mkIterator (Some a) None) s = (Ok (Some <$> nodes), s) /\
       obj <$> nodes = begin_from (obj a) (m_regions t)).
Proof.
  intros Hok Hrep. split_and!.
  - by apply insert_implemented.
  - by apply remove_implemented.
  - by apply find_implemented.
  - by apply largest_implemented.
  - by apply iteration_implemented.
  - by apply iteration_from_implemented.
Qed.

(** Deleting all regions terminates: every round takes the region with the lowest
    address out of the tree, the destructor of its node finds it in no tree, and the tree
    is empty at the end. *)
Theorem delete_all_terminates (s : Tree) (obj : nat -> Region) (t : RegionTree) :
  tree_ok t -> represents s obj (m_regions t) ->
  exists s', delete_all_regions_assuming_they_are_unmapped obj s = (Ok (m_regions t), s') /\ represents s' obj [].
Proof.
  intros Hok Hrep. pose proof (regions_strict t Hok) as Hs. destruct Hrep as (l & Hwf & E & Hkeys). rewrite E in *.
  destruct (delete_all_ok s obj l (fuel_of s) Hwf Hkeys Hs (wf_fuel _ _ Hwf)) as (r & s' & Er & -> & Hwf'). exists s'. split; [done|]. by exists [].
Qed.

(** ** Examples *)

Definition example_objects (a : nat) : Region := with_range example_region (mkRange (65536 + 8192 * Z.of_nat a) 8192).
Definition example_regions : RegionTree :=
  mkTree [example_objects 0; example_objects 1; example_objects 2] (mkRange 65536 1048576).
Definition place_example (a : nat) (s : Tree) : Tree := (RedBlackTree.insert (vaddr (example_objects a)) (Some a) s).2.
Definition example_heap : Tree := place_example 0 (place_example 2 (place_example 1 empty_example)).

Lemma example_regions_ok : tree_ok example_regions.
Proof. by split; vm_compute. Qed.

Lemma place_example_represents a s regions :
  represents s example_objects regions -> a ∉ m_in_tree s -> fresh a s -> tree_ok (mkTree regions (mkRange 65536 1048576)) ->
  represents (place_example a s) example_objects (insert (example_objects a) regions).
Proof.
  intros Hrep Ha Hf Hok. unfold place_example.
  by destruct (insert_implemented s example_objects (mkTree regions (mkRange 65536 1048576)) Hrep a Ha Hf) as (s' & -> & H).
Qed.

Lemma example_represents : represents example_heap example_objects (m_regions example_regions).
Proof.
  change (m_regions example_regions) with (insert (example_objects 0) (insert (example_objects 2) (insert (example_objects 1) []))).
  repeat (apply place_example_represents; [|apply (bool_decide_unpack _); by vm_compute|exists 0; by vm_compute|by split; vm_compute]).
  exists []. split; [|done]. apply wf_empty. by vm_compute.
Qed.

Lemma region_tree_implemented_witness :
  exists q, RedBlackTree.find_largest_not_above 80000 example_heap = (Ok q, example_heap) /\
    example_objects <$> q = find_largest_not_above 80000 (m_regions example_regions).
Proof. apply (region_tree_implemented example_heap example_objects example_regions example_regions_ok example_represents). Defined.

Lemma delete_all_terminates_witness :
  exists s', delete_all_regions_assuming_they_are_unmapped example_objects example_heap = (Ok (m_regions example_regions), s') /\
    represents s' example_objects [].
Proof. apply (delete_all_terminates example_heap example_objects example_regions example_regions_ok example_represents). Defined.
