(* ===== verification/AddressSpace.v ===== *)
(** * Address spaces: Kernel/Memory/AddressSpace.cpp, Kernel/Syscalls/mmap.cpp

    Unmapping and re-protecting ranges of an address space.  Both calls look for a region
    that is exactly the range, then for one that contains it, and then for all the regions
    that it intersects; regions that are covered in part are replaced by regions for the
    rest.  [heap] is a script of the allocations to come, [false] for one that fails; when
    it is used up every allocation succeeds.  Where the code may or may not allocate, as
    for a vector with spare capacity or a page table that exists already, the script is
    asked all the same and [true] stands for both. *)

From S2P Require Import Prelude StdLibExtras RegionTree.

Record AddressSpace := mkSpace { m_region_tree : RegionTree; heap : list bool }.

Definition try_allocate : M AddressSpace unit := fun s =>
  match heap s with
  | [] => (Ok tt, s)
  | b :: h => ((if b then Ok tt else Err ENOMEM), mkSpace (m_region_tree s) h)
  end.
Definition set_tree (t : RegionTree) : M AddressSpace unit := modify (fun s => mkSpace t (heap s)).

(** ** Access flags *)

Definition Access_Read : Z := 1.
Definition Access_Write : Z := 2.
Definition Access_Execute : Z := 4.
Definition PROT_READ : Z := 1.
Definition PROT_WRITE : Z := 2.
Definition PROT_EXEC : Z := 4.
Definition has_flag (v flag : Z) : bool := negb (Z.land v flag =? 0).

Definition prot_to_region_access_flags (prot : Z) : Z :=
  Z.lor (Z.lor (if Z.land prot PROT_READ =? PROT_READ then Access_Read else 0)
               (if Z.land prot PROT_WRITE =? PROT_WRITE then Access_Write else 0))
        (if Z.land prot PROT_EXEC =? PROT_EXEC then Access_Execute else 0).

Definition is_readable (r : Region) : bool := Z.land (m_access r) Access_Read =? Access_Read.
Definition is_writable (r : Region) : bool := Z.land (m_access r) Access_Write =? Access_Write.
Definition is_executable (r : Region) : bool := Z.land (m_access r) Access_Execute =? Access_Execute.

Definition access_bit (access : Z) (flag : Z) (b : bool) : Z :=
  if b then Z.lor access flag else Z.land access (wrap 8 (Z.lnot flag)).

(** The flags [m_has_been_*] are set here and nowhere else. *)
Definition with_access (r : Region) (access : Z) (been_r been_w been_x : bool) : Region :=
  mkRegion (m_mapped r) (m_range r) (m_offset_in_vmobject r) (m_vmobject r) (m_name r) access (m_shared r)
    (m_cacheable r) (m_stack r) (m_mmap r) (m_syscall_region r) (m_mmapped_from_readable r)
    (m_mmapped_from_writable r) (m_immutable r) (m_has_been_readable r || been_r)
    (m_has_been_writable r || been_w) (m_has_been_executable r || been_x).
Definition set_readable (r : Region) (b : bool) : Region :=
  with_access r (access_bit (m_access r) Access_Read b) b false false.
Definition set_writable (r : Region) (b : bool) : Region :=
  with_access r (access_bit (m_access r) Access_Write b) false b false.
Definition set_executable (r : Region) (b : bool) : Region :=
  with_access r (access_bit (m_access r) Access_Execute b) false false b.
Definition set_protection (r : Region) (prot : Z) : Region :=
  set_executable (set_writable (set_readable r (has_flag prot PROT_READ)) (has_flag prot PROT_WRITE))
    (has_flag prot PROT_EXEC).

(** ** Making regions *)

Definition create_unplaced (vmobject : VMObject) (offset_in_vmobject : Z) (name : option string) (access : Z)
    (cacheable shared : bool) : M AddressSpace Region :=
  try_allocate ;;
  kret (mkRegion false (mkRange 0 0) offset_in_vmobject vmobject name
          (wrap 8 (Z.lor access (Z.shiftl (Z.land access 7) 4))) shared cacheable false false false false false
          false false false false).

Definition set_flags (r : Region) (syscall mmap from_readable from_writable stack : bool) : Region :=
  mkRegion (m_mapped r) (m_range r) (m_offset_in_vmobject r) (m_vmobject r) (m_name r) (m_access r) (m_shared r)
    (m_cacheable r) stack mmap syscall from_readable from_writable (m_immutable r) (m_has_been_readable r)
    (m_has_been_writable r) (m_has_been_executable r).

Definition try_allocate_split_region (source_region : Region) (range : VirtualRange) (offset_in_vmobject : Z)
    : M AddressSpace Region :=
  (match m_name source_region with Some _ => try_allocate | None => kret tt end) ;;
  new_region ← create_unplaced (m_vmobject source_region) offset_in_vmobject (m_name source_region)
                 (m_access source_region) (m_cacheable source_region) (m_shared source_region);
  let new_region := set_flags new_region (m_syscall_region source_region) (m_mmap source_region)
                      (m_mmapped_from_readable source_region) (m_mmapped_from_writable source_region)
                      (m_stack source_region) in
  t ← gets m_region_tree;
  ' (placed, t) ← lift (place_specifically t new_region range);
  set_tree t ;;
  kret placed.

(** ** Finding and taking regions *)

Definition take_region (r : Region) : M AddressSpace Region :=
  t ← gets m_region_tree;
  let '(did_remove, t') := remove_region t r in
  set_tree t' ;;
  VERIFY did_remove ;;
  kret r.
Definition deallocate_region (r : Region) : M AddressSpace unit := take_region r ;; kret tt.

Definition find_region_from_range (t : RegionTree) (range : VirtualRange) : option Region :=
  match find (m_base range) (m_regions t) with
  | None => None
  | Some region =>
      match page_round_up (m_size range) with
      | Ok rounded => if region_size region =? rounded then Some region else None
      | _ => None
      end
  end.

(** Four pointers fit into the vector itself, further ones are allocated. *)
Fixpoint collect_intersecting (l : list Region) (range : VirtualRange) (total_size_collected : Z)
    (regions : list Region) : M AddressSpace (list Region) :=
  match l with
  | [] => kret regions
  | iter :: l =>
      let iter_range := m_range iter in
      if (m_base iter_range <? range_end range) && (m_base range <? range_end iter_range) then
        (if (4 <=? length regions)%nat then try_allocate else kret tt) ;;
        let regions := regions ++ [iter] in
        i ← lift (intersect iter_range range);
        let total := wrap 64 (total_size_collected + (region_size iter - m_size i)) in
        if total =? m_size range then kret regions
        else collect_intersecting l range total regions
      else collect_intersecting l range total_size_collected regions
  end.
Definition find_regions_intersecting (range : VirtualRange) : M AddressSpace (list Region) :=
  t ← gets m_region_tree;
  match find_largest_not_above (m_base range) (m_regions t) with
  | None => kret []
  | Some found_region => collect_intersecting (begin_from found_region (m_regions t)) range 0 []
  end.

(** ** Splitting *)

Definition try_make_replacement_region (source_region : Region) (new_range : VirtualRange) : M AddressSpace Region :=
  VERIFY (contains (m_range source_region) new_range) ;;
  let offset := wrap 64 (m_offset_in_vmobject source_region + (m_base new_range - vaddr source_region)) in
  try_allocate_split_region source_region new_range offset.
Fixpoint make_replacements (source_region : Region) (ranges : list VirtualRange) : M AddressSpace (list Region) :=
  match ranges with
  | [] => kret []
  | new_range :: ranges =>
      r ← try_make_replacement_region source_region new_range;
      l ← make_replacements source_region ranges;
      kret (r :: l)
  end.
Definition try_split_region_around_range (source_region : Region) (desired_range : VirtualRange)
    : M AddressSpace (list Region) :=
  remaining ← lift (carve (m_range source_region) desired_range);
  VERIFY (negb (bool_decide (remaining = []))) ;;
  make_replacements source_region remaining.

(** ** Unmapping *)

(** [kernel_mapping_base] is chosen at boot. *)
Section user.
Context (kernel_mapping_base : Z).

Definition USER_RANGE_BASE : Z := 65536.
Definition USER_RANGE_CEILING : Z := wrap 64 (kernel_mapping_base - 33554432).
Definition is_user_address (a : Z) : bool := a <? USER_RANGE_CEILING.
Definition is_user_range (range : VirtualRange) : bool :=
  if range_end range <? m_base range then false else
  if negb (is_user_address (m_base range)) then false else
  if m_size range <=? 1 then true else
  is_user_address (wrap 64 (m_base range + (m_size range - 1))).
Definition is_kernel (r : Region) : bool := (vaddr r <? USER_RANGE_BASE) || (kernel_mapping_base <=? vaddr r).
Definition is_user (r : Region) : bool := negb (is_kernel r).

(** ** Mapping

    The contents of the page tables are not modelled: mapping a page checks its address
    and its index in the VM object and may fail to allocate a page table. *)
Definition set_page_directory (r : Region) : Region :=
  mkRegion true (m_range r) (m_offset_in_vmobject r) (m_vmobject r) (m_name r) (m_access r) (m_shared r)
    (m_cacheable r) (m_stack r) (m_mmap r) (m_syscall_region r) (m_mmapped_from_readable r)
    (m_mmapped_from_writable r) (m_immutable r) (m_has_been_readable r) (m_has_been_writable r)
    (m_has_been_executable r).
(** A write through a pointer to the region of the tree at [key]. *)
Definition update_region (key : Z) (f : Region -> Region) : M AddressSpace unit :=
  modify (fun s => mkSpace (mkTree ((fun r => if vaddr r =? key then f r else r) <$> m_regions (m_region_tree s))
                              (m_total_range (m_region_tree s))) (heap s)).
Definition page_count (r : Region) : Z := region_size r / PAGE_SIZE.
Definition first_page_index (r : Region) : Z := m_offset_in_vmobject r / PAGE_SIZE.

Definition map_individual_page_impl (r : Region) (page_index : Z) : M AddressSpace unit :=
  let page_vaddr := wrap 64 (vaddr r + page_index * PAGE_SIZE) in
  let user_allowed := (USER_RANGE_BASE <=? page_vaddr) && is_user_address page_vaddr in
  VERIFY (negb (m_mmap r && negb user_allowed)) ;;
  try_allocate.
(** With [pages], the number of pages of the VM object, each page is looked up in it. *)
Fixpoint map_pages (r : Region) (pages : option Z) (page_index : Z) (n : nat) : M AddressSpace unit :=
  match n with
  | O => kret tt
  | S n =>
      VERIFY (match pages with Some p => first_page_index r + page_index <? p | None => true end) ;;
      map_individual_page_impl r page_index ;;
      map_pages r pages (page_index + 1) n
  end.
Definition map_region (r : Region) : M AddressSpace unit :=
  VERIFY (negb (is_user r && negb (m_shared r) && vm_is_shared_inode (m_vmobject r))) ;;
  update_region (vaddr r) set_page_directory ;;
  if page_count r =? 0 then fail ENOMEM else
  map_pages r (Some (vm_size (m_vmobject r) / PAGE_SIZE)) 0 (Z.to_nat (page_count r)).
Definition map_region_mmio (r : Region) : M AddressSpace unit :=
  update_region (vaddr r) set_page_directory ;;
  if page_count r =? 0 then fail ENOMEM else map_pages r None 0 (Z.to_nat (page_count r)).
Fixpoint map_regions (l : list Region) : M AddressSpace unit :=
  match l with
  | [] => kret tt
  | r :: l => map_region r ;; map_regions l
  end.
(** Failing to map is a [TODO()]. *)
Definition remap (r : Region) : M AddressSpace unit := fun s =>
  match (VERIFY (m_mapped r) ;; if vm_is_mmio (m_vmobject r) then map_region_mmio r else map_region r) s with
  | (Err _, s') => (Panic, s')
  | res => res
  end.

(** Only memory that was mapped by mmap and is not immutable may be touched. *)
Definition check_mutable (r : Region) : M AddressSpace unit :=
  if negb (m_mmap r) then fail EPERM else
  if m_immutable r then fail EPERM else kret tt.
Fixpoint check_all_mutable (l : list Region) : M AddressSpace unit :=
  match l with
  | [] => kret tt
  | r :: l => check_mutable r ;; check_all_mutable l
  end.

(** [new_regions] has room for two pointers. *)
Fixpoint unmap_each (regions : list Region) (range_to_unmap : VirtualRange) (new_regions : list Region)
    : M AddressSpace (list Region) :=
  match regions with
  | [] => kret new_regions
  | old_region :: regions =>
      i ← lift (intersect (m_range old_region) range_to_unmap);
      if m_size i =? region_size old_region then
        deallocate_region old_region ;;
        unmap_each regions range_to_unmap new_regions
      else
        region ← take_region old_region;
        split_regions ← try_split_region_around_range region range_to_unmap;
        (if (2 <? length (new_regions ++ split_regions))%nat then try_allocate else kret tt) ;;
        unmap_each regions range_to_unmap (new_regions ++ split_regions)
  end.

Definition unmap_contained (old_region : Region) (range_to_unmap : VirtualRange) : M AddressSpace unit :=
  check_mutable old_region ;;
  region ← take_region old_region;
  new_regions ← try_split_region_around_range region range_to_unmap;
  map_regions new_regions.

Definition unmap_intersecting (range_to_unmap : VirtualRange) : M AddressSpace unit :=
  regions ← find_regions_intersecting range_to_unmap;
  if bool_decide (regions = []) then kret tt else
  check_all_mutable regions ;;
  new_regions ← unmap_each regions range_to_unmap [];
  map_regions new_regions.

Definition unmap_mmap_range (addr size : Z) : M AddressSpace unit :=
  if size =? 0 then fail EINVAL else
  range_to_unmap ← lift (expand_to_page_boundaries addr size);
  if negb (is_user_range range_to_unmap) then fail EFAULT else
  t ← gets m_region_tree;
  match find_region_from_range t range_to_unmap with
  | Some whole_region => check_mutable whole_region ;; deallocate_region whole_region
  | None =>
      match find_region_containing t range_to_unmap with
      | Some old_region => unmap_contained old_region range_to_unmap
      | None => unmap_intersecting range_to_unmap
      end
  end.
(** ** Changing the protection *)

Definition MS_WXALLOWED : Z := 64.
Definition MS_AXALLOWED : Z := 128.

(** The mount flags of the executable of the process, and whether the process asked to
    refuse the transition from writable to executable. *)
Context (mount_flags : Z) (should_reject_transition_to_executable_from_writable_prot : bool).

Definition validate_mmap_prot (prot : Z) (map_stack map_anonymous : bool) (region : option Region) : outcome unit :=
  let make_writable := has_flag prot PROT_WRITE in
  let make_executable := has_flag prot PROT_EXEC in
  if map_anonymous && make_executable && negb (has_flag mount_flags MS_AXALLOWED) then Err EINVAL else
  if map_stack && make_executable then Err EINVAL else
  if has_flag mount_flags MS_WXALLOWED then Ok tt else
  if make_writable && make_executable then Err EINVAL else
  match region with
  | Some region =>
      if make_writable && m_has_been_executable region then Err EINVAL else
      if make_executable && m_has_been_writable region && should_reject_transition_to_executable_from_writable_prot
      then Err EINVAL else Ok tt
  | None => Ok tt
  end.
Definition validate_inode_mmap_prot (prot : Z) (readable_description description_writable map_shared : bool)
    : outcome unit :=
  if has_flag prot PROT_READ && negb readable_description then Err EACCES else
  if map_shared && (has_flag prot PROT_WRITE && negb description_writable) then Err EACCES else Ok tt.

Definition validate_region (r : Region) (prot : Z) : outcome unit :=
  validate_mmap_prot prot (m_stack r) (vm_is_anonymous (m_vmobject r)) (Some r).
Definition validate_inode_region (r : Region) (prot : Z) : outcome unit :=
  if vm_is_inode (m_vmobject r)
  then validate_inode_mmap_prot prot (m_mmapped_from_readable r) (m_mmapped_from_writable r) (m_shared r)
  else Ok tt.

Definition mprotect_whole (whole_region : Region) (prot : Z) : M AddressSpace unit :=
  check_mutable whole_region ;;
  lift (validate_region whole_region prot) ;;
  if m_access whole_region =? prot_to_region_access_flags prot then kret tt else
  lift (validate_inode_region whole_region prot) ;;
  update_region (vaddr whole_region) (fun r => set_protection r prot) ;;
  remap (set_protection whole_region prot).

(** The new region for [range], with the protection set. *)
Definition split_protected (region : Region) (range : VirtualRange) (prot : Z) : M AddressSpace Region :=
  let offset := wrap 64 (m_offset_in_vmobject region + (m_base range - vaddr region)) in
  new_region ← try_allocate_split_region region range offset;
  update_region (vaddr new_region) (fun r => set_protection r prot) ;;
  kret (set_protection new_region prot).

Definition mprotect_contained (old_region : Region) (range : VirtualRange) (prot : Z) : M AddressSpace unit :=
  check_mutable old_region ;;
  lift (validate_region old_region prot) ;;
  if m_access old_region =? prot_to_region_access_flags prot then kret tt else
  lift (validate_inode_region old_region prot) ;;
  region ← take_region old_region;
  adjacent_regions ← try_split_region_around_range region range;
  new_region ← split_protected region range prot;
  map_regions adjacent_regions ;;
  map_region new_region.

Fixpoint check_each (regions : list Region) (range : VirtualRange) (prot full_size_found : Z)
    : M AddressSpace Z :=
  match regions with
  | [] => kret full_size_found
  | region :: regions =>
      check_mutable region ;;
      lift (validate_region region prot) ;;
      lift (validate_inode_region region prot) ;;
      i ← lift (intersect (m_range region) range);
      check_each regions range prot (wrap 64 (full_size_found + m_size i))
  end.
Fixpoint protect_each (regions : list Region) (range : VirtualRange) (prot : Z) : M AddressSpace unit :=
  match regions with
  | [] => kret tt
  | old_region :: regions =>
      (if m_access old_region =? prot_to_region_access_flags prot then kret tt else
       intersection ← lift (intersect range (m_range old_region));
       if bool_decide (intersection = m_range old_region) then
         update_region (vaddr old_region) (fun r => set_protection r prot) ;;
         remap (set_protection old_region prot)
       else
         region ← take_region old_region;
         adjacent_regions ← try_split_region_around_range region intersection;
         VERIFY (length adjacent_regions =? 1)%nat ;;
         new_region ← split_protected region intersection prot;
         map_regions adjacent_regions ;;
         map_region new_region) ;;
      protect_each regions range prot
  end.

(** [sys$mprotect], once the promises are checked. *)
Definition mprotect (addr size prot : Z) : M AddressSpace unit :=
  range_to_mprotect ← lift (expand_to_page_boundaries addr size);
  if m_size range_to_mprotect =? 0 then fail EINVAL else
  if negb (is_user_range range_to_mprotect) then fail EFAULT else
  t ← gets m_region_tree;
  match find_region_from_range t range_to_mprotect with
  | Some whole_region => mprotect_whole whole_region prot
  | None =>
      match find_region_containing t range_to_mprotect with
      | Some old_region => mprotect_contained old_region range_to_mprotect prot
      | None =>
          regions ← find_regions_intersecting range_to_mprotect;
          if bool_decide (regions = []) then fail EINVAL else
          full_size_found ← check_each regions range_to_mprotect prot 0;
          if negb (full_size_found =? m_size range_to_mprotect) then fail ENOMEM else
          protect_each regions range_to_mprotect prot
      end
  end.
End user.

(** ** Computations that fail only when an allocation does

    [allocs m s P]: run from [s], [m] either returns a value in [P] or fails with ENOMEM
    because the script of allocations holds a failure; the tree is well formed either way. *)
Definition allocs {A} (m : M AddressSpace A) (s : AddressSpace) (P : A -> AddressSpace -> Prop) : Prop :=
  wp m s (fun r s' =>
    (false ∈ heap s' -> false ∈ heap s) /\
    match r with
    | Ok a => P a s'
    | Err e => e = ENOMEM /\ false ∈ heap s /\ tree_ok (m_region_tree s')
    | Panic => False
    end).

Lemma allocs_ret {A} (a : A) s (P : A -> AddressSpace -> Prop) : P a s -> allocs (kret a) s P.
Proof. by split. Qed.

Lemma allocs_mono {A} (m : M AddressSpace A) s (P Q : A -> AddressSpace -> Prop) :
  allocs m s P -> (forall a s', P a s' -> Q a s') -> allocs m s Q.
Proof.
  unfold allocs. intros H HPQ. eapply wp_mono; [exact H|]. intros r s' [Hh Hr]. split; [done|]. destruct r; auto.
Qed.

Lemma allocs_bind {A B} (m : M AddressSpace A) (f : A -> M AddressSpace B) s P Q :
  allocs m s P -> (forall a s1, P a s1 -> allocs (f a) s1 Q) -> allocs (kbind m f) s Q.
Proof.
  unfold allocs. intros H Hf. apply wp_bind. eapply wp_mono; [exact H|]. intros [a|e|] s1 [Hh Hr]; [|by split|done].
  eapply wp_mono; [exact (Hf a s1 Hr)|]. intros r s2 [Hh2 Hr2]. split; [auto|].
  destruct r as [b|e|]; [done| |done]. destruct Hr2 as (? & ? & ?). auto.
Qed.

(** The operations that cannot fail, followed by the rest of the code. *)
Section sequence.
Context {B : Type} (s : AddressSpace) (Q : B -> AddressSpace -> Prop).

Lemma allocs_then_VERIFY (b : bool) (f : unit -> M AddressSpace B) :
  b = true -> allocs (f tt) s Q -> allocs (kbind (VERIFY b) f) s Q.
Proof. by intros ->. Qed.
Lemma allocs_then_lift {A} (o : outcome A) a (f : A -> M AddressSpace B) :
  o = Ok a -> allocs (f a) s Q -> allocs (kbind (lift o) f) s Q.
Proof. by intros ->. Qed.
Lemma allocs_then_gets {A} (g : AddressSpace -> A) (f : A -> M AddressSpace B) :
  allocs (f (g s)) s Q -> allocs (kbind (gets g) f) s Q.
Proof. done. Qed.
Lemma allocs_then_modify g (f : unit -> M AddressSpace B) :
  heap (g s) = heap s -> allocs (f tt) (g s) Q -> allocs (kbind (modify g) f) s Q.
Proof. unfold allocs, wp. simpl. by intros ->. Qed.
End sequence.

Lemma allocs_try_allocate s :
  tree_ok (m_region_tree s) -> allocs try_allocate s (fun _ s' => m_region_tree s' = m_region_tree s).
Proof.
  intros Hok. unfold allocs, wp, try_allocate. destruct s as [t [|b h]]; simpl in *; [done|].
  split; [intros ?; by right|]. destruct b; [done|]. split_and!; [done|left|done].
Qed.

Lemma allocs_maybe_allocate (b : bool) s :
  tree_ok (m_region_tree s) ->
  allocs (if b then try_allocate else kret tt) s (fun _ s' => m_region_tree s' = m_region_tree s).
Proof. intros Hok. destruct b; [by apply allocs_try_allocate|by apply allocs_ret]. Qed.

(** ** What a page of the address space is *)

Record page := mkPage {
  p_vmobject : VMObject;
  p_offset : Z;
  p_access : Z;
  p_name : option string;
  p_shared : bool;
  p_cacheable : bool;
  p_stack : bool;
  p_mmap : bool;
  p_syscall : bool;
  p_from_readable : bool;
  p_from_writable : bool }.

Definition view (r : Region) (a : Z) : page :=
  mkPage (m_vmobject r) (m_offset_in_vmobject r + (a - vaddr r)) (Z.land (m_access r) 7) (m_name r) (m_shared r)
    (m_cacheable r) (m_stack r) (m_mmap r) (m_syscall_region r) (m_mmapped_from_readable r)
    (m_mmapped_from_writable r).

Definition covers (range : VirtualRange) (a : Z) : Prop := m_base range <= a < m_base range + m_size range.

#[export] Instance covers_dec range a : Decision (covers range a).
Proof. unfold covers. apply _. Defined.

(** The address belongs to a region that shows [v] there. *)
Definition maps (t : RegionTree) (a : Z) (v : page) : Prop :=
  exists r, r ∈ m_regions t /\ covers (m_range r) a /\ view r a = v.

(** The region lies inside its VM object, and a private region has no shared one. *)
Record region_ok (r : Region) : Prop := {
  r_offset : 0 <= m_offset_in_vmobject r;
  r_inside : m_offset_in_vmobject r + region_size r <= vm_size (m_vmobject r);
  r_vm_size : vm_size (m_vmobject r) < 2 ^ 64;
  r_vm_pages : vm_size (m_vmobject r) mod PAGE_SIZE = 0;
  r_private : m_shared r = false -> vm_is_shared_inode (m_vmobject r) = false }.

(** Page aligned, not empty and inside the address space. *)
Record range_ok (range : VirtualRange) : Prop := {
  g_base : 0 <= m_base range;
  g_size : 0 < m_size range;
  g_end : m_base range + m_size range < 2 ^ 64;
  g_base_page : m_base range mod PAGE_SIZE = 0;
  g_size_page : m_size range mod PAGE_SIZE = 0 }.

Record space_ok (kernel_mapping_base : Z) (t : RegionTree) : Prop := {
  s_tree : tree_ok t;
  s_low : USER_RANGE_BASE <= m_base (m_total_range t);
  s_high : m_base (m_total_range t) + m_size (m_total_range t) <= USER_RANGE_CEILING kernel_mapping_base;
  s_regions : forall r, r ∈ m_regions t -> region_ok r }.

Lemma region_range_ok t r : tree_ok t -> r ∈ m_regions t -> range_ok (m_range r).
Proof.
  intros Hok Hr. destruct (region_facts t Hok r Hr) as (? & ? & ? & ? & ? & _). pose proof (t_base _ Hok). pose proof (t_end _ Hok).
  unfold vaddr, region_size in *. split; lia.
Qed.

Lemma range_end_ok range : range_ok range -> range_end range = m_base range + m_size range.
Proof. intros [? ? ? _ _]. unfold range_end. apply wrap_small. unfold in_width. lia. Qed.

Lemma page_diff a b : a mod PAGE_SIZE = 0 -> b mod PAGE_SIZE = 0 -> (a - b) mod PAGE_SIZE = 0.
Proof. intros Ha Hb. rewrite Zminus_mod, Ha, Hb. done. Qed.
Lemma page_sum a b : a mod PAGE_SIZE = 0 -> b mod PAGE_SIZE = 0 -> (a + b) mod PAGE_SIZE = 0.
Proof. intros Ha Hb. rewrite Zplus_mod, Ha, Hb. done. Qed.

(** ** Ranges *)

Lemma expand_ok addr size range :
  in_width 64 addr -> in_width 64 size -> 0 < size -> expand_to_page_boundaries addr size = Ok range ->
  range_ok range /\ m_base range <= addr /\ addr + size <= m_base range + m_size range.
Proof.
  unfold expand_to_page_boundaries, in_width. intros Ha Hs Hpos.
  destruct (wrap 64 (addr + size) <? addr) eqn:E; [done|]. bool_hyps.
  assert (addr + size < 2 ^ 64) as Hsum.
  { destruct (decide (addr + size < 2 ^ 64)) as [|Hge]; [done|]. exfalso. revert E. unfold wrap.
    rewrite <- (Z.mod_add (addr + size) (-1)), Z.mod_small by lia. lia. }
  rewrite wrap_small in * by (unfold in_width; lia). unfold page_round_up.
  change (Z.land (2 ^ 64 - 1) (wrap 64 (Z.lnot 4095))) with (2 ^ 64 - 4096).
  destruct (2 ^ 64 - 4096 <? addr + size) eqn:E2; [done|]. bool_hyps. unfold page_base, PAGE_SIZE.
  rewrite (wrap_small 64 (addr + size + 4096 - 1)) by (unfold in_width; lia). change (4096 - 1) with 4095.
  rewrite !mask_page by (unfold in_width; lia). cbn [kbind outcome_monad kret]. intros [= <-].
  pose proof (Z.mod_pos_bound addr 4096 ltac:(lia)). pose proof (Z.mod_pos_bound (addr + size + 4096 - 1) 4096 ltac:(lia)).
  pose proof (Z.mod_le addr 4096 ltac:(lia) ltac:(lia)). rewrite wrap_small by (unfold in_width; lia).
  assert (forall x, (x - x mod 4096) mod PAGE_SIZE = 0) as Hm.
  { intros x. unfold PAGE_SIZE. rewrite Zminus_mod, Z.mod_mod by lia. by rewrite Z.sub_diag. }
  split; [split|]; cbn [m_base m_size]; try lia; [apply Hm|]. apply page_diff; apply Hm.
Qed.

Lemma intersect_ok r1 r2 :
  range_ok r1 -> range_ok r2 -> ~ apart r1 r2 ->
  intersect r1 r2 = Ok (mkRange (Z.max (m_base r1) (m_base r2))
     (Z.min (m_base r1 + m_size r1) (m_base r2 + m_size r2) - Z.max (m_base r1) (m_base r2))).
Proof.
  intros H1 H2 Ha. unfold intersect, apart in *. rewrite !range_end_ok by done. destruct H1, H2.
  destruct (bool_decide (r1 = r2)) eqn:E.
  - apply bool_decide_eq_true in E as ->. destruct r2 as [b z]. cbn [m_base m_size] in *. rewrite Z.max_id, Z.min_id.
    unfold kret, outcome_monad. do 2 f_equal. lia.
  - rewrite (proj2 (Z.ltb_lt _ _)) by lia. cbn [negb]. rewrite wrap_small by (unfold in_width; lia). done.
Qed.

(** Every two ranges of the list share no address. *)
Fixpoint apart_all (l : list VirtualRange) : Prop :=
  match l with
  | [] => True
  | g :: l => (forall h, h ∈ l -> apart h g) /\ apart_all l
  end.

Lemma apart_all_one g : apart_all [g].
Proof. split; [|done]. intros h Hh. by apply not_elem_of_nil in Hh. Qed.
Lemma apart_all_two g h : apart h g -> apart_all [g; h].
Proof. intros H. split; [|apply apart_all_one]. by intros x ->%list_elem_of_singleton. Qed.

Definition inside (g r : VirtualRange) : Prop := m_base r <= m_base g /\ m_base g + m_size g <= m_base r + m_size r.

Lemma carve_ok r taken :
  range_ok r -> range_ok taken -> ~ apart r taken -> ~ inside r taken ->
  exists l, carve r taken = Ok l /\ l <> [] /\ apart_all l /\
    (forall g, g ∈ l -> range_ok g /\ inside g r /\ apart g taken) /\
    forall a, (exists g, g ∈ l /\ covers g a) <-> covers r a /\ ~ covers taken a.
Proof.
  intros Hr Ht Hap Hin. unfold carve. rewrite (g_size_page _ Ht). cbn [Z.eqb negb].
  rewrite bool_decide_false by (intros ->; apply Hin; split; lia). rewrite !range_end_ok by done.
  destruct Hr as [R1 R2 R3 R4 R5], Ht as [T1 T2 T3 T4 T5]. unfold apart, inside in *.
  assert ((m_base taken - m_base r) mod PAGE_SIZE = 0) as P1 by by apply page_diff.
  assert ((m_base taken + m_size taken) mod PAGE_SIZE = 0) as P2 by by apply page_sum.
  assert ((m_base r + m_size r - (m_base taken + m_size taken)) mod PAGE_SIZE = 0) as P3
    by (apply page_diff; [by apply page_sum|done]).
  eexists. split; [done|].
  destruct (Z.ltb_spec (m_base r) (m_base taken)) as [L|L];
    destruct (Z.ltb_spec (m_base taken + m_size taken) (m_base r + m_size r)) as [G|G]; try lia; cbn [app];
    rewrite ?(wrap_small 64) by (unfold in_width; lia).
  all: split; [done|]; split; [|split].
  all: try (intros g Hg; rewrite ?elem_of_cons, ?elem_of_nil in Hg; destruct_or! Hg; try done; subst g; cbn [m_base m_size];
            (split; [split; cbn [m_base m_size]|split]); first [done|lia]).
  all: try (apply apart_all_one || (apply apart_all_two; unfold apart; cbn [m_base m_size]; lia)).
  all: intros a; unfold covers; split;
    [intros (g & Hg & Hc); rewrite ?elem_of_cons, ?elem_of_nil in Hg; destruct_or! Hg; try done; subst g; cbn [m_base m_size] in *; lia|].
  - intros [Hc Hn]. destruct (Z.ltb_spec a (m_base taken)).
    + eexists. split; [by left|]. cbn [m_base m_size]. lia.
    + eexists. split; [right; by left|]. cbn [m_base m_size]. lia.
  - intros [Hc Hn]. eexists. split; [by left|]. cbn [m_base m_size]. lia.
  - intros [Hc Hn]. eexists. split; [by left|]. cbn [m_base m_size]. lia.
Qed.

(** ** The regions that replace a region *)

(** The region for [range] that is split off from [source]. *)
Definition piece (source : Region) (range : VirtualRange) : Region :=
  mkRegion false range (wrap 64 (m_offset_in_vmobject source + (m_base range - vaddr source))) (m_vmobject source)
    (m_name source) (wrap 8 (Z.lor (m_access source) (Z.shiftl (Z.land (m_access source) 7) 4))) (m_shared source)
    (m_cacheable source) (m_stack source) (m_mmap source) (m_syscall_region source)
    (m_mmapped_from_readable source) (m_mmapped_from_writable source) false false false false.

Lemma piece_access a : Z.land (wrap 8 (Z.lor a (Z.shiftl (Z.land a 7) 4))) 7 = Z.land a 7.
Proof.
  apply Z.bits_inj'. intros n Hn. change 7 with (Z.ones 3). rewrite !Z.land_spec.
  destruct (Z.ltb_spec n 3).
  - unfold wrap. rewrite Z.mod_pow2_bits_low, Z.lor_spec, Z.shiftl_spec, (Z.testbit_neg_r _ (n - 4)) by lia.
    by rewrite orb_false_r.
  - rewrite (Z.ones_spec_high 3 n) by lia. by rewrite !andb_false_r.
Qed.

Lemma piece_offset source range :
  region_ok source -> range_ok range -> inside range (m_range source) ->
  m_offset_in_vmobject (piece source range) = m_offset_in_vmobject source + (m_base range - vaddr source).
Proof.
  intros [? ? ? _ _] [? ? ? _ _] [? ?]. simpl. apply wrap_small. unfold in_width, region_size, vaddr in *. lia.
Qed.

Lemma piece_view source range a :
  region_ok source -> range_ok range -> inside range (m_range source) -> view (piece source range) a = view source a.
Proof.
  intros Hs Hr Hi. unfold view. rewrite piece_offset by done.
  replace (Z.land (m_access (piece source range)) 7) with (Z.land (m_access source) 7) by (symmetry; apply piece_access).
  unfold vaddr. simpl. f_equal. lia.
Qed.

Lemma piece_ok source range :
  region_ok source -> range_ok range -> inside range (m_range source) -> region_ok (piece source range).
Proof.
  intros Hs Hr Hi. pose proof (piece_offset source range Hs Hr Hi) as E. destruct Hs, Hr, Hi.
  unfold vaddr, region_size in *. split; rewrite ?E; unfold vaddr, region_size; simpl; try done; lia.
Qed.

(** The tree has gained the regions [new]. *)
Definition gains (t : RegionTree) (new : list Region) (t' : RegionTree) : Prop :=
  tree_ok t' /\ m_total_range t' = m_total_range t /\ forall x, x ∈ m_regions t' <-> x ∈ new \/ x ∈ m_regions t.

Lemma split_region_ok source range s :
  tree_ok (m_region_tree s) -> range_ok range -> is_free (m_region_tree s) range ->
  allocs (try_allocate_split_region source range (wrap 64 (m_offset_in_vmobject source + (m_base range - vaddr source)))) s
    (fun r s' => r = piece source range /\ gains (m_region_tree s) [r] (m_region_tree s')).
Proof.
  intros Hok Hr Hf. unfold try_allocate_split_region.
  apply (allocs_bind _ _ _ (fun _ s' => m_region_tree s' = m_region_tree s)).
  { destruct (m_name source); [by apply allocs_try_allocate|by apply allocs_ret]. }
  intros _ s1 E1. unfold create_unplaced.
  apply (allocs_bind _ _ _ (fun r s' => m_region_tree s' = m_region_tree s /\ r =
    mkRegion false (mkRange 0 0) (wrap 64 (m_offset_in_vmobject source + (m_base range - vaddr source))) (m_vmobject source)
      (m_name source) (wrap 8 (Z.lor (m_access source) (Z.shiftl (Z.land (m_access source) 7) 4))) (m_shared source)
      (m_cacheable source) false false false false false false false false false)).
  { eapply allocs_bind; [apply allocs_try_allocate; by rewrite E1|]. intros ? s2 E2. cbn beta in E2. apply allocs_ret. by rewrite E2. }
  intros r s2 [E2 ->]. cbn zeta. apply allocs_then_gets. rewrite E2. destruct Hr as [R1 R2 R3 R4 R5].
  destruct (allocate_range_specific_spec (m_region_tree s) (m_base range) (m_size range) Hok ltac:(lia) R4 ltac:(lia) R5)
    as [[Ea _]|[_ Hn]]; [|by destruct range].
  unfold place_specifically. rewrite Ea. destruct range as [b z]. cbn [m_base m_size kbind outcome_monad kret] in *.
  eapply allocs_then_lift; [done|]. cbn beta iota. apply allocs_then_modify; [done|]. apply allocs_ret.
  split; [done|]. cbn [m_region_tree]. split_and!.
  - by apply tree_ok_insert; try done; unfold region_size; simpl.
  - done.
  - intros x. cbn [m_regions]. rewrite elem_of_insert, list_elem_of_singleton. done.
Qed.

Lemma gains_trans t l1 t1 l2 t2 : gains t l1 t1 -> gains t1 l2 t2 -> gains t (l1 ++ l2) t2.
Proof.
  intros (_ & E1 & H1) (? & E2 & H2). split_and!; [done|congruence|]. intros x. rewrite H2, H1, elem_of_app. tauto.
Qed.

Lemma make_replacements_ok source l s :
  tree_ok (m_region_tree s) -> range_ok (m_range source) ->
  (forall g, g ∈ l -> range_ok g /\ inside g (m_range source) /\ is_free (m_region_tree s) g) -> apart_all l ->
  allocs (make_replacements source l) s
    (fun new s' => new = piece source <$> l /\ gains (m_region_tree s) new (m_region_tree s')).
Proof.
  intros Hok Hsrc. revert s Hok. induction l as [|g l IH]; intros s Hok Hl Hap.
  { apply allocs_ret. split; [done|]. split_and!; [done|done|]. intros x. rewrite elem_of_nil. tauto. }
  destruct (Hl g ltac:(left)) as (Hg & Hi & Hf). destruct Hap as [Hap1 Hap2]. cbn [make_replacements]. unfold try_make_replacement_region.
  eapply allocs_bind.
  { apply allocs_then_VERIFY; [|by apply split_region_ok]. unfold contains, contains_span.
    change (wrap 64 (m_base g + m_size g)) with (range_end g). rewrite !range_end_ok by done.
    destruct Hg, Hi. rewrite (proj2 (Z.ltb_ge _ _)), !(proj2 (Z.leb_le _ _)) by lia. done. }
  intros r s1 [-> Hg1]. cbn beta. eapply allocs_bind.
  { apply IH; [apply Hg1| |done]. intros h Hh. destruct (Hl h ltac:(by right)) as (? & ? & F1 & F2 & F3).
    split_and!; [done|done|]. destruct Hg1 as (_ & Et & Hx). unfold is_free. rewrite Et. split_and!; [done|done|].
    intros x [->%list_elem_of_singleton|?]%Hx; [|by apply F3]. specialize (Hap1 h Hh). unfold apart in *. simpl. tauto. }
  intros new s2 [-> Hg2]. apply allocs_ret. split; [done|]. by apply (gains_trans _ [piece source g] (m_region_tree s1)).
Qed.

(** [new] are the parts of [r] outside [taken]. *)
Definition parts_of (r : Region) (taken : VirtualRange) (new : list Region) : Prop :=
  (forall x, x ∈ new -> range_ok (m_range x) /\ inside (m_range x) (m_range r) /\ apart (m_range x) taken /\ region_ok x) /\
  forall a v, (exists x, x ∈ new /\ covers (m_range x) a /\ view x a = v) <->
              covers (m_range r) a /\ ~ covers taken a /\ view r a = v.

Lemma split_around_ok r taken s :
  tree_ok (m_region_tree s) -> range_ok (m_range r) -> region_ok r -> is_free (m_region_tree s) (m_range r) ->
  range_ok taken -> ~ apart (m_range r) taken -> ~ inside (m_range r) taken ->
  allocs (try_split_region_around_range r taken) s
    (fun new s' => parts_of r taken new /\ gains (m_region_tree s) new (m_region_tree s')).
Proof.
  intros Hok Hr Hro (F1 & F2 & F3) Ht Hap Hin. unfold try_split_region_around_range.
  destruct (carve_ok _ _ Hr Ht Hap Hin) as (l & El & Hne & Hall & Hl & Hcov).
  eapply allocs_then_lift; [exact El|]. apply allocs_then_VERIFY; [by rewrite bool_decide_false|].
  eapply allocs_mono.
  { apply make_replacements_ok; [done|done| |done]. intros g Hg. destruct (Hl g Hg) as (? & [I1 I2] & ?).
    split_and!; [done|by split|]. split_and!; [lia|lia|]. intros x Hx. specialize (F3 x Hx). unfold apart in *. lia. }
  intros new s' [-> Hg]. split; [|done]. split.
  - intros x (g & -> & Hgl)%list_elem_of_fmap. destruct (Hl g Hgl) as (? & ? & ?).
    split_and!; [done|done|done|by apply piece_ok].
  - intros a v. split.
    + intros (x & (g & -> & Hgl)%list_elem_of_fmap & Hc & <-). destruct (Hl g Hgl) as (? & ? & ?).
      destruct (proj1 (Hcov a)) as [? ?]; [by exists g|]. rewrite piece_view by done. done.
    + intros (Hc & Hn & <-). destruct (proj2 (Hcov a)) as (g & Hgl & Hga); [done|]. destruct (Hl g Hgl) as (? & ? & ?).
      exists (piece r g). split_and!; [apply list_elem_of_fmap; by exists g|done|by apply piece_view].
Qed.

Lemma take_region_ok r s :
  tree_ok (m_region_tree s) -> r ∈ m_regions (m_region_tree s) ->
  allocs (take_region r) s (fun r' s' => r' = r /\ tree_ok (m_region_tree s') /\
    m_total_range (m_region_tree s') = m_total_range (m_region_tree s) /\ is_free (m_region_tree s') (m_range r) /\
    forall x, x ∈ m_regions (m_region_tree s') <-> x ∈ m_regions (m_region_tree s) /\ x <> r).
Proof.
  intros Hok Hr. unfold take_region. apply allocs_then_gets.
  pose proof (remove_region_spec _ r Hok Hr) as (Hd & Ht & Hx). pose proof (tree_ok_remove _ r Hok) as Hok'.
  destruct (remove_region (m_region_tree s) r) as [b t']. cbn [fst snd] in *. subst b.
  apply allocs_then_modify; [done|]. apply allocs_then_VERIFY; [done|]. apply allocs_ret. cbn [m_region_tree].
  split_and!; [done|done|done| |done].
  destruct (region_facts _ Hok r Hr) as (? & ? & ? & _). unfold vaddr, region_size in *.
  split_and!; [rewrite Ht; lia|rewrite Ht; lia|]. intros x [Hxt Hne]%Hx. by apply (chain_apart _ _ _ _ _ (t_chain _ Hok)).
Qed.

(** ** Attaching regions to the page directory *)

Definition mark (l : list Region) (t : RegionTree) : RegionTree :=
  mkTree ((fun x => if bool_decide (vaddr x ∈ vaddr <$> l) then set_page_directory x else x) <$> m_regions t)
    (m_total_range t).

Lemma mark_nil t : mark [] t = t.
Proof. destruct t as [l g]. unfold mark. cbn [m_regions m_total_range]. f_equal. by apply list_fmap_id. Qed.

Lemma mark_cons r l t : mark l (mark [r] t) = mark (r :: l) t.
Proof.
  unfold mark. cbn [m_regions m_total_range]. f_equal. rewrite <- list_fmap_compose. apply list_fmap_ext. intros _ x _. simpl.
  destruct (decide (vaddr x = vaddr r)) as [E|E].
  - rewrite (bool_decide_true (vaddr x ∈ [vaddr r])), (bool_decide_true (vaddr x ∈ vaddr r :: _)) by (rewrite E; left).
    by destruct (bool_decide _).
  - rewrite (bool_decide_false (vaddr x ∈ [vaddr r])) by by rewrite list_elem_of_singleton.
    apply (f_equal (fun b : bool => if b then set_page_directory x else x)), bool_decide_ext. rewrite elem_of_cons. tauto.
Qed.

Lemma mark_app l1 l2 t : mark l2 (mark l1 t) = mark (l1 ++ l2) t.
Proof.
  revert t. induction l1 as [|r l1 IH]; intros t; [by rewrite mark_nil|]. simpl. by rewrite <- (mark_cons r l1), IH, (mark_cons r (l1 ++ l2)).
Qed.

Lemma mark_chain (l : list Region) lo regions hi :
  chain lo regions hi ->
  chain lo ((fun x => if bool_decide (vaddr x ∈ vaddr <$> l) then set_page_directory x else x) <$> regions) hi.
Proof.
  revert lo. induction regions as [|x regions IH]; intros lo; [done|]. intros (H1 & H2 & H3 & H4 & Hc). simpl.
  destruct (bool_decide _); (split_and!; [done|done|done|done|by apply IH]).
Qed.

Lemma mark_elem l t y :
  y ∈ m_regions (mark l t) -> exists x, x ∈ m_regions t /\ (y = x /\ vaddr x ∉ vaddr <$> l \/ y = set_page_directory x).
Proof.
  simpl. intros (x & -> & Hx)%list_elem_of_fmap. exists x. split; [done|].
  destruct (bool_decide _) eqn:E; [by right|left]. split; [done|]. by apply bool_decide_eq_false in E.
Qed.

Lemma mark_maps l t a v : maps (mark l t) a v <-> maps t a v.
Proof.
  split.
  - intros (y & (x & Hx & [[-> _]| ->])%mark_elem & Hc & Hv); by exists x.
  - intros (x & Hx & Hc & Hv). exists (if bool_decide (vaddr x ∈ vaddr <$> l) then set_page_directory x else x).
    split; [apply list_elem_of_fmap; by exists x|]. by destruct (bool_decide _).
Qed.

Lemma mark_space_ok kmb l t : space_ok kmb t -> space_ok kmb (mark l t).
Proof.
  intros [[T1 T2 T3 T4] H2 H3 H4]. split; [|done|done|].
  - split; [done|done|done|]. by apply mark_chain.
  - intros y (x & Hx & [[-> _]| ->])%mark_elem; [by apply H4|]. by destruct (H4 x Hx).
Qed.

Section mapping.
Context (kmb : Z).

(** A region that lies in the user part of the address space. *)
Record placed (r : Region) : Prop := {
  l_range : range_ok (m_range r);
  l_region : region_ok r;
  l_low : USER_RANGE_BASE <= vaddr r;
  l_high : vaddr r + region_size r <= USER_RANGE_CEILING kmb }.

Lemma space_placed t r : space_ok kmb t -> r ∈ m_regions t -> placed r.
Proof.
  intros [Hok Hl Hh Hr] Hin. destruct (region_facts t Hok r Hin) as (? & _ & ? & _).
  split; [by apply (region_range_ok t)|by apply Hr|lia|lia].
Qed.

Lemma page_index_inside r i :
  placed r -> 0 <= i < page_count r -> first_page_index r + i < vm_size (m_vmobject r) / PAGE_SIZE.
Proof.
  intros [[_ _ _ _ G] [O1 O2 O3 O4 _] _ _] Hi. unfold page_count, first_page_index, region_size, PAGE_SIZE in *.
  apply Z.mod_divide in G as [k Ek]; [|done]. apply Z.mod_divide in O4 as [m Em]; [|done]. rewrite Ek, Em in *.
  rewrite Z.div_mul in Hi by done. rewrite Z.div_mul by done.
  pose proof (Z.div_mod (m_offset_in_vmobject r) 4096 ltac:(done)). pose proof (Z.mod_pos_bound (m_offset_in_vmobject r) 4096 ltac:(done)).
  lia.
Qed.

Lemma page_count_size r : placed r -> page_count r * PAGE_SIZE = region_size r /\ 0 < page_count r.
Proof.
  intros [[_ G1 _ _ G] _ _ _]. unfold page_count, region_size, PAGE_SIZE in *. apply Z.mod_divide in G as [k Ek]; [|done].
  rewrite Ek in *. rewrite Z.div_mul by done. lia.
Qed.

Lemma map_pages_ok r pages n i s :
  placed r -> (pages = None \/ pages = Some (vm_size (m_vmobject r) / PAGE_SIZE)) -> 0 <= i -> i + Z.of_nat n <= page_count r ->
  tree_ok (m_region_tree s) ->
  allocs (map_pages kmb r pages i n) s (fun _ s' => m_region_tree s' = m_region_tree s).
Proof.
  intros Hp Hpages. revert i s. induction n as [|n IH]; intros i s Hi Hn Hok; cbn [map_pages]; [by apply allocs_ret|].
  apply allocs_then_VERIFY.
  { destruct Hpages as [->| ->]; [done|]. apply Z.ltb_lt, page_index_inside; [done|lia]. }
  eapply allocs_bind.
  - unfold map_individual_page_impl. cbn zeta. apply allocs_then_VERIFY; [|by apply allocs_try_allocate].
    destruct (page_count_size r Hp) as [Hs _]. destruct Hp as [[] _ L1 L2]. unfold is_user_address, vaddr, region_size, PAGE_SIZE in *.
    rewrite wrap_small by (unfold in_width; nia).
    rewrite (proj2 (Z.leb_le _ _)), (proj2 (Z.ltb_lt _ _)) by nia. by rewrite andb_false_r.
  - intros ? s1 E1. cbn beta in E1. rewrite <- E1. apply IH; [lia|lia|by rewrite E1].
Qed.

Lemma mark_one r t :
  mkTree ((fun x => if vaddr x =? vaddr r then set_page_directory x else x) <$> m_regions t) (m_total_range t) = mark [r] t.
Proof.
  unfold mark. f_equal. apply list_fmap_ext. intros _ x _. simpl.
  destruct (Z.eqb_spec (vaddr x) (vaddr r)) as [E|E].
  - rewrite bool_decide_true; [done|]. by apply list_elem_of_singleton.
  - rewrite bool_decide_false; [done|]. by rewrite list_elem_of_singleton.
Qed.

Lemma map_region_ok r s :
  space_ok kmb (m_region_tree s) -> placed r ->
  allocs (map_region kmb r) s (fun _ s' => m_region_tree s' = mark [r] (m_region_tree s)).
Proof.
  intros Hs Hp. unfold map_region. pose proof (page_count_size r Hp) as [_ Hpos]. apply allocs_then_VERIFY.
  { destruct (m_shared r) eqn:E; [by rewrite andb_false_r|]. rewrite (r_private _ (l_region _ Hp) E). by rewrite andb_false_r. }
  apply allocs_then_modify; [done|]. rewrite (proj2 (Z.eqb_neq _ _)) by lia. rewrite mark_one.
  apply map_pages_ok; [done|by right|lia|lia|]. apply (mark_space_ok kmb [r] _ Hs).
Qed.

Lemma map_regions_ok l s :
  space_ok kmb (m_region_tree s) -> (forall r, r ∈ l -> placed r) ->
  allocs (map_regions kmb l) s (fun _ s' => m_region_tree s' = mark l (m_region_tree s)).
Proof.
  revert s. induction l as [|r l IH]; intros s Hs Hl; cbn [map_regions]; [apply allocs_ret; by rewrite mark_nil|].
  eapply allocs_bind; [apply map_region_ok; [done|apply Hl; left]|]. intros ? s1 E1. cbn beta in E1.
  rewrite <- mark_cons, <- E1. apply IH; [rewrite E1; by apply mark_space_ok|]. intros x Hx. apply Hl. by right.
Qed.

Lemma map_regions_app l q s :
  space_ok kmb (m_region_tree s) -> (forall r, r ∈ l ++ [q] -> placed r) ->
  allocs (map_regions kmb l ;; map_region kmb q) s (fun _ s' => m_region_tree s' = mark (l ++ [q]) (m_region_tree s)).
Proof.
  intros Hs Hl. eapply allocs_bind; [apply map_regions_ok; [done|]; intros x Hx; apply Hl, elem_of_app; by left|].
  intros ? s1 E1. cbn beta in E1. eapply allocs_mono; [apply map_region_ok|].
  - rewrite E1. by apply mark_space_ok.
  - apply Hl, elem_of_app. right. by apply list_elem_of_singleton.
  - intros ? s2 E2. cbn beta in E2. by rewrite E2, E1, mark_app.
Qed.
End mapping.

(** ** The regions that intersect a range *)

Definition touches (range : VirtualRange) (r : Region) : Prop := ~ apart (m_range r) range.

#[export] Instance touches_dec range r : Decision (touches range r).
Proof. unfold touches, apart. apply _. Defined.

Lemma touches_test range r :
  range_ok range -> range_ok (m_range r) ->
  (m_base (m_range r) <? range_end range) && (m_base range <? range_end (m_range r)) = bool_decide (touches range r).
Proof.
  intros Hg Hr. rewrite !range_end_ok by done. unfold touches, apart.
  destruct (Z.ltb_spec (m_base (m_range r)) (m_base range + m_size range)),
    (Z.ltb_spec (m_base range) (m_base (m_range r) + m_size (m_range r))); simpl; symmetry;
    (apply bool_decide_eq_true || apply bool_decide_eq_false); lia.
Qed.

(** Past the first region, only the last one that is touched sticks out of the range. *)
Lemma collect_rest range l lo hi total acc s :
  range_ok range -> 0 <= lo -> hi < 2 ^ 64 -> m_base range <= lo -> chain lo l hi -> tree_ok (m_region_tree s) ->
  0 <= total < 2 ^ 64 -> total <> m_size range ->
  allocs (collect_intersecting l range total acc) s
    (fun regions s' => regions = acc ++ filter (touches range) l /\ m_region_tree s' = m_region_tree s).
Proof.
  intros Hg Hlo0 Hhi. revert lo total acc s Hlo0. induction l as [|r l IH]; intros lo total acc s Hlo0 Hlo Hc Hok Ht Hne; cbn [collect_intersecting].
  { apply allocs_ret. by rewrite app_nil_r. }
  destruct Hc as (H1 & H2 & H3 & H4 & Hc). pose proof (chain_le _ _ _ Hc).
  assert (range_ok (m_range r)) as Hr by (unfold vaddr, region_size in *; split; lia || done).
  rewrite (touches_test range r Hg Hr), filter_cons. destruct (decide (touches range r)) as [Htr|Htr].
  2: { rewrite bool_decide_false by done. apply (IH (vaddr r + region_size r)); try done; lia. }
  rewrite bool_decide_true by done. eapply allocs_bind; [by apply allocs_maybe_allocate|]. intros ? s1 E1. cbn beta in E1.
  cbn zeta. eapply allocs_then_lift; [by apply intersect_ok|]. cbn [m_size].
  destruct (Z.leb_spec (vaddr r + region_size r) (m_base range + m_size range)) as [Hin|Hout].
  - unfold vaddr, region_size in *. rewrite Z.max_l, Z.min_l by lia.
    replace (total + _) with total by lia. rewrite wrap_small by (unfold in_width; lia).
    rewrite (proj2 (Z.eqb_neq _ _)) by done. eapply allocs_mono.
    + apply (IH (m_base (m_range r) + m_size (m_range r))); try done; [lia|lia|by rewrite E1].
    + intros regions s' [-> Es]. by rewrite <- app_assoc, Es.
  - assert (filter (touches range) l = []) as E0.
    { apply filter_none. intros x Hx Htx. destruct (chain_elem _ _ _ _ Hc Hx) as (? & ? & _). apply Htx. right.
      unfold vaddr, region_size in *. lia. }
    rewrite E0. match goal with |- context [?a =? ?b] => destruct (a =? b) eqn:Eq end.
    + apply allocs_ret. done.
    + bool_hyps. eapply allocs_mono.
      * apply (IH (vaddr r + region_size r)); try done; [lia|lia|by rewrite E1|]. apply wrap_range. lia.
      * intros regions s' [-> Es]. by rewrite E0, app_nil_r, Es.
Qed.

(** The search finds every region that the range touches, provided that a region starts at
    or below the range, or none is touched at all, and that the part of the first region
    before the range is not as large as the range. *)
Record collectable (t : RegionTree) (range : VirtualRange) : Prop := {
  c_first : (exists r, r ∈ m_regions t /\ vaddr r <= m_base range) \/ forall r, r ∈ m_regions t -> ~ touches range r;
  c_total : forall r, r ∈ m_regions t -> vaddr r < m_base range < vaddr r + region_size r ->
            m_base range - vaddr r <> m_size range }.

Lemma filter_every {A} (P : A -> Prop) `{forall x, Decision (P x)} (l : list A) :
  (forall x, x ∈ l -> P x) -> filter P l = l.
Proof.
  induction l as [|x l IH]; intros Hn; [done|]. rewrite filter_cons, decide_True by (apply Hn; left).
  f_equal. apply IH. intros y Hy. apply Hn. by right.
Qed.

Lemma begin_from_split lo l1 r l2 hi : chain lo (l1 ++ r :: l2) hi -> begin_from r (l1 ++ r :: l2) = r :: l2.
Proof.
  intros Hc. destruct (chain_app _ _ _ _ _ Hc) as [C1 C2]. unfold begin_from. rewrite filter_app.
  rewrite (filter_none _ l1).
  - simpl. rewrite filter_cons, decide_True by lia. f_equal. apply filter_every. intros x Hx.
    destruct (chain_elem _ _ _ _ C2 Hx) as (? & _). destruct (chain_elem _ _ _ r Hc) as (_ & ? & _); [set_solver|]. lia.
  - intros x Hx. destruct (chain_elem _ _ _ _ C1 Hx) as (_ & ? & ? & _). lia.
Qed.

Lemma find_regions_intersecting_ok range s :
  tree_ok (m_region_tree s) -> range_ok range -> collectable (m_region_tree s) range ->
  (forall r, r ∈ m_regions (m_region_tree s) -> ~ inside range (m_range r)) ->
  allocs (find_regions_intersecting range) s
    (fun regions s' => regions = filter (touches range) (m_regions (m_region_tree s)) /\
                       m_region_tree s' = m_region_tree s).
Proof.
  intros Hok Hg [Hfirst Htotal] Hnot. unfold find_regions_intersecting. apply allocs_then_gets.
  pose proof (t_end _ Hok) as Hte. pose proof (t_chain _ Hok) as Hc.
  pose proof (find_largest_split _ _ _ (m_base range) Hc) as Hf.
  destruct (find_largest_not_above _ _) as [r|].
  2: { apply allocs_ret. split; [|done]. symmetry. apply filter_none. destruct Hfirst as [(r & Hr & Hle)|Hnone]; [|done].
       specialize (Hf r Hr). lia. }
  destruct Hf as (l1 & l2 & El & Hle & Hl2). assert (r ∈ m_regions (m_region_tree s)) as Hin by (rewrite El; set_solver).
  pose proof (region_range_ok _ r Hok Hin) as Hr. rewrite El in Hc.
  destruct (chain_app _ _ _ _ _ Hc) as [C1 C2]. rewrite El, (begin_from_split _ _ _ _ _ Hc), filter_app.
  rewrite (filter_none _ l1).
  2: { intros x Hx Ht. apply Ht. left. destruct (chain_elem _ _ _ _ C1 Hx) as (_ & _ & ? & _).
       unfold vaddr, region_size in *. lia. }
  assert (chain (Z.max (m_base range) (vaddr r + region_size r)) l2 (m_base (m_total_range (m_region_tree s)) + m_size (m_total_range (m_region_tree s)))
    \/ l2 = []) as HC2.
  { destruct l2 as [|x l2]; [by right|left]. specialize (Hl2 x ltac:(left)). destruct C2 as (? & C2). split; [lia|done]. }
  cbn [app collect_intersecting]. rewrite (touches_test range r Hg Hr), filter_cons.
  assert (forall total acc s1, 0 <= total < 2 ^ 64 -> total <> m_size range -> m_region_tree s1 = m_region_tree s ->
    allocs (collect_intersecting l2 range total acc) s1
      (fun regions s' => regions = acc ++ filter (touches range) l2 /\ m_region_tree s' = m_region_tree s)) as Hrest.
  { intros total acc s1 Ht Hne E1. destruct HC2 as [HC2| ->]; [|apply allocs_ret; by rewrite app_nil_r].
    rewrite <- E1. eapply collect_rest; try exact HC2; try done; [destruct Hg; lia|lia|by rewrite E1]. }
  destruct (decide (touches range r)) as [Ht|Ht].
  2: { rewrite bool_decide_false by done. apply (Hrest 0 [] s); [lia|destruct Hg; lia|done]. }
  rewrite bool_decide_true by done. eapply allocs_bind; [by apply allocs_maybe_allocate|]. intros ? s1 E1. cbn beta in E1.
  cbn zeta. eapply allocs_then_lift; [by apply intersect_ok|]. cbn [m_size].
  specialize (Hnot r Hin). specialize (Htotal r Hin). unfold inside, touches, apart, vaddr, region_size in *.
  destruct Hg as [G1 G2 G3 _ _], Hr as [R1 R2 R3 _ _].
  rewrite Z.max_r, Z.min_l by lia. rewrite wrap_small by (unfold in_width; lia). rewrite (proj2 (Z.eqb_neq _ _)) by lia.
  apply (Hrest _ [r]); [lia|lia|done].
Qed.

(** ** Unmapping the regions of a list *)

(** [maps], except in [range] for the regions of [l]. *)
Definition maps_except (l : list Region) (range : VirtualRange) (t : RegionTree) (a : Z) (v : page) : Prop :=
  exists r, r ∈ m_regions t /\ covers (m_range r) a /\ view r a = v /\ (r ∈ l -> ~ covers range a).

Lemma maps_except_nil range t a v : maps_except [] range t a v <-> maps t a v.
Proof.
  split; [by intros (r & ? & ? & ? & _); exists r|]. intros (r & ? & ? & ?). exists r. split_and!; try done.
  by intros ?%not_elem_of_nil.
Qed.

Lemma chain_NoDup lo l hi : chain lo l hi -> NoDup l.
Proof.
  revert lo. induction l as [|x l IH]; intros lo; [constructor|]. intros (_ & H2 & _ & _ & Hc).
  apply NoDup_cons. split; [|by eapply IH]. intros Hx. destruct (chain_elem _ _ _ _ Hc Hx) as (? & _). lia.
Qed.

Lemma covers_same lo regions hi x y a :
  chain lo regions hi -> x ∈ regions -> y ∈ regions -> covers (m_range x) a -> covers (m_range y) a -> x = y.
Proof.
  intros Hc Hx Hy Hxa Hya. apply (chain_unique lo regions hi); [done..|].
  revert lo Hc Hx Hy. induction regions as [|z regions IH]; intros lo Hc Hx Hy; [by apply not_elem_of_nil in Hx|].
  destruct Hc as (_ & _ & _ & _ & Hc). unfold covers, vaddr, region_size in *.
  apply elem_of_cons in Hx as [->|Hx]; apply elem_of_cons in Hy as [->|Hy]; [done| | |by eapply IH].
  - destruct (chain_elem _ _ _ _ Hc Hy) as (? & _). unfold vaddr in *. lia.
  - destruct (chain_elem _ _ _ _ Hc Hx) as (? & _). unfold vaddr in *. lia.
Qed.

Lemma maps_except_step t t' r new l range a v :
  tree_ok t -> r ∈ m_regions t -> r ∉ l -> (forall x, x ∈ l -> touches range x) -> parts_of r range new ->
  (forall x, x ∈ m_regions t' <-> x ∈ new \/ x ∈ m_regions t /\ x <> r) ->
  maps_except l range t' a v <-> maps_except (r :: l) range t a v.
Proof.
  intros Hok Hr Hl Htl [Hnew Hparts] Ht'. split.
  - intros (x & [Hx|[Hx Hne]]%Ht' & Hc & Hv & Hn).
    + destruct (proj1 (Hparts a v)) as (? & ? & ?); [by exists x|]. by exists r.
    + exists x. split_and!; try done. by intros [?|?]%elem_of_cons; [|apply Hn].
  - intros (x & Hx & Hc & Hv & Hn).
    assert (x = r \/ x <> r) as [->|Hne].
    { destruct (decide (covers (m_range r) a)) as [Hra|Hra]; [left|right; by intros ->].
      by apply (covers_same _ _ _ _ _ a (t_chain _ Hok)). }
    + destruct (proj2 (Hparts a v)) as (y & Hy & Hya & Hyv); [split_and!; [done|apply Hn; left|done]|].
      exists y. split_and!; [apply Ht'; by left|done|done|]. intros Hyl. exfalso. apply (Htl y Hyl). by destruct (Hnew y Hy) as (_ & _ & ? & _).
    + exists x. split_and!; [apply Ht'; by right|done|done|]. intros Hxl. apply Hn. by right.
Qed.

(** The address space after the regions of [l] gave up [range]; [new] are the regions made. *)
Record gave_up (l : list Region) (range : VirtualRange) (t : RegionTree) (new : list Region) (t' : RegionTree) : Prop := {
  u_tree : tree_ok t';
  u_total : m_total_range t' = m_total_range t;
  u_regions : forall x, x ∈ m_regions t' -> region_ok x;
  u_maps : forall a v, maps t' a v <-> maps_except l range t a v;
  u_old : forall x, x ∈ m_regions t' -> x ∈ m_regions t \/ x ∈ new;
  u_new : forall x, x ∈ new -> x ∈ m_regions t' }.

Lemma deallocate_region_ok r s :
  tree_ok (m_region_tree s) -> r ∈ m_regions (m_region_tree s) ->
  allocs (deallocate_region r) s (fun _ s' => tree_ok (m_region_tree s') /\
    m_total_range (m_region_tree s') = m_total_range (m_region_tree s) /\
    forall x, x ∈ m_regions (m_region_tree s') <-> x ∈ [] \/ x ∈ m_regions (m_region_tree s) /\ x <> r).
Proof.
  intros Hok Hr. eapply allocs_bind; [by apply take_region_ok|]. intros r' s' (-> & ? & ? & _ & Hx).
  apply allocs_ret. split_and!; [done|done|]. intros x. rewrite Hx, elem_of_nil. tauto.
Qed.

Lemma parts_of_whole r range : inside (m_range r) range -> parts_of r range [].
Proof.
  intros [? ?]. split; [by intros x ?%not_elem_of_nil|]. intros a v. split; [by intros (x & ?%not_elem_of_nil & _)|].
  unfold covers. lia.
Qed.

(** Taking a region out and putting its parts outside the range back. *)
Lemma take_and_split_ok r range s :
  tree_ok (m_region_tree s) -> r ∈ m_regions (m_region_tree s) -> region_ok r -> range_ok range -> touches range r ->
  ~ inside (m_range r) range ->
  allocs (region ← take_region r; try_split_region_around_range region range) s (fun new s' =>
    parts_of r range new /\ tree_ok (m_region_tree s') /\
    m_total_range (m_region_tree s') = m_total_range (m_region_tree s) /\
    forall x, x ∈ m_regions (m_region_tree s') <-> x ∈ new \/ x ∈ m_regions (m_region_tree s) /\ x <> r).
Proof.
  intros Hok Hr Hro Hg Ht Hni. eapply allocs_bind; [by apply take_region_ok|]. intros r' s1 (-> & Hok1 & E1 & Hfree & Hx1).
  eapply allocs_mono; [apply split_around_ok; try done; by apply (region_range_ok (m_region_tree s))|].
  intros new s2 [Hp (Hok2 & E2 & Hx2)]. split_and!; [done|done|congruence|]. intros x. rewrite Hx2, Hx1. tauto.
Qed.

Lemma allocs_assoc {A B C} (m : M AddressSpace A) (f : A -> M AddressSpace B) (g : B -> M AddressSpace C) s Q :
  allocs (kbind (kbind m f) g) s Q -> allocs (kbind m (fun a => kbind (f a) g)) s Q.
Proof. unfold allocs, wp. simpl. by destruct (m s) as [[a|e|] s1]. Qed.

Lemma intersect_whole r range :
  range_ok (m_range r) -> range_ok range -> touches range r ->
  exists i, intersect (m_range r) range = Ok i /\ (m_size i = region_size r <-> inside (m_range r) range).
Proof.
  intros Hr Hg Ht. eexists. split; [by apply intersect_ok|]. cbn [m_size]. unfold touches, apart, inside, region_size in *.
  destruct Hr, Hg. lia.
Qed.

Lemma gave_up_step t t1 t2 r parts l range new :
  tree_ok t -> r ∈ m_regions t -> r ∉ l -> (forall x, x ∈ l -> touches range x) -> parts_of r range parts ->
  m_total_range t1 = m_total_range t -> (forall x, x ∈ m_regions t1 <-> x ∈ parts \/ x ∈ m_regions t /\ x <> r) ->
  (forall x, x ∈ parts -> x ∈ new) -> gave_up l range t1 new t2 -> gave_up (r :: l) range t new t2.
Proof.
  intros Hok Hr Hrl Hl Hp E1 Hx1 Hsub [V1 V2 V3 V4 V5 V6]. split; try done.
  - congruence.
  - intros a v. rewrite V4. by apply (maps_except_step _ _ r parts).
  - intros x Hx. destruct (V5 x Hx) as [[Hx'|[Hx' _]]%Hx1|Hx']; [right; by apply Hsub|by left|by right].
Qed.

Lemma unmap_each_ok l range acc s :
  tree_ok (m_region_tree s) -> (forall x, x ∈ m_regions (m_region_tree s) -> region_ok x) -> range_ok range -> NoDup l ->
  (forall x, x ∈ l -> x ∈ m_regions (m_region_tree s) /\ touches range x) ->
  (forall x, x ∈ acc -> x ∈ m_regions (m_region_tree s) /\ ~ touches range x) ->
  allocs (unmap_each l range acc) s
    (fun new s' => (forall x, x ∈ acc -> x ∈ new) /\ gave_up l range (m_region_tree s) new (m_region_tree s')).
Proof.
  intros Hok Hro Hg. revert s acc Hok Hro. induction l as [|r l IH]; intros s acc Hok Hro Hnd Hl Hacc; cbn [unmap_each].
  { apply allocs_ret. split; [done|]. split; try done; [|by left|by apply Hacc].
    intros a v. symmetry. apply maps_except_nil. }
  apply NoDup_cons in Hnd as [Hrl Hnd]. destruct (Hl r ltac:(left)) as [Hr Ht].
  destruct (intersect_whole r range (region_range_ok _ _ Hok Hr) Hg Ht) as (i & Ei & Hi).
  eapply allocs_then_lift; [exact Ei|]. cbn beta.
  (* the rest of the list, once [r] was replaced by [parts] *)
  assert (forall parts s1, parts_of r range parts -> tree_ok (m_region_tree s1) ->
    m_total_range (m_region_tree s1) = m_total_range (m_region_tree s) ->
    (forall x, x ∈ m_regions (m_region_tree s1) <-> x ∈ parts \/ x ∈ m_regions (m_region_tree s) /\ x <> r) ->
    allocs (unmap_each l range (acc ++ parts)) s1
      (fun new s' => (forall x, x ∈ acc -> x ∈ new) /\ gave_up (r :: l) range (m_region_tree s) new (m_region_tree s'))) as Hrest.
  { intros parts s1 Hp Hok1 E1 Hx1. eapply allocs_mono.
    - apply IH; [done| |done| |].
      + intros x [Hx|[Hx _]]%Hx1; [|by apply Hro]. by destruct (proj1 Hp x Hx) as (_ & _ & _ & ?).
      + intros x Hx. destruct (Hl x ltac:(by right)) as [? ?]. split; [|done]. apply Hx1. right. split; [done|]. by intros ->.
      + intros x [Hx|Hx]%elem_of_app.
        * destruct (Hacc x Hx) as [? Hnt]. split; [|done]. apply Hx1. right. split; [done|]. by intros ->.
        * destruct (proj1 Hp x Hx) as (_ & _ & Hap & _). split; [apply Hx1; by left|]. intros H. by apply H.
    - intros new s2 [Hsub Hgu]. split; [intros x Hx; apply Hsub, elem_of_app; by left|].
      apply (gave_up_step _ (m_region_tree s1) _ r parts); try done.
      + intros x Hx. by apply Hl; right.
      + intros x Hx. apply Hsub, elem_of_app. by right. }
  destruct (Z.eqb_spec (m_size i) (region_size r)) as [E|E].
  - eapply allocs_bind; [by apply deallocate_region_ok|]. intros ? s1 (? & ? & Hx). cbn beta.
    pose proof (Hrest [] s1) as Hr0. rewrite app_nil_r in Hr0. apply Hr0; try done. apply parts_of_whole, Hi, E.
  - apply allocs_assoc. eapply allocs_bind; [apply take_and_split_ok; try done; [by apply Hro|by rewrite <- Hi]|].
    intros parts s1 (Hp & Hok1 & E1 & Hx1). eapply allocs_bind; [by apply allocs_maybe_allocate|].
    intros ? s2 E2. cbn beta in E2 |- *. apply Hrest; by rewrite ?E2.
Qed.

Lemma page_round_up_id range : range_ok range -> page_round_up (m_size range) = Ok (m_size range).
Proof.
  intros [G1 G2 G3 _ G5]. unfold page_round_up. change (Z.land (2 ^ 64 - 1) (wrap 64 (Z.lnot 4095))) with (2 ^ 64 - 4096).
  unfold PAGE_SIZE in *. change (4096 - 1) with 4095. apply Z.mod_divide in G5 as [k Ek]; [|done]. rewrite Ek in *.
  rewrite (proj2 (Z.ltb_ge _ _)) by lia. rewrite wrap_small by (unfold in_width; lia).
  rewrite mask_page by (unfold in_width; lia). replace (k * 4096 + 4096 - 1) with (4095 + k * 4096) by lia.
  rewrite Z.mod_add by done. f_equal. change (4095 mod 4096) with 4095. lia.
Qed.

Lemma find_region_from_range_ok t range :
  range_ok range ->
  match find_region_from_range t range with
  | Some r => r ∈ m_regions t /\ m_range r = range
  | None => tree_ok t -> forall r, r ∈ m_regions t -> m_range r <> range
  end.
Proof.
  intros Hg. unfold find_region_from_range, find. rewrite (page_round_up_id _ Hg).
  destruct (List.find _ (m_regions t)) as [r|] eqn:E.
  - apply List.find_some in E as [Hin E]. apply list_elem_of_In in Hin. bool_hyps.
    unfold vaddr, region_size in *. destruct (Z.eqb_spec (m_size (m_range r)) (m_size range)) as [E2|E2].
    + split; [done|]. destruct (m_range r), range. simpl in *. congruence.
    + intros Hok x Hx Ex. apply E2. f_equal. rewrite <- Ex. f_equal. apply (chain_unique _ _ _ _ _ (t_chain _ Hok)); [done..|].
      unfold vaddr. congruence.
  - intros _ r Hr Er. apply list_elem_of_In in Hr. pose proof (List.find_none _ _ E r Hr) as Hn. unfold vaddr in Hn.
    rewrite Er in Hn. by bool_hyps.
Qed.

(** Memory that a process may unmap or re-protect. *)
Definition mutable (r : Region) : Prop := m_mmap r = true /\ m_immutable r = false.
Definition all_mapped (t : RegionTree) : Prop := forall r, r ∈ m_regions t -> m_mapped r = true.

Lemma check_mutable_true r : mutable r -> check_mutable r = kret tt.
Proof. intros [H1 H2]. unfold check_mutable. by rewrite H1, H2. Qed.

Lemma check_all_mutable_true l s :
  (forall r, r ∈ l -> mutable r) -> check_all_mutable l s = (Ok tt, s).
Proof.
  induction l as [|r l IH]; intros Hl; [done|]. cbn [check_all_mutable]. rewrite check_mutable_true by (apply Hl; left).
  apply IH. intros x Hx. apply Hl. by right.
Qed.

Section munmap.
Context (kmb : Z) (s : AddressSpace) (range : VirtualRange).
Notation t := (m_region_tree s).
Context (Hs : space_ok kmb t) (Hg : range_ok range).

(** What unmapping the range leaves. *)
Definition unmapped (t' : RegionTree) : Prop :=
  space_ok kmb t' /\ (all_mapped t -> all_mapped t') /\ forall a v, maps t' a v <-> maps t a v /\ ~ covers range a.

Lemma maps_except_touched l a v :
  (forall r, r ∈ l <-> r ∈ m_regions t /\ touches range r) ->
  maps_except l range t a v <-> maps t a v /\ ~ covers range a.
Proof using Type.
  intros Hl. split.
  - intros (r & Hr & Hc & Hv & Hn). split; [by exists r|]. intros Ha. apply Hn; [|done]. apply Hl. split; [done|].
    unfold touches, apart, covers in *. lia.
  - intros [(r & Hr & Hc & Hv) Ha]. by exists r.
Qed.

(** Mapping the regions made completes the work. *)
Lemma gave_up_unmapped l new t' :
  (forall r, r ∈ l <-> r ∈ m_regions t /\ touches range r) -> gave_up l range t new t' ->
  space_ok kmb t' /\ (forall r, r ∈ new -> placed kmb r) /\ unmapped (mark new t').
Proof using Hs.
  intros Hl [V1 V2 V3 V4 V5 V6].
  assert (space_ok kmb t') as Hs' by (destruct Hs; split; rewrite ?V2; done).
  split_and!; [done|intros r Hr; apply (space_placed kmb t'); [done|by apply V6]|]. split_and!.
  - by apply mark_space_ok.
  - intros Hall y (x & Hx & [[-> Hn]| ->])%mark_elem; [|done].
    destruct (V5 x Hx) as [?|Hxn]; [by apply Hall|]. exfalso. apply Hn, list_elem_of_fmap. by exists x.
  - intros a v. rewrite mark_maps, V4. by apply maps_except_touched.
Qed.

Lemma touched_only r :
  r ∈ m_regions t -> inside range (m_range r) -> forall x, x ∈ [r] <-> x ∈ m_regions t /\ touches range x.
Proof using Hs Hg.
  intros Hr [I1 I2] x. pose proof (s_tree _ _ Hs) as Hok. rewrite list_elem_of_singleton. unfold touches, apart. split.
  - intros ->. split; [done|]. destruct Hg. lia.
  - intros [Hx Ht]. destruct (decide (vaddr x = vaddr r)) as [Ev|Ev]; [by apply (chain_unique _ _ _ _ _ (t_chain _ Hok))|].
    exfalso. apply Ht. assert (apart (m_range x) (m_range r)) as Hap.
    { apply (chain_apart _ _ _ _ _ (t_chain _ Hok)); [done..|]. by intros ->. }
    unfold apart in Hap. lia.
Qed.

Lemma unmap_whole_ok r :
  r ∈ m_regions t -> m_range r = range -> mutable r ->
  allocs (check_mutable r ;; deallocate_region r) s (fun _ s' => unmapped (m_region_tree s')).
Proof using Hs Hg.
  intros Hr Er Hm. rewrite check_mutable_true by done. change (allocs (deallocate_region r) s (fun _ s' => unmapped (m_region_tree s'))).
  pose proof (s_tree _ _ Hs) as Hok. eapply allocs_mono; [by apply deallocate_region_ok|].
  intros [] s' (Hok' & E & Hx). destruct Hs as [_ S2 S3 S4]. split_and!.
  - split; rewrite ?E; try done. intros x [?%not_elem_of_nil|[? _]]%Hx; [done|]. by apply S4.
  - intros Hall x [?%not_elem_of_nil|[? _]]%Hx; [done|]. by apply Hall.
  - intros a v. rewrite <- (maps_except_nil range). rewrite (maps_except_step t _ r []); try done.
    + apply maps_except_touched, touched_only; [done|]. rewrite Er. split; lia.
    + by intros ?%not_elem_of_nil.
    + by intros x ?%not_elem_of_nil.
    + apply parts_of_whole. rewrite Er. split; lia.
Qed.
Lemma unmap_contained_ok r :
  r ∈ m_regions t -> inside range (m_range r) -> m_range r <> range -> mutable r ->
  allocs (unmap_contained kmb r range) s (fun _ s' => unmapped (m_region_tree s')).
Proof using Hs Hg.
  intros Hr Hi Hne Hm. unfold unmap_contained. rewrite check_mutable_true by done.
  pose proof (s_tree _ _ Hs) as Hok. pose proof (touched_only r Hr Hi) as Hl.
  match goal with |- allocs (kbind (kret tt) ?f) _ _ => change (allocs (f tt) s (fun _ s' => unmapped (m_region_tree s'))) end.
  cbn beta. apply allocs_assoc. eapply allocs_bind.
  { apply take_and_split_ok; try done; [by apply (s_regions _ _ Hs)|apply Hl; by left|].
    intros [I1 I2]. apply Hne. destruct Hi as [I3 I4]. destruct (m_range r) as [b z], range as [b' z']. simpl in *. f_equal; lia. }
  intros parts s1 (Hp & Hok1 & E1 & Hx1).
  assert (gave_up [r] range t parts (m_region_tree s1)) as Hgu.
  { apply (gave_up_step t (m_region_tree s1) _ r parts); try done.
    - by intros ?%not_elem_of_nil.
    - by intros x ?%not_elem_of_nil.
    - split; try done; [|by intros a v; rewrite maps_except_nil|by left|intros x Hx; apply Hx1; by left].
      intros x [Hx|[Hx _]]%Hx1; [by destruct (proj1 Hp x Hx) as (_ & _ & _ & ?)|by apply (s_regions _ _ Hs)]. }
  destruct (gave_up_unmapped _ _ _ Hl Hgu) as (Hs1 & Hpl & Hun).
  eapply allocs_mono; [by apply map_regions_ok|]. intros ? s2 E2. cbn beta in E2. by rewrite E2.
Qed.

Lemma unmap_intersecting_ok :
  collectable t range -> (forall r, r ∈ m_regions t -> ~ inside range (m_range r)) ->
  (forall r, r ∈ m_regions t -> touches range r -> mutable r) ->
  allocs (unmap_intersecting kmb range) s (fun _ s' => unmapped (m_region_tree s')).
Proof using Hs Hg.
  intros Hcol Hnot Hm. pose proof (s_tree _ _ Hs) as Hok. unfold unmap_intersecting.
  eapply allocs_bind; [by apply find_regions_intersecting_ok|]. intros l s1 [-> E1]. cbn beta.
  set (l := filter (touches range) (m_regions t)).
  assert (forall r, r ∈ l <-> r ∈ m_regions t /\ touches range r) as Hl by (intros r; unfold l; rewrite list_elem_of_filter; tauto).
  destruct (bool_decide (l = [])) eqn:El.
  - apply bool_decide_eq_true in El. apply allocs_ret. rewrite E1. split_and!; [done|done|]. intros a v.
    rewrite <- (maps_except_touched l) by done. rewrite El. symmetry. apply maps_except_nil.
  - apply (allocs_bind _ _ _ (fun _ s' => s' = s1)).
    { unfold allocs, wp. rewrite check_all_mutable_true; [by split|]. intros r [Hr Ht]%Hl. by apply Hm. }
    intros ? ? ->. eapply allocs_bind.
    { apply unmap_each_ok; rewrite ?E1; try done.
      - apply (s_regions _ _ Hs).
      - unfold l. apply NoDup_filter, (chain_NoDup _ _ _ (t_chain _ Hok)).
      - intros x Hx. by apply Hl.
      - by intros x ?%not_elem_of_nil. }
    intros new s2 [_ Hgu]. rewrite E1 in Hgu. destruct (gave_up_unmapped _ _ _ Hl Hgu) as (Hs1 & Hpl & Hun).
    eapply allocs_mono; [by apply map_regions_ok|]. intros ? s3 E3. cbn beta in E3. by rewrite E3.
Qed.

Lemma unmap_range_ok addr size :
  0 < size -> expand_to_page_boundaries addr size = Ok range -> is_user_range kmb range = true ->
  (forall r, r ∈ m_regions t -> touches range r -> mutable r) -> collectable t range ->
  allocs (unmap_mmap_range kmb addr size) s (fun _ s' => unmapped (m_region_tree s')).
Proof using Hs Hg.
  intros Hsz He Hu Hm Hcol. pose proof (s_tree _ _ Hs) as Hok. unfold unmap_mmap_range.
  rewrite (proj2 (Z.eqb_neq _ _)) by lia. eapply allocs_then_lift; [exact He|]. cbn beta. rewrite Hu. cbn [negb].
  apply allocs_then_gets. pose proof (find_region_from_range_ok t range Hg) as Hw.
  destruct (find_region_from_range t range) as [r|].
  { destruct Hw as [Hr Er]. apply unmap_whole_ok; [done|done|]. apply Hm; [done|].
    apply (touched_only r Hr); [rewrite Er; split; lia|by left]. }
  specialize (Hw Hok).
  pose proof (find_region_containing_spec t range Hok (g_base _ Hg) (g_size _ Hg) (g_end _ Hg)) as Hc.
  destruct (find_region_containing t range) as [r|].
  - destruct Hc as (Hr & I1 & I2). assert (inside range (m_range r)) as Hi by by split.
    apply unmap_contained_ok; [done|done|by apply Hw|]. apply Hm; [done|]. apply (touched_only r Hr Hi). by left.
  - by apply unmap_intersecting_ok.
Qed.
End munmap.


(** ** Memory that may not be unmapped *)

Lemma check_mutable_false r s : ~ mutable r -> check_mutable r s = (Err EPERM, s).
Proof.
  intros Hn. unfold check_mutable, mutable in *. destruct (m_mmap r); [|done]. destruct (m_immutable r); [done|]. by destruct Hn.
Qed.

Lemma check_all_mutable_false l r s : r ∈ l -> ~ mutable r -> check_all_mutable l s = (Err EPERM, s).
Proof.
  induction l as [|x l IH]; intros Hr Hn; [by apply not_elem_of_nil in Hr|]. cbn [check_all_mutable kbind M_monad].
  destruct (m_mmap x && negb (m_immutable x)) eqn:E.
  - bool_hyps. rewrite check_mutable_true by done. cbn [kret M_monad]. apply elem_of_cons in Hr as [->|Hr]; [by destruct Hn|by apply IH].
  - rewrite check_mutable_false; [done|]. intros [E1 E2]. by rewrite E1, E2 in E.
Qed.

Lemma collect_keeps l range total acc s : m_region_tree (snd (collect_intersecting l range total acc s)) = m_region_tree s.
Proof.
  revert total acc s. induction l as [|r l IH]; intros total acc s; [done|]. cbn [collect_intersecting].
  destruct (_ && _); [|apply IH]. cbn [kbind M_monad]. destruct (4 <=? length acc)%nat.
  - unfold try_allocate. destruct s as [t [|[] h]]; cbn [heap m_region_tree]; cbn [lift]; try done.
    all: destruct (intersect _ _); try done; destruct (_ =? _); try done; by rewrite IH.
  - cbn [kret M_monad lift]. destruct (intersect _ _); try done. destruct (_ =? _); [done|]. apply IH.
Qed.

Lemma find_regions_intersecting_keeps range s r s' :
  find_regions_intersecting range s = (r, s') -> m_region_tree s' = m_region_tree s.
Proof.
  unfold find_regions_intersecting. cbn [kbind M_monad gets]. destruct (find_largest_not_above _ _) as [x|]; [|by intros [= _ <-]].
  intros H. pose proof (collect_keeps (begin_from x (m_regions (m_region_tree s))) range 0 [] s) as E. by rewrite H in E.
Qed.

(** A range that touches memory which was not mapped by mmap or is immutable cannot be
    unmapped, not even in part: munmap fails with EPERM (or with ENOMEM when the list of
    regions cannot be allocated) and no region changes. *)
Theorem munmap_refuses kmb s addr size range r :
  space_ok kmb (m_region_tree s) -> in_width 64 addr -> in_width 64 size -> 0 < size ->
  expand_to_page_boundaries addr size = Ok range -> is_user_range kmb range = true ->
  collectable (m_region_tree s) range ->
  r ∈ m_regions (m_region_tree s) -> touches range r -> ~ mutable r ->
  exists e s', unmap_mmap_range kmb addr size s = (Err e, s') /\ m_region_tree s' = m_region_tree s /\
    (e = EPERM \/ e = ENOMEM /\ false ∈ heap s).
Proof.
  intros Hs Ha Hz Hpos He Hu Hcol Hr Ht Hn. destruct (expand_ok addr size range Ha Hz Hpos He) as [Hg _].
  pose proof (s_tree _ _ Hs) as Hok. unfold unmap_mmap_range. rewrite (proj2 (Z.eqb_neq _ _)) by lia.
  cbn [kbind M_monad lift gets]. rewrite He, Hu. cbn [negb].
  pose proof (find_region_from_range_ok (m_region_tree s) range Hg) as Hw.
  destruct (find_region_from_range (m_region_tree s) range) as [x|].
  { destruct Hw as [Hx Ex]. assert (r = x) as ->.
    { apply list_elem_of_singleton, (touched_only kmb s range Hs Hg x Hx); [rewrite Ex; split; lia|done]. }
    exists EPERM, s. rewrite check_mutable_false by done. split_and!; [done|done|by left]. }
  pose proof (find_region_containing_spec _ range Hok (g_base _ Hg) (g_size _ Hg) (g_end _ Hg)) as Hc.
  destruct (find_region_containing (m_region_tree s) range) as [x|].
  { destruct Hc as (Hx & I1 & I2). assert (r = x) as ->.
    { by apply list_elem_of_singleton, (touched_only kmb s range Hs Hg x Hx). }
    exists EPERM, s. unfold unmap_contained. cbn [kbind M_monad]. rewrite check_mutable_false by done.
    split_and!; [done|done|by left]. }
  pose proof (find_regions_intersecting_ok range s Hok Hg Hcol Hc) as Hf. unfold allocs, wp in Hf.
  unfold unmap_intersecting. cbn [kbind M_monad].
  destruct (find_regions_intersecting range s) as [[l|e|] s1] eqn:Ef; cbn [fst snd] in Hf; [| |by destruct Hf].
  - destruct Hf as (_ & -> & E1). set (l := filter _ _).
    assert (r ∈ l) as Hrl by by apply list_elem_of_filter.
    exists EPERM, s1. rewrite bool_decide_false by (intros El; rewrite El in Hrl; by apply not_elem_of_nil in Hrl).
    rewrite (check_all_mutable_false l r) by done. split_and!; [done|done|by left].
  - exists e, s1. destruct Hf as (_ & -> & Hh & _). split_and!; [done| |by right].
    by apply (find_regions_intersecting_keeps range s _ _ Ef).
Qed.

(** ** Ranges that the search misses *)

Lemma find_largest_none l k : (forall r, r ∈ l -> k < vaddr r) -> find_largest_not_above k l = None.
Proof.
  intros H. unfold find_largest_not_above. rewrite filter_none; [done|]. intros x Hx. specialize (H x Hx). lia.
Qed.

(** When every region of the address space starts above the base of the range, munmap
    reports success and unmaps nothing, whatever the range touches: the search for regions
    starts at the region at or below the base and gives up when there is none. *)
Theorem munmap_ignores_range kmb s addr size range :
  tree_ok (m_region_tree s) -> in_width 64 addr -> in_width 64 size -> 0 < size ->
  expand_to_page_boundaries addr size = Ok range -> is_user_range kmb range = true ->
  (forall r, r ∈ m_regions (m_region_tree s) -> m_base range < vaddr r) ->
  unmap_mmap_range kmb addr size s = (Ok tt, s).
Proof.
  intros Hok Ha Hz Hpos He Hu Hall. destruct (expand_ok addr size range Ha Hz Hpos He) as [Hg _].
  unfold unmap_mmap_range. rewrite (proj2 (Z.eqb_neq _ _)) by lia. cbn [kbind M_monad lift gets]. rewrite He, Hu. cbn [negb].
  pose proof (find_region_from_range_ok (m_region_tree s) range Hg) as Hw.
  destruct (find_region_from_range (m_region_tree s) range) as [r|].
  { destruct Hw as [Hr Er]. specialize (Hall r Hr). unfold vaddr in Hall. rewrite Er in Hall. lia. }
  unfold find_region_containing. rewrite find_largest_none by done.
  unfold unmap_intersecting, find_regions_intersecting. cbn [kbind M_monad gets]. by rewrite find_largest_none.
Qed.

Definition example_vmobject : VMObject := mkVMObject 7 true false false false 65536.
Definition example_mapping (base size offset : Z) : Region :=
  mkRegion true (mkRange base size) offset example_vmobject (Some "mapping"%string) 51 false true false true false false
    false false false false false.
Definition example_space (l : list Region) (heap : list bool) : AddressSpace :=
  mkSpace (mkTree l (mkRange 65536 1048576)) heap.
(** The kernel mapped at [KERNEL_MAPPING_BASE]. *)
Definition example_kernel : Z := 137438953472.

Definition example_first : Region := example_mapping 131072 12288 0.
Definition example_second : Region := example_mapping 143360 4096 16384.

Lemma example_space_ok heap : space_ok example_kernel (m_region_tree (example_space [example_first; example_second] heap)).
Proof.
  split; [by split; vm_compute|by vm_compute|by vm_compute|].
  intros r [->|[->|Hr%not_elem_of_nil]%elem_of_cons]%elem_of_cons; [by split; vm_compute|by split; vm_compute|done].
Qed.

Lemma stops_early_run :
  unmap_mmap_range example_kernel 139264 8192 (example_space [example_first; example_second] []) =
  (Ok tt, example_space [set_page_directory (piece example_first (mkRange 131072 8192)); example_second] []).
Proof. by vm_compute. Qed.

(** The search for the regions of a range stops as soon as the parts of the regions that
    lie outside the range add up to its size, so munmap can report success with a later
    region of the range still mapped. *)
Theorem munmap_stops_early :
  exists s', unmap_mmap_range example_kernel 139264 8192 (example_space [example_first; example_second] []) = (Ok tt, s') /\
    space_ok example_kernel (m_region_tree (example_space [example_first; example_second] [])) /\
    covers (mkRange 139264 8192) 143360 /\ maps (m_region_tree s') 143360 (view example_second 143360).
Proof.
  eexists. split; [exact stops_early_run|]. split; [apply example_space_ok|]. split; [by vm_compute|].
  exists example_second. split; [right; left|]. split; [by vm_compute|reflexivity].
Qed.

(** Unmapping a part of a region takes the region out of the address space before the
    regions for the rest are made.  When that allocation fails, munmap reports ENOMEM and
    the whole region is gone, also outside the range. *)
Theorem munmap_failure_loses_region :
  exists s', unmap_mmap_range example_kernel 131072 4096 (example_space [example_first; example_second] [false]) =
      (Err ENOMEM, s') /\
    m_regions (m_region_tree s') = [example_second] /\
    maps (m_region_tree (example_space [example_first; example_second] [false])) 139264 (view example_first 139264) /\
    ~ covers (mkRange 131072 4096) 139264.
Proof.
  eexists. split; [by vm_compute|]. split; [reflexivity|]. split; [|unfold covers; simpl; lia].
  exists example_first. split; [left|]. split; [by vm_compute|reflexivity].
Qed.

(** ** Changing the protection *)

Lemma access_bit_spec a i b n :
  0 <= i < 3 -> 0 <= n < 3 -> Z.testbit (access_bit a (2 ^ i) b) n = if n =? i then b else Z.testbit a n.
Proof.
  intros Hi Hn. unfold access_bit. destruct b.
  - rewrite Z.lor_spec, Z.pow2_bits_eqb, Z.eqb_sym by lia. by destruct (n =? i); rewrite ?orb_true_r, ?orb_false_r.
  - unfold wrap. rewrite Z.land_spec, Z.mod_pow2_bits_low, Z.lnot_spec, Z.pow2_bits_eqb, Z.eqb_sym by lia.
    by destruct (n =? i); rewrite ?andb_false_r, ?andb_true_r.
Qed.

Lemma has_flag_bit v i : 0 <= i -> has_flag v (2 ^ i) = Z.testbit v i.
Proof. intros Hi. unfold has_flag. rewrite <- Z.shiftl_1_l, land_bit_eqb by done. apply negb_involutive. Qed.

Lemma set_protection_access r prot : Z.land (m_access (set_protection r prot)) 7 = Z.land prot 7.
Proof.
  apply Z.bits_inj'. intros n Hn. change 7 with (Z.ones 3). rewrite !Z.land_spec.
  destruct (Z.ltb_spec n 3); [|by rewrite (Z.ones_spec_high 3 n), !andb_false_r by lia].
  f_equal. unfold set_protection, set_executable, set_writable, set_readable, with_access. cbn [m_access].
  change Access_Execute with (2 ^ 2). change Access_Write with (2 ^ 1). change Access_Read with (2 ^ 0).
  change PROT_EXEC with (2 ^ 2). change PROT_WRITE with (2 ^ 1). change PROT_READ with (2 ^ 0).
  rewrite !has_flag_bit, !access_bit_spec by lia.
  destruct (Z.eqb_spec n 2) as [->|]; [done|]. destruct (Z.eqb_spec n 1) as [->|]; [done|].
  destruct (Z.eqb_spec n 0) as [->|]; [done|lia].
Qed.

Lemma prot_flags prot : prot_to_region_access_flags prot = Z.land prot 7.
Proof.
  unfold prot_to_region_access_flags.
  assert (forall i, 0 <= i -> (Z.land prot (2 ^ i) =? 2 ^ i) = Z.testbit prot i) as H.
  { intros i Hi. rewrite <- has_flag_bit by done. unfold has_flag. destruct (Z.testbit prot i) eqn:E.
    - replace (Z.land prot (2 ^ i)) with (2 ^ i).
      + rewrite Z.eqb_refl, (proj2 (Z.eqb_neq _ _)) by lia. done.
      + apply Z.bits_inj'. intros n Hn. rewrite Z.land_spec, Z.pow2_bits_eqb by done.
        destruct (Z.eqb_spec i n) as [<-|]; [by rewrite E|by rewrite andb_false_r].
    - replace (Z.land prot (2 ^ i)) with 0; [rewrite (proj2 (Z.eqb_neq _ _)) by lia; done|].
      apply Z.bits_inj'. intros n Hn. rewrite Z.bits_0, Z.land_spec, Z.pow2_bits_eqb by done.
      destruct (Z.eqb_spec i n) as [<-|]; [by rewrite E|by rewrite andb_false_r]. }
  change PROT_READ with (2 ^ 0). change PROT_WRITE with (2 ^ 1). change PROT_EXEC with (2 ^ 2). rewrite !H by lia.
  apply Z.bits_inj'. intros n Hn. rewrite Z.land_spec. change 7 with (Z.ones 3).
  destruct (Z.ltb_spec n 3).
  - rewrite Z.ones_spec_low by lia. assert (n = 0 \/ n = 1 \/ n = 2) as [->|[->| ->]] by lia.
    all: by destruct (Z.testbit prot 0), (Z.testbit prot 1), (Z.testbit prot 2).
  - rewrite Z.ones_spec_high, andb_false_r by lia.
    match goal with |- Z.testbit ?X n = false => assert (0 <= X < 2 ^ 3) as HX
      by (destruct (Z.testbit prot 0), (Z.testbit prot 1), (Z.testbit prot 2); by vm_compute);
      apply (proj1 (Z.bounded_iff_bits_nonneg 3 X ltac:(lia) ltac:(apply HX)) ltac:(apply HX)) end. lia.
Qed.

(** A page with the protection changed. *)
Definition protect (prot : Z) (v : page) : page :=
  mkPage (p_vmobject v) (p_offset v) (Z.land prot 7) (p_name v) (p_shared v) (p_cacheable v) (p_stack v) (p_mmap v)
    (p_syscall v) (p_from_readable v) (p_from_writable v).

Lemma set_protection_view r prot a : view (set_protection r prot) a = protect prot (view r a).
Proof. unfold view at 1. rewrite set_protection_access. reflexivity. Qed.

Lemma set_protection_ok r prot : region_ok r -> region_ok (set_protection r prot).
Proof. intros []. by split. Qed.

Lemma protected_maps t t' r parts q range prot :
  tree_ok t -> r ∈ m_regions t -> inside range (m_range r) -> parts_of r range parts -> m_range q = range ->
  (forall a, view q a = protect prot (view r a)) ->
  (forall x, x ∈ m_regions t' <-> x ∈ parts \/ x = q \/ x ∈ m_regions t /\ x <> r) ->
  forall a v, maps t' a v <-> (maps t a v /\ ~ covers range a) \/ (covers range a /\ exists v0, maps t a v0 /\ v = protect prot v0).
Proof.
  intros Hok Hr Hi [_ Hparts] Hq Hv Hx a v.
  assert (covers range a -> covers (m_range r) a) as Hcov by (unfold covers, inside in *; lia).
  assert (forall x, x ∈ m_regions t -> covers (m_range x) a -> covers (m_range r) a -> x = r) as Hsame.
  { intros x ? ? ?. by apply (covers_same _ _ _ _ _ a (t_chain _ Hok)). }
  split.
  - intros (x & [Hp|[->|[Hxt Hne]]]%Hx & Hc & <-).
    + destruct (proj1 (Hparts a (view x a))) as (? & ? & E); [by exists x|]. left. split; [by exists r|done].
    + rewrite Hq in Hc. right. split; [done|]. exists (view r a). split; [exists r; auto|apply Hv].
    + left. split; [by exists x|]. intros Ha. by apply Hne, Hsame; auto.
  - intros [[(x & Hxt & Hc & <-) Ha]|(Ha & v0 & (x & Hxt & Hc & <-) & ->)].
    + destruct (decide (covers (m_range r) a)) as [Hra|Hra].
      * rewrite (Hsame x Hxt Hc Hra). destruct (proj2 (Hparts a (view r a))) as (y & Hy & Hya & Hyv); [done|].
        exists y. split; [apply Hx; by left|done].
      * exists x. split; [|done]. apply Hx. right; right. split; [done|]. by intros ->.
    + rewrite (Hsame x Hxt Hc (Hcov Ha)). exists q. split; [apply Hx; right; by left|]. by rewrite Hq.
Qed.

(** Writing through a pointer to a region of the tree. *)
Lemma update_elem t r f x :
  tree_ok t -> r ∈ m_regions t ->
  x ∈ (fun y => if vaddr y =? vaddr r then f y else y) <$> m_regions t <-> x = f r \/ x ∈ m_regions t /\ x <> r.
Proof.
  intros Hok Hr. rewrite list_elem_of_fmap. split.
  - intros (y & -> & Hy). destruct (Z.eqb_spec (vaddr y) (vaddr r)) as [E|E].
    + left. by rewrite (chain_unique _ _ _ _ _ (t_chain _ Hok) Hy Hr E).
    + right. split; [done|]. by intros ->.
  - intros [->|[Hx Hne]].
    + exists r. by rewrite Z.eqb_refl.
    + exists x. split; [|done]. rewrite (proj2 (Z.eqb_neq _ _)); [done|]. intros E. apply Hne.
      by apply (chain_unique _ _ _ _ _ (t_chain _ Hok)).
Qed.

Lemma update_chain key f lo l hi :
  (forall x, m_range (f x) = m_range x) -> chain lo l hi ->
  chain lo ((fun y => if vaddr y =? key then f y else y) <$> l) hi.
Proof.
  intros Hf. revert lo. induction l as [|x l IH]; intros lo; [done|]. intros (H1 & H2 & H3 & H4 & Hc). simpl.
  destruct (vaddr x =? key); unfold vaddr, region_size in *; rewrite ?Hf; (split_and!; [done..|by apply IH]).
Qed.

Lemma update_tree_ok t key f :
  (forall x, m_range (f x) = m_range x) -> tree_ok t ->
  tree_ok (mkTree ((fun y => if vaddr y =? key then f y else y) <$> m_regions t) (m_total_range t)).
Proof. intros Hf [T1 T2 T3 T4]. split; [done|done|done|]. by apply update_chain. Qed.

Section mprotect.
Context (kmb mount_flags : Z) (reject : bool) (s : AddressSpace) (range : VirtualRange) (prot : Z) (r : Region).
Notation t := (m_region_tree s).
Context (Hs : space_ok kmb t) (Hg : range_ok range) (Hr : r ∈ m_regions t) (Hi : inside range (m_range r)).
Context (Hm : mutable r) (Hall : all_mapped t).
Context (Hv1 : validate_region mount_flags reject r prot = Ok tt) (Hv2 : validate_inode_region r prot = Ok tt).

Definition protected (t' : RegionTree) : Prop :=
  space_ok kmb t' /\ all_mapped t' /\
  forall a v, maps t' a v <->
    (maps t a v /\ ~ covers range a) \/ (covers range a /\ exists v0, maps t a v0 /\ v = protect prot v0).

(** The protection is already as asked. *)
Lemma protected_already : m_access r = prot_to_region_access_flags prot -> protected t.
Proof using Hs Hr Hi Hall.
  intros E. split_and!; [done|done|]. rewrite prot_flags in E.
  assert (forall a, view r a = protect prot (view r a)) as Hv.
  { intros a. unfold view, protect. simpl. rewrite E, <- Z.land_assoc. done. }
  intros a v. split.
  - intros Hmap. destruct (decide (covers range a)) as [Ha|Ha]; [right|by left]. split; [done|].
    destruct Hmap as (x & Hx & Hc & <-).
    assert (x = r) as ->.
    { apply (covers_same _ _ _ _ _ a (t_chain _ (s_tree _ _ Hs)) Hx Hr Hc). unfold covers, inside in *. lia. }
    exists (view r a). split; [by exists r|apply Hv].
  - intros [[? _]|(Ha & v0 & (x & Hx & Hc & <-) & ->)]; [done|].
    assert (x = r) as ->.
    { apply (covers_same _ _ _ _ _ a (t_chain _ (s_tree _ _ Hs)) Hx Hr Hc). unfold covers, inside in *. lia. }
    exists r. by rewrite <- Hv.
Qed.

Lemma protected_replaced parts q t' marked :
  parts_of r range parts -> m_range q = range -> (forall a, view q a = protect prot (view r a)) -> region_ok q ->
  tree_ok t' -> m_total_range t' = m_total_range t ->
  (forall x, x ∈ m_regions t' <-> x ∈ parts \/ x = q \/ x ∈ m_regions t /\ x <> r) ->
  (forall x, x ∈ parts \/ x = q -> x ∈ marked \/ m_mapped x = true) ->
  space_ok kmb t' /\ protected (mark marked t').
Proof using Hs Hr Hi Hall.
  intros Hp Hq Hvq Hqo Hok' E Hx Hmk.
  assert (space_ok kmb t') as Hs'.
  { destruct Hs as [_ S2 S3 S4]. split; rewrite ?E; try done. intros x [Hxp|[->|[? _]]]%Hx; [|done|by apply S4].
    by destruct (proj1 Hp x Hxp) as (_ & _ & _ & ?). }
  split; [done|]. split_and!; [by apply mark_space_ok| |].
  - intros y (x & Hxt & [[-> Hn]| ->])%mark_elem; [|done].
    assert (x ∉ marked) as Hnm by (intros ?; apply Hn, list_elem_of_fmap; by exists x).
    apply Hx in Hxt as [?|[?|[? _]]]; [| |by apply Hall].
    + destruct (Hmk x) as [?|?]; [by left|done|done].
    + destruct (Hmk x) as [?|?]; [by right|done|done].
  - intros a v. rewrite mark_maps. by apply (protected_maps t t' r parts q range prot (s_tree _ _ Hs)).
Qed.

(** The result of remapping: running out of memory for page tables halts the kernel. *)
Definition protects (m : M AddressSpace unit) : Prop :=
  match m s with
  | (Ok _, s') => protected (m_region_tree s')
  | (Err e, s') => e = ENOMEM /\ false ∈ heap s /\ tree_ok (m_region_tree s')
  | (Panic, _) => false ∈ heap s /\ m_range r = range
  end.

Lemma map_mmio_ok x s0 :
  space_ok kmb (m_region_tree s0) -> placed kmb x ->
  allocs (map_region_mmio kmb x) s0 (fun _ s' => m_region_tree s' = mark [x] (m_region_tree s0)).
Proof using Type.
  intros Hs0 Hp. unfold map_region_mmio. pose proof (page_count_size kmb x Hp) as [_ Hpos].
  apply allocs_then_modify; [done|]. rewrite (proj2 (Z.eqb_neq _ _)) by lia. rewrite mark_one.
  apply map_pages_ok; [done|by left|lia|lia|]. apply (mark_space_ok kmb [x] _ Hs0).
Qed.

Lemma mprotect_whole_ok : m_range r = range -> protects (mprotect_whole kmb mount_flags reject r prot).
Proof using All.
  intros Er. unfold mprotect_whole, protects. rewrite check_mutable_true by done. cbn [kbind kret M_monad lift]. rewrite Hv1.
  destruct (Z.eqb_spec (m_access r) (prot_to_region_access_flags prot)) as [E|E]; [by apply protected_already|].
  cbn [kbind kret M_monad lift]. rewrite Hv2. unfold update_region, modify. set (s1 := mkSpace _ _).
  set (q := set_protection r prot). pose proof (s_tree _ _ Hs) as Hok.
  destruct (protected_replaced [] q (m_region_tree s1) [q]) as [Hs1 Hp].
  - apply parts_of_whole. rewrite Er. split; lia.
  - done.
  - apply set_protection_view.
  - by apply set_protection_ok, (s_regions _ _ Hs).
  - by apply update_tree_ok.
  - done.
  - intros x. cbn [s1 m_region_tree m_regions]. rewrite (update_elem t r (fun y => set_protection y prot)) by done.
    rewrite elem_of_nil. cbn beta. fold q. tauto.
  - intros x [?%not_elem_of_nil| ->]; [done|]. left. by apply list_elem_of_singleton.
  - assert (q ∈ m_regions (m_region_tree s1)) as Hq.
    { cbn [s1 m_region_tree m_regions]. apply (update_elem t r (fun y => set_protection y prot)); [done|done|by left]. }
    pose proof (space_placed kmb _ q Hs1 Hq) as Hpl. unfold remap.
    assert (allocs (VERIFY (m_mapped q) ;; (if vm_is_mmio (m_vmobject q) then map_region_mmio kmb q else map_region kmb q)) s1
      (fun _ s' => m_region_tree s' = mark [q] (m_region_tree s1))) as Hrun.
    { apply allocs_then_VERIFY; [exact (Hall r Hr)|]. destruct (vm_is_mmio (m_vmobject q)); [by apply map_mmio_ok|by apply map_region_ok]. }
    unfold allocs, wp in Hrun. cbn beta in *. destruct ((VERIFY _ ;; _) s1) as [[?|e|] s2]; cbn [fst snd] in Hrun.
    + destruct Hrun as [_ ->]. exact Hp.
    + by destruct Hrun as (_ & _ & Hh & _).
    + by destruct Hrun.
Qed.
(** The new region for the range, next to the parts around it. *)
Lemma split_protected_ok parts s1 :
  parts_of r range parts -> tree_ok (m_region_tree s1) -> m_total_range (m_region_tree s1) = m_total_range t ->
  (forall x, x ∈ m_regions (m_region_tree s1) <-> x ∈ parts \/ x ∈ m_regions t /\ x <> r) ->
  allocs (split_protected r range prot) s1 (fun q s2 => q = set_protection (piece r range) prot /\
    tree_ok (m_region_tree s2) /\ m_total_range (m_region_tree s2) = m_total_range t /\
    forall x, x ∈ m_regions (m_region_tree s2) <-> x ∈ parts \/ x = q \/ x ∈ m_regions t /\ x <> r).
Proof using Hs Hg Hr Hi.
  intros Hp Hok1 E1 Hx1. pose proof (s_tree _ _ Hs) as Hok.
  assert (is_free (m_region_tree s1) range) as Hf.
  { destruct (region_facts _ Hok r Hr) as (? & ? & ? & _). unfold inside, vaddr, region_size in *.
    split_and!; [rewrite E1; lia|rewrite E1; lia|]. intros x [Hx|[Hx Hne]]%Hx1.
    - by destruct (proj1 Hp x Hx) as (_ & _ & ? & _).
    - pose proof (chain_apart _ _ _ _ _ (t_chain _ Hok) Hx Hr Hne) as Hap. unfold apart in *. lia. }
  unfold split_protected. cbn zeta. eapply allocs_bind; [by apply split_region_ok|]. intros q s2 [-> (Hok2 & E2 & Hx2)].
  assert (piece r range ∉ m_regions (m_region_tree s1)) as Hnew.
  { intros Hin. destruct Hf as (_ & _ & Hap). specialize (Hap _ Hin). unfold apart in Hap. simpl in Hap. destruct Hg. lia. }
  apply allocs_then_modify; [done|]. apply allocs_ret. split; [done|]. cbn [m_region_tree m_total_range m_regions].
  split; [by apply update_tree_ok|]. split; [congruence|]. intros x.
  rewrite (update_elem _ (piece r range) (fun y => set_protection y prot)); [|done|apply Hx2; left; by apply list_elem_of_singleton].
  cbn beta. rewrite Hx2, list_elem_of_singleton.
  assert ((x = piece r range \/ x ∈ m_regions (m_region_tree s1)) /\ x <> piece r range <-> x ∈ m_regions (m_region_tree s1)) as ->.
  { split; [intros [[?|?] ?]; done|]. intros Hin. split; [by right|]. by intros ->. }
  rewrite Hx1. tauto.
Qed.

Lemma replace_protected_ok :
  m_range r <> range ->
  allocs (region ← take_region r;
          adjacent_regions ← try_split_region_around_range region range;
          new_region ← split_protected region range prot;
          map_regions kmb adjacent_regions ;;
          map_region kmb new_region) s (fun _ s' => protected (m_region_tree s')).
Proof using Hs Hg Hr Hi Hall.
  intros Hne. pose proof (s_tree _ _ Hs) as Hok. pose proof (s_regions _ _ Hs r Hr) as Hro.
  eapply allocs_bind; [by apply take_region_ok|]. intros r' s1 (-> & Hok1 & E1 & Hfree & Hx1).
  eapply allocs_bind.
  { apply split_around_ok; try done; [by apply (region_range_ok t)|by apply (touched_only kmb s range Hs Hg r Hr Hi); left|].
    intros [I1 I2]. apply Hne. destruct Hi as [I3 I4]. destruct (m_range r) as [b z], range as [b' z']. simpl in *. f_equal; lia. }
  intros parts s2 [Hp (Hok2 & E2 & Hx2)]. eapply allocs_bind.
  { apply (split_protected_ok parts s2); [done|done|congruence|]. intros x. rewrite Hx2, Hx1. tauto. }
  intros q s3 (Eq & Hok3 & E3 & Hx3).
  destruct (protected_replaced parts q (m_region_tree s3) (parts ++ [q])) as [Hs3 Hfin]; try done.
  - by rewrite Eq.
  - intros a. rewrite Eq, set_protection_view. f_equal. by apply piece_view.
  - rewrite Eq. by apply set_protection_ok, piece_ok.
  - intros x Hx. left. apply elem_of_app. rewrite list_elem_of_singleton. tauto.
  - eapply allocs_mono.
    + apply (map_regions_app kmb parts q); [done|]. intros x Hx%elem_of_app. rewrite list_elem_of_singleton in Hx.
      apply (space_placed kmb (m_region_tree s3)); [done|]. apply Hx3. tauto.
    + intros ? s4 E4. cbn beta in E4. by rewrite E4.
Qed.

Lemma mprotect_contained_ok : m_range r <> range -> protects (mprotect_contained kmb mount_flags reject r range prot).
Proof using All.
  intros Hne. pose proof (replace_protected_ok Hne) as H. unfold mprotect_contained, protects.
  rewrite check_mutable_true by done. cbn [kbind kret M_monad lift]. rewrite Hv1.
  destruct (Z.eqb_spec (m_access r) (prot_to_region_access_flags prot)) as [E|E]; [by apply protected_already|].
  unfold allocs, wp in H. cbn [kbind kret M_monad lift] in H |- *. rewrite Hv2.
  revert H. match goal with |- context [fst ?m] => destruct m as [[?|e|] s'] end; cbn [fst snd];
    [by intros [_ ?]|by intros [_ ?]|by intros [_ []]].
Qed.
End mprotect.


(** A mapping of a file that is writable from the start can be made executable by
    mprotect, also when the process asked that the transition from writable to executable
    be refused: the flag that the check reads is set by mprotect only, not when the region
    is made. *)
Theorem wx_transition_not_rejected mount_flags vmobject offset name access cacheable shared s r s' :
  create_unplaced vmobject offset name access cacheable shared s = (Ok r, s') ->
  vm_is_anonymous vmobject = false -> Z.land access Access_Write = Access_Write ->
  is_writable r = true /\ validate_region mount_flags true r (Z.lor PROT_READ PROT_EXEC) = Ok tt.
Proof.
  unfold create_unplaced, try_allocate. cbn [kbind M_monad kret]. intros Hrun Ha Hw.
  assert (m_access r = wrap 8 (Z.lor access (Z.shiftl (Z.land access 7) 4)) /\ m_vmobject r = vmobject /\ m_stack r = false /\
    m_has_been_executable r = false /\ m_has_been_writable r = false) as (Ea & Ev & Es & Ex & Ewr).
  { destruct s as [t [|[] h]]; simpl in Hrun; [by injection Hrun as <- _|by injection Hrun as <- _|done]. }
  split.
  - unfold is_writable. rewrite Ea. apply Z.eqb_eq. change Access_Write with (Z.land 7 2) at 1.
    rewrite Z.land_assoc, piece_access, <- Z.land_assoc. exact Hw.
  - unfold validate_region, validate_mmap_prot. rewrite Ev, Ha, Es, Ex, Ewr. by destruct (has_flag mount_flags MS_WXALLOWED).
Qed.

(** ** Examples *)

Definition example_two : AddressSpace := example_space [example_first; example_second] [].

Lemma example_elem r : r ∈ m_regions (m_region_tree example_two) -> r = example_first \/ r = example_second.
Proof. intros [->|[->|H%not_elem_of_nil]%elem_of_cons]%elem_of_cons; [by left|by right|done]. Qed.

Lemma example_collectable : collectable (m_region_tree example_two) (mkRange 135168 12288).
Proof.
  split.
  - left. exists example_first. split; [left|by vm_compute].
  - intros r [->| ->]%example_elem; unfold vaddr, region_size; simpl; lia.
Qed.


Definition example_stack : Region :=
  mkRegion true (mkRange 143360 4096) 16384 example_vmobject None 51 false true true false false false false false false false false.
Definition example_guarded : AddressSpace := example_space [example_first; example_stack] [].

Lemma munmap_refuses_witness :
  exists e s', unmap_mmap_range example_kernel 135168 12288 example_guarded = (Err e, s') /\
    m_region_tree s' = m_region_tree example_guarded /\ (e = EPERM \/ e = ENOMEM /\ false ∈ heap example_guarded).
Proof.
  apply (munmap_refuses example_kernel example_guarded 135168 12288 (mkRange 135168 12288) example_stack); try by vm_compute.
  - split; [by split; vm_compute|by vm_compute|by vm_compute|].
    intros r [->|[->|Hr%not_elem_of_nil]%elem_of_cons]%elem_of_cons; [by split; vm_compute|by split; vm_compute|done].
  - split; [left; exists example_first; split; [left|by vm_compute]|].
    intros r [->|[->|Hr%not_elem_of_nil]%elem_of_cons]%elem_of_cons; [| |done]; unfold vaddr, region_size; simpl; lia.
  - right. left.
  - unfold touches, apart. simpl. lia.
  - by intros [? _].
Defined.

Lemma munmap_ignores_range_witness :
  touches (mkRange 126976 8192) example_first /\
  unmap_mmap_range example_kernel 126976 8192 example_two = (Ok tt, example_two).
Proof.
  split; [unfold touches, apart; simpl; lia|].
  apply (munmap_ignores_range example_kernel example_two 126976 8192 (mkRange 126976 8192)); try by vm_compute.
  intros r [->| ->]%example_elem; by vm_compute.
Defined.


Definition example_file : VMObject := mkVMObject 9 false true false false 65536.
Definition example_file_region : Region :=
  mkRegion false (mkRange 0 0) 0 example_file None 51 false true false false false false false false false false false.

Lemma wx_transition_not_rejected_witness :
  is_writable example_file_region = true /\ validate_region 0 true example_file_region (Z.lor PROT_READ PROT_EXEC) = Ok tt.
Proof.
  apply (wx_transition_not_rejected 0 example_file 0 None 3 true false example_two example_file_region example_two);
    by vm_compute.
Defined.
