(* ===== verification/Congruence.v ===== *)
(** * Congruences of integers

    Congruence modulo [M] as a setoid, with the ring operations and powers as morphisms, the
    cancellation of factors prime to the modulus, Fermat's little theorem, and primality by
    trial division and by Pocklington's criterion with checkable certificates.  The components
    on modular arithmetic use it. *)
From Stdlib Require Import Znumtheory Zpow_facts.
From S2P Require Import Prelude.

Local Open Scope Z_scope.

Definition congr (M a b : Z) : Prop := a mod M = b mod M.

Declare Scope congr_scope.
Notation "a == b [mod M ]" := (congr M a b) (at level 70, b at next level, M at level 200) : congr_scope.
Open Scope congr_scope.

#[export] Instance congr_equivalence M : Equivalence (congr M).
Proof. unfold congr. split; [by intros a|intros a b H; by symmetry|]. intros a b c H1 H2. congruence. Qed.

#[export] Instance congr_add M : Proper (congr M ==> congr M ==> congr M) Z.add.
Proof. intros a b H1 c d H2. unfold congr in *. by rewrite Zplus_mod, H1, H2, <- Zplus_mod. Qed.

#[export] Instance congr_mul M : Proper (congr M ==> congr M ==> congr M) Z.mul.
Proof. intros a b H1 c d H2. unfold congr in *. by rewrite Zmult_mod, H1, H2, <- Zmult_mod. Qed.

#[export] Instance congr_sub M : Proper (congr M ==> congr M ==> congr M) Z.sub.
Proof. intros a b H1 c d H2. unfold congr in *. by rewrite Zminus_mod, H1, H2, <- Zminus_mod. Qed.

#[export] Instance congr_opp M : Proper (congr M ==> congr M) Z.opp.
Proof. intros a b H. rewrite <- (Z.sub_0_l a), <- (Z.sub_0_l b). by rewrite H. Qed.

#[export] Instance congr_pow M : Proper (congr M ==> eq ==> congr M) Z.pow.
Proof. intros a b H c d <-. unfold congr in *. by rewrite <- Z.mod_pow_l, H, Z.mod_pow_l. Qed.

Lemma eq_congr M a b : a = b -> a == b [mod M].
Proof. by intros ->. Qed.

Lemma congr_mod M a : a mod M == a [mod M].
Proof. unfold congr. apply Zmod_mod. Qed.

Lemma congr_zero M : M == 0 [mod M].
Proof. unfold congr. by rewrite Z_mod_same_full, Zmod_0_l. Qed.

Lemma congr_divide M a b : M <> 0 -> a == b [mod M] <-> (M | a - b).
Proof.
  intros HM. unfold congr. split; intros H.
  - apply Z.mod_divide; [done|]. by rewrite Zminus_mod, H, Z.sub_diag, Zmod_0_l.
  - destruct H as [k Hk]. replace a with (b + k * M) by lia. by rewrite Z.mod_add.
Qed.

Lemma congr_small M a b : 0 <= a < M -> a == b [mod M] -> b mod M = a.
Proof. intros Ha H. unfold congr in H. rewrite <- H. by apply Z.mod_small. Qed.

(** Cancelling a factor prime to the modulus *)
Lemma congr_cancel M c a b : M <> 0 -> rel_prime M c -> c * a == c * b [mod M] -> a == b [mod M].
Proof.
  intros HM Hrp H. apply congr_divide; [done|]. apply congr_divide in H; [|done].
  rewrite <- Z.mul_sub_distr_l in H. apply (Gauss M c); [done|done].
Qed.

(** ** Fermat's little theorem *)
Definition product (l : list Z) : Z := foldr Z.mul 1 l.

Lemma product_permutation l1 l2 : Permutation l1 l2 -> product l1 = product l2.
Proof. unfold product. induction 1; cbn [foldr]; [done|congruence|ring|congruence]. Qed.

(** The product of the multiples of [a], reduced modulo [p] *)
Lemma product_multiples p a l :
  product (map (fun i => (a * i) mod p) l) == a ^ Z.of_nat (length l) * product l [mod p].
Proof.
  induction l as [|x l IH]; [done|]. cbn [map length product foldr]. fold (product l).
  change (foldr Z.mul 1 (map (fun i => (a * i) mod p) l)) with (product (map (fun i => (a * i) mod p) l)).
  rewrite IH, congr_mod, Nat2Z.inj_succ, Z.pow_succ_r by lia. apply eq_congr. ring.
Qed.

Lemma multiples_permutation p a l :
  prime p -> ~ (p | a) -> List.NoDup l -> (forall i, In i l <-> 1 <= i < p) ->
  Permutation (map (fun i => (a * i) mod p) l) l.
Proof.
  intros Hp Ha Hnd Hl. pose proof (prime_ge_2 p Hp) as Hp2. pose proof (prime_rel_prime p Hp a Ha) as Hrp.
  apply NoDup_Permutation_bis; [|by rewrite length_map|].
  - apply NoDup_map_NoDup_ForallPairs; [|done]. intros i j Hi Hj E. apply Hl in Hi, Hj.
    pose proof (congr_cancel p a i j ltac:(lia) Hrp E) as H. unfold congr in H. by rewrite !Z.mod_small in H by lia.
  - intros x Hx. apply in_map_iff in Hx as (i & <- & Hi). apply Hl in Hi. apply Hl.
    pose proof (Z.mod_pos_bound (a * i) p ltac:(lia)) as Hm. assert ((a * i) mod p <> 0); [|lia].
    intros E. apply Z.mod_divide in E; [|lia]. apply prime_mult in E as [E|E]; [done| |done].
    apply Z.divide_pos_le in E; lia.
Qed.

Lemma product_prime p l : prime p -> (forall i, In i l -> 1 <= i < p) -> rel_prime p (product l).
Proof.
  intros Hp Hl. induction l as [|x l IH]; [apply rel_prime_sym, rel_prime_1|]. cbn. apply rel_prime_mult.
  - apply rel_prime_sym, rel_prime_le_prime; [done|]. apply Hl. by left.
  - apply IH. intros i Hi. apply Hl. by right.
Qed.

Theorem fermat_little p a : prime p -> ~ (p | a) -> a ^ (p - 1) == 1 [mod p].
Proof.
  intros Hp Ha. pose proof (prime_ge_2 p Hp) as Hp2.
  set (l := map Z.of_nat (seq 1 (Z.to_nat (p - 1)))).
  assert (Hl : forall i, In i l <-> 1 <= i < p).
  { intros i. unfold l. rewrite in_map_iff. split.
    - intros (k & <- & Hk). apply in_seq in Hk. lia.
    - intros Hi. exists (Z.to_nat i). split; [lia|]. apply in_seq. lia. }
  assert (Hnd : List.NoDup l).
  { apply NoDup_map_NoDup_ForallPairs; [|apply seq_NoDup]. intros i j _ _ E. lia. }
  assert (Hlen : Z.of_nat (length l) = p - 1) by (unfold l; rewrite length_map, length_seq; lia).
  pose proof (product_multiples p a l) as H.
  rewrite (product_permutation _ _ (multiples_permutation p a l Hp Ha Hnd Hl)), Hlen in H.
  apply (congr_cancel p (product l)); [lia|apply product_prime; [done|intros i Hi; by apply Hl]|].
  rewrite Z.mul_1_r, (Z.mul_comm (product l)). by symmetry.
Qed.

(** A square root of one modulo a prime is one or minus one. *)
Lemma square_root_of_one p x : prime p -> x * x == 1 [mod p] -> x == 1 [mod p] \/ x == -1 [mod p].
Proof.
  intros Hp H. pose proof (prime_ge_2 p Hp). apply congr_divide in H; [|lia].
  replace (x * x - 1) with ((x - 1) * (x + 1)) in H by ring. apply prime_mult in H as [H|H]; [left|right|done].
  - apply congr_divide; [lia|done].
  - apply congr_divide; [lia|]. by replace (x - -1) with (x + 1) by lia.
Qed.

(** ** Primality certificates *)
Lemma prime_divisor m : 1 < m -> exists p, prime p /\ (p | m).
Proof.
  intros Hm. assert (H : 0 <= m) by lia. revert m H Hm. apply (Z_lt_induction (fun m => 1 < m -> exists p, prime p /\ (p | m))). intros m IH Hm.
  destruct (prime_dec m) as [Hp|Hp]; [by exists m; split; [|apply Z.divide_refl]|].
  destruct (not_prime_divide m Hm Hp) as (n & Hn & Hd). destruct (IH n ltac:(lia) ltac:(lia)) as (p & Hpp & Hpd). exists p. split; [done|].
  by apply Z.divide_trans with n.
Qed.

Lemma small_prime_divisor N : 1 < N -> ~ prime N -> exists p, prime p /\ (p | N) /\ p * p <= N.
Proof.
  intros HN Hnp. destruct (not_prime_divide N HN Hnp) as (n & Hn & [m Hm]).
  assert (H : exists d, 1 < d /\ (d | N) /\ d * d <= N).
  { destruct (Z.le_gt_cases (n * n) N); [exists n; split; [lia|]; split; [by exists m|lia]|].
    exists m. split; [nia|]. split; [exists n; lia|nia]. }
  destruct H as (d & Hd1 & Hd & Hdd). destruct (prime_divisor d Hd1) as (p & Hp & Hpd). exists p. split; [done|].
  split; [by apply Z.divide_trans with d|]. pose proof (prime_ge_2 p Hp). apply Z.divide_pos_le in Hpd; [nia|lia].
Qed.

Lemma prime_by_trial N :
  1 < N -> (forall d, 2 <= d -> d * d <= N -> N mod d <> 0) -> prime N.
Proof.
  intros HN H. destruct (prime_dec N) as [|Hnp]; [done|]. exfalso. destruct (small_prime_divisor N HN Hnp) as (p & Hp & Hd & Hpp).
  pose proof (prime_ge_2 p Hp) as Hp2. apply (H p Hp2 Hpp). by apply Z.mod_divide; [lia|].
Qed.

Lemma congr_weaken M p a b : p <> 0 -> M <> 0 -> (p | M) -> a == b [mod M] -> a == b [mod p].
Proof. intros Hp HM Hd H. apply congr_divide; [done|]. apply congr_divide in H; [|done]. by apply Z.divide_trans with M. Qed.

(** An exponent that inverts q modulo p - 1 *)
Lemma inverse_exponent q p : 2 <= q -> 2 <= p -> rel_prime q (p - 1) -> exists u t, 0 <= u /\ 0 <= t /\ q * u = 1 + (p - 1) * t.
Proof.
  intros Hq2 Hp Hrel. destruct (rel_prime_bezout q (p - 1) Hrel) as [u v E].
  pose proof (Z.div_mod u (p - 1) ltac:(lia)) as Eu. pose proof (Z.mod_pos_bound u (p - 1) ltac:(lia)) as Bu.
  set (w := u / (p - 1)) in *. exists (u mod (p - 1) + (p - 1)), (q - v - q * w). split; [lia|].
  assert (F : q * (u mod (p - 1) + (p - 1)) = 1 + (p - 1) * (q - v - q * w)) by nia. split; [|done]. nia.
Qed.

(** ** Pocklington's criterion *)
(** A prime factor q of N - 1 with a base whose order takes all of q divides p - 1 for all prime divisors p of N. *)
Lemma pocklington_divides N q a p :
  1 < N -> prime q -> (q | N - 1) -> a ^ (N - 1) == 1 [mod N] -> Z.gcd (a ^ ((N - 1) / q) - 1) N = 1 -> prime p -> (p | N) -> (q | p - 1).
Proof.
  intros HN Hq [c Hc] Ha Hg Hp Hd. pose proof (prime_ge_2 p Hp) as Hp2. pose proof (prime_ge_2 q Hq) as Hq2. destruct (Zdivide_dec q (p - 1)) as [|Hnd]; [done|]. exfalso.
  assert (Hc0 : 0 <= c) by nia. rewrite Hc, Z.div_mul in Hg by lia. rewrite Hc, Z.pow_mul_r in Ha by lia. set (b := a ^ c) in *.
  assert (Hb : b ^ q == 1 [mod p]) by (by apply (congr_weaken N); [lia|lia| |]).
  assert (Hpb : ~ (p | b)).
  { intros Hdb. assert (b == 0 [mod p]) as E0 by (apply congr_divide; [lia|by rewrite Z.sub_0_r]). rewrite E0, Z.pow_0_l in Hb by lia.
    unfold congr in Hb. rewrite Zmod_0_l, Z.mod_1_l in Hb by lia. done. }
  destruct (inverse_exponent q p Hq2 Hp2 (prime_rel_prime q Hq (p - 1) Hnd)) as (u & t & Hu & Ht & E).
  assert (H1 : b == 1 [mod p]).
  { assert (0 <= (p - 1) * t) by nia. transitivity (b ^ (q * u)).
    - rewrite E, Z.pow_add_r, Z.pow_1_r, Z.pow_mul_r by lia. rewrite (fermat_little p b) by done. rewrite Z.pow_1_l by done. by rewrite Z.mul_1_r.
    - rewrite Z.pow_mul_r by lia. rewrite Hb, Z.pow_1_l by done. done. }
  apply congr_divide in H1; [|lia]. assert ((p | 1)) as H by (rewrite <- Hg; by apply Z.gcd_greatest). apply Z.divide_1_r in H. lia.
Qed.

(** Different primes that divide a number, divide it together. *)
Lemma product_divides l m : NoDup l -> Forall prime l -> Forall (fun q => (q | m)) l -> (product l | m).
Proof.
  intros Hnd Hp Hd. induction Hp as [|q l Hq Hp IH]; [apply Z.divide_1_l|]. apply NoDup_cons in Hnd as [Hnin Hnd]. apply Forall_cons in Hd as [Hdq Hd]. specialize (IH Hnd Hd). change (product (q :: l)) with (q * product l). destruct IH as [c ->].
  assert (Hrel : rel_prime q (product l)).
  { apply prime_rel_prime; [done|]. clear - Hnin Hp Hq. induction Hp as [|r l Hr _ IH]; cbn; [intros H; apply Z.divide_1_r in H; pose proof (prime_ge_2 q Hq); lia|]. apply not_elem_of_cons in Hnin as [Hne Hnin].
    intros H. apply prime_mult in H as [H|H]; [|by apply IH|done]. apply Hne. by apply prime_div_prime. }
  rewrite Z.mul_comm in Hdq. apply Gauss in Hdq; [|done]. destruct Hdq as [d ->]. exists d. ring.
Qed.

(** The criterion for some prime factors of N - 1 whose product reaches the square root of N *)
Lemma pocklington N (l : list (Z * Z)) :
  1 < N -> NoDup l.*1 -> Forall prime l.*1 -> N < (product l.*1 + 1) * (product l.*1 + 1) ->
  Forall (fun '(q, a) => (q | N - 1) /\ a ^ (N - 1) == 1 [mod N] /\ Z.gcd (a ^ ((N - 1) / q) - 1) N = 1) l -> prime N.
Proof.
  intros HN Hnd Hl Hlt Hw. destruct (prime_dec N) as [|Hnp]; [done|]. exfalso.
  destruct (small_prime_divisor N HN Hnp) as (p & Hp & Hd & Hpp). pose proof (prime_ge_2 p Hp) as Hp2.
  assert (Hall : Forall (fun q => (q | p - 1)) l.*1).
  { clear Hlt Hnd. induction Hw as [|[q a] l (H1 & H2 & H3) Hw IH]; [constructor|]. apply Forall_cons in Hl as [Hq Hl]. constructor; [by apply (pocklington_divides N q a)|auto]. }
  assert (Hpos : 0 < product l.*1) by (clear - Hl; induction Hl as [|q m Hq _ IH]; [done|]; change (product (q :: m)) with (q * product m); pose proof (prime_ge_2 q Hq); nia).
  pose proof (product_divides _ _ Hnd Hl Hall) as Hdiv. apply Z.divide_pos_le in Hdiv; [|lia]. assert (p < product l.*1 + 1) by (apply Z.square_lt_simpl_nonneg; lia). lia.
Qed.

(** ** Certificates *)
Definition trial_check (p : Z) (bound : nat) : bool :=
  (1 <? p) && (p <? Z.of_nat bound * Z.of_nat bound) && forallb (fun d => negb (p mod Z.of_nat d =? 0)) (seq 2 bound).

Lemma trial_check_prime p bound : trial_check p bound = true -> prime p.
Proof.
  intros [[H1 H2]%andb_true_iff H3]%andb_true_iff. apply Z.ltb_lt in H1, H2. apply prime_by_trial; [done|]. intros d Hd Hdd E.
  rewrite forallb_forall in H3. assert (Hin : In (Z.to_nat d) (seq 2 bound)) by (apply in_seq; nia).
  specialize (H3 _ Hin). rewrite Z2Nat.id, E in H3 by lia. done.
Qed.

Definition pocklington_check (N : Z) (l : list (Z * Z)) : bool :=
  (1 <? N) && bool_decide (NoDup l.*1) && (N <? (product l.*1 + 1) * (product l.*1 + 1))
  && forallb (fun '(q, a) => let b := Zpow_mod a ((N - 1) / q) N in (0 <? q) && ((N - 1) mod q =? 0) && (Zpow_mod b q N =? 1) && (Z.gcd (b - 1) N =? 1)) l.

Lemma pocklington_check_prime N l : pocklington_check N l = true -> Forall prime l.*1 -> prime N.
Proof.
  intros [[[H1 H2]%andb_true_iff H3]%andb_true_iff H4]%andb_true_iff Hl. apply Z.ltb_lt in H1, H3. apply bool_decide_eq_true in H2. apply (pocklington N l); [done|done|done|done|].
  rewrite forallb_forall in H4. apply Forall_forall. intros [q a] Hin. apply list_elem_of_In in Hin. specialize (H4 _ Hin). cbv beta iota zeta in H4.
  apply andb_true_iff in H4 as [[[H5 H6]%andb_true_iff H7]%andb_true_iff H8]. apply Z.ltb_lt in H5. apply Z.eqb_eq in H6, H7, H8. rewrite !Zpow_mod_correct in H7 by lia. rewrite Zpow_mod_correct in H8 by lia.
  assert (E : N - 1 = (N - 1) / q * q) by (pose proof (Z.div_mod (N - 1) q ltac:(lia)); lia). assert (0 <= (N - 1) / q) by (apply Z.div_pos; lia). set (b := a ^ ((N - 1) / q)) in *.
  split; [by apply Z.mod_divide; [lia|]|]. split.
  - rewrite E, Z.pow_mul_r by lia. fold b. rewrite <- (congr_mod N b). unfold congr. by rewrite H7, Z.mod_1_l by lia.
  - transitivity (Z.gcd (b mod N - 1) N); [|done]. assert (G : forall x, Z.gcd x N = Z.gcd (x mod N) N) by (intros x; by rewrite Z.gcd_mod, Z.gcd_comm by lia).
    rewrite (G (b - 1)), (G (b mod N - 1)), (Zminus_mod (b mod N)), Zmod_mod, <- Zminus_mod. done.
Qed.
