(* ===== verification/BigIntBase.v ===== *)
(** * Integers as storages of words (AK/BigIntBase.h)

    The operations of [StorageOperations] on unsigned storages that big integers use: word
    addition, subtraction and division, shifts of a storage, addition in place and Knuth's
    algorithm D.  A storage is a list of words of [w] bits, the least significant word first;
    [value w] is the integer it holds.  Reading or writing outside a storage is a failed VERIFY
    of [Span::at].  The theorems give the value of every result; for the division they show
    that no assertion of the algorithm fails. *)
From Stdlib Require Import Znumtheory.
From S2P Require Import Prelude.

Local Open Scope Z_scope.

(** ** The value of a storage *)
Definition weight (w : Z) (n : nat) : Z := 2 ^ (w * Z.of_nat n).

Fixpoint value (w : Z) (l : list Z) : Z :=
  match l with
  | [] => 0
  | x :: l => x + 2 ^ w * value w l
  end.

Definition words_ok (w : Z) (l : list Z) : Prop := Forall (in_width w) l.

(** ** Words *)
Definition add_words (w word1 word2 : Z) (carry : bool) : Z * bool :=
  let output := wrap w (word1 + word2) in
  let ncarry := 2 ^ w <=? word1 + word2 in
  if carry then
    let output := wrap w (output + 1) in
    (output, if output =? 0 then true else ncarry)
  else (output, ncarry).

Definition sub_words (w word1 word2 : Z) (carry : bool) : Z * bool :=
  let output := wrap w (word1 - word2) in
  let ncarry := word1 <? word2 in
  if carry then (wrap w (output - 1), if output =? 0 then true else ncarry)
  else (output, ncarry).

Definition wide_multiply (w word1 word2 : Z) : Z := wrap (2 * w) (word1 * word2).

Definition dword (w low high : Z) : Z := Z.lor (wrap (2 * w) (Z.shiftl high w)) low.

(** The quotient and the remainder; a division by zero faults. *)
Definition div_mod_words (w dividend_low dividend_high divisor : Z) : outcome (Z * Z) :=
  if divisor =? 0 then Panic
  else
    let dividend := dword w dividend_low dividend_high in
    Ok (wrap w (dividend / divisor), wrap w (dividend mod divisor)).

(** [__builtin_clz], undefined at zero. *)
Definition count_leading_zeroes (w word : Z) : outcome nat :=
  if word =? 0 then Panic else Ok (Z.to_nat (w - 1 - Z.log2 word)).

(** ** Storages *)

(** The loop bounds are of type [size_t]: a difference below zero wraps to a bound that no
    storage reaches, so that the loop leaves the storage. *)
Definition size_sub (a b : nat) : outcome nat := if (a <? b)%nat then Panic else Ok (a - b)%nat.

(** [shift_left(storage, shift, storage)] *)
Definition shift_left (w : Z) (operand : list Z) (shift : nat) : outcome (list Z) :=
  let size := length operand in
  let offset := (shift / Z.to_nat w)%nat in
  let remainder := Z.of_nat (shift mod Z.to_nat w) in
  if remainder =? 0 then
    result ← for_range_down offset size (fun i result =>
      x ← at_index result (Z.of_nat i - Z.of_nat offset);
      set_at_index result (Z.of_nat i) x) operand;
    for_range 0 offset (fun i result => set_at_index result (Z.of_nat i) 0) result
  else
    result ← for_range_down (S offset) size (fun i result =>
      x ← at_index result (Z.of_nat i - Z.of_nat offset);
      y ← at_index result (Z.of_nat i - Z.of_nat offset - 1);
      set_at_index result (Z.of_nat i)
        (Z.lor (wrap w (Z.shiftl x remainder)) (Z.shiftr y (w - remainder)))) operand;
    x ← at_index result 0;
    result ← set_at_index result (Z.of_nat offset) (wrap w (Z.shiftl x remainder));
    for_range 0 offset (fun i result => set_at_index result (Z.of_nat i) 0) result.

(** [shift_right(operand, shift, result)] with distinct storages *)
Definition shift_right (w : Z) (operand : list Z) (shift : nat) (result : list Z) : outcome (list Z) :=
  let size := length operand in
  let offset := (shift / Z.to_nat w)%nat in
  let remainder := Z.of_nat (shift mod Z.to_nat w) in
  if remainder =? 0 then
    kept ← size_sub size offset;
    result ← for_range 0 kept (fun i result =>
      x ← at_index operand (Z.of_nat (i + offset));
      set_at_index result (Z.of_nat i) x) result;
    for_range kept size (fun i result => set_at_index result (Z.of_nat i) 0) result
  else
    kept ← size_sub size offset;
    last ← size_sub kept 1;
    result ← for_range 0 last (fun i result =>
      x ← at_index operand (Z.of_nat (i + offset));
      y ← at_index operand (Z.of_nat (i + offset) + 1);
      set_at_index result (Z.of_nat i)
        (Z.lor (Z.shiftr x remainder) (wrap w (Z.shiftl y (w - remainder))))) result;
    x ← at_index operand (Z.of_nat size - 1);
    result ← set_at_index result (Z.of_nat last) (Z.shiftr x remainder);
    for_range kept size (fun i result => set_at_index result (Z.of_nat i) 0) result.

(** [add<false>(storage, operand2, storage)]: the overflow and the storage *)
Definition add (w : Z) (operand1 operand2 : list Z) : outcome (Z * list Z) :=
  ' (result, carry) ← for_range 0 (length operand1) (fun i '(result, carry) =>
    word1 ← at_index result (Z.of_nat i);
    word2 ← (if (i <? length operand2)%nat then at_index operand2 (Z.of_nat i) else Ok 0);
    let '(word, carry) := add_words w word1 word2 carry in
    result ← set_at_index result (Z.of_nat i) word;
    Ok (result, carry)) (operand1, false);
  Ok (Z.b2z carry, result).

(** D3: the estimate [qhat] of a quotient digit, from the two top words of the divisor
    ([approx] and [next]) and three words of the dividend *)
Definition calculate_qhat (w : Z) (dividend divisor : list Z) (approx : Z) (divisor_len i : nat)
    : outcome Z :=
  top ← at_index dividend (Z.of_nat i);
  if approx <? top then Panic
  else if top =? approx then Ok (2 ^ w - 1)
  else
    low ← at_index dividend (Z.of_nat i - 1);
    ' (qhat, rhat) ← div_mod_words w low top approx;
    next ← at_index divisor (Z.of_nat divisor_len - 2);
    third ← at_index dividend (Z.of_nat i - 2);
    let is_qhat_too_large qhat rhat := dword w third rhat <? wide_multiply w qhat next in
    if is_qhat_too_large qhat rhat then
      let qhat := wrap w (qhat - 1) in
      let '(rhat, carry) := add_words w rhat approx false in
      if negb carry && is_qhat_too_large qhat rhat then Ok (wrap w (qhat - 1)) else Ok qhat
    else Ok qhat.

(** D4: the dividend less [qhat] times the divisor, and the borrow *)
Definition multiply_and_subtract (w qhat : Z) (dividend divisor : list Z) (divisor_len i : nat)
    : outcome (list Z * bool) :=
  ' (dividend, mul_carry, sub_carry) ← for_range 0 divisor_len
    (fun j '(dividend, mul_carry, sub_carry) =>
      d ← at_index divisor (Z.of_nat j);
      let mul_result := wrap (2 * w) (wide_multiply w qhat d + mul_carry) in
      output ← at_index dividend (Z.of_nat (i + j) - Z.of_nat divisor_len);
      let '(output, sub_carry) := sub_words w output (wrap w mul_result) sub_carry in
      dividend ← set_at_index dividend (Z.of_nat (i + j) - Z.of_nat divisor_len) output;
      Ok (dividend, wrap w (Z.shiftr mul_result w), sub_carry)) (dividend, 0, false);
  top ← at_index dividend (Z.of_nat i);
  let '(top, sub_carry) := sub_words w top mul_carry sub_carry in
  dividend ← set_at_index dividend (Z.of_nat i) top;
  Ok (dividend, sub_carry).

(** D6: adds the divisor back to the slice of the dividend *)
Definition add_back (w : Z) (dividend divisor : list Z) (divisor_len i : nat) : outcome (list Z) :=
  start ← size_sub i divisor_len;
  if (length dividend <? start + (divisor_len + 1))%nat then Panic
  else
    ' (overflow, part) ← add w (take (divisor_len + 1) (drop start dividend)) divisor;
    if overflow =? 1 then Ok (take start dividend ++ part ++ drop (start + (divisor_len + 1)) dividend)
    else Panic.

Definition div_mod_step (w : Z) (divisor : list Z) (approx : Z) (divisor_len i : nat)
    (s : list Z * list Z) : outcome (list Z * list Z) :=
  let '(dividend, quotient) := s in
  qhat ← calculate_qhat w dividend divisor approx divisor_len i;
  ' (dividend, sub_carry) ← multiply_and_subtract w qhat dividend divisor divisor_len i;
  dividend ← (if sub_carry : bool then add_back w dividend divisor divisor_len i else Ok dividend);
  quotient ← set_at_index quotient (Z.of_nat i - Z.of_nat divisor_len) (wrap w (qhat - Z.b2z sub_carry));
  Ok (dividend, quotient).

(** The quotient and the remainder ([restore_remainder] set) *)
Definition div_mod_internal (w : Z) (dividend divisor quotient remainder : list Z)
    (dividend_len divisor_len : nat) : outcome (list Z * list Z) :=
  top ← at_index divisor (Z.of_nat divisor_len - 1);
  shift ← count_leading_zeroes w top;
  dividend ← shift_left w dividend shift;
  divisor ← shift_left w divisor shift;
  approx ← at_index divisor (Z.of_nat divisor_len - 1);
  ' (dividend, quotient) ← for_range_down divisor_len (dividend_len + 1)
    (div_mod_step w divisor approx divisor_len) (dividend, quotient);
  used ← size_sub dividend_len divisor_len;
  quotient ← for_range (used + 1) (length quotient)
    (fun i quotient => set_at_index quotient (Z.of_nat i) 0) quotient;
  remainder ← shift_right w (take (length remainder) dividend) shift remainder;
  Ok (quotient, remainder).

Example div_mod_example :
  div_mod_internal 8 [7; 200; 3; 9; 0] [5; 130] [0; 0; 0] [0; 0] 4 2
  = Ok ([191; 17; 0], [76; 113]).
Proof. vm_compute. reflexivity. Qed.

(** ** Values *)
Section values.
Context (w : Z) (Hw : 0 < w).

Lemma base_pos : 0 < 2 ^ w.
Proof using Hw. lia. Qed.

Lemma weight_0 : weight w 0 = 1.
Proof using. unfold weight. by rewrite Z.mul_0_r. Qed.

Lemma weight_S n : weight w (S n) = 2 ^ w * weight w n.
Proof using Hw.
  unfold weight. rewrite <- Z.pow_add_r by lia. f_equal. lia.
Qed.

Lemma weight_add n m : weight w (n + m) = weight w n * weight w m.
Proof using Hw. unfold weight. rewrite <- Z.pow_add_r by lia. f_equal. lia. Qed.

Lemma weight_pos n : 0 < weight w n.
Proof using Hw. unfold weight. lia. Qed.

Lemma weight_le n m : (n <= m)%nat -> weight w n <= weight w m.
Proof using Hw. intros H. unfold weight. apply Z.pow_le_mono_r; nia. Qed.

Lemma value_app l1 l2 : value w (l1 ++ l2) = value w l1 + weight w (length l1) * value w l2.
Proof using Hw.
  induction l1 as [|x l1 IH]; cbn [app value length]; [rewrite weight_0; lia|]. rewrite IH, weight_S. ring.
Qed.

Lemma value_bound l : words_ok w l -> 0 <= value w l < weight w (length l).
Proof using Hw.
  induction 1 as [|x l Hx _ IH]; cbn [value length]; [rewrite weight_0; lia|].
  rewrite weight_S. pose proof base_pos. unfold in_width in Hx. nia.
Qed.

Lemma value_replicate n : value w (replicate n 0) = 0.
Proof using. induction n as [|n IH]; cbn [value replicate]; [done|]. rewrite IH. lia. Qed.

Lemma value_all_zero l : Forall (eq 0) l -> value w l = 0.
Proof using. induction 1 as [|x l <- _ IH]; cbn [value]; [done|]. rewrite IH. lia. Qed.

Lemma value_zero l : words_ok w l -> value w l = 0 -> Forall (eq 0) l.
Proof using Hw.
  induction 1 as [|x l Hx Hl IH]; [by constructor|]. cbn [value]. intros H.
  pose proof (value_bound l Hl). pose proof base_pos. unfold in_width in Hx.
  constructor; [nia|]. apply IH. nia.
Qed.

Lemma value_insert l i x y :
  l !! i = Some x -> value w (<[i := y]> l) = value w l + (y - x) * weight w i.
Proof using Hw.
  revert i. induction l as [|z l IH]; intros [|i] H; [done|done| |].
  - injection H as ->. cbn. rewrite weight_0. lia.
  - change (value w (z :: <[i := y]> l) = value w (z :: l) + (y - x) * weight w (S i)). cbn [value].
    rewrite (IH i H), weight_S. lia.
Qed.

Lemma value_take_S l j :
  value w (take (S j) l) = value w (take j l) + default 0 (l !! j) * weight w j.
Proof using Hw.
  destruct (l !! j) as [x|] eqn:E; cbn [from_option id].
  - rewrite (take_S_r _ _ _ E), value_app, length_take_le; [cbn [value]; lia|].
    apply lookup_lt_Some in E. lia.
  - apply lookup_ge_None in E. rewrite !take_ge by lia. lia.
Qed.

Lemma value_split n l : value w l = value w (take n l) + weight w (min n (length l)) * value w (drop n l).
Proof using Hw. rewrite <- (take_drop n l) at 1. by rewrite value_app, length_take. Qed.

Lemma words_ok_lookup l i x : words_ok w l -> l !! i = Some x -> in_width w x.
Proof using. apply Forall_lookup_1. Qed.

Lemma words_ok_insert l i x : words_ok w l -> in_width w x -> words_ok w (<[i := x]> l).
Proof using. apply Forall_insert. Qed.

Lemma words_ok_take l n : words_ok w l -> words_ok w (take n l).
Proof using. apply Forall_take. Qed.

Lemma words_ok_drop l n : words_ok w l -> words_ok w (drop n l).
Proof using. apply Forall_drop. Qed.

Lemma words_ok_app l1 l2 : words_ok w l1 -> words_ok w l2 -> words_ok w (l1 ++ l2).
Proof using. apply Forall_app_2. Qed.

Lemma words_ok_zeros n : words_ok w (replicate n 0).
Proof using Hw. apply Forall_replicate. unfold in_width. lia. Qed.

(** The digits of a value determine it. *)
Definition digit (X : Z) (j : nat) : Z := (X / weight w j) mod 2 ^ w.

Lemma digit_lookup l j : words_ok w l -> digit (value w l) j = default 0 (l !! j).
Proof using Hw.
  intros Hl. unfold digit. revert j. induction Hl as [|x l Hx Hl IH]; intros j.
  - cbn [value]. by rewrite Z.div_0_l, Z.mod_0_l by (pose proof (weight_pos j); lia).
  - pose proof base_pos. pose proof (weight_pos j). unfold in_width in Hx. destruct j as [|j].
    + rewrite weight_0, Z.div_1_r. cbn. rewrite Z.mul_comm, Z.mod_add by lia. by apply Z.mod_small.
    + cbn [lookup list_lookup value]. rewrite <- IH, weight_S, <- Z.div_div by (pose proof (weight_pos j); lia).
      do 2 f_equal. rewrite Z.mul_comm, Z.div_add by lia. rewrite Z.div_small; lia.
Qed.

Lemma digit_range X j : in_width w (digit X j).
Proof using Hw. apply Z.mod_pos_bound, base_pos. Qed.

Lemma value_digits l X :
  (forall j x, l !! j = Some x -> x = digit X j) -> value w l = X mod weight w (length l).
Proof using Hw.
  revert X. induction l as [|x l IH]; intros X H; cbn [value length].
  - by rewrite weight_0, Z.mod_1_r.
  - pose proof base_pos. pose proof (weight_pos (length l)). rewrite (IH (X / 2 ^ w)), (H 0%nat x eq_refl).
    + unfold digit. rewrite weight_0, Z.div_1_r, weight_S, Z.rem_mul_r by lia. lia.
    + intros j y Hj. rewrite (H (S j) y Hj). unfold digit. by rewrite weight_S, <- Z.div_div by (pose proof (weight_pos j); lia).
Qed.

Lemma digits_words_ok l X : (forall j x, l !! j = Some x -> x = digit X j) -> words_ok w l.
Proof using Hw. intros H. apply Forall_lookup_2. intros j x Hj. rewrite (H j x Hj). apply digit_range. Qed.

End values.

Create HintDb bigint.
#[export] Hint Resolve words_ok_insert words_ok_take words_ok_drop words_ok_app words_ok_zeros : bigint.

(** ** Words *)
Section words.
Context (w : Z) (Hw : 0 < w).

Lemma add_words_spec x y c :
  in_width w x -> in_width w y ->
  exists o c', add_words w x y c = (o, c') /\ in_width w o /\ o + 2 ^ w * Z.b2z c' = x + y + Z.b2z c.
Proof using Hw.
  unfold in_width, add_words, wrap. intros Hx Hy. pose proof (base_pos w Hw).
  assert ((x + y) mod 2 ^ w = if 2 ^ w <=? x + y then x + y - 2 ^ w else x + y) as E.
  { destruct (Z.leb_spec (2 ^ w) (x + y)); [|apply Z.mod_small; lia].
    replace (x + y) with (x + y - 2 ^ w + 1 * 2 ^ w) at 1 by lia. rewrite Z.mod_add by lia. apply Z.mod_small. lia. }
  destruct c; cbn [Z.b2z]; rewrite E.
  - eexists _, _; split; [done|]. split; [apply Z.mod_pos_bound; lia|].
    destruct (Z.leb_spec (2 ^ w) (x + y)) as [H1|H1].
    + rewrite (Z.mod_small (_ - _ + 1)) by lia. destruct (_ =? 0); cbn [Z.b2z]; lia.
    + destruct (decide (x + y + 1 = 2 ^ w)) as [H2|H2].
      * rewrite H2, Z.mod_same by lia. cbn. lia.
      * rewrite Z.mod_small by lia. rewrite (proj2 (Z.eqb_neq (x + y + 1) 0)) by lia. cbn. lia.
  - eexists _, _; split; [done|]. destruct (Z.leb_spec (2 ^ w) (x + y)); cbn [Z.b2z]; lia.
Qed.

Lemma sub_words_spec x y c :
  in_width w x -> in_width w y ->
  exists o c', sub_words w x y c = (o, c') /\ in_width w o /\ o - 2 ^ w * Z.b2z c' = x - y - Z.b2z c.
Proof using Hw.
  unfold in_width, sub_words, wrap. intros Hx Hy. pose proof (base_pos w Hw).
  assert ((x - y) mod 2 ^ w = if x <? y then x - y + 2 ^ w else x - y) as E.
  { destruct (Z.ltb_spec x y); [|apply Z.mod_small; lia].
    replace (x - y) with (x - y + 2 ^ w + (-1) * 2 ^ w) at 1 by lia. rewrite Z.mod_add by lia. apply Z.mod_small. lia. }
  destruct c; cbn [Z.b2z]; rewrite E.
  - eexists _, _; split; [done|]. split; [apply Z.mod_pos_bound; lia|].
    destruct (Z.ltb_spec x y) as [H1|H1].
    + rewrite (Z.mod_small (_ - 1)) by lia. destruct (_ =? 0); cbn [Z.b2z]; lia.
    + destruct (decide (x - y = 0)) as [H2|H2].
      * rewrite H2. replace (0 - 1) with (2 ^ w - 1 + (-1) * 2 ^ w) by lia. rewrite Z.mod_add, Z.mod_small by lia. cbn. lia.
      * rewrite Z.mod_small by lia. rewrite (proj2 (Z.eqb_neq (x - y) 0)) by lia. cbn. lia.
  - eexists _, _; split; [done|]. destruct (Z.ltb_spec x y); cbn [Z.b2z]; lia.
Qed.

Lemma double_base : 2 ^ (2 * w) = 2 ^ w * 2 ^ w.
Proof using Hw. rewrite <- Z.pow_add_r by lia. f_equal. lia. Qed.

Lemma wide_multiply_exact x y : in_width w x -> in_width w y -> wide_multiply w x y = x * y.
Proof using Hw.
  unfold in_width, wide_multiply. intros Hx Hy. apply wrap_small. unfold in_width. rewrite double_base. nia.
Qed.

(** A disjunction of disjoint bits is a sum. *)
Lemma lor_disjoint a b k : 0 <= k -> 0 <= a < 2 ^ k -> Z.lor a (b * 2 ^ k) = a + b * 2 ^ k.
Proof using.
  intros Hk Ha. symmetry. rewrite <- Z.shiftl_mul_pow2 by done. apply Z.add_nocarry_lor.
  apply Z.bits_inj'. intros n Hn. rewrite Z.land_spec, Z.bits_0, Z.shiftl_spec by done.
  destruct (Z.ltb_spec n k).
  - by rewrite (Z.testbit_neg_r b), andb_false_r by lia.
  - rewrite <- (Z.mod_small a (2 ^ k)) by done. by rewrite Z.mod_pow2_bits_high by lia.
Qed.

Lemma dword_exact low high : in_width w low -> in_width w high -> dword w low high = low + 2 ^ w * high.
Proof using Hw.
  unfold in_width, dword. intros Hl Hh. rewrite Z.shiftl_mul_pow2 by lia.
  rewrite wrap_small by (unfold in_width; rewrite double_base; nia). rewrite Z.lor_comm, lor_disjoint; lia.
Qed.

Lemma div_mod_words_exact low high d :
  in_width w low -> in_width w high -> in_width w d -> high < d ->
  div_mod_words w low high d = Ok ((low + 2 ^ w * high) / d, (low + 2 ^ w * high) mod d).
Proof using Hw.
  unfold in_width, div_mod_words. intros Hl Hh Hd Hlt. rewrite (proj2 (Z.eqb_neq d 0)) by lia.
  rewrite dword_exact by done. pose proof (Z.mod_pos_bound (low + 2 ^ w * high) d ltac:(lia)).
  rewrite !wrap_small; [done|unfold in_width; lia|]. unfold in_width. split; [apply Z.div_pos; nia|].
  apply Z.div_lt_upper_bound; nia.
Qed.

Lemma count_leading_zeroes_spec x :
  in_width w x -> x <> 0 ->
  exists s, count_leading_zeroes w x = Ok s /\ Z.of_nat s < w /\ 2 ^ (w - 1) <= x * 2 ^ Z.of_nat s < 2 ^ w.
Proof using Hw.
  unfold in_width, count_leading_zeroes. intros Hx Hne. rewrite (proj2 (Z.eqb_neq x 0)) by lia.
  eexists; split; [done|]. pose proof (Z.log2_spec x ltac:(lia)) as [H1 H2]. pose proof (Z.log2_nonneg x).
  assert (Z.log2 x < w) by (apply Z.log2_lt_pow2; lia). rewrite Z2Nat.id by lia. split; [lia|].
  set (s := w - 1 - Z.log2 x). assert (0 <= s) by lia. assert (0 < 2 ^ s) by lia. split.
  - replace (w - 1) with (Z.log2 x + s) by lia. rewrite Z.pow_add_r by lia. nia.
  - replace w with (Z.succ (Z.log2 x) + s) by lia. rewrite Z.pow_add_r by lia. nia.
Qed.

End words.

(** ** Shifts *)
Section shifts.
Context (w : Z) (Hw : 0 < w).

Lemma wrap_shiftl y r : 0 < r < w -> wrap w (Z.shiftl y r) = (y mod 2 ^ (w - r)) * 2 ^ r.
Proof using Hw.
  intros Hr. unfold wrap. rewrite Z.shiftl_mul_pow2 by lia.
  replace (2 ^ w) with (2 ^ (w - r) * 2 ^ r) by (rewrite <- Z.pow_add_r by lia; f_equal; lia).
  by rewrite Z.mul_mod_distr_r by lia.
Qed.

(** Two neighbouring words shifted right by [r] bits *)
Lemma shift_words x y r :
  0 < r < w -> in_width w x ->
  Z.lor (Z.shiftr x r) (wrap w (Z.shiftl y (w - r))) = ((x + 2 ^ w * y) / 2 ^ r) mod 2 ^ w.
Proof using Hw.
  intros Hr Hx. unfold in_width in Hx. pose proof (base_pos w Hw).
  assert (E : 2 ^ w = 2 ^ (w - r) * 2 ^ r) by (rewrite <- Z.pow_add_r by lia; f_equal; lia).
  rewrite wrap_shiftl, Z.shiftr_div_pow2 by lia. replace (w - (w - r)) with r by lia.
  assert (0 <= x / 2 ^ r < 2 ^ (w - r)) by (split; [apply Z.div_pos; lia|apply Z.div_lt_upper_bound; lia]).
  rewrite lor_disjoint by lia.
  replace (x + 2 ^ w * y) with (x + y * 2 ^ (w - r) * 2 ^ r) by lia. rewrite Z.div_add by lia.
  rewrite (Z.div_mod y (2 ^ r)) at 2 by lia. pose proof (Z.mod_pos_bound y (2 ^ r) ltac:(lia)).
  replace (x / 2 ^ r + (2 ^ r * (y / 2 ^ r) + y mod 2 ^ r) * 2 ^ (w - r))
    with (x / 2 ^ r + y mod 2 ^ r * 2 ^ (w - r) + (y / 2 ^ r) * 2 ^ w) by (rewrite E; ring).
  rewrite Z.mod_add by lia. rewrite (Z.mod_small (_ + _)); [done|]. rewrite E. nia.
Qed.

Lemma shift_words_sum x y r :
  0 < r < w -> in_width w x ->
  Z.shiftr x r + wrap w (Z.shiftl y (w - r)) = ((x + 2 ^ w * y) / 2 ^ r) mod 2 ^ w.
Proof using Hw.
  intros Hr Hx. rewrite <- shift_words by done. unfold in_width in Hx. rewrite wrap_shiftl, Z.shiftr_div_pow2 by lia.
  assert (E : 2 ^ w = 2 ^ (w - r) * 2 ^ r) by (rewrite <- Z.pow_add_r by lia; f_equal; lia).
  symmetry. apply lor_disjoint; [lia|]. split; [apply Z.div_pos; lia|apply Z.div_lt_upper_bound; lia].
Qed.

Lemma div_weight_S V k : V / weight w k = digit w V k + 2 ^ w * (V / weight w (S k)).
Proof using Hw.
  unfold digit. pose proof (base_pos w Hw). pose proof (weight_pos w Hw k).
  rewrite weight_S, (Z.mul_comm (2 ^ w) (weight w k)), <- Z.div_div by lia. rewrite (Z.div_mod (V / weight w k) (2 ^ w)) at 1 by lia. lia.
Qed.

Lemma digit_pair V k r :
  0 < r < w ->
  (V / weight w k / 2 ^ r) mod 2 ^ w = ((digit w V k + 2 ^ w * digit w V (S k)) / 2 ^ r) mod 2 ^ w.
Proof using Hw.
  intros Hr. assert (E : 2 ^ w = 2 ^ (w - r) * 2 ^ r) by (rewrite <- Z.pow_add_r by lia; f_equal; lia).
  rewrite (div_weight_S V k), (div_weight_S V (S k)). set (z := V / weight w (S (S k))).
  replace (digit w V k + 2 ^ w * (digit w V (S k) + 2 ^ w * z))
    with (digit w V k + 2 ^ w * digit w V (S k) + (z * 2 ^ (w - r) * 2 ^ w) * 2 ^ r) by (rewrite E; ring).
  by rewrite Z.div_add, Z.mod_add by lia.
Qed.

Lemma shift_amount shift :
  let offset := (shift / Z.to_nat w)%nat in
  let r := Z.of_nat (shift mod Z.to_nat w) in
  0 <= r < w /\ 2 ^ Z.of_nat shift = weight w offset * 2 ^ r.
Proof using Hw.
  cbn zeta. assert (Z.to_nat w <> 0%nat) by lia. pose proof (Nat.mod_upper_bound shift (Z.to_nat w) ltac:(done)).
  split; [lia|]. unfold weight. rewrite <- Z.pow_add_r by nia. f_equal.
  pose proof (Nat.div_mod_eq shift (Z.to_nat w)). nia.
Qed.

Lemma digit_shifted_left V offset r j :
  0 <= r < w -> (offset <= j)%nat -> (r = 0 \/ offset <> j) ->
  digit w (V * (weight w offset * 2 ^ r)) j
  = if r =? 0 then digit w V (j - offset)
    else ((digit w V (j - offset - 1) + 2 ^ w * digit w V (j - offset)) / 2 ^ (w - r)) mod 2 ^ w.
Proof using Hw.
  intros Hr Hj Hcase. pose proof (weight_pos w Hw offset). pose proof (weight_pos w Hw (j - offset)).
  pose proof (base_pos w Hw). unfold digit at 1. replace j with ((j - offset) + offset)%nat at 1 by lia. rewrite weight_add by done.
  replace (V * (weight w offset * 2 ^ r)) with (V * 2 ^ r * weight w offset) by ring. rewrite Z.div_mul_cancel_r by lia.
  destruct (Z.eqb_spec r 0) as [-> | Hne]; [by rewrite Z.mul_1_r|].
  replace (j - offset)%nat with (S (j - offset - 1)) at 1 3 by lia. rewrite weight_S by done.
  replace (2 ^ w) with (2 ^ (w - r) * 2 ^ r) at 1 by (rewrite <- Z.pow_add_r by lia; f_equal; lia).
  pose proof (weight_pos w Hw (j - offset - 1)).
  replace (2 ^ (w - r) * 2 ^ r * weight w (j - offset - 1)) with (weight w (j - offset - 1) * 2 ^ (w - r) * 2 ^ r) by ring.
  rewrite Z.div_mul_cancel_r, <- Z.div_div by lia. apply digit_pair. lia.
Qed.

Lemma digit_shifted_left_first V offset r :
  0 <= r < w -> digit w (V * (weight w offset * 2 ^ r)) offset = wrap w (Z.shiftl (digit w V 0) r).
Proof using Hw.
  intros Hr. pose proof (weight_pos w Hw offset). unfold digit, wrap. rewrite weight_0, Z.div_1_r.
  replace (V * (weight w offset * 2 ^ r)) with (V * 2 ^ r * weight w offset) by ring.
  rewrite Z.div_mul, Z.shiftl_mul_pow2 by lia. by rewrite Z.mul_mod_idemp_l by lia.
Qed.

Lemma digit_shifted_left_low V offset r j :
  0 <= r -> (j < offset)%nat -> digit w (V * (weight w offset * 2 ^ r)) j = 0.
Proof using Hw.
  intros Hr Hj. unfold digit. pose proof (weight_pos w Hw j).
  replace offset with (j + S (offset - j - 1))%nat by lia. rewrite weight_add, weight_S by done.
  replace (V * (weight w j * (2 ^ w * weight w (offset - j - 1)) * 2 ^ r))
    with (V * weight w (offset - j - 1) * 2 ^ r * 2 ^ w * weight w j) by ring.
  rewrite Z.div_mul by lia. apply Z.mod_mul. lia.
Qed.

Lemma digit_shifted_right V offset r j :
  0 <= r < w ->
  digit w (V / (weight w offset * 2 ^ r)) j
  = if r =? 0 then digit w V (j + offset)
    else ((digit w V (j + offset) + 2 ^ w * digit w V (S (j + offset))) / 2 ^ r) mod 2 ^ w.
Proof using Hw.
  intros Hr. pose proof (weight_pos w Hw offset). pose proof (weight_pos w Hw j). unfold digit at 1.
  rewrite Z.div_div by nia. replace (weight w offset * 2 ^ r * weight w j) with (weight w (j + offset) * 2 ^ r)
    by (rewrite weight_add by done; ring).
  rewrite <- Z.div_div by (pose proof (weight_pos w Hw (j + offset)); lia).
  destruct (Z.eqb_spec r 0) as [-> | Hne]; [by rewrite Z.div_1_r|]. apply digit_pair. lia.
Qed.

End shifts.

(** Zeroing the words from [lo] to [hi] *)
Lemma zero_fill (l : list Z) lo hi :
  (lo <= hi <= length l)%nat ->
  runs (for_range lo hi (fun i l => set_at_index l (Z.of_nat i) 0) l)
    (fun l' => l' = take lo l ++ replicate (hi - lo) 0 ++ drop hi l).
Proof.
  intros [Hlo Hhi]. eapply runs_mono.
  - apply (for_range_runs (fun i l' => l' = take lo l ++ replicate (i - lo) 0 ++ drop i l)); [done| |].
    + rewrite Nat.sub_diag. cbn [replicate app]. by rewrite take_drop.
    + intros i l' Hi ->. rewrite set_at_index_Ok by (rewrite !length_app, length_take, length_replicate, length_drop; lia).
      apply runs_ret. rewrite insert_app_r_alt by (rewrite length_take; lia). f_equal.
      rewrite length_take, insert_app_r_alt by (rewrite length_replicate; lia). rewrite length_replicate.
      replace (i - lo `min` length l - (i - lo))%nat with 0%nat by lia.
      destruct (lookup_lt_is_Some_2 l i ltac:(lia)) as [x Hx]. rewrite (drop_S _ _ _ Hx). cbn.
      replace (S i - lo)%nat with (S (i - lo)) by lia. by rewrite replicate_S_end, <- app_assoc.
  - intros l' ->. done.
Qed.

(** Steps over a value that is already known *)
Ltac ret := repeat match goal with |- runs (kbind (Ok ?a) ?f) ?Q => change (runs (f a) Q); cbv beta iota end.

Section shift_loops.
Context (w : Z) (Hw : 0 < w).

(** A storage whose words from [i] on are digits of [X] and whose other words are those of [l] *)
Definition filled_above (X : Z) (l : list Z) (i : nat) (l' : list Z) : Prop :=
  length l' = length l /\ (forall j, (j < i)%nat -> l' !! j = l !! j)
  /\ (forall j, (i <= j < length l)%nat -> l' !! j = Some (digit w X j)).

Lemma filled_above_start X l : filled_above X l (length l) l.
Proof using. split; [done|]. split; [done|]. intros j Hj. lia. Qed.

Lemma filled_above_set X l i l' x :
  (i < length l)%nat -> filled_above X l (S i) l' -> x = digit w X i ->
  runs (set_at_index l' (Z.of_nat i) x) (filled_above X l i).
Proof using.
  intros Hi (Hlen & Hlow & Hhigh) ->. rewrite set_at_index_Ok by lia. apply runs_ret. split; [by rewrite length_insert|].
  split; intros j Hj.
  - rewrite list_lookup_insert_ne by lia. apply Hlow. lia.
  - destruct (decide (i = j)) as [-> |]; [by rewrite list_lookup_insert_eq by lia|].
    rewrite list_lookup_insert_ne by done. apply Hhigh. lia.
Qed.

Lemma filled_above_read X l i l' j :
  words_ok w l -> filled_above X l i l' -> (j < i)%nat -> (j < length l)%nat ->
  at_index l' (Z.of_nat j) = Ok (digit w (value w l) j).
Proof using Hw.
  intros Hl (Hlen & Hlow & _) Hj Hjl. destruct (lookup_lt_is_Some_2 l j Hjl) as [x Hx].
  rewrite (at_index_Ok _ _ x); [|by rewrite Hlow]. by rewrite digit_lookup, Hx.
Qed.

(** The loop that ends both branches, when the words from [offset] on are in place *)
Lemma shift_left_end V l offset r l' :
  0 <= r -> (offset <= length l)%nat -> filled_above (V * (weight w offset * 2 ^ r)) l offset l' ->
  runs (for_range 0 offset (fun i l => set_at_index l (Z.of_nat i) 0) l') (fun l' =>
    length l' = length l /\ words_ok w l'
    /\ value w l' = (V * (weight w offset * 2 ^ r)) mod weight w (length l)).
Proof using Hw.
  intros Hr Ho (Hlen & _ & Hhigh). eapply runs_mono; [apply zero_fill; lia|]. intros l2 ->.
  rewrite take_0, Nat.sub_0_r. cbn [app].
  assert (Hd : forall j x, (replicate offset 0 ++ drop offset l') !! j = Some x ->
    x = digit w (V * (weight w offset * 2 ^ r)) j).
  { intros j x Hj. destruct (decide (j < offset)%nat) as [Hlt|Hge].
    - rewrite lookup_app_l, lookup_replicate_2 in Hj by (rewrite ?length_replicate; lia). injection Hj as <-.
      by rewrite digit_shifted_left_low by lia.
    - assert (j < length l)%nat. { apply lookup_lt_Some in Hj. rewrite length_app, length_replicate, length_drop in Hj. lia. }
      rewrite lookup_app_r, length_replicate, lookup_drop in Hj by (rewrite length_replicate; lia).
      replace (offset + (j - offset))%nat with j in Hj by lia. rewrite Hhigh in Hj by lia. by injection Hj. }
  assert (Hlen2 : length (replicate offset 0 ++ drop offset l') = length l)
    by (rewrite length_app, length_replicate, length_drop; lia).
  split; [done|]. split; [by eapply digits_words_ok|]. rewrite (value_digits w Hw _ _ Hd). by rewrite Hlen2.
Qed.

Lemma shift_left_runs l shift :
  words_ok w l -> (shift / Z.to_nat w < length l)%nat ->
  runs (shift_left w l shift) (fun l' =>
    length l' = length l /\ words_ok w l' /\ value w l' = (value w l * 2 ^ Z.of_nat shift) mod weight w (length l)).
Proof using Hw.
  intros Hl Ho. unfold shift_left. destruct (shift_amount w Hw shift) as [Hr ->].
  set (offset := (shift / Z.to_nat w)%nat) in *. set (r := Z.of_nat (shift mod Z.to_nat w)) in *.
  set (X := value w l * (weight w offset * 2 ^ r)).
  destruct (Z.eqb_spec r 0) as [E|E].
  - eapply runs_bind; [apply (for_range_down_runs (filled_above X l)); [lia|apply filled_above_start|]|].
    + intros i l' Hi HI. replace (Z.of_nat i - Z.of_nat offset) with (Z.of_nat (i - offset)) by lia.
      rewrite (filled_above_read X l (S i)) by (done || lia). apply filled_above_set; [lia|done|].
      unfold X. rewrite digit_shifted_left by lia. by rewrite (proj2 (Z.eqb_eq r 0)).
    + intros l' HI. apply shift_left_end; [lia|lia|done].
  - eapply runs_bind; [apply (for_range_down_runs (filled_above X l)); [lia|apply filled_above_start|]|].
    + intros i l' Hi HI. replace (Z.of_nat i - Z.of_nat offset - 1) with (Z.of_nat (i - offset - 1)) by lia.
      replace (Z.of_nat i - Z.of_nat offset) with (Z.of_nat (i - offset)) by lia.
      rewrite !(filled_above_read X l (S i)) by (done || lia). apply filled_above_set; [lia|done|].
      unfold X. rewrite digit_shifted_left by lia. rewrite (proj2 (Z.eqb_neq r 0)) by done.
      rewrite <- shift_words by (lia || by apply digit_range). replace (w - (w - r)) with r by lia. apply Z.lor_comm.
    + intros l' HI. change 0 with (Z.of_nat 0) at 1. rewrite (filled_above_read X l (S offset)) by (done || lia). ret.
      eapply runs_bind; [apply (filled_above_set X l); [done|done|unfold X; by rewrite digit_shifted_left_first]|].
      intros l2 HI2. apply shift_left_end; [lia|lia|done].
Qed.

(** A storage whose words below [i] are digits of [X] and whose other words are those of [l] *)
Definition filled_below (X : Z) (l : list Z) (i : nat) (l' : list Z) : Prop :=
  length l' = length l /\ (forall j, (j < i)%nat -> l' !! j = Some (digit w X j))
  /\ (forall j, (i <= j)%nat -> l' !! j = l !! j).

Lemma filled_below_start X l : filled_below X l 0 l.
Proof using. split; [done|]. split; [lia|done]. Qed.

Lemma filled_below_set X l i l' x :
  (i < length l)%nat -> filled_below X l i l' -> x = digit w X i ->
  runs (set_at_index l' (Z.of_nat i) x) (filled_below X l (S i)).
Proof using.
  intros Hi (Hlen & Hlow & Hhigh) ->. rewrite set_at_index_Ok by lia. apply runs_ret. split; [by rewrite length_insert|].
  split; intros j Hj.
  - destruct (decide (i = j)) as [-> |]; [by rewrite list_lookup_insert_eq by lia|].
    rewrite list_lookup_insert_ne by done. apply Hlow. lia.
  - rewrite list_lookup_insert_ne by lia. apply Hhigh. lia.
Qed.

Lemma filled_below_value X l n l' :
  filled_below X l n l' -> (n <= length l)%nat ->
  exists new, l' = new ++ drop n l /\ length new = n /\ words_ok w new /\ value w new = X mod weight w n.
Proof using Hw.
  intros (Hlen & Hlow & Hhigh) Hn. exists (take n l').
  assert (Hd : forall j x, take n l' !! j = Some x -> x = digit w X j).
  { intros j x Hj. apply lookup_take_Some in Hj as [Hj Hjn]. rewrite Hlow in Hj by done. by injection Hj. }
  assert (Hlt : length (take n l') = n) by (rewrite length_take; lia).
  split; [|split; [done|split; [by eapply digits_words_ok|]]].
  - rewrite <- (take_drop n l') at 1. f_equal. apply list_eq. intros j. rewrite !lookup_drop. apply Hhigh. lia.
  - rewrite (value_digits w Hw _ _ Hd). by rewrite Hlt.
Qed.

Lemma at_digit l j : words_ok w l -> (j < length l)%nat -> at_index l (Z.of_nat j) = Ok (digit w (value w l) j).
Proof using Hw.
  intros Hl Hj. destruct (lookup_lt_is_Some_2 l j Hj) as [x Hx]. rewrite (at_index_Ok _ _ x Hx). by rewrite digit_lookup, Hx.
Qed.

Lemma digit_above l j : words_ok w l -> (length l <= j)%nat -> digit w (value w l) j = 0.
Proof using Hw. intros Hl Hj. rewrite digit_lookup by done. by rewrite lookup_ge_None_2. Qed.

Lemma shift_right_end X (operand : list Z) kept result l' :
  (kept <= length operand <= length result)%nat ->
  (forall j, (kept <= j < length operand)%nat -> digit w X j = 0) ->
  filled_below X result kept l' ->
  runs (for_range kept (length operand) (fun i l => set_at_index l (Z.of_nat i) 0) l')
    (filled_below X result (length operand)).
Proof using.
  intros [Hk Hlen] HX HI. apply for_range_runs; [lia|done|]. intros i l2 Hi HI2.
  apply filled_below_set; [lia|done|]. symmetry. apply HX. lia.
Qed.

Lemma shift_right_runs operand shift result :
  words_ok w operand -> (shift / Z.to_nat w < length operand)%nat -> (length operand <= length result)%nat ->
  runs (shift_right w operand shift result) (fun l' => exists new,
    l' = new ++ drop (length operand) result /\ length new = length operand /\ words_ok w new
    /\ value w new = value w operand / 2 ^ Z.of_nat shift).
Proof using Hw.
  intros Hl Ho Hlen. unfold shift_right. destruct (shift_amount w Hw shift) as [Hr ->].
  set (offset := (shift / Z.to_nat w)%nat) in *. set (r := Z.of_nat (shift mod Z.to_nat w)) in *.
  set (X := value w operand / (weight w offset * 2 ^ r)). set (size := length operand) in *.
  assert (Hpos : 0 < weight w offset * 2 ^ r) by (pose proof (weight_pos w Hw offset); nia).
  assert (HX : forall j, digit w X j = if r =? 0 then digit w (value w operand) (j + offset)
    else ((digit w (value w operand) (j + offset) + 2 ^ w * digit w (value w operand) (S (j + offset))) / 2 ^ r) mod 2 ^ w).
  { intros j. by apply digit_shifted_right. }
  assert (HX0 : forall j, (size - offset <= j)%nat -> digit w X j = 0).
  { intros j Hj. rewrite HX, !(digit_above operand) by (done || unfold size in *; lia). by destruct (r =? 0); rewrite ?Z.mul_0_r. }
  assert (Hdone : forall l', filled_below X result size l' -> exists new, l' = new ++ drop size result
    /\ length new = size /\ words_ok w new /\ value w new = X).
  { intros l' HI. destruct (filled_below_value X result size l' HI Hlen) as (new & ? & ? & ? & HV).
    exists new. split; [done|]. split; [done|]. split; [done|]. rewrite HV. apply Z.mod_small.
    pose proof (value_bound w Hw operand Hl). split; [apply Z.div_pos; lia|]. apply Z.div_lt_upper_bound; [lia|].
    unfold size. nia. }
  unfold size_sub. rewrite (proj2 (Nat.ltb_ge size offset)) by lia. destruct (Z.eqb_spec r 0) as [E|E].
  - ret. eapply runs_bind; [apply (for_range_runs (filled_below X result)); [lia|apply filled_below_start|]|].
    + intros i l' Hi HI. rewrite at_digit by (done || unfold size in *; lia). apply filled_below_set; [lia|done|].
      by rewrite HX.
    + intros l' HI. eapply runs_mono; [apply (shift_right_end X operand (size - offset) result); [unfold size in *; lia| |exact HI]|exact Hdone].
      intros j Hj. apply HX0. lia.
  - ret. rewrite (proj2 (Nat.ltb_ge _ 1)) by lia. ret.
    eapply runs_bind; [apply (for_range_runs (filled_below X result)); [lia|apply filled_below_start|]|].
    + intros i l' Hi HI. replace (Z.of_nat (i + offset) + 1) with (Z.of_nat (S (i + offset))) by lia.
      rewrite !at_digit by (done || unfold size in *; lia). apply filled_below_set; [lia|done|].
      rewrite HX. apply shift_words; [done|lia|by apply digit_range].
    + intros l' HI. replace (Z.of_nat size - 1) with (Z.of_nat (size - 1)) by lia.
      rewrite at_digit by (done || unfold size in *; lia). ret.
      eapply runs_bind; [apply (filled_below_set X result); [lia|done|]|].
      * rewrite HX. replace (size - offset - 1 + offset)%nat with (size - 1)%nat by lia.
        rewrite (digit_above operand (S _)) by (done || unfold size in *; lia). rewrite Z.mul_0_r, Z.add_0_r, Z.shiftr_div_pow2 by lia.
        symmetry. pose proof (digit_range w Hw (value w operand) (size - 1)) as Hd. unfold in_width in Hd. apply Z.mod_small.
        split; [apply Z.div_pos; lia|]. apply Z.div_lt_upper_bound; [lia|]. nia.
      * intros l2 HI2. replace (S (size - offset - 1)) with (size - offset)%nat in HI2 by lia.
        eapply runs_mono; [apply (shift_right_end X operand (size - offset) result); [unfold size in *; lia| |exact HI2]|exact Hdone].
        intros j Hj. apply HX0. lia.
Qed.

End shift_loops.

(** ** Addition in place *)
Section addition.
Context (w : Z) (Hw : 0 < w).

Lemma at_index_some {A} (l : list A) i : (i < length l)%nat -> exists x, l !! i = Some x /\ at_index l (Z.of_nat i) = Ok x.
Proof using. intros H. destruct (lookup_lt_is_Some_2 l i H) as [x Hx]. exists x. split; [done|by apply at_index_Ok]. Qed.

Lemma take_insert_S {A} (l : list A) i x : (i < length l)%nat -> take (S i) (<[i := x]> l) = take i l ++ [x].
Proof using.
  intros H. rewrite (take_S_r _ i x) by (by rewrite list_lookup_insert_eq). by rewrite take_insert_ge by lia.
Qed.

Lemma value_take_insert l i x :
  (i < length l)%nat -> value w (take (S i) (<[i := x]> l)) = value w (take i l) + x * weight w i.
Proof using Hw.
  intros H. rewrite take_insert_S, value_app, length_take_le by (done || lia). cbn [value]. lia.
Qed.

Lemma add_runs a b :
  words_ok w a -> words_ok w b ->
  runs (add w a b) (fun '(overflow, a') => exists c, overflow = Z.b2z c /\ length a' = length a /\ words_ok w a'
    /\ value w a' + weight w (length a) * overflow = value w a + value w (take (length a) b)).
Proof using Hw.
  intros Ha Hb. unfold add. eapply runs_bind.
  - apply (for_range_runs (fun i '(a', c) => length a' = length a /\ words_ok w a' /\ drop i a' = drop i a
      /\ value w (take i a') + weight w i * Z.b2z c = value w (take i a) + value w (take i b))); [lia| |].
    + split; [done|]. split; [done|]. split; [done|]. rewrite !take_0. cbn. lia.
    + intros i [a' c] Hi (Hlen & Ha' & Hdrop & Hval). destruct (at_index_some a' i ltac:(lia)) as (x & Hx & ->). ret.
      assert (Hax : a !! i = Some x) by (rewrite <- (Nat.add_0_r i), <- lookup_drop, <- Hdrop, lookup_drop, Nat.add_0_r; done).
      assert (exists y, (if (i <? length b)%nat then at_index b (Z.of_nat i) else Ok 0) = Ok y
        /\ default 0 (b !! i) = y /\ in_width w y) as (y & -> & Hby & Hy).
      { destruct (Nat.ltb_spec i (length b)) as [Hib|Hib].
        - destruct (at_index_some b i Hib) as (y & Hy & ->). exists y. rewrite Hy. by eauto using words_ok_lookup.
        - exists 0. rewrite lookup_ge_None_2 by done. unfold in_width. repeat split; lia. }
      ret. destruct (add_words_spec w Hw x y c) as (o & c' & -> & Ho & HE); [by eapply words_ok_lookup|done|].
      rewrite set_at_index_Ok by lia. ret. apply runs_ret. split; [by rewrite length_insert|].
      split; [by apply words_ok_insert|]. split.
      * rewrite drop_insert_lt by lia. replace (S i) with (i + 1)%nat by lia. rewrite <- !drop_drop. by rewrite Hdrop.
      * rewrite value_take_insert, !value_take_S, Hax, Hby, weight_S by (done || lia). cbn [from_option id]. nia.
  - intros [a' c] (Hlen & Ha' & _ & Hval). apply runs_ret. exists c. split; [done|]. split; [done|]. split; [done|].
    rewrite <- Hlen in Hval at 1. rewrite !firstn_all in Hval. lia.
Qed.

End addition.

(** ** A digit of the quotient *)
Section quotient_digit.
Context (B P v1 v2 vl u0 u1 u2 ul : Z).
Let V := (v1 * B + v2) * P + vl.
Let N := ((u0 * B + u1) * B + u2) * P + ul.
Context (HB : 2 <= B) (HP : 0 < P) (Hv1 : B <= 2 * v1) (Hv1B : v1 < B) (Hv2 : 0 <= v2 < B) (Hvl : 0 <= vl < P).
Context (Hu0 : 0 <= u0) (Hu1 : 0 <= u1 < B) (Hu2 : 0 <= u2 < B) (Hul : 0 <= ul < P) (HN : N < B * V).

Lemma divisor_pos : B * P <= 2 * V /\ v1 * B * P <= V.
Proof using All.
  clear HN N. subst V. assert (0 <= v2 * P) by nia. assert (B * (B * P) <= 2 * v1 * (B * P)) by nia. nia.
Qed.

Lemma quotient_lt_base : N / V < B.
Proof using All. pose proof divisor_pos. apply Z.div_lt_upper_bound; nia. Qed.

Lemma quotient_nonneg : 0 <= N / V.
Proof using All. pose proof divisor_pos. apply Z.div_pos; [|nia]. subst N. assert (0 <= ((u0 * B + u1) * B + u2)) by nia. nia. Qed.

(** The quotient of the top words is not below the digit. *)
Lemma top_quotient_ge : N / V <= (u0 * B + u1) / v1.
Proof using All.
  pose proof divisor_pos as [HV HV1]. pose proof quotient_nonneg. apply Z.div_le_lower_bound; [lia|].
  pose proof (Z.mul_div_le N V ltac:(nia)) as Hq. set (q := N / V) in *.
  assert (v1 * q * (B * P) <= N) by nia. assert (N < (u0 * B + u1 + 1) * (B * P)) by (subst N; nia).
  assert (v1 * q < u0 * B + u1 + 1); [|lia]. apply Z.mul_lt_mono_pos_r with (B * P); nia.
Qed.

Context (qh rh : Z) (Hqh : 0 <= qh <= B) (Hrh : qh * v1 + rh = u0 * B + u1).

(** An estimate that passes the test is at most one above the digit. *)
Lemma estimate_upper : qh * v2 <= B * rh + u2 -> qh <= N / V + 1.
Proof using All.
  intros Htest. pose proof divisor_pos as [HV HV1]. assert (qh - 1 <= N / V); [|lia].
  apply Z.div_le_lower_bound; [nia|].
  assert (qh * (v1 * B + v2) <= (u0 * B + u1) * B + u2) as H1 by nia.
  assert (qh * (v1 * B + v2) * P <= ((u0 * B + u1) * B + u2) * P) as H2 by nia.
  assert (qh * vl <= B * P) as H3 by nia. assert (B * P <= V) as H4 by nia.
  assert (qh * V <= N + B * P) as H5 by (subst V N; nia). nia.
Qed.

(** An estimate that fails the test is above the digit. *)
Lemma estimate_lower : B * rh + u2 < qh * v2 -> N / V < qh.
Proof using All.
  intros Htest. pose proof divisor_pos as [HV HV1]. apply Z.div_lt_upper_bound; [nia|].
  assert ((u0 * B + u1) * B + u2 + 1 <= qh * (v1 * B + v2)) as H1 by nia.
  assert (((u0 * B + u1) * B + u2 + 1) * P <= qh * (v1 * B + v2) * P) as H2 by nia.
  assert (0 <= qh * vl) by nia. subst V N. nia.
Qed.

End quotient_digit.

(** The estimate when the top words are equal *)
Lemma equal_tops_digit B P v1 v2 vl u1 u2 ul :
  2 <= B -> 0 < P -> B <= 2 * v1 -> v1 < B -> 0 <= v2 < B -> 0 <= vl < P ->
  0 <= u1 < B -> 0 <= u2 < B -> 0 <= ul < P ->
  let V := (v1 * B + v2) * P + vl in
  let N := ((v1 * B + u1) * B + u2) * P + ul in
  N < B * V -> N / V <= B - 1 <= N / V + 1.
Proof.
  intros HB HP Hv1 Hv1B Hv2 Hvl Hu1 Hu2 Hul V N HN.
  assert (0 < V) by (clear HN N; assert (0 < (v1 * B + v2) * P) by (apply Z.mul_pos_pos; nia); subst V; lia).
  split; [assert (N / V < B); [apply Z.div_lt_upper_bound; lia|lia]|].
  assert (B - 2 <= N / V); [|lia]. apply Z.div_le_lower_bound; [done|].
  assert (v1 * B * B * P <= N) by (subst N; assert (0 <= (u1 * B + u2) * P) by nia; nia).
  assert (V < (v1 * B + B) * P) by (clear -HP Hvl Hv2 HB; assert (v2 * P <= (B - 1) * P) by nia; subst V; lia).
  assert (B * (B * P) <= 2 * v1 * (B * P)) by (apply Z.mul_le_mono_nonneg_r; nia).
  assert (v1 * (B * P) <= V) by (clear -HP Hvl Hv2 HB; assert (0 <= v2 * P) by nia; subst V; lia).
  assert (B * V <= B * ((v1 * B + B) * P)) by (apply Z.mul_le_mono_nonneg_l; lia). lia.
Qed.

(** The words of a window over the dividend *)
Lemma window_lookup {A} (L W R : list A) j : (j < length W)%nat -> (L ++ W ++ R) !! (length L + j)%nat = W !! j.
Proof. intros H. rewrite lookup_app_r by lia. rewrite lookup_app_l by lia. f_equal. lia. Qed.

Lemma window_at {A} (L W R : list A) j x :
  W !! j = Some x -> at_index (L ++ W ++ R) (Z.of_nat (length L + j)) = Ok x.
Proof. intros H. apply at_index_Ok. rewrite window_lookup; [done|]. by eapply lookup_lt_Some. Qed.

Lemma window_set {A} (L W R : list A) j x :
  (j < length W)%nat -> set_at_index (L ++ W ++ R) (Z.of_nat (length L + j)) x = Ok (L ++ <[j := x]> W ++ R).
Proof.
  intros H. rewrite set_at_index_Ok by (rewrite !length_app; lia). rewrite insert_app_r.
  by rewrite insert_app_l.
Qed.

Lemma lookup_tail {A} (l t : list A) j x : t !! j = Some x -> (l ++ t) !! (length l + j)%nat = Some x.
Proof. intros H. rewrite lookup_app_r by lia. by replace (length l + j - length l)%nat with j by lia. Qed.

(** Dividing the shifted numbers gives the quotient and the shifted remainder. *)
Lemma unnormalize U V Q r p : 0 < p -> 0 <= r < V * p -> r + V * p * Q = U * p -> Q = U / V /\ r / p = U mod V.
Proof.
  intros Hp Hr E. assert (r = (U - V * Q) * p) as -> by lia. rewrite Z.div_mul by lia.
  assert (0 <= U - V * Q < V) by nia. split.
  - apply Z.div_unique with (U - V * Q); lia.
  - apply Z.mod_unique with Q; lia.
Qed.

(** ** Knuth's algorithm D *)
Section division.
Context (w : Z) (Hw : 0 < w).
Let B := 2 ^ w.

Lemma base_even : B = 2 * 2 ^ (w - 1).
Proof using Hw. unfold B. rewrite <- Z.pow_succ_r by lia. f_equal. lia. Qed.

(** The test and the corrections of D3, as a function of the words *)
Lemma qhat_bounds P v1 v2 vl u0 u1 u2 ul :
  0 < P -> 0 <= vl < P -> 0 <= ul < P -> B <= 2 * v1 ->
  in_width w v1 -> in_width w v2 -> in_width w u0 -> in_width w u1 -> in_width w u2 ->
  u0 < v1 ->
  let V := (v1 * B + v2) * P + vl in
  let N := ((u0 * B + u1) * B + u2) * P + ul in
  N < B * V ->
  let qhat := (u1 + B * u0) / v1 in
  let rhat := (u1 + B * u0) mod v1 in
  let too_large qhat rhat := dword w u2 rhat <? wide_multiply w qhat v2 in
  let result :=
    if too_large qhat rhat then
      let qhat := wrap w (qhat - 1) in
      let '(rhat, carry) := add_words w rhat v1 false in
      if negb carry && too_large qhat rhat then wrap w (qhat - 1) else qhat
    else qhat in
  in_width w result /\ N / V <= result <= N / V + 1.
Proof using Hw.
  intros HP Hvl Hul Hhalf Hv1 Hv2 Hu0 Hu1 Hu2 Hlt V N HN qhat rhat too_large result.
  pose proof (base_pos w Hw) as HBpos. fold B in HBpos. assert (HB : 2 <= B) by (pose proof base_even; lia).
  unfold in_width in Hv1, Hv2, Hu0, Hu1, Hu2. fold B in Hv1, Hv2, Hu0, Hu1, Hu2.
  assert (Hrh : 0 <= rhat < v1) by (apply Z.mod_pos_bound; lia).
  assert (Hdm : qhat * v1 + rhat = u0 * B + u1).
  { unfold qhat, rhat. pose proof (Z.div_mod (u1 + B * u0) v1 ltac:(lia)). lia. }
  assert (Hqh : 0 <= qhat < B).
  { unfold qhat. split; [apply Z.div_pos; nia|]. apply Z.div_lt_upper_bound; nia. }
  pose proof (quotient_nonneg B P v1 v2 vl u0 u1 u2 ul HB HP Hhalf ltac:(lia) Hv2 Hvl ltac:(lia) Hu1 Hu2 Hul HN) as Hq0.
  pose proof (top_quotient_ge B P v1 v2 vl u0 u1 u2 ul HB HP Hhalf ltac:(lia) Hv2 Hvl ltac:(lia) Hu1 Hu2 Hul HN) as Hge.
  pose proof (fun qh rh H1 H2 => estimate_upper B P v1 v2 vl u0 u1 u2 ul HB HP Hhalf ltac:(lia) Hv2 Hvl ltac:(lia) Hu1 Hu2 Hul HN qh rh H1 H2) as Hup.
  pose proof (fun qh rh H1 H2 => estimate_lower B P v1 v2 vl u0 u1 u2 ul HB HP Hhalf ltac:(lia) Hv2 Hvl ltac:(lia) Hu1 Hu2 Hul HN qh rh H1 H2) as Hlo.
  fold V N in Hq0, Hge, Hup, Hlo. replace (u0 * B + u1) with (u1 + B * u0) in Hge by lia. fold qhat in Hge.
  assert (Htest : forall qh rh, 0 <= qh < B -> 0 <= rh < B -> too_large qh rh = (u2 + B * rh <? qh * v2)).
  { intros qh rh H1 H2. unfold too_large. rewrite dword_exact, wide_multiply_exact by (unfold in_width; fold B; lia). done. }
  unfold result. rewrite Htest by lia. destruct (Z.ltb_spec (u2 + B * rhat) (qhat * v2)) as [T1|T1].
  2: { split; [unfold in_width; fold B; lia|]. split; [done|]. apply (Hup qhat rhat); lia. }
  assert (Hlo1 : N / V < qhat) by (apply (Hlo qhat rhat); lia).
  rewrite (wrap_small w (qhat - 1)) by (unfold in_width; fold B; lia). cbv zeta.
  destruct (add_words_spec w Hw rhat v1 false) as (r2 & c & -> & Hr2 & HE); [unfold in_width; fold B; lia..|].
  unfold in_width in Hr2. fold B in Hr2, HE. cbn [Z.b2z] in HE.
  destruct c; cbn [negb andb Z.b2z] in *.
  - split; [unfold in_width; fold B; lia|]. split; [lia|]. apply (Hup (qhat - 1) (rhat + v1)); [lia|lia|]. nia.
  - rewrite Htest by lia. destruct (Z.ltb_spec (u2 + B * r2) ((qhat - 1) * v2)) as [T2|T2].
    + assert (Hlo2 : N / V < qhat - 1) by (apply (Hlo (qhat - 1) r2); lia).
      rewrite (wrap_small w (qhat - 1 - 1)) by (unfold in_width; fold B; lia).
      split; [unfold in_width; fold B; lia|]. split; [lia|].
      apply (Hup (qhat - 1 - 1) (rhat + 2 * v1)); [lia|lia|]. nia.
    + split; [unfold in_width; fold B; lia|]. split; [lia|]. apply (Hup (qhat - 1) r2); lia.
Qed.

Lemma value_top2 l v2 v1 : value w (l ++ [v2; v1]) = (v1 * B + v2) * weight w (length l) + value w l.
Proof using Hw. rewrite value_app by done. cbn [value]. fold B. ring. Qed.

Lemma value_top3 l u2 u1 u0 :
  value w (l ++ [u2; u1; u0]) = ((u0 * B + u1) * B + u2) * weight w (length l) + value w l.
Proof using Hw. rewrite value_app by done. cbn [value]. fold B. ring. Qed.

Lemma calculate_qhat_runs L Wl u2 u1 u0 R Dl v2 v1 Z0 n i :
  let W := Wl ++ [u2; u1; u0] in
  let D := Dl ++ [v2; v1] in
  n = S (S (length Dl)) -> length Wl = length Dl -> i = (length L + n)%nat ->
  words_ok w W -> words_ok w D -> B <= 2 * v1 -> value w W < B * value w D ->
  runs (calculate_qhat w (L ++ W ++ R) (D ++ Z0) v1 n i)
    (fun qhat => in_width w qhat /\ value w W / value w D <= qhat <= value w W / value w D + 1).
Proof using Hw.
  intros W D Hn Hlen Hi HW HD Hhalf HN. unfold calculate_qhat.
  assert (Hu : forall j x, [u2; u1; u0] !! j = Some x -> in_width w x).
  { intros j x Hj. eapply (words_ok_lookup w W); [done|]. by apply lookup_tail. }
  assert (Hv : forall j x, [v2; v1] !! j = Some x -> in_width w x).
  { intros j x Hj. eapply (words_ok_lookup w D); [done|]. by apply lookup_tail. }
  assert (Hat : forall j x, [u2; u1; u0] !! j = Some x -> at_index (L ++ W ++ R) (Z.of_nat (length L + (length Wl + j))) = Ok x).
  { intros j x Hj. apply window_at. by apply lookup_tail. }
  pose proof (Hu 0%nat _ eq_refl) as Hu2. pose proof (Hu 1%nat _ eq_refl) as Hu1. pose proof (Hu 2%nat _ eq_refl) as Hu0.
  pose proof (Hv 0%nat _ eq_refl) as Hv2. pose proof (Hv 1%nat _ eq_refl) as Hv1.
  replace (Z.of_nat i - 2) with (Z.of_nat (length L + (length Wl + 0))) by lia.
  replace (Z.of_nat i - 1) with (Z.of_nat (length L + (length Wl + 1))) by lia.
  replace (Z.of_nat i) with (Z.of_nat (length L + (length Wl + 2))) by lia.
  replace (Z.of_nat n - 2) with (Z.of_nat (length Dl + 0)) by lia.
  rewrite (Hat 0%nat u2 eq_refl), (Hat 1%nat u1 eq_refl), (Hat 2%nat u0 eq_refl). ret.
  assert (HP : 0 < weight w (length Dl)) by (by apply weight_pos).
  assert (Hvl : 0 <= value w Dl < weight w (length Dl)).
  { apply value_bound; [done|]. by apply Forall_app in HD as [? _]. }
  assert (Hul : 0 <= value w Wl < weight w (length Dl)).
  { rewrite <- Hlen. apply value_bound; [done|]. by apply Forall_app in HW as [? _]. }
  unfold W, D in HN |- *. rewrite value_top2, value_top3, Hlen in HN |- *.
  assert (u0 <= v1).
  { pose proof (base_pos w Hw). fold B in H. unfold in_width in *. fold B in Hu0, Hu1, Hu2, Hv1, Hv2.
    apply Z.le_ngt. intros Hgt. set (P := weight w (length Dl)) in *.
    assert ((v1 * B + v2) * P + value w Dl < (v1 * B + B) * P) by nia.
    assert (((v1 + 1) * B) * B * P <= ((u0 * B + u1) * B + u2) * P) by (apply Z.mul_le_mono_nonneg_r; nia). nia. }
  rewrite (proj2 (Z.ltb_ge v1 u0)) by done. destruct (Z.eqb_spec u0 v1) as [-> |Hne].
  - apply runs_ret. pose proof (base_pos w Hw) as HB. pose proof base_even. unfold in_width in *.
    fold B in HB, Hu1, Hu2, Hv1, Hv2 |- *. split; [lia|].
    apply (equal_tops_digit B (weight w (length Dl))); lia.
  - ret. rewrite div_mod_words_exact by (done || lia). ret.
    rewrite (at_index_Ok _ _ v2) by (rewrite lookup_app_l by (unfold D; rewrite length_app; cbn; lia); by apply lookup_tail). ret.
    pose proof (qhat_bounds (weight w (length Dl)) v1 v2 (value w Dl) u0 u1 u2 (value w Wl) HP Hvl Hul Hhalf Hv1 Hv2 Hu0 Hu1 Hu2
      ltac:(lia) HN) as Hres. revert Hres. unfold B. cbv zeta.
    destruct (dword _ _ _ <? _); [|intros; by apply runs_ret].
    destruct (add_words _ _ _ _) as [r2 c]. destruct (negb c && _); intros; by apply runs_ret.
Qed.

(** The state of the loop of D4 after [j] words of the window [W] *)
Definition subtracted (qhat : Z) (L W R D : list Z) (j : nat) (s : list Z * Z * bool) : Prop :=
  let '(dividend, mul_carry, sub_carry) := s in
  exists W', dividend = L ++ W' ++ R /\ length W' = length W /\ words_ok w W' /\ drop j W' = drop j W
    /\ in_width w mul_carry
    /\ value w (take j W') - weight w j * (mul_carry + Z.b2z sub_carry)
       = value w (take j W) - qhat * value w (take j D).

Lemma lookup_drop_eq {A} (l1 l2 : list A) j : drop j l1 = drop j l2 -> l1 !! j = l2 !! j.
Proof using. intros H. rewrite <- (Nat.add_0_r j), <- !lookup_drop. by rewrite H. Qed.

Lemma drop_S_insert {A} (l1 l2 : list A) j x : drop j l1 = drop j l2 -> drop (S j) (<[j := x]> l1) = drop (S j) l2.
Proof using.
  intros H. rewrite drop_insert_lt by auto using Nat.lt_succ_diag_r. rewrite <- Nat.add_1_r, <- !drop_drop. by rewrite H.
Qed.

Lemma multiply_and_subtract_runs qhat L W R D Z0 n i :
  length W = S n -> length D = n -> i = (length L + n)%nat ->
  words_ok w W -> words_ok w D -> in_width w qhat ->
  runs (multiply_and_subtract w qhat (L ++ W ++ R) (D ++ Z0) n i) (fun '(dividend, c) =>
    exists W', dividend = L ++ W' ++ R /\ length W' = S n /\ words_ok w W'
      /\ value w W' - weight w (S n) * Z.b2z c = value w W - qhat * value w D).
Proof using Hw.
  intros HlW HlD Hi HW HD Hq. unfold multiply_and_subtract. pose proof (base_pos w Hw) as HBpos. fold B in HBpos.
  eapply runs_bind; [apply (for_range_runs (subtracted qhat L W R D)); [lia| |]|].
  - exists W. repeat split; [done|unfold in_width; lia|lia|]. rewrite !take_0. cbn. lia.
  - intros j [[dividend mc] sc] Hj (W' & -> & HlW' & HW' & Hdrop & Hmc & Hval).
    destruct (lookup_lt_is_Some_2 D j ltac:(lia)) as [d Hd]. destruct (lookup_lt_is_Some_2 W' j ltac:(lia)) as [x Hx].
    rewrite (at_index_Ok _ _ d) by (by rewrite lookup_app_l by lia). ret.
    replace (Z.of_nat (i + j) - Z.of_nat n) with (Z.of_nat (length L + j)) by lia.
    rewrite (window_at _ _ _ _ x Hx). ret.
    pose proof (words_ok_lookup w D j d HD Hd) as Hdr. pose proof (words_ok_lookup w W' j x HW' Hx) as Hxr.
    assert (Hm : 0 <= qhat * d + mc < B * B) by (unfold in_width in *; fold B in Hdr, Hq, Hmc; nia).
    rewrite wide_multiply_exact, (wrap_small (2 * w)) by (done || (unfold in_width; rewrite double_base by done; lia)).
    destruct (sub_words_spec w Hw x (wrap w (qhat * d + mc)) sc) as (o & c & -> & Ho & HE);
      [done|apply wrap_range; lia|].
    rewrite window_set by lia. ret. apply runs_ret. exists (<[j := o]> W'). rewrite length_insert.
    assert (Hhi : Z.shiftr (qhat * d + mc) w = (qhat * d + mc) / B) by (by rewrite Z.shiftr_div_pow2 by lia).
    assert (Hhir : 0 <= (qhat * d + mc) / B < B) by (split; [apply Z.div_pos; lia|apply Z.div_lt_upper_bound; lia]).
    split; [done|]. split; [done|]. split; [by apply words_ok_insert|]. split; [by apply drop_S_insert|].
    split; [apply wrap_range; lia|]. rewrite Hhi, wrap_small by done.
    assert (HWx : W !! j = Some x) by (by rewrite <- (lookup_drop_eq _ _ _ Hdrop)).
    rewrite value_take_insert, !value_take_S, weight_S, HWx, Hd by (done || lia). cbn [from_option id]. unfold wrap in HE.
    pose proof (Z.div_mod (qhat * d + mc) B ltac:(lia)) as Hdm. fold B in HE |- *.
    assert (o - B * ((qhat * d + mc) / B + Z.b2z c) = x - qhat * d - mc - Z.b2z sc) by lia. nia.
  - intros [[dividend mc] sc] (W' & -> & HlW' & HW' & Hdrop & Hmc & Hval).
    destruct (lookup_lt_is_Some_2 W' n ltac:(lia)) as [x Hx]. rewrite Hi, (window_at _ _ _ _ x Hx). ret.
    destruct (sub_words_spec w Hw x mc sc) as (o & c & -> & Ho & HE); [by eapply words_ok_lookup|done|].
    rewrite window_set by lia. ret. apply runs_ret. exists (<[n := o]> W'). rewrite length_insert.
    split; [done|]. split; [lia|]. split; [by apply words_ok_insert|].
    assert (HWx : W !! n = Some x) by (by rewrite <- (lookup_drop_eq _ _ _ Hdrop)).
    rewrite <- (firstn_all (<[n := o]> W')), length_insert, HlW', HlW, value_take_insert by (done || lia).
    rewrite (take_ge D) in Hval by lia.
    rewrite <- (firstn_all W), HlW, value_take_S, HWx, weight_S by done. cbn [from_option id]. fold B in HE |- *. nia.
Qed.

Lemma value_padded D Z0 n : length D = n -> Forall (eq 0) Z0 -> value w (take (S n) (D ++ Z0)) = value w D.
Proof using Hw.
  intros Hn HZ. rewrite take_app, take_ge, value_app by (done || lia).
  rewrite (value_all_zero w (take _ Z0)) by (by apply Forall_take). lia.
Qed.

Lemma add_back_runs L W R D Z0 n i :
  length W = S n -> length D = n -> i = (length L + n)%nat ->
  words_ok w W -> words_ok w D -> Forall (eq 0) Z0 -> weight w (S n) <= value w W + value w D ->
  runs (add_back w (L ++ W ++ R) (D ++ Z0) n i) (fun dividend =>
    exists W', dividend = L ++ W' ++ R /\ length W' = S n /\ words_ok w W'
      /\ value w W' = value w W + value w D - weight w (S n)).
Proof using Hw.
  intros HlW HlD Hi HW HD HZ Hge. unfold add_back, size_sub. rewrite (proj2 (Nat.ltb_ge i n)) by lia. ret.
  replace (i - n)%nat with (length L) by lia. replace (n + 1)%nat with (length W) by lia.
  rewrite (proj2 (Nat.ltb_ge _ _)) by (rewrite !length_app; lia).
  rewrite drop_app_length, take_app_length.
  assert (HZw : words_ok w Z0) by (eapply Forall_impl; [exact HZ|]; intros ? <-; unfold in_width; lia).
  eapply runs_bind; [apply add_runs; [done|done|by apply words_ok_app]|].
  intros [ov W'] (c & -> & HlW' & HW' & Hval). rewrite HlW, value_padded in Hval by done.
  pose proof (value_bound w Hw W' HW') as Hb. rewrite HlW', HlW in Hb. pose proof (weight_pos w Hw (S n)).
  destruct c; cbn [Z.b2z] in *; [|lia]. cbn [Z.eqb Pos.eqb]. apply runs_ret. exists W'.
  rewrite take_app_length. rewrite (app_assoc L W R), <- length_app, drop_app_length. repeat split; [lia|done|lia].
Qed.

Lemma last_words {A} (l : list A) k x y :
  length l = S (S k) -> l !! k = Some x -> l !! S k = Some y -> l = take k l ++ [x; y].
Proof using.
  intros Hl Hx Hy. rewrite <- (take_drop k l) at 1. f_equal. rewrite (drop_S _ _ _ Hx), (drop_S _ _ _ Hy).
  by rewrite drop_ge by (by rewrite Hl).
Qed.

Lemma calculate_qhat_window L W R D Z0 v1 n i :
  (2 <= n)%nat -> length W = S n -> length D = n -> i = (length L + n)%nat ->
  words_ok w W -> words_ok w D -> D !! (n - 1)%nat = Some v1 -> B <= 2 * v1 -> value w W < B * value w D ->
  runs (calculate_qhat w (L ++ W ++ R) (D ++ Z0) v1 n i)
    (fun qhat => in_width w qhat /\ value w W / value w D <= qhat <= value w W / value w D + 1).
Proof using Hw.
  intros Hn HlW HlD Hi HW HD Hv1 Hhalf HN. destruct n as [|[|k]]; [lia|lia|].
  destruct (lookup_lt_is_Some_2 D k ltac:(lia)) as [v2 Hv2].
  destruct (lookup_lt_is_Some_2 W k ltac:(lia)) as [u2 Hu2].
  destruct (lookup_lt_is_Some_2 W (S k) ltac:(lia)) as [u1 Hu1].
  destruct (lookup_lt_is_Some_2 W (S (S k)) ltac:(lia)) as [u0 Hu0].
  pose proof (last_words D k v2 v1 HlD Hv2 Hv1) as HDe.
  pose proof (last_words W (S k) u1 u0 HlW Hu1 Hu0) as HWe. rewrite (take_S_r _ _ _ Hu2), <- app_assoc in HWe.
  assert (length (take k W) = k) by (rewrite length_take; lia). assert (length (take k D) = k) by (rewrite length_take; lia).
  rewrite HDe in HD, HN |- *. rewrite HWe in HW, HN |- *. apply calculate_qhat_runs; (done || lia).
Qed.

(** One digit: the window becomes its remainder, the quotient gets the digit. *)
Lemma div_mod_step_runs L W R D Z0 v1 n i quotient :
  (2 <= n)%nat -> length W = S n -> length D = n -> i = (length L + n)%nat -> (length L < length quotient)%nat ->
  words_ok w W -> words_ok w D -> Forall (eq 0) Z0 ->
  D !! (n - 1)%nat = Some v1 -> B <= 2 * v1 -> value w W < B * value w D ->
  runs (div_mod_step w (D ++ Z0) v1 n i (L ++ W ++ R, quotient)) (fun '(dividend, quotient') =>
    exists W', dividend = L ++ W' ++ R /\ length W' = S n /\ words_ok w W'
      /\ value w W' = value w W mod value w D
      /\ quotient' = <[length L := value w W / value w D]> quotient /\ in_width w (value w W / value w D)).
Proof using Hw.
  intros Hn HlW HlD Hi HlL HW HD HZ Hv1 Hhalf HN. unfold div_mod_step.
  pose proof (base_pos w Hw) as HBpos. pose proof base_even as HBeven. fold B in HBpos.
  pose proof (value_bound w Hw D HD) as HDb. pose proof (value_bound w Hw W HW) as HWb.
  eapply runs_bind; [by apply (calculate_qhat_window L W R D Z0 v1 n i)|].
  intros qhat [Hqr Hq].
  assert (HV : 0 < value w D). { destruct (decide (value w D = 0)) as [E|]; [|lia]. rewrite E in HN. lia. }
  pose proof (Z.div_mod (value w W) (value w D) ltac:(lia)) as Hdm.
  pose proof (Z.mod_pos_bound (value w W) (value w D) ltac:(lia)) as Hmod.
  set (q := value w W / value w D) in *. set (r := value w W mod value w D) in *.
  eapply runs_bind; [by apply (multiply_and_subtract_runs qhat L W R D Z0 n i)|].
  intros [dividend c] (W1 & -> & HlW1 & HW1 & Hval1).
  pose proof (value_bound w Hw W1 HW1) as HW1b. rewrite HlW1 in HW1b.
  eapply (runs_bind _ _ (fun dividend => exists W', dividend = L ++ W' ++ R /\ length W' = S n /\ words_ok w W'
    /\ value w W' = r /\ qhat - Z.b2z c = q)).
  - destruct c; cbn [Z.b2z] in *.
    + assert (qhat = q + 1) by nia. eapply runs_mono; [apply (add_back_runs L W1 R D Z0 n i); (done || nia)|].
      intros d (W' & -> & HlW' & HW' & HV'). exists W'. repeat split; [done|done|nia|lia].
    + assert (qhat = q) by nia. apply runs_ret. exists W1. repeat split; [done|done|nia|lia].
  - intros d (W' & -> & HlW' & HW' & HV' & Hqq). rewrite Hqq.
    assert (Hqw : in_width w q).
    { unfold in_width. fold B. split; [apply Z.div_pos; lia|apply Z.div_lt_upper_bound; lia]. }
    replace (Z.of_nat i - Z.of_nat n) with (Z.of_nat (length L)) by lia.
    rewrite set_at_index_Ok, wrap_small by done. ret. apply runs_ret. exists W'. done.
Qed.

(** The loop: [i] is one more than the index of the next digit's top word. *)
Definition dividing (U V : Z) (n m size qsize i : nat) (s : list Z * list Z) : Prop :=
  let '(dividend, quotient) := s in
  let done_ := take (m + 1 - i) (drop (i - n) quotient) in
  length dividend = size /\ words_ok w dividend /\ length quotient = qsize /\ words_ok w done_
  /\ value w (drop (i - n) dividend) < V
  /\ value w dividend + V * (weight w (i - n) * value w done_) = U.

(** The words above [k] as a window of [n + 1] words, when the words above [k + 1] hold less
    than the [n]-word number [V] *)
Lemma window_split dividend k n V :
  words_ok w dividend -> (k + S n <= length dividend)%nat -> V <= weight w n ->
  value w (drop (S k) dividend) < V ->
  exists W R, dividend = take k dividend ++ W ++ R /\ length W = S n /\ words_ok w W /\ words_ok w R /\ value w R = 0
    /\ value w W < B * V /\ value w dividend = value w (take k dividend) + weight w k * value w W.
Proof using Hw.
  intros Hok Hlen HV Hlt. exists (take (S n) (drop k dividend)), (drop (S n) (drop k dividend)).
  set (W := take (S n) (drop k dividend)). set (R := drop (S n) (drop k dividend)).
  assert (HlW : length W = S n) by (unfold W; rewrite length_take, length_drop; lia).
  assert (HlL : length (take k dividend) = k) by (rewrite length_take; lia).
  assert (Hsplit : dividend = take k dividend ++ W ++ R) by (unfold W, R; by rewrite !take_drop).
  assert (HWok : words_ok w W) by (unfold W; auto with bigint). assert (HRok : words_ok w R) by (unfold R; auto with bigint).
  pose proof (value_bound w Hw R HRok) as [HR0 _]. pose proof (value_bound w Hw W HWok) as [HW0 _].
  pose proof (base_pos w Hw) as HBpos. fold B in HBpos. pose proof (weight_pos w Hw n) as Hwn.
  destruct (lookup_lt_is_Some_2 dividend k ltac:(lia)) as [x Hx].
  pose proof (words_ok_lookup w dividend k x Hok Hx) as Hxr. unfold in_width in Hxr. fold B in Hxr.
  assert (HWR : value w W + B * weight w n * value w R = x + B * value w (drop (S k) dividend)).
  { transitivity (value w (drop k dividend)); [|by rewrite (drop_S _ _ _ Hx)].
    rewrite <- (take_drop (S n) (drop k dividend)), value_app by done. fold W R. by rewrite HlW, weight_S by done. }
  assert (HB1 : B * value w (drop (S k) dividend) <= B * (V - 1)) by (apply Z.mul_le_mono_nonneg_l; lia).
  assert (HB2 : B * V <= B * weight w n) by (apply Z.mul_le_mono_nonneg_l; lia).
  assert (HR : value w R = 0) by (assert (0 < B * weight w n) by nia; nia).
  repeat split; try done; [lia|]. rewrite Hsplit at 1. rewrite !value_app, HlL, HR by done. lia.
Qed.

Lemma dividing_step U D Z0 v1 n m size qsize i s :
  (2 <= n)%nat -> (n <= i < m + 1)%nat -> (m + 1 <= size)%nat -> (m + 1 - n <= qsize)%nat ->
  length D = n -> words_ok w D -> Forall (eq 0) Z0 -> D !! (n - 1)%nat = Some v1 -> B <= 2 * v1 ->
  dividing U (value w D) n m size qsize (S i) s ->
  runs (div_mod_step w (D ++ Z0) v1 n i s) (dividing U (value w D) n m size qsize i).
Proof using Hw.
  intros Hn Hi Hm Hq HlD HD HZ Hv1 Hhalf. destruct s as [dividend quotient]. intros (Hlen & Hwords & Hql & Hqok & Hlt & HU).
  set (k := (i - n)%nat). replace (S i - n)%nat with (S k) in * by lia. replace (m + 1 - S i)%nat with (m - i)%nat in * by lia.
  pose proof (value_bound w Hw D HD) as HDb. rewrite HlD in HDb. pose proof (base_pos w Hw) as HBpos. fold B in HBpos.
  destruct (window_split dividend k n (value w D)) as (W & R & Hsplit & HlW & HWok & HRok & HR & HWlt & Hval); [done|lia..|].
  assert (HlL : length (take k dividend) = k) by (rewrite length_take; lia).
  assert (HlR : length R = (size - k - S n)%nat).
  { rewrite Hsplit, !length_app, HlL in Hlen. lia. }
  rewrite Hsplit. eapply runs_mono.
  { apply (div_mod_step_runs (take k dividend) W R D Z0 v1 n i quotient); (done || lia). }
  intros [dividend' quotient'] (W' & -> & HlW' & HW' & HVW' & -> & Hqw). rewrite HlL.
  assert (HV : 0 < value w D) by (pose proof (value_bound w Hw W HWok); nia).
  pose proof (Z.div_mod (value w W) (value w D) ltac:(lia)) as Hdm.
  pose proof (Z.mod_pos_bound (value w W) (value w D) ltac:(lia)) as Hmod.
  set (q := value w W / value w D) in *. unfold dividing. fold k. rewrite length_insert.
  assert (Hdone : take (m + 1 - i) (drop k (<[k := q]> quotient)) = q :: take (m - i) (drop (S k) quotient)).
  { rewrite (drop_S _ q) by (apply list_lookup_insert_eq; lia). rewrite drop_insert_lt by lia.
    by replace (m + 1 - i)%nat with (S (m - i)) by lia. }
  rewrite Hdone. split; [rewrite !length_app, HlL, HlW'; lia|]. split; [auto with bigint|]. split; [done|].
  split; [by constructor|]. split.
  - rewrite <- HlL at 1. rewrite drop_app_length, value_app, HR by done. lia.
  - rewrite <- HU, Hval, !value_app, HlL, HR, HVW', weight_S by done. cbn [value]. fold B. nia.
Qed.

(** A number through its top word *)
Lemma value_top_word l n top :
  words_ok w l -> (1 <= n)%nat -> l !! (n - 1)%nat = Some top -> value w (drop n l) = 0 ->
  exists low, value w l = low + weight w (n - 1) * top /\ 0 <= low < weight w (n - 1).
Proof using Hw.
  intros Hok Hn Htop HZ. pose proof (lookup_lt_Some _ _ _ Htop) as Hlt. exists (value w (take (n - 1) l)). split.
  - rewrite <- (take_drop (n - 1) l) at 1. rewrite value_app, length_take_le by (done || lia). f_equal. f_equal.
    rewrite (drop_S _ _ _ Htop). replace (S (n - 1)) with n by lia. cbn [value]. lia.
  - pose proof (value_bound w Hw _ (words_ok_take w _ (n - 1) Hok)) as H. by rewrite length_take_le in H by lia.
Qed.

Lemma weight_pred n : (1 <= n)%nat -> weight w n = B * weight w (n - 1).
Proof using Hw. intros Hn. unfold B. rewrite <- weight_S by done. f_equal. lia. Qed.

(** Normalising the divisor: its top word gets its high bit, its value is shifted. *)
Lemma normalized divisor n top :
  words_ok w divisor -> (1 <= n)%nat -> divisor !! (n - 1)%nat = Some top -> top <> 0 -> Forall (eq 0) (drop n divisor) ->
  exists s, count_leading_zeroes w top = Ok s /\ Z.of_nat s < w
    /\ runs (shift_left w divisor s) (fun divisor' => exists D Z0 v1, divisor' = D ++ Z0 /\ length D = n
      /\ words_ok w D /\ Forall (eq 0) Z0 /\ D !! (n - 1)%nat = Some v1 /\ B <= 2 * v1
      /\ value w D = value w divisor * 2 ^ Z.of_nat s).
Proof using Hw.
  intros Hok Hn Htop Hne HZ. pose proof (words_ok_lookup w divisor _ _ Hok Htop) as Htr.
  destruct (count_leading_zeroes_spec w Hw top Htr Hne) as (s & Hs & Hsw & Hrange). exists s. split; [done|]. split; [done|].
  pose proof (lookup_lt_Some _ _ _ Htop) as Hlt. pose proof (base_pos w Hw) as HBpos. pose proof base_even as HBe.
  fold B in HBpos, Hrange. assert (Hoff : (s / Z.to_nat w)%nat = 0%nat) by (apply Nat.div_small; lia).
  eapply runs_mono; [apply shift_left_runs; [done|done|lia]|]. intros divisor' (Hlen & Hok' & Hval).
  destruct (value_top_word divisor n top Hok Hn Htop (value_all_zero w _ HZ)) as (low & HV & Hlow).
  pose proof (weight_pred n Hn) as Hwn. set (P := weight w (n - 1)) in *.
  assert (Hp : 0 < 2 ^ Z.of_nat s) by lia.
  assert (HpB : top * 2 ^ Z.of_nat s + 2 ^ Z.of_nat s <= B).
  { assert (B = 2 ^ (w - Z.of_nat s) * 2 ^ Z.of_nat s) as E by (unfold B; rewrite <- Z.pow_add_r by lia; f_equal; lia).
    clear - E Hrange Hp. rewrite E in *. assert (top < 2 ^ (w - Z.of_nat s)) by nia. nia. }
  set (p := 2 ^ Z.of_nat s) in *.
  assert (Hsmall : value w divisor * p < weight w n) by (rewrite Hwn, HV; nia).
  assert (Hdl : (n <= length divisor)%nat) by lia. pose proof (weight_le w Hw _ _ Hdl) as Hwle.
  pose proof (value_bound w Hw _ Hok) as [HV0 _]. rewrite Z.mod_small in Hval by nia.
  assert (HlD : length (take n divisor') = n) by (rewrite length_take; lia).
  pose proof (value_split w Hw n divisor') as Hsp. rewrite Nat.min_l, Hval in Hsp by lia.
  pose proof (value_bound w Hw _ (words_ok_drop w _ n Hok')) as [H0 _].
  pose proof (value_bound w Hw _ (words_ok_take w _ n Hok')) as [H1 _].
  assert (HZ0 : value w (drop n divisor') = 0) by nia.
  destruct (lookup_lt_is_Some_2 divisor' (n - 1)%nat ltac:(lia)) as [v1 Hv1].
  destruct (value_top_word divisor' n v1 Hok' Hn Hv1 HZ0) as (low2 & HV2 & Hlow2). fold P in HV2, Hlow2.
  exists (take n divisor'), (drop n divisor'), v1. rewrite take_drop. split; [done|]. split; [done|]. split; [auto with bigint|].
  split; [apply (value_zero w Hw); [auto with bigint|done]|]. split; [by rewrite lookup_take_lt by lia|]. split; [|lia].
  assert (P * 2 ^ (w - 1) <= P * (top * p)) by (apply Z.mul_le_mono_nonneg_l; lia).
  assert (2 ^ (w - 1) < v1 + 1); [|lia]. apply Z.mul_lt_mono_pos_l with P; [lia|]. nia.
Qed.

Lemma value_below l m : words_ok w l -> (m <= length l)%nat -> Forall (eq 0) (drop m l) -> 0 <= value w l < weight w m.
Proof using Hw.
  intros Hok Hm HZ. rewrite (value_split w Hw m l), (value_all_zero w _ HZ), Z.mul_0_r, Z.add_0_r.
  pose proof (value_bound w Hw _ (words_ok_take w l m Hok)) as H. by rewrite length_take_le in H by lia.
Qed.

(** The state before the first digit *)
Lemma dividing_start U V s dividend quotient n m :
  words_ok w dividend -> (1 <= n <= m)%nat -> (m + 1 <= length dividend)%nat ->
  0 <= U < weight w m -> Z.of_nat s < w -> 2 ^ (w - 1) * weight w (n - 1) <= V ->
  value w dividend = U * 2 ^ Z.of_nat s ->
  dividing (U * 2 ^ Z.of_nat s) V n m (length dividend) (length quotient) (m + 1) (dividend, quotient).
Proof using Hw.
  intros Hok Hnm Hlen HU Hs HV Hval. unfold dividing. rewrite Nat.sub_diag, take_0. split; [done|]. split; [done|].
  split; [done|]. split; [constructor|]. split; [|cbn; lia].
  pose proof (value_split w Hw (m + 1 - n) dividend) as Hsp. rewrite Nat.min_l in Hsp by lia.
  pose proof (value_bound w Hw _ (words_ok_take w _ (m + 1 - n) Hok)) as [H1 _].
  pose proof (weight_pos w Hw (m + 1 - n)) as Hpos.
  assert (Hp : 2 ^ Z.of_nat s <= 2 ^ (w - 1)) by (apply Z.pow_le_mono_r; lia).
  assert (Hm : weight w m = weight w (n - 1) * weight w (m + 1 - n)) by (rewrite <- weight_add by done; f_equal; lia).
  apply Z.mul_lt_mono_pos_l with (weight w (m + 1 - n)); [done|]. pose proof (weight_pos w Hw (n - 1)).
  assert (0 < 2 ^ Z.of_nat s) by lia. set (p := 2 ^ Z.of_nat s) in *. set (h := 2 ^ (w - 1)) in *.
  assert (U * p < weight w m * h) by nia.
  assert (weight w (m + 1 - n) * (h * weight w (n - 1)) <= weight w (m + 1 - n) * V) by (apply Z.mul_le_mono_nonneg_l; lia).
  nia.
Qed.

Lemma shift_right_remainder dividend remainder s n :
  words_ok w dividend -> (1 <= n <= length remainder)%nat -> (n <= length dividend)%nat -> Z.of_nat s < w ->
  value w dividend < weight w n ->
  runs (shift_right w (take (length remainder) dividend) s remainder) (fun r => exists new,
    r = new ++ drop (length dividend) remainder /\ length new = Nat.min (length remainder) (length dividend)
    /\ words_ok w new /\ value w new = value w dividend / 2 ^ Z.of_nat s).
Proof using Hw.
  intros Hok Hn Hd Hs Hlt. assert (Hlt2 := length_take dividend (length remainder)).
  assert (Hv : value w (take (length remainder) dividend) = value w dividend).
  { pose proof (value_split w Hw (length remainder) dividend) as Hsp.
    pose proof (value_bound w Hw _ (words_ok_drop w _ (length remainder) Hok)) as [H0 _].
    pose proof (value_bound w Hw _ (words_ok_take w _ (length remainder) Hok)) as [H1 _].
    pose proof (weight_le w Hw n (length remainder `min` length dividend) ltac:(lia)). pose proof (weight_pos w Hw n).
    assert (value w (drop (length remainder) dividend) = 0) as E by nia. rewrite E in Hsp. lia. }
  eapply runs_mono; [apply shift_right_runs; [done|auto with bigint| |lia]|].
  - rewrite Nat.div_small by lia. lia.
  - intros r (new & -> & Hnew & Hwords & HV). exists new. rewrite HV, Hv, Hnew, Hlt2. split; [|done].
    f_equal. destruct (Nat.le_gt_cases (length dividend) (length remainder)); [f_equal; lia|].
    rewrite !drop_ge; (done || lia).
Qed.

Lemma div_mod_internal_runs dividend divisor quotient remainder m n top :
  words_ok w dividend -> words_ok w divisor -> (2 <= n <= m)%nat ->
  divisor !! (n - 1)%nat = Some top -> top <> 0 -> Forall (eq 0) (drop n divisor) ->
  (m + 1 <= length dividend)%nat -> Forall (eq 0) (drop m dividend) ->
  (m - n + 1 <= length quotient)%nat -> (n <= length remainder)%nat ->
  runs (div_mod_internal w dividend divisor quotient remainder m n) (fun '(q, r) =>
    length q = length quotient /\ words_ok w q /\ value w q = value w dividend / value w divisor
    /\ exists new, r = new ++ drop (length dividend) remainder
       /\ length new = Nat.min (length remainder) (length dividend)
       /\ words_ok w new /\ value w new = value w dividend mod value w divisor).
Proof using Hw.
  intros Hdok Hvok Hnm Htop Hne HvZ Hdl HdZ Hql Hrl. unfold div_mod_internal.
  replace (Z.of_nat n - 1) with (Z.of_nat (n - 1)) by lia. rewrite (at_index_Ok _ _ _ Htop). ret.
  destruct (normalized divisor n top Hvok ltac:(lia) Htop Hne HvZ) as (s & -> & Hs & Hnorm). ret.
  assert (Hoff : (s / Z.to_nat w)%nat = 0%nat) by (apply Nat.div_small; lia).
  pose proof (value_below dividend m Hdok ltac:(lia) HdZ) as HU. pose proof (weight_pos w Hw m) as Hwm.
  assert (Hp : 2 ^ Z.of_nat s <= B) by (apply Z.pow_le_mono_r; lia). assert (Hp0 : 0 < 2 ^ Z.of_nat s) by lia.
  eapply runs_bind; [apply (shift_left_runs w Hw dividend s Hdok); lia|]. intros dividend' (Hdl' & Hdok' & Hdval).
  rewrite Z.mod_small in Hdval.
  2: { pose proof (weight_le w Hw _ _ Hdl) as H. rewrite Nat.add_1_r, weight_S in H by done. fold B in H. nia. }
  eapply runs_bind; [exact Hnorm|]. intros divisor' (D & Z0 & v1 & -> & HlD & HD & HZ0 & Hv1 & Hhalf & HVD).
  rewrite (at_index_Ok _ _ v1) by (by rewrite lookup_app_l by lia). ret.
  destruct (value_top_word D n v1 HD ltac:(lia) Hv1) as (low & HVlow & Hlow); [by rewrite drop_ge by lia|].
  assert (HVtop : 2 ^ (w - 1) * weight w (n - 1) <= value w D).
  { rewrite HVlow. pose proof base_even. pose proof (weight_pos w Hw (n - 1)). nia. }
  eapply runs_bind.
  { apply (for_range_down_runs (dividing (value w dividend * 2 ^ Z.of_nat s) (value w D) n m (length dividend') (length quotient))); [lia| |].
    - apply dividing_start; (done || lia).
    - intros i st Hi. apply dividing_step; (done || lia). }
  intros [dividend2 quotient2] (Hl2 & Hok2 & Hq2 & Hqok & Hlt2 & HE). rewrite Nat.sub_diag, weight_0, !drop_0 in *.
  unfold size_sub. rewrite (proj2 (Nat.ltb_ge m n)) by lia. ret.
  eapply runs_bind; [apply zero_fill; lia|]. intros q ->.
  replace (m - n + 1)%nat with (m + 1 - n)%nat by lia. rewrite drop_ge, app_nil_r by lia.
  pose proof (value_bound w Hw _ Hok2) as [Hr0 _]. pose proof (value_bound w Hw D HD) as HDb. rewrite HlD in HDb.
  destruct (unnormalize (value w dividend) (value w divisor) (value w (take (m + 1 - n) quotient2)) (value w dividend2) (2 ^ Z.of_nat s))
    as [HQ Hrem]; [lia|lia|lia|].
  eapply runs_bind; [apply (shift_right_remainder dividend2 remainder s n); (done || lia)|].
  intros r (new & -> & Hnl & Hnok & Hnval). apply runs_ret.
  split; [rewrite length_app, length_take, length_replicate; lia|]. split; [auto with bigint|].
  split; [rewrite value_app, value_replicate by done; lia|].
  exists new. rewrite Hl2, Hdl' in *. rewrite Hnval, Hrem. done.
Qed.

End division.
