(* ===== verification/UnsignedBigInteger.v ===== *)
(** * Unsigned big integers (LibCrypto/BigInt/UnsignedBigInteger.{h,cpp} and Algorithms/)

    An [UnsignedBigInteger] is a vector of 32-bit words, a flag for invalid results and a cache
    of its trimmed length, the number of words up to the last word that is not zero.  The cache
    is filled by [trimmed_length], also on integers passed by [const] reference, and emptied by
    the operations that call [set_to] or [set_to_0]; an operation that changes words without
    emptying it leaves a cache that later reads believe.  So the model threads the cache: an
    operation returns each integer it was given whose cache it may have filled.  Scratch
    integers that an operation sets before it reads them are not arguments.

    [holds u v] says that the words of [u] hold [v]; [represents u v] says that the cache is
    right as well.  The theorems give the value of every result.  Vectors are shorter than
    2^31 words, the range of the [int] indices of some loops; allocation succeeds. *)
From S2P Require Import Prelude BigIntBase.

Local Open Scope Z_scope.

Record UnsignedBigInteger := mk_UnsignedBigInteger {
  m_words : list Z;
  m_is_invalid : bool;
  m_cached_trimmed_length : option nat
}.

Definition BITS_IN_WORD : Z := 32.

Definition with_words (u : UnsignedBigInteger) (words : list Z) : UnsignedBigInteger :=
  mk_UnsignedBigInteger words (m_is_invalid u) (m_cached_trimmed_length u).

(** [Vector::resize]: new elements are zero. *)
Definition resize (words : list Z) (new_size : nat) : list Z :=
  take new_size words ++ replicate (new_size - length words) 0.

(** ** Construction, assignment and length *)
Definition empty_integer : UnsignedBigInteger := mk_UnsignedBigInteger [] false None.
Definition from_word (value : Z) : UnsignedBigInteger := mk_UnsignedBigInteger [value] false None.
Definition from_u64 (value : Z) : UnsignedBigInteger :=
  mk_UnsignedBigInteger [Z.land value 0xFFFFFFFF; Z.land (Z.shiftr value 32) 0xFFFFFFFF] false None.

Definition invalidate (u : UnsignedBigInteger) : UnsignedBigInteger :=
  mk_UnsignedBigInteger (m_words u) true None.
Definition create_invalid : UnsignedBigInteger := invalidate (from_word 0).

Definition set_to_0 (u : UnsignedBigInteger) : UnsignedBigInteger := mk_UnsignedBigInteger [] false None.
Definition set_to_word (u : UnsignedBigInteger) (other : Z) : UnsignedBigInteger :=
  mk_UnsignedBigInteger (<[0%nat := other]> (resize (m_words u) 1)) false None.
Definition set_to (u other : UnsignedBigInteger) : UnsignedBigInteger :=
  mk_UnsignedBigInteger (m_words other) (m_is_invalid other) None.

Definition is_zero (u : UnsignedBigInteger) : bool := forallb (Z.eqb 0) (m_words u).
Definition is_odd (u : UnsignedBigInteger) : bool :=
  match m_words u with [] => false | x :: _ => negb (Z.land x 1 =? 0) end.
Definition big_length (u : UnsignedBigInteger) : nat := length (m_words u).

Fixpoint num_leading_zeroes (reversed_words : list Z) : nat :=
  match reversed_words with
  | [] => 0
  | x :: words => if x =? 0 then S (num_leading_zeroes words) else 0
  end.
Definition trimmed (words : list Z) : nat := (length words - num_leading_zeroes (rev words))%nat.

Definition trimmed_length (u : UnsignedBigInteger) : nat * UnsignedBigInteger :=
  match m_cached_trimmed_length u with
  | Some n => (n, u)
  | None =>
      let n := trimmed (m_words u) in
      (n, mk_UnsignedBigInteger (m_words u) (m_is_invalid u) (Some n))
  end.

Definition clamp_to_trimmed_length (u : UnsignedBigInteger) : UnsignedBigInteger :=
  let '(n, u) := trimmed_length u in
  if (n <? length (m_words u))%nat then with_words u (resize (m_words u) n) else u.

Definition resize_with_leading_zeros (u : UnsignedBigInteger) (new_length : nat) : UnsignedBigInteger :=
  if (length (m_words u) <? new_length)%nat then with_words u (resize (m_words u) new_length) else u.

Definition one_based_index_of_highest_set_bit (u : UnsignedBigInteger) : outcome (Z * UnsignedBigInteger) :=
  let '(n, u) := trimmed_length u in
  if (0 <? n)%nat then
    top ← at_index (m_words u) (Z.of_nat n - 1);
    zeroes ← count_leading_zeroes BITS_IN_WORD top;
    Ok ((Z.of_nat n - 1) * BITS_IN_WORD + (BITS_IN_WORD - Z.of_nat zeroes), u)
  else Ok (0, u).

Definition to_u64 (u : UnsignedBigInteger) : Z :=
  match m_words u with
  | [] => 0
  | [x] => x
  | x :: y :: _ => Z.lor x (Z.shiftl y 32)
  end.

Definition set_bit_inplace (u : UnsignedBigInteger) (bit_index : nat) : outcome UnsignedBigInteger :=
  let word_index := (bit_index / 32)%nat in
  let inner_word_index := (bit_index mod 32)%nat in
  let words := m_words u ++ replicate (S word_index - length (m_words u)) 0 in
  x ← at_index words (Z.of_nat word_index);
  words ← set_at_index words (Z.of_nat word_index) (Z.lor x (Z.shiftl 1 (Z.of_nat inner_word_index)));
  Ok (mk_UnsignedBigInteger words (m_is_invalid u) None).

(** ** Comparisons *)

(** [memcmp] of the first [n] words; reading outside a vector is undefined. *)
Definition words_equal (n : nat) (words other : list Z) : outcome bool :=
  if (length words <? n)%nat || (length other <? n)%nat then Panic
  else Ok (bool_decide (take n words = take n other)).

Definition operator_eq (u other : UnsignedBigInteger) : outcome (bool * UnsignedBigInteger * UnsignedBigInteger) :=
  if negb (Bool.eqb (m_is_invalid u) (m_is_invalid other)) then Ok (false, u, other)
  else
    let '(n, u) := trimmed_length u in
    let '(other_n, other) := trimmed_length other in
    if (n =? other_n)%nat then
      equal ← words_equal n (m_words u) (m_words other);
      Ok (equal, u, other)
    else Ok (false, u, other).

(** The words from [i - 1] down *)
Fixpoint words_less (i : nat) (words other : list Z) : outcome bool :=
  match i with
  | O => Ok false
  | S i =>
      x ← at_index words (Z.of_nat i);
      y ← at_index other (Z.of_nat i);
      if x =? y then words_less i words other else Ok (x <? y)
  end.

Definition operator_lt (u other : UnsignedBigInteger) : outcome (bool * UnsignedBigInteger * UnsignedBigInteger) :=
  let '(n, u) := trimmed_length u in
  let '(other_n, other) := trimmed_length other in
  if (n <? other_n)%nat then Ok (true, u, other)
  else if (other_n <? n)%nat then Ok (false, u, other)
  else
    less ← words_less n (m_words u) (m_words other);
    Ok (less, u, other).

Definition operator_gt (u other : UnsignedBigInteger) : outcome (bool * UnsignedBigInteger * UnsignedBigInteger) :=
  ' (equal, u, other) ← operator_eq u other;
  if equal : bool then Ok (false, u, other)
  else
    ' (less, u, other) ← operator_lt u other;
    Ok (negb less, u, other).

Definition operator_ge (u other : UnsignedBigInteger) : outcome (bool * UnsignedBigInteger * UnsignedBigInteger) :=
  ' (greater, u, other) ← operator_gt u other;
  if greater : bool then Ok (true, u, other) else operator_eq u other.

(** ** Addition and subtraction *)
Definition addition_would_overflow (a b : Z) : bool := 2 ^ 32 <=? a + b.

(** One word of the sum; the words and the carry into the next word *)
Definition add_one_word (i : nat) (x carry : Z) (words : list Z) : outcome (list Z * Z) :=
  y ← at_index words (Z.of_nat i);
  let current_carry := if addition_would_overflow x y then 1 else 0 in
  let sum := wrap 32 (x + y) in
  let current_carry := if addition_would_overflow sum carry then 1 else current_carry in
  words ← set_at_index words (Z.of_nat i) (wrap 32 (sum + carry));
  Ok (words, current_carry).

(** One step of the loop that ripples the carry; it ends when there is no carry. *)
Definition ripple_one_word (i : nat) (s : list Z * Z) : outcome (list Z * Z) :=
  let '(words, carry) := s in
  if carry =? 0 then Ok (words, carry)
  else
    x ← at_index words (Z.of_nat i);
    words ← set_at_index words (Z.of_nat i) (wrap 32 (x + carry));
    Ok (words, if addition_would_overflow x carry then 1 else 0).

Definition add_into_accumulator_without_allocation (accumulator value : UnsignedBigInteger)
    : outcome (UnsignedBigInteger * UnsignedBigInteger) :=
  let '(value_length, value) := trimmed_length value in
  let accumulator := resize_with_leading_zeros accumulator value_length in
  let final_length := length (m_words accumulator) in
  ' (words, carry) ← for_range 0 value_length (fun i '(words, carry) =>
    x ← at_index (m_words value) (Z.of_nat i);
    add_one_word i x carry words) (m_words accumulator, 0);
  ' (words, carry) ← for_range value_length final_length ripple_one_word (words, carry);
  Ok (with_words accumulator (if carry =? 0 then words else words ++ [carry]), value).

(** The sum, and the two operands: the trimmed length of the shorter one is read. *)
Definition add_without_allocation (left right output : UnsignedBigInteger)
    : outcome (UnsignedBigInteger * UnsignedBigInteger * UnsignedBigInteger) :=
  if (length (m_words right) <? length (m_words left))%nat then
    ' (output, right) ← add_into_accumulator_without_allocation (set_to output left) right;
    Ok (left, right, output)
  else
    ' (output, left) ← add_into_accumulator_without_allocation (set_to output right) left;
    Ok (left, right, output).

Definition subtract_without_allocation (left right output : UnsignedBigInteger)
    : outcome (UnsignedBigInteger * UnsignedBigInteger * UnsignedBigInteger) :=
  ' (less, left, right) ← operator_lt left right;
  if less : bool then Ok (left, right, invalidate output)
  else
    let own_length := length (m_words left) in
    let other_length := length (m_words right) in
    let output := set_to_0 output in
    ' (words, borrow) ← for_range 0 own_length (fun i '(words, borrow) =>
      other_word ← (if (i <? other_length)%nat then at_index (m_words right) (Z.of_nat i) else Ok 0);
      own_word ← at_index (m_words left) (Z.of_nat i);
      let temp := own_word - other_word - borrow in
      let borrow := if 0 <=? temp then 0 else 1 in
      (* UINT32_MAX + 1 is an unsigned int *)
      let temp := if temp <? 0 then temp + wrap 32 (4294967295 + 1) else temp in
      words ← set_at_index words (Z.of_nat i) (wrap 32 temp);
      Ok (words, borrow)) (resize (m_words output) own_length, 0);
    if borrow =? 0 then Ok (left, right, with_words output words) else Panic.

(** ** Shifts *)
Definition shift_left_by_n_words (number : UnsignedBigInteger) (number_of_words : nat) (output : UnsignedBigInteger)
    : UnsignedBigInteger :=
  with_words (set_to_0 output) (replicate number_of_words 0 ++ m_words number).

Definition shift_right_by_n_words (number : UnsignedBigInteger) (number_of_words : nat) (output : UnsignedBigInteger)
    : outcome UnsignedBigInteger :=
  _ ← size_sub (length (m_words number)) number_of_words;
  Ok (with_words (set_to_0 output) (drop number_of_words (m_words number))).

Definition shift_left_get_one_word (number : UnsignedBigInteger) (num_bits : Z) (result_word_index : nat) : outcome Z :=
  if (length (m_words number) <? result_word_index)%nat || (BITS_IN_WORD <? num_bits) then Panic
  else
    from_below ← (if (0 <? result_word_index)%nat && negb (num_bits =? 0) then
        x ← at_index (m_words number) (Z.of_nat result_word_index - 1);
        Ok (Z.shiftr x (BITS_IN_WORD - num_bits))
      else Ok 0);
    from_same ← (if (result_word_index <? length (m_words number))%nat && (num_bits <? 32) then
        x ← at_index (m_words number) (Z.of_nat result_word_index);
        Ok (wrap 32 (Z.shiftl x num_bits))
      else Ok 0);
    Ok (wrap 32 (wrap 32 (0 + from_below) + from_same)).

Definition shift_left_without_allocation (number : UnsignedBigInteger) (num_bits : nat) (output : UnsignedBigInteger)
    : outcome UnsignedBigInteger :=
  let temp_result := shift_left_by_n_words number (num_bits / 32) empty_integer in
  let output := set_to output temp_result in
  let num_bits := Z.of_nat (num_bits mod 32) in
  if num_bits =? 0 then Ok output
  else
    words ← for_range 0 (length (m_words temp_result)) (fun i words =>
      word ← shift_left_get_one_word temp_result num_bits i;
      set_at_index words (Z.of_nat i) word) (m_words output);
    let output := with_words output words in
    carry_word ← shift_left_get_one_word temp_result num_bits (length (m_words temp_result));
    if carry_word =? 0 then Ok output
    else
      let temp_plus := with_words (set_to_0 empty_integer) [carry_word] in
      let temp_result := shift_left_by_n_words temp_plus (length (m_words temp_result)) temp_result in
      ' (output, _) ← add_into_accumulator_without_allocation output temp_result;
      Ok output.

Definition shift_right_without_allocation (number : UnsignedBigInteger) (num_bits : nat) (output : UnsignedBigInteger)
    : outcome UnsignedBigInteger :=
  new_size ← size_sub (length (m_words number)) (num_bits / 32);
  words ← shift_right 32 (m_words number) num_bits (resize (m_words output) new_size);
  Ok (with_words output words).

(** ** Bitwise operations *)

(** The word loop of the three operations; the other words of the longer operand are copied, or
    zeroed ([and]). *)
Definition bitwise_words (op : Z -> Z -> Z) (keep : bool) (longer shorter : list Z) : list Z :=
  zip_with op longer shorter
  ++ (if keep then drop (length shorter) longer else replicate (length longer - length shorter) 0).

Definition bitwise_without_allocation (op : Z -> Z -> Z) (keep : bool) (left right output : UnsignedBigInteger)
    : UnsignedBigInteger :=
  if m_is_invalid left then set_to output right
  else if m_is_invalid right then set_to output left
  else if (length (m_words left) <? length (m_words right))%nat then
    with_words output (bitwise_words op keep (m_words right) (m_words left))
  else with_words output (bitwise_words op keep (m_words left) (m_words right)).

Definition bitwise_or_without_allocation := bitwise_without_allocation Z.lor true.
Definition bitwise_and_without_allocation := bitwise_without_allocation Z.land false.
Definition bitwise_xor_without_allocation := bitwise_without_allocation Z.lxor true.

Definition bitwise_not_fill_to_one_based_index_without_allocation (right : UnsignedBigInteger) (index : nat)
    (output : UnsignedBigInteger) : outcome UnsignedBigInteger :=
  if m_is_invalid right then Ok (invalidate output)
  else if (index =? 0)%nat then Ok (set_to_0 output)
  else
    let size := ((index + 32 - 1) / 32)%nat in
    let word i := default 0 (m_words right !! i) in
    words ← for_range 0 (size - 1) (fun i words =>
      set_at_index words (Z.of_nat i) (wrap 32 (Z.lnot (word i)))) (resize (m_words output) size);
    let index := Z.of_nat index - (Z.of_nat size - 1) * BITS_IN_WORD in
    words ← set_at_index words (Z.of_nat size - 1)
      (Z.land (Z.shiftr (2 ^ 32 - 1) (BITS_IN_WORD - index)) (wrap 32 (Z.lnot (word (size - 1)%nat))));
    Ok (with_words output words).

(** ** Multiplication *)
Definition multiply_without_allocation (left right output : UnsignedBigInteger) : outcome UnsignedBigInteger :=
  for_range 0 (length (m_words left)) (fun word_index output =>
    for_range 0 32 (fun bit_index output =>
      word ← at_index (m_words left) (Z.of_nat word_index);
      if negb (Z.testbit word (Z.of_nat bit_index)) then Ok output
      else
        let shift_amount := (word_index * 32 + bit_index)%nat in
        temp_shift ← shift_left_without_allocation right shift_amount empty_integer;
        ' (output, _) ← add_into_accumulator_without_allocation output temp_shift;
        Ok output) output) (set_to_0 output).

(** ** Division *)
Definition divide_word (numerator denominator : Z) : outcome (Z * Z) :=
  if denominator =? 0 then Panic else Ok (numerator / denominator, numerator mod denominator).

(** The numerator, the quotient and the remainder *)
Definition divide_u16_without_allocation (numerator : UnsignedBigInteger) (denominator : Z) (quotient remainder : UnsignedBigInteger)
    : outcome (UnsignedBigInteger * UnsignedBigInteger * UnsignedBigInteger) :=
  if 2 ^ 16 <=? denominator then Panic
  else
    let '(numerator_length, numerator) := trimmed_length numerator in
    let quotient := set_to_0 quotient in
    ' (words, remainder_word) ← for_range_down 0 numerator_length (fun word_index '(words, remainder_word) =>
      word ← at_index (m_words numerator) (Z.of_nat word_index);
      let word_high := Z.shiftr word 16 in
      let word_low := Z.land word (2 ^ 16 - 1) in
      let number_to_divide_high := Z.lor (wrap 32 (Z.shiftl remainder_word 16)) word_high in
      ' (quotient_high, remainder_word) ← divide_word number_to_divide_high denominator;
      let number_to_divide_low := Z.lor (wrap 32 (Z.shiftl remainder_word 16)) word_low in
      ' (quotient_low, remainder_word) ← divide_word number_to_divide_low denominator;
      words ← set_at_index words (Z.of_nat word_index) (Z.lor (wrap 32 (Z.shiftl quotient_high 16)) quotient_low);
      Ok (words, remainder_word)) (resize (m_words quotient) numerator_length, 0);
    Ok (numerator, with_words quotient words, set_to_word remainder remainder_word).

(** The words below the top two, with the remainder of the words above *)
Definition divide_low_words (w : Z) (numerator : list Z) (divisor : Z) (n : nat) (quotient : list Z) (carry : Z)
    : outcome (list Z * Z) :=
  for_range_down 0 n (fun i '(quotient, carry) =>
    x ← at_index numerator (Z.of_nat i);
    ' (digit, carry) ← div_mod_words w x carry divisor;
    quotient ← set_at_index quotient (Z.of_nat i) digit;
    Ok (quotient, carry)) (quotient, carry).

(** Division by a word of a dividend with the top two words [u]: the quotient and the remainder *)
Definition divide_words (w : Z) (numerator quotient : list Z) (dividend_len : nat) (u divisor : Z)
    : outcome (list Z * Z) :=
  ' (top, rest) ← divide_word u divisor;
  quotient ← set_at_index quotient (Z.of_nat dividend_len - 1) (wrap w (Z.shiftr top w));
  quotient ← set_at_index quotient (Z.of_nat dividend_len - 2) (wrap w top);
  divide_low_words w numerator divisor (dividend_len - 2) quotient (wrap w rest).

(** Division by a word that is not one of a dividend of at least two words *)
Definition divide_by_word (numerator quotient remainder : list Z) (dividend_len : nat) (divisor : Z)
    : outcome (list Z * list Z) :=
  low ← at_index numerator (Z.of_nat dividend_len - 2);
  high ← at_index numerator (Z.of_nat dividend_len - 1);
  ' (quotient, carry) ← divide_words BITS_IN_WORD numerator quotient dividend_len (dword 32 low high) divisor;
  remainder ← set_at_index remainder 0 carry;
  Ok (quotient, remainder).

(** The numerator, the denominator, the quotient and the remainder *)
Definition divide_without_allocation (numerator denominator quotient remainder : UnsignedBigInteger)
    : outcome (UnsignedBigInteger * UnsignedBigInteger * UnsignedBigInteger * UnsignedBigInteger) :=
  let '(dividend_len, numerator) := trimmed_length numerator in
  let '(divisor_len, denominator) := trimmed_length denominator in
  if (divisor_len =? 0)%nat then Panic
  else
    first ← at_index (m_words denominator) 0;
    if (divisor_len =? 1)%nat && (first =? 1) then
      Ok (numerator, denominator, set_to quotient numerator, set_to_0 remainder)
    else if (dividend_len <? divisor_len)%nat then
      Ok (numerator, denominator, set_to_0 quotient, set_to remainder numerator)
    else if (divisor_len =? 1)%nat && (dividend_len =? 1)%nat then
      x ← at_index (m_words numerator) 0;
      ' (q, r) ← divide_word x first;
      Ok (numerator, denominator, set_to_word quotient q, set_to_word remainder r)
    else if (divisor_len =? 1)%nat then
      let quotient := resize_with_leading_zeros quotient dividend_len in
      let remainder := resize_with_leading_zeros remainder 1 in
      ' (q, r) ← divide_by_word (m_words numerator) (m_words quotient) (m_words remainder) dividend_len first;
      Ok (numerator, denominator, with_words quotient q, with_words remainder r)
    else
      let dividend := resize_with_leading_zeros numerator (dividend_len + 1) in
      let quotient := resize_with_leading_zeros quotient (dividend_len - divisor_len + 1) in
      let remainder := resize_with_leading_zeros remainder divisor_len in
      ' (q, r) ← div_mod_internal 32 (m_words dividend) (m_words denominator) (m_words quotient) (m_words remainder)
        dividend_len divisor_len;
      Ok (numerator, denominator, with_words quotient q, with_words remainder r).

(** ** The operations of the class, with fresh results *)
Definition plus (u other : UnsignedBigInteger) : outcome (UnsignedBigInteger * UnsignedBigInteger * UnsignedBigInteger) :=
  add_without_allocation u other empty_integer.
Definition minus (u other : UnsignedBigInteger) : outcome (UnsignedBigInteger * UnsignedBigInteger * UnsignedBigInteger) :=
  subtract_without_allocation u other empty_integer.
Definition bitwise_or (u other : UnsignedBigInteger) : UnsignedBigInteger :=
  bitwise_or_without_allocation u other empty_integer.
Definition bitwise_and (u other : UnsignedBigInteger) : UnsignedBigInteger :=
  bitwise_and_without_allocation u other empty_integer.
Definition bitwise_xor (u other : UnsignedBigInteger) : UnsignedBigInteger :=
  bitwise_xor_without_allocation u other empty_integer.
Definition bitwise_not_fill_to_one_based_index (u : UnsignedBigInteger) (size : nat) : outcome UnsignedBigInteger :=
  bitwise_not_fill_to_one_based_index_without_allocation u size empty_integer.
Definition big_shift_left (u : UnsignedBigInteger) (num_bits : nat) : outcome UnsignedBigInteger :=
  shift_left_without_allocation u num_bits empty_integer.
Definition big_shift_right (u : UnsignedBigInteger) (num_bits : nat) : outcome UnsignedBigInteger :=
  shift_right_without_allocation u num_bits empty_integer.
Definition multiplied_by (u other : UnsignedBigInteger) : outcome UnsignedBigInteger :=
  multiply_without_allocation u other empty_integer.

(** The dividend, the divisor, the quotient and the remainder *)
Definition divided_by (u divisor : UnsignedBigInteger)
    : outcome (UnsignedBigInteger * UnsignedBigInteger * UnsignedBigInteger * UnsignedBigInteger) :=
  let '(divisor_len, divisor) := trimmed_length divisor in
  small ← (if (divisor_len =? 1)%nat then
      x ← at_index (m_words divisor) 0;
      Ok (if x <? 2 ^ 16 then Some x else None)
    else Ok None);
  match small with
  | Some x =>
      ' (u, quotient, remainder) ← divide_u16_without_allocation u x empty_integer empty_integer;
      Ok (u, divisor, quotient, remainder)
  | None => divide_without_allocation u divisor empty_integer empty_integer
  end.

Example division_example :
  match divided_by (mk_UnsignedBigInteger [7; 200; 3; 9; 0] false None) (mk_UnsignedBigInteger [5; 130; 0] false None) with
  | Ok (_, _, q, r) => value 32 (m_words q) * value 32 [5; 130] + value 32 (m_words r) = value 32 [7; 200; 3; 9]
  | _ => False
  end.
Proof. vm_compute. reflexivity. Qed.

(** ** The value of an integer *)
Notation word_ok := (in_width 32).

Lemma word_width : 0 < 32.
Proof. lia. Qed.
#[export] Hint Resolve word_width : core.

Definition holds (u : UnsignedBigInteger) (v : Z) : Prop :=
  words_ok 32 (m_words u) /\ value 32 (m_words u) = v /\ m_is_invalid u = false.

Definition cache_ok (u : UnsignedBigInteger) : Prop :=
  match m_cached_trimmed_length u with None => True | Some n => n = trimmed (m_words u) end.

Definition represents (u : UnsignedBigInteger) (v : Z) : Prop := holds u v /\ cache_ok u.

(** The same integer, with a right cache *)
Definition refreshed (u u' : UnsignedBigInteger) : Prop :=
  m_words u' = m_words u /\ m_is_invalid u' = m_is_invalid u /\ cache_ok u'.

Lemma refreshed_represents u u' v : holds u v -> refreshed u u' -> represents u' v.
Proof. intros (Hok & Hv & Hi) (Hw & Hi' & Hc). split; [|done]. split; [by rewrite Hw|]. by rewrite Hw, Hi', Hv, Hi. Qed.

Lemma refreshed_refl u : cache_ok u -> refreshed u u.
Proof. done. Qed.

Lemma refreshed_trans u u1 u2 : refreshed u u1 -> refreshed u1 u2 -> refreshed u u2.
Proof. intros (H1 & H2 & _) (H3 & H4 & H5). split; [congruence|]. split; [congruence|done]. Qed.

#[export] Hint Resolve refreshed_refl refreshed_trans refreshed_represents : bigint.

Lemma represents_holds u v : represents u v -> holds u v.
Proof. by intros [? _]. Qed.
#[export] Hint Resolve represents_holds : bigint.

Lemma holds_nonneg u v : holds u v -> 0 <= v.
Proof. intros (Hok & <- & _). by apply value_bound. Qed.

Lemma holds_empty : represents empty_integer 0.
Proof. split; [|done]. split; [constructor|done]. Qed.

Lemma from_word_holds x : word_ok x -> represents (from_word x) x.
Proof. intros Hx. split; [|done]. split; [apply Forall_singleton; done|]. cbn. split; [lia|done]. Qed.

Lemma holds_set_to u other v : holds other v -> represents (set_to u other) v.
Proof. intros H. split; [exact H|done]. Qed.

(** ** The trimmed length *)
Lemma num_leading_zeroes_spec l :
  (num_leading_zeroes l <= length l)%nat /\ Forall (eq 0) (take (num_leading_zeroes l) l)
  /\ (forall x, l !! num_leading_zeroes l = Some x -> x <> 0).
Proof.
  induction l as [|x l (Hle & Hz & Hx)]; cbn [num_leading_zeroes]; [by split|].
  destruct (Z.eqb_spec x 0) as [-> |Hne].
  - split; [cbn; lia|]. split; [by constructor|done].
  - split; [lia|]. split; [by constructor|]. cbn. intros y [= <-]. done.
Qed.

Lemma trimmed_spec l :
  (trimmed l <= length l)%nat /\ Forall (eq 0) (drop (trimmed l) l)
  /\ (forall x, l !! (trimmed l - 1)%nat = Some x -> (0 < trimmed l)%nat -> x <> 0).
Proof.
  destruct (num_leading_zeroes_spec (rev l)) as (Hle & Hz & Hx). rewrite length_rev in Hle. unfold trimmed.
  set (k := num_leading_zeroes (rev l)) in *. split; [lia|]. split.
  - rewrite firstn_rev in Hz. apply Forall_rev in Hz. by rewrite rev_involutive in Hz.
  - intros x Hl Hpos. apply Hx. rewrite rev_alt. change (rev_append l []) with (reverse l). rewrite reverse_lookup by lia.
    replace (length l - S k)%nat with (length l - k - 1)%nat by lia. done.
Qed.

Lemma trimmed_value l : value 32 l = value 32 (take (trimmed l) l).
Proof.
  destruct (trimmed_spec l) as (_ & Hz & _). rewrite (value_split 32 word_width (trimmed l) l).
  rewrite (value_all_zero 32 _ Hz). lia.
Qed.

Lemma trimmed_top l :
  (0 < trimmed l)%nat -> exists x, l !! (trimmed l - 1)%nat = Some x /\ x <> 0.
Proof.
  intros Hpos. destruct (trimmed_spec l) as (Hle & _ & Hx).
  destruct (lookup_lt_is_Some_2 l (trimmed l - 1)%nat ltac:(lia)) as [x Hl]. exists x. split; [done|]. by apply Hx.
Qed.

Lemma trimmed_upper l : words_ok 32 l -> 0 <= value 32 l < weight 32 (trimmed l).
Proof. intros Hok. destruct (trimmed_spec l) as (Hle & Hz & _). by apply value_below. Qed.

Lemma trimmed_lower l : words_ok 32 l -> (0 < trimmed l)%nat -> weight 32 (trimmed l - 1) <= value 32 l.
Proof.
  intros Hok Hpos. destruct (trimmed_spec l) as (Hle & Hz & _). destruct (trimmed_top l Hpos) as (x & Hx & Hne).
  destruct (value_top_word 32 word_width l (trimmed l) x Hok Hpos Hx (value_all_zero 32 _ Hz)) as (low & -> & Hlow).
  pose proof (words_ok_lookup 32 l _ x Hok Hx) as Hr. unfold in_width in Hr. pose proof (weight_pos 32 word_width (trimmed l - 1)). nia.
Qed.

(** The trimmed length is a function of the value, increasing. *)
Lemma trimmed_lt l1 l2 :
  words_ok 32 l1 -> words_ok 32 l2 -> (trimmed l1 < trimmed l2)%nat -> value 32 l1 < value 32 l2.
Proof.
  intros H1 H2 Hlt. pose proof (trimmed_upper l1 H1). pose proof (trimmed_lower l2 H2 ltac:(lia)).
  pose proof (weight_le 32 word_width (trimmed l1) (trimmed l2 - 1) ltac:(lia)). lia.
Qed.

Lemma trimmed_unique l1 l2 :
  words_ok 32 l1 -> words_ok 32 l2 -> value 32 l1 = value 32 l2 -> trimmed l1 = trimmed l2.
Proof.
  intros H1 H2 E. destruct (Nat.lt_trichotomy (trimmed l1) (trimmed l2)) as [Hlt|[Heq|Hlt]]; [|done|].
  - pose proof (trimmed_lt l1 l2 H1 H2 Hlt). lia.
  - pose proof (trimmed_lt l2 l1 H2 H1 Hlt). lia.
Qed.

Lemma trimmed_zero l : words_ok 32 l -> trimmed l = 0%nat <-> value 32 l = 0.
Proof.
  intros Hok. split; intros H.
  - pose proof (trimmed_upper l Hok) as Hu. rewrite H, weight_0 in Hu. lia.
  - destruct (decide (trimmed l = 0%nat)) as [|Hne]; [done|]. pose proof (trimmed_lower l Hok ltac:(lia)).
    pose proof (weight_pos 32 word_width (trimmed l - 1)). lia.
Qed.

Lemma trimmed_length_spec u :
  cache_ok u -> exists u', trimmed_length u = (trimmed (m_words u), u') /\ refreshed u u'
    /\ m_cached_trimmed_length u' = Some (trimmed (m_words u)).
Proof.
  unfold trimmed_length, cache_ok. destruct (m_cached_trimmed_length u) as [n|] eqn:E.
  - intros ->. exists u. split; [done|]. split; [|done]. split; [done|]. split; [done|]. unfold cache_ok. by rewrite E.
  - intros _. eexists. split; [done|]. by split.
Qed.

Lemma value_inj l1 l2 :
  words_ok 32 l1 -> words_ok 32 l2 -> length l1 = length l2 -> value 32 l1 = value 32 l2 -> l1 = l2.
Proof.
  intros H1 H2 Hlen E. apply list_eq. intros j.
  pose proof (digit_lookup 32 word_width l1 j H1) as D1. pose proof (digit_lookup 32 word_width l2 j H2) as D2.
  rewrite E, D2 in D1. destruct (decide (j < length l1)%nat) as [Hj|Hj].
  - destruct (lookup_lt_is_Some_2 l1 j Hj) as [x Hx]. destruct (lookup_lt_is_Some_2 l2 j ltac:(lia)) as [y Hy].
    rewrite Hx, Hy in *. cbn in D1. by rewrite D1.
  - by rewrite !lookup_ge_None_2 by lia.
Qed.

(** ** Comparisons *)
Lemma words_equal_runs l1 l2 n :
  words_ok 32 l1 -> words_ok 32 l2 -> trimmed l1 = n -> trimmed l2 = n ->
  words_equal n l1 l2 = Ok (value 32 l1 =? value 32 l2).
Proof.
  intros H1 H2 E1 E2. unfold words_equal. destruct (trimmed_spec l1) as (Hl1 & _). destruct (trimmed_spec l2) as (Hl2 & _).
  rewrite (proj2 (Nat.ltb_ge (length l1) n)), (proj2 (Nat.ltb_ge (length l2) n)) by lia. cbn [orb]. f_equal.
  rewrite (trimmed_value l1), (trimmed_value l2), E1, E2. apply eq_true_iff_eq. rewrite bool_decide_eq_true, Z.eqb_eq.
  split; [by intros ->|]. intros E. apply value_inj; [auto with bigint..|rewrite !length_take; lia|done].
Qed.

Lemma operator_eq_runs u1 u2 v1 v2 :
  represents u1 v1 -> represents u2 v2 ->
  runs (operator_eq u1 u2) (fun '(e, u1', u2') => e = (v1 =? v2) /\ refreshed u1 u1' /\ refreshed u2 u2').
Proof.
  intros [(H1 & E1 & I1) C1] [(H2 & E2 & I2) C2]. unfold operator_eq. rewrite I1, I2. cbn [Bool.eqb negb].
  destruct (trimmed_length_spec u1 C1) as (u1' & -> & R1 & _). destruct (trimmed_length_spec u2 C2) as (u2' & -> & R2 & _).
  destruct (Nat.eqb_spec (trimmed (m_words u1)) (trimmed (m_words u2))) as [E|E].
  - destruct R1 as (W1 & R1). destruct R2 as (W2 & R2). rewrite W1, W2, words_equal_runs by done. ret. apply runs_ret.
    rewrite E1, E2. done.
  - apply runs_ret. split; [|done]. symmetry. apply Z.eqb_neq. intros Hv. apply E, trimmed_unique; [done|done|]. lia.
Qed.

Lemma words_less_runs l1 l2 i :
  words_ok 32 l1 -> words_ok 32 l2 -> (i <= length l1)%nat -> (i <= length l2)%nat ->
  words_less i l1 l2 = Ok (value 32 (take i l1) <? value 32 (take i l2)).
Proof.
  intros H1 H2. induction i as [|i IH]; intros Hl1 Hl2; [done|]. cbn [words_less].
  destruct (at_index_some l1 i ltac:(lia)) as (x & Hx & ->). destruct (at_index_some l2 i ltac:(lia)) as (y & Hy & ->). cbn.
  rewrite !value_take_S, Hx, Hy by done. cbn [from_option id].
  pose proof (value_bound 32 word_width _ (words_ok_take 32 l1 i H1)) as B1. rewrite length_take_le in B1 by lia.
  pose proof (value_bound 32 word_width _ (words_ok_take 32 l2 i H2)) as B2. rewrite length_take_le in B2 by lia.
  pose proof (weight_pos 32 word_width i) as HP. set (P := weight 32 i) in *. destruct (Z.eqb_spec x y) as [-> |Hne].
  - rewrite IH by lia. f_equal. apply eq_true_iff_eq. rewrite !Z.ltb_lt. lia.
  - f_equal. apply eq_true_iff_eq. rewrite !Z.ltb_lt. split; intros H; nia.
Qed.

Lemma operator_lt_runs u1 u2 v1 v2 :
  represents u1 v1 -> represents u2 v2 ->
  runs (operator_lt u1 u2) (fun '(e, u1', u2') => e = (v1 <? v2) /\ refreshed u1 u1' /\ refreshed u2 u2').
Proof.
  intros [(H1 & E1 & I1) C1] [(H2 & E2 & I2) C2]. unfold operator_lt.
  destruct (trimmed_length_spec u1 C1) as (u1' & -> & R1 & _). destruct (trimmed_length_spec u2 C2) as (u2' & -> & R2 & _).
  destruct (Nat.ltb_spec (trimmed (m_words u1)) (trimmed (m_words u2))) as [Hlt|Hge].
  { apply runs_ret. split; [|done]. symmetry. apply Z.ltb_lt. pose proof (trimmed_lt _ _ H1 H2 Hlt). lia. }
  destruct (Nat.ltb_spec (trimmed (m_words u2)) (trimmed (m_words u1))) as [Hlt|Hge2].
  { apply runs_ret. split; [|done]. symmetry. apply Z.ltb_ge. pose proof (trimmed_lt _ _ H2 H1 Hlt). lia. }
  destruct (trimmed_spec (m_words u1)) as (Hl1 & _). destruct (trimmed_spec (m_words u2)) as (Hl2 & _).
  assert (E : trimmed (m_words u1) = trimmed (m_words u2)) by lia.
  destruct R1 as (W1 & R1). destruct R2 as (W2 & R2). rewrite W1, W2, words_less_runs by (done || lia). ret. apply runs_ret.
  split; [|done]. rewrite <- trimmed_value, E, <- trimmed_value. by rewrite E1, E2.
Qed.

(** ** Addition *)
Lemma resize_value words n :
  words_ok 32 words -> (length words <= n)%nat ->
  words_ok 32 (resize words n) /\ value 32 (resize words n) = value 32 words /\ length (resize words n) = n.
Proof.
  intros Hok Hlen. unfold resize. rewrite take_ge by done. split; [auto with bigint|].
  rewrite value_app, value_replicate, length_app, length_replicate by done. lia.
Qed.

Lemma resize_with_leading_zeros_spec u n :
  words_ok 32 (m_words u) ->
  let u' := resize_with_leading_zeros u n in
  words_ok 32 (m_words u') /\ value 32 (m_words u') = value 32 (m_words u)
  /\ length (m_words u') = Nat.max (length (m_words u)) n
  /\ m_is_invalid u' = m_is_invalid u /\ m_cached_trimmed_length u' = m_cached_trimmed_length u.
Proof.
  intros Hok. unfold resize_with_leading_zeros. destruct (Nat.ltb_spec (length (m_words u)) n) as [Hlt|Hge]; cbn.
  - destruct (resize_value (m_words u) n Hok ltac:(lia)) as (H1 & H2 & H3). repeat split; [done|done|lia].
  - repeat split; [done|lia].
Qed.

Lemma add_one_word_runs i x c words :
  words_ok 32 words -> (i < length words)%nat -> word_ok x -> (c = 0 \/ c = 1) ->
  runs (add_one_word i x c words) (fun '(words', c') => length words' = length words /\ words_ok 32 words'
    /\ (c' = 0 \/ c' = 1) /\ value 32 words' + c' * weight 32 (S i) = value 32 words + (x + c) * weight 32 i).
Proof.
  intros Hok Hi Hx Hc. unfold add_one_word, addition_would_overflow. destruct (at_index_some words i Hi) as (y & Hy & ->). ret.
  pose proof (words_ok_lookup 32 words i y Hok Hy) as Hyr. rewrite set_at_index_Ok by done. ret. apply runs_ret.
  rewrite length_insert. split; [done|]. split; [apply words_ok_insert; [done|]; by apply wrap_range|].
  rewrite (value_insert 32 word_width words i y _ Hy), weight_S by done. unfold in_width in *.
  assert (H : forall a b, wrap 32 (a + b) = a + b - 2 ^ 32 * ((a + b) / 2 ^ 32)).
  { intros a b. unfold wrap. pose proof (Z.div_mod (a + b) (2 ^ 32) ltac:(lia)). lia. }
  rewrite (H x y). set (s := x + y - 2 ^ 32 * ((x + y) / 2 ^ 32)).
  assert (Hs : if 2 ^ 32 <=? x + y then s = x + y - 2 ^ 32 else s = x + y).
  { unfold s. destruct (Z.leb_spec (2 ^ 32) (x + y)).
    - assert ((x + y) / 2 ^ 32 = 1) as ->; [|lia]. symmetry. apply Z.div_unique with (x + y - 2 ^ 32); lia.
    - rewrite Z.div_small; lia. }
  clearbody s. rewrite (H s c). set (P := weight 32 i).
  assert (Ht : if 2 ^ 32 <=? s + c then (s + c) / 2 ^ 32 = 1 else (s + c) / 2 ^ 32 = 0).
  { assert (0 <= s < 2 ^ 32) by (destruct (Z.leb_spec (2 ^ 32) (x + y)); lia).
    destruct (Z.leb_spec (2 ^ 32) (s + c)); [symmetry; apply Z.div_unique with (s + c - 2 ^ 32)|apply Z.div_small]; lia. }
  destruct (Z.leb_spec (2 ^ 32) (s + c)), (Z.leb_spec (2 ^ 32) (x + y)); rewrite Ht; split; try lia; nia.
Qed.

Lemma ripple_one_word_runs i words c :
  words_ok 32 words -> (i < length words)%nat -> (c = 0 \/ c = 1) ->
  runs (ripple_one_word i (words, c)) (fun '(words', c') => length words' = length words /\ words_ok 32 words'
    /\ (c' = 0 \/ c' = 1) /\ value 32 words' + c' * weight 32 (S i) = value 32 words + c * weight 32 i).
Proof.
  intros Hok Hi Hc. unfold ripple_one_word, addition_would_overflow. destruct (Z.eqb_spec c 0) as [-> |Hne].
  { apply runs_ret. split; [done|]. split; [done|]. split; [by left|lia]. }
  destruct (at_index_some words i Hi) as (y & Hy & ->). ret.
  pose proof (words_ok_lookup 32 words i y Hok Hy) as Hyr. rewrite set_at_index_Ok by done. ret. apply runs_ret.
  rewrite length_insert. split; [done|]. split; [apply words_ok_insert; [done|]; by apply wrap_range|].
  rewrite (value_insert 32 word_width words i y _ Hy), weight_S by done. unfold in_width, wrap in *.
  pose proof (Z.div_mod (y + c) (2 ^ 32) ltac:(lia)) as Hdm.
  destruct (Z.leb_spec (2 ^ 32) (y + c)).
  - assert ((y + c) / 2 ^ 32 = 1) as E by (symmetry; apply Z.div_unique with (y + c - 2 ^ 32); lia). rewrite E in Hdm.
    split; [by right|]. nia.
  - rewrite Z.div_small in Hdm by lia. split; [by left|]. nia.
Qed.

Lemma add_into_accumulator_runs acc val a b :
  holds acc a -> represents val b ->
  runs (add_into_accumulator_without_allocation acc val) (fun '(acc', val') =>
    holds acc' (a + b) /\ m_cached_trimmed_length acc' = m_cached_trimmed_length acc /\ refreshed val val').
Proof.
  intros (Hok & Ha & Hi) [(Hvok & Hb & Hvi) Hc]. unfold add_into_accumulator_without_allocation.
  destruct (trimmed_length_spec val Hc) as (val' & -> & R & _). set (n := trimmed (m_words val)).
  destruct (resize_with_leading_zeros_spec acc n Hok) as (Hok1 & Hv1 & Hl1 & Hi1 & Hc1).
  set (acc1 := resize_with_leading_zeros acc n) in *. destruct R as (W & R). rewrite W.
  destruct (trimmed_spec (m_words val)) as (Hn & _). fold n in Hn.
  eapply runs_bind.
  { apply (for_range_runs (fun i '(words, c) => length words = length (m_words acc1) /\ words_ok 32 words /\ (c = 0 \/ c = 1)
      /\ value 32 words + c * weight 32 i = a + value 32 (take i (m_words val)))); [lia| |].
    - split; [done|]. split; [done|]. split; [by left|]. rewrite take_0. cbn [value]. lia.
    - intros i [words c] Hi2 (Hl & Hwok & Hcc & HV).
      destruct (at_index_some (m_words val) i ltac:(lia)) as (x & Hx & ->). ret.
      eapply runs_mono; [apply add_one_word_runs; [done|lia|exact (words_ok_lookup 32 _ _ _ Hvok Hx)|done]|].
      intros [words' c'] (Hl' & Hok' & Hc' & HV'). rewrite Hl'. split; [done|]. split; [done|]. split; [done|].
      rewrite value_take_S, Hx, HV' by done. cbn [from_option id]. lia. }
  intros [words c] (Hl & Hwok & Hcc & HV). unfold n in HV. rewrite <- trimmed_value, Hb in HV. fold n in HV.
  eapply runs_bind.
  { apply (for_range_runs (fun i '(words, c) => length words = length (m_words acc1) /\ words_ok 32 words /\ (c = 0 \/ c = 1)
      /\ value 32 words + c * weight 32 i = a + b)); [lia|done|].
    intros i [words2 c2] Hi2 (Hl2 & Hwok2 & Hcc2 & HV2).
    eapply runs_mono; [apply ripple_one_word_runs; [done|lia|done]|]. intros [w3 c3] (H1 & H2 & H3 & H4).
    rewrite H1. split; [done|]. split; [done|]. split; [done|]. lia. }
  intros [words2 c2] (Hl2 & Hwok2 & Hcc2 & HV2). apply runs_ret. split; [|split; [done|done]].
  destruct (Z.eqb_spec c2 0) as [-> |Hne].
  - split; [done|]. split; [cbn; lia|]. cbn. by rewrite Hi1.
  - split; [|split; [|cbn; by rewrite Hi1]].
    + apply words_ok_app; [done|]. apply Forall_singleton. unfold in_width. lia.
    + cbn [with_words m_words]. rewrite value_app by done. cbn [value]. rewrite <- Hl2 in HV2. lia.
Qed.

Lemma cache_none u v : holds u v -> m_cached_trimmed_length u = None -> represents u v.
Proof. intros H E. split; [done|]. unfold cache_ok. by rewrite E. Qed.

Lemma add_without_allocation_runs left right output a b :
  represents left a -> represents right b ->
  runs (add_without_allocation left right output) (fun '(left', right', output') =>
    refreshed left left' /\ refreshed right right' /\ represents output' (a + b)).
Proof.
  intros Ha Hb. pose proof Ha as [Ha' Hca]. pose proof Hb as [Hb' Hcb]. unfold add_without_allocation.
  destruct (_ <? _)%nat; (eapply runs_bind;
    [apply add_into_accumulator_runs; [by apply represents_holds, holds_set_to|done]|]).
  - intros [o r] (Ho & Hco & Hr). apply runs_ret. split; [done|]. split; [done|]. by apply cache_none.
  - intros [o l] (Ho & Hco & Hl). apply runs_ret. split; [done|]. split; [done|]. rewrite Z.add_comm. by apply cache_none.
Qed.

(** ** Subtraction *)
(** The state of the word loop: the words below [i] hold the difference, less the borrow. *)
Definition subtracting (left right : list Z) (i : nat) (s : list Z * Z) : Prop :=
  let '(words, c) := s in
  length words = length left /\ words_ok 32 words /\ (c = 0 \/ c = 1)
  /\ value 32 (take i words) - c * weight 32 i = value 32 (take i left) - value 32 (take i right).

Lemma word_or_zero l i :
  words_ok 32 l ->
  exists y, (if (i <? length l)%nat then at_index l (Z.of_nat i) else Ok 0) = Ok y
    /\ default 0 (l !! i) = y /\ word_ok y.
Proof.
  intros Hok. destruct (Nat.ltb_spec i (length l)) as [Hlt|Hge].
  - destruct (at_index_some l i Hlt) as (y & Hy & ->). exists y. rewrite Hy.
    split; [done|]. split; [done|]. exact (words_ok_lookup 32 _ _ _ Hok Hy).
  - exists 0. rewrite lookup_ge_None_2 by done. unfold in_width. repeat split; lia.
Qed.

Lemma subtracting_step left right i x y words c :
  subtracting left right i (words, c) -> (i < length left)%nat ->
  left !! i = Some x -> default 0 (right !! i) = y -> word_ok x -> word_ok y ->
  let temp := x - y - c in
  subtracting left right (S i)
    (<[i := wrap 32 (if temp <? 0 then temp + wrap 32 (4294967295 + 1) else temp)]> words, if 0 <=? temp then 0 else 1).
Proof.
  intros (Hlen & Hok & Hc & HV) Hi Hx Hy Hxr Hyr temp. unfold subtracting. rewrite length_insert. split; [done|].
  split; [apply words_ok_insert; [done|by apply wrap_range]|].
  rewrite value_take_insert, !value_take_S, weight_S, Hx, Hy by (done || lia). cbn [from_option id].
  unfold in_width, wrap in *. change ((4294967295 + 1) mod 2 ^ 32) with 0. rewrite Z.add_0_r. subst temp.
  destruct (Z.leb_spec 0 (x - y - c)); (rewrite (proj2 (Z.ltb_ge _ 0)) by lia) || (rewrite (proj2 (Z.ltb_lt _ 0)) by lia).
  - rewrite Z.mod_small by lia. split; [by left|]. nia.
  - assert ((x - y - c) mod 2 ^ 32 = x - y - c + 2 ^ 32) as -> by (symmetry; apply Z.mod_unique with (-1); lia).
    split; [by right|]. nia.
Qed.

(** When the difference is not negative the last borrow is zero. *)
Lemma subtracting_end left right words c :
  words_ok 32 left -> words_ok 32 right -> value 32 right <= value 32 left ->
  subtracting left right (length left) (words, c) -> c = 0 /\ value 32 words = value 32 left - value 32 right.
Proof.
  intros Hl Hr Hle (Hlen & Hok & Hc & HV). rewrite firstn_all, (take_ge words) in HV by lia.
  pose proof (value_bound 32 word_width words Hok) as Hwb. rewrite Hlen in Hwb.
  pose proof (value_bound 32 word_width left Hl) as Hlb. set (n := length left) in *.
  assert (Hrn : value 32 (take n right) = value 32 right).
  { pose proof (value_split 32 word_width n right) as Hsp.
    pose proof (value_bound 32 word_width _ (words_ok_drop 32 _ n Hr)) as [H0 _].
    pose proof (value_bound 32 word_width _ (words_ok_take 32 _ n Hr)) as [H1 _].
    destruct (Nat.le_gt_cases (length right) n); [by rewrite take_ge by lia|].
    rewrite Nat.min_l in Hsp by lia. pose proof (weight_pos 32 word_width n).
    assert (value 32 (drop n right) = 0) as E by nia. rewrite E in Hsp. lia. }
  rewrite Hrn in HV. assert (c = 0) by nia. lia.
Qed.

Lemma subtract_without_allocation_runs left right output a b :
  represents left a -> represents right b ->
  runs (subtract_without_allocation left right output) (fun '(left', right', output') =>
    refreshed left left' /\ refreshed right right' /\
    if a <? b then output' = invalidate output
    else represents output' (a - b) /\ length (m_words output') = length (m_words left)
         /\ m_cached_trimmed_length output' = None).
Proof.
  intros Ha Hb. unfold subtract_without_allocation.
  eapply runs_bind; [by apply operator_lt_runs|]. intros [[e left'] right'] (-> & Hl & Hr).
  destruct (Z.ltb_spec a b) as [Hlt|Hge]; [by apply runs_ret|].
  destruct Ha as [(Haok & Ha & Hai) _]. destruct Hb as [(Hbok & Hb & Hbi) _].
  destruct Hl as (Wl & Hl). destruct Hr as (Wr & Hr). rewrite Wl, Wr.
  eapply runs_bind.
  { apply (for_range_runs (subtracting (m_words left) (m_words right))); [lia| |].
    - destruct (resize_value [] (length (m_words left)) ltac:(constructor) ltac:(cbn; lia)) as (H1 & H2 & H3).
      cbn [set_to_0 m_words]. split; [done|]. split; [done|]. split; [by left|]. rewrite !take_0. cbn. lia.
    - intros i [words c] Hi HI. destruct (word_or_zero (m_words right) i Hbok) as (y & -> & Hy & Hyr). ret.
      destruct (at_index_some (m_words left) i ltac:(lia)) as (x & Hx & ->). ret. pose proof HI as (Hlen & _).
      rewrite set_at_index_Ok by lia. ret. apply runs_ret. apply subtracting_step; (done || lia || idtac).
      exact (words_ok_lookup 32 _ _ _ Haok Hx). }
  intros [words c] HI. destruct (subtracting_end _ _ _ _ Haok Hbok ltac:(lia) HI) as [-> HV]. destruct HI as (Hlen & Hok & _).
  cbn [Z.eqb]. apply runs_ret. split; [done|]. split; [done|]. split; [|done]. split; [|done]. split; [done|].
  cbn. split; [lia|done].
Qed.

(** ** Shifts *)
Lemma shift_left_by_n_words_holds u n output v :
  holds u v -> represents (shift_left_by_n_words u n output) (v * weight 32 n).
Proof.
  intros (Hok & Hv & Hi). split; [|done]. split; [apply words_ok_app; [by apply words_ok_zeros|done]|]. split; [|done].
  cbn [shift_left_by_n_words with_words m_words].
  rewrite value_app, value_replicate, length_replicate by done. cbn [m_words]. lia.
Qed.

Ltac okb := repeat match goal with
  | |- context [kbind (Ok ?a) ?f] => change (kbind (Ok a) f) with (f a); cbv beta iota
  end.

(** A word of the shifted number is a digit of its value. *)
Lemma shift_left_get_one_word_runs u r i :
  words_ok 32 (m_words u) -> 0 < r < 32 -> (i <= length (m_words u))%nat ->
  shift_left_get_one_word u r i = Ok (digit 32 (value 32 (m_words u) * 2 ^ r) i).
Proof.
  intros Hok Hr Hi. unfold shift_left_get_one_word, BITS_IN_WORD. set (l := m_words u) in *.
  rewrite (proj2 (Nat.ltb_ge (length l) i)), (proj2 (Z.ltb_ge 32 r)), (proj2 (Z.eqb_neq r 0)), (proj2 (Z.ltb_lt r 32)) by lia.
  cbn [orb negb]. rewrite !andb_true_r.
  replace (value 32 l * 2 ^ r) with (value 32 l * (weight 32 0 * 2 ^ r)) by (rewrite weight_0; lia).
  assert (Hsame : (if (i <? length l)%nat then x ← at_index l (Z.of_nat i); Ok (wrap 32 (Z.shiftl x r)) else Ok 0)
    = Ok (wrap 32 (Z.shiftl (digit 32 (value 32 l) i) r))).
  { destruct (Nat.ltb_spec i (length l)); [by rewrite (at_digit 32) by done|]. rewrite (digit_above 32) by done. by rewrite Z.shiftl_0_l. }
  destruct i as [|i].
  - change ((0 <? 0)%nat) with false. cbv iota. okb. rewrite Hsame. okb. f_equal.
    rewrite digit_shifted_left_first by lia. rewrite (wrap_small 32 (0 + 0)), !Z.add_0_l by (unfold in_width; lia).
    apply wrap_small, (wrap_range 32). lia.
  - rewrite (proj2 (Nat.ltb_lt 0 (S i))) by lia. replace (Z.of_nat (S i) - 1) with (Z.of_nat i) by lia.
    rewrite (at_digit 32) by (done || lia). okb. rewrite Hsame. okb. f_equal. rewrite Z.add_0_l.
    rewrite digit_shifted_left by lia. rewrite (proj2 (Z.eqb_neq r 0)) by lia. rewrite !Nat.sub_0_r. cbn [Nat.sub].
    rewrite Nat.sub_0_r.
    rewrite <- (shift_words_sum 32 word_width) by (lia || by apply digit_range). replace (32 - (32 - r)) with r by lia.
    pose proof (digit_range 32 word_width (value 32 l) i) as Hd. unfold in_width in Hd.
    assert (0 <= Z.shiftr (digit 32 (value 32 l) i) (32 - r) < 2 ^ 32).
    { rewrite Z.shiftr_div_pow2 by lia. split; [apply Z.div_pos; lia|]. apply Z.div_lt_upper_bound; [lia|].
      assert (0 < 2 ^ (32 - r)) by lia. nia. }
    rewrite (wrap_small 32 (Z.shiftr _ _)) by done. apply wrap_small.
    replace (Z.shiftl (digit 32 (value 32 l) (S i)) r) with (Z.shiftl (digit 32 (value 32 l) (S i)) (32 - (32 - r))) by (f_equal; lia).
    rewrite shift_words_sum by (lia || by apply digit_range). apply Z.mod_pos_bound. lia.
Qed.

Lemma shift_left_without_allocation_runs u n output v :
  holds u v ->
  runs (shift_left_without_allocation u n output) (fun output' =>
    holds output' (v * 2 ^ Z.of_nat n) /\ m_cached_trimmed_length output' = None).
Proof.
  intros Hu. unfold shift_left_without_allocation.
  destruct (shift_left_by_n_words_holds u (n / 32) empty_integer v Hu) as [(Tok & TV & Ti) _].
  set (t := shift_left_by_n_words u (n / 32) empty_integer) in *.
  destruct (shift_amount 32 word_width n) as [Hr HE]. change (Z.to_nat 32) with 32%nat in *.
  rewrite HE. set (r := Z.of_nat (n mod 32)) in *. rewrite Z.mul_assoc, <- TV.
  destruct (Z.eqb_spec r 0) as [-> |Hne]; [apply runs_ret; by rewrite Z.mul_1_r|].
  set (X := value 32 (m_words t) * 2 ^ r). set (len := length (m_words t)).
  eapply runs_bind; [apply (for_range_runs (filled_below 32 X (m_words t))); [lia|apply filled_below_start|]|].
  { intros i l Hi HI. rewrite shift_left_get_one_word_runs by (done || lia || (subst len; lia)). ret.
    by apply filled_below_set; [lia|..]. }
  intros l HI. destruct (filled_below_value 32 word_width X (m_words t) len l HI) as (new & -> & Hnl & Hnok & Hnv); [lia|].
  rewrite drop_ge, app_nil_r by lia. rewrite shift_left_get_one_word_runs by (done || lia). ret. fold X len.
  assert (HXb : 0 <= X < weight 32 (S len)).
  { unfold X, len. rewrite weight_S by done. pose proof (value_bound 32 word_width _ Tok).
    assert (0 < 2 ^ r < 2 ^ 32) by (split; [lia|apply Z.pow_lt_mono_r; lia]). nia. }
  pose proof (weight_pos 32 word_width len) as HP. rewrite weight_S in HXb by done.
  assert (Hcarry : digit 32 X len = X / weight 32 len).
  { unfold digit. apply Z.mod_small. split; [apply Z.div_pos; lia|]. apply Z.div_lt_upper_bound; lia. }
  pose proof (Z.div_mod X (weight 32 len) ltac:(lia)) as Hdm.
  assert (Hout : forall o, holds (with_words (set_to o t) new) (X mod weight 32 len)) by (by split).
  destruct (Z.eqb_spec (digit 32 X len) 0) as [E|E].
  - apply runs_ret. rewrite Hcarry in E. rewrite E, Z.mul_0_r, Z.add_0_l in Hdm. rewrite Hdm. by split.
  - eapply runs_bind; [apply add_into_accumulator_runs; [apply Hout|apply (shift_left_by_n_words_holds _ _ _ (digit 32 X len))]|].
    + split; [apply Forall_singleton; by apply digit_range|]. cbn [with_words m_words value m_is_invalid set_to_0]. split; [lia|done].
    + intros [o x] (Ho & Hc & _). apply runs_ret. split; [|by rewrite Hc]. rewrite Hcarry in Ho.
      replace X with (X mod weight 32 len + X / weight 32 len * weight 32 len) by lia. done.
Qed.

Lemma shift_right_without_allocation_runs u n output v :
  holds u v -> (n < 32)%nat -> m_words u <> [] -> m_is_invalid output = false ->
  runs (shift_right_without_allocation u n output) (fun output' =>
    holds output' (v / 2 ^ Z.of_nat n) /\ length (m_words output') = length (m_words u)
    /\ m_cached_trimmed_length output' = m_cached_trimmed_length output).
Proof.
  intros (Hok & Hv & Hi) Hn Hne Hio. unfold shift_right_without_allocation, size_sub.
  assert (Hl : (0 < length (m_words u))%nat) by (destruct (m_words u); [done|cbn; lia]).
  rewrite (Nat.div_small n 32) by lia. cbn [Nat.ltb Nat.leb]. ret. rewrite Nat.sub_0_r.
  assert (Hres : length (resize (m_words output) (length (m_words u))) = length (m_words u)).
  { unfold resize. rewrite length_app, length_take, length_replicate. lia. }
  eapply runs_bind; [apply (shift_right_runs 32 word_width (m_words u) n); [done| |lia]|].
  - change (Z.to_nat 32) with 32%nat. by rewrite Nat.div_small by lia.
  - intros l (new & -> & Hnl & Hnok & Hnv). apply runs_ret. rewrite drop_ge, app_nil_r by lia. cbn.
    split; [|done]. split; [done|]. cbn. split; [by rewrite Hnv, Hv|done].
Qed.

Lemma for_range_panic {T} lo hi body (t : T) :
  (lo < hi)%nat -> body lo t = Panic -> for_range lo hi body t = Panic.
Proof. intros H E. unfold for_range. replace (hi - lo)%nat with (S (hi - lo - 1)) by lia. cbn [for_up]. by rewrite E. Qed.

(** A shift by a word or more resizes the result below the size that the word loop writes. *)
Lemma shift_right_panics l n result :
  words_ok 32 l -> (32 <= n)%nat -> length result = (length l - n / 32)%nat -> shift_right 32 l n result = Panic.
Proof.
  intros Hok Hn Hlen. unfold shift_right. change (Z.to_nat 32) with 32%nat.
  assert (Ho : (1 <= n / 32)%nat) by (apply Nat.div_le_lower_bound; lia).
  unfold size_sub. destruct (Nat.ltb_spec (length l) (n / 32)) as [|Hge]; [by destruct (_ =? 0)|].
  assert (Hend : forall l', length l' = (length l - n / 32)%nat ->
    for_range (length l - n / 32) (length l) (fun i l => set_at_index l (Z.of_nat i) 0) l' = Panic).
  { intros l' Hl'. apply for_range_panic; [lia|]. apply set_at_index_Panic. lia. }
  destruct (Z.of_nat (n mod 32) =? 0); okb.
  - assert (H : runs (for_range 0 (length l - n / 32) (fun i result =>
      x ← at_index l (Z.of_nat (i + n / 32)); set_at_index result (Z.of_nat i) x) result)
      (fun l' => length l' = (length l - n / 32)%nat)).
    { apply (for_range_runs (fun _ l' => length l' = (length l - n / 32)%nat)); [lia|done|].
      intros i l' Hi Hl'. destruct (at_index_some l (i + n / 32) ltac:(lia)) as (x & _ & ->). ret.
      rewrite set_at_index_Ok by lia. apply runs_ret. by rewrite length_insert. }
    destruct H as (l' & -> & Hl'). cbn. by apply Hend.
  - destruct (Nat.ltb_spec (length l - n / 32) 1) as [|Hge2]; [done|]. okb.
    assert (H : runs (for_range 0 (length l - n / 32 - 1) (fun i result =>
      x ← at_index l (Z.of_nat (i + n / 32)); y ← at_index l (Z.of_nat (i + n / 32) + 1);
      set_at_index result (Z.of_nat i) (Z.lor (Z.shiftr x (Z.of_nat (n mod 32)))
        (wrap 32 (Z.shiftl y (32 - Z.of_nat (n mod 32)))))) result)
      (fun l' => length l' = (length l - n / 32)%nat)).
    { apply (for_range_runs (fun _ l' => length l' = (length l - n / 32)%nat)); [lia|done|].
      intros i l' Hi Hl'. destruct (at_index_some l (i + n / 32) ltac:(lia)) as (x & _ & ->). ret.
      replace (Z.of_nat (i + n / 32) + 1) with (Z.of_nat (S (i + n / 32))) by lia.
      destruct (at_index_some l (S (i + n / 32)) ltac:(lia)) as (y & _ & ->). ret.
      rewrite set_at_index_Ok by lia. apply runs_ret. by rewrite length_insert. }
    destruct H as (l' & -> & Hl'). okb. replace (Z.of_nat (length l) - 1) with (Z.of_nat (length l - 1)) by lia.
    destruct (at_index_some l (length l - 1) ltac:(lia)) as (x & _ & ->). okb.
    rewrite set_at_index_Ok by lia. okb. apply Hend. by rewrite length_insert.
Qed.

(** ** Multiplication *)
Lemma low_bits_S x i :
  x mod 2 ^ Z.of_nat (S i) = x mod 2 ^ Z.of_nat i + Z.b2z (Z.testbit x (Z.of_nat i)) * 2 ^ Z.of_nat i.
Proof.
  replace (Z.of_nat (S i)) with (Z.of_nat i + 1) by lia. rewrite Z.pow_add_r, Z.rem_mul_r by lia.
  rewrite Z.testbit_spec' by lia. change (2 ^ 1) with 2. lia.
Qed.

Lemma multiply_without_allocation_runs left right output a b :
  holds left a -> holds right b ->
  runs (multiply_without_allocation left right output) (fun output' => represents output' (a * b)).
Proof.
  intros (Haok & Ha & Hai) Hb. unfold multiply_without_allocation.
  eapply runs_mono; [apply (for_range_runs (fun i output => holds output (value 32 (take i (m_words left)) * b)
    /\ m_cached_trimmed_length output = None)); [lia| |]|].
  - split; [|done]. split; [constructor|]. by rewrite take_0.
  - intros i o Hi Ho. destruct (lookup_lt_is_Some_2 (m_words left) i ltac:(lia)) as [x Hx].
    pose proof (words_ok_lookup 32 _ _ _ Haok Hx) as Hxr.
    eapply runs_mono; [apply (for_range_runs (fun j output =>
      holds output ((value 32 (take i (m_words left)) + x mod 2 ^ Z.of_nat j * weight 32 i) * b)
      /\ m_cached_trimmed_length output = None)); [lia| |]|].
    + rewrite Z.mod_1_r, Z.mul_0_l, Z.add_0_r. done.
    + intros j o2 Hj [Ho2 Hc2]. rewrite (at_index_Ok _ _ _ Hx). ret. rewrite low_bits_S.
      destruct (Z.testbit x (Z.of_nat j)); cbn [negb Z.b2z].
      * eapply runs_bind; [by apply shift_left_without_allocation_runs|]. intros t [Ht Htc].
        eapply runs_bind; [apply add_into_accumulator_runs; [done|by apply cache_none]|].
        intros [o3 t'] (Ho3 & Hc3 & _). apply runs_ret. split; [|by rewrite Hc3].
        rewrite Nat2Z.inj_add, Z.pow_add_r in Ho3 by lia. replace (Z.of_nat (i * 32)) with (32 * Z.of_nat i) in Ho3 by lia.
        fold (weight 32 i) in Ho3.
        replace ((value 32 (take i (m_words left)) + (x mod 2 ^ Z.of_nat j + 1 * 2 ^ Z.of_nat j) * weight 32 i) * b)
          with ((value 32 (take i (m_words left)) + x mod 2 ^ Z.of_nat j * weight 32 i) * b + b * (weight 32 i * 2 ^ Z.of_nat j))
          by ring. done.
      * apply runs_ret. split; [|done]. by rewrite Z.mul_0_l, Z.add_0_r.
    + cbn beta. intros o2 [Ho2 Hc2]. split; [|done]. rewrite value_take_S, Hx by done. cbn [from_option id].
      unfold in_width in Hxr. change (Z.of_nat 32) with 32 in Ho2. by rewrite Z.mod_small in Ho2 by done.
  - intros o [Ho Hc]. apply cache_none; [|done]. rewrite firstn_all, Ha in Ho. done.
Qed.
