(* ===== verification/BigIntDivision.v ===== *)
(** * Division of unsigned big integers

    The value of the quotient and the remainder that [divide_u16_without_allocation] and
    [divide_without_allocation] leave (LibCrypto/BigInt/Algorithms/Division.cpp), path by path.
    [divide_without_allocation] writes into the integers it is given: what it does not
    overwrite is part of [division_result]. *)
From S2P Require Import Prelude BigIntBase UnsignedBigInteger.

Local Open Scope Z_scope.
Local Notation word_ok := (in_width 32).

(** ** Division by a half word *)
Lemma join_halves h l : 0 <= h < 2 ^ 16 -> 0 <= l < 2 ^ 16 -> Z.lor (wrap 32 (Z.shiftl h 16)) l = h * 2 ^ 16 + l.
Proof.
  intros Hh Hl. rewrite Z.shiftl_mul_pow2 by lia. rewrite wrap_small by (unfold in_width; lia).
  rewrite Z.lor_comm, lor_disjoint by lia. lia.
Qed.

Lemma set_to_word_words u x : m_words (set_to_word u x) = [x].
Proof.
  unfold set_to_word, resize. cbn [m_words]. destruct (m_words u) as [|y l]; [done|]. cbn. by rewrite take_0.
Qed.

Lemma set_to_word_holds u x : word_ok x -> represents (set_to_word u x) x.
Proof.
  intros Hx. split; [|done]. split; [rewrite set_to_word_words; by apply Forall_singleton|].
  rewrite set_to_word_words. cbn. split; [lia|done].
Qed.

Lemma divide_word_exact x d : d <> 0 -> divide_word x d = Ok (x / d, x mod d).
Proof. intros H. unfold divide_word. by rewrite (proj2 (Z.eqb_neq d 0)). Qed.

(** Both halves of one word *)
Lemma half_word_division d r x :
  0 < d < 2 ^ 16 -> 0 <= r < d -> word_ok x ->
  let high := r * 2 ^ 16 + Z.shiftr x 16 in
  let low := high mod d * 2 ^ 16 + Z.land x (2 ^ 16 - 1) in
  0 <= high / d < 2 ^ 16 /\ 0 <= high mod d < d /\ 0 <= low / d < 2 ^ 16 /\ 0 <= low mod d < d
  /\ 0 <= Z.shiftr x 16 < 2 ^ 16 /\ 0 <= Z.land x (2 ^ 16 - 1) < 2 ^ 16
  /\ x + 2 ^ 32 * r = d * (high / d * 2 ^ 16 + low / d) + low mod d.
Proof.
  intros Hd Hr Hx high low. unfold in_width in Hx. change (2 ^ 16 - 1) with (Z.ones 16) in *.
  assert (Hxh : 0 <= Z.shiftr x 16 < 2 ^ 16).
  { rewrite Z.shiftr_div_pow2 by lia. split; [apply Z.div_pos; lia|apply Z.div_lt_upper_bound; lia]. }
  assert (Hxl : 0 <= Z.land x (Z.ones 16) < 2 ^ 16) by (rewrite Z.land_ones by lia; apply Z.mod_pos_bound; lia).
  assert (Hx2 : x = Z.shiftr x 16 * 2 ^ 16 + Z.land x (Z.ones 16)).
  { rewrite Z.shiftr_div_pow2, Z.land_ones by lia. pose proof (Z.div_mod x (2 ^ 16) ltac:(lia)). lia. }
  pose proof (Z.div_mod high d ltac:(lia)) as E1. pose proof (Z.mod_pos_bound high d ltac:(lia)) as M1.
  pose proof (Z.div_mod low d ltac:(lia)) as E2. pose proof (Z.mod_pos_bound low d ltac:(lia)) as M2.
  assert (0 <= high < d * 2 ^ 16) by (subst high; nia). assert (0 <= low < d * 2 ^ 16) by (subst low; nia).
  split; [split; [apply Z.div_pos; lia|apply Z.div_lt_upper_bound; lia]|]. split; [done|].
  split; [split; [apply Z.div_pos; lia|apply Z.div_lt_upper_bound; lia]|]. split; [done|]. split; [done|]. split; [done|].
  change (2 ^ 32) with (2 ^ 16 * 2 ^ 16). rewrite Hx2 at 1. subst low. subst high.
  set (xh := Z.shiftr x 16) in *. set (xl := Z.land x (Z.ones 16)) in *. clearbody xh xl.
  set (h := r * 2 ^ 16 + xh) in *. set (qh := h / d) in *. set (rh := h mod d) in *. clearbody qh rh.
  set (l := rh * 2 ^ 16 + xl) in *. set (ql := l / d) in *. set (rl := l mod d) in *. clearbody ql rl.
  subst h l. lia.
Qed.

Lemma drop_insert_cons {A} (l : list A) i x : (i < length l)%nat -> drop i (<[i := x]> l) = x :: drop (S i) l.
Proof. intros H. rewrite (drop_S _ x) by (by apply list_lookup_insert_eq). by rewrite drop_insert_lt by lia. Qed.

Lemma divide_u16_runs num d quotient remainder a :
  represents num a -> 0 < d < 2 ^ 16 ->
  runs (divide_u16_without_allocation num d quotient remainder) (fun '(num', q, r) =>
    refreshed num num' /\ represents q (a / d) /\ m_cached_trimmed_length q = None
    /\ represents r (a mod d) /\ m_words r = [a mod d]).
Proof.
  intros [(Hok & Ha & Hi) Hc] Hd. unfold divide_u16_without_allocation. rewrite (proj2 (Z.leb_gt _ d)) by lia.
  destruct (trimmed_length_spec num Hc) as (num' & -> & R & _). pose proof R as (W & _). rewrite W.
  set (n := trimmed (m_words num)). destruct (trimmed_spec (m_words num)) as (Hn & _). fold n in Hn.
  set (L := take n (m_words num)). assert (HL : length L = n) by (unfold L; rewrite length_take; lia).
  assert (HLok : words_ok 32 L) by (apply words_ok_take; done). cbn [set_to_0 m_words].
  destruct (resize_value [] n ltac:(constructor) ltac:(cbn; lia)) as (H1 & H2 & H3).
  eapply runs_bind.
  { apply (for_range_down_runs (fun i '(words, r) => length words = n /\ words_ok 32 words /\ 0 <= r < d
      /\ value 32 (drop i L) = d * value 32 (drop i words) + r)); [lia| |].
    - split; [done|]. split; [done|]. split; [lia|]. rewrite !drop_ge by lia. cbn. lia.
    - intros i [words r] Hi2 (Hlen & Hwok & Hr & HV).
      destruct (lookup_lt_is_Some_2 L i ltac:(lia)) as [x Hx].
      assert (Hx' : m_words num !! i = Some x) by (unfold L in Hx; by rewrite lookup_take_lt in Hx by lia).
      rewrite (at_index_Ok _ _ _ Hx'). ret. pose proof (words_ok_lookup 32 _ _ _ HLok Hx) as Hxr.
      destruct (half_word_division d r x Hd Hr Hxr) as (Hqh & Hrh & Hql & Hrl & Hxh & Hxl & HE).
      rewrite (join_halves r) by lia. rewrite divide_word_exact by lia. ret.
      rewrite (join_halves (_ mod _)) by lia. rewrite divide_word_exact by lia. ret.
      rewrite join_halves by lia. rewrite set_at_index_Ok by lia. ret. apply runs_ret. rewrite length_insert.
      split; [done|]. split; [apply words_ok_insert; [done|unfold in_width; lia]|]. split; [done|].
      rewrite drop_insert_cons by lia. rewrite (drop_S _ _ _ Hx). cbn [value]. rewrite HV.
      match type of HE with _ = d * ?q + ?m => set (qq := q) in *; set (mm := m) in * end. clearbody qq mm. lia. }
  intros [words r] (Hlen & Hwok & Hr & HV). rewrite !drop_0 in HV. unfold L, n in HV. rewrite <- trimmed_value, Ha in HV.
  assert (Hq : a / d = value 32 words) by (symmetry; apply Z.div_unique with r; lia).
  assert (Hm : a mod d = r) by (symmetry; apply Z.mod_unique with (value 32 words); lia).
  apply runs_ret. rewrite Hq, Hm, set_to_word_words. split; [done|]. split; [by split|]. split; [done|]. split; [|done].
  apply set_to_word_holds. unfold in_width. lia.
Qed.

(** ** Division by a word *)

Section word_division.
Context (w : Z) (Hw : 0 < w).

(** The top words from [i] on of the quotient [q] and the remainder [c] of those words *)
Definition word_divided (l quotient : list Z) (m : nat) (d : Z) (i : nat) (s : list Z * Z) : Prop :=
  let '(q, c) := s in
  length q = length quotient /\ words_ok w q /\ drop m q = drop m quotient
  /\ 0 <= c < d /\ value w (drop i (take m l)) = d * value w (drop i (take m q)) + c.

Lemma divide_low_words_runs l quotient m d n q0 c0 :
  words_ok w l -> (n <= m <= length l)%nat -> (m <= length quotient)%nat -> 0 < d < 2 ^ w ->
  word_divided l quotient m d n (q0, c0) ->
  runs (divide_low_words w l d n q0 c0) (word_divided l quotient m d 0).
Proof using Hw.
  intros Hok Hm Hml Hd H0. apply (for_range_down_runs (word_divided l quotient m d)); [lia|done|].
  intros i [q c] Hi (Hql & Hqo & Hqd & Hc & HV). destruct (lookup_lt_is_Some_2 l i ltac:(lia)) as [x Hx].
  rewrite (at_index_Ok _ _ _ Hx). ret. pose proof (words_ok_lookup w _ _ _ Hok Hx) as Hxr.
  rewrite div_mod_words_exact by (done || (unfold in_width; lia)). ret. rewrite set_at_index_Ok by lia. ret. apply runs_ret.
  unfold word_divided. rewrite length_insert. unfold in_width in Hxr.
  pose proof (Z.div_mod (x + 2 ^ w * c) d ltac:(lia)) as E. pose proof (Z.mod_pos_bound (x + 2 ^ w * c) d ltac:(lia)) as M.
  split; [done|]. split.
  { apply words_ok_insert; [done|]. unfold in_width. split; [apply Z.div_pos; nia|apply Z.div_lt_upper_bound; nia]. }
  split; [by rewrite drop_insert_lt by lia|]. split; [done|].
  rewrite take_insert_lt by lia. rewrite drop_insert_cons by (rewrite length_take; lia).
  rewrite (drop_S _ x) by (by rewrite lookup_take_lt by lia). cbn [value]. rewrite HV. lia.
Qed.

(** The top two words *)
Lemma take_top_two l m low high :
  (2 <= m)%nat -> l !! (m - 2)%nat = Some low -> l !! (m - 1)%nat = Some high ->
  value w (drop (m - 2) (take m l)) = low + 2 ^ w * high.
Proof using.
  intros Hm Hlow Hhigh. rewrite skipn_firstn_comm. replace (m - (m - 2))%nat with 2%nat by lia. rewrite (drop_S _ _ _ Hlow).
  replace (S (m - 2)) with (m - 1)%nat by lia. rewrite (drop_S _ _ _ Hhigh). cbn [take value]. rewrite take_0. cbn [value]. lia.
Qed.

Lemma divide_words_runs l quotient m d low high :
  words_ok w l -> words_ok w quotient -> (2 <= m <= length l)%nat -> (m <= length quotient)%nat -> 0 < d < 2 ^ w ->
  l !! (m - 2)%nat = Some low -> l !! (m - 1)%nat = Some high ->
  runs (divide_words w l quotient m (low + 2 ^ w * high) d) (fun '(q, r) =>
    length q = length quotient /\ words_ok w q /\ drop m q = drop m quotient
    /\ value w (take m q) = value w (take m l) / d /\ r = value w (take m l) mod d).
Proof using Hw.
  intros Hok Hqok Hm Hml Hd Hlow Hhigh. unfold divide_words.
  replace (Z.of_nat m - 2) with (Z.of_nat (m - 2)) by lia. replace (Z.of_nat m - 1) with (Z.of_nat (m - 1)) by lia.
  pose proof (words_ok_lookup w _ _ _ Hok Hlow) as Hlr. pose proof (words_ok_lookup w _ _ _ Hok Hhigh) as Hhr.
  rewrite divide_word_exact by lia. ret. rewrite set_at_index_Ok by lia. ret.
  rewrite set_at_index_Ok by (rewrite length_insert; lia). ret.
  pose proof (take_top_two l m low high ltac:(lia) Hlow Hhigh) as Hlv. set (u := low + 2 ^ w * high) in *.
  unfold in_width in Hlr, Hhr. set (B := 2 ^ w) in *. assert (Hu : 0 <= u < B * B) by (subst u; nia).
  pose proof (Z.div_mod u d ltac:(lia)) as Edm. pose proof (Z.mod_pos_bound u d ltac:(lia)) as Mdm.
  assert (Htop : 0 <= u / d < B * B) by (split; [apply Z.div_pos; lia|apply Z.div_lt_upper_bound; nia]).
  rewrite Z.shiftr_div_pow2, (wrap_small w (u mod d)) by (unfold in_width; fold B; lia). fold B.
  assert (Hhi : 0 <= u / d / B < B) by (split; [apply Z.div_pos; lia|apply Z.div_lt_upper_bound; lia]).
  rewrite (wrap_small w (u / d / B)) by done.
  set (q0 := <[(m - 2)%nat := wrap w (u / d)]> (<[(m - 1)%nat := u / d / B]> quotient)).
  assert (Hq0v : value w (drop (m - 2) (take m q0)) = u / d).
  { subst q0. rewrite (take_top_two _ m (wrap w (u / d)) (u / d / B)); [|lia| |].
    - fold B. unfold wrap. fold B. pose proof (Z.div_mod (u / d) B ltac:(lia)). lia.
    - apply list_lookup_insert_eq. rewrite length_insert. lia.
    - rewrite list_lookup_insert_ne by lia. apply list_lookup_insert_eq. lia. }
  eapply runs_mono; [apply (divide_low_words_runs l quotient m d); [done|lia|lia|done|]|].
  { subst q0. split; [by rewrite !length_insert|].
    split; [apply words_ok_insert; [apply words_ok_insert; done|by apply wrap_range; lia]|].
    split; [by rewrite !drop_insert_lt by lia|]. split; [done|]. rewrite Hq0v, Hlv. lia. }
  intros [q c] (Hql & Hqo & Hqd & Hc & HV). rewrite !drop_0 in HV. split; [done|]. split; [done|]. split; [done|]. split.
  - apply Z.div_unique with c; lia.
  - apply Z.mod_unique with (value w (take m q)); lia.
Qed.
End word_division.

Lemma divide_by_word_runs l quotient remainder m d :
  words_ok 32 l -> words_ok 32 quotient -> (2 <= m <= length l)%nat -> (m <= length quotient)%nat -> remainder <> [] ->
  0 < d < 2 ^ 32 ->
  runs (divide_by_word l quotient remainder m d) (fun '(q, r) =>
    length q = length quotient /\ words_ok 32 q /\ drop m q = drop m quotient
    /\ value 32 (take m q) = value 32 (take m l) / d /\ r = <[0%nat := value 32 (take m l) mod d]> remainder).
Proof.
  intros Hok Hqok Hm Hml Hr0 Hd. unfold divide_by_word, BITS_IN_WORD.
  destruct (lookup_lt_is_Some_2 l (m - 2)%nat ltac:(lia)) as [low Hlow].
  destruct (lookup_lt_is_Some_2 l (m - 1)%nat ltac:(lia)) as [high Hhigh].
  replace (Z.of_nat m - 2) with (Z.of_nat (m - 2)) by lia. replace (Z.of_nat m - 1) with (Z.of_nat (m - 1)) by lia.
  rewrite (at_index_Ok _ _ _ Hlow), (at_index_Ok _ _ _ Hhigh). ret.
  rewrite dword_exact by (done || by apply (words_ok_lookup 32 _ _ _ Hok Hlow) || by apply (words_ok_lookup 32 _ _ _ Hok Hhigh)).
  eapply runs_bind; [by apply divide_words_runs|]. intros [q c] (Hql & Hqo & Hqd & Hq & ->).
  change (set_at_index remainder 0) with (set_at_index remainder (Z.of_nat 0)).
  rewrite set_at_index_Ok by (destruct remainder; [done|cbn; lia]). ret. by apply runs_ret.
Qed.

(** ** Division *)

(** An integer that an operation may overwrite *)
Definition writable (u : UnsignedBigInteger) : Prop := words_ok 32 (m_words u) /\ m_is_invalid u = false.

Definition cache_kept (u u' : UnsignedBigInteger) : Prop :=
  m_cached_trimmed_length u' = None \/ m_cached_trimmed_length u' = m_cached_trimmed_length u.

Lemma holds_writable u v : holds u v -> writable u.
Proof. by intros (? & _ & ?). Qed.

Lemma writable_holds u n v :
  writable u -> value 32 (take n (m_words u)) = v -> Forall (eq 0) (drop n (m_words u)) -> holds u v.
Proof.
  intros [Hok Hi] Hv Hz. split; [done|]. split; [|done]. rewrite (value_split 32 word_width n), (value_all_zero 32 _ Hz). lia.
Qed.

(** What a division leaves in the quotient and the remainder: the low words of the remainder hold
    the result, words that the algorithm does not write keep their old content. *)
Definition division_result (num den q r q' r' : UnsignedBigInteger) (a b : Z) : Prop :=
  let n := trimmed (m_words den) in
  writable r' /\ value 32 (take n (m_words r')) = a mod b
  /\ (Forall (eq 0) (drop n (m_words r)) -> Forall (eq 0) (drop n (m_words r')))
  /\ cache_kept r r'
  /\ writable q' /\ (Forall (eq 0) (drop (trimmed (m_words num)) (m_words q)) -> holds q' (a / b)) /\ cache_kept q q'
  /\ (forall k, (trimmed (m_words num) <= k)%nat -> Forall (eq 0) (drop k (m_words q)) -> Forall (eq 0) (drop k (m_words q'))).

Lemma zeros_above l k n : (n <= k)%nat -> Forall (eq 0) (drop n l) -> Forall (eq 0) (drop k l).
Proof. intros Hk H. replace k with (n + (k - n))%nat by lia. rewrite <- drop_drop. by apply Forall_drop. Qed.

(** A value bounds the words that hold it. *)
Lemma small_value_zeros l k : words_ok 32 l -> value 32 l < weight 32 k -> Forall (eq 0) (drop k l).
Proof.
  intros Hok Hlt. apply (value_zero 32 word_width); [by apply words_ok_drop|].
  destruct (Nat.le_gt_cases (length l) k); [by rewrite drop_ge by done|].
  pose proof (value_split 32 word_width k l) as E. rewrite Nat.min_l in E by lia.
  pose proof (value_bound 32 word_width _ (words_ok_drop 32 _ k Hok)) as [H0 _].
  pose proof (value_bound 32 word_width _ (words_ok_take 32 _ k Hok)) as [H1 _]. pose proof (weight_pos 32 word_width k). nia.
Qed.

Lemma drop_zeros_grow l n k : Forall (eq 0) (drop n l) -> Forall (eq 0) (drop n (l ++ replicate k 0)).
Proof.
  intros H. rewrite drop_app. apply Forall_app_2; [done|]. apply Forall_drop, Forall_replicate. done.
Qed.

Lemma resize_with_leading_zeros_words u n :
  m_words (resize_with_leading_zeros u n) = m_words u ++ replicate (n - length (m_words u)) 0.
Proof.
  unfold resize_with_leading_zeros. destruct (Nat.ltb_spec (length (m_words u)) n); cbn.
  - unfold resize. by rewrite take_ge by lia.
  - replace (n - length (m_words u))%nat with 0%nat by lia. by rewrite app_nil_r.
Qed.

Section division_paths.
Context (num den q r : UnsignedBigInteger) (a b : Z).
Context (Hnum : words_ok 32 (m_words num)) (Ha : value 32 (m_words num) = a) (Hni : m_is_invalid num = false).
Context (Hden : words_ok 32 (m_words den)) (Hb : value 32 (m_words den) = b).
Context (Hq : writable q) (Hr : writable r).
Let m := trimmed (m_words num).
Let n := trimmed (m_words den).

Lemma division_by_one : b = 1 -> division_result num den q r (set_to q num) (set_to_0 r) a b.
Proof using All.
  intros ->. unfold division_result. rewrite Z.div_1_r, Z.mod_1_r. cbn [set_to_0 m_words]. rewrite take_nil, drop_nil.
  split; [split; [constructor|done]|]. split; [done|]. split; [done|]. split; [by left|]. split; [by split|].
  split; [done|]. split; [by left|]. intros k Hk _. destruct (trimmed_spec (m_words num)) as (_ & Hz & _). by eapply zeros_above.
Qed.

Lemma division_smaller : (m < n)%nat -> division_result num den q r (set_to_0 q) (set_to r num) a b.
Proof using All.
  intros Hlt. pose proof (trimmed_lt _ _ Hnum Hden Hlt) as Hab. rewrite Ha, Hb in Hab.
  pose proof (value_bound 32 word_width _ Hnum) as [H0 _]. rewrite Ha in H0. unfold division_result. fold n.
  rewrite Z.div_small, Z.mod_small by lia. cbn [set_to m_words].
  destruct (trimmed_spec (m_words num)) as (_ & Hz & _). fold m in Hz.
  assert (Hz' : Forall (eq 0) (drop n (m_words num))) by (apply (zeros_above _ _ m); [lia|done]).
  split; [by split|]. split; [|split; [done|]].
  - pose proof (value_split 32 word_width n (m_words num)) as E. rewrite (value_all_zero 32 _ Hz') in E. lia.
  - split; [by left|]. split; [split; [constructor|done]|]. split; [intros _; by split; [constructor|]|].
    split; [by left|]. intros k _ _. cbn [set_to_0 m_words]. rewrite drop_nil. constructor.
Qed.

Lemma division_by_word_path x :
  n = 1%nat -> (2 <= m)%nat -> m_words den !! 0%nat = Some x ->
  runs (divide_by_word (m_words num) (m_words (resize_with_leading_zeros q m)) (m_words (resize_with_leading_zeros r 1)) m x)
    (fun '(ql, rl) => division_result num den q r (with_words (resize_with_leading_zeros q m) ql)
       (with_words (resize_with_leading_zeros r 1) rl) a b).
Proof using All.
  intros Hn Hm Hx. destruct Hq as [Hqok Hqi]. destruct Hr as [Hrok Hri].
  destruct (trimmed_spec (m_words num)) as (Hml & _). destruct (trimmed_spec (m_words den)) as (_ & Hdz & Hdt).
  fold m in Hml. fold n in Hdz, Hdt.
  assert (Hbx : b = x).
  { rewrite <- Hb, trimmed_value. fold n. rewrite Hn, value_take_S, Hx by done. rewrite take_0, weight_0. cbn. lia. }
  assert (Hx0 : 0 < x < 2 ^ 32).
  { pose proof (words_ok_lookup 32 _ _ _ Hden Hx) as H. unfold in_width in H. rewrite Hn in Hdt.
    pose proof (Hdt x Hx ltac:(lia)). lia. }
  destruct (resize_with_leading_zeros_spec q m Hqok) as (Q1 & _ & Q3 & Q4 & Q5).
  destruct (resize_with_leading_zeros_spec r 1 Hrok) as (R1 & _ & R3 & R4 & R5).
  set (q1 := resize_with_leading_zeros q m) in *. set (r1 := resize_with_leading_zeros r 1) in *.
  eapply runs_mono; [apply divide_by_word_runs; [done|done|lia|lia| |done]|].
  { intros E. rewrite E in R3. cbn in R3. lia. }
  intros [ql rl] (Hql & Hqlok & Hqd & Hqv & ->). unfold m in Hqv at 2. rewrite <- trimmed_value, Ha in Hqv.
  unfold m at 1. rewrite <- trimmed_value, Ha. unfold division_result. fold m n. rewrite Hn. cbn [with_words m_words].
  rewrite Hbx. pose proof (Z.mod_pos_bound a x ltac:(lia)) as Hmod.
  split; [split; [apply words_ok_insert; [done|unfold in_width; lia]|cbn; congruence]|].
  split; [|split; [|split; [by right|split; [split; [done|cbn; congruence]|split; [|split; [by right|]]]]]].
  - rewrite value_take_insert by lia. rewrite take_0, weight_0. cbn [value]. lia.
  - intros Hz. rewrite drop_insert_lt by lia. unfold r1. rewrite resize_with_leading_zeros_words. by apply drop_zeros_grow.
  - intros Hz. apply (writable_holds _ m); [split; [done|cbn; congruence]|done|]. cbn [with_words m_words].
    rewrite Hqd. unfold q1. rewrite resize_with_leading_zeros_words. by apply drop_zeros_grow.
  - intros k Hk Hz. replace k with (m + (k - m))%nat by lia. rewrite <- drop_drop, Hqd, drop_drop.
    replace (m + (k - m))%nat with k by lia. unfold q1. rewrite resize_with_leading_zeros_words. by apply drop_zeros_grow.
Qed.

Lemma division_knuth_path :
  (2 <= n <= m)%nat ->
  runs (div_mod_internal 32 (m_words (resize_with_leading_zeros num (m + 1))) (m_words den)
      (m_words (resize_with_leading_zeros q (m - n + 1))) (m_words (resize_with_leading_zeros r n)) m n)
    (fun '(ql, rl) => division_result num den q r (with_words (resize_with_leading_zeros q (m - n + 1)) ql)
       (with_words (resize_with_leading_zeros r n) rl) a b).
Proof using All.
  intros Hnm. destruct Hq as [Hqok Hqi]. destruct Hr as [Hrok Hri].
  destruct (trimmed_spec (m_words num)) as (Hml & Hmz & _). destruct (trimmed_spec (m_words den)) as (Hnl & Hdz & _).
  fold m in Hml, Hmz. fold n in Hnl, Hdz.
  destruct (trimmed_top (m_words den) ltac:(fold n; lia)) as (top & Htop & Hne). fold n in Htop.
  destruct (resize_with_leading_zeros_spec num (m + 1) Hnum) as (N1 & N2 & N3 & _ & _).
  destruct (resize_with_leading_zeros_spec q (m - n + 1) Hqok) as (Q1 & _ & Q3 & Q4 & Q5).
  destruct (resize_with_leading_zeros_spec r n Hrok) as (R1 & _ & R3 & R4 & R5).
  assert (Hnz : Forall (eq 0) (drop m (m_words (resize_with_leading_zeros num (m + 1))))).
  { rewrite resize_with_leading_zeros_words. by apply drop_zeros_grow. }
  set (num1 := resize_with_leading_zeros num (m + 1)) in *. set (q1 := resize_with_leading_zeros q (m - n + 1)) in *.
  assert (Hrz : Forall (eq 0) (drop n (m_words r)) -> Forall (eq 0) (drop n (m_words (resize_with_leading_zeros r n)))).
  { intros Hz. rewrite resize_with_leading_zeros_words. by apply drop_zeros_grow. }
  set (r1 := resize_with_leading_zeros r n) in *.
  eapply runs_mono; [apply (div_mod_internal_runs 32 word_width (m_words num1) (m_words den) (m_words q1) (m_words r1) m n top);
    (done || lia)|].
  intros [ql rl] (Hql & Hqok2 & Hqv & new & -> & Hnewl & Hnewok & Hnewv). rewrite N2, Ha, Hb in *.
  assert (Hbpos : 0 < b). { pose proof (trimmed_lower _ Hden ltac:(fold n; lia)). pose proof (weight_pos 32 word_width (n - 1)) as Hwp. unfold n in Hwp. lia. }
  pose proof (Z.mod_pos_bound a b Hbpos) as Hmod. pose proof (trimmed_upper _ Hden) as Hbu. rewrite Hb in Hbu. fold n in Hbu.
  assert (Hnewz : Forall (eq 0) (drop n new)).
  { apply (value_zero 32 word_width); [by apply words_ok_drop|]. pose proof (value_split 32 word_width n new) as E.
    rewrite Nat.min_l in E by lia. pose proof (value_bound 32 word_width _ (words_ok_drop 32 _ n Hnewok)) as [H0 _].
    pose proof (value_bound 32 word_width _ (words_ok_take 32 _ n Hnewok)) as [H1 _]. nia. }
  unfold division_result. fold m n. cbn [with_words m_words].
  split; [split; [apply words_ok_app; [done|by apply words_ok_drop]|cbn; congruence]|].
  split; [|split; [|split; [by right|split; [split; [done|cbn; congruence]|split; [|split; [by right|]]]]]].
  - rewrite take_app_le by lia. rewrite (value_split 32 word_width n new), (value_all_zero 32 _ Hnewz) in Hnewv. lia.
  - intros Hz. rewrite drop_app_le by lia. apply Forall_app_2; [done|].
    replace (length (m_words num1)) with (n + (length (m_words num1) - n))%nat by lia. rewrite <- drop_drop. apply Forall_drop. auto.
  - intros _. split; [done|]. cbn. split; [done|congruence].
  - intros k Hk _. apply (small_value_zeros _ k); [done|]. rewrite Hqv.
    pose proof (trimmed_upper _ Hnum) as Hau. rewrite Ha in Hau. fold m in Hau. pose proof (weight_le 32 word_width _ _ Hk).
    assert (a / b <= a); [|fold m in H; lia]. apply Z.div_le_upper_bound; [lia|]. nia.
Qed.

End division_paths.

Lemma divide_without_allocation_runs num den q r a b :
  represents num a -> represents den b -> b <> 0 -> writable q -> writable r ->
  runs (divide_without_allocation num den q r) (fun '(num', den', q', r') =>
    refreshed num num' /\ refreshed den den' /\ division_result num den q r q' r' a b).
Proof.
  intros [(Hnok & Ha & Hni) Hnc] [(Hdok & Hb & Hdi) Hdc] Hb0 Hq Hr. unfold divide_without_allocation.
  destruct (trimmed_length_spec num Hnc) as (num' & -> & Rn & _). destruct (trimmed_length_spec den Hdc) as (den' & -> & Rd & _).
  pose proof Rn as (Wn & In & _). pose proof Rd as (Wd & _ & _). rewrite Wd.
  set (m := trimmed (m_words num)). set (n := trimmed (m_words den)).
  assert (Hn0 : n <> 0%nat). { intros E. apply trimmed_zero in E; [|done]. lia. }
  rewrite (proj2 (Nat.eqb_neq n 0) Hn0). destruct (trimmed_spec (m_words den)) as (Hnl & _ & Hdt). fold n in Hnl, Hdt.
  destruct (lookup_lt_is_Some_2 (m_words den) 0%nat ltac:(lia)) as [x Hx].
  change (at_index (m_words den) 0) with (at_index (m_words den) (Z.of_nat 0)). rewrite (at_index_Ok _ _ _ Hx). ret.
  assert (Hbx : n = 1%nat -> b = x).
  { intros Hn. rewrite <- Hb, trimmed_value. fold n. rewrite Hn, value_take_S, Hx by done. rewrite take_0, weight_0. cbn. lia. }
  destruct ((n =? 1)%nat && (x =? 1)) eqn:E1.
  { apply andb_true_iff in E1 as [E1 E2]. apply Nat.eqb_eq in E1. apply Z.eqb_eq in E2. apply runs_ret. split; [done|]. split; [done|].
    assert (set_to q num' = set_to q num) as -> by (unfold set_to; by rewrite Wn, In).
    apply division_by_one; (done || (specialize (Hbx E1); congruence)). }
  destruct (Nat.ltb_spec m n) as [Hlt|Hge].
  { apply runs_ret. split; [done|]. split; [done|].
    assert (set_to r num' = set_to r num) as -> by (unfold set_to; by rewrite Wn, In). by apply division_smaller. }
  rewrite Wn. destruct (Nat.eqb_spec n 1) as [Hn|Hn]; cbn [andb].
  - destruct (Nat.eqb_spec m 1) as [Hm|Hm].
    + destruct (trimmed_spec (m_words num)) as (Hml & _ & _). fold m in Hml.
      destruct (lookup_lt_is_Some_2 (m_words num) 0%nat ltac:(lia)) as [y Hy].
      change (at_index (m_words num) 0) with (at_index (m_words num) (Z.of_nat 0)). rewrite (at_index_Ok _ _ _ Hy). ret.
      specialize (Hbx Hn). subst x. rewrite divide_word_exact by done. ret. apply runs_ret. split; [done|]. split; [done|].
      assert (y = a) as ->.
      { rewrite <- Ha, trimmed_value. fold m. rewrite Hm, value_take_S, Hy by done. rewrite take_0, weight_0. cbn. lia. }
      pose proof (words_ok_lookup 32 _ _ _ Hdok Hx) as Hxr. pose proof (words_ok_lookup 32 _ _ _ Hnok Hy) as Hyr. unfold in_width in Hxr, Hyr.
      pose proof (Z.mod_pos_bound a b ltac:(lia)) as Hmod.
      assert (Hqr : word_ok (a / b)) by (unfold in_width; split; [apply Z.div_pos; lia|apply Z.div_lt_upper_bound; nia]).
      assert (Hrr : word_ok (a mod b)) by (unfold in_width; lia).
      destruct (set_to_word_holds q _ Hqr) as [Hq2 _]. destruct (set_to_word_holds r _ Hrr) as [Hr2 _].
      unfold division_result. fold n. rewrite Hn, (set_to_word_words r). split; [by eapply holds_writable|]. split; [cbn [take value]; lia|].
      split; [by constructor|]. split; [by left|]. split; [by eapply holds_writable|]. split; [done|]. split; [by left|].
      intros k Hk _. fold m in Hk. rewrite Hm in Hk. rewrite set_to_word_words, drop_ge by (cbn; lia). constructor.
    + eapply runs_bind; [apply (division_by_word_path num den q r a b); (done || lia)|].
      intros [ql rl] H. apply runs_ret. done.
  - rewrite (resize_with_leading_zeros_words num'), Wn, <- resize_with_leading_zeros_words.
    eapply runs_bind; [apply (division_knuth_path num den q r a b); (done || lia)|].
    intros [ql rl] H. apply runs_ret. done.
Qed.

(** The quotient and the remainder of fresh results *)
Lemma division_result_fresh num den q' r' a b :
  division_result num den empty_integer empty_integer q' r' a b -> represents q' (a / b) /\ represents r' (a mod b).
Proof.
  intros (Hr & Hrv & Hrz & Hrc & Hq & Hqv & Hqc & _). cbn [empty_integer m_words] in *. rewrite drop_nil in Hrz, Hqv.
  split; apply cache_none.
  - by apply Hqv.
  - by destruct Hqc.
  - eapply writable_holds; [done|exact Hrv|by apply Hrz].
  - by destruct Hrc.
Qed.

Lemma divided_by_runs u d a b :
  represents u a -> represents d b -> b <> 0 ->
  runs (divided_by u d) (fun '(u', d', q, r) =>
    refreshed u u' /\ refreshed d d' /\ represents q (a / b) /\ represents r (a mod b)).
Proof.
  intros Ha Hb Hb0. unfold divided_by. pose proof Hb as [(Hdok & Hdv & Hdi) Hdc].
  destruct (trimmed_length_spec d Hdc) as (d' & -> & Rd & _). pose proof Rd as (Wd & Id & Cd).
  assert (Hfull : runs (divide_without_allocation u d' empty_integer empty_integer) (fun '(u', d', q, r) =>
    refreshed u u' /\ refreshed d d' /\ represents q (a / b) /\ represents r (a mod b))).
  { eapply runs_mono; [apply (divide_without_allocation_runs u d' _ _ a b); [done|by eapply refreshed_represents; [apply Hb|]|done|..];
      (split; [constructor|done])|].
    intros [[[u' d2] q] r] (Hu & Hd & HR). split; [done|]. split; [by eapply refreshed_trans|].
    by eapply division_result_fresh. }
  rewrite Wd. destruct (Nat.eqb_spec (trimmed (m_words d)) 1) as [Hn|Hn]; [|ret; exact Hfull].
  destruct (trimmed_spec (m_words d)) as (Hl & _ & Ht). destruct (trimmed_top (m_words d) ltac:(lia)) as (x & Hx & Hxne).
  rewrite Hn in Hx. cbn [Nat.sub] in Hx. change (at_index (m_words d) 0) with (at_index (m_words d) (Z.of_nat 0)).
  rewrite (at_index_Ok _ _ _ Hx). okb.
  assert (b = x) as ->.
  { rewrite <- Hdv, trimmed_value, Hn, value_take_S, Hx by done. rewrite take_0, weight_0. cbn [value from_option id]. lia. }
  pose proof (words_ok_lookup 32 _ _ _ Hdok Hx) as Hxr. unfold in_width in Hxr.
  destruct (Z.ltb_spec x (2 ^ 16)) as [Hsmall|Hlarge]; okb; [|exact Hfull].
  eapply runs_bind; [apply divide_u16_runs; [exact Ha|lia]|]. intros [[u' q] r] (Hu & Hq & _ & Hr & _).
  apply runs_ret. by split.
Qed.

Lemma divided_by_zero u d : represents d 0 -> divided_by u d = Panic.
Proof.
  intros [(Hdok & Hdv & Hdi) Hdc]. unfold divided_by.
  destruct (trimmed_length_spec d Hdc) as (d' & -> & (Wd & Id & Cd) & Hc). rewrite (proj2 (trimmed_zero _ Hdok) Hdv).
  cbn. unfold divide_without_allocation. destruct (trimmed_length u) as [m u']. unfold trimmed_length. rewrite Hc.
  by rewrite (proj2 (trimmed_zero _ Hdok) Hdv).
Qed.
