(* ===== verification/StorageOperations.v ===== *)
(** * Operations on integer storages (AK/BigIntBase.h)

    The operations of [StorageOperations] that BigIntBase.v leaves out: copying, comparison, bitwise
    operations, addition and subtraction with carry, increment, negation and schoolbook multiplication,
    on storages that are signed or unsigned.  A signed storage holds an integer in two's complement;
    [storage_value] is the integer a storage holds.  The theorems are the contracts that the comments of
    the code state, for every word width and every size of the storages.

    An operation may be called with a result that is one of the operands.  At each index these
    operations read the operands before they write the result and never come back to it, so that the
    operand can be read from its old words, as the definitions do. *)
From Stdlib Require Import Znumtheory.
From S2P Require Import Prelude BigIntBase.

Local Open Scope Z_scope.

Record storage := mk_storage { is_signed : bool; words : list Z }.
Definition size (s : storage) : nat := length (words s).

(** [last] of an empty span fails. *)
Definition is_negative (w : Z) (s : storage) : outcome bool :=
  if is_signed s then
    top ← at_index (words s) (Z.of_nat (size s) - 1);
    Ok (negb (Z.shiftr top (w - 1) =? 0))
  else Ok false.

Definition extend_sign (w : Z) (sign : bool) : Z := if sign then 2 ^ w - 1 else 0.

(** [i < size ? operand[i] : fill] *)
Definition word_or (operand : list Z) (fill : Z) (i : nat) : outcome Z :=
  if (i <? length operand)%nat then at_index operand (Z.of_nat i) else Ok fill.

Definition copy (w : Z) (operand : storage) (result : list Z) (offset : nat) : outcome (list Z) :=
  sign ← is_negative w operand;
  for_range 0 (length result) (fun i result =>
    x ← word_or (words operand) (extend_sign w sign) (i + offset);
    set_at_index result (Z.of_nat i) x) result.

Definition set (value : Z) (result : list Z) : outcome (list Z) :=
  result ← set_at_index result 0 value;
  for_range 1 (length result) (fun i result => set_at_index result (Z.of_nat i) 0) result.

(** ** Comparison *)

(** [for (size_t i = high; i-- > low;) if (operand[i] != compare_value) differ_in_high_bits = true;] *)
Definition high_words_differ (operand : list Z) (compare_value : Z) (low high : nat) : outcome bool :=
  for_range_down low high (fun i differ =>
    x ← at_index operand (Z.of_nat i);
    Ok (if negb (x =? compare_value) then true else differ)) false.

Fixpoint compare_words (operand1 operand2 : list Z) (is_for_inequality : bool) (i : nat) : outcome Z :=
  match i with
  | O => Ok 0
  | S i =>
      word1 ← at_index operand1 (Z.of_nat i);
      word2 ← at_index operand2 (Z.of_nat i);
      if is_for_inequality then
        if negb (word1 =? word2) then Ok 1 else compare_words operand1 operand2 is_for_inequality i
      else if word2 <? word1 then Ok 1
      else if word1 <? word2 then Ok (-1)
      else compare_words operand1 operand2 is_for_inequality i
  end.

Definition compare (w : Z) (operand1 operand2 : storage) (is_for_inequality : bool) : outcome Z :=
  sign1 ← is_negative w operand1;
  sign2 ← is_negative w operand2;
  let size1 := size operand1 in
  let size2 := size operand2 in
  if xorb sign1 sign2 then Ok (if sign1 : bool then -1 else 1)
  else
    let compare_value := extend_sign w sign1 in
    differ_in_high_bits ←
      (if (size2 <? size1)%nat then high_words_differ (words operand1) compare_value size2 size1
       else if (size1 <? size2)%nat then high_words_differ (words operand2) compare_value size1 size2
       else Ok false);
    if differ_in_high_bits : bool then Ok (if xorb (size2 <? size1)%nat sign1 then 1 else -1)
    else compare_words (words operand1) (words operand2) is_for_inequality (if (size2 <? size1)%nat then size2 else size1).

(** ** Bitwise operations *)
Inductive Bitwise := AND | OR | XOR | INVERT.

Definition bitwise_word (w : Z) (operation : Bitwise) (word1 word2 : Z) : Z :=
  match operation with
  | AND => Z.land word1 word2
  | OR => Z.lor word1 word2
  | XOR => Z.lxor word1 word2
  | INVERT => wrap w (Z.lnot word1)
  end.

Definition compute_bitwise (w : Z) (operation : Bitwise) (operand1 operand2 result : list Z) : outcome (list Z) :=
  for_range 0 (length result) (fun i result =>
    word1 ← word_or operand1 0 i;
    word2 ← word_or operand2 0 i;
    set_at_index result (Z.of_nat i) (bitwise_word w operation word1 word2)) result.

(** [INVERT] does not compile here. *)
Definition compute_inplace_bitwise (w : Z) (operation : Bitwise) (operand2 result : list Z) : outcome (list Z) :=
  for_range 0 (Nat.min (length result) (length operand2)) (fun i result =>
    word1 ← at_index result (Z.of_nat i);
    word2 ← at_index operand2 (Z.of_nat i);
    set_at_index result (Z.of_nat i) (bitwise_word w operation word1 word2)) result.

(** ** Addition *)
Definition add_or_subtract (w : Z) (subtract : bool) (word1 word2 : Z) (carry : bool) : Z * bool :=
  if subtract then sub_words w word1 word2 carry else add_words w word1 word2 carry.

(** The words of the result and the carry *)
Definition add_loop (w : Z) (subtract : bool) (operand1 : list Z) (fill1 : Z) (operand2 : list Z) (fill2 : Z)
    (result : list Z) (carry : bool) : outcome (list Z * bool) :=
  for_range 0 (length result) (fun i '(result, carry) =>
    word1 ← word_or operand1 fill1 i;
    word2 ← word_or operand2 fill2 i;
    let '(word, carry) := add_or_subtract w subtract word1 word2 carry in
    result ← set_at_index result (Z.of_nat i) word;
    Ok (result, carry)) (result, carry).

(** The return value and the result *)
Definition storage_add (w : Z) (subtract : bool) (operand1 operand2 result : storage) (carry : bool)
    : outcome (Z * storage) :=
  sign1 ← is_negative w operand1;
  sign2 ← is_negative w operand2;
  ' (l, carry) ← add_loop w subtract (words operand1) (extend_sign w sign1) (words operand2) (extend_sign w sign2)
    (words result) carry;
  let result := mk_storage (is_signed result) l in
  sign ← is_negative w result;
  Ok (if subtract then - Z.b2z sign1 + Z.b2z sign2 - Z.b2z carry + Z.b2z sign
      else - Z.b2z sign1 - Z.b2z sign2 + Z.b2z carry + Z.b2z sign, result).

Definition increment (w : Z) (subtract : bool) (operand : storage) : outcome (Z * storage) :=
  sign ← is_negative w operand;
  ' (l, carry) ← for_range 0 (size operand) (fun i '(operand, carry) =>
    word ← at_index operand (Z.of_nat i);
    let '(word, carry) := add_or_subtract w subtract word 0 carry in
    operand ← set_at_index operand (Z.of_nat i) word;
    Ok (operand, carry)) (words operand, true);
  let operand := mk_storage (is_signed operand) l in
  new_sign ← is_negative w operand;
  Ok (if subtract then - Z.b2z sign - Z.b2z carry + Z.b2z new_sign else - Z.b2z sign + Z.b2z carry + Z.b2z new_sign, operand).

(** The result and whether the operand is not zero *)
Definition negate (w : Z) (operand result : list Z) : outcome (list Z * bool) :=
  for_range 0 (length operand) (fun i '(result, carry) =>
    word ← at_index operand (Z.of_nat i);
    let '(word, carry) := sub_words w 0 word carry in
    result ← set_at_index result (Z.of_nat i) word;
    Ok (result, carry)) (result, false).

(** ** Multiplication *)

(** Both operands have one word.  A word of a signed storage is an unsigned integer, so that it is not
    sign-extended; the product of two signed double words may overflow, which is undefined. *)
Definition multiply_single (w : Z) (signed1 signed2 : bool) (word1 word2 : Z) (fill : Z) (result : list Z) : outcome (list Z) :=
  if signed1 && signed2 && (2 ^ (2 * w - 1) <=? word1 * word2) then Panic
  else
    let value := wrap (2 * w) (word1 * word2) in
    result ← set_at_index result 0 (wrap w value);
    if (1 <? length result)%nat then
      result ← set_at_index result 1 (wrap w (Z.shiftr value w));
      for_range 2 (length result) (fun i result => set_at_index result (Z.of_nat i) fill) result
    else Ok result.

(** One step of the inner loop: the word of the result and the carry, a double word *)
Definition multiply_step (w : Z) (data1 data2 : list Z) (i j : nat) (s : Z * Z) : outcome (Z * Z) :=
  let '(word, carry) := s in
  x1 ← at_index data1 (Z.of_nat j);
  x2 ← at_index data2 (Z.of_nat i - Z.of_nat j);
  let x := wrap (2 * w) (x1 * x2) in
  let '(word, ncarry) := add_words w word (wrap w x) false in
  Ok (word, wrap (2 * w) (carry + (Z.shiftr x w + Z.b2z ncarry))).

Definition multiply_words (w : Z) (data1 data2 : list Z) (size1 size2 : nat) (result : list Z) : outcome (list Z) :=
  ' (result, _) ← for_range 0 (length result) (fun i '(result, carry) =>
    let start_index := if (size2 <=? i)%nat then (i - size2 + 1)%nat else 0%nat in
    let end_index := Nat.min (i + 1) size1 in
    ' (word, carry) ← for_range start_index end_index (multiply_step w data1 data2 i) (wrap w carry, Z.shiftr carry w);
    result ← set_at_index result (Z.of_nat i) word;
    Ok (result, carry)) (result, 0);
  Ok result.

(** The words of the operand, inverted into memory of the buffer when it is negative *)
Definition normalized_words (w : Z) (allocate : nat -> outcome (list Z)) (operand : list Z) (invert : bool) : outcome (list Z) :=
  if invert then
    inverted ← allocate (length operand);
    ' (inverted, _) ← negate w operand inverted;
    Ok inverted
  else Ok operand.

(** The first operand has at least as many words as the second. *)
Definition mul_ordered (w : Z) (allocate : nat -> outcome (list Z)) (operand1 operand2 : storage) (sign1 sign2 : bool)
    (result : list Z) : outcome (list Z) :=
  let wide := (size operand2 <? length result)%nat in
  data1 ← normalized_words w allocate (words operand1) (wide && sign1);
  data2 ← normalized_words w allocate (words operand2) (wide && sign2);
  result ← multiply_words w data1 data2 (Nat.min (size operand1) (length result)) (Nat.min (size operand2) (length result)) result;
  if wide && xorb sign1 sign2 then ' (result, _) ← negate w result result; Ok result else Ok result.

(** [allocate] is that of the buffer: the null allocator fails. *)
Definition null_allocator (size : nat) : outcome (list Z) := Panic.

Definition baseline_mul (w : Z) (allocate : nat -> outcome (list Z)) (operand1 operand2 : storage) (result : list Z)
    : outcome (list Z) :=
  sign1 ← is_negative w operand1;
  sign2 ← is_negative w operand2;
  if (size operand1 =? 1)%nat && (size operand2 =? 1)%nat then
    word1 ← at_index (words operand1) 0;
    word2 ← at_index (words operand2) 0;
    multiply_single w (is_signed operand1) (is_signed operand2) word1 word2 (extend_sign w (xorb sign1 sign2)) result
  else if (size operand1 <? size operand2)%nat then mul_ordered w allocate operand2 operand1 sign2 sign1 result
  else mul_ordered w allocate operand1 operand2 sign1 sign2 result.

Example baseline_mul_example :
  baseline_mul 8 null_allocator (mk_storage false [255; 255]) (mk_storage false [255; 255]) [0; 0; 0; 0] = Ok [1; 0; 254; 255]
  /\ baseline_mul 8 (fun n => Ok (replicate n 0)) (mk_storage true [254; 255]) (mk_storage false [3]) [0; 0; 0] = Ok [250; 255; 255].
Proof. vm_compute. done. Qed.

(** ** The integer of a storage *)
Definition sign_of (w : Z) (s : storage) : bool := is_signed s && (2 ^ (w - 1) <=? List.last (words s) 0).
Definition storage_value (w : Z) (s : storage) : Z := value w (words s) - Z.b2z (sign_of w s) * weight w (size s).
Definition storage_ok (w : Z) (s : storage) : Prop := words_ok w (words s) /\ (is_signed s = true -> words s <> []).

(** The first [n] words of a list that goes on with [fill] for ever *)
Definition extended (n : nat) (l : list Z) (fill : Z) : list Z := (fun i => nth i l fill) <$> seq 0 n.

(** ** Loops that write one word per round *)
Lemma fill_loop {S} (f : nat -> S -> outcome (Z * S)) (I : nat -> list Z -> S -> Prop) result s :
  I 0%nat [] s ->
  (forall i l s, (i < length result)%nat -> length l = i -> I i l s -> runs (f i s) (fun '(x, s') => I (Datatypes.S i) (l ++ [x]) s')) ->
  runs (for_range 0 (length result) (fun i '(result, s) =>
    ' (x, s) ← f i s; result ← set_at_index result (Z.of_nat i) x; Ok (result, s)) (result, s))
    (fun '(r, s) => length r = length result /\ I (length result) r s).
Proof.
  intros H0 Hstep. eapply runs_mono.
  - apply (for_range_runs (fun i '(r, s) => length r = length result /\ I i (take i r) s)); [lia| |].
    + split; [done|]. by rewrite take_0.
    + intros i [r s'] Hi [Hr HI]. eapply runs_bind; [apply (Hstep i (take i r) s'); [lia|rewrite length_take; lia|done]|].
      intros [x s2] HI2. rewrite set_at_index_Ok by lia. ret. apply runs_ret. split; [by rewrite length_insert|].
      by rewrite take_insert_S by lia.
  - intros [r s'] [Hr HI]. split; [done|]. rewrite <- Hr in HI |- *. by rewrite firstn_all in HI.
Qed.

Lemma fill_words (f : nat -> outcome Z) (g : nat -> Z) result :
  (forall i, (i < length result)%nat -> f i = Ok (g i)) ->
  for_range 0 (length result) (fun i result => x ← f i; set_at_index result (Z.of_nat i) x) result = Ok (g <$> seq 0 (length result)).
Proof.
  intros Hf. edestruct (for_range_runs (fun i r => length r = length result /\ take i r = g <$> seq 0 i) 0 (length result))
    as (r & -> & Hr & E); [lia|by split|..].
  - intros i r Hi [Hr E]. rewrite Hf by lia. ret. rewrite set_at_index_Ok by lia. apply runs_ret.
    split; [by rewrite length_insert|]. rewrite take_insert_S, E, seq_S, fmap_app by lia. done.
  - by rewrite <- E, <- Hr, firstn_all.
Qed.

Lemma word_or_nth l fill i : word_or l fill i = Ok (nth i l fill).
Proof.
  unfold word_or. destruct (Nat.ltb_spec i (length l)) as [H|H]; [|by rewrite nth_overflow].
  destruct (lookup_lt_is_Some_2 l i H) as [x Hx]. by rewrite (nth_lookup_Some _ _ _ _ Hx), (at_index_Ok _ _ _ Hx).
Qed.

Section storages.
Context (w : Z) (Hw : 0 < w).
Notation base := (2 ^ w).

Lemma is_negative_spec s : storage_ok w s -> is_negative w s = Ok (sign_of w s).
Proof using Hw.
  intros [Hok Hne]. unfold is_negative, sign_of. destruct (is_signed s); [|done]. specialize (Hne eq_refl). cbn [andb].
  unfold size. destruct (words s) as [|x l _] using rev_ind; [done|]. rewrite length_app. cbn [length].
  replace (Z.of_nat (length l + 1) - 1) with (Z.of_nat (length l)) by lia. rewrite (at_index_Ok _ _ x) by (by apply list_lookup_middle).
  cbn [kbind outcome_monad]. rewrite last_last. apply Forall_app in Hok as [_ Hx]. apply (proj1 (Forall_singleton _ _)) in Hx. unfold in_width in Hx.
  rewrite Z.shiftr_div_pow2 by lia. f_equal. destruct (Z.leb_spec (2 ^ (w - 1)) x) as [H|H].
  - apply negb_true_iff, Z.eqb_neq. assert (1 <= x / 2 ^ (w - 1)) by (apply Z.div_le_lower_bound; lia). lia.
  - by rewrite Z.div_small by lia.
Qed.

Lemma sign_value s : storage_ok w s -> sign_of w s = true -> 0 < value w (words s).
Proof using Hw.
  intros [Hok Hne]. unfold sign_of. intros [Hs Hl]%andb_true_iff. specialize (Hne Hs).
  destruct (words s) as [|x l _] using rev_ind; [done|]. rewrite last_last in Hl. apply Z.leb_le in Hl.
  rewrite value_app by done. cbn [value]. apply Forall_app in Hok as [Hl' _]. pose proof (value_bound w Hw l Hl').
  pose proof (weight_pos w Hw (length l)). assert (0 < 2 ^ (w - 1)) by lia. nia.
Qed.

Lemma storage_value_sign s : storage_ok w s -> if sign_of w s then - weight w (size s) <= storage_value w s < 0 else 0 <= storage_value w s < weight w (size s).
Proof using Hw.
  intros [Hok Hne]. pose proof (value_bound w Hw _ Hok). unfold storage_value, size in *. destruct (sign_of w s); cbn [Z.b2z]; lia.
Qed.

(** ** Extended words *)
Lemma extend_sign_ok sign : in_width w (extend_sign w sign).
Proof using Hw. unfold extend_sign, in_width. destruct sign; lia. Qed.

Lemma nth_ok l fill i : words_ok w l -> in_width w fill -> in_width w (nth i l fill).
Proof using.
  intros Hl Hf. destruct (nth_in_or_default i l fill) as [H| ->]; [|done]. apply (proj1 (Forall_forall _ _) Hl). by apply list_elem_of_In.
Qed.

Lemma length_extended n l fill : length (extended n l fill) = n.
Proof using. unfold extended. by rewrite length_fmap, length_seq. Qed.

Lemma extended_S n l fill : extended (S n) l fill = extended n l fill ++ [nth n l fill].
Proof using. unfold extended. by rewrite seq_S, fmap_app. Qed.

Lemma extended_ok n l fill : words_ok w l -> in_width w fill -> words_ok w (extended n l fill).
Proof using. intros Hl Hf. induction n as [|n IH]; [constructor|]. rewrite extended_S. apply Forall_app_2; [done|]. apply Forall_singleton. by apply nth_ok. Qed.

Lemma extended_bound n l fill : words_ok w l -> in_width w fill -> 0 <= value w (extended n l fill) < weight w n.
Proof using Hw. intros Hl Hf. pose proof (value_bound w Hw _ (extended_ok n l fill Hl Hf)) as H. by rewrite length_extended in H. Qed.

Lemma extended_app n l fill : (length l <= n)%nat -> extended n l fill = l ++ replicate (n - length l) fill.
Proof using.
  intros H. apply list_eq. intros i. unfold extended. rewrite list_lookup_fmap. destruct (Nat.lt_ge_cases i n) as [Hi|Hi].
  - rewrite lookup_seq_lt by done. cbn. destruct (Nat.lt_ge_cases i (length l)) as [Hil|Hil].
    + rewrite lookup_app_l by done. destruct (lookup_lt_is_Some_2 l i Hil) as [x Hx]. rewrite Hx. by rewrite (nth_lookup_Some _ _ _ _ Hx).
    + rewrite lookup_app_r by done. rewrite lookup_replicate_2 by lia. by rewrite nth_overflow.
  - rewrite lookup_seq_ge by done. cbn. rewrite lookup_ge_None_2; [done|]. rewrite length_app, length_replicate. lia.
Qed.

Lemma extended_take n l fill : (n <= length l)%nat -> extended n l fill = take n l.
Proof using.
  induction n as [|n IH]; intros H; [by rewrite take_0|]. rewrite extended_S, IH by lia.
  destruct (lookup_lt_is_Some_2 l n ltac:(lia)) as [x Hx]. rewrite (take_S_r _ _ _ Hx). by rewrite (nth_lookup_Some _ _ _ _ Hx).
Qed.

Lemma value_ones n : value w (replicate n (base - 1)) = weight w n - 1.
Proof using Hw. induction n as [|n IH]; cbn [replicate value]; [rewrite weight_0; lia|]. rewrite IH, weight_S by done. ring. Qed.

(** Extending a storage with its sign keeps its integer. *)
Lemma value_extended n s :
  storage_ok w s -> (size s <= n)%nat ->
  value w (extended n (words s) (extend_sign w (sign_of w s))) = storage_value w s + Z.b2z (sign_of w s) * weight w n.
Proof using Hw.
  intros [Hok _] Hn. unfold size in *. rewrite extended_app, value_app by done. unfold storage_value, extend_sign, size.
  destruct (sign_of w s); cbn [Z.b2z]; [rewrite value_ones|rewrite value_replicate; lia].
  replace n with (length (words s) + (n - length (words s)))%nat at 2 by lia. rewrite weight_add by done. ring.
Qed.

Lemma value_extended_mod n s :
  storage_ok w s -> value w (extended n (words s) (extend_sign w (sign_of w s))) = storage_value w s mod weight w n.
Proof using Hw.
  intros Hs. pose proof Hs as [Hok _]. destruct (Nat.le_ge_cases (size s) n) as [Hn|Hn].
  - apply Z.mod_unique_pos with (- Z.b2z (sign_of w s)); [|rewrite value_extended by done; lia].
    apply extended_bound; [done|apply extend_sign_ok].
  - rewrite extended_take by done. unfold storage_value. rewrite (value_split w Hw n (words s)). unfold size in *.
    rewrite Nat.min_l by done. assert (Hb : 0 <= value w (take n (words s)) < weight w n).
    { pose proof (value_bound w Hw _ (words_ok_take w _ n Hok)) as H. by rewrite length_take_le in H. }
    replace (length (words s)) with (n + (length (words s) - n))%nat by lia. rewrite weight_add by done.
    apply Z.mod_unique_pos with (value w (drop n (words s)) - Z.b2z (sign_of w s) * weight w (length (words s) - n)); [done|ring].
Qed.

(** ** Copying *)
Lemma copy_runs operand result :
  storage_ok w operand ->
  runs (copy w operand result 0) (fun r => length r = length result /\ words_ok w r
    /\ value w r = storage_value w operand mod weight w (length result)).
Proof using Hw.
  intros Hs. unfold copy. rewrite is_negative_spec by done. ret.
  rewrite (fill_words _ (fun i => nth i (words operand) (extend_sign w (sign_of w operand)))).
  2: { intros i _. by rewrite word_or_nth, Nat.add_0_r. }
  apply runs_ret. fold (extended (length result) (words operand) (extend_sign w (sign_of w operand))).
  split; [by rewrite length_extended|]. split; [apply extended_ok; [apply Hs|apply extend_sign_ok]|by apply value_extended_mod].
Qed.

Lemma set_runs x result :
  result <> [] -> in_width w x ->
  runs (set x result) (fun r => length r = length result /\ words_ok w r /\ value w r = x).
Proof using Hw.
  intros Hne Hx. destruct result as [|y l]; [done|]. unfold set. change (set_at_index (y :: l) 0 x) with (Ok (x :: l)). ret.
  eapply runs_mono; [apply (zero_fill (x :: l) 1 (length (x :: l))); cbn; lia|]. intros r ->.
  cbn [take length Nat.sub app]. rewrite take_0, Nat.sub_0_r, (drop_ge (x :: l)) by (cbn; lia). rewrite app_nil_r. cbn [app length value].
  rewrite length_replicate, value_replicate. split; [done|]. split; [|lia]. constructor; [done|]. by apply words_ok_zeros.
Qed.

(** ** Addition *)
Definition direction (subtract : bool) : Z := if subtract then -1 else 1.

Lemma add_or_subtract_spec subtract x y c :
  in_width w x -> in_width w y ->
  exists o c', add_or_subtract w subtract x y c = (o, c') /\ in_width w o
    /\ o + direction subtract * (base * Z.b2z c') = x + direction subtract * (y + Z.b2z c).
Proof using Hw.
  intros Hx Hy. unfold add_or_subtract, direction. destruct subtract.
  - destruct (sub_words_spec w Hw x y c Hx Hy) as (o & c' & -> & Ho & E). exists o, c'. split; [done|]. split; [done|]. lia.
  - destruct (add_words_spec w Hw x y c Hx Hy) as (o & c' & -> & Ho & E). exists o, c'. split; [done|]. split; [done|]. lia.
Qed.

Lemma add_loop_runs subtract l1 fill1 l2 fill2 result c0 :
  words_ok w l1 -> in_width w fill1 -> words_ok w l2 -> in_width w fill2 ->
  let n := length result in
  runs (add_loop w subtract l1 fill1 l2 fill2 result c0) (fun '(r, c) => length r = n /\ words_ok w r
    /\ value w r + direction subtract * (weight w n * Z.b2z c)
       = value w (extended n l1 fill1) + direction subtract * (value w (extended n l2 fill2) + Z.b2z c0)).
Proof using Hw.
  intros Hl1 Hf1 Hl2 Hf2 n. unfold add_loop. eapply runs_mono.
  - apply (for_range_runs (fun i '(r, c) => length r = n /\ words_ok w (take i r)
      /\ value w (take i r) + direction subtract * (weight w i * Z.b2z c)
         = value w (extended i l1 fill1) + direction subtract * (value w (extended i l2 fill2) + Z.b2z c0))); [lia| |].
    + rewrite take_0, weight_0. cbn [extended seq fmap list_fmap value]. split; [done|]. split; [constructor|lia].
    + intros i [r c] Hi (Hr & Hok & E). rewrite !word_or_nth. ret.
      destruct (add_or_subtract_spec subtract (nth i l1 fill1) (nth i l2 fill2) c) as (o & c' & -> & Ho & E2); [by apply nth_ok|by apply nth_ok|].
      rewrite set_at_index_Ok by lia. ret. apply runs_ret. split; [by rewrite length_insert|].
      rewrite take_insert_S by lia. split; [apply words_ok_app; [done|by apply Forall_singleton]|].
      rewrite !extended_S, !value_app, !length_extended, length_take_le, weight_S by (done || lia). cbn [value].
      set (W := weight w i) in *. set (d := direction subtract) in *. set (c1 := Z.b2z c) in *. set (c2 := Z.b2z c') in *.
      set (x := nth i l1 fill1) in *. set (y := nth i l2 fill2) in *. clearbody x y W c1 c2. nia.
  - intros [r c] (Hr & Hok & E). rewrite take_ge in Hok, E by (unfold n in Hr; lia). done.
Qed.

Lemma result_ok l (s : storage) :
  words_ok w l -> length l = size s -> (is_signed s = true -> words s <> []) -> storage_ok w (mk_storage (is_signed s) l).
Proof using.
  intros Hl Hlen Hne. split; [done|]. cbn [is_signed words]. intros H ->. apply Hne in H. unfold size in Hlen. by destruct (words s).
Qed.

(** The contract of [add]: with the return value r, a + b or a - b, with the carry, is the result plus r times the
    weight of its size. *)
Lemma storage_add_runs subtract s1 s2 result c :
  storage_ok w s1 -> storage_ok w s2 -> (is_signed result = true -> words result <> []) ->
  (size s1 <= size result)%nat -> (size s2 <= size result)%nat ->
  runs (storage_add w subtract s1 s2 result c) (fun '(overflow, r) =>
    storage_ok w r /\ is_signed r = is_signed result /\ size r = size result
    /\ storage_value w s1 + direction subtract * (storage_value w s2 + Z.b2z c)
       = storage_value w r + overflow * weight w (size result)).
Proof using Hw.
  intros H1 H2 Hne Hs1 Hs2. unfold storage_add. rewrite !is_negative_spec by done. ret.
  eapply runs_bind; [apply add_loop_runs; [apply H1|apply extend_sign_ok|apply H2|apply extend_sign_ok]|].
  intros [l carry] (Hlen & Hok & E). pose proof (result_ok l result Hok Hlen Hne) as Hr. rewrite is_negative_spec by done. ret.
  apply runs_ret. split; [done|]. split; [done|]. split; [done|]. fold (size result) in E, Hlen.
  rewrite !value_extended in E by done. unfold storage_value at 3. change (size (mk_storage _ l)) with (length l). cbn [words]. rewrite Hlen.
  set (W := weight w (size result)) in *. unfold direction in *. destruct subtract; lia.
Qed.

(** [increment] adds or subtracts one. *)
Lemma increment_runs subtract s :
  storage_ok w s ->
  runs (increment w subtract s) (fun '(overflow, r) => storage_ok w r /\ is_signed r = is_signed s /\ size r = size s
    /\ storage_value w s + direction subtract = storage_value w r + overflow * weight w (size s)).
Proof using Hw.
  intros Hs. unfold increment. rewrite is_negative_spec by done. ret. eapply runs_bind.
  { apply (for_range_runs (fun i '(r, c) => length r = size s /\ words_ok w r /\ drop i r = drop i (words s)
      /\ value w (take i r) + direction subtract * (weight w i * Z.b2z c) = value w (take i (words s)) + direction subtract)); [lia| |].
    - rewrite !take_0, weight_0. cbn [value Z.b2z]. split; [done|]. split; [apply Hs|]. split; [done|lia].
    - intros i [r c] Hi (Hr & Hok & Hd & E). destruct (at_index_some r i ltac:(lia)) as (x & Hx & ->). ret.
      pose proof (lookup_drop_eq _ _ _ Hd) as Hxs. rewrite Hx in Hxs. symmetry in Hxs.
      destruct (add_or_subtract_spec subtract x 0 c) as (o & c' & -> & Ho & E2); [by eapply words_ok_lookup|unfold in_width; lia|].
      rewrite set_at_index_Ok by lia. ret. apply runs_ret. split; [by rewrite length_insert|]. split; [by apply words_ok_insert|].
      split; [by apply drop_S_insert|]. rewrite value_take_insert, value_take_S, Hxs, weight_S by (done || lia). cbn [from_option id].
      set (W := weight w i) in *. set (d := direction subtract) in *. set (c1 := Z.b2z c) in *. set (c2 := Z.b2z c') in *.
      clearbody W c1 c2. nia. }
  intros [l c] (Hlen & Hok & _ & E). pose proof (result_ok l s Hok Hlen (proj2 Hs)) as Hr. rewrite is_negative_spec by done. ret.
  apply runs_ret. split; [done|]. split; [done|]. split; [done|]. rewrite <- Hlen in E at 1. rewrite firstn_all in E.
  unfold size in E. rewrite firstn_all in E. unfold storage_value. change (size (mk_storage _ l)) with (length l). cbn [words]. rewrite Hlen. fold (size s) in E.
  set (W := weight w (size s)) in *. unfold direction in *. destruct subtract; lia.
Qed.

Lemma negate_runs operand result :
  words_ok w operand -> length result = length operand ->
  runs (negate w operand result) (fun '(r, nonzero) => length r = length operand /\ words_ok w r
    /\ nonzero = negb (value w operand =? 0) /\ value w r = (- value w operand) mod weight w (length operand)).
Proof using Hw.
  intros Hok Hlen. unfold negate. eapply runs_mono.
  - apply (for_range_runs (fun i '(r, c) => length r = length operand /\ words_ok w (take i r)
      /\ value w (take i r) - weight w i * Z.b2z c = - value w (take i operand))); [lia| |].
    + rewrite !take_0, weight_0. cbn [value Z.b2z]. split; [done|]. split; [constructor|lia].
    + intros i [r c] Hi (Hr & Hrok & E). destruct (at_index_some operand i ltac:(lia)) as (x & Hx & ->). ret.
      destruct (sub_words_spec w Hw 0 x c) as (o & c' & -> & Ho & E2); [unfold in_width; lia|exact (words_ok_lookup w _ _ _ Hok Hx)|].
      rewrite set_at_index_Ok by lia. ret. apply runs_ret. split; [by rewrite length_insert|].
      rewrite take_insert_S by lia. split; [apply words_ok_app; [done|by apply Forall_singleton]|].
      rewrite value_app, length_take_le, value_take_S, Hx, weight_S by (done || lia). cbn [from_option id value].
      set (W := weight w i) in *. set (c1 := Z.b2z c) in *. set (c2 := Z.b2z c') in *. clearbody W c1 c2. nia.
  - intros [r c] (Hr & Hrok & E). rewrite firstn_all in E. rewrite <- Hr, firstn_all in Hrok. rewrite <- Hr, firstn_all, Hr in E.
    pose proof (value_bound w Hw _ Hrok) as Hb. rewrite Hr in Hb. pose proof (value_bound w Hw _ Hok) as Hb2.
    split; [done|]. split; [done|]. destruct c; cbn [Z.b2z] in E.
    + split; [symmetry; apply negb_true_iff, Z.eqb_neq; lia|]. apply Z.mod_unique_pos with (-1); [done|lia].
    + split; [symmetry; apply negb_false_iff, Z.eqb_eq; lia|]. apply Z.mod_unique_pos with 0; [done|lia].
Qed.

(** ** Bitwise operations *)
Definition bitwise_integer (operation : Bitwise) (a b : Z) : Z :=
  match operation with AND => Z.land a b | OR => Z.lor a b | XOR => Z.lxor a b | INVERT => Z.lnot a end.

Lemma digit_testbit X j i : 0 <= i -> Z.testbit (digit w X j) i = (i <? w) && Z.testbit X (w * Z.of_nat j + i).
Proof using Hw.
  intros Hi. unfold digit, weight. destruct (Z.ltb_spec i w) as [H|H]; cbn [andb].
  - rewrite Z.mod_pow2_bits_low by lia. rewrite <- Z.shiftr_div_pow2, Z.shiftr_spec by nia. f_equal. lia.
  - by rewrite Z.mod_pow2_bits_high by lia.
Qed.

Lemma bitwise_digit operation A B j :
  bitwise_word w operation (digit w A j) (digit w B j) = digit w (bitwise_integer operation A B) j.
Proof using Hw.
  apply Z.bits_inj'. intros i Hi. rewrite digit_testbit by done.
  destruct operation; cbn [bitwise_word bitwise_integer];
    rewrite ?Z.land_spec, ?Z.lor_spec, ?Z.lxor_spec, ?digit_testbit by done; try (destruct (i <? w); done).
  unfold wrap. destruct (Z.ltb_spec i w) as [H|H]; cbn [andb].
  - rewrite Z.mod_pow2_bits_low, !Z.lnot_spec, digit_testbit by nia. by rewrite (proj2 (Z.ltb_lt i w)).
  - by rewrite Z.mod_pow2_bits_high by lia.
Qed.

Lemma nth_digit l i : words_ok w l -> nth i l 0 = digit w (value w l) i.
Proof using Hw. intros Hl. rewrite digit_lookup by done. by rewrite nth_lookup. Qed.

Lemma fmap_digits X n : words_ok w (digit w X <$> seq 0 n) /\ value w (digit w X <$> seq 0 n) = X mod weight w n.
Proof using Hw.
  assert (H : forall j x, (digit w X <$> seq 0 n) !! j = Some x -> x = digit w X j).
  { intros j x. rewrite list_lookup_fmap. destruct (seq 0 n !! j) as [k|] eqn:E; [|done]. apply lookup_seq in E as [-> _]. by intros [= <-]. }
  split; [by eapply digits_words_ok|]. rewrite (value_digits w Hw _ X H). by rewrite length_fmap, length_seq.
Qed.

Lemma compute_bitwise_runs operation l1 l2 result :
  words_ok w l1 -> words_ok w l2 ->
  runs (compute_bitwise w operation l1 l2 result) (fun r => length r = length result /\ words_ok w r
    /\ value w r = bitwise_integer operation (value w l1) (value w l2) mod weight w (length result)).
Proof using Hw.
  intros H1 H2. set (X := bitwise_integer operation (value w l1) (value w l2)). eapply runs_mono.
  - apply (for_range_runs (fun i r => length r = length result /\ take i r = digit w X <$> seq 0 i)); [lia|by split|].
    intros i r Hi [Hr E]. rewrite !word_or_nth. ret. rewrite set_at_index_Ok by lia. apply runs_ret. split; [by rewrite length_insert|].
    rewrite take_insert_S, E, seq_S, fmap_app by lia. by rewrite !nth_digit, bitwise_digit.
  - intros r [Hr E]. rewrite take_ge in E by lia. split; [done|]. rewrite E. apply fmap_digits.
Qed.

(** In place, the words above those of the second operand keep their content, whatever the operation is. *)
Lemma compute_inplace_bitwise_runs operation l2 result :
  words_ok w l2 -> words_ok w result -> (length l2 <= length result)%nat ->
  let low := weight w (length l2) in
  runs (compute_inplace_bitwise w operation l2 result) (fun r => length r = length result /\ words_ok w r
    /\ value w r = bitwise_integer operation (value w result) (value w l2) mod low + low * (value w result / low)).
Proof using Hw.
  intros H2 Hr Hle low. unfold compute_inplace_bitwise. rewrite Nat.min_r by done.
  set (X := bitwise_integer operation (value w result) (value w l2)). eapply runs_mono.
  - apply (for_range_runs (fun i r => length r = length result /\ take i r = digit w X <$> seq 0 i /\ drop i r = drop i result)); [lia|by split|].
    intros i r Hi (Hlen & E & Hd). destruct (at_index_some r i ltac:(lia)) as (x & Hx & ->).
    destruct (at_index_some l2 i ltac:(lia)) as (y & Hy & ->). ret. pose proof (lookup_drop_eq _ _ _ Hd) as Hxr. rewrite Hx in Hxr. symmetry in Hxr.
    rewrite set_at_index_Ok by lia. apply runs_ret. split; [by rewrite length_insert|]. split; [|by apply drop_S_insert].
    rewrite take_insert_S, E, seq_S, fmap_app by lia. rewrite <- (nth_lookup_Some _ _ 0 _ Hxr), <- (nth_lookup_Some _ _ 0 _ Hy).
    by rewrite !nth_digit, bitwise_digit.
  - intros r (Hlen & E & Hd). destruct (fmap_digits X (length l2)) as [Hok HV]. split; [done|].
    rewrite <- (take_drop (length l2) r), E, Hd. split; [apply words_ok_app; [done|by apply words_ok_drop]|].
    rewrite value_app, HV, length_fmap, length_seq by done. fold low. do 2 f_equal.
    rewrite (value_split w Hw (length l2) result), Nat.min_l by done. fold low.
    pose proof (value_bound w Hw _ (words_ok_take w _ (length l2) Hr)) as Hb. rewrite length_take_le in Hb by done. fold low in Hb.
    rewrite Z.add_comm, Z.mul_comm, Z.div_add_l, Z.div_small by lia. lia.
Qed.

(** ** Comparison *)
Definition compares (is_for_inequality : bool) (a b r : Z) : Prop :=
  if is_for_inequality then r = 0 <-> a = b else r = Z.sgn (a - b).

Lemma compares_less ineq a b : a < b -> compares ineq a b (-1).
Proof using. intros H. unfold compares. destruct ineq; lia. Qed.

Lemma compares_greater ineq a b : b < a -> compares ineq a b 1.
Proof using. intros H. unfold compares. destruct ineq; lia. Qed.

Lemma compares_shift ineq a b c r : compares ineq a b r -> compares ineq (a + c) (b + c) r.
Proof using. unfold compares. destruct ineq; lia. Qed.

Lemma high_words_differ_runs l v low :
  (low <= length l)%nat ->
  runs (high_words_differ l v low (length l)) (fun d => d = existsb (fun x => negb (x =? v)) (drop low l)).
Proof using.
  intros Hlow. apply (for_range_down_runs (fun i d => d = existsb (fun x => negb (x =? v)) (drop i l))); [done|by rewrite drop_ge|].
  intros i d Hi ->. destruct (at_index_some l i ltac:(lia)) as (x & Hx & ->). ret. apply runs_ret. rewrite (drop_S _ _ _ Hx).
  cbn [existsb]. by destruct (negb (x =? v)).
Qed.

Lemma high_words_equal l v : existsb (fun x => negb (x =? v)) l = false -> l = replicate (length l) v.
Proof using.
  induction l as [|x l IH]; [done|]. cbn [existsb length replicate]. intros [Hx Hl]%orb_false_iff.
  apply negb_false_iff, Z.eqb_eq in Hx. by rewrite Hx, <- IH.
Qed.

(** High words that are not all copies of the sign hold an integer out of the range of the low ones. *)
Lemma high_words_out (sign : bool) l :
  words_ok w l -> existsb (fun x => negb (x =? extend_sign w sign)) l = true ->
  if sign then value w l <= weight w (length l) - 2 else 1 <= value w l.
Proof using Hw.
  intros Hl H. pose proof (value_bound w Hw l Hl) as H0. destruct sign; cbn [extend_sign] in H.
  - induction Hl as [|x l Hx Hl IH]; [done|]. cbn [existsb value length] in *. rewrite weight_S by done. unfold in_width in Hx.
    pose proof (value_bound w Hw l Hl). destruct (Z.eqb_spec x (base - 1)) as [->|Hne]; cbn [negb orb] in H; [specialize (IH H ltac:(done)); nia|nia].
  - destruct (Z.eq_dec (value w l) 0) as [E|]; [|lia]. apply value_zero in E; [|done..]. exfalso.
    clear Hl H0. by induction E as [|x l <- _ IH].
Qed.

Lemma compare_words_runs l1 l2 ineq n :
  words_ok w l1 -> words_ok w l2 -> (n <= length l1)%nat -> (n <= length l2)%nat ->
  runs (compare_words l1 l2 ineq n) (compares ineq (value w (take n l1)) (value w (take n l2))).
Proof using Hw.
  intros H1 H2. induction n as [|n IH]; intros Hn1 Hn2; cbn [compare_words].
  { apply runs_ret. rewrite !take_0. unfold compares. by destruct ineq. }
  destruct (at_index_some l1 n ltac:(lia)) as (x & Hx & ->). destruct (at_index_some l2 n ltac:(lia)) as (y & Hy & ->). ret.
  rewrite !value_take_S, Hx, Hy by done. cbn [from_option id].
  pose proof (value_bound w Hw _ (words_ok_take w _ n H1)) as B1. pose proof (value_bound w Hw _ (words_ok_take w _ n H2)) as B2.
  rewrite length_take_le in B1, B2 by lia. set (W := weight w n) in *. set (a := value w (take n l1)) in *. set (b := value w (take n l2)) in *.
  destruct (Z.lt_trichotomy x y) as [H|[->|H]].
  - destruct ineq.
    + rewrite (proj2 (Z.eqb_neq x y)) by lia. cbn [negb]. apply runs_ret. unfold compares. nia.
    + rewrite (proj2 (Z.ltb_ge y x)), (proj2 (Z.ltb_lt x y)) by lia. apply runs_ret. apply compares_less. nia.
  - rewrite Z.eqb_refl, Z.ltb_irrefl. cbn [negb]. destruct ineq; (eapply runs_mono; [apply IH; lia|]); intros r Hr; by apply compares_shift.
  - destruct ineq.
    + rewrite (proj2 (Z.eqb_neq x y)) by lia. cbn [negb]. apply runs_ret. unfold compares. nia.
    + rewrite (proj2 (Z.ltb_lt y x)) by lia. apply runs_ret. apply compares_greater. nia.
Qed.

(** The integer of a storage that goes on above its first [n] words with its sign, and of one that does not *)
Lemma storage_value_high s n :
  storage_ok w s -> (n <= size s)%nat ->
  if existsb (fun x => negb (x =? extend_sign w (sign_of w s))) (drop n (words s))
  then if sign_of w s then storage_value w s < - weight w n else weight w n <= storage_value w s
  else storage_value w s = value w (take n (words s)) - Z.b2z (sign_of w s) * weight w n.
Proof using Hw.
  intros [Hok _] Hn. unfold storage_value, size in *. rewrite (value_split w Hw n (words s)), Nat.min_l by done.
  pose proof (value_bound w Hw _ (words_ok_take w _ n Hok)) as Hb. rewrite length_take_le in Hb by done.
  replace (weight w (length (words s))) with (weight w n * weight w (length (drop n (words s))))
    by (rewrite <- weight_add by done; f_equal; rewrite length_drop; lia).
  set (W := weight w n) in *. pose proof (words_ok_drop w _ n Hok) as Hd.
  destruct (existsb _ _) eqn:E.
  - pose proof (high_words_out _ _ Hd E) as H. destruct (sign_of w s); cbn [Z.b2z]; nia.
  - apply high_words_equal in E. rewrite E at 1. unfold extend_sign. destruct (sign_of w s); cbn [Z.b2z]; [rewrite value_ones|rewrite value_replicate]; lia.
Qed.

Lemma compare_runs s1 s2 ineq :
  storage_ok w s1 -> storage_ok w s2 ->
  runs (compare w s1 s2 ineq) (compares ineq (storage_value w s1) (storage_value w s2)).
Proof using Hw.
  intros H1 H2. unfold compare. rewrite !is_negative_spec by done. ret.
  pose proof (storage_value_sign s1 H1) as B1. pose proof (storage_value_sign s2 H2) as B2.
  destruct (xorb (sign_of w s1) (sign_of w s2)) eqn:Ex.
  { apply runs_ret. destruct (sign_of w s1), (sign_of w s2); try done; [apply compares_less|apply compares_greater]; lia. }
  apply xorb_eq in Ex. destruct (Nat.ltb_spec (size s2) (size s1)) as [Hlt|Hge].
  - eapply runs_bind; [apply high_words_differ_runs; unfold size in *; lia|]. intros d ->.
    pose proof (storage_value_high s1 (size s2) H1 ltac:(lia)) as Hh. fold (size s1) in Hh.
    destruct (existsb _ _).
    + apply runs_ret. destruct (sign_of w s1); cbn [xorb]; rewrite <- Ex in B2; [apply compares_less|apply compares_greater]; lia.
    + eapply runs_mono; [apply compare_words_runs; [apply H1|apply H2|unfold size in *; lia|unfold size in *; lia]|].
      intros r Hr. apply (compares_shift _ _ _ (- Z.b2z (sign_of w s1) * weight w (size s2))) in Hr. rewrite Hh.
      unfold storage_value. rewrite <- Ex. rewrite (take_ge (words s2)) in Hr by done. unfold compares in *. destruct ineq; lia.
  - destruct (Nat.ltb_spec (size s1) (size s2)) as [Hlt|Hge2].
    + eapply runs_bind; [apply high_words_differ_runs; unfold size in *; lia|]. intros d ->.
      pose proof (storage_value_high s2 (size s1) H2 ltac:(lia)) as Hh. rewrite <- Ex in Hh.
      destruct (existsb _ _).
      * apply runs_ret. rewrite <- Ex in B2. destruct (sign_of w s1); cbn [xorb]; [apply compares_greater|apply compares_less]; lia.
      * eapply runs_mono; [apply compare_words_runs; [apply H1|apply H2|unfold size in *; lia|unfold size in *; lia]|].
        intros r Hr. apply (compares_shift _ _ _ (- Z.b2z (sign_of w s1) * weight w (size s1))) in Hr. rewrite Hh.
        unfold storage_value. rewrite (take_ge (words s1)) in Hr by done. unfold compares in *. destruct ineq; lia.
    + ret. eapply runs_mono; [apply compare_words_runs; [apply H1|apply H2|unfold size in *; lia|unfold size in *; lia]|].
      intros r Hr. apply (compares_shift _ _ _ (- Z.b2z (sign_of w s1) * weight w (size s1))) in Hr.
      unfold storage_value. rewrite <- Ex. replace (size s2) with (size s1) by lia.
      rewrite !take_ge in Hr by (unfold size in *; lia). unfold compares in *. destruct ineq; lia.
Qed.

(** ** Multiplication *)
Fixpoint sum_below (f : nat -> Z) (n : nat) : Z :=
  match n with O => 0 | S n => sum_below f n + f n end.

Lemma sum_below_ext f g n : (forall i, (i < n)%nat -> f i = g i) -> sum_below f n = sum_below g n.
Proof using. induction n as [|n IH]; intros H; cbn [sum_below]; [done|]. rewrite IH, H by (done || lia || intros; apply H; lia). done. Qed.

Lemma sum_below_linear f g x y n : sum_below (fun i => x * f i + y * g i) n = x * sum_below f n + y * sum_below g n.
Proof using. induction n as [|n IH]; cbn [sum_below]; [lia|]. rewrite IH. ring. Qed.

Lemma sum_below_shift f n : sum_below f (S n) = f 0%nat + sum_below (fun i => f (S i)) n.
Proof using. induction n as [|n IH]; [cbn; lia|]. change (sum_below f (S (S n))) with (sum_below f (S n) + f (S n)). rewrite IH. cbn [sum_below]. lia. Qed.

Lemma sum_below_zero f lo hi : (lo <= hi)%nat -> (forall j, (lo <= j < hi)%nat -> f j = 0) -> sum_below f hi = sum_below f lo.
Proof using.
  intros Hle. replace hi with (lo + (hi - lo))%nat by lia. induction (hi - lo)%nat as [|k IH]; intros H; [by rewrite Nat.add_0_r|].
  rewrite Nat.add_succ_r. cbn [sum_below]. rewrite IH, H by (lia || intros; apply H; lia). lia.
Qed.

(** The i-th column of the product: the sum of the products of words whose indices add up to [i] *)
Definition column_term (a b : list Z) (i j : nat) : Z := nth j a 0 * nth (i - j) b 0.
Definition column (a b : list Z) (i : nat) : Z := sum_below (column_term a b i) (S i).
Definition columns (a b : list Z) (n : nat) : Z := sum_below (fun i => weight w i * column a b i) n.

Lemma column_cons x a b i : column (x :: a) b i = x * nth i b 0 + match i with O => 0 | S i => column a b i end.
Proof using.
  unfold column. rewrite sum_below_shift. unfold column_term at 1. cbn [nth]. rewrite Nat.sub_0_r. f_equal. by destruct i.
Qed.

Lemma value_nth n b : value w (extended n b 0) = sum_below (fun i => weight w i * nth i b 0) n.
Proof using Hw.
  induction n as [|n IH]; [done|]. rewrite extended_S, value_app, IH, length_extended by done. cbn [value sum_below]. lia.
Qed.

Lemma columns_nil b n : columns [] b n = 0.
Proof using.
  unfold columns. assert (H : forall i, column [] b i = 0).
  { intros i. unfold column. rewrite (sum_below_zero _ 0) by (lia || intros [] _; done). done. }
  rewrite (sum_below_zero _ 0); [done|lia|]. intros j _. rewrite H. lia.
Qed.

Lemma columns_cons x a b n : columns (x :: a) b (S n) = x * value w (extended (S n) b 0) + base * columns a b n.
Proof using Hw.
  unfold columns. rewrite value_nth.
  rewrite (sum_below_ext _ (fun i => x * (weight w i * nth i b 0) + 1 * (weight w i * match i with O => 0 | S i => column a b i end)))
    by (intros i _; rewrite column_cons; ring).
  rewrite sum_below_linear, Z.mul_1_l. f_equal. rewrite sum_below_shift. rewrite Z.mul_0_r, Z.add_0_l.
  rewrite (sum_below_ext _ (fun i => base * (weight w i * column a b i) + 0 * 0)) by (intros i _; rewrite weight_S by done; ring).
  rewrite sum_below_linear. lia.
Qed.

Lemma columns_product a b n : words_ok w b -> (weight w n | value w a * value w b - columns a b n).
Proof using Hw.
  intros Hb. revert n. induction a as [|x a IH]; intros n; [rewrite columns_nil; cbn [value]; exists 0; lia|].
  destruct n as [|n]; [rewrite weight_0; apply Z.divide_1_l|]. rewrite columns_cons. cbn [value].
  assert (Hs : storage_ok w (mk_storage false b)) by (split; [done|by cbn]).
  pose proof (value_extended_mod (S n) (mk_storage false b) Hs) as E. cbn [words] in E. change (extend_sign w (sign_of w (mk_storage false b))) with 0 in E.
  unfold storage_value in E. change (sign_of w (mk_storage false b)) with false in E. cbn [Z.b2z words] in E. rewrite Z.sub_0_r in E. rewrite E.
  pose proof (weight_pos w Hw (S n)). pose proof (Z.div_mod (value w b) (weight w (S n)) ltac:(lia)) as D.
  destruct (IH n) as [q Hq]. exists (x * (value w b / weight w (S n)) + q). pose proof (weight_S w Hw n) as HV.
  set (V := weight w (S n)) in *. replace (value w b mod V) with (value w b - V * (value w b / V)) by lia.
  set (d := value w b / V) in *. clearbody d.
  transitivity (x * d * V + base * (value w a * value w b - columns a b n)); [ring|]. rewrite Hq, HV. ring.
Qed.

(** One product of words into a word and a carry that has room for it *)
Lemma multiply_step_runs d1 d2 i j x1 x2 word carry :
  d1 !! j = Some x1 -> d2 !! (i - j)%nat = Some x2 -> (j <= i)%nat -> in_width w x1 -> in_width w x2 -> in_width w word ->
  0 <= carry -> word + base * carry + x1 * x2 < base * (base * base) ->
  runs (multiply_step w d1 d2 i j (word, carry)) (fun '(word', carry') =>
    in_width w word' /\ 0 <= carry' /\ word' + base * carry' = word + base * carry + x1 * x2).
Proof using Hw.
  intros H1 H2 Hij Hx1 Hx2 Hword Hc Hroom. unfold multiply_step. rewrite (at_index_Ok _ _ _ H1).
  replace (Z.of_nat i - Z.of_nat j) with (Z.of_nat (i - j)) by lia. rewrite (at_index_Ok _ _ _ H2). ret.
  change (wrap (2 * w) (x1 * x2)) with (wide_multiply w x1 x2). rewrite wide_multiply_exact by done. rewrite Z.shiftr_div_pow2 by lia.
  assert (Hwx : in_width w (wrap w (x1 * x2))) by (apply wrap_range; lia).
  destruct (add_words_spec w Hw word (wrap w (x1 * x2)) false Hword Hwx) as (o & c & -> & Ho & E). apply runs_ret.
  unfold wrap in E at 1. pose proof (Z.div_mod (x1 * x2) base ltac:(lia)) as D. unfold in_width in *.
  set (h := x1 * x2 / base) in *. assert (0 <= h) by (apply Z.div_pos; nia). assert (Hc' : 0 <= Z.b2z c <= 1) by (destruct c; cbn; lia).
  cbn [Z.b2z] in E. assert (E2 : o + base * (carry + (h + Z.b2z c)) = word + base * carry + x1 * x2) by lia.
  rewrite wrap_small; [split; [done|]; split; [lia|done]|]. unfold in_width. rewrite double_base by done. nia.
Qed.

Lemma column_room B m n t x :
  1 <= B -> 0 <= n < m -> m < B -> t <= m * B + n * ((B - 1) * (B - 1)) -> x <= (B - 1) * (B - 1) -> t + x < B * (B * B).
Proof using.
  intros HB Hn Hm Ht Hx. assert ((n + 1) * ((B - 1) * (B - 1)) <= m * ((B - 1) * (B - 1))) by (apply Z.mul_le_mono_nonneg_r; nia).
  assert (m * (B * B - B + 1) <= (B - 1) * (B * B - B + 1)) by (apply Z.mul_le_mono_nonneg_r; nia).
  assert (B <= B * B) by nia. lia.
Qed.

Lemma column_carry B m n word c :
  1 <= B -> 0 <= n <= m -> 0 <= word -> word + B * c <= m * B + n * ((B - 1) * (B - 1)) -> c <= m * B.
Proof using.
  intros HB Hn Hword Hc. assert (n * ((B - 1) * (B - 1)) <= m * ((B - 1) * (B - 1))) by (apply Z.mul_le_mono_nonneg_r; nia).
  apply (Z.mul_le_mono_pos_l _ _ B); [lia|]. assert (m <= m * B) by nia. lia.
Qed.

Section product.
Context (d1 d2 : list Z) (size1 size2 : nat).
Context (H1 : words_ok w d1) (H2 : words_ok w d2) (Hs1 : (size1 <= length d1)%nat) (Hs2 : (size2 <= length d2)%nat) (Hroom : Z.of_nat size2 < base).
Let a := take size1 d1.
Let b := take size2 d2.

Lemma nth_take_word l n j : (j < n)%nat -> nth j (take n l) 0 = nth j l 0.
Proof using. intros H. by rewrite !nth_lookup, lookup_take_lt. Qed.

Lemma multiply_column i carry :
  0 <= carry <= Z.of_nat size2 * base ->
  let start_index := if (size2 <=? i)%nat then (i - size2 + 1)%nat else 0%nat in
  let end_index := Nat.min (i + 1) size1 in
  runs (for_range start_index end_index (multiply_step w d1 d2 i) (wrap w carry, Z.shiftr carry w)) (fun '(word, carry') =>
    in_width w word /\ 0 <= carry' <= Z.of_nat size2 * base /\ word + base * carry' = carry + column a b i).
Proof using Hw H1 H2 Hs1 Hs2 Hroom.
  intros Hc lo hi. assert (Hlo : (lo <= S i)%nat /\ forall j, (j < lo)%nat -> column_term a b i j = 0).
  { unfold lo, column_term. destruct (Nat.leb_spec size2 i); (split; [lia|]); intros j Hj; [|lia].
    rewrite (nth_overflow b) by (unfold b; rewrite length_take; lia). lia. }
  assert (Hhi : (hi <= S i)%nat /\ forall j, (hi <= j < S i)%nat -> column_term a b i j = 0).
  { unfold hi, column_term. split; [lia|]. intros j Hj. rewrite (nth_overflow a) by (unfold a; rewrite length_take; lia). lia. }
  assert (H0 : 0 <= carry / base) by (apply Z.div_pos; lia). rewrite Z.shiftr_div_pow2 by lia.
  pose proof (Z.div_mod carry base ltac:(lia)) as D. assert (Hwc : in_width w (wrap w carry)) by (apply wrap_range; lia).
  destruct (Nat.le_gt_cases lo hi) as [Hle|Hgt].
  - eapply runs_mono.
    + apply (for_range_runs (fun k '(word, c) => in_width w word /\ 0 <= c /\ word + base * c = carry + sum_below (column_term a b i) k
        /\ word + base * c <= Z.of_nat size2 * base + Z.of_nat (k - lo) * ((base - 1) * (base - 1)))); [done| |].
      * rewrite (sum_below_zero _ 0 lo) by (lia || intros; apply Hlo; lia). cbn [sum_below]. unfold wrap in *. repeat split; try apply Hwc; lia.
      * intros k [word c] Hk (Hword & Hc0 & E & Hb). assert (Hki : (k <= i)%nat /\ (k < size1)%nat) by lia. assert (Hik : (i - k < size2)%nat) by (unfold lo in Hk; destruct (Nat.leb_spec size2 i); lia).
        destruct (lookup_lt_is_Some_2 d1 k ltac:(lia)) as [x1 Hx1]. destruct (lookup_lt_is_Some_2 d2 (i - k)%nat ltac:(lia)) as [x2 Hx2].
        pose proof (words_ok_lookup w _ _ _ H1 Hx1) as R1. pose proof (words_ok_lookup w _ _ _ H2 Hx2) as R2. unfold in_width in R1, R2.
        assert (Hx : x1 * x2 <= (base - 1) * (base - 1)) by nia.
        assert (Hn : Z.of_nat (S k - lo) = Z.of_nat (k - lo) + 1) by lia. assert (Hkn : Z.of_nat (S k - lo) <= Z.of_nat size2) by (unfold lo in *; destruct (Nat.leb_spec size2 i); lia).
        eapply runs_mono; [apply (multiply_step_runs d1 d2 i k x1 x2 word c); try done; [lia|]|].
        { apply (column_room base (Z.of_nat size2) (Z.of_nat (k - lo))); lia. }
        intros [word' c'] (Hw' & Hc' & E'). split; [done|]. split; [done|]. cbn [sum_below].
        replace (column_term a b i k) with (x1 * x2) by (unfold column_term, a, b; by rewrite !nth_take_word, (nth_lookup_Some _ _ _ _ Hx1), (nth_lookup_Some _ _ _ _ Hx2) by lia).
        split; [lia|]. rewrite Hn. nia.
    + intros [word c] (Hword & Hc0 & E & Hb). unfold column. rewrite (sum_below_zero _ hi (S i)) by (done || apply Hhi). split; [done|]. split; [|done]. split; [done|].
      assert (Hkn : Z.of_nat (hi - lo) <= Z.of_nat size2) by (unfold lo, hi; destruct (Nat.leb_spec size2 i); lia).
      unfold in_width in Hword. apply (column_carry base (Z.of_nat size2) (Z.of_nat (hi - lo)) word); lia.
  - unfold for_range. replace (hi - lo)%nat with 0%nat by lia. cbn [for_up]. apply runs_ret. unfold column.
    rewrite (sum_below_zero _ 0 (S i)); [cbn [sum_below]|lia|intros j Hj; destruct (Nat.lt_ge_cases j lo); [by apply Hlo|apply Hhi; lia]].
    unfold wrap in *. split; [done|]. split; [|lia]. split; [done|].
    transitivity carry; [|lia]. apply Z.div_le_upper_bound; nia.
Qed.

Lemma multiply_words_runs result :
  runs (multiply_words w d1 d2 size1 size2 result) (fun r => length r = length result /\ words_ok w r
    /\ value w r = (value w a * value w b) mod weight w (length result)).
Proof using Hw H1 H2 Hs1 Hs2 Hroom.
  unfold multiply_words. eapply runs_bind.
  - apply (for_range_runs (fun i '(r, carry) => length r = length result /\ words_ok w (take i r) /\ 0 <= carry <= Z.of_nat size2 * base
      /\ value w (take i r) + weight w i * carry = columns a b i)); [lia| |].
    + rewrite take_0. cbn [value]. split; [done|]. split; [constructor|]. split; [lia|]. unfold columns. cbn [sum_below]. lia.
    + intros i [r carry] Hi (Hr & Hok & Hc & E). eapply runs_bind; [by apply multiply_column|].
      intros [word carry'] (Hword & Hc' & E'). rewrite set_at_index_Ok by lia. ret. apply runs_ret. split; [by rewrite length_insert|].
      rewrite take_insert_S by lia. split; [apply words_ok_app; [done|by apply Forall_singleton]|]. split; [done|].
      rewrite value_app, length_take_le, weight_S by (done || lia). cbn [value]. unfold columns in *. cbn [sum_below]. rewrite <- E.
      set (W := weight w i) in *. nia.
  - intros [r carry] (Hr & Hok & Hc & E). rewrite take_ge in Hok, E by lia. apply runs_ret. split; [done|]. split; [done|].
    assert (Hb : words_ok w b) by (by apply words_ok_take). destruct (columns_product a b (length result) Hb) as [q Hq].
    pose proof (value_bound w Hw _ Hok) as Hv. rewrite Hr in Hv. apply Z.mod_unique_pos with (carry + q); [done|lia].
Qed.
End product.

Lemma value_take_mod l n : words_ok w l -> value w (take (Nat.min (length l) n) l) mod weight w n = value w l mod weight w n.
Proof using Hw.
  intros Hl. destruct (Nat.le_ge_cases (length l) n) as [H|H]; [by rewrite Nat.min_l, firstn_all|]. rewrite Nat.min_r by done.
  rewrite (value_split w Hw n l), Nat.min_l by done. rewrite Z.mul_comm, Z.mod_add; [done|]. pose proof (weight_pos w Hw n). lia.
Qed.

Lemma storage_value_mod s n : (n <= size s)%nat -> value w (words s) mod weight w n = storage_value w s mod weight w n.
Proof using Hw.
  intros H. unfold storage_value. replace (size s) with (n + (size s - n))%nat by lia. rewrite weight_add by done.
  pose proof (weight_pos w Hw n). replace (value w (words s) - Z.b2z (sign_of w s) * (weight w n * weight w (size s - n)))
    with (value w (words s) + - (Z.b2z (sign_of w s) * weight w (size s - n)) * weight w n) by ring. by rewrite Z.mod_add by lia.
Qed.

Definition allocates (allocate : nat -> outcome (list Z)) : Prop := forall n, runs (allocate n) (fun l => length l = n).

(** The magnitude of an operand *)
Lemma normalized_words_runs allocate s :
  storage_ok w s -> (sign_of w s = true -> allocates allocate) ->
  runs (normalized_words w allocate (words s) (sign_of w s)) (fun l => length l = size s /\ words_ok w l /\ value w l = Z.abs (storage_value w s)).
Proof using Hw.
  intros Hs Ha. pose proof Hs as [Hok _]. pose proof (value_bound w Hw _ Hok) as Hb. unfold normalized_words, storage_value, size.
  destruct (sign_of w s) eqn:E; cbn [Z.b2z].
  - pose proof (sign_value s Hs E) as Hpos. eapply runs_bind; [by apply Ha|]. intros buffer Hlen.
    eapply runs_bind; [by apply negate_runs|]. intros [l nz] (Hl & Hlok & _ & Hv). apply runs_ret. split; [done|]. split; [done|].
    rewrite Hv. symmetry. apply Z.mod_unique_pos with (-1); lia.
  - apply runs_ret. split; [done|]. split; [done|]. lia.
Qed.

Lemma mul_ordered_runs allocate s1 s2 result :
  storage_ok w s1 -> storage_ok w s2 -> (sign_of w s1 || sign_of w s2 = true -> allocates allocate) ->
  (size s2 <= size s1)%nat -> Z.of_nat (size s2) < base ->
  runs (mul_ordered w allocate s1 s2 (sign_of w s1) (sign_of w s2) result) (fun r => length r = length result /\ words_ok w r
    /\ value w r = (storage_value w s1 * storage_value w s2) mod weight w (length result)).
Proof using Hw.
  intros H1 H2 Ha Hle Hroom. unfold mul_ordered. set (n := length result). pose proof (weight_pos w Hw n) as HW.
  destruct (Nat.ltb_spec (size s2) n) as [Hwide|Hnarrow]; cbn [andb].
  - eapply runs_bind; [apply normalized_words_runs; [done|intros E; apply Ha; by rewrite E]|]. intros l1 (Hl1 & Hok1 & Hv1).
    eapply runs_bind; [apply normalized_words_runs; [done|intros E; apply Ha; rewrite E; apply orb_true_r]|]. intros l2 (Hl2 & Hok2 & Hv2).
    eapply runs_bind; [apply multiply_words_runs; [done|done|lia|lia|lia]|]. intros r (Hr & Hrok & Hv). fold n in Hr, Hv.
    rewrite Z.mul_mod in Hv by lia. rewrite <- Hl1, <- Hl2, !value_take_mod, <- Z.mul_mod, Hv1, Hv2 in Hv by (done || lia).
    pose proof (storage_value_sign s1 H1) as B1. pose proof (storage_value_sign s2 H2) as B2.
    destruct (xorb (sign_of w s1) (sign_of w s2)) eqn:Ex.
    + eapply runs_bind; [by apply negate_runs|]. intros [r' nz] (Hr' & Hrok' & _ & Hv'). apply runs_ret. split; [lia|]. split; [done|].
      rewrite Hv', Hr, Hv. rewrite <- (Z.sub_0_l (_ mod _)), Zminus_mod_idemp_r. f_equal. destruct (sign_of w s1), (sign_of w s2); try done; nia.
    + apply runs_ret. split; [done|]. split; [done|]. rewrite Hv. f_equal. destruct (sign_of w s1), (sign_of w s2); try done; nia.
  - cbn [normalized_words]. ret. eapply runs_bind; [apply multiply_words_runs; [apply H1|apply H2|unfold size; lia|unfold size; lia|lia]|].
    intros r (Hr & Hrok & Hv). fold n in Hr, Hv. apply runs_ret. split; [done|]. split; [done|]. rewrite Hv.
    rewrite Z.mul_mod by lia. unfold size. rewrite !value_take_mod by (apply H1 || apply H2). rewrite !storage_value_mod by lia. by rewrite <- Z.mul_mod by lia.
Qed.

Lemma multiply_single_runs word1 word2 result :
  in_width w word1 -> in_width w word2 -> result <> [] ->
  runs (multiply_single w false false word1 word2 0 result) (fun r => length r = length result /\ words_ok w r
    /\ value w r = (word1 * word2) mod weight w (length result)).
Proof using Hw.
  intros H1 H2 Hne. unfold multiply_single. cbn [andb]. change (wrap (2 * w) (word1 * word2)) with (wide_multiply w word1 word2).
  rewrite wide_multiply_exact by done. set (p := word1 * word2). rewrite Z.shiftr_div_pow2 by lia. unfold in_width in H1, H2.
  assert (Hp : 0 <= p < base * base) by (unfold p; nia). assert (Hh : 0 <= p / base < base) by (split; [apply Z.div_pos; lia|apply Z.div_lt_upper_bound; lia]).
  rewrite (wrap_small w (p / base)) by done. destruct result as [|y l]; [done|].
  change (set_at_index (y :: l) 0 (wrap w p)) with (Ok (wrap w p :: l)). ret. destruct l as [|z l]; cbn [length Nat.ltb Nat.leb].
  - apply runs_ret. split; [done|]. split; [apply Forall_singleton, wrap_range; lia|]. cbn [value]. rewrite weight_S, weight_0 by done. unfold wrap. by rewrite Z.mul_0_r, Z.add_0_r, Z.mul_1_r.
  - change (set_at_index (wrap w p :: z :: l) 1) with (set_at_index (wrap w p :: z :: l) (Z.of_nat 1)).
    rewrite set_at_index_Ok by (cbn; lia). ret. cbn [insert list_insert].
    eapply runs_mono; [apply (zero_fill (wrap w p :: p / base :: l) 2); cbn; lia|]. intros r ->.
    cbn [take length Nat.sub app]. rewrite take_0, (drop_ge (_ :: _ :: l)) by (cbn; lia). rewrite app_nil_r. cbn [app length value].
    rewrite length_replicate, value_replicate, !Nat.sub_0_r. split; [done|]. split.
    { constructor; [apply wrap_range; lia|]. constructor; [done|]. by apply words_ok_zeros. }
    rewrite !weight_S by done. pose proof (weight_pos w Hw (length l)). unfold wrap. pose proof (Z.div_mod p base ltac:(lia)).
    rewrite (Z.mod_small p (base * (base * _))) by nia. lia.
Qed.

Lemma baseline_mul_runs allocate s1 s2 result :
  storage_ok w s1 -> storage_ok w s2 -> (sign_of w s1 || sign_of w s2 = true -> allocates allocate) ->
  (size s1 = 1%nat -> size s2 = 1%nat -> is_signed s1 = false /\ is_signed s2 = false) ->
  Z.of_nat (Nat.min (size s1) (size s2)) < base -> result <> [] ->
  runs (baseline_mul w allocate s1 s2 result) (fun r => length r = length result /\ words_ok w r
    /\ value w r = (storage_value w s1 * storage_value w s2) mod weight w (length result)).
Proof using Hw.
  intros H1 H2 Ha Hsingle Hroom Hne. unfold baseline_mul. rewrite !is_negative_spec by done. ret.
  destruct (Nat.eqb_spec (size s1) 1) as [E1|E1]; [destruct (Nat.eqb_spec (size s2) 1) as [E2|E2]|]; cbn [andb].
  - destruct (Hsingle E1 E2) as [Hu1 Hu2]. unfold sign_of, storage_value, size in *. unfold sign_of. rewrite Hu1, Hu2. cbn [andb xorb extend_sign Z.b2z].
    destruct H1 as [H1 _], H2 as [H2 _]. destruct (words s1) as [|x [|]], (words s2) as [|y [|]]; try done.
    apply (proj1 (Forall_singleton _ _)) in H1, H2. change (at_index [x] 0) with (Ok x). change (at_index [y] 0) with (Ok y). ret. cbn [value].
    eapply runs_mono; [by apply multiply_single_runs|]. intros r (Hr & Hok & ->). split; [done|]. split; [done|]. f_equal. lia.
  - destruct (Nat.ltb_spec (size s1) (size s2)); [|apply mul_ordered_runs; try done; lia].
    rewrite Z.mul_comm. apply mul_ordered_runs; try done; [by rewrite orb_comm|lia|lia].
  - destruct (Nat.ltb_spec (size s1) (size s2)); [|apply mul_ordered_runs; try done; lia].
    rewrite Z.mul_comm. apply mul_ordered_runs; try done; [by rewrite orb_comm|lia|lia].
Qed.

(** The integers that a storage can hold *)
Definition representable (signed : bool) (n : nat) (v : Z) : Prop :=
  if signed then - weight w n <= 2 * v < weight w n else 0 <= v < weight w n.

Lemma storage_value_representable s : storage_ok w s -> representable (is_signed s) (size s) (storage_value w s).
Proof using Hw.
  intros [Hok Hne]. unfold representable, storage_value, sign_of, size. pose proof (value_bound w Hw _ Hok) as Hb.
  destruct (is_signed s); cbn [andb Z.b2z]; [|lia]. specialize (Hne eq_refl). destruct (words s) as [|x l _] using rev_ind; [done|].
  rewrite last_last. apply Forall_app in Hok as [Hl Hx]. apply (proj1 (Forall_singleton _ _)) in Hx. unfold in_width in Hx.
  pose proof (value_bound w Hw _ Hl) as Hbl. rewrite value_app, length_app, Nat.add_1_r, weight_S in * by done. cbn [value] in *.
  pose proof (weight_pos w Hw (length l)). assert (base = 2 * 2 ^ (w - 1)) by (rewrite <- Z.pow_succ_r by lia; f_equal; lia).
  destruct (Z.leb_spec (2 ^ (w - 1)) x); cbn [Z.b2z]; nia.
Qed.

(** The return value is zero when, and only when, the result fits. *)
Lemma overflow_zero s exact overflow :
  storage_ok w s -> exact = storage_value w s + overflow * weight w (size s) -> overflow = 0 <-> representable (is_signed s) (size s) exact.
Proof using Hw.
  intros Hs%storage_value_representable ->. pose proof (weight_pos w Hw (size s)). unfold representable in *. destruct (is_signed s); split; intros; nia.
Qed.
End storages.

(** ** Properties *)

(** The documented contract of addition and subtraction with carry and of the increment, for signed and unsigned
    storages of every word width and size: the result storage, which is at least as large as the operands, and
    the return value [r] satisfy [a + b * (-1) ** subtract = c + r * 2 ** (size * word_size)], the carry being
    part of [b], and [r] is zero exactly when the result can be held. *)
Theorem storage_add_contract w subtract s1 s2 result carry :
  0 < w -> storage_ok w s1 -> storage_ok w s2 -> (is_signed result = true -> words result <> []) ->
  (size s1 <= size result)%nat -> (size s2 <= size result)%nat ->
  (exists overflow c, storage_add w subtract s1 s2 result carry = Ok (overflow, c)
    /\ storage_ok w c /\ is_signed c = is_signed result /\ size c = size result
    /\ storage_value w s1 + direction subtract * (storage_value w s2 + Z.b2z carry) = storage_value w c + overflow * weight w (size result)
    /\ (overflow = 0 <-> representable w (is_signed result) (size result) (storage_value w s1 + direction subtract * (storage_value w s2 + Z.b2z carry))))
  /\ (exists overflow c, increment w subtract s1 = Ok (overflow, c)
    /\ storage_ok w c /\ is_signed c = is_signed s1 /\ size c = size s1
    /\ storage_value w s1 + direction subtract = storage_value w c + overflow * weight w (size s1)
    /\ (overflow = 0 <-> representable w (is_signed s1) (size s1) (storage_value w s1 + direction subtract))).
Proof.
  intros Hw H1 H2 Hr L1 L2. split.
  - destruct (storage_add_runs w Hw subtract s1 s2 result carry H1 H2 Hr L1 L2) as ([overflow c] & E & Hc & Hsig & Hsize & Hv).
    exists overflow, c. do 5 (split; [done|]). rewrite <- Hsig, <- Hsize in *. by apply overflow_zero.
  - destruct (increment_runs w Hw subtract s1 H1) as ([overflow c] & E & Hc & Hsig & Hsize & Hv).
    exists overflow, c. do 5 (split; [done|]). rewrite <- Hsig, <- Hsize in *. by apply overflow_zero.
Qed.

Definition sample_negative : storage := mk_storage true [253; 255].
Definition sample_large : storage := mk_storage true [255; 127].

Lemma sample_storages_ok : storage_ok 8 sample_negative /\ storage_ok 8 sample_large.
Proof. split; (split; [repeat constructor; unfold in_width; lia|done]). Qed.

Lemma storage_add_contract_witness :
  (exists overflow c, storage_add 8 true sample_large sample_negative (mk_storage true [0; 0]) false = Ok (overflow, c)
    /\ 32767 + 3 = storage_value 8 c + overflow * 2 ^ 16 /\ overflow <> 0)
  /\ (exists overflow c, increment 8 true sample_large = Ok (overflow, c) /\ 32767 - 1 = storage_value 8 c + overflow * 2 ^ 16).
Proof.
  destruct (storage_add_contract 8 true sample_large sample_negative (mk_storage true [0; 0]) false) as [(o & c & E & _ & _ & _ & Hv & Hz) (o' & c' & E' & _ & _ & _ & Hv' & _)];
    [lia|exact (proj2 sample_storages_ok)|exact (proj1 sample_storages_ok)|done|cbn; lia|cbn; lia|].
  split; [exists o, c; split; [exact E|]; split; [exact Hv|]|exists o', c'; split; [exact E'|exact Hv']].
  intros Ho. apply Hz in Ho as [_ Ho]. vm_compute in Ho. discriminate.
Defined.

(** Schoolbook multiplication stores the product of the two integers modulo the size of the result, for signed and
    unsigned storages of every size and also when the result is shorter than the operands, provided that the two
    are not both a single word with one of them signed, and that the allocator works when one is negative: with
    unsigned operands the allocator that fails is never called. *)
Theorem baseline_mul_exact w allocate s1 s2 result :
  0 < w -> storage_ok w s1 -> storage_ok w s2 -> (sign_of w s1 || sign_of w s2 = true -> allocates allocate) ->
  (size s1 = 1%nat -> size s2 = 1%nat -> is_signed s1 = false /\ is_signed s2 = false) ->
  Z.of_nat (Nat.min (size s1) (size s2)) < 2 ^ w -> result <> [] ->
  exists r, baseline_mul w allocate s1 s2 result = Ok r /\ length r = length result /\ words_ok w r
    /\ value w r = (storage_value w s1 * storage_value w s2) mod weight w (length result).
Proof. intros Hw H1 H2 Ha Hsingle Hroom Hne. exact (baseline_mul_runs w Hw allocate s1 s2 result H1 H2 Ha Hsingle Hroom Hne). Qed.

Lemma baseline_mul_exact_witness :
  exists r, baseline_mul 8 (fun n => Ok (replicate n 99)) sample_negative sample_large [1; 2; 3] = Ok r /\ length r = 3%nat /\ words_ok 8 r
    /\ value 8 r = (-3 * 32767) mod 2 ^ 24.
Proof.
  apply (baseline_mul_exact 8 (fun n => Ok (replicate n 99)) sample_negative sample_large [1; 2; 3]);
    [lia|exact (proj1 sample_storages_ok)|exact (proj2 sample_storages_ok)| |done|cbn; lia|done].
  intros _ n. exists (replicate n 99). split; [reflexivity|apply length_replicate].
Defined.

(** A product of two signed single words is that of the unsigned ones: the words are not extended by their signs. *)
Lemma single_word_sign_lost :
  baseline_mul 64 null_allocator (mk_storage true [2 ^ 64 - 1]) (mk_storage true [2]) [0; 0] = Ok [2 ^ 64 - 2; 1]
  /\ storage_value 64 (mk_storage true [2 ^ 64 - 1]) * storage_value 64 (mk_storage true [2]) = -2
  /\ storage_value 64 (mk_storage true [2 ^ 64 - 2; 1]) = 2 ^ 65 - 2.
Proof. by repeat split. Qed.
