(* ===== verification/UFixedBigInt.v ===== *)
(** * Unsigned integers of a fixed width (AK/UFixedBigInt.h, AK/UFixedBigIntDivision.h)

    [UFixedBigInt<bit_size>] is a storage of native words, here of 64 bits, with the operators of the
    built-in integers.  An operator with two operands has the width of the wider one; the width that counts
    is that of the storage, a whole number of words.  A built-in integer is an operand through its
    storage, so that it is an integer of the class in the model ([of_builtin]).

    A storage has no initial value.  What a new one holds is the argument [uninitialized] of the
    definitions; the theorems hold for every content, and one of them shows an operator that lets it
    through. *)
From S2P Require Import Prelude Bitmap BigIntBase UnsignedBigInteger BigIntDivision StorageOperations.

Local Open Scope Z_scope.

Record UFixedBigInt := mk_fixed { bit_size : nat; data : list Z }.

Definition static_size (bits : nat) : nat := (bits + 63) / 64.
Definition get_storage_of (x : UFixedBigInt) : storage := mk_storage false (data x).

(** A built-in integer of [bits] bits *)
Definition of_builtin (bits : nat) (v : Z) : UFixedBigInt :=
  mk_fixed bits (if (64 <? bits)%nat then [wrap 64 v; wrap 64 (Z.shiftr v 64)] else [wrap 64 v]).

(** ** Shifts between two storages and in place *)
Definition shift_left_into (w : Z) (operand : list Z) (shift : nat) (result : list Z) : outcome (list Z) :=
  let size := length operand in
  let offset := (shift / Z.to_nat w)%nat in
  let remainder := Z.of_nat (shift mod Z.to_nat w) in
  if remainder =? 0 then
    result ← for_range_down offset size (fun i result =>
      x ← at_index operand (Z.of_nat i - Z.of_nat offset);
      set_at_index result (Z.of_nat i) x) result;
    for_range 0 offset (fun i result => set_at_index result (Z.of_nat i) 0) result
  else
    result ← for_range_down (S offset) size (fun i result =>
      x ← at_index operand (Z.of_nat i - Z.of_nat offset);
      y ← at_index operand (Z.of_nat i - Z.of_nat offset - 1);
      set_at_index result (Z.of_nat i)
        (Z.lor (wrap w (Z.shiftl x remainder)) (Z.shiftr y (w - remainder)))) result;
    x ← at_index operand 0;
    result ← set_at_index result (Z.of_nat offset) (wrap w (Z.shiftl x remainder));
    for_range 0 offset (fun i result => set_at_index result (Z.of_nat i) 0) result.

Definition shift_right_in_place (w : Z) (operand : list Z) (shift : nat) : outcome (list Z) :=
  let size := length operand in
  let offset := (shift / Z.to_nat w)%nat in
  let remainder := Z.of_nat (shift mod Z.to_nat w) in
  if remainder =? 0 then
    kept ← size_sub size offset;
    result ← for_range 0 kept (fun i result =>
      x ← at_index result (Z.of_nat (i + offset));
      set_at_index result (Z.of_nat i) x) operand;
    for_range kept size (fun i result => set_at_index result (Z.of_nat i) 0) result
  else
    kept ← size_sub size offset;
    last ← size_sub kept 1;
    result ← for_range 0 last (fun i result =>
      x ← at_index result (Z.of_nat (i + offset));
      y ← at_index result (Z.of_nat (i + offset) + 1);
      set_at_index result (Z.of_nat i)
        (Z.lor (Z.shiftr x remainder) (wrap w (Z.shiftl y (w - remainder))))) operand;
    x ← at_index result (Z.of_nat size - 1);
    result ← set_at_index result (Z.of_nat last) (Z.shiftr x remainder);
    for_range kept size (fun i result => set_at_index result (Z.of_nat i) 0) result.

(** ** Division *)

(** [while (len > 0 && !operand[len - 1]) --len;] *)
Fixpoint significant_words (operand : list Z) (len : nat) : outcome nat :=
  match len with
  | O => Ok O
  | S len' => x ← at_index operand (Z.of_nat len'); if x =? 0 then significant_words operand len' else Ok len
  end.

(** [if constexpr (restore_remainder)] *)
Definition restore (restore_remainder : bool) (remainder : list Z) (f : list Z -> outcome (list Z)) : outcome (list Z) :=
  if restore_remainder then f remainder else Ok remainder.

(** A storage divided by a word: the quotient and the remainder *)
Definition divide_by_native_word (operand1 quotient : list Z) (dividend_len : nat) (divisor : Z) : outcome (list Z * Z) :=
  high ← at_index operand1 (Z.of_nat dividend_len - 1);
  low ← at_index operand1 (Z.of_nat dividend_len - 2);
  let u := wrap 128 (wrap 128 (Z.shiftl high 64) + low) in
  ' (quotient, carry) ← divide_words 64 operand1 quotient dividend_len u divisor;
  quotient ← for_range dividend_len (length quotient) (fun i quotient => set_at_index quotient (Z.of_nat i) 0) quotient;
  Ok (quotient, carry).

(** The quotient and the remainder; [scratch] is what the storage for the dividend holds.  Without
    [restore_remainder] algorithm D leaves the remainder as it is. *)
Definition fixed_div_mod (restore_remainder : bool) (operand1 operand2 quotient remainder scratch : list Z)
    : outcome (list Z * list Z) :=
  divisor_len ← significant_words operand2 (length operand2);
  dividend_len ← significant_words operand1 (length operand1);
  if (divisor_len =? 0)%nat then Panic
  else
    first ← at_index operand2 0;
    if (divisor_len =? 1)%nat && (first =? 1) then
      remainder ← restore restore_remainder remainder (set 0);
      Ok (operand1, remainder)
    else if (dividend_len <? divisor_len)%nat then
      quotient ← set 0 quotient;
      remainder ← restore restore_remainder remainder (fun r => copy 64 (mk_storage false operand1) r 0);
      Ok (quotient, remainder)
    else if (divisor_len =? 1)%nat && (dividend_len =? 1)%nat then
      x ← at_index operand1 0;
      ' (q, r) ← divide_word x first;
      quotient ← set q quotient;
      remainder ← restore restore_remainder remainder (set r);
      Ok (quotient, remainder)
    else if (divisor_len =? 1)%nat then
      ' (quotient, carry) ← divide_by_native_word operand1 quotient dividend_len first;
      remainder ← restore restore_remainder remainder (set carry);
      Ok (quotient, remainder)
    else
      dividend ← copy 64 (mk_storage false operand1) scratch 0;
      ' (q, r) ← div_mod_internal 64 dividend operand2 quotient remainder dividend_len divisor_len;
      Ok (q, if restore_remainder then r else remainder).

(** ** The class *)
Section operators.
Variable uninitialized : nat -> list Z.

Definition new_storage (bits : nat) : list Z := uninitialized (static_size bits).

(** Constructors and casts from other widths *)
Definition convert (bits : nat) (x : UFixedBigInt) : outcome UFixedBigInt :=
  l ← copy 64 (get_storage_of x) (new_storage bits) 0;
  Ok (mk_fixed bits l).

(** Casts to the built-in integers: one word or less, and two words *)
Definition to_builtin (bits : nat) (x : UFixedBigInt) : outcome Z :=
  if (bits <=? 64)%nat then w ← at_index (data x) 0; Ok (wrap (Z.of_nat bits) w)
  else
    high ← at_index (data x) 1;
    low ← at_index (data x) 0;
    Ok (wrap 128 (wrap 128 (Z.shiftl high 64) + low)).

(** The integer of an array of integers of [item_bits] bits, the least significant first: whole words, or halves of
    words when the items are of type [u32].  The array fits by a requirement of the constructor. *)
Fixpoint from_array_loop (item_bits : nat) (is_u32 : bool) (value : list UFixedBigInt) (offset : nat) (l : list Z) : outcome (list Z * nat) :=
  match value with
  | [] => Ok (l, offset)
  | item :: value =>
      l ← (if (offset mod 64 =? 0)%nat then
             for_range 0 (length (data item)) (fun i l =>
               x ← at_index (data item) (Z.of_nat i); set_at_index l (Z.of_nat (i + offset / 64)) x) l
           else if (offset mod 64 =? 32)%nat && is_u32 then
             old ← at_index l (Z.of_nat (offset / 64));
             x ← at_index (data item) 0;
             set_at_index l (Z.of_nat (offset / 64)) (wrap 64 (Z.lor old (wrap 128 (Z.shiftl x 32))))
           else Panic);
      from_array_loop item_bits is_u32 value (offset + item_bits) l
  end.
Definition from_array (bits item_bits : nat) (is_u32 : bool) (value : list UFixedBigInt) : outcome UFixedBigInt :=
  ' (l, offset) ← from_array_loop item_bits is_u32 value 0 (new_storage bits);
  l ← for_range ((offset + 63) / 64) (length l) (fun i l => set_at_index l (Z.of_nat i) 0) l;
  Ok (mk_fixed bits l).

(** The two halves of an integer with an even number of words, and the integer of two halves *)
Definition low_part (x : UFixedBigInt) : outcome UFixedBigInt :=
  let part_size := (static_size (bit_size x) / 2)%nat in
  if (part_size =? 1)%nat then w ← at_index (data x) 0; Ok (of_builtin 64 w)
  else l ← copy 64 (get_storage_of x) (new_storage (part_size * 64)) 0; Ok (mk_fixed (part_size * 64) l).
Definition high_part (x : UFixedBigInt) : outcome UFixedBigInt :=
  let part_size := (static_size (bit_size x) / 2)%nat in
  if (part_size =? 1)%nat then w ← at_index (data x) (Z.of_nat part_size); Ok (of_builtin 64 w)
  else l ← copy 64 (get_storage_of x) (new_storage (part_size * 64)) part_size; Ok (mk_fixed (part_size * 64) l).
Definition from_parts (bits : nat) (low high : UFixedBigInt) : outcome UFixedBigInt :=
  let part_size := (static_size bits / 2)%nat in
  l ← for_range 0 part_size (fun i l =>
    x ← at_index (data low) (Z.of_nat i); set_at_index l (Z.of_nat i) x) (new_storage bits);
  l ← for_range 0 part_size (fun i l =>
    x ← at_index (data high) (Z.of_nat i); set_at_index l (Z.of_nat (i + part_size)) x) l;
  Ok (mk_fixed bits l).

(** Binary utilities *)
Definition popcnt (x : UFixedBigInt) : outcome Z :=
  for_range 0 (length (data x)) (fun i result =>
    w ← at_index (data x) (Z.of_nat i); Ok (wrap 64 (result + popcount 64 w))) 0.

Fixpoint ctz_loop (l : list Z) (result : Z) : Z :=
  match l with
  | [] => result
  | w :: l => if negb (w =? 0) then wrap 64 (result + count_trailing_zeroes 64 w) else ctz_loop l (wrap 64 (result + 64))
  end.
Definition ctz (x : UFixedBigInt) : Z := ctz_loop (data x) 0.

Fixpoint clz_loop (l : list Z) (i : nat) (result : Z) : outcome Z :=
  match i with
  | O => Ok result
  | S i =>
      w ← at_index l (Z.of_nat i);
      if negb (w =? 0) then zeroes ← count_leading_zeroes 64 w; Ok (wrap 64 (result + Z.of_nat zeroes))
      else clz_loop l i (wrap 64 (result + 64))
  end.
Definition clz (x : UFixedBigInt) : outcome Z :=
  result ← clz_loop (data x) (length (data x)) 0;
  Ok (wrap 64 (result + Z.of_nat (bit_size x) - 64 * Z.of_nat (static_size (bit_size x)))).

(** Comparisons *)
Definition operator_not (x : UFixedBigInt) : bool := fold_left (fun result w => result && (w =? 0)) (data x) true.
Definition to_bool (x : UFixedBigInt) : bool := fold_left (fun result w => result || negb (w =? 0)) (data x) false.
Definition fixed_eq (x other : UFixedBigInt) : outcome bool :=
  r ← compare 64 (get_storage_of x) (get_storage_of other) true; Ok (r =? 0).
Definition spaceship (x other : UFixedBigInt) : outcome Z := compare 64 (get_storage_of x) (get_storage_of other) false.
Definition is_zero_constant_time (x : UFixedBigInt) : bool := fold_left Z.lor (data x) 0 =? 0.
Definition is_equal_to_constant_time (x other : UFixedBigInt) : outcome bool :=
  fold ← for_range 0 (length (data x)) (fun i fold =>
    a ← at_index (data x) (Z.of_nat i);
    b ← at_index (data other) (Z.of_nat i);
    Ok (Z.lor fold (Z.lxor a b))) 0;
  Ok (fold =? 0).

(** [do_standard_binary_operation] and [do_standard_compound_assignment]; the second asserts at compile time that the
    other operand is not wider. *)
Definition binary_operation (f : list Z -> list Z -> list Z -> outcome (list Z)) (x other : UFixedBigInt) : outcome UFixedBigInt :=
  let bits := Nat.max (bit_size x) (bit_size other) in
  l ← f (data x) (data other) (new_storage bits);
  Ok (mk_fixed bits l).
Definition compound_assignment (f : list Z -> list Z -> list Z -> outcome (list Z)) (x other : UFixedBigInt) : outcome UFixedBigInt :=
  l ← f (data x) (data other) (data x);
  Ok (mk_fixed (bit_size x) l).

Definition fixed_bitwise (operation : Bitwise) : UFixedBigInt -> UFixedBigInt -> outcome UFixedBigInt :=
  binary_operation (compute_bitwise 64 operation).
Definition fixed_bitwise_assign (operation : Bitwise) : UFixedBigInt -> UFixedBigInt -> outcome UFixedBigInt :=
  compound_assignment (fun _ operand2 result => compute_inplace_bitwise 64 operation operand2 result).
Definition fixed_invert (x : UFixedBigInt) : outcome UFixedBigInt :=
  l ← compute_bitwise 64 INVERT (data x) (data x) (new_storage (bit_size x));
  Ok (mk_fixed (bit_size x) l).

Definition fixed_shift_left (x : UFixedBigInt) (shift : nat) : outcome UFixedBigInt :=
  l ← shift_left_into 64 (data x) shift (new_storage (bit_size x)); Ok (mk_fixed (bit_size x) l).
Definition fixed_shift_left_assign (x : UFixedBigInt) (shift : nat) : outcome UFixedBigInt :=
  l ← shift_left 64 (data x) shift; Ok (mk_fixed (bit_size x) l).
Definition fixed_shift_right (x : UFixedBigInt) (shift : nat) : outcome UFixedBigInt :=
  l ← shift_right 64 (data x) shift (new_storage (bit_size x)); Ok (mk_fixed (bit_size x) l).
Definition fixed_shift_right_assign (x : UFixedBigInt) (shift : nat) : outcome UFixedBigInt :=
  l ← shift_right_in_place 64 (data x) shift; Ok (mk_fixed (bit_size x) l).

(** Arithmetic *)
Definition add_words_of (subtract : bool) (operand1 operand2 result : list Z) : outcome (list Z) :=
  ' (_, r) ← storage_add 64 subtract (mk_storage false operand1) (mk_storage false operand2) (mk_storage false result) false;
  Ok (words r).
Definition fixed_add (subtract : bool) : UFixedBigInt -> UFixedBigInt -> outcome UFixedBigInt :=
  binary_operation (add_words_of subtract).
Definition fixed_add_assign (subtract : bool) : UFixedBigInt -> UFixedBigInt -> outcome UFixedBigInt :=
  compound_assignment (add_words_of subtract).

(** [addc] and [subc]: the result and the new carry or borrow, whether the return value is not zero *)
Definition fixed_addc (subtract : bool) (x other : UFixedBigInt) (carry : bool) : outcome (UFixedBigInt * bool) :=
  let bits := Nat.max (bit_size x) (bit_size other) in
  ' (overflow, r) ← storage_add 64 subtract (get_storage_of x) (get_storage_of other) (mk_storage false (new_storage bits)) carry;
  Ok (mk_fixed bits (words r), negb (overflow =? 0)).

(** [++x], [--x]: the new value; [x++], [x--] return the old one as well. *)
Definition fixed_increment (subtract : bool) (x : UFixedBigInt) : outcome UFixedBigInt :=
  ' (_, r) ← increment 64 subtract (get_storage_of x); Ok (mk_fixed (bit_size x) (words r)).
Definition fixed_post_increment (subtract : bool) (x : UFixedBigInt) : outcome (UFixedBigInt * UFixedBigInt) :=
  x' ← fixed_increment subtract x; Ok (x, x').

Definition mul_internal (operand1 operand2 result : list Z) : outcome (list Z) :=
  baseline_mul 64 null_allocator (mk_storage false operand1) (mk_storage false operand2) result.
Definition fixed_mul : UFixedBigInt -> UFixedBigInt -> outcome UFixedBigInt := binary_operation mul_internal.
Definition fixed_wide_multiply (x other : UFixedBigInt) : outcome UFixedBigInt :=
  let bits := (bit_size x + bit_size other)%nat in
  l ← mul_internal (data x) (data other) (new_storage bits);
  Ok (mk_fixed bits l).

(** The quotient and the remainder *)
Definition fixed_div_mod_storages (restore_remainder : bool) (x other : UFixedBigInt) : outcome (list Z * list Z) :=
  fixed_div_mod restore_remainder (data x) (data other) (new_storage (bit_size x)) (new_storage (bit_size other))
    (new_storage (bit_size x + 64)).
Definition div_mod (x divisor : UFixedBigInt) : outcome (UFixedBigInt * UFixedBigInt) :=
  ' (q, r) ← fixed_div_mod_storages true x divisor;
  Ok (mk_fixed (bit_size x) q, mk_fixed (bit_size divisor) r).
Definition fixed_div (x other : UFixedBigInt) : outcome UFixedBigInt :=
  ' (q, _) ← fixed_div_mod_storages false x other; Ok (mk_fixed (bit_size x) q).
Definition fixed_mod (x other : UFixedBigInt) : outcome UFixedBigInt :=
  ' (_, r) ← fixed_div_mod_storages true x other; Ok (mk_fixed (bit_size other) r).

(** [*=], [/=] and [%=] assign the result of the operator, converted to the type of the left operand. *)
Definition fixed_mul_assign (x other : UFixedBigInt) : outcome UFixedBigInt := r ← fixed_mul x other; convert (bit_size x) r.
Definition fixed_div_assign (x other : UFixedBigInt) : outcome UFixedBigInt := r ← fixed_div x other; convert (bit_size x) r.
Definition fixed_mod_assign (x other : UFixedBigInt) : outcome UFixedBigInt := r ← fixed_mod x other; convert (bit_size x) r.

(** [NumericLimits::max()]: [--T {}], where the braces zero the storage *)
Definition fixed_max (bits : nat) : outcome UFixedBigInt := fixed_increment true (mk_fixed bits (replicate (static_size bits) 0)).
End operators.

(** ** Byte order *)

(** The bytes of a word as they lie in the memory of a little-endian host, and [__builtin_bswap64] *)
Definition bytes_of_word (x : Z) : list Z := (fun i => wrap 8 (Z.shiftr x (8 * Z.of_nat i))) <$> seq 0 8.
Definition bswap64 (x : Z) : Z := value 8 (rev (bytes_of_word x)).

(** [bytes()]: the bytes of an integer as they lie in memory *)
Definition memory_bytes (x : UFixedBigInt) : list Z := concat (bytes_of_word <$> data x).

(** [BigEndian<UFixedBigInt<N>>] on a little-endian host: the constructor and the conversion back call this function. *)
Definition byte_swap_if_not_big_endian (x : UFixedBigInt) : outcome UFixedBigInt :=
  let n := length (data x) in
  let start := ((n + 1) / 2)%nat in
  let half := (n - start)%nat in
  l ← for_range 0 half (fun i l =>
    front ← at_index l (Z.of_nat i);
    back ← at_index l (Z.of_nat (start + (half - i - 1)));
    l ← set_at_index l (Z.of_nat (start + (half - i - 1))) (bswap64 front);
    set_at_index l (Z.of_nat i) (bswap64 back)) (data x);
  if negb (n mod 2 =? 0)%nat then
    middle ← at_index l (Z.of_nat half);
    l ← set_at_index l (Z.of_nat (n / 2)) (bswap64 middle);
    Ok (mk_fixed (bit_size x) l)
  else Ok (mk_fixed (bit_size x) l).

(** ** Shifts *)
Section shifts.
Context (w : Z) (Hw : 0 < w).

Lemma shift_left_into_runs l shift result :
  words_ok w l -> (shift / Z.to_nat w < length l)%nat -> length result = length l ->
  runs (shift_left_into w l shift result) (fun l' =>
    length l' = length l /\ words_ok w l' /\ value w l' = (value w l * 2 ^ Z.of_nat shift) mod weight w (length l)).
Proof using Hw.
  intros Hl Ho Hres. unfold shift_left_into. destruct (shift_amount w Hw shift) as [Hr ->]. rewrite <- Hres in *.
  set (offset := (shift / Z.to_nat w)%nat) in *. set (r := Z.of_nat (shift mod Z.to_nat w)) in *.
  set (X := value w l * (weight w offset * 2 ^ r)).
  destruct (Z.eqb_spec r 0) as [E|E].
  - eapply runs_bind; [apply (for_range_down_runs (filled_above w X result)); [lia|apply filled_above_start|]|].
    + intros i l' Hi HI. replace (Z.of_nat i - Z.of_nat offset) with (Z.of_nat (i - offset)) by lia.
      rewrite (at_digit w Hw l) by (done || lia). apply filled_above_set; [lia|done|].
      unfold X. rewrite digit_shifted_left by (done || lia). by rewrite (proj2 (Z.eqb_eq r 0)).
    + intros l' HI. apply shift_left_end; [done|lia|lia|done].
  - eapply runs_bind; [apply (for_range_down_runs (filled_above w X result)); [lia|apply filled_above_start|]|].
    + intros i l' Hi HI. replace (Z.of_nat i - Z.of_nat offset - 1) with (Z.of_nat (i - offset - 1)) by lia.
      replace (Z.of_nat i - Z.of_nat offset) with (Z.of_nat (i - offset)) by lia.
      rewrite !(at_digit w Hw l) by (done || lia). apply filled_above_set; [lia|done|].
      unfold X. rewrite digit_shifted_left by (done || lia). rewrite (proj2 (Z.eqb_neq r 0)) by done.
      rewrite <- shift_words by (done || lia || by apply digit_range). replace (w - (w - r)) with r by lia. apply Z.lor_comm.
    + intros l' HI. change 0 with (Z.of_nat 0) at 1. rewrite (at_digit w Hw l) by (done || lia). ret.
      eapply runs_bind; [apply (filled_above_set w X result); [done|done|unfold X; by rewrite digit_shifted_left_first]|].
      intros l2 HI2. apply shift_left_end; [done|lia|lia|done].
Qed.

(** Two loops whose bodies agree on the states that the first reaches *)
Lemma for_range_agree {T} (I : nat -> T -> Prop) lo hi (f g : nat -> T -> outcome T) t :
  I lo t -> (forall i t, (lo <= i < hi)%nat -> I i t -> f i t = g i t /\ forall t', f i t = Ok t' -> I (S i) t') ->
  for_range lo hi f t = for_range lo hi g t /\ forall t', (lo <= hi)%nat -> for_range lo hi f t = Ok t' -> I hi t'.
Proof using.
  unfold for_range. remember (hi - lo)%nat as n eqn:E. revert lo t E. induction n as [|n IH]; intros lo t E HI Hstep; cbn [for_up].
  - split; [done|]. intros t' Hle [= <-]. by replace hi with lo by lia.
  - destruct (Hstep lo t ltac:(lia) HI) as [E1 HI1]. rewrite <- E1. destruct (f lo t) as [t'|e|]; cbn [kbind outcome_monad]; [|by split..].
    destruct (IH (S lo) t' ltac:(lia) (HI1 t' eq_refl)) as [E2 H2]; [intros i t2 Hi; apply Hstep; lia|]. split; [done|].
    intros t2 _ H. apply H2; [lia|done].
Qed.

Definition unread (l : list Z) (i : nat) (l' : list Z) : Prop := length l' = length l /\ forall j, (i <= j)%nat -> l' !! j = l !! j.

Lemma unread_at l i l' j : unread l i l' -> Z.of_nat i <= j -> at_index l' j = at_index l j.
Proof using. intros [_ H] Hj. unfold at_index. rewrite (proj2 (Z.leb_le 0 j)) by lia. by rewrite H by lia. Qed.

Lemma unread_set l i l' x l2 : unread l i l' -> set_at_index l' (Z.of_nat i) x = Ok l2 -> unread l (S i) l2.
Proof using.
  intros [Hlen H]. unfold set_at_index. destruct (_ && _); [|done]. intros [= <-]. rewrite Nat2Z.id.
  split; [by rewrite length_insert|]. intros j Hj. rewrite list_lookup_insert_ne by lia. apply H. lia.
Qed.

Local Ltac both := match goal with |- kbind (Ok ?a) ?f = kbind (Ok ?a) ?g => change (f a = g a); cbv beta end.

Lemma shift_right_in_place_eq l shift : shift_right_in_place w l shift = shift_right w l shift l.
Proof using.
  unfold shift_right_in_place, shift_right. set (offset := (shift / Z.to_nat w)%nat). set (r := Z.of_nat (shift mod Z.to_nat w)).
  assert (H0 : unread l 0 l) by (by split). unfold size_sub. destruct (r =? 0).
  - destruct (_ <? offset)%nat; [done|]. both. match goal with |- kbind (for_range _ _ ?f _) _ = kbind (for_range _ _ ?g _) _ =>
      destruct (for_range_agree (unread l) 0 (length l - offset) f g l H0) as [E _]; [|by rewrite E] end.
    intros i l' Hi HI. rewrite (unread_at l i) by (done || lia). split; [done|]. intros l2. destruct (at_index l _) as [x|e|]; [|done..]. by apply unread_set.
  - destruct (_ <? offset)%nat; [done|]. both. destruct (_ <? 1)%nat; [done|]. both.
    match goal with |- kbind (for_range _ _ ?f _) _ = kbind (for_range _ _ ?g _) _ =>
      destruct (for_range_agree (unread l) 0 (length l - offset - 1) f g l H0) as [E HI] end.
    { intros i l' Hi HI. rewrite !(unread_at l i l') by (done || lia). split; [done|]. intros l2. destruct (at_index l (Z.of_nat (i + offset))) as [x|e|]; [|done..].
      cbn [kbind outcome_monad]. destruct (at_index l _) as [y|e|]; [|done..]. by apply unread_set. }
    rewrite <- E. destruct (for_range 0 _ _ l) as [l'|e|]; [|done..]. both.
    destruct (Nat.eq_dec (length l) 0%nat) as [Hz|Hz]; [by rewrite Hz|].
    by rewrite (unread_at l (length l - offset - 1) l') by (apply HI; [lia|done] || lia).
Qed.

Lemma shift_right_in_place_runs l shift :
  words_ok w l -> (shift / Z.to_nat w < length l)%nat ->
  runs (shift_right_in_place w l shift) (fun l' =>
    length l' = length l /\ words_ok w l' /\ value w l' = value w l / 2 ^ Z.of_nat shift).
Proof using Hw.
  intros Hl Ho. rewrite shift_right_in_place_eq. eapply runs_mono; [by apply shift_right_runs|]. intros l' (new & -> & Hlen & Hok & Hv).
  rewrite drop_ge, app_nil_r by done. done.
Qed.
End shifts.

(** ** Division *)
Lemma width64 : 0 < 64.
Proof. lia. Qed.
Local Notation val := (value 64).
Local Notation wgt := (weight 64).

(** [n] is the number of words without leading zeros. *)
Definition significant (l : list Z) (n : nat) : Prop :=
  (n <= length l)%nat /\ Forall (eq 0) (drop n l) /\ (n = 0%nat \/ exists top, l !! (n - 1)%nat = Some top /\ top <> 0).

Lemma significant_words_runs l len :
  (len <= length l)%nat -> Forall (eq 0) (drop len l) -> runs (significant_words l len) (significant l).
Proof.
  induction len as [|len IH]; intros Hlen Hz; cbn [significant_words].
  - apply runs_ret. split; [lia|]. split; [done|by left].
  - destruct (at_index_some l len ltac:(lia)) as (x & Hx & ->). ret. destruct (Z.eqb_spec x 0) as [->|Hne].
    + apply IH; [lia|]. rewrite (drop_S _ _ _ Hx). by constructor.
    + apply runs_ret. split; [done|]. split; [done|]. right. exists x. by replace (S len - 1)%nat with len by lia.
Qed.

Lemma significant_value l n : words_ok 64 l -> significant l n -> val l = val (take n l) /\ 0 <= val l < wgt n /\ (n <> 0%nat -> wgt (n - 1) <= val l).
Proof.
  intros Hl (Hn & Hz & Htop). pose proof (value_all_zero 64 _ Hz) as Hd.
  assert (E : val l = val (take n l)) by (rewrite (value_split 64 width64 n l), Hd; lia). split; [done|].
  pose proof (value_bound 64 width64 _ (words_ok_take 64 _ n Hl)) as Hb. rewrite length_take_le in Hb by done. split; [lia|].
  intros Hne. destruct Htop as [|(top & Ht & Hnz)]; [done|].
  destruct (value_top_word 64 width64 l n top Hl ltac:(lia) Ht Hd) as (low & -> & Hlow).
  pose proof (words_ok_lookup 64 _ _ _ Hl Ht) as Htr. unfold in_width in Htr. pose proof (weight_pos 64 width64 (n - 1)). nia.
Qed.

Lemma single_word l x : l !! 0%nat = Some x -> val l = val (take 1 l) -> val l = x.
Proof. intros Hx ->. destruct l; [done|]. injection Hx as ->. cbn. rewrite take_0. cbn. lia. Qed.

Lemma small_high_zero l n : words_ok 64 l -> (n <= length l)%nat -> val l < wgt n -> Forall (eq 0) (drop n l).
Proof.
  intros Hl Hn Hv. apply (value_zero 64 width64); [by apply words_ok_drop|].
  rewrite (value_split 64 width64 n l), Nat.min_l in Hv by done. pose proof (weight_pos 64 width64 n).
  pose proof (value_bound 64 width64 _ (words_ok_drop 64 _ n Hl)). pose proof (value_bound 64 width64 _ (words_ok_take 64 _ n Hl)). nia.
Qed.

Lemma divide_by_native_word_runs l quotient m d :
  words_ok 64 l -> words_ok 64 quotient -> length quotient = length l -> (2 <= m <= length l)%nat -> 0 < d < 2 ^ 64 ->
  runs (divide_by_native_word l quotient m d) (fun '(q, r) =>
    length q = length l /\ words_ok 64 q /\ val q = val (take m l) / d /\ r = val (take m l) mod d).
Proof.
  intros Hl Hq Hlen Hm Hd. unfold divide_by_native_word.
  destruct (lookup_lt_is_Some_2 l (m - 2)%nat ltac:(lia)) as [low Hlow]. destruct (lookup_lt_is_Some_2 l (m - 1)%nat ltac:(lia)) as [high Hhigh].
  replace (Z.of_nat m - 2) with (Z.of_nat (m - 2)) by lia. replace (Z.of_nat m - 1) with (Z.of_nat (m - 1)) by lia.
  rewrite (at_index_Ok _ _ _ Hlow), (at_index_Ok _ _ _ Hhigh). ret.
  pose proof (words_ok_lookup 64 _ _ _ Hl Hlow) as Hlr. pose proof (words_ok_lookup 64 _ _ _ Hl Hhigh) as Hhr. unfold in_width in Hlr, Hhr.
  rewrite Z.shiftl_mul_pow2, (wrap_small 128 (high * _)), wrap_small by (unfold in_width; lia).
  replace (high * 2 ^ 64 + low) with (low + 2 ^ 64 * high) by lia.
  eapply runs_bind; [by apply divide_words_runs; try done; lia|]. intros [q r] (Hql & Hqok & Hqd & Hqv & Hr).
  eapply runs_bind; [apply zero_fill; lia|]. intros q' ->. apply runs_ret.
  rewrite (drop_ge q), app_nil_r, length_app, length_take_le, length_replicate by lia. split; [lia|].
  split; [apply words_ok_app; [by apply words_ok_take|by apply words_ok_zeros]|]. split; [|done].
  rewrite value_app, value_replicate by done. lia.
Qed.

(** A remainder: the storage [new] holds it, and the words of [old] above those that algorithm D writes stay. *)
Definition remainder_in (l1 old : list Z) (v : Z) (r : list Z) : Prop :=
  exists new, words_ok 64 new /\ val new = v
    /\ (length new = length old /\ r = new \/ length new = Nat.min (length old) (S (length l1)) /\ r = new ++ drop (S (length l1)) old).

Section division.
Context (l1 l2 quotient remainder scratch : list Z).
Context (H1 : words_ok 64 l1) (H2 : words_ok 64 l2) (Hq : words_ok 64 quotient) (Hql : length quotient = length l1)
  (Hrl : length remainder = length l2) (Hsl : length scratch = S (length l1)) (Hne : quotient <> []) (Hrne : remainder <> []).
Let result (restore_remainder : bool) (qr : list Z * list Z) : Prop :=
  let '(q, r) := qr in length q = length l1 /\ words_ok 64 q /\ val q = val l1 / val l2
    /\ (restore_remainder = true -> remainder_in l1 remainder (val l1 mod val l2) r).

Lemma restore_runs b f v :
  (b = true -> runs (f remainder) (fun r => length r = length remainder /\ words_ok 64 r /\ val r = v)) ->
  runs (restore b remainder f) (fun r => b = true -> remainder_in l1 remainder v r).
Proof using.
  intros H. destruct b; cbn [restore]; [|by apply runs_ret]. eapply runs_mono; [by apply H|]. intros r (Hl & Hok & Hv) _.
  exists r. split; [done|]. split; [done|]. by left.
Qed.

Lemma knuth_runs (b : bool) m n :
  significant l1 m -> significant l2 n -> (2 <= n <= m)%nat ->
  runs (dividend ← copy 64 (mk_storage false l1) scratch 0;
        ' (q, r) ← div_mod_internal 64 dividend l2 quotient remainder m n;
        Ok (q, if b then r else remainder)) (result b).
Proof using All.
  intros S1 S2 Hnm. destruct (significant_value l1 m H1 S1) as (_ & B1 & _).
  eapply runs_bind; [apply (copy_runs 64 width64 (mk_storage false l1)); split; [done|by cbn]|]. intros dividend (Hdl & Hdok & Hdv).
  change (storage_value 64 (mk_storage false l1)) with (val l1 - 0) in Hdv. rewrite Z.sub_0_r, Hsl in Hdv. rewrite Hsl in Hdl.
  pose proof S1 as (Hm & _). pose proof S2 as (Hn & Hz & [|(top & Htop & Hnz)]); [lia|].
  rewrite Z.mod_small in Hdv by (pose proof (weight_le 64 width64 m (S (length l1)) ltac:(lia)); lia).
  eapply runs_bind; [apply (div_mod_internal_runs 64 width64 dividend l2 quotient remainder m n top); try done; try lia; apply small_high_zero; done || lia|].
  intros [q r] (Hq1 & Hq2 & Hq3 & new & -> & Hnl & Hnok & Hnv). apply runs_ret. rewrite Hdv in *. split; [lia|]. split; [done|]. split; [done|].
  intros ->. exists new. split; [done|]. split; [done|]. right. by rewrite <- Hdl.
Qed.

Lemma small_dividend (b : bool) :
  val l1 < val l2 ->
  runs (quotient ← set 0 quotient;
        remainder ← restore b remainder (fun r => copy 64 (mk_storage false l1) r 0);
        Ok (quotient, remainder)) (result b).
Proof using All.
  intros Hlt. pose proof (value_bound 64 width64 l1 H1) as B1. pose proof (value_bound 64 width64 l2 H2) as B2.
  eapply runs_bind; [apply (set_runs 64 width64 0 quotient); [done|unfold in_width; lia]|]. intros q (Hq1 & Hq2 & Hq3).
  eapply runs_bind; [apply (restore_runs b _ (val l1))|].
  - intros _. eapply runs_mono; [apply (copy_runs 64 width64 (mk_storage false l1)); split; [done|by cbn]|]. intros r (Hr1 & Hr2 & Hr3).
    split; [done|]. split; [done|]. rewrite Hr3. change (storage_value 64 (mk_storage false l1)) with (val l1 - 0).
    rewrite Z.sub_0_r, Hrl. apply Z.mod_small. lia.
  - intros r Hr. apply runs_ret. unfold result. rewrite Z.div_small, Z.mod_small by lia. split; [lia|]. done.
Qed.

Lemma fixed_div_mod_runs (b : bool) : val l2 <> 0 -> runs (fixed_div_mod b l1 l2 quotient remainder scratch) (result b).
Proof using All.
  intros Hnz. unfold fixed_div_mod. eapply runs_bind; [apply significant_words_runs; [done|by rewrite drop_all]|]. intros n S2.
  eapply runs_bind; [apply significant_words_runs; [done|by rewrite drop_all]|]. intros m S1.
  destruct (significant_value l1 m H1 S1) as (E1 & B1 & T1). destruct (significant_value l2 n H2 S2) as (E2 & B2 & T2).
  destruct (Nat.eqb_spec n 0) as [->|Hn0]; [rewrite weight_0 in B2; lia|]. specialize (T2 Hn0). pose proof S1 as (Hm & _). pose proof S2 as (Hn & _).
  destruct (at_index_some l2 0 ltac:(lia)) as (first & Hfirst & Hfi). change (at_index l2 0) with (at_index l2 (Z.of_nat 0)). rewrite Hfi. ret.
  assert (Hone : n = 1%nat -> val l2 = first) by (intros ->; by apply (single_word l2)).
  pose proof (words_ok_lookup 64 _ _ _ H2 Hfirst) as Hfr. unfold in_width in Hfr.
  destruct (Nat.eqb_spec n 1) as [Hn1|Hn1]; [specialize (Hone Hn1); destruct (Z.eqb_spec first 1) as [Hf|Hf]|]; cbn [andb].
  - eapply runs_bind; [apply (restore_runs b (set 0) 0); intros _; apply set_runs; [lia|done|unfold in_width; lia]|]. intros r Hr. apply runs_ret.
    unfold result. rewrite Hone, Hf, Z.div_1_r, Z.mod_1_r. done.
  - destruct (Nat.ltb_spec m n) as [Hmn|Hmn].
    { apply small_dividend. replace m with 0%nat in B1 by lia. rewrite weight_0 in B1. lia. }
    destruct (Nat.eqb_spec m 1) as [Hm1|Hm1]; cbn [andb].
    + destruct (at_index_some l1 0 ltac:(lia)) as (x & Hx & Hxi). change (at_index l1 0) with (at_index l1 (Z.of_nat 0)). rewrite Hxi. ret.
      rewrite divide_word_exact by lia. ret. rewrite Hm1 in E1. assert (Ex : val l1 = x) by (by apply (single_word l1)).
      pose proof (words_ok_lookup 64 _ _ _ H1 Hx) as Hxr. unfold in_width in Hxr. pose proof (Z.mod_pos_bound x first ltac:(lia)).
      assert (0 <= x / first <= x) by (split; [apply Z.div_pos; lia|apply Z.div_le_upper_bound; nia]).
      eapply runs_bind; [apply (set_runs 64 width64 (x / first) quotient); [done|unfold in_width; lia]|]. intros q (Hq1 & Hq2 & Hq3).
      eapply runs_bind; [apply (restore_runs b (set (x mod first)) (x mod first)); intros _; apply set_runs; [lia|done|unfold in_width; lia]|].
      intros r Hr. apply runs_ret. unfold result. rewrite Hone, Ex. split; [lia|]. done.
    + eapply runs_bind; [apply (divide_by_native_word_runs l1 quotient m first); done || lia|]. intros [q carry] (Hq1 & Hq2 & Hq3 & Hc).
      rewrite <- E1 in Hq3, Hc. pose proof (Z.mod_pos_bound (val l1) first ltac:(lia)).
      eapply runs_bind; [apply (restore_runs b (set carry) carry); intros _; apply set_runs; [lia|done|unfold in_width; lia]|].
      intros r Hr. apply runs_ret. unfold result. rewrite Hone. by rewrite Hc in Hr.
  - destruct (Nat.ltb_spec m n) as [Hmn|Hmn]; [|apply knuth_runs; [done|done|lia]].
    apply small_dividend. pose proof (weight_le 64 width64 m (n - 1) ltac:(lia)). lia.
Qed.
End division.

(** ** The operators on the integers *)

(** [x] is [v], in a storage for [bits] bits *)
Definition fixed_is (x : UFixedBigInt) (bits : nat) (v : Z) : Prop :=
  bit_size x = bits /\ length (data x) = static_size bits /\ words_ok 64 (data x) /\ val (data x) = v.

(** The widths that the class has: not zero, and up to [max_big_int_length] words *)
Definition valid_width (bits : nat) : Prop := (0 < bits)%nat /\ Z.of_nat bits <= 2 ^ 29 * 64.

Definition modulus (bits : nat) : Z := wgt (static_size bits).

(** What a new storage holds are words. *)
Definition memory_ok (uninitialized : nat -> list Z) : Prop := forall n, length (uninitialized n) = n /\ words_ok 64 (uninitialized n).

Lemma static_size_pos bits : (0 < bits)%nat -> (0 < static_size bits)%nat.
Proof. intros H. unfold static_size. apply Nat.div_str_pos. lia. Qed.

Lemma static_size_mono a b : (a <= b)%nat -> (static_size a <= static_size b)%nat.
Proof. intros H. unfold static_size. apply Nat.Div0.div_le_mono. lia. Qed.

Lemma static_size_next bits : static_size (bits + 64) = S (static_size bits).
Proof. unfold static_size. replace (bits + 64 + 63)%nat with (bits + 63 + 1 * 64)%nat by lia. rewrite Nat.div_add by lia. lia. Qed.

Lemma static_size_max bits : valid_width bits -> Z.of_nat (static_size bits) <= 2 ^ 29.
Proof.
  intros [_ H]. unfold static_size. rewrite Nat2Z.inj_div. apply Z.lt_succ_r, Z.div_lt_upper_bound; lia.
Qed.

Lemma static_size_room bits : valid_width bits -> Z.of_nat (static_size bits) < 2 ^ 64.
Proof. intros H%static_size_max. lia. Qed.

Lemma valid_width_max a b : valid_width a -> valid_width b -> valid_width (Nat.max a b).
Proof. unfold valid_width. lia. Qed.

Lemma fixed_bound x bits v : fixed_is x bits v -> 0 <= v < modulus bits.
Proof. intros (_ & Hl & Hok & <-). unfold modulus. rewrite <- Hl. by apply value_bound. Qed.

Lemma storage_of_ok l : words_ok 64 l -> storage_ok 64 (mk_storage false l).
Proof. intros H. by split. Qed.

Lemma storage_of_value l : storage_value 64 (mk_storage false l) = val l.
Proof. unfold storage_value. change (sign_of 64 (mk_storage false l)) with false. cbn. lia. Qed.

Section class.
Context (uninitialized : nat -> list Z) (Hmem : memory_ok uninitialized).
Local Notation new bits := (new_storage uninitialized bits).

Lemma new_length bits : length (new bits) = static_size bits.
Proof using Hmem. apply Hmem. Qed.

Lemma new_nonempty bits : (0 < bits)%nat -> new bits <> [].
Proof using Hmem. intros H E. pose proof (static_size_pos bits H) as Hp. rewrite <- new_length, E in Hp. cbn in Hp. lia. Qed.

(** A binary operator computes [f] modulo the width of the wider operand. *)
Lemma binary_operation_runs op f x y a b v1 v2 :
  fixed_is x a v1 -> fixed_is y b v2 ->
  (forall l1 l2, words_ok 64 l1 -> words_ok 64 l2 -> length l1 = static_size a -> length l2 = static_size b ->
    runs (op l1 l2 (new (Nat.max a b))) (fun r => length r = length (new (Nat.max a b)) /\ words_ok 64 r
      /\ val r = f (val l1) (val l2) mod wgt (length (new (Nat.max a b))))) ->
  runs (binary_operation uninitialized op x y) (fun r => fixed_is r (Nat.max a b) (f v1 v2 mod modulus (Nat.max a b))).
Proof using Hmem.
  intros (<- & Hl1 & Hok1 & <-) (<- & Hl2 & Hok2 & <-) Hop. unfold binary_operation. eapply runs_bind; [by apply Hop|].
  intros r (Hr & Hrok & Hv). apply runs_ret. rewrite new_length in *. by split.
Qed.

Lemma compound_assignment_runs op f x y a b v1 v2 :
  fixed_is x a v1 -> fixed_is y b v2 ->
  (forall l1 l2, words_ok 64 l1 -> words_ok 64 l2 -> length l1 = static_size a -> length l2 = static_size b ->
    runs (op l1 l2 l1) (fun r => length r = length l1 /\ words_ok 64 r /\ val r = f (val l1) (val l2))) ->
  runs (compound_assignment op x y) (fun r => fixed_is r a (f v1 v2)).
Proof using.
  intros (<- & Hl1 & Hok1 & <-) (<- & Hl2 & Hok2 & <-) Hop. unfold compound_assignment. eapply runs_bind; [by apply Hop|].
  intros r (Hr & Hrok & Hv). apply runs_ret. split; [done|]. by rewrite <- Hl1.
Qed.

Lemma convert_runs x a v bits : fixed_is x a v -> runs (convert uninitialized bits x) (fun r => fixed_is r bits (v mod modulus bits)).
Proof using Hmem.
  intros (<- & Hl & Hok & <-). unfold convert. eapply runs_bind; [apply copy_runs; [done|by apply storage_of_ok]|].
  intros r (Hr & Hrok & Hv). apply runs_ret. unfold get_storage_of in Hv. rewrite storage_of_value, new_length in Hv. rewrite new_length in Hr. by split.
Qed.

Lemma fixed_bitwise_runs operation x y a b v1 v2 :
  fixed_is x a v1 -> fixed_is y b v2 ->
  runs (fixed_bitwise uninitialized operation x y) (fun r => fixed_is r (Nat.max a b) (bitwise_integer operation v1 v2 mod modulus (Nat.max a b))).
Proof using Hmem. intros Hx Hy. apply (binary_operation_runs _ (bitwise_integer operation)); [done..|]. intros. by apply compute_bitwise_runs. Qed.

(** In place, the words above those of the other operand stay, for every operation. *)
Lemma fixed_bitwise_assign_runs operation x y a b v1 v2 :
  fixed_is x a v1 -> fixed_is y b v2 -> (b <= a)%nat ->
  runs (fixed_bitwise_assign operation x y) (fun r =>
    fixed_is r a (bitwise_integer operation v1 v2 mod modulus b + modulus b * (v1 / modulus b))).
Proof using.
  intros Hx Hy Hba. apply (compound_assignment_runs _ (fun v1 v2 => bitwise_integer operation v1 v2 mod modulus b + modulus b * (v1 / modulus b)) _ _ a b); [done..|].
  intros l1 l2 H1 H2 E1 E2. unfold modulus. rewrite <- E2. apply compute_inplace_bitwise_runs; [done..|]. rewrite E1, E2. by apply static_size_mono.
Qed.

Lemma fixed_invert_runs x a v : fixed_is x a v -> runs (fixed_invert uninitialized x) (fun r => fixed_is r a (Z.lnot v mod modulus a)).
Proof using Hmem.
  intros (<- & Hl & Hok & <-). unfold fixed_invert. eapply runs_bind; [by apply compute_bitwise_runs|].
  intros r (Hr & Hrok & Hv). apply runs_ret. rewrite new_length in *. by split.
Qed.

Lemma add_words_of_runs subtract l1 l2 result :
  words_ok 64 l1 -> words_ok 64 l2 -> (length l1 <= length result)%nat -> (length l2 <= length result)%nat ->
  runs (add_words_of subtract l1 l2 result) (fun r => length r = length result /\ words_ok 64 r
    /\ val r = (val l1 + direction subtract * val l2) mod wgt (length result)).
Proof using.
  intros H1 H2 Hl1 Hl2. unfold add_words_of. eapply runs_bind.
  { apply (storage_add_runs 64 width64); [by apply storage_of_ok|by apply storage_of_ok|by cbn|done|done]. }
  intros [overflow r] ([Hok _] & Hsig & Hsize & E). apply runs_ret. unfold size in *. cbn [words is_signed] in *. split; [done|]. split; [done|].
  rewrite !storage_of_value in E. cbn [Z.b2z] in E. unfold storage_value, sign_of in E. rewrite Hsig in E. cbn [andb Z.b2z] in E.
  pose proof (value_bound 64 width64 _ Hok) as Hb. rewrite Hsize in Hb. apply Z.mod_unique_pos with overflow; [done|]. lia.
Qed.

Lemma fixed_add_runs subtract x y a b v1 v2 :
  fixed_is x a v1 -> fixed_is y b v2 ->
  runs (fixed_add uninitialized subtract x y) (fun r => fixed_is r (Nat.max a b) ((v1 + direction subtract * v2) mod modulus (Nat.max a b))).
Proof using Hmem.
  intros Hx Hy. apply (binary_operation_runs _ (fun v1 v2 => v1 + direction subtract * v2)); [done..|]. intros l1 l2 H1 H2 E1 E2.
  apply add_words_of_runs; [done..| |]; rewrite new_length, ?E1, ?E2; apply static_size_mono; lia.
Qed.

Lemma fixed_add_assign_runs subtract x y a b v1 v2 :
  fixed_is x a v1 -> fixed_is y b v2 -> (b <= a)%nat ->
  runs (fixed_add_assign subtract x y) (fun r => fixed_is r a ((v1 + direction subtract * v2) mod modulus a)).
Proof using.
  intros Hx Hy Hba. apply (compound_assignment_runs _ (fun v1 v2 => (v1 + direction subtract * v2) mod modulus a) _ _ a b); [done..|].
  intros l1 l2 H1 H2 E1 E2. unfold modulus. rewrite <- E1. apply add_words_of_runs; [done..|]. rewrite E1, E2. by apply static_size_mono.
Qed.

(** [addc] and [subc] return the carry out of the width of the result. *)
Lemma fixed_addc_runs subtract x y a b v1 v2 c :
  fixed_is x a v1 -> fixed_is y b v2 ->
  runs (fixed_addc uninitialized subtract x y c) (fun '(r, c') => exists v, fixed_is r (Nat.max a b) v
    /\ v + direction subtract * (modulus (Nat.max a b) * Z.b2z c') = v1 + direction subtract * (v2 + Z.b2z c)).
Proof using Hmem.
  intros Hx Hy. pose proof (fixed_bound _ _ _ Hx) as B1. pose proof (fixed_bound _ _ _ Hy) as B2.
  destruct Hx as (<- & Hl1 & Hok1 & E1), Hy as (<- & Hl2 & Hok2 & E2). unfold fixed_addc. set (bits := Nat.max (bit_size x) (bit_size y)).
  assert (L1 : (static_size (bit_size x) <= static_size bits)%nat) by (apply static_size_mono; lia).
  assert (L2 : (static_size (bit_size y) <= static_size bits)%nat) by (apply static_size_mono; lia).
  eapply runs_bind; [apply (storage_add_runs 64 width64); [by apply storage_of_ok|by apply storage_of_ok|by cbn| |]; unfold size; cbn [words]; rewrite new_length; unfold get_storage_of; cbn [words]; lia|].
  intros [overflow r] ([Hok _] & Hsig & Hsize & E). apply runs_ret. unfold get_storage_of, size in *. cbn [words is_signed] in *. rewrite !storage_of_value, E1, E2 in E.
  unfold storage_value, sign_of in E. rewrite Hsig in E. cbn [andb Z.b2z] in E. rewrite new_length in *. fold (modulus bits) in E.
  pose proof (value_bound 64 width64 _ Hok) as Hb. rewrite Hsize in Hb. fold (modulus bits) in Hb.
  exists (val (words r)). split; [by split|].
  assert (Hle1 : modulus (bit_size x) <= modulus bits) by (by apply weight_le). assert (Hle2 : modulus (bit_size y) <= modulus bits) by (by apply weight_le).
  set (V := val (words r)) in *. set (m := modulus bits) in *. unfold direction in *. destruct (Z.eqb_spec overflow 0) as [->|Hne]; cbn [negb Z.b2z]; [lia|].
  destruct subtract, c; cbn [Z.b2z] in *; (assert (overflow = 1 \/ overflow = -1) as [-> | ->] by nia); lia.
Qed.

Lemma fixed_increment_runs subtract x a v :
  fixed_is x a v -> runs (fixed_increment subtract x) (fun r => fixed_is r a ((v + direction subtract) mod modulus a)).
Proof using.
  intros (<- & Hl & Hok & <-). unfold fixed_increment. eapply runs_bind; [apply (increment_runs 64 width64); by apply storage_of_ok|].
  intros [overflow r] ([Hrok _] & Hsig & Hsize & E). apply runs_ret. unfold get_storage_of, size in *. cbn [words is_signed] in *. rewrite storage_of_value in E.
  unfold storage_value, sign_of in E. rewrite Hsig in E. cbn [andb Z.b2z] in E. pose proof (value_bound 64 width64 _ Hrok) as Hb.
  rewrite Hsize, Hl in Hb. rewrite Hl in E. split; [done|]. split; [cbn [data]; lia|]. split; [done|]. apply Z.mod_unique_pos with overflow; [done|]. unfold modulus. cbn [data]. lia.
Qed.

Lemma mul_internal_runs l1 l2 result :
  words_ok 64 l1 -> words_ok 64 l2 -> Z.of_nat (length l1) < 2 ^ 64 -> result <> [] ->
  runs (mul_internal l1 l2 result) (fun r => length r = length result /\ words_ok 64 r /\ val r = (val l1 * val l2) mod wgt (length result)).
Proof using.
  intros H1 H2 Hroom Hne. unfold mul_internal. eapply runs_mono; [apply (baseline_mul_runs 64 width64); try by apply storage_of_ok|].
  - by change (sign_of 64 (mk_storage false l1) || sign_of 64 (mk_storage false l2)) with false.
  - by cbn.
  - unfold size. cbn [words]. lia.
  - done.
  - intros r H. by rewrite !storage_of_value in H.
Qed.

Lemma fixed_mul_runs x y a b v1 v2 :
  valid_width a -> fixed_is x a v1 -> fixed_is y b v2 ->
  runs (fixed_mul uninitialized x y) (fun r => fixed_is r (Nat.max a b) ((v1 * v2) mod modulus (Nat.max a b))).
Proof using Hmem.
  intros Ha Hx Hy. apply (binary_operation_runs _ Z.mul); [done..|]. intros l1 l2 H1 H2 E1 E2.
  apply mul_internal_runs; [done|done|rewrite E1; by apply static_size_room|apply new_nonempty; destruct Ha; lia].
Qed.

Lemma fixed_wide_multiply_runs x y a b v1 v2 :
  valid_width a -> fixed_is x a v1 -> fixed_is y b v2 ->
  runs (fixed_wide_multiply uninitialized x y) (fun r => fixed_is r (a + b) ((v1 * v2) mod modulus (a + b))).
Proof using Hmem.
  intros Ha (<- & Hl1 & Hok1 & <-) (<- & Hl2 & Hok2 & <-). unfold fixed_wide_multiply.
  eapply runs_bind; [apply mul_internal_runs; [done|done|rewrite Hl1; by apply static_size_room|apply new_nonempty; destruct Ha; lia]|].
  intros r (Hr & Hrok & Hv). apply runs_ret. rewrite new_length in *. by split.
Qed.

Lemma fixed_shift_left_runs x a v n :
  fixed_is x a v -> (n / 64 < static_size a)%nat ->
  runs (fixed_shift_left uninitialized x n) (fun r => fixed_is r a ((v * 2 ^ Z.of_nat n) mod modulus a))
  /\ runs (fixed_shift_left_assign x n) (fun r => fixed_is r a ((v * 2 ^ Z.of_nat n) mod modulus a)).
Proof using Hmem.
  intros (<- & Hl & Hok & <-) Hn. rewrite <- Hl in Hn. split.
  - unfold fixed_shift_left. eapply runs_bind; [apply (shift_left_into_runs 64 width64); [done|done|by rewrite new_length]|].
    intros r (Hr & Hrok & Hv). apply runs_ret. rewrite Hl in *. by split.
  - unfold fixed_shift_left_assign. eapply runs_bind; [by apply (shift_left_runs 64 width64)|].
    intros r (Hr & Hrok & Hv). apply runs_ret. rewrite Hl in *. by split.
Qed.

Lemma fixed_shift_right_runs x a v n :
  fixed_is x a v -> (n / 64 < static_size a)%nat ->
  runs (fixed_shift_right uninitialized x n) (fun r => fixed_is r a (v / 2 ^ Z.of_nat n))
  /\ runs (fixed_shift_right_assign x n) (fun r => fixed_is r a (v / 2 ^ Z.of_nat n)).
Proof using Hmem.
  intros (<- & Hl & Hok & <-) Hn. rewrite <- Hl in Hn. split.
  - unfold fixed_shift_right. eapply runs_bind; [apply (shift_right_runs 64 width64); [done|done|by rewrite new_length, Hl]|].
    intros r (new & -> & Hr & Hrok & Hv). apply runs_ret. rewrite drop_ge, app_nil_r by (rewrite new_length; lia). rewrite Hl in *. by split.
  - unfold fixed_shift_right_assign. eapply runs_bind; [by apply (shift_right_in_place_runs 64 width64)|].
    intros r (Hr & Hrok & Hv). apply runs_ret. rewrite Hl in *. by split.
Qed.

Lemma div_mod_storages_runs restore_remainder x y a b v1 v2 :
  (0 < a)%nat -> (0 < b)%nat -> fixed_is x a v1 -> fixed_is y b v2 -> v2 <> 0 ->
  runs (fixed_div_mod_storages uninitialized restore_remainder x y) (fun '(q, r) =>
    length q = static_size a /\ words_ok 64 q /\ val q = v1 / v2
    /\ (restore_remainder = true -> remainder_in (data x) (new b) (v1 mod v2) r)).
Proof using Hmem.
  intros Ha Hb (<- & Hl1 & Hok1 & <-) (<- & Hl2 & Hok2 & <-) Hne. rewrite <- Hl1. apply fixed_div_mod_runs; try done.
  - apply Hmem.
  - by rewrite new_length.
  - by rewrite new_length.
  - by rewrite new_length, static_size_next, Hl1.
  - by apply new_nonempty.
  - by apply new_nonempty.
Qed.

(** The remainder fills its storage when the divisor has at most one word more than the dividend. *)
Lemma remainder_fills l1 b v r :
  remainder_in l1 (new b) v r -> (static_size b <= S (length l1))%nat -> fixed_is (mk_fixed b r) b v.
Proof using Hmem.
  intros (l & Hok & Hv & [[Hl ->]|[Hl ->]]) Hb; rewrite new_length in Hl; [by split|].
  rewrite drop_ge, app_nil_r by (by rewrite new_length). rewrite Nat.min_l in Hl by done. by split.
Qed.

Lemma fixed_div_runs x y a b v1 v2 :
  (0 < a)%nat -> (0 < b)%nat -> fixed_is x a v1 -> fixed_is y b v2 -> v2 <> 0 ->
  runs (fixed_div uninitialized x y) (fun r => fixed_is r a (v1 / v2)).
Proof using Hmem.
  intros Ha Hb Hx Hy Hne. unfold fixed_div. eapply runs_bind; [by apply (div_mod_storages_runs false x y a b v1 v2)|]. intros [q r] (Hq & Hok & Hv & _).
  apply runs_ret. by destruct Hx as (-> & _).
Qed.

Lemma fixed_mod_runs x y a b v1 v2 :
  (0 < a)%nat -> (0 < b)%nat -> fixed_is x a v1 -> fixed_is y b v2 -> v2 <> 0 -> (static_size b <= S (static_size a))%nat ->
  runs (fixed_mod uninitialized x y) (fun r => fixed_is r b (v1 mod v2)).
Proof using Hmem.
  intros Ha Hb Hx Hy Hne Hsize. unfold fixed_mod. eapply runs_bind; [by apply (div_mod_storages_runs true x y a b v1 v2)|]. intros [q r] (_ & _ & _ & Hr).
  apply runs_ret. destruct Hy as (-> & _). destruct Hx as (_ & Hl & _). eapply remainder_fills; [by apply Hr|]. by rewrite Hl.
Qed.

(** ** Comparisons *)
Lemma div_mod_runs x y a b v1 v2 :
  (0 < a)%nat -> (0 < b)%nat -> fixed_is x a v1 -> fixed_is y b v2 -> v2 <> 0 -> (static_size b <= S (static_size a))%nat ->
  runs (div_mod uninitialized x y) (fun '(q, r) => fixed_is q a (v1 / v2) /\ fixed_is r b (v1 mod v2)).
Proof using Hmem.
  intros Ha Hb Hx Hy Hne Hsize. unfold div_mod. eapply runs_bind; [by apply (div_mod_storages_runs true x y a b v1 v2)|]. intros [q r] (Hq & Hqok & Hqv & Hr).
  apply runs_ret. destruct Hx as (-> & Hl & _), Hy as (-> & _). split; [by split|]. apply remainder_fills with (data x); [by apply Hr|lia].
Qed.

Lemma fixed_max_runs a : runs (fixed_max a) (fun r => fixed_is r a (modulus a - 1)).
Proof using.
  assert (Hz : fixed_is (mk_fixed a (replicate (static_size a) 0)) a 0).
  { split; [done|]. split; [apply length_replicate|]. split; [by apply words_ok_zeros|]. apply value_replicate. }
  eapply runs_mono; [apply (fixed_increment_runs true _ a 0 Hz)|]. intros r Hr. cbn beta in Hr. pose proof (weight_pos 64 width64 (static_size a)) as Hw.
  replace ((0 + direction true) mod modulus a) with (modulus a - 1) in Hr; [done|]. apply Z.mod_unique_pos with (-1); unfold direction, modulus in *; lia.
Qed.

(** Assigning a result that its type can hold *)
Lemma convert_same x a v bits : fixed_is x a v -> v < modulus bits -> runs (convert uninitialized bits x) (fun r => fixed_is r bits v).
Proof using Hmem.
  intros Hx Hv. pose proof (fixed_bound _ _ _ Hx). eapply runs_mono; [eapply convert_runs, Hx|]. intros r Hr. cbn in Hr. by rewrite Z.mod_small in Hr by lia.
Qed.

Lemma modulus_le a b : (static_size a <= static_size b)%nat -> modulus a <= modulus b.
Proof using. apply weight_le, width64. Qed.

Lemma static_size_max_l a b : (static_size b <= static_size a)%nat -> static_size (Nat.max a b) = static_size a.
Proof using. intros H. destruct (Nat.max_spec a b) as [[Hab ->]|[_ ->]]; [|done]. pose proof (static_size_mono a b ltac:(lia)). lia. Qed.

Lemma fixed_mul_assign_runs x y a b v1 v2 :
  valid_width a -> fixed_is x a v1 -> fixed_is y b v2 -> (static_size b <= static_size a)%nat ->
  runs (fixed_mul_assign uninitialized x y) (fun r => fixed_is r a ((v1 * v2) mod modulus a)).
Proof using Hmem.
  intros Ha Hx Hy Hs. pose proof Hx as [Ex _]. unfold fixed_mul_assign. eapply runs_bind; [by apply fixed_mul_runs|]. intros r Hr. rewrite Ex.
  assert (E : modulus (Nat.max a b) = modulus a) by (unfold modulus; by rewrite static_size_max_l). rewrite E in Hr.
  eapply convert_same; [exact Hr|]. apply Z.mod_pos_bound, weight_pos, width64.
Qed.

Lemma fixed_div_assign_runs x y a b v1 v2 :
  (0 < a)%nat -> (0 < b)%nat -> fixed_is x a v1 -> fixed_is y b v2 -> v2 <> 0 ->
  runs (fixed_div_assign uninitialized x y) (fun r => fixed_is r a (v1 / v2)).
Proof using Hmem.
  intros Ha Hb Hx Hy Hne. pose proof Hx as [Ex _]. unfold fixed_div_assign. eapply runs_bind; [by apply (fixed_div_runs x y a b v1 v2)|]. intros r Hr. rewrite Ex.
  eapply convert_same; [exact Hr|]. exact (proj2 (fixed_bound _ _ _ Hr)).
Qed.

Lemma fixed_mod_assign_runs x y a b v1 v2 :
  (0 < a)%nat -> (0 < b)%nat -> fixed_is x a v1 -> fixed_is y b v2 -> v2 <> 0 -> (static_size b <= static_size a)%nat ->
  runs (fixed_mod_assign uninitialized x y) (fun r => fixed_is r a (v1 mod v2)).
Proof using Hmem.
  intros Ha Hb Hx Hy Hne Hs. pose proof Hx as [Ex _]. unfold fixed_mod_assign. eapply runs_bind; [apply (fixed_mod_runs x y a b v1 v2); try done; lia|]. intros r Hr. rewrite Ex.
  eapply convert_same; [exact Hr|]. pose proof (fixed_bound _ _ _ Hr). pose proof (modulus_le b a Hs). lia.
Qed.

Lemma spaceship_runs x y a b v1 v2 : fixed_is x a v1 -> fixed_is y b v2 -> runs (spaceship x y) (fun r => r = Z.sgn (v1 - v2)).
Proof using.
  intros (<- & Hl1 & Hok1 & <-) (<- & Hl2 & Hok2 & <-). eapply runs_mono; [apply (compare_runs 64 width64); by apply storage_of_ok|].
  intros r Hr. unfold compares, get_storage_of in Hr. by rewrite !storage_of_value in Hr.
Qed.

Lemma fixed_eq_runs x y a b v1 v2 : fixed_is x a v1 -> fixed_is y b v2 -> runs (fixed_eq x y) (fun r => r = (v1 =? v2)).
Proof using.
  intros (<- & Hl1 & Hok1 & <-) (<- & Hl2 & Hok2 & <-). unfold fixed_eq. eapply runs_bind; [apply (compare_runs 64 width64); by apply storage_of_ok|].
  intros r Hr. apply runs_ret. unfold compares, get_storage_of in Hr. rewrite !storage_of_value in Hr.
  destruct (Z.eqb_spec r 0), (Z.eqb_spec (val (data x)) (val (data y))); tauto.
Qed.
End class.

(** ** Tests against zero and equality without branches *)
Lemma lor_fold_zero l acc : fold_left Z.lor l acc = 0 <-> acc = 0 /\ Forall (eq 0) l.
Proof.
  revert acc. induction l as [|x l IH]; intros acc; cbn [fold_left]; [by split; [intros ->|intros [-> _]]|].
  rewrite IH, Z.lor_eq_0_iff, Forall_cons. naive_solver.
Qed.

Lemma zero_words l : words_ok 64 l -> val l = 0 <-> Forall (eq 0) l.
Proof. intros Hl. split; [by apply value_zero|apply value_all_zero]. Qed.

Lemma and_fold_zero l acc : fold_left (fun result w => result && (w =? 0)) l acc = true <-> acc = true /\ Forall (eq 0) l.
Proof.
  revert acc. induction l as [|x l IH]; intros acc; cbn [fold_left]; [by split; [intros ->|intros [-> _]]|].
  rewrite IH, andb_true_iff, Z.eqb_eq, Forall_cons. naive_solver.
Qed.

Lemma or_fold_zero l acc : fold_left (fun result w => result || negb (w =? 0)) l acc = negb (fold_left (fun result w => result && (w =? 0)) l (negb acc)).
Proof.
  revert acc. induction l as [|x l IH]; intros acc; cbn [fold_left]; [by rewrite negb_involutive|]. rewrite IH. f_equal. f_equal.
  by rewrite negb_orb, negb_involutive.
Qed.

Lemma fixed_zero_tests x a v :
  fixed_is x a v -> operator_not x = (v =? 0) /\ to_bool x = negb (v =? 0) /\ is_zero_constant_time x = (v =? 0).
Proof.
  intros (_ & _ & Hok & <-). pose proof (zero_words _ Hok) as Hz. unfold operator_not, to_bool, is_zero_constant_time. rewrite or_fold_zero. cbn [negb].
  assert (E : fold_left (fun result w => result && (w =? 0)) (data x) true = (val (data x) =? 0)).
  { apply eq_true_iff_eq. rewrite and_fold_zero, Z.eqb_eq. naive_solver. }
  rewrite E. split; [done|]. split; [done|]. apply eq_true_iff_eq. rewrite !Z.eqb_eq, lor_fold_zero. naive_solver.
Qed.

Lemma is_equal_to_constant_time_runs x y a v1 v2 :
  fixed_is x a v1 -> fixed_is y a v2 -> runs (is_equal_to_constant_time x y) (fun r => r = (v1 =? v2)).
Proof.
  intros (_ & Hl1 & Hok1 & <-) (_ & Hl2 & Hok2 & <-). unfold is_equal_to_constant_time. eapply runs_bind.
  - apply (for_range_runs (fun i fold => fold = 0 <-> take i (data x) = take i (data y))); [lia|done|].
    intros i fold Hi HI. destruct (at_index_some (data x) i ltac:(lia)) as (p & Hp & ->). destruct (at_index_some (data y) i ltac:(lia)) as (q & Hq & ->). ret.
    apply runs_ret. rewrite (take_S_r _ _ _ Hp), (take_S_r _ _ _ Hq), Z.lor_eq_0_iff, Z.lxor_eq_0_iff, HI. split.
    + by intros [-> ->].
    + intros [? [= ->]]%app_inj_tail. done.
  - intros fold HI. rewrite !take_ge in HI by lia. apply runs_ret. apply eq_true_iff_eq. rewrite !Z.eqb_eq, HI. split; [by intros ->|].
    intros E. apply list_eq_same_length with (length (data x)); [lia|done|]. intros i p q Hi Hp Hq.
    pose proof (digit_lookup 64 width64 (data x) i Hok1) as D1. pose proof (digit_lookup 64 width64 (data y) i Hok2) as D2. rewrite E in D1. rewrite Hp in D1. rewrite Hq in D2. cbn in *. congruence.
Qed.

(** ** Halves *)
Lemma nth_drop_words (l : list Z) i n d : nth (i + n) l d = nth i (drop n l) d.
Proof. rewrite !nth_lookup. by rewrite lookup_drop, Nat.add_comm. Qed.

Lemma copy_offset_runs l result offset :
  words_ok 64 l -> (offset <= length l)%nat ->
  runs (copy 64 (mk_storage false l) result offset) (fun r => length r = length result /\ words_ok 64 r /\ val r = (val l / wgt offset) mod wgt (length result)).
Proof.
  intros Hl Ho. unfold copy. change (is_negative 64 (mk_storage false l)) with (Ok false). ret. cbn [extend_sign words].
  rewrite (fill_words _ (fun i => nth i (drop offset l) 0)) by (intros i _; by rewrite word_or_nth, nth_drop_words). apply runs_ret.
  fold (extended (length result) (drop offset l) 0). pose proof (words_ok_drop 64 _ offset Hl) as Hd. split; [by rewrite length_extended|].
  split; [apply extended_ok; [done|unfold in_width; lia]|].
  pose proof (value_extended_mod 64 width64 (length result) (mk_storage false (drop offset l)) (storage_of_ok _ Hd)) as E.
  rewrite storage_of_value in E. change (extend_sign 64 (sign_of 64 _)) with 0 in E. cbn [words] in E. rewrite E. f_equal.
  rewrite (value_split 64 width64 offset l), Nat.min_l by done. pose proof (value_bound 64 width64 _ (words_ok_take 64 _ offset Hl)) as Hb.
  rewrite length_take_le in Hb by done. pose proof (weight_pos 64 width64 offset). rewrite Z.mul_comm, Z.div_add, Z.div_small by lia. lia.
Qed.

Lemma single_word_fixed w : in_width 64 w -> fixed_is (of_builtin 64 w) 64 w.
Proof.
  intros Hw. unfold of_builtin. cbn [Nat.ltb Nat.leb]. rewrite wrap_small by done. split; [done|]. split; [done|]. split; [by apply Forall_singleton|]. cbn. lia.
Qed.

Section halves.
Context (uninitialized : nat -> list Z) (Hmem : memory_ok uninitialized).

Lemma part_size_half a p : static_size a = (2 * p)%nat -> (static_size a / 2)%nat = p.
Proof using. intros ->. rewrite Nat.mul_comm. by apply Nat.div_mul. Qed.

Lemma static_size_words p : static_size (p * 64) = p.
Proof using. unfold static_size. rewrite Nat.div_add_l by lia. cbn [Nat.div Nat.divmod fst Nat.sub]. change (63 / 64)%nat with 0%nat. lia. Qed.

(** The halves of an integer of 2p words *)
Lemma parts_runs x a v p :
  fixed_is x a v -> static_size a = (2 * p)%nat -> (0 < p)%nat ->
  runs (low_part uninitialized x) (fun r => fixed_is r (p * 64) (v mod wgt p)) /\ runs (high_part uninitialized x) (fun r => fixed_is r (p * 64) (v / wgt p)).
Proof using Hmem.
  intros Hx Ha Hp. pose proof (fixed_bound _ _ _ Hx) as Hb. unfold modulus in Hb. rewrite Ha in Hb. destruct Hx as (<- & Hl & Hok & <-).
  replace (2 * p)%nat with (p + p)%nat in * by lia. rewrite weight_add in Hb by done. pose proof (weight_pos 64 width64 p) as HW.
  assert (Hhigh : (val (data x) / wgt p) mod wgt p = val (data x) / wgt p).
  { apply Z.mod_small. split; [apply Z.div_pos; lia|apply Z.div_lt_upper_bound; lia]. }
  unfold low_part, high_part. rewrite (part_size_half _ p) by lia. destruct (Nat.eqb_spec p 1) as [->|Hp1].
  - rewrite Ha in Hl. destruct (data x) as [|w0 [|w1 [|]]]; try done. unfold words_ok in Hok. rewrite !Forall_cons in Hok. destruct Hok as (H0 & H1 & _).
    change (wgt 1) with (2 ^ 64) in *. unfold in_width in H0. cbn [value] in *.
    rewrite Z.mul_0_r, Z.add_0_r, (Z.mul_comm (2 ^ 64)) in *. rewrite Z.mod_add, Z.div_add, Z.mod_small, Z.div_small by lia. split.
    + change (at_index [w0; w1] 0) with (Ok w0). ret. apply runs_ret. by apply single_word_fixed.
    + change (at_index [w0; w1] (Z.of_nat 1)) with (Ok w1). ret. apply runs_ret. by apply single_word_fixed.
  - split; (eapply runs_bind; [apply copy_offset_runs; [done|lia]|]); intros r (Hr & Hrok & Hv); apply runs_ret;
      rewrite (new_length _ Hmem), static_size_words in *; (split; [done|]); rewrite static_size_words; cbn [data]; (split; [done|]); (split; [done|]).
    + by rewrite weight_0, Z.div_1_r in Hv.
    + lia.
Qed.
End halves.

(** The integer of two halves *)
Lemma copy_words_runs (k : nat -> Z) (pre src old : list Z) :
  (forall i, k i = Z.of_nat (length pre + i)) -> (length src <= length old)%nat ->
  runs (for_range 0 (length src) (fun i l => x ← at_index src (Z.of_nat i); set_at_index l (k i) x) (pre ++ old))
    (fun r => r = pre ++ src ++ drop (length src) old).
Proof.
  intros Hk Hl. eapply runs_mono; [apply (for_range_runs (fun i l => l = pre ++ take i src ++ drop i old)); [lia|done|]|].
  - intros i l Hi ->. destruct (at_index_some src i ltac:(lia)) as (x & Hx & ->). ret. rewrite Hk, set_at_index_Ok.
    + apply runs_ret. rewrite insert_app_r, insert_app_r_alt by (rewrite length_take_le; lia). f_equal. rewrite length_take_le, Nat.sub_diag by lia.
      rewrite (take_S_r _ _ _ Hx), <- app_assoc. f_equal. destruct (lookup_lt_is_Some_2 old i ltac:(lia)) as [y Hy]. by rewrite (drop_S _ _ _ Hy).
    + rewrite !length_app, length_take, length_drop. lia.
  - intros r ->. by rewrite take_ge.
Qed.

Lemma from_parts_runs uninitialized (Hmem : memory_ok uninitialized) low high bits p v1 v2 :
  fixed_is low (p * 64) v1 -> fixed_is high (p * 64) v2 -> static_size bits = (2 * p)%nat ->
  runs (from_parts uninitialized bits low high) (fun r => fixed_is r bits (v1 + wgt p * v2)).
Proof.
  intros (_ & Hl1 & Hok1 & <-) (_ & Hl2 & Hok2 & <-) Hb. rewrite static_size_words in *. unfold from_parts. rewrite (part_size_half _ p) by done.
  pose proof (new_length _ Hmem bits) as Hn. eapply runs_bind.
  { rewrite <- Hl1 at 1. apply (copy_words_runs Z.of_nat [] (data low) (new_storage uninitialized bits)); [done|lia]. }
  intros l ->. cbn [app]. eapply runs_bind.
  { rewrite <- Hl2 at 1. apply copy_words_runs; [intros i; lia|]. rewrite length_drop. lia. }
  intros l ->. apply runs_ret. rewrite drop_drop, drop_ge, app_nil_r by lia. split; [done|]. cbn [data].
  split; [rewrite length_app; lia|]. split; [by apply Forall_app_2|]. by rewrite value_app, Hl1.
Qed.

(** ** Bits *)
Lemma testbit_words x V j : in_width 64 x -> 0 <= j -> Z.testbit (x + 2 ^ 64 * V) j = if j <? 64 then Z.testbit x j else Z.testbit V (j - 64).
Proof.
  intros Hx Hj. unfold in_width in Hx. destruct (Z.ltb_spec j 64).
  - rewrite <- (Z.mod_pow2_bits_low _ 64) by lia. by rewrite Z.mul_comm, Z.mod_add, Z.mod_small by lia.
  - replace j with (j - 64 + 64) at 1 by lia. rewrite <- Z.div_pow2_bits by lia. by rewrite Z.mul_comm, Z.div_add, Z.div_small by lia.
Qed.

(** The number of bits that are set *)
Lemma popcnt_runs x a v : fixed_is x a v -> valid_width a -> runs (popcnt x) (fun r => r = csum (Z.testbit v) 0 (64 * static_size a)).
Proof.
  intros (_ & Hl & Hok & <-) Ha. pose proof (static_size_max a Ha) as Hroom. rewrite <- Hl in *. unfold popcnt.
  eapply runs_mono; [apply (for_range_runs (fun i r => r = csum (Z.testbit (val (data x))) 0 (64 * i))); [lia|done|]|done].
  intros i r Hi ->. destruct (at_index_some (data x) i ltac:(lia)) as (w & Hw & ->). ret. apply runs_ret.
  replace (64 * S i)%nat with (64 * i + 64)%nat by lia. rewrite csum_app, popcount_csum, wrap_small.
  - f_equal. rewrite <- csum_shift. apply csum_ext. intros j Hj.
    pose proof (digit_lookup 64 width64 (data x) i Hok) as D. rewrite Hw in D. cbn in D. rewrite <- D. unfold digit, weight.
    rewrite Z.mod_pow2_bits_low, Z.div_pow2_bits by lia. f_equal. lia.
  - pose proof (csum_bound (Z.testbit (val (data x))) 0 (64 * i)). pose proof (csum_bound (Z.testbit w) 0 64). unfold in_width, valid_width in *. lia.
Qed.

(** [r] is the place of the lowest bit of [v] that is set, or [n] when there is none. *)
Definition lowest_bit (v n r : Z) : Prop :=
  (v = 0 /\ r = n) \/ (0 <= r < n /\ Z.testbit v r = true /\ forall j, 0 <= j < r -> Z.testbit v j = false).

Lemma ctz_loop_spec l acc :
  words_ok 64 l -> 0 <= acc -> acc + 64 * Z.of_nat (length l) < 2 ^ 64 -> exists r, ctz_loop l acc = acc + r /\ lowest_bit (val l) (64 * Z.of_nat (length l)) r.
Proof.
  revert acc. induction l as [|x l IH]; intros acc Hok Hacc Hb; cbn [ctz_loop].
  { exists 0. split; [lia|]. by left. }
  apply Forall_cons in Hok as [Hx Hok]. cbn [length] in *. pose proof Hx as Hx'. unfold in_width in Hx'. destruct (Z.eqb_spec x 0) as [->|Hne]; cbn [negb].
  - rewrite wrap_small by (unfold in_width; lia). destruct (IH (acc + 64) Hok ltac:(lia) ltac:(lia)) as (r & -> & Hr). exists (64 + r). split; [lia|].
    cbn [value]. destruct Hr as [[-> ->]|(Hr & Ht & Hlow)]; [left; lia|]. right. split; [lia|].
    split; [rewrite testbit_words by done || lia|intros j Hj; rewrite testbit_words by done || lia].
    + rewrite (proj2 (Z.ltb_ge _ _)) by lia. rewrite <- Ht. f_equal. lia.
    + destruct (Z.ltb_spec j 64); [apply Z.bits_0|]. apply Hlow. lia.
  - destruct (count_trailing_zeroes_spec 64 x) as (Hr & Ht & Hlow); [lia|]. rewrite wrap_small by (unfold in_width; lia).
    eexists. split; [done|]. right. split; [lia|]. cbn [value].
    split; [rewrite testbit_words by done || lia|intros j Hj; rewrite testbit_words by done || lia].
    + by rewrite (proj2 (Z.ltb_lt _ _)) by lia.
    + rewrite (proj2 (Z.ltb_lt _ _)) by lia. by apply Hlow.
Qed.

Lemma ctz_spec x a v : fixed_is x a v -> valid_width a -> lowest_bit v (64 * Z.of_nat (static_size a)) (ctz x).
Proof.
  intros (_ & Hl & Hok & <-) Ha. pose proof (static_size_max a Ha). unfold ctz. destruct (ctz_loop_spec (data x) 0) as (r & -> & Hr); [done|lia|lia|]. by rewrite <- Hl.
Qed.

(** The number of bits up to the highest one that is set *)
Definition bit_length (v : Z) : Z := if v =? 0 then 0 else Z.log2 v + 1.

Lemma bit_length_top low top n : 0 <= low < wgt n -> 0 < top -> bit_length (low + top * wgt n) = 64 * Z.of_nat n + bit_length top.
Proof.
  intros Hlow Htop. unfold bit_length. pose proof (weight_pos 64 width64 n) as Hw. rewrite (proj2 (Z.eqb_neq top 0)), (proj2 (Z.eqb_neq (_ + _) 0)) by nia.
  rewrite Z.add_assoc. f_equal. pose proof (Z.log2_spec top Htop) as [H1 H2]. pose proof (Z.log2_nonneg top). unfold weight in *.
  apply Z.log2_unique; [lia|]. rewrite <- Z.add_succ_r, !Z.pow_add_r by lia. nia.
Qed.

Lemma clz_loop_runs l i acc :
  words_ok 64 l -> (i <= length l)%nat -> 0 <= acc -> acc + 64 * Z.of_nat i < 2 ^ 64 ->
  runs (clz_loop l i acc) (fun r => r = acc + 64 * Z.of_nat i - bit_length (val (take i l))).
Proof.
  intros Hok. revert acc. induction i as [|i IH]; intros acc Hi Hacc Hb; cbn [clz_loop].
  { apply runs_ret. rewrite take_0. change (bit_length (val [])) with 0. lia. }
  destruct (at_index_some l i ltac:(lia)) as (x & Hx & ->). ret. rewrite value_take_S, Hx by done. cbn [default from_option id].
  pose proof (value_bound 64 width64 _ (words_ok_take 64 _ i Hok)) as Hlow. rewrite length_take_le in Hlow by lia.
  assert (Hxok : in_width 64 x) by exact (words_ok_lookup 64 _ _ _ Hok Hx). unfold in_width in Hxok. destruct (Z.eqb_spec x 0) as [->|Hne]; cbn [negb].
  - rewrite wrap_small by (unfold in_width; lia). rewrite Z.mul_0_l, Z.add_0_r. eapply runs_mono; [apply IH; lia|]. intros r ->. lia.
  - rewrite bit_length_top by lia. unfold count_leading_zeroes, bit_length. rewrite (proj2 (Z.eqb_neq x 0)) by done. ret. apply runs_ret.
    assert (0 <= Z.log2 x < 64) by (split; [apply Z.log2_nonneg|apply Z.log2_lt_pow2; lia]). rewrite Z2Nat.id by lia. rewrite wrap_small by (unfold in_width; lia). lia.
Qed.

(** A value below [2 ^ a] gives the zeros above it; the bits of the last word that are not part of the width wrap. *)
Lemma clz_runs x a v : fixed_is x a v -> valid_width a -> runs (clz x) (fun r => r = wrap 64 (Z.of_nat a - bit_length v)).
Proof.
  intros (<- & Hl & Hok & <-) Ha. pose proof (static_size_max _ Ha). unfold clz. eapply runs_bind; [apply clz_loop_runs; [done|lia..]|].
  intros r ->. apply runs_ret. rewrite firstn_all, Hl. f_equal. lia.
Qed.

(** ** Casts to built-in integers *)
Lemma to_builtin_runs x a v bits :
  fixed_is x a v -> (0 < a)%nat -> ((bits <= 64)%nat \/ (bits = 128%nat /\ (2 <= static_size a)%nat)) ->
  runs (to_builtin bits x) (fun r => r = v mod 2 ^ Z.of_nat bits).
Proof.
  intros (_ & Hl & Hok & <-) Ha Hbits. pose proof (static_size_pos a Ha) as Hp. unfold to_builtin. destruct (data x) as [|w0 l]; [cbn [length] in Hl; lia|].
  apply Forall_cons in Hok as [H0 Hok]. unfold in_width in H0. change (at_index (w0 :: l) 0) with (Ok w0). cbn [value]. destruct Hbits as [Hb|[-> Hs]].
  - rewrite (proj2 (Nat.leb_le _ _)) by done. ret. apply runs_ret. unfold wrap.
    replace (2 ^ 64 * val l) with (2 ^ (64 - Z.of_nat bits) * val l * 2 ^ Z.of_nat bits); [by rewrite Z.mod_add by lia|].
    replace (2 ^ 64) with (2 ^ (64 - Z.of_nat bits) * 2 ^ Z.of_nat bits) by (rewrite <- Z.pow_add_r by lia; f_equal; lia). ring.
  - cbn [Nat.leb]. destruct l as [|w1 l]; [cbn [length] in Hl; lia|]. apply Forall_cons in Hok as [H1 _]. unfold in_width in H1.
    change (at_index (w0 :: w1 :: l) 1) with (Ok w1). ret. apply runs_ret. rewrite Z.shiftl_mul_pow2 by lia. unfold wrap. rewrite (Z.mod_small (w1 * _)) by lia.
    cbn [value]. replace (w0 + 2 ^ 64 * (w1 + 2 ^ 64 * val l)) with (w1 * 2 ^ 64 + w0 + val l * 2 ^ 128) by lia. change (Z.of_nat 128) with 128. by rewrite Z.mod_add by lia.
Qed.

(** ** Arrays *)

(** Whole words are stored one behind the other. *)
Lemma from_array_words item_bits is_u32 value pre old :
  (item_bits mod 64 = 0)%nat -> Forall (fun x => length (data x) = item_bits / 64)%nat value ->
  (length (concat (data <$> value)) <= length old)%nat ->
  runs (from_array_loop item_bits is_u32 value (64 * length pre) (pre ++ old)) (fun '(l, offset) =>
    l = pre ++ concat (data <$> value) ++ drop (length (concat (data <$> value))) old /\ offset = (64 * (length pre + length (concat (data <$> value))))%nat).
Proof.
  intros Hmod. revert pre old. induction value as [|x value IH]; intros pre old Hv Hl; cbn [from_array_loop fmap list_fmap concat] in *.
  { apply runs_ret. split; [done|]. cbn. lia. }
  apply Forall_cons in Hv as [Hx Hv]. rewrite length_app in *. replace ((64 * length pre) mod 64)%nat with 0%nat by (rewrite Nat.mul_comm, Nat.Div0.mod_mul; done).
  cbn [Nat.eqb]. replace (64 * length pre / 64)%nat with (length pre) by (rewrite Nat.mul_comm, Nat.div_mul; done).
  eapply runs_bind; [apply (copy_words_runs _ pre (data x) old); [intros i; lia|lia]|]. intros l ->.
  replace (64 * length pre + item_bits)%nat with (64 * length (pre ++ data x))%nat by (rewrite length_app, Hx; pose proof (Nat.div_mod_eq item_bits 64); lia).
  rewrite app_assoc. eapply runs_mono; [apply IH; [done|]; rewrite length_drop; lia|]. intros [l offset] [-> ->].
  rewrite drop_drop, <- !app_assoc, !length_app. split; [done|lia].
Qed.

(** Items of 32 bits are stored two to a word. *)
Fixpoint pack_halves (l : list Z) : list Z :=
  match l with
  | x :: y :: l => (x + 2 ^ 32 * y) :: pack_halves l
  | l => l
  end.

Lemma pairs_ind {A} (P : list A -> Prop) : P [] -> (forall x, P [x]) -> (forall x y l, P l -> P (x :: y :: l)) -> forall l, P l.
Proof.
  intros H0 H1 H2 l. cut (P l /\ forall x, P (x :: l)); [tauto|]. induction l as [|x l [IH1 IH2]]; [done|]. split; [apply IH2|]. intros y. by apply H2.
Qed.

Lemma pack_halves_spec l :
  words_ok 32 l -> words_ok 64 (pack_halves l) /\ val (pack_halves l) = value 32 l /\ length (pack_halves l) = ((length l + 1) / 2)%nat.
Proof.
  induction l as [|x|x y l IH] using pairs_ind; intros Hl; cbn [pack_halves value length] in *.
  - split; [constructor|done].
  - apply (proj1 (Forall_singleton _ _)) in Hl. unfold in_width in Hl. split; [|done]. apply Forall_singleton. unfold in_width. lia.
  - apply Forall_cons in Hl as [Hx [Hy Hl]%Forall_cons]. destruct (IH Hl) as (Hok & -> & ->). unfold in_width in Hx, Hy. split; [constructor; [unfold in_width; lia|done]|].
    split; [lia|]. replace (S (S (length l)) + 1)%nat with (length l + 1 + 1 * 2)%nat by lia. rewrite Nat.div_add by lia. lia.
Qed.

Lemma half_word x y : in_width 32 x -> in_width 32 y -> wrap 64 (Z.lor x (wrap 128 (Z.shiftl y 32))) = x + 2 ^ 32 * y.
Proof.
  intros Hx Hy. unfold in_width in *. rewrite Z.shiftl_mul_pow2 by lia. rewrite (wrap_small 128) by (unfold in_width; lia).
  rewrite lor_disjoint, wrap_small by (unfold in_width; lia). lia.
Qed.

Lemma offset_word p : ((64 * p) mod 64 = 0 /\ (64 * p) / 64 = p /\ (64 * p + 32) mod 64 = 32 /\ (64 * p + 32) / 64 = p)%nat.
Proof.
  rewrite (Nat.mul_comm 64 p), Nat.Div0.mod_mul, Nat.div_mul, (Nat.add_comm (p * 64)), Nat.Div0.mod_add, Nat.div_add by lia. done.
Qed.

Lemma from_array_halves vs : forall value pre old,
  words_ok 32 vs -> Forall2 (fun x v => data x = [v]) value vs -> (length (pack_halves vs) <= length old)%nat ->
  runs (from_array_loop 32 true value (64 * length pre) (pre ++ old)) (fun '(l, offset) =>
    l = pre ++ pack_halves vs ++ drop (length (pack_halves vs)) old /\ offset = (64 * length pre + 32 * length vs)%nat).
Proof.
  induction vs as [|v0|v0 v1 vs IH] using pairs_ind; intros value pre old Hok Hv Hl; cbn [pack_halves length] in *;
    [apply Forall2_nil_inv_r in Hv as ->|apply Forall2_cons_inv_r in Hv as (x0 & value' & E0 & Hv & ->)..]; cbn [from_array_loop].
  { apply runs_ret. split; [done|lia]. }
  all: destruct (offset_word (length pre)) as (-> & -> & Hm & Hd); cbn [Nat.eqb];
    (eapply runs_bind; [apply (copy_words_runs _ pre (data x0) old); [intros i; lia|rewrite E0; cbn; lia]|]); intros l ->; rewrite E0; cbn [length app].
  - apply Forall2_nil_inv_r in Hv as ->. apply runs_ret. split; [done|lia].
  - apply Forall2_cons_inv_r in Hv as (x1 & value & E1 & Hv & ->). apply Forall_cons in Hok as [H0 [H1 Hok]%Forall_cons]. cbn [from_array_loop].
    rewrite Hm, Hd, E1. cbn [Nat.eqb andb]. rewrite (at_index_Ok _ _ v0) by (by apply list_lookup_middle). change (at_index [v1] 0) with (Ok v1). cbn [kbind outcome_monad].
    rewrite set_at_index_Ok by (rewrite length_app; cbn; lia). ret. rewrite insert_app_r_alt, Nat.sub_diag, half_word by done. cbn [insert list_insert].
    replace (64 * length pre + 32 + 32)%nat with (64 * length (pre ++ [(v0 + 2 ^ 32 * v1)%Z]))%nat by (rewrite length_app; cbn [length]; lia).
    change ((v0 + 2 ^ 32 * v1) :: drop 1 old) with ([v0 + 2 ^ 32 * v1] ++ drop 1 old). rewrite app_assoc.
    eapply runs_mono; [apply IH; [done..|]; rewrite length_drop; lia|]. intros [l offset] [-> ->].
    rewrite drop_drop, <- !app_assoc, length_app. split; [done|]. cbn [length]. lia.
Qed.

Lemma value_concat k (ls : list (list Z)) vs :
  (0 < k)%nat -> Forall2 (fun l v => length l = k /\ val l = v) ls vs -> val (concat ls) = value (64 * Z.of_nat k) vs.
Proof.
  intros Hk. induction 1 as [|l v ls vs [Hl Hv] _ IH]; [done|]. cbn [concat value]. rewrite value_app, IH, Hl, Hv by done. reflexivity.
Qed.

(** The words of the items, and what is left of the storage set to zero *)
Lemma zero_rest l m n : words_ok 64 l -> length l = m -> (m <= n)%nat -> forall old, length old = n ->
  runs (for_range m (length (l ++ drop m old)) (fun i l => set_at_index l (Z.of_nat i) 0) (l ++ drop m old)) (fun r => length r = n /\ words_ok 64 r /\ val r = val l).
Proof.
  intros Hl Hm Hn old Hold. assert (Hlen : length (l ++ drop m old) = n) by (rewrite length_app, length_drop; lia).
  eapply runs_mono; [apply zero_fill; lia|]. intros r ->. rewrite take_app_length', (drop_ge (l ++ _)), app_nil_r by lia.
  rewrite length_app, length_replicate, value_app, value_replicate by done. split; [lia|]. split; [|lia]. apply Forall_app_2; [done|]. by apply words_ok_zeros.
Qed.

Lemma concat_words k xs :
  Forall (fun x => length (data x) = k /\ words_ok 64 (data x)) xs -> length (concat (data <$> xs)) = (k * length xs)%nat /\ words_ok 64 (concat (data <$> xs)).
Proof.
  induction 1 as [|x xs [Hx Hok] _ [IH1 IH2]]; [split; [cbn; lia|constructor]|]. rewrite fmap_cons. cbn [concat length]. rewrite length_app. split; [lia|by apply Forall_app_2].
Qed.

Section arrays.
Context (uninitialized : nat -> list Z) (Hmem : memory_ok uninitialized) (bits : nat).
Local Notation storage_new := (new_storage uninitialized bits).

(** The end of the constructor, when the items take the words [l] *)
Lemma array_finish l offset v :
  words_ok 64 l -> length l = static_size offset -> (offset <= bits)%nat -> val l = v ->
  runs (l ← for_range ((offset + 63) / 64) (length (l ++ drop (length l) storage_new)) (fun i l => set_at_index l (Z.of_nat i) 0) (l ++ drop (length l) storage_new);
    Ok (mk_fixed bits l)) (fun r => fixed_is r bits v).
Proof using Hmem.
  intros Hok Hl Hb <-. pose proof (static_size_mono _ _ Hb). fold (static_size offset). rewrite <- Hl.
  eapply runs_bind; [apply (zero_rest l (length l) (static_size bits)); try done; [lia|by apply new_length]|].
  intros r (Hr & Hrok & Hrv). apply runs_ret. split; [done|]. split; [done|]. split; [done|]. cbn [data]. lia.
Qed.

Lemma from_array_words_runs k is_u32 xs vs :
  (0 < k)%nat -> Forall2 (fun x v => fixed_is x (k * 64) v) xs vs -> (k * 64 * length xs <= bits)%nat ->
  runs (from_array uninitialized bits (k * 64) is_u32 xs) (fun r => fixed_is r bits (value (Z.of_nat (k * 64)) vs)).
Proof using Hmem.
  intros Hk Hxs Hfit. pose proof (new_length _ Hmem bits) as Hn. unfold from_array.
  assert (Hls : Forall2 (fun l v => length l = k /\ val l = v) (data <$> xs) vs).
  { apply Forall2_fmap_l. eapply Forall2_impl; [exact Hxs|]. intros x v (_ & Hl & _ & Hv). by rewrite static_size_words in Hl. }
  assert (Hitems : Forall (fun x => length (data x) = k /\ words_ok 64 (data x)) xs).
  { eapply Forall2_Forall_l; [exact Hxs|]. apply Forall_forall. intros v _ x (_ & Hl & Hok & _). by rewrite static_size_words in Hl. }
  destruct (concat_words k xs Hitems) as [Hc Hcok].
  assert (Hroom : (k * length xs <= static_size bits)%nat) by (rewrite <- (static_size_words (k * length xs)); apply static_size_mono; lia).
  eapply runs_bind; [apply (from_array_words (k * 64) is_u32 xs [] storage_new); [by apply Nat.Div0.mod_mul| |lia]|].
  { eapply Forall_impl; [exact Hitems|]. intros x [-> _]. by rewrite Nat.div_mul. }
  intros [l offset] [-> ->]. cbn [app length]. rewrite Nat.add_0_l, (Nat.mul_comm 64). apply array_finish; [done|by rewrite static_size_words|lia|].
  rewrite (value_concat k _ vs) by done. f_equal. lia.
Qed.

Lemma from_array_halves_runs xs vs :
  Forall2 (fun x v => fixed_is x 32 v /\ v < 2 ^ 32) xs vs -> (32 * length xs <= bits)%nat ->
  runs (from_array uninitialized bits 32 true xs) (fun r => fixed_is r bits (value 32 vs)).
Proof using Hmem.
  intros Hxs Hfit. pose proof (new_length _ Hmem bits) as Hn. pose proof (Forall2_length _ _ _ Hxs) as Hlen. unfold from_array.
  assert (Hok : words_ok 32 vs).
  { eapply Forall2_Forall_r; [exact Hxs|]. apply Forall_forall. intros x _ v [Hx Hv]. pose proof (fixed_bound _ _ _ Hx). unfold in_width. lia. }
  destruct (pack_halves_spec vs Hok) as (Hpok & Hpv & Hpl).
  assert (Hdiv : length (pack_halves vs) = static_size (32 * length vs)).
  { rewrite Hpl. pose proof (Nat.div_mod_eq (length vs + 1) 2). pose proof (Nat.mod_upper_bound (length vs + 1) 2 ltac:(lia)).
    apply Nat.div_unique with (32 * ((length vs + 1) mod 2) + 31)%nat; lia. }
  pose proof (static_size_mono (32 * length vs) bits ltac:(lia)) as Hroom.
  eapply runs_bind; [apply (from_array_halves vs xs [] storage_new); [done| |lia]|].
  { eapply Forall2_impl; [exact Hxs|]. intros x v [(_ & Hl & _ & Hv) _]. change (static_size 32) with 1%nat in Hl.
    destruct (data x) as [|w [|]]; try done. cbn [value] in Hv. f_equal. lia. }
  intros [l offset] [-> ->]. cbn [app length]. rewrite Nat.mul_0_r, Nat.add_0_l. apply array_finish; [done|done|lia|done].
Qed.
End arrays.

(** ** Byte order *)
Lemma bytes_of_word_digits x : bytes_of_word x = digit 8 x <$> seq 0 8.
Proof. unfold bytes_of_word, digit, weight, wrap. apply list_fmap_ext. intros i j _. by rewrite Z.shiftr_div_pow2 by lia. Qed.

Lemma bytes_of_word_ok x : words_ok 8 (bytes_of_word x).
Proof. rewrite bytes_of_word_digits. apply Forall_fmap, Forall_forall. intros i _. apply digit_range. lia. Qed.

Lemma bytes_of_value l : words_ok 8 l -> length l = 8%nat -> bytes_of_word (value 8 l) = l.
Proof.
  intros Hok Hl. rewrite bytes_of_word_digits. apply list_eq. intros i. rewrite list_lookup_fmap. destruct (Nat.lt_ge_cases i 8) as [Hi|Hi].
  - rewrite lookup_seq_lt by done. cbn [fmap option_fmap option_map]. rewrite digit_lookup by done. destruct (lookup_lt_is_Some_2 l i ltac:(lia)) as [x Hx]. by rewrite Nat.add_0_l, Hx.
  - rewrite lookup_seq_ge, lookup_ge_None_2 by lia. done.
Qed.

Lemma value_bytes_of_word x : in_width 64 x -> value 8 (bytes_of_word x) = x.
Proof.
  intros Hx. rewrite bytes_of_word_digits. assert (E : forall n, value 8 (digit 8 x <$> seq 0 n) = x mod weight 8 n).
  { induction n as [|n IH]; [by rewrite weight_0, Z.mod_1_r|]. rewrite seq_S, fmap_app, value_app, IH, length_fmap, length_seq by lia. cbn [fmap list_fmap value].
    rewrite Z.mul_0_r, Z.add_0_r. unfold digit. rewrite Nat.add_0_l. replace (weight 8 (S n)) with (weight 8 n * 2 ^ 8) by (rewrite weight_S; lia).
    pose proof (weight_pos 8 ltac:(lia) n). rewrite Z.rem_mul_r by lia. lia. }
  rewrite E. apply Z.mod_small. exact Hx.
Qed.

Lemma bswap64_ok x : in_width 64 (bswap64 x).
Proof.
  unfold bswap64. assert (Hok : words_ok 8 (rev (bytes_of_word x))) by (apply Forall_rev, bytes_of_word_ok).
  pose proof (value_bound 8 ltac:(lia) _ Hok) as H. rewrite length_rev in H. exact H.
Qed.

Lemma bytes_of_bswap64 x : bytes_of_word (bswap64 x) = rev (bytes_of_word x).
Proof. apply bytes_of_value; [apply Forall_rev, bytes_of_word_ok|]. by rewrite length_rev. Qed.

Lemma bswap64_involutive x : in_width 64 x -> bswap64 (bswap64 x) = x.
Proof. intros Hx. unfold bswap64 at 1. rewrite bytes_of_bswap64, rev_involutive. by apply value_bytes_of_word. Qed.

(** After [i] rounds the first and the last [i] words are exchanged and swapped. *)
Definition swapped (l : list Z) (i : nat) (r : list Z) : Prop :=
  length r = length l
  /\ forall j, (j < length l)%nat -> r !! j = if decide (j < i \/ length l - i <= j)%nat then bswap64 <$> l !! (length l - 1 - j)%nat else l !! j.

Lemma swapped_step l i r :
  swapped l i r -> (2 * S i <= length l)%nat -> exists front back, r !! i = Some front /\ r !! (length l - 1 - i)%nat = Some back
    /\ swapped l (S i) (<[i := bswap64 back]> (<[(length l - 1 - i)%nat := bswap64 front]> r)).
Proof.
  intros [Hlen Hr] Hi. destruct (lookup_lt_is_Some_2 l i ltac:(lia)) as [front Hf]. destruct (lookup_lt_is_Some_2 l (length l - 1 - i) ltac:(lia)) as [back Hb].
  exists front, back. split; [rewrite Hr, decide_False by lia; done|]. split; [rewrite Hr, decide_False by lia; done|].
  split; [by rewrite !length_insert|]. intros j Hj. destruct (decide (j = i)) as [->|Hji].
  { rewrite list_lookup_insert_eq by (rewrite length_insert; lia). rewrite decide_True, Hb by lia. done. }
  rewrite list_lookup_insert_ne by lia. destruct (decide (j = length l - 1 - i)%nat) as [->|Hji'].
  { rewrite list_lookup_insert_eq by lia. rewrite decide_True by lia. replace (length l - 1 - (length l - 1 - i))%nat with i by lia. by rewrite Hf. }
  rewrite list_lookup_insert_ne, Hr by lia. destruct (decide (j < i \/ length l - i <= j)%nat); [rewrite decide_True by lia|rewrite decide_False by lia]; done.
Qed.

Lemma swapped_all l r : (forall j, (j < length l)%nat -> r !! j = bswap64 <$> l !! (length l - 1 - j)%nat) -> length r = length l -> r = bswap64 <$> reverse l.
Proof.
  intros H Hlen. apply list_eq. intros j. rewrite list_lookup_fmap. destruct (Nat.lt_ge_cases j (length l)) as [Hj|Hj].
  - rewrite H, reverse_lookup by done. do 2 f_equal. lia.
  - rewrite !lookup_ge_None_2 by (rewrite ?length_reverse; lia). done.
Qed.

Lemma byte_swap_runs x : runs (byte_swap_if_not_big_endian x) (fun r => r = mk_fixed (bit_size x) (bswap64 <$> reverse (data x))).
Proof.
  unfold byte_swap_if_not_big_endian. set (l := data x). set (n := length l).
  pose proof (Nat.div_mod_eq n 2) as Hn. pose proof (Nat.mod_upper_bound n 2 ltac:(lia)) as Hm.
  assert (Hstart : ((n + 1) / 2 = n / 2 + n mod 2)%nat).
  { symmetry. apply Nat.div_unique with (1 - n mod 2)%nat; lia. }
  rewrite Hstart. replace (n - (n / 2 + n mod 2))%nat with (n / 2)%nat by lia. eapply runs_bind.
  { apply (for_range_runs (fun i r => swapped l i r)); [lia| |].
    - split; [done|]. intros j Hj. rewrite decide_False by lia. done.
    - intros i r Hi Hs. destruct (swapped_step l i r Hs ltac:(fold n; lia)) as (front & back & Hf & Hb & Hs').
      replace (n / 2 + n mod 2 + (n / 2 - i - 1))%nat with (length l - 1 - i)%nat by (fold n; lia). destruct Hs as [Hlen _].
      rewrite (at_index_Ok _ _ _ Hf), (at_index_Ok _ _ _ Hb). ret. rewrite set_at_index_Ok by (fold n; lia). ret.
      rewrite set_at_index_Ok by (rewrite length_insert; fold n; lia). by apply runs_ret. }
  intros r [Hlen Hr]. destruct (Nat.eqb_spec (n mod 2) 0) as [Hmod|Hmod]; cbn [negb].
  - apply runs_ret. f_equal. apply swapped_all; [|done]. intros j Hj. rewrite Hr, decide_True by (fold n; lia). done.
  - destruct (lookup_lt_is_Some_2 l (n / 2) ltac:(fold n; lia)) as [mid Hmid].
    rewrite (at_index_Ok _ _ mid) by (rewrite Hr, decide_False by (fold n; lia); done). ret. rewrite set_at_index_Ok by (fold n; lia). ret. apply runs_ret. f_equal.
    apply swapped_all; [|by rewrite length_insert]. intros j Hj. destruct (decide (j = n / 2)%nat) as [->|Hne].
    + rewrite list_lookup_insert_eq by (fold n; lia). replace (length l - 1 - n / 2)%nat with (n / 2)%nat by (fold n; lia). by rewrite Hmid.
    + rewrite list_lookup_insert_ne, Hr, decide_True by (fold n; lia). done.
Qed.

Lemma memory_bytes_value l : words_ok 64 l -> value 8 (concat (bytes_of_word <$> l)) = val l.
Proof.
  induction l as [|x l IH]; intros Hok; [done|]. apply Forall_cons in Hok as [Hx Hok]. rewrite fmap_cons. cbn [concat value].
  rewrite value_app, IH, value_bytes_of_word by (done || lia). reflexivity.
Qed.

Lemma memory_bytes_swapped l : concat (bytes_of_word <$> (bswap64 <$> reverse l)) = rev (concat (bytes_of_word <$> l)).
Proof.
  induction l as [|x l IH]; [done|]. rewrite reverse_cons, !fmap_app, concat_app, IH. cbn [fmap list_fmap concat]. by rewrite app_nil_r, bytes_of_bswap64, rev_app_distr.
Qed.

Lemma byte_swap_back x : words_ok 64 (data x) -> byte_swap_if_not_big_endian (mk_fixed (bit_size x) (bswap64 <$> reverse (data x))) = Ok x.
Proof.
  intros Hok. destruct (byte_swap_runs (mk_fixed (bit_size x) (bswap64 <$> reverse (data x)))) as (r & -> & ->). cbn [bit_size data]. f_equal.
  rewrite <- fmap_reverse, reverse_involutive, <- list_fmap_compose. destruct x as [bits l]. cbn [data bit_size] in *. f_equal.
  rewrite (Forall_fmap_ext_1 _ id), list_fmap_id; [done|]. eapply Forall_impl; [exact Hok|]. intros w Hw. by apply bswap64_involutive.
Qed.

Lemma halves_round_trip uninitialized (Hmem : memory_ok uninitialized) x a v p :
  valid_width a -> fixed_is x a v -> static_size a = (2 * p)%nat ->
  runs (low ← low_part uninitialized x; high ← high_part uninitialized x; r ← from_parts uninitialized a low high; Ok (low, high, r))
    (fun '(low, high, r) => fixed_is low (p * 64) (v mod wgt p) /\ fixed_is high (p * 64) (v / wgt p) /\ fixed_is r a v).
Proof.
  intros Ha Hx Hp. pose proof (static_size_pos a (proj1 Ha)) as Hpos. destruct (parts_runs uninitialized Hmem x a v p Hx Hp ltac:(lia)) as [Hlow Hhigh].
  eapply runs_bind; [exact Hlow|]. intros low Hl. eapply runs_bind; [exact Hhigh|]. intros high Hh.
  eapply runs_bind; [by apply (from_parts_runs uninitialized Hmem low high a p _ _ Hl Hh)|]. intros r Hr. apply runs_ret. split; [done|]. split; [done|].
  pose proof (weight_pos 64 width64 p). by rewrite Z.add_comm, <- Z.div_mod in Hr by lia.
Qed.

(** ** Expressions *)

(** The operators of two integers.  A compound assignment is the value that its left operand then has. *)
Inductive fixed_operator :=
  | OBitwise (operation : Bitwise) | OBitwiseAssign (operation : Bitwise)
  | OAdd (subtract : bool) | OAddAssign (subtract : bool)
  | OMul | OMulAssign | OWideMul | ODiv | ODivAssign | OMod | OModAssign.

Inductive fixed_expr :=
  | FLeaf (x : UFixedBigInt)
  | FConvert (bits : nat) (e : fixed_expr)
  | FInvert (e : fixed_expr)
  | FIncrement (subtract : bool) (e : fixed_expr)
  | FShiftLeft (assign : bool) (e : fixed_expr) (shift : nat)
  | FShiftRight (assign : bool) (e : fixed_expr) (shift : nat)
  | FOperator (o : fixed_operator) (e1 e2 : fixed_expr).

Definition apply_operator (uninitialized : nat -> list Z) (o : fixed_operator) : UFixedBigInt -> UFixedBigInt -> outcome UFixedBigInt :=
  match o with
  | OBitwise operation => fixed_bitwise uninitialized operation
  | OBitwiseAssign operation => fixed_bitwise_assign operation
  | OAdd subtract => fixed_add uninitialized subtract
  | OAddAssign subtract => fixed_add_assign subtract
  | OMul => fixed_mul uninitialized
  | OMulAssign => fixed_mul_assign uninitialized
  | OWideMul => fixed_wide_multiply uninitialized
  | ODiv => fixed_div uninitialized
  | ODivAssign => fixed_div_assign uninitialized
  | OMod => fixed_mod uninitialized
  | OModAssign => fixed_mod_assign uninitialized
  end.

Fixpoint fixed_compute (uninitialized : nat -> list Z) (e : fixed_expr) : outcome UFixedBigInt :=
  match e with
  | FLeaf x => Ok x
  | FConvert bits e => x ← fixed_compute uninitialized e; convert uninitialized bits x
  | FInvert e => x ← fixed_compute uninitialized e; fixed_invert uninitialized x
  | FIncrement subtract e => x ← fixed_compute uninitialized e; fixed_increment subtract x
  | FShiftLeft assign e shift => x ← fixed_compute uninitialized e;
      if assign then fixed_shift_left_assign x shift else fixed_shift_left uninitialized x shift
  | FShiftRight assign e shift => x ← fixed_compute uninitialized e;
      if assign then fixed_shift_right_assign x shift else fixed_shift_right uninitialized x shift
  | FOperator o e1 e2 => x ← fixed_compute uninitialized e1; y ← fixed_compute uninitialized e2; apply_operator uninitialized o x y
  end.

(** The width and the value that the operators promise, and the cases that they do not define: widths that the class
    does not have, compound assignments from a wider operand, shifts by the whole storage, divisors that are zero, and
    remainders by a type that is more than a word wider than the dividend. *)
Definition width_ok (bits : nat) : bool := (0 <? bits)%nat && (Z.of_nat bits <=? 2 ^ 29 * 64).
Definition guarded {A} (b : bool) (x : A) : option A := if b then Some x else None.

Definition denote_operator (o : fixed_operator) (a : nat) (v1 : Z) (b : nat) (v2 : Z) : option (nat * Z) :=
  let m := Nat.max a b in
  match o with
  | OBitwise operation => Some (m, bitwise_integer operation v1 v2 mod modulus m)
  | OBitwiseAssign operation => guarded (b <=? a)%nat (a, bitwise_integer operation v1 v2 mod modulus b + modulus b * (v1 / modulus b))
  | OAdd subtract => Some (m, (v1 + direction subtract * v2) mod modulus m)
  | OAddAssign subtract => guarded (b <=? a)%nat (a, (v1 + direction subtract * v2) mod modulus a)
  | OMul => Some (m, (v1 * v2) mod modulus m)
  | OMulAssign => guarded (static_size b <=? static_size a)%nat (a, (v1 * v2) mod modulus a)
  | OWideMul => guarded (width_ok (a + b)) ((a + b)%nat, (v1 * v2) mod modulus (a + b))
  | ODiv | ODivAssign => guarded (negb (v2 =? 0)) (a, v1 / v2)
  | OMod => guarded (negb (v2 =? 0) && (static_size b <=? S (static_size a))%nat) (b, v1 mod v2)
  | OModAssign => guarded (negb (v2 =? 0) && (static_size b <=? static_size a)%nat) (a, v1 mod v2)
  end.

Definition leaf_ok (x : UFixedBigInt) : bool :=
  width_ok (bit_size x) && (length (data x) =? static_size (bit_size x))%nat && forallb (fun w => (0 <=? w) && (w <? 2 ^ 64)) (data x).

Fixpoint fixed_denote (e : fixed_expr) : option (nat * Z) :=
  match e with
  | FLeaf x => guarded (leaf_ok x) (bit_size x, val (data x))
  | FConvert bits e => fixed_denote e ≫= fun '(_, v) => guarded (width_ok bits) (bits, v mod modulus bits)
  | FInvert e => fixed_denote e ≫= fun '(a, v) => Some (a, Z.lnot v mod modulus a)
  | FIncrement subtract e => fixed_denote e ≫= fun '(a, v) => Some (a, (v + direction subtract) mod modulus a)
  | FShiftLeft _ e n => fixed_denote e ≫= fun '(a, v) => guarded (n / 64 <? static_size a)%nat (a, (v * 2 ^ Z.of_nat n) mod modulus a)
  | FShiftRight _ e n => fixed_denote e ≫= fun '(a, v) => guarded (n / 64 <? static_size a)%nat (a, v / 2 ^ Z.of_nat n)
  | FOperator o e1 e2 => fixed_denote e1 ≫= fun '(a, v1) => fixed_denote e2 ≫= fun '(b, v2) => denote_operator o a v1 b v2
  end.

Lemma width_ok_spec bits : width_ok bits = true <-> valid_width bits.
Proof. unfold width_ok, valid_width. rewrite andb_true_iff, Nat.ltb_lt, Z.leb_le. done. Qed.

Lemma guarded_Some {A} b (x y : A) : guarded b x = Some y -> b = true /\ x = y.
Proof. unfold guarded. destruct b; by intros [= ->]. Qed.

Lemma leaf_ok_spec x : leaf_ok x = true -> valid_width (bit_size x) /\ fixed_is x (bit_size x) (val (data x)).
Proof.
  unfold leaf_ok. rewrite !andb_true_iff, width_ok_spec, Nat.eqb_eq. intros [[Hw Hl] Hok]. split; [done|]. split; [done|]. split; [done|]. split; [|done].
  apply Forall_forall. intros w Hin. apply forallb_forall with (x := w) in Hok; [|by apply list_elem_of_In]. unfold in_width. lia.
Qed.

Section expressions.
Context (uninitialized : nat -> list Z) (Hmem : memory_ok uninitialized).

Lemma apply_operator_runs o x y a b v1 v2 bits v :
  valid_width a -> valid_width b -> fixed_is x a v1 -> fixed_is y b v2 -> denote_operator o a v1 b v2 = Some (bits, v) ->
  valid_width bits /\ runs (apply_operator uninitialized o x y) (fun r => fixed_is r bits v).
Proof using Hmem.
  intros Ha Hb Hx Hy. pose proof (valid_width_max _ _ Ha Hb) as Hm. pose proof Ha as [Ha0 _]. pose proof Hb as [Hb0 _].
  destruct o; cbn [denote_operator apply_operator]; try (intros [Hg [= <- <-]]%guarded_Some); try (intros [= <- <-]).
  - split; [done|]. by apply fixed_bitwise_runs.
  - split; [done|]. apply fixed_bitwise_assign_runs; [done..|]. by apply Nat.leb_le.
  - split; [done|]. by apply fixed_add_runs.
  - split; [done|]. apply fixed_add_assign_runs with b; [done..|]. by apply Nat.leb_le.
  - split; [done|]. by apply fixed_mul_runs.
  - split; [done|]. apply fixed_mul_assign_runs with b; try done. by apply Nat.leb_le.
  - split; [by apply width_ok_spec|]. by apply fixed_wide_multiply_runs.
  - split; [done|]. apply fixed_div_runs with b; try done. by apply Z.eqb_neq, negb_true_iff.
  - split; [done|]. apply fixed_div_assign_runs with b; try done. by apply Z.eqb_neq, negb_true_iff.
  - apply andb_true_iff in Hg as [Hne%negb_true_iff%Z.eqb_neq Hs%Nat.leb_le]. split; [done|]. by apply fixed_mod_runs with a.
  - apply andb_true_iff in Hg as [Hne%negb_true_iff%Z.eqb_neq Hs%Nat.leb_le]. split; [done|]. by apply fixed_mod_assign_runs with b.
Qed.

Lemma fixed_compute_runs e : forall bits v, fixed_denote e = Some (bits, v) -> valid_width bits /\ runs (fixed_compute uninitialized e) (fun r => fixed_is r bits v).
Proof using Hmem.
  induction e as [x|bits' e IH|e IH|subtract e IH|assign e IH n|assign e IH n|o e1 IH1 e2 IH2]; intros bits v; cbn [fixed_denote fixed_compute];
    try (intros ([a v0] & E & H)%bind_Some; destruct (IH _ _ E) as [Hw Hrun]).
  - intros [Hx [= <- <-]]%guarded_Some. destruct (leaf_ok_spec x Hx). split; [done|]. by apply runs_ret.
  - apply guarded_Some in H as [Hb%width_ok_spec [= <- <-]]. split; [done|]. eapply runs_bind; [done|]. intros r Hr. by apply convert_runs with a.
  - injection H as <- <-. split; [done|]. eapply runs_bind; [done|]. intros r Hr. by apply fixed_invert_runs.
  - injection H as <- <-. split; [done|]. eapply runs_bind; [done|]. intros r Hr. by apply fixed_increment_runs.
  - apply guarded_Some in H as [Hn%Nat.ltb_lt [= <- <-]]. split; [done|]. eapply runs_bind; [done|]. intros r Hr.
    destruct (fixed_shift_left_runs _ Hmem _ _ _ _ Hr Hn). by destruct assign.
  - apply guarded_Some in H as [Hn%Nat.ltb_lt [= <- <-]]. split; [done|]. eapply runs_bind; [done|]. intros r Hr.
    destruct (fixed_shift_right_runs _ Hmem _ _ _ _ Hr Hn). by destruct assign.
  - intros ([a v1] & E1 & ([b v2] & E2 & H)%bind_Some)%bind_Some. destruct (IH1 _ _ E1) as [Ha R1], (IH2 _ _ E2) as [Hb R2].
    split; [|eapply runs_bind; [done|]; intros x Hx; eapply runs_bind; [done|]; intros y Hy; exact (proj2 (apply_operator_runs o x y a b v1 v2 bits v Ha Hb Hx Hy H))].
    destruct R1 as (x & _ & Hx), R2 as (y & _ & Hy). exact (proj1 (apply_operator_runs o x y a b v1 v2 bits v Ha Hb Hx Hy H)).
Qed.
End expressions.

(** ** Properties *)


Definition sample_a : UFixedBigInt := mk_fixed 128 [2 ^ 64 - 1; 5].
Definition sample_b : UFixedBigInt := mk_fixed 192 [7; 0; 3].
Definition sample_memory (n : nat) : list Z := replicate n 99.
Definition sample_expression : fixed_expr :=
  FOperator OMod (FOperator OWideMul (FLeaf sample_a) (FInvert (FLeaf sample_b))) (FShiftLeft true (FOperator (OAdd true) (FLeaf sample_a) (FLeaf sample_b)) 70).

Lemma sample_memory_ok : memory_ok sample_memory.
Proof. intros n. split; [apply length_replicate|]. apply Forall_replicate. unfold in_width. lia. Qed.


(** The queries of fixed-width integers agree with the integer: the ordering and both equality tests compare the
    values across widths, the zero tests agree with each other, the counts of set bits and of trailing zeros
    are those of the binary expansion, the count of leading zeros is the declared width less the bit length
    modulo [2 ^ 64], [addc] and [subc] return the exact sum or difference with its carry, [div_mod] the quotient
    and the remainder, the postfix operators the old value, and the maximum is all ones. *)
Theorem fixed_queries_exact uninitialized x y a b v1 v2 :
  memory_ok uninitialized -> valid_width a -> fixed_is x a v1 -> fixed_is y b v2 ->
  spaceship x y = Ok (Z.sgn (v1 - v2)) /\ fixed_eq x y = Ok (v1 =? v2)
  /\ (a = b -> is_equal_to_constant_time x y = Ok (v1 =? v2))
  /\ operator_not x = (v1 =? 0) /\ to_bool x = negb (v1 =? 0) /\ is_zero_constant_time x = (v1 =? 0)
  /\ popcnt x = Ok (csum (Z.testbit v1) 0 (64 * static_size a))
  /\ lowest_bit v1 (64 * Z.of_nat (static_size a)) (ctz x)
  /\ clz x = Ok (wrap 64 (Z.of_nat a - bit_length v1))
  /\ (forall subtract carry, runs (fixed_addc uninitialized subtract x y carry) (fun '(r, carry') => exists v, fixed_is r (Nat.max a b) v
      /\ v + direction subtract * (modulus (Nat.max a b) * Z.b2z carry') = v1 + direction subtract * (v2 + Z.b2z carry)))
  /\ ((0 < b)%nat -> v2 <> 0 -> (static_size b <= S (static_size a))%nat ->
      runs (div_mod uninitialized x y) (fun '(q, r) => fixed_is q a (v1 / v2) /\ fixed_is r b (v1 mod v2)))
  /\ (forall subtract, runs (fixed_post_increment subtract x) (fun '(old, r) => old = x /\ fixed_is r a ((v1 + direction subtract) mod modulus a)))
  /\ runs (fixed_max a) (fun r => fixed_is r a (modulus a - 1)).
Proof.
  intros Hmem Ha Hx Hy. split; [destruct (spaceship_runs x y a b v1 v2 Hx Hy) as (? & -> & ->); done|].
  split; [destruct (fixed_eq_runs x y a b v1 v2 Hx Hy) as (? & -> & ->); done|].
  split; [intros <-; destruct (is_equal_to_constant_time_runs x y a v1 v2 Hx Hy) as (? & -> & ->); done|].
  destruct (fixed_zero_tests x a v1 Hx) as (-> & -> & ->). do 3 (split; [done|]).
  split; [destruct (popcnt_runs x a v1 Hx Ha) as (? & -> & ->); done|]. split; [by apply ctz_spec|].
  split; [destruct (clz_runs x a v1 Hx Ha) as (? & -> & ->); done|]. split; [intros; by apply fixed_addc_runs|].
  split; [intros; apply div_mod_runs; try done; apply Ha|]. split; [|apply fixed_max_runs].
  intros subtract. unfold fixed_post_increment. eapply runs_bind; [by apply fixed_increment_runs|]. intros r Hr. by apply runs_ret.
Qed.

Lemma sample_a_is : fixed_is sample_a 128 (2 ^ 64 - 1 + 5 * 2 ^ 64).
Proof. split; [done|]. split; [done|]. split; [|done]. repeat constructor; unfold in_width; lia. Qed.
Lemma sample_b_is : fixed_is sample_b 192 (7 + 3 * 2 ^ 128).
Proof. split; [done|]. split; [done|]. split; [|done]. repeat constructor; unfold in_width; lia. Qed.

Lemma fixed_queries_exact_witness :
  valid_width 128 /\ fixed_is sample_a 128 (2 ^ 64 - 1 + 5 * 2 ^ 64) /\ fixed_is sample_b 192 (7 + 3 * 2 ^ 128)
  /\ popcnt sample_a = Ok 66 /\ clz sample_a = Ok 61 /\ spaceship sample_a sample_b = Ok (-1).
Proof.
  assert (Hw : valid_width 128) by (split; lia).
  destruct (fixed_queries_exact sample_memory sample_a sample_b 128 192 _ _ sample_memory_ok Hw sample_a_is sample_b_is) as (H1 & _ & _ & _ & _ & _ & H2 & _ & H3 & _).
  split; [exact Hw|]. split; [exact sample_a_is|]. split; [exact sample_b_is|]. split; [exact H2|]. split; [exact H3|exact H1].
Defined.

(** Conversions of fixed-width integers lose nothing.  The halves of an integer with an even number of words are
    its quotient and remainder, and the integer is rebuilt from them; a wider type and back is the integer itself;
    the big-endian form has the bytes of the integer in reverse order and converts back to it; a cast to a
    built-in type is the integer modulo its width; and an array of items of whole words, or of [u32], gives the
    integer whose digits they are. *)
Theorem fixed_conversion_round_trips uninitialized x a v :
  memory_ok uninitialized -> valid_width a -> fixed_is x a v ->
  (forall p, static_size a = (2 * p)%nat ->
    runs (low ← low_part uninitialized x; high ← high_part uninitialized x; r ← from_parts uninitialized a low high; Ok (low, high, r))
      (fun '(low, high, r) => fixed_is low (p * 64) (v mod wgt p) /\ fixed_is high (p * 64) (v / wgt p) /\ fixed_is r a v))
  /\ (forall b, (static_size a <= static_size b)%nat -> runs (y ← convert uninitialized b x; convert uninitialized a y) (fun r => fixed_is r a v))
  /\ (exists r, byte_swap_if_not_big_endian x = Ok r /\ memory_bytes r = rev (memory_bytes x) /\ value 8 (memory_bytes x) = v
      /\ byte_swap_if_not_big_endian r = Ok x)
  /\ (forall bits, (bits <= 64)%nat \/ (bits = 128%nat /\ (2 <= static_size a)%nat) -> to_builtin bits x = Ok (v mod 2 ^ Z.of_nat bits))
  /\ (forall k is_u32 xs vs, (0 < k)%nat -> Forall2 (fun x v => fixed_is x (k * 64) v) xs vs -> (k * 64 * length xs <= a)%nat ->
      runs (from_array uninitialized a (k * 64) is_u32 xs) (fun r => fixed_is r a (value (Z.of_nat (k * 64)) vs)))
  /\ (forall xs vs, Forall2 (fun x v => fixed_is x 32 v /\ v < 2 ^ 32) xs vs -> (32 * length xs <= a)%nat ->
      runs (from_array uninitialized a 32 true xs) (fun r => fixed_is r a (value 32 vs))).
Proof.
  intros Hmem Ha Hx. pose proof (fixed_bound _ _ _ Hx) as Hb. split; [|split; [|split; [|split; [|split]]]].
  - intros p Hp. by apply halves_round_trip.
  - intros b Hab. eapply runs_bind; [apply (convert_same uninitialized Hmem x a v b Hx); pose proof (modulus_le a b Hab); lia|].
    intros y Hy. eapply (convert_same uninitialized Hmem y b v a Hy). lia.
  - destruct (byte_swap_runs x) as (r & Hr & ->). exists (mk_fixed (bit_size x) (bswap64 <$> reverse (data x))). destruct Hx as (_ & _ & Hok & <-).
    split; [done|]. split; [apply memory_bytes_swapped|]. split; [by apply memory_bytes_value|]. by apply byte_swap_back.
  - intros bits Hbits. destruct (to_builtin_runs x a v bits Hx (proj1 Ha) Hbits) as (r & -> & ->). done.
  - intros. by apply from_array_words_runs.
  - intros. by apply from_array_halves_runs.
Qed.

Lemma fixed_conversion_round_trips_witness :
  (exists r, byte_swap_if_not_big_endian sample_b = Ok r /\ memory_bytes r = rev (memory_bytes sample_b) /\ byte_swap_if_not_big_endian r = Ok sample_b)
  /\ to_builtin 128 sample_a = Ok (2 ^ 64 - 1 + 5 * 2 ^ 64)
  /\ (exists r, from_array sample_memory 192 32 true [mk_fixed 32 [1]; mk_fixed 32 [2]; mk_fixed 32 [3]] = Ok r /\ fixed_is r 192 (1 + 2 * 2 ^ 32 + 3 * 2 ^ 64)).
Proof.
  destruct (fixed_conversion_round_trips sample_memory sample_b 192 _ sample_memory_ok ltac:(split; lia) sample_b_is)
    as (_ & _ & (r & H1 & H2 & _ & H3) & _ & _ & H4).
  destruct (fixed_conversion_round_trips sample_memory sample_a 128 _ sample_memory_ok ltac:(split; lia) sample_a_is)
    as (_ & _ & _ & H5 & _).
  split; [exists r; split; [exact H1|]; split; [exact H2|exact H3]|]. split; [apply (H5 128%nat); right; split; [reflexivity|cbn; lia]|].
  apply (H4 _ [1; 2; 3]); [|cbn; lia]. repeat constructor; cbn; lia.
Defined.

(** Three places where the class does not have the value of the integers: [x &= y] with a narrower [y] keeps the
    words of [x] above those of [y], which [x & y] clears; and [x % y] with a [y] whose type is more than a word
    wider than [x] returns the words that its new storage happened to hold; and a cast of a single word to the built-in
    double word reads a second word. *)
Theorem fixed_operator_faults :
  fixed_compute sample_memory (FOperator (OBitwise AND) (FLeaf sample_a) (FLeaf (mk_fixed 64 [1]))) = Ok (mk_fixed 128 [1; 0])
  /\ fixed_compute sample_memory (FOperator (OBitwiseAssign AND) (FLeaf sample_a) (FLeaf (mk_fixed 64 [1]))) = Ok (mk_fixed 128 [1; 5])
  /\ (forall garbage, fixed_mod (fun n => replicate n garbage) (mk_fixed 128 [1; 9]) (mk_fixed 320 [0; 5; 0; 0; 0]) = Ok (mk_fixed 320 [1; 4; 0; garbage; garbage]))
  /\ to_builtin 128 (mk_fixed 64 [1]) = Panic.
Proof. split; [vm_compute; reflexivity|]. split; [vm_compute; reflexivity|]. split; [|reflexivity]. intros garbage. vm_compute. reflexivity. Qed.
