(* ===== verification/BigIntBits.v ===== *)
(** * Bits of unsigned big integers

    The values of the bitwise operations (LibCrypto/BigInt/Algorithms/BitwiseOperations.cpp), of
    [set_bit_inplace] and of [one_based_index_of_highest_set_bit]. *)
From S2P Require Import Prelude BigIntBase UnsignedBigInteger BigIntDivision.

Local Open Scope Z_scope.
Local Notation word_ok := (in_width 32).

(** ** Bits of a value *)
Lemma testbit_digit X j i : 0 <= i < 32 -> Z.testbit (digit 32 X j) i = Z.testbit X (32 * Z.of_nat j + i).
Proof.
  intros Hi. unfold digit, weight. rewrite Z.mod_pow2_bits_low by lia.
  rewrite <- Z.shiftr_div_pow2 by lia. rewrite Z.shiftr_spec by lia. f_equal. lia.
Qed.

Lemma word_bits_inj x y : word_ok x -> word_ok y -> (forall i, 0 <= i < 32 -> Z.testbit x i = Z.testbit y i) -> x = y.
Proof.
  intros Hx Hy H. apply Z.bits_inj'. intros i Hi. destruct (Z.lt_ge_cases i 32) as [Hlt|Hge]; [by apply H|].
  unfold in_width in *. rewrite <- (Z.mod_small x (2 ^ 32)), <- (Z.mod_small y (2 ^ 32)) by done.
  by rewrite !Z.mod_pow2_bits_high by lia.
Qed.

(** ** Bitwise operations *)
Section bitwise.
Context (op : Z -> Z -> Z) (f : bool -> bool -> bool).
Context (Hop : forall a b i, Z.testbit (op a b) i = f (Z.testbit a i) (Z.testbit b i)).
Context (Hf : f false false = false).

Lemma word_high_bits x i : word_ok x -> 32 <= i -> Z.testbit x i = false.
Proof using.
  intros Hx Hi. unfold in_width in Hx. rewrite <- (Z.mod_small x (2 ^ 32)) by done. by rewrite Z.mod_pow2_bits_high by lia.
Qed.

Lemma op_word_ok x y : word_ok x -> word_ok y -> word_ok (op x y).
Proof using All.
  intros Hx Hy. assert (E : op x y mod 2 ^ 32 = op x y).
  { apply Z.bits_inj'. intros i Hi. destruct (Z.lt_ge_cases i 32) as [Hlt|Hge].
    - by rewrite Z.mod_pow2_bits_low by lia.
    - rewrite Z.mod_pow2_bits_high, Hop, !word_high_bits by (done || lia). done. }
  rewrite <- E. apply Z.mod_pos_bound. lia.
Qed.

Lemma split_bits u U i :
  word_ok u -> 0 <= i -> Z.testbit (u + 2 ^ 32 * U) i = if i <? 32 then Z.testbit u i else Z.testbit U (i - 32).
Proof using.
  intros Hu Hi. pose proof Hu as Hu'. unfold in_width in Hu. rewrite Z.mul_comm, <- lor_disjoint by lia.
  rewrite Z.lor_spec, Z.mul_pow2_bits by lia. destruct (Z.ltb_spec i 32).
  - rewrite (Z.testbit_neg_r U) by lia. apply orb_false_r.
  - by rewrite (word_high_bits u) by (done || lia).
Qed.

Lemma op_words x y X Y :
  word_ok x -> word_ok y -> op (x + 2 ^ 32 * X) (y + 2 ^ 32 * Y) = op x y + 2 ^ 32 * op X Y.
Proof using All.
  intros Hx Hy. apply Z.bits_inj'. intros i Hi. rewrite Hop, !split_bits by (done || by apply op_word_ok).
  rewrite !Hop. by destruct (i <? 32).
Qed.

(** The words of the longer operand beyond the shorter one are combined with zero. *)
Lemma bitwise_words_value (keep : bool) longer shorter :
  words_ok 32 longer -> words_ok 32 shorter -> (length shorter <= length longer)%nat ->
  (forall a, op a 0 = if keep then a else 0) ->
  words_ok 32 (bitwise_words op keep longer shorter)
  /\ value 32 (bitwise_words op keep longer shorter) = op (value 32 longer) (value 32 shorter).
Proof using All.
  intros Hl Hs Hlen H0. unfold bitwise_words. revert shorter Hs Hlen. induction Hl as [|x longer Hx Hl IH]; intros [|y shorter] Hs Hlen.
  - cbn. destruct keep; (split; [constructor|]); by rewrite H0.
  - cbn in Hlen. lia.
  - cbn [zip_with app length drop]. rewrite Nat.sub_0_r. cbn [value]. rewrite H0. destruct keep.
    + split; [by constructor|done].
    + split; [by apply words_ok_zeros|]. apply (value_replicate 32 (S (length longer))).
  - apply Forall_cons in Hs as [Hy Hs]. destruct (IH shorter Hs ltac:(cbn in Hlen; lia)) as [IH1 IH2]. cbn [zip_with app length drop Nat.sub value].
    split; [constructor; [by apply op_word_ok|done]|]. by rewrite IH2, op_words.
Qed.

Lemma bitwise_holds (keep : bool) left right output a b :
  (forall a b, op a b = op b a) -> (forall a, op a 0 = if keep then a else 0) ->
  holds left a -> holds right b -> m_is_invalid output = false ->
  holds (bitwise_without_allocation op keep left right output) (op a b)
  /\ m_cached_trimmed_length (bitwise_without_allocation op keep left right output) = m_cached_trimmed_length output.
Proof using All.
  intros Hcomm H0 (Hlok & <- & Hli) (Hrok & <- & Hri) Ho. unfold bitwise_without_allocation. rewrite Hli, Hri.
  destruct (Nat.ltb_spec (length (m_words left)) (length (m_words right))); (split; [|done]).
  - destruct (bitwise_words_value keep _ _ Hrok Hlok ltac:(lia) H0) as [H1 H2]. split; [done|]. cbn. by rewrite H2, Hcomm.
  - destruct (bitwise_words_value keep _ _ Hlok Hrok ltac:(lia) H0) as [H1 H2]. by split.
Qed.

End bitwise.

Lemma bitwise_or_holds u v a b : holds u a -> holds v b -> represents (bitwise_or u v) (Z.lor a b).
Proof.
  intros Hu Hv. destruct (bitwise_holds Z.lor orb Z.lor_spec eq_refl true u v empty_integer a b Z.lor_comm Z.lor_0_r Hu Hv eq_refl).
  by apply cache_none.
Qed.

Lemma bitwise_and_holds u v a b : holds u a -> holds v b -> represents (bitwise_and u v) (Z.land a b).
Proof.
  intros Hu Hv. destruct (bitwise_holds Z.land andb Z.land_spec eq_refl false u v empty_integer a b Z.land_comm Z.land_0_r Hu Hv eq_refl).
  by apply cache_none.
Qed.

Lemma bitwise_xor_holds u v a b : holds u a -> holds v b -> represents (bitwise_xor u v) (Z.lxor a b).
Proof.
  intros Hu Hv. destruct (bitwise_holds Z.lxor xorb Z.lxor_spec eq_refl true u v empty_integer a b Z.lxor_comm Z.lxor_0_r Hu Hv eq_refl).
  by apply cache_none.
Qed.

(** ** Complement up to a bit *)
Lemma not_word_bits x i : word_ok x -> 0 <= i < 32 -> Z.testbit (wrap 32 (Z.lnot x)) i = negb (Z.testbit x i).
Proof. intros Hx Hi. unfold wrap. by rewrite Z.mod_pow2_bits_low, Z.lnot_spec by lia. Qed.

Lemma bitwise_not_runs u index a :
  holds u a ->
  runs (bitwise_not_fill_to_one_based_index u index) (fun r => represents r (Z.lnot a mod 2 ^ Z.of_nat index)).
Proof.
  intros (Hok & Ha & Hi). unfold bitwise_not_fill_to_one_based_index, bitwise_not_fill_to_one_based_index_without_allocation, BITS_IN_WORD.
  rewrite Hi. destruct (Nat.eqb_spec index 0) as [-> |Hne].
  { apply runs_ret. rewrite Z.mod_1_r. apply holds_empty. }
  set (size := ((index + 32 - 1) / 32)%nat). set (X := Z.lnot a mod 2 ^ Z.of_nat index).
  assert (Hsize : (1 <= size)%nat /\ (32 * (size - 1) < index <= 32 * size)%nat).
  { pose proof (Nat.div_mod_eq (index + 32 - 1) 32). pose proof (Nat.mod_upper_bound (index + 32 - 1) 32 ltac:(lia)). subst size. lia. }
  assert (HX : forall j, 0 <= j -> Z.testbit X j = (j <? Z.of_nat index) && negb (Z.testbit a j)).
  { intros j Hj. unfold X. destruct (Z.ltb_spec j (Z.of_nat index)).
    - by rewrite Z.mod_pow2_bits_low, Z.lnot_spec by lia.
    - by rewrite Z.mod_pow2_bits_high by lia. }
  assert (Hword : forall j, default 0 (m_words u !! j) = digit 32 a j) by (intros j; by rewrite <- Ha, digit_lookup).
  destruct (resize_value [] size ltac:(constructor) ltac:(cbn; lia)) as (R1 & R2 & R3).
  eapply runs_bind; [apply (for_range_runs (filled_below 32 X (resize [] size))); [lia|apply filled_below_start|]|].
  { intros i l Hi2 HI. rewrite Hword. apply filled_below_set; [lia|done|].
    apply word_bits_inj; [by apply wrap_range|by apply digit_range|]. intros k Hk.
    rewrite not_word_bits, !testbit_digit, HX by (lia || by apply digit_range).
    rewrite (proj2 (Z.ltb_lt _ _)) by lia. done. }
  intros l HI. replace (Z.of_nat size - 1) with (Z.of_nat (size - 1)) by lia.
  eapply runs_bind; [apply (filled_below_set 32 X (resize [] size)); [lia|exact HI|]|].
  - rewrite Hword. set (r := Z.of_nat index - Z.of_nat (size - 1) * 32). assert (Hr : 0 < r <= 32) by lia.
    assert (Hm : forall k, 0 <= k < 32 -> Z.testbit (Z.shiftr (2 ^ 32 - 1) (32 - r)) k = (k <? r)).
    { intros k Hk. rewrite Z.shiftr_spec by lia. change (2 ^ 32 - 1) with (Z.ones 32).
      destruct (Z.ltb_spec k r); [rewrite Z.ones_spec_low by lia|rewrite Z.ones_spec_high by lia]; done. }
    apply word_bits_inj; [|by apply digit_range|].
    + apply (op_word_ok Z.land andb Z.land_spec eq_refl); [|by apply wrap_range]. unfold in_width.
      rewrite Z.shiftr_div_pow2 by lia. split; [apply Z.div_pos; lia|apply Z.div_lt_upper_bound; [lia|]].
      assert (1 <= 2 ^ (32 - r)) by lia. nia.
    + intros k Hk. rewrite Z.land_spec, Hm, not_word_bits, !testbit_digit, HX by (lia || by apply digit_range).
      f_equal. subst r. apply eq_true_iff_eq. rewrite !Z.ltb_lt. lia.
  - intros l2 HI2. apply runs_ret. replace (S (size - 1)) with size in HI2 by lia.
    destruct (filled_below_value 32 word_width X (resize [] size) size l2 HI2) as (new & -> & Hnl & Hnok & Hnv); [lia|].
    rewrite drop_ge, app_nil_r by lia. split; [|done]. split; [done|]. split; [|done]. cbn [with_words m_words]. rewrite Hnv.
    apply Z.mod_small. assert (0 <= X < 2 ^ Z.of_nat index) by (apply Z.mod_pos_bound; lia).
    assert (2 ^ Z.of_nat index <= weight 32 size) by (apply Z.pow_le_mono_r; lia). lia.
Qed.

(** ** Highest bit *)
Lemma highest_set_bit_runs u a :
  represents u a ->
  runs (one_based_index_of_highest_set_bit u) (fun '(n, u') => n = (if a =? 0 then 0 else Z.log2 a + 1) /\ refreshed u u').
Proof.
  intros [(Hok & Ha & Hi) Hc]. unfold one_based_index_of_highest_set_bit, BITS_IN_WORD.
  destruct (trimmed_length_spec u Hc) as (u' & -> & R & _). pose proof R as (W & _). rewrite W.
  destruct (Nat.ltb_spec 0 (trimmed (m_words u))) as [Hpos|Hz].
  - destruct (trimmed_top (m_words u) Hpos) as (x & Hx & Hne). destruct (trimmed_spec (m_words u)) as (Hl & Hdz & _).
    destruct (value_top_word 32 word_width _ _ x Hok Hpos Hx (value_all_zero 32 _ Hdz)) as (low & HV & Hlow).
    set (n := trimmed (m_words u)) in *. replace (Z.of_nat n - 1) with (Z.of_nat (n - 1)) by lia.
    rewrite (at_index_Ok _ _ _ Hx). ret. pose proof (words_ok_lookup 32 _ _ _ Hok Hx) as Hxr. unfold in_width in Hxr.
    unfold count_leading_zeroes. rewrite (proj2 (Z.eqb_neq x 0) Hne). ret. apply runs_ret. split; [|done].
    assert (Hlog : 0 <= Z.log2 x < 32) by (split; [apply Z.log2_nonneg|apply Z.log2_lt_pow2; lia]).
    rewrite Z2Nat.id by lia. pose proof (weight_pos 32 word_width (n - 1)) as HP. rewrite Ha in HV.
    rewrite (proj2 (Z.eqb_neq a 0)) by nia. pose proof (Z.log2_spec x ltac:(lia)) as [S1 S2].
    assert (Z.log2 a = 32 * Z.of_nat (n - 1) + Z.log2 x) as ->; [|lia].
    apply Z.log2_unique; [lia|]. rewrite Z.pow_succ_r, Z.pow_add_r by lia. fold (weight 32 (n - 1)).
    rewrite Z.pow_succ_r in S2 by lia. set (P := weight 32 (n - 1)) in *. set (p := 2 ^ Z.log2 x) in *. clearbody p. nia.
  - apply runs_ret. split; [|done]. assert (E : value 32 (m_words u) = 0) by (apply trimmed_zero; [done|lia]).
    rewrite Ha in E. by rewrite E.
Qed.

(** ** Setting a bit *)
Lemma lor_bit x b : 0 <= b -> Z.lor x (2 ^ b) = x + (if Z.testbit x b then 0 else 2 ^ b).
Proof.
  intros Hb. destruct (Z.testbit x b) eqn:E.
  - rewrite Z.add_0_r. apply Z.bits_inj'. intros i Hi. rewrite Z.lor_spec, Z.pow2_bits_eqb by done.
    destruct (Z.eqb_spec b i) as [-> |]; [by rewrite E|apply orb_false_r].
  - symmetry. apply Z.add_nocarry_lor. apply Z.bits_inj'. intros i Hi. rewrite Z.land_spec, Z.pow2_bits_eqb, Z.bits_0 by done.
    destruct (Z.eqb_spec b i) as [-> |]; [by rewrite E|apply andb_false_r].
Qed.

Lemma set_bit_inplace_runs u n a :
  holds u a -> runs (set_bit_inplace u n) (fun u' => represents u' (Z.lor a (2 ^ Z.of_nat n))).
Proof.
  intros (Hok & Ha & Hi). unfold set_bit_inplace. set (k := (n / 32)%nat). set (b := (n mod 32)%nat).
  assert (Hn : n = (32 * k + b)%nat) by (pose proof (Nat.div_mod_eq n 32); subst k b; lia).
  assert (Hb : (b < 32)%nat) by (apply Nat.mod_upper_bound; lia).
  set (l := m_words u ++ replicate (S k - length (m_words u)) 0).
  assert (Hl : words_ok 32 l) by (apply words_ok_app; [done|by apply words_ok_zeros]).
  assert (Hlv : value 32 l = a) by (unfold l; rewrite value_app, value_replicate by done; lia).
  assert (Hlen : (k < length l)%nat) by (unfold l; rewrite length_app, length_replicate; lia).
  destruct (at_index_some l k Hlen) as (x & Hx & ->). ret. pose proof (words_ok_lookup 32 _ _ _ Hl Hx) as Hxr.
  rewrite set_at_index_Ok by done. ret. apply runs_ret. rewrite Z.shiftl_1_l, !lor_bit by lia.
  assert (Hbit : Z.testbit a (Z.of_nat n) = Z.testbit x (Z.of_nat b)).
  { replace x with (digit 32 a k) by (rewrite <- Hlv, digit_lookup by done; by rewrite Hx).
    rewrite testbit_digit by lia. f_equal. lia. }
  rewrite Hbit. assert (Hw : word_ok (x + (if Z.testbit x (Z.of_nat b) then 0 else 2 ^ Z.of_nat b))).
  { rewrite <- lor_bit by lia. apply (op_word_ok Z.lor orb Z.lor_spec eq_refl); [done|]. unfold in_width.
    split; [lia|apply Z.pow_lt_mono_r; lia]. }
  split; [|done]. split; [by apply words_ok_insert|]. cbn [m_words m_is_invalid]. split; [|done].
  rewrite (value_insert 32 word_width l k x _ Hx), Hlv. destruct (Z.testbit x (Z.of_nat b)); [lia|].
  unfold weight. replace (Z.of_nat n) with (32 * Z.of_nat k + Z.of_nat b) by lia. rewrite Z.pow_add_r by lia. lia.
Qed.
