(* ===== verification/BigIntSpec.v ===== *)
(** * What the class UnsignedBigInteger promises

    The operations of LibCrypto/BigInt/UnsignedBigInteger.h as one arithmetic: [compute] evaluates
    an expression with the operations of the class, [denote] with the integers of mathematics.
    The refinement theorem: an expression that denotes an integer is computed, without a failed
    assertion, to a representation of it, with 32-bit words and a right cached length.  The
    operations it has no result for are the differences below zero (the class marks the result invalid),
    the divisions by zero, which fail, and the right shifts by a word or more, which fail as well. *)
From S2P Require Import Prelude BigIntBase UnsignedBigInteger BigIntDivision BigIntBits.

Local Open Scope Z_scope.
Local Notation word_ok := (in_width 32).

Inductive expression :=
  | Literal (words : list Z)
  | Plus (left right : expression)
  | Minus (left right : expression)
  | Times (left right : expression)
  | Quotient (left right : expression)
  | Remainder (left right : expression)
  | Or (left right : expression)
  | And (left right : expression)
  | Xor (left right : expression)
  | Not (operand : expression) (size : nat)
  | ShiftLeft (operand : expression) (num_bits : nat)
  | ShiftRight (operand : expression) (num_bits : nat)
  | SetBit (operand : expression) (bit_index : nat).

Definition binary {U} (op : U -> U -> outcome U) (left right : outcome U) : outcome U :=
  u ← left; v ← right; op u v.

Fixpoint compute (e : expression) : outcome UnsignedBigInteger :=
  match e with
  | Literal words => Ok (mk_UnsignedBigInteger words false None)
  | Plus l r => binary (fun u v => ' (_, _, w) ← plus u v; Ok w) (compute l) (compute r)
  | Minus l r => binary (fun u v => ' (_, _, w) ← minus u v; Ok w) (compute l) (compute r)
  | Times l r => binary multiplied_by (compute l) (compute r)
  | Quotient l r => binary (fun u v => ' (_, _, q, _) ← divided_by u v; Ok q) (compute l) (compute r)
  | Remainder l r => binary (fun u v => ' (_, _, _, m) ← divided_by u v; Ok m) (compute l) (compute r)
  | Or l r => binary (fun u v => Ok (bitwise_or u v)) (compute l) (compute r)
  | And l r => binary (fun u v => Ok (bitwise_and u v)) (compute l) (compute r)
  | Xor l r => binary (fun u v => Ok (bitwise_xor u v)) (compute l) (compute r)
  | Not e size => u ← compute e; bitwise_not_fill_to_one_based_index u size
  | ShiftLeft e num_bits => u ← compute e; big_shift_left u num_bits
  | ShiftRight e num_bits => u ← compute e; big_shift_right u num_bits
  | SetBit e bit_index => u ← compute e; set_bit_inplace u bit_index
  end.

(** The integer of an expression; [None] where the class has no result *)
Definition lift (f : Z -> Z -> option Z) (a b : option Z) : option Z :=
  match a, b with Some a, Some b => f a b | _, _ => None end.

Fixpoint denote (e : expression) : option Z :=
  match e with
  | Literal words => if forallb (fun x => (0 <=? x) && (x <? 2 ^ 32)) words then Some (value 32 words) else None
  | Plus l r => lift (fun a b => Some (a + b)) (denote l) (denote r)
  | Minus l r => lift (fun a b => if a <? b then None else Some (a - b)) (denote l) (denote r)
  | Times l r => lift (fun a b => Some (a * b)) (denote l) (denote r)
  | Quotient l r => lift (fun a b => if b =? 0 then None else Some (a / b)) (denote l) (denote r)
  | Remainder l r => lift (fun a b => if b =? 0 then None else Some (a mod b)) (denote l) (denote r)
  | Or l r => lift (fun a b => Some (Z.lor a b)) (denote l) (denote r)
  | And l r => lift (fun a b => Some (Z.land a b)) (denote l) (denote r)
  | Xor l r => lift (fun a b => Some (Z.lxor a b)) (denote l) (denote r)
  | Not e size => match denote e with Some a => Some (Z.lnot a mod 2 ^ Z.of_nat size) | None => None end
  | ShiftLeft e num_bits => match denote e with Some a => Some (a * 2 ^ Z.of_nat num_bits) | None => None end
  | ShiftRight e num_bits =>
      match denote e with
      | Some a => if (a =? 0) || (32 <=? num_bits)%nat then None else Some (a / 2 ^ Z.of_nat num_bits)
      | None => None
      end
  | SetBit e bit_index => match denote e with Some a => Some (Z.lor a (2 ^ Z.of_nat bit_index)) | None => None end
  end.

Example expression_example :
  let e := Remainder (Times (Literal [7; 200; 3]) (Plus (Literal [5; 130]) (Literal [4294967295]))) (Literal [11; 13; 17]) in
  match compute e, denote e with Ok u, Some v => value 32 (m_words u) = v | _, _ => False end.
Proof. vm_compute. reflexivity. Qed.

(** What a computation has to show for the integer of its expression, where [R] relates a result to the integer it
    stands for *)
Section computations.
Context {U : Type} (R : U -> Z -> Prop).

Definition computes (o : outcome U) (d : option Z) : Prop := forall v, d = Some v -> runs o (fun u => R u v).

Lemma binary_computes op f l r a b :
  computes l a -> computes r b ->
  (forall u v x y z, R u x -> R v y -> f x y = Some z -> runs (op u v) (fun w => R w z)) ->
  computes (binary op l r) (lift f a b).
Proof.
  intros Hl Hr Hop z Hz. destruct a as [x|]; [|done]. destruct b as [y|]; [|done]. unfold binary.
  eapply runs_bind; [by apply Hl|]. intros u Hu. eapply runs_bind; [by apply Hr|]. intros v Hv. by apply (Hop u v x y).
Qed.

Lemma unary_computes op f o a :
  computes o a -> (forall u x z, R u x -> f x = Some z -> runs (op u) (fun w => R w z)) ->
  computes (u ← o; op u) (match a with Some x => f x | None => None end).
Proof. intros Ho Hop z Hz. destruct a as [x|]; [|done]. eapply runs_bind; [by apply Ho|]. intros u Hu. by apply (Hop u x). Qed.
End computations.

Lemma literal_computes words :
  computes represents (Ok (mk_UnsignedBigInteger words false None)) (if forallb (fun x => (0 <=? x) && (x <? 2 ^ 32)) words then Some (value 32 words) else None).
Proof.
  intros v Hv. destruct (forallb _ words) eqn:E; [|done]. injection Hv as <-. apply runs_ret. split; [|done]. split; [|done].
  apply List.Forall_forall. intros x Hx. rewrite forallb_forall in E. specialize (E x Hx). apply andb_true_iff in E as [E1 E2].
  apply Z.leb_le in E1. apply Z.ltb_lt in E2. done.
Qed.

Lemma minus_computes u v x y z :
  represents u x -> represents v y -> (if x <? y then None else Some (x - y)) = Some z ->
  runs (' (_, _, w) ← minus u v; Ok w) (fun w => represents w z).
Proof.
  intros Hu Hv Hz. eapply runs_bind; [by apply subtract_without_allocation_runs|]. intros [[u' v'] w] (_ & _ & Hw).
  destruct (x <? y); [done|]. injection Hz as <-. apply runs_ret. apply Hw.
Qed.

Lemma shift_right_computes u x n z :
  represents u x -> (if (x =? 0) || (32 <=? n)%nat then None else Some (x / 2 ^ Z.of_nat n)) = Some z ->
  runs (big_shift_right u n) (fun w => represents w z).
Proof.
  intros Hu Hz. destruct (Z.eqb_spec x 0) as [|Hx]; [done|]. destruct (Nat.leb_spec 32 n) as [|Hn]; [done|]. injection Hz as <-.
  eapply runs_mono; [apply (shift_right_without_allocation_runs u n empty_integer x); [by apply represents_holds|done| |done]|].
  - intros E. apply Hx. destruct Hu as [(_ & <- & _) _]. by rewrite E.
  - intros w (Hw & _ & Hc). by apply cache_none.
Qed.

Lemma expression_computes e : computes represents (compute e) (denote e).
Proof.
  induction e as [words|l Hl r Hr|l Hl r Hr|l Hl r Hr|l Hl r Hr|l Hl r Hr|l Hl r Hr|l Hl r Hr|l Hl r Hr|e He n|e He n|e He n|e He n]; cbn [compute denote].
  - apply literal_computes.
  - apply binary_computes; [done..|]. intros u v x y z Hu Hv [= <-]. eapply runs_bind; [by apply add_without_allocation_runs|].
    intros [[u' v'] w] (_ & _ & Hw). by apply runs_ret.
  - apply binary_computes; [done..|]. apply minus_computes.
  - apply binary_computes; [done..|]. intros u v x y z Hu Hv [= <-]. apply multiply_without_allocation_runs; by apply represents_holds.
  - apply binary_computes; [done..|]. intros u v x y z Hu Hv Hz. destruct (Z.eqb_spec y 0); [done|]. injection Hz as <-.
    eapply runs_bind; [by apply divided_by_runs|]. intros [[[u' v'] q] m] (_ & _ & Hq & _). by apply runs_ret.
  - apply binary_computes; [done..|]. intros u v x y z Hu Hv Hz. destruct (Z.eqb_spec y 0); [done|]. injection Hz as <-.
    eapply runs_bind; [by apply divided_by_runs|]. intros [[[u' v'] q] m] (_ & _ & _ & Hm). by apply runs_ret.
  - apply binary_computes; [done..|]. intros u v x y z Hu Hv [= <-]. apply runs_ret, bitwise_or_holds; by apply represents_holds.
  - apply binary_computes; [done..|]. intros u v x y z Hu Hv [= <-]. apply runs_ret, bitwise_and_holds; by apply represents_holds.
  - apply binary_computes; [done..|]. intros u v x y z Hu Hv [= <-]. apply runs_ret, bitwise_xor_holds; by apply represents_holds.
  - apply (unary_computes _ _ (fun a => Some (Z.lnot a mod 2 ^ Z.of_nat n)) _ _ He). intros u x z Hu [= <-]. apply bitwise_not_runs; by apply represents_holds.
  - apply (unary_computes _ _ (fun a => Some (a * 2 ^ Z.of_nat n)) _ _ He). intros u x z Hu [= <-].
    eapply runs_mono; [by apply shift_left_without_allocation_runs, represents_holds|]. intros w [Hw Hc]. by apply cache_none.
  - apply (unary_computes _ _ (fun a => if (a =? 0) || (32 <=? n)%nat then None else Some (a / 2 ^ Z.of_nat n)) _ _ He).
    intros u x z. apply shift_right_computes.
  - apply (unary_computes _ _ (fun a => Some (Z.lor a (2 ^ Z.of_nat n))) _ _ He). intros u x z Hu [= <-]. apply set_bit_inplace_runs; by apply represents_holds.
Qed.



(** The operations that have no result: a difference below zero is an invalid integer, a division by zero
    fails, and so does every right shift by 32 bits or more, whatever the operand is. *)
Theorem arithmetic_failures u v a b n :
  represents u a -> represents v b ->
  (a < b -> runs (minus u v) (fun '(_, _, w) => m_is_invalid w = true))
  /\ (b = 0 -> divided_by u v = Panic)
  /\ ((32 <= n)%nat -> big_shift_right u n = Panic).
Proof.
  intros Hu Hv. split; [|split].
  - intros Hlt. eapply runs_mono; [by apply subtract_without_allocation_runs|]. intros [[u' v'] w] (_ & _ & Hw).
    rewrite (proj2 (Z.ltb_lt a b)) in Hw by done. by rewrite Hw.
  - intros ->. by apply divided_by_zero.
  - intros Hn. destruct Hu as [(Hok & _) _]. unfold big_shift_right, shift_right_without_allocation, size_sub.
    destruct (length (m_words u) <? n / 32)%nat; [done|]. okb. rewrite shift_right_panics; [done|done|done|].
    unfold resize. rewrite length_app, length_take, length_replicate. cbn [empty_integer m_words length]. lia.
Qed.

Lemma arithmetic_failures_witness :
  represents (from_word 3) 3 /\ represents (from_word 0) 0 /\ divided_by (from_word 3) (from_word 0) = Panic
  /\ big_shift_right (from_word 3) 32 = Panic.
Proof.
  assert (H3 : represents (from_word 3) 3) by (apply from_word_holds; by vm_compute).
  assert (H0 : represents (from_word 0) 0) by (apply from_word_holds; by vm_compute).
  split; [exact H3|]. split; [exact H0|]. split; apply (arithmetic_failures _ _ _ _ 32 H3 H0); [reflexivity|lia].
Defined.
