(* ===== verification/BigIntText.v ===== *)
(** * Texts and bytes of unsigned big integers

    [from_base], [to_base], the constructor from big-endian bytes ([import_data]) and
    [export_data] (LibCrypto/BigInt/UnsignedBigInteger.cpp), with the digit functions of
    AK/CharacterTypes.h.  Characters and bytes are integers in [0, 256).  The theorems: parsing
    computes the value of a text in its base, with its errors; printing terminates, and parsing
    a printed number gives it back; importing exported bytes gives the number back. *)
From S2P Require Import Prelude BigIntBase UnsignedBigInteger BigIntDivision BigIntBits.

Local Open Scope Z_scope.
Local Notation word_ok := (in_width 32).

(** ** Digits *)
Definition is_ascii_digit (code_point : Z) : bool := (48 <=? code_point) && (code_point <=? 57).
Definition is_ascii_base36_digit (code_point : Z) : bool :=
  is_ascii_digit code_point || ((65 <=? code_point) && (code_point <=? 90)) || ((97 <=? code_point) && (code_point <=? 122)).

Definition parse_ascii_base36_digit (code_point : Z) : outcome Z :=
  if is_ascii_digit code_point then Ok (code_point - 48)
  else if (65 <=? code_point) && (code_point <=? 90) then Ok (code_point - 65 + 10)
  else if (97 <=? code_point) && (code_point <=? 122) then Ok (code_point - 97 + 10)
  else Panic.

(** The 36 characters of the table: ['0'] to ['9'], ['a'] to ['z'] *)
Definition base36_map : list Z :=
  [48; 49; 50; 51; 52; 53; 54; 55; 56; 57; 97; 98; 99; 100; 101; 102; 103; 104; 105; 106; 107; 108; 109; 110; 111;
   112; 113; 114; 115; 116; 117; 118; 119; 120; 121; 122].
Definition to_ascii_base36_digit (digit : Z) : outcome Z := at_index base36_map digit.

(** ** Texts *)
Inductive parse_error := InvalidBase36Digit | Base36DigitOutOfRange.

Fixpoint from_base_loop (N : Z) (base result : UnsignedBigInteger) (str : list Z)
    : outcome (parse_error + UnsignedBigInteger) :=
  match str with
  | [] => Ok (inr result)
  | c :: str =>
      if c =? 95 then from_base_loop N base result str
      else if negb (is_ascii_base36_digit c) then Ok (inl InvalidBase36Digit)
      else
        digit ← parse_ascii_base36_digit c;
        if N <=? digit then Ok (inl Base36DigitOutOfRange)
        else
          product ← multiplied_by result base;
          ' (_, _, result) ← plus product (from_word digit);
          from_base_loop N base result str
  end.
Definition from_base (N : Z) (str : list Z) : outcome (parse_error + UnsignedBigInteger) :=
  if 36 <? N then Panic else from_base_loop N (from_word N) empty_integer str.

(** The digits, the least significant first.  [fuel] bounds the divisions. *)
Fixpoint to_base_loop (fuel : nat) (N : Z) (temp quotient remainder : UnsignedBigInteger) (builder : list Z)
    : outcome (list Z) :=
  ' (is_zero, temp, _) ← operator_eq temp (from_word 0);
  if is_zero : bool then Ok builder
  else
    match fuel with
    | O => Panic
    | S fuel =>
        ' (temp, quotient, remainder) ← divide_u16_without_allocation temp N quotient remainder;
        digit ← at_index (m_words remainder) 0;
        if N <=? digit then Panic
        else
          c ← to_ascii_base36_digit digit;
          to_base_loop fuel N (set_to temp quotient) quotient remainder (builder ++ [c])
    end.

Definition to_base (N : Z) (u : UnsignedBigInteger) : outcome (list Z * UnsignedBigInteger) :=
  if 36 <? N then Panic
  else
    ' (is_zero, u, _) ← operator_eq u (from_word 0);
    if is_zero : bool then Ok ([48], u)
    else
      digits ← to_base_loop (32 * length (m_words u)) N u empty_integer empty_integer [];
      Ok (rev digits, u).

(** ** Bytes *)
Definition import_data (bytes : list Z) : outcome UnsignedBigInteger :=
  let length_ := length bytes in
  let full := (length_ / 4)%nat in
  let rest := (length_ mod 4)%nat in
  words ← for_range 0 full (fun out words =>
    let in_ := Z.of_nat length_ - 4 * (Z.of_nat out + 1) in
    b0 ← at_index bytes in_;
    b1 ← at_index bytes (in_ + 1);
    b2 ← at_index bytes (in_ + 2);
    b3 ← at_index bytes (in_ + 3);
    set_at_index words (Z.of_nat out)
      (Z.lor (Z.lor (Z.lor (Z.shiftl b0 24) (Z.shiftl b1 16)) (Z.shiftl b2 8)) b3))
    (replicate ((length_ + 4 - 1) / 4) 0);
  words ← (if (0 <? rest)%nat then
      word ← for_range 0 rest (fun i word =>
        b ← at_index bytes (Z.of_nat i);
        Ok (Z.lor (wrap 32 (Z.shiftl word 8)) b)) 0;
      set_at_index words (Z.of_nat full) word
    else Ok words);
  Ok (mk_UnsignedBigInteger words false None).

Definition word_bytes (word : Z) : list Z :=
  [wrap 8 (Z.shiftr word 24); wrap 8 (Z.shiftr word 16); wrap 8 (Z.shiftr word 8); wrap 8 word].

(** [data.overwrite(out, value, 4)] *)
Definition overwrite (data : list Z) (out : nat) (value : list Z) : outcome (list Z) :=
  if (length data <? out + length value)%nat then Panic
  else Ok (take out data ++ value ++ drop (out + length value) data).

(** The index of the first byte that is not zero, [-1] if there is none *)
Definition count_leading_zero_bytes (value : list Z) : Z :=
  match value with
  | [b0; b1; b2; b3] =>
      if negb (b0 =? 0) then 0 else if negb (b1 =? 0) then 1 else if negb (b2 =? 0) then 2 else if negb (b3 =? 0) then 3 else -1
  | _ => -1
  end.

(** The buffer, the number of bytes and the integer *)
Definition export_data (u : UnsignedBigInteger) (data : list Z) (remove_leading_zeros : bool)
    : outcome (list Z * Z * UnsignedBigInteger) :=
  let '(word_count, u) := trimmed_length u in
  if (0 <? word_count)%nat then
    ' (data, out, leading_zeros) ←
      (if remove_leading_zeros then
         word ← at_index (m_words u) (Z.of_nat word_count - 1);
         data ← overwrite data 0 (word_bytes word);
         Ok (data, 4%nat, count_leading_zero_bytes (word_bytes word))
       else Ok (data, 0%nat, -1));
    ' (data, out) ← for_range_down 0 (word_count - (if remove_leading_zeros then 1 else 0)) (fun i '(data, out) =>
      word ← at_index (m_words u) (Z.of_nat i);
      data ← overwrite data out (word_bytes word);
      Ok (data, (out + 4)%nat)) (data, out);
    Ok (data, if 0 <? leading_zeros then Z.of_nat out - leading_zeros else Z.of_nat out, u)
  else Ok (data, 0, u).

Example text_example :
  match from_base 10 [52; 50; 57; 52; 57; 54; 55; 50; 57; 54] with
  | Ok (inr u) => m_words u = [0; 1] /\ (' (s, _) ← to_base 16 u; Ok s) = Ok [49; 48; 48; 48; 48; 48; 48; 48; 48]
  | _ => False
  end.
Proof. vm_compute. split; reflexivity. Qed.

Example export_example :
  (u ← import_data [104; 101; 108; 108; 111];
   ' (data, n, _) ← export_data u (replicate 8 7) true; Ok (data, n))
  = Ok ([0; 0; 0; 104; 101; 108; 108; 111], 5).
Proof. vm_compute. reflexivity. Qed.

(** ** Texts *)

(** The value of a text in base [N], on top of [acc] *)
Fixpoint text_value (N : Z) (str : list Z) (acc : Z) : parse_error + Z :=
  match str with
  | [] => inr acc
  | c :: str =>
      if c =? 95 then text_value N str acc
      else if is_ascii_base36_digit c then
        match parse_ascii_base36_digit c with
        | Ok d => if N <=? d then inl Base36DigitOutOfRange else text_value N str (acc * N + d)
        | _ => inl InvalidBase36Digit
        end
      else inl InvalidBase36Digit
  end.

Lemma base36_digit_parses c :
  is_ascii_base36_digit c = true -> exists d, parse_ascii_base36_digit c = Ok d /\ 0 <= d < 36.
Proof.
  unfold is_ascii_base36_digit, parse_ascii_base36_digit, is_ascii_digit.
  destruct (Z.leb_spec 48 c), (Z.leb_spec c 57), (Z.leb_spec 65 c), (Z.leb_spec c 90), (Z.leb_spec 97 c), (Z.leb_spec c 122);
    cbn; intros; try done; (eexists; split; [done|lia]).
Qed.

Lemma to_digit_parses d :
  0 <= d < 36 -> exists c, to_ascii_base36_digit d = Ok c /\ c <> 95 /\ is_ascii_base36_digit c = true
    /\ parse_ascii_base36_digit c = Ok d.
Proof.
  intros Hd. assert (H : forallb (fun i => match to_ascii_base36_digit (Z.of_nat i) with
    | Ok c => negb (c =? 95) && is_ascii_base36_digit c && match parse_ascii_base36_digit c with Ok d => d =? Z.of_nat i | _ => false end
    | _ => false end) (seq 0 36) = true) by (vm_compute; reflexivity).
  rewrite forallb_forall in H. specialize (H (Z.to_nat d)). rewrite Z2Nat.id in H by lia.
  specialize (H ltac:(apply in_seq; lia)). destruct (to_ascii_base36_digit d) as [c| |]; [|done|done]. exists c. split; [done|].
  apply andb_true_iff in H as [H H3]. apply andb_true_iff in H as [H1 H2]. apply negb_true_iff, Z.eqb_neq in H1.
  split; [done|]. split; [done|]. destruct (parse_ascii_base36_digit c); [|done|done]. apply Z.eqb_eq in H3. by subst.
Qed.

Lemma from_base_loop_runs N base result str acc :
  0 <= N <= 36 -> holds base N -> represents result acc ->
  runs (from_base_loop N base result str) (fun r => match text_value N str acc with
    | inl e => r = inl e
    | inr v => exists u, r = inr u /\ represents u v end).
Proof.
  intros HN Hbase. revert result acc. induction str as [|c str IH]; intros result acc Hres; cbn [from_base_loop text_value].
  { apply runs_ret. by exists result. }
  destruct (c =? 95); [by apply IH|]. destruct (is_ascii_base36_digit c) eqn:Hc; cbn [negb]; [|by apply runs_ret].
  destruct (base36_digit_parses c Hc) as (d & -> & Hd). ret. destruct (Z.leb_spec N d) as [Hge|Hlt]; [by apply runs_ret|].
  eapply runs_bind; [apply multiply_without_allocation_runs; [apply represents_holds, Hres|exact Hbase]|]. intros product Hp.
  eapply runs_bind; [apply add_without_allocation_runs; [exact Hp|apply (from_word_holds d); unfold in_width; lia]|].
  intros [[p f] result'] (_ & _ & Hr'). by apply IH.
Qed.

Lemma operator_eq_zero u a :
  represents u a -> runs (operator_eq u (from_word 0)) (fun '(e, u', _) => e = (a =? 0) /\ refreshed u u').
Proof.
  intros Hu. eapply runs_mono; [apply operator_eq_runs; [exact Hu|apply (from_word_holds 0); unfold in_width; lia]|].
  intros [[e u'] z] (H1 & H2 & _). done.
Qed.

Lemma to_base_loop_runs fuel N temp q r builder a :
  2 <= N <= 36 -> represents temp a -> a < 2 ^ Z.of_nat fuel ->
  runs (to_base_loop fuel N temp q r builder) (fun s => exists ds, s = builder ++ ds
    /\ forall acc rest, text_value N (rev ds ++ rest) acc = text_value N rest (acc * N ^ Z.of_nat (length ds) + a)).
Proof.
  intros HN. revert temp q r builder a. induction fuel as [|fuel IH]; intros temp q r builder a Ht Ha; cbn [to_base_loop];
    pose proof (holds_nonneg _ _ (represents_holds _ _ Ht)) as Ha0;
    (eapply runs_bind; [by apply operator_eq_zero|]); intros [[e temp'] z] (-> & Ht'); destruct (Z.eqb_spec a 0) as [-> |Hne];
    try (apply runs_ret; exists []; split; [by rewrite app_nil_r|]; intros acc rest; cbn [rev app length]; f_equal; lia).
  { cbn in Ha. lia. }
  assert (Ht2 : represents temp' a) by (eapply refreshed_represents; [by apply represents_holds|done]).
  eapply runs_bind; [apply divide_u16_runs; [exact Ht2|lia]|]. intros [[t2 q2] r2] (_ & Hq & _ & _ & Hr). rewrite Hr.
  change (at_index [a mod N] 0) with (Ok (a mod N)). ret. pose proof (Z.mod_pos_bound a N ltac:(lia)) as Hmod.
  rewrite (proj2 (Z.leb_gt N (a mod N))) by lia. destruct (to_digit_parses (a mod N) ltac:(lia)) as (c & -> & Hc95 & Hc & Hp). ret.
  eapply runs_mono; [apply (IH _ _ _ _ (a / N)); [apply holds_set_to; by apply represents_holds|]|].
  - apply Z.div_lt_upper_bound; [lia|]. replace (Z.of_nat (S fuel)) with (Z.of_nat fuel + 1) in Ha by lia.
    rewrite Z.pow_add_r in Ha by lia. assert (0 < 2 ^ Z.of_nat fuel) by lia. nia.
  - intros s (ds & -> & Hds). exists (c :: ds). split; [by rewrite <- app_assoc|]. intros acc rest. cbn [rev length].
    rewrite <- app_assoc, Hds. cbn [app text_value]. rewrite (proj2 (Z.eqb_neq c 95)), Hc, Hp by done.
    rewrite (proj2 (Z.leb_gt N (a mod N))) by lia. f_equal. rewrite Nat2Z.inj_succ, Z.pow_succ_r by lia.
    pose proof (Z.div_mod a N ltac:(lia)). lia.
Qed.

Lemma to_base_runs N u a :
  2 <= N <= 36 -> represents u a ->
  runs (to_base N u) (fun '(s, u') => text_value N s 0 = inr a /\ refreshed u u').
Proof.
  intros HN Hu. unfold to_base. rewrite (proj2 (Z.ltb_ge 36 N)) by lia.
  eapply runs_bind; [by apply operator_eq_zero|]. intros [[e u'] z] (-> & Hu').
  destruct (Z.eqb_spec a 0) as [-> |Hne].
  - apply runs_ret. split; [|done]. cbn [text_value]. change (48 =? 95) with false. change (is_ascii_base36_digit 48) with true.
    change (parse_ascii_base36_digit 48) with (Ok 0 : outcome Z). cbv iota. by rewrite (proj2 (Z.leb_gt N 0)) by lia.
  - assert (Hr : represents u' a) by (eapply refreshed_represents; [by apply represents_holds|done]).
    eapply runs_bind; [apply (to_base_loop_runs _ N u' _ _ [] a HN Hr)|].
    + destruct Hr as [(Hok & Hv & _) _]. pose proof (value_bound 32 word_width _ Hok) as Hb. rewrite Hv in Hb. unfold weight in Hb.
      replace (Z.of_nat (32 * length (m_words u'))) with (32 * Z.of_nat (length (m_words u'))) by lia. lia.
    + intros s (ds & -> & Hds). apply runs_ret. split; [|done]. cbn [app]. by rewrite <- (app_nil_r (rev ds)), Hds.
Qed.

(** Parsing a text in a base up to 36 never fails an assertion and agrees with the value of the text:
    underscores are skipped, the first character that is no base-36 digit, or that is a digit not below
    the base, gives its error, and any other text gives the integer with its value. *)
Theorem from_base_exact N str :
  0 <= N <= 36 ->
  runs (from_base N str) (fun r => match text_value N str 0 with
    | inl e => r = inl e
    | inr v => exists u, r = inr u /\ represents u v end).
Proof.
  intros HN. unfold from_base. rewrite (proj2 (Z.ltb_ge 36 N)) by lia.
  apply from_base_loop_runs; [done|apply (from_word_holds N); unfold in_width; lia|apply holds_empty].
Qed.

Lemma from_base_exact_witness :
  0 <= 10 <= 36 /\ runs (from_base 10 [52; 95; 50]) (fun r => exists u, r = inr u /\ represents u 42).
Proof. split; [lia|]. exact (from_base_exact 10 [52; 95; 50] ltac:(lia)). Defined.

(** Printing an integer in a base from 2 to 36 terminates, and parsing the text in the same base gives
    the integer back. *)
Theorem base_round_trip N u a :
  2 <= N <= 36 -> represents u a ->
  runs (to_base N u) (fun '(s, u') => refreshed u u'
    /\ runs (from_base N s) (fun r => exists v, r = inr v /\ represents v a)).
Proof.
  intros HN Hu. eapply runs_mono; [by apply to_base_runs|]. intros [s u'] [Hs Hu']. split; [done|].
  unfold from_base. rewrite (proj2 (Z.ltb_ge 36 N)) by lia.
  assert (Hw : holds (from_word N) N) by (apply (from_word_holds N); unfold in_width; lia).
  pose proof (from_base_loop_runs N (from_word N) empty_integer s 0 ltac:(lia) Hw holds_empty) as H. by rewrite Hs in H.
Qed.

Lemma base_round_trip_witness :
  2 <= 16 <= 36 /\ represents (from_u64 4886718345) 4886718345
  /\ runs (to_base 16 (from_u64 4886718345)) (fun '(s, u') => refreshed (from_u64 4886718345) u'
    /\ runs (from_base 16 s) (fun r => exists v, r = inr v /\ represents v 4886718345)).
Proof.
  assert (H : represents (from_u64 4886718345) 4886718345).
  { split; [|done]. split; [|split; reflexivity]. apply Forall_cons_2; [|apply Forall_singleton]; by vm_compute. }
  split; [lia|]. split; [exact H|]. apply (base_round_trip 16); [lia|exact H].
Defined.

(** ** Bytes *)

(** The value of big-endian bytes *)
Fixpoint be_value (bytes : list Z) (acc : Z) : Z :=
  match bytes with [] => acc | b :: bytes => be_value bytes (acc * 256 + b) end.

Lemma be_value_app l1 l2 acc : be_value (l1 ++ l2) acc = be_value l2 (be_value l1 acc).
Proof. revert acc. induction l1 as [|x l1 IH]; intros acc; cbn; [done|]. apply IH. Qed.

Lemma be_value_acc l acc : be_value l acc = acc * 256 ^ Z.of_nat (length l) + be_value l 0.
Proof.
  revert acc. induction l as [|x l IH]; intros acc; cbn [be_value length]; [lia|].
  rewrite IH, (IH (0 * 256 + x)), Nat2Z.inj_succ, Z.pow_succ_r by lia. lia.
Qed.

Lemma be_value_bound l : Forall (in_width 8) l -> 0 <= be_value l 0 < 256 ^ Z.of_nat (length l).
Proof.
  induction 1 as [|x l Hx _ IH]; cbn [be_value length]; [lia|]. rewrite be_value_acc, Nat2Z.inj_succ, Z.pow_succ_r by lia.
  unfold in_width in Hx. change (2 ^ 8) with 256 in Hx. nia.
Qed.

Lemma pow256_weight k : 256 ^ Z.of_nat (4 * k) = weight 32 k.
Proof. unfold weight. change 256 with (2 ^ 8). rewrite <- Z.pow_mul_r by lia. f_equal. lia. Qed.

(** The words of an imported number *)
Lemma be_digit bytes k :
  Forall (in_width 8) bytes -> (4 * S k <= length bytes)%nat ->
  digit 32 (be_value bytes 0) k = be_value (take 4 (drop (length bytes - 4 * S k) bytes)) 0.
Proof.
  intros Hok Hk. set (i := (length bytes - 4 * S k)%nat).
  assert (Hsplit : bytes = take i bytes ++ take 4 (drop i bytes) ++ drop (i + 4) bytes).
  { rewrite <- drop_drop, !take_drop. done. }
  set (P := take i bytes) in *. set (Q := take 4 (drop i bytes)) in *. set (R := drop (i + 4) bytes) in *.
  assert (HQ : Forall (in_width 8) Q) by (by apply Forall_take, Forall_drop).
  assert (HR : Forall (in_width 8) R) by (by apply Forall_drop).
  assert (HlQ : length Q = 4%nat) by (unfold Q; rewrite length_take, length_drop; lia).
  assert (HlR : length R = (4 * k)%nat) by (unfold R; rewrite length_drop; lia).
  pose proof (be_value_bound Q HQ) as BQ. pose proof (be_value_bound R HR) as BR. rewrite HlQ in BQ. rewrite HlR, pow256_weight in BR.
  change (256 ^ Z.of_nat 4) with (2 ^ 32) in BQ. rewrite Hsplit at 1. rewrite !be_value_app, be_value_acc, HlR, pow256_weight.
  rewrite (be_value_acc Q), HlQ. change (256 ^ Z.of_nat 4) with (2 ^ 32). unfold digit. pose proof (weight_pos 32 word_width k).
  rewrite Z.add_comm, Z.div_add, Z.div_small, Z.add_0_l by lia. rewrite Z.add_comm, Z.mod_add, Z.mod_small by lia. done.
Qed.

Lemma be_digit_top bytes k :
  Forall (in_width 8) bytes -> (4 * k <= length bytes < 4 * S k)%nat ->
  digit 32 (be_value bytes 0) k = be_value (take (length bytes - 4 * k) bytes) 0.
Proof.
  intros Hok Hk. set (i := (length bytes - 4 * k)%nat). rewrite <- (take_drop i bytes) at 1.
  assert (HQ : Forall (in_width 8) (take i bytes)) by (by apply Forall_take).
  assert (HR : Forall (in_width 8) (drop i bytes)) by (by apply Forall_drop).
  assert (HlR : length (drop i bytes) = (4 * k)%nat) by (rewrite length_drop; lia).
  pose proof (be_value_bound _ HQ) as BQ. pose proof (be_value_bound _ HR) as BR. rewrite HlR, pow256_weight in BR.
  assert (Hp : 256 ^ Z.of_nat (length (take i bytes)) <= 2 ^ 32).
  { change (2 ^ 32) with (256 ^ 4). apply Z.pow_le_mono_r; [lia|]. rewrite length_take. lia. }
  rewrite be_value_app, be_value_acc, HlR, pow256_weight. unfold digit. pose proof (weight_pos 32 word_width k).
  rewrite Z.add_comm, Z.div_add, Z.div_small, Z.add_0_l, Z.mod_small by lia. done.
Qed.

Lemma join_bytes b0 b1 b2 b3 :
  in_width 8 b0 -> in_width 8 b1 -> in_width 8 b2 -> in_width 8 b3 ->
  Z.lor (Z.lor (Z.lor (Z.shiftl b0 24) (Z.shiftl b1 16)) (Z.shiftl b2 8)) b3 = be_value [b0; b1; b2; b3] 0.
Proof.
  unfold in_width. intros H0 H1 H2 H3. rewrite !Z.shiftl_mul_pow2 by lia.
  rewrite (Z.lor_comm (b0 * 2 ^ 24)), (lor_disjoint (b1 * 2 ^ 16) b0 24) by lia.
  replace (b1 * 2 ^ 16 + b0 * 2 ^ 24) with ((b1 + b0 * 2 ^ 8) * 2 ^ 16) by lia. rewrite (Z.lor_comm _ (b2 * 2 ^ 8)), (lor_disjoint (b2 * 2 ^ 8)) by lia.
  replace (b2 * 2 ^ 8 + (b1 + b0 * 2 ^ 8) * 2 ^ 16) with ((b2 + (b1 + b0 * 2 ^ 8) * 2 ^ 8) * 2 ^ 8) by lia.
  rewrite (Z.lor_comm _ b3), lor_disjoint by lia. cbn [be_value]. lia.
Qed.

Lemma four_bytes (l : list Z) i :
  (i + 4 <= length l)%nat -> exists b0 b1 b2 b3, take 4 (drop i l) = [b0; b1; b2; b3]
    /\ l !! i = Some b0 /\ l !! (i + 1)%nat = Some b1 /\ l !! (i + 2)%nat = Some b2 /\ l !! (i + 3)%nat = Some b3.
Proof.
  intros H. destruct (lookup_lt_is_Some_2 l i ltac:(lia)) as [b0 H0]. destruct (lookup_lt_is_Some_2 l (i + 1)%nat ltac:(lia)) as [b1 H1].
  destruct (lookup_lt_is_Some_2 l (i + 2)%nat ltac:(lia)) as [b2 H2]. destruct (lookup_lt_is_Some_2 l (i + 3)%nat ltac:(lia)) as [b3 H3].
  exists b0, b1, b2, b3. split; [|done]. rewrite (drop_S _ _ _ H0). replace (S i) with (i + 1)%nat by lia.
  rewrite (drop_S _ _ _ H1). replace (S (i + 1)) with (i + 2)%nat by lia. rewrite (drop_S _ _ _ H2).
  replace (S (i + 2)) with (i + 3)%nat by lia. rewrite (drop_S _ _ _ H3). cbn. by rewrite take_0.
Qed.

(** The word of the first bytes when their number is no multiple of four *)
Lemma import_rest_runs bytes n :
  Forall (in_width 8) bytes -> (n < 4)%nat -> (n <= length bytes)%nat ->
  runs (for_range 0 n (fun i word => b ← at_index bytes (Z.of_nat i); Ok (Z.lor (wrap 32 (Z.shiftl word 8)) b)) 0)
    (fun word => word = be_value (take n bytes) 0).
Proof.
  intros Hok Hn Hl. apply (for_range_runs (fun i word => word = be_value (take i bytes) 0)); [lia|by rewrite take_0|].
  intros i word Hi ->. destruct (at_index_some bytes i ltac:(lia)) as (b & Hb & ->). ret. apply runs_ret.
  rewrite (take_S_r _ _ _ Hb), be_value_app. cbn [be_value]. pose proof (be_value_bound _ (Forall_take _ i _ Hok)) as B.
  rewrite length_take in B. assert (256 ^ Z.of_nat (i `min` length bytes) <= 256 ^ 2) by (apply Z.pow_le_mono_r; lia).
  pose proof (Forall_lookup_1 _ _ _ _ Hok Hb) as Hbr. unfold in_width in Hbr. rewrite Z.shiftl_mul_pow2 by lia.
  rewrite wrap_small by (unfold in_width; lia). rewrite Z.lor_comm, lor_disjoint by lia. lia.
Qed.

Lemma import_data_runs bytes :
  Forall (in_width 8) bytes -> runs (import_data bytes) (fun u => represents u (be_value bytes 0)).
Proof.
  intros Hok. unfold import_data. set (n := length bytes). set (X := be_value bytes 0).
  pose proof (Nat.div_mod_eq n 4) as Hdm. pose proof (Nat.mod_upper_bound n 4 ltac:(lia)) as Hmod.
  assert (Hsize : ((n + 4 - 1) / 4)%nat = (n / 4 + if (0 <? n mod 4)%nat then 1 else 0)%nat).
  { destruct (Nat.ltb_spec 0 (n mod 4)).
    - symmetry. apply (Nat.div_unique _ 4 _ (n mod 4 - 1)%nat); lia.
    - symmetry. apply (Nat.div_unique _ 4 _ 3%nat); lia. }
  rewrite Hsize. set (size := (n / 4 + _)%nat). set (zeros := replicate size 0).
  assert (Hzl : length zeros = size) by apply length_replicate.
  eapply runs_bind; [apply (for_range_runs (filled_below 32 X zeros)); [lia|apply filled_below_start|]|].
  { intros i l Hi HI. destruct (four_bytes bytes (n - 4 * S i) ltac:(subst n; lia)) as (b0 & b1 & b2 & b3 & Htake & H0 & H1 & H2 & H3).
    replace (Z.of_nat n - 4 * (Z.of_nat i + 1)) with (Z.of_nat (n - 4 * S i)) by lia. rewrite (at_index_Ok _ _ _ H0). ret.
    replace (Z.of_nat (n - 4 * S i) + 1) with (Z.of_nat (n - 4 * S i + 1)) by lia. rewrite (at_index_Ok _ _ _ H1). ret.
    replace (Z.of_nat (n - 4 * S i) + 2) with (Z.of_nat (n - 4 * S i + 2)) by lia. rewrite (at_index_Ok _ _ _ H2). ret.
    replace (Z.of_nat (n - 4 * S i) + 3) with (Z.of_nat (n - 4 * S i + 3)) by lia. rewrite (at_index_Ok _ _ _ H3). ret.
    apply filled_below_set; [subst size; destruct (_ <? _)%nat; lia|done|].
    rewrite join_bytes by (by eapply Forall_lookup_1; [exact Hok|]). unfold X. rewrite be_digit by (done || subst n; lia).
    fold n. by rewrite Htake. }
  intros l HI.
  eapply (runs_bind _ _ (filled_below 32 X zeros size)).
  { unfold size. destruct (Nat.ltb_spec 0 (n mod 4)) as [Hrest|Hrest].
    - eapply runs_bind; [apply import_rest_runs; [done|lia|subst n; lia]|]. intros word ->.
      replace (n / 4 + 1)%nat with (S (n / 4)) by lia. apply filled_below_set; [unfold size in Hzl|done|].
      + rewrite Hzl. lia.
      + unfold X. rewrite be_digit_top by (done || subst n; lia). fold n. do 2 f_equal. lia.
    - rewrite Nat.add_0_r. by apply runs_ret. }
  intros l2 HI2. apply runs_ret.
  destruct (filled_below_value 32 word_width X zeros size l2 HI2) as (new & -> & Hnl & Hnok & Hnv); [lia|].
  rewrite drop_ge, app_nil_r by lia. split; [|done]. split; [done|]. split; [|done]. cbn [m_words]. rewrite Hnv.
  apply Z.mod_small. pose proof (be_value_bound bytes Hok) as B. fold X n in B. rewrite <- pow256_weight.
  assert (256 ^ Z.of_nat n <= 256 ^ Z.of_nat (4 * size)); [|lia]. apply Z.pow_le_mono_r; [lia|].
  unfold size. destruct (Nat.ltb_spec 0 (n mod 4)); lia.
Qed.

(** ** Exported bytes *)
Lemma word_bytes_ok x : Forall (in_width 8) (word_bytes x).
Proof. unfold word_bytes. do 4 (apply Forall_cons_2; [by apply wrap_range|]). constructor. Qed.

Lemma word_bytes_value x acc : word_ok x -> be_value (word_bytes x) acc = acc * 2 ^ 32 + x.
Proof.
  intros Hx. unfold in_width in Hx. unfold word_bytes, wrap. cbn [be_value]. rewrite !Z.shiftr_div_pow2 by lia.
  pose proof (Z.div_mod x (2 ^ 8) ltac:(lia)). pose proof (Z.div_mod (x / 2 ^ 8) (2 ^ 8) ltac:(lia)).
  pose proof (Z.div_mod (x / 2 ^ 16) (2 ^ 8) ltac:(lia)).
  replace (x / 2 ^ 8 / 2 ^ 8) with (x / 2 ^ 16) in * by (rewrite Z.div_div by lia; done).
  replace (x / 2 ^ 16 / 2 ^ 8) with (x / 2 ^ 24) in * by (rewrite Z.div_div by lia; done).
  rewrite (Z.mod_small (x / 2 ^ 24)) by (split; [apply Z.div_pos; lia|apply Z.div_lt_upper_bound; lia]). lia.
Qed.

Lemma count_leading_zero_bytes_spec x :
  word_ok x -> x <> 0 -> count_leading_zero_bytes (word_bytes x) = 3 - Z.log2 x / 8.
Proof.
  intros Hx Hne. unfold in_width in Hx. unfold word_bytes, count_leading_zero_bytes, wrap. rewrite !Z.shiftr_div_pow2 by lia.
  assert (Hlog : forall k, 0 <= k -> 2 ^ (8 * k) <= x < 2 ^ (8 * k + 8) -> Z.log2 x / 8 = k).
  { intros k Hk [H1 H2]. symmetry. apply Z.div_unique with (Z.log2 x - 8 * k); [|lia].
    assert (8 * k <= Z.log2 x) by (apply Z.log2_le_pow2; lia). assert (Z.log2 x < 8 * k + 8) by (apply Z.log2_lt_pow2; lia). lia. }
  assert (Hz : forall k, 0 <= k -> x < 2 ^ k -> x / 2 ^ k = 0) by (intros k Hk H; apply Z.div_small; lia).
  assert (Hnz : forall k, 0 <= k -> 2 ^ k <= x < 2 ^ (k + 8) -> (x / 2 ^ k) mod 2 ^ 8 <> 0).
  { intros k Hk [H1 H2]. rewrite Z.pow_add_r in H2 by lia. assert (0 < 2 ^ k) by lia.
    assert (1 <= x / 2 ^ k < 2 ^ 8) by (split; [apply Z.div_le_lower_bound; lia|apply Z.div_lt_upper_bound; lia]).
    rewrite Z.mod_small by lia. lia. }
  destruct (Z.lt_ge_cases x (2 ^ 24)) as [L24|G24].
  2: { rewrite (proj2 (Z.eqb_neq _ 0) (Hnz 24 ltac:(lia) ltac:(cbn; lia))). cbn [negb]. by rewrite (Hlog 3 ltac:(lia) ltac:(cbn; lia)). }
  rewrite (Hz 24) by lia. destruct (Z.lt_ge_cases x (2 ^ 16)) as [L16|G16].
  2: { rewrite (proj2 (Z.eqb_neq _ 0) (Hnz 16 ltac:(lia) ltac:(cbn; lia))). cbn. by rewrite (Hlog 2 ltac:(lia) ltac:(cbn; lia)). }
  rewrite (Hz 16) by lia. destruct (Z.lt_ge_cases x (2 ^ 8)) as [L8|G8].
  2: { rewrite (proj2 (Z.eqb_neq _ 0) (Hnz 8 ltac:(lia) ltac:(cbn; lia))). cbn. by rewrite (Hlog 1 ltac:(lia) ltac:(cbn; lia)). }
  rewrite (Hz 8), (Z.mod_small x) by lia. rewrite (proj2 (Z.eqb_neq x 0)) by lia. cbn. by rewrite (Hlog 0 ltac:(lia) ltac:(cbn; lia)).
Qed.

(** The front of the buffer holds the words from [i] on, the most significant first. *)
Definition exporting (words data0 : list Z) (i : nat) (s : list Z * nat) : Prop :=
  let '(data, out) := s in
  exists E, data = E ++ drop (length E) data0 /\ out = length E /\ length E = (4 * (length words - i))%nat
    /\ Forall (in_width 8) E /\ be_value E 0 = value 32 (drop i words).

Lemma exporting_step words data0 i data out x :
  words_ok 32 words -> (4 * length words <= length data0)%nat -> words !! i = Some x ->
  exporting words data0 (S i) (data, out) ->
  runs (overwrite data out (word_bytes x)) (fun data' => exporting words data0 i (data', (out + 4)%nat)).
Proof.
  intros Hok Hlen Hx (E & -> & -> & HlE & HEok & HEv). pose proof (lookup_lt_Some _ _ _ Hx) as Hi.
  unfold overwrite. change (length (word_bytes x)) with 4%nat.
  rewrite (proj2 (Nat.ltb_ge _ _)) by (rewrite length_app, length_drop; lia). apply runs_ret.
  exists (E ++ word_bytes x). rewrite length_app. change (length (word_bytes x)) with 4%nat.
  rewrite take_app_length, drop_app_ge by lia. replace (length E + 4 - length E)%nat with 4%nat by lia. rewrite drop_drop.
  split; [by rewrite <- app_assoc|]. split; [done|]. split; [lia|].
  split; [apply Forall_app_2; [done|apply word_bytes_ok]|].
  rewrite be_value_app, HEv, word_bytes_value by exact (words_ok_lookup 32 _ _ _ Hok Hx). rewrite (drop_S _ _ _ Hx). cbn [value]. lia.
Qed.

(** The number of bytes of an integer *)
Definition byte_count (a : Z) : Z := if a =? 0 then 0 else Z.log2 a / 8 + 1.

Lemma log2_top low P x e :
  0 <= low < P -> P = 2 ^ e -> 0 <= e -> 0 < x -> Z.log2 (low + P * x) = e + Z.log2 x.
Proof.
  intros Hlow -> He Hx. pose proof (Z.log2_spec x Hx) as [S1 S2]. pose proof (Z.log2_nonneg x). apply Z.log2_unique; [lia|].
  rewrite Z.pow_succ_r, Z.pow_add_r by lia. rewrite Z.pow_succ_r in S2 by lia.
  set (p := 2 ^ Z.log2 x) in *. set (q := 2 ^ e) in *. clearbody p q. nia.
Qed.

Lemma export_data_runs u data a (remove : bool) :
  represents u a -> (4 * trimmed (m_words u) <= length data)%nat ->
  runs (export_data u data remove) (fun '(data', n, u') =>
    refreshed u u' /\ n = (if remove then byte_count a else 4 * Z.of_nat (trimmed (m_words u)))
    /\ exists E, data' = E ++ drop (length E) data /\ length E = (4 * trimmed (m_words u))%nat
       /\ Forall (in_width 8) E /\ be_value E 0 = a).
Proof.
  intros [(Hok & Ha & Hi) Hc] Hlen. unfold export_data.
  destruct (trimmed_length_spec u Hc) as (u' & -> & R & _). pose proof R as (W & _). rewrite W.
  destruct (trimmed_spec (m_words u)) as (Hl & Hdz & _). pose proof (trimmed_value (m_words u)) as HV.
  destruct (Nat.ltb_spec 0 (trimmed (m_words u))) as [Hpos|Hz].
  2: { apply runs_ret. assert (E : trimmed (m_words u) = 0%nat) by lia. rewrite E in *.
       assert (a = 0) as -> by (rewrite <- Ha; by apply trimmed_zero).
       split; [done|]. split; [by destruct remove|]. exists []. done. }
  destruct (trimmed_top (m_words u) Hpos) as (x & Hx & Hne).
  pose proof (words_ok_lookup 32 _ _ _ Hok Hx) as Hxr.
  destruct (value_top_word 32 word_width _ _ x Hok Hpos Hx (value_all_zero 32 _ Hdz)) as (low & HVt & Hlow).
  set (n := trimmed (m_words u)) in *. set (L := take n (m_words u)).
  assert (HL : length L = n) by (unfold L; rewrite length_take; lia).
  assert (HLok : words_ok 32 L) by (by apply words_ok_take).
  assert (HLx : forall i, (i < n)%nat -> L !! i = m_words u !! i) by (intros i Hin; unfold L; by rewrite lookup_take_lt).
  assert (Hcount : byte_count a = 4 * Z.of_nat n - (3 - Z.log2 x / 8)).
  { unfold in_width in Hxr. rewrite <- Ha, HVt. unfold byte_count. pose proof (weight_pos 32 word_width (n - 1)).
    rewrite (proj2 (Z.eqb_neq _ 0)) by nia. rewrite (log2_top low _ x (32 * Z.of_nat (n - 1))) by (done || lia).
    replace (32 * Z.of_nat (n - 1)) with (4 * (Z.of_nat n - 1) * 8) by lia. rewrite Z.div_add_l by lia. lia. }
  eapply (runs_bind _ _ (fun '(data1, out, lz) =>
    exporting L data (n - if remove then 1 else 0) (data1, out) /\ lz = if remove then 3 - Z.log2 x / 8 else -1)).
  { destruct remove.
    - replace (Z.of_nat n - 1) with (Z.of_nat (n - 1)) by lia. rewrite (at_index_Ok _ _ _ Hx). ret.
      eapply runs_bind; [apply (exporting_step L data (n - 1) data 0); [done|lia|by rewrite HLx by lia|]|].
      + exists []. rewrite HL. replace (S (n - 1)) with n by lia. rewrite Nat.sub_diag, (drop_ge L) by lia. done.
      + intros data1 H1. apply runs_ret. split; [done|]. by apply count_leading_zero_bytes_spec.
    - apply runs_ret. split; [|done]. exists []. rewrite HL, Nat.sub_0_r, Nat.sub_diag, (drop_ge L) by lia. done. }
  intros [[data1 out] lz] [H1 ->].
  eapply runs_bind.
  { apply (for_range_down_runs (exporting L data)); [lia|exact H1|]. intros i [d o] Hin HI.
    destruct (at_index_some (m_words u) i ltac:(destruct remove; lia)) as (y & Hy & ->). ret.
    eapply runs_bind; [apply (exporting_step L data i d o y); [done|lia|by rewrite HLx by (destruct remove; lia)|done]|].
    intros d2 H2. by apply runs_ret. }
  intros [data2 out2] (E & -> & -> & HlE & HEok & HEv). rewrite HL, Nat.sub_0_r in HlE. apply runs_ret. split; [done|]. split.
  - rewrite HlE. destruct remove; [|by cbn; lia]. rewrite Hcount. unfold in_width in Hxr.
    assert (0 <= Z.log2 x / 8 <= 3).
    { pose proof (Z.log2_nonneg x). assert (Z.log2 x < 32) by (apply Z.log2_lt_pow2; lia).
      split; [apply Z.div_pos; lia|]. assert (Z.log2 x / 8 < 4); [|lia]. apply Z.div_lt_upper_bound; lia. }
    destruct (Z.ltb_spec 0 (3 - Z.log2 x / 8)); lia.
  - exists E. split; [done|]. split; [done|]. split; [done|]. rewrite HEv, drop_0. unfold L. rewrite <- HV. done.
Qed.

(** Exporting an integer into a buffer with room for its words and importing the bytes that hold it gives
    the integer back.  The words lie at the front of the buffer; the returned count is the number of significant
    bytes when leading zeros are removed, and the bytes it counts are the last ones of the words, not the
    first ones of the buffer. *)
Theorem export_import_round_trip u data a (remove : bool) :
  represents u a -> (4 * trimmed (m_words u) <= length data)%nat ->
  runs (export_data u data remove) (fun '(data', n, u') =>
    let k := (4 * trimmed (m_words u))%nat in
    refreshed u u' /\ length data' = length data /\ drop k data' = drop k data
    /\ n = (if remove then byte_count a else Z.of_nat k)
    /\ runs (import_data (take (Z.to_nat n) (drop (k - Z.to_nat n) data'))) (fun v => represents v a)).
Proof.
  intros Hu Hlen. eapply runs_mono; [by apply export_data_runs|].
  intros [[data' n] u'] (Hr & Hn & E & -> & HlE & HEok & HEv). set (k := (4 * trimmed (m_words u))%nat) in *.
  split; [done|]. split; [rewrite length_app, length_drop; lia|]. split; [by rewrite <- HlE, drop_app_length|].
  split; [destruct remove; [done|lia]|].
  assert (Hnk : 0 <= n <= Z.of_nat k /\ a < 256 ^ n).
  { pose proof (be_value_bound E HEok) as B. rewrite HEv, HlE in B. destruct remove; [|subst n; replace (4 * Z.of_nat (trimmed (m_words u))) with (Z.of_nat k) by lia; lia].
    subst n. unfold byte_count. destruct (Z.eqb_spec a 0) as [-> |Hne]; [lia|]. pose proof (Z.log2_nonneg a).
    assert (0 <= Z.log2 a / 8) by (apply Z.div_pos; lia). pose proof (Z.log2_spec a ltac:(lia)) as [_ S2].
    change 256 with (2 ^ 8) in *. rewrite <- Z.pow_mul_r in * by lia. split.
    - assert (Z.log2 a < 8 * Z.of_nat k) by (apply Z.log2_lt_pow2; lia). assert (Z.log2 a / 8 < Z.of_nat k); [|lia].
      apply Z.div_lt_upper_bound; lia.
    - eapply Z.lt_le_trans; [exact S2|]. apply Z.pow_le_mono_r; [lia|].
      pose proof (Z.div_mod (Z.log2 a) 8 ltac:(lia)). pose proof (Z.mod_pos_bound (Z.log2 a) 8 ltac:(lia)). lia. }
  set (m := Z.to_nat n). assert (Hm : (m <= k)%nat) by lia.
  rewrite drop_app_le by lia. rewrite take_app_le by (rewrite length_drop; lia). rewrite take_ge by (rewrite length_drop; lia).
  eapply runs_mono; [apply import_data_runs; by apply Forall_drop|]. intros v Hv.
  assert (Hsame : be_value (drop (k - m) E) 0 = a); [|by rewrite Hsame in Hv].
  rewrite <- (take_drop (k - m) E), be_value_app, be_value_acc, length_drop in HEv.
  pose proof (be_value_bound _ (Forall_take _ (k - m) _ HEok)) as [B1 _]. pose proof (be_value_bound _ (Forall_drop _ (k - m) _ HEok)) as [B2 _].
  replace (Z.of_nat (length E - (k - m))) with n in HEv by lia. destruct Hnk as [_ Hlt].
  set (t := be_value (take (k - m) E) 0) in *. set (P := 256 ^ n) in *. assert (t = 0) as E0 by (clear - B1 B2 Hlt HEv; nia).
  rewrite E0 in HEv. lia.
Qed.

Lemma export_import_round_trip_witness :
  represents (from_u64 448378203247) 448378203247
  /\ runs (export_data (from_u64 448378203247) (replicate 8 0) true) (fun '(data', n, u') => n = 5
     /\ runs (import_data (take 5 (drop 3 data'))) (fun v => represents v 448378203247)).
Proof.
  assert (H : represents (from_u64 448378203247) 448378203247).
  { split; [|done]. split; [|split; reflexivity]. apply Forall_cons_2; [|apply Forall_singleton]; by vm_compute. }
  split; [exact H|]. eapply runs_mono; [apply (export_import_round_trip _ (replicate 8 0) _ true H); vm_compute; lia|].
  intros [[data' n] u'] (_ & _ & _ & -> & Hr). split; [reflexivity|exact Hr].
Defined.
