(* ===== verification/SignedBigInteger.v ===== *)
(** * Signed big integers

    The class SignedBigInteger (LibCrypto/BigInt/SignedBigInteger.h and .cpp): a sign and the magnitude,
    zero never being negative.  The bitwise operations are those of two's complement, computed on the
    magnitudes.  The operations take their operands by constant reference and only refresh cached
    lengths in them; the definitions return the result alone.  [signed_represents s v] says that
    [s] is the integer v.  The theorems: the class implements the integers, with
    truncating division and the bitwise operations of two's complement; the comparisons; the round
    trip through text; and the difference of a negative number and an unsigned one, which
    ignores the latter. *)
From S2P Require Import Prelude BigIntBase UnsignedBigInteger BigIntDivision BigIntBits BigIntSpec BigIntText.

Local Open Scope Z_scope.
Local Notation word_ok := (in_width 32).

Record SignedBigInteger := mk_SignedBigInteger { m_sign : bool; m_unsigned_data : UnsignedBigInteger }.

(** ** Construction and assignment *)

(** The constructor of a magnitude and a sign, with [ensure_sign_is_valid] *)
Definition signed_of (unsigned_data : UnsignedBigInteger) (sign : bool) : SignedBigInteger :=
  mk_SignedBigInteger (if sign && is_zero unsigned_data then false else sign) unsigned_data.

Definition signed_of_unsigned (unsigned_data : UnsignedBigInteger) : SignedBigInteger :=
  mk_SignedBigInteger false unsigned_data.

(** The constructor of an integer of 32 bits or fewer *)
Definition signed_of_i32 (v : Z) : SignedBigInteger := mk_SignedBigInteger (v <? 0) (from_word (Z.abs v)).

Definition signed_of_i64 (v : Z) : SignedBigInteger :=
  mk_SignedBigInteger (v <? 0) (from_u64 (if v <? 0 then wrap 64 (- (v + 1) + 1) else v)).

Definition negate (s : SignedBigInteger) : SignedBigInteger :=
  if is_zero (m_unsigned_data s) then s else mk_SignedBigInteger (negb (m_sign s)) (m_unsigned_data s).

Definition signed_set_to_0 (s : SignedBigInteger) : SignedBigInteger :=
  mk_SignedBigInteger false (set_to_0 (m_unsigned_data s)).

(** [set_to(i32)]: the argument is converted to [u32]. *)
Definition signed_set_to_i32 (s : SignedBigInteger) (other : Z) : SignedBigInteger :=
  mk_SignedBigInteger (other <? 0) (set_to_word (m_unsigned_data s) (wrap 32 other)).

(** ** Texts and bytes *)
Definition signed_from_base (N : Z) (str : list Z) : outcome (parse_error + SignedBigInteger) :=
  let '(sign, str) :=
    match str with
    | c :: ((_ :: _) as rest) => if c =? 45 then (true, rest) else if c =? 43 then (false, rest) else (false, str)
    | _ => (false, str)
    end in
  r ← from_base N str;
  Ok (match r with inl e => inl e | inr unsigned_data => inr (signed_of unsigned_data sign) end).

Definition signed_to_base (N : Z) (s : SignedBigInteger) : outcome (list Z) :=
  ' (unsigned_as_base, _) ← to_base N (m_unsigned_data s);
  Ok ((if m_sign s then [45] else []) ++ unsigned_as_base).

Definition signed_import_data (bytes : list Z) : outcome SignedBigInteger :=
  first ← at_index bytes 0;
  unsigned_data ← import_data (drop 1 bytes);
  Ok (signed_of unsigned_data (negb (first =? 0))).

(** The buffer and the number of bytes *)
Definition signed_export_data (s : SignedBigInteger) (data : list Z) (remove_leading_zeros : bool) : outcome (list Z * Z) :=
  if remove_leading_zeros then Panic
  else
    data ← set_at_index data 0 (Z.b2z (m_sign s));
    ' (view, n, _) ← export_data (m_unsigned_data s) (drop 1 data) remove_leading_zeros;
    Ok (take 1 data ++ view, n + 1).

Definition signed_to_u64 (s : SignedBigInteger) : Z :=
  let unsigned_value := to_u64 (m_unsigned_data s) in
  if m_sign s then wrap 64 (Z.lnot (wrap 64 (unsigned_value - 1))) else unsigned_value.

(** ** Sums and differences *)
Definition signed_plus_unsigned (s : SignedBigInteger) (other : UnsignedBigInteger) : outcome SignedBigInteger :=
  let u := m_unsigned_data s in
  if m_sign s then
    ' (less, other, u) ← operator_lt other u;
    if less : bool then
      ' (_, _, w) ← minus u other; Ok (signed_of w true)
    else
      ' (_, _, w) ← minus other u; Ok (signed_of w false)
  else
    ' (_, _, w) ← plus u other; Ok (signed_of w false).

(** A negative receiver is added to itself. *)
Definition signed_minus_unsigned (s : SignedBigInteger) (other : UnsignedBigInteger) : outcome SignedBigInteger :=
  let u := m_unsigned_data s in
  if m_sign s then
    ' (_, _, w) ← plus u u; Ok (signed_of w true)
  else
    ' (less, other, u) ← operator_lt other u;
    if less : bool then
      ' (_, _, w) ← minus u other; Ok (signed_of w false)
    else
      ' (_, _, w) ← minus other u; Ok (signed_of w true).

Definition signed_plus (s other : SignedBigInteger) : outcome SignedBigInteger :=
  if Bool.eqb (m_sign s) (m_sign other) then
    ' (_, _, w) ← plus (m_unsigned_data other) (m_unsigned_data s); Ok (signed_of w (m_sign s))
  else if m_sign s then signed_minus_unsigned other (m_unsigned_data s)
  else signed_minus_unsigned s (m_unsigned_data other).

Definition signed_minus (s other : SignedBigInteger) : outcome SignedBigInteger :=
  let u := m_unsigned_data s in
  let v := m_unsigned_data other in
  if negb (Bool.eqb (m_sign s) (m_sign other)) then
    ' (_, _, w) ← plus v u;
    let result := signed_of_unsigned w in
    Ok (if m_sign s then negate result else result)
  else if negb (m_sign s) then
    ' (less, u, v) ← operator_lt u v;
    if less : bool then
      ' (_, _, w) ← minus v u; Ok (signed_of w true)
    else
      ' (_, _, w) ← minus u v; Ok (signed_of_unsigned w)
  else
    ' (less, u, v) ← operator_lt u v;
    if less : bool then
      ' (_, _, w) ← minus v u; Ok (signed_of_unsigned w)
    else
      ' (greater, u, v) ← operator_gt u v;
      if greater : bool then
        ' (_, _, w) ← minus u v; Ok (signed_of w true)
      else Ok (signed_of_i32 0).

(** ** Products and quotients *)
Definition signed_multiplied_by_unsigned (s : SignedBigInteger) (other : UnsignedBigInteger) : outcome SignedBigInteger :=
  w ← multiplied_by (m_unsigned_data s) other; Ok (signed_of w (m_sign s)).

Definition signed_multiplied_by (s other : SignedBigInteger) : outcome SignedBigInteger :=
  w ← multiplied_by (m_unsigned_data s) (m_unsigned_data other); Ok (signed_of w (xorb (m_sign s) (m_sign other))).

(** The quotient and the remainder *)
Definition signed_divided_by_unsigned (s : SignedBigInteger) (divisor : UnsignedBigInteger)
    : outcome (SignedBigInteger * SignedBigInteger) :=
  ' (_, _, quotient, remainder) ← divided_by (m_unsigned_data s) divisor;
  Ok (signed_of quotient (m_sign s), signed_of remainder (m_sign s)).

Definition signed_divided_by (s divisor : SignedBigInteger) : outcome (SignedBigInteger * SignedBigInteger) :=
  ' (_, _, quotient, remainder) ← divided_by (m_unsigned_data s) (m_unsigned_data divisor);
  Ok (signed_of quotient (xorb (m_sign s) (m_sign divisor)), signed_of remainder (m_sign s)).

(** ** Bitwise operations *)
Definition signed_bitwise_not (s : SignedBigInteger) : outcome SignedBigInteger :=
  result ← signed_plus s (signed_of_i32 1); Ok (negate result).

(** [a.minus(1)] and [a.plus(1)] *)
Definition pred_of (u : UnsignedBigInteger) : outcome UnsignedBigInteger := ' (_, _, w) ← minus u (from_word 1); Ok w.
Definition succ_of (u : UnsignedBigInteger) : outcome UnsignedBigInteger := ' (_, _, w) ← plus u (from_word 1); Ok w.

Definition signed_bitwise_or (s other : SignedBigInteger) : outcome SignedBigInteger :=
  let u := m_unsigned_data s in
  let v := m_unsigned_data other in
  match m_sign s, m_sign other with
  | false, false => Ok (signed_of (bitwise_or u v) false)
  | true, false =>
      ' (index, u) ← one_based_index_of_highest_set_bit u;
      p ← pred_of u;
      complement ← bitwise_not_fill_to_one_based_index v (Z.to_nat index);
      w ← succ_of (bitwise_and p complement);
      Ok (signed_of w true)
  | false, true =>
      ' (index, v) ← one_based_index_of_highest_set_bit v;
      complement ← bitwise_not_fill_to_one_based_index u (Z.to_nat index);
      p ← pred_of v;
      w ← succ_of (bitwise_and complement p);
      Ok (signed_of w true)
  | true, true =>
      p ← pred_of u;
      q ← pred_of v;
      w ← succ_of (bitwise_and p q);
      Ok (signed_of w true)
  end.

Definition signed_bitwise_and (s other : SignedBigInteger) : outcome SignedBigInteger :=
  let u := m_unsigned_data s in
  let v := m_unsigned_data other in
  match m_sign s, m_sign other with
  | false, false => Ok (signed_of (bitwise_and u v) false)
  | true, false =>
      ' (index, v) ← one_based_index_of_highest_set_bit v;
      complement ← bitwise_not_fill_to_one_based_index u (Z.to_nat index);
      w ← succ_of complement;
      Ok (signed_of (bitwise_and w v) false)
  | false, true =>
      ' (index, u) ← one_based_index_of_highest_set_bit u;
      complement ← bitwise_not_fill_to_one_based_index v (Z.to_nat index);
      w ← succ_of complement;
      Ok (signed_of (bitwise_and u w) false)
  | true, true =>
      p ← pred_of u;
      q ← pred_of v;
      w ← succ_of (bitwise_or p q);
      Ok (signed_of w true)
  end.

Definition signed_bitwise_xor (s other : SignedBigInteger) : outcome SignedBigInteger :=
  o ← signed_bitwise_or s other; a ← signed_bitwise_and s other; signed_minus o a.

Definition signed_shift_left (s : SignedBigInteger) (num_bits : nat) : outcome SignedBigInteger :=
  w ← big_shift_left (m_unsigned_data s) num_bits; Ok (signed_of w (m_sign s)).
Definition signed_shift_right (s : SignedBigInteger) (num_bits : nat) : outcome SignedBigInteger :=
  w ← big_shift_right (m_unsigned_data s) num_bits; Ok (signed_of w (m_sign s)).

Definition signed_set_bit_inplace (s : SignedBigInteger) (bit_index : nat) : outcome SignedBigInteger :=
  w ← set_bit_inplace (m_unsigned_data s) bit_index; Ok (mk_SignedBigInteger (m_sign s) w).

Definition negated_value (s : SignedBigInteger) : SignedBigInteger := negate s.

(** ** Comparisons *)
Definition signed_eq (s other : SignedBigInteger) : outcome bool :=
  let u := m_unsigned_data s in
  let v := m_unsigned_data other in
  if negb (Bool.eqb (m_is_invalid u) (m_is_invalid v)) then Ok false
  else
    ' (zero, u, _) ← operator_eq u (from_word 0);
    ' (both, v) ← (if zero : bool then ' (other_zero, v, _) ← operator_eq v (from_word 0); Ok (other_zero, v) else Ok (false, v));
    if both : bool then Ok true
    else if Bool.eqb (m_sign s) (m_sign other) then ' (equal, _, _) ← operator_eq u v; Ok equal
    else Ok false.

Definition signed_lt (s other : SignedBigInteger) : outcome bool :=
  if xorb (m_sign s) (m_sign other) then Ok (m_sign s)
  else if m_sign s then ' (less, _, _) ← operator_lt (m_unsigned_data other) (m_unsigned_data s); Ok less
  else ' (less, _, _) ← operator_lt (m_unsigned_data s) (m_unsigned_data other); Ok less.

Definition signed_le (s other : SignedBigInteger) : outcome bool :=
  less ← signed_lt s other; if less : bool then Ok true else signed_eq s other.
Definition signed_gt (s other : SignedBigInteger) : outcome bool :=
  equal ← signed_eq s other; if equal : bool then Ok false else less ← signed_lt s other; Ok (negb less).
Definition signed_ge (s other : SignedBigInteger) : outcome bool :=
  less ← signed_lt s other; Ok (negb less).

(** With an unsigned integer *)
Definition signed_eq_unsigned (s : SignedBigInteger) (other : UnsignedBigInteger) : outcome bool :=
  ' (not_zero, u) ← (if m_sign s then ' (zero, u, _) ← operator_eq (m_unsigned_data s) (from_word 0); Ok (negb zero, u)
                     else Ok (false, m_unsigned_data s));
  if not_zero : bool then Ok false else ' (equal, _, _) ← operator_eq u other; Ok equal.
Definition signed_lt_unsigned (s : SignedBigInteger) (other : UnsignedBigInteger) : outcome bool :=
  if m_sign s then Ok true else ' (less, _, _) ← operator_lt (m_unsigned_data s) other; Ok less.
Definition signed_gt_unsigned (s : SignedBigInteger) (other : UnsignedBigInteger) : outcome bool :=
  different ← (if m_sign s then Ok true else ' (equal, _, _) ← operator_eq (m_unsigned_data s) other; Ok (negb equal));
  if different : bool then less ← signed_lt_unsigned s other; Ok (negb less) else Ok false.


(** ** Signs and magnitudes *)
Definition signed_represents (s : SignedBigInteger) (v : Z) : Prop :=
  represents (m_unsigned_data s) (Z.abs v) /\ m_sign s = (v <? 0).

Lemma is_zero_spec u a : holds u a -> is_zero u = (a =? 0).
Proof.
  intros (Hok & <- & _). unfold is_zero. induction Hok as [|x l Hx Hl IH]; [done|]. cbn [forallb value]. rewrite IH.
  pose proof (value_bound 32 word_width l Hl). unfold in_width in Hx.
  destruct (Z.eqb_spec 0 x), (Z.eqb_spec (value 32 l) 0), (Z.eqb_spec (x + 2 ^ 32 * value 32 l) 0); cbn [andb]; done || lia.
Qed.

Lemma represents_eq u a b : represents u a -> a = b -> represents u b.
Proof. by intros H <-. Qed.

Lemma signed_of_represents u a (sign : bool) : represents u a -> signed_represents (signed_of u sign) (if sign then - a else a).
Proof.
  intros Hu. pose proof (holds_nonneg _ _ (represents_holds _ _ Hu)) as Ha. unfold signed_of, signed_represents. cbn [m_unsigned_data m_sign].
  rewrite (is_zero_spec u a) by apply Hu. split; [eapply represents_eq; [exact Hu|destruct sign; lia]|].
  destruct sign, (Z.eqb_spec a 0); cbn [andb]; lia.
Qed.

Lemma signed_of_value u a (sign : bool) v : represents u a -> (if sign then - a else a) = v -> signed_represents (signed_of u sign) v.
Proof. intros Hu <-. by apply signed_of_represents. Qed.

Lemma signed_of_unsigned_represents u a : represents u a -> signed_represents (signed_of_unsigned u) a.
Proof.
  intros Hu. pose proof (holds_nonneg _ _ (represents_holds _ _ Hu)). split; cbn [signed_of_unsigned m_unsigned_data m_sign]; [|lia].
  eapply represents_eq; [exact Hu|lia].
Qed.

Lemma negate_represents s v : signed_represents s v -> signed_represents (negate s) (- v).
Proof.
  intros [Hu Hs]. unfold negate. rewrite (is_zero_spec _ (Z.abs v)) by apply Hu. destruct (Z.eqb_spec (Z.abs v) 0) as [E|E].
  - split; [eapply represents_eq; [exact Hu|lia]|]. rewrite Hs. lia.
  - split; cbn [m_unsigned_data m_sign]; [eapply represents_eq; [exact Hu|lia]|]. rewrite Hs. lia.
Qed.

Lemma signed_of_i32_represents v : Z.abs v < 2 ^ 32 -> signed_represents (signed_of_i32 v) v.
Proof. intros H. split; [|done]. apply from_word_holds. unfold in_width. lia. Qed.

(** The operands of a signed operation, with their magnitudes *)
Ltac signs Hs Ht := destruct Hs as [Hu Esu]; destruct Ht as [Hv Esv]; rewrite ?Esu, ?Esv.

(** ** Sums and differences *)
Lemma plus_magnitudes u v a b (f : UnsignedBigInteger -> SignedBigInteger) z :
  represents u a -> represents v b -> (forall w, represents w (a + b) -> signed_represents (f w) z) ->
  runs (' (_, _, w) ← plus u v; Ok (f w)) (fun s => signed_represents s z).
Proof.
  intros Hu Hv Hf. eapply runs_bind; [by apply add_without_allocation_runs|]. intros [[u' v'] w] (_ & _ & Hw). by apply runs_ret, Hf.
Qed.

Lemma minus_magnitudes u v a b (f : UnsignedBigInteger -> SignedBigInteger) z :
  represents u a -> represents v b -> b <= a -> (forall w, represents w (a - b) -> signed_represents (f w) z) ->
  runs (' (_, _, w) ← minus u v; Ok (f w)) (fun s => signed_represents s z).
Proof.
  intros Hu Hv Hle Hf. eapply runs_bind; [by apply subtract_without_allocation_runs|]. intros [[u' v'] w] (_ & _ & Hw).
  rewrite (proj2 (Z.ltb_ge a b)) in Hw by done. apply runs_ret, Hf, Hw.
Qed.

(** A comparison whose operands are used again *)
Lemma compare_magnitudes {A} u v a b (f : bool -> UnsignedBigInteger -> UnsignedBigInteger -> outcome A) Q :
  represents u a -> represents v b -> (forall u' v', represents u' a -> represents v' b -> runs (f (a <? b) u' v') Q) ->
  runs (' (less, u, v) ← operator_lt u v; f less u v) Q.
Proof.
  intros Hu Hv Hf. eapply runs_bind; [by apply operator_lt_runs|]. intros [[less u'] v'] (-> & Ru & Rv).
  apply Hf; eapply refreshed_represents; [apply Hu|done|apply Hv|done].
Qed.

Lemma minus_unsigned_runs s other v b :
  signed_represents s v -> represents other b ->
  runs (signed_minus_unsigned s other) (fun r => signed_represents r (if v <? 0 then 2 * v else v - b)).
Proof.
  intros [Hu Es] Hb. unfold signed_minus_unsigned. rewrite Es. destruct (Z.ltb_spec v 0) as [Hn|Hp].
  - apply (plus_magnitudes _ _ _ _ (fun w => signed_of w true) _ Hu Hu). intros w Hw. eapply signed_of_value; [exact Hw|lia].
  - apply (compare_magnitudes other _ b (Z.abs v) _ _ Hb Hu). intros b' u' Hb' Hu'. destruct (Z.ltb_spec b (Z.abs v)).
    + apply (minus_magnitudes _ _ _ _ (fun w => signed_of w false) _ Hu' Hb'); [lia|]. intros w Hw. eapply signed_of_value; [exact Hw|lia].
    + apply (minus_magnitudes _ _ _ _ (fun w => signed_of w true) _ Hb' Hu'); [lia|]. intros w Hw. eapply signed_of_value; [exact Hw|lia].
Qed.

Lemma plus_unsigned_runs s other v b :
  signed_represents s v -> represents other b -> runs (signed_plus_unsigned s other) (fun r => signed_represents r (v + b)).
Proof.
  intros [Hu Es] Hb. unfold signed_plus_unsigned. rewrite Es. destruct (Z.ltb_spec v 0) as [Hn|Hp].
  - apply (compare_magnitudes other _ b (Z.abs v) _ _ Hb Hu). intros b' u' Hb' Hu'. destruct (Z.ltb_spec b (Z.abs v)).
    + apply (minus_magnitudes _ _ _ _ (fun w => signed_of w true) _ Hu' Hb'); [lia|]. intros w Hw. eapply signed_of_value; [exact Hw|lia].
    + apply (minus_magnitudes _ _ _ _ (fun w => signed_of w false) _ Hb' Hu'); [lia|]. intros w Hw. eapply signed_of_value; [exact Hw|lia].
  - apply (plus_magnitudes _ _ _ _ (fun w => signed_of w false) _ Hu Hb). intros w Hw. eapply signed_of_value; [exact Hw|lia].
Qed.

Lemma signed_plus_runs s t x y :
  signed_represents s x -> signed_represents t y -> runs (signed_plus s t) (fun r => signed_represents r (x + y)).
Proof.
  intros Hs Ht. pose proof (minus_unsigned_runs t (m_unsigned_data s) y (Z.abs x) Ht (proj1 Hs)) as H1.
  pose proof (minus_unsigned_runs s (m_unsigned_data t) x (Z.abs y) Hs (proj1 Ht)) as H2. signs Hs Ht. unfold signed_plus. rewrite Esu, Esv.
  destruct (Z.ltb_spec x 0), (Z.ltb_spec y 0); cbn [Bool.eqb].
  - apply (plus_magnitudes _ _ _ _ (fun w => signed_of w true) _ Hv Hu). intros w Hw. eapply signed_of_value; [exact Hw|lia].
  - by replace (x + y) with (y - Z.abs x) by lia.
  - by replace (x + y) with (x - Z.abs y) by lia.
  - apply (plus_magnitudes _ _ _ _ (fun w => signed_of w false) _ Hv Hu). intros w Hw. eapply signed_of_value; [exact Hw|lia].
Qed.

Lemma operator_gt_runs u v a b :
  represents u a -> represents v b ->
  runs (operator_gt u v) (fun '(e, u', v') => e = (b <? a) /\ refreshed u u' /\ refreshed v v').
Proof.
  intros Hu Hv. unfold operator_gt. eapply runs_bind; [by apply operator_eq_runs|]. intros [[e u1] v1] (-> & Ru & Rv).
  destruct (Z.eqb_spec a b) as [-> |Hne]; [apply runs_ret; split; [symmetry; apply Z.ltb_irrefl|done]|].
  eapply runs_bind; [apply (operator_lt_runs u1 v1 a b); eapply refreshed_represents; [apply Hu|done|apply Hv|done]|].
  intros [[less u2] v2] (-> & Ru2 & Rv2). apply runs_ret. split; [lia|]. split; by eapply refreshed_trans.
Qed.

Lemma signed_minus_runs s t x y :
  signed_represents s x -> signed_represents t y -> runs (signed_minus s t) (fun r => signed_represents r (x - y)).
Proof.
  intros Hs Ht. signs Hs Ht. unfold signed_minus. rewrite Esu, Esv. destruct (Z.ltb_spec x 0), (Z.ltb_spec y 0); cbn [Bool.eqb negb].
  - apply (compare_magnitudes _ _ _ _ _ _ Hu Hv). intros u' v' Hu' Hv'. destruct (Z.ltb_spec (Z.abs x) (Z.abs y)).
    + apply (minus_magnitudes _ _ _ _ signed_of_unsigned _ Hv' Hu'); [lia|]. intros w Hw.
      replace (x - y) with (Z.abs y - Z.abs x) by lia. by apply signed_of_unsigned_represents.
    + eapply runs_bind; [apply operator_gt_runs; [exact Hu'|exact Hv']|]. intros [[g u2] v2] (-> & Ru & Rv).
      assert (Hu2 : represents u2 (Z.abs x)) by (eapply refreshed_represents; [apply Hu'|done]).
      assert (Hv2 : represents v2 (Z.abs y)) by (eapply refreshed_represents; [apply Hv'|done]). destruct (Z.ltb_spec (Z.abs y) (Z.abs x)).
      * apply (minus_magnitudes _ _ _ _ (fun w => signed_of w true) _ Hu2 Hv2); [lia|]. intros w Hw. eapply signed_of_value; [exact Hw|lia].
      * apply runs_ret. replace (x - y) with 0 by lia. by apply signed_of_i32_represents.
  - apply (plus_magnitudes _ _ _ _ (fun w => negate (signed_of_unsigned w)) _ Hv Hu). intros w Hw.
    replace (x - y) with (- (Z.abs y + Z.abs x)) by lia. by apply negate_represents, signed_of_unsigned_represents.
  - apply (plus_magnitudes _ _ _ _ signed_of_unsigned _ Hv Hu). intros w Hw.
    replace (x - y) with (Z.abs y + Z.abs x) by lia. by apply signed_of_unsigned_represents.
  - apply (compare_magnitudes _ _ _ _ _ _ Hu Hv). intros u' v' Hu' Hv'. destruct (Z.ltb_spec (Z.abs x) (Z.abs y)).
    + apply (minus_magnitudes _ _ _ _ (fun w => signed_of w true) _ Hv' Hu'); [lia|]. intros w Hw. eapply signed_of_value; [exact Hw|lia].
    + apply (minus_magnitudes _ _ _ _ signed_of_unsigned _ Hu' Hv'); [lia|]. intros w Hw.
      replace (x - y) with (Z.abs x - Z.abs y) by lia. by apply signed_of_unsigned_represents.
Qed.

(** ** Products and quotients *)
Lemma signed_multiplied_by_runs s t x y :
  signed_represents s x -> signed_represents t y -> runs (signed_multiplied_by s t) (fun r => signed_represents r (x * y)).
Proof.
  intros Hs Ht. signs Hs Ht. unfold signed_multiplied_by. rewrite Esu, Esv.
  eapply runs_bind; [apply multiply_without_allocation_runs; apply represents_holds; [exact Hu|exact Hv]|]. intros w Hw. apply runs_ret.
  eapply signed_of_value; [exact Hw|]. destruct (Z.ltb_spec x 0), (Z.ltb_spec y 0); cbn [xorb]; nia.
Qed.

Lemma quotient_of_magnitudes x y :
  y <> 0 -> (if xorb (x <? 0) (y <? 0) then - (Z.abs x / Z.abs y) else Z.abs x / Z.abs y) = Z.quot x y.
Proof.
  intros Hy. rewrite Z.quot_div by done. destruct (Z.ltb_spec x 0), (Z.ltb_spec y 0); cbn [xorb];
    rewrite ?(Z.sgn_neg x), ?(Z.sgn_neg y), ?(Z.sgn_pos y) by lia; try lia.
  - destruct (decide (x = 0)) as [-> |]; [rewrite Z.div_0_l by lia; lia|]. rewrite (Z.sgn_pos x) by lia. lia.
  - destruct (decide (x = 0)) as [-> |]; [rewrite Z.div_0_l by lia; lia|]. rewrite (Z.sgn_pos x) by lia. lia.
Qed.

Lemma remainder_of_magnitudes x y :
  y <> 0 -> (if x <? 0 then - (Z.abs x mod Z.abs y) else Z.abs x mod Z.abs y) = Z.rem x y.
Proof.
  intros Hy. rewrite Z.rem_mod by done. destruct (Z.ltb_spec x 0); [rewrite (Z.sgn_neg x) by lia; lia|].
  destruct (decide (x = 0)) as [-> |]; [rewrite Z.mod_0_l by lia; lia|]. rewrite (Z.sgn_pos x) by lia. lia.
Qed.

Lemma signed_divided_by_runs s t x y :
  signed_represents s x -> signed_represents t y -> y <> 0 ->
  runs (signed_divided_by s t) (fun '(q, r) => signed_represents q (Z.quot x y) /\ signed_represents r (Z.rem x y)).
Proof.
  intros Hs Ht Hy. signs Hs Ht. unfold signed_divided_by. rewrite Esu, Esv.
  eapply runs_bind; [apply (divided_by_runs _ _ _ _ Hu Hv); lia|]. intros [[[u' v'] q] r] (_ & _ & Hq & Hr). apply runs_ret.
  split; eapply signed_of_value; [exact Hq|by apply quotient_of_magnitudes|exact Hr|by apply remainder_of_magnitudes].
Qed.

(** ** Two's complement *)
Lemma land_low x b k : 0 <= k -> 0 <= b < 2 ^ k -> Z.land (x mod 2 ^ k) b = Z.land x b.
Proof.
  intros Hk Hb. rewrite <- (Z.land_ones x k) by done. rewrite <- Z.land_assoc, (Z.land_comm (Z.ones k)), Z.land_ones by done.
  by rewrite (Z.mod_small b) by done.
Qed.

Lemma land_negative A b k : 0 <= k -> 0 <= b < 2 ^ k -> Z.land (Z.lnot A mod 2 ^ k + 1) b = Z.land (- A) b.
Proof.
  intros Hk Hb. rewrite <- (land_low (Z.lnot A mod 2 ^ k + 1) b k), <- (land_low (- A) b k) by done.
  rewrite Z.add_mod_idemp_l by lia. do 2 f_equal. unfold Z.lnot. lia.
Qed.

Lemma lor_negative A b k : 0 <= k -> 0 <= A - 1 < 2 ^ k -> - (Z.land (A - 1) (Z.lnot b mod 2 ^ k) + 1) = Z.lor (- A) b.
Proof.
  intros Hk HA. rewrite (Z.land_comm (A - 1)), land_low by done. rewrite Z.land_comm.
  rewrite <- (Z.lnot_involutive (Z.lor (- A) b)), Z.lnot_lor. replace (Z.lnot (- A)) with (A - 1) by (unfold Z.lnot; lia). unfold Z.lnot. lia.
Qed.

Lemma lor_both_negative A B : - (Z.land (A - 1) (B - 1) + 1) = Z.lor (- A) (- B).
Proof.
  rewrite <- (Z.lnot_involutive (Z.lor (- A) (- B))), Z.lnot_lor. replace (Z.lnot (- A)) with (A - 1) by (unfold Z.lnot; lia).
  replace (Z.lnot (- B)) with (B - 1) by (unfold Z.lnot; lia). unfold Z.lnot. lia.
Qed.

Lemma land_both_negative A B : - (Z.lor (A - 1) (B - 1) + 1) = Z.land (- A) (- B).
Proof.
  rewrite <- (Z.lnot_involutive (Z.land (- A) (- B))), Z.lnot_land. replace (Z.lnot (- A)) with (A - 1) by (unfold Z.lnot; lia).
  replace (Z.lnot (- B)) with (B - 1) by (unfold Z.lnot; lia). unfold Z.lnot. lia.
Qed.

Lemma lxor_difference a b : Z.lor a b - Z.land a b = Z.lxor a b.
Proof.
  rewrite Z.sub_nocarry_ldiff.
  - apply Z.bits_inj'. intros i Hi. rewrite Z.ldiff_spec, Z.lor_spec, Z.land_spec, Z.lxor_spec. by destruct (Z.testbit a i), (Z.testbit b i).
  - apply Z.bits_inj'. intros i Hi. rewrite Z.ldiff_spec, Z.lor_spec, Z.land_spec, Z.bits_0. by destruct (Z.testbit a i), (Z.testbit b i).
Qed.

(** The bits below the highest bit of a magnitude *)
Lemma highest_bit_runs {A} u a (f : Z -> UnsignedBigInteger -> outcome A) Q :
  represents u a ->
  (forall k u', 0 <= k -> 0 <= a < 2 ^ k -> represents u' a -> runs (f k u') Q) ->
  runs (' (index, u) ← one_based_index_of_highest_set_bit u; f index u) Q.
Proof.
  intros Hu Hf. pose proof (holds_nonneg _ _ (represents_holds _ _ Hu)) as Ha. eapply runs_bind; [by apply highest_set_bit_runs|].
  intros [k u'] (-> & R). assert (Hu' : represents u' a) by (eapply refreshed_represents; [apply Hu|done]).
  destruct (Z.eqb_spec a 0) as [-> |Hne]; [by apply Hf|]. pose proof (Z.log2_nonneg a). apply Hf; [lia| |done].
  pose proof (Z.log2_spec a ltac:(lia)) as [_ H2]. unfold Z.succ in H2. lia.
Qed.

Lemma pred_of_runs u a : represents u a -> 1 <= a -> runs (pred_of u) (fun w => represents w (a - 1)).
Proof.
  intros Hu Ha. unfold pred_of. eapply runs_bind; [apply subtract_without_allocation_runs; [exact Hu|by apply (from_word_holds 1)]|].
  intros [[u' o] w] (_ & _ & Hw). rewrite (proj2 (Z.ltb_ge a 1)) in Hw by done. apply runs_ret, Hw.
Qed.

Lemma succ_of_runs u a : represents u a -> runs (succ_of u) (fun w => represents w (a + 1)).
Proof.
  intros Hu. unfold succ_of. eapply runs_bind; [apply add_without_allocation_runs; [exact Hu|by apply (from_word_holds 1)]|].
  intros [[u' o] w] (_ & _ & Hw). by apply runs_ret.
Qed.

(** The last steps of the operations on magnitudes *)
Lemma finish_negative u a z :
  represents u a -> - (a + 1) = z -> runs (w ← succ_of u; Ok (signed_of w true)) (fun r => signed_represents r z).
Proof.
  intros Hu Hz. eapply runs_bind; [by apply succ_of_runs|]. intros w Hw. apply runs_ret. by apply (signed_of_value w (a + 1)).
Qed.

Lemma complement_runs {A} u a k (f : UnsignedBigInteger -> outcome A) Q :
  represents u a -> 0 <= k -> (forall w, represents w (Z.lnot a mod 2 ^ k) -> runs (f w) Q) ->
  runs (complement ← bitwise_not_fill_to_one_based_index u (Z.to_nat k); f complement) Q.
Proof.
  intros Hu Hk Hf. eapply runs_bind; [apply (bitwise_not_runs u _ a), represents_holds, Hu|]. intros w Hw. rewrite Z2Nat.id in Hw by done. by apply Hf.
Qed.

Lemma signed_bitwise_or_runs s t x y :
  signed_represents s x -> signed_represents t y -> runs (signed_bitwise_or s t) (fun r => signed_represents r (Z.lor x y)).
Proof.
  intros Hs Ht. signs Hs Ht. unfold signed_bitwise_or. rewrite Esu, Esv. destruct (Z.ltb_spec x 0), (Z.ltb_spec y 0).
  - eapply runs_bind; [apply (pred_of_runs _ _ Hu); lia|]. intros p Hp. eapply runs_bind; [apply (pred_of_runs _ _ Hv); lia|]. intros q Hq.
    eapply finish_negative; [exact (bitwise_and_holds _ _ _ _ (represents_holds _ _ Hp) (represents_holds _ _ Hq))|]. rewrite lor_both_negative. f_equal; lia.
  - apply (highest_bit_runs _ _ _ _ Hu). intros k u' Hk Ha Hu'. eapply runs_bind; [apply (pred_of_runs _ _ Hu'); lia|]. intros p Hp.
    apply (complement_runs _ _ _ _ _ Hv Hk). intros c Hc.
    eapply finish_negative; [exact (bitwise_and_holds _ _ _ _ (represents_holds _ _ Hp) (represents_holds _ _ Hc))|]. rewrite lor_negative by lia. f_equal; lia.
  - apply (highest_bit_runs _ _ _ _ Hv). intros k v' Hk Ha Hv'. apply (complement_runs _ _ _ _ _ Hu Hk). intros c Hc.
    eapply runs_bind; [apply (pred_of_runs _ _ Hv'); lia|]. intros p Hp.
    eapply finish_negative; [exact (bitwise_and_holds _ _ _ _ (represents_holds _ _ Hc) (represents_holds _ _ Hp))|].
    rewrite Z.land_comm, lor_negative by lia. rewrite Z.lor_comm. f_equal; lia.
  - apply runs_ret. eapply signed_of_value; [exact (bitwise_or_holds _ _ _ _ (represents_holds _ _ Hu) (represents_holds _ _ Hv))|]. cbv beta. f_equal; lia.
Qed.

Lemma signed_bitwise_and_runs s t x y :
  signed_represents s x -> signed_represents t y -> runs (signed_bitwise_and s t) (fun r => signed_represents r (Z.land x y)).
Proof.
  intros Hs Ht. signs Hs Ht. unfold signed_bitwise_and. rewrite Esu, Esv. destruct (Z.ltb_spec x 0), (Z.ltb_spec y 0).
  - eapply runs_bind; [apply (pred_of_runs _ _ Hu); lia|]. intros p Hp. eapply runs_bind; [apply (pred_of_runs _ _ Hv); lia|]. intros q Hq.
    eapply finish_negative; [exact (bitwise_or_holds _ _ _ _ (represents_holds _ _ Hp) (represents_holds _ _ Hq))|]. rewrite land_both_negative. f_equal; lia.
  - apply (highest_bit_runs _ _ _ _ Hv). intros k v' Hk Ha Hv'. apply (complement_runs _ _ _ _ _ Hu Hk). intros c Hc.
    eapply runs_bind; [by apply succ_of_runs|]. intros w Hw. apply runs_ret.
    eapply signed_of_value; [exact (bitwise_and_holds _ _ _ _ (represents_holds _ _ Hw) (represents_holds _ _ Hv'))|]. cbv beta. rewrite land_negative by lia. f_equal; lia.
  - apply (highest_bit_runs _ _ _ _ Hu). intros k u' Hk Ha Hu'. apply (complement_runs _ _ _ _ _ Hv Hk). intros c Hc.
    eapply runs_bind; [by apply succ_of_runs|]. intros w Hw. apply runs_ret.
    eapply signed_of_value; [exact (bitwise_and_holds _ _ _ _ (represents_holds _ _ Hu') (represents_holds _ _ Hw))|]. cbv beta.
    rewrite Z.land_comm, land_negative by lia. rewrite Z.land_comm. f_equal; lia.
  - apply runs_ret. eapply signed_of_value; [exact (bitwise_and_holds _ _ _ _ (represents_holds _ _ Hu) (represents_holds _ _ Hv))|]. cbv beta. f_equal; lia.
Qed.

Lemma signed_bitwise_xor_runs s t x y :
  signed_represents s x -> signed_represents t y -> runs (signed_bitwise_xor s t) (fun r => signed_represents r (Z.lxor x y)).
Proof.
  intros Hs Ht. unfold signed_bitwise_xor. eapply runs_bind; [by apply (signed_bitwise_or_runs s t x y)|]. intros o Ho.
  eapply runs_bind; [by apply (signed_bitwise_and_runs s t x y)|]. intros a Ha. rewrite <- lxor_difference. by apply signed_minus_runs.
Qed.

Lemma signed_bitwise_not_runs s x : signed_represents s x -> runs (signed_bitwise_not s) (fun r => signed_represents r (Z.lnot x)).
Proof.
  intros Hs. unfold signed_bitwise_not. eapply runs_bind; [apply signed_plus_runs; [exact Hs|by apply (signed_of_i32_represents 1)]|].
  intros r Hr. apply runs_ret. replace (Z.lnot x) with (- (x + 1)) by (unfold Z.lnot; lia). by apply negate_represents.
Qed.

Lemma signed_shift_left_runs s n x :
  signed_represents s x -> runs (signed_shift_left s n) (fun r => signed_represents r (x * 2 ^ Z.of_nat n)).
Proof.
  intros [Hu Es]. unfold signed_shift_left. rewrite Es. eapply runs_bind; [apply shift_left_without_allocation_runs, represents_holds, Hu|].
  intros w [Hw Hc]. apply runs_ret. eapply signed_of_value; [by apply cache_none|]. destruct (Z.ltb_spec x 0); nia.
Qed.

(** ** Comparisons *)
Lemma eq_zero_runs {A} u a (f : bool -> UnsignedBigInteger -> outcome A) Q :
  represents u a -> (forall u', represents u' a -> runs (f (a =? 0) u') Q) ->
  runs (' (zero, u, _) ← operator_eq u (from_word 0); f zero u) Q.
Proof.
  intros Hu Hf. eapply runs_bind; [by apply operator_eq_zero|]. intros [[zero u'] w] (-> & R). apply Hf. eapply refreshed_represents; [apply Hu|done].
Qed.

Lemma equal_runs u v a b : represents u a -> represents v b -> runs (' (equal, _, _) ← operator_eq u v; Ok equal) (fun r => r = (a =? b)).
Proof. intros Hu Hv. eapply runs_bind; [by apply operator_eq_runs|]. intros [[e u'] v'] (-> & _). by apply runs_ret. Qed.

Lemma less_runs u v a b : represents u a -> represents v b -> runs (' (less, _, _) ← operator_lt u v; Ok less) (fun r => r = (a <? b)).
Proof. intros Hu Hv. eapply runs_bind; [by apply operator_lt_runs|]. intros [[e u'] v'] (-> & _). by apply runs_ret. Qed.

Lemma signed_eq_runs s t x y : signed_represents s x -> signed_represents t y -> runs (signed_eq s t) (fun r => r = (x =? y)).
Proof.
  intros Hs Ht. signs Hs Ht. unfold signed_eq. rewrite Esu, Esv. destruct Hu as [Hh Hc] eqn:Eu. clear Eu. pose proof Hh as (_ & _ & ->).
  destruct Hv as [Hh' Hc'] eqn:Ev. clear Ev. pose proof Hh' as (_ & _ & ->). cbn [Bool.eqb negb].
  apply (eq_zero_runs _ (Z.abs x)); [done|]. intros u' Hu'.
  eapply (runs_bind _ _ (fun '(both, v') => both = ((Z.abs x =? 0) && (Z.abs y =? 0)) /\ represents v' (Z.abs y))).
  { destruct (Z.eqb_spec (Z.abs x) 0); [|by apply runs_ret]. apply (eq_zero_runs _ (Z.abs y)); [done|]. intros v' Hv'. by apply runs_ret. }
  intros [both v'] (-> & Hv'). destruct (Z.eqb_spec (Z.abs x) 0), (Z.eqb_spec (Z.abs y) 0); cbn [andb]; [apply runs_ret; lia|..];
    (destruct (Bool.eqb _ _) eqn:Es; [eapply runs_mono; [by apply (equal_runs u' v')|]; intros r ->|apply runs_ret]);
    destruct (Z.ltb_spec x 0), (Z.ltb_spec y 0); cbn [Bool.eqb] in Es; done || lia.
Qed.

Lemma signed_lt_runs s t x y : signed_represents s x -> signed_represents t y -> runs (signed_lt s t) (fun r => r = (x <? y)).
Proof.
  intros Hs Ht. signs Hs Ht. unfold signed_lt. rewrite Esu, Esv. destruct (Z.ltb_spec x 0), (Z.ltb_spec y 0); cbn [xorb].
  - eapply runs_mono; [by apply less_runs|]. intros r ->. lia.
  - apply runs_ret. lia.
  - apply runs_ret. lia.
  - eapply runs_mono; [by apply less_runs|]. intros r ->. lia.
Qed.

Lemma signed_lt_unsigned_runs s other x b : signed_represents s x -> represents other b -> runs (signed_lt_unsigned s other) (fun r => r = (x <? b)).
Proof.
  intros [Hu Es] Hb. pose proof (holds_nonneg _ _ (represents_holds _ _ Hb)). unfold signed_lt_unsigned. rewrite Es. destruct (Z.ltb_spec x 0).
  - apply runs_ret. lia.
  - eapply runs_mono; [by apply less_runs|]. intros r ->. lia.
Qed.

Lemma signed_eq_unsigned_runs s other x b : signed_represents s x -> represents other b -> runs (signed_eq_unsigned s other) (fun r => r = (x =? b)).
Proof.
  intros [Hu Es] Hb. pose proof (holds_nonneg _ _ (represents_holds _ _ Hb)). unfold signed_eq_unsigned. rewrite Es.
  eapply (runs_bind _ _ (fun '(not_zero, u) => not_zero = (x <? 0) /\ represents u (Z.abs x))).
  { destruct (Z.ltb_spec x 0); [|by apply runs_ret]. apply (eq_zero_runs _ _ _ _ Hu). intros u' Hu'. apply runs_ret. split; [lia|done]. }
  intros [nz u] (-> & Hu'). destruct (Z.ltb_spec x 0); [apply runs_ret; lia|]. eapply runs_mono; [by apply equal_runs|]. intros r ->. lia.
Qed.

Lemma signed_gt_unsigned_runs s other x b : signed_represents s x -> represents other b -> runs (signed_gt_unsigned s other) (fun r => r = (b <? x)).
Proof.
  intros Hs Hb. pose proof (holds_nonneg _ _ (represents_holds _ _ Hb)). pose proof Hs as [Hu Es]. unfold signed_gt_unsigned.
  eapply (runs_bind _ _ (fun different => different = (x <? 0) || negb (x =? b))).
  { rewrite Es. destruct (Z.ltb_spec x 0); [by apply runs_ret|]. eapply runs_bind; [by apply operator_eq_runs|]. intros [[e u'] v'] (-> & _).
    apply runs_ret. cbn [orb]. lia. }
  intros d ->. destruct ((x <? 0) || negb (x =? b)) eqn:E; [|apply runs_ret; lia].
  eapply runs_bind; [by apply (signed_lt_unsigned_runs s other x b)|]. intros less ->. apply runs_ret. lia.
Qed.

(** ** Texts *)
Lemma base_text_head N s a : text_value N s 0 = inr a -> match s with c :: _ => c <> 45 /\ c <> 43 | [] => a = 0 end.
Proof.
  destruct s as [|c s]; cbn [text_value]; [congruence|]. intros H. split; intros ->; cbn in H; done.
Qed.

(** Printing a signed integer in a base from 2 to 36 and parsing the text gives the integer back, the
    sign included. *)
Theorem signed_text_round_trip N s v :
  2 <= N <= 36 -> signed_represents s v ->
  runs (signed_to_base N s) (fun str => runs (signed_from_base N str) (fun r => exists t, r = inr t /\ signed_represents t v)).
Proof.
  intros HN [Hu Es]. unfold signed_to_base. eapply runs_bind; [by apply to_base_runs|]. intros [str u'] [Hstr _]. apply runs_ret. rewrite Es.
  pose proof (base_text_head N str _ Hstr) as Hhead. unfold signed_from_base.
  assert (Hparse : forall sign : bool, sign = (v <? 0) -> runs (r ← from_base N str;
    Ok (match r with inl e => inl e | inr unsigned_data => inr (signed_of unsigned_data sign) end)) (fun r => exists t, r = inr t /\ signed_represents t v)).
  { intros sign Hsign. unfold from_base. rewrite (proj2 (Z.ltb_ge 36 N)) by lia.
    eapply runs_bind; [apply (from_base_loop_runs N (from_word N) empty_integer str 0); [lia|apply from_word_holds; unfold in_width; lia|apply holds_empty]|].
    intros r Hr. rewrite Hstr in Hr. destruct Hr as (w & -> & Hw). apply runs_ret. eexists. split; [done|]. eapply signed_of_value; [exact Hw|].
    rewrite Hsign. destruct (Z.ltb_spec v 0); lia. }
  destruct (Z.ltb_spec v 0) as [Hneg|Hpos].
  - destruct str as [|c str]; [lia|]. cbn [app]. change (45 =? 45) with true. by apply Hparse.
  - cbn [app]. destruct str as [|c [|c' str]]; [by apply Hparse|by apply Hparse|]. destruct Hhead as [H1 H2].
    rewrite (proj2 (Z.eqb_neq c 45)), (proj2 (Z.eqb_neq c 43)) by done. by apply Hparse.
Qed.

Lemma signed_text_round_trip_witness :
  2 <= 10 <= 36 /\ signed_represents (signed_of_i32 (-42)) (-42)
  /\ runs (signed_to_base 10 (signed_of_i32 (-42))) (fun str => runs (signed_from_base 10 str) (fun r => exists t, r = inr t /\ signed_represents t (-42))).
Proof.
  assert (H : signed_represents (signed_of_i32 (-42)) (-42)) by (by apply signed_of_i32_represents).
  split; [lia|]. split; [exact H|]. apply (signed_text_round_trip 10 _ _); [lia|exact H].
Defined.

(** ** The contract *)
Inductive signed_expression :=
  | SLiteral (sign : bool) (words : list Z)
  | SPlus (left right : signed_expression)
  | SMinus (left right : signed_expression)
  | STimes (left right : signed_expression)
  | SQuotient (left right : signed_expression)
  | SRemainder (left right : signed_expression)
  | SOr (left right : signed_expression)
  | SAnd (left right : signed_expression)
  | SXor (left right : signed_expression)
  | SNot (operand : signed_expression)
  | SNegated (operand : signed_expression)
  | SShiftLeft (operand : signed_expression) (num_bits : nat).

Fixpoint signed_compute (e : signed_expression) : outcome SignedBigInteger :=
  match e with
  | SLiteral sign words => Ok (signed_of (mk_UnsignedBigInteger words false None) sign)
  | SPlus l r => binary signed_plus (signed_compute l) (signed_compute r)
  | SMinus l r => binary signed_minus (signed_compute l) (signed_compute r)
  | STimes l r => binary signed_multiplied_by (signed_compute l) (signed_compute r)
  | SQuotient l r => binary (fun s t => ' (q, _) ← signed_divided_by s t; Ok q) (signed_compute l) (signed_compute r)
  | SRemainder l r => binary (fun s t => ' (_, m) ← signed_divided_by s t; Ok m) (signed_compute l) (signed_compute r)
  | SOr l r => binary signed_bitwise_or (signed_compute l) (signed_compute r)
  | SAnd l r => binary signed_bitwise_and (signed_compute l) (signed_compute r)
  | SXor l r => binary signed_bitwise_xor (signed_compute l) (signed_compute r)
  | SNot e => s ← signed_compute e; signed_bitwise_not s
  | SNegated e => s ← signed_compute e; Ok (negated_value s)
  | SShiftLeft e num_bits => s ← signed_compute e; signed_shift_left s num_bits
  end.

Fixpoint signed_denote (e : signed_expression) : option Z :=
  match e with
  | SLiteral sign words => match denote (Literal words) with Some a => Some (if sign then - a else a) | None => None end
  | SPlus l r => lift (fun a b => Some (a + b)) (signed_denote l) (signed_denote r)
  | SMinus l r => lift (fun a b => Some (a - b)) (signed_denote l) (signed_denote r)
  | STimes l r => lift (fun a b => Some (a * b)) (signed_denote l) (signed_denote r)
  | SQuotient l r => lift (fun a b => if b =? 0 then None else Some (Z.quot a b)) (signed_denote l) (signed_denote r)
  | SRemainder l r => lift (fun a b => if b =? 0 then None else Some (Z.rem a b)) (signed_denote l) (signed_denote r)
  | SOr l r => lift (fun a b => Some (Z.lor a b)) (signed_denote l) (signed_denote r)
  | SAnd l r => lift (fun a b => Some (Z.land a b)) (signed_denote l) (signed_denote r)
  | SXor l r => lift (fun a b => Some (Z.lxor a b)) (signed_denote l) (signed_denote r)
  | SNot e => match signed_denote e with Some a => Some (Z.lnot a) | None => None end
  | SNegated e => match signed_denote e with Some a => Some (- a) | None => None end
  | SShiftLeft e num_bits => match signed_denote e with Some a => Some (a * 2 ^ Z.of_nat num_bits) | None => None end
  end.

Lemma signed_literal_computes sign words :
  computes signed_represents (Ok (signed_of (mk_UnsignedBigInteger words false None) sign))
    (match denote (Literal words) with Some a => Some (if sign then - a else a) | None => None end).
Proof.
  intros v Hv. pose proof (literal_computes words) as H. cbn [denote] in Hv. destruct (forallb _ words); [|done]. injection Hv as <-.
  destruct (H _ eq_refl) as (u & [= <-] & Hu). apply runs_ret. by apply signed_of_represents.
Qed.

Lemma signed_expression_computes e : computes signed_represents (signed_compute e) (signed_denote e).
Proof.
  induction e as [sign words|l Hl r Hr|l Hl r Hr|l Hl r Hr|l Hl r Hr|l Hl r Hr|l Hl r Hr|l Hl r Hr|l Hl r Hr|e He|e He|e He n];
    cbn [signed_compute signed_denote].
  - apply signed_literal_computes.
  - apply binary_computes; [done..|]. intros s t x y z Hs Ht [= <-]. by apply signed_plus_runs.
  - apply binary_computes; [done..|]. intros s t x y z Hs Ht [= <-]. by apply signed_minus_runs.
  - apply binary_computes; [done..|]. intros s t x y z Hs Ht [= <-]. by apply signed_multiplied_by_runs.
  - apply binary_computes; [done..|]. intros s t x y z Hs Ht Hz. destruct (Z.eqb_spec y 0); [done|]. injection Hz as <-.
    eapply runs_bind; [by apply (signed_divided_by_runs s t x y)|]. intros [q m] [Hq _]. by apply runs_ret.
  - apply binary_computes; [done..|]. intros s t x y z Hs Ht Hz. destruct (Z.eqb_spec y 0); [done|]. injection Hz as <-.
    eapply runs_bind; [by apply (signed_divided_by_runs s t x y)|]. intros [q m] [_ Hm]. by apply runs_ret.
  - apply binary_computes; [done..|]. intros s t x y z Hs Ht [= <-]. by apply signed_bitwise_or_runs.
  - apply binary_computes; [done..|]. intros s t x y z Hs Ht [= <-]. by apply signed_bitwise_and_runs.
  - apply binary_computes; [done..|]. intros s t x y z Hs Ht [= <-]. by apply signed_bitwise_xor_runs.
  - apply (unary_computes _ _ (fun a => Some (Z.lnot a)) _ _ He). intros s x z Hs [= <-]. by apply signed_bitwise_not_runs.
  - apply (unary_computes _ (fun s => Ok (negated_value s)) (fun a => Some (- a)) _ _ He). intros s x z Hs [= <-]. by apply runs_ret, negate_represents.
  - apply (unary_computes _ _ (fun a => Some (a * 2 ^ Z.of_nat n)) _ _ He). intros s x z Hs [= <-]. by apply signed_shift_left_runs.
Qed.



(** The comparisons of signed integers, with each other and with unsigned ones, are those of the integers;
    zero has one representation up to leading zero words. *)
Theorem signed_comparisons_exact s t other x y b :
  signed_represents s x -> signed_represents t y -> represents other b ->
  runs (signed_eq s t) (fun r => r = (x =? y)) /\ runs (signed_lt s t) (fun r => r = (x <? y))
  /\ runs (signed_le s t) (fun r => r = (x <=? y)) /\ runs (signed_gt s t) (fun r => r = (y <? x))
  /\ runs (signed_ge s t) (fun r => r = (y <=? x)) /\ runs (signed_eq_unsigned s other) (fun r => r = (x =? b))
  /\ runs (signed_lt_unsigned s other) (fun r => r = (x <? b)) /\ runs (signed_gt_unsigned s other) (fun r => r = (b <? x)).
Proof.
  intros Hs Ht Hb. pose proof (signed_eq_runs s t x y Hs Ht) as He. pose proof (signed_lt_runs s t x y Hs Ht) as Hl.
  split; [done|]. split; [done|]. split; [|split; [|split]].
  - unfold signed_le. eapply runs_bind; [exact Hl|]. intros less ->. destruct (Z.ltb_spec x y); [apply runs_ret; lia|].
    eapply runs_mono; [exact He|]. intros r ->. lia.
  - unfold signed_gt. eapply runs_bind; [exact He|]. intros equal ->. destruct (Z.eqb_spec x y); [apply runs_ret; lia|].
    eapply runs_bind; [exact Hl|]. intros less ->. apply runs_ret. lia.
  - unfold signed_ge. eapply runs_bind; [exact Hl|]. intros less ->. apply runs_ret. lia.
  - split; [by apply signed_eq_unsigned_runs|]. split; [by apply signed_lt_unsigned_runs|by apply signed_gt_unsigned_runs].
Qed.

Lemma signed_comparisons_exact_witness :
  signed_represents (signed_of_i32 (-3)) (-3) /\ signed_represents (signed_of_i32 2) 2 /\ represents (from_word 2) 2
  /\ runs (signed_lt (signed_of_i32 (-3)) (signed_of_i32 2)) (fun r => r = true).
Proof.
  assert (H1 : signed_represents (signed_of_i32 (-3)) (-3)) by (by apply signed_of_i32_represents).
  assert (H2 : signed_represents (signed_of_i32 2) 2) by (by apply signed_of_i32_represents).
  assert (H3 : represents (from_word 2) 2) by (by apply from_word_holds).
  split; [exact H1|]. split; [exact H2|]. split; [exact H3|]. apply (signed_comparisons_exact _ _ _ _ _ _ H1 H2 H3).
Defined.

(** [minus] with an unsigned argument subtracts it from an integer that is not negative, and doubles a
    negative one, whatever the argument is; [set_to] of a negative 32-bit integer sets the magnitude to the
    two's complement of it. *)
Theorem signed_minus_unsigned_doubles s other x b i :
  signed_represents s x -> represents other b -> - 2 ^ 31 <= i < 0 ->
  runs (signed_minus_unsigned s other) (fun r => signed_represents r (if x <? 0 then 2 * x else x - b))
  /\ signed_represents (signed_set_to_i32 s i) (- (2 ^ 32 + i)).
Proof.
  intros Hs Hb Hi. split; [by apply minus_unsigned_runs|]. unfold signed_set_to_i32, wrap.
  replace (i mod 2 ^ 32) with (2 ^ 32 + i).
  - split; cbn [m_unsigned_data m_sign]; [|lia]. eapply represents_eq; [apply set_to_word_holds; unfold in_width; lia|lia].
  - rewrite <- (Z.mod_small (2 ^ 32 + i) (2 ^ 32)) by lia. rewrite Z.add_comm, <- (Z.mul_1_l (2 ^ 32)) at 1. by rewrite Z.mod_add by lia.
Qed.

Lemma signed_minus_unsigned_doubles_witness :
  signed_represents (signed_of_i32 (-3)) (-3) /\ represents (from_word 5) 5
  /\ runs (signed_minus_unsigned (signed_of_i32 (-3)) (from_word 5)) (fun r => signed_represents r (-6))
  /\ signed_represents (signed_set_to_i32 (signed_of_i32 (-3)) (-1)) (-4294967295).
Proof.
  assert (H1 : signed_represents (signed_of_i32 (-3)) (-3)) by (by apply signed_of_i32_represents).
  assert (H2 : represents (from_word 5) 5) by (by apply from_word_holds).
  split; [exact H1|]. split; [exact H2|]. apply (signed_minus_unsigned_doubles _ _ _ _ (-1) H1 H2). lia.
Defined.
