(* ===== verification/NumberTheory.v ===== *)
(** * Number theory on big integers

    [Mod], [GCD], [LCM], [ModularInverse] and the classic modular power
    (LibCrypto/NumberTheory/ModularFunctions.cpp, LibCrypto/BigInt/Algorithms/GCD.cpp,
    ModularInverse.cpp and ModularPower.cpp).  Loops are bounded by the number of bits of an
    operand.  The theorems: [GCD] terminates with the greatest common divisor; [LCM] is the least
    common multiple when the second number has no more words than the first, and is wrong for two
    numbers for which a stale word of a quotient is read; the modular power terminates with
    the power; [ModularInverse] is wrong for a number whose trimmed length is read from a
    stale cache. *)
From S2P Require Import Prelude Congruence BigIntBase UnsignedBigInteger BigIntDivision.

Local Open Scope Z_scope.
Local Notation word_ok := (in_width 32).

Definition Mod (a b : UnsignedBigInteger) : outcome (UnsignedBigInteger * UnsignedBigInteger) :=
  let result := set_to empty_integer a in
  ' (result, b, _, remainder) ← divided_by result b;
  Ok (set_to result remainder, b).

(** ** Greatest common divisor *)

(** The result, and the scratch quotient and remainder that [LCM] goes on to use *)
Fixpoint destructive_GCD_without_allocation (fuel : nat) (temp_a temp_b temp_quotient temp_remainder output : UnsignedBigInteger)
    : outcome (UnsignedBigInteger * UnsignedBigInteger * UnsignedBigInteger) :=
  ' (zero, temp_a, _) ← operator_eq temp_a (from_word 0);
  if zero : bool then Ok (set_to output temp_b, temp_quotient, temp_remainder)
  else
    match fuel with
    | O => Panic
    | S fuel =>
        ' (temp_b, temp_a, temp_quotient, temp_remainder) ←
          divide_without_allocation temp_b temp_a temp_quotient temp_remainder;
        let temp_b := set_to temp_b temp_remainder in
        ' (zero, temp_b, _) ← operator_eq temp_b (from_word 0);
        if zero : bool then Ok (set_to output temp_a, temp_quotient, temp_remainder)
        else
          ' (temp_a, temp_b, temp_quotient, temp_remainder) ←
            divide_without_allocation temp_a temp_b temp_quotient temp_remainder;
          let temp_a := set_to temp_a temp_remainder in
          destructive_GCD_without_allocation fuel temp_a temp_b temp_quotient temp_remainder output
    end.

Definition GCD (a b : UnsignedBigInteger) : outcome UnsignedBigInteger :=
  ' (output, _, _) ← destructive_GCD_without_allocation (32 * length (m_words a)) a b empty_integer empty_integer empty_integer;
  Ok output.

(** The result and the two operands *)
Definition LCM (a b : UnsignedBigInteger) : outcome (UnsignedBigInteger * UnsignedBigInteger * UnsignedBigInteger) :=
  let output := from_word 0 in
  ' (gcd_output, temp_quotient, temp_remainder) ←
    destructive_GCD_without_allocation (32 * length (m_words a)) a b empty_integer empty_integer empty_integer;
  ' (zero, gcd_output, _) ← operator_eq gcd_output (from_word 0);
  if zero : bool then Ok (output, a, b)
  else
    ' (a, gcd_output, temp_quotient, temp_remainder) ← divide_without_allocation a gcd_output temp_quotient temp_remainder;
    output ← multiply_without_allocation temp_quotient b output;
    Ok (output, a, b).

(** ** Modular power *)

(** One step with the exponent [ep]: the result, the base, the exponent and the scratch integers *)
Definition modular_power_step (ep base m temp_quotient temp_remainder exp : UnsignedBigInteger)
    : outcome (UnsignedBigInteger * UnsignedBigInteger * UnsignedBigInteger * UnsignedBigInteger * UnsignedBigInteger * UnsignedBigInteger) :=
  word ← at_index (m_words ep) 0;
  ' (exp, m, temp_quotient, temp_remainder) ←
    (if word mod 2 =? 1 then
       temp_multiply ← multiply_without_allocation exp base empty_integer;
       ' (_, m, temp_quotient, temp_remainder) ← divide_without_allocation temp_multiply m temp_quotient temp_remainder;
       Ok (set_to exp temp_remainder, m, temp_quotient, temp_remainder)
     else Ok (exp, m, temp_quotient, temp_remainder));
  shifted ← big_shift_right ep 1;
  let ep := set_to ep shifted in
  temp_multiply ← multiply_without_allocation base base empty_integer;
  ' (_, m, temp_quotient, temp_remainder) ← divide_without_allocation temp_multiply m temp_quotient temp_remainder;
  let base := set_to base temp_remainder in
  Ok (clamp_to_trimmed_length ep, clamp_to_trimmed_length base, m, temp_quotient, temp_remainder, clamp_to_trimmed_length exp).

(** The result and the modulus *)
Fixpoint modular_power_loop (fuel : nat) (ep base m temp_quotient temp_remainder exp : UnsignedBigInteger)
    : outcome (UnsignedBigInteger * UnsignedBigInteger) :=
  ' (less, ep, _) ← operator_lt ep (from_word 1);
  if less : bool then Ok (exp, m)
  else
    match fuel with
    | O => Panic
    | S fuel =>
        ' (ep, base, m, temp_quotient, temp_remainder, exp) ← modular_power_step ep base m temp_quotient temp_remainder exp;
        modular_power_loop fuel ep base m temp_quotient temp_remainder exp
    end.

Definition destructive_modular_power_without_allocation (ep base m exp : UnsignedBigInteger)
    : outcome (UnsignedBigInteger * UnsignedBigInteger) :=
  modular_power_loop (32 * length (m_words ep)) ep base m empty_integer empty_integer (set_to_word exp 1).

(** ** Modular inverse *)
Definition halve (u : UnsignedBigInteger) : outcome UnsignedBigInteger :=
  ' (u, temp_quotient, _) ← divide_u16_without_allocation u 2 empty_integer empty_integer;
  Ok (set_to u temp_quotient).

(** [while (!even.is_odd()) { if (odd.is_odd()) odd += b; even /= 2; odd /= 2; }] *)
Fixpoint halve_while_even (fuel : nat) (even odd b : UnsignedBigInteger)
    : outcome (UnsignedBigInteger * UnsignedBigInteger * UnsignedBigInteger) :=
  if is_odd even then Ok (even, odd, b)
  else
    match fuel with
    | O => Panic
    | S fuel =>
        ' (odd, b) ← (if is_odd odd then add_into_accumulator_without_allocation odd b else Ok (odd, b));
        even ← halve even;
        odd ← halve odd;
        halve_while_even fuel even odd b
    end.

(** [while (v < u) ...]: [u], [v], [d], [x] and [b] *)
Fixpoint reduce_u (fuel : nat) (u v d x b : UnsignedBigInteger)
    : outcome (UnsignedBigInteger * UnsignedBigInteger * UnsignedBigInteger * UnsignedBigInteger * UnsignedBigInteger) :=
  ' (less, v, u) ← operator_lt v u;
  if negb less then Ok (u, v, d, x, b)
  else
    match fuel with
    | O => Panic
    | S fuel' =>
        ' (u, v, temp_minus) ← subtract_without_allocation u v empty_integer;
        let u := set_to u temp_minus in
        ' (d, x) ← add_into_accumulator_without_allocation d x;
        ' (u, d, b) ← halve_while_even fuel u d b;
        reduce_u fuel' u v d x b
    end.

Fixpoint modular_inverse_loop (fuel : nat) (u v d x b : UnsignedBigInteger)
    : outcome (UnsignedBigInteger * UnsignedBigInteger) :=
  ' (one, v, _) ← operator_eq v (from_word 1);
  if one : bool then Ok (x, b)
  else
    match fuel with
    | O => Panic
    | S fuel' =>
        ' (u, v, d, x, b) ← reduce_u fuel u v d x b;
        ' (v, u, temp_minus) ← subtract_without_allocation v u empty_integer;
        let v := set_to v temp_minus in
        ' (x, d) ← add_into_accumulator_without_allocation x d;
        ' (v, x, b) ← halve_while_even fuel v x b;
        modular_inverse_loop fuel' u v d x b
    end.

Definition modular_inverse_without_allocation (fuel : nat) (a b : UnsignedBigInteger)
    : outcome (UnsignedBigInteger * UnsignedBigInteger * UnsignedBigInteger) :=
  let temp_u := set_to empty_integer a in
  ' (temp_u, b) ← (if is_odd a then Ok (temp_u, b) else add_into_accumulator_without_allocation temp_u b);
  let temp_v := set_to empty_integer b in
  let temp_x := set_to_word empty_integer 0 in
  ' (b, _, temp_d) ← subtract_without_allocation b (from_word 1) empty_integer;
  ' (temp_x, b) ← modular_inverse_loop fuel temp_u temp_v temp_d temp_x b;
  ' (_, b, _, result) ← divide_without_allocation temp_x b empty_integer empty_integer;
  Ok (result, a, b).

Definition ModularInverse (fuel : nat) (a b : UnsignedBigInteger) : outcome UnsignedBigInteger :=
  ' (one, b, _) ← operator_eq b (from_word 1);
  if one : bool then Ok (from_word 1)
  else
    ' (result, _, _) ← modular_inverse_without_allocation fuel a b;
    Ok result.

Lemma trimmed_le l1 l2 :
  words_ok 32 l1 -> words_ok 32 l2 -> value 32 l1 <= value 32 l2 -> (trimmed l1 <= trimmed l2)%nat.
Proof.
  intros H1 H2 Hle. destruct (Nat.le_gt_cases (trimmed l1) (trimmed l2)) as [|Hlt]; [done|].
  pose proof (trimmed_lt l2 l1 H2 H1 Hlt). lia.
Qed.

Lemma represents_trimmed_le u v a b : holds u a -> holds v b -> a <= b -> (trimmed (m_words u) <= trimmed (m_words v))%nat.
Proof. intros (H1 & <- & _) (H2 & <- & _). by apply trimmed_le. Qed.

(** The remainder of a division as the next operand *)
Lemma division_remainder num den q r q' r' a b u :
  division_result num den q r q' r' a b -> Forall (eq 0) (drop (trimmed (m_words den)) (m_words r)) ->
  represents (set_to u r') (a mod b) /\ holds r' (a mod b).
Proof.
  intros (Hw & Hv & Hz & _) H0. assert (H : holds r' (a mod b)) by (eapply writable_holds; [done|exact Hv|by apply Hz]).
  split; [by apply holds_set_to|done].
Qed.

Lemma compare_word u a x :
  represents u a -> word_ok x -> runs (operator_eq u (from_word x)) (fun '(e, u', _) => e = (a =? x) /\ refreshed u u').
Proof.
  intros Hu Hx. eapply runs_mono; [apply operator_eq_runs; [exact Hu|by apply from_word_holds]|].
  intros [[e u'] z] (H1 & H2 & _). done.
Qed.

Lemma word_small x : 0 <= x < 2 -> word_ok x.
Proof. unfold in_width. lia. Qed.

(** ** Mod *)
Lemma Mod_runs a b A B :
  represents a A -> represents b B -> B <> 0 ->
  runs (Mod a b) (fun '(r, b') => represents r (A mod B) /\ refreshed b b').
Proof.
  intros Ha Hb HB. unfold Mod. eapply runs_bind; [apply (divided_by_runs _ _ A B); [apply holds_set_to, Ha|done|done]|].
  intros [[[u b'] q] r] (_ & Hb' & _ & Hr). apply runs_ret. split; [|done]. apply holds_set_to, Hr.
Qed.

(** ** Greatest common divisor *)
Lemma gcd_step_halves A B1 : 0 < B1 < A -> 2 * (A mod B1) < A.
Proof.
  intros H. pose proof (Z.div_mod A B1 ltac:(lia)) as E. pose proof (Z.mod_pos_bound A B1 ltac:(lia)) as M.
  assert (1 <= A / B1) by (apply Z.div_le_lower_bound; lia). nia.
Qed.

Lemma destructive_GCD_runs fuel ta tb q r out A B K :
  represents ta A -> represents tb B -> A < 2 ^ Z.of_nat fuel -> writable q -> writable r ->
  Forall (eq 0) (drop (trimmed (m_words ta)) (m_words r)) ->
  (trimmed (m_words ta) <= K)%nat -> (trimmed (m_words tb) <= K)%nat -> Forall (eq 0) (drop K (m_words q)) ->
  runs (destructive_GCD_without_allocation fuel ta tb q r out) (fun '(g, q', r') =>
    represents g (Z.gcd A B) /\ writable q' /\ writable r' /\ Forall (eq 0) (drop K (m_words q'))).
Proof.
  revert ta tb q r A B. induction fuel as [|fuel IH]; intros ta tb q r A B Ha Hb HA Hq Hr Hrz HKa HKb HKq;
    cbn [destructive_GCD_without_allocation];
    (eapply runs_bind; [apply compare_word; [exact Ha|by apply word_small]|]); intros [[e ta1] z] (-> & Ra);
    pose proof (holds_nonneg _ _ (represents_holds _ _ Ha)) as HA0; pose proof (holds_nonneg _ _ (represents_holds _ _ Hb)) as HB0;
    destruct (Z.eqb_spec A 0) as [-> |HAne];
    try (apply runs_ret; rewrite Z.gcd_0_l, Z.abs_eq by done; split; [apply holds_set_to; by apply represents_holds|done]).
  { cbn in HA. lia. }
  assert (Ha1 : represents ta1 A) by (eapply refreshed_represents; [by apply represents_holds|done]).
  assert (Wa1 : m_words ta1 = m_words ta) by apply Ra.
  eapply runs_bind; [apply (divide_without_allocation_runs tb ta1 q r B A); done|].
  intros [[[tb1 ta2] q1] r1] (Rb & Ra2 & HR). rewrite <- Wa1 in Hrz.
  destruct (division_remainder _ _ _ _ _ _ _ _ tb1 HR Hrz) as [Hb1 Hr1].
  destruct HR as (Hwr1 & _ & _ & _ & Hwq1 & _ & _ & HKq1). specialize (HKq1 K HKb HKq).
  assert (Ha2 : represents ta2 A) by (eapply refreshed_represents; [by apply represents_holds|done]).
  pose proof (Z.mod_pos_bound B A ltac:(lia)) as Hmod.
  eapply runs_bind; [apply compare_word; [exact Hb1|by apply word_small]|]. intros [[e tb2] z2] (-> & Rb2).
  assert (Hgcd1 : Z.gcd A B = Z.gcd A (B mod A)) by (rewrite (Z.gcd_comm A (B mod A)), Z.gcd_mod by lia; done).
  destruct (Z.eqb_spec (B mod A) 0) as [E|Hne].
  { apply runs_ret. rewrite Hgcd1, E, Z.gcd_0_r, Z.abs_eq by done. split; [apply holds_set_to; by apply represents_holds|done]. }
  assert (Hb2 : represents tb2 (B mod A)) by (eapply refreshed_represents; [by apply represents_holds|done]).
  assert (Wb2 : m_words tb2 = m_words r1) by apply Rb2.
  assert (HKa2 : (trimmed (m_words ta2) <= K)%nat).
  { assert (m_words ta2 = m_words ta) as -> by (destruct Ra2 as (-> & _); done). done. }
  eapply runs_bind; [apply (divide_without_allocation_runs ta2 tb2 q1 r1 A (B mod A)); done|].
  intros [[[ta3 tb3] q2] r2] (Ra3 & Rb3 & HR2).
  assert (Hz2 : Forall (eq 0) (drop (trimmed (m_words tb2)) (m_words r1))) by (rewrite Wb2; apply trimmed_spec).
  destruct (division_remainder _ _ _ _ _ _ _ _ ta3 HR2 Hz2) as [Ha3 Hr2].
  destruct HR2 as (Hwr2 & _ & _ & _ & Hwq2 & _ & _ & HKq2). specialize (HKq2 K HKa2 HKq1).
  assert (Hb3 : represents tb3 (B mod A)) by (eapply refreshed_represents; [by apply represents_holds|done]).
  pose proof (gcd_step_halves A (B mod A) ltac:(lia)) as Hhalf.
  assert (Hgcd2 : Z.gcd A B = Z.gcd (A mod (B mod A)) (B mod A)) by (rewrite Hgcd1, Z.gcd_mod by lia; apply Z.gcd_comm).
  pose proof (Z.mod_pos_bound A (B mod A) ltac:(lia)) as Hmod2.
  rewrite Hgcd2. apply IH; try done.
  - replace (Z.of_nat (S fuel)) with (Z.of_nat fuel + 1) in HA by lia. rewrite Z.pow_add_r in HA by lia. lia.
  - apply trimmed_spec.
  - etransitivity; [|exact HKa2]. apply (represents_trimmed_le _ _ (A mod (B mod A)) A); [apply Ha3|apply Ha2|lia].
  - etransitivity; [|exact HKa2]. apply (represents_trimmed_le _ _ (B mod A) A); [apply Hb3|apply Ha2|lia].
Qed.

Lemma bits_bound u a : holds u a -> a < 2 ^ Z.of_nat (32 * length (m_words u)).
Proof.
  intros (Hok & <- & _). pose proof (value_bound 32 word_width _ Hok) as H. unfold weight in H.
  replace (Z.of_nat (32 * length (m_words u))) with (32 * Z.of_nat (length (m_words u))) by lia. lia.
Qed.

Lemma writable_empty : writable empty_integer.
Proof. split; [constructor|done]. Qed.

Lemma GCD_runs a b A B :
  represents a A -> represents b B -> runs (GCD a b) (fun g => represents g (Z.gcd A B)).
Proof.
  intros Ha Hb. unfold GCD. eapply runs_bind.
  - apply (destructive_GCD_runs _ a b _ _ _ A B (Nat.max (trimmed (m_words a)) (trimmed (m_words b))) Ha Hb);
      [apply bits_bound, Ha|apply writable_empty|apply writable_empty|cbn; rewrite drop_nil; constructor|lia|lia|cbn; rewrite drop_nil; constructor].
  - intros [[g q] r] (Hg & _). by apply runs_ret.
Qed.

Lemma small_word_represents x : 0 <= x < 2 ^ 32 -> represents (from_word x) x.
Proof. apply from_word_holds. Qed.

(** ** Least common multiple *)
Lemma lcm_quotient A B : 0 <= A -> 0 <= B -> Z.gcd A B <> 0 -> A / Z.gcd A B * B = Z.lcm A B.
Proof.
  intros HA HB Hg. unfold Z.lcm. pose proof (Z.gcd_nonneg A B).
  destruct (Z.gcd_divide_l A B) as [k Hk]. destruct (Z.gcd_divide_r A B) as [l Hl]. set (g := Z.gcd A B) in *.
  rewrite Hk, Hl, !Z.div_mul by lia. assert (0 <= k) by nia. assert (0 <= l) by nia.
  rewrite Z.abs_eq; nia.
Qed.

Lemma LCM_runs a b A B :
  represents a A -> represents b B -> (trimmed (m_words b) <= trimmed (m_words a))%nat ->
  runs (LCM a b) (fun '(l, a', b') => represents l (Z.lcm A B) /\ refreshed a a' /\ refreshed b b').
Proof.
  intros Ha Hb Hlen. unfold LCM. pose proof (holds_nonneg _ _ (represents_holds _ _ Ha)) as HA0.
  pose proof (holds_nonneg _ _ (represents_holds _ _ Hb)) as HB0. eapply runs_bind.
  - apply (destructive_GCD_runs _ a b _ _ _ A B (trimmed (m_words a)) Ha Hb);
      [apply bits_bound, Ha|apply writable_empty|apply writable_empty|cbn; rewrite drop_nil; constructor|lia|lia|cbn; rewrite drop_nil; constructor].
  - intros [[g q] r] (Hg & Hq & Hr & HKq). eapply runs_bind; [apply compare_word; [exact Hg|by apply word_small]|].
    intros [[e g'] z] (-> & Rg). destruct (Z.eqb_spec (Z.gcd A B) 0) as [E|Hne].
    + apply runs_ret. apply Z.gcd_eq_0 in E as [-> ->]. split; [by apply small_word_represents|]. split; [apply refreshed_refl, Ha|apply refreshed_refl, Hb].
    + assert (Hg' : represents g' (Z.gcd A B)) by (eapply refreshed_represents; [by apply represents_holds|done]).
      eapply runs_bind; [apply (divide_without_allocation_runs a g' q r A (Z.gcd A B)); done|].
      intros [[[a' g2] q'] r'] (Ra & _ & (_ & _ & _ & _ & _ & Hq' & _)).
      eapply runs_bind; [apply multiply_without_allocation_runs; [by apply Hq'|by apply represents_holds]|].
      intros l Hl. apply runs_ret. cbv beta in Hl. rewrite lcm_quotient in Hl by done. split; [done|]. split; [done|]. apply refreshed_refl, Hb.
Qed.

(** C30: [GCD] terminates and returns the greatest common divisor of any two integers, zero included;
    [LCM a b] terminates and returns the least common multiple when [b] has no more words than [a], leading
    zero words aside. *)
Theorem gcd_lcm_exact a b A B :
  represents a A -> represents b B ->
  runs (GCD a b) (fun g => represents g (Z.gcd A B))
  /\ ((trimmed (m_words b) <= trimmed (m_words a))%nat -> runs (LCM a b) (fun '(l, a', b') =>
       represents l (Z.lcm A B) /\ refreshed a a' /\ refreshed b b')).
Proof. intros Ha Hb. split; [by apply GCD_runs|by apply LCM_runs]. Qed.

Lemma gcd_lcm_exact_witness :
  represents (from_u64 8589934592) 8589934592 /\ represents (from_word 6) 6
  /\ runs (GCD (from_u64 8589934592) (from_word 6)) (fun g => represents g 2).
Proof.
  assert (Ha : represents (from_u64 8589934592) 8589934592).
  { split; [|done]. split; [|split; reflexivity]. apply Forall_cons_2; [|apply Forall_singleton]; by vm_compute. }
  assert (Hb : represents (from_word 6) 6) by (by apply small_word_represents).
  split; [exact Ha|]. split; [exact Hb|]. apply (gcd_lcm_exact _ _ _ _ Ha Hb).
Defined.

(** [LCM] is wrong for 2^33 and 2^129 + 2: the quotient of the first Euclidean step has four words; the last division
    writes two words of it and the other two are multiplied as well. *)
Theorem lcm_stale_quotient :
  let a := mk_UnsignedBigInteger [0; 2] false None in
  let b := mk_UnsignedBigInteger [2; 0; 0; 0; 2] false None in
  represents a (2 ^ 33) /\ represents b (2 ^ 129 + 2)
  /\ runs (LCM a b) (fun '(l, _, _) => exists v, represents l v /\ v <> Z.lcm (2 ^ 33) (2 ^ 129 + 2)).
Proof.
  cbv zeta. split; [|split].
  - split; [|done]. split; [|split; reflexivity]. apply Forall_cons_2; [|apply Forall_singleton]; by vm_compute.
  - split; [|done]. split; [|split; reflexivity]. repeat (apply Forall_cons_2; [by vm_compute|]). constructor.
  - eexists. split; [vm_compute; reflexivity|]. eexists. split.
    + split; [|exact I]. split; [|split; reflexivity]. repeat (apply Forall_cons_2; [by vm_compute|]). constructor.
    + by vm_compute.
Qed.

(** [ModularInverse] of 2 modulo 3 returns 0, which is no inverse: the trimmed length of the accumulator, cached when it
    was zero, is not reset by additions into it, and the halving that follows drops its words. *)
Theorem modular_inverse_stale_length :
  runs (ModularInverse 8 (from_word 2) (from_word 3)) (fun r => represents r 0) /\ (2 * 0) mod 3 <> 1.
Proof. split; [|done]. eexists. split; [vm_compute; reflexivity|]. split; [|done]. split; [constructor|done]. Qed.

(** ** Modular power *)
Lemma clamp_represents u v : represents u v -> represents (clamp_to_trimmed_length u) v.
Proof.
  intros [(Hok & Hv & Hi) Hc]. unfold clamp_to_trimmed_length. destruct (trimmed_length_spec u Hc) as (u' & -> & (W & I & C) & Hcache).
  rewrite W. destruct (Nat.ltb_spec (trimmed (m_words u)) (length (m_words u))) as [Hlt|Hge].
  - unfold resize. replace (trimmed (m_words u) - length (m_words u))%nat with 0%nat by lia. cbn [replicate]. rewrite app_nil_r.
    assert (Hok' : words_ok 32 (take (trimmed (m_words u)) (m_words u))) by (by apply words_ok_take).
    split; [split; [done|]|].
    + cbn. rewrite <- trimmed_value, Hv, I, Hi. done.
    + unfold cache_ok, with_words. cbn [m_cached_trimmed_length m_words]. rewrite Hcache. apply trimmed_unique; [done|done|apply trimmed_value].
  - split; [split; [by rewrite W|]|done]. rewrite W, I. done.
Qed.

Lemma low_word_parity u a x : holds u a -> m_words u !! 0%nat = Some x -> x mod 2 = a mod 2.
Proof.
  intros (_ & <- & _) Hx. destruct (m_words u) as [|y l]; [done|]. injection Hx as ->. cbn [value].
  replace (2 ^ 32) with (2 * 2 ^ 31) by lia. rewrite <- Z.mul_assoc, (Z.mul_comm 2), Z.mod_add by lia. done.
Qed.

Lemma modular_power_step_runs ep base m q r exp E B M X :
  represents ep E -> 1 <= E -> represents base B -> represents m M -> M <> 0 -> represents exp X ->
  writable q -> writable r -> Forall (eq 0) (drop (trimmed (m_words m)) (m_words r)) ->
  runs (modular_power_step ep base m q r exp) (fun '(ep', base', m', q', r', exp') =>
    represents ep' (E / 2) /\ represents base' ((B * B) mod M) /\ refreshed m m'
    /\ represents exp' (if E mod 2 =? 1 then (X * B) mod M else X)
    /\ writable q' /\ writable r' /\ Forall (eq 0) (drop (trimmed (m_words m')) (m_words r'))).
Proof.
  intros HE HE1 HB HM HM0 HX Hq Hr Hrz. unfold modular_power_step.
  assert (Hne : m_words ep <> []).
  { intros En. destruct HE as [(_ & Hv & _) _]. rewrite En in Hv. cbn in Hv. lia. }
  destruct (m_words ep) as [|x l] eqn:Eep; [done|]. change (at_index (x :: l) 0) with (Ok x). ret.
  rewrite (low_word_parity ep E x) by (apply HE || by rewrite Eep).
  eapply (runs_bind _ _ (fun '(exp1, m1, q1, r1) => represents exp1 (if E mod 2 =? 1 then (X * B) mod M else X) /\ refreshed m m1
    /\ writable q1 /\ writable r1 /\ Forall (eq 0) (drop (trimmed (m_words m)) (m_words r1)))).
  { destruct (E mod 2 =? 1).
    - eapply runs_bind; [apply multiply_without_allocation_runs; apply represents_holds; eassumption|]. intros t Ht.
      eapply runs_bind; [apply (divide_without_allocation_runs t m q r _ M Ht); done|]. intros [[[t' m1] q1] r1] (_ & Rm & HR).
      destruct (division_remainder _ _ _ _ _ _ _ _ exp HR Hrz) as [H1 _]. destruct HR as (Hw & _ & Hz & _ & Hwq & _). apply runs_ret.
      split; [done|]. split; [done|]. split; [done|]. split; [done|by apply Hz].
    - apply runs_ret. split; [done|]. split; [apply refreshed_refl, HM|done]. }
  intros [[[exp1 m1] q1] r1] (Hexp & Rm & Hq1 & Hr1 & Hz1).
  assert (Hm1 : represents m1 M) by (eapply refreshed_represents; [by apply represents_holds|done]).
  assert (Wm : m_words m1 = m_words m) by apply Rm. rewrite <- Wm in Hz1.
  eapply runs_bind; [apply (shift_right_without_allocation_runs ep 1 empty_integer E); [by apply represents_holds|lia|by rewrite Eep|done]|].
  intros sh (Hsh & _ & _).
  eapply runs_bind; [apply multiply_without_allocation_runs; apply represents_holds; exact HB|]. intros t Ht.
  eapply runs_bind; [apply (divide_without_allocation_runs t m1 q1 r1 _ M Ht); done|]. intros [[[t' m2] q2] r2] (_ & Rm2 & HR).
  destruct (division_remainder _ _ _ _ _ _ _ _ base HR Hz1) as [H1 _]. destruct HR as (Hw & _ & Hz & _ & Hwq & _). apply runs_ret.
  split; [by apply clamp_represents, holds_set_to|]. split; [by apply clamp_represents|].
  split; [by eapply refreshed_trans|]. split; [by apply clamp_represents|]. split; [done|]. split; [done|].
  destruct Rm2 as (W2 & _). rewrite W2. by apply Hz.
Qed.

Lemma power_step X B E M :
  1 <= E -> (if E mod 2 =? 1 then (X * B) mod M else X) * ((B * B) mod M) ^ (E / 2) == X * B ^ E [mod M].
Proof.
  intros HE. pose proof (Z.div_mod E 2 ltac:(lia)) as Hdm. assert (0 <= E / 2) by (apply Z.div_pos; lia).
  assert (Hp : (B * B) ^ (E / 2) = B ^ (2 * (E / 2))) by (rewrite Z.pow_mul_r by lia; f_equal; ring).
  destruct (Z.eqb_spec (E mod 2) 1) as [Eo|Ee]; rewrite !congr_mod, Hp; apply eq_congr.
  - replace (B ^ E) with (B ^ (2 * (E / 2) + 1)) by (f_equal; lia). rewrite Z.pow_add_r, Z.pow_1_r by lia. ring.
  - pose proof (Z.mod_pos_bound E 2 ltac:(lia)). replace (2 * (E / 2)) with E by lia. done.
Qed.

Lemma modular_power_loop_runs fuel ep base m q r exp E B M X :
  represents ep E -> E < 2 ^ Z.of_nat fuel -> represents base B -> represents m M -> M <> 0 -> represents exp X -> 0 <= X < M ->
  writable q -> writable r -> Forall (eq 0) (drop (trimmed (m_words m)) (m_words r)) ->
  runs (modular_power_loop fuel ep base m q r exp) (fun '(exp', m') => represents exp' ((X * B ^ E) mod M) /\ refreshed m m').
Proof.
  revert ep base m q r exp E B X. induction fuel as [|fuel IH]; intros ep base m q r exp E B X HE HEf HB HM HM0 HX HXM Hq Hr Hz;
    cbn [modular_power_loop]; pose proof (holds_nonneg _ _ (represents_holds _ _ HE)) as HE0;
    (eapply runs_bind; [apply operator_lt_runs; [exact HE|by apply (small_word_represents 1)]|]); intros [[e ep1] z] (-> & Rep & _);
    destruct (Z.ltb_spec E 1) as [Hlt|Hge];
    try (apply runs_ret; assert (E = 0) as -> by lia; rewrite Z.pow_0_r, Z.mul_1_r, Z.mod_small by done;
         split; [done|apply refreshed_refl, HM]).
  { cbn in HEf. lia. }
  assert (HE1 : represents ep1 E) by (eapply refreshed_represents; [by apply represents_holds|done]).
  eapply runs_bind; [by apply (modular_power_step_runs ep1 base m q r exp E B M X)|].
  intros [[[[[ep2 base2] m2] q2] r2] exp2] (HE2 & HB2 & Rm & HX2 & Hq2 & Hr2 & Hz2).
  assert (HM2 : represents m2 M) by (eapply refreshed_represents; [by apply represents_holds|done]).
  pose proof (holds_nonneg _ _ (represents_holds _ _ HM)) as HMnn.
  eapply runs_mono; [apply (IH _ _ _ _ _ _ (E / 2) ((B * B) mod M) (if E mod 2 =? 1 then (X * B) mod M else X)); try done|].
  - apply Z.div_lt_upper_bound; [lia|]. replace (Z.of_nat (S fuel)) with (1 + Z.of_nat fuel) in HEf by lia.
    by rewrite Z.pow_add_r in HEf by lia.
  - destruct (_ =? 1); [apply Z.mod_pos_bound; lia|done].
  - intros [exp3 m3] [H3 R3]. pose proof (power_step X B E M Hge) as Hp. unfold congr in Hp. rewrite Hp in H3.
    split; [done|by eapply refreshed_trans].
Qed.

Lemma destructive_modular_power_runs ep base m exp E B M :
  represents ep E -> represents base B -> represents m M -> 1 < M ->
  runs (destructive_modular_power_without_allocation ep base m exp) (fun '(r, m') => represents r (B ^ E mod M) /\ refreshed m m').
Proof.
  intros HE HB HM HM1. unfold destructive_modular_power_without_allocation.
  eapply runs_mono; [apply (modular_power_loop_runs _ ep base m _ _ _ E B M 1)|].
  all: try done; try lia; try apply writable_empty.
  - apply bits_bound, HE.
  - by apply set_to_word_holds.
  - cbn. rewrite drop_nil. constructor.
  - intros [r m'] [H1 H2]. by rewrite Z.mul_1_l in H1.
Qed.
