(* ===== verification/Montgomery.v ===== *)
(** * Montgomery modular power

    [montgomery_modular_power_with_minimal_allocations] and [ModularPower]
    (LibCrypto/BigInt/Algorithms/ModularPower.cpp, LibCrypto/NumberTheory/ModularFunctions.cpp).
    Numbers below the modulus are multiplied as x y R^-1, R = 2^(32 n) for a modulus of n words,
    one word of y at a time; the exponent is read four bits at a time.  [residue m n z v] says
    that the low n words of z are congruent to v.  The theorem: [ModularPower] terminates, without a
    failed assertion, with the power modulo any modulus but zero; the last branch of the
    algorithm, which its author noted should not happen, is not reached. *)
From Stdlib Require Import Znumtheory Zpow_facts.
From S2P Require Import Prelude Congruence BigIntBase UnsignedBigInteger BigIntDivision NumberTheory.

Local Open Scope Z_scope.
Local Notation word_ok := (in_width 32).

(** The inverse of minus [value] modulo 2^32, by Newton's iteration; [i] takes the values 1, 2, 4,
    8 and 16. *)
Definition inverse_wrapped (value : Z) : outcome Z :=
  if Z.land value 1 =? 0 then Panic
  else
    let b := value in
    let k0 := wrap 64 (2 - b) in
    let t := wrap 64 (b - 1) in
    ' (t, k0) ← for_range 0 5 (fun _ '(t, k0) =>
      let t := wrap 64 (t * t) in
      Ok (t, wrap 64 (k0 * wrap 64 (t + 1)))) (t, k0);
    Ok (wrap 32 (wrap 64 (- k0))).

(** The top and the bottom word of x * y + c *)
Definition linear_multiplication_with_carry (x y c : Z) : Z * Z :=
  let result := wrap 64 (wrap 64 (x * y) + c) in
  (wrap 32 (Z.shiftr result 32), wrap 32 result).

Definition addition_with_carry (a b : Z) : Z * Z :=
  let result := wrap 64 (a + b) in
  (wrap 32 (Z.shiftr result 32), wrap 32 result).

(** [z] from [offset_in_z] on plus [x] times [y_digit], and the carry *)
Definition montgomery_fragment (z : list Z) (offset_in_z : nat) (x : list Z) (y_digit : Z) (num_words : nat)
    : outcome (list Z * Z) :=
  if (length x <? num_words)%nat || (length z <? num_words + offset_in_z)%nat then Panic
  else
    for_range 0 num_words (fun i '(z, carry) =>
      x_word ← at_index x (Z.of_nat i);
      z_word ← at_index z (Z.of_nat (offset_in_z + i));
      let '(a_carry, a) := linear_multiplication_with_carry x_word y_digit z_word in
      let '(b_carry, b) := addition_with_carry a carry in
      z ← set_at_index z (Z.of_nat (offset_in_z + i)) b;
      Ok (z, wrap 32 (a_carry + b_carry))) (z, 0).

(** One word of [y] *)
Definition almost_montgomery_step (x y modulo : list Z) (k : Z) (num_words i : nat) (s : list Z * Z) : outcome (list Z * Z) :=
  let '(z, previous_double_carry) := s in
  y_digit ← at_index y (Z.of_nat i);
  ' (z, carry_1) ← montgomery_fragment z i x y_digit num_words;
  z_digit ← at_index z (Z.of_nat i);
  let t := wrap 32 (z_digit * k) in
  ' (z, carry_2) ← montgomery_fragment z i modulo t num_words;
  let temp_carry := wrap 32 (previous_double_carry + carry_1) in
  let overall_carry := wrap 32 (temp_carry + carry_2) in
  z ← set_at_index z (Z.of_nat (num_words + i)) overall_carry;
  Ok (z, if (temp_carry <? carry_1) || (overall_carry <? carry_2) then 1 else 0).

(** The top half of [z] less the modulo, into the bottom half *)
Definition subtract_modulo_step (modulo : list Z) (num_words i : nat) (s : list Z * Z) : outcome (list Z * Z) :=
  let '(z, c) := s in
  z_digit ← at_index z (Z.of_nat (num_words + i));
  modulo_digit ← at_index modulo (Z.of_nat i);
  let new_z_digit := wrap 32 (z_digit - modulo_digit - c) in
  z ← set_at_index z (Z.of_nat i) new_z_digit;
  let not_z := wrap 32 (Z.lnot z_digit) in
  Ok (z, Z.shiftr (Z.lor (Z.land modulo_digit not_z) (Z.land (Z.lor modulo_digit not_z) new_z_digit)) 31).

(** [z] is set first; the result *)
Definition almost_montgomery_multiplication_without_allocation (x y modulo : UnsignedBigInteger) (k : Z) (num_words : nat)
    (result : UnsignedBigInteger) : outcome UnsignedBigInteger :=
  if (length (m_words x) <? num_words)%nat || (length (m_words y) <? num_words)%nat || (length (m_words modulo) <? num_words)%nat
  then Panic
  else
    let z := resize_with_leading_zeros (set_to_word empty_integer 0) (num_words * 2) in
    ' (z_words, previous_double_carry) ← for_range 0 num_words
      (almost_montgomery_step (m_words x) (m_words y) (m_words modulo) k num_words) (m_words z, 0);
    let z := with_words z z_words in
    if previous_double_carry =? 0 then
      result ← shift_right_by_n_words z num_words result;
      Ok (resize_with_leading_zeros result num_words)
    else
      ' (z_words, _) ← for_range 0 num_words (subtract_modulo_step (m_words modulo) num_words) (z_words, 0);
      let z := with_words z (resize z_words num_words) in
      Ok (resize_with_leading_zeros (set_to result z) num_words).

Section power.
Context (modulo : UnsignedBigInteger) (k : Z) (num_words : nat).

Definition amm (x y result : UnsignedBigInteger) : outcome UnsignedBigInteger :=
  almost_montgomery_multiplication_without_allocation x y modulo k num_words result.

(** The powers from 2 on of a table that starts with two *)
Definition fill_powers (powers : list UnsignedBigInteger) : outcome (list UnsignedBigInteger) :=
  for_range 2 16 (fun i powers =>
    previous ← at_index powers (Z.of_nat i - 1);
    first ← at_index powers 1;
    power ← amm previous first empty_integer;
    Ok (powers ++ [power])) powers.

(** One window of four bits of the exponent *)
Definition window_step (powers : list UnsignedBigInteger) (square : bool) (s : UnsignedBigInteger * UnsignedBigInteger * Z)
    : outcome (UnsignedBigInteger * UnsignedBigInteger * Z) :=
  let '(z, zz, exponent_word) := s in
  ' (z, zz) ←
    (if square then
       zz ← amm z z zz;
       z ← amm zz zz z;
       zz ← amm z z zz;
       z ← amm zz zz z;
       Ok (z, zz)
     else Ok (z, zz));
  let power_index := Z.shiftr exponent_word (32 - 4) in
  power ← at_index powers power_index;
  zz ← amm z power zz;
  Ok (zz, z, wrap 32 (Z.shiftl exponent_word 4)).

Definition exponent_loop (powers : list UnsignedBigInteger) (exponent : list Z) (exponent_length : nat)
    (z zz : UnsignedBigInteger) : outcome (UnsignedBigInteger * UnsignedBigInteger) :=
  for_range_down 0 exponent_length (fun word_in_exponent '(z, zz) =>
    exponent_word ← at_index exponent (Z.of_nat word_in_exponent);
    ' (z, zz, _) ← for_range 0 8 (fun window s =>
      window_step powers (negb (word_in_exponent =? exponent_length - 1)%nat || negb (window =? 0)%nat) s)
      (z, zz, exponent_word);
    Ok (z, zz)) (z, zz).

End power.

(** The result, the base, the exponent and the modulus *)
Definition montgomery_modular_power_with_minimal_allocations (base exponent modulo result : UnsignedBigInteger)
    : outcome (UnsignedBigInteger * UnsignedBigInteger * UnsignedBigInteger * UnsignedBigInteger) :=
  if negb (is_odd modulo) then Panic
  else
    let '(num_words, modulo) := trimmed_length modulo in
    word ← at_index (m_words modulo) 0;
    k ← inverse_wrapped word;
    let one := set_to_word (from_word 0) 1 in
    let x := shift_left_by_n_words one (2 * num_words) (from_word 0) in
    ' (x, modulo, temp_extra, rr) ← divide_without_allocation x modulo (from_word 0) (from_word 0);
    let rr := resize_with_leading_zeros rr num_words in
    let x := set_to x base in
    let '(x_length, x) := trimmed_length x in
    ' (base, modulo, temp_extra, x) ←
      (if (num_words <? x_length)%nat then divide_without_allocation base modulo temp_extra x
       else Ok (base, modulo, temp_extra, x));
    let x := resize_with_leading_zeros x num_words in
    let one := resize_with_leading_zeros (set_to_word one 1) num_words in
    power_0 ← amm modulo k num_words one rr empty_integer;
    power_1 ← amm modulo k num_words x rr empty_integer;
    powers ← fill_powers modulo k num_words [power_0; power_1];
    first ← at_index powers 0;
    let z := resize_with_leading_zeros (set_to (from_word 0) first) num_words in
    let zz := resize_with_leading_zeros (set_to_word (from_word 0) 0) num_words in
    let '(exponent_length, exponent) := trimmed_length exponent in
    ' (z, zz) ← exponent_loop modulo k num_words powers (m_words exponent) exponent_length z zz;
    zz ← amm modulo k num_words z one zz;
    ' (less, zz, modulo) ← operator_lt zz modulo;
    if less : bool then Ok (clamp_to_trimmed_length (set_to result zz), base, exponent, modulo)
    else
      ' (zz, modulo, result) ← subtract_without_allocation zz modulo result;
      ' (less, modulo, zz) ← operator_lt modulo zz;
      if less : bool then
        ' (zz, modulo, _, result) ← divide_without_allocation zz modulo temp_extra result;
        Ok (clamp_to_trimmed_length result, base, exponent, modulo)
      else Ok (clamp_to_trimmed_length result, base, exponent, modulo).

(** The result, the base, the exponent and the modulus *)
Definition ModularPower (b e m : UnsignedBigInteger)
    : outcome (UnsignedBigInteger * UnsignedBigInteger * UnsignedBigInteger * UnsignedBigInteger) :=
  ' (one, m, _) ← operator_eq m (from_word 1);
  if one : bool then Ok (from_word 0, b, e, m)
  else if is_odd m then montgomery_modular_power_with_minimal_allocations b e m empty_integer
  else
    ' (result, m) ← destructive_modular_power_without_allocation e b m empty_integer;
    Ok (result, b, e, m).

Example power_example :
  (' (r, _, _, _) ← ModularPower (from_word 7) (from_u64 (2 ^ 32 + 13)) (from_u64 (2 ^ 33 + 1)); Ok (value 32 (m_words r)))
  = Ok (Zpow_mod 7 (2 ^ 32 + 13) (2 ^ 33 + 1)).
Proof. vm_compute. reflexivity. Qed.

(** ** The inverse modulo 2^32 *)
Lemma congr_wrap w a : wrap w a == a [mod 2 ^ w].
Proof. apply congr_mod. Qed.

Lemma even_power_zero t n : t mod 2 = 0 -> 0 <= n -> t ^ n == 0 [mod 2 ^ n].
Proof.
  intros Ht Hn. apply congr_divide; [lia|]. rewrite Z.sub_0_r. apply Z.mod_divide in Ht as [c ->]; [|lia].
  rewrite Z.pow_mul_l. by exists (c ^ n).
Qed.

Lemma inverse_wrapped_runs v :
  word_ok v -> v mod 2 = 1 ->
  runs (inverse_wrapped v) (fun k => word_ok k /\ v * k == -1 [mod 2 ^ 32]).
Proof.
  intros Hv Hodd. unfold inverse_wrapped. change 1 with (Z.ones 1) at 1. rewrite Z.land_ones by lia. change (2 ^ 1) with 2. rewrite Hodd.
  cbn [Z.eqb Pos.eqb]. eapply runs_bind.
  - apply (for_range_runs (fun i '(t, k0) =>
      t == (v - 1) ^ (2 ^ Z.of_nat i) [mod 2 ^ 64] /\ v * k0 == 1 - (v - 1) ^ (2 ^ Z.of_nat (S i)) [mod 2 ^ 64])); [lia| |].
    + split; rewrite congr_wrap; apply eq_congr; [cbn; lia|]. change (2 ^ Z.of_nat 1) with 2. rewrite Z.pow_2_r. ring.
    + intros i [t k0] _ [Ht Hk]. apply runs_ret.
      assert (Ht2 : wrap 64 (t * t) == (v - 1) ^ (2 ^ Z.of_nat (S i)) [mod 2 ^ 64]).
      { rewrite congr_wrap, Ht. apply eq_congr. rewrite <- Z.pow_add_r by lia. f_equal. rewrite Nat2Z.inj_succ, Z.pow_succ_r by lia. lia. }
      split; [done|]. rewrite congr_wrap, congr_wrap, Ht2, Z.mul_assoc, Hk. apply eq_congr.
      rewrite (Nat2Z.inj_succ (S i)), (Z.pow_succ_r 2 (Z.of_nat (S i))) by lia. set (q := 2 ^ Z.of_nat (S i)).
      replace (2 * q) with (q + q) by lia. rewrite Z.pow_add_r by lia. ring.
  - intros [t k0] [_ Hk]. apply runs_ret. split; [apply wrap_range; lia|].
    assert (Hz : (v - 1) ^ 64 == 0 [mod 2 ^ 64]) by (apply even_power_zero; [|lia]; rewrite Zminus_mod, Hodd; done).
    change (2 ^ Z.of_nat (S 5)) with 64 in Hk. rewrite Hz in Hk.
    assert (H64 : v * - k0 == -1 [mod 2 ^ 64]) by (rewrite Z.mul_opp_r, Hk; by apply eq_congr).
    rewrite congr_wrap. apply congr_divide; [lia|]. apply congr_divide in H64; [|lia].
    assert (Hw : wrap 64 (- k0) == - k0 [mod 2 ^ 64]) by apply congr_wrap. apply congr_divide in Hw; [|lia].
    apply Z.divide_trans with (2 ^ 64); [by exists (2 ^ 32)|].
    replace (v * wrap 64 (- k0) - -1) with (v * (wrap 64 (- k0) - - k0) + (v * - k0 - -1)) by ring.
    apply Z.divide_add_r; [by apply Z.divide_mul_r|done].
Qed.

(** ** Fragments *)
Lemma wide_halves v :
  0 <= v < 2 ^ 64 ->
  exists h l, wrap 32 (Z.shiftr (wrap 64 v) 32) = h /\ wrap 32 (wrap 64 v) = l /\ word_ok h /\ word_ok l /\ v = l + 2 ^ 32 * h.
Proof.
  intros Hv. rewrite (wrap_small 64) by done. rewrite Z.shiftr_div_pow2 by lia. exists (v / 2 ^ 32), (v mod 2 ^ 32).
  assert (Hh : word_ok (v / 2 ^ 32)) by (split; [apply Z.div_pos; lia|apply Z.div_lt_upper_bound; lia]).
  rewrite (wrap_small 32 _ Hh). pose proof (Z.div_mod v (2 ^ 32) ltac:(lia)). pose proof (Z.mod_pos_bound v (2 ^ 32) ltac:(lia)).
  unfold wrap, in_width in *. split; [done|]. split; [done|]. split; [done|]. split; [done|]. lia.
Qed.

Lemma multiply_add_words x y c d :
  word_ok x -> word_ok y -> word_ok c -> word_ok d ->
  let '(a_carry, a) := linear_multiplication_with_carry x y c in
  let '(b_carry, b) := addition_with_carry a d in
  word_ok b /\ word_ok (wrap 32 (a_carry + b_carry)) /\ b + 2 ^ 32 * wrap 32 (a_carry + b_carry) = x * y + c + d.
Proof.
  intros Hx Hy Hc Hd. unfold linear_multiplication_with_carry, addition_with_carry. unfold in_width in Hx, Hy, Hc, Hd.
  assert (Hxy : 0 <= x * y <= (2 ^ 32 - 1) * (2 ^ 32 - 1)) by (split; [apply Z.mul_nonneg_nonneg; lia|apply Z.mul_le_mono_nonneg; lia]).
  rewrite (wrap_small 64 (x * y)) by (unfold in_width; lia).
  destruct (wide_halves (x * y + c) ltac:(lia)) as (h & l & -> & -> & Hh & Hl & E).
  unfold in_width in Hh, Hl. destruct (wide_halves (l + d) ltac:(lia)) as (h' & l' & -> & -> & Hh' & Hl' & E').
  unfold in_width in Hh', Hl'. rewrite wrap_small by (unfold in_width; lia). unfold in_width. lia.
Qed.

(** The state of the loop of a fragment over the window [W] *)
Definition fragment_done (y : Z) (L W R x : list Z) (i : nat) (s : list Z * Z) : Prop :=
  let '(z, carry) := s in
  exists W', z = L ++ W' ++ R /\ length W' = length W /\ words_ok 32 W' /\ drop i W' = drop i W /\ word_ok carry
    /\ value 32 (take i W') + weight 32 i * carry = value 32 (take i W) + value 32 (take i x) * y.

Lemma montgomery_fragment_runs L W R x y n :
  length W = n -> (n <= length x)%nat -> words_ok 32 W -> words_ok 32 x -> word_ok y ->
  runs (montgomery_fragment (L ++ W ++ R) (length L) x y n) (fun '(z, carry) =>
    exists W', z = L ++ W' ++ R /\ length W' = n /\ words_ok 32 W' /\ word_ok carry
      /\ value 32 W' + weight 32 n * carry = value 32 W + value 32 (take n x) * y).
Proof.
  intros HlW Hlx HW Hx Hy. unfold montgomery_fragment.
  rewrite (proj2 (Nat.ltb_ge (length x) n)), (proj2 (Nat.ltb_ge _ (n + length L))) by (rewrite ?length_app; lia). cbn [orb].
  eapply runs_mono; [apply (for_range_runs (fragment_done y L W R x)); [lia| |]|].
  - exists W. split; [done|]. split; [done|]. split; [done|]. split; [done|]. split; [unfold in_width; lia|]. rewrite !take_0. cbn. lia.
  - intros i [z c] Hi (W' & -> & HlW' & HW' & Hdrop & Hc & HV).
    destruct (at_index_some x i ltac:(lia)) as (xw & Hxw & ->). ret. destruct (lookup_lt_is_Some_2 W' i ltac:(lia)) as [zw Hzw].
    rewrite (window_at _ _ _ _ _ Hzw). ret. pose proof (words_ok_lookup 32 _ _ _ Hx Hxw) as Hxr. pose proof (words_ok_lookup 32 _ _ _ HW' Hzw) as Hzr.
    pose proof (multiply_add_words xw y zw c Hxr Hy Hzr Hc) as Hm.
    destruct (linear_multiplication_with_carry xw y zw) as [ac a]. destruct (addition_with_carry a c) as [bc b]. destruct Hm as (Hb & Hcr & HE).
    rewrite window_set by lia. ret. apply runs_ret. exists (<[i := b]> W'). rewrite length_insert. split; [done|]. split; [done|].
    split; [by apply words_ok_insert|]. split; [by apply drop_S_insert|]. split; [done|].
    assert (HWz : W !! i = Some zw) by (by rewrite <- (lookup_drop_eq _ _ _ Hdrop)).
    rewrite value_take_insert, !value_take_S, weight_S, HWz, Hxw by (done || lia). cbn [from_option id]. nia.
  - intros [z c] (W' & -> & HlW' & HW' & _ & Hc & HV). exists W'. rewrite (take_ge W'), (take_ge W) in HV by lia.
    split; [done|]. split; [lia|]. done.
Qed.

(** ** One word of the second factor *)
Lemma carry_detected p c1 c2 :
  (p = 0 \/ p = 1) -> word_ok c1 -> word_ok c2 ->
  let temp := wrap 32 (p + c1) in
  let overall := wrap 32 (temp + c2) in
  let next := if (temp <? c1) || (overall <? c2) then 1 else 0 in
  word_ok overall /\ (next = 0 \/ next = 1) /\ overall + 2 ^ 32 * next = p + c1 + c2.
Proof.
  intros Hp H1 H2. unfold in_width in H1, H2. cbv zeta.
  assert (W : forall v, 0 <= v < 2 * 2 ^ 32 -> wrap 32 v = if v <? 2 ^ 32 then v else v - 2 ^ 32).
  { intros v Hv. unfold wrap. destruct (Z.ltb_spec v (2 ^ 32)); [apply Z.mod_small; lia|].
    rewrite <- (Z.mod_small (v - 2 ^ 32) (2 ^ 32)) by lia.
    replace v with (v - 2 ^ 32 + 1 * 2 ^ 32) at 1 by lia. apply Z.mod_add. lia. }
  assert (Ht : 0 <= wrap 32 (p + c1) < 2 ^ 32) by (apply Z.mod_pos_bound; lia).
  rewrite (W (_ + c2)) by lia. rewrite (W (p + c1)) in * by lia. unfold in_width.
  repeat match goal with |- context [?a <? ?b] => destruct (Z.ltb_spec a b) end; cbn [orb]; lia.
Qed.

(** The word that the second fragment clears *)
Lemma low_word_cleared M k v t :
  M * k == -1 [mod 2 ^ 32] -> t == v * k [mod 2 ^ 32] -> v + M * t == 0 [mod 2 ^ 32].
Proof.
  intros Hk Ht. rewrite Ht. transitivity (v + v * (M * k)); [apply eq_congr; ring|]. rewrite Hk. apply eq_congr. ring.
Qed.

Lemma congr_multiple M a : M * a == 0 [mod M].
Proof. unfold congr. by rewrite Z.mul_comm, Z_mod_mult, Zmod_0_l. Qed.

Lemma value_low l x : l !! 0%nat = Some x -> value 32 l == x [mod 2 ^ 32].
Proof.
  intros H. destruct l as [|y l]; [done|]. injection H as ->. cbn [value]. rewrite congr_multiple. apply eq_congr. lia.
Qed.

Lemma congr_weight n v : (0 < n)%nat -> weight 32 n * v == 0 [mod 2 ^ 32].
Proof. intros H. destruct n as [|n]; [lia|]. rewrite weight_S by done. rewrite <- Z.mul_assoc. apply congr_multiple. Qed.

Lemma word_congr_zero x : word_ok x -> x == 0 [mod 2 ^ 32] -> x = 0.
Proof. intros Hx H. unfold congr in H. by rewrite Z.mod_small, Zmod_0_l in H. Qed.

Section almost_montgomery.
Context (x y modulo : list Z) (k : Z) (n : nat).
Context (Hx : words_ok 32 x) (Hy : words_ok 32 y) (Hm : words_ok 32 modulo).
Context (Hlx : (n <= length x)%nat) (Hly : (n <= length y)%nat) (Hlm : (n <= length modulo)%nat) (Hn : (0 < n)%nat).
Let X : Z := value 32 (take n x).
Let M : Z := value 32 (take n modulo).
Context (Hinv : M * k == -1 [mod 2 ^ 32]).

(** After [i] words: [z] is W above i cleared words, and W 2^(32 i) is X times the low words of y
    plus a multiple of the modulus. *)
Definition accumulated (i : nat) (s : list Z * Z) : Prop :=
  let '(z, prev) := s in
  exists W T, z = replicate i 0 ++ W ++ replicate (n - i) 0 /\ length W = n /\ words_ok 32 W /\ (prev = 0 \/ prev = 1)
    /\ 0 <= T < weight 32 i /\ weight 32 i * (value 32 W + prev * weight 32 n) = X * value 32 (take i y) + M * T.

Lemma both_fragments_runs {B} i W R yi (f : list Z -> Z -> Z -> outcome B) Q :
  length W = n -> words_ok 32 W -> word_ok yi ->
  (forall W' t c1 c2, length (0 :: W') = n -> words_ok 32 W' -> word_ok c1 -> word_ok c2 -> word_ok t ->
     2 ^ 32 * value 32 W' + weight 32 n * (c1 + c2) = value 32 W + X * yi + M * t ->
     runs (f (replicate i 0 ++ (0 :: W') ++ R) c1 c2) Q) ->
  runs (' (z, carry_1) ← montgomery_fragment (replicate i 0 ++ W ++ R) i x yi n;
        z_digit ← at_index z (Z.of_nat i);
        ' (z, carry_2) ← montgomery_fragment z i modulo (wrap 32 (z_digit * k)) n;
        f z carry_1 carry_2) Q.
Proof using Hx Hm Hlx Hly Hlm Hn Hinv.
  intros HlW HW Hyi Hf. set (L := replicate i 0) in *. assert (HL : i = length L) by (by unfold L; rewrite length_replicate).
  rewrite HL at 1. eapply runs_bind; [by apply montgomery_fragment_runs|]. intros [z c1] (W1 & -> & HlW1 & HW1 & Hc1 & E1).
  destruct (lookup_lt_is_Some_2 W1 0%nat ltac:(lia)) as [v Hv].
  replace (Z.of_nat i) with (Z.of_nat (length L + 0)) by lia. rewrite (window_at _ _ _ _ _ Hv). ret.
  assert (Ht : word_ok (wrap 32 (v * k))) by (apply wrap_range; lia). rewrite HL at 1.
  eapply runs_bind; [by apply montgomery_fragment_runs|]. intros [z c2] (W2 & -> & HlW2 & HW2 & Hc2 & E2).
  destruct W2 as [|u W']; [cbn in HlW2; lia|]. apply Forall_cons in HW2 as [Hu HW2].
  assert (u = 0) as ->.
  { apply word_congr_zero; [done|]. rewrite <- (value_low (u :: W') u) by done.
    replace (value 32 (u :: W')) with (value 32 W1 + M * wrap 32 (v * k) - weight 32 n * c2) by (unfold M; lia).
    rewrite congr_weight by done. rewrite (value_low _ _ Hv), Z.sub_0_r. apply (low_word_cleared M k); [done|apply congr_wrap]. }
  apply (Hf W' (wrap 32 (v * k))); [done..|]. cbn [value] in E2. fold M in E2. fold X in E1. lia.
Qed.

Lemma almost_montgomery_step_runs i s :
  (i < n)%nat -> accumulated i s -> runs (almost_montgomery_step x y modulo k n i s) (accumulated (S i)).
Proof using Hx Hy Hm Hlx Hly Hlm Hn Hinv.
  intros Hi. destruct s as [z prev]. intros (W & T & -> & HlW & HW & Hp & HT & E). unfold almost_montgomery_step.
  destruct (at_index_some y i ltac:(lia)) as (yi & Hyi & ->). ret. pose proof (words_ok_lookup 32 _ _ _ Hy Hyi) as Hyr.
  apply both_fragments_runs; [done..|]. intros W' t c1 c2 HlW' HW' Hc1 Hc2 Ht EV.
  destruct (carry_detected prev c1 c2 Hp Hc1 Hc2) as (Ho & Hn' & Ec). cbv zeta in *.
  set (overall := wrap 32 (wrap 32 (prev + c1) + c2)) in *. set (next := if _ || _ then 1 else 0) in *.
  replace (n - i)%nat with (S (n - S i)) by lia. cbn [replicate].
  replace (replicate i 0 ++ (0 :: W') ++ 0 :: replicate (n - S i) 0) with ((replicate i 0 ++ 0 :: W') ++ [0] ++ replicate (n - S i) 0)
    by (by rewrite <- app_assoc).
  replace (Z.of_nat (n + i)) with (Z.of_nat (length (replicate i 0 ++ 0 :: W') + 0)) by (rewrite length_app, length_replicate; lia).
  rewrite window_set by (cbn; lia). ret. apply runs_ret. exists (W' ++ [overall]), (T + weight 32 i * t).
  assert (HL' : length W' = (n - 1)%nat) by (cbn in HlW'; lia). pose proof (weight_pos 32 word_width i) as Hwi.
  split; [by rewrite replicate_S_end, <- !app_assoc|].
  split; [rewrite length_app; cbn; lia|]. split; [apply words_ok_app; [done|by apply Forall_singleton]|]. split; [done|].
  rewrite weight_S by done. unfold in_width in Ht. split; [nia|].
  rewrite value_take_S, Hyi, value_app, HL' by done. cbn [from_option id value].
  assert (Ew : weight 32 n = 2 ^ 32 * weight 32 (n - 1)) by (rewrite <- weight_S by done; f_equal; lia).
  transitivity (weight 32 i * (2 ^ 32 * value 32 W' + weight 32 n * (c1 + c2) + weight 32 n * prev)); [rewrite Ew; nia|].
  rewrite EV. nia.
Qed.
End almost_montgomery.

(** ** The final subtraction *)
Lemma top_bit v : word_ok v -> Z.testbit v 31 = (2 ^ 31 <=? v).
Proof.
  intros Hv. unfold in_width in Hv. rewrite Z.testbit_eqb by lia. pose proof (Z.div_mod v (2 ^ 31) ltac:(lia)) as E.
  pose proof (Z.mod_pos_bound v (2 ^ 31) ltac:(lia)) as Hr. assert (0 <= v / 2 ^ 31 < 2) as Hq.
  { split; [apply Z.div_pos; lia|apply Z.div_lt_upper_bound; lia]. }
  rewrite (Z.mod_small (v / 2 ^ 31)) by lia.
  destruct (Z.leb_spec (2 ^ 31) v), (Z.eqb_spec (v / 2 ^ 31) 1); try done; exfalso; nia.
Qed.

Lemma wrapped_difference z m c :
  word_ok z -> word_ok m -> (c = 0 \/ c = 1) ->
  wrap 32 (z - m - c) = if z <? m + c then z - m - c + 2 ^ 32 else z - m - c.
Proof.
  unfold in_width, wrap. intros Hz Hm Hc. destruct (Z.ltb_spec z (m + c)); [|apply Z.mod_small; lia].
  rewrite <- (Z.mod_small (z - m - c + 2 ^ 32) (2 ^ 32)) by lia. symmetry.
  replace (z - m - c + 2 ^ 32) with (z - m - c + 1 * 2 ^ 32) by lia. apply Z.mod_add. lia.
Qed.

Lemma wrapped_complement z : word_ok z -> wrap 32 (Z.lnot z) = 2 ^ 32 - 1 - z.
Proof.
  unfold in_width, wrap. intros Hz. replace (Z.lnot z) with (2 ^ 32 - 1 - z + (-1) * 2 ^ 32) by (unfold Z.lnot; lia).
  rewrite Z.mod_add by lia. apply Z.mod_small. lia.
Qed.

(** The borrow of a word, from its top bits *)
Lemma borrow_detected z m c :
  word_ok z -> word_ok m -> (c = 0 \/ c = 1) ->
  let d := wrap 32 (z - m - c) in
  let not_z := wrap 32 (Z.lnot z) in
  Z.shiftr (Z.lor (Z.land m not_z) (Z.land (Z.lor m not_z) d)) 31 = if z <? m + c then 1 else 0.
Proof.
  intros Hz Hm Hc d not_z. assert (Hd : word_ok d) by (apply wrap_range; lia). assert (Hn : word_ok not_z) by (apply wrap_range; lia).
  set (b := Z.lor _ _). transitivity (Z.b2z (Z.testbit b 31)).
  - rewrite Z.testbit_spec', Z.shiftr_div_pow2 by lia. symmetry. apply Z.mod_small.
    assert (Hb : Z.shiftr b 32 = 0).
    { assert (S0 : forall v, word_ok v -> Z.shiftr v 32 = 0) by (intros v Hv; rewrite Z.shiftr_div_pow2 by lia; by apply Z.div_small).
      unfold b. rewrite !Z.shiftr_lor, !Z.shiftr_land, !Z.shiftr_lor, (S0 m), (S0 not_z), (S0 d) by done. done. }
    assert (0 <= b) by (unfold b, in_width in *; rewrite !Z.lor_nonneg, !Z.land_nonneg, !Z.lor_nonneg; lia).
    rewrite Z.shiftr_div_pow2 in Hb by lia. change (2 ^ 32) with (2 ^ 31 * 2) in Hb. rewrite <- Z.div_div in Hb by lia.
    apply Z.div_small_iff in Hb; lia.
  - unfold b. rewrite !Z.lor_spec, !Z.land_spec, !Z.lor_spec, !top_bit by done. unfold not_z, d.
    rewrite wrapped_complement, wrapped_difference by done. unfold in_width in Hz, Hm.
    destruct (Z.ltb_spec z (m + c));
      repeat match goal with |- context [?p <=? ?q] => destruct (Z.leb_spec p q) end; cbn [orb andb Z.b2z]; lia.
Qed.

(** After [i] words: the low words of [z] are the difference of the low words. *)
Definition modulo_subtracted (modulo W : list Z) (n i : nat) (s : list Z * Z) : Prop :=
  let '(z, c) := s in
  exists A, z = A ++ W /\ length A = n /\ words_ok 32 A /\ (c = 0 \/ c = 1)
    /\ value 32 (take i A) - c * weight 32 i = value 32 (take i W) - value 32 (take i modulo).

Lemma subtract_modulo_runs modulo W n A0 :
  words_ok 32 modulo -> words_ok 32 W -> words_ok 32 A0 -> length A0 = n -> length W = n -> (n <= length modulo)%nat ->
  runs (for_range 0 n (subtract_modulo_step modulo n) (A0 ++ W, 0)) (modulo_subtracted modulo W n n).
Proof.
  intros Hm HW HA0 HlA0 HlW Hlm. apply (for_range_runs (modulo_subtracted modulo W n)); [lia| |].
  { exists A0. repeat (split; [done || by left|]). by rewrite !take_0. }
  intros i [z c] Hi (A & -> & HlA & HA & Hc & E). unfold subtract_modulo_step.
  destruct (lookup_lt_is_Some_2 W i ltac:(lia)) as [zd Hzd]. destruct (at_index_some modulo i ltac:(lia)) as (md & Hmd & Ami).
  rewrite (at_index_Ok (A ++ W) (n + i) zd) by (rewrite lookup_app_r by lia; rewrite <- Hzd; f_equal; lia). ret. rewrite Ami. ret.
  rewrite set_at_index_Ok by (rewrite length_app; lia). ret. rewrite insert_app_l by lia.
  pose proof (words_ok_lookup 32 _ _ _ HW Hzd) as Hz. pose proof (words_ok_lookup 32 _ _ _ Hm Hmd) as Hmr.
  rewrite borrow_detected by done. apply runs_ret. exists (<[i := wrap 32 (zd - md - c)]> A). rewrite length_insert.
  split; [done|]. split; [done|]. split; [apply words_ok_insert; [done|apply wrap_range; lia]|]. split; [destruct (_ <? _); lia|].
  rewrite value_take_insert, !value_take_S, weight_S, Hzd, Hmd by (done || lia). cbn [from_option id].
  rewrite wrapped_difference by done. destruct (Z.ltb_spec zd (md + c)); nia.
Qed.

(** ** The product *)
Lemma resized_exact u n : length (m_words u) = n -> resize_with_leading_zeros u n = u.
Proof. intros H. unfold resize_with_leading_zeros. by rewrite (proj2 (Nat.ltb_ge _ n)) by lia. Qed.

Definition padded (n : nat) (u : UnsignedBigInteger) : Prop :=
  words_ok 32 (m_words u) /\ (n <= length (m_words u))%nat.
Definition low (n : nat) (u : UnsignedBigInteger) : Z := value 32 (take n (m_words u)).

Lemma low_all n u : length (m_words u) = n -> low n u = value 32 (m_words u).
Proof. intros H. unfold low. by rewrite take_ge by lia. Qed.

Lemma low_bound n u : padded n u -> 0 <= low n u < weight 32 n.
Proof.
  intros [Hok Hl]. pose proof (value_bound 32 word_width _ (words_ok_take 32 _ n Hok)) as H. by rewrite length_take_le in H by lia.
Qed.

Lemma product_below R X Y M T v :
  0 < R -> 0 <= X < R -> 0 <= Y < R -> 0 < M -> 0 <= T < R -> R * (v + R) = X * Y + M * T -> v < M.
Proof. intros HR HX HY HM HT E. assert (X * Y <= R * R) by nia. assert (M * T < M * R) by nia. nia. Qed.

Lemma product_congruent M R P v T : M <> 0 -> R * v = P + M * T -> v * R == P [mod M].
Proof. intros HM E. rewrite Z.mul_comm, E, congr_multiple. apply eq_congr. lia. Qed.

Lemma almost_montgomery_multiplication_runs x y modulo k n result :
  padded n x -> padded n y -> padded n modulo -> (0 < n)%nat -> 0 < low n modulo -> low n modulo * k == -1 [mod 2 ^ 32] ->
  runs (almost_montgomery_multiplication_without_allocation x y modulo k n result) (fun z =>
    words_ok 32 (m_words z) /\ length (m_words z) = n /\ m_is_invalid z = false /\ m_cached_trimmed_length z = None
    /\ low n z * weight 32 n == low n x * low n y [mod low n modulo]
    /\ (low n y = 1 -> low n z <= low n modulo)).
Proof.
  intros Hx Hy Hm Hn HM Hk. pose proof (low_bound n x Hx) as HX. pose proof (low_bound n y Hy) as HY.
  pose proof (low_bound n modulo Hm) as HMR. destruct Hx as [Hx Hlx]. destruct Hy as [Hy Hly]. destruct Hm as [Hm Hlm].
  unfold almost_montgomery_multiplication_without_allocation.
  rewrite !(proj2 (Nat.ltb_ge _ n)) by done. cbn [orb].
  rewrite resize_with_leading_zeros_words, set_to_word_words. set (zc := resize_with_leading_zeros _ _).
  assert (Hzi : m_is_invalid zc = false) by (unfold zc, resize_with_leading_zeros; by destruct (_ <? _)%nat).
  replace ([0] ++ replicate (n * 2 - length [0]) 0) with (replicate 0 0 ++ replicate n 0 ++ replicate (n - 0) 0)
    by (change [0] with (replicate 1 0); rewrite <- !replicate_add; cbn [length]; f_equal; cbn; lia).
  eapply runs_bind.
  { apply (for_range_runs (accumulated (m_words x) (m_words y) (m_words modulo) n)); [lia| |].
    - exists (replicate n 0), 0. split; [done|]. split; [apply length_replicate|]. split; [by apply words_ok_zeros|].
      split; [by left|]. rewrite weight_0, value_replicate, take_0. cbn [value]. lia.
    - intros i s Hi. apply almost_montgomery_step_runs; done || lia. }
  intros [z prev] (W & T & -> & HlW & HW & Hp & HT & E). rewrite Nat.sub_diag. cbn [replicate]. rewrite app_nil_r.
  fold (low n x) (low n y) (low n modulo) in E. set (R := weight 32 n) in *.
  destruct Hp as [-> | ->]; cbn [Z.eqb].
  - unfold shift_right_by_n_words, size_sub. cbn [with_words m_words].
    rewrite (proj2 (Nat.ltb_ge _ n)) by (rewrite length_app, length_replicate; lia). ret. apply runs_ret.
    rewrite drop_app_length' by (by rewrite length_replicate). rewrite resized_exact by done.
    rewrite (low_all n (with_words _ _)) by done. cbn [with_words m_words]. split; [done|]. split; [done|]. split; [done|]. split; [done|]. split.
    + apply (product_congruent _ _ _ _ T); [lia|]. nia.
    + intros Y1. rewrite Y1 in E. nia.
  - eapply runs_bind; [apply subtract_modulo_runs; try done; [by apply words_ok_zeros|apply length_replicate]|].
    intros [z c] (A & -> & HlA & HA & Hc & EA). apply runs_ret. unfold resize. rewrite length_app, take_app_length' by done.
    replace (n - (length A + length W))%nat with 0%nat by lia. cbn [replicate]. rewrite app_nil_r. rewrite resized_exact by done.
    rewrite (take_ge A), (take_ge W) in EA by lia. fold (low n modulo) R in EA. rewrite Z.mul_1_l in E.
    pose proof (product_below R _ _ _ T _ ltac:(lia) HX HY HM HT E) as Hlt. pose proof (value_bound 32 word_width A HA) as HAb.
    assert (Ec : c = 1) by (destruct Hc as [-> | ->]; lia). rewrite Ec in EA.
    rewrite (low_all n (set_to _ _)) by done. cbn [set_to with_words m_words].
    split; [done|]. split; [done|]. split; [done|]. split; [done|]. split.
    + apply (product_congruent _ _ _ _ (T - R)); [lia|]. nia.
    + intros Y1. exfalso. rewrite Y1, Z.mul_1_r in E. pose proof (value_bound 32 word_width W HW).
      assert (low n modulo * T <= (R - 1) * (R - 1)) by (apply Z.mul_le_mono_nonneg; lia). nia.
Qed.

(** ** The power *)
Lemma fourth_square b p :
  0 <= p -> let s := b ^ p * b ^ p in let f := s * s in let e := f * f in e * e = b ^ (16 * p).
Proof. intros Hp. cbv zeta. rewrite <- !Z.pow_add_r by lia. f_equal. lia. Qed.

(** The window of [a] above the 32 bits that [e] holds *)
Lemma next_window a : 16 * (a / 2 ^ 32) + a mod 2 ^ 32 / 2 ^ 28 = 16 * a / 2 ^ 32.
Proof.
  pose proof (Z.div_mod a (2 ^ 32) ltac:(lia)) as E. set (q := a / 2 ^ 32) in *. set (r := a mod 2 ^ 32) in *.
  replace (16 * a) with (16 * q * 2 ^ 32 + 16 * r) by lia. rewrite Z.div_add_l by lia. f_equal.
  change (2 ^ 32) with (16 * 2 ^ 28). by rewrite Z.div_mul_cancel_l by lia.
Qed.

Section power_proofs.
Context (modulo : UnsignedBigInteger) (k : Z) (n : nat).
Context (Hm : padded n modulo) (Hn : (0 < n)%nat) (HM : 0 < low n modulo) (Hk : low n modulo * k == -1 [mod 2 ^ 32]).
Context (Hrp : rel_prime (low n modulo) (weight 32 n)).
Local Notation M := (low n modulo).
Local Notation R := (weight 32 n).

Definition residue (u : UnsignedBigInteger) (v : Z) : Prop := padded n u /\ low n u == v [mod M].

Lemma amm_residue x y result a b c :
  residue x a -> residue y b -> a * b == c * R [mod M] -> runs (amm modulo k n x y result) (fun z => residue z c).
Proof using Hm Hn HM Hk Hrp.
  intros [Hx Ea] [Hy Eb] Ec. eapply runs_mono; [apply (almost_montgomery_multiplication_runs x y modulo k n result); done|].
  intros z (Hz & Hlz & _ & _ & E & _). split; [split; [done|lia]|]. apply (congr_cancel M R); [lia|done|].
  rewrite (Z.mul_comm R), E, Ea, Eb, Ec. by rewrite Z.mul_comm.
Qed.

(** The product of two numbers in Montgomery form *)
Lemma amm_montgomery x y result a b :
  residue x (a * R) -> residue y (b * R) -> runs (amm modulo k n x y result) (fun z => residue z (a * b * R)).
Proof using Hm Hn HM Hk Hrp. intros Hx Hy. eapply amm_residue; [exact Hx|exact Hy|]. apply eq_congr. ring. Qed.

Definition power_table (b : Z) (count : nat) (powers : list UnsignedBigInteger) : Prop :=
  length powers = count /\ forall j p, powers !! j = Some p -> residue p (b ^ Z.of_nat j * R).

Lemma fill_powers_runs b powers : power_table b 2 powers -> runs (fill_powers modulo k n powers) (power_table b 16).
Proof using Hm Hn HM Hk Hrp.
  intros H0. apply (for_range_runs (power_table b)); [lia|done|]. intros i l Hi [Hlen Hl].
  replace (Z.of_nat i - 1) with (Z.of_nat (i - 1)) by lia. destruct (at_index_some l (i - 1) ltac:(lia)) as (p & Hp & ->). ret.
  destruct (at_index_some l 1 ltac:(lia)) as (p1 & Hp1 & E1). change (at_index l 1) with (at_index l (Z.of_nat 1)). rewrite E1. ret.
  eapply runs_bind; [apply amm_montgomery; [exact (Hl _ _ Hp)|exact (Hl _ _ Hp1)]|]. intros q Hq. apply runs_ret.
  split; [rewrite length_app; cbn; lia|]. intros j u [Hj|[Hge Hj]]%lookup_app_Some; [by apply Hl|].
  apply list_lookup_singleton_Some in Hj as [Hj <-]. replace j with i by lia.
  replace (b ^ Z.of_nat i) with (b ^ Z.of_nat (i - 1) * b ^ Z.of_nat 1); [done|]. rewrite <- Z.pow_add_r by lia. f_equal. lia.
Qed.

Lemma window_step_runs b powers square z zz e p :
  power_table b 16 powers -> word_ok e -> 0 <= p -> (square = false -> p = 0) -> residue z (b ^ p * R) ->
  runs (window_step modulo k n powers square (z, zz, e)) (fun '(z', _, e') =>
    residue z' (b ^ (16 * p + e / 2 ^ 28) * R) /\ e' = (16 * e) mod 2 ^ 32).
Proof using Hm Hn HM Hk Hrp.
  intros [Hlen Hl] He Hp Hsq Hz. unfold window_step.
  eapply (runs_bind _ _ (fun '(z', _) => residue z' (b ^ (16 * p) * R))).
  { destruct square.
    - eapply runs_bind; [apply amm_montgomery; exact Hz|]. intros z1 H1. eapply runs_bind; [apply amm_montgomery; exact H1|]. intros z2 H2.
      eapply runs_bind; [apply amm_montgomery; exact H2|]. intros z3 H3. eapply runs_bind; [apply amm_montgomery; exact H3|]. intros z4 H4.
      apply runs_ret. by rewrite (fourth_square b p Hp) in H4.
    - apply runs_ret. by rewrite (Hsq eq_refl) in Hz |- *. }
  intros [z1 zz1] Hz1. rewrite Z.shiftr_div_pow2 by lia. change (32 - 4) with 28. unfold in_width in He.
  assert (Hi : 0 <= e / 2 ^ 28 < 16) by (split; [apply Z.div_pos; lia|apply Z.div_lt_upper_bound; lia]).
  rewrite <- (Z2Nat.id (e / 2 ^ 28)) at 1 by lia. destruct (at_index_some powers (Z.to_nat (e / 2 ^ 28)) ltac:(lia)) as (q & Hq & ->). ret.
  eapply runs_bind; [apply amm_montgomery; [exact Hz1|exact (Hl _ _ Hq)]|]. intros z2 Hz2. apply runs_ret. split.
  - rewrite Z2Nat.id, <- Z.pow_add_r in Hz2 by lia. done.
  - rewrite Z.shiftl_mul_pow2 by lia. unfold wrap. by rewrite Z.mul_comm.
Qed.

Lemma exponent_word_runs b powers i len z zz e P :
  power_table b 16 powers -> word_ok e -> 0 <= P -> (i = (len - 1)%nat -> P = 0) -> residue z (b ^ P * R) ->
  runs (for_range 0 8 (fun window s =>
      window_step modulo k n powers (negb (i =? len - 1)%nat || negb (window =? 0)%nat) s) (z, zz, e))
    (fun '(z', _, _) => residue z' (b ^ (2 ^ 32 * P + e) * R)).
Proof using Hm Hn HM Hk Hrp.
  intros Hpow He HP0 HPi Hz. unfold in_width in He.
  eapply runs_mono; [apply (for_range_runs (fun j '(z', _, e') =>
    residue z' (b ^ (P * 16 ^ Z.of_nat j + e * 16 ^ Z.of_nat j / 2 ^ 32) * R) /\ e' = (e * 16 ^ Z.of_nat j) mod 2 ^ 32)); [lia| |]|].
  - change (16 ^ Z.of_nat 0) with 1. rewrite !Z.mul_1_r, Z.div_small, Z.mod_small, Z.add_0_r by done. by split.
  - intros j [[z1 zz1] e1] Hj [Hz1 ->]. set (a := e * 16 ^ Z.of_nat j) in *.
    assert (Ha : 0 <= a) by (unfold a; lia). assert (0 <= a / 2 ^ 32) by (apply Z.div_pos; lia).
    assert (ES : 16 ^ Z.of_nat (S j) = 16 * 16 ^ Z.of_nat j) by (rewrite Nat2Z.inj_succ, Z.pow_succ_r by lia; done).
    eapply runs_mono; [apply (window_step_runs b _ _ _ _ _ (P * 16 ^ Z.of_nat j + a / 2 ^ 32)); [done|apply Z.mod_pos_bound; lia|lia| |exact Hz1]|].
    + intros Hs. apply orb_false_iff in Hs as [Hs1 Hs2]. apply negb_false_iff in Hs1, Hs2. apply Nat.eqb_eq in Hs1, Hs2. subst j.
      unfold a. change (16 ^ Z.of_nat 0) with 1. rewrite HPi by done. rewrite !Z.mul_1_r, Z.div_small by done. done.
    + intros [[z2 zz2] e2] [Hz2 ->]. rewrite ES. replace (e * (16 * 16 ^ Z.of_nat j)) with (16 * a) by (unfold a; ring). split.
      * rewrite <- next_window. by replace (P * (16 * 16 ^ Z.of_nat j) + _) with (16 * (P * 16 ^ Z.of_nat j + a / 2 ^ 32) + a mod 2 ^ 32 / 2 ^ 28) by ring.
      * rewrite Z.mul_mod_idemp_r by lia. done.
  - intros [[z1 zz1] e1] [Hz1 _]. change (16 ^ Z.of_nat 8) with (2 ^ 32) in Hz1. rewrite Z.div_mul in Hz1 by lia.
    by rewrite (Z.mul_comm (2 ^ 32)).
Qed.

Lemma exponent_loop_runs b powers exponent z zz :
  power_table b 16 powers -> words_ok 32 exponent -> residue z R ->
  runs (exponent_loop modulo k n powers exponent (trimmed exponent) z zz) (fun '(z', _) => residue z' (b ^ value 32 exponent * R)).
Proof using Hm Hn HM Hk Hrp.
  intros Hpow Hok Hz. set (E := value 32 exponent). pose proof (trimmed_upper exponent Hok) as HE. fold E in HE.
  destruct (trimmed_spec exponent) as (Hlen & _).
  eapply runs_mono; [apply (for_range_down_runs (fun i '(z', _) => residue z' (b ^ (E / weight 32 i) * R))); [lia| |]|].
  - rewrite Z.div_small, Z.pow_0_r, Z.mul_1_l by done. done.
  - intros i [z1 zz1] Hi Hz1. destruct (at_index_some exponent i ltac:(lia)) as (e & He & ->). ret.
    pose proof (weight_pos 32 word_width i) as Hwi. pose proof (weight_pos 32 word_width (S i)) as HwS.
    eapply runs_bind; [apply (exponent_word_runs b powers i (trimmed exponent) z1 zz1 e (E / weight 32 (S i))); [done| | | |exact Hz1]|].
    + by apply (words_ok_lookup 32 exponent i).
    + apply Z.div_pos; lia.
    + intros ->. replace (S (trimmed exponent - 1)) with (trimmed exponent) by lia. by apply Z.div_small.
    + intros [[z2 zz2] e2] Hz2. apply runs_ret.
      pose proof (digit_lookup 32 word_width exponent i Hok) as D. rewrite He in D. cbn [from_option id] in D. fold E in D. unfold digit in D.
      assert (EW : E / weight 32 i = 2 ^ 32 * (E / weight 32 (S i)) + e); [|by rewrite EW].
      rewrite weight_S by done. rewrite (Z.mul_comm (2 ^ 32) (weight 32 i)), <- Z.div_div, <- D by lia. apply Z.div_mod. lia.
  - intros [z1 zz1] Hz1. by rewrite weight_0, Z.div_1_r in Hz1.
Qed.
End power_proofs.

(** ** The whole power *)
Lemma odd_rel_prime_weight M n : M mod 2 = 1 -> rel_prime M (weight 32 n).
Proof.
  intros H. unfold weight. apply rel_prime_Zpower_r; [lia|]. apply Zgcd_1_rel_prime.
  pose proof (Z.div_mod M 2 ltac:(lia)) as E. rewrite E, H. rewrite Z.gcd_comm, Z.add_comm, Z.mul_comm, Z.gcd_add_mult_diag_r. done.
Qed.

Lemma is_odd_spec u a : holds u a -> is_odd u = (a mod 2 =? 1).
Proof.
  intros Hu. unfold is_odd. destruct (m_words u) as [|x l] eqn:E.
  - destruct Hu as (_ & <- & _). by rewrite E.
  - rewrite <- (low_word_parity u a x Hu) by (by rewrite E). change 1 with (Z.ones 1) at 1. rewrite Z.land_ones by lia. change (2 ^ 1) with 2.
    pose proof (Z.mod_pos_bound x 2 ltac:(lia)). destruct (Z.eqb_spec (x mod 2) 0), (Z.eqb_spec (x mod 2) 1); try done; lia.
Qed.

Lemma padded_resize u n : words_ok 32 (m_words u) -> padded n (resize_with_leading_zeros u n).
Proof. intros H. destruct (resize_with_leading_zeros_spec u n H) as (H1 & _ & H2 & _). split; [done|]. rewrite H2. lia. Qed.

Lemma take_zeros_value n l m :
  value 32 (take n (l ++ replicate m 0)) = value 32 (take n l).
Proof.
  rewrite take_app, value_app by done. rewrite take_replicate, value_replicate. lia.
Qed.

Lemma low_resize u n : low n (resize_with_leading_zeros u n) = low n u.
Proof. unfold low. by rewrite resize_with_leading_zeros_words, take_zeros_value. Qed.

Lemma low_value n u a : holds u a -> a < weight 32 n -> low n u = a.
Proof.
  intros (Hok & Hv & _) Ha. unfold low. pose proof (value_split 32 word_width n (m_words u)) as E.
  rewrite (value_all_zero 32 (drop n _)) in E by (apply small_value_zeros; [done|by rewrite Hv]). lia.
Qed.

Lemma residue_number modulo n u a b :
  holds u a -> a < weight 32 n -> a == b [mod low n modulo] -> residue modulo n (resize_with_leading_zeros u n) b.
Proof. intros Hu Ha E. split; [apply padded_resize, Hu|]. by rewrite low_resize, (low_value n u a). Qed.

Lemma low_modulus u a : represents u a -> low (trimmed (m_words u)) u = a.
Proof. intros [(Hok & <- & _) _]. unfold low. by rewrite <- trimmed_value. Qed.

Lemma padded_trimmed u a : represents u a -> padded (trimmed (m_words u)) u.
Proof. intros [(Hok & _) _]. split; [done|]. apply trimmed_spec. Qed.

Lemma trimmed_positive u a : represents u a -> 0 < a -> (0 < trimmed (m_words u))%nat.
Proof. intros [(Hok & Hv & _) _] Ha. destruct (decide (trimmed (m_words u) = 0%nat)) as [E|]; [|lia]. apply trimmed_zero in E; [lia|done]. Qed.

(** The base, reduced when it has more words than the modulus *)
Lemma reduce_base_runs base modulo temp_extra u x B M :
  represents base B -> represents modulo M -> M <> 0 -> writable temp_extra -> refreshed (set_to u base) x ->
  let n := trimmed (m_words modulo) in
  runs (if (n <? trimmed (m_words base))%nat then divide_without_allocation base modulo temp_extra x
        else Ok (base, modulo, temp_extra, x)) (fun '(base', modulo', temp_extra', x') =>
    refreshed base base' /\ refreshed modulo modulo' /\ writable temp_extra'
    /\ words_ok 32 (m_words x') /\ low n x' == B [mod M]).
Proof.
  intros HB HM HM0 Ht Rx n. pose proof HB as [Hh Hc]. pose proof Hh as (Hok & HV & _).
  assert (Hx : holds x B) by (eapply refreshed_represents; [by apply (holds_set_to u)|exact Rx]).
  destruct (Nat.ltb_spec n (trimmed (m_words base))) as [Hlt|Hge].
  - eapply runs_mono; [apply (divide_without_allocation_runs base modulo temp_extra x B M HB HM HM0 Ht); by eapply holds_writable|].
    intros [[[b' m'] t'] r'] (Rb & Rm & Hr & HV' & _ & _ & Hq & _). split; [done|]. split; [done|]. split; [done|].
    split; [apply Hr|]. unfold low, n. rewrite HV'. apply congr_mod.
  - apply runs_ret. split; [by apply refreshed_refl|]. split; [apply refreshed_refl, HM|]. split; [done|]. split; [apply Hx|].
    apply eq_congr, low_value; [done|]. pose proof (trimmed_upper _ Hok). rewrite HV in *.
    pose proof (weight_le 32 word_width _ _ Hge). lia.
Qed.

(** The last product, and the reduction of its result *)
Lemma montgomery_finish_runs modulo k n z one zz temp_extra result V M (base exponent : UnsignedBigInteger) :
  represents modulo M -> n = trimmed (m_words modulo) -> M mod 2 = 1 -> low n modulo * k == -1 [mod 2 ^ 32] ->
  residue modulo n z (V * weight 32 n) -> padded n one -> low n one = 1 ->
  runs (zz ← amm modulo k n z one zz;
    ' (less, zz, modulo) ← operator_lt zz modulo;
    if less : bool then Ok (clamp_to_trimmed_length (set_to result zz), base, exponent, modulo)
    else
      ' (zz, modulo, result) ← subtract_without_allocation zz modulo result;
      ' (less, modulo, zz) ← operator_lt modulo zz;
      if less : bool then
        ' (zz, modulo, _, result) ← divide_without_allocation zz modulo temp_extra result;
        Ok (clamp_to_trimmed_length result, base, exponent, modulo)
      else Ok (clamp_to_trimmed_length result, base, exponent, modulo))
    (fun '(r, base', exponent', modulo') =>
      represents r (V mod M) /\ base' = base /\ exponent' = exponent /\ refreshed modulo modulo').
Proof.
  intros Hmod -> Hodd Hk [Hz Ez] Hone H1. set (n := trimmed (m_words modulo)) in *.
  pose proof (low_modulus modulo M Hmod) as EM. fold n in EM.
  pose proof (holds_nonneg _ _ (represents_holds _ _ Hmod)) as HM0. assert (HMp : 0 < M) by (destruct (decide (M = 0)) as [-> |]; [done|lia]).
  assert (Hn : (0 < n)%nat) by (by apply (trimmed_positive modulo M)).
  eapply runs_bind; [apply (almost_montgomery_multiplication_runs z one modulo k n zz Hz Hone (padded_trimmed _ _ Hmod) Hn); [lia|done]|].
  intros w (Hok & Hlen & Hinv & Hcache & EC & Hle). rewrite H1, EM in *. specialize (Hle eq_refl).
  rewrite (low_all n w Hlen) in *. set (v := value 32 (m_words w)) in *.
  assert (Hw : represents w v) by (split; [done|unfold cache_ok; by rewrite Hcache]).
  assert (EV : v == V [mod M]).
  { apply (congr_cancel M (weight 32 n)); [lia|by apply odd_rel_prime_weight|]. rewrite Z.mul_comm, EC, Z.mul_1_r, Ez. apply eq_congr. ring. }
  assert (Hv0 : 0 <= v) by apply (value_bound 32 word_width _ Hok).
  eapply runs_bind; [by apply operator_lt_runs|]. intros [[less w'] m'] (-> & Rw & Rm).
  destruct (Z.ltb_spec v M) as [Hlt|Hge].
  - apply runs_ret. split; [|done]. rewrite (congr_small M v V) by done. apply clamp_represents, holds_set_to, (refreshed_represents w); [apply Hw|done].
  - assert (Hw' : represents w' v) by (eapply refreshed_represents; [apply Hw|done]).
    assert (Hm' : represents m' M) by (eapply refreshed_represents; [apply Hmod|done]).
    eapply runs_bind; [by apply subtract_without_allocation_runs|]. intros [[w2 m2] r] (Rw2 & Rm2 & Hr).
    rewrite (proj2 (Z.ltb_ge v M)) in Hr by done. destruct Hr as [Hr _].
    eapply runs_bind; [apply (operator_lt_runs m2 w2 M v); eapply refreshed_represents; [apply Hm'|done|apply Hw'|done]|].
    intros [[less m3] w3] (-> & Rm3 & _). rewrite (proj2 (Z.ltb_ge M v)) by done. apply runs_ret.
    split; [|split; [done|split; [done|eauto using refreshed_trans]]]. apply clamp_represents.
    replace (V mod M) with (v - M); [done|]. rewrite <- EV. replace v with M by lia. rewrite Z_mod_same_full. lia.
Qed.

Lemma modulus_inverse_runs modulo M :
  represents modulo M -> M mod 2 = 1 ->
  runs (word ← at_index (m_words modulo) 0; inverse_wrapped word) (fun k => M * k == -1 [mod 2 ^ 32]).
Proof.
  intros Hm Hodd. pose proof Hm as [Hh _]. pose proof Hh as (Hok & HV & _). destruct (m_words modulo) as [|x l] eqn:E; [by rewrite <- HV in Hodd|].
  change (at_index (x :: l) 0) with (Ok x). ret. pose proof (low_word_parity modulo M x Hh) as Hp. rewrite E in Hp. specialize (Hp eq_refl).
  apply Forall_cons in Hok as [Hx _]. eapply runs_mono; [apply inverse_wrapped_runs; [done|by rewrite Hp]|]. intros k [_ Hk].
  rewrite <- HV, (value_low (x :: l) x) by done. done.
Qed.

(** 2^(64 n) modulo the modulus *)
Lemma montgomery_constant_runs modulo M one :
  represents modulo M -> M <> 0 -> holds one 1 ->
  let n := trimmed (m_words modulo) in
  runs (divide_without_allocation (shift_left_by_n_words one (2 * n) (from_word 0)) modulo (from_word 0) (from_word 0))
    (fun '(_, modulo', temp_extra, rr) => refreshed modulo modulo' /\ writable temp_extra
       /\ residue modulo' n (resize_with_leading_zeros rr n) (weight 32 n * weight 32 n)).
Proof.
  intros Hm HM0 Hone n. assert (H0 : writable (from_word 0)) by (eapply holds_writable, represents_holds, from_word_holds; done).
  eapply runs_mono; [apply divide_without_allocation_runs; [by apply shift_left_by_n_words_holds|exact Hm|done..]|].
  intros [[[x m'] t] rr] (_ & Rm & Hr & HV & _ & _ & Hq & _). split; [done|]. split; [done|].
  assert (Hm' : represents m' M) by (eapply refreshed_represents; [apply Hm|done]).
  split; [apply padded_resize, Hr|]. rewrite low_resize. unfold low at 2. fold n in HV. rewrite HV.
  pose proof (low_modulus m' M Hm') as EM. replace (trimmed (m_words m')) with n in EM by (by destruct Rm as (-> & _)).
  rewrite EM, congr_mod. apply eq_congr. rewrite Z.mul_1_l. replace (2 * n)%nat with (n + n)%nat by lia. by apply weight_add.
Qed.

Lemma residue_refreshed m m' n u v : refreshed m m' -> residue m n u v -> residue m' n u v.
Proof. intros (Wm & _) H. unfold residue, low in *. by rewrite Wm. Qed.

(** The table of the sixteen powers *)
Lemma montgomery_table_runs {A} modulo k n M one rr x B (f : list UnsignedBigInteger -> outcome A) Q :
  represents modulo M -> n = trimmed (m_words modulo) -> M mod 2 = 1 -> M * k == -1 [mod 2 ^ 32] ->
  residue modulo n one 1 -> residue modulo n rr (weight 32 n * weight 32 n) -> residue modulo n x B ->
  (forall powers, power_table modulo n B 16 powers -> runs (f powers) Q) ->
  runs (power_0 ← amm modulo k n one rr empty_integer;
        power_1 ← amm modulo k n x rr empty_integer;
        powers ← fill_powers modulo k n [power_0; power_1];
        f powers) Q.
Proof.
  intros HM -> Hodd Hk H1 HRR Hx Hf. set (n := trimmed (m_words modulo)) in *.
  pose proof (low_modulus modulo M HM) as EM. fold n in EM. rewrite <- EM in Hk, Hodd.
  assert (HMp : 0 < low n modulo) by (pose proof (holds_nonneg _ _ (represents_holds _ _ HM)); destruct (decide (M = 0)); [|lia]; by rewrite EM, e in Hodd).
  assert (Hn : (0 < n)%nat) by (apply (trimmed_positive modulo M); [done|lia]).
  pose proof (padded_trimmed _ _ HM) as Hpad. fold n in Hpad. pose proof (odd_rel_prime_weight _ n Hodd) as Hrp.
  eapply runs_bind; [apply (amm_residue modulo k n Hpad Hn HMp Hk Hrp _ _ _ _ _ (weight 32 n) H1 HRR); apply eq_congr; ring|]. intros p0 H0.
  eapply runs_bind; [apply (amm_residue modulo k n Hpad Hn HMp Hk Hrp _ _ _ _ _ (B * weight 32 n) Hx HRR); apply eq_congr; ring|]. intros p1 Hp1.
  eapply runs_bind; [|exact Hf]. apply fill_powers_runs; [done..|]. split; [done|]. intros [|[|j]] p Hj; [..|done]; injection Hj as <-.
  - by rewrite Z.pow_0_r, Z.mul_1_l.
  - by rewrite Z.pow_1_r.
Qed.

Lemma montgomery_modular_power_runs base exponent modulo result B E M :
  represents base B -> represents exponent E -> represents modulo M -> M mod 2 = 1 ->
  runs (montgomery_modular_power_with_minimal_allocations base exponent modulo result) (fun '(r, base', exponent', modulo') =>
    represents r (B ^ E mod M) /\ refreshed base base' /\ refreshed exponent exponent' /\ refreshed modulo modulo').
Proof.
  intros HB HE HM Hodd. unfold montgomery_modular_power_with_minimal_allocations.
  rewrite (is_odd_spec modulo M), Hodd by apply HM. cbn [Z.eqb Pos.eqb negb].
  assert (HMp : 0 < M) by (pose proof (holds_nonneg _ _ (represents_holds _ _ HM)); destruct (decide (M = 0)) as [-> |]; [done|lia]).
  pose proof HM as [_ HMc]. destruct (trimmed_length_spec modulo HMc) as (m1 & -> & R1 & _). set (n := trimmed (m_words modulo)).
  assert (HM1 : represents m1 M) by (eapply refreshed_represents; [apply HM|done]). assert (En1 : trimmed (m_words m1) = n) by (by destruct R1 as (-> & _)).
  destruct (modulus_inverse_runs m1 M HM1 Hodd) as (k & Ek & Hk). destruct (at_index (m_words m1) 0) as [word| |]; [|done..]. ret.
  change (inverse_wrapped word = Ok k) in Ek. rewrite Ek. ret.
  assert (Hone : represents (set_to_word (from_word 0) 1) 1) by (by apply set_to_word_holds).
  pose proof (montgomery_constant_runs m1 M _ HM1 ltac:(lia) (represents_holds _ _ Hone)) as Hrr. cbv zeta in Hrr. rewrite En1 in Hrr.
  eapply runs_bind; [exact Hrr|]. intros [[[x m2] t] rr] (R2 & Ht & HRR). clear Hrr.
  assert (HM2 : represents m2 M) by (eapply refreshed_represents; [apply HM1|done]). assert (En2 : trimmed (m_words m2) = n) by (by destruct R2 as (-> & _)).
  destruct (trimmed_length_spec (set_to x base) I) as (x1 & -> & Rx & _).
  eapply runs_bind; [rewrite <- En2; by apply (reduce_base_runs base m2 t x x1 B M HB HM2 ltac:(lia) Ht)|].
  intros [[[base' m3] t3] x3] (Rb & R3 & Ht3 & Hx3 & EB). rewrite En2 in EB.
  assert (HM3 : represents m3 M) by (eapply refreshed_represents; [apply HM2|done]). assert (En3 : n = trimmed (m_words m3)) by (by destruct R3 as (-> & _)).
  assert (EM : low n m3 = M) by (rewrite En3; by apply low_modulus).
  assert (Hone' : represents (set_to_word (set_to_word (from_word 0) 1) 1) 1) by (by apply set_to_word_holds).
  assert (H1R : 1 < weight 32 n).
  { pose proof (trimmed_positive _ _ HM HMp) as Hn. fold n in Hn. destruct n as [|j]; [lia|]. rewrite weight_S by done. pose proof (weight_pos 32 word_width j). lia. }
  eapply montgomery_table_runs; [exact HM3|exact En3|exact Hodd|exact Hk|apply (residue_number m3 n _ 1 1); [apply Hone'|done|done]
    |by eapply residue_refreshed|split; [by apply padded_resize|by rewrite low_resize, EM]|].
  intros powers Hpow. pose proof Hpow as [Hlen Hl]. destruct (at_index_some powers 0 ltac:(lia)) as (p0 & Hp0 & Ep0).
  change (at_index powers 0) with (at_index powers (Z.of_nat 0)). rewrite Ep0. ret. specialize (Hl _ _ Hp0) as [Hpad0 E0].
  pose proof HE as [(HEok & HEv & _) HEc]. destruct (trimmed_length_spec exponent HEc) as (e1 & -> & Re & _). pose proof Re as (We & _). rewrite We.
  eapply runs_bind; [apply (exponent_loop_runs m3 k n) with (b := B); try done|].
  all: try rewrite EM; try done.
  - rewrite En3. by apply (padded_trimmed m3 M).
  - rewrite En3. by apply (trimmed_positive m3 M).
  - by apply odd_rel_prime_weight.
  - split; [apply padded_resize, Hpad0|]. rewrite low_resize, Z.pow_0_r, Z.mul_1_l in *. done.
  - intros [z zz] Hz. rewrite HEv in Hz. eapply runs_mono; [eapply montgomery_finish_runs|].
    + exact HM3.
    + exact En3.
    + exact Hodd.
    + by rewrite EM.
    + exact Hz.
    + apply padded_resize, Hone'.
    + rewrite low_resize. apply (low_value n _ 1); [apply Hone'|done].
    + intros [[[r b'] e'] m'] (Hr & -> & -> & Rm). split; [done|]. split; [done|]. split; [done|]. eauto using refreshed_trans.
Qed.

Lemma ModularPower_runs b e m B E M :
  represents b B -> represents e E -> represents m M -> M <> 0 ->
  runs (ModularPower b e m) (fun '(r, b', e', m') =>
    represents r (B ^ E mod M) /\ refreshed b b' /\ refreshed e e' /\ refreshed m m').
Proof.
  intros HB HE HM HM0. unfold ModularPower. pose proof (holds_nonneg _ _ (represents_holds _ _ HM)) as HMn.
  eapply runs_bind; [apply compare_word; [exact HM|by apply word_small]|]. intros [[one m1] z] (-> & R1).
  assert (HM1 : represents m1 M) by (eapply refreshed_represents; [apply HM|done]). destruct (Z.eqb_spec M 1) as [-> |Hne].
  - apply runs_ret. rewrite Z.mod_1_r. split; [by apply small_word_represents|].
    split; [apply refreshed_refl, HB|]. split; [apply refreshed_refl, HE|done].
  - rewrite (is_odd_spec m1 M) by apply HM1. destruct (Z.eqb_spec (M mod 2) 1) as [Hodd|Heven].
    + eapply runs_mono; [by apply montgomery_modular_power_runs|]. intros [[[r b'] e'] m'] (Hr & Rb & Re & Rm). eauto using refreshed_trans.
    + eapply runs_bind; [apply destructive_modular_power_runs; [exact HE|exact HB|exact HM1|lia]|]. intros [r m'] [Hr Rm]. apply runs_ret.
      split; [done|]. split; [apply refreshed_refl, HB|]. split; [apply refreshed_refl, HE|]. by eapply refreshed_trans.
Qed.

(** C11: [ModularPower b e m] terminates, without a failed assertion, with b^e modulo m for every
    modulus but zero: the square-and-multiply loop of an even modulus and the windowed
    Montgomery multiplications of an odd one compute the same function, and the operands keep their values. *)
Theorem modular_power_exact b e m B E M :
  represents b B -> represents e E -> represents m M -> M <> 0 ->
  runs (ModularPower b e m) (fun '(r, b', e', m') =>
    represents r (B ^ E mod M) /\ refreshed b b' /\ refreshed e e' /\ refreshed m m').
Proof. apply ModularPower_runs. Qed.

Lemma modular_power_exact_witness :
  represents (from_word 7) 7 /\ represents (from_word 13) 13 /\ represents (from_word 2147483649) 2147483649
  /\ runs (ModularPower (from_word 7) (from_word 13) (from_word 2147483649)) (fun '(r, _, _, _) => represents r 252246202).
Proof.
  assert (H7 : represents (from_word 7) 7) by (by apply small_word_represents).
  assert (H13 : represents (from_word 13) 13) by (by apply small_word_represents).
  assert (Hm : represents (from_word 2147483649) 2147483649) by (by apply small_word_represents).
  split; [exact H7|]. split; [exact H13|]. split; [exact Hm|].
  eapply runs_mono; [apply (modular_power_exact _ _ _ _ _ _ H7 H13 Hm); lia|]. intros [[[r b'] e'] m'] [Hr _]. exact Hr.
Defined.
