(* ===== verification/Primality.v ===== *)
(** * Primality

    [MR_primality_test], [random_number], [is_probably_prime] and [random_big_prime]
    (LibCrypto/NumberTheory/ModularFunctions.cpp).  The random bytes are an argument: [fill] gives
    the buffer that [fill_with_random] leaves, by its size ([random i] for the i-th call of a
    loop).  The theorems: the Miller-Rabin test decides whether the number is a strong probable
    prime to every base; a prime passes with all bases, so that [is_probably_prime] returns true
    for every prime, whatever the random numbers are; a random number is in its range; the
    product of two random primes has exactly the requested number of bits. *)
From Stdlib Require Import Znumtheory.
From S2P Require Import Prelude Congruence BigIntBase UnsignedBigInteger BigIntDivision BigIntText NumberTheory Montgomery.

Local Open Scope Z_scope.
Local Notation word_ok := (in_width 32).

(** ** The Miller-Rabin test *)

(** [d] is halved while its remainder is zero; [fuel] bounds the halvings. *)
Fixpoint remove_twos (fuel : nat) (d : UnsignedBigInteger) (r : nat) : outcome (UnsignedBigInteger * nat) :=
  ' (d, _, quotient, remainder) ← divided_by d (from_word 2);
  ' (zero, _, _) ← operator_eq remainder (from_word 0);
  if negb zero then Ok (d, r)
  else
    match fuel with
    | O => Panic
    | S fuel => remove_twos fuel quotient (S r)
    end.

(** The loop of r - 1 squarings: whether [skip_this_witness] was set, [predecessor] and [n] *)
Fixpoint square_to_predecessor (count : nat) (x predecessor n : UnsignedBigInteger)
    : outcome (bool * UnsignedBigInteger * UnsignedBigInteger) :=
  match count with
  | O => Ok (false, predecessor, n)
  | S count =>
      ' (x, _, _, n) ← ModularPower x (from_word 2) n;
      ' (equal, x, predecessor) ← operator_eq x predecessor;
      if equal : bool then Ok (true, predecessor, n) else square_to_predecessor count x predecessor n
  end.

Fixpoint run_tests (tests : list UnsignedBigInteger) (d predecessor n : UnsignedBigInteger) (r : nat) : outcome bool :=
  match tests with
  | [] => Ok true
  | a :: tests =>
      ' (less, a, n) ← operator_lt a n;
      if negb less then Panic
      else
        ' (x, _, d, n) ← ModularPower a d n;
        ' (one, x, _) ← operator_eq x (from_word 1);
        ' (passed, x, predecessor) ← (if one : bool then Ok (true, x, predecessor) else operator_eq x predecessor);
        if passed : bool then run_tests tests d predecessor n r
        else
          ' (skip_this_witness, predecessor, n) ← square_to_predecessor (r - 1) x predecessor n;
          if skip_this_witness : bool then run_tests tests d predecessor n r else Ok false
  end.

Definition MR_primality_test (n : UnsignedBigInteger) (tests : list UnsignedBigInteger) : outcome bool :=
  ' (small, n, _) ← operator_lt n (from_word 4);
  if small : bool then Panic
  else
    ' (n, _, predecessor) ← minus n (from_word 1);
    ' (d, r) ← remove_twos (32 * length (m_words predecessor)) predecessor 0;
    if (r =? 0)%nat then
      ' (two, _, _) ← operator_eq n (from_word 2);
      Ok two
    else run_tests tests d predecessor n r.

(** ** Random numbers *)

(** The number and the bounds *)
Definition random_number (fill : nat -> list Z) (min max_excluded : UnsignedBigInteger)
    : outcome (UnsignedBigInteger * UnsignedBigInteger * UnsignedBigInteger) :=
  ' (less, min, max_excluded) ← operator_lt min max_excluded;
  if negb less then Panic
  else
    ' (max_excluded, min, range) ← minus max_excluded min;
    let '(range_length, range) := trimmed_length range in
    let size := (range_length * 4 + 2)%nat in
    random ← import_data (fill size);
    ' (_, _, _, remainder) ← divided_by random range;
    ' (_, min, result) ← plus remainder min;
    Ok (result, min, max_excluded).

Definition first_tests : list UnsignedBigInteger :=
  [from_word 2; from_word 3; from_word 5; from_word 7; from_word 11; from_word 13].

(** Whether [p] passes, and [p] *)
Definition is_probably_prime (random : nat -> nat -> list Z) (p : UnsignedBigInteger)
    : outcome (bool * UnsignedBigInteger) :=
  ' (small, p, _) ← operator_lt p (from_word 49);
  if small : bool then
    p_value ← at_index (m_words p) 0;
    if (p_value =? 2) || (p_value =? 3) || (p_value =? 5) || (p_value =? 7) then Ok (true, p)
    else if (p_value mod 2 =? 0) || (p_value mod 3 =? 0) || (p_value mod 5 =? 0) || (p_value mod 7 =? 0) then Ok (false, p)
    else Ok (true, p)
  else
    ' (tests, _, p) ← for_range (length first_tests) 256 (fun i '(tests, seventeen, p) =>
      ' (p, _, max_excluded) ← minus p (from_word 2);
      ' (test, seventeen, _) ← random_number (random i) seventeen max_excluded;
      Ok (tests ++ [test], seventeen, p)) (first_tests, from_word 17, p);
    result ← MR_primality_test p tests;
    Ok (result, p).

(** The numbers drawn from [random k], [random (k + 1)], ...; [None] when [attempts] are used up
    (the loop of the code does not end). *)
Fixpoint random_big_prime_loop (attempts : nat) (random : nat -> nat -> list Z) (tests : nat -> nat -> nat -> list Z) (k : nat)
    (min max : UnsignedBigInteger) : outcome (option UnsignedBigInteger) :=
  match attempts with
  | O => Ok None
  | S attempts =>
      ' (p, min, max) ← random_number (random k) min max;
      word ← at_index (m_words p) 0;
      if Z.land word 1 =? 0 then random_big_prime_loop attempts random tests (S k) min max
      else
        ' (prime, p) ← is_probably_prime (tests k) p;
        if prime : bool then Ok (Some p) else random_big_prime_loop attempts random tests (S k) min max
  end.

(** The literal ["6074001000"_bigint] *)
Definition prime_bound_text : list Z := [54; 48; 55; 52; 48; 48; 49; 48; 48; 48].

Definition random_big_prime (attempts : nat) (random : nat -> nat -> list Z) (tests : nat -> nat -> nat -> list Z) (bits : nat)
    : outcome (option UnsignedBigInteger) :=
  if (bits <? 33)%nat then Panic
  else
    literal ← from_base 10 prime_bound_text;
    match literal with
    | inl _ => Panic
    | inr bound =>
        min ← big_shift_left bound (bits - 33);
        power ← big_shift_left (from_word 1) bits;
        ' (_, _, max) ← minus power (from_word 1);
        random_big_prime_loop attempts random tests 0 min max
    end.

Example primality_example :
  let tests := [from_word 2; from_word 3; from_word 5] in
  MR_primality_test (from_word 65537) tests = Ok true /\ MR_primality_test (from_word 65535) tests = Ok false
  /\ MR_primality_test (from_word 341) tests = Ok false.
Proof. vm_compute. done. Qed.

(** ** Strong probable primes *)

(** [N] passes the test to the base [A], where N - 1 is d times the r-th power of two. *)
Definition strong_probable_prime (N d : Z) (r : nat) (A : Z) : bool :=
  (A ^ d mod N =? 1) || existsb (fun i => A ^ (2 ^ Z.of_nat i * d) mod N =? N - 1) (seq 0 r).

Lemma minus_one_mod N x : 1 < N -> x == -1 [mod N] -> x mod N = N - 1.
Proof.
  intros HN H. unfold congr in H. rewrite H. replace (-1) with (N - 1 + (-1) * N) by lia. rewrite Z.mod_add by lia. apply Z.mod_small. lia.
Qed.

(** The square roots of one modulo a prime *)
Lemma power_chain N d A r :
  prime N -> 0 <= d -> A ^ (2 ^ Z.of_nat r * d) == 1 [mod N] ->
  A ^ d == 1 [mod N] \/ exists i, (i < r)%nat /\ A ^ (2 ^ Z.of_nat i * d) == -1 [mod N].
Proof.
  intros HN Hd. induction r as [|r IH]; intros H; [left; by rewrite Z.mul_1_l in H|].
  assert (E : A ^ (2 ^ Z.of_nat (S r) * d) = A ^ (2 ^ Z.of_nat r * d) * A ^ (2 ^ Z.of_nat r * d)).
  { rewrite <- Z.pow_add_r by lia. f_equal. rewrite Nat2Z.inj_succ, Z.pow_succ_r by lia. ring. }
  rewrite E in H. apply square_root_of_one in H as [H|H]; [|right; exists r; split; [lia|done]|done].
  destruct (IH H) as [H1|(i & Hi & H1)]; [by left|]. right. exists i. split; [lia|done].
Qed.

Lemma prime_passes N d r A :
  prime N -> 0 <= d -> N - 1 = 2 ^ Z.of_nat r * d -> 0 < A < N -> strong_probable_prime N d r A = true.
Proof.
  intros HN Hd E HA. pose proof (prime_ge_2 N HN). unfold strong_probable_prime.
  assert (Hf : A ^ (2 ^ Z.of_nat r * d) == 1 [mod N]).
  { rewrite <- E. apply fermat_little; [done|]. intros Hdiv. apply Z.divide_pos_le in Hdiv; lia. }
  destruct (power_chain N d A r HN Hd Hf) as [H1|(i & Hi & H1)].
  - unfold congr in H1. rewrite H1, Z.mod_small by lia. done.
  - apply orb_true_iff. right. apply existsb_exists. exists i. split; [apply in_seq; lia|]. apply Z.eqb_eq, minus_one_mod; [lia|done].
Qed.

(** ** The loops of the test *)
Lemma existsb_seq_shift f g k n :
  (forall i, f i = g (S i)) -> existsb f (seq k n) = existsb g (seq (S k) n).
Proof. intros H. revert k. induction n as [|n IH]; intros k; cbn [seq existsb]; [done|]. by rewrite H, IH. Qed.

Lemma remove_twos_runs fuel d r D :
  represents d D -> 1 <= D < 2 ^ Z.of_nat fuel ->
  runs (remove_twos fuel d r) (fun '(d', r') => exists j D', r' = (r + j)%nat /\ represents d' D' /\ D = 2 ^ Z.of_nat j * D' /\ D' mod 2 = 1).
Proof.
  revert d r D. induction fuel as [|fuel IH]; intros d r D Hd HD; [cbn in HD; lia|]. cbn [remove_twos].
  eapply runs_bind; [apply divided_by_runs; [exact Hd|by apply (small_word_represents 2)|done]|]. intros [[[d1 two] q] m] (Rd & _ & Hq & Hm).
  eapply runs_bind; [by apply operator_eq_zero|]. intros [[zero m1] z] (-> & _).
  pose proof (Z.div_mod D 2 ltac:(lia)) as E. pose proof (Z.mod_pos_bound D 2 ltac:(lia)) as Hb. destruct (Z.eqb_spec (D mod 2) 0) as [E0|E0]; cbn [negb].
  - rewrite Nat2Z.inj_succ, Z.pow_succ_r in HD by lia. eapply runs_mono; [apply (IH q (S r) (D / 2) Hq); lia|].
    intros [d' r'] (j & D' & -> & HD' & ED & Hodd). exists (S j), D'. split; [lia|]. split; [done|].
    rewrite Nat2Z.inj_succ, Z.pow_succ_r by lia. split; [lia|done].
  - apply runs_ret. exists 0%nat, D. split; [lia|]. split; [by eapply refreshed_represents; [apply represents_holds|]|]. split; [lia|lia].
Qed.

Lemma square_to_predecessor_runs count x predecessor n X N :
  represents x X -> represents predecessor (N - 1) -> represents n N -> 1 < N ->
  runs (square_to_predecessor count x predecessor n) (fun '(skip, predecessor', n') =>
    skip = existsb (fun i => X ^ (2 ^ Z.of_nat (S i)) mod N =? N - 1) (seq 0 count)
    /\ represents predecessor' (N - 1) /\ represents n' N).
Proof.
  revert x predecessor n X. induction count as [|count IH]; intros x predecessor n X Hx Hp Hn HN; cbn [square_to_predecessor]; [by apply runs_ret|].
  eapply runs_bind; [apply ModularPower_runs; [exact Hx|by apply (small_word_represents 2)|exact Hn|lia]|].
  intros [[[x1 b] e] n1] (Hx1 & _ & _ & Rn). assert (Hn1 : represents n1 N) by (eapply refreshed_represents; [apply Hn|done]).
  eapply runs_bind; [apply operator_eq_runs; [exact Hx1|exact Hp]|]. intros [[equal x2] p2] (-> & Rx & Rp).
  assert (Hp2 : represents p2 (N - 1)) by (eapply refreshed_represents; [apply Hp|done]).
  assert (Hx2 : represents x2 (X ^ 2 mod N)) by (eapply refreshed_represents; [apply Hx1|done]).
  cbn [seq existsb]. change (2 ^ Z.of_nat 1) with 2. destruct (Z.eqb_spec (X ^ 2 mod N) (N - 1)) as [E|E]; cbn [orb].
  - by apply runs_ret.
  - eapply runs_mono; [by apply (IH x2 p2 n1 _ Hx2)|]. intros [[skip p'] n'] (-> & H1 & H2). split; [|done].
    rewrite (existsb_seq_shift _ (fun i => X ^ (2 ^ Z.of_nat (S i)) mod N =? N - 1)); [done|]. intros i. f_equal.
    rewrite Z.mod_pow_l, <- Z.pow_mul_r by lia. do 2 f_equal. rewrite (Nat2Z.inj_succ (S i)), (Z.pow_succ_r 2) by lia. done.
Qed.

Lemma run_tests_runs tests d predecessor n r As D N :
  Forall2 represents tests As -> Forall (fun A => A < N) As ->
  represents d D -> represents predecessor (N - 1) -> represents n N -> 1 < N -> (0 < r)%nat ->
  runs (run_tests tests d predecessor n r) (fun result => result = forallb (strong_probable_prime N D r) As).
Proof.
  intros HA. revert d predecessor n. induction HA as [|a A tests As Ha _ IH]; intros d predecessor n Hlt Hd Hp Hn HN Hr; cbn [run_tests forallb].
  { by apply runs_ret. }
  apply Forall_cons in Hlt as [HAN Hlt].
  eapply runs_bind; [by apply operator_lt_runs|]. intros [[less a1] n1] (-> & Ra & Rn). rewrite (proj2 (Z.ltb_lt A N)) by done. cbn [negb].
  assert (Ha1 : represents a1 A) by (eapply refreshed_represents; [apply Ha|done]).
  assert (Hn1 : represents n1 N) by (eapply refreshed_represents; [apply Hn|done]).
  eapply runs_bind; [apply ModularPower_runs; [exact Ha1|exact Hd|exact Hn1|lia]|]. intros [[[x a2] d2] n2] (Hx & _ & Rd & Rn2).
  assert (Hd2 : represents d2 D) by (eapply refreshed_represents; [apply Hd|done]).
  assert (Hn2 : represents n2 N) by (eapply refreshed_represents; [apply Hn1|done]). set (X := A ^ D mod N) in *.
  eapply runs_bind; [apply compare_word; [exact Hx|by apply word_small]|]. intros [[one x1] w] (-> & Rx).
  assert (Hx1 : represents x1 X) by (eapply refreshed_represents; [apply Hx|done]).
  eapply (runs_bind _ _ (fun '(passed, x', predecessor') => passed = ((X =? 1) || (X =? N - 1)) /\ represents x' X /\ represents predecessor' (N - 1))).
  { destruct (X =? 1); [by apply runs_ret|]. eapply runs_mono; [by apply operator_eq_runs|]. intros [[e x'] p'] (-> & R1 & R2).
    split; [done|]. split; eapply refreshed_represents; [apply Hx1|done|apply Hp|done]. }
  intros [[passed x2] p2] (-> & Hx2 & Hp2). destruct r as [|r]; [lia|].
  assert (E : strong_probable_prime N D (S r) A = ((X =? 1) || (X =? N - 1))
    || existsb (fun i => X ^ (2 ^ Z.of_nat (S i)) mod N =? N - 1) (seq 0 r)).
  { unfold strong_probable_prime. cbn [seq existsb]. change (2 ^ Z.of_nat 0) with 1. rewrite Z.mul_1_l. fold X. rewrite orb_assoc. f_equal.
    symmetry. apply existsb_seq_shift. intros i. f_equal. unfold X. rewrite Z.mod_pow_l, <- Z.pow_mul_r by (pose proof (holds_nonneg _ _ (represents_holds _ _ Hd)); lia).
    by rewrite Z.mul_comm. }
  rewrite E. destruct ((X =? 1) || (X =? N - 1)); cbn [orb]; [by apply IH|].
  eapply runs_bind; [replace (S r - 1)%nat with r by lia; by apply square_to_predecessor_runs|]. intros [[skip p3] n3] (-> & Hp3 & Hn3).
  destruct (existsb _ (seq 0 r)); cbn [andb]; [by apply IH|by apply runs_ret].
Qed.

Lemma MR_primality_test_runs n tests N As :
  represents n N -> 4 <= N -> Forall2 represents tests As -> Forall (fun A => A < N) As ->
  runs (MR_primality_test n tests) (fun result => exists r d, N - 1 = 2 ^ Z.of_nat r * d /\ d mod 2 = 1
    /\ result = (0 <? r)%nat && forallb (strong_probable_prime N d r) As).
Proof.
  intros Hn HN HA Hlt. unfold MR_primality_test.
  eapply runs_bind; [apply operator_lt_runs; [exact Hn|by apply (small_word_represents 4)]|]. intros [[small n1] f] (-> & Rn & _).
  rewrite (proj2 (Z.ltb_ge N 4)) by done. assert (Hn1 : represents n1 N) by (eapply refreshed_represents; [apply Hn|done]).
  eapply runs_bind; [apply subtract_without_allocation_runs; [exact Hn1|by apply (small_word_represents 1)]|].
  intros [[n2 o] predecessor] (Rn2 & _ & Hp). rewrite (proj2 (Z.ltb_ge N 1)) in Hp by lia. destruct Hp as [Hp _].
  assert (Hn2 : represents n2 N) by (eapply refreshed_represents; [apply Hn1|done]).
  eapply runs_bind; [apply (remove_twos_runs _ _ 0 _ Hp); split; [lia|by apply bits_bound, represents_holds]|].
  intros [d r] (j & D & -> & Hd & E & Hodd). rewrite Nat.add_0_l. destruct j as [|j].
  - eapply runs_bind; [apply compare_word; [exact Hn2|unfold in_width; lia]|]. intros [[two n3] w] (-> & _). apply runs_ret.
    exists 0%nat, D. split; [done|]. split; [done|]. destruct (Z.eqb_spec N 2); [lia|done].
  - eapply runs_mono; [apply (run_tests_runs tests d predecessor n2 (S j) As D N); done || lia|]. intros result ->. by exists (S j), D.
Qed.

(** ** Random numbers *)
Definition bytes_ok (l : list Z) : Prop := Forall (in_width 8) l.

(** The number of words of a value *)
Definition word_count (v : Z) : nat := if v =? 0 then 0%nat else S (Z.to_nat (Z.log2 v / 32)).

Lemma trimmed_word_count l : words_ok 32 l -> trimmed l = word_count (value 32 l).
Proof.
  intros Hok. unfold word_count. destruct (Z.eqb_spec (value 32 l) 0) as [E|E]; [by apply trimmed_zero|].
  assert (Hn : (0 < trimmed l)%nat) by (destruct (decide (trimmed l = 0%nat)) as [H|]; [apply trimmed_zero in H; [lia|done]|lia]).
  pose proof (trimmed_lower l Hok Hn) as H1. pose proof (trimmed_upper l Hok) as H2. unfold weight in H1, H2.
  apply Z.log2_le_pow2 in H1; [|lia]. destruct H2 as [H2 H3]. apply Z.log2_lt_pow2 in H3; [|lia].
  assert (E32 : Z.log2 (value 32 l) / 32 = Z.of_nat (trimmed l - 1)); [|lia].
  symmetry. apply (Z.div_unique _ 32 _ (Z.log2 (value 32 l) - 32 * Z.of_nat (trimmed l - 1))); lia.
Qed.

(** What [random_number] returns for the bytes of [fill] *)
Definition drawn (fill : nat -> list Z) (A B : Z) : Z :=
  be_value (fill (word_count (B - A) * 4 + 2)%nat) 0 mod (B - A) + A.

Lemma drawn_range fill A B : A < B -> A <= drawn fill A B < B.
Proof. intros H. unfold drawn. pose proof (Z.mod_pos_bound (be_value (fill (word_count (B - A) * 4 + 2)%nat) 0) (B - A)). lia. Qed.

Lemma random_number_runs fill min max_excluded A B :
  (forall size, bytes_ok (fill size)) -> represents min A -> represents max_excluded B -> A < B ->
  runs (random_number fill min max_excluded) (fun '(v, min', max') =>
    represents v (drawn fill A B) /\ refreshed min min' /\ refreshed max_excluded max').
Proof.
  intros Hfill HA HB Hlt. unfold random_number.
  eapply runs_bind; [apply operator_lt_runs; [exact HA|exact HB]|]. intros [[less a1] b1] (-> & Ra & Rb).
  rewrite (proj2 (Z.ltb_lt A B)) by done. cbn [negb]. assert (Ha1 : represents a1 A) by (eapply refreshed_represents; [apply HA|done]).
  assert (Hb1 : represents b1 B) by (eapply refreshed_represents; [apply HB|done]).
  eapply runs_bind; [apply subtract_without_allocation_runs; [exact Hb1|exact Ha1]|]. intros [[b2 a2] range] (Rb2 & Ra2 & Hr).
  rewrite (proj2 (Z.ltb_ge B A)) in Hr by lia. destruct Hr as [Hr _]. assert (Ha2 : represents a2 A) by (eapply refreshed_represents; [apply Ha1|done]).
  pose proof Hr as [Hrh Hrc]. destruct (trimmed_length_spec range Hrc) as (range' & -> & Rr & _).
  assert (Hr' : represents range' (B - A)) by (by eapply refreshed_represents).
  assert (trimmed (m_words range) = word_count (B - A)) as -> by (destruct Hrh as (Hok & <- & _); by apply trimmed_word_count).
  eapply runs_bind; [apply import_data_runs, Hfill|]. intros random Hrandom.
  eapply runs_bind; [apply divided_by_runs; [exact Hrandom|exact Hr'|lia]|]. intros [[[x y] q] m] (_ & _ & _ & Hm).
  eapply runs_bind; [apply add_without_allocation_runs; [exact Hm|exact Ha2]|]. intros [[m' a3] v] (_ & Ra3 & Hv). apply runs_ret.
  split; [done|]. split; [|by eapply refreshed_trans]. eapply refreshed_trans; [exact Ra|]. by eapply refreshed_trans.
Qed.

(** ** Small primes *)
Definition prime_check (p : Z) : bool :=
  (1 <? p) && forallb (fun n => Z.gcd (Z.of_nat n) p =? 1) (seq 1 (Z.to_nat (p - 1))).

Lemma prime_check_prime p : prime_check p = true -> prime p.
Proof.
  intros [H1 H2]%andb_true_iff. apply Z.ltb_lt in H1. apply prime_intro; [done|]. intros n Hn. apply Zgcd_1_rel_prime.
  rewrite forallb_forall in H2. specialize (H2 (Z.to_nat n)). rewrite Z2Nat.id in H2 by lia. apply Z.eqb_eq, H2, in_seq. lia.
Qed.

Definition small_test (p : Z) : bool :=
  if (p =? 2) || (p =? 3) || (p =? 5) || (p =? 7) then true
  else if (p mod 2 =? 0) || (p mod 3 =? 0) || (p mod 5 =? 0) || (p mod 7 =? 0) then false
  else true.

Lemma small_test_sound p : 0 <= p < 49 -> small_test p = true -> prime p \/ p = 1.
Proof.
  intros Hp Ht. assert (H : forallb (fun i => implb (small_test (Z.of_nat i)) (prime_check (Z.of_nat i) || (Z.of_nat i =? 1))) (seq 0 49) = true)
    by (vm_compute; reflexivity).
  rewrite forallb_forall in H. specialize (H (Z.to_nat p)). rewrite Z2Nat.id, Ht in H by lia. cbn [implb] in H.
  destruct (proj1 (orb_true_iff _ _) (H ltac:(apply in_seq; lia))) as [E|E]; [left; by apply prime_check_prime|right; by apply Z.eqb_eq].
Qed.

Lemma small_test_complete p : prime p -> small_test p = true.
Proof.
  intros Hp. unfold small_test. pose proof (prime_ge_2 p Hp) as Hp2. destruct (_ || _ || _ || _) eqn:E1; [done|].
  apply orb_false_iff in E1 as [E1 E7]. apply orb_false_iff in E1 as [E1 E5]. apply orb_false_iff in E1 as [E2 E3].
  assert (H : forall k, 1 < k -> (p =? k) = false -> (p mod k =? 0) = false).
  { intros k Hk Hne. apply Z.eqb_neq in Hne. apply Z.eqb_neq. intros E. apply Z.mod_divide in E; [|lia].
    apply (prime_divisors p Hp) in E. lia. }
  by rewrite !H by (done || lia).
Qed.

Lemma first_word u a : holds u a -> m_words u <> [] -> a < 2 ^ 32 -> at_index (m_words u) 0 = Ok a.
Proof.
  intros (Hok & <- & _) Hne Ha. destruct (m_words u) as [|x l]; [done|]. change (at_index (x :: l) 0) with (Ok x). f_equal.
  cbn [value] in *. apply Forall_cons in Hok as [Hx Hl]. pose proof (value_bound 32 word_width l Hl). unfold in_width in Hx. nia.
Qed.

(** ** Probable primes *)
Definition tests_drawn (p : UnsignedBigInteger) (P : Z) (i : nat) (s : list UnsignedBigInteger * UnsignedBigInteger * UnsignedBigInteger) : Prop :=
  let '(tests, seventeen, p') := s in
  refreshed p p' /\ represents seventeen 17
  /\ exists As, Forall2 represents tests As /\ Forall (fun A => 0 < A < P) As.

Lemma draw_tests_runs random p P :
  (forall i size, bytes_ok (random i size)) -> represents p P -> 49 <= P ->
  runs (for_range (length first_tests) 256 (fun i '(tests, seventeen, p) =>
      ' (p, _, max_excluded) ← minus p (from_word 2);
      ' (test, seventeen, _) ← random_number (random i) seventeen max_excluded;
      Ok (tests ++ [test], seventeen, p)) (first_tests, from_word 17, p)) (tests_drawn p P 256).
Proof.
  intros Hr Hp HP. apply (for_range_runs (tests_drawn p P)); [cbn; lia| |].
  - split; [apply refreshed_refl, Hp|]. split; [by apply small_word_represents|]. exists [2; 3; 5; 7; 11; 13]. split.
    + repeat (apply Forall2_cons; split; [by apply small_word_represents|]). constructor.
    + repeat (apply Forall_cons; split; [lia|]). constructor.
  - intros i [[tests seventeen] p1] _ (Rp & H17 & As & HA & Hlt). assert (Hp1 : represents p1 P) by (eapply refreshed_represents; [apply Hp|done]).
    eapply runs_bind; [apply subtract_without_allocation_runs; [exact Hp1|by apply (small_word_represents 2)]|].
    intros [[p2 w] max] (Rp2 & _ & Hmax). rewrite (proj2 (Z.ltb_ge P 2)) in Hmax by lia. destruct Hmax as [Hmax _].
    eapply runs_bind; [apply (random_number_runs (random i) seventeen max 17 (P - 2)); done || lia|].
    intros [[t s'] m'] (Ht & Rs & _). pose proof (drawn_range (random i) 17 (P - 2) ltac:(lia)). set (V := drawn _ _ _) in *. apply runs_ret. split; [by eapply refreshed_trans|].
    split; [by eapply refreshed_represents; [apply represents_holds|]|]. exists (As ++ [V]).
    split; [by apply Forall2_app; [|apply Forall2_cons]|]. apply Forall_app_2; [done|]. apply Forall_singleton. lia.
Qed.

Lemma is_probably_prime_runs random p P :
  (forall i size, bytes_ok (random i size)) -> represents p P -> m_words p <> [] ->
  runs (is_probably_prime random p) (fun '(result, p') => refreshed p p' /\ (prime P -> result = true)
    /\ (result = true -> P < 49 -> prime P \/ P = 1) /\ (result = true -> 49 <= P -> P mod 2 = 1)).
Proof.
  intros Hr Hp Hne. pose proof (holds_nonneg _ _ (represents_holds _ _ Hp)) as HP0. unfold is_probably_prime.
  eapply runs_bind; [apply operator_lt_runs; [exact Hp|by apply (small_word_represents 49)]|]. intros [[small p1] w] (-> & Rp & _).
  assert (Hp1 : represents p1 P) by (eapply refreshed_represents; [apply Hp|done]).
  destruct (Z.ltb_spec P 49) as [Hlt|Hge].
  - rewrite (first_word p1 P) by (apply Hp1 || lia || by destruct Rp as (-> & _)). ret.
    assert (E : forall b, small_test P = b -> refreshed p p1 /\ (prime P -> b = true) /\ (b = true -> P < 49 -> prime P \/ P = 1) /\ (b = true -> 49 <= P -> P mod 2 = 1)).
    { intros b <-. split; [done|]. split; [apply small_test_complete|]. split; [intros Ht _; by apply small_test_sound|lia]. }
    unfold small_test in E. destruct (_ || _ || _ || _); [apply runs_ret; by apply E|].
    destruct (_ || _ || _ || _); apply runs_ret; by apply E.
  - eapply runs_bind; [by apply draw_tests_runs|]. intros [[tests s17] p2] (Rp2 & _ & As & HA & Hlt).
    assert (Hp2 : represents p2 P) by (eapply refreshed_represents; [apply Hp1|done]).
    eapply runs_bind; [apply (MR_primality_test_runs p2 tests P As Hp2 ltac:(lia) HA)|].
    { eapply Forall_impl; [exact Hlt|]. intros A HAP. cbn beta in HAP. lia. }
    intros result (r & d & E & Hodd & ->). apply runs_ret. split; [by eapply refreshed_trans|].
    assert (Hd : 0 <= d) by nia. split; [|split; [lia|]].
    + intros HPr. apply andb_true_iff. split.
      * destruct r as [|r]; [|done]. exfalso. cbn in E. pose proof (prime_divisors P HPr 2) as H2.
        assert ((2 | P)) as Hdiv by (apply Z.mod_divide; [lia|]; replace P with (d + 1) by lia; rewrite Zplus_mod, Hodd; done).
        apply H2 in Hdiv. lia.
      * apply forallb_forall. intros A HA'. apply prime_passes; [done..|]. rewrite List.Forall_forall in Hlt. by apply Hlt.
    + intros [Hr0 _]%andb_true_iff _. destruct r as [|r]; [done|]. rewrite Nat2Z.inj_succ, Z.pow_succ_r in E by lia.
      replace P with (1 + 2 ^ Z.of_nat r * d * 2) by lia. by rewrite Z.mod_add by lia.
Qed.

(** ** Random primes *)
Lemma parity_bit x : (Z.land x 1 =? 0) = negb (x mod 2 =? 1).
Proof.
  change 1 with (Z.ones 1) at 1. rewrite Z.land_ones by lia. change (2 ^ 1) with 2. pose proof (Z.mod_pos_bound x 2 ltac:(lia)).
  destruct (Z.eqb_spec (x mod 2) 0), (Z.eqb_spec (x mod 2) 1); try done; lia.
Qed.

Lemma random_big_prime_loop_runs attempts random tests k min max A B :
  (forall i size, bytes_ok (random i size)) -> (forall i j size, bytes_ok (tests i j size)) ->
  represents min A -> represents max B -> 2 < A < B ->
  runs (random_big_prime_loop attempts random tests k min max) (fun result =>
    match result with
    | Some p => exists P, represents p P /\ A <= P < B /\ P mod 2 = 1
    | None => forall i, (k <= i < k + attempts)%nat -> ~ prime (drawn (random i) A B)
    end).
Proof.
  intros Hr Ht. revert k min max. induction attempts as [|attempts IH]; intros k min max HA HB HAB; cbn [random_big_prime_loop]; [apply runs_ret; lia|].
  eapply runs_bind; [apply (random_number_runs (random k) min max A B); done || lia|]. intros [[p min1] max1] (Hp & Rmin & Rmax).
  pose proof (drawn_range (random k) A B ltac:(lia)) as HP. set (P := drawn (random k) A B) in *.
  assert (HA1 : represents min1 A) by (eapply refreshed_represents; [apply HA|done]).
  assert (HB1 : represents max1 B) by (eapply refreshed_represents; [apply HB|done]).
  assert (Hnext : ~ prime P -> runs (random_big_prime_loop attempts random tests (S k) min1 max1) (fun result =>
    match result with
    | Some p => exists P, represents p P /\ A <= P < B /\ P mod 2 = 1
    | None => forall i, (k <= i < k + S attempts)%nat -> ~ prime (drawn (random i) A B)
    end)).
  { intros Hnp. eapply runs_mono; [by apply (IH (S k) min1 max1)|]. intros [q|] Hq; [done|]. intros i Hi.
    destruct (decide (i = k)) as [-> |]; [done|]. apply Hq. lia. }
  assert (Hne : m_words p <> []) by (intros E; destruct Hp as [(_ & Hv & _) _]; rewrite E in Hv; cbn in Hv; lia).
  destruct (at_index_some (m_words p) 0 ltac:(destruct (m_words p); [done|cbn; lia])) as (x & Hx & Ex). change (Z.of_nat 0) with 0 in Ex. rewrite Ex. ret.
  rewrite parity_bit, (low_word_parity p P x (represents_holds _ _ Hp) Hx). destruct (Z.eqb_spec (P mod 2) 1) as [Eo|Ee]; cbn [negb].
  - eapply runs_bind; [by apply (is_probably_prime_runs (tests k) p P)|]. intros [b p'] (Rp & Hprime & _).
    destruct b; [|apply Hnext; intros Hpr; by specialize (Hprime Hpr)]. apply runs_ret. exists P.
    split; [by eapply refreshed_represents; [apply represents_holds|]|done].
  - apply Hnext. intros Hpr. apply Ee. pose proof (prime_divisors P Hpr 2) as H2. pose proof (Z.mod_pos_bound P 2 ltac:(lia)).
    destruct (decide (P mod 2 = 0)) as [E|]; [|lia]. apply Z.mod_divide in E; [|lia]. apply H2 in E. lia.
Qed.

Lemma random_big_prime_runs attempts random tests bits :
  (forall i size, bytes_ok (random i size)) -> (forall i j size, bytes_ok (tests i j size)) -> (33 <= bits)%nat ->
  let A := 6074001000 * 2 ^ Z.of_nat (bits - 33) in
  let B := 2 ^ Z.of_nat bits - 1 in
  runs (random_big_prime attempts random tests bits) (fun result =>
    match result with
    | Some p => exists P, represents p P /\ A <= P < B /\ P mod 2 = 1
    | None => forall i, (i < attempts)%nat -> ~ prime (drawn (random i) A B)
    end).
Proof.
  intros Hr Ht Hbits A B. unfold random_big_prime. rewrite (proj2 (Nat.ltb_ge bits 33)) by done.
  eapply runs_bind.
  { unfold from_base. cbn [Z.ltb Z.compare Pos.compare Pos.compare_cont].
    apply (from_base_loop_runs 10 (from_word 10) empty_integer prime_bound_text 0); [lia|by apply small_word_represents|apply holds_empty]. }
  intros l Hl. change (text_value 10 prime_bound_text 0) with (inr 6074001000 : parse_error + Z) in Hl. destruct Hl as (bound & -> & Hb).
  eapply runs_bind; [apply shift_left_without_allocation_runs; apply Hb|]. intros min (Hmin & Cmin). fold A in Hmin.
  eapply runs_bind; [apply shift_left_without_allocation_runs; by apply (small_word_represents 1)|]. intros power (Hpow & Cpow). rewrite Z.mul_1_l in Hpow.
  eapply runs_bind; [apply subtract_without_allocation_runs; [by apply cache_none|by apply (small_word_represents 1)]|].
  assert (Hp33 : 2 ^ Z.of_nat bits = 2 ^ 33 * 2 ^ Z.of_nat (bits - 33)) by (rewrite <- Z.pow_add_r by lia; f_equal; lia).
  assert (Hpos : 0 < 2 ^ Z.of_nat (bits - 33)) by lia.
  intros [[p' o] max] (_ & _ & Hmax). rewrite (proj2 (Z.ltb_ge _ 1)) in Hmax by lia. destruct Hmax as [Hmax _]. fold B in Hmax.
  eapply runs_mono; [apply (random_big_prime_loop_runs attempts random tests 0 min max A B); try done; [by apply cache_none|unfold A, B; lia]|].
  intros [p|] H; [done|]. intros i Hi. apply H. lia.
Qed.

(** C29: The Miller-Rabin test always returns, and returns exactly whether the number is odd and a strong
    probable prime to every base: A^d is one, or one of the squares A^(2^i d), i < r, is minus
    one, where N - 1 = 2^r d with d odd.  So a prime is never called composite. *)
Theorem miller_rabin_exact n tests N As :
  represents n N -> 4 <= N -> Forall2 represents tests As -> Forall (fun A => 0 < A < N) As ->
  runs (MR_primality_test n tests) (fun result => exists r d, N - 1 = 2 ^ Z.of_nat r * d /\ d mod 2 = 1
    /\ result = (0 <? r)%nat && forallb (strong_probable_prime N d r) As /\ (prime N -> forallb (strong_probable_prime N d r) As = true)).
Proof.
  intros Hn HN HA Hlt. eapply runs_mono; [apply (MR_primality_test_runs n tests N As Hn HN HA)|].
  - eapply Forall_impl; [exact Hlt|]. intros A HAN. cbn beta in HAN. lia.
  - intros result (r & d & E & Hd & ->). exists r, d. split; [done|]. split; [done|]. split; [done|]. intros Hp.
    apply forallb_forall. intros A HA'. apply prime_passes; [done|nia|done|]. rewrite List.Forall_forall in Hlt. by apply Hlt.
Qed.

Lemma miller_rabin_exact_witness :
  represents (from_word 65537) 65537 /\ 4 <= 65537 /\ Forall2 represents [from_word 2; from_word 3] [2; 3]
  /\ Forall (fun A => 0 < A < 65537) [2; 3]
  /\ runs (MR_primality_test (from_word 65537) [from_word 2; from_word 3]) (fun result => exists r d, 65537 - 1 = 2 ^ Z.of_nat r * d /\ d mod 2 = 1
    /\ result = (0 <? r)%nat && forallb (strong_probable_prime 65537 d r) [2; 3]
    /\ (prime 65537 -> forallb (strong_probable_prime 65537 d r) [2; 3] = true)).
Proof.
  assert (H : represents (from_word 65537) 65537) by (by apply small_word_represents).
  assert (HA : Forall2 represents [from_word 2; from_word 3] [2; 3]).
  { apply Forall2_cons. split; [by apply small_word_represents|]. apply Forall2_cons. split; [by apply small_word_represents|]. constructor. }
  assert (HB : Forall (fun A => 0 < A < 65537) [2; 3]) by (apply Forall_cons; split; [lia|apply Forall_singleton; lia]).
  split; [exact H|]. split; [lia|]. split; [exact HA|]. split; [exact HB|]. apply miller_rabin_exact; [exact H|lia|exact HA|exact HB].
Defined.

(** [is_probably_prime] always returns and accepts every prime, whatever random numbers it draws; below
    49 it accepts nothing else, but for one; above, it accepts no even number. *)
Theorem probable_prime_exact random p P :
  (forall i size, bytes_ok (random i size)) -> represents p P -> m_words p <> [] ->
  runs (is_probably_prime random p) (fun '(result, p') => refreshed p p' /\ (prime P -> result = true)
    /\ (result = true -> P < 49 -> prime P \/ P = 1) /\ (result = true -> 49 <= P -> P mod 2 = 1)).
Proof. apply is_probably_prime_runs. Qed.

Lemma probable_prime_exact_witness :
  (forall i size : nat, bytes_ok (replicate size 7)) /\ represents (from_word 53) 53 /\ prime 53
  /\ runs (is_probably_prime (fun _ size => replicate size 7) (from_word 53)) (fun '(result, _) => result = true).
Proof.
  assert (Hr : forall i size : nat, bytes_ok (replicate size 7)) by (intros i size; by apply Forall_replicate).
  assert (Hp : represents (from_word 53) 53) by (by apply small_word_represents).
  assert (H53 : prime 53) by (apply prime_check_prime; vm_compute; reflexivity).
  split; [exact Hr|]. split; [exact Hp|]. split; [exact H53|].
  eapply runs_mono; [apply (probable_prime_exact (fun _ size => replicate size 7) (from_word 53) 53 Hr Hp); done|].
  intros [result p'] (_ & H & _). by apply H.
Defined.

(** [random_big_prime] does not fail and stops at the first prime it draws at the latest; the number
    it returns is odd and so large that the product of two of them has exactly twice the
    requested bits. *)
Theorem random_big_prime_exact attempts random tests bits :
  (forall i size, bytes_ok (random i size)) -> (forall i j size, bytes_ok (tests i j size)) -> (33 <= bits)%nat ->
  runs (random_big_prime attempts random tests bits) (fun result =>
    match result with
    | Some p => exists P, represents p P /\ P mod 2 = 1 /\ P < 2 ^ Z.of_nat bits
        /\ 2 ^ (2 * Z.of_nat bits - 1) <= P * P
    | None => forall i, (i < attempts)%nat ->
        ~ prime (drawn (random i) (6074001000 * 2 ^ Z.of_nat (bits - 33)) (2 ^ Z.of_nat bits - 1))
    end).
Proof.
  intros Hr Ht Hbits. eapply runs_mono; [by apply random_big_prime_runs|]. intros [p|] H; [|done].
  destruct H as (P & Hp & HP & Ho). exists P. split; [done|]. split; [done|]. split; [lia|].
  set (k := 2 ^ Z.of_nat (bits - 33)) in *. assert (0 < k) by (unfold k; lia).
  transitivity (6074001000 * k * (6074001000 * k)); [|nia].
  replace (2 ^ (2 * Z.of_nat bits - 1)) with (2 ^ 65 * (k * k)); [nia|]. unfold k. rewrite <- !Z.pow_add_r by lia. f_equal. lia.
Qed.

Lemma random_big_prime_exact_witness :
  (33 <= 64)%nat /\ (forall i size : nat, bytes_ok (replicate size 7))
  /\ runs (random_big_prime 3 (fun _ size => replicate size 7) (fun _ _ size => replicate size 7) 64) (fun result =>
    match result with
    | Some p => exists P, represents p P /\ P mod 2 = 1 /\ P < 2 ^ 64 /\ 2 ^ 127 <= P * P
    | None => forall i, (i < 3)%nat -> ~ prime (drawn (fun size => replicate size 7) (6074001000 * 2 ^ 31) (2 ^ 64 - 1))
    end).
Proof.
  assert (Hr : forall i size : nat, bytes_ok (replicate size 7)) by (intros i size; by apply Forall_replicate).
  split; [lia|]. split; [exact Hr|].
  apply (random_big_prime_exact 3 (fun _ size => replicate size 7) (fun _ _ size => replicate size 7) 64);
    [exact Hr|intros i j size; apply (Hr i)|lia].
Defined.
