(* ===== verification/EvenModulus.v ===== *)
(** * The modular inverse modulo an even number

    [ModularInverse] (LibCrypto/BigInt/Algorithms/ModularInverse.cpp) keeps d and x so that
    d a = u and x a = v up to sign, modulo b, and halves them together with u and v, which takes b
    to be odd: when d is odd it adds b to make it even.  The theorem shows what an even b gives:
    d and x are b - 1 from the first round on, and b - 1 is the result for every a.  The modulus
    of the key generation of RSA, the least common multiple of p - 1 and q - 1, is even. *)
From Stdlib Require Import Znumtheory.
From S2P Require Import Prelude Congruence BigIntBase UnsignedBigInteger BigIntDivision NumberTheory Montgomery Primality.

Local Open Scope Z_scope.

Lemma word_count_unique n v : weight 32 n <= v < weight 32 (S n) -> word_count v = S n.
Proof.
  intros H. pose proof (weight_pos 32 word_width n). assert (Hv : 0 < v) by lia. unfold word_count. rewrite (proj2 (Z.eqb_neq v 0)) by lia. unfold weight in H. f_equal.
  destruct H as [H1 H2]. apply Z.log2_le_pow2 in H1; [|lia]. apply Z.log2_lt_pow2 in H2; [|lia].
  assert (Z.log2 v / 32 = Z.of_nat n); [|lia]. symmetry. apply (Z.div_unique _ 32 _ (Z.log2 v - 32 * Z.of_nat n)); lia.
Qed.

Lemma halve_runs u a : represents u a -> runs (halve u) (fun u' => represents u' (a / 2)).
Proof.
  intros Hu. unfold halve. eapply runs_bind; [by apply divide_u16_runs|]. intros [[u1 q] r] (_ & Hq & _). apply runs_ret. apply holds_set_to, Hq.
Qed.

Section even_modulus.
Context (B : Z) (n : nat) (Heven : B mod 2 = 0) (HB : weight 32 n < B) (HB2 : 2 * B <= weight 32 (S n)).

(** Adding keeps the cached length right while the sum has as many words. *)
Lemma accumulate_runs acc val a c :
  represents acc a -> represents val c -> weight 32 n <= a -> 0 <= c -> a + c < weight 32 (S n) ->
  runs (add_into_accumulator_without_allocation acc val) (fun '(acc', val') => represents acc' (a + c) /\ refreshed val val').
Proof using.
  intros Ha Hc Hlo H0 Hhi. eapply runs_mono; [by apply add_into_accumulator_runs; [apply represents_holds|]|].
  intros [acc' val'] (H1 & Hcache & R). split; [|done]. split; [done|]. destruct Ha as [(Haok & Hav & _) Hac]. destruct H1 as (H1ok & H1v & _).
  unfold cache_ok in *. rewrite Hcache. destruct (m_cached_trimmed_length acc) as [k|]; [|done].
  rewrite Hac, !trimmed_word_count, Hav, H1v by done. by rewrite !(word_count_unique n) by lia.
Qed.

Lemma halve_while_even_runs fuel even odd b E O :
  represents even E -> 1 <= E < 2 ^ Z.of_nat fuel -> represents odd O -> (O = B - 1 \/ O = 2 * B - 2) -> represents b B ->
  runs (halve_while_even fuel even odd b) (fun '(even', odd', b') => exists E', represents even' E' /\ 1 <= E' /\ E' mod 2 = 1 /\ (E' | E)
    /\ (if E mod 2 =? 1 then E' = E /\ represents odd' O else 2 * E' <= E /\ represents odd' (B - 1)) /\ represents b' B).
Proof using Heven HB HB2.
  pose proof (weight_pos 32 word_width n) as Hpos. revert even odd b E O. induction fuel as [|fuel IH]; intros even odd b E O He HE Ho HO Hb; [cbn in HE; lia|].
  cbn [halve_while_even]. rewrite (is_odd_spec even E) by apply He. pose proof (Z.mod_pos_bound E 2 ltac:(lia)).
  destruct (Z.eqb_spec (E mod 2) 1) as [Eo|Ee].
  { apply runs_ret. exists E. split; [done|]. split; [lia|]. split; [done|]. split; [apply Z.divide_refl|]. done. }
  assert (E = 2 * (E / 2)) as EE by (pose proof (Z.div_mod E 2 ltac:(lia)); lia).
  eapply (runs_bind _ _ (fun '(odd', b') => exists O', represents odd' O' /\ O' / 2 = B - 1 /\ represents b' B)).
  { rewrite (is_odd_spec odd O) by apply Ho. destruct HO as [-> | ->].
    - rewrite Zminus_mod, Heven. change ((0 - 1 mod 2) mod 2 =? 1) with true. cbv iota.
      eapply runs_mono; [apply (accumulate_runs odd b (B - 1) B); done || lia|]. intros [odd' b'] [H1 R]. exists (B - 1 + B). split; [done|].
      split; [|by eapply refreshed_represents; [apply represents_holds|]]. replace (B - 1 + B) with (1 + (B - 1) * 2) by lia. by rewrite Z.div_add by lia.
    - replace (2 * B - 2) with ((B - 1) * 2) by lia. rewrite Z.mod_mul by lia. cbn [Z.eqb]. apply runs_ret. exists ((B - 1) * 2).
      split; [by replace ((B - 1) * 2) with (2 * B - 2) by lia|]. split; [by rewrite Z.div_mul|done]. }
  intros [odd1 b1] (O' & Ho1 & EO & Hb1). eapply runs_bind; [by apply halve_runs|]. intros e2 He2. eapply runs_bind; [by apply halve_runs|].
  intros o2 Ho2. rewrite EO in Ho2. rewrite Nat2Z.inj_succ, Z.pow_succ_r in HE by lia.
  eapply runs_mono; [apply (IH e2 o2 b1 (E / 2) (B - 1) He2); [lia|done|by left|done]|].
  intros [[e' o'] b'] (E' & H1 & H2 & H3 & H4 & H5 & H6). exists E'. split; [done|]. split; [done|]. split; [done|].
  split; [rewrite EE; by apply Z.divide_mul_r|]. split; [|done]. destruct (E / 2 mod 2 =? 1); destruct H5 as [H5 H7]; split; done || lia.
Qed.

(** The four numbers of the loops after the first round *)
Definition inverse_state (u v d x b : UnsignedBigInteger) (U V : Z) : Prop :=
  represents u U /\ represents v V /\ represents d (B - 1) /\ represents x (B - 1) /\ represents b B
  /\ U mod 2 = 1 /\ V mod 2 = 1 /\ 1 <= U /\ 1 <= V /\ rel_prime U V.

(** One subtraction of [small] from [large], with the sum of their multipliers *)
Lemma subtract_and_halve_runs {A} fuel large small ml ms b L S (f : UnsignedBigInteger -> UnsignedBigInteger -> UnsignedBigInteger -> UnsignedBigInteger -> UnsignedBigInteger -> outcome A) Q :
  represents large L -> represents small S -> represents ml (B - 1) -> represents ms (B - 1) -> represents b B ->
  L mod 2 = 1 -> S mod 2 = 1 -> 1 <= S < L -> L < 2 ^ Z.of_nat fuel ->
  (forall large' small' ml' ms' b' L', represents large' L' -> represents small' S -> represents ml' (B - 1) -> represents ms' (B - 1) -> represents b' B ->
     L' mod 2 = 1 -> 1 <= L' -> 2 * L' <= L -> (L' | L - S) -> runs (f large' small' ml' ms' b') Q) ->
  runs (' (large, small, temp_minus) ← subtract_without_allocation large small empty_integer;
        let large := set_to large temp_minus in
        ' (ml, ms) ← add_into_accumulator_without_allocation ml ms;
        ' (large, ml, b) ← halve_while_even fuel large ml b;
        f large small ml ms b) Q.
Proof using Heven HB HB2.
  intros Hl Hs Hml Hms Hb HL HS HSL Hfuel Hf. pose proof (weight_pos 32 word_width n) as Hpos.
  eapply runs_bind; [by apply subtract_without_allocation_runs|]. intros [[l1 s1] t] (_ & Rs & Ht).
  rewrite (proj2 (Z.ltb_ge L S)) in Ht by lia. destruct Ht as [Ht _].
  eapply runs_bind; [apply (accumulate_runs ml ms (B - 1) (B - 1)); done || lia|]. intros [ml1 ms1] [Hml1 Rms].
  replace (B - 1 + (B - 1)) with (2 * B - 2) in Hml1 by lia.
  assert (Hev : (L - S) mod 2 = 0) by (by rewrite Zminus_mod, HL, HS).
  eapply runs_bind; [apply (halve_while_even_runs fuel _ ml1 b (L - S) (2 * B - 2)); [apply holds_set_to, Ht|lia|done|by right|done]|].
  intros [[l2 ml2] b2] (L' & H1 & H2 & H3 & H4 & H5 & H6). rewrite Hev in H5. destruct H5 as [H5 H7].
  assert (Hs1 : represents s1 S) by (eapply refreshed_represents; [apply Hs|done]).
  assert (Hms1 : represents ms1 (B - 1)) by (eapply refreshed_represents; [apply Hms|done]).
  apply (Hf _ _ _ _ _ L'); done || lia.
Qed.

Lemma rel_prime_difference L S L' : rel_prime L S -> (L' | L - S) -> rel_prime L' S.
Proof using.
  intros H Hd. apply rel_prime_div with (L - S); [|done]. apply Zgcd_1_rel_prime. apply Zgcd_1_rel_prime in H.
  by rewrite Z.gcd_comm, Z.gcd_sub_diag_r, Z.gcd_comm.
Qed.

Lemma reduce_u_runs fuel u v d x b U V :
  inverse_state u v d x b U V -> V <> 1 -> U < 2 ^ Z.of_nat fuel ->
  runs (reduce_u fuel u v d x b) (fun '(u', v', d', x', b') => exists U', inverse_state u' v' d' x' b' U' V /\ U' < V /\ U' <= U).
Proof using Heven HB HB2.
  revert u v d x b U. induction fuel as [|fuel IH]; intros u v d x b U (Hu & Hv & Hd & Hx & Hb & HU & HV & HU1 & HV1 & Hrp) Hne Hlt; [cbn in Hlt; lia|].
  cbn [reduce_u]. eapply runs_bind; [apply operator_lt_runs; [exact Hv|exact Hu]|]. intros [[less v1] u1] (-> & Rv & Ru).
  assert (Hv1 : represents v1 V) by (eapply refreshed_represents; [apply Hv|done]).
  assert (Hu1 : represents u1 U) by (eapply refreshed_represents; [apply Hu|done]).
  destruct (Z.ltb_spec V U) as [HVU|HUV]; cbn [negb].
  - apply (subtract_and_halve_runs (S fuel) u1 v1 d x b U V (fun u v d x b => reduce_u fuel u v d x b)); try done.
    intros u2 v2 d2 x2 b2 U2 H1 H2 H3 H4 H5 H6 H7 H8 H9. rewrite Nat2Z.inj_succ, Z.pow_succ_r in Hlt by lia.
    eapply runs_mono; [apply (IH u2 v2 d2 x2 b2 U2); [|done|lia]|].
    + repeat (split; [done|]). by apply (rel_prime_difference U V).
    + intros [[[[u' v'] d'] x'] b'] (U' & HI & H10 & H11). exists U'. split; [done|]. lia.
  - apply runs_ret. exists U. split; [by repeat (split; [done|])|]. split; [|lia].
    destruct (decide (U = V)) as [-> |]; [|lia]. exfalso. apply Hne. apply Zgcd_1_rel_prime in Hrp. rewrite Z.gcd_diag in Hrp. lia.
Qed.

Lemma modular_inverse_loop_runs fuel u v d x b U V :
  inverse_state u v d x b U V -> U * V < 2 ^ Z.of_nat fuel ->
  runs (modular_inverse_loop fuel u v d x b) (fun '(x', b') => represents x' (B - 1) /\ represents b' B).
Proof using Heven HB HB2.
  revert u v d x b U V. induction fuel as [|fuel IH]; intros u v d x b U V HI Hlt;
    pose proof HI as (Hu & Hv & Hd & Hx & Hb & HU & HV & HU1 & HV1 & Hrp); [cbn in Hlt; nia|].
  cbn [modular_inverse_loop]. eapply runs_bind; [apply compare_word; [exact Hv|by apply word_small]|]. intros [[one v1] w] (-> & Rv).
  assert (Hv1 : represents v1 V) by (eapply refreshed_represents; [apply Hv|done]).
  destruct (Z.eqb_spec V 1) as [E|Hne]; [by apply runs_ret|].
  eapply runs_bind; [apply (reduce_u_runs (S fuel) u v1 d x b U V); [by repeat (split; [done|])|done|nia]|].
  intros [[[[u2 v2] d2] x2] b2] (U2 & (Hu2 & Hv2 & Hd2 & Hx2 & Hb2 & HU2 & _ & HU21 & _ & Hrp2) & HUV & HUU).
  rewrite Nat2Z.inj_succ, Z.pow_succ_r in Hlt by lia.
  apply (subtract_and_halve_runs (S fuel) v2 u2 x2 d2 b2 V U2 (fun v u x d b => modular_inverse_loop fuel u v d x b)); try done.
  { rewrite Nat2Z.inj_succ, Z.pow_succ_r by lia. nia. }
  intros v3 u3 x3 d3 b3 V3 H1 H2 H3 H4 H5 H6 H7 H8 H9. apply (IH u3 v3 d3 x3 b3 U2 V3); [|nia].
  repeat (split; [done|]). apply rel_prime_sym, (rel_prime_difference V U2); [by apply rel_prime_sym|done].
Qed.
End even_modulus.

(** The first round: v, the modulus, is even and u less. *)
Lemma first_round_runs fuel u v d b A B n :
  B mod 2 = 0 -> A mod 2 = 1 -> weight 32 n < B -> 2 * B <= weight 32 (S n) -> 0 < A < B -> rel_prime A B ->
  represents u A -> represents v B -> represents d (B - 1) -> represents b B -> A * B < 2 ^ Z.of_nat fuel ->
  runs (modular_inverse_loop (S fuel) u v d (set_to_word empty_integer 0) b) (fun '(x', b') => represents x' (B - 1) /\ represents b' B).
Proof.
  intros Heven HA HB HB2 HAB Hrp Hu Hv Hd Hb Hfuel. pose proof (weight_pos 32 word_width n) as Hpos. cbn [modular_inverse_loop reduce_u].
  eapply runs_bind; [apply compare_word; [exact Hv|by apply word_small]|]. intros [[one v1] w] (-> & Rv).
  assert (Hv1 : represents v1 B) by (eapply refreshed_represents; [apply Hv|done]). rewrite (proj2 (Z.eqb_neq B 1)) by lia.
  eapply (runs_bind _ _ (fun '(u', v', d', x', b') => represents u' A /\ represents v' B /\ d' = d /\ x' = set_to_word empty_integer 0 /\ b' = b)).
  { eapply runs_bind; [apply operator_lt_runs; [exact Hv1|exact Hu]|]. intros [[less v2] u2] (-> & Rv2 & Ru).
    rewrite (proj2 (Z.ltb_ge B A)) by lia. apply runs_ret. split; [by eapply refreshed_represents; [apply represents_holds|]|].
    split; [by eapply refreshed_represents; [apply represents_holds|]|done]. }
  intros [[[[u2 v2] d2] x2] b2] (Hu2 & Hv2 & -> & -> & ->).
  eapply runs_bind; [apply subtract_without_allocation_runs; [exact Hv2|exact Hu2]|]. intros [[v3 u3] t] (_ & Ru & Ht).
  rewrite (proj2 (Z.ltb_ge B A)) in Ht by lia. destruct Ht as [Ht _]. assert (Hu3 : represents u3 A) by (eapply refreshed_represents; [apply Hu2|done]).
  eapply runs_bind; [apply add_into_accumulator_runs; [by apply set_to_word_holds|exact Hd]|]. intros [x3 d3] (Hx3 & Cx3 & Rd). cbn [Z.add] in Hx3.
  assert (Hx3' : represents x3 (B - 1)) by (by apply cache_none). assert (Hd3 : represents d3 (B - 1)) by (eapply refreshed_represents; [apply Hd|done]).
  assert (Hodd : (B - A) mod 2 = 1) by (by rewrite Zminus_mod, Heven, HA).
  assert (Hv3 : represents (set_to v3 t) (B - A)) by apply holds_set_to, Ht.
  cbn [halve_while_even]. rewrite (is_odd_spec _ (B - A)) by apply Hv3. rewrite Hodd. cbn [Z.eqb Pos.eqb]. ret.
  apply (modular_inverse_loop_runs B n Heven HB HB2 fuel _ _ _ _ _ A (B - A)); [|nia].
  repeat (split; [done || lia|]). apply Zgcd_1_rel_prime. rewrite Z.gcd_sub_diag_r. by apply Zgcd_1_rel_prime.
Qed.

Lemma modular_inverse_even_runs fuel a b A B n :
  represents a A -> represents b B -> B mod 2 = 0 -> 0 < A < B -> rel_prime A B ->
  weight 32 n < B -> 2 * B <= weight 32 (S n) -> A * B < 2 ^ Z.of_nat fuel ->
  runs (ModularInverse (S fuel) a b) (fun r => represents r (B - 1)).
Proof.
  intros Ha Hb Heven HAB Hrp HB HB2 Hfuel. pose proof (weight_pos 32 word_width n) as Hpos. unfold ModularInverse.
  assert (HA : A mod 2 = 1).
  { pose proof (Z.mod_pos_bound A 2 ltac:(lia)). destruct (decide (A mod 2 = 0)) as [E|]; [|lia]. exfalso.
    apply Z.mod_divide in E; [|lia]. assert ((2 | B)) as E2 by (apply Z.mod_divide; lia). destruct Hrp as [_ _ Hg]. apply (Hg 2) in E; [|done].
    apply Z.divide_1_r in E. lia. }
  eapply runs_bind; [apply compare_word; [exact Hb|by apply word_small]|]. intros [[one b1] w] (-> & Rb).
  assert (Hb1 : represents b1 B) by (eapply refreshed_represents; [apply Hb|done]). rewrite (proj2 (Z.eqb_neq B 1)) by lia.
  eapply (runs_bind _ _ (fun '(r, _, _) => represents r (B - 1))); [|intros [[r a'] b'] Hr; by apply runs_ret].
  unfold modular_inverse_without_allocation. rewrite (is_odd_spec a A) by apply Ha. rewrite HA. cbn [Z.eqb Pos.eqb]. ret.
  eapply runs_bind; [apply subtract_without_allocation_runs; [exact Hb1|by apply (small_word_represents 1)]|].
  intros [[b2 o] d] (Rb2 & _ & Hd). rewrite (proj2 (Z.ltb_ge B 1)) in Hd by lia. destruct Hd as [Hd _].
  assert (Hb2 : represents b2 B) by (eapply refreshed_represents; [apply Hb1|done]).
  eapply (runs_bind _ _ (fun '(x', b') => represents x' (B - 1) /\ represents b' B)).
  - apply first_round_runs with (n := n) (A := A); try done; apply holds_set_to; [apply Ha|apply Hb1].
  - intros [x b3] [Hx Hb3]. eapply runs_bind; [apply (divide_without_allocation_runs x b3 _ _ (B - 1) B); try done; [lia|apply writable_empty|apply writable_empty]|].
    intros [[[x' b4] q] r] (_ & _ & HR). apply runs_ret. apply division_result_fresh in HR as [_ HR]. by rewrite Z.mod_small in HR by lia.
Qed.

(** Modulo an even number [ModularInverse] returns the modulus less one, whatever the first operand is:
    its product with the operand is minus the operand, not one.  (The modulus is taken to
    have its top bit clear and not to be a power of 2^32, the operand to be less and prime to
    it.) *)
Theorem modular_inverse_even fuel a b A B n :
  represents a A -> represents b B -> B mod 2 = 0 -> 0 < A < B -> rel_prime A B ->
  weight 32 n < B -> 2 * B <= weight 32 (S n) -> A * B < 2 ^ Z.of_nat fuel ->
  runs (ModularInverse (S fuel) a b) (fun r => represents r (B - 1)) /\ (A * (B - 1)) mod B = B - A.
Proof.
  intros Ha Hb Heven HAB Hrp HB HB2 Hfuel. split; [by apply (modular_inverse_even_runs fuel a b A B n)|].
  replace (A * (B - 1)) with (B - A + (A - 1) * B) by ring. rewrite Z.mod_add by lia. apply Z.mod_small. lia.
Qed.

Lemma modular_inverse_even_witness :
  represents (from_word 7) 7 /\ represents (from_word 40) 40 /\ rel_prime 7 40
  /\ runs (ModularInverse 11 (from_word 7) (from_word 40)) (fun r => represents r 39) /\ (7 * 39) mod 40 = 33.
Proof.
  assert (Ha : represents (from_word 7) 7) by (by apply small_word_represents).
  assert (Hb : represents (from_word 40) 40) by (by apply small_word_represents).
  assert (Hrp : rel_prime 7 40) by (by apply Zgcd_1_rel_prime).
  split; [exact Ha|]. split; [exact Hb|]. split; [exact Hrp|].
  apply (modular_inverse_even 10 _ _ 7 40 0 Ha Hb); [done|lia|exact Hrp|done|done|done].
Defined.

