(* ===== verification/Rsa.v ===== *)
(** * RSA

    The class RSA and the padding of PKCS 1 (LibCrypto/PK/RSA.h, LibCrypto/PK/RSA.cpp): keys, their
    generation, [encrypt], [decrypt], [sign], [verify] and [RSA_PKCS1_EME].  A buffer [Bytes& out] is
    a list of bytes; an operation returns the bytes that [out] refers to afterwards.  The random
    bytes are arguments, as in Primality.  The theorems: a message that [RSA_PKCS1_EME]
    encrypts into as many bytes as the modulus has is decrypted to itself, for every key of two
    distinct primes; what [encrypt] leaves when the result has fewer words than the buffer; and
    what the generated keys are. *)
From Stdlib Require Import Znumtheory Zpow_facts.
From S2P Require Import Prelude Congruence BigIntBase UnsignedBigInteger BigIntDivision BigIntText NumberTheory Montgomery Primality EvenModulus.

Local Open Scope Z_scope.

(** ** Spans *)
Definition slice (data : list Z) (start length_ : Z) : outcome (list Z) :=
  if (start <? 0) || (Z.of_nat (length data) <? start + length_) then Panic
  else Ok (take (Z.to_nat length_) (drop (Z.to_nat start) data)).

Definition trim (data : list Z) (length_ : nat) : list Z := take length_ data.

(** ** Keys *)
Record RSAPublicKey := mk_RSAPublicKey {
  pk_modulus : UnsignedBigInteger;
  pk_public_exponent : UnsignedBigInteger;
  pk_length : nat
}.

(** The constructor and [set] *)
Definition public_key_of (n e : UnsignedBigInteger) : RSAPublicKey :=
  let '(words, n) := trimmed_length n in mk_RSAPublicKey n e (words * 4).

Record RSAPrivateKey := mk_RSAPrivateKey {
  sk_modulus : UnsignedBigInteger;
  sk_private_exponent : UnsignedBigInteger;
  sk_public_exponent : UnsignedBigInteger;
  sk_prime_1 : UnsignedBigInteger;
  sk_prime_2 : UnsignedBigInteger;
  sk_exponent_1 : UnsignedBigInteger;
  sk_exponent_2 : UnsignedBigInteger;
  sk_coefficient : UnsignedBigInteger;
  sk_length : nat
}.

(** The constructor that is given the whole key *)
Definition private_key_of (n d e p q dp dq qinv : UnsignedBigInteger) : RSAPrivateKey :=
  let '(words, n) := trimmed_length n in mk_RSAPrivateKey n d e p q dp dq qinv (words * 4).

(** The constructor that computes the exponents and the coefficient of the Chinese remainder
    theorem; [fuel] bounds the loops of [ModularInverse]. *)
Definition private_key_from_primes (fuel : nat) (n d e p q : UnsignedBigInteger) : outcome RSAPrivateKey :=
  ' (p, _, p_minus) ← minus p (from_word 1);
  ' (exponent_1, _) ← Mod d p_minus;
  ' (q, _, q_minus) ← minus q (from_word 1);
  ' (exponent_2, _) ← Mod d q_minus;
  coefficient ← ModularInverse fuel q p;
  Ok (private_key_of n d e p q exponent_1 exponent_2 coefficient).

Record RSA := mk_RSA { m_public_key : RSAPublicKey; m_private_key : RSAPrivateKey }.

(** RSA(n, d, e) *)
Definition rsa_of (n d e : UnsignedBigInteger) : RSA :=
  let zero := from_word 0 in
  mk_RSA (public_key_of n e) (private_key_of n d e zero zero zero zero zero).

Definition output_size (rsa : RSA) : nat := pk_length (m_public_key rsa).

(** The integers of the keys as they are after an operation that has cached their lengths *)
Definition with_public (rsa : RSA) (n e : UnsignedBigInteger) : RSA :=
  mk_RSA (mk_RSAPublicKey n e (pk_length (m_public_key rsa))) (m_private_key rsa).
Definition with_private (rsa : RSA) (n d : UnsignedBigInteger) : RSA :=
  let k := m_private_key rsa in
  mk_RSA (m_public_key rsa)
    (mk_RSAPrivateKey n d (sk_public_exponent k) (sk_prime_1 k) (sk_prime_2 k) (sk_exponent_1 k) (sk_exponent_2 k)
       (sk_coefficient k) (sk_length k)).

(** ** Operations *)
Definition encrypt (rsa : RSA) (in_ out : list Z) : outcome (list Z * RSA) :=
  in_integer ← import_data in_;
  ' (less, in_integer, n) ← operator_lt in_integer (pk_modulus (m_public_key rsa));
  if negb less then Ok ([], with_public rsa n (pk_public_exponent (m_public_key rsa)))
  else
    ' (exp, _, e, n) ← ModularPower in_integer (pk_public_exponent (m_public_key rsa)) n;
    ' (out, size, _) ← export_data exp out false;
    let outsize := Z.of_nat (length out) in
    out ← (if size =? outsize then Ok out else slice out (outsize - size) size);
    Ok (out, with_public rsa n e).

Definition decrypt (rsa : RSA) (in_ out : list Z) : outcome (list Z * RSA) :=
  in_integer ← import_data in_;
  ' (exp, _, d, n) ← ModularPower in_integer (sk_private_exponent (m_private_key rsa)) (sk_modulus (m_private_key rsa));
  ' (out, size, _) ← export_data exp out false;
  let align := Z.of_nat (sk_length (m_private_key rsa)) in
  ' (blocks, _) ← divide_word (size + align - 1) align;
  let aligned_size := blocks * align in
  out ← for_range (Z.to_nat size) (Z.to_nat aligned_size) (fun i out =>
    set_at_index out (Z.of_nat (length out) - Z.of_nat i - 1) 0) out;
  out ← slice out (Z.of_nat (length out) - aligned_size) aligned_size;
  Ok (out, with_private rsa n d).

Definition sign (rsa : RSA) (in_ out : list Z) : outcome (list Z * RSA) :=
  in_integer ← import_data in_;
  ' (exp, _, d, n) ← ModularPower in_integer (sk_private_exponent (m_private_key rsa)) (sk_modulus (m_private_key rsa));
  ' (out, size, _) ← export_data exp out false;
  out ← slice out (Z.of_nat (length out) - size) size;
  Ok (out, with_private rsa n d).

Definition verify (rsa : RSA) (in_ out : list Z) : outcome (list Z * RSA) :=
  in_integer ← import_data in_;
  ' (exp, _, e, n) ← ModularPower in_integer (pk_public_exponent (m_public_key rsa)) (pk_modulus (m_public_key rsa));
  ' (out, size, _) ← export_data exp out false;
  out ← slice out (Z.of_nat (length out) - size) size;
  Ok (out, with_public rsa n e).

(** ** The padding of PKCS 1 *)

(** [while (!byte) byte = get_random<u8>();] with the bytes that are drawn *)
Fixpoint unzero (byte : Z) (draws : list Z) : outcome Z :=
  if negb (byte =? 0) then Ok byte
  else match draws with [] => Panic | byte :: draws => unzero byte draws end.

Definition eme_mod_len (rsa : RSA) : nat * RSA :=
  let '(words, n) := trimmed_length (pk_modulus (m_public_key rsa)) in
  (((words * 4 * 8 + 7) / 8)%nat, with_public rsa n (pk_public_exponent (m_public_key rsa))).

(** A modulus of fewer than eleven bytes makes the lengths wrap around; a padding of that size
    cannot be allocated. *)
Definition eme_encrypt (fill : nat -> list Z) (draws : nat -> list Z) (rsa : RSA) (in_ out : list Z) : outcome (list Z * RSA) :=
  let '(mod_len, rsa) := eme_mod_len rsa in
  if wrap 64 (Z.of_nat mod_len - 11) <? Z.of_nat (length in_) then Ok (trim out 0, rsa)
  else if (length out <? mod_len)%nat then Ok (out, rsa)
  else if (mod_len <? length in_ + 3)%nat then Panic
  else
    let ps_length := (mod_len - length in_ - 3)%nat in
    ps ← for_range 0 ps_length (fun i ps =>
      byte ← at_index ps (Z.of_nat i);
      byte ← unzero byte (draws i);
      set_at_index ps (Z.of_nat i) byte) (resize (fill ps_length) ps_length);
    out ← overwrite out 0 [0; 2];
    out ← overwrite out 2 ps;
    out ← overwrite out (2 + ps_length) [0];
    out ← overwrite out (3 + ps_length) in_;
    let out := trim out (3 + ps_length + length in_) in
    encrypt rsa out out.

(** The index of the first zero from [offset] on, or the size; the size of [out] bounds the loop. *)
Fixpoint find_zero (fuel : nat) (out : list Z) (offset : nat) : nat :=
  match fuel with
  | O => offset
  | S fuel =>
      match out !! offset with
      | Some byte => if byte =? 0 then offset else find_zero fuel out (S offset)
      | None => offset
      end
  end.

Definition eme_decrypt (rsa : RSA) (in_ out : list Z) : outcome (list Z * RSA) :=
  let '(mod_len, rsa) := eme_mod_len rsa in
  if negb (length in_ =? mod_len)%nat then Ok (trim out 0, rsa)
  else
    ' (out, rsa) ← decrypt rsa in_ out;
    if (length out <? output_size rsa)%nat then Ok (trim out 0, rsa)
    else
      byte_0 ← at_index out 0;
      if negb (byte_0 =? 0) then Ok (out, rsa)
      else
        byte_1 ← at_index out 1;
        if negb (byte_1 =? 2) then Ok (out, rsa)
        else
          let offset := find_zero (length out) out 2 in
          if (offset =? length out)%nat then Ok (out, rsa)
          else
            let offset := S offset in
            if wrap 64 (Z.of_nat offset - 3) <? 8 then Ok (out, rsa)
            else
              out ← slice out (Z.of_nat offset) (Z.of_nat (length out) - Z.of_nat offset);
              Ok (out, rsa).

(** ** Key generation *)

(** The random bytes of the k-th round: those of the candidates for p and for q, and those of
    their primality tests *)
Record key_randomness := mk_key_randomness {
  draw_p : nat -> nat -> list Z;
  test_p : nat -> nat -> nat -> list Z;
  draw_q : nat -> nat -> list Z;
  test_q : nat -> nat -> nat -> list Z
}.

(** The primes, lambda and e; [None] when [rounds] or the attempts of a round are used up *)
Fixpoint generate_primes (rounds attempts : nat) (random : nat -> key_randomness) (k half : nat) (e : UnsignedBigInteger)
    : outcome (option (UnsignedBigInteger * UnsignedBigInteger * UnsignedBigInteger)) :=
  match rounds with
  | O => Ok None
  | S rounds =>
      drawn_p ← random_big_prime attempts (draw_p (random k)) (test_p (random k)) half;
      drawn_q ← random_big_prime attempts (draw_q (random k)) (test_q (random k)) half;
      match drawn_p, drawn_q with
      | Some p, Some q =>
          ' (p, _, p_minus) ← minus p (from_word 1);
          ' (q, _, q_minus) ← minus q (from_word 1);
          ' (lambda, _, _) ← LCM p_minus q_minus;
          gcd ← GCD e lambda;
          ' (one, _, _) ← operator_eq gcd (from_word 1);
          if one : bool then Ok (Some (p, q, lambda)) else generate_primes rounds attempts random (S k) half e
      | _, _ => Ok None
      end
  end.

Definition generate_key_pair (rounds attempts fuel : nat) (random : nat -> key_randomness) (bits : nat) (e : UnsignedBigInteger)
    : outcome (option RSA) :=
  primes ← generate_primes rounds attempts random 0 (bits / 2) e;
  match primes with
  | None => Ok None
  | Some (p, q, lambda) =>
      n ← multiplied_by p q;
      d ← ModularInverse fuel e lambda;
      private_key ← private_key_from_primes fuel n d e p q;
      Ok (Some (mk_RSA (public_key_of n e) private_key))
  end.


(** ** The power of RSA *)
Lemma power_mod_prime P k m : prime P -> 0 < k -> (P - 1 | k - 1) -> m ^ k == m [mod P].
Proof.
  intros HP Hk [c Hc]. pose proof (prime_ge_2 P HP) as HP2. destruct (Zdivide_dec P m) as [Hd|Hd].
  - assert (Hm : m == 0 [mod P]) by (apply congr_divide; [lia|by rewrite Z.sub_0_r]). rewrite Hm, Z.pow_0_l by done. done.
  - assert (Hc0 : 0 <= c) by nia. replace k with (1 + (P - 1) * c) by lia. rewrite Z.pow_add_r, Z.pow_1_r, Z.pow_mul_r by lia.
    rewrite fermat_little by done. rewrite Z.pow_1_l by done. by rewrite Z.mul_1_r.
Qed.

Lemma rsa_power P Q E D m :
  prime P -> prime Q -> P <> Q -> 0 <= E -> 0 <= D -> 0 < E * D -> (P - 1 | E * D - 1) -> (Q - 1 | E * D - 1) -> 0 <= m < P * Q ->
  (m ^ E mod (P * Q)) ^ D mod (P * Q) = m.
Proof.
  intros HP HQ Hne HE HD Hpos HdP HdQ Hm. pose proof (prime_ge_2 P HP) as HP2. pose proof (prime_ge_2 Q HQ) as HQ2.
  rewrite Z.mod_pow_l, <- Z.pow_mul_r by done. apply congr_small; [done|]. symmetry. apply congr_divide; [nia|].
  pose proof (power_mod_prime P _ m HP Hpos HdP) as H1. pose proof (power_mod_prime Q _ m HQ Hpos HdQ) as H2.
  apply congr_divide in H1 as [y Hy]; [|lia]. apply congr_divide in H2; [|lia]. rewrite Hy in *.
  rewrite Z.mul_comm in H2. apply Gauss in H2 as [z ->]; [exists z; ring|]. apply prime_rel_prime; [done|]. intros Hd.
  apply (prime_divisors P HP) in Hd. lia.
Qed.

(** ** Keys *)
Record key_ok (rsa : RSA) (N E D : Z) : Prop := {
  key_public_modulus : represents (pk_modulus (m_public_key rsa)) N;
  key_public_exponent : represents (pk_public_exponent (m_public_key rsa)) E;
  key_public_length : pk_length (m_public_key rsa) = (4 * word_count N)%nat;
  key_private_modulus : represents (sk_modulus (m_private_key rsa)) N;
  key_private_exponent : represents (sk_private_exponent (m_private_key rsa)) D;
  key_private_length : sk_length (m_private_key rsa) = (4 * word_count N)%nat
}.

Lemma represents_word_count u a : represents u a -> trimmed (m_words u) = word_count a.
Proof. intros [(Hok & <- & _) _]. by apply trimmed_word_count. Qed.

Lemma rsa_of_ok n d e N D E : represents n N -> represents d D -> represents e E -> key_ok (rsa_of n d e) N E D.
Proof.
  intros Hn Hd He. unfold rsa_of, public_key_of, private_key_of. pose proof Hn as [_ Hc].
  destruct (trimmed_length_spec n Hc) as (n' & -> & R & _). rewrite (represents_word_count n N Hn), Nat.mul_comm.
  assert (Hn' : represents n' N) by (eapply refreshed_represents; [apply Hn|done]). by constructor.
Qed.

Lemma with_public_ok rsa N E D n e :
  key_ok rsa N E D -> refreshed (pk_modulus (m_public_key rsa)) n -> refreshed (pk_public_exponent (m_public_key rsa)) e ->
  key_ok (with_public rsa n e) N E D.
Proof.
  intros [H1 H2 H3 H4 H5 H6] Rn Re. constructor; try done; cbn [with_public m_public_key pk_modulus pk_public_exponent];
    eapply refreshed_represents; [apply H1|done|apply H2|done].
Qed.

Lemma with_private_ok rsa N E D n d :
  key_ok rsa N E D -> refreshed (sk_modulus (m_private_key rsa)) n -> refreshed (sk_private_exponent (m_private_key rsa)) d ->
  key_ok (with_private rsa n d) N E D.
Proof.
  intros [H1 H2 H3 H4 H5 H6] Rn Rd. constructor; try done; cbn [with_private m_private_key sk_modulus sk_private_exponent];
    eapply refreshed_represents; [apply H4|done|apply H5|done].
Qed.

(** ** Bytes *)
Lemma be_value_inj X Y : bytes_ok X -> bytes_ok Y -> length X = length Y -> be_value X 0 = be_value Y 0 -> X = Y.
Proof.
  intros HX. revert Y. induction HX as [|x X Hx HX IH]; intros [|y Y] HY Hlen E; [done|done|done|].
  apply Forall_cons in HY as [Hy HY]. injection Hlen as Hlen. cbn [be_value] in E. rewrite be_value_acc, (be_value_acc Y) in E. rewrite Hlen in E.
  pose proof (be_value_bound X HX) as BX. pose proof (be_value_bound Y HY) as BY. rewrite Hlen in BX. unfold in_width in *.
  set (p := 256 ^ Z.of_nat (length Y)) in *. assert (x = y) as -> by nia. f_equal. apply IH; [done|done|lia].
Qed.

Lemma slice_end data k : (k <= length data)%nat ->
  slice data (Z.of_nat (length data) - Z.of_nat k) (Z.of_nat k) = Ok (drop (length data - k) data).
Proof.
  intros Hk. unfold slice. rewrite (proj2 (Z.ltb_ge _ 0)), (proj2 (Z.ltb_ge (Z.of_nat (length data)) _)) by lia. cbn [orb]. f_equal.
  rewrite Nat2Z.id. replace (Z.to_nat (Z.of_nat (length data) - Z.of_nat k)) with (length data - k)%nat by lia.
  apply take_ge. rewrite length_drop. lia.
Qed.

(** ** Encryption and decryption *)

(** The bytes of [value] in [words] words *)
Definition block (X : list Z) (words : nat) (value : Z) : Prop := length X = (4 * words)%nat /\ bytes_ok X /\ be_value X 0 = value.

Lemma encrypt_runs rsa N E D in_ out :
  key_ok rsa N E D -> bytes_ok in_ -> 0 < N -> be_value in_ 0 < N ->
  let C := be_value in_ 0 ^ E mod N in
  (4 * word_count C <= length out)%nat ->
  runs (encrypt rsa in_ out) (fun '(out', rsa') => key_ok rsa' N E D
    /\ exists X, block X (word_count C) C /\ out' = drop (length out - 4 * word_count C) (X ++ drop (4 * word_count C) out)).
Proof.
  intros Hkey Hin HN Hlt C Hlen. pose proof Hkey as [Hn He _ _ _ _]. unfold encrypt.
  eapply runs_bind; [by apply import_data_runs|]. intros v Hv. set (V := be_value in_ 0) in *.
  eapply runs_bind; [apply operator_lt_runs; [exact Hv|exact Hn]|]. intros [[less v1] n1] (-> & Rv & Rn).
  rewrite (proj2 (Z.ltb_lt V N)) by done. cbn [negb].
  eapply runs_bind; [apply (ModularPower_runs v1 _ n1 V E N); [eapply refreshed_represents; [apply Hv|done]|exact He|eapply refreshed_represents; [apply Hn|done]|lia]|].
  intros [[[exp v2] e2] n2] (Hexp & _ & Re & Rn2). fold C in Hexp.
  eapply runs_bind; [apply (export_data_runs exp out C false Hexp); by rewrite (represents_word_count exp C)|].
  intros [[out' size] exp'] (_ & -> & X & -> & HlX & HX & HXv). rewrite (represents_word_count exp C Hexp) in *.
  assert (Hlo : length (X ++ drop (length X) out) = length out) by (rewrite length_app, length_drop; lia). rewrite Hlo.
  eapply (runs_bind _ _ (fun o => o = drop (length out - 4 * word_count C) (X ++ drop (4 * word_count C) out))).
  - rewrite HlX in *. destruct (Z.eqb_spec (4 * Z.of_nat (word_count C)) (Z.of_nat (length out))) as [Eq|Ne].
    + apply runs_ret. replace (length out - 4 * word_count C)%nat with 0%nat by lia. done.
    + replace (4 * Z.of_nat (word_count C)) with (Z.of_nat (4 * word_count C)) by lia. rewrite <- Hlo at 1. rewrite slice_end by lia.
      apply runs_ret. by rewrite Hlo.
  - intros o ->. apply runs_ret. split; [|by exists X]. apply with_public_ok; [done| |done]. by eapply refreshed_trans.
Qed.

Lemma decrypt_runs rsa N E D in_ out :
  key_ok rsa N E D -> bytes_ok in_ -> N <> 0 ->
  let V := be_value in_ 0 ^ D mod N in
  word_count V = word_count N -> (0 < word_count N)%nat -> length out = (4 * word_count N)%nat ->
  runs (decrypt rsa in_ out) (fun '(out', rsa') => key_ok rsa' N E D /\ block out' (word_count N) V).
Proof.
  intros Hkey Hin HN V Hfull Hpos Hlen. pose proof Hkey as [_ _ _ Hn Hd Hl]. unfold decrypt.
  eapply runs_bind; [by apply import_data_runs|]. intros v Hv.
  eapply runs_bind; [apply (ModularPower_runs v _ _ _ D N Hv Hd Hn HN)|]. intros [[[exp v2] d2] n2] (Hexp & _ & Rd & Rn). fold V in Hexp.
  eapply runs_bind; [apply (export_data_runs exp out V false Hexp); rewrite (represents_word_count exp V Hexp), Hfull; lia|].
  intros [[out' size] exp'] (_ & -> & X & -> & HlX & HX & HXv). rewrite (represents_word_count exp V Hexp), Hfull in *. rewrite Hl.
  set (k := word_count N) in *. rewrite (drop_ge out), app_nil_r by lia. rewrite divide_word_exact by lia. ret.
  replace ((4 * Z.of_nat k + Z.of_nat (4 * k) - 1) / Z.of_nat (4 * k)) with 1; [rewrite Z.mul_1_l|apply (Z.div_unique _ _ _ (Z.of_nat (4 * k) - 1)); lia].
  replace (Z.to_nat (4 * Z.of_nat k)) with (4 * k)%nat by lia. rewrite Nat2Z.id. unfold for_range. rewrite Nat.sub_diag. cbn [for_up]. ret.
  rewrite slice_end by lia. ret. apply runs_ret. split; [by apply with_private_ok|]. rewrite HlX, Nat.sub_diag, drop_0. done.
Qed.

(** ** Padding *)
Definition nonzero_byte (x : Z) : Prop := in_width 8 x /\ x <> 0.

Definition padded_block (ps message : list Z) : list Z := [0; 2] ++ ps ++ [0] ++ message.

Lemma eme_mod_len_ok rsa N E D :
  key_ok rsa N E D -> exists rsa', eme_mod_len rsa = ((4 * word_count N)%nat, rsa') /\ key_ok rsa' N E D.
Proof.
  intros Hkey. pose proof Hkey as [Hn He _ _ _ _]. unfold eme_mod_len. pose proof Hn as [_ Hc].
  destruct (trimmed_length_spec _ Hc) as (n' & -> & R & _). rewrite (represents_word_count _ N Hn). eexists. split.
  - f_equal. replace (word_count N * 4 * 8 + 7)%nat with (7 + 4 * word_count N * 8)%nat by lia. rewrite Nat.div_add by lia. done.
  - apply with_public_ok; [done|done|apply refreshed_refl, He].
Qed.

Lemma unzero_runs byte draws :
  in_width 8 byte -> bytes_ok draws -> Exists (fun x => x <> 0) draws -> runs (unzero byte draws) nonzero_byte.
Proof.
  intros Hb Hd Hex. revert byte Hb. induction Hd as [|x draws Hx Hd IH]; intros byte Hb; [by apply Exists_nil in Hex|].
  cbn [unzero]. destruct (Z.eqb_spec byte 0) as [-> |Hne]; cbn [negb]; [|apply runs_ret; done].
  destruct (decide (x = 0)) as [-> |Hx0].
  - apply IH; [|done]. by apply Exists_cons in Hex as [?|].
  - destruct draws; cbn [unzero]; rewrite (proj2 (Z.eqb_neq x 0)) by done; by apply runs_ret.
Qed.

Lemma padding_runs draws ps :
  bytes_ok ps -> (forall i, bytes_ok (draws i)) -> (forall i, Exists (fun x => x <> 0) (draws i)) ->
  runs (for_range 0 (length ps) (fun i ps =>
      byte ← at_index ps (Z.of_nat i);
      byte ← unzero byte (draws i);
      set_at_index ps (Z.of_nat i) byte) ps) (fun ps' => length ps' = length ps /\ Forall nonzero_byte ps').
Proof.
  intros Hps Hd Hex. eapply runs_mono; [apply (for_range_runs (fun i l => length l = length ps /\ bytes_ok l /\ Forall nonzero_byte (take i l))); [lia|by rewrite take_0|]|].
  - intros i l Hi (Hlen & Hok & Hnz). destruct (at_index_some l i ltac:(lia)) as (x & Hx & ->). ret.
    eapply runs_bind; [apply unzero_runs; [by eapply Forall_lookup_1|done|done]|]. intros y Hy. rewrite set_at_index_Ok by lia. apply runs_ret.
    rewrite length_insert, take_insert_S by lia. split; [done|]. split; [apply Forall_insert; [done|apply Hy]|].
    apply Forall_app_2; [done|by apply Forall_singleton].
  - intros l (Hlen & _ & Hnz). by rewrite take_ge in Hnz by lia.
Qed.

Lemma overwrite_at A rest v :
  (length v <= length rest)%nat -> overwrite (A ++ rest) (length A) v = Ok (A ++ v ++ drop (length v) rest).
Proof.
  intros H. unfold overwrite. rewrite (proj2 (Nat.ltb_ge _ _)) by (rewrite length_app; lia).
  rewrite take_app_length, drop_app_ge by lia. do 4 f_equal. lia.
Qed.

Lemma padded_block_length ps message : length (padded_block ps message) = (3 + length ps + length message)%nat.
Proof. unfold padded_block. rewrite !length_app. cbn [length]. lia. Qed.

Lemma padded_block_bytes ps message : Forall nonzero_byte ps -> bytes_ok message -> bytes_ok (padded_block ps message).
Proof.
  intros Hps Hm. unfold padded_block. apply Forall_app_2; [do 2 (apply Forall_cons_2; [done|]); constructor|].
  apply Forall_app_2; [eapply Forall_impl; [exact Hps|]; by intros x [? _]|]. apply Forall_app_2; [by apply Forall_singleton|done].
Qed.

(** The top word of a padded block is not zero, the block is less than three times the second byte's weight. *)
Lemma padded_block_value ps message :
  Forall nonzero_byte ps -> bytes_ok message ->
  2 * 256 ^ Z.of_nat (length (padded_block ps message) - 2) <= be_value (padded_block ps message) 0
  < 3 * 256 ^ Z.of_nat (length (padded_block ps message) - 2).
Proof.
  intros Hps Hm. unfold padded_block at 2 3. rewrite be_value_app. cbn [be_value]. rewrite be_value_acc.
  assert (Hl : length (ps ++ [0] ++ message) = (length (padded_block ps message) - 2)%nat) by (rewrite padded_block_length, !length_app; cbn [length]; lia).
  assert (Hok : bytes_ok (ps ++ [0] ++ message)).
  { pose proof (padded_block_bytes ps message Hps Hm) as H. by apply Forall_app in H as [_ H]. }
  pose proof (be_value_bound _ Hok) as B. rewrite Hl in *. lia.
Qed.

Lemma write_block_runs {A} ps message out (f : list Z -> outcome A) Q :
  (3 + length ps + length message <= length out)%nat ->
  runs (f (padded_block ps message ++ drop (3 + length ps + length message) out)) Q ->
  runs (out ← overwrite out 0 [0; 2];
        out ← overwrite out 2 ps;
        out ← overwrite out (2 + length ps) [0];
        out ← overwrite out (3 + length ps) message;
        f out) Q.
Proof.
  intros Hl Hf. pose proof (overwrite_at [] out [0; 2] ltac:(cbn [length]; lia)) as E0. cbn [app length] in E0. rewrite E0. okb.
  pose proof (overwrite_at [0; 2] (drop 2 out) ps ltac:(rewrite length_drop; lia)) as E1. cbn [app length] in E1. rewrite E1. okb.
  change (0 :: 2 :: ps ++ drop (length ps) (drop 2 out)) with ([0; 2] ++ ps ++ drop (length ps) (drop 2 out)). rewrite drop_drop, (app_assoc [0; 2] ps).
  replace (2 + length ps)%nat with (length ([0; 2] ++ ps)) by done. rewrite overwrite_at by (rewrite length_drop; cbn [length app]; lia). okb.
  rewrite drop_drop, (app_assoc ([0; 2] ++ ps) [0]).
  replace (3 + length ps)%nat with (length (([0; 2] ++ ps) ++ [0])) by (rewrite !length_app; cbn [length]; lia).
  rewrite overwrite_at by (rewrite length_drop, !length_app; cbn [length]; lia). rewrite drop_drop. okb.
  unfold padded_block in Hf. rewrite <- !app_assoc in Hf |- *.
  replace (length ([0; 2]%Z ++ ps) + length [0%Z] + length message)%nat with (3 + length ps + length message)%nat by (cbn [length app]; lia). exact Hf.
Qed.

Lemma find_zero_spec ps message A fuel :
  Forall nonzero_byte ps -> (length ps < fuel)%nat -> find_zero fuel (A ++ ps ++ 0 :: message) (length A) = (length A + length ps)%nat.
Proof.
  intros Hps. revert A fuel. induction Hps as [|x ps [_ Hx] Hps IH]; intros A [|fuel] Hf; cbn [length] in Hf; [lia| |lia|]; cbn [find_zero].
  - change ([] ++ 0 :: message) with (0 :: message). rewrite list_lookup_middle by done. cbn [Z.eqb length]. lia.
  - rewrite <- app_comm_cons, list_lookup_middle by done. rewrite (proj2 (Z.eqb_neq x 0)) by done.
    rewrite cons_middle, (app_assoc A [x]). replace (S (length A)) with (length (A ++ [x])) by (rewrite length_app; cbn; lia).
    rewrite IH by lia. rewrite length_app. cbn [length]. lia.
Qed.

Lemma word_count_mono a b : 0 <= a <= b -> (word_count a <= word_count b)%nat.
Proof.
  intros H. unfold word_count. destruct (Z.eqb_spec a 0) as [|Ha]; [lia|]. rewrite (proj2 (Z.eqb_neq b 0)) by lia.
  apply le_n_S, Z2Nat.inj_le; [apply Z.div_pos; [apply Z.log2_nonneg|lia]|apply Z.div_pos; [apply Z.log2_nonneg|lia]|].
  apply Z.div_le_mono; [lia|]. apply Z.log2_le_mono. lia.
Qed.

Lemma represents_below u a : represents u a -> a < weight 32 (word_count a).
Proof. intros H. rewrite <- (represents_word_count u a H). destruct H as [(Hok & <- & _) _]. by apply trimmed_upper. Qed.

Lemma eme_encrypt_runs fill draws rsa N E D message out :
  (forall size, bytes_ok (fill size)) -> (forall i, bytes_ok (draws i)) -> (forall i, Exists (fun x => x <> 0) (draws i)) ->
  key_ok rsa N E D -> bytes_ok message ->
  let k := word_count N in
  (length message + 11 <= 4 * k)%nat -> Z.of_nat (4 * k) < 2 ^ 64 -> (4 * k <= length out)%nat -> 3 * 256 ^ Z.of_nat (4 * k - 2) <= N ->
  runs (eme_encrypt fill draws rsa message out) (fun '(c, rsa') => key_ok rsa' N E D
    /\ exists ps X, Forall nonzero_byte ps /\ length ps = (4 * k - length message - 3)%nat
       /\ let C := be_value (padded_block ps message) 0 ^ E mod N in
          block X (word_count C) C /\ c = drop (4 * k - 4 * word_count C) (X ++ drop (4 * word_count C) (padded_block ps message))).
Proof.
  intros Hfill Hd Hex Hkey Hm k Hlen H64 Hout HN. unfold eme_encrypt. destruct (eme_mod_len_ok rsa N E D Hkey) as (rsa1 & -> & Hkey1). fold k.
  rewrite wrap_small by (unfold in_width; lia). rewrite (proj2 (Z.ltb_ge _ _)), !(proj2 (Nat.ltb_ge _ _)) by lia.
  set (psl := (4 * k - length message - 3)%nat). set (ps0 := resize (fill psl) psl).
  assert (Hps0 : length ps0 = psl) by (unfold ps0, resize; rewrite length_app, length_take, length_replicate; lia).
  assert (Hok0 : bytes_ok ps0) by (apply Forall_app_2; [apply Forall_take, Hfill|by apply Forall_replicate]).
  pose proof (padding_runs draws ps0 Hok0 Hd Hex) as Hpad. rewrite Hps0 in Hpad. eapply runs_bind; [exact Hpad|].
  intros ps [Hlps Hps]. rewrite <- Hlps.
  apply write_block_runs; [lia|]. unfold trim.
  rewrite take_app_length' by (rewrite padded_block_length; lia).
  pose proof (padded_block_value ps message Hps Hm) as HV. assert (Hpl : length (padded_block ps message) = (4 * k)%nat) by (rewrite padded_block_length; lia).
  rewrite Hpl in HV. set (V := be_value (padded_block ps message) 0) in *.
  assert (HNp : 0 < N) by (assert (0 < 256 ^ Z.of_nat (4 * k - 2)) by lia; lia). pose proof (Z.mod_pos_bound (V ^ E) N HNp) as HC.
  eapply runs_mono; [apply (encrypt_runs rsa1 N E D _ _ Hkey1); [by apply padded_block_bytes|done|fold V; lia|]|].
  - rewrite Hpl. apply Nat.mul_le_mono_l, word_count_mono. fold V. lia.
  - intros [c rsa'] (Hkey' & X & HX & ->). rewrite Hpl. split; [done|]. exists ps, X. done.
Qed.

Lemma eme_decrypt_runs rsa N E D c out ps message :
  key_ok rsa N E D -> bytes_ok c -> N <> 0 ->
  let k := word_count N in
  length c = (4 * k)%nat -> length out = (4 * k)%nat -> Z.of_nat (4 * k) < 2 ^ 64 ->
  Forall nonzero_byte ps -> (8 <= length ps)%nat -> bytes_ok message -> length (padded_block ps message) = (4 * k)%nat ->
  be_value c 0 ^ D mod N = be_value (padded_block ps message) 0 -> word_count (be_value (padded_block ps message) 0) = k ->
  runs (eme_decrypt rsa c out) (fun '(m, rsa') => m = message /\ key_ok rsa' N E D).
Proof.
  intros Hkey Hc HN k Hlc Hlo H64 Hps Hlps Hm Hpl HV Hwc. unfold eme_decrypt. destruct (eme_mod_len_ok rsa N E D Hkey) as (rsa1 & -> & Hkey1). fold k.
  rewrite Hlc, Nat.eqb_refl. cbn [negb]. rewrite padded_block_length in Hpl.
  eapply runs_bind; [apply (decrypt_runs rsa1 N E D c out Hkey1 Hc HN); [by rewrite HV|unfold k in *; lia|done]|].
  intros [o rsa2] [Hkey2 (Hlo2 & Hok & Hval)]. rewrite HV in Hval.
  assert (o = padded_block ps message) as ->.
  { apply be_value_inj; [done|by apply padded_block_bytes|rewrite padded_block_length; lia|done]. }
  unfold output_size. rewrite (key_public_length _ _ _ _ Hkey2), Hlo2, Nat.ltb_irrefl. unfold padded_block at 1 2.
  change (at_index ([0; 2] ++ ps ++ [0] ++ message) 0) with (Ok 0). ret. cbn [Z.eqb negb].
  change (at_index ([0; 2] ++ ps ++ [0] ++ message) 1) with (Ok 2). ret. cbn [Z.eqb Pos.eqb negb].
  assert (find_zero (4 * word_count N) (padded_block ps message) 2 = (2 + length ps)%nat) as ->.
  { apply (find_zero_spec ps message [0; 2]); [done|fold k; lia]. }
  fold k. rewrite (proj2 (Nat.eqb_neq _ _)) by lia. rewrite wrap_small by (unfold in_width; lia). rewrite (proj2 (Z.ltb_ge _ 8)) by lia.
  unfold slice. rewrite (proj2 (Z.ltb_ge _ 0)), (proj2 (Z.ltb_ge _ _)) by (rewrite ?padded_block_length; lia). cbn [orb]. okb. apply runs_ret.
  split; [|done]. rewrite Nat2Z.id. unfold padded_block. rewrite (app_assoc [0; 2]), (app_assoc ([0; 2] ++ ps)).
  rewrite drop_app_length' by (rewrite !length_app; cbn [length]; lia). apply take_ge. lia.
Qed.

(** ** Round trip *)
Lemma weight_bytes k : weight 32 k = 256 ^ Z.of_nat (4 * k).
Proof. by rewrite pow256_weight. Qed.

(** The words of a padded block *)
Lemma padded_word_count N V u :
  represents u N -> (0 < word_count N)%nat -> 2 * 256 ^ Z.of_nat (4 * word_count N - 2) <= V -> V < N -> word_count V = word_count N.
Proof.
  intros Hu Hk HV Hlt. pose proof (represents_below u N Hu) as HN. generalize dependent (word_count N). intros k Hk HV HN.
  assert (Ek : k = S (k - 1)) by lia. rewrite Ek. apply word_count_unique. rewrite <- Ek. split; [|lia]. rewrite weight_bytes.
  assert (256 ^ Z.of_nat (4 * (k - 1)) <= 256 ^ Z.of_nat (4 * k - 2)) by (apply Z.pow_le_mono_r; lia). lia.
Qed.

(** C23: A message that [RSA_PKCS1_EME::encrypt] turns into as many bytes as the modulus has, is what [decrypt]
    returns for them: for every key of two distinct primes whose exponents are inverse modulo p - 1 and
    q - 1, a modulus with room for the padding, whatever random bytes the padding is made of. *)
Theorem rsa_eme_round_trip fill draws n d e P Q E D message out out' :
  (forall size, bytes_ok (fill size)) -> (forall i, bytes_ok (draws i)) -> (forall i, Exists (fun x => x <> 0) (draws i)) ->
  prime P -> prime Q -> P <> Q -> 0 < E * D -> (P - 1 | E * D - 1) -> (Q - 1 | E * D - 1) ->
  represents n (P * Q) -> represents d D -> represents e E -> bytes_ok message ->
  let k := word_count (P * Q) in
  (length message + 11 <= 4 * k)%nat -> Z.of_nat (4 * k) < 2 ^ 64 -> 3 * 256 ^ Z.of_nat (4 * k - 2) <= P * Q ->
  (4 * k <= length out)%nat -> length out' = (4 * k)%nat ->
  runs (eme_encrypt fill draws (rsa_of n d e) message out) (fun '(c, rsa) =>
    length c = (4 * k)%nat -> runs (eme_decrypt rsa c out') (fun '(m, _) => m = message)).
Proof.
  intros Hfill Hd Hex HP HQ Hne Hpos HdP HdQ Hn HD HE Hm k Hlen H64 Hroom Hout Hout'. set (N := P * Q) in *.
  pose proof (prime_ge_2 P HP) as HP2. pose proof (prime_ge_2 Q HQ) as HQ2. assert (HN : 0 < N) by (unfold N; nia).
  eapply runs_mono; [apply (eme_encrypt_runs fill draws _ N E D message out); try done; by apply rsa_of_ok|].
  intros [c rsa] (Hkey & ps & X & Hps & Hlps & (HlX & HX & HXv) & Ec) Hlc. fold k in Hlps, Ec.
  pose proof (padded_block_value ps message Hps Hm) as HV. assert (Hpl : length (padded_block ps message) = (4 * k)%nat) by (rewrite padded_block_length; lia).
  rewrite Hpl in HV. set (V := be_value (padded_block ps message) 0) in *. set (C := V ^ E mod N) in *.
  assert (Hwc : (word_count C <= k)%nat) by (apply word_count_mono; pose proof (Z.mod_pos_bound (V ^ E) N HN) as HC; fold C in HC; lia).
  assert (Hfull : word_count C = k) by (rewrite Ec, length_drop, length_app, length_drop in Hlc; lia).
  rewrite Hfull, Nat.sub_diag, drop_0, drop_ge, app_nil_r in Ec by lia. subst c.
  pose proof (holds_nonneg _ _ (represents_holds _ _ HD)). pose proof (holds_nonneg _ _ (represents_holds _ _ HE)).
  eapply runs_mono; [apply (eme_decrypt_runs rsa N E D X out' ps message); try done; try lia|].
  - rewrite HXv. unfold C, N. apply rsa_power; try done. fold N. pose proof (be_value_bound _ (padded_block_bytes ps message Hps Hm)) as HVb. fold V in HVb. lia.
  - apply (padded_word_count N V n Hn); [fold k; lia|fold k; lia|lia].
  - by intros [m rsa'] [-> _].
Qed.

Lemma rsa_eme_round_trip_witness :
  let n := mk_UnsignedBigInteger [4106646137; 1152405839; 17179413] false None in
  let d := mk_UnsignedBigInteger [1551107111; 1155140203; 1444746] false None in
  prime 17592123129407 /\ prime 18013984870727 /\ represents n (17592123129407 * 18013984870727)
  /\ runs (eme_encrypt (fun size => replicate size 9) (fun _ => [1]) (rsa_of n d (from_word 65537)) [42] (replicate 12 0)) (fun '(c, rsa) =>
    length c = 12%nat -> runs (eme_decrypt rsa c (replicate 12 0)) (fun '(m, _) => m = [42])).
Proof.
  intros n d.
  assert (HP : prime 17592123129407).
  { apply (pocklington_check_prime _ [(4194319, 2)]); [|constructor; [apply (trial_check_prime _ 2050)|constructor]]; vm_compute; reflexivity. }
  assert (HQ : prime 18013984870727).
  { apply (pocklington_check_prime _ [(4244311, 2)]); [|constructor; [apply (trial_check_prime _ 2070)|constructor]]; vm_compute; reflexivity. }
  assert (Hn : represents n (17592123129407 * 18013984870727)).
  { split; [|done]. split; [repeat (apply Forall_cons_2; [by vm_compute|]); constructor|done]. }
  assert (Hd : represents d 26650864674804975589917735).
  { split; [|done]. split; [repeat (apply Forall_cons_2; [by vm_compute|]); constructor|done]. }
  split; [exact HP|]. split; [exact HQ|]. split; [exact Hn|].
  apply (rsa_eme_round_trip (fun size => replicate size 9) (fun _ => [1]) n d (from_word 65537) 17592123129407 18013984870727 65537
           26650864674804975589917735 [42] (replicate 12 0) (replicate 12 0)).
  - intros size. by apply Forall_replicate.
  - intros i. by apply Forall_singleton.
  - intros i. apply Exists_cons. by left.
  - exact HP.
  - exact HQ.
  - done.
  - lia.
  - apply Z.mod_divide; [lia|]. vm_compute. reflexivity.
  - apply Z.mod_divide; [lia|]. vm_compute. reflexivity.
  - exact Hn.
  - exact Hd.
  - by apply small_word_represents.
  - by apply Forall_singleton.
  - vm_compute. lia.
  - vm_compute. reflexivity.
  - apply Z.leb_le. vm_compute. reflexivity.
  - vm_compute. lia.
  - reflexivity.
Defined.

(** [RSA::encrypt] of the message one, with a modulus of two words or more and a buffer of its size, returns
    four bytes of what the buffer held before the call: the result is written at the front of the buffer, and
    the bytes returned are the last ones. *)
Theorem rsa_encrypt_short rsa N E D out :
  key_ok rsa N E D -> (2 <= word_count N)%nat -> length out = (4 * word_count N)%nat ->
  runs (encrypt rsa [1] out) (fun '(c, _) => c = drop (4 * word_count N - 4) out).
Proof.
  intros Hkey Hk Hlen. pose proof Hkey as [Hn He _ _ _ _]. pose proof (holds_nonneg _ _ (represents_holds _ _ He)) as HE0.
  assert (HN : 1 < N).
  { destruct (Z.le_gt_cases N 1) as [H|]; [|done]. pose proof (holds_nonneg _ _ (represents_holds _ _ Hn)).
    pose proof (word_count_mono N 1 ltac:(lia)) as Hm. change (word_count 1) with 1%nat in Hm. lia. }
  assert (HC : be_value [1] 0 ^ E mod N = 1) by (cbn [be_value]; rewrite Z.pow_1_l, Z.mod_1_l by lia; done).
  eapply runs_mono; [apply (encrypt_runs rsa N E D [1] out Hkey); [by apply Forall_singleton|lia|cbn [be_value]; lia|]|].
  - rewrite HC. change (word_count 1) with 1%nat. lia.
  - intros [c rsa'] (_ & X & (HlX & _ & _) & ->). rewrite HC in *. change (word_count 1) with 1%nat in *. rewrite drop_app_ge by lia.
    rewrite drop_drop. f_equal. lia.
Qed.

Lemma rsa_encrypt_short_witness :
  (2 <= word_count 12884901893)%nat
  /\ runs (encrypt (rsa_of (from_u64 12884901893) (from_word 3) (from_word 3)) [1] [8; 7; 6; 5; 4; 3; 2; 1]) (fun '(c, _) => c = [4; 3; 2; 1]).
Proof.
  split; [vm_compute; lia|]. assert (Hn : represents (from_u64 12884901893) 12884901893).
  { split; [|done]. split; [|split; reflexivity]. apply Forall_cons_2; [|apply Forall_singleton]; by vm_compute. }
  apply (rsa_encrypt_short _ 12884901893 3 3); [apply rsa_of_ok; [exact Hn|by apply small_word_represents|by apply small_word_represents]|vm_compute; lia|reflexivity].
Defined.

(** ** Key generation *)
Lemma word_count_log2 v j : 2 ^ Z.of_nat j <= v < 2 ^ Z.of_nat (S j) -> word_count v = S (Z.to_nat (Z.of_nat j / 32)).
Proof.
  intros H. assert (Hp : 0 < 2 ^ Z.of_nat j) by lia. unfold word_count. rewrite (proj2 (Z.eqb_neq v 0)) by lia. do 3 f_equal.
  apply Z.log2_unique; [lia|]. by rewrite Nat2Z.inj_succ in H.
Qed.

(** A number of [random_big_prime], less one *)
Lemma prime_minus_one_bits half P :
  (33 <= half)%nat -> 6074001000 * 2 ^ Z.of_nat (half - 33) <= P < 2 ^ Z.of_nat half - 1 -> P mod 2 = 1 ->
  2 ^ Z.of_nat (half - 1) <= P - 1 < 2 ^ Z.of_nat (S (half - 1)).
Proof.
  intros Hh HP Ho. replace (S (half - 1)) with half by lia.
  assert (E1 : 2 ^ Z.of_nat (half - 1) = 2 ^ 32 * 2 ^ Z.of_nat (half - 33)) by (rewrite <- Z.pow_add_r by lia; f_equal; lia).
  assert (0 < 2 ^ Z.of_nat (half - 33)) by lia. lia.
Qed.

Lemma lcm_even a b : a mod 2 = 0 -> Z.lcm a b mod 2 = 0.
Proof. intros H. apply Z.mod_divide; [lia|]. apply Z.divide_trans with a; [by apply Z.mod_divide|apply Z.divide_lcm_l]. Qed.

Definition random_ok (random : nat -> key_randomness) : Prop :=
  forall k, (forall i size, bytes_ok (draw_p (random k) i size)) /\ (forall i j size, bytes_ok (test_p (random k) i j size))
    /\ (forall i size, bytes_ok (draw_q (random k) i size)) /\ (forall i j size, bytes_ok (test_q (random k) i j size)).

(** The primes of a key: lambda is the least common multiple, prime to e, and the product has exactly the bits asked for. *)
Definition key_primes (half : nat) (E : Z) (p q lambda : UnsignedBigInteger) : Prop :=
  exists P Q, represents p P /\ represents q Q /\ represents lambda (Z.lcm (P - 1) (Q - 1)) /\ Z.lcm (P - 1) (Q - 1) mod 2 = 0
    /\ Z.gcd E (Z.lcm (P - 1) (Q - 1)) = 1 /\ 2 ^ Z.of_nat (half - 1) <= Z.lcm (P - 1) (Q - 1)
    /\ 2 ^ (2 * Z.of_nat half - 1) <= P * Q < 2 ^ (2 * Z.of_nat half).

Lemma product_bits half P Q :
  let A := 6074001000 * 2 ^ Z.of_nat (half - 33) in
  (33 <= half)%nat -> A <= P < 2 ^ Z.of_nat half -> A <= Q < 2 ^ Z.of_nat half ->
  2 ^ (2 * Z.of_nat half - 1) <= P * Q < 2 ^ (2 * Z.of_nat half).
Proof.
  intros A Hh HP HQ. set (k := 2 ^ Z.of_nat (half - 33)) in *. assert (Hk : 0 < k) by (unfold k; lia).
  replace (2 ^ (2 * Z.of_nat half - 1)) with (2 ^ 65 * (k * k)) by (unfold k; rewrite <- !Z.pow_add_r by lia; f_equal; lia).
  replace (2 ^ (2 * Z.of_nat half)) with (2 ^ Z.of_nat half * 2 ^ Z.of_nat half) by (rewrite <- Z.pow_add_r by lia; f_equal; lia).
  split; [|nia]. transitivity (A * A); [unfold A; nia|nia].
Qed.

(** No number that a call of [random_big_prime] draws is prime. *)
Definition no_prime_drawn (attempts half : nat) (draw : nat -> nat -> list Z) : Prop :=
  forall i, (i < attempts)%nat -> ~ prime (drawn (draw i) (6074001000 * 2 ^ Z.of_nat (half - 33)) (2 ^ Z.of_nat half - 1)).

(** A round finds two numbers, and their lambda is not prime to e. *)
Definition round_rejected (attempts half : nat) (E : Z) (r : key_randomness) : Prop :=
  exists p q P Q, random_big_prime attempts (draw_p r) (test_p r) half = Ok (Some p) /\ represents p P
    /\ random_big_prime attempts (draw_q r) (test_q r) half = Ok (Some q) /\ represents q Q
    /\ Z.gcd E (Z.lcm (P - 1) (Q - 1)) <> 1.

(** Why the rounds from [k] on end without a key *)
Definition rounds_exhausted (rounds attempts half : nat) (E : Z) (random : nat -> key_randomness) (k : nat) : Prop :=
  (exists i, (k <= i < k + rounds)%nat
    /\ (no_prime_drawn attempts half (draw_p (random i)) \/ no_prime_drawn attempts half (draw_q (random i))))
  \/ (forall i, (k <= i < k + rounds)%nat -> round_rejected attempts half E (random i)).

Lemma rounds_exhausted_step rounds attempts half E random k :
  round_rejected attempts half E (random k) -> rounds_exhausted rounds attempts half E random (S k) ->
  rounds_exhausted (S rounds) attempts half E random k.
Proof.
  intros Hk [(i & Hi & H)|H]; [left; exists i; split; [lia|done]|right].
  intros i Hi. destruct (decide (i = k)) as [->|]; [done|apply H; lia].
Qed.

Lemma generate_primes_runs rounds attempts random k half e E :
  random_ok random -> (33 <= half)%nat -> represents e E ->
  runs (generate_primes rounds attempts random k half e) (fun result =>
    match result with
    | Some (p, q, lambda) => key_primes half E p q lambda
    | None => rounds_exhausted rounds attempts half E random k
    end).
Proof.
  intros Hr Hh He. revert k. induction rounds as [|rounds IH]; intros k; cbn [generate_primes]; [apply runs_ret; right; lia|].
  destruct (Hr k) as (H1 & H2 & H3 & H4).
  destruct (random_big_prime_runs attempts (draw_p (random k)) (test_p (random k)) half H1 H2 Hh) as (op & Ep & Hp).
  destruct (random_big_prime_runs attempts (draw_q (random k)) (test_q (random k)) half H3 H4 Hh) as (oq & Eq & Hq).
  rewrite Ep, Eq. cbn [kbind outcome_monad]. destruct op as [p|]; [|apply runs_ret; left; exists k; split; [lia|by left]].
  destruct oq as [q|]; [|apply runs_ret; left; exists k; split; [lia|by right]].
  destruct Hp as (P & Hp & HP & HPo). destruct Hq as (Q & Hq & HQ & HQo).
  pose proof (prime_minus_one_bits half P Hh HP HPo) as BP. pose proof (prime_minus_one_bits half Q Hh HQ HQo) as BQ.
  assert (Hpw : 0 < 2 ^ Z.of_nat (half - 1)) by lia.
  eapply runs_bind; [apply subtract_without_allocation_runs; [exact Hp|by apply (small_word_represents 1)]|].
  intros [[p1 o1] pm] (Rp & _ & Hpm). rewrite (proj2 (Z.ltb_ge P 1)) in Hpm by lia. destruct Hpm as [Hpm _].
  eapply runs_bind; [apply subtract_without_allocation_runs; [exact Hq|by apply (small_word_represents 1)]|].
  intros [[q1 o2] qm] (Rq & _ & Hqm). rewrite (proj2 (Z.ltb_ge Q 1)) in Hqm by lia. destruct Hqm as [Hqm _].
  eapply runs_bind; [apply (LCM_runs pm qm _ _ Hpm Hqm)|].
  { rewrite (represents_word_count _ _ Hpm), (represents_word_count _ _ Hqm). by rewrite !(word_count_log2 _ (half - 1)). }
  intros [[l a'] b'] (Hl & _). eapply runs_bind; [by apply GCD_runs|]. intros g Hg.
  eapply runs_bind; [apply compare_word; [exact Hg|by apply word_small]|]. intros [[one g'] w] (-> & _).
  destruct (Z.eqb_spec (Z.gcd E (Z.lcm (P - 1) (Q - 1))) 1) as [E1|E1].
  2: { eapply runs_mono; [apply IH|]. intros [[[? ?] ?]|] H; [done|]. apply rounds_exhausted_step; [by exists p, q, P, Q|done]. }
  apply runs_ret. exists P, Q.
  split; [by eapply refreshed_represents; [apply represents_holds|]|]. split; [by eapply refreshed_represents; [apply represents_holds|]|].
  split; [done|]. split; [apply lcm_even; rewrite Zminus_mod, HPo; done|]. split; [done|]. split; [|apply product_bits; done || lia].
  pose proof (Z.divide_lcm_l (P - 1) (Q - 1)) as Hd. apply Z.divide_pos_le in Hd; [lia|].
  pose proof (Z.lcm_nonneg (P - 1) (Q - 1)). assert (Z.lcm (P - 1) (Q - 1) <> 0) by (rewrite Z.lcm_eq_0; lia). lia.
Qed.


