(* ===== verification/Poly1305.v ===== *)
(** * Poly1305: Userland/Libraries/LibCrypto/Authentication/Poly1305.cpp

    The authenticator keeps its accumulator in 64-bit words that hold 32 bits each and some
    carry, multiplies it by the clamped key word by word and reduces it modulo 2^130 - 5 by
    adding the high part five times at the low end.  The theorem says that what it computes,
    however the message is cut into updates, is the number of RFC 8439: the polynomial of the
    message blocks in the key modulo 2^130 - 5, plus the second half of the key modulo 2^128.
    No addition or multiplication of words overflows on the way. *)
From Stdlib Require Import Znumtheory.
From S2P Require Import Prelude MemMem BigIntBase Congruence.

Local Open Scope Z_scope.

(** ** State *)
Record State := mkState { r : list Z; s : list Z; a : list Z; blocks : list Z; block_count : Z }.

(** [ByteReader::load32] at an offset that [Span::offset] has checked, on a little-endian machine; reading behind the
    end of the bytes counts as a failure. *)
Definition load32 (bytes : list Z) (offset : nat) : outcome Z :=
  if (offset + 4 <=? length bytes)%nat then kret (value 8 (take 4 (drop offset bytes))) else Panic.

Definition load_words (bytes : list Z) (offset : nat) : outcome (list Z) :=
  w0 ← load32 bytes offset;
  w1 ← load32 bytes (offset + 4);
  w2 ← load32 bytes (offset + 8);
  w3 ← load32 bytes (offset + 12);
  kret [w0; w1; w2; w3].

(** [store] of a 32-bit word *)
Definition word_bytes (x : Z) : list Z := [x mod 256; Z.shiftr x 8 mod 256; Z.shiftr x 16 mod 256; Z.shiftr x 24 mod 256].

Definition Poly1305_new (key : list Z) : outcome State :=
  rs ← load_words key 0;
  ss ← load_words key 16;
  kret (mkState (zip_with Z.land rs [0x0FFFFFFF; 0x0FFFFFFC; 0x0FFFFFFC; 0x0FFFFFFC]) ss (replicate 8 0) (replicate 17 0) 0).

(** ** process_block *)
(** [a[i] += a[i - 1] >> 32] for all words but the first *)
Fixpoint carry_from (c : Z) (words : list Z) : list Z :=
  match words with
  | [] => []
  | x :: words => let x := wrap 64 (x + c) in x :: carry_from (Z.shiftr x 32) words
  end.
Definition carry (words : list Z) : list Z := carry_from 0 words.

Definition low (x : Z) : Z := Z.land x 0xFFFFFFFF.

(** The words of the product *)
Definition multiply (x r : list Z) : list Z :=
  let x i := nth i x 0 in
  let r i := nth i r 0 in
  [ wrap 64 (x 0%nat * r 0%nat);
    wrap 64 (x 0%nat * r 1%nat + x 1%nat * r 0%nat);
    wrap 64 (x 0%nat * r 2%nat + x 1%nat * r 1%nat + x 2%nat * r 0%nat);
    wrap 64 (x 0%nat * r 3%nat + x 1%nat * r 2%nat + x 2%nat * r 1%nat + x 3%nat * r 0%nat);
    wrap 64 (x 1%nat * r 3%nat + x 2%nat * r 2%nat + x 3%nat * r 1%nat + x 4%nat * r 0%nat);
    wrap 64 (x 2%nat * r 3%nat + x 3%nat * r 2%nat + x 4%nat * r 1%nat);
    wrap 64 (x 3%nat * r 3%nat + x 4%nat * r 2%nat);
    wrap 64 (x 4%nat * r 3%nat) ].

(** The fast reduction, first pass: the words of the product, carried, become five words. *)
Definition reduce_first (p : list Z) : list Z :=
  let p i := nth i p 0 in
  let h0 := Z.land (p 4%nat) 0xFFFFFFFC in
  let h1 := low (p 5%nat) in
  let h2 := low (p 6%nat) in
  let h3 := low (p 7%nat) in
  let shifted x y := Z.lor (Z.shiftr x 2) (wrap 32 (Z.shiftl y 30)) in
  [ wrap 64 (wrap 64 (low (p 0%nat) + h0) + shifted h0 h1);
    wrap 64 (wrap 64 (low (p 1%nat) + h1) + shifted h1 h2);
    wrap 64 (wrap 64 (low (p 2%nat) + h2) + shifted h2 h3);
    wrap 64 (wrap 64 (low (p 3%nat) + h3) + Z.shiftr h3 2);
    Z.land (p 4%nat) 3 ].

(** The second pass *)
Definition reduce_second (p : list Z) : list Z :=
  let p i := nth i p 0 in
  let h := Z.land (p 4%nat) 0xFFFFFFFC in
  [ wrap 64 (wrap 64 (low (p 0%nat) + h) + Z.shiftr h 2); low (p 1%nat); low (p 2%nat); low (p 3%nat); Z.land (p 4%nat) 3 ].

(** Only the least significant bits *)
Definition masked (p : list Z) : list Z :=
  let p i := nth i p 0 in [low (p 0%nat); low (p 1%nat); low (p 2%nat); low (p 3%nat); Z.land (p 4%nat) 3].

(** The block with the bit beyond its last byte, as words *)
Definition block_words (blocks : list Z) : list Z :=
  [value 8 (take 4 blocks); value 8 (take 4 (drop 4 blocks)); value 8 (take 4 (drop 8 blocks)); value 8 (take 4 (drop 12 blocks)); nth 16 blocks 0].

Definition process_block (st : State) : State :=
  let n := Z.to_nat (block_count st) in
  let blocks := take n (blocks st) ++ [1] ++ replicate (16 - n) 0 in
  let sum := carry (zip_with (fun x y => wrap 64 (x + y)) (take 5 (a st)) (block_words blocks)) in
  let product := carry (multiply (map low sum) (r st)) in
  let first := carry (reduce_first product) in
  let second := carry (reduce_second first) in
  mkState (r st) (s st) (masked second ++ drop 5 product) blocks (block_count st).

(** ** update *)
(** One round: the next bytes of the message go behind the bytes that wait; a full block is processed. *)
Definition update_round (st : State) (chunk : list Z) : State :=
  let count := Z.to_nat (block_count st) in
  let filled := take count (blocks st) ++ chunk ++ drop (count + length chunk) (blocks st) in
  let st := mkState (r st) (s st) (a st) filled (wrap 8 (block_count st + Z.of_nat (length chunk))) in
  if block_count st =? 16 then
    let st := process_block st in mkState (r st) (s st) (a st) (blocks st) 0
  else st.

(** The [while]; every round takes at least one byte. *)
Fixpoint update_loop (fuel : nat) (st : State) (message : list Z) (offset : nat) : outcome State :=
  match fuel with
  | O => Panic
  | S fuel =>
      if (offset <? length message)%nat then
        let n := min (length message - offset) (16 - Z.to_nat (block_count st)) in
        update_loop fuel (update_round st (take n (drop offset message))) message (offset + n)
      else kret st
  end.
Definition update (st : State) (message : list Z) : outcome State := update_loop (S (length message)) st message 0.

(** ** digest *)
(** a + 5, carried *)
Definition plus_five (words : list Z) : list Z := carry (zip_with (fun x y => wrap 64 (x + y)) (take 5 words) [5; 0; 0; 0; 0]).

(** The words of a + 5 if that reaches 2^130, of a if not, chosen with a mask *)
Definition selected (words : list Z) : list Z :=
  let b := map low (take 4 words) in
  let mask := wrap 32 (Z.shiftr (Z.land (nth 4 (plus_five words) 0) 4) 2 - 1) in
  zip_with (fun x y => Z.lor (Z.land x (wrap 32 (Z.lnot mask))) (Z.land y mask)) (take 4 (plus_five words)) b.

(** The bytes of the tag; the state is not used after it. *)
Definition digest (st : State) : list Z :=
  let st := if negb (block_count st =? 0) then process_block st else st in
  let tag := carry (zip_with (fun x y => wrap 64 (x + y)) (selected (a st)) (s st)) in
  word_bytes (low (nth 0 tag 0)) ++ word_bytes (low (nth 1 tag 0)) ++ word_bytes (low (nth 2 tag 0)) ++ word_bytes (low (nth 3 tag 0)).

(** ** A client *)
Fixpoint updates (st : State) (parts : list (list Z)) : outcome State :=
  match parts with
  | [] => kret st
  | part :: parts => st ← update st part; updates st parts
  end.

(** The tag of a message that comes in parts *)
Definition authenticate (key : list Z) (parts : list (list Z)) : outcome (list Z) :=
  st ← Poly1305_new key;
  st ← updates st parts;
  kret (digest st).


(** ** Words and digits *)
#[local] Notation B := (2 ^ 32).

Lemma low_mod x : low x = x mod B.
Proof. unfold low. change 0xFFFFFFFF with (Z.ones 32). by rewrite Z.land_ones. Qed.

Lemma land_3 x : Z.land x 3 = x mod 4.
Proof. change 3 with (Z.ones 2). by rewrite Z.land_ones. Qed.

Lemma land_high x : Z.land x 0xFFFFFFFC = 4 * (x mod B / 4).
Proof.
  replace (4 * (x mod B / 4)) with (Z.shiftl (Z.shiftr (x mod B) 2) 2) by (rewrite Z.shiftl_mul_pow2, Z.shiftr_div_pow2 by lia; change (2 ^ 2) with 4; lia).
  apply Z.bits_inj'. intros i Hi. rewrite Z.land_spec. change 0xFFFFFFFC with (Z.shiftl (Z.ones 30) 2). rewrite !Z.shiftl_spec by lia. destruct (Z.ltb_spec i 2).
  - rewrite !(Z.testbit_neg_r _ (i - 2)) by lia. apply andb_false_r.
  - rewrite Z.shiftr_spec by lia. replace (i - 2 + 2) with i by lia. destruct (Z.ltb_spec i 32).
    + rewrite Z.ones_spec_low, Z.mod_pow2_bits_low by lia. apply andb_true_r.
    + rewrite Z.ones_spec_high, Z.mod_pow2_bits_high by lia. apply andb_false_r.
Qed.

Lemma digit_S V i : digit 32 V (S i) = digit 32 (V / B) i.
Proof. unfold digit. rewrite weight_S, <- Z.div_div by (try apply weight_pos; lia). done. Qed.

(** What carrying leaves: the digits of the value, and in the last word all that is left *)
Lemma carry_from_spec l c : 0 <= c < B -> Forall (fun x => 0 <= x <= 2 ^ 64 - 2 ^ 32) l ->
  forall i x, carry_from c l !! i = Some x -> low x = digit 32 (value 32 l + c) i /\ (S i = length l -> x = (value 32 l + c) / weight 32 i).
Proof.
  intros Hc Hl. revert c Hc. induction Hl as [|y l Hy Hl IH]; intros c Hc i x; [done|]. cbn [carry_from]. unfold wrap. rewrite Z.mod_small by lia. rewrite Z.shiftr_div_pow2 by lia.
  assert (Hv : (value 32 (y :: l) + c) / B = value 32 l + (y + c) / B) by (cbn [value]; replace (y + B * value 32 l + c) with (y + c + value 32 l * B) by lia; rewrite Z.div_add by lia; lia).
  destruct i as [|i]; cbn [lookup list_lookup].
  - intros [= <-]. rewrite low_mod. unfold digit. rewrite weight_0, Z.div_1_r. split.
    + cbn [value]. replace (y + B * value 32 l + c) with (y + c + value 32 l * B) by lia. by rewrite Z.mod_add.
    + intros Hlen. destruct l; [|done]. cbn. lia.
  - intros Hx. destruct (IH ((y + c) / B)) with (i := i) (x := x) as [H1 H2]; [|done|].
    { split; [apply Z.div_pos; lia|apply Z.div_lt_upper_bound; lia]. }
    rewrite digit_S, Hv. split; [done|]. intros [= Hlen]. rewrite (H2 Hlen), weight_S, <- Z.div_div, Hv by (try apply weight_pos; lia). done.
Qed.

Lemma carry_length c l : length (carry_from c l) = length l.
Proof. revert c. induction l as [|x l IH]; intros c; [done|]. cbn. by rewrite IH. Qed.

Lemma carry_spec l : Forall (fun x => 0 <= x <= 2 ^ 64 - 2 ^ 32) l ->
  forall i x, carry l !! i = Some x -> low x = digit 32 (value 32 l) i /\ (S i = length l -> x = value 32 l / weight 32 i).
Proof. intros Hl i x Hx. pose proof (carry_from_spec l 0 ltac:(lia) Hl i x Hx) as H. by rewrite Z.add_0_r in H. Qed.

(** A list of known length *)
Lemma list_5 {A} (l : list A) : length l = 5%nat -> exists x0 x1 x2 x3 x4, l = [x0; x1; x2; x3; x4].
Proof. intros H. do 5 (destruct l as [|? l]; [done|]). destruct l; [|done]. by do 5 eexists. Qed.
Lemma list_8 {A} (l : list A) : length l = 8%nat -> exists x0 x1 x2 x3 x4 x5 x6 x7, l = [x0; x1; x2; x3; x4; x5; x6; x7].
Proof. intros H. do 8 (destruct l as [|? l]; [done|]). destruct l; [|done]. by do 8 eexists. Qed.

Lemma carry_5 l : length l = 5%nat -> Forall (fun x => 0 <= x <= 2 ^ 64 - 2 ^ 32) l ->
  exists x0 x1 x2 x3, carry l = [x0; x1; x2; x3; value 32 l / 2 ^ 128]
    /\ low x0 + B * low x1 + 2 ^ 64 * low x2 + 2 ^ 96 * low x3 = value 32 l mod 2 ^ 128.
Proof.
  intros Hlen Hl. destruct (list_5 (carry l)) as (x0 & x1 & x2 & x3 & x4 & E); [unfold carry; by rewrite carry_length|]. pose proof (carry_spec l Hl) as H. rewrite E in H.
  destruct (H 0%nat x0 eq_refl) as [E0 _]. destruct (H 1%nat x1 eq_refl) as [E1 _]. destruct (H 2%nat x2 eq_refl) as [E2 _]. destruct (H 3%nat x3 eq_refl) as [E3 _]. destruct (H 4%nat x4 eq_refl) as [_ E4].
  rewrite Hlen in E4. specialize (E4 eq_refl). change (weight 32 4) with (2 ^ 128) in E4. exists x0, x1, x2, x3. rewrite E, E4. split; [done|].
  pose proof (value_digits 32 ltac:(lia) [low x0; low x1; low x2; low x3] (value 32 l)) as Hv. change (weight 32 (length [low x0; low x1; low x2; low x3])) with (2 ^ 128) in Hv. rewrite <- Hv.
  - cbn [value]. lia.
  - intros [|[|[|[|j]]]] x; cbn; intros [= <-]; done.
Qed.

Lemma carry_8 l : length l = 8%nat -> Forall (fun x => 0 <= x <= 2 ^ 64 - 2 ^ 32) l -> 0 <= value 32 l < 2 ^ 256 ->
  exists x0 x1 x2 x3 x4 x5 x6 x7, carry l = [x0; x1; x2; x3; x4; x5; x6; x7] /\ value 32 (map low (carry l)) = value 32 l.
Proof.
  intros Hlen Hl Hv. destruct (list_8 (carry l)) as (x0 & x1 & x2 & x3 & x4 & x5 & x6 & x7 & E); [unfold carry; by rewrite carry_length|]. do 8 eexists. split; [exact E|].
  rewrite (value_digits 32 ltac:(lia) (map low (carry l)) (value 32 l)).
  - rewrite length_map, E. change (weight 32 (length _)) with (2 ^ 256). by apply Z.mod_small.
  - intros j x. rewrite list_lookup_fmap. destruct (carry l !! j) as [y|] eqn:Ej; [|done]. intros [= <-]. by apply (carry_spec l Hl).
Qed.

Lemma low_range x : 0 <= low x < B.
Proof. rewrite low_mod. apply Z.mod_pos_bound. lia. Qed.

(** ** One block *)
Definition P1305 : Z := 2 ^ 130 - 5.

(** Sums of words that do not overflow *)
Ltac no_wrap := repeat match goal with |- context [?x mod 2 ^ 64] => rewrite (Z.mod_small x (2 ^ 64)) by lia end.

(** The words of the accumulator and of the clamped key *)
Definition acc_ok (l : list Z) : Prop := exists x0 x1 x2 x3 x4, take 5 l = [x0; x1; x2; x3; x4] /\ words_ok 32 [x0; x1; x2; x3] /\ 0 <= x4 <= 3 /\ length l = 8%nat.
Definition acc_value (l : list Z) : Z := value 32 (take 5 l).
Definition key_ok (l : list Z) : Prop := length l = 4%nat /\ Forall (in_width 28) l.

Lemma key_words l : key_ok l -> exists r0 r1 r2 r3, l = [r0; r1; r2; r3] /\ in_width 28 r0 /\ in_width 28 r1 /\ in_width 28 r2 /\ in_width 28 r3.
Proof.
  intros [Hl Hw]. do 4 (destruct l as [|? l]; [done|]). destruct l; [|done]. repeat (apply Forall_cons in Hw as [? Hw]). by do 4 eexists.
Qed.

Lemma multiply_spec x r : length x = 5%nat -> words_ok 32 x -> key_ok r ->
  value 32 (multiply x r) = value 32 x * value 32 r /\ length (multiply x r) = 8%nat /\ Forall (fun y => 0 <= y <= 2 ^ 64 - 2 ^ 32) (multiply x r).
Proof.
  intros Hx Hw Hr. destruct (key_words r Hr) as (r0 & r1 & r2 & r3 & -> & H0 & H1 & H2 & H3). destruct (list_5 x Hx) as (x0 & x1 & x2 & x3 & x4 & ->).
  apply Forall_cons in Hw as [X0 Hw]. apply Forall_cons in Hw as [X1 Hw]. apply Forall_cons in Hw as [X2 Hw]. apply Forall_cons in Hw as [X3 Hw]. apply Forall_cons in Hw as [X4 Hw].
  assert (Hb : forall u v, in_width 32 u -> in_width 28 v -> 0 <= u * v < 2 ^ 60) by (unfold in_width; intros; nia). cbv [multiply nth]. unfold wrap.
  pose proof (Hb x0 r0 X0 H0). pose proof (Hb x0 r1 X0 H1). pose proof (Hb x0 r2 X0 H2). pose proof (Hb x0 r3 X0 H3).
  pose proof (Hb x1 r0 X1 H0). pose proof (Hb x1 r1 X1 H1). pose proof (Hb x1 r2 X1 H2). pose proof (Hb x1 r3 X1 H3).
  pose proof (Hb x2 r0 X2 H0). pose proof (Hb x2 r1 X2 H1). pose proof (Hb x2 r2 X2 H2). pose proof (Hb x2 r3 X2 H3).
  pose proof (Hb x3 r0 X3 H0). pose proof (Hb x3 r1 X3 H1). pose proof (Hb x3 r2 X3 H2). pose proof (Hb x3 r3 X3 H3).
  pose proof (Hb x4 r0 X4 H0). pose proof (Hb x4 r1 X4 H1). pose proof (Hb x4 r2 X4 H2). pose proof (Hb x4 r3 X4 H3).
  clear Hb X0 X1 X2 X3 X4 H0 H1 H2 H3 Hx Hr Hw.
  remember (x0 * r0) as p00 eqn:E00. remember (x0 * r1) as p01 eqn:E01. remember (x0 * r2) as p02 eqn:E02. remember (x0 * r3) as p03 eqn:E03.
  remember (x1 * r0) as p10 eqn:E10. remember (x1 * r1) as p11 eqn:E11. remember (x1 * r2) as p12 eqn:E12. remember (x1 * r3) as p13 eqn:E13.
  remember (x2 * r0) as p20 eqn:E20. remember (x2 * r1) as p21 eqn:E21. remember (x2 * r2) as p22 eqn:E22. remember (x2 * r3) as p23 eqn:E23.
  remember (x3 * r0) as p30 eqn:E30. remember (x3 * r1) as p31 eqn:E31. remember (x3 * r2) as p32 eqn:E32. remember (x3 * r3) as p33 eqn:E33.
  remember (x4 * r0) as p40 eqn:E40. remember (x4 * r1) as p41 eqn:E41. remember (x4 * r2) as p42 eqn:E42. remember (x4 * r3) as p43 eqn:E43.
  no_wrap. split; [subst; cbn [value]; ring|]. split; [done|]. repeat constructor; lia.
Qed.

(** Shifting a word right by two, with the two bits of the next one *)
Lemma shifted_exact x y : 0 <= x < B -> 0 <= y < B -> Z.lor (Z.shiftr x 2) (wrap 32 (Z.shiftl y 30)) = x / 4 + y mod 4 * 2 ^ 30.
Proof.
  intros Hx Hy. rewrite Z.shiftr_div_pow2 by lia. change (2 ^ 2) with 4. rewrite (wrap_shiftl 32 ltac:(lia) y 30) by lia. change (2 ^ (32 - 30)) with 4.
  apply (lor_disjoint (x / 4) (y mod 4) 30); [lia|]. split; [apply Z.div_pos; lia|apply Z.div_lt_upper_bound; lia].
Qed.

Lemma reduce_first_spec l : length l = 8%nat -> let P := value 32 (map low l) in
  value 32 (reduce_first l) = P mod 2 ^ 130 + 5 * (P / 2 ^ 130) /\ length (reduce_first l) = 5%nat /\ Forall (fun y => 0 <= y <= 2 ^ 64 - 2 ^ 32) (reduce_first l).
Proof.
  intros Hl P. destruct (list_8 l Hl) as (x0 & x1 & x2 & x3 & x4 & x5 & x6 & x7 & ->). cbv [reduce_first nth]. rewrite land_3, land_high, <- low_mod.
  pose proof (low_range x0). pose proof (low_range x1). pose proof (low_range x2). pose proof (low_range x3). pose proof (low_range x4) as H4. pose proof (low_range x5). pose proof (low_range x6). pose proof (low_range x7).
  assert (E4 : x4 mod 4 = low x4 mod 4) by (rewrite low_mod; apply Zmod_div_mod; [lia|lia|by exists (2 ^ 30)]). rewrite E4.
  subst P. cbn [map value]. set (d0 := low x0) in *. set (d1 := low x1) in *. set (d2 := low x2) in *. set (d3 := low x3) in *. set (d4 := low x4) in *. set (d5 := low x5) in *. set (d6 := low x6) in *. set (d7 := low x7) in *.
  pose proof (Z.div_mod d4 4 ltac:(lia)). pose proof (Z.div_mod d5 4 ltac:(lia)). pose proof (Z.div_mod d6 4 ltac:(lia)). pose proof (Z.div_mod d7 4 ltac:(lia)).
  pose proof (Z.mod_pos_bound d4 4 ltac:(lia)). pose proof (Z.mod_pos_bound d5 4 ltac:(lia)). pose proof (Z.mod_pos_bound d6 4 ltac:(lia)). pose proof (Z.mod_pos_bound d7 4 ltac:(lia)).
  rewrite !shifted_exact by lia. rewrite (Z.mul_comm 4 (d4 / 4)), Z.div_mul by lia. rewrite Z.shiftr_div_pow2 by lia. change (2 ^ 2) with 4.
  set (q4 := d4 / 4) in *. set (q5 := d5 / 4) in *. set (q6 := d6 / 4) in *. set (q7 := d7 / 4) in *. set (m4 := d4 mod 4) in *. set (m5 := d5 mod 4) in *. set (m6 := d6 mod 4) in *. set (m7 := d7 mod 4) in *.
  clearbody d0 d1 d2 d3 q4 q5 q6 q7 m4 m5 m6 m7. clearbody d4 d5 d6 d7. unfold wrap. no_wrap. split; [|split; [done|repeat constructor; lia]].
  set (P := d0 + B * (d1 + B * (d2 + B * (d3 + B * (d4 + B * (d5 + B * (d6 + B * (d7 + B * 0)))))))). set (Q := q4 + d5 * 2 ^ 30 + d6 * 2 ^ 62 + d7 * 2 ^ 94). set (L := d0 + d1 * 2 ^ 32 + d2 * 2 ^ 64 + d3 * 2 ^ 96 + m4 * 2 ^ 128).
  assert (EP : P = 2 ^ 130 * Q + L) by (unfold P, Q, L; lia). assert (HL : 0 <= L < 2 ^ 130)  by (unfold L; lia).
  rewrite <- (Z.div_unique P (2 ^ 130) Q L) by (try left; lia). rewrite <- (Z.mod_unique P (2 ^ 130) Q L) by (try left; lia). unfold L, Q. cbn [value]. lia.
Qed.

(** The reduction subtracts a multiple of the prime. *)
Lemma reduced_congr V : V mod 2 ^ 130 + 5 * (V / 2 ^ 130) == V [mod P1305].
Proof.
  apply congr_divide; [done|]. exists (- (V / 2 ^ 130)). unfold P1305. pose proof (Z.div_mod V (2 ^ 130) ltac:(lia)). lia.
Qed.

Lemma split_130 V : 0 <= V -> V / 2 ^ 130 = V / 2 ^ 128 / 4 /\ V mod 2 ^ 130 = V mod 2 ^ 128 + 2 ^ 128 * ((V / 2 ^ 128) mod 4).
Proof. intros HV. change (2 ^ 130) with (2 ^ 128 * 4). by rewrite Z.div_div, Z.rem_mul_r by lia. Qed.

Lemma reduce_second_spec x0 x1 x2 x3 V : 0 <= V < 2 ^ 131 -> low x0 + B * low x1 + 2 ^ 64 * low x2 + 2 ^ 96 * low x3 = V mod 2 ^ 128 ->
  let l := reduce_second [x0; x1; x2; x3; V / 2 ^ 128] in
  value 32 l = V mod 2 ^ 130 + 5 * (V / 2 ^ 130) /\ length l = 5%nat /\ Forall (fun y => 0 <= y <= 2 ^ 64 - 2 ^ 32) l.
Proof.
  intros HV Hlow. cbv [reduce_second nth]. destruct (split_130 V ltac:(lia)) as [-> ->]. rewrite <- Hlow. assert (Ht : 0 <= V / 2 ^ 128 < 8) by (split; [apply Z.div_pos|apply Z.div_lt_upper_bound]; lia).
  clear Hlow. set (t := V / 2 ^ 128) in *. clearbody t. rewrite land_3, land_high, (Z.mod_small t B), (Z.mul_comm 4 (t / 4)), Z.shiftr_div_pow2 by lia. change (2 ^ 2) with 4. rewrite Z.div_mul by lia.
  pose proof (Z.div_mod t 4 ltac:(lia)). pose proof (Z.mod_pos_bound t 4 ltac:(lia)). set (q := t / 4) in *. set (m := t mod 4) in *. clearbody q m.
  pose proof (low_range x0). pose proof (low_range x1). pose proof (low_range x2). pose proof (low_range x3). unfold wrap. no_wrap. split; [cbn [value]; lia|]. split; [done|]. repeat constructor; lia.
Qed.

Lemma masked_spec x0 x1 x2 x3 V rest : 0 <= V < 2 ^ 130 -> low x0 + B * low x1 + 2 ^ 64 * low x2 + 2 ^ 96 * low x3 = V mod 2 ^ 128 -> length rest = 3%nat ->
  let l := masked [x0; x1; x2; x3; V / 2 ^ 128] ++ rest in acc_ok l /\ acc_value l = V.
Proof.
  intros HV Hlow Hr. unfold acc_ok, acc_value. cbv [masked nth]. cbn [app take]. assert (Ht : 0 <= V / 2 ^ 128 < 4) by (split; [apply Z.div_pos|apply Z.div_lt_upper_bound]; lia).
  rewrite land_3, Z.mod_small by lia. pose proof (Z.div_mod V (2 ^ 128) ltac:(lia)). split.
  - do 5 eexists. split; [done|]. split; [repeat constructor; apply low_range|]. split; [lia|]. cbn. by rewrite Hr.
  - cbn [value]. rewrite <- Hlow in *. clear Hlow. set (t := V / 2 ^ 128) in *. clearbody t. rewrite take_0. cbn [value]. lia.
Qed.

(** The bytes of a block as words *)
Lemma list_17 {A} (l : list A) : length l = 17%nat -> exists x0 x1 x2 x3 x4 x5 x6 x7 x8 x9 x10 x11 x12 x13 x14 x15 x16, l = [x0; x1; x2; x3; x4; x5; x6; x7; x8; x9; x10; x11; x12; x13; x14; x15; x16].
Proof. intros H. do 17 (destruct l as [|? l]; [done|]). destruct l; [|done]. by do 17 eexists. Qed.

Lemma value_8_4 l : Forall is_byte l -> (length l <= 4)%nat -> 0 <= value 8 l < B.
Proof.
  intros Hb Hl. pose proof (value_bound 8 ltac:(lia) l Hb) as Hv. split; [lia|]. apply Z.lt_le_trans with (weight 8 (length l)); [lia|]. change B with (weight 8 4). apply weight_le; lia.
Qed.

Lemma block_words_spec l : length l = 17%nat -> Forall is_byte l ->
  value 32 (block_words l) = value 8 l /\ length (block_words l) = 5%nat /\ words_ok 32 (take 4 (block_words l)) /\ nth 4 (block_words l) 0 = nth 16 l 0.
Proof.
  intros Hl Hb. assert (Hw : words_ok 32 (take 4 (block_words l))).
  { unfold block_words. cbn [take]. repeat constructor; apply value_8_4; try (apply Forall_take; try apply Forall_drop; done); rewrite length_take; lia. }
  destruct (list_17 l Hl) as (x0 & x1 & x2 & x3 & x4 & x5 & x6 & x7 & x8 & x9 & x10 & x11 & x12 & x13 & x14 & x15 & x16 & ->). split; [cbn; ring|]. done.
Qed.

(** The block with its final bit *)
Lemma padded_value l n : (n <= 16)%nat -> (n <= length l)%nat -> Forall is_byte (take n l) ->
  let p := take n l ++ [1] ++ replicate (16 - n) 0 in
  length p = 17%nat /\ Forall is_byte p /\ value 8 p = value 8 (take n l) + 2 ^ (8 * Z.of_nat n) /\ 0 <= nth 16 p 0 <= 1.
Proof.
  intros Hn Hl Hb p. assert (Hlen : length p = 17%nat) by (unfold p; rewrite !length_app, length_take, length_replicate; cbn; lia). split; [done|].
  assert (Hp : Forall is_byte p) by (unfold p; apply Forall_app; split; [done|]; apply Forall_app; split; [repeat constructor; lia|apply Forall_replicate; unfold is_byte, in_width; lia]).
  split; [done|]. split.
  - unfold p. rewrite value_app, value_app, value_replicate by lia. rewrite length_take_le by lia. cbn [value length]. unfold weight. lia.
  - unfold p. destruct (decide (n = 16)%nat) as [->|Hne]; [rewrite app_nth2; rewrite length_take_le by lia; [cbn; lia|lia]|].
    rewrite app_nth2 by (rewrite length_take_le; lia). rewrite length_take_le by lia. rewrite app_nth2 by (cbn; lia). rewrite nth_lookup. destruct (replicate (16 - n) 0 !! _) as [z|] eqn:E; [apply lookup_replicate in E as [-> _]|]; cbn; lia.
Qed.

(** ** The states of the authenticator *)
Record state_ok (st : State) : Prop := {
  so_acc : acc_ok (a st);
  so_key : key_ok (r st);
  so_final : length (s st) = 4%nat /\ words_ok 32 (s st);
  so_blocks : length (blocks st) = 17%nat;
  so_count : 0 <= block_count st <= 16;
  so_bytes : Forall is_byte (take (Z.to_nat (block_count st)) (blocks st)) }.

(** The number that a block stands for *)
Definition block_number (block : list Z) : Z := value 8 block + 2 ^ (8 * Z.of_nat (length block)).

Lemma process_block_spec st : state_ok st -> let block := take (Z.to_nat (block_count st)) (blocks st) in
  let st' := process_block st in
  acc_ok (a st') /\ acc_value (a st') == (acc_value (a st) + block_number block) * value 32 (r st) [mod P1305]
  /\ r st' = r st /\ s st' = s st /\ length (blocks st') = 17%nat /\ block_count st' = block_count st.
Proof.
  intros [(y0 & y1 & y2 & y3 & y4 & Ea & Hy & Hy4 & Hal) Hk _ Hbl Hc Hb] block. unfold process_block. set (n := Z.to_nat (block_count st)) in *.
  destruct (padded_value (blocks st) n ltac:(lia) ltac:(lia) Hb) as (Hpl & Hpb & Hpv & Hp16). set (p := take n (blocks st) ++ [1] ++ replicate (16 - n) 0) in *.
  destruct (block_words_spec p Hpl Hpb) as (Hbv & Hbwl & Hbw & Hb4). destruct (list_5 (block_words p) Hbwl) as (b0 & b1 & b2 & b3 & b4 & Eb).
  assert (Hn : block_number block = value 8 p) by (unfold block_number, block; rewrite Hpv, length_take_le by lia; done). unfold acc_value at 2. rewrite Ea, Hn, <- Hbv, Eb in *. cbn [take nth] in Hbw, Hb4. rewrite <- Hb4 in Hp16.
  repeat (apply Forall_cons in Hy as [? Hy]). repeat (apply Forall_cons in Hbw as [? Hbw]). unfold in_width in *.
  set (sum := zip_with _ _ _). assert (Hsum : value 32 sum = value 32 [y0; y1; y2; y3; y4] + value 32 [b0; b1; b2; b3; b4] /\ length sum = 5%nat /\ Forall (fun y => 0 <= y <= 2 ^ 64 - 2 ^ 32) sum).
  { subst sum. cbn [zip_with]. unfold wrap. no_wrap. split; [cbn [value]; lia|]. split; [done|]. repeat constructor; lia. }
  destruct Hsum as (Hsv & Hsl & Hsf). set (V := value 32 [y0; y1; y2; y3; y4] + value 32 [b0; b1; b2; b3; b4]) in *. assert (HV : 0 <= V < 2 ^ 131) by (subst V; cbn [value]; lia). clearbody V.
  destruct (carry_5 sum Hsl Hsf) as (x0 & x1 & x2 & x3 & Ec & Hlow). rewrite Hsv in *. rewrite Ec. cbn [map].
  assert (Ht : 0 <= V / 2 ^ 128 < 8) by (split; [apply Z.div_pos|apply Z.div_lt_upper_bound]; lia). assert (El : low (V / 2 ^ 128) = V / 2 ^ 128) by (rewrite low_mod; apply Z.mod_small; lia).
  set (x := [low x0; low x1; low x2; low x3; low (V / 2 ^ 128)]).
  assert (Hxv : value 32 x = V). { subst x. rewrite El. cbn [value]. pose proof (Z.div_mod V (2 ^ 128) ltac:(lia)) as Hd. rewrite <- Hlow in Hd. set (t := V / 2 ^ 128) in *. clearbody t. lia. }
  destruct (multiply_spec x (r st) eq_refl) as (Hmv & Hml & Hmf); [repeat constructor; apply low_range|done|]. rewrite Hxv in Hmv.
  destruct (key_words (r st) Hk) as (r0 & r1 & r2 & r3 & Er & Hr0 & Hr1 & Hr2 & Hr3). unfold in_width in *. assert (HR : 0 <= value 32 (r st) < 2 ^ 124) by (rewrite Er; cbn [value]; lia).
  set (R := value 32 (r st)) in *. assert (HP : 0 <= V * R < 2 ^ 255) by nia.
  destruct (carry_8 (multiply x (r st)) Hml Hmf ltac:(rewrite Hmv; lia)) as (c0 & c1 & c2 & c3 & c4 & c5 & c6 & c7 & Ec8 & Hc8). rewrite Hmv in Hc8.
  destruct (reduce_first_spec (carry (multiply x (r st)))) as (Hfv & Hfl & Hff); [by rewrite Ec8|]. rewrite Hc8 in Hfv. set (V1 := V * R mod 2 ^ 130 + 5 * (V * R / 2 ^ 130)) in *.
  assert (HV1 : 0 <= V1 < 2 ^ 131).
  { subst V1. pose proof (Z.mod_pos_bound (V * R) (2 ^ 130) ltac:(lia)). assert (0 <= V * R / 2 ^ 130 < 2 ^ 125) by (split; [apply Z.div_pos|apply Z.div_lt_upper_bound]; lia). lia. }
  destruct (carry_5 _ Hfl Hff) as (f0 & f1 & f2 & f3 & Ef & Hflow). rewrite Hfv in *. destruct (reduce_second_spec f0 f1 f2 f3 V1 HV1 Hflow) as (Hgv & Hgl & Hgf). rewrite <- Ef in *.
  set (V2 := V1 mod 2 ^ 130 + 5 * (V1 / 2 ^ 130)) in *. assert (HV2 : 0 <= V2 < 2 ^ 130).
  { subst V2. pose proof (Z.div_mod V1 (2 ^ 130) ltac:(lia)). pose proof (Z.mod_pos_bound V1 (2 ^ 130) ltac:(lia)). assert (0 <= V1 / 2 ^ 130 < 2) by (split; [apply Z.div_pos|apply Z.div_lt_upper_bound]; lia).
    destruct (decide (V1 / 2 ^ 130 = 0)) as [E0|E0]; [rewrite E0 in *; lia|]. assert (E1 : V1 / 2 ^ 130 = 1) by lia. rewrite E1 in *.
    assert (V1 < 2 ^ 130 + 5 * 2 ^ 125); [|lia]. subst V1. pose proof (Z.mod_pos_bound (V * R) (2 ^ 130) ltac:(lia)). assert (V * R / 2 ^ 130 < 2 ^ 125) by (apply Z.div_lt_upper_bound; lia). lia. }
  destruct (carry_5 _ Hgl Hgf) as (g0 & g1 & g2 & g3 & Eg & Hglow). rewrite Hgv in *. cbn [a r s blocks block_count]. rewrite Eg.
  destruct (masked_spec g0 g1 g2 g3 V2 (drop 5 (carry (multiply x (r st)))) HV2 Hglow ltac:(by rewrite Ec8)) as [Hok Hval]. rewrite Hval.
  split; [done|]. split; [|done]. subst V2. rewrite reduced_congr. subst V1. by rewrite reduced_congr.
Qed.

(** ** RFC 8439 *)
(** The full blocks of a message taken into the accumulator, and the bytes that are left *)
Fixpoint absorb (fuel : nat) (R acc : Z) (message : list Z) : Z * list Z :=
  match fuel with
  | O => (acc, message)
  | S fuel => if (16 <=? length message)%nat then absorb fuel R ((acc + block_number (take 16 message)) * R mod P1305) (drop 16 message) else (acc, message)
  end.

(** The polynomial: the last block may be short. *)
Definition polynomial (R : Z) (message : list Z) : Z :=
  let '(acc, rest) := absorb (length message) R 0 message in
  match rest with [] => acc | _ => (acc + block_number rest) * R mod P1305 end.

Lemma absorb_fuel f1 f2 R acc m : (length m <= f1)%nat -> (length m <= f2)%nat -> absorb f1 R acc m = absorb f2 R acc m.
Proof.
  revert f2 acc m. induction f1 as [|f1 IH]; intros f2 acc m H1 H2; [destruct m; [|cbn in H1; lia]; by destruct f2|]. destruct f2 as [|f2]; [destruct m; [|cbn in H2; lia]; done|].
  cbn [absorb]. destruct (Nat.leb_spec 16 (length m)); [|done]. apply IH; rewrite length_drop; lia.
Qed.

Lemma absorb_rest f R acc m : (length m <= f)%nat -> (length (absorb f R acc m).2 < 16)%nat.
Proof.
  revert acc m. induction f as [|f IH]; intros acc m H; cbn [absorb]; [cbn; lia|]. destruct (Nat.leb_spec 16 (length m)); [apply IH; rewrite length_drop; lia|done].
Qed.

Lemma absorb_step f R acc m : (length m <= f)%nat -> (16 <= length m)%nat ->
  absorb f R acc m = absorb (length (drop 16 m)) R ((acc + block_number (take 16 m)) * R mod P1305) (drop 16 m).
Proof.
  intros Hf H. destruct f as [|f]; [lia|]. cbn [absorb]. rewrite (proj2 (Nat.leb_le _ _) H). apply absorb_fuel; rewrite length_drop; lia.
Qed.

Lemma absorb_short f R acc m : (length m < 16)%nat -> absorb f R acc m = (acc, m).
Proof. intros H. destruct f as [|f]; [done|]. cbn [absorb]. by rewrite (proj2 (Nat.leb_gt _ _) H). Qed.

(** Taking in a message in two parts *)
Lemma absorb_app R acc m1 m2 : absorb (length (m1 ++ m2)) R acc (m1 ++ m2) =
  let '(acc', rest) := absorb (length m1) R acc m1 in absorb (length (rest ++ m2)) R acc' (rest ++ m2).
Proof.
  remember (length m1) as k eqn:Ek. revert acc m1 Ek. induction k as [k IH] using lt_wf_ind. intros acc m1 ->. destruct (Nat.leb_spec 16 (length m1)) as [Hge|Hlt].
  - rewrite (absorb_step (length m1)), <- (IH (length (drop 16 m1))) by (try done; rewrite ?length_drop; lia).
    rewrite absorb_step by (rewrite ?length_app; lia). by rewrite take_app_le, drop_app_le by lia.
  - by rewrite (absorb_short (length m1)).
Qed.

(** ** update *)
(** The state after the message: what is in the accumulator, and what waits for a full block *)
Record absorbed (R : list Z) (S : list Z) (acc : Z) (waiting : list Z) (st : State) : Prop := {
  ab_ok : state_ok st;
  ab_key : r st = R /\ s st = S;
  ab_acc : acc_value (a st) == acc [mod P1305];
  ab_waiting : take (Z.to_nat (block_count st)) (blocks st) = waiting /\ Z.of_nat (length waiting) = block_count st /\ block_count st < 16 }.

Lemma update_round_spec R S acc waiting st chunk : absorbed R S acc waiting st -> Forall is_byte chunk -> (length waiting + length chunk <= 16)%nat ->
  absorbed R S (absorb (length (waiting ++ chunk)) (value 32 R) acc (waiting ++ chunk)).1 (absorb (length (waiting ++ chunk)) (value 32 R) acc (waiting ++ chunk)).2 (update_round st chunk).
Proof.
  intros [[Hacc Hk Hfin Hbl Hc Hby] [Er Es] Ha (Ew & Hwl & Hlt)] Hch Hn. unfold update_round. set (count := Z.to_nat (block_count st)) in *.
  set (filled := take count (blocks st) ++ chunk ++ drop (count + length chunk) (blocks st)).
  replace (wrap 8 (block_count st + Z.of_nat (length chunk))) with (block_count st + Z.of_nat (length chunk)) by (symmetry; apply Z.mod_small; lia).
  assert (Hcn : Z.to_nat (block_count st + Z.of_nat (length chunk)) = (count + length chunk)%nat) by lia.
  assert (Hfl : length filled = 17%nat) by (unfold filled; rewrite !length_app, length_take, length_drop; lia).
  assert (Htake : take (count + length chunk) filled = waiting ++ chunk) by (unfold filled; rewrite app_assoc, Ew, take_app_length'; [done|rewrite length_app; lia]).
  assert (Hbytes : Forall is_byte (waiting ++ chunk)) by (apply Forall_app; split; [by subst waiting|done]).
  assert (Hwn : length (waiting ++ chunk) = (count + length chunk)%nat) by (rewrite length_app; lia).
  set (st1 := mkState (r st) (s st) (a st) filled (block_count st + Z.of_nat (length chunk))).
  assert (Hok1 : state_ok st1) by (split; cbn; [done|done|done|done|lia|by rewrite Hcn, Htake]).
  change (block_count st1) with (block_count st + Z.of_nat (length chunk)). destruct (Z.eqb_spec (block_count st + Z.of_nat (length chunk)) 16) as [E16|Hne].
  - pose proof (process_block_spec st1 Hok1) as P. cbv zeta in P. generalize dependent (process_block st1). intros st2 (Pacc & Pval & Pr & Ps & Pbl & Pc). cbn [st1 r s a blocks block_count] in *.
    rewrite Hcn, Htake, Er in Pval. rewrite absorb_step by lia. rewrite drop_ge, take_ge by lia. cbn [length absorb fst snd].
    split; cbn; [|by rewrite Pr, Ps|by rewrite Pval, Ha, congr_mod|done]. split; cbn; [done|by rewrite Pr|by rewrite Ps|done|lia|constructor].
  - rewrite absorb_short by lia. split; cbn; [done|done|done|]. rewrite Hcn, Hwn. split; [done|lia].
Qed.

Lemma update_loop_spec R S message : Forall is_byte message -> forall fuel offset acc waiting st,
  (length message - offset < fuel)%nat -> (offset <= length message)%nat -> absorbed R S acc waiting st ->
  let rest := waiting ++ drop offset message in
  runs (update_loop fuel st message offset) (fun st' => absorbed R S (absorb (length rest) (value 32 R) acc rest).1 (absorb (length rest) (value 32 R) acc rest).2 st').
Proof.
  intros Hm. induction fuel as [|fuel IH]; intros offset acc waiting st Hf Ho Hab rest; [lia|]. cbn [update_loop]. pose proof Hab as [Hok _ _ (Ew & Hwl & Hlt)].
  destruct (Nat.ltb_spec offset (length message)) as [Hlo|Hge].
  2:{ apply runs_ret. subst rest. rewrite drop_ge, app_nil_r by lia. by rewrite absorb_short by lia. }
  cbv zeta. set (n := min (length message - offset) (16 - Z.to_nat (block_count st))). set (chunk := take n (drop offset message)).
  assert (Hcl : length chunk = n) by (unfold chunk; rewrite length_take, length_drop; lia).
  assert (Erest : rest = (waiting ++ chunk) ++ drop (offset + n) message) by (subst rest chunk; rewrite <- app_assoc, <- drop_drop, take_drop; done).
  pose proof (update_round_spec R S acc waiting st chunk Hab ltac:(by apply Forall_take, Forall_drop) ltac:(lia)) as Hr. rewrite Erest, absorb_app.
  destruct (absorb (length (waiting ++ chunk)) (value 32 R) acc (waiting ++ chunk)) as [acc' rest'] eqn:E. cbn [fst snd] in Hr.
  apply (IH (offset + n)%nat acc' rest'); [lia|lia|done].
Qed.

Lemma update_spec R S acc waiting st message : Forall is_byte message -> absorbed R S acc waiting st ->
  let '(acc', rest) := absorb (length (waiting ++ message)) (value 32 R) acc (waiting ++ message) in runs (update st message) (absorbed R S acc' rest).
Proof.
  intros Hm Hab. pose proof (update_loop_spec R S message Hm (Datatypes.S (length message)) 0 acc waiting st ltac:(lia) ltac:(lia) Hab) as H. rewrite drop_0 in H. cbv zeta in H.
  destruct (absorb _ _ _ _) as [acc' rest]. exact H.
Qed.

(** ** The constructor *)
Definition CLAMP : Z := 0x0ffffffc0ffffffc0ffffffc0fffffff.

Lemma land_cat x y m n : 0 <= x < B -> 0 <= m < B -> Z.land (x + B * y) (m + B * n) = Z.land x m + B * Z.land y n.
Proof.
  intros Hx Hm. assert (Hl : 0 <= Z.land x m < B).
  { split; [apply Z.land_nonneg; lia|]. rewrite <- (Z.mod_small x B), <- Z.land_ones, <- Z.land_assoc, (Z.land_comm (Z.ones 32)), Z.land_assoc, Z.land_ones by lia. apply Z.mod_pos_bound. lia. }
  rewrite !(Z.mul_comm B), <- !(lor_disjoint _ _ 32) by lia.
  rewrite <- !Z.shiftl_mul_pow2 by lia. apply Z.bits_inj'. intros i Hi. rewrite !Z.land_spec, !Z.lor_spec, !Z.land_spec, !Z.shiftl_spec, !Z.land_spec by lia. destruct (Z.ltb_spec i 32) as [H|H].
  - rewrite !(Z.testbit_neg_r _ (i - 32)) by lia. by rewrite !orb_false_r.
  - assert (Hz : forall z, 0 <= z < B -> Z.testbit z i = false) by (intros z Hz; rewrite <- (Z.mod_small z B) by lia; apply Z.mod_pow2_bits_high; lia). by rewrite !Hz by lia.
Qed.

Lemma land_small x m k : 0 <= m <= Z.ones k -> 0 <= k -> m = Z.land m (Z.ones k) -> in_width k (Z.land x m).
Proof. intros Hm Hk ->. rewrite Z.land_assoc, Z.land_ones by lia. apply Z.mod_pos_bound. lia. Qed.

Lemma load_words_spec bytes offset : (offset + 16 <= length bytes)%nat -> Forall is_byte bytes ->
  exists w0 w1 w2 w3, load_words bytes offset = Ok [w0; w1; w2; w3] /\ words_ok 32 [w0; w1; w2; w3] /\ value 32 [w0; w1; w2; w3] = value 8 (take 16 (drop offset bytes)).
Proof.
  intros Hl Hb. unfold load_words, load32. rewrite !(proj2 (Nat.leb_le _ _)) by lia. do 4 eexists. split; [reflexivity|]. split.
  - repeat constructor; apply value_8_4; try (apply Forall_take, Forall_drop; done); rewrite length_take; lia.
  - rewrite <- !drop_drop. set (l := drop offset bytes). assert (Hn : (16 <= length l)%nat) by (unfold l; rewrite length_drop; lia). clearbody l.
    do 16 (destruct l as [|? l]; [cbn in Hn; lia|]). cbn [drop take value]. lia.
Qed.

Lemma new_spec key : length key = 32%nat -> Forall is_byte key ->
  exists R S, runs (Poly1305_new key) (absorbed R S 0 []) /\ value 32 R = Z.land (value 8 (take 16 key)) CLAMP /\ value 32 S = value 8 (drop 16 key).
Proof.
  intros Hl Hb. destruct (load_words_spec key 0 ltac:(lia) Hb) as (r0 & r1 & r2 & r3 & Er & Wr & Vr). destruct (load_words_spec key 16 ltac:(lia) Hb) as (s0 & s1 & s2 & s3 & Es & Ws & Vs).
  unfold Poly1305_new. rewrite Er, Es. exists [Z.land r0 0x0FFFFFFF; Z.land r1 0x0FFFFFFC; Z.land r2 0x0FFFFFFC; Z.land r3 0x0FFFFFFC], [s0; s1; s2; s3]. split_and!.
  - apply runs_ret. split; cbn [r s a blocks block_count]; [|done|done|done]. split; cbn [r s a blocks block_count]; [| |done|done|lia|constructor].
    + exists 0, 0, 0, 0, 0. split_and!; [done| |lia|lia|done]. repeat constructor; lia.
    + split; [done|]. cbn [zip_with]. rewrite !Forall_cons. split_and!; try apply land_small; done.
  - rewrite drop_0 in Vr. rewrite <- Vr. cbn [value]. repeat (apply Forall_cons in Wr as [? Wr]). change CLAMP with (0x0FFFFFFF + B * (0x0FFFFFFC + B * (0x0FFFFFFC + B * (0x0FFFFFFC + B * 0)))).
    rewrite !land_cat by (done || lia). by rewrite Z.land_0_l.
  - rewrite Vs, take_ge; [done|]. rewrite length_drop. lia.
Qed.

(** ** digest *)
Lemma word_bytes_spec x : 0 <= x < B -> value 8 (word_bytes x) = x /\ Forall is_byte (word_bytes x).
Proof.
  intros Hx. unfold word_bytes. rewrite !Z.shiftr_div_pow2 by lia. split.
  - change (2 ^ 24) with (256 * 256 * 256). change (2 ^ 16) with (256 * 256). change (2 ^ 8) with 256. rewrite <- !Z.div_div by lia. cbn [value]. change (2 ^ 8) with 256.
    pose proof (Z.div_mod x 256 ltac:(lia)). set (x1 := x / 256) in *. pose proof (Z.div_mod x1 256 ltac:(lia)). set (x2 := x1 / 256) in *. pose proof (Z.div_mod x2 256 ltac:(lia)). set (x3 := x2 / 256) in *.
    clearbody x1 x2 x3. pose proof (Z.mod_pos_bound x 256). pose proof (Z.mod_pos_bound x1 256). pose proof (Z.mod_pos_bound x2 256). rewrite (Z.mod_small x3) by lia. lia.
  - repeat constructor; apply Z.mod_pos_bound; lia.
Qed.

Lemma four_words_bytes x0 x1 x2 x3 : words_ok 32 [x0; x1; x2; x3] ->
  let l := word_bytes x0 ++ word_bytes x1 ++ word_bytes x2 ++ word_bytes x3 in length l = 16%nat /\ Forall is_byte l /\ value 8 l = value 32 [x0; x1; x2; x3].
Proof.
  intros H l. repeat (apply Forall_cons in H as [? H]). split; [done|]. split; [subst l; rewrite !Forall_app; split_and!; by apply word_bytes_spec|].
  subst l. rewrite !(value_app 8 ltac:(lia)). assert (E : forall x, in_width 32 x -> value 8 (word_bytes x) = x) by (intros; by apply word_bytes_spec). rewrite !E by done. cbn [length word_bytes value]. change (weight 8 4) with B. lia.
Qed.

Lemma carry_4 l : length l = 4%nat -> Forall (fun x => 0 <= x <= 2 ^ 64 - 2 ^ 32) l ->
  exists x0 x1 x2 x3, carry l = [x0; x1; x2; x3] /\ value 32 [low x0; low x1; low x2; low x3] = value 32 l mod 2 ^ 128.
Proof.
  intros Hl Hw. destruct (carry_5 (l ++ [0])) as (x0 & x1 & x2 & x3 & E & V); [by rewrite length_app, Hl|apply Forall_app; split; [done|repeat constructor; lia]|].
  do 4 (destruct l as [|? l]; [done|]). destruct l; [|done]. cbn [app] in *. cbv [carry carry_from] in *. do 4 eexists. split; [reflexivity|].
  injection E as <- <- <- <- _. cbn [value] in V |- *. etransitivity; [|etransitivity; [exact V|]]; [ring|f_equal; ring].
Qed.

Lemma mask_spec t : 0 <= t <= 4 -> let mask := wrap 32 (Z.shiftr (Z.land t 4) 2 - 1) in
  (4 <= t -> mask = 0 /\ wrap 32 (Z.lnot mask) = 0xFFFFFFFF) /\ (t < 4 -> mask = 0xFFFFFFFF /\ wrap 32 (Z.lnot mask) = 0).
Proof. intros Ht. assert (t = 0 \/ t = 1 \/ t = 2 \/ t = 3 \/ t = 4) as [-> | [-> | [-> | [-> | ->]]]] by lia; vm_compute; by split. Qed.

(** The accumulator is reduced modulo 2^130 - 5 without a branch. *)
Lemma selected_spec words : acc_ok words -> length (selected words) = 4%nat /\ words_ok 32 (selected words) /\ value 32 (selected words) = (acc_value words mod P1305) mod 2 ^ 128.
Proof.
  intros (x0 & x1 & x2 & x3 & x4 & E5 & Hw & Hx4 & Hlen). unfold acc_value. assert (E4 : take 4 words = [x0; x1; x2; x3]) by (change 4%nat with (4 `min` 5)%nat; by rewrite <- take_take, E5).
repeat (apply Forall_cons in Hw as [? Hw]). unfold in_width in *.
  destruct (carry_5 [x0 + 5; x1; x2; x3; x4]) as (y0 & y1 & y2 & y3 & E & V); [done|repeat constructor; lia|].
  assert (Ep : plus_five words = [y0; y1; y2; y3; value 32 [x0 + 5; x1; x2; x3; x4] / 2 ^ 128]) by (unfold plus_five, wrap; rewrite E5; cbn [zip_with]; no_wrap; rewrite !Z.add_0_r; exact E).
  unfold selected. rewrite Ep, E4, E5. cbn [nth take map zip_with].
  set (A := value 32 [x0; x1; x2; x3; x4]). assert (EA : value 32 [x0 + 5; x1; x2; x3; x4] = A + 5) by (unfold A; cbn [value]; lia). rewrite EA in *.
  assert (HA : 0 <= A < 2 ^ 130) by (unfold A; cbn [value]; lia). assert (Ht : 0 <= (A + 5) / 2 ^ 128 <= 4) by (split; [apply Z.div_pos; lia|apply Z.lt_succ_r, Z.div_lt_upper_bound; lia]).
  destruct (mask_spec _ Ht) as [M1 M2]. split; [done|]. destruct (Z.le_gt_cases 4 ((A + 5) / 2 ^ 128)) as [H4|H4].
  - destruct (M1 H4) as [-> ->]. change (Z.land ?x 0xFFFFFFFF) with (low x). rewrite !Z.land_0_r, !Z.lor_0_r. split; [repeat constructor; apply low_range|].
    assert (2 ^ 130 <= A + 5) by (pose proof (Z.div_mod (A + 5) (2 ^ 128) ltac:(lia)); pose proof (Z.mod_pos_bound (A + 5) (2 ^ 128) ltac:(lia)); lia).
    replace (A mod P1305) with (A + 5 - 2 ^ 130) by (unfold P1305; apply Z.mod_unique_pos with 1; lia). replace (A + 5 - 2 ^ 130) with (A + 5 + (- 4) * 2 ^ 128) by lia. rewrite Z.mod_add by lia. cbn [value]. lia.
  - destruct (M2 H4) as [-> ->]. rewrite !Z.land_0_r, !Z.lor_0_l. change (Z.land ?x 0xFFFFFFFF) with (low x). rewrite !low_mod, !Z.mod_mod by lia. rewrite !Z.mod_small by lia. split; [repeat constructor; lia|].
    assert (A + 5 < 2 ^ 130) by (pose proof (Z.div_mod (A + 5) (2 ^ 128) ltac:(lia)); pose proof (Z.mod_pos_bound (A + 5) (2 ^ 128) ltac:(lia)); lia).
    rewrite (Z.mod_small A) by (unfold P1305; lia). replace A with (value 32 [x0; x1; x2; x3] + x4 * 2 ^ 128) by (unfold A; cbn [value]; lia). rewrite Z.mod_add by lia. symmetry. apply Z.mod_small. cbn [value]. lia.
Qed.

Lemma tag_spec words key : acc_ok words -> length key = 4%nat -> words_ok 32 key ->
  exists x0 x1 x2 x3, carry (zip_with (fun x y => wrap 64 (x + y)) (selected words) key) = [x0; x1; x2; x3]
    /\ value 32 [low x0; low x1; low x2; low x3] = (acc_value words mod P1305 + value 32 key) mod 2 ^ 128.
Proof.
  intros Hw Hk Wk. destruct (selected_spec words Hw) as (Hl & Hs & Hv). generalize dependent (selected words).
  intros sel Hl Hs Hv. do 4 (destruct sel as [|? sel]; [done|]). destruct sel; [|done]. do 4 (destruct key as [|? key]; [done|]). destruct key; [|done].
  repeat (apply Forall_cons in Hs as [? Hs]). repeat (apply Forall_cons in Wk as [? Wk]). unfold in_width in *. cbn [zip_with]. unfold wrap. no_wrap.
  destruct (carry_4 [z + z3; z0 + z4; z1 + z5; z2 + z6]) as (x0 & x1 & x2 & x3 & E & V); [done|repeat constructor; lia|]. exists x0, x1, x2, x3. split; [done|]. rewrite V.
  rewrite <- (Z.add_mod_idemp_l (_ mod P1305)), <- Hv by lia. f_equal. cbn [value]. lia.
Qed.

Lemma updates_spec R S parts : Forall (Forall is_byte) parts -> forall acc waiting st, absorbed R S acc waiting st ->
  let rest := waiting ++ concat parts in
  runs (updates st parts) (absorbed R S (absorb (length rest) (value 32 R) acc rest).1 (absorb (length rest) (value 32 R) acc rest).2).
Proof.
  induction 1 as [|part parts Hp _ IH]; intros acc waiting st Hab rest; subst rest.
  - cbn [updates concat]. rewrite app_nil_r. apply runs_ret. pose proof Hab as [_ _ _ (_ & Hl & Hlt)]. by rewrite absorb_short by lia.
  - cbn [updates concat]. rewrite app_assoc, absorb_app. pose proof (update_spec R S acc waiting st part Hp Hab) as Hu. destruct (absorb (length (waiting ++ part)) _ _ _) as [acc' rest'].
    eapply runs_bind; [exact Hu|]. intros st' Hst'. by apply IH.
Qed.

Lemma digest_spec R S acc waiting st : absorbed R S acc waiting st -> 0 <= acc < P1305 ->
  length (digest st) = 16%nat /\ Forall is_byte (digest st)
  /\ value 8 (digest st) = (match waiting with [] => acc | _ => (acc + block_number waiting) * value 32 R mod P1305 end + value 32 S) mod 2 ^ 128.
Proof.
  intros [Hok [Er Es] Ha (Ew & Hl & Hlt)] Hacc. unfold digest. set (st' := if negb (block_count st =? 0) then process_block st else st).
  assert (H : acc_ok (a st') /\ s st' = S /\ acc_value (a st') mod P1305 = match waiting with [] => acc | _ => (acc + block_number waiting) * value 32 R mod P1305 end).
  { subst st'. destruct (Z.eqb_spec (block_count st) 0) as [E0|E0]; cbn [negb].
    - destruct waiting; [|cbn in Hl; lia]. split_and!; [apply Hok|done|]. rewrite Ha. by apply Z.mod_small.
    - pose proof (process_block_spec st Hok) as P. cbv zeta in P. generalize dependent (process_block st). intros st2 (Pacc & Pval & Pr & Ps & _ & _). rewrite Ew, Er in Pval.
      split_and!; [done|by rewrite Ps|]. destruct waiting as [|w waiting]; [cbn in Hl; lia|]. enough (C : acc_value (a st2) == (acc + block_number (w :: waiting)) * value 32 R [mod P1305]) by exact C. by rewrite Pval, Ha. }
  clearbody st'. destruct H as (Hacc' & Es' & Hv). destruct Hok as [_ _ [Hsl Hsw] _ _ _]. rewrite Es in Hsl, Hsw. rewrite Es'.
  destruct (tag_spec (a st') S Hacc' Hsl Hsw) as (x0 & x1 & x2 & x3 & E & V). rewrite E. cbn [nth]. rewrite <- Hv, <- V. apply four_words_bytes.
  repeat (apply Forall_cons; split; [apply low_range|]). constructor.
Qed.

Lemma absorb_range f R acc m : 0 <= acc < P1305 -> 0 <= (absorb f R acc m).1 < P1305.
Proof.
  revert acc m. induction f as [|f IH]; intros acc m H; [done|]. cbn [absorb]. destruct (16 <=? length m)%nat; [|done]. apply IH. apply Z.mod_pos_bound. done.
Qed.

(** The number of the tag *)
Definition mac_number (key message : list Z) : Z := (polynomial (Z.land (value 8 (take 16 key)) CLAMP) message + value 8 (drop 16 key)) mod 2 ^ 128.

Lemma authenticate_runs key parts : length key = 32%nat -> Forall is_byte key -> Forall (Forall is_byte) parts ->
  runs (authenticate key parts) (fun tag => length tag = 16%nat /\ Forall is_byte tag /\ value 8 tag = mac_number key (concat parts)).
Proof.
  intros Hl Hb Hp. destruct (new_spec key Hl Hb) as (R & S & Hnew & ER & ES). unfold mac_number, polynomial. rewrite <- ER, <- ES. set (m := concat parts).
  eapply runs_bind; [exact Hnew|]. intros st Hst. eapply runs_bind; [apply (updates_spec R S parts Hp _ _ _ Hst)|]. intros st' Hst'. apply runs_ret. cbn [app] in Hst'. fold m in Hst'.
  pose proof (absorb_range (length m) (value 32 R) 0 m ltac:(done)) as Hr. destruct (absorb (length m) (value 32 R) 0 m) as [acc rest]. cbn [fst snd] in *. by apply (digest_spec R S).
Qed.

(** C6: Poly1305 is the authenticator of RFC 8439, however the message is cut into updates: the tag is always
    produced, has sixteen bytes, and as a little-endian number it is the polynomial of the message's sixteen-byte
    blocks (each with a one bit on top, the last one possibly short) at the clamped first half of the key, modulo
    2^130 - 5, plus the second half of the key, modulo 2^128. *)
Theorem poly1305_exact (key : list Z) (parts : list (list Z)) : length key = 32%nat -> Forall is_byte key -> Forall (Forall is_byte) parts ->
  exists tag, authenticate key parts = Ok tag /\ length tag = 16%nat /\ Forall is_byte tag
    /\ value 8 tag = (polynomial (Z.land (value 8 (take 16 key)) CLAMP) (concat parts) + value 8 (drop 16 key)) mod 2 ^ 128.
Proof. apply authenticate_runs. Qed.

(** The key, the message and the tag of RFC 8439, 2.5.2 *)
Definition example_key : list Z :=
  [0x85; 0xd6; 0xbe; 0x78; 0x57; 0x55; 0x6d; 0x33; 0x7f; 0x44; 0x52; 0xfe; 0x42; 0xd5; 0x06; 0xa8;
   0x01; 0x03; 0x80; 0x8a; 0xfb; 0x0d; 0xb2; 0xfd; 0x4a; 0xbf; 0xf6; 0xaf; 0x41; 0x49; 0xf5; 0x1b].
Definition example_message : list Z :=
  [0x43; 0x72; 0x79; 0x70; 0x74; 0x6f; 0x67; 0x72; 0x61; 0x70; 0x68; 0x69; 0x63; 0x20; 0x46; 0x6f;
   0x72; 0x75; 0x6d; 0x20; 0x52; 0x65; 0x73; 0x65; 0x61; 0x72; 0x63; 0x68; 0x20; 0x47; 0x72; 0x6f; 0x75; 0x70].

Lemma poly1305_exact_witness :
  (exists tag, authenticate example_key [take 5 example_message; drop 5 example_message] = Ok tag /\ length tag = 16%nat /\ Forall is_byte tag
    /\ value 8 tag = (polynomial (Z.land (value 8 (take 16 example_key)) CLAMP) (concat [take 5 example_message; drop 5 example_message]) + value 8 (drop 16 example_key)) mod 2 ^ 128)
  /\ authenticate example_key [example_message] = Ok [0xa8; 0x06; 0x1d; 0xc1; 0x30; 0x51; 0x36; 0xc6; 0xc2; 0x2b; 0x8b; 0xaf; 0x0c; 0x01; 0x27; 0xa9].
Proof.
  split; [|vm_compute; reflexivity]. apply poly1305_exact; [reflexivity|apply (bool_decide_unpack _); vm_compute; exact I|apply (bool_decide_unpack _); vm_compute; exact I].
Defined.
