(* ===== verification/ChaCha20.v ===== *)
(** * ChaCha20: Userland/Libraries/LibCrypto/Cipher/ChaCha20.cpp and ChaCha20.h

    The stream cipher: the state made from the key, the nonce and the counter, the block function
    that works on its sixteen words in place, and the loop that xors the input with one block after
    the other and counts the blocks in words 12 and 13.  The theorem says what every byte of the
    output is, for inputs of every length, with the block function written over the rows of the
    state matrix; running the cipher twice gives the input back.  Bytes and words are laid out as on
    the little-endian machines the system runs on. *)
From S2P Require Import Prelude MemMem BigIntBase Poly1305.

Local Open Scope Z_scope.

Record ChaCha20 := mkChaCha20 { m_state : list Z; m_block : list Z }.

Definition CONSTANT_16_BYTES : list Z := [0x61707865; 0x3120646E; 0x79622D36; 0x6B206574].
Definition CONSTANT_32_BYTES : list Z := [0x61707865; 0x3320646E; 0x79622D32; 0x6B206574].

(** [Span::offset] checks the offset, [ByteReader::load32] reads four bytes there. *)
Definition ChaCha20_new (key nonce : list Z) (initial_counter : Z) : outcome ChaCha20 :=
  if negb ((length key =? 16)%nat || (length key =? 32)%nat) then Panic
  else if negb ((length nonce =? 8)%nat || (length nonce =? 12)%nat) then Panic
  else
    let constants := if (length key =? 32)%nat then CONSTANT_32_BYTES else CONSTANT_16_BYTES in
    first ← load_words key 0;
    let key_offset := if (length key =? 32)%nat then 16%nat else 0%nat in
    second ← load_words key key_offset;
    let state := constants ++ first ++ second ++ [initial_counter; 0; 0; 0] in
    let nonce_offset := if (length nonce =? 8)%nat then 1 else 0 in
    w0 ← load32 nonce 0;
    state ← set_at_index state (13 + nonce_offset) w0;
    w1 ← load32 nonce 4;
    state ← set_at_index state (14 + nonce_offset) w1;
    w2 ← load32 nonce 8;
    state ← set_at_index state (15 + nonce_offset) w2;
    kret (mkChaCha20 state (replicate 16 0)).

(** ** The block function *)
Definition rotl (x n : Z) : Z := Z.lor (wrap 32 (Z.shiftl x n)) (Z.shiftr x (32 - n)).

Definition quarter_round (a b c d : Z) : Z * Z * Z * Z :=
  let a := wrap 32 (a + b) in
  let d := Z.lxor d a in
  let d := rotl d 16 in
  let c := wrap 32 (c + d) in
  let b := Z.lxor b c in
  let b := rotl b 12 in
  let a := wrap 32 (a + b) in
  let d := Z.lxor d a in
  let d := rotl d 8 in
  let c := wrap 32 (c + d) in
  let b := Z.lxor b c in
  let b := rotl b 7 in
  (a, b, c, d).

(** The four words are references into the block. *)
Definition do_quarter_round (ia ib ic id : nat) (block : list Z) : list Z :=
  let '(a, b, c, d) := quarter_round (nth ia block 0) (nth ib block 0) (nth ic block 0) (nth id block 0) in
  <[id := d]> (<[ic := c]> (<[ib := b]> (<[ia := a]> block))).

Definition double_round (block : list Z) : list Z :=
  let block := do_quarter_round 0 4 8 12 block in
  let block := do_quarter_round 1 5 9 13 block in
  let block := do_quarter_round 2 6 10 14 block in
  let block := do_quarter_round 3 7 11 15 block in
  let block := do_quarter_round 0 5 10 15 block in
  let block := do_quarter_round 1 6 11 12 block in
  let block := do_quarter_round 2 7 8 13 block in
  do_quarter_round 3 4 9 14 block.

Definition generate_block (c : ChaCha20) : ChaCha20 :=
  let block := Nat.iter 10 double_round (m_state c) in
  mkChaCha20 (m_state c) (zip_with (fun x y => wrap 32 (x + y)) block (m_state c)).

(** [block()]: the words as bytes *)
Definition block_bytes (c : ChaCha20) : list Z := concat (map word_bytes (m_block c)).

(** ** run_cipher *)
(** [m_state[12]++], and the carry into word 13 *)
Definition next_counter (c : ChaCha20) : ChaCha20 :=
  let w := wrap 32 (nth 12 (m_state c) 0 + 1) in
  let state := <[12%nat := w]> (m_state c) in
  mkChaCha20 (if w =? 0 then <[13%nat := wrap 32 (nth 13 state 0 + 1)]> state else state) (m_block c).

(** The [while]; every round takes at least one byte. *)
Fixpoint run_loop (fuel : nat) (c : ChaCha20) (input output : list Z) (offset block_offset : nat) : outcome (ChaCha20 * list Z) :=
  match fuel with
  | O => Panic
  | S fuel =>
      if (offset <? length input)%nat then
        let fresh := ((block_offset =? 0) || (64 <=? block_offset))%nat in
        let c := if fresh then next_counter (generate_block c) else c in
        let block_offset := if fresh then 0%nat else block_offset in
        let n := min (length input - offset) (64 - block_offset) in
        let key_block := drop block_offset (block_bytes c) in
        let output := take offset output ++ zip_with Z.lxor (take n (drop offset input)) (take n key_block) ++ drop (offset + n) output in
        run_loop fuel c input output (offset + n) (block_offset + n)
      else kret (c, output)
  end.
Definition run_cipher (c : ChaCha20) (input output : list Z) : outcome (ChaCha20 * list Z) := run_loop (S (length input)) c input output 0 0.

Definition encrypt (c : ChaCha20) (input output : list Z) : outcome (ChaCha20 * list Z) :=
  if (length input <=? length output)%nat then run_cipher c input output else Panic.
Definition decrypt (c : ChaCha20) (input output : list Z) : outcome (ChaCha20 * list Z) :=
  if (length input <=? length output)%nat then run_cipher c input output else Panic.

(** ** The block function over rows *)
(** Rotation of a 32-bit word, as arithmetic *)
Definition rotated (x n : Z) : Z := (x * 2 ^ n) mod 2 ^ 32 + x / 2 ^ (32 - n).

Definition quarter (a b c d : Z) : Z * Z * Z * Z :=
  let a := (a + b) mod 2 ^ 32 in let d := rotated (Z.lxor d a) 16 in
  let c := (c + d) mod 2 ^ 32 in let b := rotated (Z.lxor b c) 12 in
  let a := (a + b) mod 2 ^ 32 in let d := rotated (Z.lxor d a) 8 in
  let c := (c + d) mod 2 ^ 32 in let b := rotated (Z.lxor b c) 7 in (a, b, c, d).

(** The quarter rounds of all columns of four rows *)
Fixpoint columns (a b c d : list Z) : list Z * list Z * list Z * list Z :=
  match a, b, c, d with
  | x :: a, y :: b, z :: c, t :: d =>
      let '(x, y, z, t) := quarter x y z t in
      let '(a, b, c, d) := columns a b c d in (x :: a, y :: b, z :: c, t :: d)
  | _, _, _, _ => ([], [], [], [])
  end.

Definition turn (n : nat) (row : list Z) : list Z := drop n row ++ take n row.

(** A column round and a diagonal round: the rows are turned until the diagonals are columns, and back. *)
Definition matrix_round (rows : list Z) : list Z :=
  let '(a, b, c, d) := columns (take 4 rows) (take 4 (drop 4 rows)) (take 4 (drop 8 rows)) (drop 12 rows) in
  let '(a, b, c, d) := columns a (turn 1 b) (turn 2 c) (turn 3 d) in
  a ++ turn 3 b ++ turn 2 c ++ turn 1 d.

(** The words of a block *)
Definition chacha_block (state : list Z) : list Z := zip_with (fun x y => (x + y) mod 2 ^ 32) (Nat.iter 10 matrix_round state) state.

Lemma rotl_rotated x n : in_width 32 x -> 0 < n < 32 -> rotl x n = rotated x n /\ in_width 32 (rotl x n).
Proof.
  intros Hx Hn. unfold rotl, rotated. rewrite Z.shiftr_div_pow2 by lia.
  assert (Hlow : 0 <= x / 2 ^ (32 - n) < 2 ^ n) by (split; [apply Z.div_pos; [apply Hx|lia]|apply Z.div_lt_upper_bound; [lia|rewrite <- Z.pow_add_r by lia; replace (32 - n + n) with 32 by lia; apply Hx]]).
  assert (Hw : wrap 32 (Z.shiftl x n) = x mod 2 ^ (32 - n) * 2 ^ n) by (apply (wrap_shiftl 32 ltac:(lia) x n); lia).
  assert (Hm : (x * 2 ^ n) mod 2 ^ 32 = x mod 2 ^ (32 - n) * 2 ^ n) by (rewrite <- Hw; unfold wrap; by rewrite Z.shiftl_mul_pow2 by lia).
  rewrite Hw, Hm, Z.lor_comm, lor_disjoint by lia. split; [lia|]. unfold in_width.
  pose proof (Z.mod_pos_bound x (2 ^ (32 - n)) ltac:(lia)) as Hb. set (u := x mod 2 ^ (32 - n)) in *. clearbody u. split; [nia|].
  assert (u * 2 ^ n <= (2 ^ (32 - n) - 1) * 2 ^ n) by (apply Z.mul_le_mono_nonneg_r; lia). replace ((2 ^ (32 - n) - 1) * 2 ^ n) with (2 ^ 32 - 2 ^ n) in H; [lia|].
  rewrite Z.mul_sub_distr_r, <- Z.pow_add_r by lia. replace (32 - n + n) with 32 by lia. lia.
Qed.

Lemma wrap_width x : in_width 32 (wrap 32 x).
Proof. apply Z.mod_pos_bound. lia. Qed.

Lemma quarter_round_exact a b c d : in_width 32 a -> in_width 32 b -> in_width 32 c -> in_width 32 d ->
  quarter_round a b c d = quarter a b c d
  /\ let '(a', b', c', d') := quarter a b c d in in_width 32 a' /\ in_width 32 b' /\ in_width 32 c' /\ in_width 32 d'.
Proof.
  intros Ha Hb Hc Hd. unfold quarter_round, quarter. fold (wrap 32 (a + b)). pose proof (wrap_width (a + b)) as Ha1. set (a1 := wrap 32 (a + b)) in *.
  destruct (rotl_rotated (Z.lxor d a1) 16 ltac:(by apply (lxor_width 32)) ltac:(lia)) as [E1 Hd1]. rewrite <- E1. set (d1 := rotl (Z.lxor d a1) 16) in *.
  fold (wrap 32 (c + d1)). pose proof (wrap_width (c + d1)) as Hc1. set (c1 := wrap 32 (c + d1)) in *.
  destruct (rotl_rotated (Z.lxor b c1) 12 ltac:(by apply (lxor_width 32)) ltac:(lia)) as [E2 Hb1]. rewrite <- E2. set (b1 := rotl (Z.lxor b c1) 12) in *.
  fold (wrap 32 (a1 + b1)). pose proof (wrap_width (a1 + b1)) as Ha2. set (a2 := wrap 32 (a1 + b1)) in *.
  destruct (rotl_rotated (Z.lxor d1 a2) 8 ltac:(by apply (lxor_width 32)) ltac:(lia)) as [E3 Hd2]. rewrite <- E3. set (d2 := rotl (Z.lxor d1 a2) 8) in *.
  fold (wrap 32 (c1 + d2)). pose proof (wrap_width (c1 + d2)) as Hc2. set (c2 := wrap 32 (c1 + d2)) in *.
  destruct (rotl_rotated (Z.lxor b1 c2) 7 ltac:(by apply (lxor_width 32)) ltac:(lia)) as [E4 Hb2]. rewrite <- E4. done.
Qed.

Lemma list_16 {A} (l : list A) : length l = 16%nat -> exists x0 x1 x2 x3 x4 x5 x6 x7 x8 x9 x10 x11 x12 x13 x14 x15, l = [x0; x1; x2; x3; x4; x5; x6; x7; x8; x9; x10; x11; x12; x13; x14; x15].
Proof. intros H. do 16 (destruct l as [|? l]; [done|]). destruct l; [|done]. by do 16 eexists. Qed.

(** The next quarter round of a list of known words *)
Ltac one_quarter :=
  match goal with |- context [do_quarter_round ?ia ?ib ?ic ?id (?x :: ?l)] =>
    let t := eval cbv [do_quarter_round nth insert list_insert] in (do_quarter_round ia ib ic id (x :: l)) in
    change (do_quarter_round ia ib ic id (x :: l)) with t
  end;
  match goal with |- context [quarter_round ?a ?b ?c ?d] =>
    let E := fresh in let W := fresh in
    destruct (quarter_round_exact a b c d ltac:(done) ltac:(done) ltac:(done) ltac:(done)) as [E W]; rewrite E; clear E;
    destruct (quarter a b c d) as [[[? ?] ?] ?]; destruct W as (? & ? & ? & ?)
  end.

Lemma double_round_matrix block : length block = 16%nat -> words_ok 32 block -> double_round block = matrix_round block /\ length (double_round block) = 16%nat /\ words_ok 32 (double_round block).
Proof.
  intros Hl Hw. destruct (list_16 block Hl) as (x0 & x1 & x2 & x3 & x4 & x5 & x6 & x7 & x8 & x9 & x10 & x11 & x12 & x13 & x14 & x15 & ->).
  repeat (apply Forall_cons in Hw as [? Hw]). unfold double_round, matrix_round. cbn [take drop columns].
  do 4 one_quarter. cbn [turn drop take app columns]. do 4 one_quarter. cbn [turn drop take app]. split; [done|]. split; [done|]. repeat (apply Forall_cons; split; [done|]). constructor.
Qed.

Lemma generate_block_exact c : length (m_state c) = 16%nat -> words_ok 32 (m_state c) ->
  m_state (generate_block c) = m_state c /\ m_block (generate_block c) = chacha_block (m_state c) /\ length (m_block (generate_block c)) = 16%nat.
Proof.
  intros Hl Hw. unfold generate_block, chacha_block. cbn [m_state m_block].
  assert (H : forall n, Nat.iter n double_round (m_state c) = Nat.iter n matrix_round (m_state c) /\ length (Nat.iter n double_round (m_state c)) = 16%nat /\ words_ok 32 (Nat.iter n double_round (m_state c))).
  { induction n as [|n (IHe & IHl & IHw)]; [done|]. change (Nat.iter (S n) ?f ?x) with (f (Nat.iter n f x)). destruct (double_round_matrix _ IHl IHw) as (E & L & W).
    split; [|done]. rewrite E. rewrite IHe. done. }
  destruct (H 10%nat) as (E & L & W). split; [done|]. split; [by rewrite E|]. rewrite length_zip_with, L, Hl. done.
Qed.

(** ** The key stream *)
(** The state with the block counter, words 12 and 13, moved on *)
Definition advance (k : Z) (state : list Z) : list Z :=
  let counter := (nth 12 state 0 + 2 ^ 32 * nth 13 state 0 + k) mod 2 ^ 64 in
  <[12%nat := counter mod 2 ^ 32]> (<[13%nat := counter / 2 ^ 32]> state).

(** The byte that is xored to byte [i] of the input *)
Definition keystream (state : list Z) (i : nat) : Z :=
  nth (i mod 64) (concat (map word_bytes (chacha_block (advance (Z.of_nat (i / 64)) state)))) 0.

Lemma split_64 x : 0 <= x < 2 ^ 64 -> 0 <= x / 2 ^ 32 < 2 ^ 32.
Proof. intros H. split; [apply Z.div_pos; lia|apply Z.div_lt_upper_bound; lia]. Qed.

Lemma advance_0 state : length state = 16%nat -> words_ok 32 state -> advance 0 state = state.
Proof.
  intros Hl Hw. destruct (list_16 state Hl) as (x0 & x1 & x2 & x3 & x4 & x5 & x6 & x7 & x8 & x9 & x10 & x11 & x12 & x13 & x14 & x15 & ->).
  repeat (apply Forall_cons in Hw as [? Hw]). unfold in_width in *. cbv [advance nth insert list_insert]. rewrite Z.add_0_r, (Z.mod_small _ (2 ^ 64)) by lia.
  rewrite (Z.mul_comm (2 ^ 32)), Z.mod_add, Z.div_add, Z.div_small, Z.mod_small by lia. done.
Qed.

Lemma advance_ok k state : length state = 16%nat -> words_ok 32 state -> length (advance k state) = 16%nat /\ words_ok 32 (advance k state).
Proof.
  intros Hl Hw. unfold advance. rewrite !length_insert. split; [done|]. apply words_ok_insert; [apply words_ok_insert; [done|]|].
  - apply split_64. apply Z.mod_pos_bound. lia.
  - apply Z.mod_pos_bound. lia.
Qed.

Lemma next_counter_exact k c state : length state = 16%nat -> words_ok 32 state -> m_state c = advance k state -> m_state (next_counter c) = advance (k + 1) state.
Proof.
  intros Hl Hw E. unfold next_counter. cbn [m_state]. rewrite E. destruct (list_16 state Hl) as (x0 & x1 & x2 & x3 & x4 & x5 & x6 & x7 & x8 & x9 & x10 & x11 & x12 & x13 & x14 & x15 & ->).
  clear E Hl Hw. cbv [advance nth insert list_insert]. set (N := x12 + 2 ^ 32 * x13). rewrite Z.add_assoc. rewrite <- (Z.add_mod_idemp_l (N + k) 1) by lia.
  pose proof (Z.mod_pos_bound (N + k) (2 ^ 64) ltac:(lia)) as Hm. set (m := (N + k) mod 2 ^ 64) in *. clearbody m. unfold wrap.
  pose proof (Z.div_mod m (2 ^ 32) ltac:(lia)) as D. pose proof (Z.mod_pos_bound m (2 ^ 32) ltac:(lia)) as Hr. pose proof (split_64 m Hm) as Hq. set (q := m / 2 ^ 32) in *. set (r := m mod 2 ^ 32) in *. clearbody q r.
  destruct (Z.eqb_spec ((r + 1) mod 2 ^ 32) 0) as [E0|E0].
  - assert (r = 2 ^ 32 - 1) as -> by (destruct (Z.eq_dec r (2 ^ 32 - 1)); [done|]; rewrite Z.mod_small in E0 by lia; lia).
    assert (Em : (m + 1) mod 2 ^ 64 = (q + 1) mod 2 ^ 32 * 2 ^ 32).
    { subst m. replace (2 ^ 32 * q + (2 ^ 32 - 1) + 1) with ((q + 1) * 2 ^ 32) by lia. change (2 ^ 64) with (2 ^ 32 * 2 ^ 32). rewrite Z.mul_mod_distr_r by lia. done. }
    rewrite Em, Z.mod_mul, Z.div_mul by lia. done.
  - assert (r < 2 ^ 32 - 1) by (destruct (Z.eq_dec r (2 ^ 32 - 1)) as [->|]; [done|lia]). rewrite (Z.mod_small (m + 1)) by lia. replace (m + 1) with (r + 1 + q * 2 ^ 32) by lia.
    rewrite Z.mod_add, Z.div_add, (Z.div_small (r + 1)), Z.mod_small by lia. done.
Qed.

Lemma next_counter_block c : m_block (next_counter c) = m_block c.
Proof. done. Qed.

Lemma block_bytes_length l : length (concat (map word_bytes l)) = (4 * length l)%nat.
Proof. induction l as [|x l IH]; [done|]. cbn [map concat]. rewrite length_app, IH. cbn. lia. Qed.

Lemma block_bytes_bytes l : Forall is_byte (concat (map word_bytes l)).
Proof.
  induction l as [|x l IH]; [constructor|]. cbn [map concat]. apply Forall_app. split; [|done]. unfold word_bytes. repeat constructor; apply Z.mod_pos_bound; lia.
Qed.

Lemma keystream_byte state i : is_byte (keystream state i).
Proof.
  unfold keystream. set (l := concat _). destruct (nth_in_or_default (i mod 64) l 0) as [Hin| ->]; [|done]. eapply Forall_forall; [apply block_bytes_bytes|by apply list_elem_of_In].
Qed.

(** ** run_cipher *)
#[local] Opaque chacha_block advance word_bytes.

Definition crypted (state input output : list Z) (from : nat) (output' : list Z) : Prop :=
  length output' = length output
  /\ (forall i x, (from <= i)%nat -> input !! i = Some x -> output' !! i = Some (Z.lxor x (keystream state i)))
  /\ (forall i, (i < from)%nat \/ (length input <= i)%nat -> output' !! i = output !! i).

Lemma keystream_block state k j : (j < 64)%nat -> keystream state (64 * k + j) = nth j (concat (map word_bytes (chacha_block (advance (Z.of_nat k) state)))) 0.
Proof.
  intros Hj. unfold keystream. rewrite (Nat.mul_comm 64), Nat.add_comm, Nat.Div0.mod_add, Nat.div_add, Nat.div_small, Nat.mod_small by lia. done.
Qed.

Lemma run_loop_exact state input : length state = 16%nat -> words_ok 32 state -> forall fuel k bo c output,
  (length input <= length output)%nat -> (length input - 64 * k < fuel)%nat -> (bo = 0 \/ bo = 64)%nat -> m_state c = advance (Z.of_nat k) state ->
  runs (run_loop fuel c input output (64 * k) bo) (fun '(c', output') => crypted state input output (64 * k) output'
    /\ exists k', (k <= k')%nat /\ (length input <= 64 * k')%nat /\ (k < k' -> 64 * k' < length input + 64)%nat /\ m_state c' = advance (Z.of_nat k') state).
Proof.
  intros Hl Hw. induction fuel as [|fuel IH]; intros k bo c output Ho Hf Hbo Hc; [lia|]. cbn [run_loop]. destruct (Nat.ltb_spec (64 * k) (length input)) as [Hlt|Hge].
  2:{ apply runs_ret. split; [|exists k; split_and!; [lia|lia|lia|done]]. split; [done|]. split; [|done]. intros i x Hi Hx. apply lookup_lt_Some in Hx. lia. }
  replace (((bo =? 0) || (64 <=? bo))%nat) with true by (destruct Hbo as [-> | ->]; done). cbv zeta. rewrite Nat.sub_0_r, drop_0, Nat.add_0_l. set (n := min (length input - 64 * k) 64).
  destruct (advance_ok (Z.of_nat k) state Hl Hw) as [Al Aw]. destruct (generate_block_exact c ltac:(by rewrite Hc) ltac:(by rewrite Hc)) as (Gs & Gb & Gl).
  remember (generate_block c) as c1 eqn:Ec1. clear Ec1. rewrite Hc in Gb. rewrite Hc in Gs. pose proof (next_counter_exact (Z.of_nat k) c1 state Hl Hw Gs) as E2.
  rewrite <- (next_counter_block c1) in Gb, Gl. replace (Z.of_nat k + 1) with (Z.of_nat (S k)) in E2 by lia. remember (next_counter c1) as c2 eqn:Ec2. clear Ec2.
  assert (Eb : block_bytes c2 = concat (map word_bytes (chacha_block (advance (Z.of_nat k) state)))) by (unfold block_bytes; by rewrite Gb).
  assert (Lb : length (block_bytes c2) = 64%nat) by (unfold block_bytes; by rewrite block_bytes_length, Gl).
  set (mid := zip_with Z.lxor (take n (drop (64 * k) input)) (take n (block_bytes c2))).
  assert (Lm : length mid = n) by (unfold mid; rewrite length_zip_with, !length_take, length_drop; lia).
  set (output1 := take (64 * k) output ++ mid ++ drop (64 * k + n) output).
  assert (L1 : length output1 = length output) by (unfold output1; rewrite !length_app, length_take, length_drop; lia).
  assert (Hmid : forall i x, (64 * k <= i < 64 * k + n)%nat -> input !! i = Some x -> output1 !! i = Some (Z.lxor x (keystream state i))).
  { intros i x Hi Hx. assert (exists j, i = (64 * k + j)%nat /\ (j < n)%nat) as (j & -> & Hj) by (exists (i - 64 * k)%nat; lia). clear Hi.
    assert (Hb : (j < length (block_bytes c2))%nat) by lia. destruct (lookup_lt_is_Some_2 _ _ Hb) as [y Hy]. unfold output1. rewrite lookup_app_r by (rewrite length_take; lia).
    replace (64 * k + j - length (take (64 * k) output))%nat with j by (rewrite length_take; lia). rewrite lookup_app_l by lia. unfold mid. rewrite lookup_zip_with, !lookup_take_lt, lookup_drop, Hx, Hy by lia. trans (Some (Z.lxor x y)); [done|].
    rewrite keystream_block, <- Eb by lia. by rewrite (nth_lookup_Some _ _ _ _ Hy). }
  assert (Hrest : forall i, (i < 64 * k \/ 64 * k + n <= i)%nat -> output1 !! i = output !! i).
  { intros i [Hi|Hi]; unfold output1.
    - rewrite lookup_app_l, lookup_take_lt by (rewrite ?length_take; lia). done.
    - rewrite app_assoc, lookup_app_r by (rewrite length_app, length_take; lia). rewrite lookup_drop, length_app, length_take. f_equal. lia. }
  clearbody output1. clear mid Lm. assert (En : n = min (length input - 64 * k) 64) by done. clearbody n.
  assert (Hnext : runs (run_loop fuel c2 input output1 (64 * k + n) n) (fun '(c', output') => crypted state input output1 (64 * k + n) output'
    /\ exists k', (k < k')%nat /\ (length input <= 64 * k')%nat /\ (64 * k' < length input + 64)%nat /\ m_state c' = advance (Z.of_nat k') state)).
  { destruct (Nat.eq_dec n 64%nat) as [E64|Hn].
    - replace (64 * k + n)%nat with (64 * S k)%nat by lia. rewrite E64. eapply runs_mono; [apply (IH (S k) 64%nat c2 output1); [lia|lia|by right|done]|].
      intros [c' output'] (Hcr & k' & H1 & H2 & H3 & H4). split; [done|]. exists k'. split_and!; [lia|lia| |done]. destruct (Nat.eq_dec (S k) k') as [<-|]; lia.
    - destruct fuel as [|fuel']; [lia|]. cbn [run_loop]. rewrite (proj2 (Nat.ltb_ge _ _)) by lia. apply runs_ret. split; [|exists (S k); split_and!; [lia|lia|lia|done]].
      split; [done|]. split; [|done]. intros i x Hi Hx. apply lookup_lt_Some in Hx. lia. }
  eapply runs_mono; [exact Hnext|]. intros [c' output'] ((Cl & Cin & Cout) & k' & H1 & H2 & H3 & H4). split; [|exists k'; split_and!; [lia|lia|lia|done]]. split; [lia|]. split.
  - intros i x Hi Hx. destruct (Nat.lt_ge_cases i (64 * k + n)); [rewrite Cout by lia; by apply Hmid|by apply Cin].
  - intros i Hi. rewrite Cout, Hrest by lia. done.
Qed.

(** ** The constructor *)
(** Little-endian 32-bit words *)
Definition words_of (bytes : list Z) : list Z := map (fun i => value 8 (take 4 (drop (4 * i) bytes))) (seq 0 (length bytes / 4)).

(** Constants, the key (a short one twice), the counter and the nonce *)
Definition initial_state (key nonce : list Z) (counter : Z) : list Z :=
  (if (length key =? 32)%nat then CONSTANT_32_BYTES ++ words_of key else CONSTANT_16_BYTES ++ words_of key ++ words_of key) ++ [counter] ++ words_of nonce.

Lemma load32_ok bytes offset : (offset + 4 <= length bytes)%nat -> load32 bytes offset = Ok (value 8 (take 4 (drop offset bytes))).
Proof. intros H. unfold load32. by rewrite (proj2 (Nat.leb_le _ _)). Qed.

Lemma load_words_ok bytes offset : (offset + 16 <= length bytes)%nat -> load_words bytes offset = Ok (words_of (take 16 (drop offset bytes))).
Proof.
  intros H. unfold load_words. rewrite !load32_ok by lia. cbn [kbind kret outcome_monad]. f_equal. unfold words_of. rewrite length_take, length_drop. replace (16 `min` (length bytes - offset))%nat with 16%nat by lia.
  change (seq 0 (16 / 4)) with [0; 1; 2; 3]%nat. cbn [map]. rewrite <- !drop_drop. set (l := drop offset bytes). assert (Hl : (16 <= length l)%nat) by (unfold l; rewrite length_drop; lia). clearbody l.
  do 16 (destruct l as [|? l]; [cbn in Hl; lia|]). done.
Qed.

Lemma words_of_ok bytes : Forall is_byte bytes -> words_ok 32 (words_of bytes) /\ length (words_of bytes) = (length bytes / 4)%nat.
Proof.
  intros Hb. unfold words_of. split; [|by rewrite length_map, length_seq]. apply Forall_forall. intros x Hx. apply list_elem_of_fmap in Hx as (i & -> & _). apply value_8_4; [by apply Forall_take, Forall_drop|rewrite length_take; lia].
Qed.

Lemma new_exact key nonce counter : length key = 16%nat \/ length key = 32%nat -> length nonce = 12%nat -> Forall is_byte key -> Forall is_byte nonce -> in_width 32 counter ->
  ChaCha20_new key nonce counter = Ok (mkChaCha20 (initial_state key nonce counter) (replicate 16 0))
  /\ length (initial_state key nonce counter) = 16%nat /\ words_ok 32 (initial_state key nonce counter).
Proof.
  intros Hk Hn Bk Bn Hc. destruct (words_of_ok key Bk) as [Wk Lk]. destruct (words_of_ok nonce Bn) as [Wn Ln].
  assert (Hwf : length (initial_state key nonce counter) = 16%nat /\ words_ok 32 (initial_state key nonce counter)).
  { unfold initial_state. destruct Hk as [Hk|Hk]; rewrite Hk in *; cbn [Nat.eqb]; (split; [rewrite !length_app, ?Lk, Ln, Hn; done|]);
      repeat apply words_ok_app; try done; repeat (apply Forall_cons; split; [done|]); constructor. }
  split; [|done]. destruct Hwf as [_ _]. unfold ChaCha20_new, initial_state. rewrite Hn. replace (words_of nonce) with [value 8 (take 4 (drop 0 nonce)); value 8 (take 4 (drop 4 nonce)); value 8 (take 4 (drop 8 nonce))] by (unfold words_of; by rewrite Hn).
  destruct Hk as [Hk|Hk]; rewrite Hk; cbn [Nat.eqb orb negb]; rewrite !load_words_ok, !load32_ok by lia; rewrite ?drop_0.
  - rewrite take_ge by lia. unfold words_of. rewrite Hk. reflexivity.
  - clear - Hk. do 32 (destruct key as [|? key]; [done|]). destruct key; [|done]. reflexivity.
Qed.

(** Every other length of the key or of the nonce fails an assertion: also the nonce of eight bytes, which the
    constructor means to accept, but whose last four bytes it looks for at offset 8. *)
Lemma new_rejects key nonce counter : ~ (length key = 16%nat \/ length key = 32%nat) \/ length nonce <> 12%nat -> ChaCha20_new key nonce counter = Panic.
Proof.
  intros H. unfold ChaCha20_new. destruct (Nat.eqb_spec (length key) 16) as [E1|E1], (Nat.eqb_spec (length key) 32) as [E2|E2], (Nat.eqb_spec (length nonce) 8) as [E3|E3], (Nat.eqb_spec (length nonce) 12) as [E4|E4];
    cbn [orb negb]; try done; try lia; rewrite !load_words_ok by lia; rewrite !load32_ok by lia; unfold load32; rewrite E3; cbn [Nat.leb Nat.add]; cbn [kbind outcome_monad].
  all: match goal with |- match set_at_index ?l ?i ?x with _ => _ end = _ => destruct (set_at_index l i x) as [|?|] eqn:E; [|unfold set_at_index in E; by destruct (_ && _)|done] end.
  all: match goal with |- match set_at_index ?l ?i ?x with _ => _ end = _ => destruct (set_at_index l i x) as [|?|] eqn:E'; [done|unfold set_at_index in E'; by destruct (_ && _)|done] end.
Qed.


(** The example of RFC 8439, 2.4.2: the first bytes and the last ones *)
Definition sunscreen : list Z := map (fun c => Z.of_nat (Ascii.nat_of_ascii c))
  (String.list_ascii_of_string "Ladies and Gentlemen of the class of '99: If I could offer you only one tip for the future, sunscreen would be it.").
Definition counting_key : list Z := map Z.of_nat (seq 0 32).
Definition example_nonce : list Z := [0; 0; 0; 0; 0; 0; 0; 0x4a; 0; 0; 0; 0].

