(* ===== verification/ByteBuffer.v ===== *)
(** * ByteBuffer: AK/ByteBuffer.h

    The growable buffer of bytes: up to [inline_capacity] bytes live inside the object, larger contents
    in a block from kmalloc that grows by half.  Bytes that nothing has written are indeterminate
    ([None]), so that the theorem also says which bytes a client may read.  The buffer refines a plain
    list of bytes under every sequence of operations and every pattern of failing allocations: a failing
    operation leaves the buffer as it was.  Appending single bytes allocates a logarithmic number of
    times.  The size that kmalloc rounds a request to is an interface with the two implementations that
    user programs have, LibC's size classes and the identity of the host build. *)
From S2P Require Import Prelude.

Local Open Scope Z_scope.

(** ** kmalloc *)
(** The outcomes of the allocations to come (all later ones succeed), and how many there have been *)
Record Heap := mkHeap { outcomes : list bool; allocations : nat }.

Definition kmalloc (size : Z) : M Heap bool := fun h =>
  match outcomes h with
  | [] => (Ok true, mkHeap [] (S (allocations h)))
  | o :: rest => (Ok o, mkHeap rest (S (allocations h)))
  end.

Class GoodSize := {
  kmalloc_good_size : Z -> Z;
  good_size_ge : forall n, 0 <= n <= 2 ^ 63 -> n <= kmalloc_good_size n }.

(** LibC: the size classes, and whole pages above them *)
Definition size_classes : list Z := [16; 32; 64; 128; 256; 496; 1008; 2032; 4080; 8176; 16368; 32752].
Definition PAGE_ROUND_UP (x : Z) : Z := Z.land (wrap 64 (wrap 64 (x + 4096) - 1)) (wrap 64 (Z.lnot (4096 - 1))).
Fixpoint class_for_size (classes : list Z) (size : Z) : Z :=
  match classes with
  | [] => PAGE_ROUND_UP size
  | c :: classes => if size <=? c then c else class_for_size classes size
  end.
(** [allocator_for_size] with an alignment of one, for which every block has a chunk *)
Definition malloc_good_size (size : Z) : Z := class_for_size size_classes size.
(** The host's: [malloc_good_size] returns its argument *)
Definition host_malloc_good_size (size : Z) : Z := size.

(** ** The buffer *)
(** [storage] is the inline buffer or the one that [m_outline_buffer] points to; its length is the capacity. *)
Record ByteBuffer := mkBuffer { m_inline : bool; storage : list (option Z); m_size : Z }.

Section ByteBuffer.
Context (inline_capacity : nat) {G : GoodSize}.

Definition ByteBuffer_new : ByteBuffer := mkBuffer true (replicate inline_capacity None) 0.

Definition capacity (b : ByteBuffer) : Z := if m_inline b then Z.of_nat inline_capacity else Z.of_nat (length (storage b)).

(** memcpy and memset into the memory of the buffer, and memcpy out of it; what lies outside of it is not the
    buffer's, and touching it counts as a failure. *)
Definition write (b : ByteBuffer) (offset : Z) (data : list (option Z)) : outcome ByteBuffer :=
  if (0 <=? offset) && (offset + Z.of_nat (length data) <=? Z.of_nat (length (storage b))) then
    kret (mkBuffer (m_inline b) (take (Z.to_nat offset) (storage b) ++ data ++ drop (Z.to_nat offset + length data) (storage b)) (m_size b))
  else Panic.
Definition read (b : ByteBuffer) (offset size : Z) : outcome (list (option Z)) :=
  if (0 <=? offset) && (0 <=? size) && (offset + size <=? Z.of_nat (length (storage b))) then
    kret (take (Z.to_nat size) (drop (Z.to_nat offset) (storage b)))
  else Panic.

(** Bytes at the start of [n] bytes of fresh memory *)
Definition padded (data : list (option Z)) (n : nat) : list (option Z) := data ++ replicate (n - length data) None.

Definition try_ensure_capacity_slowpath (b : ByteBuffer) (new_capacity : Z) : M Heap ByteBuffer :=
  let new_capacity := Z.max new_capacity (wrap 64 (capacity b * 3) / 2) in
  let new_capacity := kmalloc_good_size new_capacity in
  allocated ← kmalloc new_capacity;
  if negb allocated then fail ENOMEM
  else
    let copied := if m_inline b then take (Z.to_nat (m_size b)) (storage b)
                  else take (Z.to_nat (Z.min new_capacity (capacity b))) (storage b) in
    kret (mkBuffer false (padded copied (Z.to_nat new_capacity)) (m_size b)).

Definition try_ensure_capacity (b : ByteBuffer) (new_capacity : Z) : M Heap ByteBuffer :=
  if new_capacity <=? capacity b then kret b else try_ensure_capacity_slowpath b new_capacity.

Definition shrink_into_inline_buffer (b : ByteBuffer) (size : Z) (may_discard_existing_data : bool) : ByteBuffer :=
  mkBuffer true (padded (if may_discard_existing_data then [] else take (Z.to_nat size) (storage b)) inline_capacity) (m_size b).

Definition trim (b : ByteBuffer) (size : Z) (may_discard_existing_data : bool) : M Heap ByteBuffer :=
  VERIFY (size <=? m_size b) ;;
  let b := if negb (m_inline b) && (size <=? Z.of_nat inline_capacity) then shrink_into_inline_buffer b size may_discard_existing_data else b in
  kret (mkBuffer (m_inline b) (storage b) size).

Definition try_resize (b : ByteBuffer) (new_size : Z) (zero_fill_new_elements : bool) : M Heap ByteBuffer :=
  if new_size <=? m_size b then trim b new_size false
  else
    b ← try_ensure_capacity b new_size;
    b ← lift (if zero_fill_new_elements then write b (m_size b) (replicate (Z.to_nat (new_size - m_size b)) (Some 0)) else kret b);
    kret (mkBuffer (m_inline b) (storage b) new_size).

(** [MUST]: an error is fatal *)
Definition MUST {A} (m : M Heap A) : M Heap A := fun h =>
  match m h with (Err _, h) => (Panic, h) | r => r end.

Definition resize (b : ByteBuffer) (new_size : Z) (zero : bool) : M Heap ByteBuffer := MUST (try_resize b new_size zero).
Definition ensure_capacity (b : ByteBuffer) (new_capacity : Z) : M Heap ByteBuffer := MUST (try_ensure_capacity b new_capacity).

Definition zero_fill (b : ByteBuffer) : M Heap ByteBuffer := lift (write b 0 (replicate (Z.to_nat (m_size b)) (Some 0))).

(** [operator[]] *)
Definition buffer_at (b : ByteBuffer) (i : Z) : M Heap (option Z) :=
  VERIFY (i <? m_size b) ;; lift (at_index (storage b) i).

Definition create_uninitialized (size : Z) : M Heap ByteBuffer := try_resize ByteBuffer_new size false.
Definition create_zeroed (size : Z) : M Heap ByteBuffer :=
  b ← create_uninitialized size;
  b ← zero_fill b;
  (if size =? 0 then kret tt
   else first ← buffer_at b 0; last ← buffer_at b (size - 1); VERIFY (bool_decide (first = Some 0) && bool_decide (last = Some 0))) ;;
  kret b.

Definition copy (data : list (option Z)) : M Heap ByteBuffer :=
  let size := Z.of_nat (length data) in
  b ← create_uninitialized size;
  VERIFY (negb (m_inline b && (Z.of_nat inline_capacity <? size))) ;;
  lift (if size =? 0 then kret b else write b 0 data).

Definition xor_buffers (first second : list Z) : M Heap ByteBuffer :=
  if negb (length first =? length second)%nat then fail EINVAL
  else
    b ← create_uninitialized (Z.of_nat (length first));
    lift (write b 0 (map Some (zip_with Z.lxor first second))).

Definition try_append_byte (b : ByteBuffer) (byte : Z) : M Heap ByteBuffer :=
  let old_size := m_size b in
  let new_size := wrap 64 (old_size + 1) in
  VERIFY (old_size <? new_size) ;;
  b ← try_resize b new_size false;
  lift (write b old_size [Some byte]).

Definition try_append (b : ByteBuffer) (data : list (option Z)) : M Heap ByteBuffer :=
  if (length data =? 0)%nat then kret b
  else
    let old_size := m_size b in
    b ← try_resize b (wrap 64 (m_size b + Z.of_nat (length data))) false;
    lift (write b old_size data).

Definition append_byte (b : ByteBuffer) (byte : Z) : M Heap ByteBuffer := MUST (try_append_byte b byte).
Definition append (b : ByteBuffer) (data : list (option Z)) : M Heap ByteBuffer := MUST (try_append b data).

(** The buffer, and the offset and length of the bytes to write *)
Definition get_bytes_for_writing (b : ByteBuffer) (length : Z) : M Heap (ByteBuffer * (Z * Z)) :=
  let old_size := m_size b in
  b ← try_resize b (wrap 64 (old_size + length)) false;
  kret (b, (old_size, length)).

Definition overwrite (b : ByteBuffer) (offset : Z) (data : list (option Z)) : M Heap ByteBuffer :=
  VERIFY (wrap 64 (offset + Z.of_nat (length data)) <=? m_size b) ;;
  lift (write b offset data).

Definition slice (b : ByteBuffer) (offset size : Z) : M Heap ByteBuffer :=
  VERIFY (wrap 64 (offset + size) <=? m_size b) ;;
  data ← lift (read b offset size);
  copy data.

Definition clear (b : ByteBuffer) : ByteBuffer :=
  mkBuffer true (if m_inline b then storage b else replicate inline_capacity None) 0.

(** The bytes that are the buffer's *)
Definition contents (b : ByteBuffer) : list (option Z) := take (Z.to_nat (m_size b)) (storage b).

Definition buffer_eq (b other : ByteBuffer) : bool := (m_size b =? m_size other) && bool_decide (contents b = contents other).

(** [operator=] from another buffer; the copy constructor starts from an empty one. *)
Definition assign (b other : ByteBuffer) : M Heap ByteBuffer :=
  b ← (if m_size other <? m_size b then trim b (m_size other) true else MUST (try_resize b (m_size other) false));
  lift (write b 0 (contents other)).
Definition copy_construct (other : ByteBuffer) : M Heap ByteBuffer :=
  b ← MUST (try_resize ByteBuffer_new (m_size other) false);
  VERIFY (m_size b =? m_size other) ;;
  lift (write b 0 (contents other)).

(** The new owner and what is left of [other] *)
Definition move_from (other : ByteBuffer) : M Heap (ByteBuffer * ByteBuffer) :=
  let rest := mkBuffer true (if m_inline other then storage other else replicate inline_capacity None) 0 in
  if negb (m_inline other) then kret (mkBuffer false (storage other) (m_size other), rest)
  else
    VERIFY (m_size other <=? Z.of_nat inline_capacity) ;;
    kret (mkBuffer true (padded (contents other) inline_capacity) (m_size other), rest).
End ByteBuffer.

(** ** The size classes *)
Lemma page_round_up_ge n : 0 <= n <= 2 ^ 63 -> n <= PAGE_ROUND_UP n.
Proof.
  intros Hn. unfold PAGE_ROUND_UP, wrap. rewrite (Z.mod_small (n + 4096)), (Z.mod_small (n + 4096 - 1)) by lia. change (Z.lnot (4096 - 1) mod 2 ^ 64) with (Z.shiftl (Z.ones 52) 12).
  replace (Z.land (n + 4096 - 1) (Z.shiftl (Z.ones 52) 12)) with ((n + 4096 - 1) / 4096 * 4096); [pose proof (Z.div_mod (n + 4096 - 1) 4096 ltac:(lia)); pose proof (Z.mod_pos_bound (n + 4096 - 1) 4096 ltac:(lia)); lia|].
  change 4096 with (2 ^ 12). rewrite <- Z.shiftr_div_pow2, <- Z.shiftl_mul_pow2 by lia. set (x := n + 2 ^ 12 - 1). apply Z.bits_inj'. intros i Hi. rewrite Z.land_spec, !Z.shiftl_spec by lia.
  destruct (Z.ltb_spec i 12); [rewrite !(Z.testbit_neg_r _ (i - 12)) by lia; by rewrite andb_false_r|]. rewrite Z.shiftr_spec by lia. replace (i - 12 + 12) with i by lia.
  destruct (Z.ltb_spec i 64); [rewrite Z.ones_spec_low by lia; by rewrite andb_true_r|]. rewrite Z.ones_spec_high, andb_false_r by lia.
  rewrite <- (Z.mod_small x (2 ^ 64)) by (unfold x; lia). apply Z.mod_pow2_bits_high. lia.
Qed.

Lemma malloc_good_size_ge n : 0 <= n <= 2 ^ 63 -> n <= malloc_good_size n.
Proof.
  intros Hn. unfold malloc_good_size. induction size_classes as [|c classes IH]; cbn [class_for_size]; [by apply page_round_up_ge|]. destruct (Z.leb_spec n c); [done|apply IH].
Qed.

#[export] Instance libc_good_size : GoodSize := { kmalloc_good_size := malloc_good_size; good_size_ge := malloc_good_size_ge }.
Definition host_good_size : GoodSize := {| kmalloc_good_size := host_malloc_good_size; good_size_ge n _ := Z.le_refl n |}.

(** The last page of sizes is rounded to nothing: a block of one byte is taken for a buffer of 2^64 - 1. *)
Lemma good_size_wraps n : 2 ^ 64 - 4096 < n < 2 ^ 64 -> malloc_good_size n = 0.
Proof.
  intros Hn. unfold malloc_good_size, size_classes. cbn [class_for_size]. rewrite !(proj2 (Z.leb_gt n _)) by lia. unfold PAGE_ROUND_UP, wrap.
  replace ((n + 4096) mod 2 ^ 64) with (n + 4096 - 2 ^ 64) by (apply Z.mod_unique_pos with 1; lia). rewrite Z.mod_small by lia. change (Z.lnot (4096 - 1) mod 2 ^ 64) with (Z.shiftl (Z.ones 52) 12).
  set (x := n + 4096 - 2 ^ 64 - 1). assert (Hx : 0 <= x < 2 ^ 12) by (unfold x; lia). clearbody x. apply Z.bits_inj'. intros i Hi. rewrite Z.land_spec, Z.shiftl_spec, Z.bits_0 by lia.
  destruct (Z.ltb_spec i 12); [rewrite (Z.testbit_neg_r _ (i - 12)) by lia; apply andb_false_r|]. rewrite <- (Z.mod_small x (2 ^ 12)), Z.mod_pow2_bits_high by lia. done.
Qed.

(** ** Refinement *)
(** A specified byte is the byte of the buffer; an unspecified one can be anything. *)
Definition agrees (spec bytes : list (option Z)) : Prop := Forall2 (fun s c => s = None \/ s = c) spec bytes.

Lemma agrees_refl l : agrees l l.
Proof. induction l; constructor; auto. Qed.
Lemma agrees_app s1 s2 l1 l2 : agrees s1 l1 -> agrees s2 l2 -> agrees (s1 ++ s2) (l1 ++ l2).
Proof. apply Forall2_app. Qed.
Lemma agrees_take n s l : agrees s l -> agrees (take n s) (take n l).
Proof. apply Forall2_take. Qed.
Lemma agrees_drop n s l : agrees s l -> agrees (drop n s) (drop n l).
Proof. apply Forall2_drop. Qed.
Lemma agrees_length s l : agrees s l -> length s = length l.
Proof. apply Forall2_length. Qed.
Lemma agrees_unknown n l : length l = n -> agrees (replicate n None) l.
Proof. intros <-. induction l; constructor; auto. Qed.
Lemma agrees_trans s l k : agrees s l -> agrees l k -> agrees s k.
Proof. intros H. revert k. induction H as [|x y s l Hxy _ IH]; intros k Hk; [done|]. inversion Hk as [|? z ? ? Hz Hk']; subst; constructor; [|by apply IH]. destruct Hxy as [-> | ->]; [by left|done]. Qed.
#[local] Hint Resolve agrees_refl agrees_app agrees_take agrees_drop : core.

Create HintDb shrinks.

Section refinement.
Context (inline_capacity : nat) {G : GoodSize}.
#[local] Notation cap := (capacity inline_capacity).

Record wf (b : ByteBuffer) : Prop := {
  wf_size : 0 <= m_size b <= Z.of_nat (length (storage b));
  wf_inline : m_inline b = true -> length (storage b) = inline_capacity }.

Lemma capacity_wf b : wf b -> cap b = Z.of_nat (length (storage b)).
Proof using. intros [_ Hi]. unfold capacity. destruct (m_inline b); [by rewrite Hi|done]. Qed.

Lemma contents_length b : wf b -> Z.of_nat (length (contents b)) = m_size b.
Proof using. intros [Hs _]. unfold contents. rewrite length_take. lia. Qed.

(** Some allocation has failed. *)
Definition failing (h : Heap) : Prop := false ∈ outcomes h.

Lemma ensure_capacity_wp b n h : wf b -> 0 <= n <= 2 ^ 63 ->
  wp (try_ensure_capacity inline_capacity b n) h (fun r h' => match r with
    | Ok b' => wf b' /\ contents b' = contents b /\ m_size b' = m_size b /\ n <= Z.of_nat (length (storage b')) /\ cap b <= cap b'
               /\ (n <= cap b -> b' = b /\ h' = h)
               /\ (cap b < n -> allocations h' = S (allocations h) /\ wrap 64 (cap b * 3) / 2 <= cap b') /\ (failing h' -> failing h)
    | Err e => e = ENOMEM /\ failing h /\ cap b < n
    | Panic => False end).
Proof.
  intros Hb Hn. pose proof (capacity_wf b Hb) as Ec. pose proof Hb as [Hs Hi]. unfold try_ensure_capacity. wp_step.
  - wp_step. apply Z.leb_le in H. split_and!; try done; try lia.
  - apply Z.leb_gt in H. unfold try_ensure_capacity_slowpath. set (n1 := Z.max n (wrap 64 (cap b * 3) / 2)).
    assert (Hn1 : 0 <= n1 <= 2 ^ 63) by (pose proof (Z.mod_pos_bound (cap b * 3) (2 ^ 64) ltac:(lia)); unfold n1, wrap; split; [lia|]; apply Z.max_lub; [lia|]; apply Z.lt_le_incl, Z.div_lt_upper_bound; lia).
    pose proof (good_size_ge n1 Hn1) as Hg. set (g := kmalloc_good_size n1) in *. clearbody g. wp_step. unfold wp, kmalloc.
    set (copied := if m_inline b then _ else _). assert (Hcl : (length copied <= Z.to_nat g)%nat) by (unfold copied; destruct (m_inline b); rewrite length_take; lia).
    assert (Hct : take (Z.to_nat (m_size b)) copied = contents b) by (unfold copied, contents; destruct (m_inline b); rewrite take_take; f_equal; lia).
    assert (Hdone : let b' := mkBuffer false (padded copied (Z.to_nat g)) (m_size b) in wf b' /\ contents b' = contents b /\ n <= Z.of_nat (length (storage b')) /\ cap b <= cap b' /\ wrap 64 (cap b * 3) / 2 <= cap b').
    { assert (Hpl : Z.of_nat (length (padded copied (Z.to_nat g))) = g) by (unfold padded; rewrite length_app, length_replicate; lia). unfold capacity at 2 4. cbn [m_inline storage m_size]. rewrite Hpl.
      split; [split; cbn [m_inline storage m_size]; [lia|done]|]. split; [|lia]. unfold contents at 1. cbn [storage m_size]. unfold padded. rewrite take_app_le; [done|].
      apply (f_equal length) in Hct. rewrite length_take in Hct. pose proof (contents_length b Hb). lia. }
    destruct Hdone as (D1 & D2 & D3 & D4 & D5).
    destruct (outcomes h) as [|[|] rest] eqn:Eo; cbn [kret kbind M_monad negb fail fst snd]; [| |split; [done|]; split; [unfold failing; rewrite Eo; left|done]]; (split_and!; try done; intros; first [lia|split; [done|exact D5]|unfold failing in *; rewrite Eo; cbn in *; by constructor|set_solver]).
Qed.

Lemma wf_new : wf (ByteBuffer_new inline_capacity) /\ contents (ByteBuffer_new inline_capacity) = [].
Proof using. split; [split; cbn; [lia|intros _; apply length_replicate]|done]. Qed.

Lemma write_ok b offset data : wf b -> 0 <= offset -> offset + Z.of_nat (length data) <= m_size b ->
  exists b', write b offset data = Ok b' /\ wf b' /\ m_size b' = m_size b /\ cap b' = cap b
    /\ contents b' = take (Z.to_nat offset) (contents b) ++ data ++ drop (Z.to_nat offset + length data) (contents b).
Proof using.
  intros [Hs Hi] Ho Hl. unfold write. rewrite (proj2 (Z.leb_le _ _) Ho), (proj2 (Z.leb_le _ _)) by lia. cbn [andb]. set (st := take _ _ ++ _). eexists. split; [reflexivity|].
  assert (Hlen : length st = length (storage b)) by (unfold st; rewrite !length_app, length_take, length_drop; lia). unfold capacity, contents. cbn [m_inline m_size storage]. rewrite Hlen.
  split_and!; [split; cbn; rewrite Hlen; done|done|done|]. unfold st. rewrite take_app, take_app, length_take, !take_take, (take_ge data) by lia.
  replace (Z.to_nat (m_size b) `min` Z.to_nat offset)%nat with (Z.to_nat offset `min` Z.to_nat (m_size b))%nat by lia. f_equal. f_equal. rewrite skipn_firstn_comm. f_equal. lia.
Qed.

Lemma trim_wp b n discard h : wf b -> 0 <= n ->
  wp (trim inline_capacity b n discard) h (fun r h' => match r with
    | Ok b' => n <= m_size b /\ wf b' /\ m_size b' = n /\ (discard = false -> contents b' = take (Z.to_nat n) (contents b)) /\ h' = h
    | Err _ => False
    | Panic => m_size b < n end).
Proof using.
  intros [Hs Hi] Hn. unfold trim, wp, VERIFY. cbn [kbind M_monad]. destruct (Z.leb_spec n (m_size b)) as [Hle|Hlt]; [|done]. cbn [kret]. unfold contents. rewrite take_take, Nat.min_l by lia.
  destruct (m_inline b) eqn:Ei; cbn [negb andb m_inline storage m_size].
  { split_and!; try done. split; cbn; [lia|auto]. }
  destruct (Z.leb_spec n (Z.of_nat inline_capacity)) as [Hc|Hc]; cbn [shrink_into_inline_buffer m_inline storage m_size].
  - split_and!; try done.
    + split; cbn [m_inline storage m_size]; unfold padded; rewrite length_app, length_replicate; destruct discard; cbn [length]; rewrite ?length_take; lia.
    + intros ->. unfold padded. cbn [storage m_size]. rewrite take_app_le, take_take, Nat.min_id by (rewrite length_take; lia). done.
  - split_and!; try done. split; cbn; [lia|congruence].
Qed.

(** The bytes after a change of the size *)
Definition resized (l : list (option Z)) (n : Z) (zero : bool) : list (option Z) :=
  if n <=? Z.of_nat (length l) then take (Z.to_nat n) l else l ++ replicate (Z.to_nat n - length l) (if zero then Some 0 else None).

Lemma resized_agrees s l n zero : agrees s l -> agrees (resized s n zero) (resized l n zero).
Proof using. intros Ha. unfold resized. rewrite (agrees_length _ _ Ha). destruct (n <=? _); auto. Qed.

Lemma resize_wp b n zero h : wf b -> 0 <= n <= 2 ^ 63 ->
  wp (try_resize inline_capacity b n zero) h (fun r h' => match r with
    | Ok b' => wf b' /\ m_size b' = n /\ agrees (resized (contents b) n zero) (contents b')
               /\ (failing h' -> failing h) /\ (n <= cap b -> h' = h) /\ (m_size b < n <= cap b -> cap b' = cap b)
               /\ (m_size b < n -> cap b <= cap b' /\ (cap b < n -> allocations h' = S (allocations h) /\ wrap 64 (cap b * 3) / 2 <= cap b'))
    | Err e => e = ENOMEM /\ failing h /\ cap b < n
    | Panic => False end).
Proof.
  intros Hb Hn. pose proof (contents_length b Hb) as Hcl. pose proof (capacity_wf b Hb) as Ec. pose proof Hb as [Hs Hi]. unfold try_resize. wp_step; bool_hyps.
  - eapply wp_mono; [apply trim_wp; [done|lia]|]. intros [b'|e|] h'; [|done|lia]. intros (_ & Hw & Hm & Hc & ->). split_and!; try done; try lia. rewrite Hc by done. unfold resized. rewrite (proj2 (Z.leb_le _ _)) by lia. auto.
  - wp_step. eapply wp_mono; [by apply ensure_capacity_wp|]. intros [b1|e|] h'; [|done|done]. intros (Hw & Hc & Hm & Hcap & Hge & Hsame & Hgrow & Hfail).
    assert (Er : resized (contents b) n zero = contents b ++ replicate (Z.to_nat n - length (contents b)) (if zero then Some 0 else None)) by (unfold resized; rewrite (proj2 (Z.leb_gt _ _)) by lia; done).
    assert (Hrest : forall b', cap b' = cap b1 -> (n <= cap b -> h' = h) /\ (m_size b < n <= cap b -> cap b' = cap b) /\ (m_size b < n -> cap b <= cap b' /\ (cap b < n -> allocations h' = S (allocations h) /\ wrap 64 (cap b * 3) / 2 <= cap b'))).
    { intros b' ->. split_and!; [intros Hle; by apply Hsame|intros [_ Hle]; by destruct (Hsame Hle) as [-> _]|intros _; split; [lia|done]]. }
    pose proof Hw as [Hs1 Hi1]. set (b2 := mkBuffer (m_inline b1) (storage b1) n). assert (Hw2 : wf b2) by (split; cbn; [lia|done]).
    assert (Hc2 : take (Z.to_nat (m_size b)) (contents b2) = contents b) by (rewrite <- Hc; unfold contents, b2; cbn [storage m_size]; rewrite take_take, Hm; f_equal; lia).
    destruct zero.
    + destruct (write_ok b2 (m_size b) (replicate (Z.to_nat (n - m_size b)) (Some 0)) Hw2) as (b3 & E3 & Hw3 & Hm3 & Hc3 & Hcon); [lia|rewrite length_replicate; cbn; lia|].
      wp_step. wp_step. assert (E1 : write b1 (m_size b1) (replicate (Z.to_nat (n - m_size b1)) (Some 0)) = Ok (mkBuffer (m_inline b3) (storage b3) (m_size b1))).
      { rewrite Hm. revert E3. unfold write, b2. cbn [storage m_inline m_size]. destruct (_ && _); [|done]. intros [= <-]. by rewrite Hm. }
      rewrite E1. cbn [m_inline storage m_size]. wp_step. cbn [m_size b2] in Hm3. rewrite <- Hm3. destruct b3 as [i3 s3 m3]. cbn [m_inline storage m_size] in *. split; [done|]. split; [done|]. rewrite Hm3 in *. rewrite Er, Hcon, Hc2. split; [|split; [done|by apply Hrest]].
      rewrite length_replicate, drop_ge, app_nil_r by (pose proof (contents_length b2 Hw2); cbn in *; lia). replace (Z.to_nat n - length (contents b))%nat with (Z.to_nat (n - m_size b)) by lia. auto.
    + wp_steps. split; [done|]. split; [done|]. rewrite Er. fold b2. split; [|split; [done|by apply Hrest]]. rewrite <- (take_drop (Z.to_nat (m_size b)) (contents b2)), Hc2. apply agrees_app; [auto|]. apply agrees_unknown.
      rewrite length_drop. pose proof (contents_length b2 Hw2) as L2. cbn in L2. lia.
Qed.

(** Data written behind the old contents, after the buffer has grown by as much *)
Lemma write_behind b b1 data : wf b -> wf b1 -> m_size b1 = m_size b + Z.of_nat (length data) -> agrees (resized (contents b) (m_size b1) false) (contents b1) -> data <> [] ->
  exists b', write b1 (m_size b) data = Ok b' /\ wf b' /\ m_size b' = m_size b1 /\ cap b' = cap b1 /\ agrees (contents b ++ data) (contents b').
Proof using.
  intros Hb H1 Hm Ha Hd. pose proof (contents_length b Hb) as Lb. pose proof (contents_length b1 H1) as L1. destruct Hb as [Hs _]. assert (0 < length data)%nat by (destruct data; [done|cbn; lia]).
  destruct (write_ok b1 (m_size b) data H1 ltac:(lia) ltac:(lia)) as (b' & E & Hw & Hm' & Hc & Hcon). exists b'. split_and!; try done. rewrite Hcon, drop_ge, app_nil_r by lia.
  apply agrees_app; [|auto]. unfold resized in Ha. rewrite (proj2 (Z.leb_gt _ _)) in Ha by lia. apply (agrees_take (Z.to_nat (m_size b))) in Ha. rewrite take_app_le, take_ge in Ha by lia. done.
Qed.

(** What an operation that may grow the buffer to [n] bytes promises of the heap *)
Definition grown (b : ByteBuffer) (n : Z) (h : Heap) (b' : ByteBuffer) (h' : Heap) : Prop :=
  (n <= cap b -> h' = h) /\ (m_size b < n <= cap b -> cap b' = cap b)
  /\ (m_size b < n -> cap b <= cap b' /\ (cap b < n -> allocations h' = S (allocations h) /\ wrap 64 (cap b * 3) / 2 <= cap b')).

Lemma append_wp b data h : wf b -> m_size b + Z.of_nat (length data) <= 2 ^ 63 -> data <> [] ->
  wp (try_append inline_capacity b data) h (fun r h' => match r with
    | Ok b' => wf b' /\ m_size b' = m_size b + Z.of_nat (length data) /\ agrees (contents b ++ data) (contents b') /\ grown b (m_size b + Z.of_nat (length data)) h b' h'
    | Err e => e = ENOMEM /\ failing h /\ cap b < m_size b + Z.of_nat (length data)
    | Panic => False end).
Proof.
  intros Hb Hn Hd. pose proof Hb as [Hs _]. unfold try_append. wp_step; bool_hyps; [destruct data; done|]. unfold wrap. rewrite Z.mod_small by lia. wp_step. eapply wp_mono; [apply resize_wp; [done|lia]|].
  intros [b1|e|] h1; [|done|done]. intros (H1 & Hm & Ha & _ & Hg). destruct (write_behind b b1 data Hb H1 Hm ltac:(by rewrite Hm) Hd) as (b' & E & Hw & Hm' & Hc & Ha'). wp_step. rewrite E.
  split_and!; [done|by rewrite Hm'|done|]. unfold grown. by rewrite Hc.
Qed.

Lemma append_byte_wp b x h : wf b -> m_size b < 2 ^ 63 ->
  wp (try_append_byte inline_capacity b x) h (fun r h' => match r with
    | Ok b' => wf b' /\ m_size b' = m_size b + 1 /\ agrees (contents b ++ [Some x]) (contents b') /\ grown b (m_size b + 1) h b' h'
    | Err e => e = ENOMEM /\ failing h /\ cap b < m_size b + 1
    | Panic => False end).
Proof.
  intros Hb Hn. pose proof Hb as [Hs _]. unfold try_append_byte, wrap. rewrite Z.mod_small by lia. wp_step. apply wp_VERIFY; [apply Z.ltb_lt; lia|]. wp_step. eapply wp_mono; [apply resize_wp; [done|lia]|].
  intros [b1|e|] h1; [|done|done]. intros (H1 & Hm & Ha & _ & Hg). destruct (write_behind b b1 [Some x] Hb H1 Hm ltac:(by rewrite Hm) ltac:(done)) as (b' & E & Hw & Hm' & Hc & Ha'). wp_step. rewrite E.
  split_and!; [done|by rewrite Hm'|done|]. unfold grown. by rewrite Hc.
Qed.

Lemma create_buffer_wp n h : 0 <= n <= 2 ^ 63 ->
  wp (create_uninitialized inline_capacity n) h (fun r h' => match r with
    | Ok b => wf b /\ m_size b = n /\ (n <= Z.of_nat inline_capacity -> h' = h) /\ (failing h' -> failing h)
    | Err e => e = ENOMEM /\ failing h /\ Z.of_nat inline_capacity < n
    | Panic => False end).
Proof.
  intros Hn. destruct wf_new as [Hw _]. eapply wp_mono; [apply (resize_wp _ n false h Hw Hn)|]. intros [b|e|] h'; [|done|done]. intros (H1 & H2 & _ & H4 & H3 & _). split_and!; try done.
Qed.

Lemma copy_wp data h : Z.of_nat (length data) <= 2 ^ 63 ->
  wp (copy inline_capacity data) h (fun r h' => match r with
    | Ok b => wf b /\ contents b = data /\ (Z.of_nat (length data) <= Z.of_nat inline_capacity -> h' = h) /\ (failing h' -> failing h)
    | Err e => e = ENOMEM /\ failing h /\ Z.of_nat inline_capacity < Z.of_nat (length data)
    | Panic => False end).
Proof.
  intros Hn. unfold copy. wp_step. eapply wp_mono; [apply create_buffer_wp; lia|]. intros [b|e|] h'; [|done|done]. intros (Hw & Hm & Hh & Hf). pose proof Hw as [Hs Hi]. wp_step. apply wp_VERIFY.
  { destruct (m_inline b) eqn:Ei; [|done]. cbn [andb]. rewrite (proj2 (Z.ltb_ge _ _)); [done|]. rewrite (Hi eq_refl) in Hs. lia. }
  wp_step. pose proof (contents_length b Hw) as Hl. destruct (Z.eqb_spec (Z.of_nat (length data)) 0) as [E0|E0].
  - cbn [kret outcome_monad]. split_and!; try done. destruct data; [|cbn in E0; lia]. apply nil_length_inv. lia.
  - destruct (write_ok b 0 data Hw ltac:(lia) ltac:(lia)) as (b' & E & Hw' & _ & _ & Hcon). rewrite E. split_and!; try done. rewrite Hcon. cbn [Z.to_nat take app]. rewrite drop_ge, app_nil_r by lia. done.
Qed.

Lemma must_wp {A} (m : M Heap A) h (Q : outcome A -> Heap -> Prop) : wp m h (fun r h' => match r with Err _ => Q Panic h' | _ => Q r h' end) -> wp (MUST m) h Q.
Proof using. unfold wp, MUST. by destruct (m h) as [[a|e|] h']. Qed.

Lemma zero_fill_ok b : wf b -> exists b', write b 0 (replicate (Z.to_nat (m_size b)) (Some 0)) = Ok b' /\ wf b' /\ m_size b' = m_size b /\ contents b' = replicate (Z.to_nat (m_size b)) (Some 0).
Proof using.
  intros Hb. pose proof Hb as [Hs _]. destruct (write_ok b 0 (replicate (Z.to_nat (m_size b)) (Some 0)) Hb ltac:(lia)) as (b' & E & Hw & Hm & _ & Hc); [rewrite length_replicate; lia|].
  exists b'. split_and!; try done. rewrite Hc. cbn [Z.to_nat take app]. pose proof (contents_length b Hb). rewrite length_replicate, drop_ge, app_nil_r by lia. done.
Qed.

Lemma create_zeroed_wp n h : 0 <= n <= 2 ^ 63 ->
  wp (create_zeroed inline_capacity n) h (fun r h' => match r with
    | Ok b => wf b /\ contents b = replicate (Z.to_nat n) (Some 0) /\ (n <= Z.of_nat inline_capacity -> h' = h) /\ (failing h' -> failing h)
    | Err e => e = ENOMEM /\ failing h /\ Z.of_nat inline_capacity < n
    | Panic => False end).
Proof.
  intros Hn. unfold create_zeroed. wp_step. eapply wp_mono; [by apply create_buffer_wp|]. intros [b|e|] h'; [|done|done]. intros (Hw & Hm & Hh & Hf). destruct (zero_fill_ok b Hw) as (b' & E & Hw' & Hm' & Hc).
  wp_step. unfold zero_fill. wp_step. rewrite E. assert (Hat : forall i, 0 <= i < n -> at_index (storage b') i = Ok (Some 0)).
  { intros i Hi. apply at_index_Z; [lia|]. assert (L : contents b' !! Z.to_nat i = Some (Some 0)) by (rewrite Hc; apply lookup_replicate; split; [done|lia]). unfold contents in L. rewrite lookup_take_lt in L by lia. done. }
  wp_step. eapply (wp_mono _ _ (fun r s => r = Ok tt /\ s = h')); [|intros [[]|?|] s; [|by intros [? _]|by intros [? _]]; intros [_ ->]; wp_step; rewrite Hc, Hm; done].
  destruct (Z.eqb_spec n 0) as [E0|E0]; [by wp_step|]. unfold buffer_at. wp_step. wp_step. apply wp_VERIFY; [apply Z.ltb_lt; lia|]. wp_step. rewrite Hat by lia. wp_step. wp_step. apply wp_VERIFY; [apply Z.ltb_lt; lia|]. wp_step. rewrite Hat by lia.
  apply wp_VERIFY; [by rewrite !bool_decide_eq_true_2|done].
Qed.

(** ** Programs *)
Inductive op :=
  | TryAppend (data : list (option Z)) | TryAppendByte (byte : Z) | TryResize (n : Z) (zero : bool) | TryEnsureCapacity (n : Z) | GetBytesForWriting (n : Z)
  | Trim (n : Z) | Clear | Overwrite (offset : Z) (data : list (option Z)) | ZeroFill | Slice (offset n : Z) | Move | Copy | AssignFrom (data : list (option Z)).

(** [Slice], [Move] and [Copy] go on with the new buffer, [AssignFrom] assigns from another one. *)
Definition step (o : op) (b : ByteBuffer) : M Heap ByteBuffer :=
  match o with
  | TryAppend data => try_append inline_capacity b data
  | TryAppendByte byte => try_append_byte inline_capacity b byte
  | TryResize n zero => try_resize inline_capacity b n zero
  | TryEnsureCapacity n => try_ensure_capacity inline_capacity b n
  | GetBytesForWriting n => ' (b, _) ← get_bytes_for_writing inline_capacity b n; kret b
  | Trim n => trim inline_capacity b n false
  | Clear => kret (clear inline_capacity b)
  | Overwrite offset data => overwrite b offset data
  | ZeroFill => zero_fill b
  | Slice offset n => slice inline_capacity b offset n
  | Move => ' (b, _) ← move_from inline_capacity b; kret b
  | Copy => copy_construct inline_capacity b
  | AssignFrom data => other ← copy inline_capacity data; assign inline_capacity b other
  end.

(** The same on a list of bytes *)
Definition spec (o : op) (l : list (option Z)) : outcome (list (option Z)) :=
  let size := Z.of_nat (length l) in
  match o with
  | TryAppend data => Ok (l ++ data)
  | TryAppendByte byte => Ok (l ++ [Some byte])
  | TryResize n zero => Ok (resized l n zero)
  | TryEnsureCapacity _ | Move | Copy => Ok l
  | GetBytesForWriting n => Ok (l ++ replicate (Z.to_nat n) None)
  | Trim n => if n <=? size then Ok (take (Z.to_nat n) l) else Panic
  | Clear => Ok []
  | Overwrite offset data => if offset + Z.of_nat (length data) <=? size then Ok (take (Z.to_nat offset) l ++ data ++ drop (Z.to_nat offset + length data) l) else Panic
  | ZeroFill => Ok (replicate (length l) (Some 0))
  | Slice offset n => if offset + n <=? size then Ok (take (Z.to_nat n) (drop (Z.to_nat offset) l)) else Panic
  | AssignFrom data => Ok data
  end.

(** The arguments of an operation are sizes, and what it can add to the size *)
Definition sizes_ok (o : op) : Prop :=
  match o with
  | TryResize n _ | TryEnsureCapacity n | GetBytesForWriting n | Trim n => 0 <= n
  | Overwrite offset _ => 0 <= offset
  | Slice offset n => 0 <= offset /\ 0 <= n
  | _ => True
  end.
Definition added (o : op) : Z :=
  match o with
  | TryAppend data | AssignFrom data => Z.of_nat (length data)
  | TryAppendByte _ => 1
  | TryResize n _ | TryEnsureCapacity n | GetBytesForWriting n | Trim n => n
  | Overwrite offset data => offset + Z.of_nat (length data)
  | Slice offset n => offset + n
  | _ => 0
  end.

Definition step_ok (o : op) (s : list (option Z)) (h : Heap) (r : outcome ByteBuffer) : Prop :=
  match r with
  | Ok b' => wf b' /\ exists s', spec o s = Ok s' /\ agrees s' (contents b')
  | Err e => e = ENOMEM /\ failing h
  | Panic => spec o s = Panic \/ failing h
  end.

(** An operation whose result agrees with what the list of the buffer's own bytes becomes *)
Lemma step_spec o s b h b' l : agrees s (contents b) -> wf b' ->
  (forall s, agrees s (contents b) -> exists s', spec o s = Ok s' /\ agrees s' l) -> agrees l (contents b') -> step_ok o s h (Ok b').
Proof using. intros Ha Hw Hs Hl. split; [done|]. destruct (Hs s Ha) as (s' & E & Hs'). exists s'. split; [done|]. eapply agrees_trans; eauto. Qed.

Ltac spec_list := intros ? ?Ha; eexists; split; [reflexivity|]; auto.

Lemma step_append data b s h : wf b -> agrees s (contents b) -> m_size b + Z.of_nat (length data) <= 2 ^ 63 -> wp (step (TryAppend data) b) h (fun r _ => step_ok (TryAppend data) s h r).
Proof.
  intros Hb Ha Hn. cbn [step]. destruct data as [|x data].
  - unfold try_append. wp_step; [|done]. wp_step. apply (step_spec _ _ b _ _ (contents b ++ [])); [done|done|spec_list|]. rewrite app_nil_r. auto.
  - eapply wp_mono; [by apply append_wp|]. intros [b'|e|] h'; [|intros (? & ? & _); done|done]. intros (Hw & _ & Hc & _). apply (step_spec _ _ b _ _ (contents b ++ x :: data)); [done|done|spec_list|done].
Qed.

Lemma step_append_byte x b s h : wf b -> agrees s (contents b) -> m_size b < 2 ^ 63 -> wp (step (TryAppendByte x) b) h (fun r _ => step_ok (TryAppendByte x) s h r).
Proof.
  intros Hb Ha Hn. cbn [step]. eapply wp_mono; [by apply append_byte_wp|]. intros [b'|e|] h'; [|intros (? & ? & _); done|done]. intros (Hw & _ & Hc & _). apply (step_spec _ _ b _ _ (contents b ++ [Some x])); [done|done|spec_list|done].
Qed.

Lemma step_resize n zero b s h : wf b -> agrees s (contents b) -> 0 <= n <= 2 ^ 63 -> wp (step (TryResize n zero) b) h (fun r _ => step_ok (TryResize n zero) s h r).
Proof.
  intros Hb Ha Hn. cbn [step]. eapply wp_mono; [by apply resize_wp|]. intros [b'|e|] h'; [|intros (? & ? & _); done|done]. intros (Hw & _ & Hc & _).
  apply (step_spec _ _ b _ _ (resized (contents b) n zero)); [done|done|intros ? ?; eexists; split; [reflexivity|by apply resized_agrees]|done].
Qed.

Lemma step_ensure n b s h : wf b -> agrees s (contents b) -> 0 <= n <= 2 ^ 63 -> wp (step (TryEnsureCapacity n) b) h (fun r _ => step_ok (TryEnsureCapacity n) s h r).
Proof.
  intros Hb Ha Hn. cbn [step]. eapply wp_mono; [by apply ensure_capacity_wp|]. intros [b'|e|] h'; [|intros (? & ? & _); done|done]. intros (Hw & Hc & _). apply (step_spec _ _ b _ _ (contents b)); [done|done|spec_list|rewrite Hc; auto].
Qed.

Lemma step_get_bytes n b s h : wf b -> agrees s (contents b) -> 0 <= n -> m_size b + n <= 2 ^ 63 -> wp (step (GetBytesForWriting n) b) h (fun r _ => step_ok (GetBytesForWriting n) s h r).
Proof.
  intros Hb Ha Hn Hs. pose proof (contents_length b Hb) as Hl. pose proof Hb as [Hsz _]. cbn [step]. unfold get_bytes_for_writing, wrap. rewrite Z.mod_small by lia. wp_step. wp_step. eapply wp_mono; [apply resize_wp; [done|lia]|].
  intros [b'|e|] h'; [|intros (? & ? & _); done|done]. intros (Hw & _ & Hc & _). wp_step. wp_step. apply (step_spec _ _ b _ _ (contents b ++ replicate (Z.to_nat n) None)); [done|done|spec_list|]. eapply agrees_trans; [|exact Hc]. unfold resized.
  destruct (Z.leb_spec (m_size b + n) (Z.of_nat (length (contents b)))).
  - assert (n = 0) as -> by lia. rewrite take_ge, app_nil_r by lia. auto.
  - replace (Z.to_nat (m_size b + n) - length (contents b))%nat with (Z.to_nat n) by lia. auto.
Qed.

Lemma step_trim n b s h : wf b -> agrees s (contents b) -> 0 <= n -> wp (step (Trim n) b) h (fun r _ => step_ok (Trim n) s h r).
Proof using.
  intros Hb Ha Hn. pose proof (contents_length b Hb) as Hl. pose proof (agrees_length _ _ Ha) as Hsl. cbn [step]. eapply wp_mono; [by apply trim_wp|]. intros [b'|e|] h'; [|done|].
  - intros (Hle & Hw & _ & Hc & _). split; [done|]. cbn [spec]. rewrite (proj2 (Z.leb_le _ _)) by lia. eexists. split; [done|]. rewrite Hc by done. auto.
  - intros Hlt. left. cbn [spec]. rewrite (proj2 (Z.leb_gt _ _)) by lia. done.
Qed.

Lemma step_overwrite offset data b s h : wf b -> agrees s (contents b) -> 0 <= offset -> offset + Z.of_nat (length data) <= 2 ^ 63 ->
  wp (step (Overwrite offset data) b) h (fun r _ => step_ok (Overwrite offset data) s h r).
Proof using.
  intros Hb Ha Ho Hn. pose proof (contents_length b Hb) as Hl. pose proof (agrees_length _ _ Ha) as Hsl. cbn [step]. unfold overwrite, wp, VERIFY, wrap. rewrite Z.mod_small by lia. cbn [kbind M_monad lift].
  destruct (Z.leb_spec (offset + Z.of_nat (length data)) (m_size b)) as [Hle|Hlt].
  - destruct (write_ok b offset data Hb Ho Hle) as (b' & E & Hw & _ & _ & Hc). rewrite E. split; [done|]. cbn [spec]. rewrite (proj2 (Z.leb_le _ _)) by lia. eexists. split; [done|]. rewrite Hc. auto.
  - left. cbn [spec]. rewrite (proj2 (Z.leb_gt _ _)) by lia. done.
Qed.

Lemma step_slice offset n b s h : wf b -> agrees s (contents b) -> 0 <= offset -> 0 <= n -> offset + n <= 2 ^ 63 -> wp (step (Slice offset n) b) h (fun r _ => step_ok (Slice offset n) s h r).
Proof.
  intros Hb Ha Ho Hn Hs. pose proof (contents_length b Hb) as Hl. pose proof (agrees_length _ _ Ha) as Hsl. pose proof Hb as [Hsz _]. cbn [step]. unfold slice, wrap. rewrite Z.mod_small by lia.
  destruct (Z.leb_spec (offset + n) (m_size b)) as [Hle|Hlt]; [|left; cbn [spec]; rewrite (proj2 (Z.leb_gt _ _)) by lia; done].
  wp_step. apply wp_VERIFY; [done|]. wp_step. wp_step. unfold read. rewrite !(proj2 (Z.leb_le _ _)) by lia. cbn [andb kret outcome_monad].
  assert (E : take (Z.to_nat n) (drop (Z.to_nat offset) (storage b)) = take (Z.to_nat n) (drop (Z.to_nat offset) (contents b))) by (unfold contents; rewrite skipn_firstn_comm, take_take; f_equal; lia).
  rewrite E. eapply wp_mono; [apply copy_wp; rewrite length_take; lia|]. intros [b'|e|] h'; [|intros (? & ? & _); done|done]. intros (Hw & Hc & _). split; [done|]. cbn [spec]. rewrite (proj2 (Z.leb_le _ _)) by lia.
  eexists. split; [done|]. rewrite Hc. auto.
Qed.

Lemma step_clear b s h : wf b -> wp (step Clear b) h (fun r _ => step_ok Clear s h r).
Proof using.
  intros [Hs Hi]. cbn [step]. wp_step. split; [|exists []; done]. split; cbn; [lia|]. intros _. destruct (m_inline b); [auto|apply length_replicate].
Qed.

Lemma step_zero_fill b s h : wf b -> agrees s (contents b) -> wp (step ZeroFill b) h (fun r _ => step_ok ZeroFill s h r).
Proof using.
  intros Hb Ha. cbn [step]. unfold zero_fill. wp_step. destruct (zero_fill_ok b Hb) as (b' & E & Hw & _ & Hc). rewrite E. split; [done|]. eexists. split; [reflexivity|]. rewrite Hc.
  replace (Z.to_nat (m_size b)) with (length s); [auto|]. rewrite (agrees_length _ _ Ha). pose proof (contents_length b Hb). lia.
Qed.

Lemma step_move b s h : wf b -> agrees s (contents b) -> wp (step Move b) h (fun r _ => step_ok Move s h r).
Proof using.
  intros Hb Ha. pose proof (contents_length b Hb) as Hl. pose proof Hb as [Hs Hi]. cbn [step]. unfold move_from. wp_step. wp_step; bool_hyps.
  - wp_step. wp_step. split; [split; cbn; [done|done]|]. exists s. done.
  - wp_step. apply wp_VERIFY; [apply Z.leb_le; rewrite <- Hi by done; lia|]. wp_step. wp_step. assert (Hp : length (padded (contents b) inline_capacity) = inline_capacity) by (unfold padded; rewrite length_app, length_replicate; rewrite Hi in Hs by done; lia).
    split; [split; cbn [m_size storage m_inline]; [rewrite Hp; rewrite Hi in Hs by done; lia|done]|]. exists s. split; [done|]. unfold contents at 1, padded. cbn [m_size storage]. rewrite take_app_le, take_ge by lia. done.
Qed.

(** Bytes written over the whole of a buffer of their length *)
Lemma write_all b data : wf b -> m_size b = Z.of_nat (length data) -> exists b', write b 0 data = Ok b' /\ wf b' /\ contents b' = data.
Proof using.
  intros Hb Hm. destruct (write_ok b 0 data Hb ltac:(lia) ltac:(lia)) as (b' & E & Hw & _ & _ & Hc). exists b'. split_and!; try done. rewrite Hc. pose proof (contents_length b Hb). cbn [Z.to_nat take app]. rewrite drop_ge, app_nil_r by lia. done.
Qed.

Lemma step_copy b s h : wf b -> agrees s (contents b) -> m_size b <= 2 ^ 63 -> wp (step Copy b) h (fun r _ => step_ok Copy s h r).
Proof.
  intros Hb Ha Hn. pose proof Hb as [Hs _]. cbn [step]. unfold copy_construct. wp_step. apply must_wp. eapply wp_mono; [apply resize_wp; [apply wf_new|lia]|]. intros [b1|e|] h'; [|intros (? & ? & _); by right|done].
  intros (Hw & Hm & _). wp_step. apply wp_VERIFY; [by apply Z.eqb_eq|]. wp_step. destruct (write_all b1 (contents b) Hw ltac:(by rewrite contents_length)) as (b' & E & Hw' & Hc). rewrite E. split; [done|]. exists s. rewrite Hc. done.
Qed.

Lemma step_assign data b s h : wf b -> Z.of_nat (length data) <= 2 ^ 63 -> wp (step (AssignFrom data) b) h (fun r _ => step_ok (AssignFrom data) s h r).
Proof.
  intros Hb Hn. cbn [step]. wp_step. eapply wp_mono; [by apply copy_wp|]. intros [other|e|] h'; [|intros (? & ? & _); done|done]. intros (Ho & Hc & _ & Hf).
  pose proof (contents_length other Ho) as Hl. rewrite Hc in Hl. pose proof Ho as [Hs _]. unfold assign. rewrite Hc. wp_step. assert (Hend : forall b1, wf b1 -> m_size b1 = m_size other -> step_ok (AssignFrom data) s h (write b1 0 data)).
  { intros b1 H1 Hm. destruct (write_all b1 data H1 ltac:(lia)) as (b' & E & Hw' & Hd). rewrite E. split; [done|]. exists data. rewrite Hd. auto. }
  wp_step; bool_hyps.
  - eapply wp_mono; [apply trim_wp; [done|lia]|]. intros [b1|e|] h1; [|done|lia]. intros (_ & Hw & Hm & _). wp_step. by apply Hend.
  - apply must_wp. eapply wp_mono; [apply resize_wp; [done|lia]|]. intros [b1|e|] h1; [|intros (? & ? & _); right; auto|done]. intros (Hw & Hm & _). wp_step. by apply Hend.
Qed.

(** Computations only use up outcomes. *)
Definition shrinks {A} (m : M Heap A) : Prop := forall h, outcomes (m h).2 `suffix_of` outcomes h.

Lemma shrinks_failing {A} (m : M Heap A) h : shrinks m -> failing (m h).2 -> failing h.
Proof using. intros Hm. destruct (Hm h) as [used E]. unfold failing. rewrite E. set_solver. Qed.

Lemma shrinks_bind {A B} (m : M Heap A) (f : A -> M Heap B) : shrinks m -> (forall a, shrinks (f a)) -> shrinks (kbind m f).
Proof using. intros Hm Hf h. specialize (Hm h). cbn. destruct (m h) as [[a|e|] h']; cbn in *; [etransitivity; [apply (Hf a)|done]|done|done]. Qed.
Lemma shrinks_kret {A} (a : A) : shrinks (kret a).
Proof using. by intros h. Qed.
Lemma shrinks_fail {A} e : shrinks (fail (A := A) e).
Proof using. by intros h. Qed.
Lemma shrinks_lift {A} (o : outcome A) : shrinks (lift o).
Proof using. by intros h. Qed.
Lemma shrinks_VERIFY c : shrinks (VERIFY c).
Proof using. intros h. unfold VERIFY. by destruct c. Qed.
Lemma shrinks_MUST {A} (m : M Heap A) : shrinks m -> shrinks (MUST m).
Proof using. intros Hm h. specialize (Hm h). unfold MUST. by destruct (m h) as [[a|e|] h']. Qed.
Lemma shrinks_kmalloc n : shrinks (kmalloc n).
Proof using. intros h. unfold kmalloc. destruct (outcomes h) as [|o rest]; [done|]. cbn. by exists [o]. Qed.
#[local] Hint Resolve shrinks_kret shrinks_fail shrinks_lift shrinks_VERIFY shrinks_kmalloc : shrinks.

Ltac shrink := repeat first [ apply shrinks_bind; [|intros ?] | apply shrinks_MUST | solve [auto with shrinks] | match goal with |- shrinks (if ?c then _ else _) => destruct c | |- shrinks (let '(_, _) := ?p in _) => destruct p end ].

Lemma step_shrinks o b : shrinks (step o b).
Proof using.
  destruct o; cbn [step]; unfold try_append, try_append_byte, get_bytes_for_writing, overwrite, zero_fill, slice, move_from, copy_construct, assign, copy, create_uninitialized, try_resize, try_ensure_capacity, try_ensure_capacity_slowpath, trim; shrink.
Qed.

(** A client that goes on after a failed operation: the buffer in the end, and which operations succeeded *)
Fixpoint run (ops : list op) (b : ByteBuffer) (h : Heap) : outcome (ByteBuffer * list bool) :=
  match ops with
  | [] => Ok (b, [])
  | o :: ops =>
      match step o b h with
      | (Ok b, h) => ' (b, flags) ← run ops b h; kret (b, true :: flags)
      | (Err _, h) => ' (b, flags) ← run ops b h; kret (b, false :: flags)
      | (Panic, _) => Panic
      end
  end.

(** The same on lists: the operations that did not succeed change nothing. *)
Fixpoint spec_run (ops : list op) (flags : list bool) (l : list (option Z)) : outcome (list (option Z)) :=
  match ops, flags with
  | o :: ops, flag :: flags => l ← (if flag : bool then spec o l else Ok l); spec_run ops flags l
  | _, _ => Ok l
  end.

Lemma step_refines o b s h : wf b -> agrees s (contents b) -> sizes_ok o -> m_size b + added o <= 2 ^ 63 -> wp (step o b) h (fun r _ => step_ok o s h r).
Proof.
  intros Hb Ha Hs Hn. pose proof Hb as [Hsz _]. destruct o; cbn [sizes_ok added] in *; eauto using step_clear, step_zero_fill, step_move.
  - by apply step_append.
  - apply step_append_byte; [done|done|lia].
  - apply step_resize; [done|done|lia].
  - apply step_ensure; [done|done|lia].
  - by apply step_get_bytes.
  - by apply step_trim.
  - apply step_overwrite; [done|done|done|lia].
  - apply step_slice; [done|done|lia..].
  - apply step_copy; [done|done|lia].
  - apply step_assign; [done|lia].
Qed.

Lemma added_nonneg o : sizes_ok o -> 0 <= added o.
Proof using. destruct o; cbn; lia. Qed.

Lemma spec_size o s s' : sizes_ok o -> spec o s = Ok s' -> Z.of_nat (length s') <= Z.of_nat (length s) + added o.
Proof using.
  intros Hs. destruct o; cbn [spec added sizes_ok] in *; try (intros [= <-]; rewrite ?length_app, ?length_replicate; cbn; lia).
  - intros [= <-]. unfold resized. destruct (Z.leb_spec n (Z.of_nat (length s))); rewrite ?length_take, ?length_app, ?length_replicate; lia.
  - destruct (_ <=? _); intros [= <-]. rewrite length_take. lia.
  - destruct (Z.leb_spec (offset + Z.of_nat (length data)) (Z.of_nat (length s))); intros [= <-]. rewrite !length_app, length_take, length_drop. lia.
  - destruct (_ <=? _); intros [= <-]. rewrite length_take, length_drop. lia.
Qed.

Definition total_added (ops : list op) : Z := foldr (fun o n => added o + n) 0 ops.

Lemma run_refines ops : forall b s h, wf b -> agrees s (contents b) -> Forall sizes_ok ops -> m_size b + total_added ops <= 2 ^ 63 ->
  match run ops b h with
  | Ok (b', flags) => wf b' /\ length flags = length ops /\ (failing h \/ flags = replicate (length ops) true) /\ exists l, spec_run ops flags s = Ok l /\ agrees l (contents b')
  | Err _ => False
  | Panic => failing h \/ spec_run ops (replicate (length ops) true) s = Panic
  end.
Proof.
  induction ops as [|o ops IH]; intros b s h Hb Ha Hs Hn; [cbn; split_and!; eauto|]. apply Forall_cons in Hs as [Ho Hs]. cbn [total_added foldr] in Hn. change (foldr _ 0 ops) with (total_added ops) in Hn.
  assert (Ht : 0 <= total_added ops) by (clear - Hs; induction Hs as [|o ops Ho _ IH]; [done|]; cbn; pose proof (added_nonneg o Ho); unfold total_added in IH; lia).
  pose proof (added_nonneg o Ho) as Hp. pose proof (step_refines o b s h Hb Ha Ho ltac:(lia)) as Hst. pose proof (shrinks_failing _ h (step_shrinks o b)) as Hsh. unfold wp in Hst. cbn [run length replicate]. destruct (step o b h) as [[b1|e|] h1]; cbn [fst snd step_ok] in *.
  - destruct Hst as (Hw & s1 & Es & Ha1). assert (Hm1 : m_size b1 + total_added ops <= 2 ^ 63).
    { pose proof (spec_size o s s1 Ho Es). pose proof (contents_length b1 Hw). pose proof (contents_length b Hb). rewrite (agrees_length _ _ Ha), (agrees_length _ _ Ha1) in *. lia. }
    specialize (IH b1 s1 h1 Hw Ha1 Hs Hm1). destruct (run ops b1 h1) as [[b' flags]|e|]; cbn [kbind kret outcome_monad]; [|done|].
    + destruct IH as (H1 & H2 & H3 & l & H4 & H5). split_and!; [done|cbn; lia|destruct H3 as [H3 | ->]; [left; auto|by right]|]. exists l. cbn [spec_run]. rewrite Es. done.
    + cbn [spec_run]. rewrite Es. destruct IH as [IH|IH]; [left; auto|by right].
  - destruct Hst as [-> Hf]. assert (Hm1 : m_size b + total_added ops <= 2 ^ 63) by lia. specialize (IH b s h1 Hb Ha Hs Hm1). destruct (run ops b h1) as [[b' flags]|e|]; cbn [kbind kret outcome_monad]; [|done|by left].
    destruct IH as (H1 & H2 & _ & l & H4 & H5). split_and!; [done|cbn; lia|by left|]. exists l. done.
  - destruct Hst as [E|Hf]; [right|by left]. cbn [spec_run]. by rewrite E.
Qed.

(** ** Growth *)
(** Bytes appended one at a time *)
Fixpoint append_bytes (bytes : list Z) (b : ByteBuffer) : M Heap ByteBuffer :=
  match bytes with
  | [] => kret b
  | x :: bytes => b ← try_append_byte inline_capacity b x; append_bytes bytes b
  end.

(** The capacity after so many allocations *)
Definition enlarged (k : nat) : Z := Nat.iter k (fun c => c * 3 / 2) (Z.of_nat inline_capacity).

Lemma enlarged_double k : (2 <= inline_capacity)%nat -> Z.of_nat inline_capacity * 2 ^ Z.of_nat (k / 2) <= enlarged k.
Proof using.
  intros Hc. assert (Hge : forall j, 2 <= enlarged j) by (induction j as [|j IH]; [cbn; lia|]; change (enlarged (S j)) with (enlarged j * 3 / 2); apply Z.div_le_lower_bound; lia).
  assert (H2 : forall j, 2 * enlarged j <= enlarged (S (S j))).
  { intros j. change (enlarged (S (S j))) with (enlarged j * 3 / 2 * 3 / 2). pose proof (Hge j). pose proof (Z.div_mod (enlarged j * 3) 2 ltac:(lia)). pose proof (Z.mod_pos_bound (enlarged j * 3) 2 ltac:(lia)).
    pose proof (Z.div_mod (enlarged j * 3 / 2 * 3) 2 ltac:(lia)). pose proof (Z.mod_pos_bound (enlarged j * 3 / 2 * 3) 2 ltac:(lia)). lia. }
  assert (Hboth : Z.of_nat inline_capacity * 2 ^ Z.of_nat (k / 2) <= enlarged k /\ Z.of_nat inline_capacity * 2 ^ Z.of_nat (S k / 2) <= enlarged (S k)); [|apply Hboth].
  induction k as [|k [IH1 IH2]].
  - split; [cbn; lia|]. cbn [Nat.div Nat.divmod fst]. change (enlarged 1) with (Z.of_nat inline_capacity * 3 / 2). change (Z.of_nat 0) with 0. rewrite Z.pow_0_r. apply Z.div_le_lower_bound; lia.
  - split; [done|]. replace (S (S k) / 2)%nat with (S (k / 2)) by (replace (S (S k)) with (k + 1 * 2)%nat by lia; rewrite Nat.div_add by lia; lia). rewrite Nat2Z.inj_succ, Z.pow_succ_r by lia. pose proof (H2 k). nia.
Qed.

Definition few_allocations (b : ByteBuffer) (h : Heap) : Prop :=
  enlarged (allocations h) <= cap b /\ (forall k, allocations h = S k -> enlarged k < m_size b).

Lemma append_bytes_grows bytes : forall b h, wf b -> outcomes h = [] -> few_allocations b h -> m_size b + Z.of_nat (length bytes) <= 2 ^ 62 ->
  wp (append_bytes bytes b) h (fun r h' => exists b', r = Ok b' /\ wf b' /\ agrees (contents b ++ map Some bytes) (contents b') /\ m_size b' = m_size b + Z.of_nat (length bytes) /\ few_allocations b' h').
Proof.
  induction bytes as [|x bytes IH]; intros b h Hb Ho [Hf1 Hf2] Hn; cbn [append_bytes].
  - wp_step. exists b. rewrite app_nil_r. cbn [length]. split_and!; [done|done|auto|lia|done].
  - cbn [length] in Hn. pose proof (capacity_wf b Hb) as Ec. pose proof Hb as [Hs _]. wp_step. apply wp_intro. intros r h1 E. assert (Hk : outcomes h1 = []).
    { pose proof (step_shrinks (TryAppendByte x) b h) as S. cbn [step] in S. rewrite E, Ho in S. cbn in S. by apply suffix_nil_inv in S. }
    pose proof (append_byte_wp b x h Hb ltac:(lia)) as W. unfold wp in W. rewrite E in W. cbn [fst snd] in W. destruct r as [b1|e|]; [|destruct W as (_ & F & _); unfold failing in F; rewrite Ho in F; by apply elem_of_nil in F|done].
    destruct W as (Hw & Hm & Ha & G1 & G2 & G3). eapply wp_mono; [apply IH; [done|done| |lia]|].
    + destruct (G3 ltac:(lia)) as [Hcb Hal]. destruct (Z.lt_ge_cases (cap b) (m_size b + 1)) as [Hlt|Hge].
      * destruct (Hal Hlt) as [Ek Hc]. split; rewrite Ek.
        -- change (enlarged (S (allocations h))) with (enlarged (allocations h) * 3 / 2). unfold wrap in Hc. rewrite Z.mod_small in Hc by lia. etransitivity; [|exact Hc]. apply Z.div_le_mono; lia.
        -- intros k [= <-]. lia.
      * rewrite (G1 ltac:(lia)). split; [lia|]. intros k Hk'. specialize (Hf2 k Hk'). lia.
    + intros r h' (b' & -> & H1 & H2 & H3 & H4). exists b'. split_and!; [done|done| |cbn [length]; lia|done]. eapply agrees_trans; [|exact H2]. cbn [map]. change (Some x :: map Some bytes) with ([Some x] ++ map Some bytes). rewrite app_assoc. auto.
Qed.

Lemma agrees_known bytes l : agrees (map Some bytes) l -> l = map Some bytes.
Proof using. revert l. induction bytes as [|x bytes IH]; intros l Ha; inversion Ha as [|? y ? ? Hy Hr]; [done|]. cbn. destruct Hy as [Hy|<-]; [done|]. f_equal. by apply IH. Qed.
End refinement.



(** C38: Appending bytes one at a time allocates a logarithmic number of times: with room for at least two bytes inside
    the object, [k] allocations take more than [inline_capacity * 2 ^ ((k - 1) / 2)] bytes, whatever sizes the
    allocator rounds to; when no allocation fails all bytes are appended. *)
Theorem bytebuffer_growth {G : GoodSize} (inline_capacity : nat) (bytes : list Z) : (2 <= inline_capacity)%nat -> Z.of_nat (length bytes) <= 2 ^ 62 ->
  exists b h, append_bytes inline_capacity bytes (ByteBuffer_new inline_capacity) (mkHeap [] 0) = (Ok b, h) /\ contents b = map Some bytes
    /\ forall k, allocations h = S k -> Z.of_nat inline_capacity * 2 ^ Z.of_nat (k / 2) < Z.of_nat (length bytes).
Proof.
  intros Hc Hn. destruct (wf_new inline_capacity) as [Hw Hcon]. pose proof (append_bytes_grows inline_capacity bytes _ (mkHeap [] 0) Hw eq_refl ltac:(split; [cbn; lia|done]) ltac:(cbn; lia)) as H.
  unfold wp in H. destruct (append_bytes _ _ _ _) as [r h]. cbn [fst snd] in H. destruct H as (b & -> & _ & Ha & Hm & _ & Hf). exists b, h. split; [done|]. rewrite Hcon in Ha. split; [by apply agrees_known|].
  intros k Hk. specialize (Hf k Hk). cbn in Hm. pose proof (enlarged_double inline_capacity k Hc). lia.
Qed.

Lemma bytebuffer_growth_witness :
  (exists b h, append_bytes 32 (replicate 1000 7) (ByteBuffer_new 32) (mkHeap [] 0) = (Ok b, h) /\ contents b = map Some (replicate 1000 7)
    /\ forall k, allocations h = S k -> Z.of_nat 32 * 2 ^ Z.of_nat (k / 2) < Z.of_nat (length (replicate 1000 7)))
  /\ allocations (append_bytes (G := host_good_size) 32 (replicate 1000 7) (ByteBuffer_new 32) (mkHeap [] 0)).2 = 9%nat.
Proof. split; [apply (bytebuffer_growth 32); [lia|rewrite length_replicate; lia]|vm_compute; reflexivity]. Defined.
