(* ===== verification/AEAD.v ===== *)
(** * ChaCha20Poly1305: Userland/Libraries/LibCrypto/AEAD/ChaCha20Poly1305.cpp and ChaCha20Poly1305.h

    Authenticated encryption put together from ChaCha20.v, Poly1305.v and ByteBuffer.v, with the
    allocations of the buffers: the ciphertext may fail to be allocated with an error, the buffers that
    are reserved with [ensure_capacity] must not.  The theorems give the output for all inputs and all
    patterns of failing allocations, and say what a receiver can conclude from [verify_tag]. *)
From S2P Require Import Prelude MemMem BigIntBase Poly1305 ChaCha20 ByteBuffer.

Local Open Scope Z_scope.

(** ByteBuffer, the one with 32 bytes inside the object *)
#[local] Notation inline_capacity := 32%nat.

Record ChaCha20Poly1305 := mkAEAD { m_key : ByteBuffer; m_nonce : ByteBuffer }.

(** The bytes of a buffer; reading one that was never written counts as a failure. *)
Fixpoint known (bytes : list (option Z)) : outcome (list Z) :=
  match bytes with
  | [] => kret []
  | Some x :: bytes => rest ← known bytes; kret (x :: rest)
  | None :: _ => Panic
  end.

Definition pad_to_16 (size : Z) : Z := wrap 8 (16 - size mod 16).

(** A 64-bit number in little-endian order *)
Definition long_bytes (x : Z) : list Z := word_bytes (x mod 2 ^ 32) ++ word_bytes (x / 2 ^ 32).

Section AEAD.
Context {G : GoodSize}.

Definition ChaCha20Poly1305_new (key nonce : list Z) : M Heap ChaCha20Poly1305 :=
  k ← MUST (copy inline_capacity (map Some key));
  n ← MUST (copy inline_capacity (map Some nonce));
  kret (mkAEAD k n).

Definition new_cipher (a : ChaCha20Poly1305) (counter : Z) : outcome ChaCha20 :=
  key ← known (contents (m_key a));
  nonce ← known (contents (m_nonce a));
  ChaCha20_new key nonce counter.

Definition poly1305_key (a : ChaCha20Poly1305) : M Heap ByteBuffer :=
  cipher ← lift (new_cipher a 0);
  let state := block_bytes (generate_block cipher) in
  copy inline_capacity (map Some (take 32 state)).

(** [for (size_t i = 0; i < n; ++i) append(0)] *)
Fixpoint append_zeros (n : nat) (b : ByteBuffer) : M Heap ByteBuffer :=
  match n with
  | O => kret b
  | S n => b ← append_byte inline_capacity b 0; append_zeros n b
  end.

(** A placeholder is appended and overwritten with the length. *)
Definition append_length (b : ByteBuffer) (size : Z) : M Heap ByteBuffer :=
  b ← append inline_capacity b (replicate 8 (Some 0));
  lift (write b (m_size b - 8) (map Some (long_bytes size))).

(** The message that is authenticated: the same code in [encrypt] and in [decrypt] *)
Definition make_mac_data (aad ciphertext : list Z) : M Heap ByteBuffer :=
  let aad_size := Z.of_nat (length aad) in
  let ciphertext_size := Z.of_nat (length ciphertext) in
  mac_data ← create_zeroed inline_capacity 0;
  let buffer_size := wrap 64 (aad_size + pad_to_16 aad_size + ciphertext_size + pad_to_16 ciphertext_size + 8 + 8) in
  mac_data ← ensure_capacity inline_capacity mac_data buffer_size;
  mac_data ← append inline_capacity mac_data (map Some aad);
  mac_data ← append_zeros (Z.to_nat (pad_to_16 aad_size)) mac_data;
  mac_data ← append inline_capacity mac_data (map Some ciphertext);
  mac_data ← append_zeros (Z.to_nat (pad_to_16 ciphertext_size)) mac_data;
  mac_data ← append_length mac_data aad_size;
  append_length mac_data ciphertext_size.

(** The Poly1305 function with the one-time key; the digest has sixteen bytes, which fit into the buffer object. *)
Definition make_tag (otk mac_data : ByteBuffer) : outcome (list Z) :=
  key ← known (contents otk);
  message ← known (contents mac_data);
  mac_function ← Poly1305_new key;
  mac_function ← update mac_function message;
  kret (digest mac_function).

(** ChaCha20 with the counter at 1 on a zeroed buffer *)
Definition run_chacha (chacha : ChaCha20) (input : list Z) (buffer : ByteBuffer) : outcome ByteBuffer :=
  output ← known (contents buffer);
  ' (_, output) ← encrypt chacha input output;
  write buffer 0 (map Some output).

(** Text and tag *)
Definition make_result (text tag : list Z) : M Heap ByteBuffer :=
  result ← create_zeroed inline_capacity 0;
  result ← ensure_capacity inline_capacity result (wrap 64 (Z.of_nat (length text) + Z.of_nat (length tag)));
  result ← append inline_capacity result (map Some text);
  append inline_capacity result (map Some tag).

Definition aead_encrypt (a : ChaCha20Poly1305) (aad input_plaintext : list Z) : M Heap ByteBuffer :=
  otk ← poly1305_key a;
  ciphertext_buffer ← create_zeroed inline_capacity (Z.of_nat (length input_plaintext));
  chacha ← lift (new_cipher a 1);
  ciphertext_buffer ← lift (run_chacha chacha input_plaintext ciphertext_buffer);
  ciphertext ← lift (known (contents ciphertext_buffer));
  mac_data ← make_mac_data aad ciphertext;
  tag ← lift (make_tag otk mac_data);
  make_result ciphertext tag.

Definition aead_decrypt (a : ChaCha20Poly1305) (aad ciphertext : list Z) : M Heap ByteBuffer :=
  otk ← poly1305_key a;
  chacha ← lift (new_cipher a 1);
  plaintext_buffer ← create_zeroed inline_capacity (Z.of_nat (length ciphertext));
  plaintext_buffer ← lift (run_chacha chacha ciphertext plaintext_buffer);
  plaintext ← lift (known (contents plaintext_buffer));
  mac_data ← make_mac_data aad ciphertext;
  tag ← lift (make_tag otk mac_data);
  make_result plaintext tag.
End AEAD.

(** [slice_from_end] *)
Definition slice_from_end (bytes : list Z) (count : nat) : outcome (list Z) :=
  if (count <=? length bytes)%nat then kret (drop (length bytes - count) bytes) else Panic.

Definition verify_tag (encrypted decrypted : list Z) : outcome bool :=
  encrypted_tag ← slice_from_end encrypted 16;
  decrypted_tag ← slice_from_end decrypted 16;
  if negb (length encrypted_tag =? length decrypted_tag)%nat then kret false
  else
    let result := foldl Z.lor 0 (zip_with Z.lxor encrypted_tag decrypted_tag) in
    kret (result =? 0).

(** ** Buffers with room *)
Lemma known_some l : known (map Some l) = Ok l.
Proof. induction l as [|x l IH]; [done|]. cbn. by rewrite IH. Qed.

#[local] Opaque keystream chacha_block advance generate_block.

Section AEAD_proofs.
Context {G : GoodSize}.

(** The buffer holds the bytes and has room for [n]. *)
Definition holds (b : ByteBuffer) (l : list Z) (n : Z) : Prop := wf inline_capacity b /\ contents b = map Some l /\ n <= capacity inline_capacity b.

Lemma holds_size b l n : holds b l n -> m_size b = Z.of_nat (length l).
Proof using. intros (Hw & Hc & _). rewrite <- (contents_length _ b Hw), Hc. by rewrite length_map. Qed.

(** Something that does not allocate *)
Definition pure (b' : ByteBuffer -> Prop) (h : Heap) (r : outcome ByteBuffer) (h' : Heap) : Prop := exists b, r = Ok b /\ h' = h /\ b' b.

Lemma append_holds b l d n h : holds b l n -> Z.of_nat (length l) + Z.of_nat (length d) <= n -> n <= 2 ^ 63 ->
  wp (append inline_capacity b (map Some d)) h (pure (fun b => holds b (l ++ d) n) h).
Proof.
  intros Hh Hl Hn. pose proof (holds_size _ _ _ Hh) as Hm. destruct Hh as (Hw & Hc & Hcap). apply must_wp. destruct d as [|x d].
  - unfold try_append. wp_step; [|done]. wp_step. exists b. by rewrite app_nil_r.
  - eapply wp_mono; [apply append_wp; [done|rewrite length_map; lia|done]|]. rewrite length_map. intros [b'|e|] h'; [|intros (_ & _ & ?); lia|done]. intros (Hw' & Hm' & Ha & G1 & G2 & _).
    exists b'. split_and!; [done|apply G1; lia|]. rewrite Hc, <- map_app in Ha. split_and!; [done|by apply agrees_known|rewrite G2; [done|]]. cbn [length] in *. lia.
Qed.

Lemma append_byte_holds b l x n h : holds b l n -> Z.of_nat (length l) + 1 <= n -> n <= 2 ^ 63 ->
  wp (append_byte inline_capacity b x) h (pure (fun b => holds b (l ++ [x]) n) h).
Proof.
  intros Hh Hl Hn. pose proof (holds_size _ _ _ Hh) as Hm. destruct Hh as (Hw & Hc & Hcap). apply must_wp.
  eapply wp_mono; [apply append_byte_wp; [done|lia]|]. intros [b'|e|] h'; [|intros (_ & _ & ?); lia|done]. intros (Hw' & Hm' & Ha & G1 & G2 & _).
  exists b'. split_and!; [done|apply G1; lia|]. rewrite Hc in Ha. change [Some x] with (map Some [x]) in Ha. rewrite <- map_app in Ha. split_and!; [done|by apply agrees_known|rewrite G2; [done|]]. lia.
Qed.

Lemma pure_bind {B} (m : M Heap ByteBuffer) (f : ByteBuffer -> M Heap B) h P Q : wp m h (pure P h) -> (forall b, P b -> wp (f b) h Q) -> wp (kbind m f) h Q.
Proof using. intros Hm Hf. wp_step. eapply wp_mono; [exact Hm|]. intros r h' (b & -> & -> & Hb). by apply Hf. Qed.

Lemma append_zeros_holds k : forall b l n h, holds b l n -> Z.of_nat (length l) + Z.of_nat k <= n -> n <= 2 ^ 63 ->
  wp (append_zeros k b) h (pure (fun b => holds b (l ++ replicate k 0) n) h).
Proof.
  induction k as [|k IH]; intros b l n h Hh Hl Hn; cbn [append_zeros].
  - wp_step. exists b. by rewrite app_nil_r.
  - eapply pure_bind; [apply append_byte_holds; [done|lia|done]|]. intros b1 H1. eapply wp_mono; [apply (IH b1 (l ++ [0]) n h H1); [rewrite length_app; cbn; lia|done]|].
    intros r h' (b' & -> & -> & Hb'). exists b'. rewrite <- app_assoc in Hb'. done.
Qed.

Lemma append_length_holds b l n x h : holds b l n -> Z.of_nat (length l) + 8 <= n -> n <= 2 ^ 63 ->
  wp (append_length b x) h (pure (fun b => holds b (l ++ long_bytes x) n) h).
Proof.
  intros Hh Hl Hn. unfold append_length. change (replicate 8 (Some 0)) with (map Some (replicate 8 0)). eapply pure_bind; [apply append_holds; [done|cbn; lia|done]|]. intros b1 H1. pose proof (holds_size _ _ _ H1) as Hm.
  destruct H1 as (Hw & Hc & Hcap). rewrite length_app in Hm. cbn [length replicate] in Hm. destruct (write_ok _ b1 (m_size b1 - 8) (map Some (long_bytes x)) Hw ltac:(lia)) as (b' & E & Hw' & _ & Hcap' & Hc'); [rewrite length_map; cbn; lia|].
  wp_step. rewrite E. exists b'. split_and!; [done|done|]. split_and!; [done| |lia]. rewrite Hc', Hc, length_map. rewrite map_app. rewrite take_app_le, take_ge by (rewrite length_map; lia).
  rewrite drop_ge, app_nil_r by (rewrite length_app, !length_map; cbn; lia). by rewrite <- map_app.
Qed.

(** A buffer that was reserved *)
Lemma reserved_bind n (f : ByteBuffer -> M Heap ByteBuffer) h Q : 0 <= n <= 2 ^ 63 -> (forall h', failing h -> Q Panic h') ->
  (forall b h', holds b [] n -> (failing h' -> failing h) -> wp (f b) h' Q) ->
  wp (b ← create_zeroed inline_capacity 0; b ← ensure_capacity inline_capacity b n; f b) h Q.
Proof.
  intros Hn HP Hf. wp_step. eapply wp_mono; [apply create_zeroed_wp; lia|]. intros [b|e|] h'; [|intros (_ & _ & ?); lia|done]. intros (Hw & Hc & Hh & _). rewrite (Hh ltac:(lia)). wp_step. apply must_wp.
  eapply wp_mono; [by apply ensure_capacity_wp|]. intros [b'|e|] h1; [|intros (_ & ? & _); auto|done]. intros (Hw' & Hc' & _ & Hl & _ & _ & _ & Hg). apply Hf; [|done]. split_and!; [done|by rewrite Hc', Hc|]. by rewrite capacity_wf.
Qed.

(** ** What is computed *)
Definition mac_message (aad ciphertext : list Z) : list Z :=
  aad ++ replicate (Z.to_nat (pad_to_16 (Z.of_nat (length aad)))) 0 ++ ciphertext ++ replicate (Z.to_nat (pad_to_16 (Z.of_nat (length ciphertext)))) 0
  ++ long_bytes (Z.of_nat (length aad)) ++ long_bytes (Z.of_nat (length ciphertext)).

(** ChaCha20 from block 1 *)
Definition chacha_text (key nonce input : list Z) : list Z := imap (fun i x => Z.lxor x (keystream (initial_state key nonce 1) i)) input.

(** The first half of block 0 *)
Definition one_time_key (key nonce : list Z) : list Z := take 32 (concat (map word_bytes (chacha_block (initial_state key nonce 0)))).

(** The sixteen bytes of the Poly1305 number *)
Definition aead_tag (key nonce aad ciphertext : list Z) : list Z := map (digit 8 (mac_number (one_time_key key nonce) (mac_message aad ciphertext))) (seq 0 16).

Lemma pad_range n : 1 <= pad_to_16 n <= 16.
Proof using. unfold pad_to_16, wrap. pose proof (Z.mod_pos_bound n 16 ltac:(lia)). rewrite Z.mod_small by lia. lia. Qed.

Lemma make_mac_data_wp aad ciphertext h : Z.of_nat (length aad) + Z.of_nat (length ciphertext) <= 2 ^ 62 ->
  wp (make_mac_data aad ciphertext) h (fun r h' => match r with
    | Ok b => contents b = map Some (mac_message aad ciphertext) /\ (failing h' -> failing h)
    | Err _ => False
    | Panic => failing h end).
Proof.
  intros Hs. unfold make_mac_data. pose proof (pad_range (Z.of_nat (length aad))) as P1. pose proof (pad_range (Z.of_nat (length ciphertext))) as P2. unfold mac_message. set (p1 := pad_to_16 _) in *. set (p2 := pad_to_16 (Z.of_nat (length ciphertext))) in *. clearbody p1 p2.
  set (n := Z.of_nat (length aad) + p1 + Z.of_nat (length ciphertext) + p2 + 8 + 8). assert (En : wrap 64 n = n) by (apply Z.mod_small; lia). rewrite En.
  apply reserved_bind; [lia|done|]. intros b h1 Hh Hf.
  eapply pure_bind; [eapply (append_holds _ [] aad n); [exact Hh|cbn; lia|lia]|]. clear b Hh. intros b Hh. cbn [app] in Hh.
  eapply pure_bind; [eapply (append_zeros_holds _ _ _ n); [exact Hh|lia|lia]|]. clear b Hh. intros b Hh.
  eapply pure_bind; [eapply (append_holds _ _ _ n); [exact Hh|rewrite length_app, length_replicate; lia|lia]|]. clear b Hh. intros b Hh.
  eapply pure_bind; [eapply (append_zeros_holds _ _ _ n); [exact Hh|rewrite !length_app, length_replicate; lia|lia]|]. clear b Hh. intros b Hh.
  eapply pure_bind; [eapply (append_length_holds _ _ n); [exact Hh|rewrite !length_app, !length_replicate; lia|lia]|]. clear b Hh. intros b Hh.
  eapply wp_mono; [eapply (append_length_holds _ _ n); [exact Hh|rewrite !length_app, !length_replicate; cbn [length long_bytes word_bytes app]; lia|lia]|].
  intros r h' (b' & -> & -> & _ & Hc & _). split; [|done]. rewrite Hc. by rewrite <- !app_assoc.
Qed.

Lemma make_result_wp text tag h : Z.of_nat (length text) + Z.of_nat (length tag) <= 2 ^ 63 ->
  wp (make_result text tag) h (fun r h' => match r with
    | Ok b => contents b = map Some (text ++ tag)
    | Err _ => False
    | Panic => failing h end).
Proof.
  intros Hs. unfold make_result. set (n := Z.of_nat (length text) + Z.of_nat (length tag)) in *. assert (En : wrap 64 n = n) by (apply Z.mod_small; lia). rewrite En.
  apply reserved_bind; [lia|done|]. intros b h1 Hh Hf.
  eapply pure_bind; [eapply (append_holds _ [] text n); [exact Hh|cbn; lia|lia]|]. clear b Hh. intros b Hh. cbn [app] in Hh.
  eapply wp_mono; [eapply (append_holds _ _ tag n); [exact Hh|lia|lia]|]. intros r h' (b' & -> & -> & _ & Hc & _). done.
Qed.

(** ** The cipher and its keys *)
Section keys.
Context (key nonce : list Z).
Context (key_length : length key = 16%nat \/ length key = 32%nat) (nonce_length : length nonce = 12%nat) (key_bytes : Forall is_byte key) (nonce_bytes : Forall is_byte nonce).

Definition has_keys (a : ChaCha20Poly1305) : Prop := contents (m_key a) = map Some key /\ contents (m_nonce a) = map Some nonce.

Lemma new_has_keys h : wp (ChaCha20Poly1305_new key nonce) h (fun r h' => exists a, r = Ok a /\ has_keys a /\ h' = h).
Proof using key_length nonce_length.
  assert (Z.of_nat (length key) <= 32) by (destruct key_length; lia). unfold ChaCha20Poly1305_new. wp_step. apply must_wp. eapply wp_mono; [apply copy_wp; rewrite length_map; lia|]. rewrite length_map. intros [k|e|] h1; [|intros (_ & _ & ?); lia|done]. intros (_ & Hk & Hh & _).
  rewrite Hh by lia. wp_step. apply must_wp. eapply wp_mono; [apply copy_wp; rewrite length_map; lia|]. rewrite length_map. intros [n|e|] h2; [|intros (_ & _ & ?); lia|done]. intros (_ & Hn & Hh2 & _).
  wp_step. eexists. split_and!; [done|split; done|apply Hh2; lia].
Qed.

Lemma new_cipher_ok a counter : has_keys a -> in_width 32 counter ->
  exists c, new_cipher a counter = Ok c /\ m_state c = initial_state key nonce counter /\ length (m_state c) = 16%nat /\ words_ok 32 (m_state c).
Proof using key_length nonce_length key_bytes nonce_bytes.
  intros [Hk Hn] Hc. destruct (new_exact key nonce counter key_length nonce_length key_bytes nonce_bytes Hc) as (E & Hl & Hw). eexists. unfold new_cipher. rewrite Hk, Hn, !known_some. cbn [kbind outcome_monad]. rewrite E. done.
Qed.

Lemma poly1305_key_wp a h : has_keys a -> wp (poly1305_key a) h (fun r h' => exists b, r = Ok b /\ contents b = map Some (one_time_key key nonce) /\ h' = h).
Proof using key_length nonce_length key_bytes nonce_bytes.
  intros Ha. destruct (new_cipher_ok a 0 Ha ltac:(done)) as (c & E & Es & Hl & Hw). unfold poly1305_key. wp_step. wp_step. rewrite E. destruct (generate_block_exact c Hl Hw) as (_ & Gb & Gl).
  assert (El : take 32 (block_bytes (generate_block c)) = one_time_key key nonce) by (unfold block_bytes, one_time_key; by rewrite Gb, Es). rewrite El. clear El Gb.
  assert (Hlen : (length (one_time_key key nonce) <= 32)%nat) by (unfold one_time_key; rewrite length_take; lia).
  eapply wp_mono; [apply copy_wp; rewrite length_map; lia|]. rewrite length_map. intros [b|e|] h'; [|intros (_ & _ & ?); lia|done]. intros (_ & Hc & Hh & _). exists b. split_and!; [done|done|apply Hh; lia].
Qed.

Lemma one_time_key_ok : length (one_time_key key nonce) = 32%nat /\ Forall is_byte (one_time_key key nonce).
Proof using key_length nonce_length key_bytes nonce_bytes.
  destruct (new_exact key nonce 0 key_length nonce_length key_bytes nonce_bytes ltac:(done)) as (_ & Hl & Hw). destruct (generate_block_exact (mkChaCha20 (initial_state key nonce 0) []) Hl Hw) as (_ & Gb & Gl). rewrite Gb in Gl. cbn [m_state] in Gl.
  unfold one_time_key. split; [rewrite length_take, block_bytes_length, Gl; done|]. apply Forall_take, block_bytes_bytes.
Qed.

Lemma run_chacha_ok a input buffer : has_keys a -> wf inline_capacity buffer -> contents buffer = replicate (length input) (Some 0) ->
  runs (c ← new_cipher a 1; run_chacha c input buffer) (fun b => contents b = map Some (chacha_text key nonce input)).
Proof using key_length nonce_length key_bytes nonce_bytes.
  intros Ha Hb Hc. destruct (new_cipher_ok a 1 Ha ltac:(done)) as (c & E & Es & Hl & Hw). rewrite E. cbn [kbind outcome_monad]. unfold run_chacha. rewrite Hc. replace (replicate (length input) (Some 0)) with (map Some (replicate (length input) 0)) by apply fmap_replicate. rewrite known_some.
  pose proof (run_loop_exact (m_state c) input Hl Hw (S (length input)) 0 0 c (replicate (length input) 0) ltac:(rewrite length_replicate; lia) ltac:(lia) ltac:(lia) ltac:(by rewrite advance_0)) as ([c' out] & Er & (Cl & Cin & _) & _).
  cbn [kbind outcome_monad]. unfold encrypt, run_cipher. rewrite length_replicate, Nat.leb_refl. change 0%nat with (64 * 0)%nat at 1. rewrite Er. rewrite length_replicate in Cl.
  assert (Eo : out = chacha_text key nonce input).
  { unfold chacha_text. apply list_eq. intros i. rewrite list_lookup_imap. destruct (input !! i) as [x|] eqn:Ex; cbn; [rewrite <- Es; apply Cin; [lia|done]|]. apply lookup_ge_None_2. apply lookup_ge_None_1 in Ex. lia. }
  assert (Hm : m_size buffer = Z.of_nat (length out)) by (rewrite <- (contents_length _ buffer Hb), Hc, length_replicate; lia).
  destruct (write_all _ buffer (map Some out) Hb ltac:(by rewrite length_map)) as (b' & Ew & _ & Hcon). exists b'. split; [done|]. by rewrite Hcon, Eo.
Qed.
End keys.

Lemma make_tag_ok key nonce otk mac aad ciphertext : length (one_time_key key nonce) = 32%nat -> Forall is_byte (one_time_key key nonce) -> Forall is_byte (mac_message aad ciphertext) ->
  contents otk = map Some (one_time_key key nonce) -> contents mac = map Some (mac_message aad ciphertext) -> make_tag otk mac = Ok (aead_tag key nonce aad ciphertext).
Proof using.
  intros Hl Hb Hm Ho Hc. unfold make_tag. rewrite Ho, Hc, !known_some. cbn [kbind outcome_monad]. destruct (authenticate_runs (one_time_key key nonce) [mac_message aad ciphertext] Hl Hb ltac:(by repeat constructor)) as (tag & E & Tl & Tb & Tv).
  unfold authenticate in E. cbn [updates kbind kret outcome_monad concat] in E, Tv. rewrite app_nil_r in Tv. replace (aead_tag key nonce aad ciphertext) with tag; [rewrite <- E; destruct (Poly1305_new _) as [st|?|]; [|done|done]; by destruct (update st _)|].
  unfold aead_tag. rewrite <- Tv. apply list_eq. intros i. destruct (Nat.lt_ge_cases i 16) as [Hi|Hi].
  - rewrite list_lookup_fmap, lookup_seq_lt by lia. cbn. rewrite (digit_lookup 8 ltac:(lia) tag i Tb). destruct (lookup_lt_is_Some_2 tag i ltac:(lia)) as [x Hx]. by rewrite Hx.
  - rewrite !lookup_ge_None_2; [done|rewrite length_map, length_seq; lia|lia].
Qed.

Lemma chacha_text_length key nonce input : length (chacha_text key nonce input) = length input.
Proof using. apply length_imap. Qed.

Lemma chacha_text_bytes key nonce input : Forall is_byte input -> Forall is_byte (chacha_text key nonce input).
Proof using.
  intros Hb. apply Forall_lookup. intros i x. unfold chacha_text. rewrite list_lookup_imap. destruct (input !! i) as [y|] eqn:E; [|done]. intros [= <-]. apply (lxor_width 8); [lia|by eapply Forall_lookup_1|apply keystream_byte].
Qed.

Lemma long_bytes_bytes x : Forall is_byte (long_bytes x).
Proof using. unfold long_bytes, word_bytes. cbn [app]. repeat constructor; apply Z.mod_pos_bound; lia. Qed.

Lemma mac_message_bytes aad ciphertext : Forall is_byte aad -> Forall is_byte ciphertext -> Forall is_byte (mac_message aad ciphertext).
Proof using. intros Ha Hc. unfold mac_message. rewrite !Forall_app. split_and!; try done; try apply long_bytes_bytes; by apply Forall_replicate. Qed.

(** The result, an error when the text cannot be allocated, or the end when a reservation fails *)
Definition gives (h : Heap) (result : list Z) (r : outcome ByteBuffer) : Prop :=
  match r with
  | Ok b => contents b = map Some result
  | Err e => e = ENOMEM /\ failing h
  | Panic => failing h
  end.

Section keys2.
Context (key nonce : list Z).
Context (key_length : length key = 16%nat \/ length key = 32%nat) (nonce_length : length nonce = 12%nat) (key_bytes : Forall is_byte key) (nonce_bytes : Forall is_byte nonce).

(** The tag and the result, from the ciphertext on *)
Lemma finish_wp aad ciphertext text otk h h0 : Z.of_nat (length aad) + Z.of_nat (length ciphertext) <= 2 ^ 62 -> length text = length ciphertext -> Forall is_byte aad -> Forall is_byte ciphertext ->
  contents otk = map Some (one_time_key key nonce) -> (failing h -> failing h0) ->
  wp (mac_data ← make_mac_data aad ciphertext; tag ← lift (make_tag otk mac_data); make_result text tag) h (fun r _ => gives h0 (text ++ aead_tag key nonce aad ciphertext) r).
Proof using key_length nonce_length key_bytes nonce_bytes.
  intros Hs Ht Ha Hc Ho Hf. destruct (one_time_key_ok key nonce key_length nonce_length key_bytes nonce_bytes) as [Kl Kb]. wp_step. eapply wp_mono; [by apply make_mac_data_wp|]. intros [mac|e|] h1; [|done|cbn; auto]. intros [Hm Hf1].
  wp_step. wp_step. rewrite (make_tag_ok key nonce otk mac aad ciphertext Kl Kb (mac_message_bytes _ _ Ha Hc) Ho Hm). eapply wp_mono; [apply make_result_wp; unfold aead_tag; rewrite length_map, length_seq; lia|].
  intros [b|e|] h2; [done|done|cbn; auto].
Qed.

Lemma encrypt_wp a aad text h : has_keys key nonce a -> Z.of_nat (length aad) + Z.of_nat (length text) <= 2 ^ 62 -> Forall is_byte aad -> Forall is_byte text ->
  let ciphertext := chacha_text key nonce text in wp (aead_encrypt a aad text) h (fun r _ => gives h (ciphertext ++ aead_tag key nonce aad ciphertext) r).
Proof using key_length nonce_length key_bytes nonce_bytes.
  intros Hk Hs Ba Bt. cbv zeta. unfold aead_encrypt. wp_step. eapply wp_mono; [by apply poly1305_key_wp|]. intros r h' (otk & -> & Ho & ->). wp_step. eapply wp_mono; [apply create_zeroed_wp; lia|]. intros [b|e|] h1; [|by intros (? & ? & _)|done].
  rewrite Nat2Z.id. intros (Hw & Hc & _ & Hf). destruct (run_chacha_ok key nonce key_length nonce_length key_bytes nonce_bytes a text b Hk Hw Hc) as (b' & E & Hb'). destruct (new_cipher a 1) as [c|e|]; [|done|done]. cbn [kbind outcome_monad] in E.
  do 2 wp_step. do 2 wp_step. rewrite E. do 2 wp_step. rewrite Hb', known_some. apply finish_wp; [rewrite chacha_text_length; lia|done|done|by apply chacha_text_bytes|done|done].
Qed.

Lemma decrypt_wp a aad text h : has_keys key nonce a -> Z.of_nat (length aad) + Z.of_nat (length text) <= 2 ^ 62 -> Forall is_byte aad -> Forall is_byte text ->
  wp (aead_decrypt a aad text) h (fun r _ => gives h (chacha_text key nonce text ++ aead_tag key nonce aad text) r).
Proof using key_length nonce_length key_bytes nonce_bytes.
  intros Hk Hs Ba Bt. unfold aead_decrypt. wp_step. eapply wp_mono; [by apply poly1305_key_wp|]. intros r h' (otk & -> & Ho & ->). do 2 wp_step. destruct (new_cipher a 1) as [c|e|] eqn:Ec.
  2,3: destruct (new_cipher_ok key nonce key_length nonce_length key_bytes nonce_bytes a 1 Hk ltac:(done)) as (c & E & _); congruence.
  wp_step. eapply wp_mono; [apply create_zeroed_wp; lia|]. intros [b|e|] h1; [|by intros (? & ? & _)|done].
  rewrite Nat2Z.id. intros (Hw & Hc & _ & Hf). destruct (run_chacha_ok key nonce key_length nonce_length key_bytes nonce_bytes a text b Hk Hw Hc) as (b' & E & Hb'). rewrite Ec in E. cbn [kbind outcome_monad] in E.
  do 2 wp_step. rewrite E. do 2 wp_step. rewrite Hb', known_some. apply finish_wp; [lia|by rewrite chacha_text_length|done|done|done|done].
Qed.
End keys2.
End AEAD_proofs.

(** The constructor and one call *)
Section calls.
Context {G : GoodSize} (key nonce aad text : list Z) (h : Heap).
Context (key_length : length key = 16%nat \/ length key = 32%nat) (nonce_length : length nonce = 12%nat) (key_bytes : Forall is_byte key) (nonce_bytes : Forall is_byte nonce).
Context (aad_bytes : Forall is_byte aad) (text_bytes : Forall is_byte text) (sizes : Z.of_nat (length aad) + Z.of_nat (length text) <= 2 ^ 62).

Lemma new_ok : exists a, ChaCha20Poly1305_new key nonce h = (Ok a, h) /\ has_keys key nonce a.
Proof using key_length nonce_length.
  pose proof (new_has_keys key nonce key_length nonce_length h) as W. unfold wp in W. destruct (ChaCha20Poly1305_new key nonce h) as [r h']. destruct W as (a & E & Ha & Eh). cbn [fst snd] in *. subst. by exists a.
Qed.

Lemma encrypt_gives : let ciphertext := chacha_text key nonce text in
  gives h (ciphertext ++ aead_tag key nonce aad ciphertext) ((a ← ChaCha20Poly1305_new key nonce; aead_encrypt a aad text) h).1.
Proof using key_length nonce_length key_bytes nonce_bytes aad_bytes text_bytes sizes. destruct new_ok as (a & E & Ha). cbn [kbind M_monad]. rewrite E. by apply (encrypt_wp key nonce). Qed.

Lemma decrypt_gives : gives h (chacha_text key nonce text ++ aead_tag key nonce aad text) ((a ← ChaCha20Poly1305_new key nonce; aead_decrypt a aad text) h).1.
Proof using key_length nonce_length key_bytes nonce_bytes aad_bytes text_bytes sizes. destruct new_ok as (a & E & Ha). cbn [kbind M_monad]. rewrite E. by apply (decrypt_wp key nonce). Qed.
End calls.

Lemma gives_ok h result r : gives h result r -> ~ failing h -> exists b, r = Ok b /\ contents b = map Some result.
Proof. destruct r as [b|e|]; [by exists b|by intros [_ ?]|done]. Qed.

(** ** Against RFC 8439 *)
(** The message of the standard: the padding brings a length to a multiple of sixteen and is empty if it is one. *)
Definition rfc_message (aad ciphertext : list Z) : list Z :=
  aad ++ replicate (Z.to_nat (- Z.of_nat (length aad) mod 16)) 0 ++ ciphertext ++ replicate (Z.to_nat (- Z.of_nat (length ciphertext) mod 16)) 0
  ++ long_bytes (Z.of_nat (length aad)) ++ long_bytes (Z.of_nat (length ciphertext)).

Lemma pad_rfc n : n mod 16 <> 0 -> pad_to_16 n = - n mod 16.
Proof.
  intros Hn. unfold pad_to_16, wrap. pose proof (Z.mod_pos_bound n 16 ltac:(lia)). rewrite Z.mod_small by lia. rewrite Z.mod_opp_l_nz by lia. done.
Qed.

(** A length that is a multiple of sixteen gets sixteen bytes of padding. *)
Lemma pad_multiple n : n mod 16 = 0 -> pad_to_16 n = 16 /\ - n mod 16 = 0.
Proof. intros Hn. unfold pad_to_16. rewrite Hn. split; [done|by rewrite Z.mod_opp_l_z]. Qed.

Lemma mac_message_rfc aad ciphertext : Z.of_nat (length aad) mod 16 <> 0 -> Z.of_nat (length ciphertext) mod 16 <> 0 -> mac_message aad ciphertext = rfc_message aad ciphertext.
Proof. intros Ha Hc. unfold mac_message, rfc_message. by rewrite !pad_rfc. Qed.


(** The example of RFC 8439, 2.8.2 *)
Definition aead_key : list Z := map (fun i => 0x80 + Z.of_nat i) (seq 0 32).
Definition aead_nonce : list Z := [0x07; 0; 0; 0; 0x40; 0x41; 0x42; 0x43; 0x44; 0x45; 0x46; 0x47].
Definition aead_aad : list Z := [0x50; 0x51; 0x52; 0x53; 0xc0; 0xc1; 0xc2; 0xc3; 0xc4; 0xc5; 0xc6; 0xc7].


(** ** The receiver *)
Lemma verify_tag_exact text1 text2 tag1 tag2 : length tag1 = 16%nat -> length tag2 = 16%nat -> verify_tag (text1 ++ tag1) (text2 ++ tag2) = Ok (bool_decide (tag1 = tag2)).
Proof.
  intros H1 H2. unfold verify_tag, slice_from_end. rewrite !length_app, H1, H2, !(proj2 (Nat.leb_le _ _)) by lia. cbn [kbind kret outcome_monad]. rewrite !drop_app_length' by lia. rewrite H1, H2. cbn [Nat.eqb negb]. f_equal.
  apply eq_true_iff_eq. rewrite Z.eqb_eq, bool_decide_eq_true, foldl_lor_0, zip_lxor_0 by lia. intuition.
Qed.

Lemma chacha_text_twice key nonce text : chacha_text key nonce (chacha_text key nonce text) = text.
Proof.
  unfold chacha_text. apply list_eq. intros i. rewrite !list_lookup_imap. destruct (text !! i) as [x|]; [|done]. cbn. by rewrite Z.lxor_assoc, Z.lxor_nilpotent, Z.lxor_0_r.
Qed.

(** C17: What the sender encrypts the receiver decrypts: when no allocation fails, decrypting the ciphertext part of the
    encryption gives the text back, [verify_tag] accepts the pair, and it rejects the ciphertext with any other tag. *)
Theorem aead_round_trip {G : GoodSize} (key nonce aad text : list Z) (h h' : Heap) :
  length key = 16%nat \/ length key = 32%nat -> length nonce = 12%nat -> Forall is_byte key -> Forall is_byte nonce -> Forall is_byte aad -> Forall is_byte text ->
  Z.of_nat (length aad) + Z.of_nat (length text) <= 2 ^ 62 -> ~ failing h -> ~ failing h' ->
  exists b encrypted b' decrypted, ((a ← ChaCha20Poly1305_new key nonce; aead_encrypt a aad text) h).1 = Ok b /\ contents b = map Some encrypted
    /\ ((a ← ChaCha20Poly1305_new key nonce; aead_decrypt a aad (take (length text) encrypted)) h').1 = Ok b' /\ contents b' = map Some decrypted
    /\ take (length text) decrypted = text
    /\ verify_tag encrypted decrypted = Ok true
    /\ forall tag, length tag = 16%nat -> tag <> drop (length text) encrypted -> verify_tag (take (length text) encrypted ++ tag) decrypted = Ok false.
Proof.
  intros Hk Hn Bk Bn Ba Bt Hs Hh Hh'. set (c := chacha_text key nonce text). set (t := aead_tag key nonce aad c). assert (Lc : length c = length text) by apply chacha_text_length. assert (Lt : length t = 16%nat) by done.
  destruct (gives_ok h (c ++ t) _ (encrypt_gives key nonce aad text h Hk Hn Bk Bn Ba Bt Hs) Hh) as (b & Eb & Cb).
  destruct (gives_ok h' _ _ (decrypt_gives key nonce aad c h' Hk Hn Bk Bn Ba (chacha_text_bytes key nonce text Bt) ltac:(by rewrite Lc)) Hh') as (b' & Eb' & Cb').
  fold t in Cb'. unfold c in Cb' at 1. rewrite chacha_text_twice in Cb'. exists b, (c ++ t), b', (text ++ t). rewrite (take_app_length' c t), (drop_app_length' c t), (take_app_length' text t) by done.
  split_and!; [done|done|done|done|done|by rewrite verify_tag_exact, bool_decide_eq_true_2|]. intros tag Ht Hne. by rewrite verify_tag_exact, bool_decide_eq_false_2.
Qed.

Lemma aead_round_trip_witness :
  exists b encrypted b' decrypted, ((a ← ChaCha20Poly1305_new aead_key aead_nonce; aead_encrypt a aead_aad sunscreen) (mkHeap [true] 0)).1 = Ok b /\ contents b = map Some encrypted
    /\ ((a ← ChaCha20Poly1305_new aead_key aead_nonce; aead_decrypt a aead_aad (take (length sunscreen) encrypted)) (mkHeap [] 5)).1 = Ok b' /\ contents b' = map Some decrypted
    /\ take (length sunscreen) decrypted = sunscreen
    /\ verify_tag encrypted decrypted = Ok true
    /\ forall tag, length tag = 16%nat -> tag <> drop (length sunscreen) encrypted -> verify_tag (take (length sunscreen) encrypted ++ tag) decrypted = Ok false.
Proof.
  apply aead_round_trip; [by right|done| | | | |done| |]; try (apply (bool_decide_unpack _); vm_compute; exact I); unfold failing; cbn; set_solver.
Defined.
