(* ===== verification/Prime25519.v ===== *)
(** * The prime 2^255 - 19

    The words of Curve25519.v are a field: the prime has a chain of Pocklington certificates, with
    trial division for the small factors. *)
From Stdlib Require Import Znumtheory.
From S2P Require Import Prelude Congruence.

Local Open Scope Z_scope.

Definition P25519 : Z := 2 ^ 255 - 19.

Lemma prime_25519 : prime P25519.
Proof.
  assert (H1 : prime 31757755568855353).
  { apply (pocklington_check_prime _ [(430751, 2); (4153, 2)]); [vm_compute; reflexivity|]. constructor; [apply (trial_check_prime _ 700)|constructor; [apply (trial_check_prime _ 100)|constructor]]; vm_compute; reflexivity. }
  assert (H2 : prime 1919519569386763).
  { apply (pocklington_check_prime _ [(8574133, 2); (127, 2)]); [vm_compute; reflexivity|]. constructor; [apply (trial_check_prime _ 3000)|constructor; [apply (trial_check_prime _ 20)|constructor]]; vm_compute; reflexivity. }
  assert (H3 : prime 75445702479781427272750846543864801).
  { apply (pocklington_check_prime _ [(1919519569386763, 2); (75707, 2)]); [vm_compute; reflexivity|]. constructor; [exact H2|constructor; [apply (trial_check_prime _ 300); vm_compute; reflexivity|constructor]]. }
  assert (H4 : prime 74058212732561358302231226437062788676166966415465897661863160754340907).
  { apply (pocklington_check_prime _ [(75445702479781427272750846543864801, 2); (31757755568855353, 2)]); [vm_compute; reflexivity|]. constructor; [exact H3|constructor; [exact H1|constructor]]. }
  apply (pocklington_check_prime _ [(74058212732561358302231226437062788676166966415465897661863160754340907, 2)]); [vm_compute; reflexivity|]. constructor; [exact H4|constructor].
Qed.
