(* ===== verification/Curve25519.v ===== *)
(** * Curve25519: Userland/Libraries/LibCrypto/Curves/Curve25519.cpp and Curve25519.h

    The arithmetic of the field with 2^255 - 19 elements that X25519 and Ed25519 share, on eight 32-bit
    words.  Every function writes a word of its result only after the last use of that word of an
    argument, so that results may share the memory of arguments; the functions here return what is
    written.  The theorems say that all operations are exact modulo the prime, without overflow of the
    64-bit accumulators, that the chain of squarings is the inverse, by Fermat's theorem and a proof that
    2^255 - 19 is prime, and that the square root finds a root whenever there is one. *)
From Stdlib Require Import Znumtheory.
From S2P Require Import Prelude MemMem Congruence BigIntBase Poly1305 Prime25519.

Local Open Scope Z_scope.

Definition WORDS : nat := 8.
Definition BYTES : nat := 32.
Definition BITS : nat := 255.

Definition SQRT_MINUS_1 : list Z := [0x4A0EA0B0; 0xC4EE1B27; 0xAD2FE478; 0x2F431806; 0x3DFBD7A7; 0x2B4D0099; 0x4FC1DF0B; 0x2B832480].
Definition ZERO : list Z := replicate 8 0.

(** A signed 64-bit number *)
Definition signed64 (x : Z) : Z := wrap 64 (x + 2 ^ 63) - 2 ^ 63.

Definition set (value : Z) : list Z := value :: replicate 7 0.

Definition copy (value : list Z) : list Z := value.

Definition select (a b : list Z) (condition : Z) : list Z :=
  let mask := wrap 32 (condition - 1) in
  zip_with (fun x y => Z.lor (Z.land x mask) (Z.land y (wrap 32 (Z.lnot mask)))) a b.

(** The loops that add to [temp], store its low 32 bits and shift it, with what is added for each word; [width] is
    the type of [temp] *)
Fixpoint accumulate (width : Z -> Z) (temp : Z) (addends : list (list Z)) : list Z * Z :=
  match addends with
  | [] => ([], temp)
  | a :: addends =>
      let temp := foldl (fun temp x => width (temp + x)) temp a in
      let '(state, rest) := accumulate width (Z.shiftr temp 32) addends in
      (Z.land temp 0xFFFFFFFF :: state, rest)
  end.
Definition u64 : Z -> Z := wrap 64.

(** [state[7] += x] *)
Definition add_to_top (x : Z) (state : list Z) : list Z := <[7%nat := wrap 32 (nth 7 state 0 + x)]> state.

Definition modular_reduce (data : list Z) : list Z :=
  let other := (accumulate u64 19 (map (fun x => [x]) data)).1 in
  let other := add_to_top (- 0x80000000) other in
  let mask := Z.shiftr (Z.land (nth 7 other 0) 0x80000000) 31 in
  select other data mask.

Definition modular_subtract (first second : list Z) : list Z :=
  let state := (accumulate signed64 (-19) (zip_with (fun x y => [x; - y]) first second)).1 in
  modular_reduce (add_to_top 0x80000000 state).

Definition modular_add (first second : list Z) : list Z :=
  modular_reduce (accumulate u64 0 (zip_with (fun x y => [x; y]) first second)).1.

(** ** Comba's method *)
(** The factors of column [i] *)
Definition column (first second : list Z) (i : nat) : list (Z * Z) :=
  map (fun j => (nth j first 0, nth (i - j) second 0)) (if (i <? 8)%nat then seq 0 (S i) else seq (i - 7) (8 - (i - 7))).

Definition comba_step (state : Z * Z) (factors : Z * Z) : Z * Z :=
  let '(temp, carry) := state in
  let temp := wrap 64 (temp + wrap 64 (factors.1 * factors.2)) in
  let carry := wrap 64 (carry + Z.shiftr temp 32) in
  (Z.land temp 0xFFFFFFFF, carry).

Fixpoint comba (temp carry : Z) (columns : list (list (Z * Z))) : list Z :=
  match columns with
  | [] => []
  | c :: columns =>
      let '(temp, carry) := foldl comba_step (temp, carry) c in
      Z.land temp 0xFFFFFFFF :: comba (Z.land carry 0xFFFFFFFF) (Z.shiftr carry 32) columns
  end.

(** Bits 256 up, then bit 255, are folded in; [temp] comes from the pass before. *)
Definition fold_top (output : list Z) (temp : Z) : list Z :=
  let temp := wrap 64 (temp * 38) in
  let temp := wrap 64 (temp + Z.shiftr (nth 7 output 0) 31 * 19) in
  let output := <[7%nat := Z.land (nth 7 output 0) 0x7FFFFFFF]> output in
  (accumulate u64 temp (map (fun x => [x]) output)).1.

Definition modular_multiply (first second : list Z) : list Z :=
  let output := comba 0 0 (map (column first second) (seq 0 16)) in
  let temp := wrap 32 (Z.shiftr (nth 7 output 0) 31 * 19) in
  let output := <[7%nat := Z.land (nth 7 output 0) 0x7FFFFFFF]> output in
  let '(low, temp) := accumulate u64 temp (zip_with (fun x y => [x; wrap 64 (y * 38)]) (take 8 output) (drop 8 output)) in
  modular_reduce (fold_top low temp).

Definition modular_square (value : list Z) : list Z := modular_multiply value value.

Definition modular_multiply_single (first : list Z) (second : Z) : list Z :=
  let '(output, temp) := accumulate u64 0 (map (fun x => [wrap 64 (x * second)]) first) in
  modular_reduce (fold_top output temp).

Definition modular_subtract_single (a : list Z) (b : Z) : list Z :=
  let temp := signed64 (-19 - b) in
  let r := (accumulate signed64 temp (map (fun x => [x]) a)).1 in
  modular_reduce (add_to_top 0x80000000 r).

Definition modular_add_single (first : list Z) (second : Z) : list Z :=
  modular_reduce (accumulate u64 second (map (fun x => [x]) first)).1.

(** [(u8)n] rounds of squaring; the first one is always made *)
Definition to_power_of_2n (value : list Z) (n : nat) : list Z := Nat.iter (n - 1) modular_square (modular_square value).

(** 0 if equal, else 1 *)
Definition compare (a b : list Z) : Z :=
  let mask := foldl Z.lor 0 (zip_with Z.lxor a b) in
  Z.shiftr (Z.lor mask (wrap 32 (wrap 32 (Z.lnot mask) + 1))) 31.

Definition modular_multiply_inverse (value : list Z) : list Z :=
  let u := modular_square value in
  let u := modular_multiply u value in
  let u := modular_square u in
  let v := modular_multiply u value in
  let u := to_power_of_2n v 3 in
  let u := modular_multiply u v in
  let u := modular_square u in
  let v := modular_multiply u value in
  let u := to_power_of_2n v 7 in
  let u := modular_multiply u v in
  let u := modular_square u in
  let v := modular_multiply u value in
  let u := to_power_of_2n v 15 in
  let u := modular_multiply u v in
  let u := modular_square u in
  let v := modular_multiply u value in
  let u := to_power_of_2n v 31 in
  let v := modular_multiply u v in
  let u := to_power_of_2n v 62 in
  let u := modular_multiply u v in
  let u := modular_square u in
  let v := modular_multiply u value in
  let u := to_power_of_2n v 125 in
  let u := modular_multiply u v in
  let u := modular_square u in
  let u := modular_square u in
  let u := modular_multiply u value in
  let u := modular_square u in
  let u := modular_square u in
  let u := modular_multiply u value in
  let u := modular_square u in
  modular_multiply u value.

(** The root and 0 if it exists *)
Definition modular_square_root (a b : list Z) : list Z * Z :=
  let v := modular_square b in
  let v := modular_multiply v b in
  let v := modular_square v in
  let v := modular_multiply v b in
  let c := modular_multiply a v in
  let u := modular_square c in
  let u := modular_multiply u c in
  let u := modular_square u in
  let v := modular_multiply u c in
  let u := to_power_of_2n v 3 in
  let u := modular_multiply u v in
  let u := modular_square u in
  let v := modular_multiply u c in
  let u := to_power_of_2n v 7 in
  let u := modular_multiply u v in
  let u := modular_square u in
  let v := modular_multiply u c in
  let u := to_power_of_2n v 15 in
  let u := modular_multiply u v in
  let u := modular_square u in
  let v := modular_multiply u c in
  let u := to_power_of_2n v 31 in
  let v := modular_multiply u v in
  let u := to_power_of_2n v 62 in
  let u := modular_multiply u v in
  let u := modular_square u in
  let v := modular_multiply u c in
  let u := to_power_of_2n v 125 in
  let u := modular_multiply u v in
  let u := modular_square u in
  let u := modular_square u in
  let u := modular_multiply u c in
  let u := modular_multiply u a in
  let v := modular_square b in
  let v := modular_multiply v b in
  let u := modular_multiply u v in
  let v := modular_multiply u SQRT_MINUS_1 in
  let c := modular_square u in
  let c := modular_multiply c b in
  let first_comparison := compare c a in
  let c := modular_square v in
  let c := modular_multiply c b in
  let second_comparison := compare c a in
  (select u v first_comparison, Z.land first_comparison second_comparison).

(** Words and bytes on a little-endian machine; [import_state] reads 32 bytes whatever the size of the input is, and
    reading behind its end counts as a failure. *)
Definition import_state (data : list Z) : outcome (list Z) :=
  first ← load_words data 0;
  second ← load_words data 16;
  kret (first ++ second).
Definition export_state (state : list Z) : list Z := concat (map word_bytes state).

(** ** Words *)
#[local] Notation B := (2 ^ 32).
#[local] Notation val := (value 32).

Definition sum (l : list Z) : Z := foldr Z.add 0 l.

Section accumulate.
Context (width : Z -> Z) (lo hi : Z) (bounds : lo <= hi).

(** Adding these to [temp] does not overflow and leaves a [temp] in the range again. *)
Definition fits (a : list Z) : Prop := forall temp, lo <= temp <= hi -> foldl (fun temp x => width (temp + x)) temp a = temp + sum a /\ lo <= (temp + sum a) / B <= hi.

Lemma accumulate_spec addends temp : Forall fits addends -> lo <= temp <= hi ->
  let '(state, rest) := accumulate width temp addends in
  length state = length addends /\ words_ok 32 state /\ val state + weight 32 (length addends) * rest = temp + val (map sum addends) /\ lo <= rest <= hi.
Proof using.
  intros Hf. revert temp. induction Hf as [|a addends Ha _ IH]; intros temp Ht; cbn [accumulate].
  - cbn [length value map]. rewrite weight_0. split; [done|]. split; [constructor|]. lia.
  - destruct (Ha temp Ht) as [E Hr]. rewrite E. rewrite Z.shiftr_div_pow2 by lia. specialize (IH _ Hr). destruct (accumulate _ _ _) as [state rest]. destruct IH as (Hl & Hw & Hv & Hb).
    fold (low (temp + sum a)). rewrite low_mod. split; [cbn; lia|]. split; [constructor; [apply Z.mod_pos_bound; lia|done]|]. split; [|done]. cbn [value map length]. rewrite (weight_S 32 ltac:(lia)).
    pose proof (Z.div_mod (temp + sum a) B ltac:(lia)). nia.
Qed.
End accumulate.

Lemma fits_u64 a : Forall (fun x => 0 <= x) a -> sum a <= 2 ^ 64 - 2 ^ 32 -> fits u64 0 (B - 1) a.
Proof.
  intros Ha Hs temp Ht. assert (Hn : forall l, Forall (fun x => 0 <= x) l -> 0 <= sum l) by (induction 1 as [|x l Hx _ IH]; [done|]; change (sum (x :: l)) with (x + sum l); lia).
  assert (E : forall l t, Forall (fun x => 0 <= x) l -> 0 <= t -> t + sum l < 2 ^ 64 -> foldl (fun temp x => u64 (temp + x)) t l = t + sum l).
  { intros l t Hl. revert t. induction Hl as [|x l Hx Hl IH]; intros t H1 H2; [cbn; lia|]. change (sum (x :: l)) with (x + sum l) in *. cbn [foldl]. pose proof (Hn l Hl). unfold u64 at 2. unfold wrap. rewrite Z.mod_small by lia. rewrite IH by lia. lia. }
  pose proof (Hn a Ha). split; [apply E; [done|lia|lia]|]. split; [apply Z.div_pos; lia|]. apply Z.lt_succ_r, Z.div_lt_upper_bound; lia.
Qed.

Lemma signed64_id x : - 2 ^ 63 <= x < 2 ^ 63 -> signed64 x = x.
Proof. intros H. unfold signed64, wrap. rewrite Z.mod_small by lia. lia. Qed.

Lemma fits_signed a : (length a <= 2)%nat -> Forall (fun x => - B < x < B) a -> fits signed64 (- 2 ^ 34) (2 ^ 34) a.
Proof.
  intros Hl Ha temp Ht. destruct a as [|x [|y [|]]]; [| | |cbn in Hl; lia]; repeat (apply Forall_cons in Ha as [? Ha]); cbv beta in *; cbn [foldl sum foldr].
  - rewrite Z.add_0_r. split; [done|]. split; [apply Z.div_le_lower_bound; lia|apply Z.div_le_upper_bound; lia].
  - rewrite signed64_id by lia. split; [lia|]. split; [apply Z.div_le_lower_bound; lia|apply Z.div_le_upper_bound; lia].
  - rewrite (signed64_id (temp + x)) by lia. rewrite signed64_id by lia. split; [lia|]. split; [apply Z.div_le_lower_bound; lia|apply Z.div_le_upper_bound; lia].
Qed.

Lemma val_singles l : val (map sum (map (fun x => [x]) l)) = val l.
Proof. induction l as [|x l IH]; [done|]. cbn [map value]. rewrite IH. cbn. lia. Qed.

Lemma val_pairs (f : Z -> Z) l k : length l = length k -> val (map sum (zip_with (fun x y => [x; f y]) l k)) = val l + val (map f k).
Proof.
  revert k. induction l as [|x l IH]; intros [|y k] H; [done|done|done|]. cbn [zip_with map value]. rewrite IH by (cbn in H; lia). cbn. lia.
Qed.

Lemma val_scaled c l : val (map (fun x => x * c) l) = val l * c.
Proof. induction l as [|x l IH]; [done|]. cbn [map value]. rewrite IH. lia. Qed.

(** ** select *)
Lemma select_spec a b c : length a = length b -> words_ok 32 a -> words_ok 32 b -> (c = 0 -> select a b c = a) /\ (c = 1 -> select a b c = b).
Proof.
  intros Hl Ha Hb. assert (Hid : forall x, in_width 32 x -> Z.land x 0xFFFFFFFF = x) by (intros x Hx; change 0xFFFFFFFF with (Z.ones 32); rewrite Z.land_ones by lia; by apply Z.mod_small).
  split; intros ->; unfold select; revert b Hl Hb; induction Ha as [|x a Hx Ha IH]; intros [|y b] Hl Hb; try done; apply Forall_cons in Hb as [Hy Hb]; cbn [zip_with]; (rewrite IH; [|cbn in Hl; lia|done]); f_equal.
  - change (wrap 32 (0 - 1)) with 0xFFFFFFFF. change (wrap 32 (Z.lnot 0xFFFFFFFF)) with 0. rewrite Z.land_0_r, Z.lor_0_r. by apply Hid.
  - change (wrap 32 (1 - 1)) with 0. change (wrap 32 (Z.lnot 0)) with 0xFFFFFFFF. rewrite Z.land_0_r, Z.lor_0_l. by apply Hid.
Qed.

(** ** Reduction *)
(** The top word of eight *)
Lemma top_word l : length l = 8%nat -> words_ok 32 l -> exists t x, l = t ++ [x] /\ length t = 7%nat /\ words_ok 32 t /\ in_width 32 x /\ nth 7 l 0 = x /\ val l = val t + 2 ^ 224 * x /\ 0 <= val t < 2 ^ 224.
Proof.
  intros Hl Hw. do 8 (destruct l as [|? l]; [done|]). destruct l; [|done]. exists [z; z0; z1; z2; z3; z4; z5], z6. repeat (apply Forall_cons in Hw as [? Hw]).
  assert (Ht : words_ok 32 [z; z0; z1; z2; z3; z4; z5]) by (repeat (apply Forall_cons; split; [done|]); constructor). pose proof (value_bound 32 ltac:(lia) _ Ht) as Hb. change (weight 32 (length _)) with (2 ^ 224) in Hb.
  do 3 (split; [done|]). do 2 (split; [done|]). split; [cbn [value]; lia|exact Hb].
Qed.

Lemma insert_top (t : list Z) x y : length t = 7%nat -> <[7%nat := y]> (t ++ [x]) = t ++ [y].
Proof. intros Hl. do 7 (destruct t as [|? t]; [done|]). by destruct t. Qed.

Lemma add_to_top_spec x l : length l = 8%nat -> words_ok 32 l -> let r := add_to_top x l in length r = 8%nat /\ words_ok 32 r /\ val r = (val l + 2 ^ 224 * x) mod 2 ^ 256.
Proof.
  intros Hl Hw r. destruct (top_word l Hl Hw) as (t & y & -> & Ht & Hwt & Hy & Hn & Hv & Hb). subst r. unfold add_to_top. rewrite Hn, insert_top by done. split; [rewrite length_app, Ht; done|].
  pose proof (Z.mod_pos_bound (y + x) (2 ^ 32) ltac:(lia)) as Hm. split; [apply Forall_app; split; [done|]; constructor; [exact Hm|constructor]|]. rewrite Hv, (value_app 32) by lia. rewrite Ht. change (weight 32 7) with (2 ^ 224). cbn [value]. unfold wrap in *.
  pose proof (Z.div_mod (y + x) (2 ^ 32) ltac:(lia)) as D. apply Z.mod_unique_pos with ((y + x) / 2 ^ 32); [|lia]. set (m := (y + x) mod 2 ^ 32) in *. lia.
Qed.

Lemma top_bit_div x : in_width 32 x -> Z.shiftr (Z.land x 0x80000000) 31 = x / 2 ^ 31.
Proof.
  intros Hx. rewrite Z.shiftr_land. change (Z.shiftr 0x80000000 31) with (Z.ones 1). rewrite Z.land_ones, Z.shiftr_div_pow2 by lia. apply Z.mod_small. unfold in_width in Hx.
  split; [apply Z.div_pos; lia|apply Z.div_lt_upper_bound; lia].
Qed.

Lemma top_word_bit l : length l = 8%nat -> words_ok 32 l -> Z.shiftr (Z.land (nth 7 l 0) 0x80000000) 31 = val l / 2 ^ 255.
Proof.
  intros Hl Hw. destruct (top_word l Hl Hw) as (t & x & _ & _ & _ & Hx & -> & Hv & Hb). rewrite top_bit_div by done. change (2 ^ 255) with (2 ^ 224 * 2 ^ 31). rewrite <- Z.div_div by lia. f_equal.
  rewrite Hv. rewrite (Z.mul_comm (2 ^ 224)), Z.div_add, Z.div_small by lia. done.
Qed.

(** A field element: eight words below the prime *)
Definition fe (l : list Z) : Prop := length l = 8%nat /\ words_ok 32 l /\ val l < P25519.

Lemma val_8_bound l : length l = 8%nat -> words_ok 32 l -> 0 <= val l < 2 ^ 256.
Proof. intros Hl Hw. pose proof (value_bound 32 ltac:(lia) l Hw) as H. by rewrite Hl in H. Qed.

Lemma fits_singles l : words_ok 32 l -> Forall (fits u64 0 (B - 1)) (map (fun x => [x]) l).
Proof. induction 1 as [|x l Hx _ IH]; [constructor|]. constructor; [|done]. unfold in_width in Hx. apply fits_u64; [repeat constructor; lia|cbn; lia]. Qed.

Lemma fits_signed_singles l : words_ok 32 l -> Forall (fits signed64 (- 2 ^ 34) (2 ^ 34)) (map (fun x => [x]) l).
Proof. induction 1 as [|x l Hx _ IH]; [constructor|]. constructor; [|done]. unfold in_width in Hx. apply fits_signed; [cbn; lia|repeat constructor; lia]. Qed.

(** Eight words and a carry *)
Lemma accumulate_8 width lo hi temp addends : lo <= temp <= hi -> Forall (fits width lo hi) addends -> length addends = 8%nat ->
  let '(state, rest) := accumulate width temp addends in
  length state = 8%nat /\ words_ok 32 state /\ 0 <= val state < 2 ^ 256 /\ val state + 2 ^ 256 * rest = temp + val (map sum addends) /\ lo <= rest <= hi.
Proof.
  intros Ht Hf Hl. pose proof (accumulate_spec width lo hi addends temp Hf Ht) as H. destruct (accumulate _ _ _) as [state rest]. rewrite Hl in H. destruct H as (H1 & H2 & H3 & H4). split; [done|]. split; [done|]. split; [by apply val_8_bound|]. done.
Qed.

Lemma modular_reduce_spec data : length data = 8%nat -> words_ok 32 data -> val data < 2 * P25519 -> fe (modular_reduce data) /\ val (modular_reduce data) = val data mod P25519.
Proof.
  intros Hl Hw Hd. unfold modular_reduce. pose proof (val_8_bound data Hl Hw) as Hb. unfold P25519 in *.
  pose proof (accumulate_8 u64 0 (B - 1) 19 (map (fun x => [x]) data) ltac:(lia) (fits_singles data Hw) ltac:(by rewrite length_map)) as H. destruct (accumulate u64 19 _) as [other rest]. destruct H as (Ol & Ow & Ob & Ov & Or). rewrite val_singles in Ov. cbn [fst].
  assert (rest = 0) by lia. subst rest. rewrite Z.mul_0_r, Z.add_0_r in Ov. destruct (add_to_top_spec (- 0x80000000) other Ol Ow) as (Tl & Tw & Tv). set (top := add_to_top _ other) in *. clearbody top. rewrite (top_word_bit top Tl Tw).
  destruct (select_spec top data (val top / 2 ^ 255) ltac:(lia) Tw Hw) as [S0 S1]. unfold fe. destruct (Z.lt_ge_cases (val data + 19) (2 ^ 255)) as [Hlt|Hge].
  - assert (Ev : val top = val data + 19 + 2 ^ 255) by (rewrite Tv, Ov; symmetry; apply Z.mod_unique_pos with (-1); lia).
    rewrite S1 by (rewrite Ev; symmetry; apply Z.div_unique with (val data + 19); lia). rewrite Z.mod_small by lia. split_and!; [done|done|unfold P25519; lia|done].
  - assert (Ev : val top = val data - (2 ^ 255 - 19)) by (rewrite Tv, Ov; symmetry; apply Z.mod_unique_pos with 0; lia).
    rewrite S0 by (rewrite Ev; apply Z.div_small; lia). split_and!; [done|done|unfold P25519; lia|]. rewrite Ev. apply Z.mod_unique_pos with 1; lia.
Qed.

(** ** Addition and subtraction *)
Lemma modular_add_spec a b : fe a -> fe b -> fe (modular_add a b) /\ val (modular_add a b) = (val a + val b) mod P25519.
Proof.
  intros (Al & Aw & Av) (Bl & Bw & Bv). unfold modular_add. assert (Hf : Forall (fits u64 0 (B - 1)) (zip_with (fun x y => [x; y]) a b)).
  { clear - Aw Bw. revert b Bw. induction Aw as [|x a Hx _ IH]; intros [|y b] Bw; try constructor; apply Forall_cons in Bw as [Hy Bw]; [|by apply IH]. unfold in_width in *. apply fits_u64; [repeat constructor; lia|cbn; lia]. }
  pose proof (accumulate_8 u64 0 (B - 1) 0 _ ltac:(lia) Hf ltac:(rewrite length_zip_with; lia)) as H. destruct (accumulate u64 0 _) as [state rest]. destruct H as (Sl & Sw & Sb & Sv & Sr). rewrite (val_pairs (fun y => y)), map_id in Sv by lia.
  cbn [fst]. pose proof (val_8_bound a Al Aw). pose proof (val_8_bound b Bl Bw). unfold P25519 in *. assert (rest = 0) by lia. subst rest. destruct (modular_reduce_spec state Sl Sw ltac:(unfold P25519; lia)) as [Hr Er]. split; [done|]. rewrite Er. unfold P25519. f_equal. lia.
Qed.

(** After the borrow, 2^255 is added. *)
Lemma reduce_difference state rest D : length state = 8%nat -> words_ok 32 state -> val state + 2 ^ 256 * rest = D - 19 -> - P25519 < D < P25519 ->
  let r := modular_reduce (add_to_top 0x80000000 state) in fe r /\ val r = D mod P25519.
Proof.
  intros Sl Sw Sv HD r. pose proof (val_8_bound state Sl Sw) as Sb. destruct (add_to_top_spec 0x80000000 state Sl Sw) as (Tl & Tw & Tv). unfold P25519 in *. assert (Ev : val (add_to_top 0x80000000 state) = D + (2 ^ 255 - 19)).
  { rewrite Tv. symmetry. apply Z.mod_unique_pos with (- rest); lia. }
  destruct (modular_reduce_spec (add_to_top 0x80000000 state) Tl Tw ltac:(unfold P25519; lia)) as [Hr Er]. split; [done|]. subst r. rewrite Er, Ev. unfold P25519. replace (D + (2 ^ 255 - 19)) with (D + 1 * (2 ^ 255 - 19)) by lia. apply Z.mod_add. lia.
Qed.

Lemma modular_subtract_spec a b : fe a -> fe b -> fe (modular_subtract a b) /\ val (modular_subtract a b) = (val a - val b) mod P25519.
Proof.
  intros (Al & Aw & Av) (Bl & Bw & Bv). unfold modular_subtract. assert (Hf : Forall (fits signed64 (- 2 ^ 34) (2 ^ 34)) (zip_with (fun x y => [x; - y]) a b)).
  { clear - Aw Bw. revert b Bw. induction Aw as [|x a Hx _ IH]; intros [|y b] Bw; try constructor; apply Forall_cons in Bw as [Hy Bw]; [|by apply IH]. unfold in_width in *. apply fits_signed; [cbn; lia|repeat constructor; lia]. }
  pose proof (accumulate_8 signed64 (- 2 ^ 34) (2 ^ 34) (-19) _ ltac:(lia) Hf ltac:(rewrite length_zip_with; lia)) as H. destruct (accumulate signed64 _ _) as [state rest]. destruct H as (Sl & Sw & Sb & Sv & Sr). rewrite (val_pairs Z.opp) in Sv by lia.
  replace (val (map Z.opp b)) with (- val b) in Sv by (clear; induction b as [|x b IH]; [done|]; cbn [map value]; rewrite <- IH; lia).
  pose proof (val_8_bound a Al Aw). pose proof (val_8_bound b Bl Bw). cbn [fst]. apply (reduce_difference state rest (val a - val b)); [done|done|lia|lia].
Qed.

Lemma modular_add_single_spec a x : fe a -> in_width 32 x -> fe (modular_add_single a x) /\ val (modular_add_single a x) = (val a + x) mod P25519.
Proof.
  intros (Al & Aw & Av) Hx. unfold modular_add_single, in_width in *. pose proof (accumulate_8 u64 0 (B - 1) x (map (fun x => [x]) a) ltac:(lia) (fits_singles a Aw) ltac:(by rewrite length_map)) as H.
  destruct (accumulate u64 x _) as [state rest]. destruct H as (Sl & Sw & Sb & Sv & Sr). rewrite val_singles in Sv. cbn [fst]. pose proof (val_8_bound a Al Aw). unfold P25519 in *. assert (rest = 0) by lia. subst rest.
  destruct (modular_reduce_spec state Sl Sw ltac:(unfold P25519; lia)) as [Hr Er]. split; [done|]. rewrite Er. unfold P25519. f_equal. lia.
Qed.

Lemma modular_subtract_single_spec a x : fe a -> in_width 32 x -> fe (modular_subtract_single a x) /\ val (modular_subtract_single a x) = (val a - x) mod P25519.
Proof.
  intros (Al & Aw & Av) Hx. unfold modular_subtract_single, in_width in *. rewrite signed64_id by lia.
  pose proof (accumulate_8 signed64 (- 2 ^ 34) (2 ^ 34) (-19 - x) (map (fun x => [x]) a) ltac:(lia) (fits_signed_singles a Aw) ltac:(by rewrite length_map)) as H.
  destruct (accumulate signed64 _ _) as [state rest]. destruct H as (Sl & Sw & Sb & Sv & Sr). rewrite val_singles in Sv. cbn [fst]. pose proof (val_8_bound a Al Aw). apply (reduce_difference state rest (val a - x)); [done|done|lia|unfold P25519 in *; lia].
Qed.

(** ** Multiplication *)
Definition products (c : list (Z * Z)) : Z := sum (map (fun '(x, y) => x * y) c).
Definition factors_ok (c : list (Z * Z)) : Prop := Forall (fun '(x, y) => in_width 32 x /\ in_width 32 y) c.

Lemma comba_step_spec temp carry x y : 0 <= temp < B -> 0 <= carry < 2 ^ 63 -> in_width 32 x -> in_width 32 y ->
  let '(temp', carry') := comba_step (temp, carry) (x, y) in temp' + B * carry' = temp + B * carry + x * y /\ 0 <= temp' < B /\ 0 <= carry' <= carry + B.
Proof.
  intros Ht Hc Hx Hy. unfold in_width in *. unfold comba_step. cbn [fst snd]. assert (0 <= x * y <= (B - 1) * (B - 1)) by nia. set (z := x * y) in *. clearbody z. unfold wrap. rewrite (Z.mod_small z) by lia. rewrite (Z.mod_small (temp + z)) by lia.
  rewrite Z.shiftr_div_pow2 by lia. assert (0 <= (temp + z) / B < B) by (split; [apply Z.div_pos; lia|apply Z.div_lt_upper_bound; lia]). rewrite Z.mod_small by lia. fold (low (temp + z)). rewrite low_mod.
  pose proof (Z.div_mod (temp + z) B ltac:(lia)). pose proof (Z.mod_pos_bound (temp + z) B ltac:(lia)). lia.
Qed.

Lemma comba_column_spec c : factors_ok c -> forall temp carry, 0 <= temp < B -> 0 <= carry -> carry + B * Z.of_nat (length c) < 2 ^ 63 ->
  let '(temp', carry') := foldl comba_step (temp, carry) c in temp' + B * carry' = temp + B * carry + products c /\ 0 <= temp' < B /\ 0 <= carry' <= carry + B * Z.of_nat (length c).
Proof.
  induction 1 as [|[x y] c [Hx Hy] _ IH]; intros temp carry Ht Hc Hn; cbn [foldl]; [cbn; lia|]. cbn [length] in *. pose proof (comba_step_spec temp carry x y Ht ltac:(lia) Hx Hy) as S. destruct (comba_step _ _) as [t1 c1]. destruct S as (S1 & S2 & S3).
  specialize (IH t1 c1 S2 ltac:(lia) ltac:(lia)). destruct (foldl _ _ _) as [t2 c2]. destruct IH as (I1 & I2 & I3). change (products ((x, y) :: c)) with (x * y + products c). lia.
Qed.

Lemma comba_spec columns : Forall (fun c => factors_ok c /\ (length c <= 8)%nat) columns -> forall temp carry, 0 <= temp < B -> 0 <= carry < B ->
  length (comba temp carry columns) = length columns /\ words_ok 32 (comba temp carry columns)
  /\ exists rest, 0 <= rest /\ val (comba temp carry columns) + weight 32 (length columns) * rest = temp + B * carry + val (map products columns).
Proof.
  induction 1 as [|c columns [Hc Hl] _ IH]; intros temp carry Ht Hca.
  - split; [done|]. split; [constructor|]. exists (temp + B * carry). cbn [comba value map length]. rewrite weight_0. lia.
  - cbn [comba]. pose proof (comba_column_spec c Hc temp carry Ht ltac:(lia) ltac:(lia)) as S. destruct (foldl _ _ _) as [t1 c1]. destruct S as (S1 & S2 & S3). fold (low t1) (low c1). rewrite !low_mod, Z.shiftr_div_pow2, (Z.mod_small t1) by lia.
    pose proof (Z.div_mod c1 B ltac:(lia)) as D. pose proof (Z.mod_pos_bound c1 B ltac:(lia)) as M. assert (0 <= c1 / B < B) by (split; [apply Z.div_pos; lia|apply Z.div_lt_upper_bound; lia]).
    destruct (IH (c1 mod B) (c1 / B) M ltac:(lia)) as (L & W & rest & R & V). cbn [length value map]. split; [by rewrite L|]. split; [constructor; [exact S2|done]|]. exists rest. split; [done|]. rewrite (weight_S 32 ltac:(lia)).
    set (v1 := val (comba _ _ _)) in *. set (v2 := val (map products columns)) in *. set (w := weight 32 (length columns) * rest) in *. rewrite <- Z.mul_assoc. fold w. clearbody v1 v2 w. lia.
Qed.

Lemma list_8_words (l : list Z) : length l = 8%nat -> words_ok 32 l -> exists x0 x1 x2 x3 x4 x5 x6 x7, l = [x0; x1; x2; x3; x4; x5; x6; x7] /\ Forall (in_width 32) [x0; x1; x2; x3; x4; x5; x6; x7].
Proof. intros Hl Hw. destruct (list_8 l Hl) as (x0 & x1 & x2 & x3 & x4 & x5 & x6 & x7 & ->). by do 8 eexists. Qed.

Lemma columns_value a b : length a = 8%nat -> length b = 8%nat -> val (map products (map (column a b) (seq 0 16))) = val a * val b.
Proof.
  intros Ha Hb. destruct (list_8 a Ha) as (x0 & x1 & x2 & x3 & x4 & x5 & x6 & x7 & ->). destruct (list_8 b Hb) as (y0 & y1 & y2 & y3 & y4 & y5 & y6 & y7 & ->).
  cbv [map seq column products sum foldr nth Nat.sub Nat.ltb Nat.leb value]. ring.
Qed.

Lemma nth_width l i : words_ok 32 l -> in_width 32 (nth i l 0).
Proof. intros Hw. revert i. induction Hw as [|x l Hx _ IH]; intros [|i]; cbn; try done. Qed.

Lemma columns_ok a b : words_ok 32 a -> words_ok 32 b -> Forall (fun c => factors_ok c /\ (length c <= 8)%nat) (map (column a b) (seq 0 16)).
Proof.
  intros Ha Hb. apply Forall_map, Forall_forall. intros i Hi. apply elem_of_seq in Hi. split; [|unfold column; rewrite length_map; destruct (Nat.ltb_spec i 8); rewrite length_seq; lia].
  apply Forall_map, Forall_forall. intros j _. cbn. split; by apply nth_width.
Qed.

Lemma product_words a b : fe a -> fe b -> let output := comba 0 0 (map (column a b) (seq 0 16)) in length output = 16%nat /\ words_ok 32 output /\ val output = val a * val b.
Proof.
  intros (Al & Aw & Av) (Bl & Bw & Bv) output. destruct (comba_spec _ (columns_ok a b Aw Bw) 0 0 ltac:(lia) ltac:(lia)) as (L & W & rest & R & V). fold output in L, W, V. rewrite columns_value in V by done. rewrite length_map, length_seq in L, V. split; [done|]. split; [done|].
  change (weight 32 16) with (2 ^ 512) in V. pose proof (value_bound 32 ltac:(lia) output W) as Ho. pose proof (val_8_bound a Al Aw). pose proof (val_8_bound b Bl Bw). unfold P25519 in *. assert (val a * val b < 2 ^ 255 * 2 ^ 255) by nia. assert (rest = 0) by nia. subst rest. lia.
Qed.

(** The top bit of eight words, and the words without it *)
Lemma masked_top l : length l = 8%nat -> words_ok 32 l -> let l' := <[7%nat := Z.land (nth 7 l 0) 0x7FFFFFFF]> l in
  length l' = 8%nat /\ words_ok 32 l' /\ val l' = val l mod 2 ^ 255 /\ Z.shiftr (nth 7 l 0) 31 = val l / 2 ^ 255.
Proof.
  intros Hl Hw l'. destruct (top_word l Hl Hw) as (t & x & -> & Ht & Hwt & Hx & Hn & Hv & Hb). subst l'. rewrite Hn, insert_top by done. change 0x7FFFFFFF with (Z.ones 31). rewrite Z.land_ones, Z.shiftr_div_pow2 by lia. unfold in_width in Hx.
  pose proof (Z.mod_pos_bound x (2 ^ 31) ltac:(lia)) as M. split; [rewrite length_app, Ht; done|]. split; [apply Forall_app; split; [done|]; constructor; [unfold in_width; lia|constructor]|].
  rewrite Hv, (value_app 32) by lia. rewrite Ht. change (weight 32 7) with (2 ^ 224). cbn [value]. pose proof (Z.div_mod x (2 ^ 31) ltac:(lia)) as D. split; [apply Z.mod_unique_pos with (x / 2 ^ 31); lia|apply Z.div_unique_pos with (val t + 2 ^ 224 * (x mod 2 ^ 31)); lia].
Qed.

Lemma fold_top_spec l temp : length l = 8%nat -> words_ok 32 l -> 0 <= temp < B / 64 ->
  let r := fold_top l temp in length r = 8%nat /\ words_ok 32 r /\ val r < 2 * P25519 /\ val r == val l + 2 ^ 256 * temp [mod P25519].
Proof.
  intros Hl Hw Ht r. subst r. unfold fold_top. destruct (masked_top l Hl Hw) as (Ml & Mw & Mv & ->). pose proof (val_8_bound l Hl Hw) as Hb. assert (Hq : 0 <= val l / 2 ^ 255 <= 1) by (split; [apply Z.div_pos; lia|apply Z.lt_succ_r, Z.div_lt_upper_bound; lia]).
  set (m := <[7%nat := _]> l) in *. clearbody m. change (B / 64) with 67108864 in Ht. unfold wrap. rewrite (Z.mod_small (temp * 38)) by lia. rewrite Z.mod_small by lia. set (t := temp * 38 + val l / 2 ^ 255 * 19).
  pose proof (accumulate_8 u64 0 (B - 1) t (map (fun x => [x]) m) ltac:(lia) (fits_singles m Mw) ltac:(by rewrite length_map)) as H. destruct (accumulate u64 t _) as [state rest]. destruct H as (Sl & Sw & Sb & Sv & Sr). rewrite val_singles in Sv. cbn [fst].
  pose proof (Z.mod_pos_bound (val l) (2 ^ 255) ltac:(lia)) as Hm. assert (rest = 0) by lia. subst rest. rewrite Z.mul_0_r, Z.add_0_r in Sv. split; [done|]. split; [done|]. split; [unfold P25519; lia|].
  apply congr_divide; [done|]. exists (- (val l / 2 ^ 255) - 2 * temp). rewrite Sv, Mv. unfold t, P25519. pose proof (Z.div_mod (val l) (2 ^ 255) ltac:(lia)). lia.
Qed.

Lemma fe_congr l x : fe l -> val l == x [mod P25519] -> val l = x mod P25519.
Proof. intros (Hl & Hw & Hv) H. rewrite <- H. symmetry. apply Z.mod_small. pose proof (val_8_bound l Hl Hw). lia. Qed.

Lemma modular_multiply_spec a b : fe a -> fe b -> fe (modular_multiply a b) /\ val (modular_multiply a b) = (val a * val b) mod P25519.
Proof.
  intros Ha Hb. destruct (product_words a b Ha Hb) as (Ol & Ow & Ov). unfold modular_multiply. set (output := comba _ _ _) in *. clearbody output.
  assert (El : nth 7 output 0 = nth 7 (take 8 output) 0) by (do 16 (destruct output as [|? output]; [done|]); done).
  assert (Ei : forall x, take 8 (<[7%nat := x]> output) = <[7%nat := x]> (take 8 output) /\ drop 8 (<[7%nat := x]> output) = drop 8 output) by (intros x; do 16 (destruct output as [|? output]; [done|]); by destruct output).
  destruct (Ei (Z.land (nth 7 output 0) 0x7FFFFFFF)) as [-> ->]. rewrite El. clear Ei El. assert (Ll : length (take 8 output) = 8%nat) by (rewrite length_take; lia). assert (Lh : length (drop 8 output) = 8%nat) by (rewrite length_drop; lia).
  pose proof (words_ok_take 32 output 8 Ow) as Wl. pose proof (words_ok_drop 32 output 8 Ow) as Wh. assert (Es : val output = val (take 8 output) + 2 ^ 256 * val (drop 8 output)) by (rewrite (value_split 32 ltac:(lia) 8 output), Ol; done).
  set (L := take 8 output) in *. set (H := drop 8 output) in *. clearbody L H. destruct (masked_top L Ll Wl) as (Ml & Mw & Mv & ->). set (m := <[7%nat := _]> L) in *. clearbody m. pose proof (val_8_bound L Ll Wl) as Lb. pose proof (val_8_bound H Lh Wh) as Hbd.
  assert (Hq : 0 <= val L / 2 ^ 255 <= 1) by (split; [apply Z.div_pos; lia|apply Z.lt_succ_r, Z.div_lt_upper_bound; lia]). set (q := val L / 2 ^ 255) in *. assert (Et : wrap 32 (q * 19) = q * 19) by (apply Z.mod_small; lia). rewrite Et.
  assert (Hf : Forall (fits u64 0 (B - 1)) (zip_with (fun x y => [x; wrap 64 (y * 38)]) m H)).
  { clear - Mw Wh. revert H Wh. induction Mw as [|x m Hx _ IH]; intros [|y h] Wh; try constructor; apply Forall_cons in Wh as [Hy Wh]; [|by apply IH]. unfold in_width in *. unfold wrap. rewrite Z.mod_small by lia. apply fits_u64; [repeat constructor; lia|cbn; lia]. }
  pose proof (accumulate_8 u64 0 (B - 1) (q * 19) _ ltac:(lia) Hf ltac:(rewrite length_zip_with; lia)) as S. destruct (accumulate u64 _ _) as [low1 t]. destruct S as (Sl & Sw & Sb & Sv & Sr). rewrite (val_pairs (fun y => wrap 64 (y * 38))) in Sv by lia.
  replace (map (fun y => wrap 64 (y * 38)) H) with (map (fun y => y * 38) H) in Sv by (apply map_ext_in; intros y Hy; symmetry; apply Z.mod_small; pose proof (proj1 (Forall_forall _ _) Wh y (proj2 (list_elem_of_In _ _) Hy)) as Hw; unfold in_width in Hw; lia). rewrite val_scaled in Sv.
  pose proof (Z.mod_pos_bound (val L) (2 ^ 255) ltac:(lia)) as Hm. destruct (fold_top_spec low1 t Sl Sw) as (Fl & Fw & Fv & Fc); [change (B / 64) with 67108864; nia|].
  destruct (modular_reduce_spec (fold_top low1 t) Fl Fw Fv) as [Rf Rv]. split; [done|]. rewrite Rv, <- Ov. rewrite Fc. apply congr_divide; [done|]. exists (- q - 2 * val H). rewrite Es, Sv, Mv. unfold P25519. pose proof (Z.div_mod (val L) (2 ^ 255) ltac:(lia)) as D. fold q in D. lia.
Qed.

Lemma modular_multiply_single_spec a x : fe a -> 0 <= x < 2 ^ 26 -> fe (modular_multiply_single a x) /\ val (modular_multiply_single a x) = (val a * x) mod P25519.
Proof.
  intros (Al & Aw & Av) Hx. pose proof (val_8_bound a Al Aw) as Ab. unfold modular_multiply_single.
  assert (Em : map (fun y => [wrap 64 (y * x)]) a = map (fun y => [y]) (map (fun y => y * x) a)).
  { rewrite map_map. apply map_ext_in. intros y Hy. pose proof (proj1 (Forall_forall _ _) Aw y (proj2 (list_elem_of_In _ _) Hy)) as Hw. unfold in_width in Hw. f_equal. apply Z.mod_small. nia. }
  rewrite Em. assert (Hf : Forall (fits u64 0 (B - 1)) (map (fun y => [y]) (map (fun y => y * x) a))).
  { rewrite map_map. apply Forall_map, Forall_forall. intros y Hy. pose proof (proj1 (Forall_forall _ _) Aw y Hy) as Hw. unfold in_width in Hw. apply fits_u64; [repeat constructor; nia|cbn; nia]. }
  pose proof (accumulate_8 u64 0 (B - 1) 0 _ ltac:(lia) Hf ltac:(by rewrite !length_map)) as S. rewrite val_singles, val_scaled in S. destruct (accumulate u64 0 _) as [output t]. destruct S as (Sl & Sw & Sb & Sv & Sr).
  destruct (fold_top_spec output t Sl Sw) as (Fl & Fw & Fv & Fc); [change (B / 64) with 67108864; unfold P25519 in Av; nia|].
  destruct (modular_reduce_spec (fold_top output t) Fl Fw Fv) as [Rf Rv]. split; [done|]. rewrite Rv, Fc. f_equal. lia.
Qed.

(** ** Powers *)
#[local] Opaque modular_multiply modular_add modular_subtract modular_multiply_single modular_reduce.

(** The words stand for a number modulo the prime. *)
Definition rep (l : list Z) (z : Z) : Prop := fe l /\ val l == z [mod P25519].

Lemma rep_fe l : fe l -> rep l (val l).
Proof. intros H. split; [done|reflexivity]. Qed.
Lemma rep_congr l z z' : rep l z -> z == z' [mod P25519] -> rep l z'.
Proof. intros [Hf Hv] E. split; [done|]. by rewrite Hv. Qed.
Lemma rep_mod l z : rep l z -> val l = z mod P25519.
Proof. intros [Hf Hv]. by apply fe_congr. Qed.
Lemma rep_multiply l k x y : rep l x -> rep k y -> rep (modular_multiply l k) (x * y).
Proof. intros [Hl Ex] [Hk Ey]. destruct (modular_multiply_spec l k Hl Hk) as [Hf Hv]. split; [done|]. by rewrite Hv, congr_mod, Ex, Ey. Qed.
Lemma rep_square l x : rep l x -> rep (modular_square l) (x * x).
Proof. intros H. exact (rep_multiply l l x x H H). Qed.
Lemma rep_add l k x y : rep l x -> rep k y -> rep (modular_add l k) (x + y).
Proof. intros [Hl Ex] [Hk Ey]. destruct (modular_add_spec l k Hl Hk) as [Hf Hv]. split; [done|]. by rewrite Hv, congr_mod, Ex, Ey. Qed.
Lemma rep_subtract l k x y : rep l x -> rep k y -> rep (modular_subtract l k) (x - y).
Proof. intros [Hl Ex] [Hk Ey]. destruct (modular_subtract_spec l k Hl Hk) as [Hf Hv]. split; [done|]. by rewrite Hv, congr_mod, Ex, Ey. Qed.
Lemma rep_multiply_single l x y : rep l x -> 0 <= y < 2 ^ 26 -> rep (modular_multiply_single l y) (x * y).
Proof. intros [Hl Ex] Hy. destruct (modular_multiply_single_spec l y Hl Hy) as [Hf Hv]. split; [done|]. by rewrite Hv, congr_mod, Ex. Qed.

Definition power (l : list Z) (x e : Z) : Prop := 0 <= e /\ rep l (x ^ e).

Lemma power_one l x : rep l x -> power l x 1.
Proof. intros H. split; [lia|]. by rewrite Z.pow_1_r. Qed.
Lemma power_multiply l k x e1 e2 : power l x e1 -> power k x e2 -> power (modular_multiply l k) x (e1 + e2).
Proof. intros [H1 R1] [H2 R2]. split; [lia|]. rewrite Z.pow_add_r by lia. by apply rep_multiply. Qed.
Lemma power_square l x e : power l x e -> power (modular_square l) x (e + e).
Proof. intros H. exact (power_multiply l l x e e H H). Qed.
Lemma times_two z : z * 2 = z + z.
Proof. lia. Qed.
Lemma power_2n l x e n : (0 < n)%nat -> power l x e -> power (to_power_of_2n l n) x (e * 2 ^ Z.of_nat n).
Proof.
  intros Hn H. destruct n as [|n]; [inversion Hn|]. unfold to_power_of_2n. rewrite Nat.sub_succ, Nat.sub_0_r. clear Hn. induction n as [|m IH].
  - change (2 ^ Z.of_nat 1) with 2. rewrite times_two. exact (power_square l x e H).
  - change (Nat.iter (S m) modular_square (modular_square l)) with (modular_square (Nat.iter m modular_square (modular_square l))). rewrite (Nat2Z.inj_succ (S m)), Z.pow_succ_r by apply Nat2Z.is_nonneg.
    rewrite (Z.mul_comm 2), Z.mul_assoc, times_two. exact (power_square _ x _ IH).
Qed.

(** The part that the inverse and the square root have in common: the power 2^252 - 3 *)
Definition chain (c : list Z) : list Z :=
  let u := modular_square c in
  let u := modular_multiply u c in
  let u := modular_square u in
  let v := modular_multiply u c in
  let u := to_power_of_2n v 3 in
  let u := modular_multiply u v in
  let u := modular_square u in
  let v := modular_multiply u c in
  let u := to_power_of_2n v 7 in
  let u := modular_multiply u v in
  let u := modular_square u in
  let v := modular_multiply u c in
  let u := to_power_of_2n v 15 in
  let u := modular_multiply u v in
  let u := modular_square u in
  let v := modular_multiply u c in
  let u := to_power_of_2n v 31 in
  let v := modular_multiply u v in
  let u := to_power_of_2n v 62 in
  let u := modular_multiply u v in
  let u := modular_square u in
  let v := modular_multiply u c in
  let u := to_power_of_2n v 125 in
  let u := modular_multiply u v in
  let u := modular_square u in
  let u := modular_square u in
  modular_multiply u c.

Lemma power_let l x e (f : list Z -> list Z) e' : power l x e -> (forall k, power k x e -> power (f k) x e') -> power (let k := l in f k) x e'.
Proof. auto. Qed.

(** One step of a chain whose values so far are powers *)
Ltac power_step :=
  match goal with
  | |- power (let k := ?l in @?f k) ?x ?e' =>
      refine (power_let l x _ f e' _ _); [power_step|let k := fresh "k" in let Hk := fresh "H" in intros k Hk; cbv beta]
  | H1 : power ?l ?x ?e1, H2 : power ?k ?x ?e2 |- power (modular_multiply ?l ?k) ?x _ => exact (power_multiply l k x e1 e2 H1 H2)
  | H1 : power ?l ?x ?e1 |- power (modular_square ?l) ?x _ => exact (power_square l x e1 H1)
  | H1 : power ?l ?x ?e1 |- power (to_power_of_2n ?l ?n) ?x _ => exact (power_2n l x e1 n (Nat.lt_0_succ _) H1)
  end.

Lemma chain_power c x : rep c x -> power (chain c) x (2 ^ 252 - 3).
Proof.
  intros Hc. apply power_one in Hc. assert (exists e, power (chain c) x e /\ e = 2 ^ 252 - 3) as (e & H & <-); [|done].
  eexists. split; [cbv beta delta [chain]; repeat power_step|vm_compute; reflexivity].
Qed.

(** ** The inverse *)
Lemma inverse_chain value : modular_multiply_inverse value =
  modular_multiply (modular_square (modular_multiply (modular_square (modular_square (chain value))) value)) value.
Proof. reflexivity. Qed.

Lemma modular_multiply_inverse_rep l x : rep l x -> rep (modular_multiply_inverse l) (x ^ (P25519 - 2)).
Proof.
  intros Hl. rewrite inverse_chain. pose proof (chain_power l x Hl) as Hc. apply power_one in Hl. assert (H : exists e, power (modular_multiply (modular_square (modular_multiply (modular_square (modular_square (chain l))) l)) l) x e /\ e = P25519 - 2).
  { eexists. split; [|shelve]. apply power_multiply; [apply power_square, power_multiply; [apply power_square, power_square; exact Hc|exact Hl]|exact Hl]. Unshelve. vm_compute. reflexivity. }
  destruct H as (e & [_ H] & ->). exact H.
Qed.

Lemma inverse_exact x : ~ (P25519 | x) -> x ^ (P25519 - 2) * x == 1 [mod P25519].
Proof.
  intros Hx. transitivity (x ^ (P25519 - 1)); [|by apply fermat_little; [apply prime_25519|]]. apply eq_congr. rewrite <- (Z.pow_1_r x) at 2. rewrite <- Z.pow_add_r by (unfold P25519; lia). done.
Qed.

(** ** Comparison *)
Lemma compare_spec a b : fe a -> fe b -> (compare a b = 0 \/ compare a b = 1) /\ (compare a b = 0 <-> a = b).
Proof.
  intros (Al & Aw & _) (Bl & Bw & _). unfold compare. pose proof (zip_lxor_width 32 a b ltac:(lia) Aw Bw) as Hx. pose proof (foldl_lor_width 32 _ ltac:(lia) Hx 0 ltac:(done)) as Hm.
  pose proof (foldl_lor_0 (zip_with Z.lxor a b) 0) as Hz. rewrite zip_lxor_0 in Hz by lia. set (mask := foldl _ _ _) in *. clearbody mask. unfold in_width in Hm. rewrite Z.shiftr_lor, !Z.shiftr_div_pow2 by lia.
  destruct (Z.eq_dec mask 0) as [->|Hne].
  - change (wrap 32 (wrap 32 (Z.lnot 0) + 1)) with 0. cbn. split; [by left|]. intuition.
  - assert (Ew : wrap 32 (wrap 32 (Z.lnot mask) + 1) = 2 ^ 32 - mask).
    { unfold wrap, Z.lnot. replace (Z.pred (- mask)) with (2 ^ 32 - mask - 1 + (-1) * 2 ^ 32) by lia. rewrite Z.mod_add, (Z.mod_small (2 ^ 32 - mask - 1)) by lia. rewrite Z.mod_small by lia. lia. }
    rewrite Ew. assert (E1 : Z.lor (mask / 2 ^ 31) ((2 ^ 32 - mask) / 2 ^ 31) = 1).
    { assert (Hq : forall z, 0 <= z < 2 ^ 32 -> z / 2 ^ 31 = if z <? 2 ^ 31 then 0 else 1) by (intros z Hz'; destruct (Z.ltb_spec z (2 ^ 31)); symmetry; [apply Z.div_unique with z|apply Z.div_unique with (z - 2 ^ 31)]; lia).
      rewrite !Hq by lia. destruct (Z.ltb_spec mask (2 ^ 31)), (Z.ltb_spec (2 ^ 32 - mask) (2 ^ 31)); try done. lia. }
    rewrite E1. split; [by right|]. split; [done|]. intros E. exfalso. apply Hne, Hz. done.
Qed.

(** ** The square root *)
Lemma sqrt_chain a b : modular_square_root a b =
  let v := modular_multiply (modular_square (modular_multiply (modular_square b) b)) b in
  let u := chain (modular_multiply a v) in
  let u := modular_multiply (modular_multiply u a) (modular_multiply (modular_square b) b) in
  let v := modular_multiply u SQRT_MINUS_1 in
  let first_comparison := compare (modular_multiply (modular_square u) b) a in
  let second_comparison := compare (modular_multiply (modular_square v) b) a in
  (select u v first_comparison, Z.land first_comparison second_comparison).
Proof. reflexivity. Qed.

Lemma sqrt_minus_1 : rep SQRT_MINUS_1 (value 32 SQRT_MINUS_1) /\ val SQRT_MINUS_1 * val SQRT_MINUS_1 == -1 [mod P25519].
Proof.
  split; [|vm_compute; reflexivity]. apply rep_fe. split; [done|]. split; [|vm_compute; reflexivity]. apply (bool_decide_unpack _). vm_compute. exact I.
Qed.

Lemma fe_eq a b : fe a -> fe b -> val a = val b -> a = b.
Proof.
  intros (Al & Aw & _) (Bl & Bw & _) E. apply list_eq. intros i. destruct (Nat.lt_ge_cases i 8) as [Hi|Hi]; [|rewrite !lookup_ge_None_2 by lia; done].
  pose proof (digit_lookup 32 ltac:(lia) a i Aw) as Da. pose proof (digit_lookup 32 ltac:(lia) b i Bw) as Db. rewrite E in Da. destruct (lookup_lt_is_Some_2 a i ltac:(lia)) as [x Hx]. destruct (lookup_lt_is_Some_2 b i ltac:(lia)) as [y Hy].
  rewrite Hx in *. rewrite Hy in *. cbn in Da, Db. congruence.
Qed.

(** The comparison of a representative with a field element *)
Lemma compare_rep l z a : rep l z -> fe a -> (compare l a = 0 \/ compare l a = 1) /\ (compare l a = 0 <-> z == val a [mod P25519]).
Proof.
  intros [Hl Ez] Ha. destruct (compare_spec l a Hl Ha) as [H1 H2]. split; [done|]. rewrite H2, <- Ez. split; [by intros ->|]. intros E. apply fe_eq; [done|done|].
  apply fe_congr in E; [|done]. rewrite E. destruct Ha as (Al & Aw & Av). apply Z.mod_small. pose proof (val_8_bound a Al Aw). lia.
Qed.

(** Euler: a root of [a / b], raised to a power by the chain, is a root up to the sign. *)
Lemma sqrt_candidate p e a b s : prime p -> 0 <= e -> 8 * e + 4 = p - 1 -> ~ (p | b) -> ~ (p | s) -> a == b * (s * s) [mod p] ->
  let u := (a * (b * b * b * (b * b * b) * b)) ^ e * a * (b * b * b) in
  b * (u * u) == a [mod p] \/ b * (u * u) == - a [mod p].
Proof.
  intros Hp He Hpe Hb Hs Ha u. assert (Hu : u == s ^ (2 * e + 2) [mod p]).
  { subst u. rewrite Ha. replace (b * (s * s) * (b * b * b * (b * b * b) * b)) with (s ^ 2 * b ^ 8) by ring. rewrite Z.pow_mul_l, <- !Z.pow_mul_r by lia.
    replace (s ^ (2 * e) * b ^ (8 * e) * (b * (s * s)) * (b * b * b)) with (s ^ (2 * e) * s ^ 2 * (b ^ (8 * e) * b ^ 4)) by ring.
    rewrite <- !Z.pow_add_r by lia. rewrite Hpe, (fermat_little p b) by done. by rewrite Z.mul_1_r. }
  assert (Hh : s ^ (4 * e + 2) * s ^ (4 * e + 2) == 1 [mod p]).
  { rewrite <- Z.pow_add_r by lia. replace (4 * e + 2 + (4 * e + 2)) with (p - 1) by lia. by apply fermat_little. }
  assert (Huu : b * (u * u) == b * (s * s) * s ^ (4 * e + 2) [mod p]).
  { rewrite Hu. apply eq_congr. rewrite <- Z.mul_assoc. f_equal. replace (s * s) with (s ^ 2) by ring. rewrite <- !Z.pow_add_r by lia. f_equal. lia. }
  apply square_root_of_one in Hh; [|done]. destruct Hh as [E|E]; [left|right]; rewrite Huu, E, Ha; apply eq_congr; ring.
Qed.

Lemma congr_0_divide x : x == 0 [mod P25519] <-> (P25519 | x).
Proof. rewrite congr_divide by done. by rewrite Z.sub_0_r. Qed.

(** The candidate of the code and its multiple by the root of -1 *)
Lemma sqrt_reps a b : fe a -> fe b -> exists u,
  let A := val a in let C := val b in let U := (A * (C * C * C * (C * C * C) * C)) ^ (2 ^ 252 - 3) * A * (C * C * C) in
  rep u U /\ modular_square_root a b =
    (let v := modular_multiply u SQRT_MINUS_1 in
     let first_comparison := compare (modular_multiply (modular_square u) b) a in
     let second_comparison := compare (modular_multiply (modular_square v) b) a in
     (select u v first_comparison, Z.land first_comparison second_comparison)).
Proof.
  intros Ha Hb. apply rep_fe in Ha, Hb. rewrite sqrt_chain. eexists. split; [|reflexivity]. pose proof (rep_multiply _ _ _ _ (rep_square _ _ Hb) Hb) as H3.
  apply rep_multiply; [|exact H3]. apply rep_multiply; [|exact Ha]. apply chain_power. apply rep_multiply; [exact Ha|]. apply rep_multiply; [|exact Hb]. exact (rep_square _ _ H3).
Qed.

(** The square root of [a / b]: the second result is 0 exactly if there is a root, and then the first one is a root. *)
Lemma modular_square_root_spec a b : fe a -> fe b -> let '(r, e) := modular_square_root a b in
  (e = 0 \/ e = 1) /\ (e = 0 -> fe r /\ val b * (val r * val r) == val a [mod P25519]) /\ ((exists s, val b * (s * s) == val a [mod P25519]) -> e = 0).
Proof.
  intros Ha Hb. destruct (sqrt_reps a b Ha Hb) as (u & Hu & E). rewrite E. clear E. cbv zeta. set (U := _ ^ _ * _ * _) in Hu.
  assert (Hzero : val a == 0 [mod P25519] -> U == 0 [mod P25519]) by (intros Ea; unfold U; rewrite Ea at 2; apply eq_congr; ring).
  assert (Hcand : forall s, ~ (P25519 | val b) -> ~ (P25519 | s) -> val b * (s * s) == val a [mod P25519] -> val b * (U * U) == val a [mod P25519] \/ val b * (U * U) == - val a [mod P25519]).
  { intros s Hdb Hds Es. exact (sqrt_candidate P25519 (2 ^ 252 - 3) (val a) (val b) s prime_25519 ltac:(done) eq_refl Hdb Hds (symmetry Es)). }
  clearbody U. destruct sqrt_minus_1 as [Hm Hm1]. set (m := val SQRT_MINUS_1) in *. clearbody m.
  pose proof (rep_multiply _ _ _ _ Hu Hm) as Hv. pose proof (rep_fe b Hb) as Hrb. destruct (compare_rep _ _ a (rep_multiply _ _ _ _ (rep_square _ _ Hu) Hrb) Ha) as [F1 F2].
  destruct (compare_rep _ _ a (rep_multiply _ _ _ _ (rep_square _ _ Hv) Hrb) Ha) as [S1 S2]. set (first := compare (modular_multiply (modular_square u) b) a) in *. set (second := compare (modular_multiply (modular_square (modular_multiply u SQRT_MINUS_1)) b) a) in *. clearbody first second.
  assert (Hsel : (first = 0 -> select u (modular_multiply u SQRT_MINUS_1) first = u) /\ (first = 1 -> select u (modular_multiply u SQRT_MINUS_1) first = modular_multiply u SQRT_MINUS_1)).
  { destruct Hu as [(Ul & Uw & _) _]. destruct Hv as [(Vl & Vw & _) _]. apply select_spec; [lia|done|done]. }
  assert (He : Z.land first second = 0 <-> first = 0 \/ second = 0) by (destruct F1 as [-> | ->], S1 as [-> | ->]; cbn; intuition; done).
  split; [destruct F1 as [-> | ->], S1 as [-> | ->]; cbn; auto|]. split.
  - rewrite He. intros H0. destruct F1 as [E1|E1].
    + rewrite (proj1 Hsel E1). destruct Hu as [Hf Ev]. split; [done|]. rewrite Ev, Z.mul_comm. by apply F2.
    + rewrite (proj2 Hsel E1). destruct Hv as [Hf Ev]. split; [done|]. rewrite Ev, Z.mul_comm. apply S2. destruct H0; [congruence|done].
  - intros (s & Es). apply He. destruct (Zdivide_dec P25519 (val b)) as [Hdb|Hdb].
    { apply congr_0_divide in Hdb. left. apply F2. rewrite Hdb, Z.mul_0_r, <- Es, Hdb. done. }
    destruct (Zdivide_dec P25519 s) as [Hds|Hds].
    { apply congr_0_divide in Hds. left. apply F2. assert (Ea : val a == 0 [mod P25519]) by (rewrite <- Es, Hds; apply eq_congr; ring). rewrite (Hzero Ea), Ea. apply eq_congr. ring. }
    destruct (Hcand s Hdb Hds Es) as [H1|H1]; [left; apply F2|right; apply S2].
    + rewrite <- H1. apply eq_congr. ring.
    + transitivity (val b * (U * U) * (m * m)); [apply eq_congr; ring|]. rewrite H1, Hm1. apply eq_congr. ring.
Qed.

(** C9: The field operations of Curve25519 are exact: on eight words that stand for numbers below 2^255 - 19,
    addition, subtraction, multiplication, squaring, the operations with a single word and the powers of 2^n give eight
    words below the prime again, for the result modulo the prime; no accumulator overflows or loses a carry. *)
Theorem curve25519_field_exact (a b : list Z) (x y : Z) (n : nat) : fe a -> fe b -> in_width 32 x -> 0 <= y < 2 ^ 26 -> (0 < n)%nat ->
  let exact (l : list Z) (z : Z) := fe l /\ value 32 l = z mod P25519 in
  exact (modular_add a b) (value 32 a + value 32 b) /\ exact (modular_subtract a b) (value 32 a - value 32 b)
  /\ exact (modular_multiply a b) (value 32 a * value 32 b) /\ exact (modular_square a) (value 32 a * value 32 a)
  /\ exact (modular_add_single a x) (value 32 a + x) /\ exact (modular_subtract_single a x) (value 32 a - x)
  /\ exact (modular_multiply_single a y) (value 32 a * y) /\ exact (to_power_of_2n a n) (value 32 a ^ 2 ^ Z.of_nat n).
Proof.
  intros Ha Hb Hx Hy Hn exact. split; [by apply modular_add_spec|]. split; [by apply modular_subtract_spec|]. split; [by apply modular_multiply_spec|]. split; [exact (modular_multiply_spec a a Ha Ha)|].
  split; [by apply modular_add_single_spec|]. split; [by apply modular_subtract_single_spec|]. split; [by apply modular_multiply_single_spec|].
  destruct (power_2n a (value 32 a) 1 n Hn (power_one _ _ (rep_fe a Ha))) as [_ Hr]. rewrite Z.mul_1_l in Hr. split; [apply Hr|by apply rep_mod].
Qed.

Lemma curve25519_field_exact_witness :
  let a := [7; 0; 0; 0; 0; 0; 0; 0x7FFFFFFF] in let b := [9; 1; 2; 3; 4; 5; 6; 7] in
  let exact (l : list Z) (z : Z) := fe l /\ value 32 l = z mod P25519 in
  exact (modular_add a b) (value 32 a + value 32 b) /\ exact (modular_subtract a b) (value 32 a - value 32 b)
  /\ exact (modular_multiply a b) (value 32 a * value 32 b) /\ exact (modular_square a) (value 32 a * value 32 a)
  /\ exact (modular_add_single a 0xFFFFFFFF) (value 32 a + 0xFFFFFFFF) /\ exact (modular_subtract_single a 0xFFFFFFFF) (value 32 a - 0xFFFFFFFF)
  /\ exact (modular_multiply_single a 121666) (value 32 a * 121666) /\ exact (to_power_of_2n a 3) (value 32 a ^ 2 ^ Z.of_nat 3).
Proof.
  apply curve25519_field_exact; [| |done|lia|lia]; (split; [done|]; split; [|vm_compute; reflexivity]; apply (bool_decide_unpack _); vm_compute; exact I).
Defined.

(** C18: The inverse is one, and the square root finds a root whenever there is one: for a field element that is not
    zero the chain of squarings gives the element whose product with it is 1; and the square root of [a / b] reports
    0 exactly if some [s] has [b * s^2 = a], and then gives such an element.  Both rest on 2^255 - 19 being prime. *)
Theorem curve25519_inverse_and_root (a b : list Z) : fe a -> fe b ->
  fe (modular_multiply_inverse a) /\ (value 32 a <> 0 -> (value 32 (modular_multiply_inverse a) * value 32 a) mod P25519 = 1)
  /\ let '(r, e) := modular_square_root a b in
     (e = 0 \/ e = 1) /\ (e = 0 -> fe r /\ (value 32 b * (value 32 r * value 32 r)) mod P25519 = value 32 a)
     /\ ((exists s, (value 32 b * (s * s)) mod P25519 = value 32 a) -> e = 0).
Proof.
  intros Ha Hb. assert (Hav : 0 <= value 32 a < P25519) by (destruct Ha as (Al & Aw & Av); pose proof (val_8_bound a Al Aw); lia). destruct (modular_multiply_inverse_rep a _ (rep_fe a Ha)) as [Hf Hv]. split; [done|]. split.
  - intros Hnz. rewrite <- (Z.mod_1_l P25519) by done. change (value 32 (modular_multiply_inverse a) * value 32 a == 1 [mod P25519]). rewrite Hv. apply inverse_exact. intros Hd. apply Z.divide_pos_le in Hd; lia.
  - pose proof (modular_square_root_spec a b Ha Hb) as H. destruct (modular_square_root a b) as [r e]. destruct H as (H1 & H2 & H3). split; [done|]. split.
    + intros E. destruct (H2 E) as [Hr Hv']. split; [done|]. unfold congr in Hv'. rewrite Hv'. by apply Z.mod_small.
    + intros (s & Es). apply H3. exists s. unfold congr. rewrite Es. symmetry. by apply Z.mod_small.
Qed.

Lemma curve25519_inverse_and_root_witness :
  let a := [7; 0; 0; 0; 0; 0; 0; 0x7FFFFFFF] in let b := [9; 1; 2; 3; 4; 5; 6; 7] in
  fe (modular_multiply_inverse a) /\ (value 32 a <> 0 -> (value 32 (modular_multiply_inverse a) * value 32 a) mod P25519 = 1)
  /\ let '(r, e) := modular_square_root a b in
     (e = 0 \/ e = 1) /\ (e = 0 -> fe r /\ (value 32 b * (value 32 r * value 32 r)) mod P25519 = value 32 a)
     /\ ((exists s, (value 32 b * (s * s)) mod P25519 = value 32 a) -> e = 0).
Proof.
  apply curve25519_inverse_and_root; (split; [done|]; split; [|vm_compute; reflexivity]; apply (bool_decide_unpack _); vm_compute; exact I).
Defined.
