(* ===== verification/X25519.v ===== *)
(** * X25519: Userland/Libraries/LibCrypto/Curves/X25519.cpp and X25519.h

    The Diffie-Hellman function on Curve25519: the Montgomery ladder with its lagged conditional swaps,
    on the field arithmetic of Curve25519.v and with the buffers of ByteBuffer.v.  The specification is
    the ladder without swaps, a pair of consecutive multiples that is doubled and added with the textbook
    formulas of the curve y^2 = x^3 + 486662 x^2 + x; these formulas are justified against the chord and
    tangent construction.  The theorem says that every call with 32-byte arguments gives that function,
    without an allocation. *)
From Stdlib Require Import Znumtheory.
From S2P Require Import Prelude MemMem Congruence BigIntBase Poly1305 ByteBuffer Prime25519 Curve25519.

Local Open Scope Z_scope.

(** ByteBuffer, the one with 32 bytes inside the object *)
#[local] Notation inline_capacity := 32%nat.

Definition A24 : Z := 121666.

Definition conditional_swap (first second : list Z) (condition : Z) : list Z * list Z :=
  let mask := wrap 32 (wrap 32 (Z.lnot condition) + 1) in
  let temp := zip_with (fun x y => Z.land mask (Z.lxor x y)) first second in
  (zip_with Z.lxor first temp, zip_with Z.lxor second temp).

(** The variables of the ladder; [t1] and [t2] are written before they are read in every round. *)
Record Ladder := mkLadder { x1 : list Z; z1 : list Z; x2 : list Z; z2 : list Z; swap : Z }.

(** One round, for bit [i] of the scalar *)
Definition ladder_round (k u : list Z) (s : Ladder) (i : nat) : Ladder :=
  let b := Z.land (Z.shiftr (nth (i / BYTES) k 0) (Z.of_nat (i mod BYTES))) 1 in
  let '(x1, x2) := conditional_swap (x1 s) (x2 s) (Z.lxor (swap s) b) in
  let '(z1, z2) := conditional_swap (z1 s) (z2 s) (Z.lxor (swap s) b) in
  let swap := b in
  let t1 := modular_add x2 z2 in
  let x2 := modular_subtract x2 z2 in
  let z2 := modular_add x1 z1 in
  let x1 := modular_subtract x1 z1 in
  let t1 := modular_multiply t1 x1 in
  let x2 := modular_multiply x2 z2 in
  let z2 := modular_square z2 in
  let x1 := modular_square x1 in
  let t2 := modular_subtract z2 x1 in
  let z1 := modular_multiply_single t2 A24 in
  let z1 := modular_add z1 x1 in
  let z1 := modular_multiply z1 t2 in
  let x1 := modular_multiply x1 z2 in
  let z2 := modular_subtract t1 x2 in
  let z2 := modular_square z2 in
  let z2 := modular_multiply z2 u in
  let x2 := modular_add x2 t1 in
  let x2 := modular_square x2 in
  mkLadder x1 z1 x2 z2 swap.

(** The scalar and the coordinate as they are decoded *)
Definition clamp (k : list Z) : list Z :=
  let k := <[0%nat := Z.land (nth 0 k 0) 0xFFFFFFF8]> k in
  let k := <[7%nat := Z.land (nth 7 k 0) 0x7FFFFFFF]> k in
  <[7%nat := Z.lor (nth 7 k 0) 0x40000000]> k.
Definition decode_coordinate (u : list Z) : list Z :=
  let u := <[7%nat := Z.land (nth 7 u 0) 0x7FFFFFFF]> u in
  modular_reduce u.

(** The rounds for the bits [BITS - 1] down to 0, and the division at the end *)
Definition montgomery_ladder (k u : list Z) : list Z :=
  let s := foldl (ladder_round k u) (mkLadder (set 1) (set 0) (Curve25519.copy u) (set 1) 0) (rev (seq 0 BITS)) in
  let '(x1, x2) := conditional_swap (x1 s) (x2 s) (swap s) in
  let '(z1, z2) := conditional_swap (z1 s) (z2 s) (swap s) in
  let u := modular_multiply_inverse z1 in
  modular_multiply u x1.

Section X25519.
Context {G : GoodSize}.

Definition compute_coordinate (input_k input_u : list Z) : M Heap ByteBuffer :=
  k ← lift (import_state input_k);
  let k := clamp k in
  u ← lift (import_state input_u);
  let u := decode_coordinate u in
  let u := montgomery_ladder k u in
  buffer ← create_uninitialized inline_capacity (Z.of_nat BYTES);
  lift (write buffer 0 (map Some (export_state u))).

(** [entropy] is what [fill_with_random] writes. *)
Definition generate_private_key (entropy : list Z) : M Heap ByteBuffer :=
  buffer ← create_uninitialized inline_capacity (Z.of_nat BYTES);
  lift (write buffer 0 (map Some entropy)).

Definition generate_public_key (a : list Z) : M Heap ByteBuffer :=
  let generator := 9 :: replicate 31 0 in
  compute_coordinate a generator.

Definition derive_premaster_key (shared_point : list Z) : M Heap ByteBuffer :=
  VERIFY (length shared_point =? BYTES)%nat ;;
  ByteBuffer.copy inline_capacity (map Some shared_point).
End X25519.

(** ** The specification: x-coordinates of multiples of a point on y^2 = x^3 + A x^2 + x *)
Definition A : Z := 486662.
Definition point : Type := Z * Z.

Definition double (p : point) : point :=
  let '(x, z) := p in
  ((x * x - z * z) ^ 2 mod P25519, 4 * x * z * (x * x + A * x * z + z * z) mod P25519).

(** The sum of two points whose difference has the coordinate [u] *)
Definition differential_add (u : Z) (p q : point) : point :=
  let '(x, z) := p in let '(x', z') := q in
  (4 * (x * x' - z * z') ^ 2 mod P25519, 4 * u * (x * z' - z * x') ^ 2 mod P25519).

(** From the multiples [n] and [n + 1] to [2n + b] and [2n + b + 1] *)
Definition next_multiples (u : Z) (pq : point * point) (b : bool) : point * point :=
  let '(p, q) := pq in if b then (differential_add u p q, double q) else (double p, differential_add u p q).

Definition multiple (u K : Z) : point := (foldl (next_multiples u) ((1, 0), (u, 1)) (map (fun i => Z.testbit K (Z.of_nat i)) (rev (seq 0 255)))).1.

Definition x25519_scalar (k : Z) : Z := 2 ^ 254 + 8 * (k mod 2 ^ 254 / 8).
Definition x25519_coordinate (u : Z) : Z := u mod 2 ^ 255 mod P25519.

Definition x25519 (k u : Z) : Z :=
  let '(x, z) := multiple (x25519_coordinate u) (x25519_scalar k) in
  z ^ (P25519 - 2) * x mod P25519.

#[local] Opaque modular_add modular_subtract modular_multiply modular_square modular_multiply_single modular_multiply_inverse modular_reduce.
#[local] Notation B := (2 ^ 32).
#[local] Notation val := (value 32).

(** ** Conditional swaps *)
Lemma conditional_swap_spec a b c : length a = length b -> words_ok 32 a -> words_ok 32 b -> conditional_swap a b (Z.b2z c) = if c then (b, a) else (a, b).
Proof.
  intros Hl Ha Hb. assert (Hid : forall x, in_width 32 x -> Z.land 0xFFFFFFFF x = x) by (intros x Hx; rewrite Z.land_comm; change 0xFFFFFFFF with (Z.ones 32); rewrite Z.land_ones by lia; by apply Z.mod_small).
  unfold conditional_swap. set (mask := wrap 32 _). assert (E : mask = if c then 0xFFFFFFFF else 0) by (by destruct c). rewrite E. clear mask E.
  revert b Hl Hb. induction Ha as [|x a Hx Ha IH]; intros [|y b] Hl Hb; try done; [by destruct c|]. apply Forall_cons in Hb as [Hy Hb]. cbn [zip_with]. specialize (IH b ltac:(cbn in Hl; lia) Hb). cbv zeta in IH.
  destruct c; injection IH as E1 E2; rewrite E1, E2.
  - rewrite Hid by (apply lxor_width; [lia|done|done]). rewrite <- Z.lxor_assoc, Z.lxor_nilpotent, Z.lxor_0_l. rewrite (Z.lxor_comm x y), <- Z.lxor_assoc, Z.lxor_nilpotent, Z.lxor_0_l. done.
  - by rewrite Z.land_0_l, !Z.lxor_0_r.
Qed.

Lemma swap_reps a b c x y : rep a x -> rep b y -> conditional_swap a b (Z.b2z c) = if c then (b, a) else (a, b).
Proof. intros [(Al & Aw & _) _] [(Bl & Bw & _) _]. apply conditional_swap_spec; [lia|done|done]. Qed.

Lemma b2z_xor b c : Z.lxor (Z.b2z b) (Z.b2z c) = Z.b2z (xorb b c).
Proof. by destruct b, c. Qed.

(** ** A round *)
Definition rep_point (x z : list Z) (p : point) : Prop := rep x p.1 /\ rep z p.2.

(** The two points, exchanged if the last bit was set *)
Definition holds_pair (s : Ladder) (pq : point * point) (b : bool) : Prop :=
  swap s = Z.b2z b /\ rep_point (x1 s) (z1 s) (if b then pq.2 else pq.1) /\ rep_point (x2 s) (z2 s) (if b then pq.1 else pq.2).

Lemma differential_add_comm u p q : differential_add u p q = differential_add u q p.
Proof. destruct p as [x z], q as [x' z']. cbn. f_equal; f_equal; ring. Qed.

Lemma swapped_pair s pq b c : holds_pair s pq b -> exists y1 y2 w1 w2,
  conditional_swap (x1 s) (x2 s) (Z.lxor (swap s) (Z.b2z c)) = (y1, y2) /\ conditional_swap (z1 s) (z2 s) (Z.lxor (swap s) (Z.b2z c)) = (w1, w2)
  /\ rep_point y1 w1 (if c then pq.2 else pq.1) /\ rep_point y2 w2 (if c then pq.1 else pq.2).
Proof.
  intros (Es & [H1 H2] & [H3 H4]). rewrite Es, b2z_xor. rewrite (swap_reps _ _ _ _ _ H1 H3), (swap_reps _ _ _ _ _ H2 H4).
  destruct b, c; do 4 eexists; split_and!; try reflexivity; by split.
Qed.

#[local] Opaque rep.

Ltac rep_ops := repeat first [eassumption | apply rep_multiply | apply rep_square | apply rep_add | apply rep_subtract | apply rep_multiply_single; [|done]].

Lemma ladder_double y w p : rep_point y w p ->
  let z2 := modular_square (modular_add y w) in
  let x1 := modular_square (modular_subtract y w) in
  let t2 := modular_subtract z2 x1 in
  rep_point (modular_multiply x1 z2) (modular_multiply (modular_add (modular_multiply_single t2 A24) x1) t2) (double p).
Proof.
  destruct p as [x z]. intros [Hx Hz]. cbn [fst snd] in Hx, Hz. split; cbn [double fst snd]; (eapply rep_congr; [rep_ops|]); (etransitivity; [|symmetry; apply congr_mod]); apply eq_congr; unfold A24, A; ring.
Qed.

Lemma ladder_add y w y' w' u U p q : rep_point y w p -> rep_point y' w' q -> rep u U ->
  let t1 := modular_multiply (modular_add y' w') (modular_subtract y w) in
  let x2 := modular_multiply (modular_subtract y' w') (modular_add y w) in
  rep_point (modular_square (modular_add x2 t1)) (modular_multiply (modular_square (modular_subtract t1 x2)) u) (differential_add U p q).
Proof.
  destruct p as [x z], q as [x' z']. intros [Hx Hz] [Hx' Hz'] Hu. cbn [fst snd] in *. split; cbn [differential_add fst snd]; (eapply rep_congr; [rep_ops|]); (etransitivity; [|symmetry; apply congr_mod]); apply eq_congr; ring.
Qed.

Lemma ladder_round_spec k u U s pq b c i : rep u U -> holds_pair s pq b -> Z.land (Z.shiftr (nth (i / BYTES) k 0) (Z.of_nat (i mod BYTES))) 1 = Z.b2z c ->
  holds_pair (ladder_round k u s i) (next_multiples U pq c) c.
Proof.
  intros Hu Hs Ec. unfold ladder_round. rewrite Ec. destruct (swapped_pair s pq b c Hs) as (y1 & y2 & w1 & w2 & -> & -> & H1 & H2). destruct pq as [p q].
  cbn zeta. split; [done|]. cbn [x1 z1 x2 z2 next_multiples]. pose proof (ladder_double _ _ _ H1). pose proof (ladder_add _ _ _ _ _ _ _ _ H1 H2 Hu) as Ha. destruct c; cbn [fst snd] in *; [rewrite differential_add_comm in Ha|]; by split.
Qed.

(** ** Scalar and coordinate *)
Lemma word_bit l : words_ok 32 l -> forall j i, 0 <= i < 32 -> Z.testbit (val l) (32 * Z.of_nat j + i) = Z.testbit (nth j l 0) i.
Proof.
  induction 1 as [|x l Hx Hl IH]; intros j i Hi; [by destruct j; cbn; rewrite !Z.bits_0|]. cbn [value]. destruct j as [|j]; cbn [nth].
  - replace (32 * Z.of_nat 0 + i) with i by lia. rewrite <- (Z.mod_pow2_bits_low (x + B * val l) 32) by lia. rewrite (Z.mul_comm B), Z.mod_add, Z.mod_small by (done || lia). done.
  - rewrite <- (IH j i Hi). replace (32 * Z.of_nat (S j) + i) with (32 * Z.of_nat j + i + 32) by lia. rewrite <- Z.div_pow2_bits by lia. f_equal. rewrite (Z.mul_comm B), Z.div_add, Z.div_small by (done || lia). lia.
Qed.

Lemma scalar_bit k i : words_ok 32 k -> Z.land (Z.shiftr (nth (i / BYTES) k 0) (Z.of_nat (i mod BYTES))) 1 = Z.b2z (Z.testbit (val k) (Z.of_nat i)).
Proof.
  intros Hk. change 1 with (Z.ones 1). rewrite Z.land_ones, Z.shiftr_div_pow2 by lia. change (2 ^ 1) with 2. rewrite <- Z.testbit_spec' by lia. f_equal. pose proof (Nat.mod_upper_bound i 32 ltac:(lia)). rewrite <- word_bit by (done || (unfold BYTES; lia)). f_equal.
  unfold BYTES. pose proof (Nat.div_mod i 32 ltac:(lia)). lia.
Qed.

Lemma mask_low x : in_width 32 x -> Z.land x 0xFFFFFFF8 = 8 * (x / 8).
Proof.
  intros Hx. change 0xFFFFFFF8 with (Z.ldiff (Z.ones 32) (Z.ones 3)).
  replace (Z.land x (Z.ldiff (Z.ones 32) (Z.ones 3))) with (Z.ldiff (Z.land x (Z.ones 32)) (Z.ones 3)).
  - rewrite Z.land_ones, Z.mod_small by (done || lia). rewrite Z.ldiff_ones_r, Z.shiftr_div_pow2, Z.shiftl_mul_pow2 by lia. change (2 ^ 3) with 8. lia.
  - apply Z.bits_inj'. intros n Hn. rewrite Z.ldiff_spec, !Z.land_spec, Z.ldiff_spec. by rewrite andb_assoc.
Qed.

Lemma mask_top x : in_width 32 x -> Z.lor (Z.land x 0x7FFFFFFF) 0x40000000 = 2 ^ 30 + x mod 2 ^ 30.
Proof.
  intros Hx. change 0x7FFFFFFF with (Z.ones 31). change 0x40000000 with (2 ^ 30). rewrite Z.land_ones by lia. rewrite <- (Z.mod_small (2 ^ 30 + x mod 2 ^ 30) (2 ^ 31)) by (pose proof (Z.mod_pos_bound x (2 ^ 30)); lia).
  apply Z.bits_inj'. intros n Hn. rewrite Z.lor_spec, Z.pow2_bits_eqb by lia. destruct (Z.lt_ge_cases n 31) as [H|H].
  - rewrite !Z.mod_pow2_bits_low by lia. destruct (Z.eqb_spec 30 n) as [<-|Hne].
    + rewrite orb_true_r. symmetry. apply Z.testbit_true; [lia|]. replace (2 ^ 30 + x mod 2 ^ 30) with (x mod 2 ^ 30 + 1 * 2 ^ 30) by lia. rewrite Z.div_add, Z.div_small by (try apply Z.mod_pos_bound; lia). done.
    + rewrite orb_false_r. rewrite <- (Z.mod_pow2_bits_low (2 ^ 30 + _) 30), <- (Z.mod_pow2_bits_low x 30) by lia. f_equal. rewrite Z.add_mod_idemp_r by lia. replace (2 ^ 30 + x) with (x + 1 * 2 ^ 30) by lia. by rewrite Z.mod_add by lia.
  - rewrite !Z.mod_pow2_bits_high by lia. apply orb_false_iff. split; [done|]. apply Z.eqb_neq. lia.
Qed.

Lemma clamp_spec k : length k = 8%nat -> words_ok 32 k -> length (clamp k) = 8%nat /\ words_ok 32 (clamp k) /\ val (clamp k) = x25519_scalar (val k).
Proof.
  intros Hl Hw. destruct (list_8_words k Hl Hw) as (a0 & a1 & a2 & a3 & a4 & a5 & a6 & a7 & -> & H). unfold clamp. cbn [nth list_insert insert list.list_insert]. repeat (apply Forall_cons in H as [? H]).
  rewrite mask_low, mask_top by done. unfold in_width in *. assert (Hlow : 0 <= 8 * (a0 / 8) <= a0) by (split; [apply Z.mul_nonneg_nonneg; [lia|apply Z.div_pos; lia]|apply Z.mul_div_le; lia]).
  pose proof (Z.mod_pos_bound a7 (2 ^ 30) ltac:(lia)). split; [done|]. split; [repeat constructor; unfold in_width; lia|]. unfold x25519_scalar. cbn [value].
  set (m := a0 + B * (a1 + B * (a2 + B * (a3 + B * (a4 + B * (a5 + B * (a6 + B * (a7 mod 2 ^ 30)))))))). pose proof (Z.div_mod a7 (2 ^ 30) ltac:(lia)). assert (E : (a0 + B * (a1 + B * (a2 + B * (a3 + B * (a4 + B * (a5 + B * (a6 + B * (a7 + B * 0)))))))) mod 2 ^ 254 = m).
  { symmetry. apply Z.mod_unique_pos with (a7 / 2 ^ 30); subst m; [|lia]. set (r := a7 mod 2 ^ 30) in *. clearbody r. lia. }
  rewrite E. pose proof (Z.div_mod a0 8 ltac:(lia)). pose proof (Z.mod_pos_bound a0 8 ltac:(lia)). replace (m / 8) with (a0 / 8 + 2 ^ 29 * (a1 + B * (a2 + B * (a3 + B * (a4 + B * (a5 + B * (a6 + B * (a7 mod 2 ^ 30)))))))); [lia|].
  apply Z.div_unique_pos with (a0 mod 8); [done|]. subst m. set (r := a7 mod 2 ^ 30) in *. lia.
Qed.

Lemma decode_spec u : length u = 8%nat -> words_ok 32 u -> rep (decode_coordinate u) (x25519_coordinate (val u)) /\ fe (decode_coordinate u).
Proof.
  intros Hl Hw. unfold decode_coordinate. destruct (masked_top u Hl Hw) as (Ml & Mw & Mv & _). set (m := <[_ := _]> u) in *. clearbody m. pose proof (Z.mod_pos_bound (val u) (2 ^ 255) ltac:(lia)). destruct (modular_reduce_spec m Ml Mw) as [Hf Hv]; [unfold P25519; lia|].
  split; [|done]. apply rep_congr with (val (modular_reduce m)); [by apply rep_fe|]. unfold x25519_coordinate. by rewrite Hv, Mv.
Qed.

(** ** The ladder *)
Lemma ladder_fold k u U l : rep u U -> words_ok 32 k -> forall s pq b, holds_pair s pq b ->
  exists c, holds_pair (foldl (ladder_round k u) s l) (foldl (next_multiples U) pq (map (fun i => Z.testbit (val k) (Z.of_nat i)) l)) c.
Proof.
  intros Hu Hk. induction l as [|i l IH]; intros s pq b Hs; [by exists b|]. cbn [foldl map]. eapply IH, ladder_round_spec; [done|exact Hs|by apply scalar_bit].
Qed.

Lemma rep_set x : 0 <= x < B -> rep (set x) x.
Proof.
  intros Hx. assert (E : val (set x) = x) by (unfold set; cbn [value replicate]; lia). rewrite <- E at 2. apply rep_fe. split; [done|]. split; [repeat constructor; unfold in_width; lia|]. rewrite E. unfold P25519. lia.
Qed.

Lemma rep_words l z : rep l z -> length l = 8%nat /\ words_ok 32 l.
Proof. intros [(H1 & H2 & _) _]. by split. Qed.

Lemma montgomery_ladder_spec k u U : rep u U -> words_ok 32 k -> rep (montgomery_ladder k u) (let '(x, z) := multiple U (val k) in z ^ (P25519 - 2) * x).
Proof.
  intros Hu Hk. assert (H0 : holds_pair (mkLadder (set 1) (set 0) (Curve25519.copy u) (set 1) 0) ((1, 0), (U, 1)) false) by (split; [done|]; split; split; cbn [x1 z1 x2 z2 fst snd]; (exact Hu || by apply rep_set)).
  destruct (ladder_fold k u U (rev (seq 0 BITS)) Hu Hk _ _ _ H0) as [c Hc]. unfold montgomery_ladder, multiple. change 255%nat with BITS. set (s := foldl (ladder_round k u) _ _) in *. set (pq := foldl (next_multiples U) _ _) in *. clearbody s pq.
  destruct (swapped_pair s pq c false Hc) as (y1 & y2 & w1 & w2 & E1 & E2 & [Hx Hz] & _). change (Z.b2z false) with 0 in E1, E2. rewrite Z.lxor_0_r in E1, E2. rewrite E1, E2. destruct pq as [[x z] q]. cbn [fst snd] in *. apply rep_multiply; [by apply modular_multiply_inverse_rep|done].
Qed.

(** ** Bytes *)
Lemma import_spec data : length data = 32%nat -> Forall is_byte data -> exists l, import_state data = Ok l /\ length l = 8%nat /\ words_ok 32 l /\ val l = value 8 data.
Proof.
  intros Hl Hb. unfold import_state. destruct (load_words_spec data 0 ltac:(lia) Hb) as (a0 & a1 & a2 & a3 & -> & W1 & V1). destruct (load_words_spec data 16 ltac:(lia) Hb) as (b0 & b1 & b2 & b3 & -> & W2 & V2).
  eexists. split; [reflexivity|]. split; [done|]. split; [by apply Forall_app|]. rewrite (value_app 32) by lia. rewrite V1, V2. change (weight 32 _) with (2 ^ 128). rewrite drop_0. rewrite <- (take_drop 16 data) at 3. rewrite (value_app 8) by lia.
  rewrite length_take, Hl. change (weight 8 _) with (2 ^ 128). rewrite (take_ge (drop 16 data)) by (rewrite length_drop; lia). done.
Qed.

Lemma export_spec l : words_ok 32 l -> length (export_state l) = (4 * length l)%nat /\ Forall is_byte (export_state l) /\ value 8 (export_state l) = val l.
Proof.
  unfold export_state. induction 1 as [|x l Hx Hl IH]; [done|]. destruct IH as (H1 & H2 & H3). destruct (word_bytes_spec x Hx) as [V F]. cbn [map concat]. split; [rewrite length_app, H1; cbn; lia|]. split; [by apply Forall_app|].
  rewrite (value_app 8) by lia. rewrite V, H3. done.
Qed.

Section X25519_proofs.
Context {G : GoodSize}.

(** A buffer of 32 bytes is filled without an allocation. *)
Lemma fill_wp data h : length data = 32%nat ->
  wp (buffer ← create_uninitialized inline_capacity (Z.of_nat BYTES); lift (write buffer 0 (map Some data))) h (fun r h' => exists b, r = Ok b /\ h' = h /\ contents b = map Some data).
Proof.
  intros Hl. wp_step. eapply wp_mono; [apply create_buffer_wp; done|]. intros [b|e|] h'; [|by intros (_ & _ & ?)|done]. intros (Hw & Hm & Hh & _). change (Z.of_nat BYTES) with 32 in *. specialize (Hh ltac:(done)). subst h'. wp_step.
  destruct (write_ok inline_capacity b 0 (map Some data) Hw ltac:(lia)) as (b' & E & _ & _ & _ & Hc); [rewrite length_map; lia|]. rewrite E. exists b'. split; [done|]. split; [done|]. pose proof (contents_length inline_capacity b Hw). rewrite Hc, (drop_ge (contents b)) by (rewrite length_map; lia).
  by rewrite app_nil_r.
Qed.

Lemma compute_coordinate_wp k u h : length k = 32%nat -> length u = 32%nat -> Forall is_byte k -> Forall is_byte u ->
  exists b out, compute_coordinate k u h = (Ok b, h) /\ contents b = map Some out /\ length out = 32%nat /\ Forall is_byte out /\ value 8 out = x25519 (value 8 k) (value 8 u).
Proof.
  intros Lk Lu Bk Bu. destruct (import_spec k Lk Bk) as (kw & Ek & Kl & Kw & Kv). destruct (import_spec u Lu Bu) as (uw & Eu & Ul & Uw & Uv). destruct (clamp_spec kw Kl Kw) as (Cl & Cw & Cv). destruct (decode_spec uw Ul Uw) as [Hu _].
  pose proof (montgomery_ladder_spec _ _ _ Hu Cw) as Hm. rewrite Cv, Kv, Uv in Hm. pose proof (rep_mod _ _ Hm) as Hv. remember (montgomery_ladder _ _) as r eqn:Er in *.
  destruct (rep_words _ _ Hm) as [Rl Rw]. destruct (export_spec r Rw) as (El & Eb & Ev). rewrite Rl in El.
  pose proof (fill_wp (export_state r) h El) as Hf.  unfold wp in Hf. destruct Hf as (b & E1 & E2 & Hc). exists b, (export_state r).
  split; [|split; [done|]; split; [done|]; split; [done|]; rewrite Ev, Hv; unfold x25519; by destruct (multiple _ _)].
  unfold compute_coordinate. cbn [kbind M_monad lift]. rewrite Ek, Eu. rewrite <- Er. rewrite (surjective_pairing (_ h)) . rewrite <- E1. by f_equal.
Qed.
End X25519_proofs.

(** ** The formulas on the curve
    The specification doubles and adds with formulas in the coordinate x alone.  They agree with the construction by
    tangents and chords, for all slopes that the construction can take. *)
#[local] Notation "a ≡ b" := (a == b [mod P25519]) (at level 70, b at next level).

Definition on_curve (x y : Z) : Prop := y * y ≡ x * x * x + A * (x * x) + x.
Definition represents (p : point) (x : Z) : Prop := p.1 ≡ x * p.2.

Lemma double_on_curve p x y slope : represents p x -> on_curve x y -> slope * (2 * y) ≡ 3 * (x * x) + 2 * A * x + 1 ->
  represents (double p) (slope * slope - A - 2 * x).
Proof.
  destruct p as [X Z]. unfold represents, on_curve. cbn [double fst snd]. intros Hp Hc Hs. rewrite !congr_mod, Hp. set (x3 := slope * slope - A - 2 * x).
  assert (E : x3 * (4 * (y * y)) ≡ (x * x - 1) ^ 2).
  { transitivity ((slope * (2 * y)) * (slope * (2 * y)) - (A + 2 * x) * (4 * (y * y))); [apply eq_congr; subst x3; ring|]. rewrite Hs, Hc. apply eq_congr. ring. }
  rewrite Hc in E. transitivity (Z ^ 4 * (x * x - 1) ^ 2); [apply eq_congr; ring|]. rewrite <- E. apply eq_congr. ring.
Qed.

Lemma chord_product x y x' y' sum_slope difference_slope : on_curve x y -> on_curve x' y' ->
  sum_slope * (x' - x) ≡ y' - y -> difference_slope * (x' - x) ≡ - y' - y -> ~ (P25519 | x' - x) ->
  (x * x' - 1) ^ 2 ≡ (sum_slope * sum_slope - A - x - x') * ((difference_slope * difference_slope - A - x - x') * (x - x') ^ 2).
Proof.
  unfold on_curve. intros Hp Hq Hs Hd Hne. set (d := x' - x) in *. set (S := (x + x') * (x * x' + 1) + 2 * A * (x * x')).
  assert (E1 : (sum_slope * sum_slope - A - x - x') * (d * d) ≡ S - 2 * (y * y')).
  { transitivity ((sum_slope * d) * (sum_slope * d) - (A + x + x') * (d * d)); [apply eq_congr; ring|]. rewrite Hs. transitivity (y * y + y' * y' - 2 * (y * y') - (A + x + x') * (d * d)); [apply eq_congr; ring|]. rewrite Hp, Hq. apply eq_congr. subst d S. ring. }
  assert (E2 : (difference_slope * difference_slope - A - x - x') * (d * d) ≡ S + 2 * (y * y')).
  { transitivity ((difference_slope * d) * (difference_slope * d) - (A + x + x') * (d * d)); [apply eq_congr; ring|]. rewrite Hd. transitivity (y * y + y' * y' + 2 * (y * y') - (A + x + x') * (d * d)); [apply eq_congr; ring|]. rewrite Hp, Hq. apply eq_congr. subst d S. ring. }
  assert (Hr : rel_prime P25519 (d * d)) by (apply rel_prime_mult; (apply prime_rel_prime; [exact prime_25519|exact Hne])).
  apply (congr_cancel P25519 (d * d)); [done|exact Hr|]. set (a := sum_slope * sum_slope - A - x - x') in *. set (b := difference_slope * difference_slope - A - x - x') in *. clearbody a b.
  symmetry. transitivity ((a * (d * d)) * (b * (d * d))); [apply eq_congr; subst d; ring|]. rewrite E1, E2. transitivity (S * S - 4 * ((y * y) * (y' * y'))); [apply eq_congr; ring|]. rewrite Hp, Hq. apply eq_congr. subst d S. ring.
Qed.

(** [u] is the coordinate of the difference: the chord through the first point and the negative of the second *)
Lemma add_on_curve u p q x y x' y' sum_slope difference_slope : represents p x -> represents q x' -> on_curve x y -> on_curve x' y' ->
  sum_slope * (x' - x) ≡ y' - y -> difference_slope * (x' - x) ≡ - y' - y -> ~ (P25519 | x' - x) ->
  u ≡ difference_slope * difference_slope - A - x - x' ->
  represents (differential_add u p q) (sum_slope * sum_slope - A - x - x').
Proof.
  intros Hp Hq Hc Hc' Hs Hd Hne Hu. pose proof (chord_product _ _ _ _ _ _ Hc Hc' Hs Hd Hne) as E. destruct p as [X Z], q as [X' Z']. unfold represents in *. cbn [differential_add fst snd] in *. rewrite !congr_mod, Hp, Hq, Hu.
  set (a := sum_slope * sum_slope - A - x - x') in *. set (b := difference_slope * difference_slope - A - x - x') in *. clearbody a b. transitivity (4 * (Z * Z') ^ 2 * (x * x' - 1) ^ 2); [apply eq_congr; ring|]. rewrite E. apply eq_congr. ring.
Qed.

(** ** The interface *)
(** The call returns the bytes and leaves the heap alone. *)
Definition returns (m : M Heap ByteBuffer) (h : Heap) (bytes : list Z) : Prop := exists b, m h = (Ok b, h) /\ contents b = map Some bytes.

Lemma fill_returns {G : GoodSize} data h : length data = 32%nat -> returns (generate_private_key data) h data.
Proof.
  intros Hl. pose proof (fill_wp data h Hl) as (b & E1 & E2 & Hc). exists b. split; [|done]. unfold generate_private_key. rewrite (surjective_pairing (_ h)). by rewrite E1, E2.
Qed.

Lemma derive_returns {G : GoodSize} shared h : length shared = 32%nat -> returns (derive_premaster_key shared) h shared.
Proof.
  intros Hl. pose proof (copy_wp inline_capacity (map Some shared) h) as H. rewrite length_map, Hl in H. specialize (H ltac:(done)). unfold wp in H. unfold returns, derive_premaster_key. cbn [kbind M_monad]. rewrite Hl. cbn [Nat.eqb BYTES VERIFY]. 
  destruct (ByteBuffer.copy _ _ h) as [[b|e|] h'] eqn:E; cbn [fst snd] in H; [|lia|done]. destruct H as (_ & Hc & Hh & _). rewrite (Hh ltac:(done)). by exists b.
Qed.

(** C8: X25519 is the function of RFC 7748, whatever allocations would fail: for 32-byte arguments
    [compute_coordinate] returns, without touching the heap, the 32 bytes of the coordinate of the multiple of the point
    with coordinate [u], with the scalar clamped and the coordinate reduced as the RFC demands; a public key is the
    multiple of the point with coordinate 9; a private key is the random bytes; and a premaster key is the shared point,
    which must have 32 bytes. *)
Theorem x25519_exact {G : GoodSize} (k u entropy shared : list Z) (h : Heap) :
  length k = 32%nat -> length u = 32%nat -> length entropy = 32%nat -> Forall is_byte k -> Forall is_byte u ->
  (exists out, returns (compute_coordinate k u) h out /\ length out = 32%nat /\ Forall is_byte out /\ value 8 out = x25519 (value 8 k) (value 8 u))
  /\ (exists out, returns (generate_public_key k) h out /\ length out = 32%nat /\ Forall is_byte out /\ value 8 out = x25519 (value 8 k) 9)
  /\ returns (generate_private_key entropy) h entropy
  /\ (if decide (length shared = 32%nat) then returns (derive_premaster_key shared) h shared else derive_premaster_key shared h = (Panic, h)).
Proof.
  intros Lk Lu Le Bk Bu. split; [|split; [|split; [by apply fill_returns|]]].
  - destruct (compute_coordinate_wp k u h Lk Lu Bk Bu) as (b & out & E & Hc & H). exists out. split; [by exists b|exact H].
  - assert (Bg : Forall is_byte (9 :: replicate 31 0)) by (constructor; [done|]; by apply Forall_replicate). destruct (compute_coordinate_wp k (9 :: replicate 31 0) h Lk eq_refl Bk Bg) as (b & out & E & Hc & H). exists out. split; [by exists b|exact H].
  - destruct (decide _) as [Hl|Hl]; [by apply derive_returns|]. unfold derive_premaster_key. apply Nat.eqb_neq in Hl. cbn [kbind M_monad]. change BYTES with 32%nat. by rewrite Hl.
Qed.

Lemma x25519_exact_witness :
  let k := 77 :: replicate 31 255 in let u := 5 :: replicate 31 254 in let h := mkHeap [false] 0 in
  (exists out, returns (compute_coordinate k u) h out /\ length out = 32%nat /\ Forall is_byte out /\ value 8 out = x25519 (value 8 k) (value 8 u))
  /\ (exists out, returns (generate_public_key k) h out /\ length out = 32%nat /\ Forall is_byte out /\ value 8 out = x25519 (value 8 k) 9)
  /\ returns (generate_private_key u) h u
  /\ (if decide (length [1; 2; 3] = 32%nat) then returns (derive_premaster_key [1; 2; 3]) h [1; 2; 3] else derive_premaster_key [1; 2; 3] h = (Panic, h)).
Proof.
  apply x25519_exact; [done|done|done| |]; (constructor; [done|]; by apply Forall_replicate).
Defined.
